(* ===== verification/_CoqProject ===== *)
-Q . S2P
Prelude.v
RustStr.v
Net.v
UriLib.v
HostMemory.v
ProcessMemory.v
GuestMemory.v
InstancePool.v
DriverRace.v
Abandon.v
Volumes.v
StoreLib.v
KvMemory.v
KvBackend.v
KvHandlers.v
Wit.v
BindingKeys.v
NatsPolicy.v
MsgAdmission.v
Messaging.v
NatsInbox.v
Linking.v
Multiplex.v
BlobMemory.v
EgressPolicy.v
InternalNames.v
DeclaredPort.v
Ports.v
AllowedLoopback.v
AllowedIpName.v
AllowedHosts.v
Lifecycle.v
LifecycleSafety.v
HttpRouter.v
HttpIngress.v
SocketUtil.v
Quota.v
ResolvedNames.v
SocketPolicy.v
Slots.v
PluginEgress.v
Bindings.v
NatsConfig.v
NameLookup.v
LoopbackNet.v
UdpSocket.v
UdpHandlers.v
UdpP2.v
TcpStreams.v
TcpP3Streams.v
TcpSocket.v
TcpPorts.v
TcpHandlers.v
TcpSafety.v
TcpShared.v
