(* ===== verification/Prelude.v ===== *)
(** * wash-runtime: the network boundary, HTTP routing, workloads, memory, instances, storage

    wash-runtime runs WebAssembly guests.  Everything a guest sends or hears
    passes through a boundary made of several parts of [crates/wash-runtime/src]:
    what an operator wrote in the configuration ([host/allowed_hosts.rs],
    [host/allowed_ip_name.rs], [host/allowed_loopback.rs],
    [host/declared_port.rs]), what the host keeps while it runs
    ([host/ports.rs], [host/quota.rs], [sockets/resolved_names.rs]), the policy
    that decides every use of an address ([sockets/policy.rs],
    [host/egress_policy.rs], [sockets/internal_names.rs]), and the handlers that
    ask it ([sockets/host_ip_name_lookup*.rs], [sockets/host_udp*.rs],
    [sockets/host_tcp*.rs], [plugin/egress.rs]) before they touch a real socket
    or the workload's private virtual network ([sockets/udp.rs],
    [sockets/tcp.rs], [sockets/loopback]).  Below it, the engine decides how much
    memory guests may use ([engine/host_memory.rs], [engine/guest_memory.rs],
    [engine/process_memory.rs]) and which warm instance takes a call
    ([engine/instance_pool.rs], [engine/instance_driver.rs]), ends guests whose
    calls nobody waits for ([engine/abandon.rs]) and opens the host directories they
    mount ([engine/volumes.rs]).  Beside them, plugins
    give guests storage: matched to a workload by the interfaces it imports
    ([wit.rs], [plugin/mod.rs]), they keep data per workload
    ([plugin/wasi_keyvalue], [plugin/wasi_blobstore]) or share connections to
    backends through a pool ([plugin/multiplex.rs]); each is configured by what
    the operator declared for it and what a workload adds ([plugin/bindings.rs]),
    and NATS is reached within the grant that results ([plugin/wasmcloud_nats]); others
    carry messages between components ([plugin/wasmcloud_messaging]).
    In front, the HTTP ingress
    ([host/http.rs]) takes requests from the network and from guests and finds the
    workload that serves each; and the host itself ([host/mod.rs],
    [host/cleanup.rs]) starts, stops and cleans up workloads.  This library models
    those parts and proves what makes them hold.

    ** Files

    - [Prelude]: results and their notation, orders and first elements of sets
      (what [BTreeSet] and [BTreeMap] give the code), shared lemmas and tactics.
    - [RustStr], [Net]: the parts of Rust's [str], integer parsing and
      [core::net] the code uses, addresses parsed as the standard library does.
    - [UriLib]: the [url] and [http] crates as a class of operations with the
      documented behaviour that is relied on, and an instance that satisfies it.
    - [EgressPolicy] ([host/egress_policy.rs]): the octet tests of each address
      range; equal to a table of CIDR blocks.
    - [InternalNames] ([sockets/internal_names.rs]): the reserved zone
      [wasmcloud.internal] and the sentinel address of the machine.
    - [DeclaredPort], [Ports] ([host/declared_port.rs], [host/ports.rs]): the
      ports a guest may expose, their validation, and the table of live
      reservations as a transition system.
    - [AllowedLoopback], [AllowedIpName], [AllowedHosts]: the three allowlists:
      parsing, printing, and what an entry grants to an HTTP request, a raw
      socket, a native client and a name lookup.
    - [SocketUtil] ([sockets/util.rs], small types of [sockets/mod.rs]): error
      codes and their mapping, address validation, clamping of socket options.
    - [Quota] ([host/quota.rs]): budgets from descriptor limits, permits per
      guest and per host, the registry with its expiring cache, the counters.
    - [ResolvedNames] ([sockets/resolved_names.rs]): the history of what a store
      resolved, four indexes kept together under bounds and expiry.
    - [SocketPolicy] ([sockets/policy.rs], [SocketAddrCheck] and
      [WasiSocketsCtx] of [sockets/mod.rs]): every decision, over the permits and
      counters it changes.
    - [Slots]: what holding a connection slot means for the permits, shared by
      the socket handlers.
    - [PluginEgress] ([plugin/egress.rs]): the check a native plugin makes of an
      endpoint before it dials, and the redaction of credentials.
    - [NameLookup]: [wasi:sockets/ip-name-lookup], the p2 stream and the p3 call.
    - [LoopbackNet], [UdpSocket] ([sockets/loopback], [sockets/udp.rs]): the
      virtual network, the real and the virtual half of a UDP socket.
    - [UdpHandlers] ([sockets/host_udp_p3.rs]): the p3 handlers over one socket,
      the shared network, the permits and the process's datagram channels.
    - [UdpP2] ([sockets/host_udp.rs], [sockets/p2_udp.rs],
      [sockets/network.rs]): the p2 handlers over one socket and its streams.
    - [TcpStreams], [TcpP3Streams] ([sockets/p2_tcp.rs], the producers and
      consumers of [sockets/host_tcp_p3.rs]): byte streams over the pipes of the
      virtual network and over a kernel socket.
    - [TcpSocket] ([sockets/tcp.rs], [sockets/loopback/tcp.rs]): the real half,
      the virtual half and the socket a guest holds; the fabric behind the
      virtual network.  [TcpPorts]: that every operation keeps the socket's port
      registered and touches no other socket's.
    - [TcpHandlers] ([sockets/host_tcp.rs], [sockets/host_tcp_create_socket.rs],
      [sockets/host_tcp_p3.rs]): the handlers of both generations, the histories
      of one socket, and what each call does to its slot and its port.
      [TcpSafety]: the theorems about them.  [TcpShared]: all the sockets of a
      workload on its one virtual network, as a transition system.

    - [HostMemory] ([engine/host_memory.rs], [footprint.rs]): sizes as text, the
      limits a process is under, the budgets derived from them, the advisories.
    - [ProcessMemory] ([engine/process_memory.rs], [sampling.rs]): the guard that
      refuses work while the process is past its limit, and the registry that
      samples the footprint for every guard.
    - [GuestMemory] ([engine/guest_memory.rs]): the budget all stores share, and
      the limiter of each; it sees the process guard through the class
      [ProcessGate], which the registry of [ProcessMemory] implements.
    - [InstancePool] ([engine/instance_pool.rs], [engine/instance_driver.rs]): the
      policy a component declares, drivers, dispatch, reclaiming, closing.
      [DriverRace]: the atomic accesses of one driver, interleaved.
    - [Abandon] ([engine/abandon.rs]): calls nobody waits for any more, the execution
      credited to a guest, and the callback that ends a store.
    - [Volumes] ([engine/volumes.rs]): which host directories a workload may mount.
    - [StoreLib]: integers as bytes, pages of a sorted listing, storage kept by
      workload, and the histories of a host with a storage plugin.
    - [KvMemory] ([plugin/wasi_keyvalue/in_memory.rs]), [BlobMemory]
      ([plugin/wasi_blobstore/in_memory.rs]): the plugins that keep data in the
      host's memory.
    - [KvBackend] ([plugin/wasi_keyvalue/multiplexed.rs] and its [in_memory.rs]):
      the backend trait as the class [KvBackend] with laws [KvLaws], and the
      in-memory backend as an instance of both.  [KvHandlers]
      ([multiplexed.rs], [multiplexed_async.rs]): the handlers, over any backend.
    - [Wit] ([wit.rs], the entries, overrides and tracker of [plugin/mod.rs]):
      versions, interfaces, worlds.
    - [Linking] (the link step of [engine/workload.rs]): which component, plugin or
      host serves an import, the order components are linked in, what each reaches.
    - [BindingKeys], [Bindings] ([plugin/bindings.rs]): a plugin's keys and who owns
      each, the operator's declaration, and what a workload's entries resolve to
      under each policy.
    - [NatsPolicy], [NatsInbox], [NatsConfig] ([plugin/wasmcloud_nats]): subject
      patterns and the checks of a workload's grant; the prefixes replies arrive
      under; the keys of the plugin, the configuration and the subscriptions read
      from a resolved binding, and when a grant narrows another.
    - [MsgAdmission], [Messaging] ([plugin/wasmcloud_messaging]): the ceilings on
      messages in flight and the gates replicas share; inboxes, routing, requests and
      replies of the in-memory plugin.
    - [Multiplex] ([plugin/multiplex.rs]): the pool of connections, and binds as
      they interleave.
    - [Lifecycle] ([host/mod.rs], [host/cleanup.rs], the journal of
      [engine/workload.rs]): the states of a workload id, the functions that run under
      the map's lock, and the commands of a host as a transition system.
      [LifecycleSafety]: its invariant and the theorems.
    - [HttpRouter], [HttpIngress] ([host/http.rs]): routes, the table they are kept
      in and the selection of a workload; the ceiling on connections, the tables of
      an ingress, where a request from the network or from a guest goes, and the
      quota slot of a request dispatched on the host.

    ** What the theorems show

    - Egress.  An enforcing policy allows exactly what a three-clause
      specification grants; it allows the machine's own loopback only for
      the sentinel, with the switch, a grant and a port the host does not own; every
      other real connection it allows is covered by an entry or by a name the same store
      resolved into that address and whose grant has not lapsed; count mode
      predicts what enforcing would do; every refusal is counted once.
    - Exposure.  A component never listens; a real bind is the ephemeral one
      egress needs or an address declared for the plugin; validated port lists
      are exactly the conflict-free ones; the port table is the live reservations.
    - Names.  What the resolver is asked, what a lookup records, agreement of
      the two generations; the indexes agree and stay within bounds; a recorded
      answer is usable until its deadline; eviction is oldest first.
    - Allowlists.  Characterisations of each entry's grant and round trips of
      the text forms.
    - Resources.  Permits are conserved in every history, per guest and per
      host; a UDP socket returns what it took; the bytes queued on the virtual
      network are paid for out of one budget.
    - UDP.  A datagram travels on the plane that was decided; virtual datagrams
      arrive in order and unchanged; an unspecified bind hears only replies; the
      virtual half is never lost and dropping never traps.  In p2, a batch
      reports exactly what was sent and a socket's send buffer is conserved.
    - TCP.  A connection goes to the granted address on the granted plane; only
      authorised connections are handed over, and accepting ends after at most
      32 connections of the kernel's and 32 of a virtual backlog; over any history
      a socket returns the permits it took; the virtual port it holds is its own
      whatever the workload's other sockets do, and its drop gives it back; a
      virtual connect meets its accept, in its turn; streams deliver bytes whole and in order on both planes, and a closed one
      can be read to its end.
    - Plugins.  A plugin's endpoint passes only where its workload's entries,
      ranges and loopback door say so; redacted endpoints show no credentials.
    - Memory.  A size is read exactly, and printed sizes are read back; the limit
      found is the least the process is under; guest memory is conserved and never
      past an enforced cap, and counting predicts what enforcing would do; a guard
      refuses exactly as its footprint says and does not refuse for ever.
    - Instances.  A pool keeps the limits its component declared, loses no call it
      was given, reclaims only idle instances and shrinks to its floor while its
      runtime lives; a driver's last signal is not lost, whatever the interleaving.
    - Storage.  A workload's data is reached by its own calls only, and exists only
      while it is bound; what was written is read; listings are complete whatever
      the pages; counters add up; a compare-and-swap succeeds only if nothing was
      written in between, and of racing conditional sets the first wins; a bucket
      reaches the one backend it was opened on.
    - Interfaces.  Version compatibility is an equivalence with a closed form; what
      is printed is parsed back; overrides are accepted exactly when each is of an
      interface of the host and no two plugins' overlap; the tracker's two indexes
      agree.
    - Linking.  Components are sorted after what they import from, exactly when there
      is no cycle, and in the same order however the maps are walked; each, and the
      service, is linked to exactly what it reaches, unless the workload is at fault, and
      then it is refused for that fault; interfaces with several exporters are ambiguous and no
      others; an interface some plugin can serve is taken by one, and a label by the
      plugin it was declared for.
    - Configuration.  A schema means what was declared of it, in any order; a
      workload's entries fold exactly when they agree; under [deny] a key the host
      owns has the operator's value and a ceiling is only narrowed; [warn] logs exactly
      what [deny] would refuse; every resolved binding has each key once and has the
      keys its plugin requires.
    - NATS.  A pattern contains another exactly when it matches every subject the
      other does, and two overlap exactly when they share a subject; a subscription
      that is allowed delivers only subjects the workload could be granted, none of
      them reserved or an inbox; under [deny] what a workload may reach is within
      what the operator declared; the derived inboxes of two workloads or bindings are
      apart where binding names begin with a letter;
      accepted subscriptions can be served, and derived limits are within bounds.
    - Messaging.  Messages in flight stay within the host's total and, at the gate a
      component's replicas share while it is bound, within its ceiling; a gate closes with its last binding; a
      message waits only for others in flight; the derived ceilings fit the engine's
      pool.  A message reaches exactly the components subscribed to it, within its
      workload; a request has one answer; subscriptions and NATS grants match alike.
    - Abandonment.  Unless its host is gone, a guest is ended only when nobody wants any
      call it serves, a call was given up a grace ago, and it has run through its grace
      while that was so; one that never yields is ended; what is metered is never more
      than the time that passed.
    - Volumes.  A volume is opened exactly when nothing below it is the host's own, kernel
      filesystems and links included, and all of it lies where the host allows; a refusal
      is counted where the host meters them.
    - Connections.  Binds that name one backend the same way share its connection,
      and no others do; eviction removes the least recently used; the pool stays
      within its ceilings but for binds under way and entries of failed ones.
    - Workloads.  Every id follows one lifecycle, is held by exactly one command or
      recovery, and can be freed from every state but for those a stopped host left to
      nobody; a teardown undoes what its own start bound, a running workload keeps its
      bindings but for what a plugin itself evicts, a stopped start never runs, and
      a free id is clean unless a failure's teardown was cut short.
    - Routing.  Whatever the history, a request is given to a workload that declared
      the longest matching prefix of its host in the scope it came from, or the
      refusal says which of these there was none of; every ready replica can be
      chosen; the two scopes never meet; an unbound workload leaves no trace; a
      request during an update sees the table before it or after it.
    - Ingress.  Connections never pass the ceiling, and readiness is lost and
      regained exactly where the code says; a request dispatched on the host gives
      its slot back however it ends, and is one its caller's policy allows and its
      callee opted into.
    - Defects.  Theorems named in the findings exhibit histories in which the
      code departs from what its comments promise.

    ** Conventions

    Machine integers are [Z] with their width written out where it matters
    ([parse_uint], [fetch_add], [checked_add]); an [Instant] is a count of
    nanoseconds with a largest value.  Time, the operating system's answers and
    the resolver's answers are arguments.  Locks are not modelled: each handler
    runs under its mutex, so histories are sequences of whole calls.  Fuel
    appears in loops that shrink a finite set ([purge_loop],
    [shrink_associations], [shrink_names]), started at the size of that set plus
    one, in [raise_loop] (a halving from at most 2^20, 21 rounds) and in
    whitespace trimming (the length of the string); the theorems on those
    functions show the loops end before the fuel does.  [checked_pow10] tries the
    38 powers of ten below 2^128.  The accepting loops run
    on the code's own limit of 32 refusals, since every round but the last refuses
    one, the p2 write loop on the number of
    bytes, since the kernel takes at least one; p3's loops over a kernel socket
    end at the first round in which it does not claim to be ready and then block.
    Eviction from the pool runs on its size plus one, and the sort of components on
    their number plus one.  A reservation of a workload id
    is an integer that does not wrap: a host mints fewer than 2^64.

    ** Not modelled

    Polling and wakers, tracing, serialization derives, the raw system calls
    behind the socket wrappers, failures of the resource table (they trap), what
    wasmtime does inside a call and the functions it links, the clients of remote backends and the subscriber
    loops of messaging, which are I/O, the accept loop, TLS and the bodies of HTTP
    requests, what a start builds and whether a plugin accepts it, and the command line and the operator, which are
    user interface and cluster I/O. *)

From Stdlib Require Import ZArith Lia.
From stdpp Require Import base list gmap strings option sorting.

#[export] Set Warnings "-clear-no-such-hyp".

(** ** Errors as values

    Rust's [Result<A, E>].  The notations below read like the [?] operator. *)

Inductive result (A E : Type) : Type :=
  | Ok (a : A)
  | Err (e : E).
Arguments Ok {A E} a.
Arguments Err {A E} e.

#[global] Instance result_eq_dec `{EqDecision A, EqDecision E} :
  EqDecision (result A E).
Proof. solve_decision. Defined.

Definition is_ok {A E} (r : result A E) : bool :=
  match r with Ok _ => true | Err _ => false end.

Definition is_some {A} (o : option A) : bool :=
  match o with Some _ => true | None => false end.

(** [Option::is_some_and] and [Option::is_none_or]. *)
Definition is_some_and {A} (o : option A) (p : A → bool) : bool :=
  match o with Some a => p a | None => false end.

Definition is_none_or {A} (o : option A) (p : A → bool) : bool :=
  match o with Some a => p a | None => true end.

(** [Option::ok_or]. *)
Definition ok_or {A E} (o : option A) (e : E) : result A E :=
  match o with Some a => Ok a | None => Err e end.

Declare Scope rust_scope.
Delimit Scope rust_scope with rust.

(** [let? x := r in k] is [let x = r?; k]; [let?o x := o in k] is [?] on an
    [Option]; [ensure! b else e in k] is [ensure!(b, e); k]. *)
Notation "'let?' x ':=' r 'in' k" :=
  (match r with Ok x => k | Err e => Err e end)
  (at level 10, x pattern, r at level 100, k at level 200) : rust_scope.
Notation "'let?o' x ':=' o 'in' k" :=
  (match o with Some x => k | None => None end)
  (at level 10, x pattern, o at level 100, k at level 200) : rust_scope.
Notation "'ensure!' b 'else' e 'in' k" :=
  (if (b : bool) then k else Err e)
  (at level 10, b at level 100, e at level 100, k at level 200) : rust_scope.

(** ** Total orders: Rust's [Ord]

    [BTreeMap] and [BTreeSet] order their keys by [Ord::cmp]; the only thing the
    modelled code asks of that order is [first()], the least element. *)

Class RustOrd (A : Type) := {
  cmp : A → A → comparison;
  cmp_eq : ∀ x y, cmp x y = Eq ↔ x = y;
  cmp_antisym : ∀ x y, cmp x y = CompOpp (cmp y x);
  cmp_lt_trans : ∀ x y z, cmp x y = Lt → cmp y z = Lt → cmp x z = Lt;
}.

Definition ord_leb `{RustOrd A} (x y : A) : bool :=
  match cmp x y with Gt => false | _ => true end.

Section rust_ord.
Context `{RustOrd A}.
Implicit Types x y z : A.

Lemma ord_leb_refl x : ord_leb x x = true.
Proof. unfold ord_leb. by rewrite (proj2 (cmp_eq x x) eq_refl). Qed.

Lemma ord_leb_trans x y z :
    ord_leb x y = true → ord_leb y z = true → ord_leb x z = true.
Proof.
    unfold ord_leb. destruct (cmp x y) eqn:Exy, (cmp y z) eqn:Eyz; try done.
    - apply cmp_eq in Exy as ->. by rewrite Eyz.
    - apply cmp_eq in Exy as ->. by rewrite Eyz.
    - apply cmp_eq in Eyz as <-. by rewrite Exy.
    - by rewrite (cmp_lt_trans _ _ _ Exy Eyz).
Qed.

Lemma ord_leb_total x y : ord_leb x y = false → ord_leb y x = true.
Proof. unfold ord_leb. rewrite (cmp_antisym y x). by destruct (cmp x y). Qed.

Lemma ord_leb_antisym x y : ord_leb x y = true → ord_leb y x = true → x = y.
Proof.
    unfold ord_leb. rewrite (cmp_antisym y x).
    destruct (cmp x y) eqn:E; try done. intros _ _. by apply cmp_eq.
Qed.

  (** The least element of a list: what [first()] of a B-tree returns. *)
Fixpoint least (l : list A) : option A :=
    match l with
    | [] => None
    | x :: l =>
        match least l with
        | Some y => Some (if ord_leb x y then x else y)
        | None => Some x
        end
    end.

Lemma least_None l : least l = None ↔ l = [].
Proof. destruct l as [|x l]; [done|]. simpl. by destruct (least l). Qed.

Lemma least_spec l x :
    least l = Some x → x ∈ l ∧ ∀ y, y ∈ l → ord_leb x y = true.
Proof.
    revert x. induction l as [|a l IH]; intros x; [done|]. simpl.
    destruct (least l) as [m|] eqn:E.
    - destruct (IH m eq_refl) as [Hm Hmin].
      destruct (ord_leb a m) eqn:Ea; intros [= <-]; split.
      + apply elem_of_cons; auto.
      + intros y [->|Hy]%elem_of_cons; [apply ord_leb_refl|].
        eauto using ord_leb_trans.
      + apply elem_of_cons; auto.
      + intros y [->|Hy]%elem_of_cons; eauto using ord_leb_total.
    - apply least_None in E as ->. intros [= ->].
      split; [by apply list_elem_of_singleton|]. intros y ->%list_elem_of_singleton. apply ord_leb_refl.
Qed.
End rust_ord.

(** [BTreeSet::first] on a finite set. *)
Definition set_first `{RustOrd A, Countable A} (X : gset A) : option A :=
  least (elements X).

Section set_first.
Context `{RustOrd A, Countable A}.
Implicit Types X : gset A.

Lemma set_first_None X : set_first X = None ↔ X = ∅.
Proof. unfold set_first. rewrite least_None, elements_empty_iff. apply leibniz_equiv_iff. Qed.

Lemma set_first_Some X x :
    set_first X = Some x → x ∈ X ∧ ∀ y, y ∈ X → ord_leb x y = true.
Proof.
    intros [Hx Hmin]%least_spec. split; [by apply elem_of_elements|].
    intros y Hy. by apply Hmin, elem_of_elements.
Qed.

Lemma set_first_is_Some X x : x ∈ X → is_Some (set_first X).
Proof.
    intros Hx. destruct (set_first X) eqn:E; [by eauto|].
    apply set_first_None in E. set_solver.
Qed.
End set_first.

#[global] Program Instance Z_ord : RustOrd Z := {| cmp := Z.compare |}.
Next Obligation. intros x y. apply Z.compare_eq_iff. Qed.
Next Obligation. intros x y. apply Z.compare_antisym. Qed.
Next Obligation. intros x y z. rewrite !Z.compare_lt_iff. lia. Qed.

(** Lexicographic order on pairs, as [Ord] for tuples and derived [Ord]. *)
Definition pair_cmp `{RustOrd A, RustOrd B} (p q : A * B) : comparison :=
  match cmp p.1 q.1 with Eq => cmp p.2 q.2 | c => c end.

#[global] Program Instance pair_ord `{RustOrd A, RustOrd B} : RustOrd (A * B) :=
  {| cmp := pair_cmp |}.
Next Obligation.
  intros A HA B HB [a b] [a' b']; unfold pair_cmp; simpl. destruct (cmp a a') eqn:E.
  - apply cmp_eq in E as ->. rewrite (cmp_eq b b'). naive_solver.
  - split; [done|]. intros [= -> ->].
    by rewrite (proj2 (cmp_eq a' a') eq_refl) in E.
  - split; [done|]. intros [= -> ->].
    by rewrite (proj2 (cmp_eq a' a') eq_refl) in E.
Qed.
Next Obligation.
  intros A HA B HB [a b] [a' b']; unfold pair_cmp; simpl. rewrite (cmp_antisym a a').
  destruct (cmp a' a); simpl; [apply cmp_antisym|done|done].
Qed.
Next Obligation.
  intros A HA B HB [a b] [a' b'] [a'' b'']; unfold pair_cmp; simpl.
  destruct (cmp a a') eqn:E1; try done.
  - apply cmp_eq in E1 as ->. destruct (cmp a' a''); try done. apply cmp_lt_trans.
  - intros _. destruct (cmp a' a'') eqn:E2; try done.
    + apply cmp_eq in E2 as <-. by rewrite E1.
    + by rewrite (cmp_lt_trans _ _ _ E1 E2).
Qed.

(** An order pulled back along an injection. *)
Definition inj_ord {A} `{RustOrd B} (f : A → B) (Hf : ∀ x y, f x = f y → x = y) :
  RustOrd A.
Proof.
  refine {| cmp x y := cmp (f x) (f y) |}.
  - intros x y. rewrite (cmp_eq (f x) (f y)). split; [apply Hf|by intros ->].
  - intros x y. apply cmp_antisym.
  - intros x y z. apply cmp_lt_trans.
Defined.

(** Byte-wise lexicographic order: [Ord] for [str] and for slices. *)
Fixpoint list_cmp `{RustOrd A} (l k : list A) : comparison :=
  match l, k with
  | [], [] => Eq
  | [], _ => Lt
  | _, [] => Gt
  | x :: l, y :: k => match cmp x y with Eq => list_cmp l k | c => c end
  end.

#[global] Program Instance list_ord `{RustOrd A} : RustOrd (list A) :=
  {| cmp := list_cmp |}.
Next Obligation.
  intros A HA l. induction l as [|x l IH]; intros [|y k]; simpl; try done.
  destruct (cmp x y) eqn:E.
  - apply cmp_eq in E as ->. rewrite IH. naive_solver.
  - split; [done|]. intros [= -> ->]. by rewrite (proj2 (cmp_eq y y) eq_refl) in E.
  - split; [done|]. intros [= -> ->]. by rewrite (proj2 (cmp_eq y y) eq_refl) in E.
Qed.
Next Obligation.
  intros A HA l. induction l as [|x l IH]; intros [|y k]; simpl; try done.
  rewrite (cmp_antisym x y). destruct (cmp y x); simpl; [apply IH|done|done].
Qed.
Next Obligation.
  intros A HA l. induction l as [|x l IH]; intros [|y k] [|z m]; simpl; try done.
  destruct (cmp x y) eqn:E1; try done.
  - apply cmp_eq in E1 as ->. destruct (cmp y z); try done. apply IH.
  - intros _. destruct (cmp y z) eqn:E2; try done.
    + apply cmp_eq in E2 as <-. by rewrite E1.
    + by rewrite (cmp_lt_trans _ _ _ E1 E2).
Qed.

(** ** Tactics and hints *)

Create HintDb wash.

(** Split boolean connectives of hypotheses and turn reflected tests into
    propositions. *)
Ltac bool_step :=
  match goal with
  | H : (_ && _) = true |- _ => apply andb_true_iff in H as [? ?]
  | H : (_ || _) = false |- _ => apply orb_false_iff in H as [? ?]
  | H : (_ || _) = true |- _ => apply orb_true_iff in H
  | H : (_ && _) = false |- _ => apply andb_false_iff in H
  | H : negb _ = true |- _ => apply negb_true_iff in H
  | H : negb _ = false |- _ => apply negb_false_iff in H
  | H : (_ =? _)%Z = true |- _ => apply Z.eqb_eq in H
  | H : (_ =? _)%Z = false |- _ => apply Z.eqb_neq in H
  | H : (_ <? _)%Z = true |- _ => apply Z.ltb_lt in H
  | H : (_ <? _)%Z = false |- _ => apply Z.ltb_ge in H
  | H : (_ <=? _)%Z = true |- _ => apply Z.leb_le in H
  | H : (_ <=? _)%Z = false |- _ => apply Z.leb_gt in H
  | H : bool_decide _ = true |- _ => apply bool_decide_eq_true_1 in H
  | H : bool_decide _ = false |- _ => apply bool_decide_eq_false_1 in H
  end.
Ltac bools := repeat bool_step.

(** Case on the scrutinee of the first match in a hypothesis or the goal. *)
Ltac case_in H :=
  match type of H with context [ match ?x with _ => _ end ] =>
    let E := fresh "E" in destruct x eqn:E; try discriminate H
  end.
Ltac case_goal :=
  match goal with |- context [ match ?x with _ => _ end ] =>
    let E := fresh "E" in destruct x eqn:E
  end.

(** ** Shared list and option facts *)

Lemma existsb_elem {A} (p : A → bool) (l : list A) :
  existsb p l = true ↔ ∃ x, x ∈ l ∧ p x = true.
Proof.
  rewrite existsb_exists. split; intros (x & Hx & Hp); exists x;
    (split; [by apply list_elem_of_In|done]).
Qed.

Lemma existsb_elem_false {A} (p : A → bool) (l : list A) :
  existsb p l = false ↔ ∀ x, x ∈ l → p x = false.
Proof.
  rewrite <-not_true_iff_false, existsb_elem. split.
  - intros Hn x Hx. apply not_true_iff_false. naive_solver.
  - intros Hf (x & Hx & Hp). by rewrite (Hf x Hx) in Hp.
Qed.

Lemma forallb_elem {A} (p : A → bool) (l : list A) :
  forallb p l = true ↔ ∀ x, x ∈ l → p x = true.
Proof.
  rewrite forallb_forall. split; intros Hf x Hx; apply Hf; by apply list_elem_of_In.
Qed.

(** ** Invariants of a step relation *)

Lemma rtc_invariant {A} (R : relation A) (P : A → Prop) x y :
  P x → (∀ a b, R a b → P a → P b) → rtc R x y → P y.
Proof. intros Hx Hstep Hr. induction Hr; eauto. Qed.

(** ** Counting the entries of a map *)

Lemma size_filter_insert {A} (P : nat * A → Prop) `{∀ x, Decision (P x)} (m : gmap nat A) n a :
  m !! n = None → size (filter P (<[n := a]> m)) = (size (filter P m) + if decide (P (n, a)) then 1 else 0)%nat.
Proof.
  intros Hn. case_decide as HP.
  - rewrite map_filter_insert_True by done. rewrite map_size_insert_None; [lia|].
    apply map_lookup_filter_None. by left.
  - rewrite map_filter_insert_False by done. rewrite delete_id by done. lia.
Qed.

Lemma size_filter_delete {A} (P : nat * A → Prop) `{∀ x, Decision (P x)} (m : gmap nat A) n a :
  m !! n = Some a → size (filter P m) = (size (filter P (delete n m)) + if decide (P (n, a)) then 1 else 0)%nat.
Proof.
  intros Hn. rewrite <-(insert_delete_id m n a Hn) at 1. by rewrite size_filter_insert by apply lookup_delete_eq.
Qed.

Definition count_if {A} (p : A → bool) (m : gmap nat A) : Z :=
  Z.of_nat (size (filter (λ nt, p nt.2 = true) m)).

Section counting.
Context {A : Type} (p : A → bool).
Implicit Types m : gmap nat A.

Lemma count_if_empty : count_if p ∅ = 0%Z.
Proof. unfold count_if. by rewrite map_filter_empty, map_size_empty. Qed.

Lemma count_if_nonneg m : (0 ≤ count_if p m)%Z.
Proof. unfold count_if. lia. Qed.

Lemma count_if_insert m n a :
  m !! n = None → count_if p (<[n := a]> m) = (count_if p m + if p a then 1 else 0)%Z.
Proof.
  intros Hn. unfold count_if. rewrite size_filter_insert by done. case_decide as Ha; simpl in Ha; rewrite ?Ha; [lia|].
  destruct (p a); [done|lia].
Qed.

Lemma count_if_delete m n a :
  m !! n = Some a → count_if p (delete n m) = (count_if p m - if p a then 1 else 0)%Z.
Proof.
  intros Hn. rewrite <-(insert_delete_id m n a Hn) at 2. rewrite count_if_insert by apply lookup_delete_eq. lia.
Qed.

Lemma count_if_update m n a b :
  m !! n = Some a →
  count_if p (<[n := b]> m) = (count_if p m - (if p a then 1 else 0) + if p b then 1 else 0)%Z.
Proof.
  intros Hn. rewrite <-(insert_delete_eq m n b). rewrite count_if_insert by apply lookup_delete_eq.
  by rewrite (count_if_delete m n a Hn).
Qed.

Lemma count_if_zero m : count_if p m = 0%Z ↔ ∀ n a, m !! n = Some a → p a = false.
Proof.
  unfold count_if. split.
  - intros E n a Hn. destruct (p a) eqn:Ea; [|done].
    assert (filter (λ nt, p nt.2 = true) m !! n = Some a) as Hf by (by apply map_lookup_filter_Some).
    assert (size (filter (λ nt, p nt.2 = true) m) = 0)%nat as Hz by lia.
    apply map_size_empty_inv in Hz. by rewrite Hz, lookup_empty in Hf.
  - intros Hall. rewrite map_empty_filter_2; [by rewrite map_size_empty|].
    intros n a Hn. simpl. by rewrite (Hall n a Hn).
Qed.

Lemma count_if_ext (q : A → bool) m :
  (∀ n a, m !! n = Some a → p a = q a) → count_if p m = count_if q m.
Proof.
  intros Hall. unfold count_if. do 2 f_equal. apply map_filter_ext. intros n a Hn. simpl. by rewrite (Hall n a Hn).
Qed.
End counting.
