(* ===== verification/RustStr.v ===== *)
(** * Rust's [str], as the modelled code uses it

    A [&str] is its UTF-8 bytes: a [string] here, one [ascii] per byte.  Lengths
    and slices are in bytes, as in Rust.  [char] patterns in the sources are all
    ASCII, so a [char] pattern is a one-byte string.  Everything is executable;
    the lemmas characterise each operation by concatenation. *)

From Stdlib Require Import ZArith Lia Ascii.
From stdpp Require Import base list strings option.
From S2P Require Import Prelude.
Local Open Scope string_scope.

(** [String.append] does not reduce under [simpl]; these two equations are how
    it is unfolded. *)
Lemma str_app_cons c s t : String c s +:+ t = String c (s +:+ t).
Proof. reflexivity. Qed.

Lemma str_app_nil t : "" +:+ t = t.
Proof. reflexivity. Qed.

Ltac str_simpl := rewrite ?str_app_cons, ?str_app_nil in *; simpl.

#[global] Arguments Ascii.eqb : simpl never.

(** ** Order *)

Fixpoint bytes_of (s : string) : list Z :=
  match s with
  | EmptyString => []
  | String c s => Z.of_N (Ascii.N_of_ascii c) :: bytes_of s
  end.

Lemma bytes_of_inj s t : bytes_of s = bytes_of t → s = t.
Proof.
  revert t. induction s as [|c s IH]; intros [|d t]; simpl; try done.
  intros [= Hc Hs]. f_equal; [|by apply IH].
  apply (inj Z.of_N) in Hc.
  by rewrite <-(Ascii.ascii_N_embedding c), <-(Ascii.ascii_N_embedding d), Hc.
Qed.

#[global] Instance string_ord : RustOrd string := inj_ord bytes_of bytes_of_inj.

(** ** Bytes *)

Definition byte (c : ascii) : N := Ascii.N_of_ascii c.

Definition is_ascii_upper (c : ascii) : bool :=
  ((65 <=? byte c) && (byte c <=? 90))%N.
Definition is_ascii_lower (c : ascii) : bool :=
  ((97 <=? byte c) && (byte c <=? 122))%N.
Definition is_ascii_digit (c : ascii) : bool :=
  ((48 <=? byte c) && (byte c <=? 57))%N.
(** [u8::is_ascii_alphanumeric] *)
Definition is_ascii_alphanumeric (c : ascii) : bool :=
  is_ascii_upper c || is_ascii_lower c || is_ascii_digit c.

(** [u8::to_ascii_lowercase] *)
Definition lower (c : ascii) : ascii :=
  if is_ascii_upper c then Ascii.ascii_of_N (byte c + 32) else c.

Fixpoint str_map (f : ascii → ascii) (s : string) : string :=
  match s with
  | EmptyString => EmptyString
  | String c s => String (f c) (str_map f s)
  end.

Fixpoint str_all (p : ascii → bool) (s : string) : bool :=
  match s with
  | EmptyString => true
  | String c s => p c && str_all p s
  end.

Definition to_ascii_lowercase (s : string) : string := str_map lower s.
Definition is_ascii (s : string) : bool := str_all (λ c, (byte c <? 128)%N) s.
Definition is_empty (s : string) : bool :=
  match s with EmptyString => true | _ => false end.

(** [str::eq_ignore_ascii_case] *)
Definition eq_ignore_ascii_case (s t : string) : bool :=
  String.eqb (to_ascii_lowercase s) (to_ascii_lowercase t).

Lemma lower_lower c : lower (lower c) = lower c.
Proof. destruct c as [[] [] [] [] [] [] [] []]; reflexivity. Qed.

Lemma to_ascii_lowercase_idemp s :
  to_ascii_lowercase (to_ascii_lowercase s) = to_ascii_lowercase s.
Proof.
  unfold to_ascii_lowercase. induction s as [|c s IH]; [done|]. simpl.
  by rewrite lower_lower, IH.
Qed.

Lemma str_map_app f s t : str_map f (s +:+ t) = str_map f s +:+ str_map f t.
Proof. induction s as [|c s IH]; [done|]. str_simpl. by rewrite IH. Qed.

Lemma str_map_length f s : String.length (str_map f s) = String.length s.
Proof. induction s as [|c s IH]; [done|]. simpl. by rewrite IH. Qed.

Lemma lower_eq_length s t :
  to_ascii_lowercase s = to_ascii_lowercase t → String.length s = String.length t.
Proof.
  intros H%(f_equal String.length). unfold to_ascii_lowercase in H.
  by rewrite !str_map_length in H.
Qed.

Lemma str_all_app p s t : str_all p (s +:+ t) = str_all p s && str_all p t.
Proof. induction s as [|c s IH]; [done|]. str_simpl. by rewrite IH, andb_assoc. Qed.

Lemma eq_ignore_ascii_case_eq s t :
  eq_ignore_ascii_case s t = true ↔ to_ascii_lowercase s = to_ascii_lowercase t.
Proof. apply String.eqb_eq. Qed.

Lemma eq_ignore_ascii_case_refl s : eq_ignore_ascii_case s s = true.
Proof. by apply eq_ignore_ascii_case_eq. Qed.

Lemma eq_ignore_ascii_case_lower_l s t :
  eq_ignore_ascii_case (to_ascii_lowercase s) t = eq_ignore_ascii_case s t.
Proof. unfold eq_ignore_ascii_case. by rewrite to_ascii_lowercase_idemp. Qed.

Lemma eq_ignore_ascii_case_lower_r s t :
  eq_ignore_ascii_case s (to_ascii_lowercase t) = eq_ignore_ascii_case s t.
Proof. unfold eq_ignore_ascii_case. by rewrite to_ascii_lowercase_idemp. Qed.

(** ** Concatenation *)

Lemma str_app_nil_r s : s +:+ "" = s.
Proof. induction s as [|c s IH]; [done|]. str_simpl. by rewrite IH. Qed.

Lemma str_app_assoc s t u : (s +:+ t) +:+ u = s +:+ (t +:+ u).
Proof. induction s as [|c s IH]; [done|]. str_simpl. by rewrite IH. Qed.

Lemma str_length_app s t :
  String.length (s +:+ t) = (String.length s + String.length t)%nat.
Proof. induction s as [|c s IH]; [done|]. str_simpl. by rewrite IH. Qed.

Lemma str_app_inj_l s t u : s +:+ t = s +:+ u → t = u.
Proof. induction s as [|c s IH]; [done|]. str_simpl. intros [= ?]. auto. Qed.

Lemma str_app_inj_length s t u v :
  String.length s = String.length u → s +:+ t = u +:+ v → s = u ∧ t = v.
Proof.
  revert u. induction s as [|c s IH]; intros [|d u]; str_simpl; try done.
  intros [= Hl] [= -> Hst]. by destruct (IH u Hl Hst) as [-> ->].
Qed.

Lemma str_app_inj_r s t u : s +:+ u = t +:+ u → s = t.
Proof.
  intros Heq. eapply (proj1 (str_app_inj_length s u t u _ Heq)). Unshelve.
  apply (f_equal String.length) in Heq. rewrite !str_length_app in Heq. lia.
Qed.

Lemma is_empty_spec s : is_empty s = true ↔ s = "".
Proof. by destruct s. Qed.

(** ** Slices *)

Fixpoint str_take (n : nat) (s : string) : string :=
  match n, s with
  | S n, String c s => String c (str_take n s)
  | _, _ => ""
  end.

Fixpoint str_drop (n : nat) (s : string) : string :=
  match n, s with
  | S n, String _ s => str_drop n s
  | _, s => s
  end.

Lemma str_take_drop n s : str_take n s +:+ str_drop n s = s.
Proof. revert s. induction n; intros [|c s]; simpl; str_simpl; congruence. Qed.

Lemma str_drop_length n s :
  String.length (str_drop n s) = (String.length s - n)%nat.
Proof. revert s. induction n; intros [|c s]; simpl; auto. Qed.

Lemma str_take_app s t : str_take (String.length s) (s +:+ t) = s.
Proof. induction s as [|c s IH]; str_simpl; [by destruct t|]. by rewrite IH. Qed.

Lemma str_drop_app s t : str_drop (String.length s) (s +:+ t) = t.
Proof. induction s as [|c s IH]; [by destruct t|]. done. Qed.

(** ** Prefixes and suffixes *)

(** [str::strip_prefix] *)
Fixpoint strip_prefix (p s : string) : option string :=
  match p, s with
  | EmptyString, _ => Some s
  | String c p, String d s => if Ascii.eqb c d then strip_prefix p s else None
  | String _ _, EmptyString => None
  end.

(** [str::strip_suffix] *)
Definition strip_suffix (p s : string) : option string :=
  let n := (String.length s - String.length p)%nat in
  if String.eqb (str_drop n s) p then Some (str_take n s) else None.

Definition starts_with (p s : string) : bool := is_some (strip_prefix p s).
Definition ends_with (p s : string) : bool := is_some (strip_suffix p s).

Lemma strip_prefix_Some p s r : strip_prefix p s = Some r ↔ s = p +:+ r.
Proof.
  revert s. induction p as [|c p IH]; intros s; simpl.
  - rewrite str_app_nil. split; congruence.
  - destruct s as [|d s]; [done|]. rewrite str_app_cons.
    destruct (Ascii.eqb_spec c d) as [->|Hne].
    + rewrite IH. split; congruence.
    + split; congruence.
Qed.

Lemma strip_suffix_Some p s r : strip_suffix p s = Some r ↔ s = r +:+ p.
Proof.
  unfold strip_suffix. destruct (String.eqb_spec (str_drop (String.length s - String.length p) s) p) as [E|E].
  - split.
    + intros [= <-].
      by rewrite <-(str_take_drop (String.length s - String.length p) s), E at 1.
    + intros ->. f_equal.
      replace (String.length (r +:+ p) - String.length p)%nat with (String.length r)
        by (rewrite str_length_app; lia).
      apply str_take_app.
  - split; [done|]. intros ->. exfalso. apply E.
    replace (String.length (r +:+ p) - String.length p)%nat with (String.length r)
      by (rewrite str_length_app; lia).
    apply str_drop_app.
Qed.

Lemma strip_prefix_app p r : strip_prefix p (p +:+ r) = Some r.
Proof. by apply strip_prefix_Some. Qed.

Lemma strip_suffix_app p r : strip_suffix p (r +:+ p) = Some r.
Proof. by apply strip_suffix_Some. Qed.

Lemma starts_with_spec p s : starts_with p s = true ↔ ∃ r, s = p +:+ r.
Proof.
  unfold starts_with. split.
  - destruct (strip_prefix p s) as [r|] eqn:E; [|done].
    apply strip_prefix_Some in E. eauto.
  - intros [r ->]. by rewrite strip_prefix_app.
Qed.

Lemma ends_with_spec p s : ends_with p s = true ↔ ∃ r, s = r +:+ p.
Proof.
  unfold ends_with. split.
  - destruct (strip_suffix p s) as [r|] eqn:E; [|done].
    apply strip_suffix_Some in E. eauto.
  - intros [r ->]. by rewrite strip_suffix_app.
Qed.

(** [s.strip_suffix('.').unwrap_or(s)]: one terminal root dot dropped. *)
Definition strip_root_dot (s : string) : string := default s (strip_suffix "." s).

Lemma strip_root_dot_cases s :
  (∃ r, s = r +:+ "." ∧ strip_root_dot s = r) ∨
  (ends_with "." s = false ∧ strip_root_dot s = s).
Proof.
  unfold strip_root_dot, ends_with. destruct (strip_suffix "." s) as [r|] eqn:E.
  - apply strip_suffix_Some in E. left. eauto.
  - by right.
Qed.

(** [str::trim_end_matches] with a [char]. *)
Fixpoint trim_end_char (d : ascii) (s : string) : string :=
  match s with
  | EmptyString => ""
  | String c s =>
      let r := trim_end_char d s in
      if is_empty r && Ascii.eqb c d then "" else String c r
  end.

(** ** Searching *)

(** [str::split_once] with a string pattern: around the first match. *)
Fixpoint split_once (p s : string) : option (string * string) :=
  match strip_prefix p s with
  | Some r => Some ("", r)
  | None =>
      match s with
      | EmptyString => None
      | String c s =>
          match split_once p s with
          | Some (a, b) => Some (String c a, b)
          | None => None
          end
      end
  end.

(** [str::rsplit_once] with a [char] pattern: around the last match. *)
Fixpoint rsplit_once (d : ascii) (s : string) : option (string * string) :=
  match s with
  | EmptyString => None
  | String c s =>
      match rsplit_once d s with
      | Some (a, b) => Some (String c a, b)
      | None => if Ascii.eqb c d then Some ("", s) else None
      end
  end.

(** [str::contains] *)
Definition contains (p s : string) : bool := is_some (split_once p s).

(** [str::split] with a [char] pattern: never empty. *)
Fixpoint split (d : ascii) (s : string) : list string :=
  match s with
  | EmptyString => [""]
  | String c s =>
      if Ascii.eqb c d then "" :: split d s
      else match split d s with
           | x :: l => String c x :: l
           | [] => [String c ""]
           end
  end.

Lemma split_once_unfold p s :
  split_once p s =
    match strip_prefix p s, s with
    | Some r, _ => Some ("", r)
    | None, EmptyString => None
    | None, String c s =>
        match split_once p s with
        | Some (a, b) => Some (String c a, b)
        | None => None
        end
    end.
Proof. by destruct s. Qed.

Lemma split_once_Some p s a b : split_once p s = Some (a, b) → s = a +:+ p +:+ b.
Proof.
  revert a b. induction s as [|c s IH]; intros a b; simpl.
  - destruct (strip_prefix p "") as [r|] eqn:E; [|done].
    intros [= <- <-]. by apply strip_prefix_Some in E.
  - destruct (strip_prefix p (String c s)) as [r|] eqn:E.
    + intros [= <- <-]. by apply strip_prefix_Some in E.
    + destruct (split_once p s) as [[a' b']|] eqn:E'; [|done].
      intros [= <- <-]. rewrite (IH _ _ eq_refl) at 1. done.
Qed.

Lemma contains_app p a b : contains p (a +:+ p +:+ b) = true.
Proof.
  unfold contains. induction a as [|c a IH].
  - by rewrite str_app_nil, split_once_unfold, strip_prefix_app.
  - rewrite str_app_cons. simpl.
    destruct (strip_prefix p (String c (a +:+ p +:+ b))); [done|].
    by destruct (split_once p (a +:+ p +:+ b)) as [[??]|].
Qed.

Lemma contains_spec p s : contains p s = true ↔ ∃ a b, s = a +:+ p +:+ b.
Proof.
  split.
  - unfold contains. destruct (split_once p s) as [[a b]|] eqn:E; [|done].
    intros _. exists a, b. by apply split_once_Some.
  - intros (a & b & ->). apply contains_app.
Qed.

(** A [char] does not occur in a string exactly when every byte differs. *)
Definition lacks (d : ascii) (s : string) : bool :=
  str_all (λ c, negb (Ascii.eqb c d)) s.

Lemma rsplit_once_None d s : rsplit_once d s = None ↔ lacks d s = true.
Proof.
  unfold lacks. induction s as [|c s IH]; simpl; [done|].
  destruct (rsplit_once d s) as [[a b]|]; destruct (Ascii.eqb c d); simpl;
    split; try done; intros Hx; apply IH in Hx; done.
Qed.

Lemma rsplit_once_Some d s a b :
  rsplit_once d s = Some (a, b) ↔ s = a +:+ String d b ∧ lacks d b = true.
Proof.
  revert a b. induction s as [|c s IH]; intros a b; simpl.
  - split; [done|]. intros [H _]. by destruct a.
  - destruct (rsplit_once d s) as [[a' b']|] eqn:E.
    + destruct (proj1 (IH a' b') eq_refl) as [Hs Hl]. split.
      * intros [= <- <-]. by rewrite str_app_cons, Hs.
      * intros [Heq Hb]. destruct a as [|x a].
        -- rewrite str_app_nil in Heq. injection Heq as -> Hsb. subst b.
           exfalso. apply rsplit_once_None in Hb. congruence.
        -- rewrite str_app_cons in Heq. injection Heq as -> Heq.
           assert (Some (a', b') = Some (a, b)) as [= -> ->] by (by apply IH). done.
    + apply rsplit_once_None in E. destruct (Ascii.eqb_spec c d) as [->|Hne].
      * split.
        -- intros [= <- <-]. by rewrite str_app_nil.
        -- intros [Heq Hb]. destruct a as [|x a]; [by injection Heq as ->|].
           rewrite str_app_cons in Heq. injection Heq as -> Heq. exfalso.
           unfold lacks in E. rewrite Heq, str_all_app in E. simpl in E.
           rewrite Ascii.eqb_refl in E. simpl in E. by rewrite andb_false_r in E.
      * split; [done|]. intros [Heq Hb]. destruct a as [|x a].
        -- injection Heq as -> _. congruence.
        -- rewrite str_app_cons in Heq. injection Heq as -> Heq.
           unfold lacks in E. rewrite Heq, str_all_app in E. simpl in E.
           rewrite Ascii.eqb_refl in E. simpl in E. by rewrite andb_false_r in E.
Qed.

(** ** Trimming: [str::trim]

    Every character with Unicode's [White_Space] property, by its UTF-8 bytes. *)
Definition whitespace : list string :=
  let b n := String (ascii_of_N n) "" in
  [b 9; b 10; b 11; b 12; b 13; b 32;
   b 194 +:+ b 133; b 194 +:+ b 160;
   b 225 +:+ b 154 +:+ b 128]%N
  ++ ((λ n, b 226 +:+ b 128 +:+ b n) <$>
        [128; 129; 130; 131; 132; 133; 134; 135; 136; 137; 138; 168; 169; 175])%N
  ++ [b 226 +:+ b 129 +:+ b 159; b 227 +:+ b 128 +:+ b 128]%N.

Fixpoint find_map {A B} (f : A → option B) (l : list A) : option B :=
  match l with
  | [] => None
  | x :: l => match f x with Some y => Some y | None => find_map f l end
  end.

Definition strip_ws (s : string) : option string :=
  find_map (λ w, strip_prefix w s) whitespace.

Fixpoint trim_start_fuel (n : nat) (s : string) : string :=
  match n with
  | O => s
  | S n => match strip_ws s with Some r => trim_start_fuel n r | None => s end
  end.

(** Each step drops at least one byte, so the length is enough fuel. *)
Definition trim_start (s : string) : string := trim_start_fuel (String.length s) s.

Fixpoint trim_end (s : string) : string :=
  match s with
  | EmptyString => EmptyString
  | String c r => if is_empty (trim_start s) then "" else String c (trim_end r)
  end.

Definition trim (s : string) : string := trim_end (trim_start s).

(** ** Unsigned integers: [str::parse::<uN>] and [Display] *)

Definition u16_MAX : Z := 65535.
Definition u64_MAX : Z := 18446744073709551615.

(** [char::to_digit(10)] *)
Definition digit_val (c : ascii) : option Z :=
  if is_ascii_digit c then Some (Z.of_N (byte c) - 48)%Z else None.

(** The digit loop of [from_str_radix]: [checked_mul] then [checked_add], so the
    accumulator never exceeds [max]. *)
Fixpoint parse_digits (max acc : Z) (s : string) : option Z :=
  match s with
  | EmptyString => Some acc
  | String c s =>
      match digit_val c with
      | Some d =>
          let acc := (acc * 10 + d)%Z in
          if (acc <=? max)%Z then parse_digits max acc s else None
      | None => None
      end
  end.

(** Empty input and a lone sign are errors; one leading [+] is skipped. *)
Definition parse_uint (max : Z) (s : string) : option Z :=
  match s with
  | EmptyString => None
  | String c r =>
      if Ascii.eqb c "+" then
        match r with EmptyString => None | _ => parse_digits max 0 r end
      else parse_digits max 0 s
  end.

Definition digit_char (d : Z) : ascii := ascii_of_N (Z.to_N (48 + d)).

Fixpoint show_fuel (n : nat) (z : Z) : string :=
  match n with
  | O => ""
  | S n =>
      if (z <? 10)%Z then String (digit_char z) ""
      else show_fuel n (z / 10) +:+ String (digit_char (z mod 10)) ""
  end.

(** Twenty digits hold every [u64]. *)
Definition show_uint (z : Z) : string := show_fuel 20 z.

Lemma digit_char_val d : (0 ≤ d < 10)%Z → digit_val (digit_char d) = Some d.
Proof.
  intros Hd.
  assert (d = 0 ∨ d = 1 ∨ d = 2 ∨ d = 3 ∨ d = 4 ∨ d = 5 ∨ d = 6 ∨ d = 7 ∨ d = 8 ∨ d = 9)%Z
    as Hin by lia.
  repeat (destruct Hin as [->|Hin]; [reflexivity|]). by subst.
Qed.

Lemma digit_val_digit c d : digit_val c = Some d → is_ascii_digit c = true.
Proof. unfold digit_val. by destruct (is_ascii_digit c). Qed.

Lemma digit_val_bounds c d : digit_val c = Some d → (0 ≤ d < 10)%Z.
Proof.
  unfold digit_val, is_ascii_digit. intros H. case_in H.
  apply andb_true_iff in E as [?%N.leb_le ?%N.leb_le]. injection H as <-. lia.
Qed.

Lemma parse_digits_app max acc s t :
  parse_digits max acc (s +:+ t) =
    match parse_digits max acc s with
    | Some a => parse_digits max a t
    | None => None
    end.
Proof.
  revert acc. induction s as [|c s IH]; intros acc; [done|].
  rewrite str_app_cons. simpl. destruct (digit_val c); [|done].
  case_match; [apply IH|done].
Qed.

Lemma parse_digits_bounds max acc s z :
  (0 ≤ acc ≤ max)%Z → parse_digits max acc s = Some z → (0 ≤ z ≤ max)%Z.
Proof.
  revert acc. induction s as [|c s IH]; intros acc Hacc; simpl; [by intros [= <-]|].
  destruct (digit_val c) as [d|] eqn:Ed; [|done]. apply digit_val_bounds in Ed.
  case_match; [|done]. apply IH. bools. lia.
Qed.

(** Parsing never yields a value outside the type. *)
Lemma parse_uint_bounds max s z :
  (0 ≤ max)%Z → parse_uint max s = Some z → (0 ≤ z ≤ max)%Z.
Proof.
  intros Hmax. destruct s as [|c r]; [done|]. unfold parse_uint.
  destruct (Ascii.eqb c "+"); [destruct r; [done|]|];
    apply parse_digits_bounds; lia.
Qed.

Lemma show_fuel_digits n z :
  (0 ≤ z)%Z → str_all is_ascii_digit (show_fuel n z) = true.
Proof.
  revert z. induction n as [|n IH]; intros z Hz; [done|]. simpl.
  destruct (z <? 10)%Z eqn:E; bools; simpl.
  - by rewrite (digit_val_digit _ z) by (apply digit_char_val; lia).
  - rewrite str_all_app, IH by (apply Z.div_pos; lia). simpl.
    rewrite (digit_val_digit _ (z mod 10)%Z); [done|].
    apply digit_char_val, Z.mod_pos_bound. lia.
Qed.

Lemma show_fuel_parse n max z :
  (0 ≤ z < 10 ^ Z.of_nat n)%Z → (z ≤ max)%Z →
  parse_digits max 0 (show_fuel n z) = Some z.
Proof.
  revert z. induction n as [|n IH]; intros z Hz Hmax; [simpl in *; f_equal; lia|].
  rewrite Nat2Z.inj_succ, Z.pow_succ_r in Hz by lia. simpl.
  destruct (z <? 10)%Z eqn:E; bools.
  - simpl. rewrite digit_char_val by lia.
    replace (0 * 10 + z)%Z with z by lia. by rewrite (proj2 (Z.leb_le z max)).
  - rewrite parse_digits_app, IH.
    + simpl. rewrite digit_char_val by (apply Z.mod_pos_bound; lia).
      replace (z / 10 * 10 + z mod 10)%Z with z by (pose proof (Z.div_mod z 10); lia).
      by rewrite (proj2 (Z.leb_le z max)).
    + split; [apply Z.div_pos; lia|]. apply Z.div_lt_upper_bound; lia.
    + pose proof (Z.div_mod z 10). pose proof (Z.mod_pos_bound z 10). lia.
Qed.

Lemma show_uint_digits z : (0 ≤ z)%Z → str_all is_ascii_digit (show_uint z) = true.
Proof. apply show_fuel_digits. Qed.

Lemma show_uint_nonempty z : show_uint z ≠ "".
Proof.
  unfold show_uint. cbn [show_fuel]. case_match; [done|].
  intros Hl%(f_equal String.length). rewrite str_length_app in Hl. simpl in Hl. lia.
Qed.

(** Display then parse gives the value back. *)
Lemma parse_show_uint max z :
  (0 ≤ z ≤ max)%Z → (z ≤ u64_MAX)%Z → parse_uint max (show_uint z) = Some z.
Proof.
  intros Hz Hu. pose proof (show_uint_digits z (proj1 Hz)) as Hd.
  pose proof (show_uint_nonempty z) as Hne.
  assert (parse_digits max 0 (show_uint z) = Some z) as Hp.
  { apply show_fuel_parse; [|lia]. unfold u64_MAX in Hu. lia. }
  destruct (show_uint z) as [|c r] eqn:E; [done|]. unfold parse_uint.
  destruct (Ascii.eqb_spec c "+") as [->|]; [|done].
  simpl in Hd. discriminate Hd.
Qed.

(** A string of one class of byte lacks every byte outside the class. *)
Lemma str_all_lacks p d s : str_all p s = true → p d = false → lacks d s = true.
Proof.
  unfold lacks. intros Hs Hd. induction s as [|c s IH]; [done|]. simpl in *.
  bools. rewrite IH by done. destruct (Ascii.eqb_spec c d); [congruence|done].
Qed.

(** ** Strings drawn from a class of bytes *)

Lemma str_all_not_contains p d q s :
  str_all p s = true → p d = false → contains (String d q) s = false.
Proof.
  intros Hs Hd. apply not_true_iff_false. rewrite contains_spec. intros (a & b & ->).
  rewrite str_all_app in Hs. apply andb_true_iff in Hs as [_ Hs].
  rewrite str_app_cons in Hs. simpl in Hs. by rewrite Hd in Hs.
Qed.

Lemma split_once_lacks d q a b :
  lacks d a = true → split_once (String d q) (a +:+ String d q +:+ b) = Some (a, b).
Proof.
  unfold lacks. induction a as [|c a IH]; intros Ha.
  - rewrite str_app_nil, split_once_unfold, strip_prefix_app. done.
  - simpl in Ha. apply andb_true_iff in Ha as [Hc Ha].
    rewrite str_app_cons. rewrite split_once_unfold. cbn [strip_prefix].
    apply negb_true_iff in Hc. rewrite Ascii.eqb_sym in Hc. rewrite Hc. by rewrite IH.
Qed.

Lemma split_once_None_of_contains p s : contains p s = false → split_once p s = None.
Proof. unfold contains. by destruct (split_once p s). Qed.

(** Trimming leaves alone a string none of whose bytes starts a whitespace
    character. *)
Lemma trim_id p s :
  (∀ c r, p c = true → strip_ws (String c r) = None) → str_all p s = true → trim s = s.
Proof.
  intros Hp. assert (∀ s, str_all p s = true → trim_start s = s) as Hst.
  { intros [|c r]; [done|]. simpl. intros [H _]%andb_true_iff.
    unfold trim_start. simpl. by rewrite Hp. }
  intros Hs. unfold trim. rewrite Hst by done.
  induction s as [|c s IH]; [done|]. cbn [trim_end]. rewrite Hst by done. simpl in Hs.
  bools. simpl. by rewrite IH.
Qed.

Lemma str_all_mono (p q : ascii → bool) s :
  (∀ c, p c = true → q c = true) → str_all p s = true → str_all q s = true.
Proof.
  intros Hpq. induction s as [|c s IH]; [done|]. simpl. rewrite !andb_true_iff.
  naive_solver.
Qed.

Lemma str_all_map (p : ascii → bool) f s :
  (∀ c, p (f c) = p c) → str_all p (str_map f s) = str_all p s.
Proof. intros Hpf. induction s as [|c s IH]; [done|]. simpl. by rewrite Hpf, IH. Qed.

(** If every piece of a split is drawn from [p], the string is drawn from [p]
    and the separator. *)
Lemma split_str_all p d s :
  (∀ l, l ∈ split d s → str_all p l = true) →
  str_all (λ c, p c || Ascii.eqb c d) s = true.
Proof.
  induction s as [|c s IH]; [done|]. simpl. intros Hall.
  destruct (Ascii.eqb_spec c d) as [->|Hne].
  - rewrite orb_true_r. simpl. apply IH. intros l Hl. apply Hall. by right.
  - rewrite orb_false_r. destruct (split d s) as [|x l] eqn:E.
    + assert (str_all p (String c "") = true) as [Hc _]%andb_true_iff by (apply Hall; by left).
      rewrite Hc. simpl. apply IH. by intros ? ?%not_elem_of_nil.
    + assert (str_all p (String c x) = true) as [Hc Hx]%andb_true_iff by (apply Hall; by left).
      rewrite Hc. simpl. apply IH. intros y [->|Hy]%elem_of_cons; [done|].
      apply Hall. by right.
Qed.

Lemma split_lower d s :
  (∀ c, Ascii.eqb (lower c) d = Ascii.eqb c d) →
  split d (to_ascii_lowercase s) = to_ascii_lowercase <$> split d s.
Proof.
  intros Hd. unfold to_ascii_lowercase. induction s as [|c s IH]; [done|]. simpl.
  rewrite Hd, IH. destruct (Ascii.eqb c d); [done|]. by destruct (split d s).
Qed.

(** A byte that is no letter ends a string whatever the case. *)
Lemma ends_with_char_lower d s :
  lower d = d → (∀ c, lower c = d → c = d) →
  ends_with (String d "") (to_ascii_lowercase s) = ends_with (String d "") s.
Proof.
  intros Hd Hc. apply eq_true_iff_eq. rewrite !ends_with_spec. split.
  - intros [r Hr]. revert r Hr. induction s as [|c s IH]; intros r Hr; [by destruct r|].
    destruct r as [|x r].
    + injection Hr as Hl Hnil. destruct s; [|done]. exists "". by rewrite (Hc c Hl).
    + rewrite str_app_cons in Hr. injection Hr as _ Hr.
      destruct (IH r Hr) as [r' ->]. by exists (String c r').
  - intros [r ->]. exists (to_ascii_lowercase r). unfold to_ascii_lowercase.
    rewrite str_map_app. simpl. by rewrite Hd.
Qed.

Lemma lower_dot c : lower c = "."%char → c = "."%char.
Proof. by destruct c as [[] [] [] [] [] [] [] []]. Qed.

Lemma ends_with_dot_lower s : ends_with "." (to_ascii_lowercase s) = ends_with "." s.
Proof. by apply ends_with_char_lower, lower_dot. Qed.

Lemma strip_root_dot_lower s :
  strip_root_dot (to_ascii_lowercase s) = to_ascii_lowercase (strip_root_dot s).
Proof.
  destruct (strip_root_dot_cases s) as [(r & -> & ->)|[Hs ->]].
  - unfold strip_root_dot, to_ascii_lowercase. rewrite str_map_app.
    change (str_map lower ".") with ".". by rewrite strip_suffix_app.
  - destruct (strip_root_dot_cases (to_ascii_lowercase s)) as [(r & Hr & _)|[_ ->]]; [|done].
    rewrite <-ends_with_dot_lower in Hs. apply not_true_iff_false in Hs.
    destruct Hs. apply ends_with_spec. eauto.
Qed.

(** A name whose stripped form still ends in a dot ended in two. *)
Lemma strip_root_dot_ends s :
  ends_with "." (strip_root_dot s) = true → ∃ r, s = r +:+ "..".
Proof.
  destruct (strip_root_dot_cases s) as [(r & -> & ->)|[Hs ->]]; [|congruence].
  intros [x ->]%ends_with_spec. exists x. by rewrite str_app_assoc.
Qed.

Lemma ends_with_app_l p s t : ends_with p t = true → ends_with p (s +:+ t) = true.
Proof.
  rewrite !ends_with_spec. intros [r ->]. exists (s +:+ r). by rewrite str_app_assoc.
Qed.

Lemma ends_with_char_app d s t :
  t ≠ "" → ends_with (String d "") (s +:+ t) = ends_with (String d "") t.
Proof.
  intros Ht. apply eq_true_iff_eq. split; [|apply ends_with_app_l].
  rewrite !ends_with_spec. intros [r Hr]. revert r Hr.
  induction s as [|c s IH]; intros r Hr; [by exists r|].
  destruct r as [|x r].
  - rewrite str_app_cons, str_app_nil in Hr. injection Hr as _ Hr.
    destruct s, t; done.
  - rewrite !str_app_cons in Hr. injection Hr as _ Hr. eauto.
Qed.
