(* ===== verification/Net.v ===== *)
(** * Addresses: [core::net] as the modelled code uses it

    Octets and segments are [Z] in [0, 2^8) and [0, 2^16); [wf_ip] states the
    bound.  [SocketAddr] keeps the flow label and scope id of the IPv6 form, which
    take part in equality and in map keys.  The textual parser follows
    [core::net::parser]: each [read_*] returns what it read and the rest of the
    input, and consumes nothing on failure. *)

From Stdlib Require Import ZArith Lia Ascii.
From stdpp Require Import base list gmap strings option.
From S2P Require Import Prelude RustStr.
Local Open Scope Z_scope.

Record Ipv4Addr := Ipv4Addr_new { oct0 : Z; oct1 : Z; oct2 : Z; oct3 : Z }.

Record Ipv6Addr := Ipv6Addr_new
  { seg0 : Z; seg1 : Z; seg2 : Z; seg3 : Z; seg4 : Z; seg5 : Z; seg6 : Z; seg7 : Z }.

Inductive IpAddr :=
  | V4 (a : Ipv4Addr)
  | V6 (a : Ipv6Addr).

Inductive SocketAddr :=
  | SocketV4 (ip : Ipv4Addr) (port : Z)
  | SocketV6 (ip : Ipv6Addr) (port flowinfo scope_id : Z).

#[global] Instance Ipv4Addr_eq_dec : EqDecision Ipv4Addr.
Proof. solve_decision. Defined.
#[global] Instance Ipv6Addr_eq_dec : EqDecision Ipv6Addr.
Proof. solve_decision. Defined.
#[global] Instance IpAddr_eq_dec : EqDecision IpAddr.
Proof. solve_decision. Defined.
#[global] Instance SocketAddr_eq_dec : EqDecision SocketAddr.
Proof. solve_decision. Defined.

(** Derived [Ord] compares the variant, then the fields in order. *)
Definition ip_key (a : IpAddr) : Z * list Z :=
  match a with
  | V4 (Ipv4Addr_new a b c d) => (0, [a; b; c; d])
  | V6 (Ipv6Addr_new a b c d e f g h) => (1, [a; b; c; d; e; f; g; h])
  end.

Definition ip_unkey (k : Z * list Z) : option IpAddr :=
  match k with
  | (_, [a; b; c; d]) => Some (V4 (Ipv4Addr_new a b c d))
  | (_, [a; b; c; d; e; f; g; h]) => Some (V6 (Ipv6Addr_new a b c d e f g h))
  | _ => None
  end.

Lemma ip_unkey_key a : ip_unkey (ip_key a) = Some a.
Proof. by destruct a as [[]|[]]. Qed.

Lemma ip_key_inj a b : ip_key a = ip_key b → a = b.
Proof. intros H. apply (inj Some). by rewrite <-!ip_unkey_key, H. Qed.

#[global] Instance IpAddr_countable : Countable IpAddr :=
  inj_countable ip_key ip_unkey ip_unkey_key.
#[global] Instance IpAddr_ord : RustOrd IpAddr := inj_ord ip_key ip_key_inj.

Definition sa_key (a : SocketAddr) : IpAddr * (Z * Z * Z) :=
  match a with
  | SocketV4 ip p => (V4 ip, (p, 0, 0))
  | SocketV6 ip p f s => (V6 ip, (p, f, s))
  end.

Definition sa_unkey (k : IpAddr * (Z * Z * Z)) : SocketAddr :=
  match k with
  | (V4 ip, (p, _, _)) => SocketV4 ip p
  | (V6 ip, (p, f, s)) => SocketV6 ip p f s
  end.

#[global] Instance SocketAddr_countable : Countable SocketAddr.
Proof. apply (inj_countable' sa_key sa_unkey). by intros []. Defined.

(** ** Accessors *)

(** [SocketAddr::new] *)
Definition sock_new (ip : IpAddr) (port : Z) : SocketAddr :=
  match ip with
  | V4 a => SocketV4 a port
  | V6 a => SocketV6 a port 0 0
  end.

Definition sock_ip (a : SocketAddr) : IpAddr :=
  match a with SocketV4 ip _ => V4 ip | SocketV6 ip _ _ _ => V6 ip end.

Definition sock_port (a : SocketAddr) : Z :=
  match a with SocketV4 _ p => p | SocketV6 _ p _ _ => p end.

(** [SocketAddr::set_port] and [set_ip] within the family. *)
Definition sock_set_port (a : SocketAddr) (p : Z) : SocketAddr :=
  match a with
  | SocketV4 ip _ => SocketV4 ip p
  | SocketV6 ip _ f s => SocketV6 ip p f s
  end.

Lemma sock_ip_new ip p : sock_ip (sock_new ip p) = ip.
Proof. by destruct ip. Qed.
Lemma sock_port_new ip p : sock_port (sock_new ip p) = p.
Proof. by destruct ip. Qed.

Definition wf_ip (a : IpAddr) : Prop :=
  match a with
  | V4 (Ipv4Addr_new a b c d) => Forall (λ x, 0 ≤ x < 256) [a; b; c; d]
  | V6 (Ipv6Addr_new a b c d e f g h) =>
      Forall (λ x, 0 ≤ x < 65536) [a; b; c; d; e; f; g; h]
  end.

(** Prove [wf_ip] of a concrete address. *)
Ltac wf_ip_tac := cbn; rewrite ?Forall_cons_iff; repeat split; first [lia | by constructor].

(** ** Address classes *)

Definition LOCALHOST_V4 : Ipv4Addr := Ipv4Addr_new 127 0 0 1.
Definition UNSPECIFIED_V4 : Ipv4Addr := Ipv4Addr_new 0 0 0 0.
Definition LOCALHOST_V6 : Ipv6Addr := Ipv6Addr_new 0 0 0 0 0 0 0 1.
Definition UNSPECIFIED_V6 : Ipv6Addr := Ipv6Addr_new 0 0 0 0 0 0 0 0.

Module v4.
Definition is_loopback (a : Ipv4Addr) : bool := oct0 a =? 127.
Definition is_link_local (a : Ipv4Addr) : bool := (oct0 a =? 169) && (oct1 a =? 254).
Definition is_unspecified (a : Ipv4Addr) : bool := bool_decide (a = UNSPECIFIED_V4).
Definition is_multicast (a : Ipv4Addr) : bool := (224 <=? oct0 a) && (oct0 a <=? 239).
Definition is_broadcast (a : Ipv4Addr) : bool :=
    bool_decide (a = Ipv4Addr_new 255 255 255 255).
Definition is_private (a : Ipv4Addr) : bool :=
    (oct0 a =? 10)
    || ((oct0 a =? 172) && ((16 <=? oct1 a) && (oct1 a <=? 31)))
    || ((oct0 a =? 192) && (oct1 a =? 168)).
  (** [a.b.c.d] as the IPv4-mapped address [::ffff:a.b.c.d]. *)
Definition to_ipv6_mapped (a : Ipv4Addr) : Ipv6Addr :=
    Ipv6Addr_new 0 0 0 0 0 65535 (oct0 a * 256 + oct1 a) (oct2 a * 256 + oct3 a).
End v4.

Module v6.
Definition is_loopback (a : Ipv6Addr) : bool := bool_decide (a = LOCALHOST_V6).
Definition is_unspecified (a : Ipv6Addr) : bool := bool_decide (a = UNSPECIFIED_V6).
Definition is_multicast (a : Ipv6Addr) : bool := Z.land (seg0 a) 65280 =? 65280.
  (** [Ipv6Addr::to_ipv4_mapped] *)
Definition to_ipv4_mapped (a : Ipv6Addr) : option Ipv4Addr :=
    match a with
    | Ipv6Addr_new 0 0 0 0 0 65535 x y =>
        Some (Ipv4Addr_new (Z.shiftr x 8) (Z.land x 255) (Z.shiftr y 8) (Z.land y 255))
    | _ => None
    end.
End v6.

(** [IpAddr::to_canonical] *)
Definition to_canonical (a : IpAddr) : IpAddr :=
  match a with
  | V4 _ => a
  | V6 b => match v6.to_ipv4_mapped b with Some c => V4 c | None => a end
  end.

Definition is_loopback (a : IpAddr) : bool :=
  match a with V4 b => v4.is_loopback b | V6 b => v6.is_loopback b end.
Definition is_unspecified (a : IpAddr) : bool :=
  match a with V4 b => v4.is_unspecified b | V6 b => v6.is_unspecified b end.
Definition is_multicast (a : IpAddr) : bool :=
  match a with V4 b => v4.is_multicast b | V6 b => v6.is_multicast b end.

Lemma to_ipv4_mapped_Some a b :
  v6.to_ipv4_mapped a = Some b →
  ∃ x y, a = Ipv6Addr_new 0 0 0 0 0 65535 x y ∧
    b = Ipv4Addr_new (Z.shiftr x 8) (Z.land x 255) (Z.shiftr y 8) (Z.land y 255).
Proof.
  destruct a as [s0 s1 s2 s3 s4 s5 s6 s7]. unfold v6.to_ipv4_mapped.
  intros H. repeat (case_in H). injection H as <-. eauto.
Qed.

(** Canonicalising is idempotent: an IPv4 address is never a mapped one. *)
Lemma to_canonical_idemp a : to_canonical (to_canonical a) = to_canonical a.
Proof.
  destruct a as [a|a]; [done|]. simpl.
  destruct (v6.to_ipv4_mapped a) eqn:E; [done|]. simpl. by rewrite E.
Qed.

Lemma to_canonical_mapped a :
  0 ≤ oct0 a < 256 → 0 ≤ oct1 a < 256 → 0 ≤ oct2 a < 256 → 0 ≤ oct3 a < 256 →
  to_canonical (V6 (v4.to_ipv6_mapped a)) = V4 a.
Proof.
  destruct a as [a b c d]; simpl. intros Ha Hb Hc Hd.
  assert (∀ x y, 0 ≤ x < 256 → 0 ≤ y < 256 → Z.shiftr (x * 256 + y) 8 = x) as Hs.
  { intros x y Hx Hy. rewrite Z.shiftr_div_pow2 by lia. change (2 ^ 8) with 256.
    rewrite Z.div_add_l by lia. rewrite Z.div_small; lia. }
  assert (∀ x y, 0 ≤ x < 256 → 0 ≤ y < 256 → Z.land (x * 256 + y) 255 = y) as Hl.
  { intros x y Hx Hy. change 255 with (Z.ones 8). rewrite Z.land_ones by lia.
    change (2 ^ 8) with 256. rewrite Z.add_comm, Z.mod_add by lia.
    apply Z.mod_small. lia. }
  by rewrite !Hs, !Hl by done.
Qed.

Lemma to_canonical_loopback a :
  is_loopback (to_canonical a) = true →
  is_loopback a = true ∨ ∃ b, a = V6 b ∧ is_Some (v6.to_ipv4_mapped b).
Proof.
  destruct a as [a|a]; simpl; [auto|].
  destruct (v6.to_ipv4_mapped a) eqn:E; simpl; eauto 6.
Qed.

(** ** Parsing: [str::parse::<IpAddr>] *)

(** [char::to_digit(radix)] *)
Definition to_digit (radix : Z) (c : ascii) : option Z :=
  let b := Z.of_N (byte c) in
  let d := if is_ascii_digit c then b - 48
           else if (97 <=? b) && (b <=? 102) then b - 87
           else if (65 <=? b) && (b <=? 70) then b - 55
           else radix in
  if d <? radix then Some d else None.

Fixpoint read_digits (radix max : Z) (max_digits count : nat) (acc : Z) (s : string) :
    option (Z * nat * string) :=
  match s with
  | EmptyString => Some (acc, count, s)
  | String c r =>
      match to_digit radix c with
      | Some d =>
          let acc := acc * radix + d in
          if (max <? acc) || (max_digits <? S count)%nat then None
          else read_digits radix max max_digits (S count) acc r
      | None => Some (acc, count, s)
      end
  end.

Definition read_number (radix max : Z) (max_digits : nat) (allow_zero_prefix : bool)
    (s : string) : option (Z * string) :=
  let has_leading_zero := starts_with "0" s in
  match read_digits radix max max_digits 0 0 s with
  | Some (v, count, r) =>
      if (count =? 0)%nat then None
      else if negb allow_zero_prefix && has_leading_zero && (1 <? count)%nat then None
      else Some (v, r)
  | None => None
  end.

Definition read_separator {A} (sep : string) (index : nat)
    (inner : string → option (A * string)) (s : string) : option (A * string) :=
  match index with
  | O => inner s
  | S _ => match strip_prefix sep s with Some r => inner r | None => None end
  end.

Definition read_octet (i : nat) : string → option (Z * string) :=
  read_separator "." i (read_number 10 255 3 false).

Definition read_ipv4_addr (s : string) : option (Ipv4Addr * string) :=
  (let?o (a, s) := read_octet 0 s in
   let?o (b, s) := read_octet 1 s in
   let?o (c, s) := read_octet 2 s in
   let?o (d, s) := read_octet 3 s in
   Some (Ipv4Addr_new a b c d, s))%rust.

(** At most [rem] more groups, the next one being number [i]; the flag says an
    embedded IPv4 address ended the run. *)
Fixpoint read_groups (rem i : nat) (s : string) : list Z * bool * string :=
  match rem with
  | O => ([], false, s)
  | S rem =>
      let embedded :=
        match rem with O => None | S _ => read_separator ":" i read_ipv4_addr s end in
      match embedded with
      | Some (Ipv4Addr_new a b c d, r) => ([a * 256 + b; c * 256 + d], true, r)
      | None =>
          match read_separator ":" i (read_number 16 65535 4 true) s with
          | Some (g, r) =>
              let '(gs, v, r) := read_groups rem (S i) r in (g :: gs, v, r)
          | None => ([], false, s)
          end
      end
  end.

Definition ipv6_of_groups (l : list Z) : option Ipv6Addr :=
  match l with
  | [a; b; c; d; e; f; g; h] => Some (Ipv6Addr_new a b c d e f g h)
  | _ => None
  end.

Definition read_ipv6_addr (s : string) : option (Ipv6Addr * string) :=
  let '(head, head_ipv4, s) := read_groups 8 0 s in
  if (length head =? 8)%nat then (λ a, (a, s)) <$> ipv6_of_groups head
  else if head_ipv4 then None
  else
    (let?o s := strip_prefix ":" s in
     let?o s := strip_prefix ":" s in
     let '(tail, _, s) := read_groups (8 - (length head + 1)) 0 s in
     (λ a, (a, s)) <$>
       ipv6_of_groups (head ++ replicate (8 - length head - length tail) 0 ++ tail))%rust.

(** The whole input must be consumed. *)
Definition parse_with {A} (read : string → option (A * string)) (s : string) : option A :=
  match read s with
  | Some (a, EmptyString) => Some a
  | _ => None
  end.

Definition parse_ipv4 (s : string) : option Ipv4Addr :=
  if (15 <? String.length s)%nat then None else parse_with read_ipv4_addr s.

Definition parse_ipv6 (s : string) : option Ipv6Addr := parse_with read_ipv6_addr s.

Definition parse_ip (s : string) : option IpAddr :=
  parse_with (λ s,
    match read_ipv4_addr s with
    | Some (a, r) => Some (V4 a, r)
    | None => match read_ipv6_addr s with Some (a, r) => Some (V6 a, r) | None => None end
    end) s.

Example parse_ip_v4 : parse_ip "192.168.0.1" = Some (V4 (Ipv4Addr_new 192 168 0 1)).
Proof. reflexivity. Qed.
Example parse_ip_leading_zero : parse_ip "192.168.00.1" = None.
Proof. reflexivity. Qed.
Example parse_ip_v6_mapped :
  parse_ip "::ffff:10.0.0.1" = Some (V6 (v4.to_ipv6_mapped (Ipv4Addr_new 10 0 0 1))).
Proof. reflexivity. Qed.
Example parse_ip_v6 :
  parse_ip "fd00:ec2::254" = Some (V6 (Ipv6Addr_new 64768 3778 0 0 0 0 0 596)).
Proof. reflexivity. Qed.
Example parse_ip_domain : parse_ip "example.com" = None.
Proof. reflexivity. Qed.

(** Canonicalising keeps octets and segments in range. *)
Lemma wf_to_canonical a : wf_ip a → wf_ip (to_canonical a).
Proof.
  destruct a as [a|a]; [done|]. simpl.
  destruct (v6.to_ipv4_mapped a) as [b|] eqn:E; [|done].
  apply to_ipv4_mapped_Some in E as (x & y & -> & ->).
  rewrite !Forall_cons_iff. intros Hwf. destruct_and! Hwf.
  assert (∀ z, 0 ≤ z < 65536 → 0 ≤ Z.shiftr z 8 < 256 ∧ 0 ≤ Z.land z 255 < 256) as Hb.
  { intros z Hz. rewrite Z.shiftr_div_pow2 by lia. change 255 with (Z.ones 8).
    rewrite Z.land_ones by lia. change (2 ^ 8) with 256.
    Z.to_euclidean_division_equations. lia. }
  destruct (Hb x), (Hb y); [lia..|]. simpl. rewrite !Forall_cons_iff. by repeat split; try lia.
Qed.

(** ** Parsing ignores ASCII case *)

Definition lower_rest {A} (o : option (A * string)) : option (A * string) :=
  match o with Some (a, r) => Some (a, to_ascii_lowercase r) | None => None end.

Definition caseless {A} (read : string → option (A * string)) : Prop :=
  ∀ s, read (to_ascii_lowercase s) = lower_rest (read s).

Lemma to_digit_lower radix c :
  radix = 10 ∨ radix = 16 → to_digit radix (lower c) = to_digit radix c.
Proof. intros [-> | ->]; destruct c as [[] [] [] [] [] [] [] []]; reflexivity. Qed.

Lemma strip_prefix_sep_lower d s :
  (∀ c, Ascii.eqb d (lower c) = Ascii.eqb d c) →
  strip_prefix (String d "") (to_ascii_lowercase s)
  = to_ascii_lowercase <$> strip_prefix (String d "") s.
Proof. intros Hd. destruct s as [|c s]; [done|]. simpl. rewrite Hd. by case_match. Qed.

Lemma sep_lower d c : d ∈ ["."; ":"; "0"]%char → Ascii.eqb d (lower c) = Ascii.eqb d c.
Proof.
  intros H. repeat (apply elem_of_cons in H as [->|H];
    [by destruct c as [[] [] [] [] [] [] [] []]|]). by apply not_elem_of_nil in H.
Qed.

Lemma read_digits_lower radix max md count acc s :
  radix = 10 ∨ radix = 16 →
  read_digits radix max md count acc (to_ascii_lowercase s)
  = lower_rest (read_digits radix max md count acc s).
Proof.
  intros Hr. revert count acc. induction s as [|c s IH]; intros count acc; [done|]. simpl.
  rewrite to_digit_lower by done. destruct (to_digit radix c); [|done].
  case_match; [done|apply IH].
Qed.

Lemma read_number_caseless radix max md zp :
  radix = 10 ∨ radix = 16 → caseless (read_number radix max md zp).
Proof.
  intros Hr s. unfold read_number. rewrite read_digits_lower by done.
  assert (starts_with "0" (to_ascii_lowercase s) = starts_with "0" s) as ->.
  { unfold starts_with. rewrite strip_prefix_sep_lower by (intros; apply sep_lower; set_solver).
    by destruct (strip_prefix "0" s). }
  destruct (read_digits _ _ _ _ _ s) as [[[v n] r]|]; [|done]. simpl.
  repeat case_match; done.
Qed.

Lemma read_separator_caseless {A} d i (inner : string → option (A * string)) :
  d ∈ ["."; ":"]%char → caseless inner → caseless (read_separator (String d "") i inner).
Proof.
  intros Hd Hi s. destruct i; [apply Hi|]. cbn [read_separator].
  rewrite strip_prefix_sep_lower by (intros; apply sep_lower; set_solver).
  destruct (strip_prefix (String d "") s); [|done]. apply Hi.
Qed.

Lemma read_ipv4_caseless : caseless read_ipv4_addr.
Proof.
  assert (∀ i, caseless (read_octet i)) as Ho.
  { intros i. apply read_separator_caseless; [set_solver|]. apply read_number_caseless. auto. }
  intros s. unfold read_ipv4_addr. rewrite Ho.
  do 4 (match goal with |- context [read_octet ?i ?r] =>
          destruct (read_octet i r) as [[??]|]; [cbn [lower_rest]; rewrite ?Ho|done] end).
  done.
Qed.

Lemma read_groups_lower rem i s :
  read_groups rem i (to_ascii_lowercase s)
  = let '(l, v, r) := read_groups rem i s in (l, v, to_ascii_lowercase r).
Proof.
  revert i s. induction rem as [|rem IH]; intros i s; [done|]. cbn [read_groups].
  rewrite (read_separator_caseless ":" i) by
    first [set_solver | apply read_ipv4_caseless].
  rewrite (read_separator_caseless ":" i (read_number 16 65535 4 true)) by
    first [set_solver | apply read_number_caseless; auto].
  destruct (match rem with O => None | S _ => read_separator ":" i read_ipv4_addr s end)
    as [[[a b c d] r]|] eqn:E.
  - destruct rem; [done|]. by rewrite E.
  - assert (match rem with O => None
            | S _ => lower_rest (read_separator ":" i read_ipv4_addr s) end = None) as ->.
    { destruct rem; [done|]. by rewrite E. }
    destruct (read_separator ":" i (read_number 16 65535 4 true) s) as [[g r]|]; [|done].
    cbn [lower_rest].
    rewrite IH. by destruct (read_groups rem (S i) r) as [[??]?].
Qed.

Lemma read_ipv6_caseless : caseless read_ipv6_addr.
Proof.
  intros s. unfold read_ipv6_addr. rewrite read_groups_lower.
  destruct (read_groups 8 0 s) as [[head v] r]. case_match.
  { by destruct (ipv6_of_groups head). }
  destruct v; [done|].
  assert (∀ s, strip_prefix ":" (to_ascii_lowercase s) = to_ascii_lowercase <$> strip_prefix ":" s)
    as Hc by (intros; apply strip_prefix_sep_lower; intros; apply sep_lower; set_solver).
  rewrite Hc. destruct (strip_prefix ":" r) as [r1|]; [|done].
  change (to_ascii_lowercase <$> Some r1) with (Some (to_ascii_lowercase r1)). cbv iota beta.
  rewrite Hc. destruct (strip_prefix ":" r1) as [r2|]; [|done].
  change (to_ascii_lowercase <$> Some r2) with (Some (to_ascii_lowercase r2)). cbv iota beta.
  rewrite read_groups_lower. destruct (read_groups _ 0 r2) as [[tail w] r3].
  by destruct (ipv6_of_groups _).
Qed.

Lemma parse_ip_caseless s : parse_ip (to_ascii_lowercase s) = parse_ip s.
Proof.
  unfold parse_ip, parse_with. rewrite read_ipv4_caseless, read_ipv6_caseless.
  destruct (read_ipv4_addr s) as [[a r]|]; simpl.
  - by destruct r.
  - destruct (read_ipv6_addr s) as [[a r]|]; simpl; [by destruct r|done].
Qed.
