(* ===== verification/UriLib.v ===== *)
(** * The [http] and [url] crates

    Third-party code the policies are written against.  [url::Host] is a public
    enum; everything else is opaque, so it is a class: the types, the functions
    the sources call, and as laws only documented behaviour that a proof needs.
    [UriLib] is an argument of every definition that uses it; [simple_uri] is a
    small executable instance for concrete runs. *)

From Stdlib Require Import ZArith Lia Ascii.
From stdpp Require Import base list strings option.
From S2P Require Import Prelude RustStr Net.
Local Open Scope string_scope.

(** [url::Host<String>] *)
Inductive UrlHost :=
  | Domain (d : string)
  | HostIpv4 (a : Ipv4Addr)
  | HostIpv6 (a : Ipv6Addr).

Class UriLib := {
  (** [url::Host::parse], errors erased *)
  host_parse : string → option UrlHost;

  (** [http::uri::Authority]: [from_str], [as_str] (which [Display] prints),
      [host], [port_u16] *)
  Authority : Type;
  authority_from_str : string → option Authority;
  authority_as_str : Authority → string;
  authority_host : Authority → string;
  authority_port_u16 : Authority → option Z;

  (** [http::uri::Scheme] *)
  Scheme : Type;
  scheme_from_str : string → option Scheme;
  scheme_as_str : Scheme → string;

  (** [url::Url]; [url_as_str] is what [Display] prints *)
  Url : Type;
  url_parse : string → option Url;
  url_as_str : Url → string;
  url_scheme : Url → string;
  url_host_str : Url → option string;
  url_port : Url → option Z;
  url_port_or_known_default : Url → option Z;
  url_path : Url → string;
  url_query : Url → option string;
  url_fragment : Url → option string;
  url_username : Url → string;
  url_password : Url → option string;

  (** [http::Uri], a request's target *)
  Uri : Type;
  uri_host : Uri → option string;
  uri_scheme_str : Uri → option string;
  uri_port_u16 : Uri → option Z;
  uri_path : Uri → string;
  uri_authority : Uri → option Authority;
  (** [Uri::from_parts] of a URI's parts with another scheme and authority, and the
      path [/] where there was none *)
  uri_from_parts : Uri → Scheme → Authority → option Uri;
  uri_parse : string → option Uri;
}.

(** Documented behaviour of [http::uri::Scheme]: its text parses back to itself,
    is non-empty, and holds only the characters RFC 3986 allows in a scheme
    (letters, digits, [+], [-] and [.]). *)
Class UriLaws `{UriLib} := {
  scheme_as_str_parse : ∀ s, scheme_from_str (scheme_as_str s) = Some s;
  scheme_char : ∀ s, str_all (λ c, is_ascii_alphanumeric c
    || existsb (Ascii.eqb c) ["+"; "-"; "."]%char) (scheme_as_str s) = true;
  scheme_nonempty : ∀ s, scheme_as_str s ≠ "";
}.

(** ** A small instance for concrete runs

    Authorities and URLs as records of their parts, parsed by splitting; enough
    to evaluate the policies on plain [host[:port]] and [scheme://host[:port]]
    inputs. *)
Record simple_parts := {
  sp_scheme : string; sp_host : string; sp_port : option Z;
}.

Definition simple_split (scheme text : string) : option simple_parts :=
  match rsplit_once ":" text with
  | Some (h, p) =>
      (λ n, {| sp_scheme := scheme; sp_host := h; sp_port := Some n |})
        <$> parse_uint u16_MAX p
  | None =>
      if is_empty text then None
      else Some {| sp_scheme := scheme; sp_host := text; sp_port := None |}
  end.

Definition simple_show (p : simple_parts) : string :=
  (if is_empty (sp_scheme p) then "" else sp_scheme p +:+ "://")
  +:+ sp_host p
  +:+ match sp_port p with Some n => ":" +:+ show_uint n | None => "" end.

Definition simple_scheme_char (c : ascii) : bool :=
  is_ascii_alphanumeric c || existsb (Ascii.eqb c) ["+"; "-"; "."]%char.

Definition simple_scheme : Type :=
  { s : string | str_all simple_scheme_char s && negb (is_empty s) = true }.

Definition simple_scheme_from_str (s : string) : option simple_scheme :=
  match Sumbool.sumbool_of_bool (str_all simple_scheme_char s && negb (is_empty s)) with
  | left H => Some (exist _ s H)
  | right _ => None
  end.

Definition simple_known_port (s : string) : option Z :=
  if String.eqb s "http" || String.eqb s "ws" then Some 80%Z
  else if String.eqb s "https" || String.eqb s "wss" then Some 443%Z
  else if String.eqb s "ftp" then Some 21%Z else None.

#[global] Instance simple_uri : UriLib := {|
  host_parse s := match parse_ip s with
                  | Some (V4 a) => Some (HostIpv4 a)
                  | Some (V6 a) => Some (HostIpv6 a)
                  | None => if is_empty s then None else Some (Domain (to_ascii_lowercase s))
                  end;
  Authority := simple_parts;
  authority_from_str := simple_split "";
  authority_as_str := simple_show;
  authority_host := sp_host;
  authority_port_u16 := sp_port;
  Scheme := simple_scheme;
  scheme_from_str := simple_scheme_from_str;
  scheme_as_str := proj1_sig;
  Url := simple_parts;
  url_parse s := match split_once "://" s with
                 | Some (sch, rest) => simple_split sch rest
                 | None => None
                 end;
  url_as_str := simple_show;
  url_scheme := sp_scheme;
  url_host_str p := Some (sp_host p);
  url_port p := match sp_port p with
                | Some n => if bool_decide (Some n = simple_known_port (sp_scheme p))
                            then None else Some n
                | None => None
                end;
  url_port_or_known_default p := match sp_port p with
                                 | Some n => Some n
                                 | None => simple_known_port (sp_scheme p)
                                 end;
  url_path _ := "";
  url_query _ := None;
  url_fragment _ := None;
  url_username _ := "";
  url_password _ := None;
  Uri := simple_parts;
  uri_host p := Some (sp_host p);
  uri_scheme_str p := if is_empty (sp_scheme p) then None else Some (sp_scheme p);
  uri_port_u16 := sp_port;
  uri_path _ := "/";
  uri_authority p := Some {| sp_scheme := ""; sp_host := sp_host p; sp_port := sp_port p |};
  uri_from_parts _ s a :=
    Some {| sp_scheme := proj1_sig s; sp_host := sp_host a; sp_port := sp_port a |};
  uri_parse s := match split_once "://" s with
                 | Some (sch, rest) => simple_split sch rest
                 | None => simple_split "" s
                 end;
|}.

#[global] Instance simple_uri_laws : UriLaws.
Proof.
  split; simpl.
  - intros [s H]. unfold simple_scheme_from_str. simpl.
    destruct (Sumbool.sumbool_of_bool _) as [H'|H'].
    + do 2 f_equal. apply (Eqdep_dec.UIP_dec bool_dec).
    + exfalso. rewrite H in H'. discriminate.
  - intros [s H]. simpl. by apply andb_true_iff in H as [H _].
  - intros [s H]. simpl. apply andb_true_iff in H as [_ H]. by intros ->.
Qed.
