(* ===== verification/HostMemory.v ===== *)
(** * The memory budgets of a host

    [engine/host_memory.rs] and the reading of [engine/process_memory/footprint.rs]:
    byte sizes as an operator writes them, the three budgets and what they derive
    from, the address space a pool reserves, and the limit the kernel really
    holds the process to.  A [u64] is a [Z] and every saturation is written out.
    Files are an argument ([read]), and so is the physical memory.  A message is
    an [Advisory] with the numbers it shows; [{:.1}] of a floating-point quotient,
    which only messages use, is the argument [fmt1]. *)

From Stdlib Require Import ZArith Lia Ascii.
From stdpp Require Import base list gmap strings option.
From S2P Require Import Prelude RustStr.
Local Open Scope Z_scope.

(** ** Machine integers *)

Definition u32_MAX : Z := 4294967295.
Definition u128_MAX : Z := 340282366920938463463374607431768211455.
Definition i32_MIN : Z := -2147483648.
Definition i32_MAX : Z := 2147483647.

Definition sat_add (a b : Z) : Z := Z.min (a + b) u64_MAX.
Definition sat_mul (a b : Z) : Z := Z.min (a * b) u64_MAX.
Definition sat_sub (a b : Z) : Z := Z.max (a - b) 0.
Definition checked_mul128 (a b : Z) : option Z :=
  if a * b <=? u128_MAX then Some (a * b) else None.

(** [10u128.checked_pow(n)]: 10^38 is the largest power that fits (see
    [checked_pow10_spec]). *)
Definition checked_pow10 (n : Z) : option Z := if n <=? 38 then Some (10 ^ n) else None.

(** [str::parse::<i32>]. *)
Definition parse_i32 (s : string) : option Z :=
  match s with
  | EmptyString => None
  | String c r =>
      if Ascii.eqb c "-" then
        match r with EmptyString => None | _ => Z.opp <$> parse_digits (- i32_MIN) 0 r end
      else parse_uint i32_MAX s
  end.

(** ** [parse_bytes] *)

Definition KI : Z := 1024.
Definition MIB : Z := 1024 * 1024.

Inductive SizeError :=
  | EmptySize | NoLeadingNumber | MilliSuffix | NoExponentDigits | UnknownSuffix
  | BadExponent | BadMantissa | SizeOverflow | LessThanOneByte.
#[global] Instance SizeError_eq_dec : EqDecision SizeError.
Proof. solve_decision. Defined.

Local Open Scope string_scope.
Local Open Scope list_scope.

(** The longest prefix of bytes with [p], and the rest. *)
Fixpoint span (p : ascii → bool) (s : string) : string * string :=
  match s with
  | EmptyString => ("", "")
  | String c r => if p c then let '(a, b) := span p r in (String c a, b) else ("", s)
  end.

Definition in_mantissa (c : ascii) : bool := is_ascii_digit c || Ascii.eqb c ".".

(** The table of suffixes, on the suffix in lower case. *)
Definition unit_table : list (string * Z) :=
  [("", 1); ("b", 1);
   ("ki", KI); ("kib", KI); ("mi", MIB); ("mib", MIB);
   ("gi", KI * MIB); ("gib", KI * MIB); ("ti", KI * KI * MIB); ("tib", KI * KI * MIB);
   ("pi", KI * KI * KI * MIB); ("pib", KI * KI * KI * MIB);
   ("ei", KI * KI * KI * KI * MIB); ("eib", KI * KI * KI * KI * MIB);
   ("k", 1000); ("kb", 1000); ("m", 1000000); ("mb", 1000000);
   ("g", 1000000000); ("gb", 1000000000); ("t", 1000000000000); ("tb", 1000000000000);
   ("p", 1000000000000000); ("pb", 1000000000000000);
   ("e", 1000000000000000000); ("eb", 1000000000000000000)]%Z.

Definition factor_of (suffix : string) : option Z :=
  find_map (λ e : string * Z, if bool_decide (e.1 = to_ascii_lowercase suffix) then Some e.2 else None)
    unit_table.

(** The factor and the decimal exponent a suffix stands for. *)
Definition parse_suffix (suffix : string) : result (Z * Z) SizeError :=
  if bool_decide (suffix = "m") then Err MilliSuffix
  else if bool_decide (suffix = "e") || bool_decide (suffix = "eb") then Err NoExponentDigits
  else match factor_of suffix with
  | Some factor => Ok (factor, 0%Z)
  | None =>
      match suffix with
      | String c r =>
          if Ascii.eqb c "e" || Ascii.eqb c "E" then
            match parse_i32 r with Some e => Ok (1%Z, e) | None => Err BadExponent end
          else Err UnknownSuffix
      | EmptyString => Err UnknownSuffix
      end
  end.

(** The digits of a mantissa without its point, and how many followed it. *)
Definition parse_mantissa (mantissa : string) : result (Z * Z) SizeError :=
  let '(digits, fraction_len) :=
    match split_once "." mantissa with
    | Some (whole, fraction) => (whole +:+ fraction, (Z.of_nat (String.length fraction) mod 2 ^ 32)%Z)
    | None => (mantissa, 0%Z)
    end in
  match parse_uint u128_MAX digits with
  | Some n => Ok (n, fraction_len)
  | None =>
      Err (if negb (is_empty digits) && str_all is_ascii_digit digits
           then SizeOverflow else BadMantissa)
  end.

(** Scale up by the factor and the exponent, down by the fraction. *)
Definition scale_bytes (digits fraction_len factor exponent : Z) : result Z SizeError :=
  (let? scaled := ok_or (checked_mul128 digits factor) SizeOverflow in
   let? scaled :=
     if (0 <? exponent)%Z then
       ok_or (p ← checked_pow10 exponent; checked_mul128 scaled p) SizeOverflow
     else Ok scaled in
   let divisor_pow := Z.min (fraction_len + Z.abs (Z.min exponent 0)) u32_MAX in
   let divisor := default u128_MAX (checked_pow10 divisor_pow) in
   let bytes := (scaled / divisor)%Z in
   if (u64_MAX <? bytes)%Z then Err SizeOverflow
   else if (bytes =? 0)%Z && negb (digits =? 0)%Z then Err LessThanOneByte
   else Ok bytes)%rust.

Definition parse_bytes (s : string) : result Z SizeError :=
  let s := trim s in
  if is_empty s then Err EmptySize
  else
    let '(mantissa, suffix) := span in_mantissa s in
    if is_empty mantissa then Err NoLeadingNumber
    else
      (let? (factor, exponent) := parse_suffix (trim suffix) in
       let? (digits, fraction_len) := parse_mantissa mantissa in
       scale_bytes digits fraction_len factor exponent)%rust.

(** ** [render_bytes] *)

Definition render_units : list (Z * string) :=
  [(1024 * (1024 * MIB), "TiB"); (1024 * MIB, "GiB"); (MIB, "MiB"); (1024, "KiB")]%Z.

(** [fmt1 bytes unit] is [format!("{:.1}", bytes as f64 / unit as f64)]. *)
Definition render_bytes (fmt1 : Z → Z → string) (bytes : Z) : string :=
  match find_map (λ u : Z * string, if (u.1 <=? bytes)%Z then Some u else None) render_units with
  | Some (u, suffix) =>
      if (bytes mod u =? 0)%Z then show_uint (bytes / u) +:+ suffix
      else fmt1 bytes u +:+ suffix
  | None => show_uint bytes +:+ "B"
  end.

Local Open Scope Z_scope.

(** ** The address space of a pool *)

(** On a 64-bit target. *)
Definition WASMTIME_DEFAULT_HEAP_MEMORY : Z := 4 * 1024 * MIB.
Definition WASMTIME_DEFAULT_CORE_INSTANCES : Z := 1000.
Definition WASMTIME_MEMORY_RESERVATION : Z := 4 * 1024 * MIB.
Definition WASMTIME_MEMORY_GUARD : Z := 32 * MIB.
Definition USER_ADDRESS_SPACE : Z := 128 * 1024 * 1024 * MIB.
Definition POOL_ADDRESS_SPACE_PERCENT : Z := 90.
Definition MAX_ENFORCED_SHARE_PERCENT : Z := 90.

Definition pool_slot_bytes (max_memory_size : Z) : Z :=
  sat_add (Z.max max_memory_size WASMTIME_MEMORY_RESERVATION) WASMTIME_MEMORY_GUARD.
Definition pool_slab_bytes (max_memory_size slots : Z) : Z :=
  sat_add (sat_mul (pool_slot_bytes max_memory_size) slots) WASMTIME_MEMORY_GUARD.

(** ** What the kernel holds the process to *)

Section memory_limit.

(** The file at a path, given by its components from the root. *)
Variable read : list string → option string.

(** [str::lines]: at each line feed, without it and a carriage return before it;
    a final line feed ends the last line. *)
Fixpoint drop_final_empty (ls : list string) : list string :=
  match ls with
  | [] => []
  | [l] => if is_empty l then [] else [l]
  | l :: ls => l :: drop_final_empty ls
  end.
Definition lines (s : string) : list string :=
  (λ l, default l (strip_suffix (String (ascii_of_N 13) "") l))
    <$> drop_final_empty (split (ascii_of_N 10) s).

(** [Path::components] of a relative path when all are [Normal]: empty components
    and inner [.] ones disappear; a leading [.] or [/], and any [..], are not
    normal. *)
Definition normal_components (relative : string) : option (list string) :=
  let parts := split "/" relative in
  if match parts with
     | p :: _ => bool_decide (p = ".") || (is_empty p && negb (is_empty relative))
     | [] => false
     end then None
  else
    let parts := filter (λ p, p ≠ "" ∧ p ≠ ".") parts in
    if existsb (λ p, bool_decide (p = "..")) parts then None else Some parts.

Definition CGROUP_V2 : list string := ["sys"; "fs"; "cgroup"].
Definition CGROUP_V1 : list string := ["sys"; "fs"; "cgroup"; "memory"].

(** The cgroup a line of [/proc/self/cgroup] names: where its hierarchy is
    mounted, the file that holds its limit, and its path below the mount. *)
Definition membership_of (line : string) : option (list string * string * list string) :=
  '(_, rest) ← split_once ":" line;
  '(controllers, path) ← split_once ":" rest;
  '(root, file) ←
    (if is_empty controllers then Some (CGROUP_V2, "memory.max")
     else if existsb (λ c, bool_decide (c = "memory")) (split "," controllers)
          then Some (CGROUP_V1, "memory.limit_in_bytes") else None);
  relative ← strip_prefix "/" path;
  parts ← normal_components relative;
  Some (root, file, parts).

(** The [while] loop: the limit file of the directory and of each of its
    ancestors down to the mount. *)
Fixpoint limit_files (root : list string) (file : string) (depth : nat) (parts : list string) :
    list (list string) :=
  (root ++ take depth parts ++ [file])
  :: match depth with O => [] | S depth => limit_files root file depth parts end.

Definition limit_paths (membership : string) : list (list string) :=
  [CGROUP_V2 ++ ["memory.max"]; CGROUP_V1 ++ ["memory.limit_in_bytes"]]
  ++ mjoin ((λ line, match membership_of line with
                     | Some (root, file, parts) => limit_files root file (length parts) parts
                     | None => []
                     end) <$> lines membership).

Definition parse_cgroup_limit (raw : string) : option Z :=
  let raw := trim raw in
  if bool_decide (raw = "max") then None
  else value ← parse_uint u64_MAX raw; if value <? u64_MAX / 2 then Some value else None.

Fixpoint minimum (l : list Z) : option Z :=
  match l with
  | [] => None
  | x :: l => Some (match minimum l with Some y => Z.min x y | None => x end)
  end.

Definition effective_memory_limit (cgroup physical : option Z) : option Z :=
  minimum (option_list cgroup ++ option_list physical).

Definition detected_memory_limit_with (physical : option Z) : option Z :=
  let membership := default "" (read ["proc"; "self"; "cgroup"]) in
  let paths := limit_paths membership in
  effective_memory_limit (minimum (omap parse_cgroup_limit (omap read paths))) physical.

(** The soft [Max address space] of [/proc/self/limits]. *)
Fixpoint first_word (s : string) : string :=
  match strip_ws s with
  | Some _ => ""
  | None => match s with EmptyString => "" | String c r => String c (first_word r) end
  end.

Definition soft_address_space_limit (limits : string) : option Z :=
  rest ← find_map (strip_prefix "Max address space") (lines limits);
  let word := first_word (trim_start rest) in
  if is_empty word then None else parse_uint u64_MAX word.

Definition address_space_limit : option Z :=
  limits ← read ["proc"; "self"; "limits"]; soft_address_space_limit limits.

Definition usable_address_space : Z :=
  match address_space_limit with
  | Some limit => Z.min limit USER_ADDRESS_SPACE
  | None => USER_ADDRESS_SPACE
  end.

Definition max_map_count : option Z :=
  raw ← read ["proc"; "sys"; "vm"; "max_map_count"]; parse_uint u64_MAX (trim raw).

End memory_limit.

(** [footprint.rs]: what [/proc/self/status] says the process holds. *)
Definition status_kib (status name : string) : option Z :=
  rest ← find_map (strip_prefix name) (lines status);
  n ← strip_suffix "kB" (trim rest);
  parse_uint u64_MAX (trim n).

Definition linux_footprint (status : string) : option Z :=
  resident ← match status_kib status "RssAnon:" with
             | Some n => Some n
             | None => status_kib status "VmRSS:"
             end;
  Some (sat_mul (sat_add resident (default 0 (status_kib status "VmSwap:"))) 1024).
(** ** The three budgets *)

Definition GUEST_MEMORY_NUMERATOR : Z := 3.
Definition GUEST_MEMORY_DENOMINATOR : Z := 4.
Definition MIN_DERIVED_MAX_GUEST_MEMORY : Z := 256 * MIB.
Definition MAX_DERIVED_MAX_GUEST_MEMORY : Z := 1024 * 1024 * MIB.
Definition PROCESS_MEMORY_PERCENT : Z := 90.

Definition derive_max_guest_memory_within (memory_limit : option Z) : Z :=
  match memory_limit with
  | None => MIN_DERIVED_MAX_GUEST_MEMORY
  | Some limit =>
      Z.min (Z.max (sat_mul limit GUEST_MEMORY_NUMERATOR / GUEST_MEMORY_DENOMINATOR)
               MIN_DERIVED_MAX_GUEST_MEMORY) MAX_DERIVED_MAX_GUEST_MEMORY
  end.

Definition derive_max_process_memory_bytes_within (memory_limit : option Z) : Z :=
  match memory_limit with
  | None => u64_MAX
  | Some limit => limit / 100 * PROCESS_MEMORY_PERCENT
  end.

Record HostMemoryBudgets := {
  max_guest_memory : Z;
  default_heap_memory : Z;
  core_instances : Z;
}.

Definition derived_within (memory_limit : option Z) : HostMemoryBudgets :=
  {| max_guest_memory := derive_max_guest_memory_within memory_limit;
     default_heap_memory := WASMTIME_DEFAULT_HEAP_MEMORY;
     core_instances := WASMTIME_DEFAULT_CORE_INSTANCES |}.

Inductive Knob := MaxGuestMemory | DefaultHeapMemory | CoreInstances.
Inductive BudgetError := MustBePositive (k : Knob) | InvalidSize (k : Knob) (e : SizeError).

(** [limit] is what [detected_memory_limit] answers. *)
Definition resolve_budgets (limit : option Z) (guest heap cores : option Z) :
    result HostMemoryBudgets BudgetError :=
  if bool_decide (guest = Some 0) then Err (MustBePositive MaxGuestMemory)
  else if bool_decide (heap = Some 0) then Err (MustBePositive DefaultHeapMemory)
  else if bool_decide (cores = Some 0) then Err (MustBePositive CoreInstances)
  else Ok {| max_guest_memory := default (derive_max_guest_memory_within limit) guest;
             default_heap_memory := default WASMTIME_DEFAULT_HEAP_MEMORY heap;
             core_instances := default WASMTIME_DEFAULT_CORE_INSTANCES cores |}.

(** A blank value counts as unset. *)
Definition parse_knob (value : option string) (k : Knob) : result (option Z) BudgetError :=
  match value with
  | None => Ok None
  | Some raw =>
      let raw := trim raw in
      if is_empty raw then Ok None
      else match parse_bytes raw with Ok n => Ok (Some n) | Err e => Err (InvalidSize k e) end
  end.

Definition resolve_strs (limit : option Z) (guest heap : option string) (cores : option Z) :
    result HostMemoryBudgets BudgetError :=
  (let? guest := parse_knob guest MaxGuestMemory in
   let? heap := parse_knob heap DefaultHeapMemory in
   resolve_budgets limit guest heap cores)%rust.

Definition pool_reservation (b : HostMemoryBudgets) : Z :=
  pool_slab_bytes (default_heap_memory b) (core_instances b).

(** ** What the host says at startup *)

Inductive Advisory :=
  | HeapAboveBudget (heap budget : Z)
  | BudgetNearLimit (budget percent limit : Z)
  | HeapAboveReservation (heap : Z)
  | TooManyMappings (memories stacks tables needed limit : Z)
  | PoolCrowdsAddressSpace (heap memories reservation slot space : Z) (cannot_start : bool)
  | ProcessLimitTooHigh (asked limit : Z).
#[global] Instance Advisory_eq_dec : EqDecision Advisory.
Proof. solve_decision. Defined.

Definition advisory (b : HostMemoryBudgets) : option Advisory :=
  if max_guest_memory b <? default_heap_memory b
  then Some (HeapAboveBudget (default_heap_memory b) (max_guest_memory b)) else None.

Definition enforcement_advisory_within (b : HostMemoryBudgets) (memory_limit : option Z) :
    option Advisory :=
  limit ← memory_limit;
  if sat_mul (max_guest_memory b) 100 <=? sat_mul limit MAX_ENFORCED_SHARE_PERCENT then None
  else Some (BudgetNearLimit (max_guest_memory b)
               (sat_mul (max_guest_memory b) 100 / Z.max limit 1) limit).

Definition process_memory_advisory_within (asked : Z) (memory_limit : option Z) :
    option Advisory :=
  limit ← memory_limit;
  if limit <? asked then Some (ProcessLimitTooHigh asked limit) else None.

(** The totals of [PoolTotals] the advisories read. *)
Record PoolTotals := { memories : Z; tables : Z; stacks : Z }.

Definition pool_heap_ceiling_advisory (max_memory_size : Z) : option Advisory :=
  if WASMTIME_MEMORY_RESERVATION <? max_memory_size
  then Some (HeapAboveReservation max_memory_size) else None.

Definition pool_map_count_advisory (t : PoolTotals) (limit : Z) : option Advisory :=
  let needed := memories t * 2 + stacks t * 2 + tables t in
  if limit <? needed
  then Some (TooManyMappings (memories t) (stacks t) (tables t) needed limit) else None.

Definition pool_reservation_advisory (memories max_memory_size address_space : Z) :
    option Advisory :=
  if WASMTIME_MEMORY_RESERVATION <? max_memory_size then None
  else
    let reservation := pool_slab_bytes max_memory_size memories in
    if reservation <=? address_space / 100 * POOL_ADDRESS_SPACE_PERCENT then None
    else Some (PoolCrowdsAddressSpace max_memory_size memories reservation
                 (pool_slot_bytes max_memory_size) address_space (address_space <? reservation)).

Definition pool_advisories (read : list string → option string) (t : PoolTotals)
    (max_memory_size : Z) : list Advisory :=
  option_list (pool_heap_ceiling_advisory max_memory_size)
  ++ option_list (pool_reservation_advisory (memories t) max_memory_size (usable_address_space read))
  ++ option_list (limit ← max_map_count read; pool_map_count_advisory t limit).

(** ** Reading a size *)

(** The value of a string of digits. *)
Fixpoint dec (acc : Z) (s : string) : Z :=
  match s with
  | EmptyString => acc
  | String c s => dec (acc * 10 + (Z.of_N (byte c) - 48)) s
  end.

Definition mantissa_text (whole : string) (fraction : option string) : string :=
  match fraction with Some f => whole +:+ "." +:+ f | None => whole end.

Definition show_int (e : Z) : string :=
  if e <? 0 then "-" +:+ show_uint (- e) else show_uint e.

(** The spellings of a unit the documentation lists. *)
Definition kubernetes_units : list (string * Z) :=
  [("", 1); ("B", 1);
   ("Ki", 2 ^ 10); ("Mi", 2 ^ 20); ("Gi", 2 ^ 30); ("Ti", 2 ^ 40); ("Pi", 2 ^ 50); ("Ei", 2 ^ 60);
   ("KiB", 2 ^ 10); ("MiB", 2 ^ 20); ("GiB", 2 ^ 30); ("TiB", 2 ^ 40); ("PiB", 2 ^ 50);
   ("EiB", 2 ^ 60);
   ("k", 10 ^ 3); ("M", 10 ^ 6); ("G", 10 ^ 9); ("T", 10 ^ 12); ("P", 10 ^ 15); ("E", 10 ^ 18);
   ("kB", 10 ^ 3); ("MB", 10 ^ 6); ("GB", 10 ^ 9); ("TB", 10 ^ 12); ("PB", 10 ^ 15);
   ("EB", 10 ^ 18)].

(** A suffix, its factor and its decimal exponent. *)
Inductive unit_text : string → Z → Z → Prop :=
  | unit_suffix x F : (x, F) ∈ kubernetes_units → unit_text x F 0
  | unit_exponent c e :
      c = "e"%char ∨ c = "E"%char → i32_MIN ≤ e ≤ i32_MAX → unit_text (String c (show_int e)) 1 e.

Lemma checked_pow10_spec n : 0 ≤ n →
  checked_pow10 n = if 10 ^ n <=? u128_MAX then Some (10 ^ n) else None.
Proof.
  intros Hn. unfold checked_pow10. destruct (Z.leb_spec n 38) as [H|H].
  - rewrite (proj2 (Z.leb_le _ _)); [done|].
    transitivity (10 ^ 38); [apply Z.pow_le_mono_r; lia|vm_compute; discriminate].
  - rewrite (proj2 (Z.leb_gt _ _)); [done|].
    apply Z.lt_le_trans with (10 ^ 39); [vm_compute; reflexivity|apply Z.pow_le_mono_r; lia].
Qed.

Lemma digit_value c : is_ascii_digit c = true → 0 ≤ Z.of_N (byte c) - 48 < 10.
Proof. intros Hc. apply (digit_val_bounds c). unfold digit_val. by rewrite Hc. Qed.

Lemma dec_ge s acc : 0 ≤ acc → str_all is_ascii_digit s = true → acc ≤ dec acc s.
Proof.
  revert acc. induction s as [|c s IH]; intros acc Ha; simpl; [lia|].
  intros [Hc Hs]%andb_true_iff. apply digit_value in Hc.
  etransitivity; [|apply IH; [lia|done]]. lia.
Qed.

Lemma parse_digits_dec max s acc :
  0 ≤ acc → str_all is_ascii_digit s = true → dec acc s ≤ max →
  parse_digits max acc s = Some (dec acc s).
Proof.
  revert acc. induction s as [|c s IH]; intros acc Ha; simpl; [done|].
  intros [Hc Hs]%andb_true_iff Hm. unfold digit_val. rewrite Hc. apply digit_value in Hc.
  pose proof (dec_ge s (acc * 10 + (Z.of_N (byte c) - 48))) as Hg.
  rewrite (proj2 (Z.leb_le _ _)) by (etransitivity; [apply Hg; [lia|done]|done]).
  apply IH; [lia|done|done].
Qed.

Lemma parse_uint_dec max s :
  s ≠ "" → str_all is_ascii_digit s = true → dec 0 s ≤ max → parse_uint max s = Some (dec 0 s).
Proof.
  intros Hne Hd Hm. destruct s as [|c r]; [done|]. unfold parse_uint.
  destruct (Ascii.eqb_spec c "+") as [->|_]; [simpl in Hd; discriminate Hd|].
  apply (parse_digits_dec max (String c r)); done.
Qed.

Lemma span_app p a b :
  str_all p a = true → match b with EmptyString => True | String c _ => p c = false end →
  span p (a +:+ b) = (a, b).
Proof.
  intros Ha Hb. induction a as [|c a IH].
  - rewrite str_app_nil. destruct b as [|c b]; [done|]. simpl. by rewrite Hb.
  - simpl in Ha. apply andb_true_iff in Ha as [Hc Ha].
    rewrite str_app_cons. simpl. by rewrite Hc, IH.
Qed.

(** The bytes sizes are written with; none begins a whitespace character. *)
Definition size_char (c : ascii) : bool :=
  is_ascii_alphanumeric c || Ascii.eqb c "." || Ascii.eqb c "-".

Lemma trim_size s : str_all size_char s = true → trim s = s.
Proof.
  apply trim_id. intros [[] [] [] [] [] [] [] []] r H; vm_compute in H; try discriminate H;
    reflexivity.
Qed.

Lemma digits_size s : str_all is_ascii_digit s = true → str_all size_char s = true.
Proof.
  apply str_all_mono. intros c Hc. unfold size_char, is_ascii_alphanumeric. rewrite Hc.
  by rewrite !orb_true_r.
Qed.

Lemma show_uint_head z : 0 ≤ z →
  ∃ c r, show_uint z = String c r ∧ is_ascii_digit c = true ∧ str_all is_ascii_digit r = true.
Proof.
  intros Hz. pose proof (show_uint_digits z Hz) as Hd. pose proof (show_uint_nonempty z) as Hn.
  destruct (show_uint z) as [|c r]; [done|]. simpl in Hd. apply andb_true_iff in Hd as [? ?].
  by exists c, r.
Qed.

Lemma show_int_head e :
  ∃ c r, show_int e = String c r ∧ (is_ascii_digit c || Ascii.eqb c "-") = true
    ∧ str_all size_char r = true.
Proof.
  unfold show_int. destruct (Z.ltb_spec e 0).
  - exists "-"%char, (show_uint (- e)). split_and!; [done..|].
    apply digits_size, show_uint_digits. lia.
  - destruct (show_uint_head e) as (c & r & -> & Hc & Hr); [lia|].
    exists c, r. rewrite Hc. split_and!; [done..|]. by apply digits_size.
Qed.

Lemma parse_show_int e : i32_MIN ≤ e ≤ i32_MAX → parse_i32 (show_int e) = Some e.
Proof.
  intros He. unfold show_int. destruct (Z.ltb_spec e 0) as [Hn|Hn].
  - rewrite str_app_cons, str_app_nil. unfold parse_i32. rewrite Ascii.eqb_refl.
    destruct (show_uint_head (- e)) as (c & r & E & _); [lia|]. rewrite E, <-E.
    unfold show_uint. rewrite show_fuel_parse; simpl; [f_equal; lia| |lia].
    unfold i32_MIN in *. lia.
  - destruct (show_uint_head e) as (c & r & E & Hc & _); [lia|].
    assert (parse_i32 (show_uint e) = parse_uint i32_MAX (show_uint e)) as ->.
    { rewrite E. unfold parse_i32. by destruct (Ascii.eqb_spec c "-") as [->|]. }
    apply parse_show_uint; unfold i32_MAX, u64_MAX in *; lia.
Qed.

Lemma exponent_suffix c d r :
  c = "e"%char ∨ c = "E"%char → (is_ascii_digit d || Ascii.eqb d "-") = true →
  parse_suffix (String c (String d r))
  = match parse_i32 (String d r) with Some e => Ok (1, e) | None => Err BadExponent end.
Proof.
  intros Hc Hd.
  assert (factor_of (String c (String d r)) = None) as Hf.
  { destruct Hc as [-> | ->]; destruct d as [[] [] [] [] [] [] [] []]; vm_compute in Hd;
      try discriminate Hd; vm_compute; reflexivity. }
  unfold parse_suffix. rewrite Hf.
  rewrite !bool_decide_false by (intros [=]; subst; destruct Hc; try discriminate;
    vm_compute in Hd; discriminate).
  by destruct Hc as [-> | ->].
Qed.

Lemma unit_text_parse x F e :
  unit_text x F e → parse_suffix x = Ok (F, e) ∧ str_all size_char x = true
    ∧ match x with EmptyString => True | String c _ => in_mantissa c = false end
    ∧ 0 < F.
Proof.
  destruct 1 as [x F Hx|c e Hc He].
  - repeat (apply elem_of_cons in Hx as [[= -> ->]|Hx];
      [vm_compute; repeat split; done|]). by apply elem_of_nil in Hx.
  - destruct (show_int_head e) as (d & r & E & Hd & Hr).
    rewrite E, exponent_suffix, <-E, parse_show_int, E by done. simpl. rewrite Hr.
    split_and!; [done| | |lia].
    + unfold size_char, is_ascii_alphanumeric.
      destruct Hc as [-> | ->]; simpl; destruct (is_ascii_digit d); simpl in *;
        rewrite ?orb_true_r, ?Hd, ?orb_true_r; done.
    + by destruct Hc as [-> | ->].
Qed.

Lemma parse_mantissa_text w f :
  str_all is_ascii_digit w = true → str_all is_ascii_digit (default "" f) = true →
  w +:+ default "" f ≠ "" → dec 0 (w +:+ default "" f) ≤ u128_MAX →
  Z.of_nat (String.length (default "" f)) < 2 ^ 32 →
  parse_mantissa (mantissa_text w f)
  = Ok (dec 0 (w +:+ default "" f), Z.of_nat (String.length (default "" f))).
Proof.
  intros Hw Hf Hne Hm Hl. unfold parse_mantissa.
  assert (parse_uint u128_MAX (w +:+ default "" f) = Some (dec 0 (w +:+ default "" f))) as Hp.
  { apply parse_uint_dec; [done| |done]. by rewrite str_all_app, Hw, Hf. }
  destruct f as [f|]; simpl in *.
  - rewrite (split_once_lacks "." "") by by apply (str_all_lacks is_ascii_digit).
    by rewrite Hp, Z.mod_small by lia.
  - rewrite split_once_None_of_contains by by apply (str_all_not_contains is_ascii_digit).
    rewrite str_app_nil_r in *. by rewrite Hp.
Qed.

(** The bytes a text stands for, as a quotient. *)
Definition quantity_num (digits factor exponent : Z) : Z := digits * factor * 10 ^ Z.max exponent 0.
Definition quantity_den (fraction : string) (exponent : Z) : Z :=
  10 ^ (Z.of_nat (String.length fraction) + Z.max (- exponent) 0).

Definition quantity_result (digits bytes : Z) : result Z SizeError :=
  if u64_MAX <? bytes then Err SizeOverflow
  else if (bytes =? 0) && negb (digits =? 0) then Err LessThanOneByte else Ok bytes.

Lemma scale_bytes_exact digits f factor exponent :
  0 ≤ digits → 0 < factor → exponent ≤ 38 →
  Z.of_nat (String.length f) + Z.max (- exponent) 0 ≤ 38 →
  quantity_num digits factor exponent ≤ u128_MAX →
  scale_bytes digits (Z.of_nat (String.length f)) factor exponent
  = quantity_result digits (quantity_num digits factor exponent / quantity_den f exponent).
Proof.
  intros Hd Hf He Hl Hn. unfold scale_bytes, quantity_num, quantity_den in *.
  assert (0 < 10 ^ Z.max exponent 0) as Hp by (apply Z.pow_pos_nonneg; lia).
  assert (digits * factor ≤ digits * factor * 10 ^ Z.max exponent 0) as Hle by nia.
  unfold checked_mul128. rewrite (proj2 (Z.leb_le (digits * factor) _)) by lia. simpl.
  replace (Z.min (Z.of_nat (String.length f) + Z.abs (Z.min exponent 0)) u32_MAX)
    with (Z.of_nat (String.length f) + Z.max (- exponent) 0) by (unfold u32_MAX; lia).
  unfold checked_pow10. rewrite (proj2 (Z.leb_le (_ + _) 38)) by done. simpl.
  destruct (Z.ltb_spec 0 exponent) as [Hpos|Hneg].
  - rewrite (proj2 (Z.leb_le exponent 38)) by done. simpl.
    rewrite (Z.max_l exponent 0) in * by lia.
    rewrite (proj2 (Z.leb_le (digits * factor * 10 ^ exponent) u128_MAX)) by lia. done.
  - rewrite (Z.max_r exponent 0) in * by lia. rewrite Z.pow_0_r, Z.mul_1_r. done.
Qed.

Lemma parse_bytes_text w f x F e :
  str_all is_ascii_digit w = true → str_all is_ascii_digit (default "" f) = true →
  w +:+ default "" f ≠ "" → unit_text x F e → e ≤ 38 →
  Z.of_nat (String.length (default "" f)) + Z.max (- e) 0 ≤ 38 →
  quantity_num (dec 0 (w +:+ default "" f)) F e ≤ u128_MAX →
  parse_bytes (mantissa_text w f +:+ x)
  = quantity_result (dec 0 (w +:+ default "" f))
      (quantity_num (dec 0 (w +:+ default "" f)) F e / quantity_den (default "" f) e).
Proof.
  intros Hw Hf Hne Hu He Hl Hn. destruct (unit_text_parse _ _ _ Hu) as (Hs & Hx & Hh & HF).
  set (d := dec 0 (w +:+ default "" f)) in *.
  assert (0 ≤ d) as Hd by (apply dec_ge; [lia|by rewrite str_all_app, Hw, Hf]).
  assert (d ≤ u128_MAX) as Hdm.
  { unfold quantity_num in Hn.
    assert (0 < 10 ^ Z.max e 0) as Hp by (apply Z.pow_pos_nonneg; lia).
    assert (1 ≤ F * 10 ^ Z.max e 0) as H1 by nia. rewrite <-Z.mul_assoc in Hn. nia. }
  assert (str_all in_mantissa (mantissa_text w f) = true) as Hm.
  { assert (∀ t, str_all is_ascii_digit t = true → str_all in_mantissa t = true) as Hin.
    { intros t. apply str_all_mono. intros c Hc. unfold in_mantissa. by rewrite Hc. }
    destruct f as [f|]; simpl in *; [|by apply Hin].
    by rewrite !str_all_app, (Hin w Hw), (Hin f Hf). }
  assert (mantissa_text w f ≠ "") as Hmne.
  { destruct f as [f|]; simpl in *; [by destruct w|by rewrite str_app_nil_r in Hne]. }
  unfold parse_bytes. rewrite (trim_size (mantissa_text w f +:+ x)).
  2:{ rewrite str_all_app, Hx, andb_true_r.
      apply (str_all_mono in_mantissa); [|done]. intros c Hc. unfold in_mantissa, size_char in *.
      unfold is_ascii_alphanumeric. destruct (is_ascii_digit c); [by rewrite !orb_true_r|].
      simpl in Hc. rewrite Hc. by rewrite !orb_true_r. }
  rewrite span_app by done. destruct (mantissa_text w f) as [|c r] eqn:E; [done|].
  rewrite str_app_cons. cbn [is_empty]. rewrite (trim_size x), Hs by done.
  rewrite <-E, parse_mantissa_text by (done || lia). by apply scale_bytes_exact.
Qed.

(** a size is read exactly.  A text made of digits, perhaps a point and more
    digits, and a unit the documentation lists or a decimal exponent, is the
    quotient it stands for, rounded down; one past 64 bits is refused, and so is
    one that is not zero and under a byte.  (The digits with the factor must fit
    in 128 bits.) *)
Theorem parse_bytes_reads_quantities w f x F e :
  str_all is_ascii_digit w = true → str_all is_ascii_digit (default "" f) = true →
  w +:+ default "" f ≠ "" → unit_text x F e → e ≤ 38 →
  Z.of_nat (String.length (default "" f)) + Z.max (- e) 0 ≤ 38 →
  quantity_num (dec 0 (w +:+ default "" f)) F e ≤ u128_MAX →
  let digits := dec 0 (w +:+ default "" f) in
  let bytes := quantity_num digits F e / quantity_den (default "" f) e in
  parse_bytes (mantissa_text w f +:+ x)
  = if u64_MAX <? bytes then Err SizeOverflow
    else if (bytes =? 0) && negb (digits =? 0) then Err LessThanOneByte else Ok bytes.
Proof. intros. by apply parse_bytes_text. Qed.

Lemma parse_bytes_reads_quantities_witness : parse_bytes "1.5Gi" = Ok 1610612736.
Proof.
  change "1.5Gi" with (mantissa_text "1" (Some "5") +:+ "Gi").
  etransitivity; [apply (parse_bytes_reads_quantities "1" (Some "5") "Gi" (2 ^ 30) 0)|];
    try reflexivity; try discriminate.
  apply unit_suffix. vm_compute. set_solver.
Defined.

(** a quantity far below one byte can be read as a whole byte: when the power
    of ten to divide by does not fit in 128 bits the largest 128-bit number is
    used instead, which the digits may equal. *)
Theorem parse_bytes_rounds_a_third_up :
  parse_bytes "340282366920938463463374607431768211455e-39" = Ok 1
  ∧ dec 0 "340282366920938463463374607431768211455" < 10 ^ 39.
Proof. split; vm_compute; reflexivity. Qed.

(** ** Printing a size *)

(** Bytes [render_bytes] prints without a fraction. *)
Definition prints_whole (bytes : Z) : bool :=
  match find_map (λ u : Z * string, if (u.1 <=? bytes)%Z then Some u else None) render_units with
  | Some (u, _) => bytes mod u =? 0
  | None => true
  end.

Lemma dec_parse max s z :
  str_all is_ascii_digit s = true → parse_digits max 0 s = Some z → dec 0 s = z.
Proof.
  intros Hs. generalize 0 at 1 2. induction s as [|c s IH]; intros acc; simpl; [by intros [= ->]|].
  simpl in Hs. apply andb_true_iff in Hs as [Hc Hs]. unfold digit_val. rewrite Hc.
  case_match; [|done]. by apply IH.
Qed.

Lemma dec_show z : 0 ≤ z ≤ u64_MAX → dec 0 (show_uint z) = z.
Proof.
  intros Hz. apply (dec_parse u64_MAX); [apply show_uint_digits; lia|].
  apply show_fuel_parse; unfold u64_MAX in *; lia.
Qed.

Lemma parse_whole k x F :
  0 ≤ k → (x, F) ∈ kubernetes_units → 0 < F → k * F ≤ u64_MAX →
  parse_bytes (show_uint k +:+ x) = Ok (k * F).
Proof.
  intros Hk Hx HF Hm. assert (k ≤ k * F) by nia.
  pose proof (parse_bytes_text (show_uint k) None x F 0) as Hp. simpl in Hp.
  rewrite str_app_nil_r, dec_show in Hp by lia.
  unfold quantity_num, quantity_den in Hp. simpl in Hp. rewrite Z.mul_1_r, Z.div_1_r in Hp.
  rewrite Hp; [|by apply show_uint_digits|done|apply show_uint_nonempty|by constructor|lia|lia|].
  - unfold quantity_result. rewrite (proj2 (Z.ltb_ge _ _)) by done.
    destruct (Z.eqb_spec (k * F) 0) as [Hz|]; [|done]. destruct (Z.eqb_spec k 0); [done|nia].
  - unfold u64_MAX, u128_MAX in *. lia.
Qed.

(** a size printed without a fraction is read back as itself. *)
Theorem render_then_parse fmt1 n :
  0 ≤ n ≤ u64_MAX → prints_whole n = true → parse_bytes (render_bytes fmt1 n) = Ok n.
Proof.
  intros Hn Hw. unfold prints_whole, render_bytes in *.
  destruct (find_map _ render_units) as [[u x]|] eqn:E.
  - rewrite Hw. bools.
    assert ((x, u) ∈ kubernetes_units ∧ 0 < u) as [Hx Hu].
    { unfold render_units in E. simpl in E.
      repeat (destruct (_ <=? n) in E; [injection E as <- <-; split; [vm_compute; set_solver|reflexivity]|]).
      discriminate E. }
    assert (n = n / u * u) as Hd by (rewrite Z.mul_comm; apply Z_div_exact_2; lia).
    rewrite Hd at 2. apply parse_whole; [apply Z.div_pos; lia|done|done|lia].
  - rewrite <-(Z.mul_1_r n) at 2. apply parse_whole; [lia|vm_compute; set_solver|lia|lia].
Qed.

Lemma render_then_parse_witness :
  parse_bytes (render_bytes (λ _ _, "") (4 * 1024 * MIB)) = Ok (4 * 1024 * MIB)
  ∧ render_bytes (λ _ _, "") (4 * 1024 * MIB) = "4GiB".
Proof.
  split; [|vm_compute; reflexivity].
  apply (render_then_parse (λ _ _, "") (4 * 1024 * MIB)); vm_compute; [split|]; done.
Defined.

(** ** The limit that is found *)

Lemma limit_files_elem root file n parts path :
  path ∈ limit_files root file n parts ↔ ∃ k, (k ≤ n)%nat ∧ path = root ++ take k parts ++ [file].
Proof.
  induction n as [|n IH]; simpl.
  - rewrite list_elem_of_singleton. split; [intros ->; by exists 0%nat|].
    intros (k & Hk & ->). by replace k with 0%nat by lia.
  - rewrite elem_of_cons, IH. split.
    + intros [->|(k & Hk & ->)]; [by exists (S n)|]. exists k. split; [lia|done].
    + intros (k & Hk & ->). destruct (decide (k = S n)) as [->|]; [by left|].
      right. exists k. split; [lia|done].
Qed.

Lemma limit_paths_elem m path :
  path ∈ limit_paths m ↔
    path = CGROUP_V2 ++ ["memory.max"] ∨ path = CGROUP_V1 ++ ["memory.limit_in_bytes"]
    ∨ ∃ line root file parts pre, line ∈ lines m ∧ membership_of line = Some (root, file, parts)
        ∧ pre `prefix_of` parts ∧ path = root ++ pre ++ [file].
Proof.
  unfold limit_paths. rewrite elem_of_app, !elem_of_cons, elem_of_nil.
  rewrite list_elem_of_join. split.
  - intros [[?|[?|[]]]|(l & Hp & Hl)]; [tauto|tauto|]. right; right.
    apply list_elem_of_fmap in Hl as (line & -> & Hl).
    destruct (membership_of line) as [[[root file] parts]|] eqn:E; [|by apply elem_of_nil in Hp].
    apply limit_files_elem in Hp as (k & Hk & ->).
    exists line, root, file, parts, (take k parts). split_and!; [done|done|apply prefix_take|done].
  - intros [?|[?|(line & root & file & parts & pre & Hl & E & Hpre & ->)]]; [tauto|tauto|].
    right. exists (limit_files root file (length parts) parts). split.
    + apply limit_files_elem. destruct Hpre as [rest ->]. exists (length pre).
      rewrite length_app, take_app_length. split; [lia|done].
    + apply list_elem_of_fmap. exists line. by rewrite E.
Qed.

Lemma minimum_spec l :
  match minimum l with Some m => m ∈ l ∧ ∀ x, x ∈ l → m ≤ x | None => l = [] end.
Proof.
  induction l as [|x l IH]; simpl; [done|]. destruct (minimum l) as [m|].
  - destruct IH as [Hm Hl]. destruct (Z.le_ge_cases x m).
    + rewrite Z.min_l by done. split; [apply list_elem_of_here|].
      intros y [->|Hy]%elem_of_cons; [lia|]. specialize (Hl y Hy). lia.
    + rewrite Z.min_r by done. split; [by apply list_elem_of_further|].
      intros y [->|Hy]%elem_of_cons; [lia|]. auto.
  - subst. split; [apply list_elem_of_here|]. intros y [->|Hy]%elem_of_cons; [lia|].
    by apply elem_of_nil in Hy.
Qed.

Section detected.
Variable read : list string → option string.
Variable physical : option Z.

Definition membership : string := default "" (read ["proc"; "self"; "cgroup"]).

(** A limit the process is under: of the hierarchy as a whole, of the cgroup it is
    in or of an ancestor of that cgroup, or the machine's memory. *)
Inductive governs : Z → Prop :=
  | gov_v2 raw v :
      read (CGROUP_V2 ++ ["memory.max"]) = Some raw → parse_cgroup_limit raw = Some v → governs v
  | gov_v1 raw v :
      read (CGROUP_V1 ++ ["memory.limit_in_bytes"]) = Some raw →
      parse_cgroup_limit raw = Some v → governs v
  | gov_ancestor line root file parts pre raw v :
      line ∈ lines membership → membership_of line = Some (root, file, parts) →
      pre `prefix_of` parts → read (root ++ pre ++ [file]) = Some raw →
      parse_cgroup_limit raw = Some v → governs v
  | gov_physical v : physical = Some v → governs v.

Lemma limits_elem v :
  governs v ↔ v ∈ omap parse_cgroup_limit (omap read (limit_paths membership)) ∨ physical = Some v.
Proof.
  assert (v ∈ omap parse_cgroup_limit (omap read (limit_paths membership)) ↔
    ∃ path raw, path ∈ limit_paths membership ∧ read path = Some raw
      ∧ parse_cgroup_limit raw = Some v) as ->.
  { rewrite list_elem_of_omap. setoid_rewrite list_elem_of_omap. naive_solver. }
  setoid_rewrite limit_paths_elem. split.
  - destruct 1 as [raw v Hr Hp|raw v Hr Hp|line root file parts pre raw v Hl E Hpre Hr Hp|v Hv];
      [left..|by right]; eexists _, raw; (split; [|split; [exact Hr|exact Hp]]); [tauto..|].
    right; right. by exists line, root, file, parts, pre.
  - intros [(path & raw & [->|[->|(line & root & file & parts & pre & Hl & E & Hpre & ->)]] & Hr & Hp)|?];
      eauto using governs.
Qed.

(** the limit the budgets derive from is exactly the least of those the process
    is under: the files read are the limits of its own cgroup, of every ancestor up
    to the mount, of the mount itself, and the machine's memory caps them. *)
Theorem detected_limit_is_least :
  match detected_memory_limit_with read physical with
  | Some l => governs l ∧ ∀ v, governs v → l ≤ v
  | None => ∀ v, ¬ governs v
  end.
Proof.
  unfold detected_memory_limit_with, effective_memory_limit. fold membership.
  pose proof (minimum_spec (omap parse_cgroup_limit (omap read (limit_paths membership)))) as Hc.
  assert (∀ v, governs v ↔ v ∈ omap parse_cgroup_limit (omap read (limit_paths membership))
    ∨ physical = Some v) as Hg by apply limits_elem.
  revert Hc Hg. generalize (omap parse_cgroup_limit (omap read (limit_paths membership))).
  intros limits. set (c := minimum limits). intros Hc Hg.
  pose proof (minimum_spec (option_list c ++ option_list physical)) as Hm.
  assert (∀ v, v ∈ option_list c ++ option_list physical ↔ c = Some v ∨ physical = Some v) as He.
  { intros v. rewrite elem_of_app. destruct c, physical; simpl;
      rewrite ?list_elem_of_singleton, ?elem_of_nil; naive_solver. }
  destruct (minimum (option_list c ++ _)) as [l|].
  - destruct Hm as [Hl Hm]. setoid_rewrite He in Hm. apply He in Hl. split.
    + apply Hg. destruct Hl as [Hl|]; [|tauto]. rewrite Hl in Hc. tauto.
    + intros v [Hv|Hv]%Hg; [|auto]. destruct c as [m|].
      * etransitivity; [|by apply Hc]. auto.
      * subst. by apply elem_of_nil in Hv.
  - apply app_eq_nil in Hm as [Hc0 Hp]. intros v [Hv|Hv]%Hg.
    + destruct c; [done|]. subst. by apply elem_of_nil in Hv.
    + by rewrite Hv in Hp.
Qed.

End detected.

Lemma normal_components_normal relative parts :
  normal_components relative = Some parts → ".." ∉ parts.
Proof.
  unfold normal_components.
  match goal with |- context [if ?b then None else _] => destruct b; [done|] end.
  destruct (existsb _ _) eqn:E; [done|].
  intros [= <-] Hin. apply not_true_iff_false in E. apply E, existsb_exists.
  exists "..". rewrite <-list_elem_of_In, bool_decide_eq_true. done.
Qed.

(** whatever [/proc/self/cgroup] says, the files asked for stay below the cgroup
    mount: no path leaves it through [..]. *)
Theorem limit_paths_below_the_mount m path :
  path ∈ limit_paths m → CGROUP_V2 `prefix_of` path ∧ ".." ∉ path.
Proof.
  assert (∀ root, root = CGROUP_V2 ∨ root = CGROUP_V1 →
    CGROUP_V2 `prefix_of` root ∧ ".." ∉ root) as Hroot.
  { intros root [-> | ->]; (split; [|set_solver]); [done|by exists ["memory"]]. }
  intros [->|[->|(line & root & file & parts & pre & _ & Hm & [rest ->] & ->)]]%limit_paths_elem;
    [split; [by apply prefix_app_r|set_solver]|split; [by exists ["memory"; "memory.limit_in_bytes"]|set_solver]|].
  unfold membership_of in Hm.
  destruct (split_once ":" line) as [[? rest1]|]; [|done]. cbn [mbind option_bind] in Hm.
  destruct (split_once ":" rest1) as [[controllers path1]|]; [|done]. cbn [mbind option_bind] in Hm.
  destruct (if is_empty controllers then _ else _) as [[r f]|] eqn:Er; [|done]. cbn [mbind option_bind] in Hm.
  destruct (strip_prefix "/" path1) as [relative|]; [|done]. cbn [mbind option_bind] in Hm.
  destruct (normal_components relative) as [ps|] eqn:En; [|done]. injection Hm as <- <- ->.
  apply normal_components_normal in En.
  assert ((r = CGROUP_V2 ∨ r = CGROUP_V1) ∧ f ≠ "..") as [Hr Hf].
  { destruct (is_empty controllers); [injection Er as <- <-; by split; [left|]|].
    case_match; [|done]. injection Er as <- <-. by split; [right|]. }
  destruct (Hroot r Hr) as [Hp Hn]. split; [by apply prefix_app_r|]. set_solver.
Qed.

Lemma limit_paths_below_the_mount_witness :
  let m := "0::/kubepods/pod1" in
  let path := ["sys"; "fs"; "cgroup"; "kubepods"; "memory.max"] in
  path ∈ limit_paths m ∧ CGROUP_V2 `prefix_of` path ∧ ".." ∉ path.
Proof.
  intros m path. assert (path ∈ limit_paths m) as Hp.
  { apply (bool_decide_unpack _). vm_compute. exact I. }
  split; [exact Hp|]. exact (limit_paths_below_the_mount m path Hp).
Defined.

(** a derived budget passes the host's own check exactly when the machine has at
    least 284.4 MiB: below that the floor of 256 MiB is more than nine tenths of
    the limit, and an unset budget draws the warning meant for a budget set too
    high. *)
Theorem derived_budget_passes_the_check_iff limit :
  0 < limit ≤ u64_MAX →
  enforcement_advisory_within (derived_within (Some limit)) (Some limit) = None
  ↔ 100 * MIN_DERIVED_MAX_GUEST_MEMORY ≤ MAX_ENFORCED_SHARE_PERCENT * limit.
Proof.
  intros Hl. unfold enforcement_advisory_within, derived_within, derive_max_guest_memory_within.
  simpl. unfold sat_mul, GUEST_MEMORY_NUMERATOR, GUEST_MEMORY_DENOMINATOR, MAX_ENFORCED_SHARE_PERCENT,
    MIN_DERIVED_MAX_GUEST_MEMORY, MAX_DERIVED_MAX_GUEST_MEMORY, MIB, u64_MAX in *.
  set (q := Z.min (limit * 3) _ / 4).
  assert (4 * q ≤ Z.min (limit * 3) 18446744073709551615 < 4 * q + 4) as Hq.
  { pose proof (Z.div_mod (Z.min (limit * 3) 18446744073709551615) 4).
    pose proof (Z.mod_pos_bound (Z.min (limit * 3) 18446744073709551615) 4). fold q in H. lia. }
  clearbody q. case_match eqn:E; bools; (split; intros Hx); [lia|done|done|exfalso; lia].
Qed.

Lemma derived_budget_passes_the_check_iff_witness :
  enforcement_advisory_within (derived_within (Some (512 * MIB))) (Some (512 * MIB)) = None
  ∧ enforcement_advisory_within (derived_within (Some (128 * MIB))) (Some (128 * MIB)) ≠ None.
Proof.
  split.
  - apply (derived_budget_passes_the_check_iff (512 * MIB)); vm_compute; [split|]; done.
  - intros H. apply (derived_budget_passes_the_check_iff (128 * MIB)) in H;
      [vm_compute in H; by apply H|]. vm_compute. split; done.
Defined.

Example parse_gi : parse_bytes " 1.5 Gi " = Ok 1610612736.
Proof. vm_compute. reflexivity. Qed.
Example parse_exp : parse_bytes "1.5E3" = Ok 1500.
Proof. vm_compute. reflexivity. Qed.
Example parse_m : parse_bytes "5m" = Err MilliSuffix.
Proof. vm_compute. reflexivity. Qed.
