(* ===== verification/ProcessMemory.v ===== *)
(** * The process memory guard

    [engine/process_memory.rs] and [engine/process_memory/sampling.rs]: guards that
    compare the process's footprint with a limit, and the one sampler that feeds
    them all.  A footprint reading, the clock and whether the registry's lock is
    free are arguments.  Guards are held weakly in the code; here the registry
    holds the live ones.  Logging is left out. *)

From Stdlib Require Import ZArith Lia.
From stdpp Require Import base list gmap option.
From S2P Require Import Prelude RustStr HostMemory.
Local Open Scope Z_scope.

Definition REFRESH_INTERVAL_MS : Z := 50.
Definition HIGH_PERCENT : Z := 80.
Definition NORMAL_PERCENT : Z := 75.
Definition RECOVER_PERCENT : Z := 95.
Definition OVER_RECHECK_SAMPLES : Z := 60.
Definition OVER_GROWTH_PERCENT : Z := 1.
Definition MAX_FAILED_READS : Z := 5.

Inductive ProcessMemoryState := Normal | High | Over.
#[global] Instance ProcessMemoryState_eq_dec : EqDecision ProcessMemoryState.
Proof. solve_decision. Defined.

(** [state as u8]. *)
Definition level (s : ProcessMemoryState) : Z := match s with Normal => 0 | High => 1 | Over => 2 end.

Record OverEpisode := { baseline : Z; flat_samples : Z; within : bool }.
Definition no_episode : OverEpisode := {| baseline := 0; flat_samples := 0; within := false |}.

Record ProcessMemoryGuard := {
  limit : Z;
  footprint : Z;
  high_water : Z;
  state : ProcessMemoryState;
  blind : bool;
  over : OverEpisode;
  refused_starts : Z;
}.

Definition new_guard (limit_bytes : Z) : ProcessMemoryGuard :=
  {| limit := limit_bytes; footprint := 0; high_water := 0; state := Normal; blind := false;
     over := no_episode; refused_starts := 0 |}.

Implicit Types (g : ProcessMemoryGuard).

Definition is_over g : bool := bool_decide (state g = Over).

Definition share g (percent : Z) : Z := limit g / 100 * percent.

Definition record_reading g (fp : Z) : ProcessMemoryGuard :=
  {| limit := limit g; footprint := fp; high_water := Z.max (high_water g) fp; state := state g;
     blind := false; over := over g; refused_starts := refused_starts g |}.

Definition next_state g (previous : ProcessMemoryState) (fp : Z) : ProcessMemoryState :=
  if limit g <? fp then Over
  else if bool_decide (previous = Over) && (share g RECOVER_PERCENT <=? fp) then Over
  else if share g HIGH_PERCENT <=? fp then High
  else if negb (bool_decide (previous = Normal)) && (share g NORMAL_PERCENT <=? fp) then High
  else Normal.

Definition set_over g (e : OverEpisode) : ProcessMemoryGuard :=
  {| limit := limit g; footprint := footprint g; high_water := high_water g; state := state g;
     blind := blind g; over := e; refused_starts := refused_starts g |}.
Definition set_state g (s : ProcessMemoryState) : ProcessMemoryGuard :=
  {| limit := limit g; footprint := footprint g; high_water := high_water g; state := s;
     blind := blind g; over := over g; refused_starts := refused_starts g |}.
Definition set_blind g : ProcessMemoryGuard :=
  {| limit := limit g; footprint := footprint g; high_water := high_water g; state := state g;
     blind := true; over := over g; refused_starts := refused_starts g |}.

(** Any move out of [Over] forgets the episode. *)
Definition transition g (next : ProcessMemoryState) : ProcessMemoryGuard :=
  let g := if bool_decide (next = Over) then g else set_over g no_episode in
  set_state g next.

(** The answer, and the episode as it is left. *)
Definition over_without_growing g (fp : Z) : bool * OverEpisode :=
  let e := over g in
  let inside := fp <=? limit g in
  if negb (Bool.eqb inside (within e))
     || (sat_add (baseline e) (share g OVER_GROWTH_PERCENT) <? fp)
  then (false, {| baseline := fp; flat_samples := 0; within := inside |})
  else
    let n := Z.min (flat_samples e + 1) u32_MAX in
    if n <? OVER_RECHECK_SAMPLES
    then (false, {| baseline := baseline e; flat_samples := n; within := within e |})
    else (true, {| baseline := baseline e; flat_samples := 0; within := within e |}).

(** A reading of the sampler. *)
Definition observe g (fp : Z) : ProcessMemoryGuard :=
  let g := record_reading g fp in
  let next := next_state g (state g) fp in
  if bool_decide (next = Over) then
    let '(stuck, e) := over_without_growing g fp in
    let g := set_over g e in
    transition g (if stuck && (fp <=? limit g) then High else Over)
  else transition g next.

(** A reading on demand: it may only move the state up. *)
Definition escalate g (fp : Z) : ProcessMemoryGuard :=
  let g := record_reading g fp in
  let next := next_state g (state g) fp in
  if level (state g) <? level next then transition g next else g.

Definition lose_reading g : ProcessMemoryGuard :=
  if blind g then g else transition (set_blind g) Normal.

(** ** The registry and its sampler *)

Record Sampled := {
  guards : gmap nat ProcessMemoryGuard;
  running : bool;
  failed_reads : Z;
  next_ms : Z;              (** [NEXT_MS] of [refresh] *)
}.

Definition no_guards : Sampled := {| guards := ∅; running := false; failed_reads := 0; next_ms := 0 |}.

Implicit Types (s : Sampled).

Definition read_and_publish s (reading : option Z) (periodic : bool) : Sampled :=
  let failed := match reading with
                | Some _ => 0
                | None => if periodic then Z.min (failed_reads s + 1) u32_MAX else failed_reads s
                end in
  let publish g :=
    match reading with
    | Some fp => if periodic then observe g fp else escalate g fp
    | None => if periodic && (MAX_FAILED_READS <=? failed) then lose_reading g else g
    end in
  {| guards := publish <$> guards s; running := running s; failed_reads := failed;
     next_ms := next_ms s |}.

(** [free]: the registry's lock could be had. *)
Definition try_refresh s (reading : option Z) (free : bool) : Sampled :=
  if free then read_and_publish s reading false else s.

(** [won]: no other caller moved the clock between the load and the exchange. *)
Definition refresh s (now_ms : Z) (reading : option Z) (won free : bool) : Sampled :=
  if (now_ms <? next_ms s) || negb won then s
  else
    try_refresh
      {| guards := guards s; running := running s; failed_reads := failed_reads s;
         next_ms := sat_add now_ms REFRESH_INTERVAL_MS |} reading free.

(** One round of [sample_forever]; [false] ends the thread. *)
Definition sample_once s (reading : option Z) : bool * Sampled :=
  if bool_decide (guards s = ∅)
  then (false, {| guards := guards s; running := false; failed_reads := failed_reads s;
                  next_ms := next_ms s |})
  else (true, read_and_publish s reading true).

(** [spawned]: the thread could be started, when one is needed. *)
Definition spawn_sampler s (i : nat) g (reading : option Z) (spawned : bool) : bool * Sampled :=
  let '(failed, g) := match reading with
                      | Some fp => (0, observe g fp)
                      | None => (failed_reads s, set_blind g)
                      end in
  let ok := running s || spawned in
  (ok, {| guards := <[i := g]> (guards s); running := ok; failed_reads := failed;
          next_ms := next_ms s |}).

Definition drop_guard s (i : nat) : Sampled :=
  {| guards := delete i (guards s); running := running s; failed_reads := failed_reads s;
     next_ms := next_ms s |}.

(** A workload may start unless its host's guard is over; a refusal is counted. *)
Definition admit_start s (i : nat) (now_ms : Z) (reading : option Z) (won free : bool) :
    bool * Sampled :=
  let s := refresh s now_ms reading won free in
  match guards s !! i with
  | Some g =>
      if is_over g then
        (false,
         {| guards := <[i := {| limit := limit g; footprint := footprint g;
                                high_water := high_water g; state := state g; blind := blind g;
                                over := over g;
                                refused_starts := (refused_starts g + 1) mod 2 ^ 64 |}]> (guards s);
            running := running s; failed_reads := failed_reads s; next_ms := next_ms s |})
      else (true, s)
  | None => (true, s)
  end.

(** ** What a guard's state says *)

(** What is true of a guard between calls. *)
Record sound g : Prop := {
  sound_over : blind g = false → limit g < footprint g → state g = Over;
  sound_normal : blind g = false → state g = Normal → footprint g < share g HIGH_PERCENT;
  sound_blind : blind g = true → state g = Normal;
  sound_high_water : footprint g ≤ high_water g;
}.

Ltac guard_cases :=
  repeat first
    [ progress simpl in *
    | progress bools
    | case_match
    | match goal with H : context [bool_decide ?P] |- _ => destruct (bool_decide_reflect P) end
    | progress simplify_eq ].

Lemma next_state_over g p fp : limit g < fp → next_state g p fp = Over.
Proof. intros H. unfold next_state. by rewrite (proj2 (Z.ltb_lt _ _)). Qed.

Lemma next_state_normal g p fp :
  next_state g p fp = Normal → fp ≤ limit g ∧ fp < share g HIGH_PERCENT.
Proof.
  unfold next_state. destruct (Z.ltb_spec (limit g) fp); [done|]. case_match; [done|].
  destruct (Z.leb_spec (share g HIGH_PERCENT) fp); [done|]. by split.
Qed.

Lemma observe_fields g fp :
  limit (observe g fp) = limit g ∧ footprint (observe g fp) = fp ∧ blind (observe g fp) = false
  ∧ high_water (observe g fp) = Z.max (high_water g) fp.
Proof.
  unfold observe, transition. destruct (over_without_growing _ _) as [b e].
  by repeat case_match.
Qed.

(** Past the limit the sampler always leaves [Over]; otherwise the answer is the
    next state, or [High] after a flat stretch. *)
Lemma observe_state g fp :
  state (observe g fp) = next_state g (state g) fp
  ∨ (next_state g (state g) fp = Over ∧ fp ≤ limit g ∧ state (observe g fp) = High).
Proof.
  unfold observe. change (next_state (record_reading g fp)) with (next_state g). simpl.
  destruct (bool_decide_reflect (next_state g (state g) fp = Over)) as [E|E].
  - destruct (over_without_growing _ _) as [b e]. simpl.
    destruct (b && _) eqn:Eb; [|by left]. right. bools. by split.
  - left. unfold transition. rewrite bool_decide_false by done. done.
Qed.

Lemma observe_sound g fp : sound (observe g fp).
Proof.
  destruct (observe_fields g fp) as (El & Ef & Eb & Eh).
  split; rewrite ?El, ?Ef, ?Eb, ?Eh; try done; try lia.
  - intros _ Hl. destruct (observe_state g fp) as [->|(_ & ? & _)]; [|lia].
    by apply next_state_over.
  - intros _ Hn. change (share (observe g fp) HIGH_PERCENT) with
      (limit (observe g fp) / 100 * HIGH_PERCENT). rewrite El.
    destruct (observe_state g fp) as [E|(_ & _ & E)]; [|congruence].
    rewrite E in Hn. exact (proj2 (next_state_normal _ _ _ Hn)).
Qed.

Lemma transition_fields g n :
  limit (transition g n) = limit g ∧ footprint (transition g n) = footprint g
  ∧ high_water (transition g n) = high_water g ∧ blind (transition g n) = blind g
  ∧ state (transition g n) = n.
Proof. unfold transition. by case_match. Qed.

Lemma escalate_state g fp :
  state (escalate g fp) = if level (state g) <? level (next_state g (state g) fp)
                          then next_state g (state g) fp else state g.
Proof.
  unfold escalate. change (next_state (record_reading g fp)) with (next_state g). simpl.
  case_match; [|done]. apply transition_fields.
Qed.

Lemma escalate_fields g fp :
  limit (escalate g fp) = limit g ∧ footprint (escalate g fp) = fp ∧ blind (escalate g fp) = false
  ∧ high_water (escalate g fp) = Z.max (high_water g) fp.
Proof.
  unfold escalate, transition. by repeat case_match.
Qed.

Lemma escalate_sound g fp : sound (escalate g fp).
Proof.
  destruct (escalate_fields g fp) as (El & Ef & Eb & Eh).
  split; rewrite ?El, ?Ef, ?Eb, ?Eh, ?escalate_state; try done; try lia.
  - intros _ Hl. rewrite next_state_over by done. by destruct (state g).
  - intros _ Hn. change (share (escalate g fp) HIGH_PERCENT) with
      (limit (escalate g fp) / 100 * HIGH_PERCENT). rewrite El.
    assert (next_state g (state g) fp = Normal) as H.
    { destruct (next_state g (state g) fp), (state g); simpl in Hn; done. }
    exact (proj2 (next_state_normal _ _ _ H)).
Qed.

Lemma lose_sound g : sound g → sound (lose_reading g) ∧ limit (lose_reading g) = limit g.
Proof.
  intros Hg. unfold lose_reading. destruct (blind g) eqn:E; [done|].
  destruct Hg as [_ _ _ Hh]. split; [|done]. by split.
Qed.

Lemma blind_sound g : state g = Normal → footprint g ≤ high_water g → sound (set_blind g).
Proof. intros. by split. Qed.

(** ** Every history of the registry *)

(** Guards come and go, the sampler and the callers read; [now_ms], [won] and [free]
    are whatever they are. *)
Inductive sampler_step : Sampled → Sampled → Prop :=
  | st_spawn s i l reading spawned r s' :
      guards s !! i = None → spawn_sampler s i (new_guard l) reading spawned = (r, s') →
      sampler_step s s'
  | st_sample s reading r s' : sample_once s reading = (r, s') → sampler_step s s'
  | st_refresh s now reading won free : sampler_step s (refresh s now reading won free)
  | st_start s i now reading won free r s' :
      admit_start s i now reading won free = (r, s') → sampler_step s s'
  | st_drop s i : sampler_step s (drop_guard s i).

Definition all_sound s : Prop := map_Forall (λ _, sound) (guards s).

Lemma publish_sound s reading periodic :
  all_sound s → all_sound (read_and_publish s reading periodic).
Proof.
  intros Hs i g. simpl. rewrite lookup_fmap. destruct (guards s !! i) as [g0|] eqn:E; [|done].
  intros [= <-]. specialize (Hs i g0 E). destruct reading as [fp|].
  - destruct periodic; [apply observe_sound|apply escalate_sound].
  - case_match; [|done]. by apply lose_sound.
Qed.

Lemma refresh_sound s now reading won free :
  all_sound s → all_sound (refresh s now reading won free).
Proof.
  intros Hs. unfold refresh, try_refresh. case_match; [done|]. case_match; [|done].
  by apply publish_sound.
Qed.

Lemma step_sound s s' : all_sound s → sampler_step s s' → all_sound s'.
Proof.
  intros Hs Hst. destruct Hst as [s i l reading spawned r s' Hi E|s reading r s' E|s now reading won free
    |s i now reading won free r s' E|s i].
  - unfold spawn_sampler in E. destruct reading; injection E as <- <-; apply map_Forall_insert_2;
      try done; first [apply observe_sound|by apply blind_sound].
  - unfold sample_once in E. case_match; injection E as <- <-; [done|by apply publish_sound].
  - by apply refresh_sound.
  - unfold admit_start in E. pose proof (refresh_sound s now reading won free Hs) as Hr.
    destruct (guards (refresh _ _ _ _ _) !! i) as [g|] eqn:Eg; [|by injection E as <- <-].
    destruct (is_over g); injection E as <- <-; [|done].
    apply map_Forall_insert_2; [|done]. destruct (Hr i g Eg). by split.
  - by apply map_Forall_delete.
Qed.

Lemma history_sound s : rtc sampler_step no_guards s → all_sound s.
Proof.
  assert (all_sound no_guards) as H0 by apply map_Forall_empty.
  intros H. revert H0. induction H; eauto using step_sound.
Qed.

(** in every history of the registry, with any number of guards, a guard whose
    last reading is past its limit is refusing, one that is not worried has a
    footprint under four fifths of the limit, one that cannot read the footprint
    refuses nothing, and the high-water mark is never below the footprint. *)
Theorem guard_tracks_the_footprint s i g :
  rtc sampler_step no_guards s → guards s !! i = Some g →
  (blind g = false → limit g < footprint g → is_over g = true)
  ∧ (blind g = false → state g = Normal → footprint g < share g HIGH_PERCENT)
  ∧ (blind g = true → is_over g = false)
  ∧ footprint g ≤ high_water g.
Proof.
  intros Hs Hg. destruct (history_sound s Hs i g Hg) as [Ho Hn Hb Hh]. unfold is_over.
  split_and!; [|done| |done].
  - intros Hbl Hl. apply bool_decide_eq_true. auto.
  - intros Hbl. apply bool_decide_eq_false. rewrite Hb; done.
Qed.

(** a reading on demand never stops refusals: whatever it says, no guard comes
    down from the state it was in. *)
Theorem refresh_never_relaxes s now reading won free i g :
  guards s !! i = Some g →
  ∃ g', guards (refresh s now reading won free) !! i = Some g'
    ∧ level (state g) ≤ level (state g').
Proof.
  intros Hg. unfold refresh, try_refresh. case_match; [by exists g|].
  destruct free; [|by exists g]. simpl. rewrite lookup_fmap, Hg. simpl. eexists. split; [done|].
  destruct reading as [fp|]; [|done]. rewrite escalate_state.
  destruct (Z.ltb_spec (level (state g)) (level (next_state g (state g) fp))); lia.
Qed.

(** a host that can no longer read its footprint stops refusing: after five failed
    samples in a row no guard is over, whatever they read before. *)
Theorem failed_reads_release s i g :
  rtc sampler_step no_guards s → 0 ≤ failed_reads s →
  guards (Nat.iter 5 (λ s, (sample_once s None).2) s) !! i = Some g → is_over g = false.
Proof.
  intros Hh Hf. pose proof (history_sound s Hh) as Hs.
  assert (∀ n, let s' := Nat.iter n (λ s, (sample_once s None).2) s in
    all_sound s' ∧ (guards s' ≠ ∅ → Z.min (Z.of_nat n) u32_MAX ≤ failed_reads s')) as Hn.
  { induction n as [|n [IHs IHf]]; simpl; [split; [done|intros _; unfold u32_MAX; lia]|].
    set (s1 := Nat.iter n _ s) in *. unfold sample_once.
    destruct (bool_decide_reflect (guards s1 = ∅)) as [E|E]; simpl.
    - split; [done|]. by intros [].
    - split; [by apply publish_sound|]. intros _. specialize (IHf E). simpl.
      unfold u32_MAX in *. lia. }
  destruct (Hn 4%nat) as [H4s H4f].
  change (Nat.iter 5 ?f ?x) with (f (Nat.iter 4 f x)).
  cbv beta. revert H4s H4f. generalize (Nat.iter 4 (λ s, (sample_once s None).2) s).
  clear. intros s4 H4s H4f. unfold sample_once.
  destruct (bool_decide_reflect (guards s4 = ∅)) as [E|E]; cbn [snd guards read_and_publish];
    [rewrite E; by rewrite lookup_empty|].
  specialize (H4f E). rewrite lookup_fmap. destruct (guards s4 !! i) as [g4|] eqn:Eg; [|done].
  simpl. intros [= <-]. unfold MAX_FAILED_READS, u32_MAX in *.
  rewrite (proj2 (Z.leb_le 5 _)) by lia. unfold lose_reading, is_over.
  destruct (blind g4) eqn:Eb; apply bool_decide_eq_false; [|done].
  rewrite (sound_blind _ (H4s i g4 Eg) Eb). done.
Qed.

(** ** Refusals end *)

(** A guard that is over, with a flat stretch of [k] samples behind it. *)
Definition refusing g (k : Z) : Prop := state g = Over ∧ flat_samples (over g) = k.

(** A reading in the band where a guard that is over stays so. *)
Definition in_band g (r : Z) : Prop := share g RECOVER_PERCENT ≤ r ≤ limit g.

Lemma band_states g r : 0 ≤ limit g → in_band g r →
  next_state g Over r = Over ∧ next_state g High r = High.
Proof.
  intros Hl [H1 H2]. unfold next_state. rewrite (proj2 (Z.ltb_ge _ _)) by done.
  rewrite (proj2 (Z.leb_le (share g RECOVER_PERCENT) r)) by done. split; [done|]. simpl.
  rewrite (proj2 (Z.leb_le _ _)); [done|]. unfold share, RECOVER_PERCENT, HIGH_PERCENT in *.
  assert (0 ≤ limit g / 100) by (apply Z.div_pos; lia). lia.
Qed.

Lemma observe_high g r : 0 ≤ limit g → in_band g r → state g = High → state (observe g r) = High.
Proof.
  intros Hl Hb Hs. destruct (band_states g r Hl Hb) as [_ Hn].
  destruct (observe_state g r) as [->|(_ & _ & ->)]; [|done]. by rewrite Hs.
Qed.

Lemma observe_band g r rs : Forall (in_band g) rs → Forall (in_band (observe g r)) rs.
Proof.
  rewrite !Forall_forall. intros H x Hx. unfold in_band, share.
  rewrite (proj1 (observe_fields g r)). exact (H x Hx).
Qed.

Lemma foldl_high rs g :
  0 ≤ limit g → Forall (in_band g) rs → state g = High → state (foldl observe g rs) = High.
Proof.
  revert g. induction rs as [|r rs IH]; intros g Hl Hb Hs; [done|].
  inversion_clear Hb as [|? ? H1 H2]. destruct (observe_fields g r) as (El & _).
  simpl. apply IH; [lia|by apply observe_band|by apply observe_high].
Qed.

(** One sample in the band of a guard that is over: a new stretch begins, or the
    stretch grows, or it is complete and refusals end. *)
Lemma observe_in_band g r k :
  0 ≤ limit g ≤ u64_MAX → in_band g r → refusing g k → 0 ≤ k < OVER_RECHECK_SAMPLES →
  (refusing (observe g r) 0 ∧ over (observe g r) = {| baseline := r; flat_samples := 0; within := true |})
  ∨ (within (over g) = true ∧
     (state (observe g r) = High
      ∨ (refusing (observe g r) (k + 1) ∧ k + 1 < OVER_RECHECK_SAMPLES
         ∧ baseline (over (observe g r)) = baseline (over g)
         ∧ within (over (observe g r)) = true))).
Proof.
  intros Hl Hb [Hs Hf] Hk. unfold observe.
  change (next_state (record_reading g r)) with (next_state g). cbn [record_reading state].
  rewrite Hs, (proj1 (band_states g r (proj1 Hl) Hb)), bool_decide_true by done.
  destruct Hb as [Hb1 Hb2]. unfold over_without_growing. cbn [record_reading limit over].
  rewrite (proj2 (Z.leb_le r (limit g))) by done.
  destruct (negb _ || _) eqn:E; [left; done|].
  apply orb_false_iff in E as [E1 E2]. apply negb_false_iff, Bool.eqb_prop in E1.
  right. split; [done|]. rewrite Hf, Z.min_l by (unfold u32_MAX, OVER_RECHECK_SAMPLES in *; lia).
  destruct (Z.ltb_spec (k + 1) OVER_RECHECK_SAMPLES) as [H|H].
  - right. simpl. split_and!; done.
  - left. simpl. rewrite (proj2 (Z.leb_le r (limit g))) by done. done.
Qed.

(** In a settled stretch no sample grows by more than the noise allowed. *)
Lemma settled_stretch_ends rs g k :
  0 ≤ limit g ≤ u64_MAX → Forall (in_band g) rs → refusing g k → 0 ≤ k < OVER_RECHECK_SAMPLES →
  within (over g) = true →
  Forall (λ r, r ≤ baseline (over g) + share g OVER_GROWTH_PERCENT) rs →
  OVER_RECHECK_SAMPLES - k ≤ Z.of_nat (length rs) → state (foldl observe g rs) = High.
Proof.
  revert g k. induction rs as [|r rs IH]; intros g k Hl Hb Hr Hk Hw Hg Hn; simpl in Hn; [lia|].
  inversion_clear Hb as [|? ? H1 H2]. inversion_clear Hg as [|? ? G1 G2].
  destruct (observe_fields g r) as (El & _).
  apply (observe_band g r) in H2 as H2'.
  destruct (observe_in_band g r k Hl H1 Hr Hk) as [[Hr' Ho]|(_ & [Hh|(Hr' & Hk' & Hb' & Hw')])].
  - exfalso. revert Ho. destruct Hr as [Hs Hf]. unfold observe.
    change (next_state (record_reading g r)) with (next_state g). cbn [record_reading state].
    rewrite Hs, (proj1 (band_states g r (proj1 Hl) H1)), bool_decide_true by done.
    destruct H1 as [Hb1 Hb2]. unfold over_without_growing. cbn [record_reading limit over].
    rewrite (proj2 (Z.leb_le r (limit g))), Hw by done. simpl.
    change (share (record_reading g r)) with (share g).
    unfold sat_add. rewrite (proj2 (Z.ltb_ge _ r)) by lia. rewrite Hf.
    rewrite Z.min_l by (unfold u32_MAX, OVER_RECHECK_SAMPLES in *; lia).
    destruct (Z.ltb_spec (k + 1) OVER_RECHECK_SAMPLES); simpl;
      [intros [= _ ?]; lia|]. by rewrite (proj2 (Z.leb_le r (limit g))).
  - simpl. apply foldl_high; [lia|done|done].
  - simpl. apply (IH _ (k + 1)); [by rewrite El|done|done|lia|done| |lia].
    rewrite Hb'. unfold share. by rewrite El.
Qed.

(** refusals end on a host whose memory has stopped growing.  Once the footprint
    has been within the limit for two minutes of samples that differ by no more
    than one percent of it, the guard has stopped refusing, even if the footprint
    never falls back under 95% of the limit. *)
Theorem flat_host_stops_refusing rs g k :
  0 ≤ limit g ≤ u64_MAX → refusing g k → 0 ≤ k < OVER_RECHECK_SAMPLES → Forall (in_band g) rs →
  (∀ r r', r ∈ rs → r' ∈ rs → r' ≤ r + share g OVER_GROWTH_PERCENT) →
  2 * OVER_RECHECK_SAMPLES ≤ Z.of_nat (length rs) →
  state (foldl observe g rs) = High.
Proof.
  intros Hl Hr Hk Hb Hg Hn.
  assert (2 * OVER_RECHECK_SAMPLES - k ≤ Z.of_nat (length rs)) as Hn' by lia. clear Hn.
  revert g k Hl Hr Hk Hb Hg Hn'. induction rs as [|r rs IH]; intros g k Hl Hr Hk Hb Hg Hn;
    simpl in Hn; [unfold OVER_RECHECK_SAMPLES in *; lia|].
  inversion_clear Hb as [|? ? H1 H2]. destruct (observe_fields g r) as (El & _).
  apply (observe_band g r) in H2 as H2'.
  simpl. destruct (observe_in_band g r k Hl H1 Hr Hk) as [[Hr' Ho]|(_ & [Hh|(Hr' & Hk' & _ & _)])].
  - apply (settled_stretch_ends rs _ 0); [by rewrite El|done|done|done|by rewrite Ho| |].
    + rewrite Ho. simpl. unfold share. rewrite El. apply Forall_forall. intros r' Hin.
      apply Hg; [apply list_elem_of_here|by apply list_elem_of_further, list_elem_of_In].
    + unfold OVER_RECHECK_SAMPLES in *. lia.
  - apply foldl_high; [lia|done|done].
  - apply (IH _ (k + 1)); [by rewrite El|done|lia|done| |lia].
    intros x y Hx Hy. unfold share. rewrite El. apply Hg; by apply list_elem_of_further.
Qed.

(** ** Concrete histories *)

(** One guard of 1000 bytes; the first reading is past it. *)
Definition crossed : Sampled := (spawn_sampler no_guards 0 (new_guard 1000) (Some 1100) true).2.
Definition crossed_guard : ProcessMemoryGuard := observe (new_guard 1000) 1100.

Lemma crossed_history : rtc sampler_step no_guards crossed.
Proof. apply rtc_once, (st_spawn no_guards 0 1000 (Some 1100) true true); reflexivity. Qed.

Lemma guard_tracks_the_footprint_witness :
  guards crossed !! 0%nat = Some crossed_guard ∧ is_over crossed_guard = true.
Proof.
  assert (guards crossed !! 0%nat = Some crossed_guard) as Hg by reflexivity.
  split; [exact Hg|].
  apply (guard_tracks_the_footprint crossed 0 crossed_guard crossed_history Hg); reflexivity.
Defined.

(** The footprint falls to nothing, and the guard still refuses until the sampler
    has seen it. *)
Lemma refresh_never_relaxes_witness :
  ∃ g', guards (refresh crossed 0 (Some 0) true true) !! 0%nat = Some g' ∧ is_over g' = true.
Proof.
  destruct (refresh_never_relaxes crossed 0 (Some 0) true true 0 crossed_guard) as (g' & Hg & Hl).
  - reflexivity.
  - exists g'. split; [exact Hg|]. unfold is_over. apply bool_decide_eq_true.
    assert (level (state crossed_guard) = 2) as Hc by reflexivity. rewrite Hc in Hl.
    destruct (state g'); [by destruct Hl|by destruct Hl|reflexivity].
Defined.

Lemma failed_reads_release_witness :
  ∃ g, guards (Nat.iter 5 (λ s, (sample_once s None).2) crossed) !! 0%nat = Some g
    ∧ is_over g = false.
Proof.
  destruct (guards (Nat.iter 5 (λ s, (sample_once s None).2) crossed) !! 0%nat) as [g|] eqn:E;
    [|vm_compute in E; discriminate E].
  exists g. split; [reflexivity|].
  apply (failed_reads_release crossed 0 g crossed_history); [vm_compute; discriminate|exact E].
Defined.

Lemma flat_host_stops_refusing_witness :
  is_over crossed_guard = true
  ∧ state (foldl observe crossed_guard (replicate 120 960)) = High.
Proof.
  split; [reflexivity|].
  apply (flat_host_stops_refusing (replicate 120 960) crossed_guard 0).
  - vm_compute. split; discriminate.
  - split; reflexivity.
  - vm_compute. split; [discriminate|reflexivity].
  - apply Forall_replicate. vm_compute. split; discriminate.
  - intros r r' [-> _]%elem_of_replicate [-> _]%elem_of_replicate. vm_compute. discriminate.
  - vm_compute. discriminate.
Defined.
