(* ===== verification/GuestMemory.v ===== *)
(** * The guest memory budget

    [engine/guest_memory.rs]: one counter of guest bytes for a host, charged by the
    limiter of every store as its memories grow and given back when the store is
    dropped.  What the budget asks of the process guard is the class
    [ProcessGate]; the theorems hold for any guard that keeps its law, and
    [ProcessMemory]'s registry is an instance.  Each counter is one atomic, so a
    history is a sequence of whole calls.  [usize] is 64 bits wide.  Metrics and
    logging are left out. *)

From Stdlib Require Import ZArith Lia.
From stdpp Require Import base list gmap option.
From S2P Require Import Prelude RustStr HostMemory ProcessMemory.
Local Open Scope Z_scope.

(** What a process guard promises the budget: a reading on demand never ends
    refusals by itself. *)
Class ProcessGate (G R : Type) := {
  gate_refresh : G → R → G;
  gate_over : G → bool;
  gate_refresh_over : ∀ g r, gate_over g = true → gate_over (gate_refresh g r) = true;
}.

Definition PRESSURE_NUMERATOR : Z := 3.
Definition PRESSURE_DENOMINATOR : Z := 4.

Inductive GuestMemoryMode := Count | Enforce.
#[global] Instance GuestMemoryMode_eq_dec : EqDecision GuestMemoryMode.
Proof. solve_decision. Defined.

Record GuestMemoryBudget := {
  cap : Z;
  mode : GuestMemoryMode;
  heap_ceiling : option Z;
  in_use : Z;
  high_water : Z;
  refused : Z;
  would_refuse : Z;
  crossed : bool;
  reported_refusals : Z;
  process_refused : Z;
}.

Implicit Types (b : GuestMemoryBudget).

Definition new_budget (cap : Z) (mode : GuestMemoryMode) : GuestMemoryBudget :=
  {| cap := cap; mode := mode; heap_ceiling := None; in_use := 0; high_water := 0; refused := 0;
     would_refuse := 0; crossed := false; reported_refusals := 0; process_refused := 0 |}.
Definition with_heap_ceiling b (ceiling : Z) : GuestMemoryBudget :=
  {| cap := cap b; mode := mode b; heap_ceiling := Some ceiling; in_use := in_use b;
     high_water := high_water b; refused := refused b; would_refuse := would_refuse b;
     crossed := crossed b; reported_refusals := reported_refusals b;
     process_refused := process_refused b |}.
Definition from_budgets (h : HostMemoryBudgets) (mode : GuestMemoryMode) : GuestMemoryBudget :=
  new_budget (max_guest_memory h) mode.

Definition incr (n : Z) : Z := (n + 1) mod 2 ^ 64.

Definition count_process_refusal b : GuestMemoryBudget :=
  {| cap := cap b; mode := mode b; heap_ceiling := heap_ceiling b; in_use := in_use b;
     high_water := high_water b; refused := refused b; would_refuse := would_refuse b;
     crossed := crossed b; reported_refusals := reported_refusals b;
     process_refused := incr (process_refused b) |}.

(** The charge itself, once the process is known not to be over. *)
Definition charge_budget b (bytes : Z) : bool * GuestMemoryBudget :=
  let next := sat_add (in_use b) bytes in
  match mode b with
  | Enforce =>
      if next <=? cap b then
        (true, {| cap := cap b; mode := mode b; heap_ceiling := heap_ceiling b; in_use := next;
                  high_water := Z.max (high_water b) next; refused := refused b;
                  would_refuse := would_refuse b; crossed := crossed b;
                  reported_refusals := reported_refusals b;
                  process_refused := process_refused b |})
      else
        (false, {| cap := cap b; mode := mode b; heap_ceiling := heap_ceiling b;
                   in_use := in_use b; high_water := high_water b; refused := incr (refused b);
                   would_refuse := would_refuse b; crossed := true;
                   reported_refusals := reported_refusals b;
                   process_refused := process_refused b |})
  | Count =>
      let past := cap b <? next in
      (true, {| cap := cap b; mode := mode b; heap_ceiling := heap_ceiling b; in_use := next;
                high_water := Z.max (high_water b) next; refused := refused b;
                would_refuse := if past then incr (would_refuse b) else would_refuse b;
                crossed := past || crossed b; reported_refusals := reported_refusals b;
                process_refused := process_refused b |})
  end.

Definition release b (bytes : Z) : GuestMemoryBudget :=
  {| cap := cap b; mode := mode b; heap_ceiling := heap_ceiling b;
     in_use := sat_sub (in_use b) bytes; high_water := high_water b; refused := refused b;
     would_refuse := would_refuse b; crossed := crossed b;
     reported_refusals := reported_refusals b; process_refused := process_refused b |}.

(** What the periodic line says, and the refusals it has now told of. *)
Inductive Report := Quiet | Pressured | RefusedSince.

Definition report b : Report * GuestMemoryBudget :=
  let refusals := sat_add (refused b) (would_refuse b) in
  let new_refusals := reported_refusals b <? refusals in
  let pressured := cap b / PRESSURE_DENOMINATOR * PRESSURE_NUMERATOR <=? in_use b in
  (if pressured then Pressured else if new_refusals then RefusedSince else Quiet,
   {| cap := cap b; mode := mode b; heap_ceiling := heap_ceiling b; in_use := in_use b;
      high_water := high_water b; refused := refused b; would_refuse := would_refuse b;
      crossed := crossed b; reported_refusals := refusals; process_refused := process_refused b |}).

Section budget.
Context {G R : Type} `{!ProcessGate G R}.

(** The budget with its guard, and what each store that has a limiter was charged. *)
Record Host := {
  budget : GuestMemoryBudget;
  process : option G;
  stores : gmap nat Z;
}.
Implicit Types (h : Host) (r : R).

(** [charge]: the answer, the budget and the guard after it. *)
Definition charge b (p : option G) (bytes : Z) (r : R) : bool * GuestMemoryBudget * option G :=
  match p with
  | Some g =>
      if 0 <? bytes then
        let g := gate_refresh g r in
        if gate_over g then (false, count_process_refusal b, Some g)
        else let '(ok, b) := charge_budget b bytes in (ok, b, Some g)
      else let '(ok, b) := charge_budget b bytes in (ok, b, Some g)
  | None => let '(ok, b) := charge_budget b bytes in (ok, b, None)
  end.

(** [memory_growing] of the limiter of store [i]; a store without one is neither
    charged nor limited. *)
Definition memory_growing h (i : nat) (current desired : Z) (maximum : option Z) (r : R) :
    bool * Host :=
  match stores h !! i with
  | None => (true, h)
  | Some charged =>
      if is_some_and maximum (λ m, m <? desired)
         || is_some_and (heap_ceiling (budget h)) (λ c, c <? desired)
      then (false, h)
      else
        let growth := sat_sub desired current in
        let '(ok, b, p) := charge (budget h) (process h) growth r in
        (ok, {| budget := b; process := p;
                stores := if ok then <[i := sat_add charged growth]> (stores h) else stores h |})
  end.

(** A store is built with a limiter of its own, and dropped with it. *)
Definition new_limiter h (i : nat) : Host :=
  {| budget := budget h; process := process h; stores := <[i := 0]> (stores h) |}.

Definition drop_limiter h (i : nat) : Host :=
  match stores h !! i with
  | None => h
  | Some charged =>
      {| budget := if 0 <? charged then release (budget h) charged else budget h;
         process := process h; stores := delete i (stores h) |}
  end.

End budget.
Arguments Host G : clear implicits.

(** The registry of [ProcessMemory], seen from the guard of one host. *)
Definition Reading : Type := Z * option Z * bool * bool.

Lemma refresh_keeps_over s now reading won free i g :
  guards s !! i = Some g → is_over g = true →
  ∃ g', guards (refresh s now reading won free) !! i = Some g' ∧ is_over g' = true.
Proof.
  intros Hg Ho. unfold refresh, try_refresh. case_match; [by exists g|].
  destruct free; [|by exists g]. simpl. rewrite lookup_fmap, Hg. eexists. split; [done|].
  destruct reading as [fp|]; [|done]. unfold is_over in *. rewrite bool_decide_eq_true in *.
  rewrite escalate_state, Ho. by destruct (next_state g Over fp).
Qed.

#[global] Program Instance registry_gate : ProcessGate (Sampled * nat) Reading := {|
  gate_refresh p r := let '(now, reading, won, free) := r in
                      (refresh p.1 now reading won free, p.2);
  gate_over p := is_some_and (guards p.1 !! p.2) is_over;
|}.
Next Obligation.
  intros [s i] [[[now reading] won] free]. simpl.
  destruct (guards s !! i) as [g|] eqn:E; [|done]. simpl. intros Ho.
  destruct (refresh_keeps_over s now reading won free i g E Ho) as (g' & -> & Hg'). done.
Qed.

(** ** Every byte charged is given back *)

Lemma sat_add_nonneg x y : 0 ≤ x → 0 ≤ y → 0 ≤ sat_add x y.
Proof. intros. unfold sat_add, u64_MAX. lia. Qed.

Lemma sat_add_ge x y : 0 ≤ y → x ≤ u64_MAX → x ≤ sat_add x y.
Proof. intros. unfold sat_add. lia. Qed.

(** Below the end of the range nothing was lost. *)
Lemma sat_add_exact x y z : sat_add x y ≤ z → z < u64_MAX → sat_add x y = x + y.
Proof. unfold sat_add. lia. Qed.

Definition charged_total (m : gmap nat Z) : Z := map_fold (λ _ c z, c + z) 0 m.

Lemma charged_insert m i c : charged_total (<[i := c]> m) = charged_total m - default 0 (m !! i) + c.
Proof.
  unfold charged_total. rewrite <-(insert_delete_eq m i c).
  rewrite map_fold_insert_L by (intros; lia || apply lookup_delete_eq).
  destruct (m !! i) as [c0|] eqn:E; simpl.
  - rewrite (map_fold_delete_L _ _ i c0 m) by (intros; lia || done). lia.
  - rewrite delete_id by done. lia.
Qed.

Lemma charged_delete m i c : m !! i = Some c → charged_total (delete i m) = charged_total m - c.
Proof.
  intros E. unfold charged_total.
  rewrite (map_fold_delete_L (λ (_ : nat) (c z : Z), c + z) 0 i c m) by (intros; lia || done). lia.
Qed.

Lemma charged_nonneg m i :
  map_Forall (λ _ c, 0 ≤ c) m → 0 ≤ charged_total m ∧ default 0 (m !! i) ≤ charged_total m.
Proof.
  revert i. induction m as [|j c m Hj IH] using map_ind; intros i Hm.
  { unfold charged_total. rewrite map_fold_empty, lookup_empty. simpl. lia. }
  apply map_Forall_insert in Hm as [Hc Hm]; [|done].
  rewrite charged_insert, Hj. simpl. destruct (IH i Hm) as [H1 H2].
  destruct (decide (i = j)) as [->|].
  - rewrite lookup_insert_eq. simpl. lia.
  - rewrite lookup_insert_ne by done. lia.
Qed.

Section conservation.
Context {G R : Type} `{!ProcessGate G R}.
Implicit Types (h : Host G) (r : R).

(** What happens on a host: stores are built, grow and are dropped, the status line
    is written, and the guard is read by others. *)
Inductive host_step : Host G → Host G → Prop :=
  | hs_new h i : stores h !! i = None → host_step h (new_limiter h i)
  | hs_grow h i current desired maximum r ok h' :
      0 ≤ current ≤ desired → memory_growing h i current desired maximum r = (ok, h') →
      host_step h h'
  | hs_drop h i : host_step h (drop_limiter h i)
  | hs_report h :
      host_step h {| budget := (report (budget h)).2; process := process h; stores := stores h |}
  | hs_guard h p : host_step h {| budget := budget h; process := p; stores := stores h |}.

(** As long as the counter has not been at the end of its range, it is the sum of
    what the stores hold. *)
Record balanced h : Prop := {
  bal_pos : map_Forall (λ _ c, 0 ≤ c) (stores h);
  bal_sum : high_water (budget h) < u64_MAX → in_use (budget h) = charged_total (stores h);
  bal_range : 0 ≤ in_use (budget h) ≤ high_water (budget h);
  bal_cap : mode (budget h) = Enforce → 0 ≤ cap (budget h) → high_water (budget h) ≤ cap (budget h);
}.

Lemma charge_budget_spec b bytes :
  0 ≤ bytes → 0 ≤ in_use b ≤ high_water b →
  let '(ok, b') := charge_budget b bytes in
  cap b' = cap b ∧ mode b' = mode b ∧ heap_ceiling b' = heap_ceiling b
  ∧ high_water b ≤ high_water b'
  ∧ (ok = true → in_use b' = sat_add (in_use b) bytes ∧ high_water b' = Z.max (high_water b) (in_use b')
       ∧ (mode b = Enforce → in_use b' ≤ cap b))
  ∧ (ok = false → mode b = Enforce ∧ in_use b' = in_use b ∧ high_water b' = high_water b).
Proof.
  intros Hb Hr. unfold charge_budget. destruct (mode b) eqn:Em.
  - simpl. split_and!; [done..|lia|done|done].
  - destruct (Z.leb_spec (sat_add (in_use b) bytes) (cap b)); simpl; split_and!; done || lia.
Qed.

Lemma charge_budget_cap b bytes : cap (charge_budget b bytes).2 = cap b.
Proof. unfold charge_budget. by repeat case_match. Qed.

(** The guard decides first; what is left is the budget's own answer. *)
Lemma charge_cases b (p : option G) bytes r ok b' p' :
  charge b p bytes r = (ok, b', p') →
  (ok = false ∧ b' = count_process_refusal b) ∨ charge_budget b bytes = (ok, b').
Proof.
  unfold charge. destruct p as [g|]; [|destruct (charge_budget b bytes); naive_solver].
  destruct (0 <? bytes); [|destruct (charge_budget b bytes); naive_solver].
  destruct (gate_over (gate_refresh g r)); [naive_solver|].
  destruct (charge_budget b bytes); naive_solver.
Qed.

Lemma grow_balanced h i current desired maximum r ok h' :
  balanced h → 0 ≤ current ≤ desired → memory_growing h i current desired maximum r = (ok, h') →
  balanced h'.
Proof.
  intros [Hp Hs Hr Hc] Hd E. unfold memory_growing in E.
  destruct (stores h !! i) as [c|] eqn:Ei; [|by injection E as <- <-].
  destruct (_ || _); [by injection E as <- <-|].
  destruct (charge _ _ _ _) as [[ok' b'] p'] eqn:Ec. injection E as <- <-.
  assert (0 ≤ sat_sub desired current) as Hg by (unfold sat_sub; lia).
  apply charge_cases in Ec as [[-> ->]|Ec]; [by split|].
  pose proof (charge_budget_spec (budget h) (sat_sub desired current) Hg Hr) as Hb.
  rewrite Ec in Hb. destruct Hb as (Hcap & Hmode & _ & Hhw & Ht & Hf).
  assert (0 ≤ c) as Hc0 by exact (Hp i c Ei).
  destruct ok'.
  - destruct (Ht eq_refl) as (Hu & Hw & He). split; cbn [budget stores].
    + apply map_Forall_insert_2; [by apply sat_add_nonneg|done].
    + intros Hlt. rewrite charged_insert, Ei. change (default 0 (Some c)) with c.
      rewrite Hu in Hw. rewrite Hu, (sat_add_exact _ _ (high_water b')) by lia.
      assert (in_use (budget h) = charged_total (stores h)) as Hin by (apply Hs; lia).
      pose proof (charged_nonneg (stores h) i Hp) as [_ Hle]. rewrite Ei in Hle. simpl in Hle.
      rewrite (sat_add_exact _ _ (high_water b')); [lia| |done].
      rewrite Hw. unfold sat_add. lia.
    + rewrite Hw. split; [|lia]. rewrite Hu. apply sat_add_nonneg; lia.
    + rewrite Hmode, Hcap. intros Hm Hcp. specialize (Hc Hm Hcp). specialize (He Hm). lia.
  - destruct (Hf eq_refl) as (Hm & Hu & Hw). split; simpl; rewrite ?Hu, ?Hw, ?Hmode, ?Hcap; done.
Qed.

Lemma step_balanced h h' : balanced h → host_step h h' → balanced h'.
Proof.
  intros Hb Hst. destruct Hst as [h i Hi|h i current desired maximum r ok h' Hd E|h i|h|h p].
  - destruct Hb as [Hp Hs Hr Hc]. split; simpl; [by apply map_Forall_insert_2| |done|done].
    rewrite charged_insert, Hi. simpl. intros Hlt. rewrite Hs by done. lia.
  - by eapply grow_balanced.
  - unfold drop_limiter. destruct (stores h !! i) as [c|] eqn:Ei; [|done].
    destruct Hb as [Hp Hs Hr Hc]. assert (0 ≤ c) as Hc0 by exact (Hp i c Ei).
    split; simpl; [by apply map_Forall_delete| |..]; destruct (Z.ltb_spec 0 c); simpl;
      unfold sat_sub; try done; try lia; intros Hlt; rewrite (charged_delete _ _ c Ei), Hs by done.
    + pose proof (charged_nonneg (stores h) i Hp) as [_ Hle]. rewrite Ei in Hle. simpl in Hle. lia.
    + lia.
  - destruct Hb as [Hp Hs Hr Hc]. by split.
  - destruct Hb as [Hp Hs Hr Hc]. by split.
Qed.

Definition idle_host b (p : option G) : Host G := {| budget := b; process := p; stores := ∅ |}.

(** The budget a host is started with, its ceiling on one heap set or not. *)
Definition host_budget (c : Z) (m : GuestMemoryMode) (ceiling : option Z) : GuestMemoryBudget :=
  match ceiling with Some x => with_heap_ceiling (new_budget c m) x | None => new_budget c m end.

(** C14: guest memory is conserved.  In every history of a host, with any number of
    stores growing and going away and whatever the process guard does, an
    enforcing budget never holds more than its cap; the counter is exactly what
    the live stores were charged; and it is zero again once they are gone.  (The
    proviso is that the counter was never at the last value of its range.) *)
Theorem guest_memory_conserved c m ceiling p h :
  0 ≤ c → rtc host_step (idle_host (host_budget c m ceiling) p) h →
  (mode (budget h) = Enforce → in_use (budget h) ≤ high_water (budget h) ≤ cap (budget h))
  ∧ (high_water (budget h) < u64_MAX →
     in_use (budget h) = charged_total (stores h)
     ∧ (stores h = ∅ → in_use (budget h) = 0)).
Proof.
  intros Hc Hh. assert (balanced h ∧ cap (budget h) = c) as [[Hp Hs Hr Hcap] Hce].
  { assert (balanced (idle_host (host_budget c m ceiling) p)) as H0.
    { unfold host_budget. destruct ceiling; split; simpl; (apply map_Forall_empty || done || lia). }
    remember (idle_host (host_budget c m ceiling) p) as h0 eqn:E0.
    assert (cap (budget h0) = c) as Hc0 by (subst; by destruct ceiling).
    clear E0. induction Hh as [h|h1 h2 h3 Hst Hh IH]; [done|].
    apply IH; [by eapply step_balanced|]. rewrite <-Hc0.
    destruct Hst as [| h i cu d mx r ok h' Hd E | | | ]; [done| | |done|done].
    - unfold memory_growing in E. destruct (stores h !! i); [|by injection E as <- <-].
      destruct (_ || _); [by injection E as <- <-|].
      destruct (charge _ _ _ _) as [[ok' b'] p'] eqn:Ec. injection E as <- <-. simpl.
      apply charge_cases in Ec as [[_ ->]|Ec]; [done|].
      change b' with (ok', b').2. by rewrite <-Ec, charge_budget_cap.
    - unfold drop_limiter. destruct (stores h !! i); [|done]. simpl. by case_match. }
  split; [intros Hm; split; [lia|apply Hcap; [done|lia]]|].
  intros Hlt. split; [by apply Hs|]. intros He. rewrite Hs, He by done. done.
Qed.

End conservation.

(** ** Counting and enforcing *)

Section modes.
Context {G R : Type} `{!ProcessGate G R}.
Implicit Types (h : Host G) (r : R).

(** What the stores of a host ask for, in order; [Guard] is a move of the process
    guard on its own account. *)
Inductive Request :=
  | Grow (i : nat) (current desired : Z) (maximum : option Z) (r : R)
  | Build (i : nat)
  | Leave (i : nat)
  | Guard (p : option G).

Definition serve h (e : Request) : list bool * Host G :=
  match e with
  | Grow i current desired maximum r =>
      let '(ok, h) := memory_growing h i current desired maximum r in ([ok], h)
  | Build i => ([], new_limiter h i)
  | Leave i => ([], drop_limiter h i)
  | Guard p => ([], {| budget := budget h; process := p; stores := stores h |})
  end.

Fixpoint run h (es : list Request) : list bool * Host G :=
  match es with
  | [] => ([], h)
  | e :: es => let '(a, h) := serve h e in let '(l, h) := run h es in (a ++ l, h)
  end.

(** The same host, counting and enforcing. *)
Record twins (hc he : Host G) : Prop := {
  tw_count : mode (budget hc) = Count;
  tw_enforce : mode (budget he) = Enforce;
  tw_cap : cap (budget he) = cap (budget hc);
  tw_ceiling : heap_ceiling (budget he) = heap_ceiling (budget hc);
  tw_in_use : in_use (budget he) = in_use (budget hc);
  tw_process : process he = process hc;
  tw_stores : stores he = stores hc;
  tw_refused : refused (budget he) = 0;
}.

Lemma charge_twins bc be (p : option G) bytes r ok bc' p' :
  mode bc = Count → mode be = Enforce → cap be = cap bc → in_use be = in_use bc →
  charge bc p bytes r = (ok, bc', p') → high_water bc' ≤ cap bc →
  ∃ be', charge be p bytes r = (ok, be', p')
    ∧ mode bc' = Count ∧ mode be' = Enforce ∧ cap be' = cap bc' ∧ cap bc' = cap bc
    ∧ heap_ceiling be' = heap_ceiling be ∧ heap_ceiling bc' = heap_ceiling bc
    ∧ in_use be' = in_use bc' ∧ refused be' = refused be.
Proof.
  intros Hc He Hcap Hin. unfold charge.
  assert (∀ q ok' b', charge_budget bc bytes = (ok', b') → (ok', b', q) = (ok, bc', p') →
    high_water bc' ≤ cap bc →
    ∃ be', (let '(ok, b) := charge_budget be bytes in (ok, b, q)) = (ok, be', p')
      ∧ mode bc' = Count ∧ mode be' = Enforce ∧ cap be' = cap bc' ∧ cap bc' = cap bc
      ∧ heap_ceiling be' = heap_ceiling be ∧ heap_ceiling bc' = heap_ceiling bc
      ∧ in_use be' = in_use bc' ∧ refused be' = refused be) as Hb.
  { intros q ok' b' Eb [= <- <- <-] Hw. unfold charge_budget in *. rewrite Hc in Eb.
    injection Eb as <- <-. cbn [high_water] in Hw. rewrite He, Hin, Hcap.
    rewrite (proj2 (Z.leb_le _ _)) by lia. eexists. split; [done|]. by split_and!. }
  destruct p as [g|]; [|destruct (charge_budget bc bytes) as [ok' b']; by apply Hb].
  destruct (0 <? bytes); [|destruct (charge_budget bc bytes) as [ok' b']; by apply Hb].
  destruct (gate_over (gate_refresh g r));
    [|destruct (charge_budget bc bytes) as [ok' b']; by apply Hb].
  intros [= <- <- <-] _. eexists. split; [done|]. by split_and!.
Qed.

Lemma charge_budget_high_water b bytes : high_water b ≤ high_water (charge_budget b bytes).2.
Proof. unfold charge_budget. repeat case_match; simpl; lia. Qed.

Lemma serve_cap h e : cap (budget (serve h e).2) = cap (budget h)
  ∧ high_water (budget h) ≤ high_water (budget (serve h e).2).
Proof.
  destruct e as [i cu d mx r|i|i|p]; simpl; [|by split..| |by split].
  - unfold memory_growing. destruct (stores h !! i); [|by split]. destruct (_ || _); [by split|].
    destruct (charge _ _ _ _) as [[ok b] p] eqn:E. simpl.
    apply charge_cases in E as [[_ ->]|E]; [by split|].
    change b with (ok, b).2. rewrite <-E, charge_budget_cap.
    split; [done|apply charge_budget_high_water].
  - unfold drop_limiter. destruct (stores h !! i); [|by split]. simpl. by case_match.
Qed.

Lemma run_cap es h : cap (budget (run h es).2) = cap (budget h)
  ∧ high_water (budget h) ≤ high_water (budget (run h es).2).
Proof.
  revert h. induction es as [|e es IH]; intros h; [by split|]. simpl.
  destruct (serve_cap h e) as [Hc Hh]. destruct (serve h e) as [a h1]. simpl in *.
  destruct (IH h1) as [IHc IHh]. destruct (run h1 es) as [l h2]. simpl in *. split; [congruence|lia].
Qed.

Lemma serve_twins hc he e a hc' :
  twins hc he → serve hc e = (a, hc') → high_water (budget hc') ≤ cap (budget hc) →
  ∃ he', serve he e = (a, he') ∧ twins hc' he'.
Proof.
  intros [T1 T2 T3 T4 T5 T6 T7 T8] E Hw. destruct e as [i cu d mx r|i|i|p]; simpl in *.
  - unfold memory_growing in *. rewrite T7, T4, T6.
    destruct (stores hc !! i) as [c|]; [|injection E as <- <-; by eexists].
    destruct (_ || _); [injection E as <- <-; by eexists|].
    destruct (charge (budget hc) _ _ _) as [[ok b] p] eqn:Ec. injection E as <- <-.
    destruct (charge_twins _ (budget he) _ _ _ _ _ _ T1 T2 T3 T5 Ec Hw)
      as (be & -> & M1 & M2 & M3 & M4 & M5 & M6 & M7 & M8).
    eexists. split; [done|]. split; simpl; congruence.
  - injection E as <- <-. eexists. split; [done|]. split; simpl; congruence.
  - injection E as <- <-. eexists. split; [done|]. unfold drop_limiter in *. rewrite T7.
    destruct (stores hc !! i) as [c|]; [|done]. split; simpl; try congruence;
      destruct (0 <? c); simpl; congruence.
  - injection E as <- <-. eexists. split; [done|]. split; simpl; congruence.
Qed.

(** counting sizes an enforcing budget.  If a host that only counts has served
    requests with its high-water mark within the cap, then the same requests on a
    host that enforces that cap get the same answers, none is refused for the
    budget, and the same bytes are in use. *)
Theorem counting_sizes_enforcement c p es answers h :
  run (idle_host (new_budget c Count) p) es = (answers, h) → high_water (budget h) ≤ c →
  ∃ h', run (idle_host (new_budget c Enforce) p) es = (answers, h')
    ∧ refused (budget h') = 0 ∧ in_use (budget h') = in_use (budget h) ∧ stores h' = stores h.
Proof.
  intros E Hw.
  assert (twins (idle_host (new_budget c Count) p) (idle_host (new_budget c Enforce) p)) as T
    by by split.
  assert (cap (budget (idle_host (new_budget c Count) p)) = c) as Hcap by done.
  revert E Hw T Hcap. generalize (idle_host (new_budget c Count) p).
  generalize (idle_host (new_budget c Enforce) p).
  revert answers h. induction es as [|e es IH]; intros answers h he hc E Hw T Hcap.
  - injection E as <- <-. exists he. destruct T. by split_and!.
  - simpl in *. destruct (serve hc e) as [a hc1] eqn:Es.
    destruct (run hc1 es) as [l hc2] eqn:Er. injection E as <- <-.
    pose proof (serve_cap hc e) as [Sc _]. rewrite Es in Sc. simpl in Sc.
    pose proof (run_cap es hc1) as [_ Rh]. rewrite Er in Rh. simpl in Rh.
    destruct (serve_twins hc he e a hc1 T Es) as (he1 & -> & T1); [lia|].
    destruct (IH l hc2 he1 hc1 Er Hw T1) as (h' & -> & Hrest); [congruence|].
    exists h'. by split.
Qed.

(** while the process is past its limit no guest grows: a request for more memory
    by any store is refused in either mode, nothing is charged for it, and the
    guard is still refusing afterwards, so the next request fares the same. *)
Theorem over_host_grows_nothing h g i c current desired maximum r ok h' :
  process h = Some g → gate_over g = true → stores h !! i = Some c → current < desired →
  memory_growing h i current desired maximum r = (ok, h') →
  ok = false ∧ stores h' = stores h ∧ in_use (budget h') = in_use (budget h)
  ∧ ∃ g', process h' = Some g' ∧ gate_over g' = true.
Proof.
  intros Hp Ho Hi Hlt E. unfold memory_growing in E. rewrite Hi in E.
  destruct (_ || _); [injection E as <- <-; split_and!; eauto|].
  unfold charge in E. rewrite Hp, (proj2 (Z.ltb_lt _ _)) in E by (unfold sat_sub; lia).
  rewrite (gate_refresh_over g r Ho) in E. injection E as <- <-.
  split_and!; [done..|]. eexists. split; [done|]. by apply gate_refresh_over.
Qed.

End modes.
Arguments Request : clear implicits.

(** ** Concrete hosts *)

Definition quiet : Reading := (0, None, true, true).
Definition fresh_host (m : GuestMemoryMode) : Host (Sampled * nat) :=
  idle_host (new_budget 1000 m) (Some (ProcessMemory.crossed, 1%nat)).

(** Two stores grow, one past the budget's cap, and the first is dropped. *)
Definition grown : Host (Sampled * nat) :=
  (memory_growing (memory_growing (new_limiter (new_limiter (fresh_host Enforce) 0) 1)
                     0 0 600 None quiet).2 1 0 500 None quiet).2.

Lemma guest_memory_conserved_witness :
  in_use (budget grown) = 600 ∧ in_use (budget grown) = charged_total (stores grown)
  ∧ in_use (budget (drop_limiter grown 0)) = 0.
Proof.
  assert (rtc host_step (fresh_host Enforce) grown) as Hh.
  { apply (rtc_l _ _ (new_limiter (fresh_host Enforce) 0)); [by apply hs_new|].
    apply (rtc_l _ _ (new_limiter (new_limiter (fresh_host Enforce) 0) 1)); [by apply hs_new|].
    eapply rtc_l; [eapply (hs_grow _ 0 0 600 None quiet true); [lia|vm_compute; reflexivity]|].
    apply rtc_once. eapply (hs_grow _ 1 0 500 None quiet false); [lia|vm_compute; reflexivity]. }
  destruct (guest_memory_conserved 1000 Enforce None (Some (ProcessMemory.crossed, 1%nat)) grown)
    as [_ H]; [lia|exact Hh|].
  split; [vm_compute; reflexivity|]. split; [|vm_compute; reflexivity].
  apply H. vm_compute. reflexivity.
Defined.

Definition demands : list (Request (Sampled * nat) Reading) :=
  [Build 0; Grow 0 0 600 None quiet; Build 1; Grow 1 0 300 (Some 200) quiet; Leave 0;
   Grow 1 0 900 None quiet].

Lemma counting_sizes_enforcement_witness :
  ∃ h', run (fresh_host Enforce) demands = ([true; false; true], h') ∧ refused (budget h') = 0.
Proof.
  destruct (run (fresh_host Count) demands) as [l h] eqn:E.
  assert (l = [true; false; true]) as -> by (vm_compute in E; by injection E as <- _).
  destruct (counting_sizes_enforcement 1000 (Some (ProcessMemory.crossed, 1%nat)) demands
    [true; false; true] h E) as (h' & H1 & H2 & _).
  - vm_compute in E. injection E as <-. vm_compute. discriminate.
  - by exists h'.
Defined.

(** The guard of this host is the one that crossed its limit. *)
Definition over_host : Host (Sampled * nat) :=
  new_limiter (idle_host (new_budget 1000 Count) (Some (ProcessMemory.crossed, 0%nat))) 7.

Lemma over_host_grows_nothing_witness :
  (memory_growing over_host 7 0 1 None quiet).1 = false.
Proof.
  destruct (memory_growing over_host 7 0 1 None quiet) as [ok h'] eqn:E.
  apply (over_host_grows_nothing over_host (ProcessMemory.crossed, 0%nat) 7 0 0 1 None quiet ok h').
  - reflexivity.
  - vm_compute. reflexivity.
  - reflexivity.
  - lia.
  - exact E.
Defined.
