(* ===== verification/InstancePool.v ===== *)
(** * Warm instances and their pool

    [engine/instance_driver.rs] and [engine/instance_pool.rs].  A driver owns one
    instance: it admits calls up to a concurrency and an invocation limit, its run
    loop takes them off a channel, and a retired driver drains and ends.  A pool
    holds the drivers of one component, dispatches to the least busy, makes room
    for new ones, and gives back what its recent peak did not need.

    A call is its identity and its kind.  [dr_queue] is the channel between
    admission and the run loop and [dr_running] the calls the guest is on; the
    in-flight counter is a field of its own, as in the code.  Pool operations run
    under the pool's lock and are whole steps; a slot that is freed and the reading of
    [retired] that follows are two, and so are a retirement and the reading of the
    counter: a thread between the two is counted by the driver, and may be overtaken by
    anything.  (The accesses of admission are interleaved in [DriverRace].)  An instance
    is parked under the lock and the sweep armed after it.  [usize] does not overflow:
    counts are [nat]. *)

From Stdlib Require Import ZArith Lia.
From stdpp Require Import base list gmap strings option sorting.
From S2P Require Import Prelude.

(** ** Calls *)

Inductive JobKind := Http | Linked | Messaging | GuestCall.
#[global] Instance JobKind_eq_dec : EqDecision JobKind.
Proof. solve_decision. Defined.
Record Job := { jb_id : nat; jb_kind : JobKind }.
#[global] Instance Job_eq_dec : EqDecision Job.
Proof. solve_decision. Defined.

(** The triggered work an instance exports handlers for. *)
Record Accepts := { acc_http : bool; acc_messaging : bool }.

Definition takes (a : Accepts) (j : Job) : bool :=
  match jb_kind j with
  | Http => acc_http a
  | Messaging => acc_messaging a
  | Linked | GuestCall => true
  end.

(** ** One driver *)

Record Driver := {
  dr_in_flight : nat;
  dr_retired : bool;
  dr_drained : bool;                (** a stored permit of [Notify] *)
  dr_gone : bool;                   (** the task ended: the channel is closed *)
  dr_admitted : nat;
  dr_max_concurrency : nat;
  dr_max_invocations : option nat;
  dr_accepts : Accepts;
  dr_queue : list Job;
  dr_running : list Job;
  dr_ending : nat;                  (** last guards, between the decrement and the read of [retired] *)
  dr_retiring : nat;                (** [retire], between the store and the read of [in_flight] *)
}.
Implicit Types (d : Driver) (j : Job).

Definition dr_calls d : list Job := dr_queue d ++ dr_running d.

Definition with_flags d (in_flight : nat) (retired drained : bool) (admitted ending retiring : nat) : Driver :=
  {| dr_in_flight := in_flight; dr_retired := retired; dr_drained := drained;
     dr_gone := dr_gone d; dr_admitted := admitted; dr_max_concurrency := dr_max_concurrency d;
     dr_max_invocations := dr_max_invocations d; dr_accepts := dr_accepts d;
     dr_queue := dr_queue d; dr_running := dr_running d; dr_ending := ending; dr_retiring := retiring |}.
Definition with_calls d (queue running : list Job) : Driver :=
  {| dr_in_flight := dr_in_flight d; dr_retired := dr_retired d; dr_drained := dr_drained d;
     dr_gone := dr_gone d; dr_admitted := dr_admitted d;
     dr_max_concurrency := dr_max_concurrency d; dr_max_invocations := dr_max_invocations d;
     dr_accepts := dr_accepts d; dr_queue := queue; dr_running := running;
     dr_ending := dr_ending d; dr_retiring := dr_retiring d |}.

(** [DriverState::retire]: the store, and the read of the counter. *)
Definition retire d : Driver :=
  with_flags d (dr_in_flight d) true (dr_drained d) (dr_admitted d) (dr_ending d) (S (dr_retiring d)).
Definition retire_read d : option Driver :=
  match dr_retiring d with
  | O => None
  | S n => Some (with_flags d (dr_in_flight d) (dr_retired d) ((dr_in_flight d =? 0) || dr_drained d)
                   (dr_admitted d) (dr_ending d) n)
  end.

(** The drop of an [InFlightGuard]: the decrement, and, if it was the last, the read of
    [retired]. *)
Definition release_slot d : Driver :=
  with_flags d (dr_in_flight d - 1) (dr_retired d) (dr_drained d) (dr_admitted d)
    (if dr_in_flight d =? 1 then S (dr_ending d) else dr_ending d) (dr_retiring d).
Definition release_read d : option Driver :=
  match dr_ending d with
  | O => None
  | S n => Some (with_flags d (dr_in_flight d) (dr_retired d) (dr_retired d || dr_drained d)
                   (dr_admitted d) n (dr_retiring d))
  end.

Definition try_admit d : bool * Driver :=
  if dr_retired d || dr_gone d then (false, d)
  else if dr_in_flight d <? dr_max_concurrency d then
    let d := with_flags d (dr_in_flight d + 1) (dr_retired d) (dr_drained d) (dr_admitted d)
               (dr_ending d) (dr_retiring d) in
    match dr_max_invocations d with
    | None => (true, d)
    | Some limit =>
        if dr_admitted d <? limit then
          let previous := dr_admitted d in
          let d := with_flags d (dr_in_flight d) (dr_retired d) (dr_drained d) (previous + 1)
                     (dr_ending d) (dr_retiring d) in
          (true, if limit <=? previous + 1 then retire d else d)
        else (false, release_slot (retire d))
    end
  else (false, d).

(** The channel holds [max_concurrency] calls, and at least one. *)
Definition try_send d j : bool * Driver :=
  if negb (takes (dr_accepts d) j) then (false, d)
  else
    let '(ok, d) := try_admit d in
    if ok then
      if negb (dr_gone d) && (length (dr_queue d) <? Nat.max (dr_max_concurrency d) 1)
      then (true, with_calls d (dr_queue d ++ [j]) (dr_running d))
      else (false, release_slot d)
    else (false, d).

(** [InstanceDriver::spawn] for the call it is to serve first. *)
Definition spawn (a : Accepts) j (max_concurrency : nat) (max_invocations : option nat) :
    option Driver :=
  if takes a j then
    Some {| dr_in_flight := 0; dr_retired := false; dr_drained := false; dr_gone := false;
            dr_admitted := 0; dr_max_concurrency := max_concurrency;
            dr_max_invocations := max_invocations; dr_accepts := a; dr_queue := [];
            dr_running := []; dr_ending := 0; dr_retiring := 0 |}
  else None.

(** The run loop takes the next call. *)
Definition loop_take d : option Driver :=
  if dr_gone d then None
  else match dr_queue d with
  | j :: q => Some (with_calls d q (dr_running d ++ [j]))
  | [] => None
  end.

(** The task is over, by a trap, a drained signal or a closed channel: the store and
    every call on it go with it. *)
Definition end_task d : Driver :=
  {| dr_in_flight := 0; dr_retired := dr_retired d; dr_drained := dr_drained d; dr_gone := true;
     dr_admitted := dr_admitted d; dr_max_concurrency := dr_max_concurrency d;
     dr_max_invocations := dr_max_invocations d; dr_accepts := dr_accepts d; dr_queue := [];
     dr_running := []; dr_ending := dr_ending d; dr_retiring := dr_retiring d |}.

Definition loop_drained d : option Driver :=
  if negb (dr_gone d) && dr_drained d then Some (end_task d) else None.

(** The [k]th running call ends and its slot is free; [bad]: it timed out or failed in
    the host, which retires the instance first.  Who freed the last slot reads [retired]
    next ([release_read]). *)
Definition finish_call d (k : nat) (bad : bool) : option Driver :=
  match dr_running d !! k with
  | Some _ =>
      let d := if bad then retire d else d in
      Some (release_slot (with_calls d (dr_queue d) (delete k (dr_running d))))
  | None => None
  end.

(** ** What a component asks for *)

Record ReclaimPolicy := { window : Z; min_instances : nat }.

Inductive InstancePolicy :=
  | Ephemeral
  | Warm (pool_size : nat) (max_invocations : option nat) (max_concurrency : nat)
         (reclaim : option ReclaimPolicy).

(** The limits as they arrive, [i32]s. *)
Record Component := {
  c_pool_size : Z;
  c_max_invocations : Z;
  c_max_concurrency : Z;
  c_reclaim_window_seconds : Z;
  c_reclaim_min_instances : Z;
}.

Definition positive (v : Z) : option nat := if (0 <? v)%Z then Some (Z.to_nat v) else None.

Definition from_component (c : Component) : InstancePolicy :=
  match positive (c_pool_size c) with
  | None => Ephemeral
  | Some pool_size =>
      Warm pool_size (positive (c_max_invocations c))
        (default 1 (positive (c_max_concurrency c)))
        (match positive (c_reclaim_window_seconds c) with
         | None => None
         | Some window =>
             let min_instances := Z.to_nat (c_reclaim_min_instances c) in
             if min_instances <? pool_size
             then Some {| window := Z.of_nat window; min_instances := min_instances |} else None
         end)
  end.

Definition keeps_instances_warm (p : InstancePolicy) : bool :=
  match p with Warm _ _ _ _ => true | Ephemeral => false end.

Definition call_concurrency (p : InstancePolicy) : nat :=
  match p with Ephemeral => 1 | Warm pool_size _ max_concurrency _ => pool_size * max_concurrency end.

(** [poolable]: every component that shares the store must keep instances warm. *)
Definition poolable (components : gmap string InstancePolicy) (id : string) (linked : gset string) :
    option InstancePolicy :=
  pool ← components !! id;
  if negb (keeps_instances_warm pool) then None
  else if forallb (λ l, is_some_and (components !! l) keeps_instances_warm) (elements linked)
       then Some pool else None.

(** ** The pool *)

(** [pl_arming]: threads that found instances in the pool, let go of its lock, and are
    about to arm the sweep; [pl_starting]: one has armed it and its task is not running
    yet; [pl_shut]: the runtime of the task was shut down since it was last armed. *)
Record Pool := {
  pl_policy : InstancePolicy;
  pl_drivers : list Driver;
  pl_peak : nat;                    (** [peak_in_flight] *)
  pl_closed : bool;
  pl_sweeping : bool;
  pl_arming : nat;
  pl_starting : bool;
  pl_shut : bool;
}.
Implicit Types (p : Pool) (ds : list Driver).

Definition new_pool (policy : InstancePolicy) : Pool :=
  {| pl_policy := policy; pl_drivers := []; pl_peak := 0; pl_closed := false;
     pl_sweeping := false; pl_arming := 0; pl_starting := false; pl_shut := false |}.

Definition with_drivers p ds (peak : nat) : Pool :=
  {| pl_policy := pl_policy p; pl_drivers := ds; pl_peak := peak; pl_closed := pl_closed p;
     pl_sweeping := pl_sweeping p; pl_arming := pl_arming p; pl_starting := pl_starting p; pl_shut := pl_shut p |}.
Definition with_sweep p (sweeping : bool) (arming : nat) (starting shut : bool) : Pool :=
  {| pl_policy := pl_policy p; pl_drivers := pl_drivers p; pl_peak := pl_peak p;
     pl_closed := pl_closed p; pl_sweeping := sweeping; pl_arming := arming; pl_starting := starting; pl_shut := shut |}.
Definition set_sweeping p (b : bool) : Pool := with_sweep p b (pl_arming p) (pl_starting p) (pl_shut p).

Definition limits p : option (nat * option nat * nat) :=
  match pl_policy p with
  | Ephemeral => None
  | Warm pool_size max_invocations max_concurrency _ => Some (pool_size, max_invocations, max_concurrency)
  end.
Definition reclaim_policy p : option ReclaimPolicy :=
  match pl_policy p with Ephemeral => None | Warm _ _ _ reclaim => reclaim end.

Definition in_flight_total ds : nat := sum_list_with dr_in_flight ds.

Definition spent d : bool := dr_gone d || dr_retired d && (dr_in_flight d =? 0).
Definition reap ds : list Driver := filter (λ d, spent d = false) ds.

(** [sort_by_cached_key] is stable. *)
Fixpoint insert_busy d ds : list Driver :=
  match ds with
  | [] => [d]
  | x :: r => if dr_in_flight d <=? dr_in_flight x then d :: ds else x :: insert_busy d r
  end.
Definition sort_least_busy ds : list Driver := foldr insert_busy [] ds.

(** The [for] loop: the first driver that takes the call. *)
Fixpoint offer j ds : bool * list Driver :=
  match ds with
  | [] => (false, [])
  | d :: r =>
      let '(ok, d) := try_send d j in
      if ok then (true, d :: r) else let '(ok, r) := offer j r in (ok, d :: r)
  end.

Inductive Dispatch := Sent | NeedsInstance | Saturated.

Definition try_dispatch p j : Dispatch * Pool :=
  match limits p with
  | None => (Saturated, p)
  | Some (pool_size, _, _) =>
      if pl_closed p then (Saturated, p)
      else
        let ds := reap (pl_drivers p) in
        let peak := if is_some (reclaim_policy p)
                    then Nat.max (pl_peak p) (in_flight_total ds + 1) else pl_peak p in
        let '(ok, ds) := offer j (sort_least_busy ds) in
        (if ok then Sent else if length ds <? pool_size then NeedsInstance else Saturated,
         with_drivers p ds peak)
  end.

(** [start_sweeping], up to the swap that arms the sweep. *)
Definition start_sweeping p : option Pool :=
  match pl_arming p with
  | O => None
  | S n =>
      Some (if is_some (reclaim_policy p) && negb (pl_sweeping p) then with_sweep p true n true false
            else with_sweep p (pl_sweeping p) n (pl_starting p) (pl_shut p))
  end.

(** The rest of it: the first window starts from the work in flight, and the task is
    spawned. *)
Definition spawn_sweep p : option Pool :=
  if pl_starting p
  then Some (with_sweep (with_drivers p (pl_drivers p) (in_flight_total (pl_drivers p)))
               (pl_sweeping p) (pl_arming p) false (pl_shut p))
  else None.

(** [SweepOwner::drop] of a task that was dropped with its runtime. *)
Definition drop_sweep p : Pool := with_sweep p false (pl_arming p) (pl_starting p) true.

(** What became of a call given with the instance built for it: taken, or handed
    back with or without that instance. *)
Inductive Installed := Taken | DeclinedWith | DeclinedWithout.

Definition dispatch_on_new p (a : Accepts) j : Installed * Pool :=
  match limits p with
  | None => (DeclinedWith, p)
  | Some (pool_size, max_invocations, max_concurrency) =>
      let ds := reap (pl_drivers p) in
      let '(r, ds) :=
        if pl_closed p then (DeclinedWith, ds)
        else
          let '(ok, ds) := offer j ds in
          if ok then (Taken, ds)
          else if pool_size <=? length ds then (DeclinedWith, ds)
          else match spawn a j max_concurrency max_invocations with
               | None => (DeclinedWith, ds)
               | Some d =>
                   let '(ok, d) := try_send d j in
                   (if ok then Taken else DeclinedWithout, ds ++ [d])
               end in
      let peak := if is_some (reclaim_policy p)
                  then Nat.max (pl_peak p) (in_flight_total ds) else pl_peak p in
      let p := with_drivers p ds peak in
      (r, match ds with
          | [] => p
          | _ => with_sweep p (pl_sweeping p) (S (pl_arming p)) (pl_starting p) (pl_shut p)
          end)
  end.

(** [offer_or_install]; [built] is the store the caller could build, by what it
    exports.  [None]: the component would not instantiate. *)
Definition offer_or_install p j (built : option Accepts) : option Installed * Pool :=
  match try_dispatch p j with
  | (Sent, p) => (Some Taken, p)
  | (NeedsInstance, p) =>
      match built with
      | None => (None, p)
      | Some a => let '(r, p) := dispatch_on_new p a j in (Some r, p)
      end
  | (Saturated, p) => (Some DeclinedWithout, p)
  end.

(** Retire the first [n] idle drivers. *)
Fixpoint retire_idle (n : nat) ds : list Driver :=
  match n, ds with
  | O, _ | _, [] => ds
  | S n', d :: r =>
      if negb (dr_retired d) && (dr_in_flight d =? 0) then retire d :: retire_idle n' r
      else d :: retire_idle n r
  end.

Definition live ds : nat := length (filter (λ d, dr_retired d = false) ds).

Definition div_ceil (a b : nat) : nat := a / b + (if a mod b =? 0 then 0 else 1).

(** Instances the last window's peak needed. *)
Definition needed (peak max_concurrency pool_size min_instances : nat) : nat :=
  Nat.max (Nat.min (div_ceil peak max_concurrency) pool_size) min_instances.

Definition sweep p : bool * Pool :=
  match limits p, reclaim_policy p with
  | Some (pool_size, _, max_concurrency), Some reclaim =>
      let ds := reap (pl_drivers p) in
      let in_flight := in_flight_total ds in
      if (in_flight =? 0) && (length ds <=? min_instances reclaim)
         && forallb (λ d, negb (dr_retired d)) ds
      then (false, set_sweeping (with_drivers p ds 0) false)
      else
        let surplus := live ds - needed (pl_peak p) max_concurrency pool_size (min_instances reclaim) in
        (true, with_drivers p (retire_idle surplus ds) in_flight)
  | _, _ => (false, p)
  end.

(** A tick of the sweep's task; [false]: the task ends. *)
Definition tick p : bool * Pool :=
  if pl_closed p then (false, set_sweeping p false) else sweep p.

Definition close p : Pool :=
  {| pl_policy := pl_policy p; pl_drivers := []; pl_peak := pl_peak p; pl_closed := true;
     pl_sweeping := pl_sweeping p; pl_arming := pl_arming p; pl_starting := pl_starting p; pl_shut := pl_shut p |}.

(** Every call the pool's instances hold. *)
Definition pool_calls p : list Job := mjoin (dr_calls <$> pl_drivers p).

(** ** A driver keeps count *)

(** What is true of a driver between steps: the counter is the calls it holds, both
    limits are respected, a task that ended holds nothing, only a retired driver is told
    to end, and one that is retired with nothing left has been told, or a thread is about
    to. *)
Record driver_ok d : Prop := {
  dk_count : dr_in_flight d = length (dr_calls d);
  dk_conc : dr_in_flight d ≤ dr_max_concurrency d;
  dk_invoc : ∀ limit, dr_max_invocations d = Some limit → dr_admitted d ≤ limit;
  dk_gone : dr_gone d = true → dr_calls d = [];
  dk_told : dr_gone d = false → dr_retired d = true → dr_in_flight d = 0 →
    dr_drained d = true ∨ 0 < dr_ending d + dr_retiring d;
  dk_drained : dr_drained d = true → dr_retired d = true;
  dk_retiring : 0 < dr_retiring d → dr_retired d = true;
}.

(** The limits a driver was built with. *)
Definition same_limits d d' : Prop :=
  dr_max_concurrency d' = dr_max_concurrency d ∧ dr_max_invocations d' = dr_max_invocations d.

Lemma calls_length_queue d : length (dr_queue d) ≤ length (dr_calls d).
Proof. unfold dr_calls. rewrite length_app. lia. Qed.

Lemma retire_ok d : driver_ok d → driver_ok (retire d).
Proof.
  intros [H1 H2 H3 H4 H5 H6 H7]. split; try done; simpl. intros _ _ _. right. lia.
Qed.

Lemma retire_read_ok d d' : driver_ok d → retire_read d = Some d' → driver_ok d' ∧ same_limits d d' ∧ dr_calls d' = dr_calls d.
Proof.
  intros [H1 H2 H3 H4 H5 H6 H7] E. unfold retire_read in E. destruct (dr_retiring d) as [|n] eqn:Er; [done|].
  injection E as <-. split; [|done]. split; simpl; try done.
  - intros _ _ ->. by left.
  - intros _. apply H7. lia.
  - intros Hn. apply H7. lia.
Qed.

Lemma release_read_ok d d' : driver_ok d → release_read d = Some d' → driver_ok d' ∧ same_limits d d' ∧ dr_calls d' = dr_calls d.
Proof.
  intros [H1 H2 H3 H4 H5 H6 H7] E. unfold release_read in E. destruct (dr_ending d) as [|n] eqn:Er; [done|].
  injection E as <-. split; [|done]. split; simpl; try done.
  - intros _ -> _. by left.
  - intros [?|?]%orb_true_iff; auto.
Qed.

Lemma try_admit_spec d ok d' :
  driver_ok d → try_admit d = (ok, d') →
  same_limits d d' ∧ dr_calls d' = dr_calls d ∧ dr_queue d' = dr_queue d
  ∧ dr_running d' = dr_running d ∧ dr_gone d' = dr_gone d
  ∧ (ok = true → dr_in_flight d' = S (dr_in_flight d) ∧ dr_in_flight d < dr_max_concurrency d
       ∧ dr_gone d = false ∧ dr_drained d' = false ∧ (0 < dr_retiring d' → dr_retired d' = true)
       ∧ ∀ limit, dr_max_invocations d = Some limit → dr_admitted d' ≤ limit)
  ∧ (ok = false → driver_ok d').
Proof.
  intros Hd E. pose proof Hd as [H1 H2 H3 H4 H5 H6 H7]. unfold try_admit in E.
  destruct (dr_retired d || dr_gone d) eqn:Er; [injection E as <- <-; by split_and!|].
  apply orb_false_iff in Er as [Hr Hg].
  assert (dr_drained d = false) as Hdr.
  { destruct (dr_drained d); [|done]. specialize (H6 eq_refl). congruence. }
  assert (dr_retiring d = 0) as Hre.
  { destruct (dr_retiring d); [done|]. rewrite H7 in Hr by lia. done. }
  destruct (Nat.ltb_spec (dr_in_flight d) (dr_max_concurrency d)) as [Hlt|Hge];
    [|injection E as <- <-; by split_and!]. simpl in E.
  destruct (dr_max_invocations d) as [limit|] eqn:Em.
  - destruct (Nat.ltb_spec (dr_admitted d) limit) as [Ha|Ha]; injection E as <- <-.
    + destruct (limit <=? dr_admitted d + 1); split_and!; try done;
        intros _; simpl; split_and!; try done; try lia; intros ? [= <-]; lia.
    + split_and!; try done. intros _. split; simpl; rewrite ?Nat.add_sub, ?Em; try done.
      intros _ _ _. right. lia.
  - injection E as <- <-. split_and!; try done. intros _. simpl. split_and!; try done; lia.
Qed.

Lemma try_send_spec d j ok d' :
  driver_ok d → try_send d j = (ok, d') →
  driver_ok d' ∧ same_limits d d'
  ∧ if ok then dr_calls d' ≡ₚ j :: dr_calls d else dr_calls d' = dr_calls d.
Proof.
  intros Hd E. unfold try_send in E.
  destruct (takes (dr_accepts d) j); simpl in E; [|injection E as <- <-; by split_and!].
  destruct (try_admit d) as [adm d1] eqn:Ea.
  destruct (try_admit_spec d adm d1 Hd Ea) as ([L1 L2] & Hc & Hq & Hrun & Hg & Ht & Hf).
  destruct adm; [|injection E as <- <-; by split_and!; auto].
  destruct (Ht eq_refl) as (Hi & Hlt & Hng & Hdr & Hre & Hinv). destruct Hd as [H1 H2 H3 H4 H5 H6 H7].
  rewrite Hg, Hng in E. simpl in E. pose proof (calls_length_queue d) as Hl.
  destruct (Nat.ltb_spec (length (dr_queue d1)) (Nat.max (dr_max_concurrency d1) 1)) as [Hcap|Hcap];
    [|exfalso; rewrite Hq, L1 in Hcap; lia].
  injection E as <- <-.
  assert (dr_calls (with_calls d1 (dr_queue d1 ++ [j]) (dr_running d1)) ≡ₚ j :: dr_calls d) as Hp.
  { rewrite <-Hc. unfold dr_calls. simpl. solve_Permutation. }
  split; [|by split]. split; simpl.
  - rewrite Hp. simpl. lia.
  - rewrite L1. lia.
  - rewrite L2. auto.
  - congruence.
  - rewrite Hi. done.
  - by rewrite Hdr.
  - exact Hre.
Qed.

Lemma spawn_ok a j mc mi d :
  1 ≤ mc → spawn a j mc mi = Some d →
  driver_ok d ∧ dr_calls d = [] ∧ dr_max_concurrency d = mc ∧ dr_max_invocations d = mi.
Proof.
  intros Hmc E. unfold spawn in E. destruct (takes a j); [|done]. injection E as <-.
  split_and!; try done. split; simpl; try done; intros; lia.
Qed.

Lemma loop_take_ok d d' :
  driver_ok d → loop_take d = Some d' → driver_ok d' ∧ same_limits d d' ∧ dr_calls d' ≡ₚ dr_calls d.
Proof.
  intros [H1 H2 H3 H4 H5 H6 H7] E. unfold loop_take in E. destruct (dr_gone d) eqn:Eg; [done|].
  destruct (dr_queue d) as [|j q] eqn:Eq; [done|]. injection E as <-.
  assert (dr_calls (with_calls d q (dr_running d ++ [j])) ≡ₚ dr_calls d) as Hp.
  { unfold dr_calls. simpl. rewrite Eq. solve_Permutation. }
  split_and!; try done. split; simpl; try done.
  - by rewrite Hp.
  - congruence.
  - by rewrite Eg in *.
Qed.

Lemma end_task_ok d : driver_ok d → driver_ok (end_task d) ∧ same_limits d (end_task d).
Proof.
  intros [H1 H2 H3 H4 H5 H6 H7]. split; [|done]. split; simpl; try done. lia.
Qed.

Lemma finish_call_ok d k bad d' :
  driver_ok d → finish_call d k bad = Some d' → driver_ok d' ∧ same_limits d d'.
Proof.
  intros Hd E. unfold finish_call in E. destruct (dr_running d !! k) as [j|] eqn:Ek; [|done].
  injection E as <-. set (d1 := if bad then retire d else d).
  assert (driver_ok d1) as [H1 H2 H3 H4 H5 H6 H7] by (subst d1; destruct bad; auto using retire_ok).
  assert (dr_running d1 = dr_running d ∧ same_limits d d1) as [Hr [L1 L2]] by (subst d1; by destruct bad).
  assert (length (dr_running d) = S (length (delete k (dr_running d)))) as Hl.
  { rewrite length_delete by eauto. apply lookup_lt_Some in Ek. lia. }
  unfold dr_calls in H1, H4. rewrite Hr, length_app, Hl in H1.
  split; [|split; simpl; congruence].
  split; simpl; unfold dr_calls; simpl.
  - rewrite length_app, Hr. lia.
  - lia.
  - exact H3.
  - intros Hg. specialize (H4 Hg). rewrite Hr in H4.
    apply app_eq_nil in H4 as [_ H4]. by rewrite H4 in Ek.
  - intros Hg Hret H0. right. rewrite (proj2 (Nat.eqb_eq _ 1)) by lia. lia.
  - exact H6.
  - exact H7.
Qed.

(** ** The pool's own operations *)

Definition calls_of ds : list Job := mjoin (dr_calls <$> ds).

Lemma calls_of_cons d ds : calls_of (d :: ds) = dr_calls d ++ calls_of ds.
Proof. done. Qed.

Lemma calls_of_app ds1 ds2 : calls_of (ds1 ++ ds2) = calls_of ds1 ++ calls_of ds2.
Proof. unfold calls_of. by rewrite fmap_app, join_app. Qed.

#[global] Instance calls_of_proper : Proper ((≡ₚ) ==> (≡ₚ)) calls_of.
Proof.
  intros ds ds'. induction 1 as [|d ds ds' _ IH|d d' ds|ds1 ds2 ds3 _ IH1 _ IH2]; [done| | |].
  - by rewrite !calls_of_cons, IH.
  - rewrite !calls_of_cons. solve_Permutation.
  - by rewrite IH1.
Qed.

(** The drivers of a pool, each with the pool's limits. *)
Definition driver_of (mi : option nat) (mc : nat) d : Prop :=
  driver_ok d ∧ dr_max_concurrency d = mc ∧ dr_max_invocations d = mi.

Lemma driver_of_same mi mc d d' :
  driver_of mi mc d → driver_ok d' → same_limits d d' → driver_of mi mc d'.
Proof. intros (_ & <- & <-) Hd [H1 H2]. by split. Qed.

(** A spent driver holds no call. *)
Lemma spent_calls d : driver_ok d → spent d = true → dr_calls d = [].
Proof.
  intros [H1 H2 H3 H4 H5 H6 H7] Hs. unfold spent in Hs. destruct (dr_gone d) eqn:Eg; [by apply H4|].
  simpl in Hs. apply andb_true_iff in Hs as [_ H0%Nat.eqb_eq].
  apply length_zero_iff_nil. lia.
Qed.

Lemma reap_spec mi mc ds :
  Forall (driver_of mi mc) ds →
  Forall (driver_of mi mc) (reap ds) ∧ calls_of (reap ds) = calls_of ds
  ∧ length (reap ds) ≤ length ds.
Proof.
  induction 1 as [|d ds Hd Hds (IH1 & IH2 & IH3)]; [done|]. unfold reap in *.
  rewrite filter_cons. rewrite calls_of_cons. case_decide as Hs; simpl.
  - rewrite calls_of_cons, IH2. split_and!; [by constructor|done|lia].
  - apply not_false_is_true in Hs. rewrite (spent_calls d (proj1 Hd) Hs).
    split_and!; [done|done|lia].
Qed.

Lemma insert_busy_perm d ds : insert_busy d ds ≡ₚ d :: ds.
Proof.
  induction ds as [|x ds IH]; [done|]. simpl. case_match; [done|]. rewrite IH. apply Permutation_swap.
Qed.

Lemma sort_least_busy_perm ds : sort_least_busy ds ≡ₚ ds.
Proof. induction ds as [|d ds IH]; [done|]. simpl. by rewrite insert_busy_perm, IH. Qed.

Lemma offer_spec mi mc j ds ok ds' :
  Forall (driver_of mi mc) ds → offer j ds = (ok, ds') →
  Forall (driver_of mi mc) ds' ∧ length ds' = length ds
  ∧ calls_of ds' ≡ₚ if ok then j :: calls_of ds else calls_of ds.
Proof.
  intros Hds. revert ok ds'. induction Hds as [|d ds Hd Hds IH]; simpl; intros ok ds' E.
  { by injection E as <- <-. }
  destruct (try_send d j) as [sent d1] eqn:Es.
  destruct (try_send_spec d j sent d1 (proj1 Hd) Es) as (Hk & Hl & Hc).
  assert (driver_of mi mc d1) as Hd1 by by eapply driver_of_same.
  destruct sent.
  - injection E as <- <-. rewrite !calls_of_cons, Hc. split_and!; [by constructor|done|done].
  - destruct (offer j ds) as [ok1 r] eqn:Eo. injection E as <- <-.
    destruct (IH ok1 r eq_refl) as (I1 & I2 & I3). rewrite !calls_of_cons, Hc, I3.
    split_and!; [by constructor|simpl; congruence|]. destruct ok1; [solve_Permutation|done].
Qed.

Lemma retire_idle_length n ds : length (retire_idle n ds) = length ds.
Proof.
  revert n. induction ds as [|d ds IH]; intros [|n]; simpl; [done..|].
  case_match; simpl; by rewrite IH.
Qed.

Lemma retire_idle_spec mi mc n ds :
  Forall (driver_of mi mc) ds →
  Forall (driver_of mi mc) (retire_idle n ds) ∧ length (retire_idle n ds) = length ds
  ∧ calls_of (retire_idle n ds) = calls_of ds ∧ live ds - n ≤ live (retire_idle n ds).
Proof.
  intros Hds. revert n. induction Hds as [|d ds Hd Hds IH]; intros n.
  { destruct n; simpl; split_and!; done. }
  destruct n as [|n]; [simpl; split_and!; [by constructor|done|done|lia]|].
  cbn [retire_idle]. destruct (negb _ && _) eqn:E.
  - destruct (IH n) as (I1 & I2 & I3 & I4). rewrite !calls_of_cons, I3.
    change (dr_calls (retire d)) with (dr_calls d). split_and!; [|simpl; lia|done|].
    + constructor; [|done]. destruct Hd as (Hk & <- & <-). split; [by apply retire_ok|done].
    + unfold live in *. rewrite (filter_cons_False _ (retire d)) by done.
      rewrite filter_cons. case_decide; simpl; lia.
  - destruct (IH (S n)) as (I1 & I2 & I3 & I4). rewrite !calls_of_cons, I3.
    split_and!; [by constructor|simpl; lia|done|].
    unfold live in *. rewrite !filter_cons. case_decide; simpl; lia.
Qed.

(** ** Every history of a pool *)

Definition within_limits p : Prop :=
  match limits p with
  | None => pl_drivers p = []
  | Some (pool_size, mi, mc) =>
      Forall (driver_of mi mc) (pl_drivers p) ∧ length (pl_drivers p) ≤ pool_size ∧ 1 ≤ mc
  end.

Record pool_ok p : Prop := {
  pk_limits : within_limits p;
  pk_closed : pl_closed p = true → pl_drivers p = [];
  pk_armed : ∀ rp, reclaim_policy p = Some rp → pl_closed p = false →
    min_instances rp < length (pl_drivers p) → pl_sweeping p = true ∨ 0 < pl_arming p ∨ pl_shut p = true;
}.

(** Arming and starting the sweep, and shutting its runtime down, concern the sweep alone. *)
Lemma with_sweep_ok p sweeping arming starting shut :
  pool_ok p → sweeping = true ∨ shut = true → pool_ok (with_sweep p sweeping arming starting shut).
Proof. intros [Hw Hc Ha] Hs. split; [exact Hw|exact Hc|]. intros rp _ _ _. simpl. tauto. Qed.

Lemma start_sweeping_ok p p' : pool_ok p → start_sweeping p = Some p' → pool_ok p'.
Proof.
  intros Hp E. unfold start_sweeping in E. destruct (pl_arming p) as [|n] eqn:En; [done|].
  injection E as <-. destruct (is_some (reclaim_policy p) && negb (pl_sweeping p)) eqn:Eb;
    [by apply with_sweep_ok; auto|]. destruct Hp as [Hw Hc Ha]. split; [exact Hw|exact Hc|].
  intros rp Hrp Ho Hm. left. simpl in *. change (reclaim_policy (with_sweep p _ _ _ _)) with (reclaim_policy p) in Hrp.
  rewrite Hrp in Eb. simpl in Eb. by destruct (pl_sweeping p).
Qed.

Lemma try_dispatch_ok p j r p' :
  pool_ok p → try_dispatch p j = (r, p') →
  pool_ok p' ∧ pl_policy p' = pl_policy p ∧ pl_closed p' = pl_closed p
  ∧ pool_calls p' ≡ₚ match r with Sent => j :: pool_calls p | _ => pool_calls p end
  ∧ (r = NeedsInstance → pl_closed p = false).
Proof.
  intros Hp E. pose proof Hp as [Hw Hc Ha]. unfold try_dispatch in E.
  destruct (limits p) as [[[ps mi] mc]|] eqn:El; [|injection E as <- <-; by split_and!].
  destruct (pl_closed p) eqn:Ec; [injection E as <- <-; rewrite Ec; by split_and!|].
  unfold within_limits in Hw. rewrite El in Hw. destruct Hw as (Hd & Hl & Hmc).
  destruct (reap_spec mi mc _ Hd) as (R1 & R2 & R3).
  destruct (offer j _) as [ok ds] eqn:Eo. injection E as <- <-.
  pose proof (sort_least_busy_perm (reap (pl_drivers p))) as Hs.
  assert (Forall (driver_of mi mc) (sort_least_busy (reap (pl_drivers p)))) as Hsd by by rewrite Hs.
  destruct (offer_spec mi mc j _ ok ds Hsd Eo) as (O1 & O2 & O3).
  rewrite (Permutation_length Hs) in O2. split_and!; [|done|done| |done].
  - split; simpl.
    + unfold within_limits. change (limits (with_drivers p ds _)) with (limits p). rewrite El.
      split_and!; [done|simpl; lia|done].
    + by rewrite Ec.
    + intros rp Hrp _ Hm. apply (Ha rp); [done|done|lia].
  - unfold pool_calls. simpl. fold (calls_of ds). fold (calls_of (pl_drivers p)).
    rewrite <-R2. destruct ok; rewrite O3, Hs; [done|]. by destruct (length ds <? ps).
Qed.

Lemma dispatch_on_new_ok p a j r p' :
  pool_ok p → dispatch_on_new p a j = (r, p') →
  pool_ok p' ∧ pl_policy p' = pl_policy p ∧ pl_closed p' = pl_closed p
  ∧ pool_calls p' ≡ₚ match r with Taken => j :: pool_calls p | _ => pool_calls p end.
Proof.
  intros Hp E. pose proof Hp as [Hw Hc Ha]. unfold dispatch_on_new in E.
  destruct (limits p) as [[[ps mi] mc]|] eqn:El; [|injection E as <- <-; by split_and!].
  unfold within_limits in Hw. rewrite El in Hw. destruct Hw as (Hd & Hl & Hmc).
  destruct (reap_spec mi mc _ Hd) as (R1 & R2 & R3).
  match type of E with (let '(_, _) := ?x in _) = _ => destruct x as [r1 ds] eqn:Ex end.
  assert (Forall (driver_of mi mc) ds ∧ length ds ≤ ps ∧ (pl_closed p = true → ds = [])
    ∧ calls_of ds ≡ₚ match r1 with Taken => j :: pool_calls p | _ => pool_calls p end) as (D1 & D2 & D3 & D4).
  { unfold pool_calls. fold (calls_of (pl_drivers p)). rewrite <-R2.
    destruct (pl_closed p) eqn:Ec.
    { injection Ex as <- <-. rewrite Hc in * by done. by split_and!; auto; lia. }
    destruct (offer j (reap (pl_drivers p))) as [ok ds1] eqn:Eo.
    destruct (offer_spec mi mc j _ ok ds1 R1 Eo) as (O1 & O2 & O3).
    destruct ok; [injection Ex as <- <-; by split_and!; auto; lia|].
    destruct (Nat.leb_spec ps (length ds1)); [injection Ex as <- <-; by split_and!; auto; lia|].
    destruct (spawn a j mc mi) as [d|] eqn:Esp; [|injection Ex as <- <-; by split_and!; auto; lia].
    destruct (spawn_ok a j mc mi d Hmc Esp) as (S1 & S2 & S3 & S4).
    destruct (try_send d j) as [sent d1] eqn:Et. injection Ex as <- <-.
    destruct (try_send_spec d j sent d1 S1 Et) as (T1 & T2 & T3).
    split_and!; [|rewrite length_app; simpl; lia|done|].
    - apply Forall_app. split; [done|]. constructor; [|done].
      by apply (driver_of_same mi mc d); [split|..].
    - rewrite calls_of_app, O3. unfold calls_of at 2. simpl. rewrite app_nil_r.
      destruct sent; rewrite T3, S2; [solve_Permutation|by rewrite app_nil_r]. }
  set (q := with_drivers p ds _) in E.
  assert (pl_drivers q = ds ∧ pl_policy q = pl_policy p ∧ pl_closed q = pl_closed p
    ∧ pl_sweeping q = pl_sweeping p) as (Q1 & Q2 & Q3 & Q4) by done.
  assert (limits q = Some (ps, mi, mc)) as Q5 by done.
  assert (reclaim_policy q = reclaim_policy p) as Q6 by done.
  clearbody q. injection E as <- <-.
  destruct ds as [|d ds'].
  - split_and!; [|done|done|unfold pool_calls; by rewrite Q1].
    split; [unfold within_limits; rewrite Q5, Q1; split_and!; [done|simpl; lia|done]|done|].
    intros rp _ _. rewrite Q1. simpl. lia.
  - split_and!; [|done|done|unfold pool_calls; simpl; by rewrite Q1].
    split; simpl; [| |intros rp _ _ _; right; left; lia].
    + unfold within_limits. change (limits (with_sweep q _ _ _ _)) with (limits q). rewrite Q5. simpl. by rewrite Q1.
    + rewrite Q1, Q3. auto.
Qed.

Lemma sweep_ok p b p' :
  pool_ok p → sweep p = (b, p') →
  pool_ok p' ∧ pl_policy p' = pl_policy p ∧ pl_closed p' = pl_closed p
  ∧ pool_calls p' = pool_calls p.
Proof.
  intros Hp E. pose proof Hp as [Hw Hc Ha]. unfold sweep in E.
  destruct (limits p) as [[[ps mi] mc]|] eqn:El; [|injection E as <- <-; by split_and!].
  destruct (reclaim_policy p) as [rp|] eqn:Er; [|injection E as <- <-; by split_and!].
  unfold within_limits in Hw. rewrite El in Hw. destruct Hw as (Hd & Hl & Hmc).
  destruct (reap_spec mi mc _ Hd) as (R1 & R2 & R3).
  assert (pl_closed p = true → reap (pl_drivers p) = []) as Hce.
  { intros H. by rewrite (Hc H). }
  destruct (_ && _) eqn:Ef; injection E as <- <-.
  - split_and!; [|done|done|exact R2]. split; simpl.
    + unfold within_limits. change (limits (set_sweeping _ false)) with (limits p). rewrite El.
      split_and!; [done|simpl; lia|done].
    + done.
    + intros rp' Hrp. change (reclaim_policy (set_sweeping _ false)) with (reclaim_policy p) in Hrp.
      rewrite Er in Hrp. injection Hrp as <-.
      apply andb_true_iff in Ef as [[_ Ef%Nat.leb_le]%andb_true_iff _]. lia.
  - set (n := live _ - _). destruct (retire_idle_spec mi mc n _ R1) as (I1 & I2 & I3 & I4).
    split_and!; [|done|done|].
    + split; simpl.
      * unfold within_limits. change (limits (with_drivers p _ _)) with (limits p). rewrite El.
        split_and!; [done|simpl; lia|done].
      * intros H. apply length_zero_iff_nil. rewrite I2, (Hce H). done.
      * intros rp' Hrp Ho. rewrite I2. intros Hm. apply (Ha rp'); [by rewrite <-Er|done|lia].
    + unfold pool_calls. simpl. fold (calls_of (retire_idle n (reap (pl_drivers p)))).
      by rewrite I3, R2.
Qed.

(** What happens to a driver outside the pool's lock. *)
Inductive driver_event : Driver → Driver → Prop :=
  | de_take d d' : loop_take d = Some d' → driver_event d d'
  | de_retire_read d d' : retire_read d = Some d' → driver_event d d'
  | de_release_read d d' : release_read d = Some d' → driver_event d d'
  | de_drained d d' : loop_drained d = Some d' → driver_event d d'
  | de_finish d k bad d' : finish_call d k bad = Some d' → driver_event d d'
  | de_trap d : driver_event d (end_task d).

Inductive pool_step : Pool → Pool → Prop :=
  | ps_dispatch p j r p' : try_dispatch p j = (r, p') → pool_step p p'
  | ps_install p a j r p' : dispatch_on_new p a j = (r, p') → pool_step p p'
  | ps_driver p k d d' :
      pl_drivers p !! k = Some d → driver_event d d' →
      pool_step p (with_drivers p (<[k := d']> (pl_drivers p)) (pl_peak p))
  | ps_arm p p' : start_sweeping p = Some p' → pool_step p p'
  | ps_start p p' : spawn_sweep p = Some p' → pool_step p p'
  | ps_tick p b p' : pl_sweeping p = true → pl_starting p = false → tick p = (b, p') → pool_step p p'
  | ps_shutdown p : pl_sweeping p = true → pl_starting p = false → pool_step p (drop_sweep p)
  | ps_close p : pool_step p (close p).

Lemma driver_event_ok d d' : driver_ok d → driver_event d d' → driver_ok d' ∧ same_limits d d'.
Proof.
  intros Hd He. destruct He as [d d' E|d d' E|d d' E|d d' E|d k bad d' E|d].
  - by destruct (loop_take_ok d d' Hd E) as (? & ? & _).
  - by destruct (retire_read_ok d d' Hd E) as (? & ? & _).
  - by destruct (release_read_ok d d' Hd E) as (? & ? & _).
  - unfold loop_drained in E. case_match; [|done]. injection E as <-. by apply end_task_ok.
  - by eapply finish_call_ok.
  - by apply end_task_ok.
Qed.

Lemma tick_ok p b p' :
  pool_ok p → tick p = (b, p') → pool_ok p' ∧ pl_policy p' = pl_policy p
    ∧ pl_closed p' = pl_closed p ∧ pool_calls p' = pool_calls p.
Proof.
  intros Hp E. unfold tick in E. destruct (pl_closed p) eqn:Ec; [|rewrite <-Ec; by eapply sweep_ok].
  injection E as <- <-. split_and!; [|done|done|done]. destruct Hp as [H1 H2 H3].
  split; [exact H1|exact H2|]. intros rp _ Ho. simpl in Ho. congruence.
Qed.

Lemma pool_step_ok p p' : pool_ok p → pool_step p p' → pool_ok p' ∧ pl_policy p' = pl_policy p.
Proof.
  intros Hp Hst. destruct Hst as [p j r p' E|p a j r p' E|p k d d' Ek He|p p' E|p p' E|p b p' _ _ E|p _ _|p].
  - by destruct (try_dispatch_ok p j r p' Hp E) as (? & ? & _).
  - by destruct (dispatch_on_new_ok p a j r p' Hp E) as (? & ? & _).
  - split; [|done]. destruct Hp as [Hw Hc Ha]. split.
    + unfold within_limits in *. change (limits (with_drivers p _ _)) with (limits p).
      destruct (limits p) as [[[ps mi] mc]|]; [|by rewrite Hw in Ek].
      destruct Hw as (Hd & Hl & Hmc). simpl. rewrite length_insert. split_and!; [|done|done].
      apply Forall_insert; [done|]. pose proof (Forall_lookup_1 _ _ _ _ Hd Ek) as Hdk.
      destruct (driver_event_ok d d' (proj1 Hdk) He) as [? ?]. by eapply driver_of_same.
    + simpl. intros H. by rewrite (Hc H) in Ek.
    + simpl. intros rp Hrp Ho. rewrite length_insert. by apply Ha.
  - split; [by eapply start_sweeping_ok|]. unfold start_sweeping in E. repeat case_match; by simplify_eq.
  - unfold spawn_sweep in E. destruct (pl_starting p); [|done]. injection E as <-. split; [|done].
    by destruct Hp as [Hw Hc Ha].
  - by destruct (tick_ok p b p' Hp E) as (? & ? & _).
  - split; [|done]. apply with_sweep_ok; auto.
  - split; [|done]. split; [|done|done]. unfold within_limits.
    change (limits (close p)) with (limits p). destruct Hp as [Hw _ _]. unfold within_limits in Hw.
    destruct (limits p) as [[[ps mi] mc]|]; [|done]. destruct Hw as (_ & _ & Hmc).
    split_and!; [done|simpl; lia|done].
Qed.

Lemma positive_ge v n : positive v = Some n → 1 ≤ n.
Proof. unfold positive. case_match eqn:E; [|done]. intros [= <-]. bools. lia. Qed.

(** C17: every limit a component declares, whatever integers it sends, is decoded into
    a policy that makes sense: a pool holds at least one instance, an instance serves
    at least one call at a time and at least one in its life, and a pool that gives
    instances back has a window to watch and a floor below its size. *)
Theorem decoded_policy_is_sensible c ps mi mc rp :
  from_component c = Warm ps mi mc rp →
  1 ≤ ps ∧ 1 ≤ mc ∧ (∀ n, mi = Some n → 1 ≤ n)
  ∧ ∀ r, rp = Some r → (1 ≤ window r)%Z ∧ min_instances r < ps.
Proof.
  unfold from_component. destruct (positive (c_pool_size c)) as [n|] eqn:Ep; [|done].
  intros [= <- <- <- <-]. split_and!.
  - by eapply positive_ge.
  - destruct (positive (c_max_concurrency c)) as [k|] eqn:E; simpl; [by eapply positive_ge|lia].
  - intros k. apply positive_ge.
  - intros r. destruct (positive (c_reclaim_window_seconds c)) as [w|] eqn:E; [|done].
    destruct (Nat.ltb_spec (Z.to_nat (c_reclaim_min_instances c)) n); [|done].
    intros [= <-]. simpl. apply positive_ge in E. split; [lia|done].
Qed.

Lemma history_ok c p :
  rtc pool_step (new_pool (from_component c)) p →
  pool_ok p ∧ pl_policy p = from_component c.
Proof.
  assert (pool_ok (new_pool (from_component c)) ∧
    pl_policy (new_pool (from_component c)) = from_component c) as H0.
  { split; [|done]. split; simpl; try done; [|intros; lia].
    unfold within_limits, limits. simpl. destruct (from_component c) as [|ps mi mc rp] eqn:E; [done|].
    split_and!; [done|simpl; lia|]. unfold from_component in E.
    destruct (positive (c_pool_size c)); [|done]. injection E as _ _ <- _.
    destruct (positive (c_max_concurrency c)) as [k|] eqn:Ek; simpl; [by eapply positive_ge|lia]. }
  intros Hh. revert H0. induction Hh as [p|p1 p2 p3 Hst Hh IH]; [done|].
  intros [H1 H2]. destruct (pool_step_ok p1 p2 H1 Hst) as [H3 H4]. apply IH. by rewrite H4.
Qed.

Lemma calls_of_length mi mc ds :
  Forall (driver_of mi mc) ds → length (calls_of ds) ≤ length ds * mc.
Proof.
  induction 1 as [|d ds ([H1 H2 _ _ _ _ _] & Hmc & _) Hds IH]; [done|].
  rewrite calls_of_cons, length_app. simpl. lia.
Qed.

(** C15: whatever is dispatched, installed, finished, trapped, swept or closed, and in
    whatever order, a pool holds no more instances than its component declared, each
    with no more calls than it may have and never one past its invocation limit; its
    counters are right; only a retired instance is told to end, and one that is retired
    and has nothing left to do has been told, or the thread that tells it is at its last
    read; a closed pool holds nothing; and a pool above its floor is being swept, or
    about to be, or the runtime its sweep ran on was shut down. *)
Theorem pool_stays_within_its_limits c ps mi mc rp p :
  from_component c = Warm ps mi mc rp → rtc pool_step (new_pool (from_component c)) p →
  length (pl_drivers p) ≤ ps ∧ length (pool_calls p) ≤ call_concurrency (from_component c)
  ∧ (∀ d, d ∈ pl_drivers p →
      dr_in_flight d = length (dr_calls d) ∧ dr_in_flight d ≤ mc
      ∧ (∀ n, mi = Some n → dr_admitted d ≤ n)
      ∧ (dr_drained d = true → dr_retired d = true)
      ∧ (dr_gone d = false → dr_retired d = true → dr_in_flight d = 0 →
           dr_drained d = true ∨ 0 < dr_ending d + dr_retiring d))
  ∧ (pl_closed p = true → pl_drivers p = [])
  ∧ (∀ r, rp = Some r → pl_closed p = false → min_instances r < length (pl_drivers p) →
      pl_sweeping p = true ∨ 0 < pl_arming p ∨ pl_shut p = true).
Proof.
  intros Hc Hh. destruct (history_ok c p Hh) as [[Hw Hcl Ha] Hpol]. rewrite Hc in *.
  unfold within_limits, limits in Hw. rewrite Hpol in Hw. destruct Hw as (Hd & Hl & Hmc).
  split_and!; [done| | |done|].
  - pose proof (calls_of_length mi mc _ Hd) as Hlen. unfold pool_calls. fold (calls_of (pl_drivers p)).
    simpl. nia.
  - intros d Hin. rewrite Forall_forall in Hd.
    destruct (Hd d Hin) as ([K1 K2 K3 K4 K5 K6 K7] & <- & <-). by split_and!.
  - intros r ->. apply Ha. unfold reclaim_policy. by rewrite Hpol.
Qed.

(** C16: a call offered to a pool ends up on exactly one of its instances or is handed
    back, and no other call is touched: with its outcome taken, the calls the pool
    holds are the ones it held and this one; otherwise they are the ones it held. *)
Theorem offered_call_is_placed_or_returned c p j built r p' :
  rtc pool_step (new_pool (from_component c)) p → offer_or_install p j built = (r, p') →
  pool_calls p' ≡ₚ match r with Some Taken => j :: pool_calls p | _ => pool_calls p end.
Proof.
  intros Hh E. destruct (history_ok c p Hh) as [Hp _]. unfold offer_or_install in E.
  destruct (try_dispatch p j) as [t p1] eqn:Et.
  destruct (try_dispatch_ok p j t p1 Hp Et) as (Hp1 & _ & _ & H1 & _).
  destruct t; [by injection E as <- <-| |by injection E as <- <-].
  destruct built as [a|]; [|by injection E as <- <-].
  destruct (dispatch_on_new p1 a j) as [i p2] eqn:Ei. injection E as <- <-.
  destruct (dispatch_on_new_ok p1 a j i p2 Hp1 Ei) as (_ & _ & _ & ->).
  by destruct i; rewrite H1.
Qed.

(** ** Giving instances back *)

(** A driver after a sweep: as it was, or retired with nothing to finish. *)
Definition swept d d' : Prop := d' = d ∨ (d' = retire d ∧ dr_calls d = []).

Lemma swept_refl ds : Forall2 swept ds ds.
Proof. induction ds; constructor; [by left|done]. Qed.

Lemma retire_idle_swept n ds : Forall driver_ok ds → Forall2 swept ds (retire_idle n ds).
Proof.
  intros Hds. revert n. induction Hds as [|d ds Hd Hds IH]; intros n; [by destruct n|].
  destruct n as [|n]; cbn [retire_idle]; [apply swept_refl|].
  destruct (negb _ && _) eqn:E; constructor; try done; [|by left].
  right. split; [done|]. apply andb_true_iff in E as [_ E%Nat.eqb_eq].
  destruct Hd as [H1 _ _ _ _ _ _]. apply length_zero_iff_nil. lia.
Qed.

(** giving instances back costs no call.  A sweep drops only instances that are
    spent and retires only idle ones, and of the instances still admitting it leaves
    as many as the last window's peak needed, and never fewer than the floor (or all
    there were). *)
Theorem sweep_ends_no_call c ps mi mc rp p b p' :
  from_component c = Warm ps mi mc (Some rp) → rtc pool_step (new_pool (from_component c)) p →
  sweep p = (b, p') →
  pool_calls p' = pool_calls p
  ∧ Forall2 swept (reap (pl_drivers p)) (pl_drivers p')
  ∧ Nat.min (live (reap (pl_drivers p))) (needed (pl_peak p) mc ps (min_instances rp))
    ≤ live (pl_drivers p').
Proof.
  intros Hc Hh E. destruct (history_ok c p Hh) as [Hp Hpol].
  split; [by apply (sweep_ok p b p')|]. destruct Hp as [Hw _ _].
  unfold within_limits, sweep in *. unfold limits, reclaim_policy in *. rewrite Hpol, Hc in *.
  destruct Hw as (Hd & _ & _). destruct (reap_spec mi mc _ Hd) as (R1 & _ & _).
  assert (Forall driver_ok (reap (pl_drivers p))) as Hok.
  { eapply Forall_impl; [exact R1|]. by intros d [? _]. }
  destruct (_ && _); injection E as <- <-; simpl.
  - split; [apply swept_refl|lia].
  - split; [by apply retire_idle_swept|].
    set (n := live _ - _). destruct (retire_idle_spec mi mc n _ R1) as (_ & _ & _ & I4).
    subst n. lia.
Qed.

(** Drivers that hold nothing. *)
Definition idle d : Prop := dr_in_flight d = 0.

Lemma reap_idle ds : Forall idle ds → Forall (λ d, idle d ∧ dr_retired d = false) (reap ds).
Proof.
  induction 1 as [|d ds Hd Hds IH]; [done|]. unfold reap in *. rewrite filter_cons.
  case_decide as Hs; [|done]. constructor; [|done]. split; [done|]. unfold spent in Hs.
  rewrite Hd in Hs. apply orb_false_iff in Hs as [_ Hs]. by rewrite andb_true_r in Hs.
Qed.

Lemma idle_total ds : Forall idle ds → in_flight_total ds = 0.
Proof.
  unfold in_flight_total. induction 1 as [|d ds Hd Hds IH]; [done|]. simpl. unfold idle in Hd. lia.
Qed.

Lemma live_all ds : Forall (λ d, idle d ∧ dr_retired d = false) ds → live ds = length ds.
Proof.
  induction 1 as [|d ds [_ Hd] Hds IH]; [done|]. unfold live in *.
  rewrite filter_cons_True by done. simpl. by rewrite IH.
Qed.

Lemma retire_idle_all n ds :
  Forall (λ d, idle d ∧ dr_retired d = false) ds →
  Forall idle (retire_idle n ds) ∧ length (reap (retire_idle n ds)) ≤ length ds - n.
Proof.
  intros Hds. revert n. induction Hds as [|d ds [Hd Hr] Hds IH]; intros n.
  { destruct n; simpl; split; done || lia. }
  destruct n as [|n]; cbn [retire_idle].
  - split; [constructor; [done|eapply Forall_impl; [exact Hds|by intros ? [? _]]]|].
    etransitivity; [apply length_filter|]. simpl. lia.
  - rewrite Hr, Hd. simpl. destruct (IH n) as [I1 I2]. split; [constructor; [|done]|].
    + unfold idle. simpl. exact Hd.
    + unfold reap in *. rewrite filter_cons_False; [simpl; lia|].
      unfold spent. simpl. rewrite Hd. rewrite orb_true_r. done.
Qed.

Lemma needed_none mc ps m : needed 0 mc ps m = m.
Proof. unfold needed, div_ceil. by rewrite Nat.Div0.div_0_l, Nat.Div0.mod_0_l. Qed.

(** One sweep of a pool that holds no call. *)
Lemma sweep_idle p ps mi mc rp b p' :
  pl_policy p = Warm ps mi mc (Some rp) → Forall idle (pl_drivers p) → sweep p = (b, p') →
  pl_policy p' = pl_policy p ∧ Forall idle (pl_drivers p') ∧ pl_peak p' = 0
  ∧ length (pl_drivers p') ≤ length (reap (pl_drivers p))
  ∧ (pl_peak p = 0 → length (reap (pl_drivers p')) ≤ min_instances rp)
  ∧ (length (reap (pl_drivers p)) ≤ min_instances rp → b = false ∧ pl_sweeping p' = false).
Proof.
  intros Hpol Hi E. unfold sweep, limits, reclaim_policy in E. rewrite Hpol in E.
  pose proof (reap_idle _ Hi) as Hr.
  assert (Forall idle (reap (pl_drivers p))) as Hri by (eapply Forall_impl; [exact Hr|by intros ? [? _]]).
  rewrite (idle_total _ Hri) in E. simpl in E.
  assert (forallb (λ d, negb (dr_retired d)) (reap (pl_drivers p)) = true) as Hf.
  { apply forallb_forall. intros d Hd. rewrite Forall_forall in Hr.
    destruct (Hr d) as [_ ->]; [by apply list_elem_of_In|done]. }
  rewrite Hf, andb_true_r in E.
  destruct (Nat.leb_spec (length (reap (pl_drivers p))) (min_instances rp)) as [Hle|Hgt];
    injection E as <- <-; simpl.
  - split_and!; try done. intros _. etransitivity; [apply length_filter|done].
  - set (n := live _ - _). destruct (retire_idle_all n _ Hr) as [I1 I2].
    split_and!; [done|done|done| | |lia].
    + by rewrite retire_idle_length.
    + intros Hz. rewrite <-(needed_none mc ps (min_instances rp)), <-Hz. subst n.
      rewrite (live_all _ Hr) in *. lia.
Qed.

(** an idle pool shrinks to its floor.  Three windows after its last call, whatever
    the peak was, a pool that gives instances back holds at most the floor, and its
    timer has stopped. *)
Theorem idle_pool_shrinks_to_its_floor c ps mi mc rp p :
  from_component c = Warm ps mi mc (Some rp) → rtc pool_step (new_pool (from_component c)) p →
  pool_calls p = [] →
  let '(b, p') := sweep (sweep (sweep p).2).2 in
  b = false ∧ pl_sweeping p' = false ∧ length (pl_drivers p') ≤ min_instances rp.
Proof.
  intros Hc Hh He. destruct (history_ok c p Hh) as [[Hw _ _] Hpol]. rewrite Hc in *.
  unfold within_limits, limits in Hw. rewrite Hpol in Hw. destruct Hw as (Hd & _ & _).
  assert (Forall idle (pl_drivers p)) as Hi.
  { unfold pool_calls in He. clear -Hd He. induction Hd as [|d ds ([H1 _ _ _ _ _ _] & _) Hds IH]; [done|].
    simpl in He. apply app_eq_nil in He as [He1 He2]. constructor; [|by apply IH].
    unfold idle. by rewrite H1, He1. }
  destruct (sweep p) as [b1 p1] eqn:E1.
  destruct (sweep_idle p _ _ _ _ b1 p1 Hpol Hi E1) as (P1 & I1 & Z1 & _). simpl.
  rewrite Hpol in P1. destruct (sweep p1) as [b2 p2] eqn:E2.
  destruct (sweep_idle p1 _ _ _ _ b2 p2 P1 I1 E2) as (P2 & I2 & _ & _ & M2 & _). simpl.
  rewrite P1 in P2. destruct (sweep p2) as [b3 p3] eqn:E3.
  destruct (sweep_idle p2 _ _ _ _ b3 p3 P2 I2 E3) as (_ & _ & _ & L3 & _ & D3).
  specialize (M2 Z1). destruct (D3 M2) as [-> ->]. split_and!; [done|done|lia].
Qed.

(** ** A concrete pool *)

(** Two instances of two calls each; an idle pool keeps one. *)
Definition demo : Component :=
  {| c_pool_size := 2; c_max_invocations := 8; c_max_concurrency := 2;
     c_reclaim_window_seconds := 30; c_reclaim_min_instances := 1 |}.
Definition demo_reclaim : ReclaimPolicy := {| window := 30; min_instances := 1 |}.
Definition exports : Accepts := {| acc_http := true; acc_messaging := false |}.
Definition call (n : nat) : Job := {| jb_id := n; jb_kind := Http |}.

Definition one_call : Pool := (dispatch_on_new (new_pool (from_component demo)) exports (call 1)).2.
(** The first instance is full and a second one is built. *)
Definition three_calls : Pool :=
  (dispatch_on_new (try_dispatch one_call (call 2)).2 exports (call 3)).2.

Lemma three_calls_history : rtc pool_step (new_pool (from_component demo)) three_calls.
Proof.
  eapply rtc_l; [eapply (ps_install _ exports (call 1)); vm_compute; reflexivity|].
  eapply rtc_l; [eapply (ps_dispatch _ (call 2)); vm_compute; reflexivity|].
  apply rtc_once. eapply (ps_install _ exports (call 3)). vm_compute. reflexivity.
Qed.

Lemma decoded_policy_is_sensible_witness :
  from_component demo = Warm 2 (Some 8) 2 (Some demo_reclaim) ∧ min_instances demo_reclaim < 2.
Proof.
  split; [reflexivity|].
  destruct (decoded_policy_is_sensible demo 2 (Some 8) 2 (Some demo_reclaim) eq_refl)
    as (_ & _ & _ & Hr).
  exact (proj2 (Hr demo_reclaim eq_refl)).
Defined.

Lemma pool_stays_within_its_limits_witness :
  length (pool_calls three_calls) = 3 ∧ length (pl_drivers three_calls) ≤ 2.
Proof.
  split; [vm_compute; reflexivity|].
  apply (pool_stays_within_its_limits demo 2 (Some 8) 2 (Some demo_reclaim) three_calls eq_refl
    three_calls_history).
Defined.

(** The fourth call fits, the fifth does not. *)
Lemma offered_call_is_placed_or_returned_witness :
  let '(r, p) := offer_or_install three_calls (call 4) (Some exports) in
  r = Some Taken ∧ pool_calls p ≡ₚ call 4 :: pool_calls three_calls.
Proof.
  destruct (offer_or_install three_calls (call 4) (Some exports)) as [r p] eqn:E.
  assert (r = Some Taken) as -> by (vm_compute in E; by injection E as <- _).
  split; [reflexivity|].
  exact (offered_call_is_placed_or_returned demo three_calls (call 4) (Some exports) (Some Taken) p
    three_calls_history E).
Defined.

Lemma sweep_ends_no_call_witness :
  let '(b, p) := sweep three_calls in b = true ∧ pool_calls p = pool_calls three_calls.
Proof.
  destruct (sweep three_calls) as [b p] eqn:E.
  assert (b = true) as -> by (vm_compute in E; by injection E as <- _).
  split; [reflexivity|].
  apply (sweep_ends_no_call demo 2 (Some 8) 2 demo_reclaim three_calls true p eq_refl
    three_calls_history E).
Defined.

Definition at_driver p (k : nat) (f : Driver → option Driver) : Pool :=
  match pl_drivers p !! k with
  | Some d => match f d with
              | Some d' => with_drivers p (<[k := d']> (pl_drivers p)) (pl_peak p)
              | None => p
              end
  | None => p
  end.

Lemma at_driver_steps p0 p k f :
  (∀ d d', f d = Some d' → driver_event d d') → rtc pool_step p0 p →
  rtc pool_step p0 (at_driver p k f).
Proof.
  intros Hf H0. etransitivity; [exact H0|]. unfold at_driver. destruct (pl_drivers p !! k) as [d|] eqn:E; [|done].
  destruct (f d) as [d'|] eqn:Ef; [|done]. apply rtc_once. by apply (ps_driver p k d d'); auto.
Qed.

(** Every call is taken up and ends. *)
Definition over_and_done : Pool :=
  let next p k := at_driver (at_driver p k loop_take) k (λ d, finish_call d 0 false) in
  next (next (next three_calls 0) 0) 1.

Lemma over_and_done_history : rtc pool_step (new_pool (from_component demo)) over_and_done.
Proof.
  unfold over_and_done. cbv zeta.
  repeat (apply at_driver_steps;
    [intros d d' E; first [exact (de_take d d' E)|exact (de_finish d 0 false d' E)]|]).
  apply three_calls_history.
Qed.

Lemma idle_pool_shrinks_to_its_floor_witness :
  length (pl_drivers over_and_done) = 2
  ∧ let '(b, p) := sweep (sweep (sweep over_and_done).2).2 in
    b = false ∧ pl_sweeping p = false ∧ length (pl_drivers p) ≤ 1.
Proof.
  split; [vm_compute; reflexivity|].
  apply (idle_pool_shrinks_to_its_floor demo 2 (Some 8) 2 demo_reclaim over_and_done eq_refl
    over_and_done_history).
  vm_compute. reflexivity.
Defined.
