(* ===== verification/DriverRace.v ===== *)
(** * The atomics of one driver, interleaved

    [InstancePool] takes each operation of a driver as one step.  The code does it
    with separate atomics: admission reads [retired], claims a slot, counts the
    invocation and sends; the end of a call decrements [in_flight] and then reads
    [retired]; [retire] stores [retired] and then reads [in_flight].  Here those
    accesses are steps of their own and any number of threads interleave.  A thread
    between two of its accesses is counted by where it stands.  The run loop's
    [select!] may take either branch that is ready.  A [retire] made while admitting
    is let run beside the rest of that admission, which allows more interleavings
    than the code has; the theorem about a dropped call uses only ones it has. *)

From Stdlib Require Import ZArith Lia.
From stdpp Require Import base list option relations.
From S2P Require Import Prelude InstancePool.

Record Atoms := {
  at_in_flight : nat;
  at_retired : bool;
  at_admitted : nat;
  at_notified : bool;              (** the permit [notify_one] stores *)
  at_gone : bool;
  at_queue : nat;                  (** calls in the channel *)
  at_running : nat;
  at_done : nat;                   (** calls that came to their end *)
  at_lost : nat;                   (** calls that ended with the run loop *)
  at_checked : nat;                (** admissions past the test of [retired] *)
  at_claimed : nat;                (** admissions that hold a slot *)
  at_sending : nat;                (** admissions about to use the channel *)
  at_retiring : nat;               (** [retire], between the store and the load *)
  at_ending : nat;                 (** the last guard, between the decrement and the load *)
  at_notifying : nat;              (** about to call [notify_one] *)
}.

Definition fresh : Atoms :=
  {| at_in_flight := 0; at_retired := false; at_admitted := 0; at_notified := false;
     at_gone := false; at_queue := 0; at_running := 0; at_done := 0; at_lost := 0;
     at_checked := 0; at_claimed := 0; at_sending := 0; at_retiring := 0; at_ending := 0;
     at_notifying := 0 |}.

Section race.
Variables (max_concurrency : nat) (max_invocations : option nat).

(** [try_update] on the in-flight counter: take a slot if there is one. *)
Definition claim (s : Atoms) : Atoms :=
  let free := at_in_flight s <? max_concurrency in
  {| at_in_flight := if free then S (at_in_flight s) else at_in_flight s;
     at_retired := at_retired s; at_admitted := at_admitted s; at_notified := at_notified s;
     at_gone := at_gone s; at_queue := at_queue s; at_running := at_running s;
     at_done := at_done s; at_lost := at_lost s; at_checked := at_checked s - 1;
     at_claimed := if free then S (at_claimed s) else at_claimed s; at_sending := at_sending s;
     at_retiring := at_retiring s; at_ending := at_ending s; at_notifying := at_notifying s |}.

(** The decrement of a guard's drop, and where its thread goes next. *)
Definition decrement (s : Atoms) : Atoms :=
  {| at_in_flight := at_in_flight s - 1; at_retired := at_retired s; at_admitted := at_admitted s;
     at_notified := at_notified s; at_gone := at_gone s; at_queue := at_queue s;
     at_running := at_running s; at_done := at_done s; at_lost := at_lost s;
     at_checked := at_checked s; at_claimed := at_claimed s; at_sending := at_sending s;
     at_retiring := at_retiring s;
     at_ending := if at_in_flight s =? 1 then S (at_ending s) else at_ending s;
     at_notifying := at_notifying s |}.

(** The store of [retire]. *)
Definition store_retired (s : Atoms) : Atoms :=
  {| at_in_flight := at_in_flight s; at_retired := true; at_admitted := at_admitted s;
     at_notified := at_notified s; at_gone := at_gone s; at_queue := at_queue s;
     at_running := at_running s; at_done := at_done s; at_lost := at_lost s;
     at_checked := at_checked s; at_claimed := at_claimed s; at_sending := at_sending s;
     at_retiring := S (at_retiring s); at_ending := at_ending s; at_notifying := at_notifying s |}.

Definition with_threads (s : Atoms) (admitted queue running done checked claimed sending retiring
    ending notifying : nat) (notified : bool) : Atoms :=
  {| at_in_flight := at_in_flight s; at_retired := at_retired s; at_admitted := admitted;
     at_notified := notified; at_gone := at_gone s; at_queue := queue; at_running := running;
     at_done := done; at_lost := at_lost s; at_checked := checked; at_claimed := claimed;
     at_sending := sending; at_retiring := retiring; at_ending := ending;
     at_notifying := notifying |}.

(** The budget of a claimed call: counted if there is no limit or room under it.  The
    last one retires the instance before it is sent. *)
Definition count_invocation (s : Atoms) : Atoms :=
  match max_invocations with
  | None =>
      with_threads s (at_admitted s) (at_queue s) (at_running s) (at_done s) (at_checked s)
        (at_claimed s - 1) (S (at_sending s)) (at_retiring s) (at_ending s) (at_notifying s)
        (at_notified s)
  | Some limit =>
      if at_admitted s <? limit then
        let s' := with_threads s (S (at_admitted s)) (at_queue s) (at_running s) (at_done s)
                    (at_checked s) (at_claimed s - 1) (S (at_sending s)) (at_retiring s)
                    (at_ending s) (at_notifying s) (at_notified s) in
        if limit <=? S (at_admitted s) then store_retired s' else s'
      else
        let s' := with_threads s (at_admitted s) (at_queue s) (at_running s) (at_done s)
                    (at_checked s) (at_claimed s - 1) (at_sending s) (at_retiring s) (at_ending s)
                    (at_notifying s) (at_notified s) in
        decrement (store_retired s')
  end.

(** The run loop is over: what is in the channel or running goes with it. *)
Definition end_loop (s : Atoms) : Atoms :=
  {| at_in_flight := at_in_flight s - at_queue s - at_running s; at_retired := at_retired s;
     at_admitted := at_admitted s; at_notified := false; at_gone := true; at_queue := 0;
     at_running := 0; at_done := at_done s; at_lost := at_lost s + at_queue s + at_running s;
     at_checked := at_checked s; at_claimed := at_claimed s; at_sending := at_sending s;
     at_retiring := at_retiring s; at_ending := at_ending s; at_notifying := at_notifying s |}.

Inductive race_step : Atoms → Atoms → Prop :=
  | rs_check s : at_retired s = false → at_gone s = false →
      race_step s (with_threads s (at_admitted s) (at_queue s) (at_running s) (at_done s)
        (S (at_checked s)) (at_claimed s) (at_sending s) (at_retiring s) (at_ending s)
        (at_notifying s) (at_notified s))
  | rs_claim s : 0 < at_checked s → race_step s (claim s)
  | rs_count s : 0 < at_claimed s → race_step s (count_invocation s)
  | rs_send s : 0 < at_sending s → at_gone s = false →
      race_step s (with_threads s (at_admitted s) (S (at_queue s)) (at_running s) (at_done s)
        (at_checked s) (at_claimed s) (at_sending s - 1) (at_retiring s) (at_ending s)
        (at_notifying s) (at_notified s))
  | rs_closed s : 0 < at_sending s → at_gone s = true →
      race_step s (decrement (with_threads s (at_admitted s) (at_queue s) (at_running s)
        (at_done s) (at_checked s) (at_claimed s) (at_sending s - 1) (at_retiring s) (at_ending s)
        (at_notifying s) (at_notified s)))
  | rs_take s q : at_gone s = false → at_queue s = S q →
      race_step s (with_threads s (at_admitted s) q (S (at_running s)) (at_done s) (at_checked s)
        (at_claimed s) (at_sending s) (at_retiring s) (at_ending s) (at_notifying s) (at_notified s))
  | rs_finish s r : at_gone s = false → at_running s = S r →
      race_step s (decrement (with_threads s (at_admitted s) (at_queue s) r (S (at_done s))
        (at_checked s) (at_claimed s) (at_sending s) (at_retiring s) (at_ending s)
        (at_notifying s) (at_notified s)))
  | rs_retire s : race_step s (store_retired s)
  | rs_retire_load s : 0 < at_retiring s →
      race_step s (with_threads s (at_admitted s) (at_queue s) (at_running s) (at_done s)
        (at_checked s) (at_claimed s) (at_sending s) (at_retiring s - 1) (at_ending s)
        (if at_in_flight s =? 0 then S (at_notifying s) else at_notifying s) (at_notified s))
  | rs_end_load s : 0 < at_ending s →
      race_step s (with_threads s (at_admitted s) (at_queue s) (at_running s) (at_done s)
        (at_checked s) (at_claimed s) (at_sending s) (at_retiring s) (at_ending s - 1)
        (if at_retired s then S (at_notifying s) else at_notifying s) (at_notified s))
  | rs_notify s : 0 < at_notifying s →
      race_step s (with_threads s (at_admitted s) (at_queue s) (at_running s) (at_done s)
        (at_checked s) (at_claimed s) (at_sending s) (at_retiring s) (at_ending s)
        (at_notifying s - 1) true)
  | rs_drained s : at_gone s = false → at_notified s = true → race_step s (end_loop s).

(** ** A drained instance is always told *)

Record race_ok (s : Atoms) : Prop := {
  rk_count : at_gone s = false →
    at_in_flight s = at_claimed s + at_sending s + at_queue s + at_running s;
  rk_gone : at_gone s = true →
    at_in_flight s = at_claimed s + at_sending s ∧ at_queue s = 0 ∧ at_running s = 0;
  rk_conc : at_in_flight s ≤ max_concurrency;
  rk_invoc : ∀ limit, max_invocations = Some limit → at_admitted s ≤ limit;
  rk_told : at_gone s = false → at_retired s = true → at_in_flight s = 0 →
    at_notified s = true ∨ 0 < at_retiring s + at_ending s + at_notifying s;
}.

Lemma decrement_ok s :
  at_in_flight s ≤ max_concurrency → 1 ≤ at_in_flight s →
  (∀ limit, max_invocations = Some limit → at_admitted s ≤ limit) →
  (at_gone s = false →
    at_in_flight s - 1 = at_claimed s + at_sending s + at_queue s + at_running s) →
  (at_gone s = true →
    at_in_flight s - 1 = at_claimed s + at_sending s ∧ at_queue s = 0 ∧ at_running s = 0) →
  race_ok (decrement s).
Proof.
  intros Hc H1 Hi Hn Hg. split; simpl; [done|done|lia|done|].
  intros _ _ H0. right. rewrite (proj2 (Nat.eqb_eq _ 1)) by lia. lia.
Qed.

(** Pick the count that holds in the state at hand. *)
Ltac race :=
  simpl; try done; intros;
  repeat match goal with
  | H : at_gone ?s = false → _, E : at_gone ?s = false |- _ => specialize (H E)
  | H : at_gone ?s = true → _, E : at_gone ?s = true |- _ => specialize (H E)
  | H : at_retired ?s = true → _, E : at_retired ?s = true |- _ => specialize (H E)
  | E1 : ?m = Some _, E2 : ?m = Some _ |- _ => rewrite E1 in E2; injection E2 as ->
  end;
  try congruence; try lia; try (left; done).

Lemma race_step_ok s s' : race_ok s → race_step s s' → race_ok s'.
Proof.
  intros [H1 H2 H3 H4 H5] Hst.
  destruct Hst as [s Hr Hg|s Hk|s Hk|s Hk Hg|s Hk Hg|s q Hg Hq|s r Hg Hr|s|s Hk|s Hk|s Hk|s Hg Hn].
  - split; simpl; done.
  - unfold claim. destruct (Nat.ltb_spec (at_in_flight s) max_concurrency); split; race.
  - unfold count_invocation. destruct max_invocations as [limit|] eqn:Em.
    + pose proof (H4 limit eq_refl). destruct (Nat.ltb_spec (at_admitted s) limit).
      * destruct (limit <=? S (at_admitted s)); split; race.
      * assert (1 ≤ at_in_flight s) by (destruct (at_gone s); race).
        apply decrement_ok; race.
    + split; race.
  - split; race.
  - apply decrement_ok; race.
  - split; race.
  - apply decrement_ok; race.
  - split; race.
  - split; race. rewrite (proj2 (Nat.eqb_eq _ 0)) by done. lia.
  - split; race. match goal with H : at_retired s = true |- _ => rewrite H end. lia.
  - split; race.
  - split; race.
Qed.

Lemma race_history s : rtc race_step fresh s → race_ok s.
Proof.
  assert (race_ok fresh) as H0 by (split; simpl; try done; intros; lia).
  intros Hh. revert H0. induction Hh; eauto using race_step_ok.
Qed.

(** however its threads interleave, a driver keeps both limits and never loses its
    last signal: once it is retired, nothing is in flight and no thread is between
    two of its accesses, the run loop has been told to end. *)
Theorem drained_driver_is_told s :
  rtc race_step fresh s →
  at_in_flight s ≤ max_concurrency
  ∧ (∀ limit, max_invocations = Some limit → at_admitted s ≤ limit)
  ∧ (at_gone s = false → at_retired s = true → at_in_flight s = 0 →
     at_retiring s = 0 → at_ending s = 0 → at_notifying s = 0 → at_notified s = true).
Proof.
  intros Hh. destruct (race_history s Hh) as [_ _ H3 H4 H5]. split_and!; [done|done|].
  intros Hg Hr H0 E1 E2 E3. destruct (H5 Hg Hr H0) as [?|?]; [done|lia].
Qed.

End race.

(** One after the other, the accesses of two calls; [rs] picks the step. *)
Ltac race_move rs :=
  eapply rtc_l; [eapply rs; try reflexivity; simpl; lia|cbn].

(** the last call of an instance can be dropped.  One call at a time, two calls in
    all: the first call ends and its guard has counted down to zero but has not read
    [retired] yet; the second call is admitted, and being the last it retires the
    instance; the first guard now reads [retired] and tells the run loop to end, and
    the loop ends with the second call in its channel. *)
Theorem last_call_can_be_dropped :
  ∃ s, rtc (race_step 1 (Some 2)) fresh s
    ∧ at_done s = 1 ∧ at_admitted s = 2 ∧ at_lost s = 1 ∧ at_gone s = true.
Proof.
  eexists. split.
  - race_move rs_check. race_move rs_claim. race_move rs_count. race_move rs_send.
    race_move rs_take. race_move rs_finish.
    race_move rs_check. race_move rs_claim. race_move rs_count. race_move rs_retire_load.
    race_move rs_end_load. race_move rs_notify. race_move rs_send. race_move rs_drained.
    apply rtc_refl.
  - by vm_compute.
Qed.

(** The instance is told after its only call when nothing comes in between. *)
Lemma drained_driver_is_told_witness :
  ∃ s, rtc (race_step 1 (Some 1)) fresh s ∧ at_done s = 1 ∧ at_notified s = true.
Proof.
  assert (∃ s, rtc (race_step 1 (Some 1)) fresh s ∧ at_done s = 1 ∧ at_gone s = false
    ∧ at_retired s = true ∧ at_in_flight s = 0 ∧ at_retiring s = 0 ∧ at_ending s = 0
    ∧ at_notifying s = 0) as (s & Hh & Hd & Hg & Hr & H0 & E1 & E2 & E3).
  { eexists. split.
    - race_move rs_check. race_move rs_claim. race_move rs_count. race_move rs_retire_load.
      race_move rs_send. race_move rs_take. race_move rs_finish. race_move rs_end_load.
      race_move rs_notify. apply rtc_refl.
    - by vm_compute. }
  exists s. split; [exact Hh|]. split; [exact Hd|].
  apply (drained_driver_is_told 1 (Some 1) s Hh); done.
Defined.
