(* ===== verification/Abandon.v ===== *)
(** * Calls nobody waits for

    [engine/abandon.rs]: the flag a dispatcher arms once it no longer wants a call's
    result, the calls registered with a store, the execution credited from the fires
    of the epoch callback, and the callback that decides whether the store's guest is
    ended.  Times are milliseconds, as [now_millis] gives them.  One store and the
    dispatchers of its calls are a world; a flag is the number of its call. *)

From Stdlib Require Import ZArith Lia.
From stdpp Require Import base list gmap option relations.
From S2P Require Import Prelude RustStr.
Local Open Scope Z_scope.

(** ** Flags *)

(** An [AbandonFlag] is when it was armed, or zero. *)
Implicit Types flag : Z.

Definition arm (now : Z) flag : Z := if flag =? 0 then now else flag.
Definition armed_at flag : option Z := if flag =? 0 then None else Some flag.

(** Whether [abandoned_for] has resolved, for a guest that lets it be polled. *)
Definition abandoned_for (grace now : Z) flag : bool :=
  match armed_at flag with Some at_ => grace <=? Z.max 0 (now - at_) | None => false end.

(** ** The calls of a store *)

Record CallSurvey := { watched_ : nat; armed : nat; any_past_grace : bool }.

Definition survey_one (grace now : Z) (s : CallSurvey) flag : CallSurvey :=
  match armed_at flag with
  | None => s
  | Some at_ => {| watched_ := watched_ s; armed := S (armed s);
                   any_past_grace := any_past_grace s || (grace <=? Z.max 0 (now - at_)) |}
  end.
Definition survey (grace now : Z) (l : list Z) : CallSurvey :=
  foldl (survey_one grace now) {| watched_ := length l; armed := 0; any_past_grace := false |} l.

Definition all_abandoned (s : CallSurvey) : bool :=
  bool_decide (0 < watched_ s)%nat && bool_decide (armed s = watched_ s).

(** ** Execution *)

Definition EPOCH_TICK : Z := 10.
Definition EPOCH_DEADLINE_TICKS : Z := 10.
Definition EXECUTION_WINDOW_MS : Z := EPOCH_TICK * EPOCH_DEADLINE_TICKS.

(** The timeouts of the process, in milliseconds. *)
Record Timeouts := {
  abandoned_call_grace : Z;
  abandoned_call_escalation : Z;
  abandoned_call_pause_threshold : Z;
}.
Definition default_timeouts : Timeouts :=
  {| abandoned_call_grace := 10000; abandoned_call_escalation := 60000;
     abandoned_call_pause_threshold := 3000 |}.

Record ExecutionCredit := { credited_millis : Z; last_fire : option Z }.
Definition no_credit : ExecutionCredit := {| credited_millis := 0; last_fire := None |}.
Definition reset (c : ExecutionCredit) : ExecutionCredit :=
  {| credited_millis := 0; last_fire := last_fire c |}.

Inductive AbandonedCallPolicy := Trap | WarnThenTrap.
#[global] Instance AbandonedCallPolicy_eq_dec : EqDecision AbandonedCallPolicy.
Proof. solve_decision. Defined.

Inductive UpdateDeadline := Yield | Interrupt.

(** What the callback keeps between fires, and the store's running total. *)
Record Callback := { credit : ExecutionCredit; warned : bool; millis : Z }.
Definition new_callback : Callback := {| credit := no_credit; warned := false; millis := 0 |}.

(** ** Dispatchers *)

(** Who holds the call's [AbandonOnDrop] or its [ArmTimer], and since the reply. *)
Inductive Dispatcher :=
  | Waiting (due : Z)        (** in [await_reply] or [await_head] *)
  | Streaming                (** the head was delivered, the guard is kept *)
  | Timed (due : Z)          (** a timer arms the flag *)
  | Satisfied                (** disarmed, or the timer dropped *)
  | GaveUp.
#[global] Instance Dispatcher_eq_dec : EqDecision Dispatcher.
Proof. solve_decision. Defined.

Inductive Run := Queued | Running | Ended.
#[global] Instance Run_eq_dec : EqDecision Run.
Proof. solve_decision. Defined.

Record Call := { flag_ : Z; dispatcher : Dispatcher; run : Run }.
Implicit Types c : Call.

(** A fire that was: when, and whether the store was then one to reclaim. *)
Record Fired := { fired_at : Z; reclaimable : bool }.

Record World := {
  clock : Z;
  calls : gmap nat Call;
  watched : list nat;            (** [AbandonedCalls] *)
  callback : Callback;
  ended : bool;                  (** the guest was interrupted *)
  history : list Fired;          (** newest first *)
}.
Implicit Types w : World.

Definition new_world : World :=
  {| clock := 1; calls := ∅; watched := []; callback := new_callback; ended := false; history := [] |}.

Definition with_calls w m : World :=
  {| clock := clock w; calls := m; watched := watched w; callback := callback w; ended := ended w;
     history := history w |}.
Definition with_watched w l : World :=
  {| clock := clock w; calls := calls w; watched := l; callback := callback w; ended := ended w;
     history := history w |}.

Definition set_dispatcher c d : Call := {| flag_ := flag_ c; dispatcher := d; run := run c |}.
Definition set_run c r : Call := {| flag_ := flag_ c; dispatcher := dispatcher c; run := r |}.
(** The guard or the timer arms the flag. *)
Definition abandon (now : Z) c : Call :=
  {| flag_ := arm now (flag_ c); dispatcher := GaveUp; run := run c |}.

Definition wanted c : Prop := run c = Running ∧ dispatcher c ≠ GaveUp.

(** Given up a grace ago, by the clock. *)
Definition long_given_up (grace now : Z) c : bool := bool_decide (dispatcher c = GaveUp) && (flag_ c + grace <=? now).
(** No call that runs is wanted, and one that is registered was given up a grace ago. *)
Definition to_reclaim (grace : Z) w : bool :=
  bool_decide (map_Forall (λ _ c, ¬ wanted c) (calls w))
  && existsb (λ f, is_some_and (calls w !! f) (long_given_up grace (clock w))) (watched w).

Definition flag_of w (f : nat) : Z := from_option flag_ 0 (calls w !! f).

(** ** The callback *)

Section store.
Variables (T : Timeouts) (policy : AbandonedCallPolicy).

Definition observe (now : Z) (c : ExecutionCredit) : (Z * Z) * ExecutionCredit :=
  let gap := from_option (λ last, Z.max 0 (now - last)) 0 (last_fire c) in
  if abandoned_call_pause_threshold T <? gap
  then ((0, 0), {| credited_millis := 0; last_fire := Some now |})
  else let executed := Z.min gap EXECUTION_WINDOW_MS in
       let credited := Z.min (credited_millis c + executed) u64_MAX in
       ((executed, credited), {| credited_millis := credited; last_fire := Some now |}).

Definition keep_running (b : Callback) : UpdateDeadline * Callback :=
  (Yield, {| credit := reset (credit b); warned := false; millis := millis b |}).

(** The closure given to [epoch_deadline_callback]. *)
Definition epoch_callback (now : Z) (host_is_gone : bool) (s : CallSurvey) (b : Callback) :
    UpdateDeadline * Callback :=
  let '((executed, executed_for), credit) := observe now (credit b) in
  let b := {| credit := credit; warned := warned b; millis := (millis b + executed) mod 2 ^ 64 |} in
  if host_is_gone then (Interrupt, b)
  else if negb (any_past_grace s) then keep_running b
  else if negb (all_abandoned s) then keep_running b
  else if executed_for <? abandoned_call_grace T then (Yield, b)
  else if bool_decide (policy = WarnThenTrap) && (executed_for <? abandoned_call_escalation T)
  then (Yield, {| credit := credit; warned := true; millis := millis b |})
  else (Interrupt, b).

Definition fire (host_is_gone : bool) w : World :=
  let s := survey (abandoned_call_grace T) (clock w) (flag_of w <$> watched w) in
  let '(action, b) := epoch_callback (clock w) host_is_gone s (callback w) in
  {| clock := clock w; calls := calls w; watched := watched w; callback := b;
     ended := match action with Interrupt => true | Yield => false end;
     history := {| fired_at := clock w; reclaimable := to_reclaim (abandoned_call_grace T) w |} :: history w |}.

(** ** Histories *)

Inductive Event :=
  | Dispatch (f : nat) (deadline : Z)   (** [DispatchedCall::new] *)
  | Serve (f : nat)                     (** the task on the store registers the flag *)
  | Reply (f : nat)                     (** [await_reply] returns the reply *)
  | Head (f : nat)                      (** [await_head] returns it, with the guard *)
  | Disarm (f : nat)
  | Timeout (f : nat)
  | DropDispatcher (f : nat)
  | ArmOnTimer (f : nat)
  | ArmAfter (f : nat) (deadline : Z)
  | TimerElapses (f : nat)
  | DropTimer (f : nat)
  | Deregister (f : nat)                (** [watch_until_abandoned] lets go of the guard *)
  | Finish (f : nat)                    (** the call ends, and its guard is dropped *)
  | Advance (d : Z)
  | Fire (host_is_gone : bool).

(** The guard's drop. *)
Definition drop_guard (f : nat) (l : list nat) : list nat := filter (λ g, g ≠ f) l.

Definition on_call w (f : nat) (k : Call → option World) : option World := calls w !! f ≫= k.
Definition put w (f : nat) c : World := with_calls w (<[f := c]> (calls w)).

Definition step w (e : Event) : option World :=
  match e with
  | Dispatch f deadline =>
      if is_some (calls w !! f) then None
      else Some (put w f {| flag_ := 0; dispatcher := Waiting (clock w + deadline); run := Queued |})
  | Serve f => on_call w f (λ c, if ended w then None else
      match run c with
      | Queued => Some (with_watched (put w f (set_run c Running)) (watched w ++ [f]))
      | _ => None end)
  | Reply f => on_call w f (λ c,
      match dispatcher c with Waiting _ => Some (put w f (set_dispatcher c Satisfied)) | _ => None end)
  | Head f => on_call w f (λ c,
      match dispatcher c with Waiting _ => Some (put w f (set_dispatcher c Streaming)) | _ => None end)
  | Disarm f => on_call w f (λ c,
      match dispatcher c with Streaming => Some (put w f (set_dispatcher c Satisfied)) | _ => None end)
  | Timeout f => on_call w f (λ c,
      match dispatcher c with
      | Waiting due => if due <=? clock w then Some (put w f (abandon (clock w) c)) else None
      | _ => None end)
  | DropDispatcher f => on_call w f (λ c,
      match dispatcher c with
      | Waiting _ | Streaming => Some (put w f (abandon (clock w) c))
      | _ => None end)
  | ArmOnTimer f => on_call w f (λ c,
      match dispatcher c with Waiting due => Some (put w f (set_dispatcher c (Timed due))) | _ => None end)
  | ArmAfter f deadline => on_call w f (λ c,
      match dispatcher c with
      | Satisfied => Some (put w f (set_dispatcher c (Timed (clock w + deadline))))
      | _ => None end)
  | TimerElapses f => on_call w f (λ c,
      match dispatcher c with
      | Timed due => if due <=? clock w then Some (put w f (abandon (clock w) c)) else None
      | _ => None end)
  | DropTimer f => on_call w f (λ c,
      match dispatcher c with Timed _ => Some (put w f (set_dispatcher c Satisfied)) | _ => None end)
  | Deregister f => on_call w f (λ c,
      match run c with
      | Running => if negb (ended w) && abandoned_for (abandoned_call_grace T) (clock w) (flag_ c)
                   then Some (with_watched w (drop_guard f (watched w))) else None
      | _ => None end)
  | Finish f => on_call w f (λ c,
      match run c with
      | Running => Some (with_watched (put w f (set_run c Ended)) (drop_guard f (watched w)))
      | _ => None end)
  | Advance d =>
      if (0 <=? d) && (clock w + d <=? u64_MAX)
      then Some {| clock := clock w + d; calls := calls w; watched := watched w; callback := callback w;
                   ended := ended w; history := history w |}
      else None
  | Fire gone => if ended w then None else Some (fire gone w)
  end.

Definition world_step w w' : Prop := ∃ e, step w e = Some w'.
(** The events of a list, those that cannot happen left out. *)
Definition steps w (es : list Event) : World := foldl (λ w e, default w (step w e)) w es.

(** ** The invariant *)

Definition call_ok (now : Z) c : Prop :=
  (flag_ c ≠ 0 ↔ dispatcher c = GaveUp) ∧ 0 ≤ flag_ c ≤ now.

(** Fires newest first, each after the one before it. *)
Fixpoint in_order (now : Z) (l : list Fired) : Prop :=
  match l with [] => True | x :: l => fired_at x ≤ now ∧ in_order (fired_at x) l end.
(** None of them [d] or more after the one before it. *)
Fixpoint never_paused (d : Z) (now : Z) (l : list Fired) : Prop :=
  match l with [] => True | x :: l => now - fired_at x ≤ d ∧ never_paused d (fired_at x) l end.

(** What the fires [l1] that followed [base] prove: each found the store one to reclaim,
    and the guest never paused for longer than [d]. *)
Definition stretch (d : Z) (l1 : list Fired) (base : Fired) : Prop :=
  Forall (λ x, reclaimable x = true) l1 ∧
  match l1 with [] => True | x :: _ => never_paused d (fired_at x) (tail l1 ++ [base])%list end.
Definition span (l1 : list Fired) (base : Fired) : Z :=
  from_option fired_at (fired_at base) (head l1) - fired_at base.

Definition credit_ok (credited : Z) (l : list Fired) : Prop :=
  credited = 0 ∨
  ∃ l1 base l0, l = (l1 ++ base :: l0)%list ∧ stretch (abandoned_call_pause_threshold T) l1 base ∧
    credited ≤ Z.of_nat (length l1) * EXECUTION_WINDOW_MS ∧ credited ≤ span l1 base.

Definition registered w : Prop :=
  NoDup (watched w) ∧
  (∀ f, f ∈ watched w → ∃ c, calls w !! f = Some c ∧ run c = Running) ∧
  ∀ f c, calls w !! f = Some c → run c = Running → f ∈ watched w ∨ flag_ c ≠ 0.

Record world_ok w : Prop := {
  ok_clock : 1 ≤ clock w ≤ u64_MAX;
  ok_calls : map_Forall (λ _ c, call_ok (clock w) c) (calls w);
  ok_registered : registered w;
  ok_order : in_order (clock w) (history w);
  ok_last : last_fire (credit (callback w)) = fired_at <$> head (history w);
  ok_positive : 0 ≤ credited_millis (credit (callback w));
  ok_credit : ended w = false → credit_ok (credited_millis (credit (callback w))) (history w);
}.

Lemma call_ok_later now now' c : now ≤ now' → call_ok now c → call_ok now' c.
Proof. unfold call_ok. intuition lia. Qed.

Lemma in_order_later now now' l : now ≤ now' → in_order now l → in_order now' l.
Proof. destruct l; simpl; [done|]. intuition lia. Qed.

Lemma abandon_ok now c : 1 ≤ now → call_ok now c → call_ok now (abandon now c).
Proof.
  intros Hn [Hf Hb]. unfold call_ok, abandon, arm. simpl. destruct (Z.eqb_spec (flag_ c) 0); split; try lia;
    split; try done; lia.
Qed.

Lemma set_dispatcher_ok now c d : d ≠ GaveUp → dispatcher c ≠ GaveUp → call_ok now c → call_ok now (set_dispatcher c d).
Proof. unfold call_ok, set_dispatcher. simpl. naive_solver. Qed.

Lemma new_calls_ok : world_ok new_world.
Proof.
  split; simpl; try done; [|by left].
  split; [constructor|]. split; [by intros f ?%not_elem_of_nil|]. intros f c. simpl. by rewrite lookup_empty.
Qed.

(** Changing a call that keeps running where it ran, and whose flag is not cleared. *)
Lemma put_ok w f c c' :
  world_ok w → calls w !! f = Some c → call_ok (clock w) c' → run c' = run c →
  (flag_ c ≠ 0 → flag_ c' ≠ 0) → world_ok (put w f c').
Proof.
  intros [Hk Hc (Hn & Hw & Hr) Ho Hl Hp Hcr] Ef Hok Er Hf. split; simpl; try done; [by apply map_Forall_insert_2|].
  split; [done|]. split; simpl.
  - intros g Hg. destruct (decide (g = f)) as [->|Hne]; [|rewrite lookup_insert_ne by done; auto].
    rewrite lookup_insert_eq. destruct (Hw f Hg) as (c'' & E & Hrun). simplify_eq. exists c'. by rewrite Er.
  - intros g d. destruct (decide (g = f)) as [->|Hne]; [|rewrite lookup_insert_ne by done; auto].
    rewrite lookup_insert_eq. intros [= <-] Hrun. rewrite Er in Hrun. destruct (Hr f c Ef Hrun); auto.
Qed.

Lemma dispatch_ok w f due : world_ok w → calls w !! f = None →
  world_ok (put w f {| flag_ := 0; dispatcher := Waiting due; run := Queued |}).
Proof.
  intros [Hk Hc (Hn & Hw & Hr) Ho Hl Hp Hcr] Ef. split; simpl; try done.
  { apply map_Forall_insert_2; [|done]. unfold call_ok. simpl. split; [naive_solver|lia]. }
  split; [done|]. split; simpl.
  - intros g Hg. rewrite lookup_insert_ne; [auto|]. intros ->. destruct (Hw g Hg) as (? & ? & _). congruence.
  - intros g d. destruct (decide (g = f)) as [->|Hne]; [|rewrite lookup_insert_ne by done; auto].
    rewrite lookup_insert_eq. by intros [= <-].
Qed.

Lemma serve_ok w f c : world_ok w → calls w !! f = Some c → run c = Queued →
  world_ok (with_watched (put w f (set_run c Running)) (watched w ++ [f])).
Proof.
  intros [Hk Hc (Hn & Hw & Hr) Ho Hl Hp Hcr] Ef Eq. split; simpl; try done.
  { apply map_Forall_insert_2; [|done]. apply (map_Forall_lookup_1 _ _ _ _ Hc Ef). }
  split; simpl; [|split].
  - apply NoDup_app. split; [done|]. split; [|apply NoDup_singleton].
    intros g Hg ->%list_elem_of_singleton. destruct (Hw _ Hg) as (? & ? & ?). congruence.
  - intros g. rewrite elem_of_app, list_elem_of_singleton. destruct (decide (g = f)) as [->|Hne].
    + intros _. rewrite lookup_insert_eq. eauto.
    + intros [Hg|]; [|done]. rewrite lookup_insert_ne by done. auto.
  - intros g d. rewrite elem_of_app, list_elem_of_singleton. destruct (decide (g = f)) as [->|Hne]; [auto|].
    rewrite lookup_insert_ne by done. intros Ed Hrun. destruct (Hr g d Ed Hrun); auto.
Qed.

Lemma drop_guard_elem f g l : g ∈ drop_guard f l ↔ g ≠ f ∧ g ∈ l.
Proof. unfold drop_guard. by rewrite list_elem_of_filter. Qed.

Lemma end_call_ok w f c : world_ok w → calls w !! f = Some c →
  world_ok (with_watched (put w f (set_run c Ended)) (drop_guard f (watched w))).
Proof.
  intros [Hk Hc (Hn & Hw & Hr) Ho Hl Hp Hcr] Ef. split; simpl; try done.
  { apply map_Forall_insert_2; [|done]. apply (map_Forall_lookup_1 _ _ _ _ Hc Ef). }
  split; simpl; [by apply NoDup_filter|]. split.
  - intros g [Hne Hg]%drop_guard_elem. rewrite lookup_insert_ne by done. auto.
  - intros g d. rewrite drop_guard_elem. destruct (decide (g = f)) as [->|Hne].
    + rewrite lookup_insert_eq. by intros [= <-].
    + rewrite lookup_insert_ne by done. intros Ed Hrun. destruct (Hr g d Ed Hrun); auto.
Qed.

Lemma deregister_ok w f c : world_ok w → calls w !! f = Some c →
  abandoned_for (abandoned_call_grace T) (clock w) (flag_ c) = true →
  world_ok (with_watched w (drop_guard f (watched w))).
Proof.
  intros [Hk Hc (Hn & Hw & Hr) Ho Hl Hp Hcr] Ef Ha. split; simpl; try done.
  split; simpl; [by apply NoDup_filter|]. split.
  - intros g [Hne Hg]%drop_guard_elem. auto.
  - intros g d Ed Hrun. rewrite drop_guard_elem. destruct (decide (g = f)) as [->|Hne].
    + right. unfold abandoned_for, armed_at in Ha. simplify_eq. by destruct (Z.eqb_spec (flag_ c) 0).
    + destruct (Hr g d Ed Hrun); auto.
Qed.

Lemma advance_ok w d : world_ok w → 0 ≤ d → clock w + d ≤ u64_MAX →
  world_ok {| clock := clock w + d; calls := calls w; watched := watched w; callback := callback w;
              ended := ended w; history := history w |}.
Proof.
  intros [Hk Hc (Hn & Hw & Hr) Ho Hl Hp Hcr] Hd Hb. split; simpl; try done; [lia| |by eapply in_order_later; [|done]; lia].
  eapply map_Forall_impl; [exact Hc|]. intros g c. simpl. apply call_ok_later. lia.
Qed.

(** ** The survey *)

Lemma survey_spec grace now l :
  let s := survey grace now l in
  watched_ s = length l ∧ (armed s = length l ↔ Forall (λ x, x ≠ 0) l) ∧
  (any_past_grace s = true ↔ ∃ x, x ∈ l ∧ x ≠ 0 ∧ grace ≤ Z.max 0 (now - x)).
Proof.
  simpl. unfold survey.
  assert (∀ l s, let r := foldl (survey_one grace now) s l in
    watched_ r = watched_ s ∧ (armed r ≤ armed s + length l)%nat ∧
    ((armed r = armed s + length l)%nat ↔ Forall (λ x, x ≠ 0) l) ∧
    (any_past_grace r = true ↔ any_past_grace s = true ∨ ∃ x, x ∈ l ∧ x ≠ 0 ∧ grace ≤ Z.max 0 (now - x))) as Hgen.
  { clear. intros l. induction l as [|x l IH]; intros s; simpl.
    { split_and!; [done|lia|split; [constructor|lia]|]. split; [auto|]. intros [?|(x & []%not_elem_of_nil & _)]; done. }
    destruct (IH (survey_one grace now s x)) as (Hw & Hle & Ha & Hp). rewrite Hw, Hp, Forall_cons.
    unfold survey_one, armed_at in *. setoid_rewrite elem_of_cons.
    destruct (Z.eqb_spec x 0) as [->|Hx]; simpl in *.
    - split_and!; [done|lia| |naive_solver]. split; [lia|]. naive_solver.
    - rewrite orb_true_iff, Z.leb_le. split_and!; [done|lia| |naive_solver].
      rewrite <-(and_iff_compat_l (x ≠ 0) Ha). lia. }
  destruct (Hgen l {| watched_ := length l; armed := 0; any_past_grace := false |}) as (Hw & _ & Ha & Hp). simpl in *.
  split_and!; [done|done|]. rewrite Hp. naive_solver.
Qed.

Lemma flags_of_watched w :
  world_ok w →
  Forall (λ x, x ≠ 0) (flag_of w <$> watched w) ↔ ∀ f, f ∈ watched w → ∃ c, calls w !! f = Some c ∧ dispatcher c = GaveUp.
Proof.
  intros Hok. rewrite Forall_fmap, Forall_forall. apply forall_proper. intros f.
  apply forall_proper. intros Hf. destruct (ok_registered _ Hok) as (_ & Hw & _).
  destruct (Hw f Hf) as (c & E & _). unfold compose, flag_of. rewrite E. simpl.
  destruct (map_Forall_lookup_1 _ _ _ _ (ok_calls _ Hok) E) as [Hf0 _]. rewrite Hf0. naive_solver.
Qed.

(** Every call that runs is registered, or was given up before it was let go. *)
Lemma all_abandoned_unwanted w f c :
  world_ok w → Forall (λ x, x ≠ 0) (flag_of w <$> watched w) → calls w !! f = Some c → ¬ wanted c.
Proof.
  intros Hok Hall E [Hrun Hd]. rewrite (flags_of_watched w Hok) in Hall. apply Hd.
  destruct (ok_registered _ Hok) as (_ & _ & Hr). destruct (Hr f c E Hrun) as [Hf|Hf].
  - destruct (Hall f Hf) as (c' & E' & Hg). by simplify_eq.
  - by apply (map_Forall_lookup_1 _ _ _ _ (ok_calls _ Hok) E).
Qed.

Lemma to_reclaim_spec grace w :
  to_reclaim grace w = true ↔
  (∀ f c, calls w !! f = Some c → ¬ wanted c) ∧
  ∃ f c, f ∈ watched w ∧ calls w !! f = Some c ∧ dispatcher c = GaveUp ∧ flag_ c + grace ≤ clock w.
Proof.
  unfold to_reclaim, long_given_up. rewrite andb_true_iff, bool_decide_eq_true, existsb_elem. unfold map_Forall.
  apply and_iff_compat_l. split.
  - intros (f & Hf & Hc). destruct (calls w !! f) as [c|] eqn:E; [|done]. simpl in Hc.
    rewrite andb_true_iff, bool_decide_eq_true, Z.leb_le in Hc. naive_solver.
  - intros (f & c & Hf & E & Hd & Hle). exists f. rewrite E. simpl.
    by rewrite andb_true_iff, bool_decide_eq_true, Z.leb_le.
Qed.

(** The survey finds what is to be reclaimed. *)
Lemma survey_reclaims w :
  world_ok w →
  let s := survey (abandoned_call_grace T) (clock w) (flag_of w <$> watched w) in
  any_past_grace s && all_abandoned s = true → to_reclaim (abandoned_call_grace T) w = true.
Proof.
  intros Hok s [Hp Ha]%andb_true_iff.
  destruct (survey_spec (abandoned_call_grace T) (clock w) (flag_of w <$> watched w)) as (Hw & Har & Hg).
  fold s in Hw, Har, Hg. apply andb_true_iff in Ha as [_ Ha%bool_decide_eq_true]. rewrite Hw, Har in Ha.
  apply to_reclaim_spec. split; [intros f c; by apply all_abandoned_unwanted|].
  destruct (proj1 Hg Hp) as (fl & (f & -> & Hf)%list_elem_of_fmap & Hnz & Hgr).
  destruct (proj1 (flags_of_watched w Hok) Ha f Hf) as (cl & Ef & Hd). unfold flag_of in *. rewrite Ef in *. simpl in *.
  destruct (map_Forall_lookup_1 _ _ _ _ (ok_calls _ Hok) Ef) as [_ Hb].
  exists f, cl. split_and!; [done..|lia].
Qed.

(** ** A fire *)

Lemma stretch_cons d x y l1 base :
  reclaimable x = true → (from_option fired_at (fired_at base) (head l1) = fired_at y) →
  fired_at x - fired_at y ≤ d → stretch d l1 base → stretch d (x :: l1) base.
Proof.
  intros Hu Hy Hd [Hall Hp]. split; [by constructor|]. simpl. destruct l1 as [|z l1]; simpl in *; subst.
  - split; [lia|done].
  - split; [lia|done].
Qed.

Lemma observe_ok w x executed credited (c : ExecutionCredit) :
  world_ok w → ended w = false → fired_at x = clock w →
  observe (clock w) (credit (callback w)) = ((executed, credited), c) →
  last_fire c = Some (clock w) ∧ credited_millis c = credited ∧ 0 ≤ credited ∧ 0 ≤ executed ∧
  (reclaimable x = true → credit_ok credited (x :: history w)).
Proof.
  intros Hok He Hx. unfold observe. rewrite (ok_last _ Hok).
  pose proof (ok_positive _ Hok) as Hp. pose proof (ok_order _ Hok) as Ho. pose proof (ok_credit _ Hok He) as Hc.
  set (gap := from_option _ 0 _). assert (0 ≤ gap) as Hg by (unfold gap; destruct (head (history w)); simpl; lia).
  destruct (Z.ltb_spec (abandoned_call_pause_threshold T) gap) as [Hlt|Hle].
  { intros [= <- <- <-]. simpl. split_and!; try done. intros _. by left. }
  intros [= <- <- <-]. unfold EXECUTION_WINDOW_MS, EPOCH_TICK, EPOCH_DEADLINE_TICKS in *. simpl.
  split_and!; try done; [unfold u64_MAX; lia..|]. intros Hu.
  destruct (history w) as [|y h]; [left; unfold gap in *; simpl in *; destruct Hc as [->|(l1 & b & l0 & E & _)];
    [unfold u64_MAX; lia|by destruct l1]|].
  simpl in Ho, gap. destruct Ho as [Hy Ho]. assert (gap = clock w - fired_at y) as Eg by (unfold gap; lia).
  right. destruct Hc as [Hz|(l1 & base & l0 & E & Hs & Hl & Hsp)].
  - exists [x], y, h. unfold EXECUTION_WINDOW_MS, span. simpl. split_and!; [done| |unfold EPOCH_TICK, EPOCH_DEADLINE_TICKS; lia|lia].
    apply (stretch_cons _ x y); [done|done|lia|]. split; constructor.
  - exists (x :: l1), base, l0. unfold EXECUTION_WINDOW_MS, EPOCH_TICK, EPOCH_DEADLINE_TICKS, span in *.
    assert (from_option fired_at (fired_at base) (head l1) = fired_at y) as Ey by (destruct l1; simpl in *; by simplify_eq).
    rewrite Ey in Hsp. split_and!; [by rewrite E|apply (stretch_cons _ x y); auto; lia| |].
    + simpl length. lia.
    + simpl. lia.
Qed.

Definition needed : Z :=
  match policy with
  | Trap => abandoned_call_grace T
  | WarnThenTrap => Z.max (abandoned_call_grace T) (abandoned_call_escalation T)
  end.

(** What the callback does, by whether the conditions on the calls hold. *)
Lemma epoch_callback_spec now gone s b executed credited (c : ExecutionCredit) :
  observe now (credit b) = ((executed, credited), c) →
  epoch_callback now gone s b =
  let b' := {| credit := c; warned := warned b; millis := (millis b + executed) mod 2 ^ 64 |} in
  if gone then (Interrupt, b')
  else if any_past_grace s && all_abandoned s then
    if needed <=? credited then (Interrupt, b')
    else (Yield, {| credit := c; warned := warned b || (abandoned_call_grace T <=? credited); millis := millis b' |})
  else keep_running b'.
Proof.
  intros E. unfold epoch_callback. rewrite E. simpl. destruct gone; [done|].
  destruct (any_past_grace s), (all_abandoned s); simpl; try done. unfold needed.
  destruct policy; simpl;
  repeat match goal with |- context [?a <? ?b] => destruct (Z.ltb_spec a b) | |- context [?a <=? ?b] => destruct (Z.leb_spec a b) end;
    try lia; rewrite ?orb_true_r, ?orb_false_r; done.
Qed.

Lemma fire_ok w gone : world_ok w → ended w = false → world_ok (fire gone w).
Proof.
  intros Hok He. unfold fire. set (s := survey _ _ _). set (x := {| fired_at := clock w; reclaimable := to_reclaim (abandoned_call_grace T) w |}).
  destruct (observe (clock w) (credit (callback w))) as [[executed credited] c] eqn:E.
  destruct (observe_ok w x _ _ _ Hok He eq_refl E) as (Hl & Hc & Hp & _ & Hcr).
  rewrite (epoch_callback_spec _ gone s _ _ _ _ E). simpl.
  destruct Hok as [Hk Hca Hreg Ho Hla Hpo Hcre] eqn:Eok.
  assert (any_past_grace s && all_abandoned s = true → credit_ok credited (x :: history w)) as Hheld.
  { intros Hs. apply Hcr. by apply survey_reclaims. }
  destruct gone; [split; simpl; by rewrite ?Hc|].
  destruct (any_past_grace s && all_abandoned s).
  - destruct (needed <=? credited); split; simpl; rewrite ?Hc; try done; try (split; [lia|done]); intros _; auto.
  - split; simpl; try done; try (split; [lia|done]). intros _. by left.
Qed.

(** A dispatcher that has not given up changes hands, or gives up. *)
Lemma change_ok w f c d :
  world_ok w → calls w !! f = Some c → dispatcher c ≠ GaveUp → d ≠ GaveUp → world_ok (put w f (set_dispatcher c d)).
Proof.
  intros Hok Ef Hc Hd. eapply put_ok; [done|done| |done|done]. apply set_dispatcher_ok; [done|done|].
  exact (map_Forall_lookup_1 _ _ _ _ (ok_calls _ Hok) Ef).
Qed.

Lemma abandon_step_ok w f c : world_ok w → calls w !! f = Some c → world_ok (put w f (abandon (clock w) c)).
Proof.
  intros Hok Ef. eapply put_ok; [done|done| |done|].
  - apply abandon_ok; [by apply ok_clock|]. exact (map_Forall_lookup_1 _ _ _ _ (ok_calls _ Hok) Ef).
  - unfold abandon, arm. simpl. by destruct (Z.eqb_spec (flag_ c) 0).
Qed.

Lemma step_ok w e w' : world_ok w → step w e = Some w' → world_ok w'.
Proof.
  intros Hok. destruct e; unfold step, on_call.
  1: { destruct (calls w !! f) eqn:Ef; [done|]. intros [= <-]. by apply dispatch_ok. }
  13: { destruct (Z.leb_spec 0 d), (Z.leb_spec (clock w + d) u64_MAX); simpl; try done. intros [= <-]. by apply advance_ok. }
  13: { destruct (ended w) eqn:Ee; [done|]. intros [= <-]. by apply fire_ok. }
  all: destruct (calls w !! f) as [c|] eqn:Ef; [|done]; simpl.
  all: try (destruct (dispatcher c) eqn:Ed; try done; try destruct (due <=? clock w); try done;
    intros [= <-]; (apply abandon_step_ok || apply change_ok); congruence || done).
  - destruct (ended w), (run c) eqn:Er; try done. intros [= <-]. by apply serve_ok.
  - destruct (run c); try done. destruct (negb (ended w)); [simpl|done].
    destruct (abandoned_for _ _ _) eqn:Ea; [|done]. intros [= <-]. by eapply deregister_ok.
  - destruct (run c); try done. intros [= <-]. by apply end_call_ok.
Qed.

Lemma calls_history_ok w : rtc world_step new_world w → world_ok w.
Proof. apply rtc_invariant; [apply new_calls_ok|]. intros a b [e He] Ha. by eapply step_ok. Qed.

(** C36: A store whose host is not gone is ended only when that ends nothing anybody waits
    for: no call that runs on it is wanted by its dispatcher, and one that is registered
    still was given up a grace ago.  And the guest has run through a grace's worth of
    execution (an escalation's, on a shared store) while that was so: there are fires up
    to this one, each of which found no running call wanted and a registered one given up
    a grace before it, none after a pause, enough windows of them and spread over as much
    time. *)
Theorem ended_store_serves_nobody w gone w' :
  rtc world_step new_world w → step w (Fire gone) = Some w' → ended w' = true →
  gone = true ∨
  (∀ f c, calls w !! f = Some c → ¬ wanted c) ∧
  (∃ f c, f ∈ watched w ∧ calls w !! f = Some c ∧ dispatcher c = GaveUp ∧
     flag_ c + abandoned_call_grace T ≤ clock w) ∧
  (needed ≤ 0 ∨ ∃ l1 base l0, history w' = (l1 ++ base :: l0)%list ∧
     stretch (abandoned_call_pause_threshold T) l1 base ∧
     needed ≤ Z.of_nat (length l1) * EXECUTION_WINDOW_MS ∧ needed ≤ span l1 base).
Proof.
  intros Hok%calls_history_ok. simpl. destruct (ended w) eqn:Ee; [done|]. intros [= <-]. unfold fire.
  set (s := survey _ _ _). set (x := {| fired_at := clock w; reclaimable := to_reclaim (abandoned_call_grace T) w |}).
  destruct (observe (clock w) (credit (callback w))) as [[executed credited] c] eqn:E.
  destruct (observe_ok w x _ _ _ Hok Ee eq_refl E) as (_ & _ & _ & _ & Hcr).
  rewrite (epoch_callback_spec _ gone s _ _ _ _ E). simpl. destruct gone; [by left|right].
  destruct (any_past_grace s && all_abandoned s) eqn:Hs; [|done]. apply (survey_reclaims w Hok) in Hs.
  destruct (Z.leb_spec needed credited) as [Hn|]; [|done]. intros. simpl.
  destruct (proj1 (to_reclaim_spec _ _) Hs) as [Hu Hg]. split_and!; [done|done|].
  destruct (Hcr Hs) as [->|(l1 & base & l0 & Eh & Hst & Hl & Hsp)]; [by left|right].
  exists l1, base, l0. split_and!; [done|done|lia..].
Qed.

(** ** A guest that never yields *)

(** Fires [d] apart, with nothing in between. *)
Definition pinned (ds : list Z) : list Event := ds ≫= λ d, [Advance d; Fire false].

(** What makes the callback want the store back. *)
Definition given_up w : Prop :=
  watched w ≠ [] ∧ (∀ f, f ∈ watched w → flag_of w f ≠ 0) ∧
  ∃ f, f ∈ watched w ∧ abandoned_call_grace T ≤ Z.max 0 (clock w - flag_of w f).

Lemma given_up_survey w :
  given_up w →
  let s := survey (abandoned_call_grace T) (clock w) (flag_of w <$> watched w) in
  any_past_grace s && all_abandoned s = true.
Proof.
  intros (Hne & Hall & f & Hf & Hg). simpl.
  destruct (survey_spec (abandoned_call_grace T) (clock w) (flag_of w <$> watched w)) as (Hw & Ha & Hp).
  rewrite (proj2 Hp) by (exists (flag_of w f); split_and!; [by apply list_elem_of_fmap_2|auto|done]).
  unfold all_abandoned. rewrite Hw, (proj2 Ha) by (apply Forall_fmap, Forall_forall; auto).
  rewrite !bool_decide_true; [done|done|]. rewrite length_fmap. destruct (watched w); [done|simpl; lia].
Qed.

(** Time does not change it. *)
Lemma given_up_advance w w1 d :
  given_up w → 0 ≤ d → calls w1 = calls w → watched w1 = watched w → clock w1 = clock w + d → given_up w1.
Proof.
  intros (H1 & H2 & f & Hf & Hg) Hd Ec Ew Ek. unfold given_up, flag_of in *. rewrite Ew, Ec, Ek.
  split_and!; [done|done|]. exists f. split; [done|lia].
Qed.

(** One round: the guest is ended, or the credit grows by a window, unless the round
    began the stretch. *)
Lemma pinned_round w d n :
  given_up w → ended w = false → EXECUTION_WINDOW_MS ≤ d ≤ abandoned_call_pause_threshold T →
  clock w + d ≤ u64_MAX → last_fire (credit (callback w)) = Some (clock w) →
  0 ≤ n → n ≤ credited_millis (credit (callback w)) → n + EXECUTION_WINDOW_MS ≤ u64_MAX →
  let w' := steps w (pinned [d]) in
  ended w' = true ∨
  given_up w' ∧ ended w' = false ∧ clock w' = clock w + d ∧ last_fire (credit (callback w')) = Some (clock w') ∧
  n + EXECUTION_WINDOW_MS ≤ credited_millis (credit (callback w')) < needed.
Proof.
  intros Hg He Hd Hc Hl Hn Hcr Hu. unfold steps, pinned. simpl.
  assert (0 ≤ d) as Hd0 by (unfold EXECUTION_WINDOW_MS, EPOCH_TICK, EPOCH_DEADLINE_TICKS in Hd; lia).
  rewrite (proj2 (Z.leb_le 0 d) Hd0), (proj2 (Z.leb_le _ _) Hc). simpl. rewrite He.
  set (w1 := {| clock := _ |}). assert (given_up w1) as Hg1 by (by apply (given_up_advance w w1 d)).
  unfold fire. set (s := survey _ _ _). assert (any_past_grace s && all_abandoned s = true) as Hs by (by apply given_up_survey).
  destruct (observe (clock w1) (credit (callback w1))) as [[e cr] c] eqn:E.
  rewrite (epoch_callback_spec _ false s _ _ _ _ E), Hs. unfold observe in E. simpl in E. rewrite Hl in E. simpl in E.
  rewrite (Z.max_r 0 (clock w + d - clock w)) in E by lia. replace (clock w + d - clock w) with d in E by lia.
  rewrite (proj2 (Z.ltb_ge _ _)) in E by lia. rewrite (Z.min_r d) in E by lia. injection E as <- <- <-.
  destruct (Z.leb_spec needed (Z.min (credited_millis (credit (callback w)) + EXECUTION_WINDOW_MS) u64_MAX)); simpl; [by left|right].
  split_and!; [done|done|done|done|lia|lia].
Qed.

Lemma steps_app w es es' : steps w (es ++ es') = steps (steps w es) es'.
Proof. apply foldl_app. Qed.

Lemma steps_pinned_ended w ds : ended w = true → ended (steps w (pinned ds)) = true.
Proof.
  revert w. induction ds as [|d ds IH]; intros w He; [done|].
  change (pinned (d :: ds)) with (pinned [d] ++ pinned ds)%list. rewrite steps_app. apply IH.
  unfold steps, pinned. simpl. destruct ((0 <=? d) && _); simpl; by rewrite ?He.
Qed.

Definition total (ds : list Z) : Z := foldr Z.add 0 ds.

Lemma total_nonneg ds :
  Forall (λ d, EXECUTION_WINDOW_MS ≤ d ≤ abandoned_call_pause_threshold T) ds → 0 ≤ total ds.
Proof.
  unfold total. induction 1 as [|x l Hx Hl IH]; simpl; [done|].
  unfold EXECUTION_WINDOW_MS, EPOCH_TICK, EPOCH_DEADLINE_TICKS in Hx. lia.
Qed.

Lemma pinned_rounds w ds n :
  given_up w → ended w = false → Forall (λ d, EXECUTION_WINDOW_MS ≤ d ≤ abandoned_call_pause_threshold T) ds →
  clock w + total ds ≤ u64_MAX → last_fire (credit (callback w)) = Some (clock w) →
  0 ≤ n → n ≤ credited_millis (credit (callback w)) < needed → n + total ds ≤ u64_MAX →
  needed ≤ n + Z.of_nat (length ds) * EXECUTION_WINDOW_MS →
  ended (steps w (pinned ds)) = true.
Proof.
  intros Hg He Hds. revert w n Hg He. induction Hds as [|d ds Hd Hds IH]; intros w n Hg He Hc Hl Hn Hcr Hu Hneed.
  { simpl in Hneed. lia. }
  pose proof (total_nonneg ds Hds) as Ht.
  simpl in Hc, Hu, Hneed. change (pinned (d :: ds)) with (pinned [d] ++ pinned ds)%list. rewrite steps_app.
  destruct (pinned_round w d n Hg He Hd) as [Hend|(Hg' & He' & Hc' & Hl' & Hcr')]; [lia|done|lia..| |].
  - by apply steps_pinned_ended.
  - apply (IH _ (n + EXECUTION_WINDOW_MS)); [done|done|rewrite Hc'; lia|done| |done|lia..].
    unfold EXECUTION_WINDOW_MS, EPOCH_TICK, EPOCH_DEADLINE_TICKS. lia.
Qed.

(** C37: A guest pinned in its own code is ended: from a state in which everybody gave up,
    one call a grace ago, fires at the pace of a guest that runs straight through, or
    slower but short of a pause, end it as soon as there are enough of them. *)
Theorem pinned_store_is_ended w d ds :
  rtc world_step new_world w → given_up w → ended w = false → 0 ≤ d →
  Forall (λ d, EXECUTION_WINDOW_MS ≤ d ≤ abandoned_call_pause_threshold T) ds →
  needed ≤ Z.of_nat (length ds) * EXECUTION_WINDOW_MS → clock w + d + total ds ≤ u64_MAX →
  ended (steps w (pinned (d :: ds))) = true.
Proof.
  intros Hok%calls_history_ok Hg He Hd Hds Hneed Hc.
  change (pinned (d :: ds)) with (pinned [d] ++ pinned ds)%list. rewrite steps_app.
  pose proof (total_nonneg ds Hds) as Ht.
  unfold steps at 2, pinned at 2. simpl. rewrite (proj2 (Z.leb_le 0 d) Hd), (proj2 (Z.leb_le _ _)) by lia. simpl.
  rewrite He. set (w1 := {| clock := _ |}).
  assert (given_up w1) as Hg1 by (by apply (given_up_advance w w1 d)).
  pose proof (advance_ok w d Hok Hd ltac:(lia)) as Hok1. rewrite He in Hok1. fold w1 in Hok1.
  simpl. unfold fire. set (s := survey _ _ _).
  assert (any_past_grace s && all_abandoned s = true) as Hs by (by apply given_up_survey).
  destruct (observe (clock w1) (credit (callback w1))) as [[e cr] c] eqn:E.
  destruct (observe_ok w1 {| fired_at := clock w1; reclaimable := false |} _ _ _ Hok1 eq_refl eq_refl E)
    as (Hlast & Hcred & Hpos & _ & _).
  rewrite (epoch_callback_spec _ false s _ _ _ _ E), Hs.
  destruct (Z.leb_spec needed cr); simpl; [by apply steps_pinned_ended|].
  apply (pinned_rounds _ ds 0); simpl; [exact Hg1|done|done|lia|done|done|lia|pose proof (ok_clock _ Hok); lia|lia].
Qed.

(** ** Metering *)

(** The time between the first fire and the last. *)
Definition elapsed (l : list Fired) : Z :=
  from_option fired_at 0 (head l) - from_option fired_at 0 (last l).
Definition metered w : Prop := 0 ≤ millis (callback w) ≤ elapsed (history w).

Lemma elapsed_cons x l : elapsed (x :: l) = fired_at x - fired_at (default x (head l)) + elapsed l.
Proof.
  unfold elapsed. rewrite last_cons. destruct l as [|y l]; simpl; [lia|]. rewrite last_cons.
  destruct (last l); simpl; lia.
Qed.

Lemma fire_metered w gone : world_ok w → metered w → metered (fire gone w).
Proof.
  intros Hok Hm. unfold fire. destruct (observe (clock w) (credit (callback w))) as [[e cr] c] eqn:E.
  set (x := {| fired_at := clock w; reclaimable := to_reclaim (abandoned_call_grace T) w |}).
  assert (0 ≤ (millis (callback w) + e) mod 2 ^ 64 ≤ elapsed (x :: history w)) as Hnew.
  { assert (0 ≤ e ≤ clock w - fired_at (default x (head (history w)))) as Hb.
    { unfold observe in E. rewrite (ok_last _ Hok) in E. pose proof (ok_order _ Hok) as Ho.
      unfold EXECUTION_WINDOW_MS, EPOCH_TICK, EPOCH_DEADLINE_TICKS in E.
      destruct (history w) as [|y l]; simpl in *; destruct (_ <? _); injection E as <- _ _; lia. }
    rewrite elapsed_cons. unfold metered in Hm. simpl fired_at at 1.
    pose proof (Z.mod_pos_bound (millis (callback w) + e) (2 ^ 64) ltac:(lia)).
    pose proof (Z.mod_le (millis (callback w) + e) (2 ^ 64) ltac:(lia) ltac:(lia)). lia. }
  rewrite (epoch_callback_spec _ gone _ _ _ _ _ E). simpl.
  destruct gone; [done|]. destruct (_ && _); [|done]. by destruct (_ <=? _).
Qed.

(** What is metered is a floor: never more than the time between the first fire of the
    callback and the last. *)
Theorem metered_execution_is_a_floor w : rtc world_step new_world w → metered w.
Proof.
  intros Hr. assert (world_ok w ∧ metered w) as [_ Hm]; [|done]. revert Hr.
  apply (rtc_invariant _ (λ w, world_ok w ∧ metered w)); [split; [apply new_calls_ok|done]|].
  intros a b [e He] [Ha Hm]. split; [by eapply step_ok|].
  destruct e; unfold step, on_call in He; try (destruct (calls a !! f) as [c|]; simpl in He); try done;
    repeat case_match; simplify_eq/=; try done. by apply fire_metered.
Qed.
End store.

(** ** Witnesses *)

Definition short_timeouts : Timeouts :=
  {| abandoned_call_grace := 300; abandoned_call_escalation := 600; abandoned_call_pause_threshold := 3000 |}.
Definition abandoning : list Event := [Dispatch 7 50; Serve 7; Advance 50; Timeout 7; Advance 300].

Lemma steps_rtc T policy w es : rtc (world_step T policy) w (steps T policy w es).
Proof.
  revert w. induction es as [|e es IH]; intros w; [constructor|]. simpl.
  destruct (step T policy w e) as [w'|] eqn:E; [|apply IH]. eapply rtc_l; [by exists e|apply IH].
Qed.

(** About to fire for the last time. *)
Definition spinning : World :=
  steps short_timeouts Trap new_world (abandoning ++ pinned [0; 100; 100] ++ [Advance 100]).

Lemma ended_store_serves_nobody_witness :
  false = true ∨
  ∃ f c, f ∈ watched spinning ∧ calls spinning !! f = Some c ∧ dispatcher c = GaveUp ∧ flag_ c + 300 ≤ clock spinning.
Proof.
  destruct (ended_store_serves_nobody short_timeouts Trap spinning false (fire short_timeouts Trap false spinning))
    as [Hg|(_ & Hc & _)].
  - apply steps_rtc.
  - vm_compute. reflexivity.
  - vm_compute. reflexivity.
  - by left.
  - by right.
Defined.

Lemma pinned_store_is_ended_witness :
  ended (steps short_timeouts WarnThenTrap new_world (abandoning ++ pinned [5; 100; 250; 100; 100; 100; 100])) = true.
Proof.
  rewrite steps_app. apply (pinned_store_is_ended short_timeouts WarnThenTrap _ 5 [100; 250; 100; 100; 100; 100]).
  - apply steps_rtc.
  - split_and!; [vm_compute; discriminate| |].
    + intros f. vm_compute. intros Hf. inversion Hf as [|? ? ? Hn]; subst; [discriminate|inversion Hn].
    + exists 7%nat. split; [constructor|vm_compute; discriminate].
  - vm_compute. reflexivity.
  - lia.
  - repeat constructor; vm_compute; discriminate.
  - vm_compute. discriminate.
  - vm_compute. discriminate.
Defined.

Lemma metered_execution_is_a_floor_witness :
  millis (callback (steps short_timeouts Trap new_world (pinned [0; 100; 2000; 50]))) = 250 ∧
  metered (steps short_timeouts Trap new_world (pinned [0; 100; 2000; 50])).
Proof. split; [vm_compute; reflexivity|]. apply (metered_execution_is_a_floor short_timeouts Trap). apply steps_rtc. Defined.
