(* ===== verification/Volumes.v ===== *)
(** * Host directories a workload may mount

    [engine/volumes.rs]: the paths a host reserves and the directories it allows, the
    check of a [hostPath] volume, where kernel filesystems are mounted, and the walk that
    opens a checked directory without following links.  What the filesystem answers
    ([canonicalize], the mount table, each directory opened) is a parameter; a check reads
    it at one instant. *)

From Stdlib Require Import ZArith Lia Ascii.
From stdpp Require Import base list gmap strings option.
From S2P Require Import Prelude RustStr HostMemory.
Local Open Scope string_scope.

(** ** Paths *)

(** [std::path::Component], but for the root, which a path has or has not. *)
Inductive Component := CurDir | ParentDir | Normal (s : string).
#[global] Instance Component_eq_dec : EqDecision Component.
Proof. solve_decision. Defined.

Record Path := { has_root : bool; parts : list Component }.
#[global] Instance Path_eq_dec : EqDecision Path.
Proof. solve_decision. Defined.
Implicit Types p q x : Path.

Definition component_of (s : string) : Component :=
  if bool_decide (s = "..") then ParentDir else Normal s.

(** [Path::components] of a text: empty pieces and [.] are skipped, but for a leading
    [.] of a relative path. *)
Definition path_of (s : string) : Path :=
  let root := starts_with "/" s in
  let pieces := split "/" s in
  let inner := component_of <$> filter (λ c, c ≠ "" ∧ c ≠ ".") pieces in
  {| has_root := root;
     parts := match pieces with "." :: _ => CurDir :: inner | _ => inner end |}.

Definition is_relative p : bool := negb (has_root p).

(** [Path::join] of a relative path: [.] is not kept inside. *)
Definition join_path p q : Path :=
  {| has_root := has_root p;
     parts := parts p ++ match parts q with CurDir :: l => if bool_decide (parts p = []) && negb (has_root p)
                                                      then parts q else l
                                    | l => l end |}.
Definition join_name p (n : string) : Path := {| has_root := has_root p; parts := parts p ++ [Normal n] |}.

(** [Path::starts_with]: whole components. *)
Fixpoint parts_prefix (l k : list Component) : bool :=
  match l, k with
  | [], _ => true
  | a :: l, b :: k => bool_decide (a = b) && parts_prefix l k
  | _, _ => false
  end.
Definition path_starts_with p q : bool := Bool.eqb (has_root p) (has_root q) && parts_prefix (parts q) (parts p).

(** ** The mount table *)

(** [u8::from_str_radix(.., 8)] of three bytes: a sign may stand first. *)
Definition octal_digit (c : ascii) : option Z :=
  let v := (Z.of_N (N_of_ascii c) - 48)%Z in if ((0 <=? v) && (v <=? 7))%Z then Some v else None.
Definition octal3 (a b c : ascii) : option ascii :=
  let high := if Ascii.eqb a "+" then Some 0%Z else octal_digit a in
  match high, octal_digit b, octal_digit c with
  | Some x, Some y, Some z =>
      let v := (64 * x + 8 * y + z)%Z in if (v <=? 255)%Z then Some (ascii_of_N (Z.to_N v)) else None
  | _, _, _ => None
  end.

(** [String::from_utf8_lossy]: what does not begin a character is replaced, up to the
    byte that shows it does not. *)
Definition byte_in (lo hi : Z) (c : ascii) : bool := let n := Z.of_N (N_of_ascii c) in ((lo <=? n) && (n <=? hi))%Z.
Definition continues : ascii → bool := byte_in 128 191.
Definition starts_three (a b : ascii) : bool :=
  byte_in 224 224 a && byte_in 160 191 b || (byte_in 225 236 a || byte_in 238 239 a) && continues b
  || byte_in 237 237 a && byte_in 128 159 b.
Definition starts_four (a b : ascii) : bool :=
  byte_in 240 240 a && byte_in 144 191 b || byte_in 241 243 a && continues b || byte_in 244 244 a && byte_in 128 143 b.
Definition REPLACEMENT : string := String "239" (String "191" (String "189" "")).

Fixpoint from_utf8_lossy (s : string) : string :=
  match s with
  | EmptyString => ""
  | String a s1 =>
      if byte_in 0 127 a then String a (from_utf8_lossy s1)
      else match s1 with
           | String b s2 =>
               if byte_in 194 223 a && continues b then String a (String b (from_utf8_lossy s2))
               else if starts_three a b || starts_four a b then
                 match s2 with
                 | String c s3 =>
                     if continues c then
                       if starts_three a b then String a (String b (String c (from_utf8_lossy s3)))
                       else match s3 with
                            | String d s4 =>
                                if continues d then String a (String b (String c (String d (from_utf8_lossy s4))))
                                else REPLACEMENT +:+ from_utf8_lossy s3
                            | EmptyString => REPLACEMENT
                            end
                     else REPLACEMENT +:+ from_utf8_lossy s2
                 | EmptyString => REPLACEMENT
                 end
               else REPLACEMENT +:+ from_utf8_lossy s1
           | EmptyString => REPLACEMENT
           end
  end.

Fixpoint unescape_bytes (s : string) : string :=
  match s with
  | String "\" (String a (String b (String c rest)) as tail) =>
      match octal3 a b c with
      | Some x => String x (unescape_bytes rest)
      | None => String "\" (unescape_bytes tail)
      end
  | String x tail => String x (unescape_bytes tail)
  | EmptyString => EmptyString
  end.
Definition unescape_mountinfo (field : string) : string := from_utf8_lossy (unescape_bytes field).

Definition KERNEL_FILESYSTEMS : list string :=
  ["proc"; "sysfs"; "devtmpfs"; "devpts"; "debugfs"; "tracefs"; "securityfs"; "cgroup"; "cgroup2"; "bpf";
   "configfs"; "efivarfs"; "pstore"; "binfmt_misc"; "mqueue"; "fusectl"].

Definition kernel_mount_point (line : string) : option Path :=
  '(fields, rest) ← split_once " - " line;
  mount_point ← split " " fields !! 4%nat;
  fs_type ← head (split " " rest);
  if bool_decide (fs_type ∈ KERNEL_FILESYSTEMS) then Some (path_of (unescape_mountinfo mount_point)) else None.
Definition kernel_mount_points (mountinfo : string) : list Path := omap kernel_mount_point (lines mountinfo).

Definition kernel_mounts (mountinfo : option string) : list Path :=
  (path_of <$> ["/proc"; "/sys"; "/dev"]) ++ match mountinfo with Some t => kernel_mount_points t | None => [] end.

(** ** The policy *)

(** [meters]: whether the host counts denials. *)
Record HostPathPolicy := { reserved : list Path; allowed : list Path; meters : bool }.

(** [ReservedHostPaths::new]: a sorted set, which is read by membership only. *)
Definition reserved_paths (cwd : Path) (l : list Path) : list Path :=
  remove_dups ((λ p, if is_relative p then join_path cwd p else p) <$> l).
Definition new_policy (cwd : Path) (reserved_ allowed_ : list Path) (scratch : option Path) (meters_ : bool) :
    HostPathPolicy :=
  {| reserved := reserved_paths cwd (reserved_ ++ option_list scratch);
     allowed := reserved_paths cwd allowed_; meters := meters_ |}.

Inductive Refused := CannotResolve | ExposesKernel (mount : Path) | ExposesReserved | OutsideAllowed | CannotOpen.

Section filesystem.
Variables (canonicalize : Path → option Path) (mountinfo : option string).

(** [resolve_existing]: the parts not walked back over yet, last first, and those that
    do not exist. *)
Fixpoint resolve_loop (path : Path) (back : list Component) (missing : list string) : Path :=
  match canonicalize {| has_root := has_root path; parts := rev back |} with
  | Some c => foldl join_name c missing
  | None => match back with Normal n :: back => resolve_loop path back (n :: missing) | _ => path end
  end.
Definition resolve_existing (path : Path) : Path := resolve_loop path (rev (parts path)) [].

Definition exposed (canonical r : Path) : bool := path_starts_with canonical r || path_starts_with r canonical.

Definition check_canonical (l : list Path) (canonical : Path) : result unit Refused :=
  match List.find (exposed canonical) (kernel_mounts mountinfo) with
  | Some k => Err (ExposesKernel k)
  | None => if existsb (λ r, exposed canonical r || exposed canonical (resolve_existing r)) l
            then Err ExposesReserved else Ok ()
  end.
Definition check_allowed (l : list Path) (canonical : Path) : result unit Refused :=
  if existsb (λ a, path_starts_with canonical (resolve_existing a)) l then Ok () else Err OutsideAllowed.

(** ** Opening *)

(** [open_dir_nofollow] of a name in a directory: none, for a link. *)
Context {Dir : Type} (open_root : option Dir) (open_dir_nofollow : Dir → string → option Dir).

Fixpoint open_parts (dir : Dir) (l : list Component) : option Dir :=
  match l with
  | [] => Some dir
  | Normal n :: l => open_dir_nofollow dir n ≫= λ d, open_parts d l
  | _ :: _ => None
  end.
Definition open_canonical_dir (path : Path) : option Dir := open_root ≫= λ d, open_parts d (parts path).

(** [HostPathPolicy::open]: the path and its directory, and whether a denial is
    counted. *)
Definition open_volume (pol : HostPathPolicy) (volume : Path) : result (Path * Dir) Refused * bool :=
  match canonicalize volume with
  | None => (Err CannotResolve, false)
  | Some canonical =>
      let checked := match check_canonical (reserved pol) canonical with
                     | Err e => Err e
                     | Ok _ => check_allowed (allowed pol) canonical
                     end in
      match checked with
      | Err e => (Err e, meters pol)
      | Ok _ => match open_canonical_dir canonical with
                | Some d => (Ok (canonical, d), false)
                | None => (Err CannotOpen, false)
                end
      end
  end.
End filesystem.

(** ** What lies below a path *)

Definition below x p : Prop := path_starts_with x p = true.

Lemma parts_prefix_spec l k : parts_prefix l k = true ↔ ∃ r, k = (l ++ r)%list.
Proof.
  revert k. induction l as [|a l IH]; intros k; simpl; [naive_solver|]. destruct k as [|b k]; [naive_solver|].
  rewrite andb_true_iff, bool_decide_eq_true, IH. naive_solver.
Qed.

Lemma below_spec x p : below x p ↔ has_root x = has_root p ∧ ∃ r, parts x = (parts p ++ r)%list.
Proof. unfold below, path_starts_with. by rewrite andb_true_iff, eqb_true_iff, parts_prefix_spec. Qed.

Lemma below_refl p : below p p.
Proof. apply below_spec. split; [done|]. exists []. by rewrite app_nil_r. Qed.

Lemma below_trans x p q : below x p → below p q → below x q.
Proof.
  rewrite !below_spec. intros [H1 [r E1]] [H2 [s E2]]. split; [congruence|]. exists (s ++ r)%list.
  by rewrite E1, E2, <-app_assoc.
Qed.

(** Two paths with something below both are one below the other. *)
Lemma below_comparable x p q : below x p → below x q → below p q ∨ below q p.
Proof.
  rewrite !below_spec. intros [H1 [r E1]] [H2 [s E2]]. rewrite E1 in E2. apply app_eq_inv in E2 as [(k & E & _)|(k & E & _)].
  - left. split; [congruence|eauto].
  - right. split; [congruence|eauto].
Qed.

Lemma exposed_iff canonical r : exposed canonical r = true ↔ ∃ x, below x canonical ∧ below x r.
Proof.
  unfold exposed. rewrite orb_true_iff. split.
  - intros [H|H]; [exists canonical|exists r]; eauto using below_refl.
  - intros (x & H1 & H2). by apply (below_comparable x).
Qed.

Section theorems.
Context (canonicalize : Path → option Path) (mountinfo : option string).
Context {Dir : Type} (open_root : option Dir) (open_dir_nofollow : Dir → string → option Dir).
Abbreviation resolved := (resolve_existing canonicalize).

(** Something of the volume is of the host's: in or around a kernel filesystem, or a
    reserved path as written or as it resolves. *)
Definition touches (pol : HostPathPolicy) x : Prop :=
  (∃ k, k ∈ kernel_mounts mountinfo ∧ below x k) ∨ ∃ r, r ∈ reserved pol ∧ (below x r ∨ below x (resolved r)).

Lemma check_canonical_iff pol canonical :
  check_canonical canonicalize mountinfo (reserved pol) canonical = Ok () ↔
  ∀ x, below x canonical → ¬ touches pol x.
Proof.
  unfold check_canonical. destruct (List.find (exposed canonical) (kernel_mounts mountinfo)) as [k|] eqn:Ek.
  - split; [done|]. intros Hall. exfalso. apply List.find_some in Ek as [Hin (x & H1 & H2)%exposed_iff].
    apply (Hall x H1). left. exists k. by rewrite list_elem_of_In.
  - destruct (existsb _ (reserved pol)) eqn:Er.
    + split; [done|]. intros Hall. exfalso. apply existsb_elem in Er as (r & Hr & [He|He]%orb_true_iff);
        apply exposed_iff in He as (x & H1 & H2); apply (Hall x H1); right; eauto.
    + split; [|done]. intros _ x Hx [(k & Hk & Hxk)|(r & Hr & Hxr)].
      * pose proof (List.find_none _ _ Ek k ltac:(by apply list_elem_of_In)) as Hn.
        assert (exposed canonical k = true) by (apply exposed_iff; eauto). congruence.
      * rewrite existsb_elem_false in Er. specialize (Er r Hr). apply orb_false_iff in Er as [E1 E2].
        destruct Hxr; [assert (exposed canonical r = true) by (apply exposed_iff; eauto)|
          assert (exposed canonical (resolved r) = true) by (apply exposed_iff; eauto)]; congruence.
Qed.

(** C40: A volume is opened exactly when it resolves, nothing below it is of the host's, all
    of it is within a directory the host allows, and the directory is there with no link
    on the way to it; and a denial is counted exactly when the policy refused one that
    resolves and the host has meters for it. *)
Theorem opened_volume_is_the_workloads pol volume :
  let '(r, counted) := open_volume canonicalize mountinfo open_root open_dir_nofollow pol volume in
  let clean canonical := (∀ x, below x canonical → ¬ touches pol x) ∧
    ∃ a, a ∈ allowed pol ∧ ∀ x, below x canonical → below x (resolved a) in
  (∀ canonical d, r = Ok (canonical, d) ↔
     canonicalize volume = Some canonical ∧ clean canonical ∧
     open_canonical_dir open_root open_dir_nofollow canonical = Some d) ∧
  (counted = true ↔ meters pol = true ∧ ∃ canonical, canonicalize volume = Some canonical ∧ ¬ clean canonical).
Proof.
  unfold open_volume. destruct (canonicalize volume) as [canonical|]; [|by naive_solver].
  pose proof (check_canonical_iff pol canonical) as Hc. unfold check_allowed.
  assert (existsb (λ a, path_starts_with canonical (resolved a)) (allowed pol) = true ↔
    ∃ a, a ∈ allowed pol ∧ ∀ x, below x canonical → below x (resolved a)) as Ha.
  { rewrite existsb_elem. split; intros (a & Hin & H); exists a; (split; [done|]).
    - intros x Hx. by eapply below_trans.
    - apply H, below_refl. }
  destruct (check_canonical _ _ _ _) as [[]|e]; cbv zeta.
  - pose proof (proj1 Hc eq_refl) as Hclean. destruct (existsb _ (allowed pol)).
    + pose proof (proj1 Ha eq_refl) as Hin. destruct (open_canonical_dir _ _ canonical) as [d|] eqn:Ed; simpl; split.
      * intros c' d'. split; [intros [= <- <-]; done|]. intros ([= <-] & _ & Ed'). congruence.
      * split; [done|]. intros (_ & c' & [= <-] & Hn). by destruct Hn.
      * intros c' d'. split; [done|]. intros ([= <-] & _ & Ed'). congruence.
      * split; [done|]. intros (_ & c' & [= <-] & Hn). by destruct Hn.
    + split; [intros; split; [done|]; intros ([= <-] & [_ H%Ha] & _); done|].
      split; [|by intros [? _]]. intros Hm. split; [done|]. exists canonical. split; [done|]. intros [_ H%Ha]. done.
  - split; [intros; split; [done|]; intros ([= <-] & [H%Hc _] & _); done|].
    split; [|by intros [? _]]. intros Hm. split; [done|]. exists canonical. split; [done|]. intros [H%Hc _]. done.
Qed.

Lemma resolve_loop_spec path back missing :
  (∃ c, resolve_loop canonicalize path back missing = foldl join_name c missing ∧
     canonicalize {| has_root := has_root path; parts := rev back |} = Some c) ∨
  canonicalize {| has_root := has_root path; parts := rev back |} = None ∧
  ((∃ n back', back = Normal n :: back' ∧
      resolve_loop canonicalize path back missing = resolve_loop canonicalize path back' (n :: missing)) ∨
   (∀ n back', back ≠ Normal n :: back') ∧ resolve_loop canonicalize path back missing = path).
Proof.
  destruct back as [|b back]; simpl.
  - destruct (canonicalize _) as [c|]; [left; eauto|right; split; [done|by right]].
  - destruct (canonicalize _) as [c|]; [left; eauto|right; split; [done|]].
    destruct b as [| |n]; [by right|by right|left; eauto].
Qed.

(** A path that does not exist yet is taken where its nearest ancestor that does
    resolves to, with the names that are missing behind it. *)
Theorem missing_path_follows_its_ancestor path l names c :
  parts path = (l ++ (Normal <$> names))%list →
  canonicalize {| has_root := has_root path; parts := l |} = Some c →
  (∀ k r, names = (k ++ r)%list → k ≠ [] →
     canonicalize {| has_root := has_root path; parts := l ++ (Normal <$> k) |} = None) →
  resolve_existing canonicalize path = foldl join_name c names.
Proof.
  intros Ep Ec Hnone. unfold resolve_existing. rewrite Ep.
  assert (∀ k r, names = (k ++ r)%list →
    resolve_loop canonicalize path (rev (l ++ (Normal <$> k))) r = foldl join_name c names) as Hloop.
  { intros k. induction k as [|n k IH] using rev_ind; intros r En; simpl in En.
    - subst r. simpl. rewrite app_nil_r. destruct (resolve_loop_spec path (rev l) names) as [(c' & -> & E')|[E' _]];
        rewrite rev_involutive in E'; congruence.
    - rewrite fmap_app, app_assoc, rev_app_distr.
      change (rev (Normal <$> [n]) ++ rev (l ++ (Normal <$> k)))%list with (Normal n :: rev (l ++ (Normal <$> k))).
      destruct (resolve_loop_spec path (Normal n :: rev (l ++ (Normal <$> k))) r) as [(c' & _ & E')|[_ [(m & b' & Eb & Er)|[Hn _]]]].
      + simpl in E'. rewrite rev_involutive, <-app_assoc in E'.
        specialize (Hnone (k ++ [n])%list r En ltac:(by destruct k)). rewrite fmap_app in Hnone. simpl in Hnone. congruence.
      + injection Eb as <- <-. rewrite Er. apply IH. by rewrite <-app_assoc in En.
      + by destruct (Hn n (rev (l ++ (Normal <$> k)))). }
  apply (Hloop names []). by rewrite app_nil_r.
Qed.
End theorems.

(** ** The mount table's escapes *)

(** What the kernel writes of a mount point. *)
Definition escape_char (c : ascii) : string :=
  if Ascii.eqb c " " then "\040" else if Ascii.eqb c "009" then "\011" else if Ascii.eqb c "010" then "\012"
  else if Ascii.eqb c "\" then "\134" else String c "".
Fixpoint escape_mountinfo (s : string) : string :=
  match s with EmptyString => "" | String c s => escape_char c +:+ escape_mountinfo s end.

Lemma unescape_other c s : c ≠ "\"%char → unescape_bytes (String c s) = String c (unescape_bytes s).
Proof. intros Hc. by destruct c as [[] [] [] [] [] [] [] []]. Qed.

Lemma unescape_octal a b c (v : ascii) s :
  octal3 a b c = Some v →
  unescape_bytes (String "\" (String a (String b (String c s)))) = String v (unescape_bytes s).
Proof.
  intros H. change (match octal3 a b c with Some v => String v (unescape_bytes s)
    | None => String "\" (unescape_bytes (String a (String b (String c s)))) end = String v (unescape_bytes s)).
  by rewrite H.
Qed.

Lemma unescape_escape s : unescape_bytes (escape_mountinfo s) = s.
Proof.
  induction s as [|c s IH]; [done|]. simpl. unfold escape_char.
  destruct (Ascii.eqb_spec c " ") as [->|]; [rewrite !str_app_cons, str_app_nil; by erewrite unescape_octal, IH|].
  destruct (Ascii.eqb_spec c "009") as [->|]; [rewrite !str_app_cons, str_app_nil; by erewrite unescape_octal, IH|].
  destruct (Ascii.eqb_spec c "010") as [->|]; [rewrite !str_app_cons, str_app_nil; by erewrite unescape_octal, IH|].
  destruct (Ascii.eqb_spec c "\") as [->|]; [rewrite !str_app_cons, str_app_nil; by erewrite unescape_octal, IH|].
  rewrite str_app_cons, str_app_nil, unescape_other by done. by rewrite IH.
Qed.

Lemma lossy_ascii s : forallb (byte_in 0 127) (String.list_ascii_of_string s) = true → from_utf8_lossy s = s.
Proof. induction s as [|c s IH]; [done|]. simpl. intros [-> Hs]%andb_true_iff. by rewrite IH. Qed.

(** A mount point is read back as it was before the kernel escaped it, but for bytes
    that are of no character. *)
Theorem mount_points_are_read_back s :
  unescape_mountinfo (escape_mountinfo s) = from_utf8_lossy s
  ∧ (forallb (byte_in 0 127) (String.list_ascii_of_string s) = true → unescape_mountinfo (escape_mountinfo s) = s).
Proof. unfold unescape_mountinfo. rewrite unescape_escape. split; [done|apply lossy_ascii]. Qed.

(** ** Witnesses *)

(** A filesystem in which [/run/secret] is a link to [/var/data]. *)
Definition linked (p : Path) : option Path :=
  if bool_decide (p = path_of "/run/secret") then Some (path_of "/var/data")
  else if bool_decide (p ∈ path_of <$> ["/"; "/run"; "/var"; "/var/data"; "/srv"; "/srv/app"]) then Some p else None.

Lemma missing_path_follows_its_ancestor_witness :
  resolve_existing linked (path_of "/run/secret/key") = path_of "/var/data/key".
Proof.
  apply (missing_path_follows_its_ancestor linked (path_of "/run/secret/key") [Normal "run"; Normal "secret"] ["key"]
    (path_of "/var/data")).
  - vm_compute. reflexivity.
  - vm_compute. reflexivity.
  - intros [|a [|b k]] r E Hk; [done| |by destruct k]. injection E as <- <-. vm_compute. reflexivity.
Defined.

(** The volume below the link's target is refused, and one beside it is not. *)
Example reserved_through_a_link :
  let pol := new_policy (path_of "/") [path_of "/run/secret/key"] [path_of "/"] None true in
  let open_ := open_volume linked None (Some ()) (λ _ _, Some ()) pol in
  (open_ (path_of "/var/data"), open_ (path_of "/srv/app")) =
  ((Err ExposesReserved, true), (Ok (path_of "/srv/app", ()), false)).
Proof. vm_compute. reflexivity. Qed.

(** Without meters nothing is counted. *)
Example uncounted_denial :
  open_volume linked None (Some ()) (λ _ _, Some ()) (new_policy (path_of "/") [] [] None false) (path_of "/srv/app") =
  (Err OutsideAllowed, false).
Proof. vm_compute. reflexivity. Qed.

(** A stray escape becomes one replacement; what is a character stays. *)
Example lossy_mount_point :
  unescape_mountinfo "/a\377b" = "/a" +:+ REPLACEMENT +:+ "b" ∧ unescape_mountinfo "/a\040b" = "/a b"
  ∧ unescape_mountinfo "/\303\251" = String "/" (String "195" (String "169" "")).
Proof. vm_compute. done. Qed.
