(* ===== verification/StoreLib.v ===== *)
(** * What the storage plugins share

    The parts of the language and its library that [plugin/wasi_keyvalue] and
    [plugin/wasi_blobstore] use: fixed-width integers as little-endian bytes,
    counters read from text, sorted listings and the pages they are handed out
    in, and a guest's table of resources. *)

From Stdlib Require Import ZArith Lia Ascii.
From stdpp Require Import base list gmap strings option sorting.
From S2P Require Import Prelude RustStr.

Local Open Scope Z_scope.

(** ** Integers as bytes: [to_le_bytes] and [from_le_bytes] *)

Fixpoint le_bytes (n : nat) (z : Z) : list Z :=
  match n with O => [] | S n => z mod 256 :: le_bytes n (z / 256) end.

Fixpoint from_le (l : list Z) : Z :=
  match l with [] => 0 | b :: l => b + 256 * from_le l end.

(** The two's complement reading of 64 bits, and back. *)
Definition i64_MAX : Z := 9223372036854775807.
Definition i64_MIN : Z := -9223372036854775808.
Definition u64_of_i64 (z : Z) : Z := z mod 2 ^ 64.
Definition i64_of_u64 (z : Z) : Z := if i64_MAX <? z then z - 2 ^ 64 else z.

Definition is_byte (b : Z) : Prop := 0 ≤ b < 256.

Lemma le_bytes_length n z : length (le_bytes n z) = n.
Proof. revert z. induction n as [|n IH]; intros z; [done|]. simpl. by rewrite IH. Qed.

Lemma le_bytes_are_bytes n z : Forall is_byte (le_bytes n z).
Proof.
  revert z. induction n as [|n IH]; intros z; constructor; [|apply IH].
  apply Z.mod_pos_bound. lia.
Qed.

Lemma from_le_le_bytes n z : from_le (le_bytes n z) = z mod 256 ^ Z.of_nat n.
Proof.
  revert z. induction n as [|n IH]; intros z; [by rewrite Z.mod_1_r|].
  cbn [le_bytes from_le]. rewrite IH, Nat2Z.inj_succ, Z.pow_succ_r by lia.
  rewrite Z.rem_mul_r by lia. lia.
Qed.

Lemma u64_roundtrip z : 0 ≤ z ≤ u64_MAX → from_le (le_bytes 8 z) = z.
Proof. intros Hz. rewrite from_le_le_bytes. apply Z.mod_small. unfold u64_MAX in Hz. simpl. lia. Qed.

Lemma i64_roundtrip z :
  i64_MIN ≤ z ≤ i64_MAX → i64_of_u64 (from_le (le_bytes 8 (u64_of_i64 z))) = z.
Proof.
  intros Hz. unfold i64_MIN, i64_MAX in Hz.
  assert (0 ≤ u64_of_i64 z < 2 ^ 64) by (apply Z.mod_pos_bound; lia).
  rewrite u64_roundtrip by (unfold u64_MAX; lia). unfold i64_of_u64, i64_MAX.
  unfold u64_of_i64 in *. destruct (Z.ltb_spec 9223372036854775807 (z mod 2 ^ 64)).
  - assert (z < 0) by (destruct (Z.lt_ge_cases z 0); [done|rewrite Z.mod_small in *; lia]).
    rewrite <-(Z_mod_plus_full z 1), Z.mod_small; lia.
  - assert (0 ≤ z).
    { destruct (Z.lt_ge_cases z 0); [|done].
      rewrite <-(Z_mod_plus_full z 1), Z.mod_small in *; lia. }
    rewrite Z.mod_small; lia.
Qed.

(** ** Numbers as text

    [String::from_utf8_lossy] keeps ASCII bytes and turns the rest into other
    characters, none of which a number contains; so parsing the lossy text is
    parsing the bytes. *)
Definition text_of (l : list Z) : string :=
  foldr (λ b s, String (Ascii.ascii_of_N (Z.to_N b)) s) EmptyString l.

(** [str::parse::<i64>]. *)
Definition parse_i64 (s : string) : option Z :=
  match s with
  | EmptyString => None
  | String c r =>
      if Ascii.eqb c "-" then
        match r with EmptyString => None | _ => Z.opp <$> parse_digits (- i64_MIN) 0 r end
      else parse_uint i64_MAX s
  end.

(** ** Sorted listings *)

Definition ord_le `{RustOrd A} (x y : A) : Prop := ord_leb x y = true.
#[global] Instance ord_le_dec `{RustOrd A} : RelDecision (@ord_le A _).
Proof. intros x y. apply bool_eq_dec. Defined.
#[global] Instance ord_le_trans `{RustOrd A} : Transitive (@ord_le A _).
Proof. intros x y z. apply ord_leb_trans. Qed.
#[global] Instance ord_le_total `{RustOrd A} : Total (@ord_le A _).
Proof. intros x y. unfold ord_le. destruct (ord_leb x y) eqn:E; [by left|right]. by apply ord_leb_total. Qed.
#[global] Instance ord_le_antisym `{RustOrd A} : AntiSymm (=) (@ord_le A _).
Proof. intros x y. apply ord_leb_antisym. Qed.

(** [keys().cloned().collect()] and then [sort()]: whatever order the hash map
    gives its keys in, the result is the sorted list of them. *)
Definition sorted_keys {V} (m : gmap string V) : list string :=
  merge_sort ord_le (elements (dom m)).

Lemma sorted_keys_elem {V} (m : gmap string V) k : k ∈ sorted_keys m ↔ is_Some (m !! k).
Proof.
  unfold sorted_keys. rewrite (merge_sort_Permutation ord_le), elem_of_elements, elem_of_dom. done.
Qed.

Lemma sorted_keys_NoDup {V} (m : gmap string V) : NoDup (sorted_keys m).
Proof. unfold sorted_keys. rewrite (merge_sort_Permutation ord_le). apply NoDup_elements. Qed.

Lemma sorted_keys_sorted {V} (m : gmap string V) : StronglySorted ord_le (sorted_keys m).
Proof. apply (StronglySorted_merge_sort ord_le). Qed.

Lemma sorted_keys_length {V} (m : gmap string V) : length (sorted_keys m) = size m.
Proof.
  unfold sorted_keys. rewrite (merge_sort_Permutation ord_le), <-size_dom. done.
Qed.

(** The sorted list does not depend on the order the map was walked in. *)
Lemma sorted_keys_unique {V} (m : gmap string V) (l : list string) :
  l ≡ₚ elements (dom m) → merge_sort ord_le l = sorted_keys m.
Proof.
  intros Hl. apply (StronglySorted_unique ord_le);
    [apply (StronglySorted_merge_sort ord_le)|apply sorted_keys_sorted|].
  unfold sorted_keys. by rewrite !(merge_sort_Permutation ord_le).
Qed.

(** ** Pages

    [usize] arithmetic wraps in a release build. *)
Definition usize_add (a b : Z) : Z := (a + b) mod 2 ^ 64.

(** [slice.get(a..b).unwrap_or_default()]. *)
Definition slice {A} (l : list A) (a b : Z) : list A :=
  if (a <=? b) && (b <=? Z.of_nat (length l))
  then take (Z.to_nat (b - a)) (drop (Z.to_nat a) l) else [].

(** One page of [size] items from [cursor], and the cursor of the next. *)
Definition page (size : Z) (keys : list string) (cursor : option Z) : list string * option Z :=
  let start := default 0 cursor in
  let end_ := Z.min (usize_add start size) (Z.of_nat (length keys)) in
  (slice keys start end_, if end_ <? Z.of_nat (length keys) then Some end_ else None).

(** A client asks for page after page until there is no next cursor. *)
Fixpoint follow (next : option Z → list string * option Z) (n : nat) (cursor : option Z) :
    option (list string) :=
  match n with
  | O => None
  | S n =>
      match next cursor with
      | (keys, None) => Some keys
      | (keys, Some c) => rest ← follow next n (Some c); Some (keys ++ rest)
      end
  end.

Lemma follow_ext f g n c : (∀ c, f c = g c) → follow f n c = follow g n c.
Proof.
  intros Hfg. revert c. induction n as [|n IH]; intros c; [done|]. cbn [follow]. rewrite (Hfg c).
  destruct (g c) as [keys [c'|]]; [|done]. by rewrite IH.
Qed.

Lemma slice_spec {A} (l : list A) a b :
  0 ≤ a ≤ b → b ≤ Z.of_nat (length l) →
  slice l a b = take (Z.to_nat (b - a)) (drop (Z.to_nat a) l).
Proof.
  intros Ha Hb. unfold slice.
  by rewrite (proj2 (Z.leb_le a b)), (proj2 (Z.leb_le b _)) by lia.
Qed.

Lemma slice_all {A} (l : list A) : slice l 0 (Z.of_nat (length l)) = l.
Proof. rewrite slice_spec by lia. rewrite Z.sub_0_r, Nat2Z.id. simpl. by rewrite firstn_all. Qed.

Lemma slice_length {A} (l : list A) a b :
  0 ≤ a → Z.of_nat (length (slice l a b)) ≤ Z.max 0 (b - a).
Proof.
  intros Ha. unfold slice. destruct (_ && _); [|simpl; lia].
  rewrite length_take, length_drop. lia.
Qed.

(** From any cursor within the listing, following the cursors gives the rest. *)
Lemma follow_pages_from size keys n c :
  0 < size ≤ 2 ^ 32 → Z.of_nat (length keys) ≤ 2 ^ 63 → 0 ≤ default 0 c ≤ Z.of_nat (length keys) →
  Z.of_nat (length keys) - default 0 c < Z.of_nat n * size →
  follow (page size keys) n c = Some (drop (Z.to_nat (default 0 c)) keys).
Proof.
  intros Hs Hl. revert c. induction n as [|n IH]; intros c Hc Hn; [lia|].
  cbn [follow]. unfold page at 1. set (start := default 0 c) in *.
  assert (usize_add start size = start + size) as -> by (apply Z.mod_small; lia).
  destruct (Z.ltb_spec (Z.min (start + size) (Z.of_nat (length keys))) (Z.of_nat (length keys)))
    as [Hlt|Hge].
  - rewrite Z.min_l in * by lia. rewrite slice_spec by lia.
    rewrite IH by (simpl; nia). simpl. f_equal.
    replace (Z.to_nat (start + size)) with (Z.to_nat start + Z.to_nat (start + size - start))%nat by lia.
    rewrite <-(drop_drop keys). apply take_drop.
  - rewrite Z.min_r in * by lia. rewrite slice_spec by lia. f_equal.
    apply take_ge. rewrite length_drop. lia.
Qed.

Lemma follow_pages size keys :
  0 < size ≤ 2 ^ 32 → Z.of_nat (length keys) ≤ 2 ^ 63 →
  follow (page size keys) (S (Z.to_nat (Z.of_nat (length keys) / size))) None = Some keys.
Proof.
  intros Hs Hl. rewrite follow_pages_from; [done|done|done|simpl; lia|]. simpl.
  rewrite Nat2Z.inj_succ, Z2Nat.id by (apply Z.div_pos; lia).
  pose proof (Z.mul_succ_div_gt (Z.of_nat (length keys)) size). lia.
Qed.

(** A page is never longer than its size, and its cursor lies further on. *)
Lemma page_bounds size keys cursor :
  0 < size ≤ 2 ^ 32 → Z.of_nat (length keys) ≤ 2 ^ 63 → 0 ≤ default 0 cursor ≤ Z.of_nat (length keys) →
  Z.of_nat (length (page size keys cursor).1) ≤ size
  ∧ ∀ c, (page size keys cursor).2 = Some c → default 0 cursor < c < Z.of_nat (length keys).
Proof.
  intros Hs Hl Hc. unfold page. set (start := default 0 cursor) in *.
  assert (usize_add start size = start + size) as -> by (apply Z.mod_small; lia). split.
  - cbn [fst]. pose proof (slice_length keys start (Z.min (start + size) (Z.of_nat (length keys)))). lia.
  - cbn [snd]. intros c. case_goal; [|done]. intros [= <-]. bools. lia.
Qed.

(** ** Storage by workload

    Both in-memory plugins keep a map of workloads to what is stored for each. *)

Section by_workload.
Context {V : Type}.
Implicit Types st : gmap string (gmap string V).

(** [storage.get(..).unwrap_or(&empty_map)]. *)
Definition workload_storage st (w : string) : gmap string V := default ∅ (st !! w).

(** What [get_mut(..).unwrap_or(&mut scratch)] was turned into: a workload that is
    not bound wrote to a scratch map, which is dropped. *)
Definition write_back st (w : string) (ws : gmap string V) : gmap string (gmap string V) :=
  match st !! w with Some _ => <[w := ws]> st | None => st end.

Lemma write_back_other st w ws w' : w ≠ w' → write_back st w ws !! w' = st !! w'.
Proof. intros Hw. unfold write_back. destruct (st !! w); [|done]. by apply lookup_insert_ne. Qed.

Lemma write_back_dom st w ws : dom (write_back st w ws) = dom st.
Proof.
  unfold write_back. destruct (st !! w) eqn:E; [|done].
  rewrite dom_insert_L. apply elem_of_dom_2 in E. set_solver.
Qed.

Lemma write_back_self st w ws :
  is_Some (st !! w) → workload_storage (write_back st w ws) w = ws.
Proof.
  intros [ws0 E]. unfold workload_storage, write_back. rewrite E. by rewrite lookup_insert_eq.
Qed.

Lemma write_back_lookup st w ws ws0 :
  st !! w = Some ws0 → write_back st w ws !! w = Some ws.
Proof. intros E. unfold write_back. rewrite E. apply lookup_insert_eq. Qed.
End by_workload.

(** ** A host with such a plugin

    What the two plugins have in common as state machines: workloads are bound and
    unbound, stores of them are built, and stores call.  [serve] is the plugin. *)

Section hosts.
Context {V G C : Type}.
Context (guest_of : G → string) (new_guest : string → G).
Context (serve : gmap string (gmap string V) → G → C → gmap string (gmap string V) * G).

Record Host := { storage : gmap string (gmap string V); guests : gmap nat G }.
Implicit Types h : Host.

Definition bind_workload (st : gmap string (gmap string V)) (w : string) : gmap string (gmap string V) :=
  <[w := ∅]> st.
Definition unbind_workload (st : gmap string (gmap string V)) (w : string) : gmap string (gmap string V) :=
  delete w st.

Inductive Event :=
  | Bind (w : string)
  | Unbind (w : string)
  | Store (i : nat) (w : string)
  | Calls (i : nat) (c : C).

Definition happen h (e : Event) : Host :=
  match e with
  | Bind w => {| storage := bind_workload (storage h) w; guests := guests h |}
  | Unbind w => {| storage := unbind_workload (storage h) w; guests := guests h |}
  | Store i w => {| storage := storage h; guests := <[i := new_guest w]> (guests h) |}
  | Calls i c =>
      match guests h !! i with
      | Some g => let '(st, g) := serve (storage h) g c in
                  {| storage := st; guests := <[i := g]> (guests h) |}
      | None => h
      end
  end.

Definition run h (es : list Event) : Host := foldl happen h es.

(** The workload an event belongs to. *)
Definition owner h (e : Event) : option string :=
  match e with
  | Bind w | Unbind w | Store _ w => Some w
  | Calls i _ => guest_of <$> guests h !! i
  end.

(** None of the events is of workload [w]. *)
Fixpoint foreign (w : string) h (es : list Event) : Prop :=
  match es with
  | [] => True
  | e :: es => owner h e ≠ Some w ∧ foreign w (happen h e) es
  end.

(** The workloads bound after some events. *)
Definition bound_after (bound : gset string) (es : list Event) : gset string :=
  foldl (λ bound e, match e with
                    | Bind w => bound ∪ {[w]}
                    | Unbind w => bound ∖ {[w]}
                    | _ => bound
                    end) bound es.

(** A call changes the storage of its own workload at most, and binds none. *)
Definition confined (st : gmap string (gmap string V)) (g : G) (p : gmap string (gmap string V) * G) : Prop :=
  dom p.1 = dom st ∧ guest_of p.2 = guest_of g ∧ ∀ w, w ≠ guest_of g → p.1 !! w = st !! w.

Lemma confined_refl st g g' : guest_of g' = guest_of g → confined st g (st, g').
Proof. by intros. Qed.

Lemma confined_write_back st g g' ws :
  guest_of g' = guest_of g → confined st g (write_back st (guest_of g) ws, g').
Proof.
  intros Hg. split_and!; [apply write_back_dom|done|].
  intros w Hw. apply write_back_other. done.
Qed.

Context (serve_confined : ∀ st g c, confined st g (serve st g c)).

Lemma run_isolated w h es : foreign w h es → storage (run h es) !! w = storage h !! w.
Proof.
  revert h. induction es as [|e es IH]; intros h; [done|]. intros [Hw Hes].
  cbn [run foldl]. fold (run (happen h e) es). rewrite (IH _ Hes).
  destruct e as [w'|w'|i w'|i c]; simpl in *.
  - apply lookup_insert_ne. congruence.
  - apply lookup_delete_ne. congruence.
  - done.
  - destruct (guests h !! i) as [g|]; [|done]. simpl in Hw.
    pose proof (serve_confined (storage h) g c) as (_ & _ & Hc).
    destruct (serve (storage h) g c) as [st' g']. simpl in *. apply Hc. congruence.
Qed.

Lemma happen_dom h e : dom (storage (happen h e)) = bound_after (dom (storage h)) [e].
Proof.
  destruct e as [w|w|i w|i c]; simpl.
  - unfold bind_workload. rewrite dom_insert_L. set_solver.
  - unfold unbind_workload. rewrite dom_delete_L. done.
  - done.
  - destruct (guests h !! i) as [g|]; [|done].
    pose proof (serve_confined (storage h) g c) as (Hd & _).
    by destruct (serve (storage h) g c) as [st' g'].
Qed.

Lemma run_bound h es : dom (storage (run h es)) = bound_after (dom (storage h)) es.
Proof.
  revert h. induction es as [|e es IH]; intros h; [done|].
  cbn [run foldl]. fold (run (happen h e) es). rewrite IH, happen_dom. done.
Qed.
End hosts.
Arguments Host V G : clear implicits.
Arguments Event C : clear implicits.
