(* ===== verification/KvMemory.v ===== *)
(** * The in-memory key-value plugin

    [plugin/wasi_keyvalue/in_memory.rs]: [wasi:keyvalue] served from the host's own
    memory.  [storage] is shared by every workload and keyed by workload first; a
    guest holds buckets as handles in its resource table.  Each handler runs under
    the storage lock, so histories are sequences of whole calls.  An answer [None]
    is a trap: the guest named a handle it does not hold.  The table picks the
    handle of a new resource, so it is an argument. *)

From Stdlib Require Import ZArith Lia.
From stdpp Require Import base list gmap strings option sorting.
From S2P Require Import Prelude RustStr HostMemory StoreLib.
Local Open Scope Z_scope.

Record BucketData := { data : gmap string (list Z) }.

Abbreviation Storage := (gmap string (gmap string BucketData)).

Inductive StoreError := NoSuchStore | AccessDenied | Other (message : string).

(** A store of a workload: whose it is, and the buckets it has open. *)
Record Guest := { workload_id : string; table : gmap nat string }.
Implicit Types (st : Storage) (g : Guest).

Definition missing {A} (bucket_name : string) : result A StoreError :=
  Err (Other ("bucket '" +:+ bucket_name +:+ "' does not exist")).

(** ** The handlers *)

Definition open st g (rep : nat) (identifier : string) : Storage * Guest :=
  let ws := workload_storage st (workload_id g) in
  let ws := match ws !! identifier with
            | Some _ => ws
            | None => <[identifier := {| data := ∅ |}]> ws
            end in
  (write_back st (workload_id g) ws,
   {| workload_id := workload_id g; table := <[rep := identifier]> (table g) |}).

Definition get st g (bucket : nat) (key : string) : option (result (option (list Z)) StoreError) :=
  bucket_name ← table g !! bucket;
  Some (match workload_storage st (workload_id g) !! bucket_name with
        | Some b => Ok (data b !! key)
        | None => missing bucket_name
        end).

(** The shape every writer has: change the bucket's data, or report it missing. *)
Definition update {A} st g (bucket : nat) (f : gmap string (list Z) → A * gmap string (list Z)) :
    option (result A StoreError * Storage) :=
  bucket_name ← table g !! bucket;
  let ws := workload_storage st (workload_id g) in
  Some (match ws !! bucket_name with
        | Some b => let '(a, d) := f (data b) in
                    (Ok a, write_back st (workload_id g) (<[bucket_name := {| data := d |}]> ws))
        | None => (missing bucket_name, st)
        end).

Definition set st g bucket (key : string) (value : list Z) :=
  update st g bucket (λ d, (tt, <[key := value]> d)).

Definition delete_ st g bucket (key : string) :=
  update st g bucket (λ d, (tt, delete key d)).

Definition exists_ st g (bucket : nat) (key : string) : option (result bool StoreError) :=
  bucket_name ← table g !! bucket;
  Some (match workload_storage st (workload_id g) !! bucket_name with
        | Some b => Ok (is_some (data b !! key))
        | None => missing bucket_name
        end).

Definition PAGE_SIZE : Z := 100.

Definition list_keys st g (bucket : nat) (cursor : option Z) :
    option (result (list string * option Z) StoreError) :=
  bucket_name ← table g !! bucket;
  Some (match workload_storage st (workload_id g) !! bucket_name with
        | Some b => Ok (page PAGE_SIZE (sorted_keys (data b)) cursor)
        | None => missing bucket_name
        end).

Definition drop_bucket g (rep : nat) : option Guest :=
  match table g !! rep with
  | Some _ => Some {| workload_id := workload_id g; table := delete rep (table g) |}
  | None => None
  end.

(** What a stored value counts for. *)
Definition counter_value (stored : option (list Z)) : Z :=
  match stored with
  | Some bytes =>
      if (length bytes =? 8)%nat then from_le bytes
      else default 0 (parse_uint u64_MAX (text_of bytes))
  | None => 0
  end.

Definition increment st g bucket (key : string) (delta : Z) :=
  update st g bucket (λ d,
    let new_value := sat_add (counter_value (d !! key)) delta in
    (new_value, <[key := le_bytes 8 new_value]> d)).

Definition get_many st g (bucket : nat) (keys : list string) :
    option (result (list (option (string * list Z))) StoreError) :=
  bucket_name ← table g !! bucket;
  Some (match workload_storage st (workload_id g) !! bucket_name with
        | Some b => Ok ((λ key, value ← data b !! key; Some (key, value)) <$> keys)
        | None => missing bucket_name
        end).

Definition set_many st g bucket (key_values : list (string * list Z)) :=
  update st g bucket (λ d, (tt, foldl (λ d kv, <[kv.1 := kv.2]> d) d key_values)).

Definition delete_many st g bucket (keys : list string) :=
  update st g bucket (λ d, (tt, foldl (λ d key, delete key d) d keys)).

(** ** A host *)

Inductive Call :=
  | Open (rep : nat) (identifier : string)
  | Get (bucket : nat) (key : string)
  | Set_ (bucket : nat) (key : string) (value : list Z)
  | Delete (bucket : nat) (key : string)
  | Exists (bucket : nat) (key : string)
  | ListKeys (bucket : nat) (cursor : option Z)
  | DropBucket (bucket : nat)
  | Increment (bucket : nat) (key : string) (delta : Z)
  | GetMany (bucket : nat) (keys : list string)
  | SetMany (bucket : nat) (key_values : list (string * list Z))
  | DeleteMany (bucket : nat) (keys : list string).

(** The storage and the caller after a call; a trap changes nothing. *)
Definition written {A} st g (r : option (result A StoreError * Storage)) : Storage * Guest :=
  match r with Some (_, st') => (st', g) | None => (st, g) end.

Definition serve st g (c : Call) : Storage * Guest :=
  match c with
  | Open rep identifier => open st g rep identifier
  | Set_ b key value => written st g (set st g b key value)
  | Delete b key => written st g (delete_ st g b key)
  | DropBucket b => (st, default g (drop_bucket g b))
  | Increment b key delta => written st g (increment st g b key delta)
  | SetMany b kvs => written st g (set_many st g b kvs)
  | DeleteMany b keys => written st g (delete_many st g b keys)
  | Get _ _ | Exists _ _ | ListKeys _ _ | GetMany _ _ => (st, g)
  end.

(** ** Whose data a call can reach *)

Definition new_guest (w : string) : Guest := {| workload_id := w; table := ∅ |}.
Definition kv_run : Host BucketData Guest → list (Event Call) → Host BucketData Guest := run new_guest serve.
Definition kv_foreign : string → Host BucketData Guest → list (Event Call) → Prop :=
  foreign workload_id new_guest serve.

Lemma confined_written {A} st g b (f : gmap string (list Z) → A * gmap string (list Z)) :
  confined workload_id st g (written st g (update st g b f)).
Proof.
  unfold update. destruct (table g !! b) as [name|]; [|by apply confined_refl]. simpl.
  destruct (workload_storage st (workload_id g) !! name) as [bd|]; [|by apply confined_refl].
  destruct (f (data bd)) as [a d]. by apply (confined_write_back workload_id).
Qed.

Lemma serve_confined st g c : confined workload_id st g (serve st g c).
Proof.
  destruct c; try apply confined_written; try by apply confined_refl.
  - by apply (confined_write_back workload_id).
  - unfold serve, drop_bucket. destruct (table g !! bucket); by apply confined_refl.
Qed.

(** Workloads do not reach each other: whatever stores of other workloads call,
    open, overwrite and delete, and whichever other workloads are bound and unbound,
    what is stored for a workload stays as it is. *)
Theorem kv_workloads_are_isolated w h es :
  kv_foreign w h es → storage (kv_run h es) !! w = storage h !! w.
Proof. apply run_isolated, serve_confined. Qed.

(** Only bound workloads are stored: after any events, with calls still running
    after their workload was unbound among them, the storage has an entry for
    exactly the workloads bound and not unbound since, so nothing is left behind
    that no later unbind would remove. *)
Theorem kv_stores_bound_workloads_only h es :
  dom (storage (kv_run h es)) = bound_after (dom (storage h)) es.
Proof. apply (run_bound workload_id), serve_confined. Qed.

(** ** Listing *)

(** A client that asks for page after page gets every key of the bucket, each once
    and in order, in as many pages as it takes, none longer than a hundred keys.
    (A bucket's keys fit in memory.) *)
Theorem kv_pages_list_every_key st g bucket name b :
  table g !! bucket = Some name → workload_storage st (workload_id g) !! name = Some b →
  (Z.of_nat (size (data b)) ≤ 2 ^ 63) →
  ∃ keys, follow (λ c, match list_keys st g bucket c with
                       | Some (Ok p) => p | _ => ([], None) end)
            (S (Z.to_nat (Z.of_nat (size (data b)) / PAGE_SIZE))) None = Some keys
    ∧ StronglySorted ord_le keys ∧ NoDup keys ∧ ∀ k, k ∈ keys ↔ is_Some (data b !! k).
Proof.
  intros Ht Hb Hs. exists (sorted_keys (data b)). split_and!.
  - rewrite <-sorted_keys_length in *.
    rewrite <-(follow_pages PAGE_SIZE (sorted_keys (data b))) by (unfold PAGE_SIZE; lia).
    apply follow_ext. intros c. unfold list_keys. rewrite Ht. cbn [mbind option_bind]. by rewrite Hb.
  - apply sorted_keys_sorted.
  - apply sorted_keys_NoDup.
  - apply sorted_keys_elem.
Qed.

(** ** Counting *)

Lemma update_lookup {A} st g bucket name b (f : gmap string (list Z) → A * gmap string (list Z)) :
  table g !! bucket = Some name → st !! workload_id g = Some b → is_Some (b !! name) →
  ∃ a d st', update st g bucket f = Some (Ok a, st')
    ∧ (a, d) = f (default ∅ (data <$> b !! name))
    ∧ st' !! workload_id g = Some (<[name := {| data := d |}]> b).
Proof.
  intros Ht Hw [bd Hb]. unfold update, workload_storage. rewrite Ht, Hw. simpl. rewrite Hb. simpl.
  destruct (f (data bd)) as [a d] eqn:Ef. exists a, d. eexists. split_and!; [done|done|].
  unfold write_back. rewrite Hw. apply lookup_insert_eq.
Qed.

(** A series of increments of one key. *)
Fixpoint count_up st g bucket key (deltas : list Z) : option (list Z * Storage) :=
  match deltas with
  | [] => Some ([], st)
  | delta :: deltas =>
      match increment st g bucket key delta with
      | Some (Ok v, st) => '(vs, st) ← count_up st g bucket key deltas; Some (v :: vs, st)
      | _ => None
      end
  end.

(** The running totals, held at the largest 64-bit number. *)
Fixpoint totals (from : Z) (deltas : list Z) : list Z :=
  match deltas with
  | [] => []
  | delta :: deltas => let v := sat_add from delta in v :: totals v deltas
  end.

Lemma counter_value_le v : 0 ≤ v ≤ u64_MAX → counter_value (Some (le_bytes 8 v)) = v.
Proof. intros Hv. unfold counter_value. rewrite le_bytes_length. simpl (8 =? 8)%nat. by apply u64_roundtrip. Qed.

Lemma sat_add_range x y : 0 ≤ x → 0 ≤ y → 0 ≤ sat_add x y ≤ u64_MAX.
Proof. unfold sat_add, u64_MAX. lia. Qed.

Lemma count_up_from st g bucket key name ws b deltas v :
  table g !! bucket = Some name → st !! workload_id g = Some ws → ws !! name = Some b →
  counter_value (data b !! key) = v → 0 ≤ v → Forall (λ d, 0 ≤ d) deltas →
  ∃ st', count_up st g bucket key deltas = Some (totals v deltas, st').
Proof.
  intros Ht Hw Hb Hv Hpos Hd. revert st ws b v Hw Hb Hv Hpos.
  induction Hd as [|delta deltas Hdelta Hd IH]; intros st ws b v Hw Hb Hv Hpos; [by eexists|].
  cbn [count_up totals]. unfold increment.
  match goal with |- context [update st g bucket ?f] =>
    destruct (update_lookup st g bucket name ws f Ht Hw (ex_intro _ b Hb)) as (a & d & st' & -> & Ef & Hst')
  end.
  rewrite Hb in Ef. simpl in Ef. rewrite Hv in Ef. injection Ef as -> ->.
  pose proof (sat_add_range v delta Hpos Hdelta) as Hr.
  destruct (IH st' _ {| data := <[key := le_bytes 8 (sat_add v delta)]> (data b) |} (sat_add v delta)
              Hst') as [st'' Hc]; [apply lookup_insert_eq| |lia|].
  - simpl. rewrite lookup_insert_eq. by apply counter_value_le.
  - rewrite Hc. by exists st''.
Qed.

(** A counter counts: a series of increments of a key that was not there returns
    the running totals of what was added, which stop at the largest 64-bit
    number. *)
Theorem kv_increments_add_up st g bucket key name ws b deltas :
  table g !! bucket = Some name → st !! workload_id g = Some ws → ws !! name = Some b →
  data b !! key = None → Forall (λ d, 0 ≤ d) deltas →
  ∃ st', count_up st g bucket key deltas = Some (totals 0 deltas, st').
Proof.
  intros Ht Hw Hb Hk Hd. apply (count_up_from st g bucket key name ws b); try done.
  by rewrite Hk.
Qed.

(** A number of eight digits is not read as a number: its eight bytes are taken for
    a little-endian integer.  Seven digits are read as written. *)
Theorem kv_eight_digits_miscount :
  counter_value (Some (bytes_of "1234567")) = 1234567
  ∧ counter_value (Some (bytes_of "12345678")) = 4050765991979987505.
Proof. split; vm_compute; reflexivity. Qed.

(** ** The theorems at work *)

(** Two workloads, each with a bucket of the same name. *)
Definition two_workloads : Host BucketData Guest :=
  kv_run {| storage := ∅; guests := ∅ |}
    [Bind "a"; Bind "b"; Store 0 "a"; Store 1 "b"; Calls 0 (Open 0 "x"); Calls 1 (Open 0 "x");
     Calls 0 (Set_ 0 "k" [1]); Calls 0 (Increment 0 "n" 7); Calls 0 (Set_ 0 "j" [2])].

Lemma kv_workloads_are_isolated_witness :
  let es := [Calls 1 (Set_ 0 "k" [9]); Calls 1 (DeleteMany 0 ["k"; "n"]); Unbind "b"] in
  kv_foreign "a" two_workloads es
  ∧ storage (kv_run two_workloads es) !! "a" = storage two_workloads !! "a".
Proof.
  intros es. assert (kv_foreign "a" two_workloads es) as H by (vm_compute; repeat split; discriminate).
  split; [exact H|]. exact (kv_workloads_are_isolated "a" two_workloads es H).
Defined.

Definition guest_a : Guest := {| workload_id := "a"; table := {[0%nat := "x"]} |}.
Definition bucket_a : BucketData := {| data := {["k" := [1]; "n" := le_bytes 8 7; "j" := [2]]} |}.

Lemma kv_pages_list_every_key_witness :
  ∃ keys, follow (λ c, match list_keys (storage two_workloads) guest_a 0 c with
                       | Some (Ok p) => p | _ => ([], None) end) 1 None = Some keys
    ∧ StronglySorted ord_le keys ∧ NoDup keys ∧ ∀ k, k ∈ keys ↔ is_Some (data bucket_a !! k).
Proof.
  apply (kv_pages_list_every_key (storage two_workloads) guest_a 0 "x" bucket_a);
    [reflexivity|vm_compute; reflexivity|vm_compute; discriminate].
Defined.

Lemma kv_increments_add_up_witness :
  ∃ st', count_up (storage two_workloads) guest_a 0 "c" [3; 4; u64_MAX; 1]
         = Some ([3; 7; u64_MAX; u64_MAX], st').
Proof.
  apply (kv_increments_add_up (storage two_workloads) guest_a 0 "c" "x" {["x" := bucket_a]} bucket_a
           [3; 4; u64_MAX; 1]);
    [reflexivity|vm_compute; reflexivity|reflexivity|vm_compute; reflexivity|].
  repeat constructor; vm_compute; discriminate.
Defined.
