(* ===== verification/KvBackend.v ===== *)
(** * Key-value backends

    The trait [KvBackend] of [plugin/wasi_keyvalue/multiplexed.rs] as a class of
    operations, its default methods, and the backend of
    [plugin/wasi_keyvalue/multiplexed/in_memory.rs].  [KvLaws] states what a backend
    promises to the handlers of [KvHandlers]: its buckets are finite maps, and a
    listing reaches every key.  The in-memory backend keeps that promise, and its
    compare-and-swap is safe against a value that returns. *)

From Stdlib Require Import ZArith Lia Ascii.
From stdpp Require Import base list gmap strings option sorting.
From S2P Require Import Prelude RustStr HostMemory StoreLib KvMemory.
Local Open Scope Z_scope.

(** ** The trait *)

Record Versioned := { v_value : list Z; v_version : string }.
Record CasGuard := { require_version : option string; require_value : option (list Z) }.
Inductive CasOutcome := Swapped | Stale (current : option Versioned).

Class KvBackend (B : Type) := {
  kv_open : B → string → result unit StoreError * B;
  kv_get : B → string → string → result (option (list Z)) StoreError;
  kv_set : B → string → string → list Z → result unit StoreError * B;
  kv_delete : B → string → string → result unit StoreError * B;
  kv_exists : B → string → string → result bool StoreError;
  kv_list_keys : B → string → option Z → result (list string * option Z) StoreError;
  kv_increment : B → string → string → Z → result Z StoreError * B;
  kv_get_many : B → string → list string → result (list (option (string * list Z))) StoreError;
  kv_set_many : B → string → list (string * list Z) → result unit StoreError * B;
  kv_delete_many : B → string → list string → result unit StoreError * B;
  kv_put_if_absent : B → string → string → list Z → result bool StoreError * B;
  kv_current : B → string → string → result (option Versioned) StoreError;
  kv_swap : B → string → string → list Z → CasGuard → result CasOutcome StoreError * B;
}.

(** The default methods: a check and then a write, and no compare-and-swap. *)
Definition default_put_if_absent {B} (exists_ : B → string → string → result bool StoreError)
    (set_ : B → string → string → list Z → result unit StoreError * B)
    (b : B) (bucket key : string) (value : list Z) : result bool StoreError * B :=
  match exists_ b bucket key with
  | Err e => (Err e, b)
  | Ok true => (Ok false, b)
  | Ok false =>
      let '(r, b) := set_ b bucket key value in
      (match r with Ok _ => Ok true | Err e => Err e end, b)
  end.

Definition cas_unsupported {A} : result A StoreError :=
  Err (Other "compare-and-swap is not supported by this backend").

(** ** The in-memory backend *)

Record Entry := { e_value : list Z; e_version : Z }.
Record Bucket := { entries : gmap string Entry; next_version : Z }.

#[global] Instance Entry_eq_dec : EqDecision Entry.
Proof. solve_decision. Defined.

Abbreviation Buckets := (gmap string Bucket).
Implicit Types (b : Bucket) (bs : Buckets).

Definition empty_bucket : Bucket := {| entries := ∅; next_version := 0 |}.

Definition put b (key : string) (value : list Z) : Bucket :=
  let version := (next_version b + 1) mod 2 ^ 64 in
  {| entries := <[key := {| e_value := value; e_version := version |}]> (entries b);
     next_version := version |}.

Definition without b (key : string) : Bucket :=
  {| entries := delete key (entries b); next_version := next_version b |}.

Definition err_missing {A} (bucket : string) : result A StoreError := missing bucket.

Definition mem_open bs (identifier : string) : result unit StoreError * Buckets :=
  (Ok tt, match bs !! identifier with
          | Some _ => bs
          | None => <[identifier := empty_bucket]> bs
          end).

(** [store.get(bucket).ok_or_else(..)?] and then a read. *)
Definition read {A} bs (bucket : string) (f : Bucket → A) : result A StoreError :=
  match bs !! bucket with Some b => Ok (f b) | None => err_missing bucket end.

(** [store.get_mut(bucket).ok_or_else(..)?] and then a write. *)
Definition write {A} bs (bucket : string) (f : Bucket → result A StoreError * Bucket) :
    result A StoreError * Buckets :=
  match bs !! bucket with
  | Some b => let '(r, b) := f b in (r, <[bucket := b]> bs)
  | None => (err_missing bucket, bs)
  end.

Definition mem_get bs bucket (key : string) := read bs bucket (λ b, e_value <$> entries b !! key).

Definition mem_set bs bucket (key : string) (value : list Z) :=
  write bs bucket (λ b, (Ok tt, put b key value)).

Definition mem_delete bs bucket (key : string) := write bs bucket (λ b, (Ok tt, without b key)).

Definition mem_exists bs bucket (key : string) := read bs bucket (λ b, is_some (entries b !! key)).

Definition mem_list_keys bs bucket (cursor : option Z) :=
  read bs bucket (λ b, page PAGE_SIZE (sorted_keys (entries b)) cursor).

Definition signed_counter (stored : option Entry) : Z :=
  match stored with
  | Some e =>
      if (length (e_value e) =? 8)%nat then i64_of_u64 (from_le (e_value e))
      else default 0 (parse_i64 (text_of (e_value e)))
  | None => 0
  end.

Definition checked_add_i64 (a c : Z) : option Z :=
  if (i64_MIN <=? a + c) && (a + c <=? i64_MAX) then Some (a + c) else None.

Definition mem_increment bs bucket (key : string) (delta : Z) :=
  write bs bucket (λ b,
    match checked_add_i64 (signed_counter (entries b !! key)) delta with
    | Some next => (Ok next, put b key (le_bytes 8 (u64_of_i64 next)))
    | None => (Err (Other "counter overflow"), b)
    end).

Definition mem_get_many bs bucket (keys : list string) :=
  read bs bucket (λ b, (λ k, e ← entries b !! k; Some (k, e_value e)) <$> keys).

Definition mem_set_many bs bucket (key_values : list (string * list Z)) :=
  write bs bucket (λ b, (Ok tt, foldl (λ b kv, put b kv.1 kv.2) b key_values)).

Definition mem_delete_many bs bucket (keys : list string) :=
  write bs bucket (λ b, (Ok tt, foldl without b keys)).

Definition mem_put_if_absent bs bucket (key : string) (value : list Z) :=
  write bs bucket (λ b,
    if is_some (entries b !! key) then (Ok false, b) else (Ok true, put b key value)).

Definition versioned (e : Entry) : Versioned :=
  {| v_value := e_value e; v_version := show_uint (e_version e) |}.

Definition mem_current bs bucket (key : string) :=
  read bs bucket (λ b, versioned <$> entries b !! key).

Definition mem_swap bs bucket (key : string) (value : list Z) (guard : CasGuard) :=
  write bs bucket (λ b,
    let current := entries b !! key in
    let stale := (Ok (Stale (versioned <$> current)), b) in
    if is_some_and (require_version guard)
         (λ req, negb (bool_decide ((λ e, show_uint (e_version e)) <$> current = Some req)))
    then stale
    else if is_some_and (require_value guard)
              (λ req, negb (bool_decide (e_value <$> current = Some req)))
    then stale
    else (Ok Swapped, put b key value)).

#[global] Instance mem_backend : KvBackend Buckets := {|
  kv_open := mem_open; kv_get := mem_get; kv_set := mem_set; kv_delete := mem_delete;
  kv_exists := mem_exists; kv_list_keys := mem_list_keys; kv_increment := mem_increment;
  kv_get_many := mem_get_many; kv_set_many := mem_set_many; kv_delete_many := mem_delete_many;
  kv_put_if_absent := mem_put_if_absent; kv_current := mem_current; kv_swap := mem_swap;
|}.

(** ** What a backend promises *)

(** A backend is a map of buckets, each a map of values; what the operations do to
    [kv_view], and that following the cursors of a listing ends and gives every key
    once. *)
Class KvLaws (B : Type) `{KvBackend B} := {
  kv_view : B → string → option (gmap string (list Z));
  kv_open_law (b : B) n :
    (kv_open b n).1 = Ok tt
    ∧ ∀ n', kv_view (kv_open b n).2 n'
            = if decide (n' = n) then Some (default ∅ (kv_view b n)) else kv_view b n';
  kv_get_law (b : B) n k :
    kv_get b n k = match kv_view b n with Some m => Ok (m !! k) | None => missing n end;
  kv_exists_law (b : B) n k :
    kv_exists b n k = match kv_view b n with Some m => Ok (is_some (m !! k)) | None => missing n end;
  kv_set_law (b : B) n k v m :
    kv_view b n = Some m →
    (kv_set b n k v).1 = Ok tt
    ∧ ∀ n', kv_view (kv_set b n k v).2 n'
            = if decide (n' = n) then Some (<[k := v]> m) else kv_view b n';
  kv_delete_law (b : B) n k m :
    kv_view b n = Some m →
    (kv_delete b n k).1 = Ok tt
    ∧ ∀ n', kv_view (kv_delete b n k).2 n'
            = if decide (n' = n) then Some (delete k m) else kv_view b n';
  kv_absent_law (b : B) n k v m :
    kv_view b n = Some m →
    (kv_put_if_absent b n k v).1 = Ok (negb (is_some (m !! k)))
    ∧ ∀ n', kv_view (kv_put_if_absent b n k v).2 n'
            = if decide (n' = n)
              then Some (if is_some (m !! k) then m else <[k := v]> m) else kv_view b n';
  kv_list_law (b : B) n m :
    kv_view b n = Some m → Z.of_nat (size m) ≤ 2 ^ 63 →
    ∃ pages keys, NoDup keys ∧ (∀ k, k ∈ keys ↔ is_Some (m !! k))
      ∧ (∀ c, kv_list_keys b n c = Ok (pages c)) ∧ (∃ rounds, follow pages rounds None = Some keys)
      ∧ ∀ c next, 0 ≤ default 0 c ≤ u64_MAX → (pages c).2 = Some next → 0 ≤ next ≤ u64_MAX;
}.

Definition view bs (n : string) : option (gmap string (list Z)) :=
  (λ b, e_value <$> entries b) <$> bs !! n.

Lemma view_write {A} bs n (f : Bucket → result A StoreError * Bucket) b :
  bs !! n = Some b →
  (write bs n f).1 = (f b).1
  ∧ ∀ n', view (write bs n f).2 n'
          = if decide (n' = n) then Some (e_value <$> entries (f b).2) else view bs n'.
Proof.
  intros Hb. unfold write. rewrite Hb. destruct (f b) as [r b']. split; [done|]. intros n'. simpl.
  unfold view. case_decide as Hn; [subst; by rewrite lookup_insert_eq|by rewrite lookup_insert_ne].
Qed.

Lemma view_Some bs n m :
  view bs n = Some m → ∃ b, bs !! n = Some b ∧ m = e_value <$> entries b.
Proof. unfold view. destruct (bs !! n) as [b|]; [|done]. intros [= <-]. by exists b. Qed.

Lemma is_some_fmap {A B} (f : A → B) (o : option A) : is_some (f <$> o) = is_some o.
Proof. by destruct o. Qed.

Lemma view_put b k v : e_value <$> entries (put b k v) = <[k := v]> (e_value <$> entries b).
Proof. apply fmap_insert. Qed.

Lemma page_cursor_range size keys c next :
  0 ≤ default 0 c ≤ u64_MAX → 0 < size → Z.of_nat (length keys) ≤ 2 ^ 63 →
  (page size keys c).2 = Some next → 0 ≤ next ≤ u64_MAX.
Proof.
  intros Hc Hs Hl. unfold page. simpl. case_goal; [|done]. intros [= <-]. bools.
  assert (0 ≤ usize_add (default 0 c) size) by (apply Z.mod_pos_bound; lia).
  unfold u64_MAX. lia.
Qed.

#[global] Program Instance mem_laws : KvLaws Buckets := {| kv_view := view |}.
Next Obligation.
  intros bs n. split; [done|]. intros n'. simpl. unfold view.
  destruct (bs !! n) as [b|] eqn:E; case_decide; subst; simpl.
  - by rewrite E.
  - done.
  - by rewrite lookup_insert_eq.
  - by rewrite lookup_insert_ne.
Qed.
Next Obligation.
  intros bs n k. simpl. unfold mem_get, read, view. destruct (bs !! n); [|done]. simpl.
  by rewrite lookup_fmap.
Qed.
Next Obligation.
  intros bs n k. simpl. unfold mem_exists, read, view. destruct (bs !! n); [|done]. simpl.
  by rewrite lookup_fmap, is_some_fmap.
Qed.
Next Obligation.
  intros bs n k v m (b & Hb & ->)%view_Some. simpl. rewrite <-view_put.
  apply (view_write bs n (λ b, (Ok tt, put b k v)) b Hb).
Qed.
Next Obligation.
  intros bs n k m (b & Hb & ->)%view_Some. simpl. rewrite <-fmap_delete.
  apply (view_write bs n (λ b, (Ok tt, without b k)) b Hb).
Qed.
Next Obligation.
  intros bs n k v m (b & Hb & ->)%view_Some. simpl. rewrite lookup_fmap, is_some_fmap, <-view_put.
  unfold mem_put_if_absent.
  destruct (view_write bs n (λ b, if is_some (entries b !! k) then (Ok false, b)
                                  else (Ok true, put b k v)) b Hb) as [-> Hv].
  split; [by destruct (is_some (entries b !! k))|]. intros n'. rewrite Hv.
  by destruct (is_some (entries b !! k)).
Qed.
Next Obligation.
  intros bs n m (b & Hb & ->)%view_Some Hs. rewrite map_size_fmap in Hs.
  exists (page PAGE_SIZE (sorted_keys (entries b))), (sorted_keys (entries b)).
  rewrite <-sorted_keys_length in Hs. split_and!.
  - apply sorted_keys_NoDup.
  - intros k. by rewrite sorted_keys_elem, lookup_fmap, fmap_is_Some.
  - intros c. simpl. unfold mem_list_keys, read. by rewrite Hb.
  - eexists. apply follow_pages; [unfold PAGE_SIZE; lia|done].
  - intros c next Hc. apply page_cursor_range; [done|unfold PAGE_SIZE; lia|done].
Qed.

(** ** Compare-and-swap

    The writes of the trait, as one type, so that a history is a list of them. *)

Inductive BackendOp :=
  | BOpen (n : string)
  | BSet (n k : string) (v : list Z)
  | BDelete (n k : string)
  | BIncrement (n k : string) (delta : Z)
  | BSetMany (n : string) (kvs : list (string * list Z))
  | BDeleteMany (n : string) (ks : list string)
  | BPutIfAbsent (n k : string) (v : list Z)
  | BSwap (n k : string) (v : list Z) (guard : CasGuard).

Definition perform bs (op : BackendOp) : Buckets :=
  match op with
  | BOpen n => (mem_open bs n).2
  | BSet n k v => (mem_set bs n k v).2
  | BDelete n k => (mem_delete bs n k).2
  | BIncrement n k delta => (mem_increment bs n k delta).2
  | BSetMany n kvs => (mem_set_many bs n kvs).2
  | BDeleteMany n ks => (mem_delete_many bs n ks).2
  | BPutIfAbsent n k v => (mem_put_if_absent bs n k v).2
  | BSwap n k v guard => (mem_swap bs n k v guard).2
  end.

(** Every state a history goes through, the first one included. *)
Fixpoint states bs (ops : list BackendOp) : list Buckets :=
  bs :: match ops with [] => [] | op :: ops => states (perform bs op) ops end.

Definition after bs (ops : list BackendOp) : Buckets := foldl perform bs ops.

(** How often an operation can stamp a version, and that no bucket runs out of
    them: 2^64 writes to one bucket are not made. *)
Definition stamps (op : BackendOp) : Z :=
  match op with
  | BOpen _ | BDelete _ _ | BDeleteMany _ _ => 0
  | BSetMany _ kvs => Z.of_nat (length kvs)
  | _ => 1
  end.

Fixpoint fits bs (ops : list BackendOp) : Prop :=
  match ops with
  | [] => True
  | op :: ops =>
      map_Forall (λ _ b, next_version b + stamps op ≤ u64_MAX) bs ∧ fits (perform bs op) ops
  end.

(** What may become of a bucket: its counter does not go back, and an entry that is
    not the one it was carries a version the counter had not reached. *)
Record grown b b' : Prop := {
  gr_next : next_version b ≤ next_version b';
  gr_max : next_version b ≤ u64_MAX → next_version b' ≤ u64_MAX;
  gr_entry : ∀ k, entries b' !! k = entries b !! k
    ∨ ∀ e, entries b' !! k = Some e → next_version b < e_version e ≤ next_version b';
}.

Lemma grown_refl b : grown b b.
Proof. split; [lia|lia|by left]. Qed.

Lemma grown_trans b1 b2 b3 : grown b1 b2 → grown b2 b3 → grown b1 b3.
Proof.
  intros [N12 M12 E12] [N23 M23 E23]. split; [lia|auto|]. intros k.
  destruct (E23 k) as [H23|H23]; [|right; intros e He; specialize (H23 e He); lia].
  rewrite H23. destruct (E12 k) as [?|H12]; [by left|right].
  intros e He. specialize (H12 e He). lia.
Qed.

Lemma grown_put b k v : 0 ≤ next_version b → next_version b + 1 ≤ u64_MAX → grown b (put b k v).
Proof.
  intros H0 H1. unfold put.
  rewrite (Z.mod_small (next_version b + 1)) by (unfold u64_MAX in *; lia).
  split; simpl; [lia|lia|]. intros k'.
  destruct (decide (k' = k)) as [->|Hk]; [right|left; by rewrite lookup_insert_ne].
  rewrite lookup_insert_eq. intros e [= <-]. simpl. lia.
Qed.

Lemma grown_without b k : grown b (without b k).
Proof.
  split; simpl; [lia|lia|]. intros k'. destruct (decide (k' = k)) as [->|].
  - right. by rewrite lookup_delete_eq.
  - left. by rewrite lookup_delete_ne.
Qed.

Lemma grown_set_many kvs : ∀ b, 0 ≤ next_version b →
  next_version b + Z.of_nat (length kvs) ≤ u64_MAX →
  grown b (foldl (λ b kv, put b kv.1 kv.2) b kvs).
Proof.
  induction kvs as [|[k v] kvs IH]; intros b H0 H1; [apply grown_refl|]. simpl.
  cbn [length] in H1. pose proof (grown_put b k v H0 ltac:(lia)) as Hp.
  apply (grown_trans _ _ _ Hp). apply IH.
  - destruct Hp. lia.
  - unfold put. simpl. rewrite Z.mod_small; unfold u64_MAX in *; lia.
Qed.

Lemma grown_delete_many ks : ∀ b, grown b (foldl without b ks).
Proof.
  induction ks as [|k ks IH]; intros b; [apply grown_refl|]. simpl.
  eapply grown_trans; [apply (grown_without b k)|apply IH].
Qed.

(** The counters are not negative and cover every version handed out. *)
Definition sound bs : Prop :=
  map_Forall (λ _ b, 0 ≤ next_version b ≤ u64_MAX
    ∧ map_Forall (λ _ e, 0 < e_version e ≤ next_version b) (entries b)) bs.

(** Buckets stay, and grow. *)
Definition evolved bs bs' : Prop :=
  (∀ n b, bs !! n = Some b → ∃ b', bs' !! n = Some b' ∧ grown b b')
  ∧ ∀ n b', bs' !! n = Some b' → bs !! n = None → b' = empty_bucket.

Lemma evolved_refl bs : evolved bs bs.
Proof. split; [intros n b Hb; exists b; split; [done|apply grown_refl]|]. congruence. Qed.

Lemma evolved_write {A} bs n (f : Bucket → result A StoreError * Bucket) :
  (∀ b, bs !! n = Some b → grown b (f b).2) → evolved bs (write bs n f).2.
Proof.
  intros Hf. unfold write. destruct (bs !! n) as [b|] eqn:E; [|apply evolved_refl].
  specialize (Hf b eq_refl). destruct (f b) as [r b']. simpl in *. split.
  - intros n' b0 Hb0. destruct (decide (n' = n)) as [->|].
    + rewrite lookup_insert_eq. exists b'. split; [done|]. congruence.
    + rewrite lookup_insert_ne by done. exists b0. split; [done|apply grown_refl].
  - intros n' b0. destruct (decide (n' = n)) as [->|]; [congruence|].
    rewrite lookup_insert_ne by done. congruence.
Qed.

Lemma perform_evolved bs op :
  sound bs → map_Forall (λ _ b, next_version b + stamps op ≤ u64_MAX) bs → evolved bs (perform bs op).
Proof.
  intros Hs Hf. assert (∀ n b, bs !! n = Some b → 0 ≤ next_version b ∧ next_version b + stamps op ≤ u64_MAX)
    as Hb by (intros n b E; destruct (Hs n b E) as [? _]; split; [lia|apply (Hf n b E)]).
  destruct op as [n|n k v|n k|n k d|n kvs|n ks|n k v|n k v guard]; simpl;
    try (apply evolved_write; intros b E; destruct (Hb n b E) as [H0 H1]; simpl in *).
  - unfold mem_open. simpl. destruct (bs !! n) eqn:E; [apply evolved_refl|]. split.
    + intros n' b Hn'. exists b. rewrite lookup_insert_ne by congruence. split; [done|apply grown_refl].
    + intros n' b'. destruct (decide (n' = n)) as [->|]; [rewrite lookup_insert_eq; congruence|].
      rewrite lookup_insert_ne by done. congruence.
  - by apply grown_put.
  - apply grown_without.
  - case_match; [by apply grown_put|apply grown_refl].
  - by apply grown_set_many.
  - apply grown_delete_many.
  - case_match; [apply grown_refl|by apply grown_put].
  - repeat case_match; [apply grown_refl..|by apply grown_put].
Qed.

Lemma evolved_sound bs bs' : sound bs → evolved bs bs' → sound bs'.
Proof.
  intros Hs [He Hn] n b' Hb'. destruct (bs !! n) as [b|] eqn:E.
  - destruct (He n b E) as (b'' & Hb'' & [Gn Gm Ge]). assert (b'' = b') as -> by congruence.
    destruct (Hs n b E) as [H0 Hv]. split; [lia|]. intros k e Hk. simpl.
    destruct (Ge k) as [Hk'|Hk']; [|specialize (Hk' e Hk); lia].
    rewrite Hk' in Hk. specialize (Hv k e Hk). simpl in Hv. lia.
  - rewrite (Hn n b' Hb' E). split; [done|]. apply map_Forall_empty.
Qed.

Lemma after_sound bs ops : sound bs → fits bs ops → sound (after bs ops).
Proof.
  revert bs. induction ops as [|op ops IH]; intros bs Hs; [done|]. intros [Hf Hr].
  apply (IH (perform bs op)); [|done]. by eapply evolved_sound, perform_evolved.
Qed.

(** An entry a bucket no longer has does not come back. *)
Lemma entry_does_not_return ops : ∀ bs n k b e, sound bs → fits bs ops →
  bs !! n = Some b → e_version e ≤ next_version b →
  (∀ e', entries b !! k = Some e' → e_version e' = e_version e → False) →
  ∃ b', after bs ops !! n = Some b'
    ∧ ∀ e', entries b' !! k = Some e' → e_version e' = e_version e → False.
Proof.
  induction ops as [|op ops IH]; intros bs n k b e Hs Hf Hb Hle Hv; [by exists b|].
  destruct Hf as [Hf Hr]. pose proof (perform_evolved bs op Hs Hf) as Hev.
  destruct (proj1 Hev n b Hb) as (b1 & Hb1 & [Gn Gm Ge]).
  assert (∀ e', entries b1 !! k = Some e' → e_version e' = e_version e → False) as Hv1.
  { intros e' He' Hver. destruct (Ge k) as [Hk|Hk]; [rewrite Hk in He'; by eapply Hv|].
    specialize (Hk e' He'). lia. }
  apply (IH (perform bs op) n k b1 e); try done; [by eapply evolved_sound|lia].
Qed.

Lemma show_uint_inj x y : 0 ≤ x ≤ u64_MAX → 0 ≤ y ≤ u64_MAX → show_uint x = show_uint y → x = y.
Proof.
  intros Hx Hy E. apply (f_equal (parse_uint u64_MAX)) in E.
  rewrite !parse_show_uint in E by lia. congruence.
Qed.

(** A swap that requires a version and goes through found that version. *)
Lemma swap_found bs n k v req rv bs' :
  mem_swap bs n k v {| require_version := Some req; require_value := rv |} = (Ok Swapped, bs') →
  ∃ b e, bs !! n = Some b ∧ entries b !! k = Some e ∧ show_uint (e_version e) = req.
Proof.
  unfold mem_swap, write. destruct (bs !! n) as [b|]; [|done]. simpl.
  destruct (negb _) eqn:E; [done|]. intros _. bools.
  destruct (entries b !! k) as [e|] eqn:Ek; [|done]. injection E as <-. by exists b, e.
Qed.

Lemma aba_from ops : ∀ bs n k b e v req rv bs', sound bs → fits bs ops →
  bs !! n = Some b → entries b !! k = Some e → req = show_uint (e_version e) →
  mem_swap (after bs ops) n k v {| require_version := Some req; require_value := rv |} = (Ok Swapped, bs') →
  Forall (λ s, ∃ b, s !! n = Some b ∧ entries b !! k = Some e) (states bs ops).
Proof.
  induction ops as [|op ops IH]; intros bs n k b e v req rv bs' Hs Hf Hb He -> Hsw.
  { constructor; [by exists b|constructor]. }
  cbn [states]. constructor; [by exists b|]. destruct Hf as [Hf Hr].
  pose proof (perform_evolved bs op Hs Hf) as Hev.
  pose proof (evolved_sound _ _ Hs Hev) as Hs1.
  destruct (proj1 Hev n b Hb) as (b1 & Hb1 & [Gn Gm Ge]).
  destruct (Hs n b Hb) as [Hn Hv]. specialize (Hv k e He). simpl in Hv.
  destruct (decide (entries b1 !! k = Some e)) as [He1|He1]; [by eapply (IH (perform bs op) n k b1 e v)|].
  exfalso. destruct (entry_does_not_return ops (perform bs op) n k b1 e) as (b2 & Hb2 & Hno);
    [done|done|done|lia| |].
  - intros e' He' Hver. destruct (Ge k) as [Hk|Hk]; [congruence|]. specialize (Hk e' He'). lia.
  - destruct (swap_found _ _ _ _ _ _ _ Hsw) as (b3 & e3 & Hb3 & He3 & Hshow).
    change (after (perform bs op) ops) with (after bs (op :: ops)) in Hb2.
    rewrite Hb2 in Hb3. injection Hb3 as <-. apply (Hno e3 He3).
    pose proof (after_sound _ _ Hs1 Hr) as Hsf.
    change (after (perform bs op) ops) with (after bs (op :: ops)) in Hsf.
    destruct (Hsf n b2 Hb2) as [Hn2 Hv2]. specialize (Hv2 k e3 He3). simpl in Hv2.
    apply show_uint_inj; [lia|lia|done].
Qed.

Lemma empty_sound : sound ∅.
Proof. apply map_Forall_empty. Qed.

Lemma fits_app bs ops ops' : fits bs (ops ++ ops') → fits bs ops ∧ fits (after bs ops) ops'.
Proof.
  revert bs. induction ops as [|op ops IH]; intros bs; [done|]. simpl. intros [Hf Hr].
  destruct (IH _ Hr). done.
Qed.

(** C18: Compare-and-swap notices a value that went away and came back.  Take any
    history of a backend, in which a client reads the current version of a key, and
    later a swap that requires this version goes through: then in every state in
    between the key held the very entry that was read, with no write to it, no
    matter of which bytes.  (No bucket is written 2^64 times.) *)
Theorem swap_is_aba_safe before ops n k seen v rv bs' :
  fits ∅ (before ++ ops) → mem_current (after ∅ before) n k = Ok (Some seen) →
  mem_swap (after ∅ (before ++ ops)) n k v
    {| require_version := Some (v_version seen); require_value := rv |} = (Ok Swapped, bs') →
  Forall (λ s, mem_current s n k = Ok (Some seen)) (states (after ∅ before) ops).
Proof.
  intros [Hf Hf']%fits_app Hc Hsw. unfold after in Hsw at 1. rewrite foldl_app in Hsw.
  fold (after ∅ before) in Hsw. fold (after (after ∅ before) ops) in Hsw.
  pose proof (after_sound ∅ before empty_sound Hf) as Hs.
  unfold mem_current, read in Hc. destruct (after ∅ before !! n) as [b|] eqn:Hb; [|done].
  destruct (entries b !! k) as [e|] eqn:He; [|done]. injection Hc as <-.
  eapply Forall_impl; [by eapply aba_from|]. intros s (b' & Hb' & He').
  unfold mem_current, read. by rewrite Hb', He'.
Qed.

(** A swap with no requirement met is refused and writes nothing; one whose
    requirements are met writes, and the version it stamps is new. *)
Theorem swap_decides bs n b k v guard :
  bs !! n = Some b →
  let found := versioned <$> entries b !! k in
  let met := (∀ req, require_version guard = Some req → v_version <$> found = Some req)
             ∧ (∀ req, require_value guard = Some req → v_value <$> found = Some req) in
  (met ∧ mem_swap bs n k v guard = (Ok Swapped, <[n := put b k v]> bs))
  ∨ (¬ met ∧ mem_swap bs n k v guard = (Ok (Stale found), bs)).
Proof.
  intros Hb found met. unfold mem_swap, write. rewrite Hb.
  assert ((λ e, show_uint (e_version e)) <$> entries b !! k = v_version <$> found) as ->
    by (unfold found; by destruct (entries b !! k)).
  assert (e_value <$> entries b !! k = v_value <$> found) as ->
    by (unfold found; by destruct (entries b !! k)).
  destruct guard as [[rv|] [rx|]]; simpl; unfold met; simpl;
    repeat case_bool_decide; simpl; rewrite ?insert_id by done;
    (left; split; [naive_solver|done]) || (right; split; [naive_solver|done]).
Qed.

(** ** The theorems at work *)

Definition seen_one : Versioned := {| v_value := [1]; v_version := "1" |}.
Definition written_before : list BackendOp := [BOpen "b"; BSet "b" "k" [1]].
Definition written_after : list BackendOp := [BSet "b" "j" [2]; BSwap "b" "k" [7] {| require_version := Some "2"; require_value := None |}].

Lemma swap_is_aba_safe_witness :
  Forall (λ s, mem_current s "b" "k" = Ok (Some seen_one)) (states (after ∅ written_before) written_after)
  ∧ (mem_swap (after ∅ (written_before ++ written_after)) "b" "k" [3]
       {| require_version := Some "1"; require_value := None |}).1 = Ok Swapped.
Proof.
  split; [|vm_compute; reflexivity].
  eapply (swap_is_aba_safe written_before written_after "b" "k" seen_one [3] None).
  - cbn [written_before written_after app fits]. split_and!; try exact I;
      apply (bool_decide_eq_true_1 _); vm_compute; reflexivity.
  - vm_compute; reflexivity.
  - vm_compute; reflexivity.
Defined.

Lemma swap_decides_witness :
  let bs := after ∅ written_before in
  mem_swap bs "b" "k" [3] {| require_version := Some "9"; require_value := None |}
  = (Ok (Stale (Some seen_one)), bs).
Proof.
  intros bs. destruct (swap_decides bs "b" {| entries := {["k" := {| e_value := [1]; e_version := 1 |}]}; next_version := 1 |}
    "k" [3] {| require_version := Some "9"; require_value := None |}) as [[[H _] _]|[_ H]].
  - vm_compute; reflexivity.
  - specialize (H "9" eq_refl). vm_compute in H. discriminate H.
  - exact H.
Defined.
