(* ===== verification/KvHandlers.v ===== *)
(** * The multiplexed key-value handlers

    [plugin/wasi_keyvalue/multiplexed.rs] ([wasi:keyvalue]) and
    [plugin/wasi_keyvalue/multiplexed_async.rs] ([wasmcloud:keyvalue]).  A guest has
    several backends behind one interface; a bucket remembers the one it was opened
    through.  Everything here is proved for any backend that keeps [KvLaws].  An
    answer [None] is a trap. *)

From Stdlib Require Import ZArith Lia Ascii.
From stdpp Require Import base list gmap strings option sorting.
From S2P Require Import Prelude RustStr HostMemory StoreLib KvMemory KvBackend.
Local Open Scope Z_scope.

(** The backends by their identity, what [Arc<dyn KvBackend>] compares by. *)
Record KvBucket := { kb_backend : nat; kb_name : string }.

Inductive AsyncKvError :=
  | ANoSuchStore | AAccessDenied | AOther (message : string) | PreconditionFailed | InvalidArgument.

Definition from_store_error (e : StoreError) : AsyncKvError :=
  match e with NoSuchStore => ANoSuchStore | AccessDenied => AAccessDenied | Other s => AOther s end.

Definition map_err {A E F} (f : E → F) (r : result A E) : result A F :=
  match r with Ok a => Ok a | Err e => Err (f e) end.

Record SetOptions := { ttl_ms : option Z; if_not_exists : bool }.

Section handlers.
Context {B : Type} `{!KvBackend B}.

Record Mux := { backends : gmap nat B; buckets : gmap nat KvBucket }.
Implicit Types m : Mux.

Definition set_backend m (id : nat) (b : B) : Mux :=
  {| backends := <[id := b]> (backends m); buckets := buckets m |}.

(** [store.open], of either interface: [id] is the backend of the import it was
    called on. *)
Definition open_on m (id rep : nat) (identifier : string) : option (result unit StoreError * Mux) :=
  b ← backends m !! id;
  let '(r, b) := kv_open b identifier in
  let m := set_backend m id b in
  Some (match r with
        | Err e => (Err e, m)
        | Ok _ => (Ok tt, {| backends := backends m;
                             buckets := <[rep := {| kb_backend := id; kb_name := identifier |}]>
                                          (buckets m) |})
        end).

(** A plain import of [wasmcloud:keyvalue/store] uses the default of its workload. *)
Definition open_default m (default_id : option nat) (rep : nat) (identifier : string) :
    option (result unit AsyncKvError * Mux) :=
  match default_id with
  | None => Some (Err (AOther "no default wasmcloud:keyvalue backend is bound for this component"), m)
  | Some id => '(r, m) ← open_on m id rep identifier; Some (map_err from_store_error r, m)
  end.

(** The bucket's own backend, whichever import the call came in on. *)
Definition reading {A} m (bucket : nat) (f : B → string → A) : option A :=
  kb ← buckets m !! bucket; b ← backends m !! kb_backend kb; Some (f b (kb_name kb)).

Definition writing {A} m (bucket : nat) (f : B → string → A * B) : option (A * Mux) :=
  kb ← buckets m !! bucket; b ← backends m !! kb_backend kb;
  let '(a, b) := f b (kb_name kb) in Some (a, set_backend m (kb_backend kb) b).

(** ** [wasi:keyvalue] *)

Definition wasi_get m bucket key := reading m bucket (λ b n, kv_get b n key).
Definition wasi_set m bucket key value := writing m bucket (λ b n, kv_set b n key value).
Definition wasi_delete m bucket key := writing m bucket (λ b n, kv_delete b n key).
Definition wasi_exists m bucket key := reading m bucket (λ b n, kv_exists b n key).
Definition wasi_list_keys m bucket cursor := reading m bucket (λ b n, kv_list_keys b n cursor).
Definition wasi_get_many m bucket keys := reading m bucket (λ b n, kv_get_many b n keys).
Definition wasi_set_many m bucket kvs := writing m bucket (λ b n, kv_set_many b n kvs).
Definition wasi_delete_many m bucket keys := writing m bucket (λ b n, kv_delete_many b n keys).

Definition wasi_increment m bucket key (delta : Z) :=
  writing m bucket (λ b n,
    if i64_MAX <? delta then (Err (Other "delta exceeds i64::MAX"), b)
    else
      let '(r, b) := kv_increment b n key delta in
      (match r with
       | Ok v => if v <? 0 then Err (Other "counter is negative") else Ok v
       | Err e => Err e
       end, b)).

Definition drop_bucket_of m (bucket : nat) : option Mux :=
  _ ← buckets m !! bucket; Some {| backends := backends m; buckets := delete bucket (buckets m) |}.

(** ** [wasmcloud:keyvalue] *)

Definition async_get m bucket key :=
  reading m bucket (λ b n, map_err from_store_error (kv_get b n key)).

Definition async_set m bucket key value (options : option SetOptions) :=
  writing m bucket (λ b n,
    let plain := let '(r, b) := kv_set b n key value in (map_err from_store_error r, b) in
    match options with
    | None => plain
    | Some opts =>
        if is_some (ttl_ms opts) then (Err (AOther "ttl-ms is not supported by this backend"), b)
        else if if_not_exists opts then
          let '(r, b) := kv_put_if_absent b n key value in
          (match r with
           | Ok true => Ok tt
           | Ok false => Err PreconditionFailed
           | Err e => Err (from_store_error e)
           end, b)
        else plain
    end).

Definition async_delete m bucket key :=
  writing m bucket (λ b n, let '(r, b) := kv_delete b n key in (map_err from_store_error r, b)).

Definition async_exists m bucket key :=
  reading m bucket (λ b n, map_err from_store_error (kv_exists b n key)).

Definition async_list_keys m bucket (prefix : option string) (cursor : option string) :
    option (result (list string * option string) AsyncKvError) :=
  reading m bucket (λ b n,
    let cursor := match cursor with
                  | None => Ok None
                  | Some c => match parse_uint u64_MAX c with
                              | Some z => Ok (Some z)
                              | None => Err InvalidArgument
                              end
                  end in
    match cursor with
    | Err e => Err e
    | Ok cursor =>
        match kv_list_keys b n cursor with
        | Err e => Err (from_store_error e)
        | Ok (keys, next) =>
            Ok (match prefix with
                | Some p => filter (λ k, starts_with p k = true) keys
                | None => keys
                end, show_uint <$> next)
        end
    end).

Definition async_increment m bucket key (delta : Z) :=
  writing m bucket (λ b n, let '(r, b) := kv_increment b n key delta in (map_err from_store_error r, b)).

Definition async_current m bucket key :=
  reading m bucket (λ b n, map_err from_store_error (kv_current b n key)).

(** [swap] refuses a call without a requirement before it looks at the bucket. *)
Definition async_swap m bucket key value (guard : CasGuard) :
    option (result CasOutcome AsyncKvError * Mux) :=
  if negb (is_some (require_version guard)) && negb (is_some (require_value guard))
  then Some (Err InvalidArgument, m)
  else writing m bucket (λ b n,
    let '(r, b) := kv_swap b n key value guard in (map_err from_store_error r, b)).

Definition async_get_many m bucket keys :=
  reading m bucket (λ b n, map_err from_store_error (kv_get_many b n keys)).
Definition async_set_many m bucket kvs :=
  writing m bucket (λ b n, let '(r, b) := kv_set_many b n kvs in (map_err from_store_error r, b)).
Definition async_delete_many m bucket keys :=
  writing m bucket (λ b n, let '(r, b) := kv_delete_many b n keys in (map_err from_store_error r, b)).

(** ** Calls *)

(** Everything a guest can do through its buckets that may change a backend. *)
Inductive HandlerCall :=
  | HSet (key : string) (value : list Z)
  | HDelete (key : string)
  | HIncrement (key : string) (delta : Z)
  | HSetMany (kvs : list (string * list Z))
  | HDeleteMany (keys : list string)
  | HDrop
  | HAsyncSet (key : string) (value : list Z) (options : option SetOptions)
  | HAsyncIncrement (key : string) (delta : Z)
  | HSwap (key : string) (value : list Z) (guard : CasGuard).

Definition changed {A} m (r : option (A * Mux)) : Mux :=
  match r with Some (_, m') => m' | None => m end.

Definition handle m (bucket : nat) (c : HandlerCall) : Mux :=
  match c with
  | HSet key value => changed m (wasi_set m bucket key value)
  | HDelete key => changed m (wasi_delete m bucket key)
  | HIncrement key delta => changed m (wasi_increment m bucket key delta)
  | HSetMany kvs => changed m (wasi_set_many m bucket kvs)
  | HDeleteMany keys => changed m (wasi_delete_many m bucket keys)
  | HDrop => default m (drop_bucket_of m bucket)
  | HAsyncSet key value options => changed m (async_set m bucket key value options)
  | HAsyncIncrement key delta => changed m (async_increment m bucket key delta)
  | HSwap key value guard => changed m (async_swap m bucket key value guard)
  end.

Inductive GuestStep :=
  | GOpen (id rep : nat) (identifier : string)
  | GCall (bucket : nat) (c : HandlerCall).

Definition guest_step m (s : GuestStep) : Mux :=
  match s with
  | GOpen id rep identifier => changed m (open_on m id rep identifier)
  | GCall bucket c => handle m bucket c
  end.

(** The backend a step goes to. *)
Definition goes_to m (s : GuestStep) : option nat :=
  match s with GOpen id _ _ => Some id | GCall bucket _ => kb_backend <$> buckets m !! bucket end.

Fixpoint elsewhere (id : nat) m (steps : list GuestStep) : Prop :=
  match steps with
  | [] => True
  | s :: steps => goes_to m s ≠ Some id ∧ elsewhere id (guest_step m s) steps
  end.

Lemma set_backend_other m id b id' : id ≠ id' → backends (set_backend m id b) !! id' = backends m !! id'.
Proof. intros. apply lookup_insert_ne. done. Qed.

Lemma writing_other {A} m bucket (f : B → string → A * B) id :
  kb_backend <$> buckets m !! bucket ≠ Some id →
  backends (changed m (writing m bucket f)) !! id = backends m !! id.
Proof.
  intros Hid. unfold writing. destruct (buckets m !! bucket) as [kb|]; [|done]. simpl in *.
  destruct (backends m !! kb_backend kb) as [b|]; [|done]. simpl.
  destruct (f b (kb_name kb)) as [a b']. simpl. apply lookup_insert_ne. congruence.
Qed.

(** Traffic stays on the backend it was opened for: whatever a guest does through
    buckets of other backends, and whatever it opens there, a backend (with the
    credentials behind it) is not touched. *)
Theorem bucket_reaches_only_its_backend id m steps :
  elsewhere id m steps → backends (foldl guest_step m steps) !! id = backends m !! id.
Proof.
  revert m. induction steps as [|s steps IH]; intros m; [done|]. intros [Hs Hr]. simpl.
  rewrite (IH _ Hr). destruct s as [id' rep n|bucket c]; simpl in *.
  - unfold open_on. destruct (backends m !! id') as [b|]; [|done]. simpl.
    destruct (kv_open b n) as [[u|e] b']; simpl; apply lookup_insert_ne; congruence.
  - destruct c; simpl; try by apply writing_other.
    + unfold drop_bucket_of. by destruct (buckets m !! bucket).
    + unfold async_swap. case_match; [done|]. by apply writing_other.
Qed.

(** ** For any backend that keeps its promise *)

Context `{!KvLaws B}.

(** The bucket behind a handle, as the map it is. *)
Definition bucket_view m (bucket : nat) : option (gmap string (list Z)) :=
  kb ← buckets m !! bucket; b ← backends m !! kb_backend kb; kv_view b (kb_name kb).

Lemma bucket_view_Some m bucket d :
  bucket_view m bucket = Some d →
  ∃ kb b, buckets m !! bucket = Some kb ∧ backends m !! kb_backend kb = Some b
    ∧ kv_view b (kb_name kb) = Some d.
Proof.
  unfold bucket_view. destruct (buckets m !! bucket) as [kb|]; [|done]. simpl.
  destruct (backends m !! kb_backend kb) as [b|] eqn:E; [|done]. simpl. intros Hv. by exists kb, b.
Qed.

Lemma bucket_view_after m bucket kb b :
  buckets m !! bucket = Some kb →
  bucket_view (set_backend m (kb_backend kb) b) bucket = kv_view b (kb_name kb).
Proof. intros Hk. unfold bucket_view, set_backend. simpl. rewrite Hk. simpl. by rewrite lookup_insert_eq. Qed.

Lemma wasi_get_view m bucket key d :
  bucket_view m bucket = Some d → wasi_get m bucket key = Some (Ok (d !! key)).
Proof.
  intros (kb & b & Hk & Hb & Hv)%bucket_view_Some. unfold wasi_get, reading. rewrite Hk. simpl.
  rewrite Hb. simpl. by rewrite kv_get_law, Hv.
Qed.

Lemma conditional_set m bucket key value d :
  bucket_view m bucket = Some d →
  ∃ m', async_set m bucket key value (Some {| ttl_ms := None; if_not_exists := true |})
        = Some (match d !! key with None => Ok tt | Some _ => Err PreconditionFailed end, m')
    ∧ bucket_view m' bucket = Some (match d !! key with None => <[key := value]> d | Some _ => d end).
Proof.
  intros (kb & b & Hk & Hb & Hv)%bucket_view_Some. unfold async_set, writing. rewrite Hk. simpl.
  rewrite Hb. simpl. pose proof (kv_absent_law b (kb_name kb) key value d Hv) as [Hr Hn].
  destruct (kv_put_if_absent b (kb_name kb) key value) as [r b']. simpl in *. subst r.
  eexists. split; [by destruct (d !! key)|]. rewrite bucket_view_after by done.
  rewrite Hn, decide_True by done. by destruct (d !! key).
Qed.

(** Callers that set a key only if it is absent, one after the other. *)
Fixpoint contend m bucket key (values : list (list Z)) : list (option (result unit AsyncKvError)) * Mux :=
  match values with
  | [] => ([], m)
  | value :: values =>
      match async_set m bucket key value (Some {| ttl_ms := None; if_not_exists := true |}) with
      | Some (r, m) => let '(rs, m) := contend m bucket key values in (Some r :: rs, m)
      | None => let '(rs, m) := contend m bucket key values in (None :: rs, m)
      end
  end.

Lemma contend_taken m bucket key values d v :
  bucket_view m bucket = Some d → d !! key = Some v →
  let '(rs, m') := contend m bucket key values in
  rs = replicate (length values) (Some (Err PreconditionFailed)) ∧ bucket_view m' bucket = Some d.
Proof.
  intros Hd Hv. revert m Hd. induction values as [|value values IH]; intros m Hd; [done|].
  cbn [contend]. destruct (conditional_set m bucket key value d Hd) as (m1 & -> & Hm1).
  rewrite Hv in *. specialize (IH m1 Hm1). destruct (contend m1 bucket key values) as [rs m'].
  destruct IH as [-> ?]. done.
Qed.

(** Of several callers that set a key only if it is absent, the first wins and
    every other is told that the precondition failed; what is read afterwards is
    the first one's value. *)
Theorem first_conditional_set_wins m bucket key value values d :
  bucket_view m bucket = Some d → d !! key = None →
  let '(rs, m') := contend m bucket key (value :: values) in
  rs = Some (Ok tt) :: replicate (length values) (Some (Err PreconditionFailed))
  ∧ wasi_get m' bucket key = Some (Ok (Some value)).
Proof.
  intros Hd Hk. cbn [contend]. destruct (conditional_set m bucket key value d Hd) as (m1 & -> & Hm1).
  rewrite Hk in *. pose proof (contend_taken m1 bucket key values _ value Hm1 (lookup_insert_eq _ _ _)) as Hc.
  destruct (contend m1 bucket key values) as [rs m']. destruct Hc as [-> Hv]. split; [done|].
  by rewrite (wasi_get_view m' bucket key _ Hv), lookup_insert_eq.
Qed.

(** ** Listing by prefix *)

(** A client of [list-keys]: cursors are text to it. *)
Fixpoint follow_text (next : option string → option (result (list string * option string) AsyncKvError))
    (n : nat) (cursor : option string) : option (list string) :=
  match n with
  | O => None
  | S n =>
      match next cursor with
      | Some (Ok (keys, None)) => Some keys
      | Some (Ok (keys, Some c)) => rest ← follow_text next n (Some c); Some (keys ++ rest)
      | _ => None
      end
  end.

Lemma follow_text_prefix m bucket kb b p pages n c :
  buckets m !! bucket = Some kb → backends m !! kb_backend kb = Some b →
  (∀ c, kv_list_keys b (kb_name kb) c = Ok (pages c)) →
  (∀ c next, 0 ≤ default 0 c ≤ u64_MAX → (pages c).2 = Some next → 0 ≤ next ≤ u64_MAX) →
  0 ≤ default 0 c ≤ u64_MAX →
  follow_text (async_list_keys m bucket (Some p)) n (show_uint <$> c)
  = filter (λ k, starts_with p k = true) <$> follow pages n c.
Proof.
  intros Hk Hb Hpages Hrange. revert c. induction n as [|n IH]; intros c Hc; [done|].
  cbn [follow_text follow]. unfold async_list_keys at 1, reading. rewrite Hk. cbn [mbind option_bind].
  rewrite Hb. cbn [mbind option_bind].
  assert (match show_uint <$> c with
          | Some c => match parse_uint u64_MAX c with Some z => Ok (Some z) | None => Err InvalidArgument end
          | None => Ok None
          end = Ok c) as ->.
  { destruct c as [z|]; simpl in *; [|done]. rewrite parse_show_uint by lia. done. }
  rewrite Hpages. destruct (pages c) as [keys [next|]] eqn:Ep; simpl; [|done].
  specialize (Hrange c next Hc). rewrite Ep in Hrange. specialize (Hrange eq_refl).
  rewrite (IH (Some next) Hrange : follow_text _ n (Some (show_uint next)) = _).
  destruct (follow pages n (Some next)) as [rest|]; [|done]. simpl. by rewrite filter_app.
Qed.

(** Listing by prefix is complete: a client that follows the cursors gets exactly
    the keys of the bucket that start with the prefix, each once, and the listing
    ends, though single pages may be short or empty. *)
Theorem prefix_listing_is_complete m bucket d p :
  bucket_view m bucket = Some d → Z.of_nat (size d) ≤ 2 ^ 63 →
  ∃ rounds keys, follow_text (async_list_keys m bucket (Some p)) rounds None = Some keys
    ∧ NoDup keys ∧ ∀ k, k ∈ keys ↔ is_Some (d !! k) ∧ starts_with p k = true.
Proof.
  intros (kb & b & Hk & Hb & Hv)%bucket_view_Some Hs.
  destruct (kv_list_law b (kb_name kb) d Hv Hs) as (pages & keys & Hnd & Hin & Hp & [rounds Hf] & Hr).
  exists rounds, (filter (λ k, starts_with p k = true) keys). split_and!.
  - change (@None string) with (show_uint <$> None).
    rewrite (follow_text_prefix m bucket kb b p pages rounds None Hk Hb Hp Hr); [by rewrite Hf|].
    unfold u64_MAX. simpl. lia.
  - by apply NoDup_filter.
  - intros k. rewrite list_elem_of_filter, Hin. tauto.
Qed.

End handlers.
Arguments Mux B : clear implicits.

(** ** On the in-memory backend *)

(** A guest with one bucket on each of two backends. *)
Definition two_backends : Mux (gmap string Bucket) :=
  foldl guest_step {| backends := {[0%nat := ∅; 1%nat := ∅]}; buckets := ∅ |}
    [GOpen 0 0 "b"; GOpen 1 1 "b"; GCall 0 (HSet "user:1" [1]); GCall 0 (HSet "user:2" [2]);
     GCall 0 (HSet "other" [3]); GCall 0 (HAsyncIncrement "n" (-5))].

(** An increment that reports an error has still counted: on a counter another
    interface took below zero, [wasi:keyvalue]'s increment answers "counter is
    negative", and each call moves the counter on; a caller that retries the failed
    increment counts it twice. *)
Theorem failed_increment_still_counts :
  let fails := Some (Err (Other "counter is negative")) in
  let m1 := handle two_backends 0 (HIncrement "n" 2) in
  fst <$> wasi_increment two_backends 0 "n" 2 = fails
  ∧ fst <$> wasi_increment m1 0 "n" 2 = fails
  ∧ fst <$> wasi_increment (handle m1 0 (HIncrement "n" 2)) 0 "n" 2 = Some (Ok 1).
Proof. vm_compute. done. Qed.

(** What the first of its buckets holds. *)
Definition held : gmap string (list Z) := default ∅ (bucket_view two_backends 0).

Lemma bucket_reaches_only_its_backend_witness :
  let steps := [GOpen 1 2 "b"; GCall 1 (HSet "user:1" [9]); GCall 2 (HDeleteMany ["user:1"; "n"]); GCall 1 HDrop] in
  elsewhere 0 two_backends steps
  ∧ backends (foldl guest_step two_backends steps) !! 0%nat = backends two_backends !! 0%nat.
Proof.
  intros steps. assert (elsewhere 0 two_backends steps) as H by (vm_compute; repeat split; discriminate).
  split; [exact H|]. exact (bucket_reaches_only_its_backend 0 two_backends steps H).
Defined.

Lemma first_conditional_set_wins_witness :
  (contend two_backends 0 "lock" [[1]; [2]; [3]]).1
  = [Some (Ok tt); Some (Err PreconditionFailed); Some (Err PreconditionFailed)].
Proof.
  pose proof (first_conditional_set_wins two_backends 0 "lock" [1] [[2]; [3]]
    held (eq_refl : bucket_view two_backends 0 = Some held) ltac:(vm_compute; reflexivity)) as H.
  destruct (contend two_backends 0 "lock" [[1]; [2]; [3]]) as [rs m']. exact (proj1 H).
Defined.

Lemma prefix_listing_is_complete_witness :
  ∃ rounds keys, follow_text (async_list_keys two_backends 0 (Some "user:")) rounds None = Some keys
    ∧ NoDup keys
    ∧ ∀ k, k ∈ keys ↔ is_Some (held !! k) ∧ starts_with "user:" k = true.
Proof.
  apply (prefix_listing_is_complete two_backends 0 held "user:");
    [vm_compute; reflexivity|vm_compute; discriminate].
Defined.
