(* ===== verification/Wit.v ===== *)
(** * Interfaces and worlds

    [wit.rs]: what a component asks for and a plugin offers, and when one answers
    the other; and, from [plugin/mod.rs], the entries a plugin is handed
    ([WitInterfaces]), the check that no two plugins redefine one WASI interface
    ([check_wasi_overrides]) and the [WorkloadTracker].  A [HashSet] that is only
    searched is a list in any order.  The [semver] crate is the class [SemverLib]:
    its [Version] is a record, and reading and printing one are opaque. *)

From Stdlib Require Import ZArith Lia Ascii.
From stdpp Require Import base list gmap strings option sorting.
From S2P Require Import Prelude RustStr StoreLib.
Local Open Scope string_scope.

(** ** Versions *)

(** [semver::Version]; [pre] is the text of the prerelease, empty for a release. *)
Record Version := { major : Z; minor : Z; patch : Z; pre : string; build : string }.
#[global] Instance Version_eq_dec : EqDecision Version.
Proof. solve_decision. Defined.

Class SemverLib := {
  semver_parse : string → option Version;
  semver_show : Version → string;
}.

Definition release (major minor patch : Z) : Version :=
  {| major := major; minor := minor; patch := patch; pre := ""; build := "" |}.

Definition canonical_version (v : Version) : option (Z * Z) :=
  if negb (is_empty (pre v)) then None
  else if (major v =? 0)%Z then
    if (minor v =? 0)%Z then None else Some (0, minor v)%Z
  else Some (major v, 0)%Z.

(** The numbers and the prerelease; not the build. *)
Definition numbers (v : Version) : Z * Z * Z * string := (major v, minor v, patch v, pre v).

Definition versions_compatible (a b : option Version) : bool :=
  match a, b with
  | Some a, Some b =>
      bool_decide (numbers a = numbers b)
      || is_some_and (canonical_version a) (λ c, bool_decide (Some c = canonical_version b))
  | _, _ => true
  end.

(** ** Interfaces *)

Record WitInterface := {
  namespace : string;
  package : string;
  interfaces : gset string;
  version : option Version;
  config : gmap string string;
  name : option string;
}.
Implicit Types (i j : WitInterface).

#[global] Instance WitInterface_eq_dec : EqDecision WitInterface.
Proof. solve_decision. Defined.

Definition same_package i j : bool :=
  bool_decide (namespace i = namespace j) && bool_decide (package i = package j)
  && versions_compatible (version i) (version j).

Definition contains_interface i j : bool :=
  same_package i j
  && negb (match name i, name j with Some n, Some m => negb (bool_decide (n = m)) | _, _ => false end)
  && bool_decide (interfaces j ⊆ interfaces i).

Definition WASI_BASE_PACKAGES : list string :=
  ["io"; "filesystem"; "clocks"; "random"; "cli"; "sockets"; "http"].

Definition wasi_base_versions (package : string) : list Version :=
  if bool_decide (package = "io") then [release 0 2 0] else [release 0 2 0; release 0 3 0].

Definition is_host_builtin i : bool :=
  bool_decide (namespace i = "wasi") && bool_decide (package i ∈ WASI_BASE_PACKAGES)
  && existsb (λ v, versions_compatible (version i) (Some v)) (wasi_base_versions (package i)).

Definition is_incoming_http_handler i : bool :=
  bool_decide (namespace i = "wasi") && bool_decide (package i = "http")
  && (bool_decide ("incoming-handler" ∈ interfaces i) || bool_decide ("handler" ∈ interfaces i)).

(** ** Worlds *)

Record WitWorld := { imports : list WitInterface; exports : list WitInterface }.
Implicit Types w : WitWorld.

Definition includes w i : bool :=
  existsb (λ im, contains_interface im i) (imports w)
  || existsb (λ ex, contains_interface ex i) (exports w).

Definition mentions_package w i : bool :=
  existsb (same_package i) (imports w) || existsb (same_package i) (exports w).

(** Some import or export of [i]'s package has the interface [x]. *)
Definition covers (l : list WitInterface) i (x : string) : bool :=
  existsb (λ im, same_package i im && bool_decide (x ∈ interfaces im)) l.

Definition uses w i : bool :=
  if bool_decide (interfaces i = ∅) then mentions_package w i
  else existsb (λ x, covers (imports w) i x || covers (exports w) i x) (elements (interfaces i)).

Definition includes_bidirectional w i : bool :=
  if bool_decide (interfaces i = ∅) then mentions_package w i
  else forallb (λ x, covers (imports w) i x || covers (exports w) i x) (elements (interfaces i)).

Definition provides w i : bool := forallb (covers (imports w) i) (elements (interfaces i)).

(** The loop of [satisfies]: every import of the guest matched by an export, and by
    no two of different versions. *)
Definition satisfied_by (provided : list WitInterface) (required : WitInterface) : bool :=
  let matched := filter (λ p, contains_interface p required = true) provided in
  match matched with
  | [] => false
  | [_] => true
  | _ => (length (remove_dups (omap version matched)) <=? 1)%nat
  end.

Definition satisfies w (guest : WitWorld) : bool := forallb (satisfied_by (exports w)) (imports guest).

(** ** Names of instances *)

Section text.
Context `{SemverLib}.

Definition instance i : string :=
  let base := match name i with
              | Some n => namespace i +:+ ":" +:+ package i +:+ "/" +:+ n
              | None => namespace i +:+ ":" +:+ package i
              end in
  match version i with Some v => base +:+ "@" +:+ semver_show v | None => base end.

(** [HashMap::extend] overwrites. *)
Definition merge i j : bool * WitInterface :=
  if bool_decide (instance i ≠ instance j) then (false, i)
  else (true, {| namespace := namespace i; package := package i;
                 interfaces := interfaces i ∪ interfaces j; version := version i;
                 config := config j ∪ config i; name := name i |}).

Fixpoint join (sep : string) (l : list string) : string :=
  match l with
  | [] => ""
  | [x] => x
  | x :: l => x +:+ sep +:+ join sep l
  end.

(** [Display]; [order] is the order the set of interfaces is walked in. *)
Definition to_string i (order : list string) : string :=
  namespace i +:+ ":" +:+ package i
  +:+ match name i with Some n => " [" +:+ n +:+ "]" | None => "" end
  +:+ match order with [] => "" | _ => "/" +:+ join "," order end
  +:+ match version i with Some v => "@" +:+ semver_show v | None => "" end.

Definition from_str (s : string) : WitInterface :=
  let '(main, version) := match split_once "@" s with
                          | Some (m, v) => (m, Some v) | None => (s, None) end in
  let '(namespace_package, interface) := match split_once "/" main with
                                         | Some (np, iface) => (np, Some iface)
                                         | None => (main, None) end in
  let '(namespace, package) := match split_once ":" namespace_package with
                               | Some (ns, pkg) => (ns, pkg) | None => ("", namespace_package) end in
  {| namespace := namespace; package := package;
     interfaces := match interface with
                   | Some iface => list_to_set (filter (λ s, is_empty s = false) (trim <$> split "," iface))
                   | None => ∅
                   end;
     version := version ≫= semver_parse;
     config := ∅; name := None |}.

(** ** The entries a plugin is handed *)

Definition entry_matches i (ns pkg : string) (names : list string) : bool :=
  bool_decide (namespace i = ns) && bool_decide (package i = pkg)
  && (bool_decide (interfaces i = ∅) || forallb (λ x, bool_decide (x ∈ interfaces i)) names).

(** [None] sorts before [Some], as the derived order of [Option] has it. *)
Definition name_key (n : option string) : list Z * list (list Z) :=
  match n with None => ([], []) | Some s => ([1%Z], [bytes_of s]) end.

Definition entry_order i : (list Z * list (list Z)) * (string * (string * string)) :=
  (name_key (name i),
   (instance i, (join "," (merge_sort ord_le (elements (interfaces i))),
                 join "," (sorted_keys (config i))))).

(** [sort_by_cached_key] is stable. *)
Fixpoint insert_entry i (l : list WitInterface) : list WitInterface :=
  match l with
  | [] => [i]
  | j :: r => if ord_leb (entry_order i) (entry_order j) then i :: l else j :: insert_entry i r
  end.

Definition matching (inner : list WitInterface) (ns pkg : string) (names : list string) : list WitInterface :=
  foldr insert_entry [] (filter (λ i, entry_matches i ns pkg names = true) inner).

(** [min_by_key] returns the first of several least elements. *)
Fixpoint min_entry (l : list WitInterface) : option WitInterface :=
  match l with
  | [] => None
  | i :: l =>
      match min_entry l with
      | Some j => Some (if ord_leb (entry_order i) (entry_order j) then i else j)
      | None => Some i
      end
  end.

Definition get_entry (inner : list WitInterface) (ns pkg : string) (names : list string) : option WitInterface :=
  min_entry (filter (λ i, entry_matches i ns pkg names = true) inner).

Definition contains_entry (inner : list WitInterface) (ns pkg : string) (names : list string) : bool :=
  existsb (λ i, entry_matches i ns pkg names) inner.

End text.

(** ** Overrides of WASI interfaces *)

Definition overrides_overlap i j : bool :=
  same_package i j
  && (bool_decide (interfaces i = ∅) || bool_decide (interfaces j = ∅)
      || existsb (λ x, bool_decide (x ∈ interfaces j)) (elements (interfaces i))).

Inductive OverrideError :=
  | NotHostLinked (id : string) (i : WitInterface)
  | Conflict (other id : string) (theirs ours : WitInterface).

(** The interfaces one plugin overrides, against those declared so far. *)
Fixpoint check_plugin (id : string) (overrides : list WitInterface)
    (declared : list (string * WitInterface)) : result (list (string * WitInterface)) OverrideError :=
  match overrides with
  | [] => Ok declared
  | i :: overrides =>
      if negb (is_host_builtin i) then Err (NotHostLinked id i)
      else match find (λ d, negb (bool_decide (d.1 = id)) && overrides_overlap d.2 i) declared with
           | Some (other, theirs) => Err (Conflict other id theirs i)
           | None => check_plugin id overrides (declared ++ [(id, i)])
           end
  end.

(** [plugins]: the registered plugins in the order of their ids, each with the
    imports of its [wasi_overrides()]. *)
Fixpoint check_overrides_loop (plugins : list (string * list WitInterface))
    (declared : list (string * WitInterface)) : result (list (string * WitInterface)) OverrideError :=
  match plugins with
  | [] => Ok declared
  | (id, overrides) :: plugins =>
      match check_plugin id overrides declared with
      | Ok declared => check_overrides_loop plugins declared
      | Err e => Err e
      end
  end.

Definition check_wasi_overrides (plugins : list (string * list WitInterface)) : result unit OverrideError :=
  match check_overrides_loop plugins [] with Ok _ => Ok tt | Err e => Err e end.

(** ** When versions answer each other *)

(** Two declared versions are compatible exactly when they are the same up to the
    build, or are releases that share the major number and, below 1.0, the minor
    one, which must not be zero. *)
Theorem compatible_versions_iff a b :
  versions_compatible (Some a) (Some b) = true ↔
  numbers a = numbers b
  ∨ pre a = "" ∧ pre b = "" ∧ major a = major b
    ∧ (major a ≠ 0%Z ∨ minor a = minor b ∧ minor a ≠ 0%Z).
Proof.
  unfold versions_compatible. rewrite orb_true_iff, bool_decide_eq_true.
  apply or_iff_compat_l. unfold canonical_version.
  destruct (is_empty (pre a)) eqn:Ea; [apply is_empty_spec in Ea|]; simpl.
  2:{ split; [done|]. intros [H _]. by rewrite H in Ea. }
  destruct (is_empty (pre b)) eqn:Eb; [apply is_empty_spec in Eb|]; simpl.
  2:{ split.
      - by destruct (major a =? 0)%Z; [destruct (minor a =? 0)%Z|]; simpl; rewrite ?bool_decide_eq_true.
      - intros (_ & H & _). by rewrite H in Eb. }
  destruct (Z.eqb_spec (major a) 0), (Z.eqb_spec (major b) 0); try destruct (Z.eqb_spec (minor a) 0);
    try destruct (Z.eqb_spec (minor b) 0); simpl; rewrite ?bool_decide_eq_true; naive_solver congruence.
Qed.

#[global] Instance compatible_equivalence :
  Equivalence (λ a b, versions_compatible (Some a) (Some b) = true).
Proof.
  assert (∀ a b, versions_compatible (Some a) (Some b) = true ↔
    numbers a = numbers b ∨ canonical_version a ≠ None ∧ canonical_version a = canonical_version b) as H.
  { intros a b. unfold versions_compatible. rewrite orb_true_iff, bool_decide_eq_true.
    apply or_iff_compat_l. destruct (canonical_version a); simpl; rewrite ?bool_decide_eq_true; naive_solver. }
  assert (∀ a b, numbers a = numbers b → canonical_version a = canonical_version b) as Hc.
  { intros a b [= H1 H2 H3 H4]. unfold canonical_version. by rewrite H1, H2, H4. }
  split.
  - intros a. apply H. by left.
  - intros a b [E|[E1 E2]]%H; apply H; [by left|right]. by rewrite <-E2.
  - intros a b c Hab%H Hbc%H. apply H.
    destruct Hab as [E1|[E1 E1']], Hbc as [E2|[E2 E2']]; [left; congruence|right..].
    + rewrite (Hc a b E1). done.
    + by rewrite E1', <-(Hc b c E2), <-E1'.
    + by rewrite E1', <-E2'.
Qed.

(** ** Printing and reading *)

(** The characters of the names in an interface. *)
Definition is_wit_char (c : ascii) : bool := is_ascii_alphanumeric c || Ascii.eqb c "-".
Definition is_wit_name (s : string) : bool := str_all is_wit_char s && negb (is_empty s).

Lemma wit_name_lacks d s : is_wit_char d = false → is_wit_name s = true → lacks d s = true.
Proof. intros Hd [Hs _]%andb_true_iff. by eapply str_all_lacks. Qed.

Lemma lacks_app d s t : lacks d (s +:+ t) = lacks d s && lacks d t.
Proof. apply str_all_app. Qed.

Lemma lacks_split_once d q s : lacks d s = true → split_once (String d q) s = None.
Proof.
  intros Hs. apply split_once_None_of_contains.
  apply (str_all_not_contains (λ c, negb (Ascii.eqb c d))); [done|]. by rewrite Ascii.eqb_refl.
Qed.

Lemma split_app_lacks d a b : lacks d a = true → split d (a +:+ String d b) = a :: split d b.
Proof.
  unfold lacks. induction a as [|c a IH]; intros Ha.
  - rewrite str_app_nil. simpl. by rewrite Ascii.eqb_refl.
  - simpl in Ha. bools. rewrite str_app_cons. simpl. rewrite IH by done.
    destruct (Ascii.eqb_spec c d) as [->|]; [|done]. done.
Qed.

Lemma split_lacks d a : lacks d a = true → split d a = [a].
Proof.
  unfold lacks. induction a as [|c a IH]; intros Ha; [done|]. simpl in *. bools.
  rewrite IH by done. by destruct (Ascii.eqb_spec c d).
Qed.

Lemma split_nonempty d s : split d s ≠ [].
Proof. destruct s as [|c s]; [done|]. simpl. destruct (Ascii.eqb c d); [done|]. by destruct (split d s). Qed.

Lemma join_cons sep x l : l ≠ [] → join sep (x :: l) = x +:+ sep +:+ join sep l.
Proof. by destruct l. Qed.

Lemma join_split d s : join (String d "") (split d s) = s.
Proof.
  induction s as [|c s IH]; [done|]. simpl. destruct (Ascii.eqb_spec c d) as [->|Hne].
  - rewrite join_cons by apply split_nonempty. rewrite IH. done.
  - destruct (split d s) as [|x l] eqn:E; [by apply split_nonempty in E|].
    destruct l as [|y l]; [simpl in *; by rewrite IH|].
    rewrite !join_cons in * by done. by rewrite str_app_cons, IH.
Qed.

Lemma join_two sep l k : l ≠ [] → k ≠ [] → join sep (l ++ k)%list = join sep l +:+ sep +:+ join sep k.
Proof.
  intros Hl Hk. induction l as [|x l IH]; [done|]. destruct l as [|y l].
  - simpl app. rewrite join_cons by done. done.
  - change ((x :: y :: l) ++ k)%list with (x :: ((y :: l) ++ k))%list.
    rewrite (join_cons sep x ((y :: l) ++ k)), IH, (join_cons sep x (y :: l)) by done. by rewrite !str_app_assoc.
Qed.

Lemma split_join d l :
  l ≠ [] → Forall (λ s, lacks d s = true) l → split d (join (String d "") l) = l.
Proof.
  intros Hne Hl. induction Hl as [|x l Hx Hl IH]; [done|]. destruct l as [|y l].
  - by apply split_lacks.
  - change (join (String d "") (x :: y :: l)) with (x +:+ String d "" +:+ join (String d "") (y :: l)).
    rewrite str_app_cons, str_app_nil, split_app_lacks by done. by rewrite IH.
Qed.

Lemma join_lacks d l :
  d ≠ ","%char → Forall (λ s, lacks d s = true) l → lacks d (join "," l) = true.
Proof.
  intros Hd Hl. induction Hl as [|x l Hx Hl IH]; [done|]. destruct l as [|y l]; [done|].
  change (join "," (x :: y :: l)) with (x +:+ "," +:+ join "," (y :: l)).
  rewrite !lacks_app, Hx, IH. unfold lacks. simpl. by destruct (Ascii.eqb_spec "," d).
Qed.

Lemma wit_name_trim s : is_wit_name s = true → trim s = s.
Proof.
  intros [Hs _]%andb_true_iff. apply (trim_id is_wit_char); [|done].
  intros c r Hc. clear -Hc. destruct c as [[] [] [] [] [] [] [] []]; by vm_compute in Hc |- *.
Qed.

Lemma wit_names_kept l :
  Forall (λ s, is_wit_name s = true) l → filter (λ s, is_empty s = false) (trim <$> l) = l.
Proof.
  induction 1 as [|x l Hx Hl IH]; [done|]. rewrite fmap_cons, wit_name_trim by done.
  rewrite filter_cons_True, IH; [done|]. apply andb_true_iff in Hx as [_ Hx]. by apply negb_true_iff.
Qed.

Section printing.
Context `{SemverLib}.

(** The pieces [from_str] cuts a printed interface into. *)
Lemma cut_version m (v : option Version) :
  lacks "@" m = true →
  match split_once "@" (m +:+ match v with Some v => "@" +:+ semver_show v | None => "" end) with
  | Some (m, v) => (m, Some v)
  | None => (m +:+ match v with Some v => "@" +:+ semver_show v | None => "" end, None)
  end = (m, semver_show <$> v).
Proof.
  intros Hm. destruct v as [v|]; simpl.
  - by rewrite split_once_lacks.
  - by rewrite str_app_nil_r, lacks_split_once.
Qed.

Definition listed (order : list string) : string :=
  match order with [] => "" | _ => "/" +:+ join "," order end.

Lemma cut_interfaces np order :
  lacks "/" np = true →
  match split_once "/" (np +:+ listed order) with
  | Some (np, iface) => (np, Some iface)
  | None => (np +:+ listed order, None)
  end = (np, match order with [] => None | _ => Some (join "," order) end).
Proof.
  intros Hn. unfold listed. destruct order as [|x l].
  - by rewrite str_app_nil_r, lacks_split_once.
  - by rewrite split_once_lacks.
Qed.

Lemma listed_lacks d order :
  is_wit_char d = false → d ≠ ","%char → d ≠ "/"%char → Forall (λ s, is_wit_name s = true) order →
  lacks d (listed order) = true.
Proof.
  intros Hd Hc Hs Ho. unfold listed. destruct order as [|x l]; [done|].
  rewrite lacks_app, join_lacks; [|done|].
  - unfold lacks. simpl. by destruct (Ascii.eqb_spec "/" d).
  - eapply Forall_impl; [done|]. intros s. by apply wit_name_lacks.
Qed.

Lemma prefix_lacks d i :
  is_wit_char d = false → d ≠ ":"%char →
  is_wit_name (namespace i) = true → is_wit_name (package i) = true →
  lacks d (namespace i +:+ ":" +:+ package i) = true.
Proof.
  intros Hd Hc Hn Hp. rewrite !lacks_app, (wit_name_lacks d (namespace i)), (wit_name_lacks d (package i)) by done.
  unfold lacks. simpl. by destruct (Ascii.eqb_spec ":" d).
Qed.

(** An interface printed for a log or a manifest is read back as itself, whatever
    order its set of interfaces was printed in, provided its names are made of
    letters, digits and dashes, it carries neither a name nor a configuration, and
    the semver crate reads back the version it prints. *)
Theorem wit_print_parse i order :
  is_wit_name (namespace i) = true → is_wit_name (package i) = true →
  Forall (λ s, is_wit_name s = true) order → order ≡ₚ elements (interfaces i) →
  name i = None → config i = ∅ →
  (∀ v, version i = Some v → semver_parse (semver_show v) = Some v) →
  from_str (to_string i order) = i.
Proof.
  intros Hn Hp Ho Hord Hname Hcfg Hv.
  assert (list_to_set order = interfaces i) as Hset
    by (apply leibniz_equiv; rewrite Hord; apply list_to_set_elements).
  assert (to_string i order = ((namespace i +:+ ":" +:+ package i) +:+ listed order)
            +:+ match version i with Some v => "@" +:+ semver_show v | None => "" end) as ->
    by (unfold to_string; by rewrite Hname, str_app_nil, !str_app_assoc).
  unfold from_str. rewrite cut_version by (rewrite lacks_app, prefix_lacks, listed_lacks; done).
  rewrite cut_interfaces by (apply prefix_lacks; done).
  rewrite split_once_lacks by (apply wit_name_lacks; done). destruct i; simpl in *. subst. f_equal.
  - destruct order as [|x l]; [done|]. rewrite split_join; [by rewrite wit_names_kept|done|].
    eapply Forall_impl; [done|]. intros s. by apply wit_name_lacks.
  - destruct version0 as [v|]; [|done]. simpl. by apply Hv.
Qed.
End printing.

(** ** Which entry comes first *)

Section entries.
Context `{SemverLib}.

Lemma insert_entry_perm i l : insert_entry i l ≡ₚ i :: l.
Proof.
  induction l as [|j l IH]; [done|]. simpl. destruct (ord_leb _ _); [done|].
  rewrite IH. apply Permutation_swap.
Qed.

Lemma head_insert i l :
  head (insert_entry i l)
  = Some (match head l with
          | Some j => if ord_leb (entry_order i) (entry_order j) then i else j
          | None => i
          end).
Proof. destruct l as [|j l]; [done|]. simpl. by destruct (ord_leb _ _). Qed.

Definition by_order i j : Prop := ord_leb (entry_order i) (entry_order j) = true.

Lemma insert_entry_sorted i l : StronglySorted by_order l → StronglySorted by_order (insert_entry i l).
Proof.
  induction 1 as [|j l Hl IH Hj]; [by repeat constructor|]. simpl.
  destruct (ord_leb (entry_order i) (entry_order j)) eqn:E.
  - constructor; [by constructor|]. constructor; [done|].
    eapply Forall_impl; [done|]. intros k. by apply ord_leb_trans.
  - constructor; [done|]. rewrite insert_entry_perm. constructor; [by apply ord_leb_total|done].
Qed.

Lemma sorted_entries l :
  foldr insert_entry [] l ≡ₚ l ∧ StronglySorted by_order (foldr insert_entry [] l)
  ∧ head (foldr insert_entry [] l) = min_entry l.
Proof.
  induction l as [|i l (Hp & Hs & Hh)]; [by repeat constructor|]. simpl. split_and!.
  - by rewrite insert_entry_perm, Hp.
  - by apply insert_entry_sorted.
  - rewrite head_insert, Hh. by destruct (min_entry l).
Qed.

(** A name sorts after no name. *)
Lemma unnamed_first i j : by_order i j → name j = None → name i = None.
Proof.
  unfold by_order, entry_order, ord_leb. simpl. unfold pair_cmp at 1. simpl. intros Hij Hj.
  rewrite Hj in Hij. destruct (name i); [|done]. done.
Qed.

(** The entries a plugin is handed for its package are every matching one, once,
    in the fixed order of their keys; a plugin that reads a single entry gets the
    first of them; and when one of them is unnamed, the first is: the package's
    default route does not depend on how the set is walked. *)
Theorem default_route_comes_first inner ns pkg names :
  let l := matching inner ns pkg names in
  (∀ i, i ∈ l ↔ i ∈ inner ∧ entry_matches i ns pkg names = true)
  ∧ StronglySorted by_order l
  ∧ get_entry inner ns pkg names = head l
  ∧ (∀ i j, i ∈ l → name i = None → head l = Some j → name j = None).
Proof.
  intros l. destruct (sorted_entries (filter (λ i, entry_matches i ns pkg names = true) inner))
    as (Hp & Hs & Hh). fold (matching inner ns pkg names) in Hp, Hs, Hh. fold l in Hp, Hs, Hh.
  split_and!; [|done|done|].
  - intros i. rewrite Hp, list_elem_of_filter. tauto.
  - intros i j Hi Hn Hj. destruct l as [|k l']; [done|]. injection Hj as ->.
    apply elem_of_cons in Hi as [->|Hi]; [done|].
    apply StronglySorted_inv in Hs as [_ Hs]. rewrite Forall_forall in Hs.
    apply (unnamed_first j i); [by apply Hs|done].
Qed.
End entries.

(** ** No interface has two definitions *)

Lemma versions_compatible_sym a b : versions_compatible a b = versions_compatible b a.
Proof.
  destruct a as [a|], b as [b|]; try done. apply eq_true_iff_eq.
  split; intros Hab; [by apply (@symmetry _ _ (@Equivalence_Symmetric _ _ compatible_equivalence))
                     |by apply (@symmetry _ _ (@Equivalence_Symmetric _ _ compatible_equivalence))].
Qed.

Lemma same_package_sym i j : same_package i j = same_package j i.
Proof.
  unfold same_package. rewrite versions_compatible_sym.
  by rewrite (bool_decide_ext (namespace i = _) (namespace j = namespace i)),
    (bool_decide_ext (package i = _) (package j = package i)) by (split; congruence).
Qed.

Lemma overlap_iff i j :
  overrides_overlap i j = true ↔
  same_package i j = true ∧ (interfaces i = ∅ ∨ interfaces j = ∅ ∨ ∃ x, x ∈ interfaces i ∧ x ∈ interfaces j).
Proof.
  unfold overrides_overlap. rewrite andb_true_iff, !orb_true_iff, existsb_elem.
  setoid_rewrite bool_decide_eq_true. setoid_rewrite elem_of_elements. naive_solver.
Qed.

Lemma overlap_sym i j : overrides_overlap i j = overrides_overlap j i.
Proof. apply eq_true_iff_eq. rewrite !overlap_iff, same_package_sym. naive_solver. Qed.

Lemma check_plugin_ok id l d d' :
  check_plugin id l d = Ok d' ↔
  d' = (d ++ ((λ i, (id, i)) <$> l))%list ∧ (∀ i, i ∈ l → is_host_builtin i = true)
  ∧ ∀ o theirs i, (o, theirs) ∈ d → o ≠ id → i ∈ l → overrides_overlap theirs i = false.
Proof.
  revert d. induction l as [|i l IH]; intros d; simpl.
  { rewrite app_nil_r. split; [intros [= <-]; split_and!; [done|by intros ? ?%not_elem_of_nil|by intros ? ? ? _ _ ?%not_elem_of_nil]|by intros [-> _]]. }
  destruct (is_host_builtin i) eqn:Eb; simpl.
  2:{ split; [done|]. intros (_ & Hb & _). rewrite (Hb i) in Eb by (apply elem_of_cons; by left). done. }
  destruct (find _ d) as [[o theirs]|] eqn:Ef.
  - split; [done|]. intros (_ & _ & Hno).
    apply find_some in Ef as [Hin Hc]. simpl in Hc. bools. apply list_elem_of_In in Hin.
    rewrite (Hno o theirs i) in *; [done|done|done|apply elem_of_cons; by left].
  - rewrite IH. rewrite <-app_assoc. simpl.
    assert (∀ o theirs, (o, theirs) ∈ d → o ≠ id → overrides_overlap theirs i = false) as Hi.
    { intros o theirs Hd Ho. apply list_elem_of_In in Hd. pose proof (find_none _ _ Ef _ Hd) as Hn.
      simpl in Hn. rewrite bool_decide_eq_false_2 in Hn by done. done. }
    split.
    + intros (-> & Hb & Hno). split_and!; [done| |].
      * intros j [->|Hj]%elem_of_cons; [done|by apply Hb].
      * intros o theirs j Hd Ho [->|Hj]%elem_of_cons; [by eapply Hi|].
        apply (Hno o theirs j); [apply elem_of_app; by left|done|done].
    + intros (-> & Hb & Hno). split_and!; [done|by intros j Hj; apply Hb, elem_of_cons; right|].
      intros o theirs j Hd Ho Hj.
      apply elem_of_app in Hd as [Hd|Hd]; [apply (Hno o theirs j); [done|done|apply elem_of_cons; by right]|].
      apply list_elem_of_singleton in Hd. congruence.
Qed.

(** The declarations of a list of plugins. *)
Definition declarations (plugins : list (string * list WitInterface)) : list (string * WitInterface) :=
  mjoin ((λ p, (λ i, (p.1, i)) <$> p.2) <$> plugins).

Lemma check_loop_ok plugins d :
  is_ok (check_overrides_loop plugins d) = true ↔
  (∀ o i, (o, i) ∈ declarations plugins → is_host_builtin i = true)
  ∧ (∀ o i o' j, (o, i) ∈ d → (o', j) ∈ declarations plugins → o ≠ o' → overrides_overlap i j = false)
  ∧ (∀ o i o' j, (o, i) ∈ declarations plugins → (o', j) ∈ declarations plugins → o ≠ o' →
     overrides_overlap i j = false).
Proof.
  revert d. induction plugins as [|[id l] plugins IH]; intros d; simpl.
  { split; [|done]. intros _. split_and!; unfold declarations; simpl;
      intros; repeat match goal with Hx : _ ∈ [] |- _ => by apply not_elem_of_nil in Hx end. }
  unfold declarations in *. simpl. setoid_rewrite elem_of_app.
  setoid_rewrite list_elem_of_fmap.
  destruct (check_plugin id l d) as [d'|e] eqn:E.
  - apply check_plugin_ok in E as (-> & Hb & Hno). rewrite IH. setoid_rewrite elem_of_app.
    setoid_rewrite list_elem_of_fmap. split.
    + intros (Hb' & Hd & Hp). split_and!.
      * intros o i [(x & [= -> ->] & Hx)|Hx]; eauto.
      * intros o i o' j Hi [(x & [= -> ->] & Hx)|Hx] Hne; [eauto|]. apply (Hd o i o' j); auto.
      * intros o i o' j [(x & [= -> ->] & Hx)|Hx] [(y & [= -> ->] & Hy)|Hy] Hne; try done.
        -- apply (Hd id x o' j); [right; by exists x|done|done].
        -- rewrite overlap_sym. apply (Hd id y o i); [right; by exists y|done|done].
        -- apply (Hp o i o' j); done.
    + intros (Hb' & Hd & Hp). split_and!.
      * intros o i Hi. apply (Hb' o i). by right.
      * intros o i o' j [Hi|(x & [= -> ->] & Hx)] Hj Hne.
        -- apply (Hd o i o' j); auto.
        -- apply (Hp id x o' j); [left; by exists x|by right|done].
      * intros o i o' j Hi Hj Hne. apply (Hp o i o' j); auto.
  - split; [done|]. intros (Hb' & Hd & Hp). exfalso.
    assert (check_plugin id l d = Ok (d ++ ((λ i, (id, i)) <$> l))%list) as Hok; [|congruence].
    apply check_plugin_ok. split_and!; [done| |].
    + intros i Hi. apply (Hb' id i). left. by exists i.
    + intros o theirs i Ho Hne Hi. apply (Hd o theirs id i); [done|left; by exists i|done].
Qed.

(** Registration refuses exactly the plugin sets in which a plugin overrides
    something the host does not link itself, or two plugins override a common
    interface: the same package at compatible versions with an interface in
    common, or one of them the whole package. *)
Theorem overrides_accepted_iff plugins :
  check_wasi_overrides plugins = Ok tt ↔
  (∀ o i, (o, i) ∈ declarations plugins → is_host_builtin i = true)
  ∧ ∀ o i o' j, (o, i) ∈ declarations plugins → (o', j) ∈ declarations plugins → o ≠ o' →
      same_package i j = true →
      interfaces i ≠ ∅ ∧ interfaces j ≠ ∅ ∧ interfaces i ## interfaces j.
Proof.
  assert (check_wasi_overrides plugins = Ok tt ↔ is_ok (check_overrides_loop plugins []) = true) as ->
    by (unfold check_wasi_overrides; destruct (check_overrides_loop plugins []); done).
  rewrite check_loop_ok. split.
  - intros (Hb & _ & Hp). split; [done|]. intros o i o' j Hi Hj Hne Hs.
    pose proof (Hp o i o' j Hi Hj Hne) as Ho. rewrite <-not_true_iff_false, overlap_iff in Ho.
    split_and!; [naive_solver|naive_solver|]. intros x Hx Hx'. apply Ho. naive_solver.
  - intros (Hb & Hp). split_and!; [done|by intros ? ? ? ? ?%not_elem_of_nil|]. intros o i o' j Hi Hj Hne.
    rewrite <-not_true_iff_false, overlap_iff. intros (Hs & Hd).
    destruct (Hp o i o' j Hi Hj Hne Hs) as (? & ? & Hx). destruct Hd as [?|[?|(x & ? & ?)]]; [done|done|].
    by apply (Hx x).
Qed.

(** ** The workload tracker *)

Section tracker.
Context {T Y : Type}.

Record TrackerItem := { workload_data : option T; item_components : gmap string Y }.
Record Tracker := { workloads : gmap string TrackerItem; components : gmap string string }.
Implicit Types t : Tracker.

Definition empty_tracker : Tracker := {| workloads := ∅; components := ∅ |}.

Definition add_unresolved_workload t (id : string) (d : T) : Tracker :=
  {| workloads := <[id := {| workload_data := Some d; item_components := ∅ |}]> (workloads t);
     components := components t |}.

Definition take_workload t (id : string) : option TrackerItem * Tracker :=
  match workloads t !! id with
  | None => (None, t)
  | Some item =>
      (Some item,
       {| workloads := delete id (workloads t);
          components := foldr (λ c m, delete c m) (components t)
                          (elements (dom (item_components item))) |})
  end.

Definition remove_workload t (id : string) : Tracker := (take_workload t id).2.

(** [remove_workload_with_cleanup]: what is cleaned up, components before the
    workload; [order] is the order the map of components is walked in. *)
Definition remove_workload_with_cleanup t (id : string) (order : list string) :
    list (Y + option T) * Tracker :=
  match take_workload t id with
  | (None, t) => ([], t)
  | (Some item, t) =>
      (((λ y, inl y) <$> omap (λ c, item_components item !! c) order) ++ [inr (workload_data item)], t)%list
  end.

Definition add_component t (component_id workload_id : string) (d : Y) : Tracker :=
  let item := default {| workload_data := None; item_components := ∅ |} (workloads t !! workload_id) in
  {| workloads := <[workload_id := {| workload_data := workload_data item;
                                      item_components := <[component_id := d]> (item_components item) |}]>
                    (workloads t);
     components := <[component_id := workload_id]> (components t) |}.

Definition get_workload_data t (id : string) : option T :=
  item ← workloads t !! id; workload_data item.

Definition get_component_data t (component_id : string) : option Y :=
  workload_id ← components t !! component_id; item ← workloads t !! workload_id;
  item_components item !! component_id.

(** A workload is added once, and a component belongs to one workload. *)
Inductive tracker_step : Tracker → Tracker → Prop :=
  | ts_workload t id d : workloads t !! id = None → tracker_step t (add_unresolved_workload t id d)
  | ts_component t c id d :
      (∀ id', components t !! c = Some id' → id' = id) → tracker_step t (add_component t c id d)
  | ts_remove t id : tracker_step t (remove_workload t id).

Definition agrees t : Prop :=
  ∀ c id, components t !! c = Some id ↔ ∃ item, workloads t !! id = Some item ∧ is_Some (item_components item !! c).

Lemma lookup_foldr_delete {V} (m : gmap string V) l c :
  foldr (λ c m, delete c m) m l !! c = if bool_decide (c ∈ l) then None else m !! c.
Proof.
  induction l as [|x l IH]; simpl; [done|]. destruct (decide (c = x)) as [->|Hc].
  - rewrite lookup_delete_eq, bool_decide_eq_true_2; [done|]. apply elem_of_cons. by left.
  - rewrite lookup_delete_ne, IH by done. apply (f_equal (λ b : bool, if b then None else m !! c)).
    apply bool_decide_ext. rewrite elem_of_cons. naive_solver.
Qed.

Lemma tracker_step_agrees t t' : agrees t → tracker_step t t' → agrees t'.
Proof.
  intros Ha Hs. destruct Hs as [t id d Hid|t c0 id d Hc0|t id]; intros c id'.
  - simpl. rewrite (Ha c id'). destruct (decide (id' = id)) as [->|].
    + rewrite lookup_insert_eq, Hid. split; [naive_solver|].
      intros (item & [= <-] & Hi). simpl in Hi. rewrite lookup_empty in Hi. by destruct Hi.
    + by rewrite lookup_insert_ne.
  - simpl. set (item := default _ (workloads t !! id)).
    assert (∀ c, is_Some (item_components item !! c) ↔ components t !! c = Some id) as Hitem.
    { intros c1. unfold item. rewrite (Ha c1 id). destruct (workloads t !! id) as [it|]; simpl; [naive_solver|].
      rewrite lookup_empty. split; [by intros []|naive_solver]. }
    destruct (decide (c = c0)) as [->|Hc].
    + rewrite lookup_insert_eq. destruct (decide (id' = id)) as [->|Hid].
      * rewrite lookup_insert_eq. split; [intros _|done]. eexists. split; [done|].
        simpl. rewrite lookup_insert_eq. by eexists.
      * rewrite lookup_insert_ne by done. rewrite <-(Ha c0 id'). split; [congruence|].
        intros Hx. specialize (Hc0 id' Hx). congruence.
    + rewrite lookup_insert_ne by done. destruct (decide (id' = id)) as [->|Hid].
      * rewrite lookup_insert_eq, <-Hitem. split.
        -- intros Hx. eexists. split; [done|]. simpl. by rewrite lookup_insert_ne.
        -- intros (it & [= <-] & Hx). simpl in Hx. by rewrite lookup_insert_ne in Hx.
      * rewrite lookup_insert_ne by done. apply Ha.
  - unfold remove_workload, take_workload. destruct (workloads t !! id) as [item|] eqn:Eid; [|apply Ha].
    simpl. rewrite lookup_foldr_delete. case_bool_decide as Hc.
    + apply elem_of_elements, elem_of_dom in Hc. split; [done|]. intros (it & Hit & Hx).
      destruct (decide (id' = id)) as [->|Hne]; [by rewrite lookup_delete_eq in Hit|].
      rewrite lookup_delete_ne in Hit by done.
      assert (components t !! c = Some id) by (apply Ha; by exists item).
      assert (components t !! c = Some id') by (apply Ha; by exists it). congruence.
    + rewrite elem_of_elements, elem_of_dom in Hc. rewrite (Ha c id').
      destruct (decide (id' = id)) as [->|Hne].
      * rewrite lookup_delete_eq, Eid. naive_solver.
      * by rewrite lookup_delete_ne.
Qed.

(** The two indexes of a tracker agree after any history in which a workload is
    added once and a component stays with its workload: a component is indexed
    under a workload exactly when the workload holds it, so removing workloads
    leaves nothing behind. *)
Theorem tracker_indexes_agree t :
  rtc tracker_step empty_tracker t → agrees t ∧ (workloads t = ∅ → components t = ∅).
Proof.
  intros Hr. assert (agrees t) as Ha.
  { remember empty_tracker as t0 eqn:E0. assert (agrees t0) as H0.
    { subst. intros c id. simpl. rewrite !lookup_empty. naive_solver. }
    clear E0. induction Hr as [|t0 t1 t2 Hs _ IH]; [done|]. apply IH. by eapply tracker_step_agrees. }
  split; [done|]. intros Hw. apply map_eq. intros c. rewrite lookup_empty.
  destruct (components t !! c) as [id|] eqn:E; [|done]. apply Ha in E as (item & Hi & _).
  by rewrite Hw, lookup_empty in Hi.
Qed.
End tracker.
Arguments Tracker T Y : clear implicits.

(** ** The theorems at work *)

(** A semver crate that reads and prints releases only. *)
Definition simple_parse (s : string) : option Version :=
  match split "." s with
  | [a; b; c] =>
      a ← parse_uint u64_MAX a; b ← parse_uint u64_MAX b; c ← parse_uint u64_MAX c; Some (release a b c)
  | _ => None
  end.
Definition simple_semver : SemverLib := {|
  semver_parse := simple_parse;
  semver_show v := show_uint (major v) +:+ "." +:+ show_uint (minor v) +:+ "." +:+ show_uint (patch v);
|}.

Definition keyvalue : WitInterface :=
  {| namespace := "wasi"; package := "keyvalue"; interfaces := {["store"; "atomics"]};
     version := Some (release 0 2 0); config := ∅; name := None |}.

Lemma wit_print_parse_witness :
  from_str (H := simple_semver) "wasi:keyvalue/store,atomics@0.2.0" = keyvalue.
Proof.
  apply (wit_print_parse (H := simple_semver) keyvalue ["store"; "atomics"]);
    [reflexivity|reflexivity|repeat constructor| |reflexivity|reflexivity|].
  - apply (bool_decide_eq_true_1 _). vm_compute. reflexivity.
  - intros v [= <-]. vm_compute. reflexivity.
Defined.

Lemma tracker_indexes_agree_witness :
  let t := add_component (add_unresolved_workload (empty_tracker (T := nat) (Y := nat)) "w" 0%nat) "c" "w" 1%nat in
  agrees t ∧ (workloads t = ∅ → components t = ∅).
Proof.
  intros t. apply (tracker_indexes_agree t).
  eapply rtc_l; [by apply ts_workload|]. eapply rtc_l; [by apply ts_component|]. apply rtc_refl.
Defined.
