(* ===== verification/BindingKeys.v ===== *)
(** * What a plugin says of its configuration keys

    The first half of [plugin/bindings.rs]: the canonical spelling of a key, the
    policy's text, and [BindingSchema], in which a plugin classifies its keys,
    joins spellings of one key, names the keys a binding must have and may close
    the list of keys it reads.  A [BTreeMap] is a [gmap], read through
    [sorted_keys] where its order shows. *)

From Stdlib Require Import ZArith Lia Ascii.
From stdpp Require Import base list gmap strings option sorting.
From S2P Require Import Prelude RustStr StoreLib.
Local Open Scope string_scope.

(** ** Spellings and policies *)

(** [str::replace] of one ASCII character by another. *)
Definition replace_char (a b : ascii) (s : string) : string :=
  str_map (λ c, if Ascii.eqb c a then b else c) s.

Definition canonical_key (key : string) : string :=
  to_ascii_lowercase (replace_char "_" "-" (trim key)).

Inductive WorkloadConfigPolicy := Allow | Deny | Warn.
#[global] Instance WorkloadConfigPolicy_eq_dec : EqDecision WorkloadConfigPolicy.
Proof. solve_decision. Defined.

Definition as_str (p : WorkloadConfigPolicy) : string :=
  match p with Allow => "allow" | Deny => "deny" | Warn => "warn" end.
Definition enforces (p : WorkloadConfigPolicy) : bool := bool_decide (p = Deny).
Definition reports (p : WorkloadConfigPolicy) : bool := bool_decide (p ≠ Allow).

Definition policy_from_str (s : string) : result WorkloadConfigPolicy string :=
  let s := to_ascii_lowercase (trim s) in
  if bool_decide (s = "allow") then Ok Allow
  else if bool_decide (s = "deny") then Ok Deny
  else if bool_decide (s = "warn") then Ok Warn
  else Err s.

(** [Workload] is the default. *)
Inductive KeyOwnership := Workload | Host | HostCeiling.
#[global] Instance KeyOwnership_eq_dec : EqDecision KeyOwnership.
Proof. solve_decision. Defined.

Definition is_hosts (o : KeyOwnership) : bool := bool_decide (o ≠ Workload).

Definition stricter_ownership (l r : KeyOwnership) : KeyOwnership :=
  match l, r with
  | Host, _ | _, Host => Host
  | HostCeiling, _ | _, HostCeiling => HostCeiling
  | _, _ => Workload
  end.

(** ** The schema *)

Record BindingSchema := {
  owners : gmap string KeyOwnership;
  aliases : gmap string string;
  required : gset string;
  closed : bool;
}.
Section schema.
Implicit Types s : BindingSchema.

Definition empty_schema : BindingSchema :=
  {| owners := ∅; aliases := ∅; required := ∅; closed := false |}.

Definition canonical s (key : string) : string :=
  let folded := canonical_key key in default folded (aliases s !! folded).

Definition identifies s (key : string) : bool :=
  bool_decide (canonical_key key ∈ dom (aliases s)) || bool_decide (canonical s key ∈ dom (owners s)).

(** [entry(key).and_modify(..).or_insert(o)] with the stricter of two answers. *)
Definition own (m : gmap string KeyOwnership) (key : string) (o : KeyOwnership) : gmap string KeyOwnership :=
  <[key := match m !! key with Some e => stricter_ownership e o | None => o end]> m.

Definition classify_key (o : KeyOwnership) s (key : string) : BindingSchema :=
  {| owners := own (owners s) (canonical s key) o; aliases := aliases s;
     required := required s; closed := closed s |}.
Definition classify s (keys : list string) (o : KeyOwnership) : BindingSchema :=
  foldl (classify_key o) s keys.

Definition with_host_owned_keys (keys : list string) : BindingSchema := classify empty_schema keys Host.
Definition and_host_ceiling_keys s (keys : list string) : BindingSchema := classify s keys HostCeiling.
Definition and_workload_owned_keys s (keys : list string) : BindingSchema :=
  let s := classify s keys Workload in
  {| owners := owners s; aliases := aliases s; required := required s; closed := true |}.

Definition and_alias s (pair : string * string) : BindingSchema :=
  let left := canonical_key pair.1 in
  let right := canonical_key pair.2 in
  let keep := canonical s left in
  let absorbed := canonical s right in
  if bool_decide (keep = absorbed) then
    {| owners := owners s; aliases := <[left := keep]> (aliases s);
       required := required s; closed := closed s |}
  else
    let moved := (λ v, if bool_decide (v = absorbed) then keep else v) <$> aliases s in
    {| owners := match owners s !! absorbed with
                 | Some o => own (delete absorbed (owners s)) keep o
                 | None => owners s
                 end;
       aliases := <[keep := keep]> (<[absorbed := keep]> (<[right := keep]> (<[left := keep]> moved)));
       required := required s; closed := closed s |}.
Definition and_aliases s (pairs : list (string * string)) : BindingSchema := foldl and_alias s pairs.

Definition and_required_keys s (keys : list string) : BindingSchema :=
  {| owners := owners s; aliases := aliases s;
     required := list_to_set (canonical s <$> keys) ∪ required s; closed := closed s |}.

(** [BTreeSet]: in order. *)
Definition sorted_set (X : gset string) : list string := merge_sort ord_le (elements X).
Definition required_keys s : list string := sorted_set (required s).

Definition ownership s (key : string) : KeyOwnership := default Workload (owners s !! canonical s key).
Definition host_owned_keys s : list string :=
  filter (λ k, is_hosts (default Workload (owners s !! k)) = true) (sorted_keys (owners s)).
Definition owns s (key : string) : bool := is_hosts (ownership s key).

Definition schema_is_empty s : bool :=
  bool_decide (owners s = ∅) && bool_decide (aliases s = ∅) && bool_decide (required s = ∅)
  && negb (closed s).

Definition knows s (key : string) : bool := bool_decide (canonical s key ∈ dom (owners s)).

End schema.

(** ** Suggestions *)

(** [str::chars]: each character is its UTF-8 bytes, the first of which is not
    of the form [10xxxxxx]. *)
Definition is_continuation (c : ascii) : bool := (128 <=? byte c)%N && (byte c <? 192)%N.
Fixpoint chars (s : string) : list string :=
  match s with
  | EmptyString => []
  | String c r =>
      match chars r, r with
      | ch :: l, String c' _ => if is_continuation c' then String c ch :: l else String c "" :: ch :: l
      | l, _ => String c "" :: l
      end
  end.

(** [take_while(x == y).count()] over the two zipped. *)
Fixpoint common_prefix (a b : list string) : nat :=
  match a, b with
  | x :: a, y :: b => if bool_decide (x = y) then S (common_prefix a b) else O
  | _, _ => O
  end.
Definition common_prefix_len (a b : string) : nat := common_prefix (chars a) (chars b).

(** The loop of [within_one_edit]; the indices are what is left of each side. *)
Fixpoint edit_loop (same_length : bool) (edited : bool) (short long : list string) {struct long} : bool :=
  match short, long with
  | s :: short', l :: long' =>
      if bool_decide (s = l) then edit_loop same_length edited short' long'
      else if edited then false
      else edit_loop same_length true (if same_length then short' else short) long'
  | _, _ => true
  end.

Definition within_one_edit (a b : string) : bool :=
  let '(a, b) := (chars a, chars b) in
  let '(short, long) := if decide (List.length a ≤ List.length b)%nat then (a, b) else (b, a) in
  if decide (1 < List.length long - List.length short)%nat then false
  else edit_loop (bool_decide (List.length short = List.length long)) false short long.

(** The later of two for [max_by]: the longer shared prefix, then the spelling
    that sorts first. *)
Definition nearer (key : string) (a b : string) : bool :=
  let '(m, n) := (common_prefix_len key a, common_prefix_len key b) in
  if decide (m < n)%nat then true else if decide (n < m)%nat then false else ord_leb b a.

(** [Iterator::max_by]: the last of the greatest. *)
Definition max_by (le : string → string → bool) (l : list string) : option string :=
  foldl (λ best k, match best with
                   | None => Some k
                   | Some b => if le b k then Some k else Some b
                   end) None l.

Definition nearest (s : BindingSchema) (key : string) : option string :=
  let key := canonical s key in
  max_by (nearer key) (filter (λ known, within_one_edit key known = true) (sorted_keys (owners s))).

(** No two of the pairs sorted have the same key. *)
Definition unknown_keys (s : BindingSchema) (config : gmap string string) : list (string * option string) :=
  if negb (closed s) then []
  else (λ key, (key, nearest s key)) <$> filter (λ key, knows s key = false) (sorted_keys config).

(** ** Building a schema, one declaration at a time *)

Inductive Declaration :=
  | Classify (o : KeyOwnership) (key : string)
  | Alias (representative alias : string)
  | Require (key : string)
  | Close.

Definition close (s : BindingSchema) : BindingSchema :=
  {| owners := owners s; aliases := aliases s; required := required s; closed := true |}.

Definition declare (s : BindingSchema) (d : Declaration) : BindingSchema :=
  match d with
  | Classify o key => classify_key o s key
  | Alias a b => and_alias s (a, b)
  | Require key => and_required_keys s [key]
  | Close => close s
  end.
Definition build (ds : list Declaration) : BindingSchema := foldl declare empty_schema ds.

(** ** The canonical spelling is a normal form *)

Section trimming.
Implicit Types s : string.

(** No whitespace character's bytes begin another's. *)
Lemma whitespace_prefix_free w w' :
  w ∈ whitespace → w' ∈ whitespace → starts_with w w' = true → w = w'.
Proof.
  intros Hw Hw' Hs.
  assert (Forall (λ w, Forall (λ w', starts_with w w' = true → w = w') whitespace) whitespace) as HF.
  { vm_compute. repeat constructor; done. }
  rewrite Forall_forall in HF. specialize (HF w Hw). rewrite Forall_forall in HF. by apply HF.
Qed.

Lemma whitespace_nonempty w : w ∈ whitespace → w ≠ "".
Proof.
  assert (Forall (λ w, w ≠ "") whitespace) as HF by (vm_compute; repeat constructor; done).
  rewrite Forall_forall in HF. apply HF.
Qed.

Lemma str_prefixes a b c d : a +:+ b = c +:+ d → starts_with a c = true ∨ starts_with c a = true.
Proof.
  revert c. induction a as [|x a IH]; intros c Heq; [left; by rewrite starts_with_spec; exists c|].
  destruct c as [|y c]; [right; rewrite starts_with_spec; by exists (String x a)|].
  rewrite !str_app_cons in Heq. injection Heq as -> Heq.
  destruct (IH _ Heq) as [H|H]; rewrite starts_with_spec in H; destruct H as [r ->];
    [left|right]; rewrite starts_with_spec; exists r; by rewrite str_app_cons.
Qed.

Lemma find_map_elem {A B} (f : A → option B) l y :
  find_map f l = Some y → ∃ x, x ∈ l ∧ f x = Some y.
Proof.
  induction l as [|x l IH]; [done|]. simpl. destruct (f x) eqn:E.
  - intros [= ->]. exists x. split; [left|done].
  - intros (z & Hz & Hy)%IH. exists z. split; [by right|done].
Qed.

Lemma find_map_misses {A B} (f : A → option B) l : find_map f l = None → ∀ x, x ∈ l → f x = None.
Proof.
  induction l as [|x l IH]; intros Hn z Hz; [by apply not_elem_of_nil in Hz|]. simpl in Hn.
  destruct (f x) eqn:E; [done|]. apply elem_of_cons in Hz as [->|Hz]; auto.
Qed.

Lemma strip_ws_Some s r : strip_ws s = Some r ↔ ∃ w, w ∈ whitespace ∧ s = w +:+ r.
Proof.
  unfold strip_ws. split.
  - intros (w & Hw & Hs)%find_map_elem. exists w. by apply strip_prefix_Some in Hs.
  - intros (w & Hw & ->). destruct (find_map _ whitespace) as [r'|] eqn:E.
    + apply find_map_elem in E as (w' & Hw' & Hs). apply strip_prefix_Some in Hs.
      destruct (str_prefixes _ _ _ _ Hs) as [H|H];
        apply whitespace_prefix_free in H; try done; subst; apply str_app_inj_l in Hs; by subst.
    + apply (find_map_misses _ _ E) in Hw. by rewrite strip_prefix_app in Hw.
Qed.

Lemma strip_ws_app s r t : strip_ws s = Some r → strip_ws (s +:+ t) = Some (r +:+ t).
Proof.
  rewrite !strip_ws_Some. intros (w & Hw & ->). exists w. by rewrite str_app_assoc.
Qed.

Lemma strip_ws_length s r : strip_ws s = Some r → (String.length r < String.length s)%nat.
Proof.
  rewrite strip_ws_Some. intros (w & Hw & ->). rewrite str_length_app.
  apply whitespace_nonempty in Hw. destruct w; [done|]. simpl. lia.
Qed.

Lemma trim_start_fuel_enough n m s :
  (String.length s ≤ n)%nat → (String.length s ≤ m)%nat → trim_start_fuel n s = trim_start_fuel m s.
Proof.
  revert m s. induction n as [|n IH]; intros m s Hn Hm.
  - destruct s; [|simpl in Hn; lia]. by destruct m.
  - destruct m as [|m]; [by destruct s; [|simpl in Hm; lia]|]. simpl.
    destruct (strip_ws s) as [r|] eqn:E; [|done]. apply strip_ws_length in E. apply IH; lia.
Qed.

Lemma trim_start_unfold s :
  trim_start s = match strip_ws s with Some r => trim_start r | None => s end.
Proof.
  unfold trim_start. destruct s as [|c s]; [done|].
  change (String.length (String c s)) with (S (String.length s)). simpl trim_start_fuel.
  destruct (strip_ws (String c s)) as [r|] eqn:E; [|done]. apply strip_ws_length in E. simpl in E.
  apply trim_start_fuel_enough; lia.
Qed.

(** Induction on the whitespace characters a string begins with. *)
Lemma trim_start_ind (P : string → Prop) :
  (∀ s, strip_ws s = None → P s) → (∀ s r, strip_ws s = Some r → P r → P s) → ∀ s, P s.
Proof.
  intros Hn Hs s. remember (String.length s) as n eqn:E. revert s E.
  induction (lt_wf n) as [n _ IH]. intros s ->. destruct (strip_ws s) as [r|] eqn:E; [|by apply Hn].
  apply (Hs _ _ E). eapply IH; [|reflexivity]. by apply strip_ws_length.
Qed.

Lemma trim_start_stops s : strip_ws (trim_start s) = None.
Proof.
  induction s as [s E|s r E IH] using trim_start_ind; rewrite trim_start_unfold, E; done.
Qed.

Lemma trim_start_done s : strip_ws s = None → trim_start s = s.
Proof. intros E. by rewrite trim_start_unfold, E. Qed.

Lemma trim_start_blank s t : trim_start s = "" → trim_start (s +:+ t) = trim_start t.
Proof.
  induction s as [s E|s r E IH] using trim_start_ind; rewrite trim_start_unfold, E.
  - by intros ->.
  - intros Hr. rewrite (trim_start_unfold (s +:+ t)), (strip_ws_app _ _ _ E). by apply IH.
Qed.

(** [trim_end] drops a run of whitespace from the end. *)
Lemma trim_end_split s : ∃ t, s = trim_end s +:+ t ∧ trim_start t = "".
Proof.
  induction s as [|c s (t & Hs & Ht)]; [by exists ""|]. simpl.
  destruct (is_empty (trim_start (String c s))) eqn:E.
  - exists (String c s). apply is_empty_spec in E. done.
  - exists t. split; [|done]. rewrite str_app_cons. by f_equal.
Qed.

Lemma trim_end_idemp s : trim_end (trim_end s) = trim_end s.
Proof.
  induction s as [|c s IH]; [done|]. simpl.
  destruct (is_empty (trim_start (String c s))) eqn:E; [done|]. simpl.
  destruct (is_empty (trim_start (String c (trim_end s)))) eqn:E'; [|by rewrite IH].
  exfalso. apply is_empty_spec in E'. destruct (trim_end_split s) as (t & Hs & Ht).
  assert (trim_start (String c s) = "") as Hb; [|by rewrite Hb in E].
  by rewrite Hs, <-str_app_cons, trim_start_blank.
Qed.

Lemma trim_end_start s : strip_ws s = None → strip_ws (trim_end s) = None.
Proof.
  intros Hs. destruct (strip_ws (trim_end s)) as [r|] eqn:E; [|done]. exfalso.
  destruct (trim_end_split s) as (t & Ht & _). rewrite Ht in Hs.
  by rewrite (strip_ws_app _ _ _ E) in Hs.
Qed.

Lemma trim_idemp s : trim (trim s) = trim s.
Proof.
  unfold trim. rewrite (trim_start_done (trim_end _)), trim_end_idemp; [done|].
  apply trim_end_start, trim_start_stops.
Qed.

(** A map of bytes that neither makes nor loses one of a whitespace character. *)
Definition keeps (p : ascii → bool) (f : ascii → ascii) : Prop :=
  ∀ c d, p c = true → f d = c ↔ d = c.

Lemma strip_prefix_map p f w s :
  keeps p f → str_all p w = true → strip_prefix w (str_map f s) = str_map f <$> strip_prefix w s.
Proof.
  intros Hf. revert s. induction w as [|c w IH]; intros s Hw; [done|].
  destruct s as [|d s]; [done|]. simpl in *. bools.
  assert (Ascii.eqb c (f d) = Ascii.eqb c d) as ->.
  { destruct (Hf c d); [done|]. apply eq_true_iff_eq. rewrite !Ascii.eqb_eq. naive_solver. }
  destruct (Ascii.eqb c d); [|done]. by apply IH.
Qed.

Section mapped.
Context (p : ascii → bool) (f : ascii → ascii) (Hf : keeps p f).
Context (Hws : Forall (λ w, str_all p w = true) whitespace).

Lemma strip_ws_map s : strip_ws (str_map f s) = str_map f <$> strip_ws s.
Proof.
  unfold strip_ws. revert Hws. induction whitespace as [|w l IH]; intros Hl; [done|].
  apply Forall_cons in Hl as [Hw Hl]. simpl.
  rewrite (strip_prefix_map p) by done. destruct (strip_prefix w s); [done|]. by apply IH.
Qed.

Lemma trim_start_map s : trim_start (str_map f s) = str_map f (trim_start s).
Proof.
  induction s as [s E|s r E IH] using trim_start_ind;
    rewrite trim_start_unfold, strip_ws_map, (trim_start_unfold s), E; done.
Qed.

Lemma trim_map s : trim (str_map f s) = str_map f (trim s).
Proof.
  unfold trim. rewrite trim_start_map. induction (trim_start s) as [|c t IH]; [done|].
  change (str_map f (String c t)) with (String (f c) (str_map f t)). cbn [trim_end].
  change (String (f c) (str_map f t)) with (str_map f (String c t)). rewrite trim_start_map.
  destruct (trim_start (String c t)); [done|]. simpl. by rewrite IH.
Qed.
End mapped.

(** What [canonical_key] does to a byte. *)
Definition fold_byte (c : ascii) : ascii := lower (if Ascii.eqb c "_" then "-"%char else c).
Definition untouched (c : ascii) : bool :=
  negb (is_ascii_lower c) && negb (is_ascii_upper c) && negb (Ascii.eqb c "_") && negb (Ascii.eqb c "-").

Lemma canonical_key_map s : canonical_key s = str_map fold_byte (trim s).
Proof.
  unfold canonical_key, to_ascii_lowercase, replace_char. induction (trim s) as [|c t IH]; [done|].
  simpl. by rewrite IH.
Qed.

Lemma fold_byte_idemp c : fold_byte (fold_byte c) = fold_byte c.
Proof. by destruct c as [[] [] [] [] [] [] [] []]. Qed.

Lemma fold_byte_keeps : keeps untouched fold_byte.
Proof.
  intros c d Hc. split; [|intros ->]; revert Hc.
  - intros H <-. revert H. by destruct d as [[] [] [] [] [] [] [] []].
  - by destruct c as [[] [] [] [] [] [] [] []].
Qed.

Lemma canonical_key_idemp s : canonical_key (canonical_key s) = canonical_key s.
Proof.
  rewrite !canonical_key_map, (trim_map untouched), trim_idemp;
    [|apply fold_byte_keeps|vm_compute; repeat constructor].
  induction (trim s) as [|c t IH]; [done|]. simpl. by rewrite fold_byte_idemp, IH.
Qed.
End trimming.

(** ** The schema's invariant *)

Section invariant.
Implicit Types s : BindingSchema.

(** Spellings are folded, an alias is one step from its representative, and a
    class is kept under the representative. *)
Record schema_ok s : Prop := {
  alias_folded : ∀ k v, aliases s !! k = Some v → canonical_key k = k;
  alias_fixed : ∀ k v, aliases s !! k = Some v → aliases s !! v = Some v;
  owners_canonical : ∀ k, k ∈ dom (owners s) → canonical s k = k;
  required_folded : ∀ k, k ∈ required s → canonical_key k = k;
}.

Lemma canonical_of_folded s k : canonical s (canonical_key k) = canonical s k.
Proof. unfold canonical. by rewrite canonical_key_idemp. Qed.

Section ok.
Context s (Hok : schema_ok s).

Lemma canonical_folded k : canonical_key (canonical s k) = canonical s k.
Proof.
  unfold canonical. destruct (aliases s !! _) as [v|] eqn:E; [|apply canonical_key_idemp].
  apply (alias_fixed _ Hok) in E. by apply (alias_folded _ Hok) in E.
Qed.

Lemma canonical_idemp k : canonical s (canonical s k) = canonical s k.
Proof.
  unfold canonical at 1. rewrite canonical_folded. unfold canonical.
  destruct (aliases s !! canonical_key k) as [v|] eqn:E; simpl; [|by rewrite E].
  apply (alias_fixed _ Hok) in E. by rewrite E.
Qed.

Lemma ownership_canonical k : ownership s (canonical s k) = ownership s k.
Proof. unfold ownership. by rewrite canonical_idemp. Qed.

(** Whether a key is identified depends on the key, not on its spelling. *)
Lemma identifies_iff k :
  identifies s k = true ↔ canonical s k ∈ dom (aliases s) ∨ canonical s k ∈ dom (owners s).
Proof.
  unfold identifies. rewrite orb_true_iff, !bool_decide_eq_true.
  split; (intros [H|H]; [left|by right]); revert H; rewrite !elem_of_dom; unfold canonical.
  - intros [v E]. rewrite E. simpl. exists v. by apply (alias_fixed _ Hok) in E.
  - destruct (aliases s !! canonical_key k) eqn:E; [done|]. simpl. by rewrite E.
Qed.

Lemma identifies_same k k' : canonical s k = canonical s k' → identifies s k = identifies s k'.
Proof. intros E. apply eq_true_iff_eq. by rewrite !identifies_iff, E. Qed.

(** Joining two keys. *)
Lemma canonical_alias a b k :
  canonical (and_alias s (a, b)) k =
  if decide (canonical s k = canonical s b) then canonical s a else canonical s k.
Proof.
  unfold and_alias. simpl. rewrite !canonical_of_folded.
  destruct (bool_decide_reflect (canonical s a = canonical s b)) as [E|E].
  - trans (canonical s k); [|case_decide; congruence].
    unfold canonical at 1. simpl. destruct (decide (canonical_key a = canonical_key k)) as [Ek|Ek].
    + rewrite <-Ek, lookup_insert_eq. simpl. unfold canonical. by rewrite Ek.
    + by rewrite lookup_insert_ne.
  - unfold canonical at 1. simpl.
    pose proof (canonical_idemp a) as Ia. pose proof (canonical_idemp b) as Ib.
    destruct (decide (canonical s a = canonical_key k)) as [E1|E1].
    { rewrite <-E1, lookup_insert_eq. simpl.
      rewrite <-(canonical_of_folded s k), <-E1, Ia. by rewrite decide_False. }
    destruct (decide (canonical s b = canonical_key k)) as [E2|E2].
    { rewrite lookup_insert_ne, <-E2, lookup_insert_eq by congruence. simpl.
      rewrite <-(canonical_of_folded s k), <-E2, Ib. by rewrite decide_True. }
    destruct (decide (canonical_key b = canonical_key k)) as [E3|E3].
    { rewrite !lookup_insert_ne, <-E3, lookup_insert_eq by congruence. simpl.
      rewrite <-(canonical_of_folded s k), <-E3, canonical_of_folded. by rewrite decide_True. }
    destruct (decide (canonical_key a = canonical_key k)) as [E4|E4].
    { rewrite !lookup_insert_ne, <-E4, lookup_insert_eq by congruence. simpl.
      rewrite <-(canonical_of_folded s k), <-E4, canonical_of_folded. by rewrite decide_False. }
    rewrite !lookup_insert_ne, lookup_fmap by congruence.
    assert (canonical s k = default (canonical_key k) (aliases s !! canonical_key k)) as -> by done.
    destruct (aliases s !! canonical_key k) as [v|]; simpl.
    + by case_bool_decide; case_decide.
    + by rewrite decide_False by congruence.
Qed.

(** The class a key has, in any spelling. *)
Definition class (s : BindingSchema) (k : string) : option KeyOwnership := owners s !! canonical s k.

Lemma class_classify o key k :
  class (classify_key o s key) k =
  if decide (canonical s k = canonical s key)
  then Some (match class s key with Some e => stricter_ownership e o | None => o end) else class s k.
Proof.
  unfold class, classify_key, own, canonical. simpl. fold (canonical s key) (canonical s k).
  case_decide as E; [rewrite E; by rewrite lookup_insert_eq|by rewrite lookup_insert_ne].
Qed.

Definition stricter (x y : option KeyOwnership) : option KeyOwnership :=
  union_with (λ x y, Some (stricter_ownership x y)) x y.

Lemma class_alias a b k :
  class (and_alias s (a, b)) k =
  if decide (canonical s k = canonical s a ∨ canonical s k = canonical s b)
  then stricter (class s a) (class s b) else class s k.
Proof.
  unfold class at 1. rewrite canonical_alias. unfold and_alias. simpl. rewrite !canonical_of_folded.
  unfold class. destruct (bool_decide_reflect (canonical s a = canonical s b)) as [E|E]; simpl.
  - rewrite E. destruct (decide (canonical s k = canonical s b)) as [Ek|Ek].
    + rewrite decide_True by auto. by destruct (owners s !! canonical s b) as [[]|].
    + rewrite decide_False by tauto. done.
  - destruct (owners s !! canonical s b) as [o|] eqn:Eb.
    + unfold own. rewrite lookup_delete_ne by done.
      destruct (decide (canonical s k = canonical s b)) as [Ek|Ek].
      * rewrite decide_True, lookup_insert_eq by auto. by destruct (owners s !! canonical s a).
      * destruct (decide (canonical s k = canonical s a)) as [->|Ea].
        -- rewrite decide_True, lookup_insert_eq by auto. by destruct (owners s !! canonical s a).
        -- rewrite decide_False, lookup_insert_ne, lookup_delete_ne by naive_solver. done.
    + destruct (decide (canonical s k = canonical s b)) as [Ek|Ek].
      * rewrite decide_True by auto. by destruct (owners s !! canonical s a).
      * destruct (decide (canonical s k = canonical s a)) as [->|Ea].
        -- rewrite decide_True by auto. by destruct (owners s !! canonical s a).
        -- rewrite decide_False by tauto. done.
Qed.

Lemma classify_key_ok o key : schema_ok (classify_key o s key).
Proof.
  destruct Hok as [Hf Hx Ho Hr]. split; [done|done| |done].
  intros k. simpl. unfold own. rewrite dom_insert_L, elem_of_union, elem_of_singleton.
  intros [->|Hk]; [|by apply Ho]. apply canonical_idemp.
Qed.

Lemma and_required_ok keys : schema_ok (and_required_keys s keys).
Proof.
  destruct Hok as [Hf Hx Ho Hr]. split; [done|done|done|].
  intros k. simpl. rewrite elem_of_union, elem_of_list_to_set, list_elem_of_fmap.
  intros [(key & -> & _)|Hk]; [|by apply Hr]. apply canonical_folded.
Qed.

Lemma alias_keys a b k :
  k ∈ dom (aliases (and_alias s (a, b))) ↔
  k ∈ dom (aliases s) ∨ k = canonical_key a ∨
  canonical s a ≠ canonical s b ∧ (k = canonical_key b ∨ k = canonical s a ∨ k = canonical s b).
Proof.
  unfold and_alias. simpl. rewrite !canonical_of_folded.
  case_bool_decide; simpl; rewrite !dom_insert_L, ?dom_fmap_L; set_solver.
Qed.

Lemma alias_value s' k v :
  canonical_key k = k → aliases s' !! k = Some v → v = canonical s' k.
Proof. intros Hk Hv. unfold canonical. by rewrite Hk, Hv. Qed.

Lemma canonical_in_dom k : k ∈ dom (aliases s) → canonical s k ∈ dom (aliases s).
Proof.
  intros [v Hv]%elem_of_dom. rewrite <-(alias_value s k v); [|by apply (alias_folded _ Hok) in Hv|done].
  apply elem_of_dom. exists v. by apply (alias_fixed _ Hok) in Hv.
Qed.

Lemma and_alias_idemp a b k :
  canonical (and_alias s (a, b)) (canonical (and_alias s (a, b)) k) = canonical (and_alias s (a, b)) k.
Proof.
  rewrite !canonical_alias. repeat case_decide; rewrite ?canonical_idemp in *; congruence.
Qed.

Lemma and_alias_ok a b : schema_ok (and_alias s (a, b)).
Proof.
  assert (∀ k, k ∈ dom (aliases (and_alias s (a, b))) → canonical_key k = k) as Hkeys.
  { intros k [[v Hv]%elem_of_dom|H]%alias_keys; [by apply (alias_folded _ Hok) in Hv|].
    destruct H as [->|(_ & [->|[->| ->]])]; auto using canonical_key_idemp, canonical_folded. }
  assert (∀ k, k ∈ dom (aliases (and_alias s (a, b))) →
    canonical (and_alias s (a, b)) k ∈ dom (aliases (and_alias s (a, b)))) as Hvals.
  { intros k Hk. pose proof (Hkeys _ Hk) as Hfold. rewrite canonical_alias. rewrite alias_keys in Hk |- *.
    destruct (decide (canonical s a = canonical s b)) as [E|E].
    - assert (canonical s k ∈ dom (aliases s) ∨ canonical s k = canonical_key a) as Hc.
      { destruct Hk as [Hk|[->|[? _]]]; [left; by apply canonical_in_dom| |done].
        rewrite canonical_of_folded. unfold canonical. destruct (aliases s !! _) as [v|] eqn:Ev; [left|by right].
        apply (alias_fixed _ Hok) in Ev. by apply elem_of_dom; exists v. }
      case_decide as Ek; [rewrite E, <-Ek|]; tauto.
    - case_decide as Ek; [tauto|].
      destruct Hk as [Hk|[->|(_ & [->|[->| ->]])]]; rewrite ?canonical_of_folded, ?canonical_idemp in *;
        [left; by apply canonical_in_dom|tauto..]. }
  split.
  - intros k v Hv. apply Hkeys, elem_of_dom. by exists v.
  - intros k v Hv. assert (k ∈ dom (aliases (and_alias s (a, b)))) as Hk by (apply elem_of_dom; by exists v).
    rewrite (alias_value _ k v (Hkeys _ Hk) Hv). pose proof (Hvals _ Hk) as [v' Hv']%elem_of_dom.
    rewrite Hv'. f_equal. rewrite <-(and_alias_idemp a b k).
    apply alias_value; [|done]. apply Hkeys, elem_of_dom. by exists v'.
  - intros k Hk. assert (k ∈ dom (owners s) ∧ k ≠ canonical s b ∨ k = canonical s a ∨ canonical s a = canonical s b ∧ k ∈ dom (owners s)) as Hk'.
    { revert Hk. unfold and_alias. simpl. rewrite !canonical_of_folded. case_bool_decide; simpl; [by auto|].
      destruct (owners s !! canonical s b) eqn:Eb.
      - unfold own. rewrite dom_insert_L, dom_delete_L. set_solver.
      - apply not_elem_of_dom in Eb. set_solver. }
    rewrite canonical_alias.
    destruct Hk' as [[Hk' Hb]|[->|[E Hk']]]; [rewrite (owners_canonical _ Hok k Hk')|rewrite canonical_idemp|rewrite (owners_canonical _ Hok k Hk')];
      case_decide; congruence.
  - intros k. unfold and_alias. simpl. case_bool_decide; apply (required_folded _ Hok).
Qed.
End ok.

Lemma empty_ok : schema_ok empty_schema.
Proof. by split; simpl; intros k; rewrite ?lookup_empty. Qed.

Lemma close_ok s : schema_ok s → schema_ok (close s).
Proof. by intros []; split. Qed.

Lemma declare_ok s d : schema_ok s → schema_ok (declare s d).
Proof.
  intros Hok. destruct d; simpl; auto using classify_key_ok, and_alias_ok, and_required_ok, close_ok.
Qed.

Lemma build_ok ds : schema_ok (build ds).
Proof.
  unfold build. pose proof empty_ok as H. revert H. generalize empty_schema.
  induction ds as [|d ds IH]; intros s Hs; [done|]. simpl. apply IH. by apply declare_ok.
Qed.
End invariant.

(** ** What a schema means *)

Section meaning.

(** The spellings a list of declarations makes one key. *)
Definition joined (ds : list Declaration) (x y : string) : Prop :=
  ∃ a b, Alias a b ∈ ds ∧ x = canonical_key a ∧ y = canonical_key b.
Definition same_key (ds : list Declaration) (k k' : string) : Prop :=
  rtsc (joined ds) (canonical_key k) (canonical_key k').

(** One ownership is at least as strict as another: the workload's, then a ceiling,
    then the host's. *)
Definition strictness (o : KeyOwnership) : nat :=
  match o with Workload => 0 | HostCeiling => 1 | Host => 2 end.
Definition at_least (o o' : KeyOwnership) : Prop := (strictness o' ≤ strictness o)%nat.

Lemma same_key_sym ds k k' : same_key ds k k' → same_key ds k' k.
Proof. unfold same_key. intros H. by symmetry. Qed.
Lemma same_key_trans ds k1 k2 k3 : same_key ds k1 k2 → same_key ds k2 k3 → same_key ds k1 k3.
Proof. unfold same_key. intros H1 H2. by etrans. Qed.

Lemma same_key_mono ds ds' k k' : ds ⊆ ds' → same_key ds k k' → same_key ds' k k'.
Proof.
  intros Hd. apply (rtsc_congruence id). intros x y (a & b & Hab & -> & ->). exists a, b. auto.
Qed.

Lemma build_snoc ds d : build (ds ++ [d]) = declare (build ds) d.
Proof. unfold build. by rewrite foldl_app. Qed.

(** Two spellings of one key stay so. *)
Lemma declare_same s d k k' :
  schema_ok s → canonical s k = canonical s k' → canonical (declare s d) k = canonical (declare s d) k'.
Proof.
  intros Hok E. destruct d as [o x|a b|x|]; simpl; [exact E| |exact E..].
  rewrite !canonical_alias by done. by rewrite E.
Qed.

Lemma alias_joins ds a b : Alias a b ∈ ds → canonical (build ds) a = canonical (build ds) b.
Proof.
  induction ds as [|d ds IH] using rev_ind; [by intros ?%not_elem_of_nil|].
  rewrite build_snoc, elem_of_app, list_elem_of_singleton. intros [H|<-].
  - apply declare_same; auto using build_ok.
  - simpl. rewrite !canonical_alias by apply build_ok. repeat case_decide; congruence.
Qed.

Lemma same_key_canonical ds k : same_key ds k (canonical (build ds) k).
Proof.
  revert k. induction ds as [|d ds IH] using rev_ind; intros k.
  { unfold same_key. change (canonical (build []) k) with (canonical_key k).
    by rewrite canonical_key_idemp. }
  rewrite build_snoc. assert (∀ k, same_key (ds ++ [d])%list k (canonical (build ds) k)) as IH'.
  { intros k'. eapply same_key_mono; [|apply IH]. set_solver. }
  destruct d as [o x|a b|x|]; simpl; try apply IH'. rewrite canonical_alias by apply build_ok.
  case_decide as E; [|apply IH']. apply (same_key_trans _ _ b).
  { apply (same_key_trans _ _ (canonical (build ds) k)); [apply IH'|]. rewrite E. apply same_key_sym, IH'. }
  apply (same_key_trans _ _ a); [|apply IH']. apply rtsc_rl. exists a, b. set_solver.
Qed.

Lemma canonical_same_key ds k k' :
  canonical (build ds) k = canonical (build ds) k' ↔ same_key ds k k'.
Proof.
  split.
  - intros E. apply (same_key_trans _ _ (canonical (build ds) k)); [apply same_key_canonical|].
    rewrite E. apply same_key_sym, same_key_canonical.
  - unfold same_key. rewrite <-(canonical_of_folded _ k), <-(canonical_of_folded _ k').
    induction 1 as [|x y z Hs _ IH]; [done|]. rewrite <-IH.
    destruct Hs as [(a & b & Hab & -> & ->)|(a & b & Hab & -> & ->)];
      rewrite !canonical_of_folded; [|symmetry]; by apply alias_joins.
Qed.

Lemma class_declared ds o k :
  Classify o k ∈ ds → ∃ e, class (build ds) k = Some e ∧ at_least e o.
Proof.
  induction ds as [|d ds IH] using rev_ind; [by intros ?%not_elem_of_nil|].
  rewrite build_snoc, elem_of_app, list_elem_of_singleton. intros [H|<-].
  - destruct (IH H) as (e & He & Hl). destruct d as [o' x|a b|x|]; simpl; [| |by exists e..].
    + rewrite class_classify. case_decide as E; [|by exists e]. unfold class in He. rewrite E in He.
      unfold class. rewrite He. eexists. split; [done|]. revert Hl. unfold at_least. destruct o, e, o'; simpl; lia.
    + rewrite class_alias by apply build_ok. case_decide as E; [|by exists e].
      unfold class in *. destruct E as [E|E]; rewrite E in He; rewrite He;
        [destruct (owners _ !! canonical _ b) as [e'|]|destruct (owners _ !! canonical _ a) as [e'|]];
        (eexists; split; [done|]); revert Hl; try done; unfold at_least; destruct o, e, e'; simpl; lia.
  - simpl. rewrite class_classify, decide_True by done. eexists. split; [done|].
    unfold at_least. destruct (class _ k) as [[]|], o; simpl; lia.
Qed.

Lemma class_attained ds k e :
  class (build ds) k = Some e → ∃ k', Classify e k' ∈ ds ∧ canonical (build ds) k = canonical (build ds) k'.
Proof.
  revert k e. induction ds as [|d ds IH] using rev_ind; intros k e.
  { unfold class. simpl. by rewrite lookup_empty. }
  rewrite build_snoc. assert (∀ k e, class (build ds) k = Some e → ∃ k', Classify e k' ∈ (ds ++ [d])%list ∧
    canonical (declare (build ds) d) k = canonical (declare (build ds) d) k') as IH'.
  { intros k0 e0 (k' & Hk' & E)%IH. exists k'. split; [set_solver|]. apply declare_same; auto using build_ok. }
  destruct d as [o x|a b|x|]; simpl; try apply IH'.
  - rewrite class_classify. case_decide as E; [|apply IH'].
    destruct (class (build ds) x) as [e'|] eqn:Ex; intros [= <-];
      [destruct (decide (stricter_ownership e' o = e')) as [->|Hn]|].
    + apply IH' in Ex as (k' & Hk' & E'). exists k'. split; [done|]. etrans; [exact E|exact E'].
    + exists x. split; [|exact E]. destruct e', o; set_solver.
    + exists x. split; [set_solver|exact E].
  - rewrite class_alias by apply build_ok. case_decide as E; [|apply IH']. intros Hs.
    assert (∃ y, (y = a ∨ y = b) ∧ class (build ds) y = Some e) as (y & Hy & Hc).
    { destruct (class (build ds) a) as [ea|] eqn:Ea, (class (build ds) b) as [eb|] eqn:Eb; simplify_eq/=; eauto.
      destruct (decide (stricter_ownership ea eb = ea)) as [->|Hn]; [eauto|].
      exists b. split; [by right|]. rewrite Eb. f_equal. by destruct ea, eb. }
    apply IH' in Hc as (k' & Hk' & E'). exists k'. split; [done|]. etrans; [|exact E'].
    simpl. rewrite !canonical_alias by apply build_ok.
    destruct Hy as [-> | ->]; repeat case_decide; naive_solver congruence.
Qed.
Lemma builders_declare ds keys pairs o :
  classify (build ds) keys o = build (ds ++ (Classify o <$> keys)) ∧
  and_aliases (build ds) pairs = build (ds ++ ((λ p, Alias p.1 p.2) <$> pairs)) ∧
  and_workload_owned_keys (build ds) keys = build (ds ++ (Classify Workload <$> keys) ++ [Close])%list.
Proof.
  assert (∀ keys o s, foldl (classify_key o) s keys = foldl declare s (Classify o <$> keys)) as Hc.
  { clear. intros keys o. induction keys as [|k keys IH]; intros s; simpl; auto. }
  unfold and_workload_owned_keys, classify, and_aliases, build.
  rewrite !foldl_app, !Hc. split_and!; [done| |done].
  generalize (foldl declare empty_schema ds). induction pairs as [|[a b] pairs IH]; intros s; simpl; auto.
Qed.

Lemma knows_class s k : knows s k = true ↔ is_Some (class s k).
Proof. unfold knows, class. by rewrite bool_decide_eq_true, elem_of_dom. Qed.

Lemma class_at_least ds o k k' :
  Classify o k' ∈ ds → same_key ds k k' → ∃ e, class (build ds) k = Some e ∧ at_least e o.
Proof.
  intros Hd Hs%canonical_same_key. apply class_declared in Hd. unfold class in *. by rewrite Hs.
Qed.

(** C31: A schema is what was declared of it, whatever the order: two spellings are
    one key exactly when the declared aliases connect them, a key is known
    exactly when some spelling of it is classified, and its owner is the
    strictest any spelling of it was given. *)
Theorem schema_means_its_declarations ds k :
  (∀ k', canonical (build ds) k = canonical (build ds) k' ↔ same_key ds k k') ∧
  (knows (build ds) k = true ↔ ∃ o k', Classify o k' ∈ ds ∧ same_key ds k k') ∧
  (∀ o k', Classify o k' ∈ ds → same_key ds k k' → at_least (ownership (build ds) k) o) ∧
  (ownership (build ds) k = Workload ∨
   ∃ k', Classify (ownership (build ds) k) k' ∈ ds ∧ same_key ds k k').
Proof.
  change (ownership (build ds) k) with (default Workload (class (build ds) k)). rewrite knows_class.
  split_and!.
  - intros k'. apply canonical_same_key.
  - split.
    + intros [e (k' & Hk' & E)%class_attained]. exists e, k'. by rewrite <-canonical_same_key.
    + intros (o & k' & Hd & Hs). destruct (class_at_least ds o k k') as (e & -> & _); eauto.
  - intros o k' Hd Hs. destruct (class_at_least ds o k k') as (e & -> & ?); auto.
  - destruct (class (build ds) k) as [e|] eqn:E; [right|by left].
    apply class_attained in E as (k' & Hk' & E). exists k'. by rewrite <-canonical_same_key.
Qed.

Lemma at_least_antisym o o' : at_least o o' → at_least o' o → o = o'.
Proof. unfold at_least. destruct o, o'; simpl; lia || done. Qed.

Lemma same_key_perm ds ds' k k' : ds ≡ₚ ds' → same_key ds k k' → same_key ds' k k'.
Proof. intros Hp. apply same_key_mono. intros d. by rewrite Hp. Qed.

Lemma class_perm ds ds' k e :
  ds ≡ₚ ds' → class (build ds) k = Some e → ∃ e', class (build ds') k = Some e' ∧ at_least e' e.
Proof.
  intros Hp (k' & Hk' & E)%class_attained. apply (class_at_least _ _ _ k'); [by rewrite <-Hp|].
  eapply same_key_perm; [done|]. by apply canonical_same_key.
Qed.

(** The declarations of a schema may be made in any order: which spellings are
    one key, who owns each key and which keys are known come out the same. *)
Theorem declaration_order_is_immaterial ds ds' k k' :
  ds ≡ₚ ds' →
  (canonical (build ds) k = canonical (build ds) k' ↔ canonical (build ds') k = canonical (build ds') k') ∧
  ownership (build ds) k = ownership (build ds') k ∧
  knows (build ds) k = knows (build ds') k.
Proof.
  intros Hp. assert (class (build ds) k = class (build ds') k) as Hc.
  { destruct (class (build ds) k) as [e|] eqn:E.
    - destruct (class_perm _ _ _ _ Hp E) as (e' & E' & He).
      destruct (class_perm _ ds _ _ (symmetry Hp) E') as (e'' & E'' & He'). simplify_eq.
      rewrite E'. f_equal. by apply at_least_antisym.
    - destruct (class (build ds') k) as [e'|] eqn:E'; [|done].
      destruct (class_perm _ ds _ _ (symmetry Hp) E') as (e'' & E'' & _). congruence. }
  split_and!.
  - rewrite !canonical_same_key. split; apply same_key_perm; [done|by symmetry].
  - change (default Workload (class (build ds) k) = default Workload (class (build ds') k)). by rewrite Hc.
  - apply eq_true_iff_eq. by rewrite !knows_class, Hc.
Qed.

(** The schemas themselves need not be equal: a required key is recorded under
    the representative of the moment, and a later alias does not move it. *)
Theorem required_keys_keep_their_spelling :
  build [Require "url"; Alias "servers" "url"] ≠ build [Alias "servers" "url"; Require "url"] ∧
  required_keys (build [Require "url"; Alias "servers" "url"]) = ["url"] ∧
  required_keys (build [Alias "servers" "url"; Require "url"]) = ["servers"].
Proof.
  split_and!; vm_compute; done.
Qed.
End meaning.

(** ** Suggestions *)

Section edits.
Implicit Types a b p r : list string.

(** At most one character inserted, deleted or replaced. *)
Definition one_edit a b : Prop :=
  a = b ∨
  (∃ p r x y, a = (p ++ x :: r)%list ∧ b = (p ++ y :: r)%list) ∨
  (∃ p r x, a = (p ++ r)%list ∧ b = (p ++ x :: r)%list) ∨
  (∃ p r x, a = (p ++ x :: r)%list ∧ b = (p ++ r)%list).

Lemma edit_loop_edited same a b :
  List.length a = List.length b → edit_loop same true a b = true ↔ a = b.
Proof.
  revert b. induction a as [|x a IH]; intros [|y b]; simpl; try done. intros [= Hl].
  case_bool_decide as E; [|naive_solver]. rewrite IH by done. naive_solver.
Qed.

Lemma edit_loop_same a b :
  List.length a = List.length b →
  edit_loop true false a b = true ↔
  a = b ∨ ∃ p r x y, a = (p ++ x :: r)%list ∧ b = (p ++ y :: r)%list.
Proof.
  revert b. induction a as [|x a IH]; intros [|y b]; simpl; try done; intros Hl.
  { split; [by left|done]. }
  injection Hl as Hl. case_bool_decide as E; [subst y; rewrite IH by done|rewrite edit_loop_edited by done].
  - split; [intros [->|(p & r & z & w & -> & ->)]; [by left|]|].
    + right. by exists (x :: p), r, z, w.
    + intros [[= ->]|(p & r & z & w & Ea & Eb)]; [by left|].
      destruct p as [|q p]; simplify_eq/=; [by left|]. right. by exists p, r, z, w.
  - split; [intros ->; right; by exists [], b, x, y|].
    intros [?|(p & r & z & w & Ea & Eb)]; [congruence|]. destruct p; by simplify_eq/=.
Qed.

Lemma edit_loop_longer a b :
  S (List.length a) = List.length b →
  edit_loop false false a b = true ↔ ∃ p r x, a = (p ++ r)%list ∧ b = (p ++ x :: r)%list.
Proof.
  revert b. induction a as [|x a IH]; intros [|y b]; simpl; try done; intros Hl.
  { destruct b; [|done]. split; [|done]. intros _. by exists [], [], y. }
  injection Hl as Hl. case_bool_decide as E; [subst y; rewrite IH by done|rewrite edit_loop_edited by done].
  - split; [intros (p & r & z & -> & ->); by exists (x :: p), r, z|].
    intros (p & r & z & Ea & Eb). destruct p as [|q p]; simplify_eq/=; [|by exists p, r, z].
    by exists [], a, z.
  - split; [intros <-; by exists [], (x :: a), y|].
    intros (p & r & z & Ea & Eb). destruct p; by simplify_eq/=.
Qed.

Lemma one_edit_length a b :
  one_edit a b →
  List.length a = List.length b ∨ S (List.length a) = List.length b ∨ S (List.length b) = List.length a.
Proof.
  intros [->|[(p & r & x & y & -> & ->)|[(p & r & x & -> & ->)|(p & r & x & -> & ->)]]];
    rewrite ?length_app; simpl; lia.
Qed.

(** The two-index scan of [within_one_edit] finds exactly the strings one
    insertion, deletion or substitution of a character apart, and equal ones. *)
Theorem within_one_edit_iff x y : within_one_edit x y = true ↔ one_edit (chars x) (chars y).
Proof.
  unfold within_one_edit. generalize (chars x) (chars y). clear. intros a b.
  assert (∀ a b, List.length a = List.length b → one_edit a b ↔
    (a = b ∨ ∃ p r x y, a = (p ++ x :: r)%list ∧ b = (p ++ y :: r)%list)) as Hsame.
  { clear. intros a b Hl. unfold one_edit. split; [|tauto].
    intros [?|[?|[(p & r & x & -> & ->)|(p & r & x & -> & ->)]]]; [tauto..| |];
      rewrite !length_app in Hl; simpl in Hl; lia. }
  assert (∀ a b, S (List.length a) = List.length b → one_edit a b ↔
    (∃ p r x, a = (p ++ r)%list ∧ b = (p ++ x :: r)%list)) as Hlong.
  { clear. intros a b Hl. unfold one_edit. split; [|tauto].
    intros [->|[(p & r & x & y & -> & ->)|[?|(p & r & x & -> & ->)]]]; [lia| |tauto|];
      rewrite !length_app in Hl; simpl in Hl; lia. }
  assert (one_edit a b ↔ one_edit b a) as Hsym.
  { clear. unfold one_edit. naive_solver. }
  destruct (decide (List.length a ≤ List.length b)%nat) as [Hle|Hle];
    (destruct (decide (1 < _)%nat) as [Hd|Hd];
      [split; [done|]; intros [?|[?|?]]%one_edit_length; lia|]); case_bool_decide as E.
  - by rewrite Hsame, edit_loop_same.
  - rewrite Hlong, edit_loop_longer by lia. done.
  - lia.
  - rewrite Hsym, Hlong, edit_loop_longer by lia. done.
Qed.
End edits.

Section suggestions.
Context (le : string → string → bool).
Hypothesis le_total : ∀ x y, le x y = false → le y x = true.
Hypothesis le_trans : ∀ x y z, le x y = true → le y z = true → le x z = true.

Lemma max_by_spec l :
  match max_by le l with
  | Some m => m ∈ l ∧ ∀ x, x ∈ l → le x m = true
  | None => l = []
  end.
Proof.
  assert (∀ x, le x x = true) as Hrefl by (intros x; destruct (le x x) eqn:E; [done|]; pose proof (le_total _ _ E); congruence).
  unfold max_by. induction l as [|k l IH] using rev_ind; [done|]. rewrite foldl_app. simpl.
  destruct (foldl _ None l) as [m|].
  - destruct IH as [Hm Hmax]. destruct (le m k) eqn:E; (split; [set_solver|]);
      intros x [Hx|Hx%list_elem_of_singleton]%elem_of_app; subst; eauto.
  - subst l. split; [set_solver|]. intros x Hx%list_elem_of_singleton. by subst.
Qed.
End suggestions.

Lemma nearer_total key x y : nearer key x y = false → nearer key y x = true.
Proof.
  unfold nearer. repeat case_decide; try done; try lia. apply ord_leb_total.
Qed.

Lemma nearer_trans key x y z : nearer key x y = true → nearer key y z = true → nearer key x z = true.
Proof.
  unfold nearer. repeat case_decide; try done; try lia. intros Hxy Hyz. by apply (ord_leb_trans _ y).
Qed.

(** A suggestion is a key the plugin reads one edit away from what was written,
    and none of the others one edit away shares a longer prefix with it; there
    is no suggestion exactly when no key is that near. *)
Theorem nearest_is_the_best_suggestion s key :
  match nearest s key with
  | Some n => n ∈ dom (owners s) ∧ within_one_edit (canonical s key) n = true ∧
      ∀ k, k ∈ dom (owners s) → within_one_edit (canonical s key) k = true →
        (common_prefix_len (canonical s key) k ≤ common_prefix_len (canonical s key) n)%nat
  | None => ∀ k, k ∈ dom (owners s) → within_one_edit (canonical s key) k = false
  end.
Proof.
  unfold nearest. set (l := filter _ _).
  assert (∀ k, k ∈ l ↔ k ∈ dom (owners s) ∧ within_one_edit (canonical s key) k = true) as Hl.
  { intros k. unfold l. rewrite list_elem_of_filter, sorted_keys_elem, elem_of_dom. tauto. }
  pose proof (max_by_spec _ (nearer_total (canonical s key)) (nearer_trans (canonical s key)) l) as Hm.
  destruct (max_by _ l) as [n|].
  - destruct Hm as [[Hd He]%Hl Hmax]. split_and!; [done..|]. intros k Hk Hw.
    assert (nearer (canonical s key) k n = true) as Hn by (apply Hmax, Hl; done).
    unfold nearer in Hn. repeat case_decide; lia || done.
  - intros k Hk. destruct (within_one_edit _ k) eqn:E; [|done].
    assert (k ∈ l) as Hkl by (by apply Hl). rewrite Hm in Hkl. by apply not_elem_of_nil in Hkl.
Qed.

(** A policy is read back from its spelling, and from that alone but for case
    and the whitespace around it. *)
Theorem policy_text_roundtrip p s :
  policy_from_str (as_str p) = Ok p ∧
  (policy_from_str s = Ok p ↔ to_ascii_lowercase (trim s) = as_str p).
Proof.
  split; [by destruct p|]. unfold policy_from_str.
  repeat case_bool_decide; destruct p; simpl; naive_solver congruence.
Qed.

Lemma declaration_order_is_immaterial_witness :
  ownership (build [Classify Host "servers"; Alias "url" "Servers"]) "URL" = Host.
Proof.
  destruct (declaration_order_is_immaterial [Classify Host "servers"; Alias "url" "Servers"]
    [Alias "url" "Servers"; Classify Host "servers"] "URL" "url") as (_ & -> & _).
  - apply Permutation_swap.
  - vm_compute. reflexivity.
Defined.
