(* ===== verification/NatsPolicy.v ===== *)
(** * What a workload may reach over NATS

    [plugin/wasmcloud_nats/policy.rs]: subject patterns, the three questions asked
    of them (does it match a subject, does it contain a pattern, do two patterns
    meet), and the checks of a [PolicyEngine]. *)

From Stdlib Require Import ZArith Lia Ascii.
From stdpp Require Import base list gmap strings option.
From S2P Require Import Prelude RustStr StoreLib Wit.
Local Open Scope string_scope.
Local Open Scope rust_scope.

(** ** Patterns *)

Inductive Token := Literal (s : string) | Any.
#[global] Instance Token_eq_dec : EqDecision Token.
Proof. solve_decision. Defined.

Record NatsSubjectPattern := { tokens : list Token; trailing : bool; valid : bool }.
Implicit Types p q : NatsSubjectPattern.

(** The loop of [parse], from some part on: the tokens, whether it ends in [>],
    and whether all was well. *)
Fixpoint parse_parts (parts : list string) : list Token * bool * bool :=
  match parts with
  | [] => ([], false, true)
  | part :: rest =>
      if bool_decide (part = ">") then ([], true, bool_decide (rest = []))
      else let '(ts, tr, ok) := parse_parts rest in
           if bool_decide (part = "*") then (Any :: ts, tr, ok)
           else if bool_decide (part = "") then (ts, tr, false)
           else (Literal part :: ts, tr, ok)
  end.

Definition parse (raw : string) : NatsSubjectPattern :=
  let '(ts, tr, ok) := parse_parts (split "." raw) in
  {| tokens := ts; trailing := tr; valid := negb (is_empty raw) && ok |}.

(** [iter().zip(..).all(..)] *)
Fixpoint all2 {A B} (f : A → B → bool) (l : list A) (k : list B) : bool :=
  match l, k with
  | x :: l, y :: k => f x y && all2 f l k
  | _, _ => true
  end.

Definition token_matches (t : Token) (part : string) : bool :=
  match t with Any => true | Literal l => bool_decide (l = part) end.

(** [matches], of a subject already split. *)
Definition matches_parts p (parts : list string) : bool :=
  if negb (valid p) then false
  else
    let n := List.length parts in
    let m := List.length (tokens p) in
    if trailing p && bool_decide (n ≤ m)%nat then false
    else if negb (trailing p) && bool_decide (n ≠ m) then false
    else all2 token_matches (tokens p) parts.
Definition matches p (subject : string) : bool := matches_parts p (split "." subject).

Definition token_contains (grant request : Token) : bool :=
  match grant, request with
  | Any, _ => true
  | Literal g, Literal r => bool_decide (g = r)
  | Literal _, Any => false
  end.

Definition contains p (other : NatsSubjectPattern) : bool :=
  if negb (valid p) || negb (valid other) then false
  else if trailing other && negb (trailing p) then false
  else
    let n := List.length (tokens p) in
    let m := List.length (tokens other) in
    if trailing p then
      let minimum := if trailing other then n else S n in
      if bool_decide (m < minimum)%nat then false
      else all2 token_contains (tokens p) (tokens other)
    else if bool_decide (n ≠ m) then false
    else all2 token_contains (tokens p) (tokens other).

Definition token_overlaps (mine theirs : Token) : bool :=
  match mine, theirs with
  | Any, _ | _, Any => true
  | Literal a, Literal b => bool_decide (a = b)
  end.

Definition overlaps p (other : NatsSubjectPattern) : bool :=
  if negb (valid p) || negb (valid other) then false
  else if negb (all2 token_overlaps (tokens p) (tokens other)) then false
  else match Nat.compare (List.length (tokens p)) (List.length (tokens other)) with
       | Eq => Bool.eqb (trailing p) (trailing other)
       | Lt => trailing p
       | Gt => trailing other
       end.

(** ** The engine *)

Definition RESERVED_SUBJECT_PREFIXES : list string := ["$JS."; "$SYS."; "$KV."; "$OBJ."; "_nats_push."].
Definition INBOX_TOKEN_PREFIX : string := "_INBOX".
Definition BUCKET_BACKING_STREAM_PREFIXES : list string := ["KV_"; "OBJ_"].

Record PolicySpec := { spec_subjects : list string; spec_streams : list string; spec_buckets : list string }.

Record PolicyEngine := {
  subject_allow : list NatsSubjectPattern;
  subject_allow_raw : list string;
  stream_allow : list NatsSubjectPattern;
  bucket_allow : list NatsSubjectPattern;
  lattice_prefixes : list string;
}.
Implicit Types e : PolicyEngine.

Definition new_engine (spec : PolicySpec) (lattice : list string) : PolicyEngine :=
  {| subject_allow := parse <$> spec_subjects spec; subject_allow_raw := spec_subjects spec;
     stream_allow := parse <$> spec_streams spec; bucket_allow := parse <$> spec_buckets spec;
     lattice_prefixes := lattice |}.

Inductive Denied := Reserved | NotGranted | WildcardNotAllowed.

Definition reaches_reserved (pattern : string) (lattice : list string) : bool :=
  let first := default "" (head (split "." pattern)) in
  if bool_decide (first = "*") || bool_decide (first = ">") then true
  else if starts_with INBOX_TOKEN_PREFIX first then true
  else
    let requested := parse pattern in
    existsb (λ prefix, overlaps requested (parse (prefix +:+ ">"))) (RESERVED_SUBJECT_PREFIXES ++ lattice)%list.

Definition overlaps_subject_pattern e (pattern : string) : bool :=
  if reaches_reserved pattern (lattice_prefixes e) then false
  else existsb (λ granted, overlaps granted (parse pattern)) (subject_allow e).

Definition is_reserved e (subject : string) : bool :=
  existsb (λ prefix, starts_with prefix subject || bool_decide (subject = trim_end_char "." prefix))
    RESERVED_SUBJECT_PREFIXES
  || existsb (λ prefix, starts_with prefix subject) (lattice_prefixes e).

Definition granted (l : list NatsSubjectPattern) (subject : string) : result unit Denied :=
  if existsb (λ p, matches p subject) l then Ok () else Err NotGranted.

Definition check_subject e (subject : string) : result unit Denied :=
  if is_empty subject || existsb is_empty (split "." subject) then Err NotGranted
  else if existsb (λ t, bool_decide (t = "*") || bool_decide (t = ">")) (split "." subject)
  then Err WildcardNotAllowed
  else if is_reserved e subject then Err Reserved
  else granted (subject_allow e) subject.

Definition check_filter e (filter : string) : result unit Denied :=
  if existsb (λ g, contains g (parse filter)) (subject_allow e) then Ok () else Err NotGranted.

Definition check_subscription e (pattern : string) : result unit Denied :=
  if is_reserved e pattern || reaches_reserved pattern (lattice_prefixes e) then Err Reserved
  else if existsb (λ g, contains g (parse pattern)) (subject_allow e) then Ok () else Err NotGranted.

Definition check_stored_subject e (subject : string) : result unit Denied := granted (subject_allow e) subject.

Definition check_stream e (stream : string) : result unit Denied :=
  if starts_with "$" stream then Err Reserved
  else match find_map (λ prefix, strip_prefix prefix stream) BUCKET_BACKING_STREAM_PREFIXES with
       | Some bucket => if existsb (λ p, matches p bucket) (bucket_allow e) then Ok () else Err Reserved
       | None => granted (stream_allow e) stream
       end.

Definition check_bucket e (bucket : string) : result unit Denied := granted (bucket_allow e) bucket.

(** ** The subjects a pattern stands for *)

(** A token of a subject a message can be published on. *)
Definition concrete (t : string) : Prop := t ≠ "" ∧ t ≠ "*" ∧ t ≠ ">" ∧ lacks "." t = true.
Definition concrete_token (t : Token) : Prop := match t with Literal l => concrete l | Any => True end.

(** What parsing makes of a pattern that is well formed. *)
Definition well_formed p : Prop :=
  valid p = true → Forall concrete_token (tokens p) ∧ (tokens p = [] → trailing p = true).

Definition show_token (t : Token) : string := match t with Literal l => l | Any => "*" end.
Definition show_parts p : list string := ((show_token <$> tokens p) ++ if trailing p then [">"] else [])%list.

Lemma parse_parts_spec parts ts tr :
  Forall (λ x, lacks "." x = true) parts → parse_parts parts = (ts, tr, true) →
  parts = ((show_token <$> ts) ++ if tr then [">"] else [])%list ∧ Forall concrete_token ts.
Proof.
  revert ts tr. induction parts as [|x parts IH]; intros ts tr Hl; simpl; [by intros [= <- <-]|].
  apply Forall_cons_1 in Hl as [Hx Hl]. case_bool_decide as Egt.
  { intros [= <- <- Hr%bool_decide_eq_true]. by subst. }
  destruct (parse_parts parts) as [[ts' tr'] ok]. case_bool_decide as Es; [|case_bool_decide as Ee; [done|]];
    intros [= <- <- ->]; destruct (IH ts' tr' Hl eq_refl) as [Ep Hf];
    (split; [by rewrite Ep; subst|constructor; done]).
Qed.

Lemma split_lacks_all d s : Forall (λ x, lacks d x = true) (split d s).
Proof.
  induction s as [|c s IH]; simpl; [by repeat constructor|].
  destruct (Ascii.eqb c d) eqn:E; [by constructor|].
  destruct (split d s) as [|x l]; [repeat constructor|]; unfold lacks in *; simpl; try by rewrite E.
  apply Forall_cons_1 in IH as [Hx Hl]. constructor; [|done]. simpl. by rewrite E, Hx.
Qed.

Lemma parse_spec raw :
  valid (parse raw) = true →
  split "." raw = show_parts (parse raw) ∧ Forall concrete_token (tokens (parse raw)).
Proof.
  unfold parse. destruct (parse_parts (split "." raw)) as [[ts tr] ok] eqn:E. simpl.
  intros [_ ->]%andb_true_iff. apply parse_parts_spec in E; [done|apply split_lacks_all].
Qed.

Lemma parse_well_formed raw : well_formed (parse raw).
Proof.
  intros Hv. destruct (parse_spec raw Hv) as [Es Hf]. split; [done|]. intros Et.
  destruct (trailing (parse raw)) eqn:Er; [done|]. exfalso. apply (split_nonempty "." raw).
  by rewrite Es; unfold show_parts; rewrite Et, Er.
Qed.

(** ** Matching, token by token *)

Lemma all2_spec {A B} (f : A → B → bool) l k :
  all2 f l k = true ↔ ∀ i x y, l !! i = Some x → k !! i = Some y → f x y = true.
Proof.
  revert k. induction l as [|x l IH]; intros [|y k]; simpl; try (by split).
  rewrite andb_true_iff, IH. split.
  - intros [Hf Hl] [|i] x' y'; simpl; [intros [= <-] [= <-]; done|apply Hl].
  - intros Hall. split; [by apply (Hall 0)|]. intros i. apply (Hall (S i)).
Qed.

Lemma matches_parts_iff p t :
  matches_parts p t = true ↔
  valid p = true ∧
  (if trailing p then List.length (tokens p) < List.length t else List.length (tokens p) = List.length t)%nat ∧
  ∀ i x y, tokens p !! i = Some x → t !! i = Some y → token_matches x y = true.
Proof.
  unfold matches_parts. rewrite <-all2_spec. destruct (valid p); simpl; [|naive_solver].
  destruct (trailing p); simpl; case_bool_decide; naive_solver lia.
Qed.

(** Some subject of a pattern: [x] for each wildcard, and [k] times at the end. *)
Definition fill (x : string) (t : Token) : string := match t with Literal l => l | Any => x end.
Definition instance_of (x : string) (k : nat) p : list string := ((fill x <$> tokens p) ++ replicate k x)%list.

Lemma instance_matches x k p :
  valid p = true → (if trailing p then 0 < k else k = 0)%nat → matches_parts p (instance_of x k p) = true.
Proof.
  intros Hv Hk. apply matches_parts_iff. unfold instance_of. rewrite length_app, length_fmap, length_replicate.
  split_and!; [done|destruct (trailing p); lia|]. intros i t y Ht. rewrite lookup_app, list_lookup_fmap, Ht.
  simpl. intros [= <-]. destruct t; simpl; [by rewrite bool_decide_true|done].
Qed.

Lemma instance_concrete x k p :
  concrete x → Forall concrete_token (tokens p) → Forall concrete (instance_of x k p).
Proof.
  intros Hx Hp. unfold instance_of. apply Forall_app. split; [|by apply Forall_replicate].
  apply Forall_fmap, Forall_forall. intros [l|] Hin; [|done]. rewrite Forall_forall in Hp. apply (Hp (Literal l) Hin).
Qed.

Lemma concrete_a : concrete "a".
Proof. by unfold concrete. Qed.
Lemma concrete_b : concrete "b".
Proof. by unfold concrete. Qed.
#[local] Hint Resolve concrete_a concrete_b : core.

(** [contains] decides inclusion of the subjects: a request is contained by a grant
    exactly when it is well formed and every subject it can receive is one the
    grant matches. *)
Lemma contains_iff p q :
  well_formed q →
  contains p q = true ↔
  valid q = true ∧ ∀ t, Forall concrete t → matches_parts q t = true → matches_parts p t = true.
Proof.
  intros Hq. unfold contains. split.
  - destruct (valid p) eqn:Vp, (valid q) eqn:Vq; simpl; try done. intros Hc. split; [done|].
    assert ((if trailing p then if trailing q then List.length (tokens p) ≤ List.length (tokens q)
             else List.length (tokens p) < List.length (tokens q)
             else trailing q = false ∧ List.length (tokens p) = List.length (tokens q))%nat ∧
            all2 token_contains (tokens p) (tokens q) = true) as [Hlen Hall].
    { revert Hc. destruct (trailing p), (trailing q); simpl; try done; case_bool_decide; try done; intros;
        (split; [lia|done]). }
    intros t _ (_ & Ht & Hm)%matches_parts_iff. apply matches_parts_iff. split_and!; [done| |].
    + destruct (trailing p), (trailing q); lia.
    + rewrite all2_spec in Hall. intros i x y Hx Hy.
      assert (is_Some (tokens q !! i)) as [z Hz].
      { apply lookup_lt_is_Some. apply lookup_lt_Some in Hx. destruct (trailing p), (trailing q); lia. }
      specialize (Hall i x z Hx Hz). specialize (Hm i z y Hz Hy).
      destruct x, z; simpl in *; rewrite ?bool_decide_eq_true in *; congruence.
  - intros [Vq Hincl]. destruct (Hq Vq) as [Hf _].
    assert (∀ x k, concrete x → (if trailing q then 0 < k else k = 0)%nat →
      matches_parts p (instance_of x k q) = true) as Hi.
    { intros x k Hx Hk. apply Hincl; [by apply instance_concrete|by apply instance_matches]. }
    set (k := if trailing q then 1%nat else 0%nat).
    assert (if trailing q then 0 < k else k = 0)%nat as Hk by (unfold k; destruct (trailing q); lia).
    pose proof (Hi "a" k concrete_a Hk) as (Vp & La & Ma)%matches_parts_iff.
    pose proof (Hi "b" k concrete_b Hk) as (_ & _ & Mb)%matches_parts_iff.
    rewrite Vp, Vq. simpl. unfold instance_of in La. rewrite length_app, length_fmap, length_replicate in La.
    assert (trailing q = true → trailing p = true) as Htr.
    { intros Etq. destruct (trailing p) eqn:Etp; [done|]. exfalso.
      pose proof (Hi "a" 2 concrete_a ltac:(rewrite Etq; lia)) as (_ & Lb & _)%matches_parts_iff.
      rewrite Etp in Lb. unfold instance_of in Lb. rewrite length_app, length_fmap, length_replicate in Lb.
      unfold k in La. rewrite Etq in La. lia. }
    assert (List.length (tokens p) ≤ List.length (tokens q))%nat as Hle.
    { unfold k in La. destruct (trailing p), (trailing q); try lia. }
    assert (all2 token_contains (tokens p) (tokens q) = true) as Hall.
    { apply all2_spec. intros i x y Hx Hy. destruct x as [l|]; [|done].
      assert (∀ z, instance_of z k q !! i = Some (fill z y)) as Hz.
      { intros z. unfold instance_of. by rewrite lookup_app, list_lookup_fmap, Hy. }
      specialize (Ma i _ _ Hx (Hz "a")). specialize (Mb i _ _ Hx (Hz "b")).
      destruct y; simpl in *; rewrite ?bool_decide_eq_true in *; congruence. }
    unfold k in La. destruct (trailing p) eqn:Etp, (trailing q) eqn:Etq; simpl;
      [| |by specialize (Htr eq_refl)|]; rewrite bool_decide_false by lia; done.
Qed.

(** A subject two patterns share, where they have one. *)
Fixpoint meet (l k : list Token) : list string :=
  match l, k with
  | [], k => fill "a" <$> k
  | l, [] => fill "a" <$> l
  | x :: l, y :: k => (match x with Literal s => s | Any => fill "a" y end) :: meet l k
  end.

Lemma meet_length l k : List.length (meet l k) = Nat.max (List.length l) (List.length k).
Proof.
  revert k. induction l as [|x l IH]; intros [|y k]; simpl; rewrite ?length_fmap; [done..|]. by rewrite IH.
Qed.

Lemma meet_concrete l k :
  Forall concrete_token l → Forall concrete_token k → Forall concrete (meet l k).
Proof.
  assert (∀ l, Forall concrete_token l → Forall concrete (fill "a" <$> l)) as Hfill.
  { intros l'. induction 1 as [|[s|] l' Hx Hl IH]; simpl; constructor; auto. }
  intros Hl. revert k. induction Hl as [|x l Hx Hl IH]; intros k Hk; [by apply Hfill|].
  destruct Hk as [|y k Hy Hk]; [by apply Hfill; constructor|]. simpl. constructor; [|by apply IH].
  by destruct x, y.
Qed.

Lemma meet_lookup l k i x :
  all2 token_overlaps l k = true → l !! i = Some x ∨ k !! i = Some x →
  ∃ y, meet l k !! i = Some y ∧ token_matches x y = true.
Proof.
  assert (∀ (l : list Token) i x, l !! i = Some x → ∃ y, (fill "a" <$> l) !! i = Some y ∧ token_matches x y = true) as Hfill.
  { intros l' i' x' E. rewrite list_lookup_fmap, E. eexists. split; [done|]. destruct x'; simpl; [|done].
    by rewrite bool_decide_true. }
  revert k i. induction l as [|u l IH]; intros [|v k] i; simpl; rewrite ?lookup_nil.
  - naive_solver.
  - intros _ [?|?]; [done|]. by apply (Hfill (v :: k)).
  - intros _ [?|?]; [|done]. by apply (Hfill (u :: l)).
  - intros [Ho Hr]%andb_true_iff. destruct i as [|i]; simpl; [|by apply IH].
    intros Hx. eexists. split; [done|]. destruct u, v; simpl in *; try done;
      rewrite ?bool_decide_eq_true in *; destruct Hx as [[= <-]|[= <-]]; simpl; rewrite ?bool_decide_eq_true; done.
Qed.

(** [overlaps] decides whether two patterns share a subject. *)
Lemma overlaps_iff p q :
  well_formed p → well_formed q →
  overlaps p q = true ↔ ∃ t, Forall concrete t ∧ matches_parts p t = true ∧ matches_parts q t = true.
Proof.
  intros Hp Hq. unfold overlaps. split.
  - destruct (valid p) eqn:Vp, (valid q) eqn:Vq; simpl; try done.
    destruct (all2 token_overlaps (tokens p) (tokens q)) eqn:Eo; simpl; [|done]. intros Hlen.
    destruct (Hp Vp) as [Fp _], (Hq Vq) as [Fq _].
    set (n := List.length (tokens p)) in *. set (m := List.length (tokens q)) in *.
    set (extra := if (if decide (n < m)%nat then trailing q else trailing p) then ["a"] else []).
    assert (List.length (meet (tokens p) (tokens q) ++ extra)%list = (Nat.max n m + List.length extra)%nat) as El
      by by rewrite length_app, meet_length.
    assert (∀ i x, tokens p !! i = Some x ∨ tokens q !! i = Some x → ∀ y,
      (meet (tokens p) (tokens q) ++ extra)%list !! i = Some y → token_matches x y = true) as Hm.
    { intros i x Hx y Hy. destruct (meet_lookup _ _ i x Eo Hx) as (z & Hz & Hmz).
      rewrite (lookup_app_l_Some _ _ _ _ Hz) in Hy. congruence. }
    exists (meet (tokens p) (tokens q) ++ extra)%list. split_and!.
    + apply Forall_app. split; [by apply meet_concrete|]. unfold extra.
      destruct (if decide _ then _ else _); [by apply Forall_singleton|constructor].
    + apply matches_parts_iff. split_and!; [done| |eauto]. rewrite El. fold n. unfold extra.
      destruct (Nat.compare_spec n m) as [E|E|E]; destruct (trailing p), (trailing q); simpl in *; try done;
        case_decide; simpl; lia.
    + apply matches_parts_iff. split_and!; [done| |eauto]. rewrite El. fold m. unfold extra.
      destruct (Nat.compare_spec n m) as [E|E|E]; destruct (trailing p), (trailing q); simpl in *; try done;
        case_decide; simpl; lia.
  - intros (t & _ & (Vp & Lp & Mp)%matches_parts_iff & (Vq & Lq & Mq)%matches_parts_iff).
    rewrite Vp, Vq. simpl.
    assert (all2 token_overlaps (tokens p) (tokens q) = true) as ->.
    { apply all2_spec. intros i x y Hx Hy. assert (is_Some (t !! i)) as [z Hz].
      { apply lookup_lt_is_Some. apply lookup_lt_Some in Hx. destruct (trailing p); lia. }
      specialize (Mp i x z Hx Hz). specialize (Mq i y z Hy Hz).
      destruct x, y; simpl in *; rewrite ?bool_decide_eq_true in *; congruence. }
    simpl. destruct (Nat.compare_spec (List.length (tokens p)) (List.length (tokens q)));
      destruct (trailing p), (trailing q); simpl; try done; lia.
Qed.

(** ** Subjects and reserved space *)

Lemma split_join_concrete t : t ≠ [] → Forall concrete t → split "." (join "." t) = t.
Proof.
  intros Hn Ht. apply split_join; [done|]. apply Forall_forall. intros x Hx.
  rewrite Forall_forall in Ht. by destruct (Ht x Hx) as (_ & _ & _ & ?).
Qed.

Lemma concrete_lacks t : Forall concrete t → Forall (λ x, lacks "." x = true) t.
Proof. rewrite !Forall_forall. intros Ht x Hx. by destruct (Ht x Hx) as (_ & _ & _ & ?). Qed.

Lemma split_join_app ws rest :
  ws ≠ [] → Forall concrete ws →
  split "." ((join "." ws +:+ ".") +:+ rest) = (ws ++ split "." rest)%list.
Proof.
  intros Hn Hw. rewrite str_app_assoc. change ("." +:+ rest) with (String "."%char rest).
  induction Hw as [|x l (_ & _ & _ & Hx) Hl IH]; [done|]. destruct l as [|y l].
  - by apply split_app_lacks.
  - change (join "." (x :: y :: l)) with (x +:+ "." +:+ join "." (y :: l)).
    rewrite str_app_assoc, str_app_assoc. change ("." +:+ (join "." (y :: l) +:+ String "."%char rest))
      with (String "."%char (join "." (y :: l) +:+ String "."%char rest)).
    rewrite split_app_lacks by done. simpl. f_equal. by apply IH.
Qed.

Lemma Forall_member {A} (P : A → Prop) l x : Forall P l → x ∈ l → P x.
Proof. rewrite List.Forall_forall, list_elem_of_In. auto. Qed.

(** A reserved prefix ends with a dot, after tokens of a subject. *)
Definition prefix_of (ws : list string) (prefix : string) : Prop :=
  ws ≠ [] ∧ Forall concrete ws ∧ prefix = join "." ws +:+ ".".
Definition closed_prefix (prefix : string) : Prop := ∃ ws, prefix_of ws prefix.

Lemma parse_prefix ws prefix :
  prefix_of ws prefix → parse (prefix +:+ ">") = {| tokens := Literal <$> ws; trailing := true; valid := true |}.
Proof.
  intros (Hn & Hw & ->). unfold parse. rewrite split_join_app by done. simpl split.
  assert (∀ ws, Forall concrete ws → parse_parts (ws ++ [">"]) = (Literal <$> ws, true, true)) as Hp.
  { clear. intros ws. induction 1 as [|x l (Hx & Hs & Hg & _) Hl IH]; [done|]. simpl.
    rewrite IH, !bool_decide_false by done. done. }
  rewrite Hp by done. f_equal. destruct ((join "." ws +:+ ".") +:+ ">") eqn:E; [|done].
  apply (f_equal String.length) in E. rewrite !str_length_app in E. simpl in E. lia.
Qed.

Lemma starts_with_matches prefix t :
  closed_prefix prefix → t ≠ [] → Forall concrete t → starts_with prefix (join "." t) = true →
  matches_parts (parse (prefix +:+ ">")) t = true.
Proof.
  intros (ws & Hws) Hn Ht [rest Hr]%starts_with_spec. rewrite (parse_prefix ws) by done.
  destruct Hws as (Hnw & Hw & ->). apply (f_equal (split ".")) in Hr.
  rewrite split_join_concrete, split_join_app in Hr by done. subst t.
  apply matches_parts_iff. simpl. rewrite length_app, length_fmap. split_and!; [done| |].
  - pose proof (split_nonempty "." rest). destruct (split "." rest); [done|]. simpl. lia.
  - intros i x y. rewrite list_lookup_fmap. destruct (ws !! i) as [w|] eqn:E; [|done]. intros [= <-].
    rewrite (lookup_app_l_Some _ _ _ _ E). intros [= <-]. simpl. by rewrite bool_decide_true.
Qed.

Lemma reserved_closed : Forall closed_prefix RESERVED_SUBJECT_PREFIXES.
Proof.
  repeat constructor; [exists ["$JS"]|exists ["$SYS"]|exists ["$KV"]|exists ["$OBJ"]|exists ["_nats_push"]];
    (split_and!; [done|repeat constructor; done|done]).
Qed.

(** The first token of a pattern that does not begin with a wildcard is the first of
    every subject it matches. *)
Lemma first_token pattern t x :
  head (split "." pattern) = Some x → x ≠ "*" → x ≠ ">" →
  matches_parts (parse pattern) t = true → head t = Some x.
Proof.
  intros Hh Hs Hg Hm. pose proof Hm as (Hv & Hl & Hall)%matches_parts_iff.
  destruct (parse_spec _ Hv) as [Es _]. rewrite Es in Hh. unfold show_parts in Hh.
  destruct (tokens (parse pattern)) as [|[l|] ts] eqn:Et; simpl in Hh.
  - destruct (trailing (parse pattern)); by simplify_eq/=.
  - injection Hh as ->. destruct t as [|y t]; [destruct (trailing _); simpl in Hl; lia|].
    specialize (Hall 0 _ y eq_refl eq_refl). simpl in Hall. apply bool_decide_eq_true in Hall. by subst.
  - by simplify_eq/=.
Qed.

(** A pattern that matches a subject of one token and has no leading wildcard is
    that subject. *)
Lemma single_token pattern x :
  head (split "." pattern) ≠ Some "*" → head (split "." pattern) ≠ Some ">" →
  matches_parts (parse pattern) [x] = true → pattern = x.
Proof.
  intros Hs Hg Hm. pose proof Hm as (Hv & Hl & _)%matches_parts_iff.
  destruct (head (split "." pattern)) as [h|] eqn:Eh; [|by apply head_None, split_nonempty in Eh].
  assert (h = x) as -> by (pose proof (first_token _ _ _ Eh ltac:(congruence) ltac:(congruence) Hm); by simplify_eq/=).
  destruct (parse_spec _ Hv) as [Es _]. unfold show_parts in Es.
  assert (split "." pattern = [x]) as E1.
  { rewrite Es in Eh |- *. destruct (tokens (parse pattern)) as [|y [|z ts]], (trailing (parse pattern)); simpl in *;
      simplify_eq/=; try lia; done. }
  rewrite <-(join_split "." pattern), E1. done.
Qed.

Lemma reserved_heads : Forall (λ prefix, concrete (trim_end_char "." prefix)) RESERVED_SUBJECT_PREFIXES.
Proof. repeat constructor; done. Qed.

(** What an accepted subscription has been through. *)
Lemma check_subscription_Ok e pattern :
  check_subscription e pattern = Ok () →
  is_reserved e pattern = false ∧
  head (split "." pattern) ≠ Some "*" ∧ head (split "." pattern) ≠ Some ">" ∧
  (∀ x, head (split "." pattern) = Some x → starts_with INBOX_TOKEN_PREFIX x = false) ∧
  (∀ prefix, prefix ∈ (RESERVED_SUBJECT_PREFIXES ++ lattice_prefixes e)%list →
    overlaps (parse pattern) (parse (prefix +:+ ">")) = false) ∧
  ∃ g, g ∈ subject_allow e ∧ contains g (parse pattern) = true.
Proof.
  unfold check_subscription, reaches_reserved.
  destruct (is_reserved e pattern); [done|].
  destruct (head (split "." pattern)) as [x|] eqn:Eh; [|by apply head_None, split_nonempty in Eh].
  destruct (existsb (λ prefix, overlaps (parse pattern) (parse (prefix +:+ ">")))
    (RESERVED_SUBJECT_PREFIXES ++ lattice_prefixes e)%list) eqn:Er;
    change (default "" (Some x)) with x; destruct (bool_decide_reflect (x = "*")), (bool_decide_reflect (x = ">"));
    cbn [orb]; try done; [by destruct (starts_with INBOX_TOKEN_PREFIX x)|].
  destruct (starts_with INBOX_TOKEN_PREFIX x) eqn:Ei; [done|].
  destruct (existsb _ (subject_allow e)) eqn:Eg; [|done]. intros _. split_and!; try congruence.
  - intros prefix Hp. rewrite existsb_elem_false in Er. by apply Er.
  - apply existsb_elem in Eg as (g & Hg & Hc). eauto.
Qed.

(** A subject matched by an accepted subscription is outside reserved space. *)
Lemma subscription_not_reserved e pattern t :
  Forall closed_prefix (lattice_prefixes e) → check_subscription e pattern = Ok () →
  Forall concrete t → t ≠ [] → matches_parts (parse pattern) t = true → is_reserved e (join "." t) = false.
Proof.
  intros Hlat (Hres & Hs & Hg & _ & Hov & _)%check_subscription_Ok Ht Hn Hm.
  assert (∀ prefix, prefix ∈ (RESERVED_SUBJECT_PREFIXES ++ lattice_prefixes e)%list →
    starts_with prefix (join "." t) = false) as Hpre.
  { intros prefix Hp. destruct (starts_with prefix (join "." t)) eqn:E; [|done].
    assert (closed_prefix prefix) as Hc.
    { apply elem_of_app in Hp as [Hp|Hp]; [pose proof reserved_closed as Hf|pose proof Hlat as Hf];
        exact (Forall_member _ _ _ Hf Hp). }
    rewrite <-(Hov prefix Hp). symmetry.
    apply overlaps_iff; [apply parse_well_formed..|]. exists t. auto using starts_with_matches. }
  unfold is_reserved. apply orb_false_iff. split; apply existsb_elem_false; intros prefix Hp.
  - rewrite Hpre by set_solver. simpl. apply bool_decide_eq_false. intros E.
    assert (∃ w, trim_end_char "." prefix = w ∧ concrete w) as (w & Ew & Hw).
    { exists (trim_end_char "." prefix). split; [reflexivity|]. apply (Forall_member (λ prefix, concrete (trim_end_char "." prefix)) _ _ reserved_heads Hp). }
    assert (t = [w]) as ->.
    { rewrite <-(split_join_concrete t) by done. rewrite E, Ew. apply split_lacks. by destruct Hw as (_ & _ & _ & ?). }
    apply (single_token pattern) in Hm as ->; [|done..].
    assert (is_reserved e w = true) as Hr; [|congruence]. unfold is_reserved.
    apply orb_true_iff. left. apply existsb_elem. exists prefix. split; [done|].
    rewrite Ew, bool_decide_true by done. apply orb_true_r.
  - apply Hpre. set_solver.
Qed.

(** C32: The checks of a subscription are enough: every subject it can deliver is one the
    workload could have been granted one by one, so none is reserved or of the
    host, and none is an inbox.  (The lattice's prefixes end in a dot, as every caller's
    do.) *)
Theorem subscription_delivers_only_granted e pattern t :
  Forall closed_prefix (lattice_prefixes e) → check_subscription e pattern = Ok () →
  Forall concrete t → matches_parts (parse pattern) t = true →
  check_subject e (join "." t) = Ok () ∧
  ∀ x, head t = Some x → starts_with INBOX_TOKEN_PREFIX x = false.
Proof.
  intros Hlat Hc Ht Hm. destruct (check_subscription_Ok _ _ Hc) as (_ & Hs & Hg & Hin & _ & g & Hgin & Hcon).
  assert (t ≠ []) as Hn.
  { intros ->. apply matches_parts_iff in Hm as (Hv & Hl & _). destruct (parse_well_formed pattern Hv) as [_ He].
    destruct (tokens (parse pattern)); [rewrite He in Hl by done; simpl in Hl; lia|].
    destruct (trailing _); simpl in Hl; lia. }
  split.
  - unfold check_subject. rewrite split_join_concrete by done.
    assert (is_empty (join "." t) = false) as ->.
    { destruct (is_empty (join "." t)) eqn:E; [|done]. apply is_empty_spec in E.
      pose proof (split_join_concrete t Hn Ht) as Hsj. rewrite E in Hsj. simpl in Hsj. subst t.
      apply Forall_cons_1 in Ht as [(? & _) _]. done. }
    assert (existsb is_empty t = false) as ->.
    { apply existsb_elem_false. intros x Hx. destruct (Forall_member _ _ _ Ht Hx) as (? & _).
      destruct (is_empty x) eqn:E; [|done]. by apply is_empty_spec in E. }
    assert (existsb (λ t, bool_decide (t = "*") || bool_decide (t = ">")) t = false) as ->.
    { apply existsb_elem_false. intros x Hx. destruct (Forall_member _ _ _ Ht Hx) as (_ & ? & ? & _).
      by rewrite !bool_decide_false. }
    rewrite (subscription_not_reserved e pattern) by done. simpl. unfold granted.
    assert (existsb (λ p, matches p (join "." t)) (subject_allow e) = true) as ->; [|done].
    apply existsb_elem. exists g. split; [done|]. unfold matches. rewrite split_join_concrete by done.
    apply contains_iff in Hcon as [_ Hincl]; [|apply parse_well_formed]. by apply Hincl.
  - intros x Hx. destruct (head (split "." pattern)) as [h|] eqn:Eh; [|by apply head_None, split_nonempty in Eh].
    pose proof (first_token _ _ _ Eh ltac:(congruence) ltac:(congruence) Hm). simplify_eq. by apply Hin.
Qed.

(** C33: A grant contains a request exactly when the request is well formed and every subject
    it stands for is one the grant matches; a malformed request is contained by nothing. *)
Theorem pattern_containment_is_inclusion grant request :
  contains (parse grant) (parse request) = true ↔
  valid (parse request) = true ∧
  ∀ t, Forall concrete t → matches_parts (parse request) t = true → matches_parts (parse grant) t = true.
Proof. apply contains_iff, parse_well_formed. Qed.

(** Two patterns overlap exactly when some subject is matched by both. *)
Theorem pattern_overlap_is_intersection a b :
  overlaps (parse a) (parse b) = true ↔
  ∃ t, Forall concrete t ∧ matches_parts (parse a) t = true ∧ matches_parts (parse b) t = true.
Proof. apply overlaps_iff; apply parse_well_formed. Qed.

(** The stream behind a bucket is reached exactly by who may reach the bucket. *)
Theorem backing_stream_needs_its_bucket e bucket :
  (check_stream e ("KV_" +:+ bucket) = Ok () ↔ check_bucket e bucket = Ok ()) ∧
  (check_stream e ("OBJ_" +:+ bucket) = Ok () ↔ check_bucket e bucket = Ok ()).
Proof.
  unfold check_stream, check_bucket, granted. simpl. by destruct (existsb _ (bucket_allow e)).
Qed.

Definition orders_engine : PolicyEngine :=
  new_engine {| spec_subjects := ["orders.>"]; spec_streams := []; spec_buckets := [] |} ["runtime.host."].

Lemma subscription_delivers_only_granted_witness :
  check_subscription orders_engine "orders.*.new" = Ok () ∧
  check_subject orders_engine "orders.eu.new" = Ok ().
Proof.
  split; [vm_compute; reflexivity|].
  apply (subscription_delivers_only_granted orders_engine "orders.*.new" ["orders"; "eu"; "new"]).
  - constructor; [|constructor]. exists ["runtime"; "host"]. split; [done|]. split; [|done].
    repeat constructor; done.
  - vm_compute. reflexivity.
  - repeat constructor; done.
  - vm_compute. reflexivity.
Defined.
