(* ===== verification/MsgAdmission.v ===== *)
(** * Admission of messages

    [plugin/wasmcloud_messaging/mod.rs]: the ceilings on messages in flight and how
    they are derived, the gates replicas of a component share, a slot taken at both
    levels, the configuration a component gives, and subject matching.  Semaphores are
    numbered; a task is a message on its way through the two semaphores.  The
    [humantime] crate is a parameter. *)

From Stdlib Require Import ZArith Lia Ascii.
From stdpp Require Import base list gmap strings option relations.
From S2P Require Import Prelude RustStr StoreLib Wit BindingKeys NatsPolicy.
Local Open Scope Z_scope.

(** ** Ceilings *)

Definition DEFAULT_MAX_IN_FLIGHT_PER_COMPONENT : Z := 32.
Definition DEFAULT_MAX_IN_FLIGHT_HOST : Z := 128.
(** Durations are nanoseconds. *)
Definition from_secs (s : Z) : Z := s * 1000000000.
Definition DEFAULT_ADMISSION_WAIT : Z := from_secs 30.
Definition MAX_ADMISSION_WAIT : Z := from_secs 600.
Definition WORST_CASE_CORE_INSTANCES_PER_COMPONENT : Z := 5.
Definition MESSAGING_POOL_SHARE_NUM : Z := 2.
Definition MESSAGING_POOL_SHARE_DEN : Z := 3.
Definition SATURATED_COMPONENTS_PER_HOST : Z := 4.
Definition MIN_DERIVED_IN_FLIGHT : Z := 8.
Definition MAX_DERIVED_IN_FLIGHT : Z := 4096.
(** [Semaphore::MAX_PERMITS]. *)
Definition MAX_IN_FLIGHT : Z := Z.shiftr u64_MAX 3.
Definition u32_MAX : Z := 2 ^ 32 - 1.

(** [clamp] *)
Definition clamp (x lo hi : Z) : Z := if x <? lo then lo else if hi <? x then hi else x.

(** The product of the share is taken in [u32]. *)
Definition derive_host_ceiling (total_core_instances : option Z) : Z :=
  match total_core_instances with
  | None => DEFAULT_MAX_IN_FLIGHT_HOST
  | Some total =>
      let capacity := total / WORST_CASE_CORE_INSTANCES_PER_COMPONENT in
      let share := (capacity * MESSAGING_POOL_SHARE_NUM) mod 2 ^ 32 / MESSAGING_POOL_SHARE_DEN in
      let floor := Z.max (Z.min MIN_DERIVED_IN_FLIGHT capacity) 1 in
      clamp share floor MAX_DERIVED_IN_FLIGHT
  end.

Definition per_component_ceiling (host_total : Z) : Z :=
  Z.max (host_total / SATURATED_COMPONENTS_PER_HOST) 1.

Record MessagingLimits := { host_total : Z; per_component_default : Z; admission_wait : Z }.
Implicit Types lim : MessagingLimits.

Definition new_limits (total per : Z) : MessagingLimits :=
  {| host_total := clamp total 1 MAX_IN_FLIGHT; per_component_default := clamp per 1 MAX_IN_FLIGHT;
     admission_wait := DEFAULT_ADMISSION_WAIT |}.
Definition resolve_limits (total per : option Z) (total_core_instances : option Z) : MessagingLimits :=
  let total := default (derive_host_ceiling total_core_instances) total in
  new_limits total (default (per_component_ceiling total) per).

Definition clamp_admission_wait (wait : Z) : Z :=
  if MAX_ADMISSION_WAIT <? wait then MAX_ADMISSION_WAIT else wait.
Definition limits_with_wait lim (wait : Z) : MessagingLimits :=
  {| host_total := host_total lim; per_component_default := per_component_default lim;
     admission_wait := clamp_admission_wait wait |}.

(** What a component's request comes to. *)
Definition resolved_ceiling lim (requested : option Z) : Z :=
  let ceiling := Z.min (per_component_default lim) (host_total lim) in
  Z.max (match requested with
         | Some requested => if ceiling <? requested then ceiling else requested
         | None => ceiling
         end) 1.

(** ** Configuration *)

Definition MAX_IN_FLIGHT_CONFIG : string := "max_in_flight".
Definition ADMISSION_GROUP_CONFIG : string := "admission_group".
Definition ADMISSION_WAIT_CONFIG : string := "admission_wait".

(** [raw.map(str::trim).filter(|s| !s.is_empty())] *)
Definition trimmed (raw : option string) : option string :=
  raw ≫= λ s, if is_empty (trim s) then None else Some (trim s).

Definition parse_max_in_flight (raw : option string) : option Z :=
  trimmed raw ≫= λ s,
    match parse_uint u64_MAX s with Some n => if n =? 0 then None else Some n | None => None end.

Definition parse_admission_wait (parse_duration : string → option Z) (raw : option string) : option Z :=
  trimmed raw ≫= λ s,
    match parse_uint u64_MAX s with
    | Some secs => Some (clamp_admission_wait (from_secs secs))
    | None => clamp_admission_wait <$> parse_duration s
    end.

Definition parse_admission_group (raw : option string) : option string := trimmed raw.

Definition parse_subscriptions (raw : option string) : list string :=
  match raw with
  | Some s => filter (λ t, is_empty t = false) (trim <$> split "," s)
  | None => []
  end.

(** The loop of [subject_matches]. *)
Fixpoint match_tokens (pattern subject : list string) : bool :=
  match pattern with
  | [] => bool_decide (subject = [])
  | pat :: pattern =>
      if bool_decide (pat = ">"%string) then bool_decide (pattern = []) && negb (bool_decide (subject = []))
      else match subject with
           | sub :: subject =>
               if bool_decide (pat = "*"%string) || bool_decide (pat = sub)
               then match_tokens pattern subject else false
           | [] => false
           end
  end.
Definition subject_matches (pattern subject : string) : bool :=
  match_tokens (split "." pattern) (split "." subject).

Definition UNMATCHED_SUBSCRIPTION : string := "<unmatched>".
Definition subscription_for (subscriptions : list string) (subject : string) : string :=
  if bool_decide (subscriptions = []) then ">"
  else default UNMATCHED_SUBSCRIPTION (List.find (λ p, subject_matches p subject) subscriptions).

(** ** Gates *)

Record AdmissionIdentity := { id_namespace : string; id_workload : string; id_component : string }.
#[global] Instance AdmissionIdentity_eq_dec : EqDecision AdmissionIdentity.
Proof. solve_decision. Defined.
#[global] Instance AdmissionIdentity_countable : Countable AdmissionIdentity.
Proof.
  apply (inj_countable' (λ i, (id_namespace i, id_workload i, id_component i))
    (λ t, {| id_namespace := t.1.1; id_workload := t.1.2; id_component := t.2 |})). by intros [].
Defined.
Implicit Types id : AdmissionIdentity.

Record Semaphore := { permits : Z; closed : bool }.
Record GateEntry := { semaphore : nat; limit : Z; bindings : Z }.

(** One binding's [Admission]. *)
Record Admission := { adm_identity : AdmissionIdentity; adm_component : nat; adm_limit : Z; adm_wait : Z }.

(** A message: it holds the component's permit, or both. *)
Record Task := { task_sem : nat; task_host : bool }.

Record World := {
  limits : MessagingLimits;
  host : Z;                              (** permits of the host's semaphore *)
  gates : gmap AdmissionIdentity GateEntry;
  sems : gmap nat Semaphore;
  bound : gmap nat Admission;            (** live bindings *)
  tasks : gmap nat Task;
}.
Implicit Types w : World.

Definition new_world lim : World :=
  {| limits := lim; host := host_total lim; gates := ∅; sems := ∅; bound := ∅; tasks := ∅ |}.

(** [ComponentGates::acquire]: the entry, made at this limit where there is none. *)
Definition gate_entry w id (fresh : nat) (resolved : Z) : GateEntry :=
  default {| semaphore := fresh; limit := resolved; bindings := 0 |} (gates w !! id).
Definition bind w (b : nat) id (requested : option Z) : World :=
  let fresh_ := fresh (dom (sems w)) in
  let e := gate_entry w id fresh_ (resolved_ceiling (limits w) requested) in
  {| limits := limits w; host := host w;
     gates := <[id := {| semaphore := semaphore e; limit := limit e; bindings := bindings e + 1 |}]> (gates w);
     sems := if is_some (gates w !! id) then sems w
             else <[fresh_ := {| permits := limit e; closed := false |}]> (sems w);
     bound := <[b := {| adm_identity := id; adm_component := semaphore e; adm_limit := limit e;
                        adm_wait := admission_wait (limits w) |}]> (bound w);
     tasks := tasks w |}.

Definition close_sem (m : gmap nat Semaphore) (s : nat) : gmap nat Semaphore :=
  alter (λ x, {| permits := permits x; closed := true |}) s m.
Definition add_permits (m : gmap nat Semaphore) (s : nat) (d : Z) : gmap nat Semaphore :=
  alter (λ x, {| permits := permits x + d; closed := closed x |}) s m.

(** [ComponentGates::release]. *)
Definition release w id : World :=
  match gates w !! id with
  | None => w
  | Some e =>
      let n := Z.max 0 (bindings e - 1) in
      {| limits := limits w; host := host w;
         gates := if n =? 0 then delete id (gates w)
                  else <[id := {| semaphore := semaphore e; limit := limit e; bindings := n |}]> (gates w);
         sems := if n =? 0 then close_sem (sems w) (semaphore e) else sems w;
         bound := bound w; tasks := tasks w |}
  end.
Definition drop_binding w (b : nat) : World :=
  {| limits := limits w; host := host w; gates := gates w; sems := sems w; bound := delete b (bound w);
     tasks := tasks w |}.
(** [Admission::close], which takes the binding. *)
Definition close w (b : nat) : World :=
  match bound w !! b with Some a => drop_binding (release w (adm_identity a)) b | None => w end.

Definition with_tasks w (h : Z) (m : gmap nat Semaphore) (t : gmap nat Task) : World :=
  {| limits := limits w; host := h; gates := gates w; sems := m; bound := bound w; tasks := t |}.

(** [Admission::acquire], a permit at a time: the component's, then the host's. *)
Inductive Outcome := Took | Parked | Closed.
Definition enter w (t s : nat) : Outcome * World :=
  match sems w !! s with
  | Some x => if closed x then (Closed, w)
              else if permits x <=? 0 then (Parked, w)
              else (Took, with_tasks w (host w) (add_permits (sems w) s (-1))
                            (<[t := {| task_sem := s; task_host := false |}]> (tasks w)))
  | None => (Closed, w)
  end.
Definition take_host w (t : nat) : Outcome * World :=
  match tasks w !! t with
  | Some x => if task_host x then (Took, w)
              else if host w <=? 0 then (Parked, w)
              else (Took, with_tasks w (host w - 1) (sems w)
                            (<[t := {| task_sem := task_sem x; task_host := true |}]> (tasks w)))
  | None => (Closed, w)
  end.
(** Whatever was taken is returned: the handler ended, or the wait did. *)
Definition leave w (t : nat) : World :=
  match tasks w !! t with
  | Some x => with_tasks w (if task_host x then host w + 1 else host w)
                (add_permits (sems w) (task_sem x) 1) (delete t (tasks w))
  | None => w
  end.

Inductive world_step : World → World → Prop :=
  | ws_bind w b id r : bound w !! b = None → world_step w (bind w b id r)
  | ws_close w b : world_step w (close w b)
  | ws_enter w t s : tasks w !! t = None → world_step w (enter w t s).2
  | ws_host w t : world_step w (take_host w t).2
  | ws_leave w t : world_step w (leave w t).

(** ** The invariant *)

Definition limits_ok lim : Prop := 1 ≤ host_total lim ∧ 1 ≤ per_component_default lim.

Definition on (s : nat) (t : Task) : bool := bool_decide (task_sem t = s).
Definition of_id id (a : Admission) : bool := bool_decide (adm_identity a = id).

(** What a semaphore was made with. *)
Definition capacity w (s : nat) (x : Semaphore) : Z := permits x + count_if (on s) (tasks w).

Definition gate_ok w id (e : GateEntry) : Prop :=
  bindings e = count_if (of_id id) (bound w) ∧ 1 ≤ bindings e ∧
  ∃ x, sems w !! semaphore e = Some x ∧ closed x = false ∧ capacity w (semaphore e) x = limit e.

Record world_ok w : Prop := {
  ok_limits : limits_ok (limits w);
  ok_host : 0 ≤ host w ∧ host w + count_if task_host (tasks w) = host_total (limits w);
  ok_sems : ∀ s x, sems w !! s = Some x → 0 ≤ permits x ∧
    1 ≤ capacity w s x ≤ Z.min (per_component_default (limits w)) (host_total (limits w));
  ok_tasks : ∀ t x, tasks w !! t = Some x → is_Some (sems w !! task_sem x);
  ok_gates : ∀ id e, gates w !! id = Some e → gate_ok w id e;
  ok_bound : ∀ b a, bound w !! b = Some a → ∃ e, gates w !! adm_identity a = Some e ∧
    adm_component a = semaphore e ∧ adm_limit a = limit e;
  ok_apart : ∀ id id' e e', gates w !! id = Some e → gates w !! id' = Some e' →
    semaphore e = semaphore e' → id = id';
  ok_open : ∀ s x, sems w !! s = Some x → closed x = false → ∃ id e, gates w !! id = Some e ∧ semaphore e = s;
}.

Lemma resolved_ceiling_bounds lim r :
  limits_ok lim → 1 ≤ resolved_ceiling lim r ≤ Z.min (per_component_default lim) (host_total lim).
Proof.
  intros [H1 H2]. unfold resolved_ceiling. destruct r as [r|]; [|lia]. destruct (Z.ltb_spec (Z.min (per_component_default lim) (host_total lim)) r); lia.
Qed.

Lemma new_admission_ok lim : limits_ok lim → world_ok (new_world lim).
Proof.
  intros Hl. split; simpl; try done; try (intros *; by rewrite lookup_empty).
  destruct Hl. rewrite count_if_empty. lia.
Qed.

(** A semaphore not used yet has no tasks. *)
Lemma fresh_unused w s : world_ok w → sems w !! s = None → count_if (on s) (tasks w) = 0.
Proof.
  intros Hok Hs. apply count_if_zero. intros t x Ht. apply bool_decide_eq_false. intros <-.
  destruct (ok_tasks _ Hok t x Ht) as [? ?]. congruence.
Qed.

(** Another replica of a component that is bound. *)
Lemma bind_replica_ok w b id r e :
  world_ok w → bound w !! b = None → gates w !! id = Some e → world_ok (bind w b id r).
Proof.
  intros Hok Hb Eg. unfold bind, gate_entry. rewrite Eg. simpl.
  destruct (ok_gates _ Hok id e Eg) as (Hn & H1 & x & Ex & Hx & Hc). split; simpl; try apply Hok.
  - intros id' e'. destruct (decide (id' = id)) as [->|Hne].
    + rewrite lookup_insert_eq. intros [= <-]. unfold gate_ok. simpl. rewrite count_if_insert by done.
      unfold of_id at 2. simpl. rewrite bool_decide_true by done. split_and!; [lia|lia|eauto].
    + rewrite lookup_insert_ne by done. intros E'. destruct (ok_gates _ Hok id' e' E') as (Hn' & ? & ?).
      split_and!; [|done|done]. simpl. rewrite count_if_insert by done. unfold of_id at 2. simpl.
      rewrite bool_decide_false by done. lia.
  - intros b' a. destruct (decide (b' = b)) as [->|Hne].
    + rewrite lookup_insert_eq. intros [= <-]. simpl. rewrite lookup_insert_eq. eauto.
    + rewrite lookup_insert_ne by done. intros Ea. destruct (ok_bound _ Hok b' a Ea) as (e' & E' & Hc' & Hl').
      destruct (decide (adm_identity a = id)) as [Ei|Hi].
      * rewrite Ei in *. rewrite lookup_insert_eq. simplify_eq. eauto.
      * rewrite lookup_insert_ne by done. eauto.
  - intros id1 id2 e1 e2. rewrite !lookup_insert_Some.
    intros [[<- <-]|[Hn1 E1]] [[<- <-]|[Hn2 E2]] Es; simpl in *; [done|..]; eapply (ok_apart _ Hok); eauto.
  - intros s' x' Ex' Ho. destruct (ok_open _ Hok s' x' Ex' Ho) as (id' & e' & E' & <-).
    destruct (decide (id' = id)) as [->|Hne]; simplify_eq; [exists id; rewrite lookup_insert_eq; eauto|].
    exists id', e'. by rewrite lookup_insert_ne.
Qed.

(** The first one, with a gate of its own. *)
Lemma bind_first_ok w b id r : world_ok w → bound w !! b = None → gates w !! id = None → world_ok (bind w b id r).
Proof.
  intros Hok Hb Eg. unfold bind, gate_entry. rewrite Eg. simpl. set (s := fresh (dom (sems w))).
  assert (sems w !! s = None) as Hs by (apply not_elem_of_dom, is_fresh).
  destruct (resolved_ceiling_bounds (limits w) r (ok_limits _ Hok)) as [Hr1 Hr2].
  pose proof (fresh_unused w s Hok Hs) as Hfresh.
  assert (count_if (of_id id) (bound w) = 0) as Hz.
  { apply count_if_zero. intros b' a Ea. apply bool_decide_eq_false. intros Ei.
    destruct (ok_bound _ Hok b' a Ea) as (e' & E' & _). congruence. }
  assert (∀ id' e', gates w !! id' = Some e' → semaphore e' ≠ s) as Hns.
  { intros id' e' E' Es. destruct (ok_gates _ Hok id' e' E') as (_ & _ & x & Ex & _). congruence. }
  split; simpl; try apply Hok.
  - intros s' x'. destruct (decide (s' = s)) as [->|Hne].
    + rewrite lookup_insert_eq. intros [= <-]. unfold capacity. simpl. lia.
    + rewrite lookup_insert_ne by done. apply (ok_sems _ Hok).
  - intros t x Ht. destruct (decide (task_sem x = s)) as [->|]; [rewrite lookup_insert_eq; eauto|].
    rewrite lookup_insert_ne by done. by eapply (ok_tasks _ Hok).
  - intros id' e'. destruct (decide (id' = id)) as [->|Hne].
    + rewrite lookup_insert_eq. intros [= <-]. unfold gate_ok. simpl. rewrite count_if_insert, lookup_insert_eq by done.
      unfold of_id at 2. simpl. rewrite bool_decide_true by done. split_and!; [lia|lia|]. eexists.
      split_and!; [done|done|]. unfold capacity. simpl. lia.
    + rewrite lookup_insert_ne by done. intros E'. destruct (ok_gates _ Hok id' e' E') as (Hn' & H1 & x & Ex & Hx).
      split_and!; [|done|exists x; simpl; rewrite lookup_insert_ne by (apply not_eq_sym; eauto); done].
      simpl. rewrite count_if_insert by done. unfold of_id at 2. simpl. rewrite bool_decide_false by done. lia.
  - intros b' a. destruct (decide (b' = b)) as [->|Hne].
    + rewrite lookup_insert_eq. intros [= <-]. simpl. rewrite lookup_insert_eq. eauto.
    + rewrite lookup_insert_ne by done. intros Ea. destruct (ok_bound _ Hok b' a Ea) as (e' & E' & Hc' & Hl').
      rewrite lookup_insert_ne by congruence. eauto.
  - intros id1 id2 e1 e2. rewrite !lookup_insert_Some.
    intros [[<- <-]|[Hn1 E1]] [[<- <-]|[Hn2 E2]] Es; simpl in *; [done|..].
    + by destruct (Hns _ _ E2).
    + by destruct (Hns _ _ E1).
    + eapply (ok_apart _ Hok); eauto.
  - intros s' x'. destruct (decide (s' = s)) as [->|Hne].
    + intros _ _. exists id. eexists. by rewrite lookup_insert_eq.
    + rewrite lookup_insert_ne by done. intros Ex Ho. destruct (ok_open _ Hok s' x' Ex Ho) as (id' & e' & E' & Es).
      exists id', e'. rewrite lookup_insert_ne by congruence. done.
Qed.

Lemma bind_ok w b id r : world_ok w → bound w !! b = None → world_ok (bind w b id r).
Proof. intros Hok Hb. destruct (gates w !! id) eqn:Eg; [by eapply bind_replica_ok|by apply bind_first_ok]. Qed.

Lemma close_sem_lookup m s s' x :
  close_sem m s !! s' = Some x →
  ∃ y, m !! s' = Some y ∧ permits x = permits y ∧ (s' = s → closed x = true) ∧ (s' ≠ s → closed x = closed y).
Proof.
  unfold close_sem. destruct (decide (s' = s)) as [->|Hne].
  - rewrite lookup_alter_eq. intros (y & E & ->)%fmap_Some. naive_solver.
  - rewrite lookup_alter_ne by done. naive_solver.
Qed.

(** A replica goes, and others are left. *)
Lemma close_replica_ok w b a e :
  world_ok w → bound w !! b = Some a → gates w !! adm_identity a = Some e → 1 < bindings e → world_ok (close w b).
Proof.
  intros Hok Hb Eg Hn. unfold close, release. rewrite Hb, Eg. simpl. set (id := adm_identity a) in *.
  destruct (Z.eqb_spec (Z.max 0 (bindings e - 1)) 0) as [|_]; [lia|].
  destruct (ok_gates _ Hok id e Eg) as (Hc & _ & x & Ex & Hx). split; simpl; try apply Hok.
  - intros id' e'. destruct (decide (id' = id)) as [->|Hne].
    + rewrite lookup_insert_eq. intros [= <-]. unfold gate_ok. simpl. rewrite (count_if_delete _ _ _ _ Hb).
      unfold of_id at 2. fold id. rewrite bool_decide_true by done. split_and!; [lia|lia|eauto].
    + rewrite lookup_insert_ne by done. intros E'. destruct (ok_gates _ Hok id' e' E') as (Hc' & ? & ?).
      split_and!; [|done|done]. simpl. rewrite (count_if_delete _ _ _ _ Hb). unfold of_id at 2. fold id.
      rewrite bool_decide_false by done. lia.
  - intros b' a'. rewrite lookup_delete_Some. intros [Hne Ea]. destruct (ok_bound _ Hok b' a' Ea) as (e' & E' & Hc' & Hl').
    destruct (decide (adm_identity a' = id)) as [Ei|Hi].
    + rewrite Ei in *. rewrite lookup_insert_eq. simplify_eq. eauto.
    + rewrite lookup_insert_ne by done. eauto.
  - intros id1 id2 e1 e2. rewrite !lookup_insert_Some.
    intros [[<- <-]|[Hn1 E1]] [[<- <-]|[Hn2 E2]] Es; simpl in *; [done|..]; eapply (ok_apart _ Hok); eauto.
  - intros s' x' Ex' Ho. destruct (ok_open _ Hok s' x' Ex' Ho) as (id' & e' & E' & <-).
    destruct (decide (id' = id)) as [->|Hne]; simplify_eq; [exists id; rewrite lookup_insert_eq; eauto|].
    exists id', e'. by rewrite lookup_insert_ne.
Qed.

(** The last one goes, and the gate with it. *)
Lemma close_last_ok w b a e :
  world_ok w → bound w !! b = Some a → gates w !! adm_identity a = Some e → bindings e = 1 → world_ok (close w b).
Proof.
  intros Hok Hb Eg Hn. unfold close, release. rewrite Hb, Eg. simpl. set (id := adm_identity a) in *. rewrite Hn. simpl.
  destruct (ok_gates _ Hok id e Eg) as (Hc & _ & x & Ex & Hx).
  assert (count_if (of_id id) (delete b (bound w)) = 0) as Hz.
  { rewrite (count_if_delete _ _ _ _ Hb). unfold of_id at 2. fold id. rewrite bool_decide_true by done. lia. }
  split; simpl; try apply Hok.
  - intros s x' (y & Ey & Hp & _)%close_sem_lookup. destruct (ok_sems _ Hok s y Ey). unfold capacity in *. rewrite Hp. done.
  - intros t y Ht. unfold close_sem. destruct (ok_tasks _ Hok t y Ht) as [z Hz'].
    destruct (decide (task_sem y = semaphore e)) as [->|]; [rewrite lookup_alter_eq, Ex; simpl; eauto|].
    rewrite lookup_alter_ne by done. eauto.
  - intros id' e'. rewrite lookup_delete_Some. intros [Hne E']. destruct (ok_gates _ Hok id' e' E') as (Hc' & H1 & y & Ey & Hy).
    split_and!; [|done|exists y]; simpl.
    + rewrite (count_if_delete _ _ _ _ Hb). unfold of_id at 2. fold id. rewrite bool_decide_false by done. lia.
    + unfold close_sem. rewrite lookup_alter_ne; [done|]. intros Es. apply Hne. by eapply (ok_apart _ Hok).
  - intros b' a' Ea'. pose proof (proj1 (count_if_zero _ _) Hz b' a' Ea') as Hi. apply bool_decide_eq_false in Hi.
    apply lookup_delete_Some in Ea' as [_ Ea]. destruct (ok_bound _ Hok b' a' Ea) as (e' & E' & Hc' & Hl').
    rewrite lookup_delete_ne by congruence. eauto.
  - intros id1 id2 e1 e2. rewrite !lookup_delete_Some. intros [_ E1] [_ E2]. by apply (ok_apart _ Hok).
  - intros s x' (y & Ey & Hp & Hcl & Hop)%close_sem_lookup Ho. destruct (decide (s = semaphore e)) as [Es|Hs].
    { rewrite Hcl in Ho; done. }
    rewrite Hop in Ho by done. destruct (ok_open _ Hok s y Ey Ho) as (id' & e' & E' & <-).
    exists id', e'. rewrite lookup_delete_ne; [done|]. intros <-. congruence.
Qed.

Lemma close_binding_ok w b : world_ok w → world_ok (close w b).
Proof.
  intros Hok. destruct (bound w !! b) as [a|] eqn:Hb; [|unfold close; by rewrite Hb].
  destruct (ok_bound _ Hok b a Hb) as (e & Eg & _). destruct (ok_gates _ Hok _ _ Eg) as (_ & H1 & _).
  destruct (decide (bindings e = 1)); [by eapply close_last_ok|eapply close_replica_ok; eauto; lia].
Qed.

(** Permits change hands, and no semaphore gains or loses any. *)
Lemma with_tasks_ok w h m ts :
  world_ok w → 0 ≤ h → h + count_if task_host ts = host_total (limits w) →
  (∀ s, match sems w !! s, m !! s with
        | Some x, Some y => closed y = closed x ∧ 0 ≤ permits y ∧ permits y + count_if (on s) ts = capacity w s x
        | None, None => True
        | _, _ => False end) →
  (∀ t x, ts !! t = Some x → is_Some (sems w !! task_sem x)) → world_ok (with_tasks w h m ts).
Proof.
  intros Hok Hh Hc Hs Ht. split; simpl; try apply Hok; try done.
  - intros s y Ey. specialize (Hs s). rewrite Ey in Hs. destruct (sems w !! s) as [x|] eqn:Ex; [|done].
    destruct Hs as (_ & Hp & Hcap). unfold capacity at 1 2. simpl. rewrite Hcap. split; [done|]. by apply (ok_sems _ Hok).
  - intros t x Et. destruct (Ht t x Et) as [y Ey]. specialize (Hs (task_sem x)). rewrite Ey in Hs.
    destruct (m !! task_sem x); [eauto|done].
  - intros id e Eg. destruct (ok_gates _ Hok id e Eg) as (Hn & H1 & x & Ex & Ho & Hcap). split_and!; [done|done|].
    simpl. specialize (Hs (semaphore e)). rewrite Ex in Hs. destruct (m !! semaphore e) as [y|] eqn:Ey; [|done].
    destruct Hs as (Hcl & _ & Hcap'). exists y. split_and!; [done|congruence|]. unfold capacity. simpl. congruence.
  - intros s y Ey Ho. specialize (Hs s). rewrite Ey in Hs. destruct (sems w !! s) as [x|] eqn:Ex; [|done].
    apply (ok_open _ Hok s x Ex). by destruct Hs as [<- _].
Qed.

Lemma add_permits_lookup m s d s' :
  add_permits m s d !! s' =
  (λ x, {| permits := permits x + (if decide (s' = s) then d else 0); closed := closed x |}) <$> m !! s'.
Proof.
  unfold add_permits. case_decide as E; [subst; by rewrite lookup_alter_eq|]. rewrite lookup_alter_ne by done.
  destruct (m !! s') as [[p c]|]; simpl; [by rewrite Z.add_0_r|done].
Qed.

Lemma on_spec s t : on s t = if decide (task_sem t = s) then true else false.
Proof. unfold on. by case_decide; [rewrite bool_decide_true|rewrite bool_decide_false]. Qed.

Lemma enter_ok w t s : world_ok w → tasks w !! t = None → world_ok (enter w t s).2.
Proof.
  intros Hok Ht. unfold enter. destruct (sems w !! s) as [x|] eqn:Es; [|done]. destruct (closed x) eqn:Ec; [done|].
  destruct (Z.leb_spec (permits x) 0) as [|Hp]; [done|]. simpl. destruct (ok_host _ Hok) as [Hh1 Hh2].
  apply with_tasks_ok; [done|done| | |].
  - rewrite count_if_insert by done. simpl. lia.
  - intros s'. rewrite add_permits_lookup, count_if_insert, on_spec by done. simpl.
    destruct (sems w !! s') as [y|] eqn:Ey; simpl; [|done]. destruct (ok_sems _ Hok s' y Ey) as [Hy _].
    unfold capacity. repeat case_decide; subst; simplify_eq; try done; split_and!; lia || done.
  - intros t' y. rewrite lookup_insert_Some. intros [[<- <-]|[_ E]]; [simpl; eauto|by eapply (ok_tasks _ Hok)].
Qed.

Lemma take_host_ok w t : world_ok w → world_ok (take_host w t).2.
Proof.
  intros Hok. unfold take_host. destruct (tasks w !! t) as [x|] eqn:Et; [|done]. destruct (task_host x) eqn:Ex; [done|].
  destruct (Z.leb_spec (host w) 0) as [|Hp]; [done|]. simpl. destruct (ok_host _ Hok) as [Hh1 Hh2].
  apply with_tasks_ok; [done|lia| | |].
  - rewrite (count_if_update _ _ _ _ _ Et), Ex. simpl. lia.
  - intros s'. rewrite (count_if_update _ _ _ _ _ Et), !on_spec. simpl.
    destruct (sems w !! s') as [y|] eqn:Ey; [|done]. destruct (ok_sems _ Hok s' y Ey) as [Hy _].
    unfold capacity. split_and!; [done|done|lia].
  - intros t' y. rewrite lookup_insert_Some. intros [[<- <-]|[_ E]]; [simpl; by eapply (ok_tasks _ Hok)|by eapply (ok_tasks _ Hok)].
Qed.

Lemma leave_ok w t : world_ok w → world_ok (leave w t).
Proof.
  intros Hok. unfold leave. destruct (tasks w !! t) as [x|] eqn:Et; [|done]. destruct (ok_host _ Hok) as [Hh1 Hh2].
  apply with_tasks_ok; [done|destruct (task_host x); lia| | |].
  - rewrite (count_if_delete _ _ _ _ Et). destruct (task_host x); lia.
  - intros s'. rewrite add_permits_lookup, (count_if_delete _ _ _ _ Et), on_spec. simpl.
    destruct (sems w !! s') as [y|] eqn:Ey; simpl; [|done]. destruct (ok_sems _ Hok s' y Ey) as [Hy _].
    unfold capacity. repeat case_decide; subst; try done; split_and!; lia || done.
  - intros t' y [_ E]%lookup_delete_Some. by eapply (ok_tasks _ Hok).
Qed.

Lemma step_limits w w' : world_step w w' → limits w' = limits w.
Proof.
  destruct 1; simpl; try done; unfold close, release, enter, take_host, leave; repeat (case_match; simpl; try done).
Qed.

Lemma admission_history_ok lim w :
  limits_ok lim → rtc world_step (new_world lim) w → world_ok w ∧ limits w = lim.
Proof.
  intros Hl. apply (rtc_invariant _ (λ w, world_ok w ∧ limits w = lim)); [split; [by apply new_admission_ok|done]|].
  intros a b Hs [Ha El]. split; [|by rewrite (step_limits _ _ Hs)].
  destruct Hs; [by apply bind_ok|by apply close_binding_ok|by apply enter_ok|by apply take_host_ok|by apply leave_ok].
Qed.

(** ** Theorems *)

(** C38: Whatever the history of bindings and messages, the messages in flight on the host
    never pass its total; and while a component is bound, all its replicas share one
    gate, and the messages in flight that entered through that gate never pass its
    ceiling, which is within both the host's.  (A component whose last replica went and
    that is bound again has a new gate, which does not count the messages of the old.) *)
Theorem messages_in_flight_are_bounded lim w :
  limits_ok lim → rtc world_step (new_world lim) w →
  count_if task_host (tasks w) ≤ host_total lim ∧
  ∀ id e, gates w !! id = Some e →
    (∀ b a, bound w !! b = Some a → adm_identity a = id → adm_component a = semaphore e ∧ adm_limit a = limit e) ∧
    count_if (on (semaphore e)) (tasks w) ≤ limit e ≤ Z.min (per_component_default lim) (host_total lim).
Proof.
  intros Hl Hr. destruct (admission_history_ok lim w Hl Hr) as [Hok <-]. destruct (ok_host _ Hok). split; [lia|].
  intros id e Eg. split.
  - intros b a Ea <-. destruct (ok_bound _ Hok b a Ea) as (e' & E' & ? & ?). by simplify_eq.
  - destruct (ok_gates _ Hok id e Eg) as (_ & _ & x & Ex & _ & Hc). destruct (ok_sems _ Hok _ x Ex) as [Hp Hb].
    unfold capacity in *. lia.
Qed.

(** A gate closes with its last binding: the semaphore of every live binding is open,
    and one that no binding is left on is closed. *)
Theorem gate_closes_with_its_last_binding lim w s x :
  limits_ok lim → rtc world_step (new_world lim) w → sems w !! s = Some x →
  closed x = false ↔ ∃ b a, bound w !! b = Some a ∧ adm_component a = s.
Proof.
  intros Hl Hr Es. destruct (admission_history_ok lim w Hl Hr) as [Hok _]. split.
  - intros Ho. destruct (ok_open _ Hok s x Es Ho) as (id & e & Eg & <-).
    destruct (ok_gates _ Hok id e Eg) as (Hn & H1 & _).
    destruct (decide (∃ b a, bound w !! b = Some a ∧ of_id id a = true)) as [(b & a & Eb & Ha)|Hno].
    + exists b, a. split; [done|]. apply bool_decide_eq_true in Ha as <-.
      destruct (ok_bound _ Hok b a Eb) as (e' & E' & ? & _). by simplify_eq.
    + exfalso. assert (count_if (of_id id) (bound w) = 0) as Hz; [|lia]. apply count_if_zero. intros b a Eb.
      destruct (of_id id a) eqn:Ea; [|done]. exfalso. apply Hno. eauto.
  - intros (b & a & Eb & <-). destruct (ok_bound _ Hok b a Eb) as (e & Eg & Ec & _).
    destruct (ok_gates _ Hok _ e Eg) as (_ & _ & y & Ey & Ho & _). rewrite Ec in Es. by simplify_eq.
Qed.

(** A message waits only for messages that are in flight: for the component's permit
    when as many of its messages as its ceiling hold one, then for the host's when as
    many as the host's total do. *)
Theorem message_waits_for_messages lim w id e t :
  limits_ok lim → rtc world_step (new_world lim) w → gates w !! id = Some e →
  ((enter w t (semaphore e)).1 = Parked ↔ count_if (on (semaphore e)) (tasks w) = limit e) ∧
  (enter w t (semaphore e)).1 ≠ Closed ∧
  ∀ x, tasks w !! t = Some x → task_host x = false →
    ((take_host w t).1 = Parked ↔ count_if task_host (tasks w) = host_total lim).
Proof.
  intros Hl Hr Eg. destruct (admission_history_ok lim w Hl Hr) as [Hok <-].
  destruct (ok_gates _ Hok id e Eg) as (_ & _ & x & Ex & Ho & Hc). destruct (ok_sems _ Hok _ x Ex) as [Hp _].
  destruct (ok_host _ Hok). unfold enter, take_host, capacity in *. rewrite Ex, Ho. split_and!.
  - destruct (Z.leb_spec (permits x) 0); simpl; (split; [intros; done || lia|intros; done || lia]).
  - by destruct (permits x <=? 0).
  - intros y Ey Hy. rewrite Ey, Hy. destruct (Z.leb_spec (host w) 0); simpl; (split; [intros; done || lia|intros; done || lia]).
Qed.

(** ** Derived ceilings *)

Lemma MAX_IN_FLIGHT_value : MAX_IN_FLIGHT = 2305843009213693951.
Proof. vm_compute. reflexivity. Qed.

Lemma clamp_bounds x lo hi : lo ≤ hi → lo ≤ clamp x lo hi ≤ hi.
Proof. intros Hl. unfold clamp. destruct (Z.ltb_spec x lo), (Z.ltb_spec hi x); lia. Qed.

Lemma clamp_quarter h hi : 1 ≤ hi → clamp (per_component_ceiling h) 1 hi ≤ clamp h 1 hi.
Proof.
  intros Hh. unfold per_component_ceiling, SATURATED_COMPONENTS_PER_HOST.
  assert (h / 4 ≤ Z.max h 0) as Hq.
  { destruct (Z.le_gt_cases 0 h); [apply Z.div_le_upper_bound; lia|]. pose proof (Z.div_lt_upper_bound h 4 0); lia. }
  unfold clamp. destruct (Z.ltb_spec (Z.max (h / 4) 1) 1), (Z.ltb_spec h 1), (Z.ltb_spec hi h),
    (Z.ltb_spec hi (Z.max (h / 4) 1)); lia.
Qed.

(** A ceiling derived from the engine's pool is positive and never admits more than the
    pool can instantiate, at five core instances a message; what the limits come to is a
    semaphore's size whatever the operator wrote; and where the operator names no
    per-component ceiling, a component's is within the host's. *)
Theorem derived_limits_fit_the_pool total per pool :
  (∀ p, pool = Some p → 0 ≤ p ≤ u32_MAX) →
  (∀ p, pool = Some p → 5 ≤ p → 5 * derive_host_ceiling pool ≤ p) ∧
  1 ≤ derive_host_ceiling pool ≤ MAX_DERIVED_IN_FLIGHT ∧
  let lim := resolve_limits total per pool in
  limits_ok lim ∧ host_total lim ≤ MAX_IN_FLIGHT ∧ per_component_default lim ≤ MAX_IN_FLIGHT ∧
  (per = None → per_component_default lim ≤ host_total lim).
Proof.
  intros Hpool. assert (1 ≤ derive_host_ceiling pool ≤ MAX_DERIVED_IN_FLIGHT ∧
    ∀ p, pool = Some p → 5 ≤ p → 5 * derive_host_ceiling pool ≤ p) as [Hb Hfit].
  { unfold derive_host_ceiling, DEFAULT_MAX_IN_FLIGHT_HOST, MAX_DERIVED_IN_FLIGHT,
      WORST_CASE_CORE_INSTANCES_PER_COMPONENT, MESSAGING_POOL_SHARE_NUM, MESSAGING_POOL_SHARE_DEN, MIN_DERIVED_IN_FLIGHT, clamp.
    destruct pool as [p|]; [|split; [lia|done]]. specialize (Hpool p eq_refl). unfold u32_MAX in Hpool.
    set (c := p / 5). assert (0 ≤ c ∧ 5 * c ≤ p) as [Hc0 Hc] by (unfold c; split; [apply Z.div_pos; lia|apply Z.mul_div_le; lia]).
    assert (5 ≤ p → 1 ≤ c) as Hc1 by (intros; unfold c; apply Z.div_le_lower_bound; lia).
    rewrite (Z.mod_small (c * 2)) by lia. set (s := c * 2 / 3).
    assert (0 ≤ s ≤ c) as Hs.
    { unfold s. split; [apply Z.div_pos; lia|]. apply Z.div_le_upper_bound; lia. }
    destruct (Z.ltb_spec s (Z.max (Z.min 8 c) 1)), (Z.ltb_spec 4096 s); (split; [lia|intros ? [= <-] ?; lia]). }
  split; [done|]. split; [done|]. cbv zeta. unfold resolve_limits, new_limits, limits_ok. simpl.
  set (h := default (derive_host_ceiling pool) total).
  pose proof (clamp_bounds h 1 MAX_IN_FLIGHT). pose proof (clamp_bounds (default (per_component_ceiling h) per) 1 MAX_IN_FLIGHT).
  rewrite MAX_IN_FLIGHT_value in *. split_and!; [lia..|]. intros ->. simpl. apply clamp_quarter. lia.
Qed.

(** ** Subjects *)

Lemma match_tokens_spec ts (tr : bool) parts :
  Forall concrete_token ts →
  match_tokens ((show_token <$> ts) ++ if tr then [">"%string] else []) parts =
  matches_parts {| tokens := ts; trailing := tr; valid := true |} parts.
Proof.
  intros Hts. revert parts. induction Hts as [|t ts Ht Hts IH]; intros parts.
  - unfold matches_parts. destruct tr, parts; simpl; try done.
  - simpl. rewrite bool_decide_false by (destruct t as [l|]; [by destruct Ht as (_ & _ & ? & _)|done]).
    unfold matches_parts in *. simpl in *. destruct parts as [|s parts]; simpl in *.
    { by destruct tr. }
    rewrite IH. destruct t as [l|]; simpl.
    + rewrite (bool_decide_false (l = "*"%string)) by (by destruct Ht as (_ & ? & _)). simpl.
      destruct tr; simpl; repeat case_bool_decide; simpl; try done; try lia.
    + destruct tr; simpl; repeat case_bool_decide; simpl; try done; lia.
Qed.

(** Messaging and the NATS plugin read subscriptions alike: on a pattern that is well
    formed, the walk over both lists of tokens and the test of the parsed pattern
    agree. *)
Theorem subscriptions_match_like_grants pattern subject :
  valid (parse pattern) = true → subject_matches pattern subject = matches (parse pattern) subject.
Proof.
  intros Hv. destruct (parse_spec pattern Hv) as [Es Hf]. unfold subject_matches, matches. rewrite Es.
  unfold show_parts. rewrite match_tokens_spec by done. destruct (parse pattern); simpl in *. by subst.
Qed.

(** ** A gate made again *)

(** A component whose last replica went leaves its messages in flight; the gate a new
    replica makes does not count them, so a ceiling of one lets two through. *)
Theorem rebinding_forgets_messages_in_flight :
  ∃ w id e, rtc world_step (new_world (new_limits 4 1)) w ∧ gates w !! id = Some e ∧ limit e = 1 ∧
    count_if task_host (tasks w) = 2 ∧ dom (gates w) = {[id]}.
Proof.
  set (w0 := new_world (new_limits 4 1)).
  set (id := {| id_namespace := "default"; id_workload := "orders"; id_component := "worker" |}).
  set (w1 := (take_host (enter (bind w0 0 id None) 0 0).2 0).2).
  set (w2 := (take_host (enter (bind (close w1 0) 1 id None) 1 1).2 1).2).
  exists w2, id, {| semaphore := 1; limit := 1; bindings := 1 |}. split_and!.
  - eapply rtc_l; [by apply (ws_bind w0 0 id None)|]. eapply rtc_l; [by apply (ws_enter _ 0 0)|].
    eapply rtc_l; [apply (ws_host _ 0)|]. eapply rtc_l; [apply (ws_close _ 0)|].
    eapply rtc_l; [by apply (ws_bind _ 1 id None)|]. eapply rtc_l; [by apply (ws_enter _ 1 1)|].
    eapply rtc_l; [apply (ws_host _ 1)|]. apply rtc_refl.
  - vm_compute. reflexivity.
  - reflexivity.
  - vm_compute. reflexivity.
  - vm_compute. reflexivity.
Qed.

(** ** Witnesses *)

Definition small_limits : MessagingLimits := new_limits 4 1.
Definition orders_id : AdmissionIdentity :=
  {| id_namespace := "default"; id_workload := "orders"; id_component := "worker" |}.
(** Two replicas, and a message of the first in flight. *)
Definition two_replicas : World :=
  bind (take_host (enter (bind (new_world small_limits) 0 orders_id (Some 3)) 0 0).2 0).2 1 orders_id None.

Lemma small_limits_ok : limits_ok small_limits.
Proof. split; vm_compute; discriminate. Qed.

Lemma two_replicas_reached : rtc world_step (new_world small_limits) two_replicas.
Proof.
  eapply rtc_l; [by apply (ws_bind _ 0 orders_id (Some 3))|]. eapply rtc_l; [by apply (ws_enter _ 0 0)|].
  eapply rtc_l; [apply (ws_host _ 0)|]. eapply rtc_l; [by apply (ws_bind _ 1 orders_id None)|]. apply rtc_refl.
Qed.

Lemma messages_in_flight_are_bounded_witness : count_if task_host (tasks two_replicas) ≤ 4.
Proof. apply (messages_in_flight_are_bounded small_limits two_replicas small_limits_ok two_replicas_reached). Defined.

Lemma gate_closes_with_its_last_binding_witness :
  ∃ b a, bound two_replicas !! b = Some a ∧ adm_component a = 0%nat.
Proof.
  apply (gate_closes_with_its_last_binding small_limits two_replicas 0 {| permits := 0; closed := false |}
    small_limits_ok two_replicas_reached); vm_compute; reflexivity.
Defined.

Lemma message_waits_for_messages_witness : (enter two_replicas 1 0).1 = Parked.
Proof.
  apply (message_waits_for_messages small_limits two_replicas orders_id
    {| semaphore := 0; limit := 1; bindings := 2 |} 1 small_limits_ok two_replicas_reached); vm_compute; reflexivity.
Defined.

Lemma derived_limits_fit_the_pool_witness :
  derive_host_ceiling (Some 1000) = 133 ∧ 5 * derive_host_ceiling (Some 1000) ≤ 1000.
Proof.
  split; [vm_compute; reflexivity|]. destruct (derived_limits_fit_the_pool None None (Some 1000)) as [Hf _].
  - intros p [= <-]. unfold u32_MAX. lia.
  - by apply Hf.
Defined.

Lemma subscriptions_match_like_grants_witness : subject_matches "orders.>" "orders.eu.new" = true.
Proof. rewrite (subscriptions_match_like_grants "orders.>" "orders.eu.new" eq_refl). vm_compute. reflexivity. Defined.
