(* ===== verification/Messaging.v ===== *)
(** * Messages within a workload

    [plugin/wasmcloud_messaging/in_memory.rs]: the inbox of each component, routing to
    the components whose subscriptions match, requests and their replies, and what the
    receive loop of a component does with a message.  The tracker is the one of
    [plugin/mod.rs].  The order a [HashMap] of components is walked in, the reply subject
    (a fresh UUID), and what admission, stores and trigger services answer are
    arguments. *)

From Stdlib Require Import ZArith Lia Ascii.
From stdpp Require Import base list gmap strings option relations.
From S2P Require Import Prelude RustStr Wit MsgAdmission.
Local Open Scope string_scope.

Definition MAX_QUEUE_SIZE : nat := Z.to_nat 10000.

Record BrokerMessage := { msg_subject : string; msg_body : string; reply_to : option string }.
#[global] Instance BrokerMessage_eq_dec : EqDecision BrokerMessage.
Proof. solve_decision. Defined.

Inductive MsgError :=
  | SubjectInvalid (d : string) | AccessDenied (d : string) | MsgTimeout (d : string)
  | BrokerUnavailable (d : string) | MessageTooLarge (d : string) | QuotaExceeded (d : string)
  | Other (d : string).
Definition show_error (e : MsgError) : string :=
  match e with
  | SubjectInvalid d | AccessDenied d | MsgTimeout d | BrokerUnavailable d | MessageTooLarge d
  | QuotaExceeded d | Other d => d
  end.

Definition QUEUE_FULL : MsgError := QuotaExceeded "message queue full".
Definition NO_WORKLOAD : MsgError := Other "workload state not found".
Definition ADMISSION_SHED_DETAIL : string :=
  "the responding component's messaging admission gate is saturated; the request was shed rather than queued".
Definition shed_error : MsgError := QuotaExceeded ADMISSION_SHED_DETAIL.
Definition TIMED_OUT : MsgError := MsgTimeout "request timed out".

Record QueuedMessage := { msg : BrokerMessage; sole_subscriber : bool }.

(** The task is [None] until the workload is resolved, and false once its loop ended. *)
Record ComponentData := {
  subscriptions : list string;
  inbox : list QueuedMessage;
  notified : bool;
  task_handle : option bool;
  admission : nat;                 (** the binding whose gate it holds *)
}.
Implicit Types d : ComponentData.

(** [PendingRequests]: the request that waits on each reply subject. *)
Abbreviation WorkloadData := (gmap string nat).

Inductive Waiting_ := Awaiting | Left_ | Answered (r : result BrokerMessage MsgError).
Record Request := { rq_workload : string; rq_reply : string; rq_state : Waiting_ }.

Record Plugin := {
  tracker : Tracker WorkloadData ComponentData;
  requests : gmap nat Request;     (** one per [request] call, with its channel *)
}.
Implicit Types p : Plugin.

Definition new_plugin : Plugin := {| tracker := empty_tracker; requests := ∅ |}.

(** ** Routing *)

Definition subscriptions_match (l : list string) (subject : string) : bool :=
  bool_decide (l = []) || existsb (λ s, subject_matches s subject) l.

Definition push (q : QueuedMessage) d : ComponentData :=
  {| subscriptions := subscriptions d; inbox := inbox d ++ [q]; notified := true;
     task_handle := task_handle d; admission := admission d |}.

Definition matching (cs : gmap string ComponentData) (subject : string) (c : string) : bool :=
  is_some_and (cs !! c) (λ d, subscriptions_match (subscriptions d) subject).

(** The loop over the targets: it ends at the first inbox that is full. *)
Fixpoint push_all (q : QueuedMessage) (targets : list string) (cs : gmap string ComponentData) :
    result unit MsgError * gmap string ComponentData :=
  match targets with
  | [] => (Ok (), cs)
  | c :: targets =>
      match cs !! c with
      | Some d => if bool_decide (MAX_QUEUE_SIZE ≤ length (inbox d))%nat then (Err QUEUE_FULL, cs)
                  else push_all q targets (<[c := push q d]> cs)
      | None => push_all q targets cs
      end
  end.

Definition route (order : list string) (m : BrokerMessage) (cs : gmap string ComponentData) :
    result unit MsgError * gmap string ComponentData :=
  let targets := filter (λ c, matching cs (msg_subject m) c = true) order in
  push_all {| msg := m; sole_subscriber := bool_decide (length targets = 1%nat) |} targets cs.

Definition set_components p (w : string) (cs : gmap string ComponentData) : Plugin :=
  {| tracker := {| workloads := alter (λ i, {| workload_data := workload_data i; item_components := cs |}) w
                                  (workloads (tracker p));
                   components := components (tracker p) |};
     requests := requests p |}.

Definition route_to_subscribers p (w : string) (m : BrokerMessage) (order : list string) :
    result unit MsgError * Plugin :=
  match workloads (tracker p) !! w with
  | None => (Err NO_WORKLOAD, p)
  | Some i => let '(r, cs) := route order m (item_components i) in (r, set_components p w cs)
  end.

(** ** Requests and replies *)

Definition set_pending p (w : string) (pending : WorkloadData) : Plugin :=
  {| tracker := {| workloads := alter (λ i, {| workload_data := Some pending;
                                               item_components := item_components i |}) w (workloads (tracker p));
                   components := components (tracker p) |};
     requests := requests p |}.
Definition set_state p (n : nat) (s : Waiting_) : Plugin :=
  {| tracker := tracker p;
     requests := alter (λ q, {| rq_workload := rq_workload q; rq_reply := rq_reply q; rq_state := s |}) n (requests p) |}.

(** [sender.send]: lost when nobody receives. *)
Definition send p (n : nat) (r : result BrokerMessage MsgError) : Plugin :=
  match rq_state <$> requests p !! n with Some Awaiting => set_state p n (Answered r) | _ => p end.

(** [None] is a trap. *)
Definition do_publish p (w : string) (m : BrokerMessage) (order : list string) :
    option (result unit MsgError) * Plugin :=
  match get_workload_data (tracker p) w with
  | None => (None, p)
  | Some pending =>
      match pending !! msg_subject m with
      | Some n => (Some (Ok ()), send (set_pending p w (delete (msg_subject m) pending)) n (Ok m))
      | None => let '(r, p) := route_to_subscribers p w m order in (Some r, p)
      end
  end.

(** [do_request] as far as its wait: it waits, or has failed. *)
Definition start_request p (w : string) (n : nat) (reply subject body : string) (order : list string) :
    option unit * Plugin :=
  match get_workload_data (tracker p) w with
  | None => (None, p)
  | Some pending =>
      let p1 := set_pending p w (<[reply := n]> pending) in
      let p1 := {| tracker := tracker p1;
                   requests := <[n := {| rq_workload := w; rq_reply := reply; rq_state := Awaiting |}]> (requests p1) |} in
      let m := {| msg_subject := subject; msg_body := body; reply_to := Some reply |} in
      match route_to_subscribers p1 w m order with
      | (Err e, p2) => (Some (), set_state (set_pending p2 w (delete reply (<[reply := n]> pending))) n (Answered (Err e)))
      | (Ok _, p2) => (Some (), p2)
      end
  end.

(** The entry a request holds in its workload's table, taken out. *)
Definition forget p (w reply : string) : Plugin :=
  match get_workload_data (tracker p) w with
  | Some pending => set_pending p w (delete reply pending)
  | None => p
  end.

(** The wait times out. *)
Definition time_out p (n : nat) : Plugin :=
  match requests p !! n with
  | Some q => match rq_state q with
              | Awaiting => set_state (forget p (rq_workload q) (rq_reply q)) n (Answered (Err TIMED_OUT))
              | _ => p
              end
  | None => p
  end.
(** The caller is dropped while it waits. *)
Definition drop_caller p (n : nat) : Plugin :=
  match rq_state <$> requests p !! n with Some Awaiting => set_state p n Left_ | _ => p end.

(** ** The receive loop *)

Inductive SlotOutcome := Slot | Shed | GateClosed | Cancelled.
(** What the loop finds out about a message, in the order it asks. *)
Record Answers := {
  has_handler : bool;               (** [try_http_handler] *)
  has_trigger_service : bool;
  has_pre : bool;                   (** a component, with an instance per message *)
  admitted : SlotOutcome;
  has_store : bool;                 (** a pool, or a store and an instance *)
}.
Inductive Fate := NoMessage | ToService | ToInstance | Dropped | WasShed | LoopEnded.

Definition fail_requester p (w : string) (q : QueuedMessage) : Plugin :=
  match sole_subscriber q, reply_to (msg q), get_workload_data (tracker p) w with
  | true, Some reply, Some pending =>
      match pending !! reply with
      | Some n => send (set_pending p w (delete reply pending)) n (Err shed_error)
      | None => p
      end
  | _, _, _ => p
  end.

Definition set_inbox (l : list QueuedMessage) (running : bool) d : ComponentData :=
  {| subscriptions := subscriptions d; inbox := l; notified := notified d;
     task_handle := Some running; admission := admission d |}.

Definition receive p (w c : string) (a : Answers) : Fate * Plugin :=
  match workloads (tracker p) !! w with
  | None => (NoMessage, p)
  | Some i =>
      match item_components i !! c with
      | None => (NoMessage, p)
      | Some d =>
          match task_handle d, inbox d with
          | Some true, q :: rest =>
              let popped running := set_components p w (<[c := set_inbox rest running d]> (item_components i)) in
              if negb (has_handler a) && negb (has_pre a) then (LoopEnded, fail_requester (popped false) w q)
              else if has_handler a && has_trigger_service a then (ToService, popped true)
              else if negb (has_pre a) then (Dropped, popped true)
              else match admitted a with
                   | Slot => (if has_store a then ToInstance else Dropped, popped true)
                   | Shed => (WasShed, fail_requester (popped true) w q)
                   | GateClosed | Cancelled => (LoopEnded, popped false)
                   end
          | _, _ => (NoMessage, p)
          end
      end
  end.

(** ** Binding *)

Definition with_tracker p t : Plugin := {| tracker := t; requests := requests p |}.

Definition on_workload_bind p (w : string) : Plugin := with_tracker p (add_unresolved_workload (tracker p) w ∅).
(** A component that exports the handler. *)
Definition on_workload_item_bind p (w c : string) (subs : list string) (binding : nat) : Plugin :=
  with_tracker p (add_component (tracker p) c w
    {| subscriptions := subs; inbox := []; notified := false; task_handle := None; admission := binding |}).
Definition on_workload_resolved p (w c : string) : Plugin :=
  match workloads (tracker p) !! w with
  | Some i => match item_components i !! c with
              | Some d => set_components p w (<[c := set_inbox (inbox d) true d]> (item_components i))
              | None => p
              end
  | None => p
  end.
(** The gates to close, and the plugin. *)
Definition on_workload_unbind p (w : string) (order : list string) : list nat * Plugin :=
  let '(cleaned, t) := remove_workload_with_cleanup (tracker p) w order in
  (omap (λ y, match y with inl d => Some (admission d) | inr _ => None end) cleaned, with_tracker p t).

(** ** Routing reaches the subscribers *)

Lemma push_all_spec q ts cs :
  NoDup ts → (∀ c, c ∈ ts → is_Some (cs !! c)) →
  ∃ reached rest, ts = (reached ++ rest)%list ∧
    (∀ c, (push_all q ts cs).2 !! c = if decide (c ∈ reached) then push q <$> cs !! c else cs !! c) ∧
    (∀ c d, c ∈ reached → cs !! c = Some d → (length (inbox d) < MAX_QUEUE_SIZE)%nat) ∧
    match (push_all q ts cs).1 with
    | Ok _ => rest = []
    | Err e => e = QUEUE_FULL ∧
        ∃ c d, c ∈ rest ∧ cs !! c = Some d ∧ (MAX_QUEUE_SIZE ≤ length (inbox d))%nat
    end.
Proof.
  revert cs. induction ts as [|c ts IH]; intros cs Hnd Hin.
  { exists [], []. split_and!; [done|done|by intros ? ? ?%not_elem_of_nil|done]. }
  apply NoDup_cons in Hnd as [Hc Hnd]. destruct (Hin c ltac:(set_solver)) as [d Hd].
  cbn [push_all]. rewrite Hd. case_bool_decide as Hfull.
  { exists [], (c :: ts). split_and!; [done|done|by intros ? ? ?%not_elem_of_nil|]. split; [done|]. exists c, d. set_solver. }
  destruct (IH (<[c := push q d]> cs) Hnd) as (reached & rest & -> & Hl & Hlt & Hr).
  { intros c' Hc'. rewrite lookup_insert_ne by (by intros ->). apply Hin. set_solver. }
  assert (∀ c', c' ∈ (reached ++ rest)%list → <[c := push q d]> cs !! c' = cs !! c') as Hne.
  { intros c' Hc'. rewrite lookup_insert_ne; [done|]. by intros ->. }
  exists (c :: reached), rest. split_and!; [done| | |].
  - intros c'. rewrite Hl. destruct (decide (c' = c)) as [->|Hn].
    + rewrite decide_False by set_solver. rewrite decide_True by set_solver. by rewrite lookup_insert_eq, Hd.
    + destruct (decide (c' ∈ reached)) as [Hr'|Hr'].
      * rewrite decide_True by set_solver. by rewrite Hne by set_solver.
      * rewrite decide_False by set_solver. by rewrite lookup_insert_ne.
  - intros c' d'. rewrite elem_of_cons. intros [->|Hc'] Hd'; [simplify_eq; lia|].
    apply (Hlt c' d' Hc'). by rewrite Hne by set_solver.
  - destruct ((push_all q (reached ++ rest) (<[c := push q d]> cs)).1); [done|].
    destruct Hr as (-> & c' & d' & Hc' & Hd' & Hf). split; [done|]. exists c', d'. split; [done|]. by rewrite <-Hne by set_solver.
Qed.

Lemma matching_spec cs subject c :
  matching cs subject c = true ↔ ∃ d, cs !! c = Some d ∧ subscriptions_match (subscriptions d) subject = true.
Proof. unfold matching. destruct (cs !! c); simpl; naive_solver. Qed.

(** A message is given to every component whose subscriptions match its subject and to
    no other, behind what is in its inbox, exactly when none of their inboxes is full;
    it is marked when one component alone was given it.  Otherwise the error says so,
    and an inbox holds the message or is as it was. *)
Theorem message_reaches_its_subscribers order m cs :
  order ≡ₚ elements (dom cs) →
  let targets c := matching cs (msg_subject m) c = true in
  let '(r, cs') := route order m cs in
  (r = Ok () ↔ ∀ c d, targets c → cs !! c = Some d → (length (inbox d) < MAX_QUEUE_SIZE)%nat) ∧
  (r = Ok () ∨ r = Err QUEUE_FULL) ∧
  ∃ sole, (sole = true ↔ ∃ c, targets c ∧ ∀ c', targets c' → c' = c) ∧
  let q := {| msg := m; sole_subscriber := sole |} in
  ∀ c, (r = Ok () → targets c → cs' !! c = push q <$> cs !! c) ∧
       (cs' !! c = cs !! c ∨ targets c ∧ cs' !! c = push q <$> cs !! c).
Proof.
  intros Ho targets. unfold route. set (ts := filter _ order).
  assert (∀ c, c ∈ ts ↔ targets c) as Hts.
  { intros c. unfold ts. rewrite list_elem_of_filter, Ho, elem_of_elements, elem_of_dom. unfold targets.
    split; [by intros [? _]|]. intros Ht. split; [done|]. apply matching_spec in Ht as (d & -> & _). eauto. }
  assert (NoDup ts) as Hnd by (apply NoDup_filter; rewrite Ho; apply NoDup_elements).
  set (q := {| msg := m; sole_subscriber := _ |}).
  destruct (push_all_spec q ts cs Hnd) as (reached & rest & E & Hl & Hlt & Hr).
  { intros c (d & -> & _)%Hts%matching_spec. eauto. }
  destruct (push_all q ts cs) as [r cs']. simpl in *. split_and!.
  - split.
    + intros -> c d Hc Hd. subst rest. rewrite app_nil_r in E. apply (Hlt c d); [|done]. rewrite <-E. by apply Hts.
    + intros Hall. destruct r as [[]|e]; [done|]. destruct Hr as (-> & c & d & Hc & Hd & Hf). exfalso.
      assert (targets c) as Ht by (apply Hts; rewrite E; set_solver). specialize (Hall c d Ht Hd). lia.
  - destruct r as [[]|e]; [by left|right]. by destruct Hr as [-> _].
  - exists (sole_subscriber q). split.
    + unfold q. simpl. rewrite bool_decide_eq_true. split.
      * intros H1. destruct ts as [|c [|c' l]] eqn:Ets; try done. exists c. rewrite <-Hts. split; [set_solver|].
        intros c' ?%Hts. set_solver.
      * intros (c & Hc & Hu). apply Hts in Hc. destruct ts as [|x [|y l]] eqn:Ets; [set_solver|done|].
        exfalso. apply NoDup_cons in Hnd as [Hx _]. apply Hx.
        rewrite (Hu x) by (apply Hts; set_solver). rewrite <-(Hu y) by (apply Hts; set_solver). set_solver.
    + intros c. rewrite Hl. replace {| msg := m; sole_subscriber := sole_subscriber q |} with q by done. split.
      * intros -> Hc. subst rest. rewrite app_nil_r in E. rewrite decide_True; [done|]. rewrite <-E. by apply Hts.
      * case_decide as Hc; [right|by left]. split; [|done]. apply Hts. rewrite E. set_solver.
Qed.

(** ** Histories *)

Definition walked p (w : string) (order : list string) : Prop :=
  ∀ i, workloads (tracker p) !! w = Some i → order ≡ₚ elements (dom (item_components i)).

Inductive plugin_step : Plugin → Plugin → Prop :=
  | ps_bind p w : workloads (tracker p) !! w = None → plugin_step p (on_workload_bind p w)
  | ps_item p w c subs b : plugin_step p (on_workload_item_bind p w c subs b)
  | ps_resolved p w c : plugin_step p (on_workload_resolved p w c)
  | ps_unbind p w order : plugin_step p (on_workload_unbind p w order).2
  | ps_publish p w m order : walked p w order → plugin_step p (do_publish p w m order).2
  | ps_request p w n reply subject body order :
      walked p w order → requests p !! n = None →
      (∀ n' q, requests p !! n' = Some q → rq_reply q ≠ reply) →
      plugin_step p (start_request p w n reply subject body order).2
  | ps_timeout p n : plugin_step p (time_out p n)
  | ps_drop p n : plugin_step p (drop_caller p n)
  | ps_receive p w c a : plugin_step p (receive p w c a).2.

Definition unanswered (s : Waiting_) : Prop := match s with Answered _ => False | _ => True end.

Abbreviation Item := (TrackerItem (T := WorkloadData) (Y := ComponentData)).

(** Every entry of a table is of a request of that workload that has no answer. *)
Definition entry_ok (rs : gmap nat Request) (w reply : string) (n : nat) : Prop :=
  ∃ q, rs !! n = Some q ∧ rq_workload q = w ∧ rq_reply q = reply ∧ unanswered (rq_state q).
Definition item_ok (rs : gmap nat Request) (w : string) (i : Item) : Prop :=
  (∀ pending reply n, workload_data i = Some pending → pending !! reply = Some n → entry_ok rs w reply n) ∧
  ∀ c d, item_components i !! c = Some d → (length (inbox d) ≤ MAX_QUEUE_SIZE)%nat.
Definition plugin_ok p : Prop := map_Forall (item_ok (requests p)) (workloads (tracker p)).

Lemma item_ok_lookup p w i : plugin_ok p → workloads (tracker p) !! w = Some i → item_ok (requests p) w i.
Proof. intros Hok E. exact (map_Forall_lookup_1 _ _ _ _ Hok E). Qed.

(** Changing one item. *)
Lemma alter_item_ok p (f : Item → Item) w ids :
  plugin_ok p → (∀ i, workloads (tracker p) !! w = Some i → item_ok (requests p) w (f i)) →
  plugin_ok {| tracker := {| workloads := alter f w (workloads (tracker p)); components := ids |};
               requests := requests p |}.
Proof.
  intros Hok Hf w' i. simpl. destruct (decide (w' = w)) as [->|Hne].
  - rewrite lookup_alter_eq. intros (j & Ej & ->)%fmap_Some. auto.
  - rewrite lookup_alter_ne by done. by apply item_ok_lookup.
Qed.

Lemma set_components_ok p w cs :
  plugin_ok p → (∀ c d, cs !! c = Some d → (length (inbox d) ≤ MAX_QUEUE_SIZE)%nat) → plugin_ok (set_components p w cs).
Proof.
  intros Hok Hcs. apply alter_item_ok; [done|]. intros i Hi. destruct (item_ok_lookup p w i Hok Hi). split; done.
Qed.

Lemma set_pending_ok p w pending :
  plugin_ok p → (∀ reply n, pending !! reply = Some n → entry_ok (requests p) w reply n) → plugin_ok (set_pending p w pending).
Proof.
  intros Hok Hp. apply alter_item_ok; [done|]. intros i Hi. destruct (item_ok_lookup p w i Hok Hi) as [_ Hc].
  split; [|done]. simpl. intros ? ? ? [= <-]. apply Hp.
Qed.

Lemma pending_ok p w pending reply n :
  plugin_ok p → get_workload_data (tracker p) w = Some pending → pending !! reply = Some n → entry_ok (requests p) w reply n.
Proof.
  unfold get_workload_data. intros Hok. destruct (workloads (tracker p) !! w) as [i|] eqn:Ei; [|done]. simpl.
  intros Ep. by apply (item_ok_lookup p w i Hok Ei).
Qed.

Lemma delete_pending_ok p w pending reply :
  plugin_ok p → get_workload_data (tracker p) w = Some pending → plugin_ok (set_pending p w (delete reply pending)).
Proof.
  intros Hok Ep. apply set_pending_ok; [done|]. intros r n [_ Hr]%lookup_delete_Some. by eapply pending_ok.
Qed.

(** Answering a request no table has an entry of. *)
Lemma set_state_ok p n s :
  plugin_ok p →
  (unanswered s ∨ ∀ w i pending reply, workloads (tracker p) !! w = Some i → workload_data i = Some pending →
     pending !! reply ≠ Some n) →
  plugin_ok (set_state p n s).
Proof.
  intros Hok Hs w i Hi. destruct (item_ok_lookup p w i Hok Hi) as [Hp Hc]. split; [|done].
  intros pending reply n' Ep Er. destruct (Hp pending reply n' Ep Er) as (q & Eq & Hw & Hr & Hu).
  unfold entry_ok. simpl. destruct (decide (n' = n)) as [->|Hne].
  - rewrite lookup_alter_eq, Eq. simpl. eexists. split; [done|]. simpl. split_and!; [done|done|].
    destruct Hs as [Hs|Hs]; [done|]. by destruct (Hs w i pending reply Hi Ep).
  - rewrite lookup_alter_ne by done. eauto.
Qed.

(** Taking the entry of a request out of its table leaves none of it. *)
Lemma forgotten p w reply n :
  plugin_ok p → entry_ok (requests p) w reply n ∨ (∃ q, requests p !! n = Some q ∧ rq_workload q = w ∧ rq_reply q = reply) →
  ∀ pending, get_workload_data (tracker p) w = Some pending →
  ∀ w' i' pending' reply', workloads (tracker (set_pending p w (delete reply pending))) !! w' = Some i' →
    workload_data i' = Some pending' → pending' !! reply' ≠ Some n.
Proof.
  intros Hok Hn pending Ep w' i' pending' reply' Ei Ed Er.
  assert (∃ q, requests p !! n = Some q ∧ rq_workload q = w ∧ rq_reply q = reply) as (q & Eq & Hw & Hr).
  { destruct Hn as [(q & ? & ? & ? & _)|?]; [eauto|done]. }
  destruct (item_ok_lookup _ w' i' (delete_pending_ok p w pending reply Hok Ep) Ei) as [Hp _].
  destruct (Hp pending' reply' n Ed Er) as (q' & Eq' & Hw' & Hr' & _). simpl in Eq'. simplify_eq.
  simpl in Ei. rewrite lookup_alter_eq in Ei. apply fmap_Some in Ei as (j & _ & ->). simpl in Ed. injection Ed as <-.
  apply lookup_delete_Some in Er as [Hne _]. by apply Hne.
Qed.

Lemma answer_ok p w pending reply n r :
  plugin_ok p → get_workload_data (tracker p) w = Some pending → pending !! reply = Some n →
  plugin_ok (send (set_pending p w (delete reply pending)) n r).
Proof.
  intros Hok Ep Er. pose proof (delete_pending_ok p w pending reply Hok Ep) as Hd. unfold send.
  destruct (rq_state <$> _) as [[]|]; [|done..]. apply set_state_ok; [done|]. right.
  apply (forgotten p w reply n Hok); [left; by eapply pending_ok|done].
Qed.

Lemma route_ok p w m order :
  plugin_ok p → walked p w order → plugin_ok (route_to_subscribers p w m order).2.
Proof.
  intros Hok Ho. unfold route_to_subscribers. destruct (workloads (tracker p) !! w) as [i|] eqn:Ei; [|done].
  destruct (item_ok_lookup p w i Hok Ei) as [_ Hc]. specialize (Ho i Ei). unfold route. set (ts := filter _ order).
  set (q := {| msg := m; sole_subscriber := _ |}).
  destruct (push_all_spec q ts (item_components i)) as (reached & rest & E & Hl & Hlt & _).
  { apply NoDup_filter. rewrite Ho. apply NoDup_elements. }
  { intros c [_ Hin]%list_elem_of_filter. rewrite Ho, elem_of_elements, elem_of_dom in Hin. done. }
  destruct (push_all q ts (item_components i)) as [r cs']. simpl in *. apply set_components_ok; [done|].
  intros c d. rewrite Hl. case_decide as Hr; [|apply Hc]. intros (d0 & E0 & ->)%fmap_Some.
  specialize (Hlt c d0 Hr E0). simpl. rewrite length_app. simpl. lia.
Qed.

Lemma route_requests p w m order : requests (route_to_subscribers p w m order).2 = requests p.
Proof. unfold route_to_subscribers. destruct (workloads (tracker p) !! w); [|done]. by destruct (route _ _ _). Qed.

Lemma route_data p w m order w' :
  get_workload_data (tracker (route_to_subscribers p w m order).2) w' = get_workload_data (tracker p) w'.
Proof.
  unfold route_to_subscribers. destruct (workloads (tracker p) !! w) as [i|] eqn:Ei; [|done].
  destruct (route order m (item_components i)) as [r cs]. unfold get_workload_data. simpl.
  destruct (decide (w' = w)) as [->|Hne]; [by rewrite lookup_alter_eq, Ei|by rewrite lookup_alter_ne].
Qed.

Lemma new_request_ok p n q :
  plugin_ok p → requests p !! n = None → plugin_ok {| tracker := tracker p; requests := <[n := q]> (requests p) |}.
Proof.
  intros Hok Hn w i Hi. destruct (item_ok_lookup p w i Hok Hi) as [Hp Hc]. split; [|done].
  intros pending reply n' Ep Er. destruct (Hp pending reply n' Ep Er) as (q' & Eq & ?). exists q'.
  simpl. rewrite lookup_insert_ne; [done|]. intros ->. congruence.
Qed.

Lemma set_pending_data p w pending X :
  get_workload_data (tracker p) w = Some X → get_workload_data (tracker (set_pending p w pending)) w = Some pending.
Proof.
  unfold get_workload_data. destruct (workloads (tracker p) !! w) as [i|] eqn:Ei; [|done]. simpl.
  by rewrite lookup_alter_eq, Ei.
Qed.

Lemma start_request_ok p w n reply subject body order :
  plugin_ok p → walked p w order → requests p !! n = None →
  plugin_ok (start_request p w n reply subject body order).2.
Proof.
  intros Hok Ho Hn. unfold start_request. destruct (get_workload_data (tracker p) w) as [pending|] eqn:Ep; [|done].
  set (q := {| rq_workload := w; rq_reply := reply; rq_state := Awaiting |}).
  set (p0 := {| tracker := tracker p; requests := <[n := q]> (requests p) |}).
  change ({| tracker := _; requests := _ |}) with (set_pending p0 w (<[reply := n]> pending)).
  set (p1 := set_pending p0 w (<[reply := n]> pending)). set (m := {| msg_subject := subject |}).
  assert (requests p1 !! n = Some q) as Hq by apply lookup_insert_eq.
  assert (plugin_ok p1) as Hok1.
  { apply set_pending_ok; [by apply new_request_ok|]. intros r n'. rewrite lookup_insert_Some.
    intros [[<- <-]|[_ Er]]; [exists q; done|].
    destruct (pending_ok p w pending r n' Hok Ep Er) as (q' & Eq' & ?). exists q'. simpl.
    rewrite lookup_insert_ne; [done|]. intros ->. congruence. }
  assert (walked p1 w order) as Ho1.
  { intros i. simpl. rewrite lookup_alter_eq. intros (j & Ej & ->)%fmap_Some. exact (Ho j Ej). }
  pose proof (route_ok p1 w m order Hok1 Ho1) as Hok2. pose proof (route_requests p1 w m order) as Hr2.
  pose proof (route_data p1 w m order w) as Hd2. unfold p1 in Hd2 at 2. rewrite (set_pending_data _ _ _ pending) in Hd2 by done.
  destruct (route_to_subscribers p1 w m order) as [[u|e] p2]; simpl in *; [done|].
  apply set_state_ok; [by apply delete_pending_ok|]. right. apply (forgotten p2 w reply n); [done| |done].
  right. rewrite Hr2. eauto.
Qed.

Lemma time_out_ok p n : plugin_ok p → plugin_ok (time_out p n).
Proof.
  intros Hok. unfold time_out, forget. destruct (requests p !! n) as [q|] eqn:Eq; [|done]. destruct (rq_state q); [|done..].
  destruct (get_workload_data (tracker p) (rq_workload q)) as [pending|] eqn:Ep.
  - apply set_state_ok; [by apply delete_pending_ok|]. right. apply (forgotten p (rq_workload q) (rq_reply q) n); [done| |done]. eauto.
  - apply set_state_ok; [done|]. right. intros w i pending reply Ei Ed Er.
    destruct (proj1 (item_ok_lookup p w i Hok Ei) pending reply n Ed Er) as (q' & Eq' & Hw & _). simplify_eq.
    unfold get_workload_data in Ep. rewrite Ei in Ep. simpl in Ep. congruence.
Qed.

Lemma fail_requester_ok p w q : plugin_ok p → plugin_ok (fail_requester p w q).
Proof.
  intros Hok. unfold fail_requester. destruct (sole_subscriber q), (reply_to (msg q)); try done.
  destruct (get_workload_data (tracker p) w) as [pending|] eqn:Ep; [|done].
  destruct (pending !! s) eqn:Er; [|done]. by apply answer_ok.
Qed.

Lemma pop_ok p w i c d q rest b :
  plugin_ok p → workloads (tracker p) !! w = Some i → item_components i !! c = Some d → inbox d = q :: rest →
  plugin_ok (set_components p w (<[c := set_inbox rest b d]> (item_components i))).
Proof.
  intros Hok Ei Ed Eq. destruct (item_ok_lookup p w i Hok Ei) as [_ Hc]. apply set_components_ok; [done|].
  intros c' d'. rewrite lookup_insert_Some. intros [[<- <-]|[_ E']]; [|by eapply Hc].
  specialize (Hc c d Ed). rewrite Eq in Hc. simpl in *. lia.
Qed.

Lemma receive_ok p w c a : plugin_ok p → plugin_ok (receive p w c a).2.
Proof.
  intros Hok. unfold receive. destruct (workloads (tracker p) !! w) as [i|] eqn:Ei; [|done].
  destruct (item_components i !! c) as [d|] eqn:Ed; [|done]. destruct (task_handle d) as [[]|]; [|done..].
  destruct (inbox d) as [|q rest] eqn:Eq; [done|]. pose proof (λ b, pop_ok p w i c d q rest b Hok Ei Ed Eq) as Hpop.
  repeat case_match; simpl; try apply fail_requester_ok; apply Hpop.
Qed.

Lemma plugin_step_ok p p' : plugin_step p p' → plugin_ok p → plugin_ok p'.
Proof.
  intros Hs Hok. destruct Hs as [p w Hw|p w c subs b|p w c|p w order|p w m order Ho|p w n reply subject body order Ho Hn Hf|p n|p n|p w c a].
  - apply map_Forall_insert_2; [|done]. split; simpl; [by intros ? ? ? [= <-]|]; intros ? ?; by rewrite lookup_empty.
  - apply map_Forall_insert_2; [|done]. destruct (workloads (tracker p) !! w) as [i|] eqn:Ei; simpl.
    + destruct (item_ok_lookup p w i Hok Ei) as [Hp Hc]. split; simpl; [done|]. intros c' d'. rewrite lookup_insert_Some.
      intros [[<- <-]|[_ E']]; [simpl; lia|by eapply Hc].
    + split; simpl; [done|]. intros c' d'. rewrite lookup_insert_Some, lookup_empty. intros [[<- <-]|[_ ?]]; [simpl; lia|done].
  - unfold on_workload_resolved. destruct (workloads (tracker p) !! w) as [i|] eqn:Ei; [|done].
    destruct (item_components i !! c) as [d|] eqn:Ed; [|done]. apply set_components_ok; [done|].
    destruct (item_ok_lookup p w i Hok Ei) as [_ Hc]. intros c' d'. rewrite lookup_insert_Some.
    intros [[<- <-]|[_ E']]; [simpl|]; by eapply Hc.
  - unfold on_workload_unbind, remove_workload_with_cleanup, take_workload. destruct (workloads (tracker p) !! w) as [i|] eqn:Ei; [|done].
    simpl. intros w' i' E. simpl in E. apply lookup_delete_Some in E as [_ E].
    exact (item_ok_lookup p w' i' Hok E).
  - unfold do_publish. destruct (get_workload_data (tracker p) w) as [pending|] eqn:Ep; [|done].
    destruct (pending !! msg_subject m) eqn:Er; [by apply answer_ok|].
    pose proof (route_ok p w m order Hok Ho). by destruct (route_to_subscribers p w m order).
  - by apply start_request_ok.
  - by apply time_out_ok.
  - unfold drop_caller. destruct (rq_state <$> _) as [[]|]; [|done..]. apply set_state_ok; [done|by left].
  - by apply receive_ok.
Qed.

Lemma plugin_history p : rtc plugin_step new_plugin p → plugin_ok p.
Proof. apply rtc_invariant; [|intros a b; apply plugin_step_ok]. intros w i. simpl. by rewrite lookup_empty. Qed.

(** ** An answer is final *)

Definition keeps_answers (rs rs' : gmap nat Request) : Prop :=
  ∀ n q r, rs !! n = Some q → rq_state q = Answered r → rs' !! n = Some q.

Lemma set_state_keeps p n s :
  (∀ q r, requests p !! n = Some q → rq_state q ≠ Answered r) → keeps_answers (requests p) (requests (set_state p n s)).
Proof.
  intros Hn n' q r Eq Hr. simpl. destruct (decide (n' = n)) as [->|Hne]; [by destruct (Hn q r Eq)|by rewrite lookup_alter_ne].
Qed.

Lemma send_keeps p n r : keeps_answers (requests p) (requests (send p n r)).
Proof.
  unfold send. destruct (requests p !! n) as [q|] eqn:Eq; simpl; [|by intros ? ? ? ? _].
  destruct (rq_state q) eqn:Es; [|by intros ? ? ? ? _..]. apply set_state_keeps. intros q' r' E'. congruence.
Qed.

Lemma fail_requester_keeps p w q : keeps_answers (requests p) (requests (fail_requester p w q)).
Proof.
  unfold fail_requester. repeat case_match; try (by intros ? ? ? ? _). apply (send_keeps (set_pending p w _)).
Qed.

Lemma plugin_step_keeps p p' : plugin_step p p' → keeps_answers (requests p) (requests p').
Proof.
  destruct 1 as [p w Hw|p w c subs b|p w c|p w order|p w m order Ho|p w n reply subject body order Ho Hn Hf|p n|p n|p w c a].
  1,2: by intros ? ? ? ? _.
  - unfold on_workload_resolved. repeat case_match; by intros ? ? ? ? _.
  - unfold on_workload_unbind. case_match; by intros ? ? ? ? _.
  - unfold do_publish. destruct (get_workload_data (tracker p) w) as [pending|]; [|by intros ? ? ? ? _].
    destruct (pending !! msg_subject m); [apply (send_keeps (set_pending p w _))|].
    pose proof (route_requests p w m order). destruct (route_to_subscribers p w m order). simpl in *. subst.
    rewrite H. by intros ? ? ? ? _.
  - unfold start_request. destruct (get_workload_data (tracker p) w) as [pending|]; [|by intros ? ? ? ? _].
    set (p1 := {| tracker := _; requests := _ |}). set (m := {| msg_subject := subject |}).
    pose proof (route_requests p1 w m order) as Hr.
    intros n' q r Eq Hs. assert (n' ≠ n) as Hne by congruence.
    destruct (route_to_subscribers p1 w m order) as [[u|e] p2]; simpl in *; rewrite Hr; simpl;
      rewrite ?lookup_alter_ne by done; by rewrite lookup_insert_ne.
  - unfold time_out, forget. destruct (requests p !! n) as [q|] eqn:Eq; [|by intros ? ? ? ? _].
    destruct (rq_state q) eqn:Es; [|by intros ? ? ? ? _..].
    assert (∀ q' r', requests p !! n = Some q' → rq_state q' ≠ Answered r') as Hn by (intros; congruence).
    destruct (get_workload_data _ _) as [pending|]; [|by apply set_state_keeps].
    by apply (set_state_keeps (set_pending p (rq_workload q) (delete (rq_reply q) pending))).
  - unfold drop_caller. destruct (requests p !! n) as [q|] eqn:Eq; simpl; [|by intros ? ? ? ? _].
    destruct (rq_state q) eqn:Es; [|by intros ? ? ? ? _..]. apply set_state_keeps. intros q' r' E'. congruence.
  - unfold receive. repeat case_match; simpl; try (by intros ? ? ? ? _); apply (fail_requester_keeps (set_components p w _)).
Qed.

(** ** Theorems *)

(** In every history: each entry of a reply table is of a request of that workload which
    nobody answered yet, so a reply reaches the one call that waits for it; an answer is
    final, so a call has one outcome; and no inbox holds more than its bound. *)
Theorem requests_are_answered_once p p' :
  rtc plugin_step new_plugin p → plugin_step p p' →
  (∀ w pending reply n, get_workload_data (tracker p) w = Some pending → pending !! reply = Some n →
     ∃ q, requests p !! n = Some q ∧ rq_workload q = w ∧ rq_reply q = reply ∧ unanswered (rq_state q)) ∧
  (∀ n q r, requests p !! n = Some q → rq_state q = Answered r → requests p' !! n = Some q) ∧
  (∀ w i c d, workloads (tracker p') !! w = Some i → item_components i !! c = Some d →
     (length (inbox d) ≤ MAX_QUEUE_SIZE)%nat).
Proof.
  intros Hr Hs. pose proof (plugin_history p Hr) as Hok. split_and!.
  - intros w pending reply n. by apply pending_ok.
  - by apply plugin_step_keeps.
  - intros w i c d Ei. apply (item_ok_lookup p' w i (plugin_step_ok p p' Hs Hok) Ei).
Qed.

(** A message on a reply subject goes to the call that waits on it, and to no
    subscriber. *)
Theorem reply_goes_to_its_request p w m order pending n q :
  get_workload_data (tracker p) w = Some pending → pending !! msg_subject m = Some n → requests p !! n = Some q → rq_state q = Awaiting →
  let '(r, p') := do_publish p w m order in
  r = Some (Ok ()) ∧ rq_state <$> requests p' !! n = Some (Answered (Ok m)) ∧
  (∀ n', n' ≠ n → requests p' !! n' = requests p !! n') ∧
  get_workload_data (tracker p') w = Some (delete (msg_subject m) pending) ∧
  ∀ w' i', workloads (tracker p') !! w' = Some i' →
    ∃ i, workloads (tracker p) !! w' = Some i ∧ item_components i' = item_components i.
Proof.
  intros Ep En Eq Es. unfold do_publish. rewrite Ep, En. unfold send. simpl. rewrite Eq. simpl. rewrite Es. simpl.
  split_and!; [done|by rewrite lookup_alter_eq, Eq| | |].
  - intros n' Hne. by rewrite lookup_alter_ne.
  - by apply (set_pending_data _ _ _ pending).
  - intros w' i'. destruct (decide (w' = w)) as [->|Hne]; [|rewrite lookup_alter_ne by done; eauto].
    rewrite lookup_alter_eq. intros (i & Ei & ->)%fmap_Some. eauto.
Qed.

(** What components of a workload do. *)
Inductive acts (w : string) : Plugin → Plugin → Prop :=
  | act_publish p m order : acts w p (do_publish p w m order).2
  | act_request p n reply subject body order :
      requests p !! n = None → acts w p (start_request p w n reply subject body order).2
  | act_receive p c a : acts w p (receive p w c a).2.

Definition apart (w : string) p p' : Prop :=
  (∀ w', w' ≠ w → workloads (tracker p') !! w' = workloads (tracker p) !! w') ∧
  ∀ n q, requests p !! n = Some q → rq_workload q ≠ w → requests p' !! n = Some q.

Lemma apart_trans w p1 p2 p3 : apart w p1 p2 → apart w p2 p3 → apart w p1 p3.
Proof. intros [H1 H2] [H3 H4]. split; [|auto]. intros w' Hw. by rewrite H3, H1. Qed.

Lemma apart_alter w p f ids :
  apart w p {| tracker := {| workloads := alter f w (workloads (tracker p)); components := ids |}; requests := requests p |}.
Proof. split; [|auto]. intros w' Hw. simpl. by rewrite lookup_alter_ne. Qed.

Lemma apart_route w p m order : apart w p (route_to_subscribers p w m order).2.
Proof.
  unfold route_to_subscribers. destruct (workloads (tracker p) !! w); [|split; auto].
  destruct (route _ _ _). apply apart_alter.
Qed.

Lemma apart_set_state w p n s :
  (∀ q, requests p !! n = Some q → rq_workload q = w) → apart w p (set_state p n s).
Proof.
  intros Hn. split; [auto|]. intros n' q Eq Hw. simpl. destruct (decide (n' = n)) as [->|]; [by destruct Hw; apply Hn|].
  by rewrite lookup_alter_ne.
Qed.

Lemma apart_answer w p pending reply n r :
  plugin_ok p → get_workload_data (tracker p) w = Some pending → pending !! reply = Some n →
  apart w p (send (set_pending p w (delete reply pending)) n r).
Proof.
  intros Hok Ep En. destruct (pending_ok p w pending reply n Hok Ep En) as (q & Eq & Hw & _).
  eapply apart_trans; [apply apart_alter|]. unfold send. simpl.
  destruct (rq_state <$> requests p !! n) as [[]|]; [|by split..]. apply apart_set_state. simpl. intros q' E'. congruence.
Qed.

Lemma apart_fail w p q : plugin_ok p → apart w p (fail_requester p w q).
Proof.
  intros Hok. unfold fail_requester. destruct (sole_subscriber q), (reply_to (msg q)); try by split.
  destruct (get_workload_data (tracker p) w) as [pending|] eqn:Ep; [|by split].
  destruct (pending !! s) eqn:Er; [by apply apart_answer|by split].
Qed.

(** C39: Messages stay within their workload: whatever its components publish, ask for or
    receive, the inboxes and the requests of every other are as they were. *)
Theorem messages_stay_in_their_workload w p p' :
  rtc plugin_step new_plugin p → acts w p p' →
  (∀ w', w' ≠ w → workloads (tracker p') !! w' = workloads (tracker p) !! w') ∧
  ∀ n q, requests p !! n = Some q → rq_workload q ≠ w → requests p' !! n = Some q.
Proof.
  intros Hok%plugin_history Ha. change (apart w p p'). destruct Ha as [p m order|p n reply subject body order Hn|p c a].
  - unfold do_publish. destruct (get_workload_data (tracker p) w) as [pending|] eqn:Ep; [|by split].
    destruct (pending !! msg_subject m) eqn:En; [by apply apart_answer|].
    pose proof (apart_route w p m order). by destruct (route_to_subscribers p w m order).
  - unfold start_request. destruct (get_workload_data (tracker p) w) as [pending|] eqn:Ep; [|by split].
    set (p1 := {| tracker := _; requests := _ |}). set (m := {| msg_subject := subject |}).
    assert (apart w p p1) as H1.
    { split; simpl; [intros w' Hw; by rewrite lookup_alter_ne|]. intros n' q Eq _. rewrite lookup_insert_ne; [done|].
      intros ->. congruence. }
    pose proof (apart_route w p1 m order) as H2. pose proof (route_requests p1 w m order) as Hr.
    destruct (route_to_subscribers p1 w m order) as [[u|e] p2]; simpl in *; [by eapply apart_trans|].
    eapply apart_trans; [exact H1|]. eapply apart_trans; [exact H2|]. eapply apart_trans; [apply apart_alter|].
    apply apart_set_state. simpl. rewrite Hr. simpl. rewrite lookup_insert_eq. by intros q [= <-].
  - unfold receive. destruct (workloads (tracker p) !! w) as [i|] eqn:Ei; [|by split].
    destruct (item_components i !! c) as [d|] eqn:Ed; [|by split]. destruct (task_handle d) as [[]|]; [|by split..].
    destruct (inbox d) as [|q rest] eqn:Eq; [by split|]. pose proof (λ b, pop_ok p w i c d q rest b Hok Ei Ed Eq) as Hpop.
    assert (∀ b, apart w p (set_components p w (<[c := set_inbox rest b d]> (item_components i)))) as Hp
      by (intros; apply apart_alter).
    repeat case_match; simpl; try apply Hp; (eapply apart_trans; [apply Hp|by apply apart_fail]).
Qed.

(** A caller that goes away while it waits leaves its entry behind: nothing but a reply
    takes it out of the table, and its own timeout went with it. *)
Theorem dropped_request_keeps_its_entry :
  ∃ p, rtc plugin_step new_plugin p ∧ (∀ n, time_out p n = p) ∧
    get_workload_data (tracker p) "w" = Some {["_INBOX.1" := 0%nat]} ∧
    rq_state <$> requests p !! 0%nat = Some Left_.
Proof.
  set (p1 := on_workload_bind new_plugin "w").
  set (p2 := (start_request p1 "w" 0 "_INBOX.1" "orders" "" []).2).
  exists (drop_caller p2 0). split_and!.
  - eapply rtc_l; [by apply (ps_bind _ "w")|]. eapply rtc_l; [|eapply rtc_l; [apply (ps_drop p2 0)|apply rtc_refl]].
    apply ps_request; [|done|intros n q; simpl; by rewrite lookup_empty]. intros i. vm_compute. by intros [= <-].
  - intros n. unfold time_out. destruct (decide (n = 0%nat)) as [->|Hne]; [vm_compute; done|].
    assert (requests (drop_caller p2 0) !! n = None) as ->; [|done].
    change (requests (drop_caller p2 0)) with (alter (λ q, {| rq_workload := rq_workload q; rq_reply := rq_reply q; rq_state := Left_ |}) 0%nat
      (<[0%nat := {| rq_workload := "w"; rq_reply := "_INBOX.1"; rq_state := Awaiting |}]> ∅ : gmap nat Request)).
    by rewrite lookup_alter_ne, lookup_insert_ne.
  - vm_compute. reflexivity.
  - vm_compute. reflexivity.
Qed.

(** ** Witnesses *)

Definition two_workers : gmap string ComponentData :=
  {["a" := {| subscriptions := ["tasks.*"]; inbox := []; notified := false; task_handle := None; admission := 0 |};
    "b" := {| subscriptions := ["other.>"]; inbox := []; notified := false; task_handle := None; admission := 1 |}]}.
Definition task_message : BrokerMessage := {| msg_subject := "tasks.new"; msg_body := "x"; reply_to := None |}.

Lemma message_reaches_its_subscribers_witness :
  (route ["b"; "a"] task_message two_workers).1 = Ok () ∨ (route ["b"; "a"] task_message two_workers).1 = Err QUEUE_FULL.
Proof.
  pose proof (message_reaches_its_subscribers ["b"; "a"] task_message two_workers) as Ht.
  destruct (route ["b"; "a"] task_message two_workers) as [r cs']. apply Ht.
  replace (elements (dom two_workers)) with ["a"; "b"] by (vm_compute; reflexivity). apply perm_swap.
Defined.

(** A workload with a request under way. *)
Definition asking : Plugin := (start_request (on_workload_bind new_plugin "w") "w" 0 "_INBOX.1" "orders" "" []).2.
Lemma asking_reached : rtc plugin_step new_plugin asking.
Proof.
  eapply rtc_l; [by apply (ps_bind _ "w")|]. eapply rtc_l; [|apply rtc_refl].
  apply ps_request; [|done|intros n q; simpl; by rewrite lookup_empty]. intros i. vm_compute. by intros [= <-].
Qed.
Definition answer_message : BrokerMessage := {| msg_subject := "_INBOX.1"; msg_body := "y"; reply_to := None |}.

Lemma requests_are_answered_once_witness :
  ∃ q, requests asking !! 0%nat = Some q ∧ rq_workload q = "w" ∧ rq_reply q = "_INBOX.1" ∧ unanswered (rq_state q).
Proof.
  eapply (requests_are_answered_once asking (drop_caller asking 0) asking_reached (ps_drop asking 0)); vm_compute; reflexivity.
Defined.

Lemma reply_goes_to_its_request_witness :
  rq_state <$> requests (do_publish asking "w" answer_message []).2 !! 0%nat = Some (Answered (Ok answer_message)).
Proof.
  apply (reply_goes_to_its_request asking "w" answer_message [] {["_INBOX.1" := 0%nat]} 0
    {| rq_workload := "w"; rq_reply := "_INBOX.1"; rq_state := Awaiting |}); vm_compute; reflexivity.
Defined.

Definition asking_beside_v : Plugin := on_workload_bind asking "v".

Lemma messages_stay_in_their_workload_witness :
  requests (do_publish asking_beside_v "v" answer_message []).2 !! 0%nat
  = Some {| rq_workload := "w"; rq_reply := "_INBOX.1"; rq_state := Awaiting |}.
Proof.
  apply (messages_stay_in_their_workload "v" asking_beside_v (do_publish asking_beside_v "v" answer_message []).2).
  - eapply rtc_r; [apply asking_reached|]. by apply ps_bind.
  - apply act_publish.
  - vm_compute. reflexivity.
  - discriminate.
Defined.
