(* ===== verification/NatsInbox.v ===== *)
(** * Inboxes

    [plugin/wasmcloud_nats/conn.rs]: the prefix each workload and each binding
    receives its replies under, and the escape that keeps a name one token.  A
    character is its UTF-8 bytes, as [chars] cuts them. *)

From Stdlib Require Import ZArith Lia Ascii.
From stdpp Require Import base list gmap strings option.
From S2P Require Import Prelude RustStr StoreLib BindingKeys.
Local Open Scope string_scope.

Definition hex_digit (d : Z) : ascii :=
  ascii_of_N (Z.to_N (if (d <? 10)%Z then 48 + d else 87 + d)).
(** [{:08x}] of a value below [2^32]. *)
Fixpoint hex (n : nat) (z : Z) : string :=
  match n with O => "" | S n => hex n (z / 16) +:+ String (hex_digit (z mod 16)) "" end.

(** The scalar value of a character, from its UTF-8 bytes. *)
Definition code_point (ch : string) : Z :=
  match bytes_of ch with
  | [a] => a
  | [a; b] => (a mod 32) * 64 + b mod 64
  | [a; b; c] => (a mod 16) * 4096 + (b mod 64) * 64 + c mod 64
  | [a; b; c; d] => (a mod 8) * 262144 + (b mod 64) * 4096 + (c mod 64) * 64 + d mod 64
  | _ => 0
  end%Z.

Definition escape (ch : string) : string :=
  match ch with
  | String c "" => if is_ascii_alphanumeric c then ch else "_" +:+ hex 8 (code_point ch)
  | _ => "_" +:+ hex 8 (code_point ch)
  end.
Definition concat_strings (l : list string) : string := foldr (λ a b, a +:+ b) "" l.
Definition sanitize_subject_token (raw : string) : string := concat_strings (escape <$> chars raw).

Definition workload_inbox_prefix (workload_id : string) : string :=
  "_INBOX_" +:+ sanitize_subject_token workload_id.
Definition binding_inbox_prefix (workload_id binding : string) : string :=
  if is_empty binding then workload_inbox_prefix workload_id
  else "_INBOX_" +:+ sanitize_subject_token workload_id +:+ "_" +:+ sanitize_subject_token binding.
Definition scope_inbox_prefix (declared workload_id : string) : string :=
  trim_end_char "." declared +:+ "." +:+ sanitize_subject_token workload_id.


(** ** UTF-8 *)

#[local] Ltac Zify.zify_post_hook ::= Z.div_mod_to_equations.

(** The encodings of scalar values. *)
Definition char_ok (ch : string) : Prop :=
  match bytes_of ch with
  | [a] => 0 ≤ a < 128
  | [a; b] => 194 ≤ a < 224 ∧ 128 ≤ b < 192
  | [a; b; c] => 224 ≤ a < 240 ∧ 128 ≤ b < 192 ∧ 128 ≤ c < 192 ∧ 2048 ≤ code_point ch
  | [a; b; c; d] =>
      240 ≤ a < 245 ∧ 128 ≤ b < 192 ∧ 128 ≤ c < 192 ∧ 128 ≤ d < 192 ∧ 65536 ≤ code_point ch < 1114112
  | _ => False
  end%Z.
Definition utf8 (s : string) : Prop := Forall char_ok (chars s).

Lemma concat_chars s : concat_strings (chars s) = s.
Proof.
  induction s as [|c s IH]; [done|]. destruct s as [|c' s]; [done|].
  change (chars (String c (String c' s))) with
    (match chars (String c' s) with
     | ch :: l => if is_continuation c' then String c ch :: l else String c "" :: ch :: l
     | [] => [String c ""] end).
  destruct (chars (String c' s)) as [|ch l]; [done|]. unfold concat_strings in *.
  destruct (is_continuation c'); cbn [foldr] in *; rewrite <-IH; by rewrite ?str_app_cons, ?str_app_nil.
Qed.

Lemma chars_inj s t : chars s = chars t → s = t.
Proof. intros E. by rewrite <-(concat_chars s), E, concat_chars. Qed.

Lemma ascii_utf8 s : is_ascii s = true → utf8 s.
Proof.
  unfold utf8, is_ascii. induction s as [|c s IH]; [constructor|]. simpl. intros [Hc Hs]%andb_true_iff.
  assert (char_ok (String c "")) as Hok.
  { apply N.ltb_lt in Hc. unfold byte in Hc. unfold char_ok. simpl. lia. }
  specialize (IH Hs). destruct (chars s) as [|ch l]; [by constructor|]. destruct s as [|c' s]; [by constructor|].
  simpl in Hs. apply andb_true_iff in Hs as [Hc' _].
  assert (is_continuation c' = false) as -> by
    (apply N.ltb_lt in Hc'; unfold is_continuation; apply andb_false_iff; left; apply N.leb_gt; lia). by constructor.
Qed.

Lemma code_point_inj c d : char_ok c → char_ok d → code_point c = code_point d → c = d.
Proof.
  intros Hc Hd E. apply bytes_of_inj. revert Hc Hd E. unfold char_ok, code_point.
  destruct (bytes_of c) as [|c1 [|c2 [|c3 [|c4 [|c5 l]]]]]; try done;
    destruct (bytes_of d) as [|d1 [|d2 [|d3 [|d4 [|d5 k]]]]]; try done; intros Hc Hd E; try lia;
    repeat f_equal; lia.
Qed.

Lemma code_point_bound c : char_ok c → (0 ≤ code_point c < 1114112)%Z.
Proof.
  unfold char_ok, code_point. destruct (bytes_of c) as [|c1 [|c2 [|c3 [|c4 [|c5 l]]]]]; try done; lia.
Qed.

(** ** Hexadecimal *)

Lemma hex_digit_inj d e : (0 ≤ d < 16)%Z → (0 ≤ e < 16)%Z → hex_digit d = hex_digit e → d = e.
Proof.
  intros Hd He E. apply (f_equal N_of_ascii) in E. unfold hex_digit in E.
  rewrite !N_ascii_embedding in E by (repeat case_match; lia).
  destruct (Z.ltb_spec d 10), (Z.ltb_spec e 10); lia.
Qed.

Lemma hex_length n z : String.length (hex n z) = n.
Proof. revert z. induction n as [|n IH]; intros z; [done|]. simpl. rewrite str_length_app, IH. simpl. lia. Qed.

Lemma hex_inj n z z' : (0 ≤ z < 16 ^ Z.of_nat n)%Z → (0 ≤ z' < 16 ^ Z.of_nat n)%Z → hex n z = hex n z' → z = z'.
Proof.
  revert z z'. induction n as [|n IH]; intros z z' Hz Hz' E; [simpl in *; lia|].
  rewrite Nat2Z.inj_succ, Z.pow_succ_r in Hz, Hz' by lia. simpl in E.
  apply str_app_inj_length in E as [Eq Er]; [|by rewrite !hex_length].
  injection Er as Er. apply hex_digit_inj in Er; [|lia..]. apply IH in Eq; [|lia..]. lia.
Qed.

(** A scalar value has fewer than seven hexadecimal digits. *)
Lemma hex_scalar z : (0 ≤ z < 1114112)%Z → ∃ r, hex 8 z = String "0"%char r.
Proof.
  intros Hz. simpl. assert (z / 16 / 16 / 16 / 16 / 16 / 16 / 16 = 0)%Z as -> by lia. by eexists.
Qed.

(** ** The escape *)

Lemma escape_cases ch :
  char_ok ch →
  (∃ c, ch = String c "" ∧ is_ascii_alphanumeric c = true ∧ escape ch = ch) ∨
  escape ch = String "_"%char (hex 8 (code_point ch)).
Proof.
  intros _. unfold escape. destruct ch as [|c [|d r]]; [by right| |by right].
  destruct (is_ascii_alphanumeric c) eqn:E; [left; eauto|by right].
Qed.

(** What may follow an escaped name: nothing, or the underscore that introduces a
    binding's name, which begins with no zero. *)
Definition follows (x : string) : Prop :=
  x = "" ∨ ∃ c r, x = String "_"%char (String c r) ∧ c ≠ "0"%char.

Lemma escape_not_follows ch y x : char_ok ch → follows x → x ≠ escape ch +:+ y.
Proof.
  intros Hch Hx E. destruct (escape_cases ch Hch) as [(c & -> & Hc & Ee)|Ee]; rewrite Ee in E.
  - rewrite str_app_cons, str_app_nil in E. destruct Hx as [->|(d & r & -> & _)]; [done|]. by injection E as <- _.
  - destruct (hex_scalar _ (code_point_bound ch Hch)) as [r Hr]. rewrite Hr, !str_app_cons in E.
    destruct Hx as [->|(d & r' & -> & Hd)]; [done|]. injection E as Ed _. done.
Qed.

Lemma escapes_inj l l' x x' :
  Forall char_ok l → Forall char_ok l' → follows x → follows x' →
  concat_strings (escape <$> l) +:+ x = concat_strings (escape <$> l') +:+ x' → l = l' ∧ x = x'.
Proof.
  intros Hl. revert l'. induction Hl as [|ch l Hch Hl IH]; intros l' Hl' Hx Hx' E.
  - destruct Hl' as [|ch' l' Hch' Hl']; [by rewrite !str_app_nil in E|]. exfalso.
    change (concat_strings (escape <$> ch' :: l')) with (escape ch' +:+ concat_strings (escape <$> l')) in E.
    rewrite str_app_nil, str_app_assoc in E. by apply escape_not_follows in E.
  - change (concat_strings (escape <$> ch :: l)) with (escape ch +:+ concat_strings (escape <$> l)) in E.
    rewrite str_app_assoc in E. destruct Hl' as [|ch' l' Hch' Hl'].
    { rewrite str_app_nil in E. symmetry in E. by apply escape_not_follows in E. }
    change (concat_strings (escape <$> ch' :: l')) with (escape ch' +:+ concat_strings (escape <$> l')) in E.
    rewrite str_app_assoc in E.
    assert (ch = ch') as <-.
    { destruct (escape_cases ch Hch) as [(c & -> & Hc & Ee)|Ee], (escape_cases ch' Hch') as [(c' & -> & Hc' & Ee')|Ee'];
        rewrite Ee, Ee', !str_app_cons in E.
      - by injection E as ->.
      - injection E as -> _. done.
      - injection E as <- _. done.
      - apply (f_equal (λ s, match s with String _ r => r | _ => "" end)) in E. lazy beta iota in E.
        apply str_app_inj_length in E as [E _]; [|by rewrite !hex_length].
        pose proof (code_point_bound ch Hch). pose proof (code_point_bound ch' Hch').
        apply hex_inj in E; [by apply code_point_inj|simpl Z.of_nat; lia..]. }
    apply str_app_inj_l in E. destruct (IH l' Hl' Hx Hx' E) as [-> ->]. done.
Qed.

(** ** Prefixes *)

(** The name of a binding: none, or one that begins with a letter, as the labels of
    an interface do. *)
Definition is_letter (c : ascii) : bool := is_ascii_upper c || is_ascii_lower c.
Definition named (b : string) : Prop := b = "" ∨ ∃ c r, b = String c r ∧ is_letter c = true.

Lemma is_letter_byte c : is_letter c = true → (65 ≤ byte c < 128)%N ∧ is_ascii_alphanumeric c = true ∧ c ≠ "0"%char.
Proof. destruct c as [[] [] [] [] [] [] [] []]; vm_compute; intuition discriminate. Qed.

Lemma chars_cons c r : ∃ ch l, chars (String c r) = String c ch :: l.
Proof.
  simpl. destruct (chars r) as [|ch l]; [eauto|]. destruct r as [|c' r]; [eauto|].
  destruct (is_continuation c'); eauto.
Qed.

Lemma sanitize_letter c r :
  utf8 (String c r) → is_letter c = true → ∃ x, sanitize_subject_token (String c r) = String c x.
Proof.
  intros Hu Hc. unfold sanitize_subject_token, utf8 in *. destruct (chars_cons c r) as (ch & l & E). rewrite E in *.
  apply Forall_cons_1 in Hu as [Hch _]. destruct (is_letter_byte c Hc) as (Hb & Ha & _).
  assert (ch = "") as ->.
  { destruct ch as [|d ch]; [done|]. exfalso. revert Hch. unfold char_ok. simpl. unfold byte in Hb.
    destruct (bytes_of ch) as [|? [|? [|? ?]]]; lia || done. }
  simpl. rewrite Ha. eauto.
Qed.

Definition after (b : string) : string := if is_empty b then "" else "_" +:+ sanitize_subject_token b.

Lemma binding_inbox_prefix_eq w b :
  binding_inbox_prefix w b = "_INBOX_" +:+ sanitize_subject_token w +:+ after b.
Proof.
  unfold binding_inbox_prefix, after, workload_inbox_prefix. destruct (is_empty b); [by rewrite str_app_nil_r|done].
Qed.

Lemma after_follows b : utf8 b → named b → follows (after b).
Proof.
  intros Hu [->|(c & r & -> & Hc)]; [by left|right]. destruct (sanitize_letter c r Hu Hc) as [x Hx].
  unfold after. simpl is_empty. lazy iota. rewrite Hx. exists c, x. split; [done|]. by apply is_letter_byte.
Qed.

Lemma sanitize_inj s t : utf8 s → utf8 t → sanitize_subject_token s = sanitize_subject_token t → s = t.
Proof.
  intros Hs Ht E. apply chars_inj. apply (escapes_inj _ _ "" ""); [done|done|by left|by left|].
  by rewrite !str_app_nil_r.
Qed.

(** C35: Where no prefix is declared and binding names are empty or begin with a letter, no
    two bindings, of one workload or of two, receive replies under one prefix.  (A
    binding name that begins with a digit can make two prefixes one, and prefixes that
    are declared are the operator's to keep apart.) *)
Theorem inboxes_are_apart w w' b b' :
  utf8 w → utf8 w' → utf8 b → utf8 b' → named b → named b' →
  binding_inbox_prefix w b = binding_inbox_prefix w' b' → w = w' ∧ b = b'.
Proof.
  intros Hw Hw' Hb Hb' Nb Nb'. rewrite !binding_inbox_prefix_eq. intros E%str_app_inj_l.
  apply escapes_inj in E as [Ec Ea]; [|done|done|by apply after_follows..].
  split; [by apply chars_inj|]. unfold after in Ea.
  destruct (is_empty b) eqn:Eb, (is_empty b') eqn:Eb'; rewrite ?is_empty_spec in *; subst; try done.
  apply (str_app_inj_l "_") in Ea. by apply sanitize_inj.
Qed.

(** A declared prefix is shared, and each workload has its own token beneath it. *)
Theorem scoped_inboxes_are_apart declared w w' :
  utf8 w → utf8 w' → scope_inbox_prefix declared w = scope_inbox_prefix declared w' → w = w'.
Proof.
  intros Hw Hw' E. unfold scope_inbox_prefix in E. apply str_app_inj_l in E. apply (str_app_inj_l ".") in E.
  by apply sanitize_inj.
Qed.

Lemma lacks_app_dot s t : lacks "." (s +:+ t) = lacks "." s && lacks "." t.
Proof. unfold lacks. apply str_all_app. Qed.

Lemma hex_digit_dot d : (0 ≤ d < 16)%Z → lacks "." (String (hex_digit d) "") = true.
Proof.
  intros Hd. rewrite <-(Z2Nat.id d) by lia. assert (Z.to_nat d < 16)%nat as Hn by lia.
  destruct (Z.to_nat d) as [|[|[|[|[|[|[|[|[|[|[|[|[|[|[|[|n]]]]]]]]]]]]]]]]; try (vm_compute; done). lia.
Qed.

Lemma hex_dot n z : lacks "." (hex n z) = true.
Proof.
  revert z. induction n as [|n IH]; intros z; [done|]. simpl. rewrite lacks_app_dot, IH, hex_digit_dot; [done|lia].
Qed.

Lemma escape_dot ch : lacks "." (escape ch) = true.
Proof.
  assert (lacks "." ("_" +:+ hex 8 (code_point ch)) = true) as He by (rewrite lacks_app_dot, hex_dot; done).
  unfold escape. destruct ch as [|c [|d r]]; [exact He| |exact He].
  destruct (is_ascii_alphanumeric c) eqn:E; [|exact He]. revert E. clear. unfold lacks.
  destruct c as [[] [] [] [] [] [] [] []]; vm_compute; done.
Qed.

Lemma sanitize_dot s : lacks "." (sanitize_subject_token s) = true.
Proof.
  unfold sanitize_subject_token. induction (chars s) as [|ch l IH]; [done|].
  change (concat_strings (escape <$> ch :: l)) with (escape ch +:+ concat_strings (escape <$> l)).
  by rewrite lacks_app_dot, escape_dot, IH.
Qed.

(** A prefix made here is one token of a subject. *)
Theorem inbox_prefix_is_one_token w b : lacks "." (binding_inbox_prefix w b) = true.
Proof.
  rewrite binding_inbox_prefix_eq, !lacks_app_dot, sanitize_dot. unfold after.
  destruct (is_empty b); [done|]. by rewrite lacks_app_dot, sanitize_dot.
Qed.

(** Without that, two prefixes can be one: the binding [0000002d] of a workload
    receives its replies where another workload's unnamed binding does. *)
Theorem inbox_prefixes_can_meet : binding_inbox_prefix "a" "0000002d" = binding_inbox_prefix "a-" "".
Proof. vm_compute. reflexivity. Qed.

Lemma inboxes_are_apart_witness : binding_inbox_prefix "orders.a" "hub" ≠ binding_inbox_prefix "orders-a" "hub".
Proof.
  intros E. destruct (inboxes_are_apart "orders.a" "orders-a" "hub" "hub") as [Hw _]; [..|exact E|discriminate Hw].
  - by apply ascii_utf8.
  - by apply ascii_utf8.
  - by apply ascii_utf8.
  - by apply ascii_utf8.
  - right. eexists _, _. split; reflexivity.
  - right. eexists _, _. split; reflexivity.
Defined.

Lemma scoped_inboxes_are_apart_witness : scope_inbox_prefix "_INBOX_orders." "a.b" ≠ scope_inbox_prefix "_INBOX_orders." "a-b".
Proof.
  intros E. assert ("a.b" = "a-b") as Hw; [|discriminate Hw].
  apply (scoped_inboxes_are_apart "_INBOX_orders."); [by apply ascii_utf8..|exact E].
Defined.
