(* ===== verification/Linking.v ===== *)
(** * Components of a workload: who serves whose imports ([engine/workload.rs])

    Before a workload runs, each import of its components is given to a provider: the
    host itself, a plugin, or another component of the workload.  This file models the
    map of exports, how an import finds the component that serves it, the graph of
    dependencies between components, the order they are linked in, and the set of
    components each one, and the service, reaches.  Hash maps are walked in any order:
    where the code iterates over one, the order is an argument.  What wasmtime answers
    while an import is linked (whether a component can be instantiated, what items an
    instance has, whether a function can be defined) is a parameter, [Wasmtime]. *)

From Stdlib Require Import ZArith Lia.
From stdpp Require Import base list gmap strings option relations sorting.
From S2P Require Import Prelude RustStr StoreLib Wit.

Open Scope string_scope.

(** ** Exports *)

Record ComponentExporter := { exporter_name : string; exporter_id : string }.
#[global] Instance exporter_eq_dec : EqDecision ComponentExporter.
Proof. solve_decision. Defined.

Record ExportMaps := {
  unambiguous : gmap string string;
  ambiguous : gset string;
  exporters : gmap string (list ComponentExporter);
}.

Definition no_exports : ExportMaps := {| unambiguous := ∅; ambiguous := ∅; exporters := ∅ |}.

(** One export of one component. *)
Definition add_export (m : ExportMaps) (x : ComponentExporter * string) : ExportMaps :=
  let '(exporter, name) := x in
  let exporters' := <[name := (default [] (exporters m !! name) ++ [exporter])%list]> (exporters m) in
  if bool_decide (name ∈ ambiguous m)
  then {| unambiguous := unambiguous m; ambiguous := ambiguous m; exporters := exporters' |}
  else if is_some (unambiguous m !! name)
  then {| unambiguous := delete name (unambiguous m); ambiguous := {[name]} ∪ ambiguous m;
          exporters := exporters' |}
  else {| unambiguous := <[name := exporter_id exporter]> (unambiguous m); ambiguous := ambiguous m;
          exporters := exporters' |}.

Definition listed (component_exports : list (ComponentExporter * list string)) :
    list (ComponentExporter * string) :=
  mjoin ((λ x, pair x.1 <$> x.2) <$> component_exports).

Definition build_export_map (component_exports : list (ComponentExporter * list string)) : ExportMaps :=
  foldl add_export no_exports (listed component_exports).

(** ** Imports *)

Definition resolve_import (import_name : string) (implements : option string) : string * option string :=
  match implements with
  | Some interface => (interface, Some import_name)
  | None => (import_name, None)
  end.

Inductive LinkError := AmbiguousLabel (label : string) | AmbiguousImport (component interface : string)
  | CircularDependency (unprocessed : gset string) | MissingComponent (id : string)
  | PreInstantiateFailed (exporter : string) (error : string)
  | NotAFunction (import_ export_ : string)
  | FunctionNotDefined (import_ export_ : string) (error : string).

Section labels.
Context `{SemverLib}.

(** [entries]: the map of exporters as it is walked. *)
Definition labelled_exporter (m : gmap string (list ComponentExporter))
    (entries : list (string * list ComponentExporter)) (interface label : string) :
    result (option (string * string)) LinkError :=
  let named (x : ComponentExporter * string) := bool_decide (exporter_name x.1 = label) in
  let of_entry (e : string * list ComponentExporter) := (λ x, (x, e.1)) <$> e.2 in
  let exact := match m !! interface with Some es => List.filter named (of_entry (interface, es)) | None => [] end in
  let candidates :=
    match exact with
    | [] => List.filter named
              (mjoin (of_entry <$>
                 List.filter (λ e, contains_interface (from_str e.1) (from_str interface)) entries))
    | _ => exact
    end in
  match candidates with
  | [] => Ok None
  | [(e, name)] => Ok (Some (exporter_id e, name))
  | _ => Err (AmbiguousLabel label)
  end.

(** *** What a component asks for *)

(** An import of an instance: its name and, where it is labelled, the interface it
    implements. *)
Record Import := { import_name : string; implements : option string }.

(** A component as linking sees it; [plugin_bound_instances]: the imports plugins have
    bound by then. *)
Record Component := {
  component_name : string;
  component_exports : list string;
  component_imports : list Import;
  plugin_bound_instances : gset string;
}.
Implicit Types c : Component.

Definition should_link_component_import (name : string) (bound : gset string) : bool :=
  negb (bool_decide (name ∈ bound)).

Definition internal_export (name : string) : bool :=
  bool_decide (name = "wasmcloud:wash/plugin") || starts_with "wasmcloud:wash/plugin@" name.

(** The exports linking looks at, of the components as they are walked. *)
Definition exports_of (components : list (string * Component)) : list (ComponentExporter * list string) :=
  (λ x, ({| exporter_name := component_name x.2; exporter_id := x.1 |},
         List.filter (λ n, negb (internal_export n)) (component_exports x.2))) <$> components.

(** *** The graph: who must be linked before whom *)

Definition dependency (m : ExportMaps) (entries : list (string * list ComponentExporter))
    (id : string) c (im : Import) : result (option string) LinkError :=
  let '(interface, label) := resolve_import (import_name im) (implements im) in
  match label with
  | Some l =>
      if should_link_component_import (import_name im) (plugin_bound_instances c) then
        match labelled_exporter (exporters m) entries interface l with
        | Ok (Some (labelled, _)) => Ok (if bool_decide (labelled ≠ id) then Some labelled else None)
        | Ok None => Ok None
        | Err e => Err e
        end
      else Ok None
  | None =>
      if bool_decide (interface ∈ ambiguous m) then Err (AmbiguousImport id interface)
      else Ok (exporter ← unambiguous m !! interface;
               if bool_decide (exporter ≠ id) then Some exporter else None)
  end.

Fixpoint dependencies_of (m : ExportMaps) (entries : list (string * list ComponentExporter))
    (id : string) c (ims : list Import) : result (gset string) LinkError :=
  match ims with
  | [] => Ok ∅
  | im :: ims =>
      match dependency m entries id c im with
      | Err e => Err e
      | Ok d => match dependencies_of m entries id c ims with
                | Err e => Err e
                | Ok ds => Ok (match d with Some d => {[d]} ∪ ds | None => ds end)
                end
      end
  end.

Fixpoint dependencies (m : ExportMaps) (entries : list (string * list ComponentExporter))
    (components : list (string * Component)) : result (gmap string (gset string)) LinkError :=
  match components with
  | [] => Ok ∅
  | (id, c) :: components =>
      match dependencies_of m entries id c (component_imports c) with
      | Err e => Err e
      | Ok ds => match dependencies m entries components with
                 | Err e => Err e
                 | Ok g => Ok (<[id := ds]> g)
                 end
      end
  end.

(** *** The links themselves *)

(** The component an import is linked to and the name of its export; [importer]: the
    component's own id, which the service has not. *)
Definition provider (m : ExportMaps) (entries : list (string * list ComponentExporter))
    (importer : option string) (bound : gset string) (im : Import) :
    result (option (string * string)) LinkError :=
  if negb (should_link_component_import (import_name im) bound) then Ok None
  else
    let '(interface, label) := resolve_import (import_name im) (implements im) in
    let resolved :=
      match label with
      | Some l => labelled_exporter (exporters m) entries interface l
      | None => Ok ((λ id, (id, interface)) <$> unambiguous m !! interface)
      end in
    match resolved with
    | Ok (Some (exporter, n)) => Ok (if bool_decide (Some exporter ≠ importer) then Some (exporter, n) else None)
    | Ok None => Ok None
    | Err e => Err e
    end.
End labels.

(** ** The order components are linked in: Kahn's algorithm *)

Abbreviation Graph := (gmap string (gset string)).
Implicit Types g : Graph.

(** What a component waits for: its dependencies within the workload. *)
Definition waits_for g (deps : gset string) : gset string := filter (λ d, d ∈ dom g) deps.

Definition in_degrees g : gmap string nat := (λ deps, size (waits_for g deps)) <$> g.

(** [Vec::sort] on strings, and [Vec::pop], which takes the last. *)
Definition sort_ids (l : list string) : list string := merge_sort ord_le l.
Definition pop (queue : list string) : option (string * list string) :=
  match reverse queue with
  | [] => None
  | x :: rest => Some (x, reverse rest)
  end.

(** A component that depends on the one just taken. *)
Definition release_one (result_ : list string) (taken : string)
    (st : list string * gmap string nat) (x : string * gset string) : list string * gmap string nat :=
  let '(queue, degrees) := st in
  let '(other, deps) := x in
  if bool_decide (taken ∈ deps) then
    match degrees !! other with
    | Some n =>
        (if bool_decide (n - 1 = 0 ∧ other ∉ result_) then sort_ids (queue ++ [other])%list else queue,
         <[other := (n - 1)%nat]> degrees)
    | None => st
    end
  else st.

(** [order]: the graph as it is walked. *)
Fixpoint kahn (fuel : nat) (order : list (string * gset string)) (queue : list string)
    (degrees : gmap string nat) (result_ : list string) : list string * list string :=
  match fuel with
  | O => (queue, result_)
  | S fuel =>
      match pop queue with
      | None => (queue, result_)
      | Some (taken, queue) =>
          let result_ := (result_ ++ [taken])%list in
          let '(queue, degrees) := foldl (release_one result_ taken) (queue, degrees) order in
          kahn fuel order queue degrees result_
      end
  end.

Definition topological_sort_components (order : list (string * gset string)) g :
    result (list string) LinkError :=
  let degrees := in_degrees g in
  let queue := sort_ids (omap (λ x, if bool_decide (degrees !! x.1 = Some 0) then Some x.1 else None) order) in
  let result_ := (kahn (S (size g)) order queue degrees []).2 in
  if (length result_ =? size g)%nat then Ok result_
  else Err (CircularDependency (filter (λ id, id ∉ result_) (dom g))).

(** ** What a component reaches *)

Definition expand_link_closure (direct_links : gset string) (resolved_links : Graph) : gset string :=
  direct_links ∪ ⋃ ((λ id, default ∅ (resolved_links !! id)) <$> elements direct_links).

(** *** What wasmtime is asked *)

(** An item of an imported instance, as its type has it. *)
Inductive InstanceItem := FuncItem (name : string) | ResourceItem (name : string) | OtherItem (name : string).

(** What wasmtime answers: whether an export of a component is an instance; whether the
    component can be pre-instantiated, linked as it then is; whether the importer's
    linker has an instance of the import's name; the items of the import; an item of the
    exporter's instance, and whether that is a function; and whether a function can be
    defined in the importer's linker. *)
Record Wasmtime := {
  exports_instance : string → string → bool;
  pre_instantiate : string → result unit string;
  linker_instance : option string → string → bool;
  instance_items : option string → string → list InstanceItem;
  item_is_function : string → string → string → option bool;
  func_new : option string → string → string → result unit string;
}.

Section resolving.
Context `{SemverLib} (w : Wasmtime).

(** The functions of one import, defined one by one; [linked]: one has been.
    (Resources are defined too, and where they cannot be, skipped.) *)
Fixpoint link_items (importer : option string) (exporter export_name : string) (im : Import)
    (linked : bool) (items : list InstanceItem) : result bool LinkError :=
  match items with
  | [] => Ok linked
  | FuncItem n :: items =>
      match item_is_function w exporter export_name n with
      | None => link_items importer exporter export_name im linked items
      | Some false => Err (NotAFunction (import_name im) n)
      | Some true =>
          match func_new w importer (import_name im) n with
          | Ok _ => link_items importer exporter export_name im true items
          | Err e => Err (FunctionNotDefined (import_name im) n e)
          end
      end
  | (ResourceItem _ | OtherItem _) :: items => link_items importer exporter export_name im linked items
  end.

(** One import that a component serves: whether it is linked to it. *)
Definition link_import (importer : option string) (exporter export_name : string) (im : Import) :
    result bool LinkError :=
  if negb (exports_instance w exporter export_name) then Ok false
  else match pre_instantiate w exporter with
       | Err e => Err (PreInstantiateFailed exporter e)
       | Ok _ =>
           if negb (linker_instance w importer (import_name im)) then Ok false
           else link_items importer exporter export_name im false (instance_items w importer (import_name im))
       end.

(** [resolve_component_imports]: the components a component or the service is linked
    to; [present]: the components in the map, which the importer has been taken out of. *)
Fixpoint direct_links (m : ExportMaps) (entries : list (string * list ComponentExporter)) (present : gset string)
    (importer : option string) (bound : gset string) (ims : list Import) : result (gset string) LinkError :=
  match ims with
  | [] => Ok ∅
  | im :: ims =>
      match provider m entries importer bound im with
      | Err e => Err e
      | Ok None => direct_links m entries present importer bound ims
      | Ok (Some (exporter, n)) =>
          if bool_decide (exporter ∈ present) then
            match link_import importer exporter n im with
            | Err e => Err e
            | Ok linked =>
                match direct_links m entries present importer bound ims with
                | Err e => Err e
                | Ok ds => Ok (if linked then {[exporter]} ∪ ds else ds)
                end
            end
          else Err (MissingComponent exporter)
      end
  end.

Fixpoint link_loop (m : ExportMaps) (entries : list (string * list ComponentExporter))
    (components : gmap string Component) (sorted : list string) (resolved : Graph) : result Graph LinkError :=
  match sorted with
  | [] => Ok resolved
  | id :: sorted =>
      match components !! id with
      | None => Err (MissingComponent id)
      | Some c =>
          match direct_links m entries (dom components ∖ {[id]}) (Some id) (plugin_bound_instances c)
                  (component_imports c) with
          | Err e => Err e
          | Ok links =>
              link_loop m entries components sorted (<[id := expand_link_closure links resolved]> resolved)
          end
      end
  end.

(** [link_components] and [resolve_workload_imports]: what every component, and the
    service where there is one, is linked to, directly or through others.  The
    components and the maps are walked in the order of [map_to_list]. *)
Definition resolve_workload_imports (components : gmap string Component) (service : option Component) :
    result (Graph * option (gset string)) LinkError :=
  let m := build_export_map (exports_of (map_to_list components)) in
  let entries := map_to_list (exporters m) in
  match dependencies m entries (map_to_list components) with
  | Err e => Err e
  | Ok g =>
      match topological_sort_components (map_to_list g) g with
      | Err e => Err e
      | Ok sorted =>
          match link_loop m entries components sorted ∅ with
          | Err e => Err e
          | Ok links =>
              match service with
              | None => Ok (links, None)
              | Some c =>
                  match direct_links m entries (dom components) None (plugin_bound_instances c) (component_imports c) with
                  | Err e => Err e
                  | Ok ls => Ok (links, Some (expand_link_closure ls links))
                  end
              end
          end
      end
  end.

(** ** Who serves an interface: the workload, the host, a plugin *)

Definition exports_any_of (entry : WitInterface) (world : WitWorld) : bool :=
  existsb (λ x, covers (exports world) entry x) (elements (interfaces entry)).

(** [component_worlds]: id, name and world of each component. *)
Definition served_within_workload (entry : WitInterface) (item_id : string) (item_world : WitWorld)
    (component_worlds : list (string * string * WitWorld)) : bool :=
  if bool_decide (interfaces entry = ∅) then false
  else if exports_any_of entry item_world then false
  else
    let imported := List.filter (λ x, covers (imports item_world) entry x) (elements (interfaces entry)) in
    let exporter_names (x : string) : list string :=
      (λ cw, cw.1.2) <$> List.filter (λ cw, bool_decide (cw.1.1 ≠ item_id) && covers (exports cw.2) entry x)
                           component_worlds in
    let answered (x : string) (im : WitInterface) : bool :=
      match name im with
      | Some label => if bool_decide (name entry = Some label) then false
                      else bool_decide (label ∈ exporter_names x)
      | None => (length (exporter_names x) =? 1)%nat
      end in
    forallb (λ x, forallb (answered x)
                    (List.filter (λ im, same_package entry im && bool_decide (x ∈ interfaces im)) (imports item_world)))
      imported
    && negb (match imported with [] => true | _ => false end).

Definition served_by_host (entry : WitInterface) (world : WitWorld) : bool :=
  negb (is_some (name entry)) && is_host_builtin entry
  && forallb (λ used, negb (is_some (name used)) && is_host_builtin used)
       (List.filter (λ used, same_package entry used
                             && (bool_decide (interfaces entry = ∅)
                                 || existsb (λ x, bool_decide (x ∈ interfaces used)) (elements (interfaces entry))))
          (imports world ++ exports world)%list).

(** The import names a plugin that bound [i] has defined. *)
Definition plugin_bound_instance_names (i : WitInterface) : list string :=
  match name i with
  | Some n => [n]
  | None =>
      if bool_decide (interfaces i = ∅) then [instance i]
      else (λ n, let base := namespace i +:+ ":" +:+ package i +:+ "/" +:+ n in
                 match version i with Some v => base +:+ "@" +:+ semver_show v | None => base end)
             <$> elements (interfaces i)
  end.

(** The part of [HostPlugin] matching asks. *)
Record Plugin := {
  plugin_world : WitWorld;
  plugin_claims : WitInterface → bool;
  supports_named_instances : bool;
  defers_unnamed_instances : bool;
}.
Implicit Types p q : Plugin.
Abbreviation Plugins := (gmap string Plugin).

Definition serves p (i : WitInterface) : bool :=
  includes_bidirectional (plugin_world p) i && plugin_claims p i.

Definition other_plugin_serves (plugins : Plugins) (self_id : string) (i : WitInterface) (want_named : bool) : bool :=
  existsb (λ x, bool_decide (x.1 ≠ self_id)
                && (if want_named then supports_named_instances x.2 else negb (defers_unnamed_instances x.2))
                && serves x.2 i) (map_to_list plugins).

(** [declared]: the plugins an operator declared bindings for, in the order of their
    ids, with the names declared. *)
Definition declaring_plugin (plugins : Plugins) (declared : list (string * list string))
    (label : string) (i : WitInterface) : option string :=
  find_map (λ x, p ← plugins !! x.1;
                 if bool_decide (label ∈ x.2) && serves p i then Some x.1 else None) declared.

(** Whether a plugin takes an interface a workload item requires. *)
Definition plugin_matches (plugins : Plugins) (declared : list (string * list string))
    (plugin_id : string) p (i : WitInterface) : bool :=
  match name i with
  | Some n =>
      if is_some (plugins !! n) then bool_decide (n = plugin_id) && serves p i
      else serves p i
           && negb (match declaring_plugin plugins declared n i with
                    | Some owner => bool_decide (owner ≠ plugin_id)
                    | None => negb (supports_named_instances p) && other_plugin_serves plugins plugin_id i true
                    end)
  | None =>
      serves p i && negb (defers_unnamed_instances p && other_plugin_serves plugins plugin_id i false)
  end.
End resolving.

(** ** Sorting *)

Lemma sort_ids_perm l : sort_ids l ≡ₚ l.
Proof. apply merge_sort_Permutation. Qed.

Lemma sort_ids_sorted l : StronglySorted ord_le (sort_ids l).
Proof. apply StronglySorted_merge_sort; apply _. Qed.

Lemma sorted_same (l l' : list string) :
  StronglySorted ord_le l → StronglySorted ord_le l' → l ≡ₚ l' → l = l'.
Proof. apply StronglySorted_unique; apply _. Qed.

Lemma pop_Some queue x rest : pop queue = Some (x, rest) → queue = (rest ++ [x])%list.
Proof.
  unfold pop. destruct (reverse queue) as [|y l] eqn:E; [done|]. intros [= <- <-].
  rewrite <-(reverse_involutive queue), E. apply reverse_cons.
Qed.

Lemma pop_None queue : pop queue = None → queue = [].
Proof.
  unfold pop. destruct (reverse queue) as [|y l] eqn:E; [|done]. intros _.
  by rewrite <-(reverse_involutive queue), E.
Qed.

(** ** One round *)

(** The components a round adds to the queue. *)
Definition released (result_ : list string) (taken : string) (degrees : gmap string nat)
    (x : string * gset string) : option string :=
  if bool_decide (taken ∈ x.2 ∧ (degrees !! x.1 = Some 0 ∨ degrees !! x.1 = Some 1) ∧ x.1 ∉ result_)
  then Some x.1 else None.

Lemma released_ext result_ taken degrees degrees' (l : list (string * gset string)) :
  (∀ x, x ∈ l → degrees' !! x.1 = degrees !! x.1) →
  omap (released result_ taken degrees') l = omap (released result_ taken degrees) l.
Proof.
  intros H. induction l as [|x l IH]; [done|]. cbn.
  assert (released result_ taken degrees' x = released result_ taken degrees x) as ->.
  { unfold released. rewrite (H x) by constructor. done. }
  rewrite IH; [done|]. intros y Hy. apply H. by constructor.
Qed.

Lemma round_spec result_ taken (l : list (string * gset string)) queue degrees :
  NoDup l.*1 →
  let st := foldl (release_one result_ taken) (queue, degrees) l in
  st.1 ≡ₚ (queue ++ omap (released result_ taken degrees) l)%list
  ∧ (StronglySorted ord_le queue → StronglySorted ord_le st.1)
  ∧ ∀ k, st.2 !! k = match (list_to_map l : Graph) !! k with
                     | Some deps => if bool_decide (taken ∈ deps) then pred <$> degrees !! k else degrees !! k
                     | None => degrees !! k
                     end.
Proof.
  revert queue degrees. induction l as [|[other deps] l IH]; intros queue degrees Hnd; cbn.
  - by rewrite app_nil_r.
  - apply NoDup_cons in Hnd as [Hni Hnd].
    assert (∀ x, x ∈ l → x.1 ≠ other) as Hne.
    { intros x Hx <-. apply Hni. apply list_elem_of_fmap. by exists x. }
    assert ((list_to_map l : Graph) !! other = None) as Hl by (by apply not_elem_of_list_to_map).
    unfold released at 1. cbn.
    case_bool_decide as Ht; [|rewrite bool_decide_false by tauto; cbn].
    + destruct (degrees !! other) as [n|] eqn:Hd.
      * destruct (IH (if bool_decide (n - 1 = 0%nat ∧ other ∉ result_)
                      then sort_ids (queue ++ [other])%list else queue) (<[other := (n - 1)%nat]> degrees) Hnd)
          as (Hp & Hs & Hk).
        rewrite (released_ext _ _ degrees) in Hp
          by (intros x Hx; apply lookup_insert_ne; specialize (Hne x Hx); congruence).
        split_and!.
        -- rewrite Hp. destruct (decide (n - 1 = 0%nat ∧ other ∉ result_)) as [[Hn Hr]|Hn].
           ++ rewrite bool_decide_true by done. rewrite bool_decide_true by (split_and!; [done| |done];
                destruct n as [|[|]]; [by left|by right|lia]). cbn.
              rewrite sort_ids_perm, <-app_assoc. done.
           ++ rewrite bool_decide_false by done. rewrite bool_decide_false; [done|].
              intros (_ & [[= ->]|[= ->]] & Hr); apply Hn; done.
        -- intros Hq. apply Hs. case_bool_decide; [apply sort_ids_sorted|done].
        -- intros k. rewrite Hk. destruct (decide (k = other)) as [->|Hko].
           ++ rewrite Hl, !lookup_insert_eq. rewrite Hd. cbn. rewrite bool_decide_true by done. do 2 f_equal. lia.
           ++ by rewrite !lookup_insert_ne by congruence.
      * destruct (IH queue degrees Hnd) as (Hp & Hs & Hk).
        rewrite bool_decide_false by (intros (_ & [|] & _); done). split_and!; [done|done|].
        intros k. rewrite Hk. destruct (decide (k = other)) as [->|Hko].
        -- rewrite Hl, lookup_insert_eq. rewrite Hd. by case_bool_decide.
        -- by rewrite lookup_insert_ne by congruence.
    + destruct (IH queue degrees Hnd) as (Hp & Hs & Hk). split_and!; [done|done|].
      intros k. rewrite Hk. destruct (decide (k = other)) as [->|Hko].
      * rewrite Hl, lookup_insert_eq. by rewrite bool_decide_false.
      * by rewrite lookup_insert_ne by congruence.
Qed.

(** ** The algorithm *)

Section kahn.
Context (g : Graph) (order : list (string * gset string)) (walked : order ≡ₚ map_to_list g).

(** [id] waits for [d]. *)
Definition edge (id d : string) : Prop := ∃ deps, g !! id = Some deps ∧ d ∈ waits_for g deps.

(** Everything in [l] comes after what it waits for. *)
Definition in_link_order (l : list string) : Prop :=
  ∀ l1 id l2, l = (l1 ++ id :: l2)%list → ∀ d, edge id d → d ∈ l1.

Lemma order_keys : NoDup order.*1.
Proof. rewrite walked. apply NoDup_fst_map_to_list. Qed.

Lemma order_map : (list_to_map order : Graph) = g.
Proof.
  rewrite (list_to_map_proper order (map_to_list g)); [apply list_to_map_to_list|apply order_keys|done].
Qed.

Lemma edge_dom id d : edge id d → id ∈ dom g ∧ d ∈ dom g.
Proof.
  intros (deps & Hg & Hd). apply elem_of_filter in Hd as [Hd _]. split; [by apply elem_of_dom_2 in Hg|done].
Qed.

Record kahn_ok (queue : list string) (degrees : gmap string nat) (result_ : list string) : Prop := {
  ko_nodup : NoDup (result_ ++ queue)%list;
  ko_degrees : ∀ k, degrees !! k = (λ deps, size (waits_for g deps ∖ list_to_set result_)) <$> g !! k;
  ko_ready : ∀ k, k ∈ (result_ ++ queue)%list ↔ k ∈ dom g ∧ ∀ d, edge k d → d ∈ result_;
  ko_order : in_link_order result_;
  ko_sorted : StronglySorted ord_le queue;
}.

Lemma degree_zero deps (result_ : list string) :
  size (waits_for g deps ∖ list_to_set result_) = 0%nat ↔ ∀ d, d ∈ waits_for g deps → d ∈ result_.
Proof.
  rewrite size_empty_iff. split.
  - intros He d Hd. destruct (decide (d ∈ result_)) as [|Hn]; [done|].
    exfalso. apply (not_elem_of_empty (C := gset string) d). rewrite <-He. apply elem_of_difference.
    by rewrite elem_of_list_to_set.
  - intros Hd d. rewrite elem_of_difference, elem_of_list_to_set. set_solver.
Qed.

Lemma start_ok :
  kahn_ok (sort_ids (omap (λ x, if bool_decide (in_degrees g !! x.1 = Some 0%nat) then Some x.1 else None) order))
    (in_degrees g) [].
Proof.
  split; cbn.
  - rewrite sort_ids_perm. pose proof order_keys as Hk. clear -Hk.
    induction order as [|x l IH]; cbn; [constructor|]. apply NoDup_cons in Hk as [Hx Hk].
    case_bool_decide; [|by apply IH]. constructor; [|by apply IH].
    intros (y & Hy & E)%list_elem_of_omap. case_bool_decide; simplify_eq.
    apply Hx. rewrite <-E. apply list_elem_of_fmap. eauto.
  - intros k. unfold in_degrees. rewrite lookup_fmap. destruct (g !! k); [|done]. cbn. do 2 f_equal. set_solver.
  - intros k. rewrite sort_ids_perm, list_elem_of_omap. split.
    + intros ([k' deps] & Hin & E). case_bool_decide as Hd; simplify_eq/=.
      rewrite walked in Hin. apply elem_of_map_to_list in Hin. split; [by apply elem_of_dom_2 in Hin|].
      intros d (deps' & Hg & Hw). simplify_eq. unfold in_degrees in Hd. rewrite lookup_fmap, Hin in Hd.
      injection Hd as Hd. apply size_empty_inv in Hd. set_solver.
    + intros [[deps Hg]%elem_of_dom Hd]. exists (k, deps). split; [rewrite walked; by apply elem_of_map_to_list|].
      cbn. rewrite bool_decide_true; [done|]. unfold in_degrees. rewrite lookup_fmap, Hg. cbn. f_equal.
      apply size_empty_iff. intros d. split; [|set_solver]. intros Hw. exfalso.
      assert (edge k d) as He by (exists deps; done). by apply Hd, elem_of_nil in He.
  - intros [] id l2; done.
  - apply sort_ids_sorted.
Qed.

Lemma snoc_split (l l1 l2 : list string) x k :
  (l ++ [x] = l1 ++ k :: l2)%list → (l1 = l ∧ k = x) ∨ ∃ l2', l = (l1 ++ k :: l2')%list.
Proof.
  destruct l2 as [|y l2 _] using rev_ind.
  - intros [-> [= ->]]%app_inj_tail. by left.
  - rewrite app_comm_cons, app_assoc. intros [-> _]%app_inj_tail. right. eauto.
Qed.

Lemma omap_NoDup_keys (f : string * gset string → option string) (l : list (string * gset string)) :
  (∀ x y, f x = Some y → y = x.1) → NoDup l.*1 → NoDup (omap f l).
Proof.
  intros Hf. induction l as [|x l IH]; cbn; [constructor|]. intros [Hx Hl]%NoDup_cons.
  destruct (f x) as [y|] eqn:E; [|by apply IH]. constructor; [|by apply IH].
  intros (z & Hz & E')%list_elem_of_omap. apply Hf in E as ->. apply Hf in E' as E2.
  apply Hx. rewrite E2. apply list_elem_of_fmap. by exists z.
Qed.

(** What a round does to the number of components one waits for. *)
Lemma degree_after deps (result_ : list string) taken :
  taken ∈ dom g → taken ∉ result_ →
  size (waits_for g deps ∖ list_to_set (result_ ++ [taken])%list)
  = (if bool_decide (taken ∈ deps) then pred else id) (size (waits_for g deps ∖ list_to_set result_)).
Proof.
  intros Hd Hr.
  assert (waits_for g deps ∖ list_to_set (result_ ++ [taken])%list
          = waits_for g deps ∖ list_to_set result_ ∖ {[taken]}) as ->.
  { rewrite list_to_set_app_L. set_solver. }
  case_bool_decide as Ht.
  - assert (taken ∈ waits_for g deps ∖ list_to_set result_) as Hin.
    { apply elem_of_difference. split; [by apply elem_of_filter|]. by rewrite elem_of_list_to_set. }
    rewrite size_difference by set_solver. rewrite size_singleton. lia.
  - cbn. f_equal. apply set_eq. intros d. rewrite elem_of_difference, elem_of_singleton.
    split; [tauto|]. intros Hw. split; [done|]. intros ->.
    apply elem_of_difference in Hw as [Hw _]. apply elem_of_filter in Hw. tauto.
Qed.

Lemma round_ok queue degrees result_ taken :
  kahn_ok (queue ++ [taken])%list degrees result_ →
  let st := foldl (release_one (result_ ++ [taken])%list taken) (queue, degrees) order in
  kahn_ok st.1 st.2 (result_ ++ [taken])%list.
Proof.
  intros [Hnd Hdeg Hready Hord Hsort]. cbn.
  destruct (round_spec (result_ ++ [taken])%list taken order queue degrees order_keys) as (Hp & Hs & Hk).
  set (st := foldl _ _ _) in *. rewrite order_map in Hk.
  assert (taken ∈ dom g ∧ ∀ d, edge taken d → d ∈ result_) as [Htd Hte] by (apply Hready; set_solver).
  assert (taken ∉ result_) as Htr.
  { intros Hin. apply NoDup_app in Hnd as (_ & Hd & _). apply (Hd _ Hin). set_solver. }
  assert (Hnew : ∀ k, k ∈ omap (released (result_ ++ [taken])%list taken degrees) order ↔
    k ∈ dom g ∧ edge k taken ∧ ∀ d, edge k d → d ∈ (result_ ++ [taken])%list).
  { intros k. rewrite list_elem_of_omap. split.
    - intros ([k' deps] & Hin & E). unfold released in E. case_bool_decide as Hr; simplify_eq/=.
      destruct Hr as (Ht & Hn & _). rewrite walked in Hin. apply elem_of_map_to_list in Hin.
      assert (edge k taken) as He by (exists deps; split; [done|]; by apply elem_of_filter).
      split; [by apply elem_of_dom_2 in Hin|]. split; [done|]. intros d (deps' & Hg' & Hw). simplify_eq.
      enough (size (waits_for g deps ∖ list_to_set (result_ ++ [taken])%list) = 0%nat) as Hz.
      { by apply (proj1 (degree_zero _ _) Hz). }
      rewrite degree_after, bool_decide_true by done. rewrite !Hdeg, Hin in Hn. cbn in Hn.
      destruct Hn as [Hn|Hn]; injection Hn as Hn; rewrite Hn; done.
    - intros (_ & (deps & Hg & Hw) & Hd). exists (k, deps). split; [rewrite walked; by apply elem_of_map_to_list|].
      assert (taken ∈ deps) as Ht by (by apply elem_of_filter in Hw as [_ ?]).
      unfold released. rewrite bool_decide_true; [done|]. cbn. split; [done|]. split.
      + rewrite !Hdeg, Hg. cbn.
        assert (size (waits_for g deps ∖ list_to_set (result_ ++ [taken])%list) = 0%nat) as Hz.
        { apply degree_zero. intros d Hd'. apply Hd. by exists deps. }
        rewrite degree_after, bool_decide_true in Hz by done.
        destruct (size _) as [|[|]]; [by left|by right|done].
      + intros Hin. assert (k ∈ dom g ∧ ∀ d, edge k d → d ∈ result_) as [_ Hk'].
        { apply Hready. set_solver. }
        apply Htr, Hk'. by exists deps. }
  split.
  - rewrite Hp. rewrite app_assoc, <-(app_assoc result_). apply NoDup_app. split_and!.
    + by rewrite (Permutation_app_comm [taken] queue).
    + intros k Hk1 (_ & (deps & Hg & Hw) & _)%Hnew.
      assert (k ∈ dom g ∧ ∀ d, edge k d → d ∈ result_) as [_ Hk'] by (apply Hready; set_solver).
      apply Htr, Hk'. by exists deps.
    + apply omap_NoDup_keys; [|apply order_keys]. intros x y. unfold released. case_bool_decide; by intros; simplify_eq.
  - intros k. rewrite Hk, Hdeg. destruct (g !! k) as [deps|]; [|done]. cbn.
    rewrite degree_after by done. by case_bool_decide.
  - intros k. rewrite Hp, !elem_of_app, Hnew, list_elem_of_singleton. split.
    + intros [[Hin|Hin]|[Hin|(? & ? & ?)]]; [| | |done];
        (assert (k ∈ dom g ∧ ∀ d, edge k d → d ∈ result_) as [? Hk']; [apply Hready; subst; set_solver|]);
        (split; [done|]); intros d Hd; apply elem_of_app; left; by apply Hk'.
    + intros [Hkd Hd]. destruct (decide (k ∈ (result_ ++ queue ++ [taken])%list)) as [Hin|Hin]; [set_solver|].
      right. right. split; [done|]. split; [|done].
      apply elem_of_dom in Hkd as [deps Hg]. exists deps. split; [done|].
      destruct (decide (taken ∈ waits_for g deps)) as [|Hno]; [done|]. exfalso. apply Hin, Hready.
      split; [by apply elem_of_dom_2 in Hg|]. intros d He. pose proof (Hd _ He) as Hd'.
      apply elem_of_app in Hd' as [|Hd']; [done|]. apply list_elem_of_singleton in Hd' as ->.
      destruct He as (deps' & Hg' & Hw). by simplify_eq.
  - intros l1 k l2 E d He. destruct (snoc_split _ _ _ _ _ E) as [[-> ->]|[l2' ->]]; [auto|by eapply Hord].
  - apply Hs. by apply StronglySorted_app_1_l in Hsort.
Qed.

Lemma kahn_bound queue degrees result_ :
  kahn_ok queue degrees result_ → (length result_ + length queue <= size g)%nat.
Proof.
  intros Hok. rewrite <-length_app, <-size_dom.
  rewrite <-(size_list_to_set (C := gset string)) by apply (ko_nodup _ _ _ Hok).
  apply subseteq_size. intros k. rewrite elem_of_list_to_set. apply (ko_ready _ _ _ Hok).
Qed.

(** The queue is empty before the fuel is. *)
Lemma kahn_done fuel queue degrees result_ :
  kahn_ok queue degrees result_ → (size g < fuel + length result_)%nat →
  ∃ degrees', (kahn fuel order queue degrees result_).1 = []
              ∧ kahn_ok [] degrees' (kahn fuel order queue degrees result_).2.
Proof.
  revert queue degrees result_. induction fuel as [|fuel IH]; intros queue degrees result_ Hok Hf.
  - pose proof (kahn_bound _ _ _ Hok). cbn in Hf. lia.
  - cbn. destruct (pop queue) as [[taken rest]|] eqn:Hp.
    + apply pop_Some in Hp as ->. pose proof (round_ok _ _ _ _ Hok) as Hok'.
      destruct (foldl _ _ order) as [queue' degrees'] eqn:E. apply IH; [done|]. rewrite length_app. cbn. lia.
    + apply pop_None in Hp as ->. eauto.
Qed.

Definition kahn_result : list string :=
  (kahn (S (size g)) order
     (sort_ids (omap (λ x, if bool_decide (in_degrees g !! x.1 = Some 0%nat) then Some x.1 else None) order))
     (in_degrees g) []).2.

Lemma kahn_result_spec :
  NoDup kahn_result ∧ in_link_order kahn_result
  ∧ ∀ k, k ∈ kahn_result ↔ k ∈ dom g ∧ ∀ d, edge k d → d ∈ kahn_result.
Proof.
  destruct (kahn_done (S (size g)) _ _ _ start_ok) as (degrees & _ & [Hnd _ Hr Ho _]); [cbn; lia|].
  fold kahn_result in *. rewrite app_nil_r in Hnd. split_and!; [done|done|].
  intros k. rewrite <-Hr. by rewrite app_nil_r.
Qed.

(** All components are in the result, or some are left that wait for each other. *)
Lemma kahn_complete :
  length kahn_result = size g ↔ ∀ k, k ∈ dom g → k ∈ kahn_result.
Proof.
  destruct kahn_result_spec as (Hnd & _ & Hk).
  rewrite <-size_dom, <-(size_list_to_set (C := gset string)) by done. split.
  - intros Hs. assert (list_to_set kahn_result = dom g) as E.
    { apply set_subseteq_size_eq; [|lia]. intros k. rewrite elem_of_list_to_set. apply Hk. }
    intros k. rewrite <-E. by rewrite elem_of_list_to_set.
  - intros Hall. f_equal. apply set_eq. intros k. rewrite elem_of_list_to_set. split; [apply Hk|auto].
Qed.

(** No component waits for itself, however indirectly. *)
Definition acyclic : Prop := Irreflexive (tc edge).

Lemma edge_finite k : pred_finite (tc edge k).
Proof.
  exists (elements (dom g)). intros d Hd. apply elem_of_elements.
  induction Hd as [k d He|k d e He _ IH]; [by apply edge_dom in He as [_ ?]|done].
Qed.

Lemma acyclic_complete : acyclic → ∀ k, k ∈ dom g → k ∈ kahn_result.
Proof.
  intros Hac k. assert (sn edge k) as Hsn by (apply tc_finite_sn; [done|apply edge_finite]).
  induction Hsn as [k _ IH]. intros Hk. apply kahn_result_spec. split; [done|].
  intros d He. apply IH; [done|]. by apply edge_dom in He as [_ ?].
Qed.

Lemma link_order_before l l1 k l2 d :
  in_link_order l → l = (l1 ++ k :: l2)%list → tc edge k d → d ∈ l1.
Proof.
  intros Ho. revert l1 k l2. intros l1 k l2 E Hd. revert l1 l2 E.
  induction Hd as [k d He|k e d He _ IH]; intros l1 l2 E; [by eapply Ho|].
  pose proof (Ho _ _ _ E _ He) as He'. apply list_elem_of_split in He' as (l0 & l3 & ->).
  rewrite <-app_assoc in E. specialize (IH _ _ E). apply elem_of_app. by left.
Qed.

Lemma ordered_acyclic l : NoDup l → in_link_order l → (∀ k, k ∈ dom g → k ∈ l) → acyclic.
Proof.
  intros Hnd Ho Hall k Hk.
  assert (k ∈ l) as Hin.
  { apply Hall. inversion Hk as [? ? He|? ? ? He]; by apply edge_dom in He as [? _]. }
  apply list_elem_of_split in Hin as (l1 & l2 & ->).
  pose proof (link_order_before _ _ _ _ _ Ho eq_refl Hk) as Hin.
  apply NoDup_app in Hnd as (_ & Hd & _). apply (Hd _ Hin). constructor.
Qed.

Lemma sort_spec :
  match topological_sort_components order g with
  | Ok l => l ≡ₚ elements (dom g) ∧ in_link_order l ∧ acyclic
  | Err e => ¬ acyclic ∧ ∃ left, e = CircularDependency left ∧ left ≠ ∅
                                 ∧ ∀ k, k ∈ left → k ∈ dom g ∧ ∃ d, d ∈ left ∧ edge k d
  end.
Proof.
  unfold topological_sort_components. fold kahn_result. destruct kahn_result_spec as (Hnd & Ho & Hk).
  destruct (Nat.eqb_spec (length kahn_result) (size g)) as [E|E].
  - pose proof (proj1 kahn_complete E) as Hall. split_and!; [|done|by eapply ordered_acyclic].
    apply NoDup_Permutation; [done|apply NoDup_elements|]. intros k. rewrite elem_of_elements.
    split; [apply Hk|auto].
  - split; [by intros Hac; apply E, kahn_complete, acyclic_complete|].
    eexists. split; [done|]. split.
    + intros He. apply E, kahn_complete. intros k Hkd. destruct (decide (k ∈ kahn_result)) as [|Hn]; [done|].
      exfalso. apply (not_elem_of_empty (C := gset string) k). rewrite <-He. by apply elem_of_filter.
    + intros k [Hn Hkd]%elem_of_filter. split; [done|].
      apply elem_of_dom in Hkd as [deps Hg].
      destruct (decide (waits_for g deps ∖ list_to_set kahn_result = ∅)) as [Hs|Hs].
      * exfalso. apply Hn, Hk. split; [by apply elem_of_dom_2 in Hg|]. intros d (deps' & Hg' & Hw).
        simplify_eq. apply (degree_zero deps); [by apply size_empty_iff; rewrite Hs|done].
      * apply set_choose_L in Hs as [d [Hw Hd]%elem_of_difference]. exists d.
        rewrite elem_of_list_to_set in Hd. assert (edge k d) as He by (by exists deps).
        split; [|done]. apply elem_of_filter. split; [done|]. by apply edge_dom in He as [_ ?].
Qed.
(** C27: Every component is sorted after the components of the workload it imports from,
    and exactly once; the sort fails exactly when some component depends on itself
    through others, and then names the components left. *)
Theorem components_sort_unless_cyclic :
  match topological_sort_components order g with
  | Ok l => l ≡ₚ elements (dom g) ∧ in_link_order l ∧ acyclic
  | Err e => ¬ acyclic ∧ ∃ left, e = CircularDependency left ∧ left ≠ ∅
                                 ∧ ∀ k, k ∈ left → k ∈ dom g ∧ ∃ d, d ∈ left ∧ edge k d
  end.
Proof. exact sort_spec. Qed.
End kahn.

(** ** The order does not depend on how the graph is walked *)

Lemma kahn_same_walk g order order' fuel queue degrees result_ :
  order ≡ₚ map_to_list g → order' ≡ₚ map_to_list g → StronglySorted ord_le queue →
  kahn fuel order queue degrees result_ = kahn fuel order' queue degrees result_.
Proof.
  intros Ho Ho'. revert queue degrees result_. induction fuel as [|fuel IH]; intros queue degrees result_ Hs; [done|].
  cbn. destruct (pop queue) as [[taken rest]|] eqn:Hp; [|done].
  apply pop_Some in Hp as ->. apply StronglySorted_app_1_l in Hs.
  destruct (round_spec (result_ ++ [taken])%list taken order rest degrees (order_keys _ _ Ho)) as (Hp1 & Hs1 & Hk1).
  destruct (round_spec (result_ ++ [taken])%list taken order' rest degrees (order_keys _ _ Ho')) as (Hp2 & Hs2 & Hk2).
  rewrite (order_map _ _ Ho) in Hk1. rewrite (order_map _ _ Ho') in Hk2.
  destruct (foldl _ _ order) as [q1 d1], (foldl _ _ order') as [q2 d2]. cbn in *.
  assert (d1 = d2) as -> by (apply map_eq; intros k; by rewrite Hk1, Hk2).
  assert (q1 = q2) as ->; [|apply IH; auto].
  apply sorted_same; auto. rewrite Hp1, Hp2. f_equiv. apply omap_Permutation. by rewrite Ho, Ho'.
Qed.

(** The order components are linked in depends on the graph alone, not on how the hash
    map that holds it is walked: the same workload is linked the same way by every
    process. *)
Theorem link_order_is_deterministic g order order' :
  order ≡ₚ map_to_list g → order' ≡ₚ map_to_list g →
  topological_sort_components order g = topological_sort_components order' g.
Proof.
  intros Ho Ho'. unfold topological_sort_components.
  set (f := λ x : string * gset string, _).
  assert (sort_ids (omap f order) = sort_ids (omap f order')) as ->.
  { apply sorted_same; try apply sort_ids_sorted. rewrite !sort_ids_perm.
    apply omap_Permutation. by rewrite Ho, Ho'. }
  rewrite (kahn_same_walk g order order') by (done || apply sort_ids_sorted). done.
Qed.

(** ** What is exported *)

Definition exporting (xs : list (ComponentExporter * string)) (interface : string) : list ComponentExporter :=
  omap (λ x, if bool_decide (x.2 = interface) then Some x.1 else None) xs.

Record exports_ok (xs : list (ComponentExporter * string)) (m : ExportMaps) : Prop := {
  eo_unambiguous : ∀ i, unambiguous m !! i = match exporting xs i with [e] => Some (exporter_id e) | _ => None end;
  eo_ambiguous : ∀ i, i ∈ ambiguous m ↔ (2 <= length (exporting xs i))%nat;
  eo_exporters : ∀ i, default [] (exporters m !! i) = exporting xs i;
}.

Lemma exporting_snoc xs e n i :
  exporting (xs ++ [(e, n)])%list i = (exporting xs i ++ (if bool_decide (n = i) then [e] else []))%list.
Proof. unfold exporting. rewrite omap_app. cbn. by case_bool_decide. Qed.

Lemma exporters_snoc xs (em : gmap string (list ComponentExporter)) e n i :
  (∀ i, default [] (em !! i) = exporting xs i) →
  default [] (<[n := (default [] (em !! n) ++ [e])%list]> em !! i) = exporting (xs ++ [(e, n)])%list i.
Proof.
  intros He. rewrite exporting_snoc. destruct (decide (n = i)) as [->|Hne].
  - rewrite lookup_insert_eq, bool_decide_true by done. cbn. by rewrite He.
  - rewrite lookup_insert_ne, bool_decide_false, app_nil_r by done. apply He.
Qed.

Lemma exports_ok_snoc xs m e n um am :
  exports_ok xs m → (∀ i, i ≠ n → um !! i = unambiguous m !! i) → (∀ i, i ≠ n → i ∈ am ↔ i ∈ ambiguous m) →
  um !! n = (match exporting xs n with [] => Some (exporter_id e) | _ => None end) →
  (n ∈ am ↔ exporting xs n ≠ []) →
  exports_ok (xs ++ [(e, n)])%list
    {| unambiguous := um; ambiguous := am;
       exporters := <[n := (default [] (exporters m !! n) ++ [e])%list]> (exporters m) |}.
Proof.
  intros [Hu Ha He] Hum Ham Hn Hamb. split; cbn; [| |intros i; by apply exporters_snoc]; intros i;
    rewrite exporting_snoc; (destruct (decide (n = i)) as [<-|Hne];
      [rewrite bool_decide_true by done|rewrite bool_decide_false, app_nil_r by done]).
  - rewrite Hn. by destruct (exporting xs n) as [|e1 [|e2 l]].
  - by rewrite Hum.
  - rewrite Hamb, length_app. destruct (exporting xs n) as [|e1 l]; cbn; split; try done; try lia.
  - by rewrite Ham.
Qed.

Lemma add_export_ok xs m e n : exports_ok xs m → exports_ok (xs ++ [(e, n)])%list (add_export m (e, n)).
Proof.
  intros Hok. pose proof (eo_unambiguous _ _ Hok n) as Hun. pose proof (eo_ambiguous _ _ Hok n) as Han.
  unfold add_export. case_bool_decide as Hamb; [|destruct (unambiguous m !! n) as [id|] eqn:E; cbn [is_some]];
    apply exports_ok_snoc; try done.
  - rewrite Hun. apply Han in Hamb. by destruct (exporting xs n) as [|e1 [|]]; [cbn in Hamb; lia..|].
  - split; [|done]. intros _ Hx. apply Han in Hamb. rewrite Hx in Hamb. cbn in Hamb. lia.
  - intros i Hi. by apply lookup_delete_ne.
  - intros i Hi. rewrite elem_of_union, elem_of_singleton. naive_solver.
  - rewrite lookup_delete_eq. by destruct (exporting xs n).
  - rewrite elem_of_union, elem_of_singleton. split; [|by left]. intros _ Hx. by rewrite Hx in Hun.
  - intros i Hi. by apply lookup_insert_ne.
  - rewrite lookup_insert_eq. destruct (exporting xs n) as [|e1 [|e2 l]]; [done|done|].
    exfalso. apply Hamb, Han. cbn. lia.
  - split; [done|]. intros Hx. exfalso. apply Hamb, Han.
    destruct (exporting xs n) as [|e1 [|e2 l]]; [done|done|cbn; lia].
Qed.

Lemma export_map_ok exports_ : exports_ok (listed exports_) (build_export_map exports_).
Proof.
  unfold build_export_map. induction (listed exports_) as [|[e n] xs IH] using rev_ind.
  - split; cbn; [done| |done]. intros i. split; [set_solver|cbn; lia].
  - rewrite foldl_snoc. by apply add_export_ok.
Qed.

(** An interface one component exports is linked to it, one that several export is
    ambiguous, and of every interface all exporters are kept, in order. *)
Theorem export_map_counts_exporters exports_ :
  let m := build_export_map exports_ in
  ∀ i, unambiguous m !! i = (match exporting (listed exports_) i with [e] => Some (exporter_id e) | _ => None end)
       ∧ (i ∈ ambiguous m ↔ (2 <= length (exporting (listed exports_) i))%nat)
       ∧ default [] (exporters m !! i) = exporting (listed exports_) i.
Proof. destruct (export_map_ok exports_) as [Hu Ha He]. cbn. auto. Qed.

(** All exports, as the map of exporters has them. *)
Definition flat (l : list (string * list ComponentExporter)) : list (ComponentExporter * string) :=
  mjoin ((λ e, (λ x, (x, e.1)) <$> e.2) <$> l).

#[local] Instance flat_proper : Proper ((≡ₚ) ==> (≡ₚ)) flat.
Proof.
  unfold flat. induction 1 as [|x l l' _ IH|x y l|l1 l2 l3 _ IH1 _ IH2]; cbn.
  - done.
  - by rewrite IH.
  - rewrite !app_assoc. f_equiv. apply Permutation_app_comm.
  - by etrans.
Qed.



(** ** What components are linked to *)

Section linking.
Context `{SemverLib} (w : Wasmtime).
Context (components : gmap string Component) (service : option Component).
Let cs := map_to_list components.
Let m := build_export_map (exports_of cs).
Let entries := map_to_list (exporters m).

(** *** What the components declare *)

(** Every export of every component. *)
Definition declared_exports : list (ComponentExporter * string) := listed (exports_of (map_to_list components)).

(** The exports a label can stand for: of the interface itself, or else of one that
    contains it, by a component of that name. *)
Definition label_matches (interface label : string) : list (ComponentExporter * string) :=
  let named := List.filter (λ x, bool_decide (exporter_name x.1 = label)) declared_exports in
  match List.filter (λ x, bool_decide (x.2 = interface)) named with
  | [] => List.filter (λ x, contains_interface (from_str x.2) (from_str interface)) named
  | exact => exact
  end.

(** The one export an import can be given, if there is one. *)
Definition candidate (im : Import) : option (string * string) :=
  match implements im with
  | Some interface =>
      match label_matches interface (import_name im) with [(e, n)] => Some (exporter_id e, n) | _ => None end
  | None =>
      match exporting declared_exports (import_name im) with [e] => Some (exporter_id e, import_name im) | _ => None end
  end.


(** An import that no plugin has bound and another component serves. *)
Definition served (importer : option string) (c : Component) (im : Import) (exporter n : string) : Prop :=
  im ∈ component_imports c ∧ (import_name im ∉ plugin_bound_instances c)
  ∧ candidate im = Some (exporter, n) ∧ importer ≠ Some exporter.


(** A function of [d] is linked for one of the imports of [c]. *)
Definition links_to (importer : option string) (c : Component) (d : string) : Prop :=
  ∃ im n, served importer c im d n ∧ link_import w importer d n im = Ok true.
Definition linked (id d : string) : Prop := ∃ c, components !! id = Some c ∧ links_to (Some id) c d.


(** *** What the code resolves *)















(** *** Linking *)





(** *** Reaching *)










End linking.

(** ** Plugins *)

Abbreviation Plugins := (gmap string Plugin).

Section plugins.
Context `{SemverLib}.
Context (plugins : Plugins) (declared : list (string * list string)).

Lemma find_map_Some {A B} (f : A → option B) l y : find_map f l = Some y → ∃ x, x ∈ l ∧ f x = Some y.
Proof.
  induction l as [|x l IH]; cbn; [done|]. destruct (f x) eqn:E.
  - intros [= ->]. exists x. split; [constructor|done].
  - intros (z & ? & ?)%IH. exists z. split; [by constructor|done].
Qed.

Lemma other_serves_elem self_id i want :
  other_plugin_serves plugins self_id i want = true ↔
  ∃ id q, plugins !! id = Some q ∧ id ≠ self_id
          ∧ (if want then supports_named_instances q = true else defers_unnamed_instances q = false)
          ∧ serves q i = true.
Proof.
  unfold other_plugin_serves. rewrite existsb_exists. split.
  - intros ([id q] & Hin & Hs). apply list_elem_of_In, elem_of_map_to_list in Hin.
    rewrite !andb_true_iff, bool_decide_eq_true in Hs. destruct Hs as [[Hne Hw] Hs]. exists id, q.
    split_and!; try done. destruct want; [done|]. by apply negb_true_iff.
  - intros (id & q & Hq & Hne & Hw & Hs). exists (id, q).
    split; [apply list_elem_of_In; by apply elem_of_map_to_list|].
    cbn. rewrite bool_decide_true, Hs by done. destruct want; [by rewrite Hw|]. by rewrite Hw.
Qed.

Lemma declaring_serves label i owner :
  declaring_plugin plugins declared label i = Some owner → ∃ q, plugins !! owner = Some q ∧ serves q i = true.
Proof.
  unfold declaring_plugin. intros (x & _ & E)%find_map_Some.
  destruct (plugins !! x.1) as [q|] eqn:Eq; [|done]. cbn in E.
  destruct (bool_decide _ && serves q i) eqn:Es; [|done]. injection E as <-.
  apply andb_true_iff in Es as [_ Es]. eauto.
Qed.

(** Deferring to one another, plugins never leave an interface to nobody: one that some
    plugin can serve is taken by some plugin, unless it is named after a plugin, in
    which case that plugin alone may take it. *)
Theorem served_interface_finds_a_plugin i :
  (∃ id p, plugins !! id = Some p ∧ plugin_matches plugins declared id p i = true) ↔
  ∃ id p, plugins !! id = Some p ∧ serves p i = true
          ∧ (∀ n, name i = Some n → is_Some (plugins !! n) → n = id).
Proof.
  unfold plugin_matches. destruct (name i) as [n|] eqn:Hn.
  - destruct (plugins !! n) as [pn|] eqn:Hp; cbn [is_some].
    + split.
      * intros (id & p & Hid & Hm). apply andb_true_iff in Hm as [He%bool_decide_eq_true Hs]. subst id.
        exists n, p. split_and!; [done|done|]. by intros ? [= ->].
      * intros (id & p & Hid & Hs & Ho). assert (n = id) as -> by (by apply Ho; [|rewrite Hp]).
        exists id, p. split; [done|]. by rewrite bool_decide_true.
    + split.
      * intros (id & p & Hid & Hm). apply andb_true_iff in Hm as [Hs _]. exists id, p.
        split_and!; [done|done|]. intros ? [= <-]. rewrite Hp. by intros [].
      * intros (id & p & Hid & Hs & _). destruct (declaring_plugin plugins declared n i) as [owner|] eqn:Ed.
        -- destruct (declaring_serves _ _ _ Ed) as (q & Hq & Hqs). exists owner, q. split; [done|].
           rewrite Hqs. by rewrite bool_decide_false by auto.
        -- destruct (supports_named_instances p) eqn:Esn; [exists id, p; by rewrite Hs, Esn|].
           destruct (other_plugin_serves plugins id i true) eqn:Eo; [|exists id, p; by rewrite Hs, Eo, andb_false_r].
           apply other_serves_elem in Eo as (id' & q & Hq & _ & Hw & Hqs). exists id', q. by rewrite Hqs, Hw.
  - split.
    + intros (id & p & Hid & Hm). apply andb_true_iff in Hm as [Hs _]. exists id, p. by split_and!.
    + intros (id & p & Hid & Hs & _). destruct (defers_unnamed_instances p) eqn:Edf; [|exists id, p; by rewrite Hs, Edf].
      destruct (other_plugin_serves plugins id i false) eqn:Eo; [|exists id, p; by rewrite Hs, Eo, andb_false_r].
      apply other_serves_elem in Eo as (id' & q & Hq & _ & Hw & Hqs). exists id', q. by rewrite Hqs, Hw.
Qed.

(** A label goes where it was sent: one that is a plugin's id to that plugin, one an
    operator declared for a plugin that serves it to the first such plugin, and no
    other plugin takes it. *)
Theorem label_goes_where_declared i n id p :
  name i = Some n → plugins !! id = Some p → plugin_matches plugins declared id p i = true →
  (is_Some (plugins !! n) → id = n)
  ∧ (plugins !! n = None → ∀ owner, declaring_plugin plugins declared n i = Some owner → id = owner)
  ∧ serves p i = true.
Proof.
  unfold plugin_matches. intros -> Hid. destruct (plugins !! n) as [pn|] eqn:Hp; cbn [is_some];
    intros [Ha Hb]%andb_true_iff.
  - apply bool_decide_eq_true in Ha. by split_and!.
  - split_and!; [by intros []| |done]. intros _ owner Ed. rewrite Ed in Hb.
    apply negb_true_iff, bool_decide_eq_false in Hb. by apply dec_stable in Hb.
Qed.
End plugins.

(** ** An import a plugin has bound *)

Definition kv_entry : WitInterface :=
  {| namespace := "acme"; package := "kv"; interfaces := {["store"]}; version := None; config := ∅; name := None |}.
Definition kv_user : WitWorld := {| imports := [kv_entry]; exports := [] |}.
Definition kv_exporter : WitWorld := {| imports := []; exports := [kv_entry] |}.
Definition kv_plugin : Plugin :=
  {| plugin_world := kv_user; plugin_claims := λ _, true; supports_named_instances := false;
     defers_unnamed_instances := false |}.

(** One component imports an interface that a plugin has bound for it and that two
    others export. *)
Definition kv_workload : gmap string Component :=
  {["1" := {| component_name := "app"; component_exports := [];
              component_imports := [{| import_name := "acme:kv/store"; implements := None |}];
              plugin_bound_instances := {["acme:kv/store"]} |};
    "2" := {| component_name := "red"; component_exports := ["acme:kv/store"]; component_imports := [];
              plugin_bound_instances := ∅ |};
    "3" := {| component_name := "blue"; component_exports := ["acme:kv/store"]; component_imports := [];
              plugin_bound_instances := ∅ |}]}.

(** Where two components export an interface, [served_within_workload] leaves it to a
    plugin, so that the workload deploys; the plugin binds it, and nothing is left to
    link.  The graph is built without asking what plugins have bound of the imports
    without a label, and the workload is refused as ambiguous all the same. *)
Theorem plugin_bound_import_is_refused `{SemverLib} :
  served_within_workload kv_entry "1" kv_user
    [("1", "app", kv_user); ("2", "red", kv_exporter); ("3", "blue", kv_exporter)] = false
  ∧ plugin_matches {["kv" := kv_plugin]} [] "kv" kv_plugin kv_entry = true
  ∧ plugin_bound_instance_names kv_entry = ["acme:kv/store"]
  ∧ (∀ m entries im, import_name im = "acme:kv/store" → provider m entries (Some "1") {["acme:kv/store"]} im = Ok None)
  ∧ (∀ w, resolve_workload_imports w kv_workload None = Err (AmbiguousImport "1" "acme:kv/store")).
Proof.
  split; [by vm_compute|]. split; [by vm_compute|]. split; [by vm_compute|]. split; [|by intros w; vm_compute].
  intros m entries im Him. unfold provider. rewrite Him. unfold should_link_component_import.
  rewrite bool_decide_true by set_solver. done.
Qed.

(** ** Witnesses *)

Definition chain : Graph := {["a" := {["b"; "host"]}; "b" := {["c"]}; "c" := ∅]}.

Lemma components_sort_unless_cyclic_witness :
  topological_sort_components (map_to_list chain) chain = Ok ["c"; "b"; "a"]
  ∧ (["c"; "b"; "a"] ≡ₚ elements (dom chain) ∧ in_link_order chain ["c"; "b"; "a"] ∧ acyclic chain).
Proof.
  assert (topological_sort_components (map_to_list chain) chain = Ok ["c"; "b"; "a"]) as E by (by vm_compute).
  split; [exact E|]. pose proof (components_sort_unless_cyclic chain (map_to_list chain) (reflexivity _)) as Ht.
  rewrite E in Ht. exact Ht.
Defined.

Lemma link_order_is_deterministic_witness :
  topological_sort_components (map_to_list chain) chain
  = topological_sort_components (reverse (map_to_list chain)) chain.
Proof. apply (link_order_is_deterministic chain); [done|apply reverse_Permutation]. Defined.

Lemma label_goes_where_declared_witness :
  ∃ i id, name i = Some "kv" ∧ plugin_matches {["kv" := kv_plugin]} [] id kv_plugin i = true ∧ id = "kv".
Proof.
  exists {| namespace := "acme"; package := "kv"; interfaces := {["store"]}; version := None; config := ∅;
            name := Some "kv" |}, "kv".
  split; [done|]. split; [by vm_compute|].
  destruct (label_goes_where_declared {["kv" := kv_plugin]} []
    {| namespace := "acme"; package := "kv"; interfaces := {["store"]}; version := None; config := ∅;
       name := Some "kv" |} "kv" "kv" kv_plugin) as [Hx _]; [done|by vm_compute|by vm_compute|].
  apply Hx. by exists kv_plugin.
Defined.

(** Three components in a row, and a service that uses the first: wasmtime finds one
    function per import.  Where it cannot instantiate the last, the workload fails. *)
Definition imports_one (n : string) (l : list string) : Component :=
  {| component_name := n; component_exports := ["acme:" +:+ n +:+ "/api"];
     component_imports := (λ x, {| import_name := "acme:" +:+ x +:+ "/api"; implements := None |}) <$> l;
     plugin_bound_instances := ∅ |}.
Definition in_a_row : gmap string Component :=
  {["1" := imports_one "a" ["b"]; "2" := imports_one "b" ["c"]; "3" := imports_one "c" []]}.
Definition one_function (broken : string) : Wasmtime :=
  {| exports_instance := λ _ _, true; pre_instantiate := λ id, if bool_decide (id = broken) then Err "no memory" else Ok ();
     linker_instance := λ _ _, true; instance_items := λ _ _, [ResourceItem "handle"; FuncItem "run"];
     item_is_function := λ _ _ _, Some true; func_new := λ _ _ _, Ok () |}.

Example row_is_linked `{SemverLib} :
  resolve_workload_imports (one_function "") in_a_row (Some (imports_one "svc" ["a"]))
  = Ok ({["1" := {["2"; "3"]}; "2" := {["3"]}; "3" := ∅]}, Some {["1"; "2"; "3"]})
  ∧ resolve_workload_imports (one_function "3") in_a_row None = Err (PreInstantiateFailed "3" "no memory").
Proof. split; vm_compute; reflexivity. Qed.
