(* ===== verification/Multiplex.v ===== *)
(** * The multiplexer

    [plugin/multiplex.rs]: which backend a named import is routed to, and the pool
    of connections that binds of equal configuration share.  A bind touches the
    pool under its lock, connects without it, and comes back to enforce the
    ceiling; other binds and the reaper run in between, so those are the steps of
    the transition system below.  A [OnceCell] is a number, its contents are in
    [cells].  What a provider answers when it connects is an argument, and so is
    the clock. *)

From Stdlib Require Import ZArith Lia Ascii.
From stdpp Require Import base list gmap strings option.
From S2P Require Import Prelude RustStr Wit.
Local Open Scope Z_scope.

Definition BACKEND_CONFIG_KEY : string := "backend".
Definition DEFAULT_MAX_CONNECTIONS : nat := 64.
(** 300 s in nanoseconds. *)
Definition DEFAULT_IDLE_TTL : Z := 300000000000.

Record PoolEntry := { cell : nat; last_used : Z }.
Abbreviation Pool := (gmap string PoolEntry).
Implicit Types (pool : Pool).

(** ** The pool's own functions *)

(** The keys of one backend type start with it and a zero byte. *)
Definition group_prefix (backend_type : string) : string := backend_type +:+ String "000" "".
Definition pool_key_of (backend_type key : string) : string := group_prefix backend_type +:+ key.
Definition in_group (backend_type : string) (k : string) : bool := starts_with (group_prefix backend_type) k.

Definition group backend_type pool : Pool := filter (λ e, in_group backend_type e.1 = true) pool.

Section pool.
Context (initialized : nat → bool).

(** [now.duration_since(..)] is zero when the clock is behind. *)
Definition reap_idle pool (now ttl : Z) : Pool :=
  filter (λ e, negb (initialized (cell e.2)) || (Z.max 0 (now - last_used e.2) <? ttl) = true) pool.
End pool.

(** [min_by_key(last_used)]: the first least entry in the order the map is walked. *)
Fixpoint oldest (l : list (string * PoolEntry)) : option string :=
  match l with
  | [] => None
  | (k, e) :: l =>
      match oldest l with
      | Some k' =>
          match find (λ p, bool_decide (p.1 = k')) l with
          | Some (_, e') => Some (if last_used e <=? last_used e' then k else k')
          | None => Some k
          end
      | None => Some k
      end
  end.

Definition victim pool (backend_type keep : string) : option string :=
  oldest (map_to_list (filter (λ e, in_group backend_type e.1 = true ∧ e.1 ≠ keep) pool)).

(** Every round removes an entry, so the size of the pool bounds the rounds. *)
Fixpoint enforce_loop (fuel : nat) pool (backend_type : string) (max : nat) (keep : string) : Pool :=
  match fuel with
  | O => pool
  | S fuel =>
      if (size (group backend_type pool) <=? max)%nat then pool
      else match victim pool backend_type keep with
           | Some k => enforce_loop fuel (delete k pool) backend_type max keep
           | None => pool
           end
  end.

Definition enforce_limit pool (backend_type : string) (max : nat) (keep : string) : Pool :=
  enforce_loop (S (size pool)) pool backend_type max keep.

(** ** The multiplexer *)

Section multiplexer.
Context {Id Policy : Type}.

Record Provider := {
  check_egress : gmap string string → Policy → result unit string;
  pool_key : gmap string string → option string;
}.

Record Multiplexer := {
  mx_namespace : string;
  mx_package : string;
  default_backend_type : string;
  providers : gmap string Provider;
  mx_pool : Pool;
  cells : gmap nat Id;
  next_cell : nat;
  max_connections : nat;
  max_connections_by_backend : gmap string nat;
  idle_ttl : Z;
  defaults : gmap string Id;
  egress : option Policy;
}.
Implicit Types (m : Multiplexer) (i : WitInterface).

Definition new (ns pkg default_type : string) : Multiplexer :=
  {| mx_namespace := ns; mx_package := pkg; default_backend_type := default_type; providers := ∅;
     mx_pool := ∅; cells := ∅; next_cell := 0; max_connections := DEFAULT_MAX_CONNECTIONS;
     max_connections_by_backend := ∅; idle_ttl := DEFAULT_IDLE_TTL; defaults := ∅; egress := None |}.

Definition with_pool m (p : Pool) : Multiplexer :=
  {| mx_namespace := mx_namespace m; mx_package := mx_package m;
     default_backend_type := default_backend_type m; providers := providers m; mx_pool := p;
     cells := cells m; next_cell := next_cell m; max_connections := max_connections m;
     max_connections_by_backend := max_connections_by_backend m; idle_ttl := idle_ttl m;
     defaults := defaults m; egress := egress m |}.

Definition with_cells m (c : gmap nat Id) (n : nat) : Multiplexer :=
  {| mx_namespace := mx_namespace m; mx_package := mx_package m;
     default_backend_type := default_backend_type m; providers := providers m; mx_pool := mx_pool m;
     cells := c; next_cell := n; max_connections := max_connections m;
     max_connections_by_backend := max_connections_by_backend m; idle_ttl := idle_ttl m;
     defaults := defaults m; egress := egress m |}.

Definition with_defaults m (d : gmap string Id) : Multiplexer :=
  {| mx_namespace := mx_namespace m; mx_package := mx_package m;
     default_backend_type := default_backend_type m; providers := providers m; mx_pool := mx_pool m;
     cells := cells m; next_cell := next_cell m; max_connections := max_connections m;
     max_connections_by_backend := max_connections_by_backend m; idle_ttl := idle_ttl m;
     defaults := d; egress := egress m |}.

(** The builder. *)
Definition with_provider m (backend_type : string) (p : Provider) : Multiplexer :=
  {| mx_namespace := mx_namespace m; mx_package := mx_package m;
     default_backend_type := default_backend_type m; providers := <[backend_type := p]> (providers m);
     mx_pool := mx_pool m; cells := cells m; next_cell := next_cell m;
     max_connections := max_connections m;
     max_connections_by_backend := max_connections_by_backend m; idle_ttl := idle_ttl m;
     defaults := defaults m; egress := egress m |}.

Definition with_limits m (max : nat) (by_backend : gmap string nat) (ttl : Z) : Multiplexer :=
  {| mx_namespace := mx_namespace m; mx_package := mx_package m;
     default_backend_type := default_backend_type m; providers := providers m; mx_pool := mx_pool m;
     cells := cells m; next_cell := next_cell m; max_connections := max;
     max_connections_by_backend := by_backend; idle_ttl := ttl; defaults := defaults m;
     egress := egress m |}.

Definition with_max_connections m (max : nat) : Multiplexer :=
  with_limits m (Nat.max max 1) (max_connections_by_backend m) (idle_ttl m).
Definition with_max_connections_for m (backend_type : string) (max : nat) : Multiplexer :=
  with_limits m (max_connections m) (<[backend_type := Nat.max max 1]> (max_connections_by_backend m))
    (idle_ttl m).
Definition with_idle_ttl m (ttl : Z) : Multiplexer :=
  with_limits m (max_connections m) (max_connections_by_backend m) ttl.

Definition configure_egress_policy m (p : Policy) : Multiplexer :=
  {| mx_namespace := mx_namespace m; mx_package := mx_package m;
     default_backend_type := default_backend_type m; providers := providers m; mx_pool := mx_pool m;
     cells := cells m; next_cell := next_cell m; max_connections := max_connections m;
     max_connections_by_backend := max_connections_by_backend m; idle_ttl := idle_ttl m;
     defaults := defaults m; egress := Some p |}.

Definition set_default m (workload_id : string) (registry : gmap string Id) : Multiplexer :=
  match registry !! "" with
  | Some d => with_defaults m (<[workload_id := d]> (defaults m))
  | None => m
  end.
Definition default_for m (workload_id : string) : option Id := defaults m !! workload_id.
Definition forget_default m (workload_id : string) : Multiplexer :=
  with_defaults m (delete workload_id (defaults m)).

(** ** A bind *)

Inductive BindError := NoProvider (backend_type : string) | RefusedByPolicy (why : string) | ConnectFailed.

Definition is_initialized m (c : nat) : bool := is_some (cells m !! c).
Definition reap m (now : Z) : Multiplexer :=
  with_pool m (reap_idle (is_initialized m) (mx_pool m) now (idle_ttl m)).

Definition limit_for m (backend_type : string) : nat :=
  default (max_connections m) (max_connections_by_backend m !! backend_type).

(** A bind past its checks: one that connects for itself, or one that waits on a
    cell of the pool. *)
Record Bind := { b_type : string; b_config : gmap string string; b_slot : option (string * nat) }.
Implicit Types b : Bind.

Definition backend_type_of m i : string :=
  default (default_backend_type m) (config i !! BACKEND_CONFIG_KEY).

(** [instantiate] up to the connection. *)
Definition begin_bind m i (now : Z) : result Bind BindError * Multiplexer :=
  let backend_type := backend_type_of m i in
  match providers m !! backend_type with
  | None => (Err (NoProvider backend_type), m)
  | Some provider =>
      match match egress m with Some policy => check_egress provider (config i) policy | None => Ok tt end with
      | Err why => (Err (RefusedByPolicy why), m)
      | Ok _ =>
          match pool_key provider (config i) with
          | None => (Ok {| b_type := backend_type; b_config := config i; b_slot := None |}, m)
          | Some pk =>
              let key := pool_key_of backend_type pk in
              let m := reap m now in
              let '(c, m) := match mx_pool m !! key with
                             | Some e => (cell e, m)
                             | None => (next_cell m, with_cells m (cells m) (S (next_cell m)))
                             end in
              (Ok {| b_type := backend_type; b_config := config i; b_slot := Some (key, c) |},
               with_pool m (<[key := {| cell := c; last_used := now |}]> (mx_pool m)))
          end
      end
  end.

(** The connection: [get_or_try_init] runs one connect at a time, and none once the
    cell has its contents.  [outcome] is what the provider answers if asked. *)
Definition connect m b (outcome : option Id) : option Id * Multiplexer :=
  match b_slot b with
  | None => (outcome, m)
  | Some (_, c) =>
      match cells m !! c with
      | Some id => (Some id, m)
      | None =>
          match outcome with
          | Some id => (Some id, with_cells m (<[c := id]> (cells m)) (next_cell m))
          | None => (None, m)
          end
      end
  end.

Definition finish_bind m b : Multiplexer :=
  match b_slot b with
  | None => m
  | Some (key, _) => with_pool m (enforce_limit (mx_pool m) (b_type b) (limit_for m (b_type b)) key)
  end.

(** One bind with nothing in between. *)
Definition instantiate m i (now : Z) (outcome : option Id) : result Id BindError * Multiplexer :=
  match begin_bind m i now with
  | (Err e, m) => (Err e, m)
  | (Ok b, m) =>
      match connect m b outcome with
      | (None, m) => (Err ConnectFailed, m)
      | (Some id, m) => (Ok id, finish_bind m b)
      end
  end.

(** [build_registry]: [outcomes] answers the connects in turn. *)
Fixpoint build_registry m (interfaces : list WitInterface) (now : Z) (outcomes : list (option Id))
    (registry : gmap string Id) : result (gmap string Id) BindError * Multiplexer :=
  match interfaces with
  | [] => (Ok registry, m)
  | i :: interfaces =>
      if negb (bool_decide (namespace i = mx_namespace m)) || negb (bool_decide (package i = mx_package m))
      then build_registry m interfaces now outcomes registry
      else match instantiate m i now (default None (head outcomes)) with
           | (Err e, m) => (Err e, m)
           | (Ok id, m) =>
               build_registry m interfaces now (tail outcomes) (<[default "" (name i) := id]> registry)
           end
  end.

Definition resolve (registry : gmap string Id) (import_name : string) : option Id := registry !! import_name.

End multiplexer.
Arguments Multiplexer Id Policy : clear implicits.
Arguments Provider Policy : clear implicits.

(** ** Keys and groups *)

Lemma pool_key_inj t k t' k' :
  lacks "000" t = true → lacks "000" t' = true → pool_key_of t k = pool_key_of t' k' → t = t' ∧ k = k'.
Proof.
  unfold pool_key_of, group_prefix. intros Ht Ht' E. rewrite !str_app_assoc in E.
  apply (f_equal (split_once (String "000" ""))) in E. rewrite !split_once_lacks in E by done.
  by injection E.
Qed.

Lemma in_group_key t t' k :
  lacks "000" t = true → lacks "000" t' = true → in_group t (pool_key_of t' k) = bool_decide (t = t').
Proof.
  intros Ht Ht'. unfold in_group. apply eq_true_iff_eq. rewrite starts_with_spec, bool_decide_eq_true. split.
  - intros [r E]. symmetry. by eapply (pool_key_inj t' k t r).
  - intros ->. by exists k.
Qed.

Lemma group_lookup t pool k e : group t pool !! k = Some e ↔ pool !! k = Some e ∧ in_group t k = true.
Proof. unfold group. by rewrite map_lookup_filter_Some. Qed.

Lemma group_mono t pool pool' : pool' ⊆ pool → (size (group t pool') ≤ size (group t pool))%nat.
Proof.
  intros Hs. apply map_subseteq_size. apply map_subseteq_spec. intros k e.
  rewrite !group_lookup. intros [Hk ?]. split; [|done]. by eapply lookup_weaken.
Qed.

Lemma group_insert_size t pool k e :
  (size (group t (<[k := e]> pool)) ≤ size (group t pool) + if in_group t k then 1 else 0)%nat.
Proof.
  unfold group. destruct (in_group t k) eqn:Ek.
  - rewrite map_filter_insert_True by done. rewrite map_size_insert.
    destruct (filter _ pool !! k); simpl; lia.
  - rewrite map_filter_insert_False by (simpl; congruence).
    rewrite map_filter_delete. pose proof (map_subseteq_size _ _ (delete_subseteq (filter
      (λ e0 : string * PoolEntry, in_group t e0.1 = true) pool) k)). lia.
Qed.

(** ** Eviction *)

Lemma oldest_None l : oldest l = None ↔ l = [].
Proof.
  destruct l as [|[k e] l]; [done|]. simpl. split; [|done].
  destruct (oldest l); [|done]. by destruct (find _ l) as [[??]|].
Qed.

Lemma oldest_spec l k :
  NoDup l.*1 → oldest l = Some k →
  ∃ e, (k, e) ∈ l ∧ ∀ k' e', (k', e') ∈ l → last_used e ≤ last_used e'.
Proof.
  revert k. induction l as [|[k0 e0] l IH]; intros k Hnd; [done|]. cbn [oldest].
  rewrite fmap_cons in Hnd. pose proof (NoDup_cons_1_1 _ _ Hnd) as Hk0; apply NoDup_cons_1_2 in Hnd. destruct (oldest l) as [k1|] eqn:E.
  - destruct (IH k1 Hnd eq_refl) as (e1 & Hin & Hmin).
    destruct (find (λ p, bool_decide (p.1 = k1)) l) as [[k2 e2]|] eqn:Ef.
    2:{ exfalso. pose proof (find_none _ _ Ef (k1, e1)) as Hn. simpl in Hn.
        rewrite bool_decide_eq_true_2 in Hn by done. discriminate Hn. by apply list_elem_of_In. }
    apply find_some in Ef as [Hin2 Hk2]. apply list_elem_of_In in Hin2. simpl in Hk2. bools. subst k2.
    assert (e2 = e1) as ->.
    { apply (elem_of_list_to_map_1 (M := gmap string)) in Hin, Hin2; [congruence|done..]. }
    destruct (Z.leb_spec (last_used e0) (last_used e1)); intros [= <-].
    + exists e0. split; [apply elem_of_cons; by left|]. intros k' e' [[= -> ->]|Hin']%elem_of_cons; [lia|].
      specialize (Hmin k' e' Hin'). lia.
    + exists e1. split; [apply elem_of_cons; by right|]. intros k' e' [[= -> ->]|Hin']%elem_of_cons; [lia|].
      by apply (Hmin k').
  - apply oldest_None in E as ->. intros [= <-]. exists e0. split; [apply elem_of_cons; by left|].
    intros k' e' [[= -> ->]|H]%elem_of_cons; [lia|by apply not_elem_of_nil in H].
Qed.

Lemma victim_spec pool t keep k :
  victim pool t keep = Some k →
  ∃ e, pool !! k = Some e ∧ in_group t k = true ∧ k ≠ keep
    ∧ ∀ k' e', pool !! k' = Some e' → in_group t k' = true → k' ≠ keep → last_used e ≤ last_used e'.
Proof.
  intros (e & Hin & Hmin)%oldest_spec; [|apply NoDup_fst_map_to_list].
  apply elem_of_map_to_list, map_lookup_filter_Some in Hin as [Hk [Hg Hne]].
  exists e. split_and!; [done|done|done|]. intros k' e' Hk' Hg' Hne'. apply (Hmin k' e').
  by apply elem_of_map_to_list, map_lookup_filter_Some.
Qed.

Lemma victim_None pool t keep k e :
  victim pool t keep = None → pool !! k = Some e → in_group t k = true → k = keep.
Proof.
  intros H%oldest_None Hk Hg. apply map_to_list_empty_iff in H.
  destruct (decide (k = keep)) as [|Hne]; [done|].
  assert (filter (λ e : string * PoolEntry, in_group t e.1 = true ∧ e.1 ≠ keep) pool !! k = Some e) as Hf
    by (by apply map_lookup_filter_Some).
  by rewrite H, lookup_empty in Hf.
Qed.

(** What eviction leaves: at most [max] of the group, everything outside it, the
    entry just resolved, and of the rest the most recently used. *)
Record evicted_to (t keep : string) (max : nat) pool pool' : Prop := {
  ev_sub : pool' ⊆ pool;
  ev_kept : ∀ k, in_group t k = false ∨ k = keep → pool' !! k = pool !! k;
  ev_size : (size (group t pool') ≤ max)%nat;
  ev_lru : ∀ k e k' e', pool !! k = Some e → pool' !! k = None →
    pool' !! k' = Some e' → in_group t k' = true → k' ≠ keep → last_used e ≤ last_used e';
}.

Lemma group_of_keep pool t keep :
  victim pool t keep = None → (size (group t pool) ≤ 1)%nat.
Proof.
  intros Hv. assert (group t pool ⊆ match pool !! keep with Some e => {[keep := e]} | None => ∅ end) as Hs.
  { apply map_subseteq_spec. intros k e [Hk Hg]%group_lookup.
    rewrite <-(victim_None pool t keep k e Hv Hk Hg), Hk. apply lookup_singleton_eq. }
  apply map_subseteq_size in Hs. destruct (pool !! keep).
  - by rewrite map_size_singleton in Hs.
  - rewrite map_size_empty in Hs. lia.
Qed.

Lemma enforce_loop_spec fuel t keep max : (1 ≤ max)%nat → ∀ pool, (size pool < fuel)%nat →
  evicted_to t keep max pool (enforce_loop fuel pool t max keep).
Proof.
  intros Hmax. induction fuel as [|fuel IH]; intros pool Hf; [lia|]. cbn [enforce_loop].
  destruct (Nat.leb_spec (size (group t pool)) max) as [Hle|Hgt].
  { split; [done|done|done|congruence]. }
  destruct (victim pool t keep) as [v|] eqn:Ev.
  2:{ pose proof (group_of_keep pool t keep Ev). lia. }
  destruct (victim_spec pool t keep v Ev) as (e & Hv & Hg & Hne & Hmin).
  destruct (IH (delete v pool)) as [Hsub Hkept Hsize Hlru].
  { rewrite map_size_delete, Hv. pose proof (map_size_ne_0_lookup_2 pool v ltac:(by eexists)).
    simpl. lia. }
  split.
  - etrans; [done|apply delete_subseteq].
  - intros k Hk. rewrite Hkept by done. apply lookup_delete_ne. intros ->. destruct Hk; congruence.
  - done.
  - intros k e0 k' e' Hk Hgone Hk' Hg' Hne'. destruct (decide (k = v)) as [->|Hkv].
    + assert (e0 = e) as -> by congruence. apply (Hmin k' e'); [|done|done].
      eapply lookup_weaken; [exact Hk'|]. etrans; [exact Hsub|apply delete_subseteq].
    + apply (Hlru k e0 k' e'); [by rewrite lookup_delete_ne|done|done|done|done].
Qed.

Lemma enforce_limit_spec pool t max keep :
  (1 ≤ max)%nat → evicted_to t keep max pool (enforce_limit pool t max keep).
Proof. intros Hmax. apply enforce_loop_spec; [done|lia]. Qed.

(** The ceiling is enforced, per backend type and least recently used first: after
    a bind of a backend type its group is within the ceiling, the connection just
    resolved is kept, other backend types lose nothing, and whatever was evicted
    had been used no later than anything of the group that stays. *)
Theorem eviction_is_lru_within_the_limit pool t max keep :
  (1 ≤ max)%nat → evicted_to t keep max pool (enforce_limit pool t max keep).
Proof. apply enforce_limit_spec. Qed.

(** ** Binds at the same time *)

Section concurrent.
Context {Id Policy : Type}.
(** What a backend was made from: the type of its provider and the configuration. *)
Context (origin : Id → string * gmap string string).
Implicit Types (m : Multiplexer Id Policy) (b : Bind).

(** The multiplexer with the binds under way: those waiting for a connection and
    those that have one and still have to enforce the ceiling; and how many
    connects of each type have failed. *)
Record World := {
  mux : Multiplexer Id Policy;
  waiting : gmap nat Bind;
  connected : gmap nat (Bind * Id);
  failed : string → nat;
}.
Implicit Types w : World.

Definition count_failure (f : string → nat) (t : string) : string → nat :=
  λ t', if decide (t' = t) then S (f t') else f t'.

Inductive world_step : World → World → Prop :=
  | ws_begin w n i now b m :
      waiting w !! n = None → begin_bind (mux w) i now = (Ok b, m) →
      world_step w {| mux := m; waiting := <[n := b]> (waiting w); connected := connected w; failed := failed w |}
  | ws_connect w n b outcome id m :
      waiting w !! n = Some b → connected w !! n = None →
      (∀ id', outcome = Some id' → origin id' = (b_type b, b_config b)) →
      connect (mux w) b outcome = (Some id, m) →
      world_step w {| mux := m; waiting := delete n (waiting w);
                      connected := <[n := (b, id)]> (connected w); failed := failed w |}
  | ws_fail w n b :
      waiting w !! n = Some b →
      world_step w {| mux := mux w; waiting := delete n (waiting w); connected := connected w;
                      failed := count_failure (failed w) (b_type b) |}
  | ws_finish w n b id :
      connected w !! n = Some (b, id) →
      world_step w {| mux := finish_bind (mux w) b; waiting := waiting w;
                      connected := delete n (connected w); failed := failed w |}
  | ws_reap w now :
      world_step w {| mux := reap (mux w) now; waiting := waiting w; connected := connected w; failed := failed w |}
  | ws_policy w p :
      world_step w {| mux := configure_egress_policy (mux w) p; waiting := waiting w;
                      connected := connected w; failed := failed w |}.

(** A multiplexer as it is built: its pool empty, the names of its backend types
    free of zero bytes, its ceilings at least one. *)
Record fresh_mux m : Prop := {
  fm_pool : mx_pool m = ∅;
  fm_cells : cells m = ∅;
  fm_types : ∀ t, is_Some (providers m !! t) → lacks "000" t = true;
  fm_max : (1 ≤ max_connections m)%nat;
  fm_max_for : ∀ t n, max_connections_by_backend m !! t = Some n → (1 ≤ n)%nat;
}.

Definition idle_world m : World := {| mux := m; waiting := ∅; connected := ∅; failed := λ _, 0%nat |}.

(** What no step changes. *)
Definition same_setup m m' : Prop :=
  providers m' = providers m ∧ max_connections m' = max_connections m
  ∧ max_connections_by_backend m' = max_connections_by_backend m.

Lemma limit_same m m' t : same_setup m m' → limit_for m' t = limit_for m t.
Proof. intros (_ & H1 & H2). unfold limit_for. by rewrite H1, H2. Qed.

Lemma limit_positive m0 m t : fresh_mux m0 → same_setup m0 m → (1 ≤ limit_for m t)%nat.
Proof.
  intros Hf (_ & H1 & H2). unfold limit_for. rewrite H1, H2.
  destruct (max_connections_by_backend m0 !! t) as [n|] eqn:E; simpl; [by eapply fm_max_for|by apply fm_max].
Qed.

(** A bind that got past its checks: the provider it has, and where it waits. *)
Definition bind_ok m b : Prop :=
  ∃ provider, providers m !! b_type b = Some provider
    ∧ match b_slot b with
      | Some (key, _) => ∃ pk, pool_key provider (b_config b) = Some pk ∧ key = pool_key_of (b_type b) pk
      | None => pool_key provider (b_config b) = None
      end.

Lemma begin_bind_ok m i now b m' :
  begin_bind m i now = (Ok b, m') → bind_ok m b ∧ same_setup m m' ∧ cells m' = cells m
  ∧ match b_slot b with
    | None => m' = m
    | Some (key, c) =>
        mx_pool m' = <[key := {| cell := c; last_used := now |}]> (mx_pool (reap m now))
        ∧ match mx_pool (reap m now) !! key with
          | Some e => c = cell e ∧ next_cell m' = next_cell m
          | None => c = next_cell m ∧ next_cell m' = S (next_cell m)
          end
    end.
Proof.
  unfold begin_bind. destruct (providers m !! backend_type_of m i) as [provider|] eqn:Ep; [|done].
  destruct (match egress m with Some policy => _ | None => _ end); [|done].
  destruct (pool_key provider (config i)) as [pk|] eqn:Ek.
  - destruct (mx_pool (reap m now) !! pool_key_of (backend_type_of m i) pk) as [e|] eqn:El;
      intros [= <- <-]; (split; [exists provider; split; [done|by exists pk]|]);
      split_and!; try done; simpl; simpl in El; by rewrite El.
  - intros [= <- <-]. split; [by exists provider|]. by split_and!.
Qed.

Lemma connect_ok m b outcome id m' :
  connect m b outcome = (Some id, m') →
  same_setup m m' ∧ mx_pool m' = mx_pool m ∧ next_cell m' = next_cell m
  ∧ match b_slot b with
    | None => outcome = Some id ∧ cells m' = cells m
    | Some (_, c) =>
        (cells m !! c = Some id ∧ cells m' = cells m)
        ∨ (cells m !! c = None ∧ outcome = Some id ∧ cells m' = <[c := id]> (cells m))
    end.
Proof.
  unfold connect. destruct (b_slot b) as [[key c]|].
  - destruct (cells m !! c) as [id'|] eqn:E; [intros [= -> <-]; split_and!; by auto|].
    destruct outcome; [|done]. intros [= -> <-]. split_and!; by auto.
  - intros [= -> <-]. by split_and!.
Qed.

(** ** What is shared *)

(** Every cell belongs to one key, and holds a backend made from a configuration
    with that key. *)
Definition cells_keyed w (f : nat → string) : Prop :=
  (∀ key e, mx_pool (mux w) !! key = Some e → f (cell e) = key ∧ (cell e < next_cell (mux w))%nat)
  ∧ (∀ n b key c, waiting w !! n = Some b → b_slot b = Some (key, c) → f c = key ∧ (c < next_cell (mux w))%nat)
  ∧ (∀ c id, cells (mux w) !! c = Some id →
       bind_ok (mux w) {| b_type := (origin id).1; b_config := (origin id).2; b_slot := Some (f c, c) |}
       ∧ (c < next_cell (mux w))%nat).

Definition handed_ok m b (id : Id) : Prop :=
  ∃ provider, providers m !! b_type b = Some provider ∧ (origin id).1 = b_type b
    ∧ pool_key provider (origin id).2 = pool_key provider (b_config b)
    ∧ (pool_key provider (b_config b) = None → (origin id).2 = b_config b).

Record shared_ok m0 w : Prop := {
  so_setup : same_setup m0 (mux w);
  so_waiting : ∀ n b, waiting w !! n = Some b → bind_ok m0 b;
  so_cells : ∃ f, cells_keyed w f;
  so_handed : ∀ n b id, connected w !! n = Some (b, id) → handed_ok m0 b id;
}.

Lemma bind_ok_same m m' b : same_setup m m' → bind_ok m b ↔ bind_ok m' b.
Proof. intros (H1 & _). unfold bind_ok. by rewrite H1. Qed.

Lemma handed_ok_same m m' b id : same_setup m m' → handed_ok m b id ↔ handed_ok m' b id.
Proof. intros (H1 & _). unfold handed_ok. by rewrite H1. Qed.

Lemma same_setup_trans m1 m2 m3 : same_setup m1 m2 → same_setup m2 m3 → same_setup m1 m3.
Proof. intros (?&?&?) (?&?&?). split_and!; congruence. Qed.

Lemma reap_lookup m now key e : mx_pool (reap m now) !! key = Some e → mx_pool m !! key = Some e.
Proof. unfold reap. simpl. unfold reap_idle. by intros [? _]%map_lookup_filter_Some. Qed.

(** The pool shrank and nothing else moved. *)
Lemma shared_shrink m0 w m :
  shared_ok m0 w → same_setup (mux w) m → cells m = cells (mux w) → next_cell m = next_cell (mux w) →
  (∀ key e, mx_pool m !! key = Some e → mx_pool (mux w) !! key = Some e) →
  ∀ waiting' connected' failed',
  (∀ n b, waiting' !! n = Some b → waiting w !! n = Some b) →
  (∀ n x, connected' !! n = Some x → connected w !! n = Some x) →
  shared_ok m0 {| mux := m; waiting := waiting'; connected := connected'; failed := failed' |}.
Proof.
  intros [Hset Hw [f (F1 & F2 & F3)] Hh] Hs Hc Hn Hp wt ct ff Hwt Hct.
  split; simpl; [by eapply same_setup_trans|eauto| |eauto].
  exists f. split_and!; simpl; rewrite ?Hn, ?Hc; [eauto|eauto|].
  intros c id Hid. destruct (F3 c id Hid) as [Hb ?]. split; [|done]. by apply (bind_ok_same (mux w)).
Qed.

Lemma begin_shared m0 w n i now b m :
  shared_ok m0 w → waiting w !! n = None → begin_bind (mux w) i now = (Ok b, m) →
  shared_ok m0 {| mux := m; waiting := <[n := b]> (waiting w); connected := connected w; failed := failed w |}.
Proof.
  intros [Hset Hw [f (F1 & F2 & F3)] Hh] Hn (Hb & Hs & Hc & Hslot)%begin_bind_ok.
  assert (∀ n' b', <[n := b]> (waiting w) !! n' = Some b' → b' = b ∨ waiting w !! n' = Some b') as Hins.
  { intros n' b'. destruct (decide (n' = n)) as [->|]; [rewrite lookup_insert_eq|rewrite lookup_insert_ne by done];
      [intros [= <-]; by left|by right]. }
  split; simpl; [by eapply same_setup_trans| |..|done].
  - intros n' b' [->|Hb']%Hins; [by apply (bind_ok_same m0 (mux w))|eauto].
  - destruct (b_slot b) as [[key c]|] eqn:Es.
    2:{ subst m. exists f. split_and!; simpl; [done| |done].
        intros n' b' key c [->|Hb']%Hins Hk; [congruence|eauto]. }
    destruct Hslot as [Hpool Hcell].
    set (f' := λ x, if decide (x = c) then key else f x). exists f'.
    assert (∀ x, f x = key → f' x = key) as Hf1 by (intros x Hx; unfold f'; by case_decide).
    assert (∀ x, (x < next_cell (mux w))%nat → f' x = f x ∧ (x < next_cell m)%nat) as Hold.
    { intros x Hx. unfold f'. destruct (mx_pool (reap (mux w) now) !! key) as [e|] eqn:El.
      - destruct Hcell as [-> ->]. apply reap_lookup in El. destruct (F1 key e El) as [Hk _].
        split; [|done]. case_decide; congruence.
      - destruct Hcell as [-> ->]. split; [|lia]. case_decide; [lia|done]. }
    assert (f' c = key ∧ (c < next_cell m)%nat) as Hnew.
    { unfold f'. rewrite decide_True by done. split; [done|].
      destruct (mx_pool (reap (mux w) now) !! key) as [e|] eqn:El.
      - destruct Hcell as [-> ->]. apply reap_lookup in El. by destruct (F1 key e El).
      - destruct Hcell as [-> ->]. lia. }
    split_and!; simpl.
    + intros key' e'. rewrite Hpool. destruct (decide (key' = key)) as [->|Hne].
      * rewrite lookup_insert_eq. intros [= <-]. done.
      * rewrite lookup_insert_ne by done. intros Hk%reap_lookup. destruct (F1 key' e' Hk) as [Hk1 Hk2].
        destruct (Hold _ Hk2) as [-> ?]. done.
    + intros n' b' key' c' [->|Hb']%Hins Hk; [congruence|]. destruct (F2 n' b' key' c' Hb' Hk) as [Hk1 Hk2].
      destruct (Hold _ Hk2) as [-> ?]. done.
    + intros c' id. rewrite Hc. intros Hid. destruct (F3 c' id Hid) as [Hok Hlt].
      destruct (Hold _ Hlt) as [-> ?]. split; [|done]. by apply (bind_ok_same (mux w)).
Qed.

Lemma same_pool_key m b id c key :
  (∀ t, is_Some (providers m !! t) → lacks "000" t = true) →
  bind_ok m b → b_slot b = Some (key, c) →
  bind_ok m {| b_type := (origin id).1; b_config := (origin id).2; b_slot := Some (key, c) |} →
  handed_ok m b id.
Proof.
  intros Ht (pv & Hpv & Hb) Hs (pv' & Hpv' & Hid). rewrite Hs in Hb. simpl in *.
  destruct Hb as (pk & Hpk & ->), Hid as (pk' & Hpk' & Hkey).
  apply pool_key_inj in Hkey as [Ht' <-]; [|by apply Ht; eexists|by apply Ht; eexists].
  rewrite <-Ht' in Hpv'. assert (pv' = pv) as -> by congruence.
  exists pv. split_and!; [done|done|congruence|congruence].
Qed.

Lemma connect_shared m0 w n b outcome id m :
  fresh_mux m0 → shared_ok m0 w → waiting w !! n = Some b →
  (∀ id', outcome = Some id' → origin id' = (b_type b, b_config b)) →
  connect (mux w) b outcome = (Some id, m) →
  shared_ok m0 {| mux := m; waiting := delete n (waiting w);
                  connected := <[n := (b, id)]> (connected w); failed := failed w |}.
Proof.
  intros Hf [Hset Hw [f (F1 & F2 & F3)] Hh] Hn Hor (Hs & Hp & Hnx & Hc)%connect_ok.
  pose proof (Hw n b Hn) as Hb.
  assert (∀ key c, b_slot b = Some (key, c) → origin id = (b_type b, b_config b) →
    bind_ok m0 {| b_type := (origin id).1; b_config := (origin id).2; b_slot := Some (key, c) |}) as Hmade.
  { intros key c Hk ->. destruct Hb as (pv & Hpv & Hb). exists pv. rewrite Hk in Hb. done. }
  assert (handed_ok m0 b id) as Hgot.
  { destruct (b_slot b) as [[key c]|] eqn:Es.
    - apply (same_pool_key m0 b id c key); [by apply fm_types|done|done|].
      destruct Hc as [[Hid _]|(_ & Hid & _)].
      + destruct (F3 c id Hid) as [Hok _]. destruct (F2 n b key c Hn Es) as [Hk _]. rewrite Hk in Hok.
        by apply (bind_ok_same m0 (mux w)).
      + apply Hmade; [done|by apply Hor].
    - destruct Hc as [Ho _]. destruct Hb as (pv & Hpv & Hb). rewrite Es in Hb.
      exists pv. rewrite (Hor id Ho). by split_and!. }
  split; simpl; [by eapply same_setup_trans| | |].
  - intros n' b' [_ Hn']%lookup_delete_Some. eauto.
  - exists f. split_and!; simpl; rewrite ?Hp, ?Hnx; [done| |].
    + intros n' b' key c [_ Hn']%lookup_delete_Some. eauto.
    + intros c' id'. destruct (b_slot b) as [[key c]|] eqn:Es.
      * destruct Hc as [[_ ->]|(_ & Hid & ->)].
        -- intros Hid'. destruct (F3 c' id' Hid') as [Hok ?]. split; [|done]. by apply (bind_ok_same (mux w)).
        -- destruct (decide (c' = c)) as [->|].
           ++ rewrite lookup_insert_eq. intros [= <-]. destruct (F2 n b key c Hn Es) as [Hk ?].
              split; [|done]. rewrite Hk. apply (bind_ok_same m0); [by eapply same_setup_trans|].
              apply Hmade; [done|by apply Hor].
           ++ rewrite lookup_insert_ne by done. intros Hid'. destruct (F3 c' id' Hid') as [Hok ?].
              split; [|done]. by apply (bind_ok_same (mux w)).
      * destruct Hc as [_ ->]. intros Hid'. destruct (F3 c' id' Hid') as [Hok ?]. split; [|done].
        by apply (bind_ok_same (mux w)).
  - intros n' b' id'. destruct (decide (n' = n)) as [->|]; [rewrite lookup_insert_eq|rewrite lookup_insert_ne by done];
      [by intros [= <- <-]|eauto].
Qed.

Lemma finish_lookup m b key e : mx_pool (finish_bind m b) !! key = Some e → (1 ≤ limit_for m (b_type b))%nat →
  mx_pool m !! key = Some e.
Proof.
  unfold finish_bind. destruct (b_slot b) as [[k c]|]; [|done]. simpl. intros Hk Hl.
  eapply lookup_weaken; [exact Hk|]. by apply (ev_sub (b_type b) k (limit_for m (b_type b))), enforce_limit_spec.
Qed.

Lemma step_shared m0 w w' : fresh_mux m0 → shared_ok m0 w → world_step w w' → shared_ok m0 w'.
Proof.
  intros Hf Hok Hs. destruct Hs as [w n i now b m Hn Hb|w n b outcome id m Hn _ Hor Hc|w n b Hn|w n b id Hn|w now|w p].
  - by eapply begin_shared.
  - by eapply connect_shared.
  - eapply shared_shrink; try done. by intros n' b' [_ ?]%lookup_delete_Some.
  - pose proof (so_setup _ _ Hok) as Hset.
    eapply shared_shrink; try done.
    + unfold finish_bind. by destruct (b_slot b) as [[??]|].
    + unfold finish_bind. by destruct (b_slot b) as [[??]|].
    + unfold finish_bind. by destruct (b_slot b) as [[??]|].
    + intros key e Hk. eapply finish_lookup; [exact Hk|by eapply limit_positive].
    + by intros n' x [_ ?]%lookup_delete_Some.
  - eapply shared_shrink; try done. apply reap_lookup.
  - by eapply shared_shrink.
Qed.

Lemma fresh_shared m0 : fresh_mux m0 → shared_ok m0 (idle_world m0).
Proof.
  intros Hf. split; simpl; [done|by intros n b; rewrite lookup_empty| |by intros n b id; rewrite lookup_empty].
  exists (λ _, ""). split_and!; simpl; [rewrite fm_pool by done|..|rewrite fm_cells by done];
    intros *; by rewrite lookup_empty.
Qed.

Lemma reachable_shared m0 w : fresh_mux m0 → rtc world_step (idle_world m0) w → shared_ok m0 w.
Proof.
  intros Hf. pose proof (fresh_shared m0 Hf) as H0. revert H0. generalize (idle_world m0) as w0.
  intros w0 H0 Hr. induction Hr as [|w0 w1 w2 Hs _ IH]; [done|]. by eapply IH, step_shared.
Qed.

(** A connection is shared only between equal configurations.  Whatever binds run
    at the same time, connect, fail and evict each other, the backend a bind ends
    up with was made by the provider it asked for, from a configuration with the
    same pool key as its own, and from its very own configuration if its provider
    does not pool. *)
Theorem bind_shares_equal_keys m0 w n b id :
  fresh_mux m0 → rtc world_step (idle_world m0) w → connected w !! n = Some (b, id) →
  ∃ provider, providers m0 !! b_type b = Some provider ∧ (origin id).1 = b_type b
    ∧ pool_key provider (origin id).2 = pool_key provider (b_config b)
    ∧ (pool_key provider (b_config b) = None → (origin id).2 = b_config b).
Proof. intros Hf Hr Hn. destruct (reachable_shared m0 w Hf Hr) as [_ _ _ Hh]. exact (Hh n b id Hn). Qed.

(** ** How large the pool gets *)

(** Binds of a type that may have put an entry into the pool. *)
Definition pooling (t : string) (b : Bind) : Prop := b_type b = t ∧ is_some (b_slot b) = true.
#[local] Instance pooling_dec t b : Decision (pooling t b) := _.
Definition under_way w (t : string) : nat :=
  (size (filter (λ nb, pooling t nb.2) (waiting w)) + size (filter (λ nb, pooling t nb.2.1) (connected w)))%nat.

Definition bounded w : Prop :=
  ∀ t, lacks "000" t = true →
  (size (group t (mx_pool (mux w))) ≤ limit_for (mux w) t + under_way w t + failed w t)%nat.

Lemma reap_sub m now : mx_pool (reap m now) ⊆ mx_pool m.
Proof. apply map_subseteq_spec. apply reap_lookup. Qed.

Lemma begin_bounded m0 w n i now b m :
  fresh_mux m0 → shared_ok m0 w → bounded w → waiting w !! n = None → begin_bind (mux w) i now = (Ok b, m) →
  bounded {| mux := m; waiting := <[n := b]> (waiting w); connected := connected w; failed := failed w |}.
Proof.
  intros Hf Hok Hbd Hn (Hb & Hs & _ & Hslot)%begin_bind_ok t Ht. specialize (Hbd t Ht).
  unfold under_way in *. simpl. rewrite (limit_same _ _ t Hs), size_filter_insert by done. simpl.
  destruct (b_slot b) as [[key c]|] eqn:Es; [|subst m; lia]. destruct Hslot as [-> _].
  pose proof (group_mono t _ _ (reap_sub (mux w) now)) as Hm.
  pose proof (group_insert_size t (mx_pool (reap (mux w) now)) key {| cell := c; last_used := now |}) as Hi.
  destruct Hb as (pv & Hpv & Hb). rewrite Es in Hb. destruct Hb as (pk & _ & ->).
  destruct Hok as [[Hpr _] _ _ _]. rewrite Hpr in Hpv.
  rewrite in_group_key in Hi; [|done|by eapply fm_types; [|eexists]].
  case_bool_decide as Hty; [|destruct (decide (pooling t b)); lia].
  rewrite decide_True by (split; [done|by rewrite Es]). lia.
Qed.

Lemma step_bounded m0 w w' :
  fresh_mux m0 → shared_ok m0 w → bounded w → world_step w w' → bounded w'.
Proof.
  intros Hf Hok Hbd Hs.
  destruct Hs as [w n i now b m Hn Hb|w n b outcome id m Hn Hcn _ Hc|w n b Hn|w n b id Hn|w now|w p];
    [by eapply begin_bounded|intros t Ht; specialize (Hbd t Ht); unfold under_way in *; simpl..].
  - apply connect_ok in Hc as (Hset & -> & _). rewrite (limit_same _ _ t Hset).
    rewrite (size_filter_delete _ _ n b Hn) in Hbd. rewrite size_filter_insert by done. simpl in *. lia.
  - rewrite (size_filter_delete _ _ n b Hn) in Hbd. simpl in Hbd. unfold count_failure.
    destruct (decide (t = b_type b)) as [Ht'|Hne]; [destruct (decide (pooling t b)); lia|].
    rewrite decide_False in Hbd; [lia|]. intros [? _]. congruence.
  - rewrite (size_filter_delete _ _ n (b, id) Hn) in Hbd. simpl in Hbd. unfold finish_bind.
    destruct (b_slot b) as [[key c]|] eqn:Es.
    2:{ rewrite decide_False in Hbd; [lia|]. intros [_ H]. by rewrite Es in H. }
    simpl. change (limit_for (with_pool (mux w) _) t) with (limit_for (mux w) t).
    destruct (enforce_limit_spec (mx_pool (mux w)) (b_type b) (limit_for (mux w) (b_type b)) key)
      as [Hsub _ Hsz _]; [eapply limit_positive; [done|apply (so_setup _ _ Hok)]|].
    destruct (decide (t = b_type b)) as [->|Hne]; [lia|].
    rewrite decide_False in Hbd; [|intros [? _]; congruence].
    pose proof (group_mono t _ _ Hsub). lia.
  - exact (Nat.le_trans _ _ _ (group_mono t _ _ (reap_sub (mux w) now)) Hbd).
  - done.
Qed.

(** The pool is bounded by its ceiling, the binds under way and the connects that
    failed: in every history the entries of one backend type are no more than
    these together, so once every bind of a type has gone through they are within
    the ceiling. *)
Theorem pool_is_bounded_but_for_failures m0 w t :
  fresh_mux m0 → rtc world_step (idle_world m0) w → lacks "000" t = true →
  (size (group t (mx_pool (mux w))) ≤ limit_for m0 t + under_way w t + failed w t)%nat.
Proof.
  intros Hf Hr Ht. assert (shared_ok m0 w ∧ bounded w) as [Hok Hbd].
  { assert (shared_ok m0 (idle_world m0) ∧ bounded (idle_world m0)) as H0.
    { split; [by apply fresh_shared|]. intros t' _. simpl. rewrite fm_pool by done.
      unfold group. rewrite map_filter_empty, map_size_empty. lia. }
    revert H0. induction Hr as [w0|w0 w1 w2 Hs _ IH]; [done|]. intros [H1 H2].
    apply IH. split; [by eapply step_shared|by eapply step_bounded]. }
  rewrite <-(limit_same m0 (mux w)) by (apply Hok). by apply Hbd.
Qed.

(** ** Routing *)

(** The interfaces of this multiplexer's package. *)
Definition ours m (i : WitInterface) : Prop := namespace i = mx_namespace m ∧ package i = mx_package m.

Lemma instantiate_names m i now outcome r m' :
  instantiate m i now outcome = (r, m') → mx_namespace m' = mx_namespace m ∧ mx_package m' = mx_package m.
Proof.
  unfold instantiate. destruct (begin_bind m i now) as [[b|e] m1] eqn:Eb.
  - assert (mx_namespace m1 = mx_namespace m ∧ mx_package m1 = mx_package m) as [<- <-].
    { unfold begin_bind in Eb. repeat case_match; simplify_eq; done. }
    destruct (connect m1 b outcome) as [[id|] m2] eqn:Ec; intros [= <- <-];
      unfold connect in Ec; unfold finish_bind; repeat case_match; simplify_eq; done.
  - intros [= <- <-]. unfold begin_bind in Eb. repeat case_match; simplify_eq; done.
Qed.

Lemma build_registry_routes ifaces now : ∀ m outcomes registry registry' m',
  build_registry m ifaces now outcomes registry = (Ok registry', m') →
  ∀ label, is_Some (registry' !! label) ↔
    is_Some (registry !! label) ∨ ∃ i, i ∈ ifaces ∧ ours m i ∧ default "" (name i) = label.
Proof.
  induction ifaces as [|i ifaces IH]; intros m outcomes registry registry' m'; cbn [build_registry].
  { intros [= <- <-] label. split; [by left|]. intros [H|(i & H & _)]; [done|by apply not_elem_of_nil in H]. }
  destruct (negb _ || negb _) eqn:Eo.
  - intros Hb label. rewrite (IH _ _ _ _ _ Hb label). apply or_iff_compat_l.
    assert (¬ ours m i) as Hn.
    { intros [Hns Hpk]. rewrite !bool_decide_eq_true_2 in Eo by done. done. }
    split; intros (j & Hj & Ho & Hl).
    + exists j. split; [apply elem_of_cons; by right|done].
    + apply elem_of_cons in Hj as [->|Hj]; [done|by exists j].
  - bools. destruct (instantiate m i now _) as [[id|e] m1] eqn:Ei; [|done].
    intros Hb label. rewrite (IH _ _ _ _ _ Hb label).
    destruct (instantiate_names _ _ _ _ _ _ Ei) as [Hns Hpk]. unfold ours. rewrite Hns, Hpk. split.
    + intros [Hl|(j & Hj & Ho & Hl)]; [|right; exists j; split; [apply elem_of_cons; by right|done]].
      destruct (decide (label = default "" (name i))) as [->|Hne].
      * right. exists i. split_and!; [apply elem_of_cons; by left|done|done|done].
      * rewrite lookup_insert_ne in Hl by done. by left.
    + intros [Hl|(j & Hj & Ho & Hl)].
      * left. destruct (decide (label = default "" (name i))) as [->|Hne];
          [rewrite lookup_insert_eq; by eexists|by rewrite lookup_insert_ne].
      * apply elem_of_cons in Hj as [->|Hj]; [left; subst; rewrite lookup_insert_eq; by eexists|right; by exists j].
Qed.

(** The registry a build makes routes a name only to a backend bound for an
    interface of this package that carries it, and resolves no name that no
    interface carries: an import with an unknown label is refused, never sent to
    the default. *)
Theorem unknown_label_is_refused m ifaces now outcomes registry m' label :
  build_registry m ifaces now outcomes ∅ = (Ok registry, m') →
  resolve registry label = None ↔ ∀ i, i ∈ ifaces → ours m i → default "" (name i) ≠ label.
Proof.
  intros Hb. unfold resolve. rewrite eq_None_not_Some, (build_registry_routes _ _ _ _ _ _ _ Hb label).
  rewrite lookup_empty. split.
  - intros Hn i Hi Ho Hl. apply Hn. right. by exists i.
  - intros Hn [[? H]|(i & Hi & Ho & Hl)]; [done|by apply (Hn i)].
Qed.
End concurrent.
Arguments World Id Policy : clear implicits.

(** ** Two histories *)

(** A multiplexer with one pooling backend type, keyed by its url; a backend is
    what it was made from and a number. *)
Abbreviation Made := ((string * gmap string string) * nat)%type.
Definition redis_provider : Provider unit :=
  {| check_egress := λ _ _, Ok tt; pool_key := λ config, config !! "url" |}.
Definition redis_mux (max : nat) : Multiplexer Made unit :=
  with_max_connections (with_provider (new "wasi" "keyvalue" "redis") "redis" redis_provider) max.
Definition redis_at (url : string) : WitInterface :=
  {| namespace := "wasi"; package := "keyvalue"; interfaces := {["store"]}; version := None;
     config := {["url" := url]}; name := None |}.
Abbreviation redis_step := (world_step (Policy := unit) (fst : Made → _)).

Lemma redis_fresh max : fresh_mux (redis_mux max).
Proof.
  split; [done|done|..].
  - intros t Ht. destruct (decide (t = "redis")) as [->|Hne]; [done|].
    destruct Ht as [p Hp]. simpl in Hp. by rewrite lookup_insert_ne in Hp.
  - simpl. lia.
  - intros t n. simpl. by rewrite lookup_empty.
Qed.

(** Distinct urls. *)
Fixpoint exes (n : nat) : string := match n with O => "" | S n => String "x" (exes n) end.
Lemma exes_inj n n' : exes n = exes n' → n = n'.
Proof. revert n'. induction n as [|n IH]; intros [|n']; try done. intros [= H]. f_equal. by apply IH. Qed.

Lemma reap_uninitialized m now : cells (Id := Made) (Policy := unit) m = ∅ → mx_pool (reap m now) = mx_pool m.
Proof.
  intros Hc. unfold reap. simpl. unfold reap_idle. apply map_filter_id. intros k e _.
  unfold is_initialized. rewrite Hc, lookup_empty. done.
Qed.

(** The state after [n] failed binds to [n] different urls. *)
Record only_failures (n : nat) (w : World Made unit) : Prop := {
  of_setup : default_backend_type (mux w) = "redis" ∧ providers (mux w) !! "redis" = Some redis_provider
    ∧ egress (mux w) = None ∧ cells (mux w) = ∅;
  of_idle : waiting w = ∅ ∧ connected w = ∅;
  of_size : size (mx_pool (mux w)) = n;
  of_keys : ∀ k, is_Some (mx_pool (mux w) !! k) → ∃ j, (j < n)%nat ∧ k = pool_key_of "redis" (exes j);
}.

Lemma fail_once n w : only_failures n w → ∃ w', rtc redis_step w w' ∧ only_failures (S n) w'.
Proof.
  intros [(Hd & Hp & He & Hc) [Hw Hcn] Hs Hk].
  set (key := pool_key_of "redis" (exes n)).
  assert (mx_pool (mux w) !! key = None) as Hnew.
  { destruct (mx_pool (mux w) !! key) as [e|] eqn:E; [|done].
    destruct (Hk key ltac:(by eexists)) as (j & Hj & Hkey).
    apply pool_key_inj in Hkey as [_ Hj']; [|done|done]. apply exes_inj in Hj'. lia. }
  set (b := {| b_type := "redis"; b_config := {["url" := exes n]}; b_slot := Some (key, next_cell (mux w)) |}).
  set (m := with_pool (with_cells (reap (mux w) 0) ∅ (S (next_cell (mux w))))
              (<[key := {| cell := next_cell (mux w); last_used := 0 |}]> (mx_pool (mux w)))).
  assert (begin_bind (mux w) (redis_at (exes n)) 0 = (Ok b, m)) as Hb.
  { unfold begin_bind. assert (backend_type_of (mux w) (redis_at (exes n)) = "redis") as ->
      by (unfold backend_type_of; by rewrite Hd).
    rewrite Hp, He. cbn [pool_key redis_provider config redis_at].
    rewrite lookup_singleton_eq. fold key. rewrite reap_uninitialized by done. rewrite Hnew.
    unfold b, m. simpl. rewrite Hc. by rewrite (reap_uninitialized (mux w) 0 Hc : reap_idle _ _ _ _ = _). }
  eexists. split.
  - eapply rtc_l; [by eapply (ws_begin _ w 0 _ 0 b m); [rewrite Hw; apply lookup_empty|]|].
    eapply rtc_l; [eapply (ws_fail _ _ 0 b); simpl; apply lookup_insert_eq|]. apply rtc_refl.
  - split; simpl; [done|..].
    + split; [|done]. rewrite Hw. apply delete_insert_id, lookup_empty.
    + rewrite map_size_insert_None by done. by rewrite Hs.
    + intros k [e He']. destruct (decide (k = key)) as [->|Hne]; [exists n; split; [lia|done]|].
      rewrite lookup_insert_ne in He' by done. destruct (Hk k ltac:(by eexists)) as (j & ? & ?).
      exists j. split; [lia|done].
Qed.

(** Failed connects pile up: for every [n] there is a history after which no bind
    is under way, no connection was ever made, the pool holds [n] entries of a
    backend type whose ceiling is one, and no reaping, however late, removes
    any. *)
Theorem failed_binds_pile_up n :
  ∃ w, rtc redis_step (idle_world (redis_mux 1)) w ∧ waiting w = ∅ ∧ connected w = ∅
    ∧ size (mx_pool (mux w)) = n ∧ ∀ now, mx_pool (reap (mux w) now) = mx_pool (mux w).
Proof.
  assert (∃ w, rtc redis_step (idle_world (redis_mux 1)) w ∧ only_failures n w) as (w & Hr & Hw).
  { induction n as [|n (w & Hr & Hw)].
    - eexists. split; [apply rtc_refl|]. split; [done|done|done|]. intros k [e He]. simpl in He. by rewrite lookup_empty in He.
    - destruct (fail_once n w Hw) as (w' & Hr' & Hw'). exists w'. split; [by etrans|done]. }
  exists w. destruct Hw as [(_ & _ & _ & Hc) [? ?] ? _]. split_and!; try done.
  intros now. by apply reap_uninitialized.
Qed.

(** The steps as functions of the state, for concrete runs. *)
Definition after_begin (w : World Made unit) (n : nat) (i : WitInterface) (now : Z) (b : Bind) : World Made unit :=
  {| mux := (begin_bind (mux w) i now).2; waiting := <[n := b]> (waiting w); connected := connected w;
     failed := failed w |}.
Definition after_connect (w : World Made unit) (n : nat) (b : Bind) (outcome : option Made) (id : Made) : World Made unit :=
  {| mux := (connect (mux w) b outcome).2; waiting := delete n (waiting w);
     connected := <[n := (b, id)]> (connected w); failed := failed w |}.
Definition after_finish (w : World Made unit) (n : nat) (b : Bind) : World Made unit :=
  {| mux := finish_bind (mux w) b; waiting := waiting w; connected := delete n (connected w);
     failed := failed w |}.

Lemma run_begin w n i now b w' :
  waiting w !! n = None → (begin_bind (mux w) i now).1 = Ok b →
  rtc redis_step (after_begin w n i now b) w' → rtc redis_step w w'.
Proof.
  intros Hn Hb. apply rtc_l. apply (ws_begin _ w n i now); [done|].
  rewrite <-Hb. apply surjective_pairing.
Qed.

Lemma run_connect w n b outcome id w' :
  waiting w !! n = Some b → connected w !! n = None →
  (∀ id', outcome = Some id' → id'.1 = (b_type b, b_config b)) → (connect (mux w) b outcome).1 = Some id →
  rtc redis_step (after_connect w n b outcome id) w' → rtc redis_step w w'.
Proof.
  intros Hn Hc Ho Hid. apply rtc_l. eapply (ws_connect _ w n b outcome id); try done.
  rewrite <-Hid. apply surjective_pairing.
Qed.

Definition bind_to (url : string) (c : nat) : Bind :=
  {| b_type := "redis"; b_config := {["url" := url]}; b_slot := Some (pool_key_of "redis" url, c) |}.
Definition made_for (url : string) : Made := (("redis", {["url" := url]}), 7%nat).

Definition split_flight : World Made unit :=
  let w := after_begin (idle_world (redis_mux 1)) 0 (redis_at "a") 1 (bind_to "a" 0) in
  let w := after_begin w 1 (redis_at "b") 2 (bind_to "b" 1) in
  let w := after_connect w 1 (bind_to "b" 1) (Some (made_for "b")) (made_for "b") in
  let w := after_finish w 1 (bind_to "b" 1) in
  after_begin w 2 (redis_at "a") 3 (bind_to "a" 2).

Lemma split_flight_reached : rtc redis_step (idle_world (redis_mux 1)) split_flight.
Proof.
  eapply (run_begin _ 0 (redis_at "a") 1 (bind_to "a" 0)); [vm_compute; reflexivity..|].
  eapply (run_begin _ 1 (redis_at "b") 2 (bind_to "b" 1)); [vm_compute; reflexivity..|].
  eapply (run_connect _ 1 (bind_to "b" 1) (Some (made_for "b")) (made_for "b"));
    [vm_compute; reflexivity..|by intros ? [= <-]|vm_compute; reflexivity|].
  eapply rtc_l; [apply (ws_finish _ _ 1 (bind_to "b" 1) (made_for "b")); vm_compute; reflexivity|].
  eapply (run_begin _ 2 (redis_at "a") 3 (bind_to "a" 2)); [vm_compute; reflexivity..|].
  apply rtc_refl.
Qed.

(** One flight becomes two: with a ceiling of one, a bind is waiting for its
    connection when a bind of another url goes through and evicts its entry; a
    third bind, of the first url, finds no entry, and two binds of one key now wait
    on different cells, so two connections are opened for it. *)
Theorem eviction_splits_a_flight :
  ∃ w key c c' b b', rtc redis_step (idle_world (redis_mux 1)) w
    ∧ waiting w !! 0%nat = Some b ∧ waiting w !! 2%nat = Some b'
    ∧ b_slot b = Some (key, c) ∧ b_slot b' = Some (key, c') ∧ c ≠ c'
    ∧ cells (mux w) !! c = None ∧ cells (mux w) !! c' = None.
Proof.
  exists split_flight, (pool_key_of "redis" "a"), 0%nat, 2%nat, (bind_to "a" 0), (bind_to "a" 2).
  split; [apply split_flight_reached|]. split_and!; try (vm_compute; reflexivity). discriminate.
Qed.

(** ** The theorems at work *)

Lemma eviction_is_lru_within_the_limit_witness :
  let pool := {[pool_key_of "redis" "a" := {| cell := 0; last_used := 5 |};
                pool_key_of "redis" "b" := {| cell := 1; last_used := 3 |};
                pool_key_of "nats" "c" := {| cell := 2; last_used := 1 |}]} : Pool in
  evicted_to "redis" (pool_key_of "redis" "a") 1 pool
    (enforce_limit pool "redis" 1 (pool_key_of "redis" "a"))
  ∧ enforce_limit pool "redis" 1 (pool_key_of "redis" "a")
    = {[pool_key_of "redis" "a" := {| cell := 0; last_used := 5 |};
        pool_key_of "nats" "c" := {| cell := 2; last_used := 1 |}]}.
Proof.
  intros pool. split; [|vm_compute; reflexivity].
  apply (eviction_is_lru_within_the_limit pool "redis" 1 (pool_key_of "redis" "a")). lia.
Defined.

(** Two binds of one url: the second gets the connection the first made. *)
Definition two_binds : World Made unit :=
  let w := after_begin (idle_world (redis_mux 1)) 0 (redis_at "a") 1 (bind_to "a" 0) in
  let w := after_begin w 1 (redis_at "a") 2 (bind_to "a" 0) in
  let w := after_connect w 0 (bind_to "a" 0) (Some (made_for "a")) (made_for "a") in
  after_connect w 1 (bind_to "a" 0) None (made_for "a").

Lemma two_binds_reached : rtc redis_step (idle_world (redis_mux 1)) two_binds.
Proof.
  eapply (run_begin _ 0 (redis_at "a") 1 (bind_to "a" 0)); [vm_compute; reflexivity..|].
  eapply (run_begin _ 1 (redis_at "a") 2 (bind_to "a" 0)); [vm_compute; reflexivity..|].
  eapply (run_connect _ 0 (bind_to "a" 0) (Some (made_for "a")) (made_for "a"));
    [vm_compute; reflexivity..|by intros ? [= <-]|vm_compute; reflexivity|].
  eapply (run_connect _ 1 (bind_to "a" 0) None (made_for "a"));
    [vm_compute; reflexivity..|done|vm_compute; reflexivity|].
  apply rtc_refl.
Qed.

Lemma bind_shares_equal_keys_witness :
  ∃ provider, providers (redis_mux 1) !! "redis" = Some provider
    ∧ pool_key provider (made_for "a").1.2 = pool_key provider {["url" := "a"]}.
Proof.
  destruct (bind_shares_equal_keys fst (redis_mux 1) two_binds 1 (bind_to "a" 0) (made_for "a")
    (redis_fresh 1) two_binds_reached) as (p & Hp & _ & Hk & _); [vm_compute; reflexivity|].
  exists p. split; [exact Hp|exact Hk].
Defined.

Lemma pool_is_bounded_but_for_failures_witness :
  (size (group "redis" (mx_pool (mux split_flight))) ≤ 1 + 2 + 0)%nat.
Proof.
  exact (pool_is_bounded_but_for_failures fst (redis_mux 1) split_flight "redis" (redis_fresh 1)
           split_flight_reached eq_refl).
Defined.

Lemma unknown_label_is_refused_witness :
  ∃ registry m', build_registry (redis_mux 1) [redis_at "a"] 0 [Some (made_for "a")] ∅ = (Ok registry, m')
    ∧ (resolve registry "team-b" = None ↔
       ∀ i, i ∈ [redis_at "a"] → ours (redis_mux 1) i → default "" (name i) ≠ "team-b").
Proof.
  destruct (build_registry (redis_mux 1) [redis_at "a"] 0 [Some (made_for "a")] ∅) as [[registry|e] m'] eqn:E;
    [|vm_compute in E; discriminate E].
  exists registry, m'. split; [reflexivity|].
  exact (unknown_label_is_refused (redis_mux 1) [redis_at "a"] 0 [Some (made_for "a")] registry m' "team-b" E).
Defined.
