(* ===== verification/BlobMemory.v ===== *)
(** * The in-memory blob store plugin

    [plugin/wasi_blobstore/in_memory.rs]: [wasi:blobstore] served from the host's own
    memory.  [storage] is shared and keyed by workload; a guest's resource table
    holds containers, values on their way out and in, and listings.  [None] is a
    trap: a handle the guest does not hold, or holds as something else.  The pipe a
    guest writes an object's body into belongs to wasmtime, which also bounds it; a
    value on its way out has the bytes its pipe holds, and what they have become
    after the guest wrote is the argument of [write_body]. *)

From Stdlib Require Import ZArith Lia.
From stdpp Require Import base list gmap strings option sorting.
From S2P Require Import Prelude RustStr HostMemory StoreLib.
Local Open Scope Z_scope.

Record ObjectData := { o_name : string; o_container : string; o_data : list Z; o_created_at : Z }.
Record ContainerData := { c_name : string; c_created_at : Z; objects : gmap string ObjectData }.

Abbreviation BlobStorage := (gmap string (gmap string ContainerData)).

(** Messages are the errors. *)
Inductive BlobError :=
  | ContainerExists (name : string) | NoContainer (name : string) | NoObject (name : string)
  | NoSourceContainer (name : string) | NoSourceObject (name : string) | NoDestContainer (name : string).

Record OutgoingValueHandle := { pipe : list Z; out_container : option string; out_object : option string }.
Record StreamObjectNamesHandle := { names : list string; position : Z }.

Inductive Resource :=
  | RContainer (name : string)
  | RNames (h : StreamObjectNamesHandle)
  | RIncoming (data : list Z)
  | ROutgoing (h : OutgoingValueHandle).

Record Guest := { workload_id : string; table : gmap nat Resource }.
Record ObjectId := { id_container : string; id_object : string }.
Implicit Types (st : BlobStorage) (g : Guest).

Definition set_table g (t : gmap nat Resource) : Guest := {| workload_id := workload_id g; table := t |}.
Definition mine st g : gmap string ContainerData := workload_storage st (workload_id g).
Definition keep st g (ws : gmap string ContainerData) : BlobStorage := write_back st (workload_id g) ws.

Definition container_of g (rep : nat) : option string :=
  match table g !! rep with Some (RContainer name) => Some name | _ => None end.
Definition outgoing_of g (rep : nat) : option OutgoingValueHandle :=
  match table g !! rep with Some (ROutgoing h) => Some h | _ => None end.
Definition incoming_of g (rep : nat) : option (list Z) :=
  match table g !! rep with Some (RIncoming d) => Some d | _ => None end.
Definition names_of g (rep : nat) : option StreamObjectNamesHandle :=
  match table g !! rep with Some (RNames h) => Some h | _ => None end.

(** ** [blobstore] *)

Definition create_container st g (rep : nat) (name : string) (now : Z) :
    result unit BlobError * BlobStorage * Guest :=
  match mine st g !! name with
  | Some _ => (Err (ContainerExists name), st, g)
  | None =>
      (Ok tt,
       keep st g (<[name := {| c_name := name; c_created_at := now; objects := ∅ |}]> (mine st g)),
       set_table g (<[rep := RContainer name]> (table g)))
  end.

Definition get_container st g (rep : nat) (name : string) : result unit BlobError * Guest :=
  match mine st g !! name with
  | Some _ => (Ok tt, set_table g (<[rep := RContainer name]> (table g)))
  | None => (Err (NoContainer name), g)
  end.

Definition delete_container st g (name : string) : BlobStorage := keep st g (delete name (mine st g)).

Definition container_exists st g (name : string) : bool := is_some (mine st g !! name).

(** Put an object into a container that is there. *)
Definition put_object (ws : gmap string ContainerData) (c : ContainerData) (container object : string)
    (o : ObjectData) : gmap string ContainerData :=
  <[container := {| c_name := c_name c; c_created_at := c_created_at c;
                    objects := <[object := o]> (objects c) |}]> ws.

Definition take_object (ws : gmap string ContainerData) (c : ContainerData) (container object : string) :
    gmap string ContainerData :=
  <[container := {| c_name := c_name c; c_created_at := c_created_at c;
                    objects := delete object (objects c) |}]> ws.

Definition copy_object st g (src dest : ObjectId) (now : Z) : result unit BlobError * BlobStorage :=
  match mine st g !! id_container src with
  | None => (Err (NoSourceContainer (id_container src)), st)
  | Some src_container =>
      match objects src_container !! id_object src with
      | None => (Err (NoSourceObject (id_object src)), st)
      | Some o =>
          match mine st g !! id_container dest with
          | None => (Err (NoDestContainer (id_container dest)), st)
          | Some dest_container =>
              (Ok tt, keep st g (put_object (mine st g) dest_container (id_container dest) (id_object dest)
                 {| o_name := id_object dest; o_container := id_container dest; o_data := o_data o;
                    o_created_at := now |}))
          end
      end
  end.

(** The outcome of the copy is not looked at. *)
Definition move_object st g (src dest : ObjectId) (now : Z) : result unit BlobError * BlobStorage :=
  let '(_, st) := copy_object st g src dest now in
  (Ok tt,
   match mine st g !! id_container src with
   | Some c => keep st g (take_object (mine st g) c (id_container src) (id_object src))
   | None => st
   end).

(** ** [container] *)

(** A call on a container handle that only looks. *)
Definition looking {A} st g (container : nat) (f : ContainerData → result A BlobError) :
    option (result A BlobError) :=
  name ← container_of g container;
  Some (match mine st g !! name with Some c => f c | None => Err (NoContainer name) end).

(** One that changes the container's objects. *)
Definition changing st g (container : nat) (f : gmap string ObjectData → gmap string ObjectData) :
    option (result unit BlobError * BlobStorage) :=
  name ← container_of g container;
  Some (match mine st g !! name with
        | Some c => (Ok tt, keep st g (<[name := {| c_name := c_name c; c_created_at := c_created_at c;
                                                    objects := f (objects c) |}]> (mine st g)))
        | None => (Err (NoContainer name), st)
        end).

Definition container_name g (container : nat) : option string := container_of g container.
Definition info st g container := looking st g container (λ c, Ok (c_name c, c_created_at c)).

Definition get_data st g (container rep : nat) (object : string) (start end_ : Z) :
    option (result unit BlobError * Guest) :=
  r ← looking st g container (λ c,
    match objects c !! object with
    | Some o =>
        let start_idx := Z.min start (Z.of_nat (length (o_data o))) in
        let end_idx := Z.min end_ (Z.of_nat (length (o_data o))) in
        Ok (slice (o_data o) start_idx end_idx)
    | None => Err (NoObject object)
    end);
  Some (match r with
        | Ok d => (Ok tt, set_table g (<[rep := RIncoming d]> (table g)))
        | Err e => (Err e, g)
        end).

(** The names are noted; the bytes are written by [finish]. *)
Definition write_data st g (container : nat) (object : string) (data : nat) :
    option (result unit BlobError * Guest) :=
  name ← container_of g container;
  match mine st g !! name with
  | None => Some (Err (NoContainer name), g)
  | Some _ =>
      h ← outgoing_of g data;
      Some (Ok tt, set_table g (<[data := ROutgoing {| pipe := pipe h; out_container := Some name;
                                                       out_object := Some object |}]> (table g)))
  end.

(** [order]: the keys of the map as it is walked. *)
Definition list_objects st g (container rep : nat) (order : list string) :
    option (result unit BlobError * Guest) :=
  name ← container_of g container;
  Some (match mine st g !! name with
        | Some _ => (Ok tt, set_table g (<[rep := RNames {| names := order; position := 0 |}]> (table g)))
        | None => (Err (NoContainer name), g)
        end).

Definition delete_object st g container (object : string) := changing st g container (delete object).
Definition delete_objects st g container (l : list string) :=
  changing st g container (λ m, foldl (λ m object, delete object m) m l).
Definition has_object st g container (object : string) :=
  looking st g container (λ c, Ok (is_some (objects c !! object))).
Definition object_info st g container (object : string) :=
  looking st g container (λ c,
    match objects c !! object with
    | Some o => Ok (o_name o, o_container o, o_created_at o, Z.of_nat (length (o_data o)))
    | None => Err (NoObject object)
    end).
Definition clear st g container := changing st g container (λ _, ∅).

Definition drop_resource g (rep : nat) : option Guest :=
  _ ← table g !! rep; Some (set_table g (delete rep (table g))).

(** ** [stream-object-names] *)

Definition to_read (h : StreamObjectNamesHandle) (len : Z) : Z :=
  Z.min len (sat_sub (Z.of_nat (length (names h))) (position h)).

Definition advance (h : StreamObjectNamesHandle) (n : Z) : StreamObjectNamesHandle :=
  {| names := names h; position := position h + n |}.
Definition is_end (h : StreamObjectNamesHandle) : bool := Z.of_nat (length (names h)) <=? position h.

(** The loop pushes the names at [position], [position + 1], ... that there are. *)
Definition read_names (h : StreamObjectNamesHandle) (len : Z) : list string * bool * StreamObjectNamesHandle :=
  let n := to_read h len in
  let page := omap (λ i, names h !! (Z.to_nat (position h) + i)%nat) (seq 0 (Z.to_nat n)) in
  let h := advance h n in (page, is_end h, h).

Definition skip_names (h : StreamObjectNamesHandle) (num : Z) : Z * bool * StreamObjectNamesHandle :=
  let n := to_read h num in let h := advance h n in (n, is_end h, h).

Definition read_stream_object_names g (rep : nat) (len : Z) : option (list string * bool * Guest) :=
  h ← names_of g rep;
  let '(page, e, h) := read_names h len in Some (page, e, set_table g (<[rep := RNames h]> (table g))).

Definition skip_stream_object_names g (rep : nat) (num : Z) : option (Z * bool * Guest) :=
  h ← names_of g rep;
  let '(n, e, h) := skip_names h num in Some (n, e, set_table g (<[rep := RNames h]> (table g))).

(** ** Values on their way out *)

Definition new_outgoing_value g (rep : nat) : Guest :=
  set_table g (<[rep := ROutgoing {| pipe := []; out_container := None; out_object := None |}]> (table g)).

(** The guest wrote to the stream of [outgoing_value_write_body], a clone of the
    pipe, and the pipe now holds [bytes]. *)
Definition write_body g (value : nat) (bytes : list Z) : option Guest :=
  h ← outgoing_of g value;
  Some (set_table g (<[value := ROutgoing {| pipe := bytes; out_container := out_container h;
                                             out_object := out_object h |}]> (table g))).

(** [finish], which dropping the value also runs. *)
Definition finish st g (value : nat) (now : Z) : option (result unit BlobError * BlobStorage * Guest) :=
  h ← outgoing_of g value;
  let g := set_table g (delete value (table g)) in
  Some (match out_container h, out_object h with
        | Some container, Some object =>
            match mine st g !! container with
            | Some c =>
                (Ok tt, keep st g (put_object (mine st g) c container object
                   {| o_name := object; o_container := container; o_data := pipe h; o_created_at := now |}), g)
            | None => (Err (NoContainer container), st, g)
            end
        | _, _ => (Ok tt, st, g)
        end).

(** ** Values on their way in *)

Definition incoming_value_consume_sync g (value : nat) : option (list Z * Guest) :=
  d ← incoming_of g value; Some (d, set_table g (delete value (table g))).
(** The stream of [incoming_value_consume_async] yields the same bytes, and the
    value stays. *)
Definition incoming_value_consume_async g (value : nat) : option (list Z) := incoming_of g value.
Definition incoming_size g (value : nat) : option Z := d ← incoming_of g value; Some (Z.of_nat (length d)).

(** ** A host *)

Inductive Call :=
  | CreateContainer (rep : nat) (name : string) (now : Z)
  | GetContainer (rep : nat) (name : string)
  | DeleteContainer (name : string)
  | CopyObject (src dest : ObjectId) (now : Z)
  | MoveObject (src dest : ObjectId) (now : Z)
  | GetData (container rep : nat) (object : string) (start end_ : Z)
  | WriteData (container : nat) (object : string) (data : nat)
  | ListObjects (container rep : nat) (order : list string)
  | DeleteObjects (container : nat) (l : list string)
  | DeleteObject (container : nat) (object : string)
  | Clear (container : nat)
  | ReadNames (rep : nat) (len : Z)
  | SkipNames (rep : nat) (num : Z)
  | NewOutgoing (rep : nat)
  | WriteBody (value : nat) (bytes : list Z)
  | Finish (value : nat) (now : Z)
  | Consume (value : nat)
  | DropResource (rep : nat) (now : Z).

Definition in_storage {A} st g (r : option (A * BlobStorage)) : BlobStorage * Guest :=
  match r with Some (_, st') => (st', g) | None => (st, g) end.
Definition in_table {A} st g (r : option (A * Guest)) : BlobStorage * Guest :=
  match r with Some (_, g') => (st, g') | None => (st, g) end.
Definition in_both {A} st g (r : option (A * BlobStorage * Guest)) : BlobStorage * Guest :=
  match r with Some (_, st', g') => (st', g') | None => (st, g) end.

(** Dropping a value on its way out finishes it; any other resource just goes. *)
Definition serve st g (c : Call) : BlobStorage * Guest :=
  match c with
  | CreateContainer rep name now => in_both st g (Some (create_container st g rep name now))
  | GetContainer rep name => in_table st g (Some (get_container st g rep name))
  | DeleteContainer name => (delete_container st g name, g)
  | CopyObject src dest now => in_storage st g (Some (copy_object st g src dest now))
  | MoveObject src dest now => in_storage st g (Some (move_object st g src dest now))
  | GetData c rep object start end_ => in_table st g (get_data st g c rep object start end_)
  | WriteData c object data => in_table st g (write_data st g c object data)
  | ListObjects c rep order => in_table st g (list_objects st g c rep order)
  | DeleteObjects c l => in_storage st g (delete_objects st g c l)
  | DeleteObject c object => in_storage st g (delete_object st g c object)
  | Clear c => in_storage st g (clear st g c)
  | ReadNames rep len => in_table st g (read_stream_object_names g rep len)
  | SkipNames rep num => in_table st g (skip_stream_object_names g rep num)
  | NewOutgoing rep => (st, new_outgoing_value g rep)
  | WriteBody value bytes => (st, default g (write_body g value bytes))
  | Finish value now => in_both st g (finish st g value now)
  | Consume value => in_table st g (incoming_value_consume_sync g value)
  | DropResource rep now =>
      match outgoing_of g rep with
      | Some _ => in_both st g (finish st g rep now)
      | None => (st, default g (drop_resource g rep))
      end
  end.

Definition new_guest (w : string) : Guest := {| workload_id := w; table := ∅ |}.
Definition blob_run : Host ContainerData Guest → list (Event Call) → Host ContainerData Guest := run new_guest serve.
Definition blob_foreign : string → Host ContainerData Guest → list (Event Call) → Prop :=
  foreign workload_id new_guest serve.

(** ** Whose objects a call can reach *)

Lemma keep_confined st g g' ws :
  workload_id g' = workload_id g → confined workload_id st g (keep st g ws, g').
Proof. apply (confined_write_back workload_id). Qed.

Lemma changing_confined st g c f : confined workload_id st g (in_storage st g (changing st g c f)).
Proof.
  unfold changing. destruct (container_of g c) as [name|]; [|by apply confined_refl]. simpl.
  destruct (mine st g !! name); [by apply keep_confined|by apply confined_refl].
Qed.

Lemma finish_confined st g value now : confined workload_id st g (in_both st g (finish st g value now)).
Proof.
  unfold finish. destruct (outgoing_of g value) as [h|]; [|by apply confined_refl]. simpl.
  destruct (out_container h) as [c|], (out_object h) as [o|]; try by apply confined_refl.
  unfold mine. simpl. destruct (workload_storage st (workload_id g) !! c); [|by apply confined_refl].
  by apply (confined_write_back workload_id st g).
Qed.

Lemma confined_trans st g st1 p :
  confined workload_id st g (st1, g) → confined workload_id st1 g p → confined workload_id st g p.
Proof.
  intros (D1 & _ & L1) (D2 & G2 & L2). simpl in *. split_and!; [by rewrite D2|done|].
  intros w Hw. rewrite L2 by done. by apply L1.
Qed.

Lemma copy_confined st g src dest now :
  confined workload_id st g ((copy_object st g src dest now).2, g).
Proof.
  unfold copy_object. repeat case_match; simpl; first [by apply confined_refl|by apply keep_confined].
Qed.

Lemma blob_serve_confined st g c : confined workload_id st g (serve st g c).
Proof.
  destruct c; simpl; try apply changing_confined; try apply finish_confined; try by apply confined_refl.
  - unfold create_container. destruct (mine st g !! name); simpl; [by apply confined_refl|by apply keep_confined].
  - unfold get_container. destruct (mine st g !! name); by apply confined_refl.
  - by apply keep_confined.
  - pose proof (copy_confined st g src dest now) as Hc.
    destruct (copy_object st g src dest now) as [r st1]. exact Hc.
  - unfold move_object. pose proof (copy_confined st g src dest now) as Hc.
    destruct (copy_object st g src dest now) as [r st1]. simpl in *.
    apply (confined_trans st g st1); [done|].
    destruct (mine st1 g !! _); [by apply keep_confined|by apply confined_refl].
  - unfold get_data. destruct (looking _ _ _ _) as [[d|e]|]; by apply confined_refl.
  - unfold write_data. destruct (container_of g container); [|by apply confined_refl]. simpl.
    destruct (mine st g !! _); [|by apply confined_refl].
    destruct (outgoing_of g data); by apply confined_refl.
  - unfold list_objects. destruct (container_of g container); [|by apply confined_refl]. simpl.
    destruct (mine st g !! _); by apply confined_refl.
  - unfold read_stream_object_names. destruct (names_of g rep); by apply confined_refl.
  - unfold skip_stream_object_names. destruct (names_of g rep); by apply confined_refl.
  - unfold write_body. destruct (outgoing_of g value); by apply confined_refl.
  - unfold incoming_value_consume_sync. destruct (incoming_of g value); by apply confined_refl.
  - destruct (outgoing_of g rep); [apply finish_confined|]. unfold drop_resource.
    destruct (table g !! rep); by apply confined_refl.
Qed.

(** Workloads do not reach each other's objects: whatever stores of other workloads
    create, copy, move, write and delete, and whichever other workloads are bound
    and unbound, what is stored for a workload stays as it is. *)
Theorem blob_workloads_are_isolated w h es :
  blob_foreign w h es → storage (blob_run h es) !! w = storage h !! w.
Proof. apply run_isolated, blob_serve_confined. Qed.

(** Only bound workloads have containers: after any events the storage has an entry
    for exactly the workloads bound and not unbound since. *)
Theorem blob_stores_bound_workloads_only h es :
  dom (storage (blob_run h es)) = bound_after (dom (storage h)) es.
Proof. apply (run_bound workload_id), blob_serve_confined. Qed.

(** ** What is written is read *)

(** The object a container holds under a name. *)
Definition stored st (w container object : string) : option ObjectData :=
  c ← workload_storage st w !! container; objects c !! object.

Lemma stored_put st w ws c container object o container' object' :
  st !! w = Some ws → ws !! container = Some c →
  stored (write_back st w (put_object ws c container object o)) w container' object'
  = if decide (container' = container ∧ object' = object) then Some o
    else stored st w container' object'.
Proof.
  intros Hw Hc. unfold stored, workload_storage. rewrite (write_back_lookup _ _ _ _ Hw), Hw. simpl.
  unfold put_object. destruct (decide (container' = container)) as [->|Hne].
  - rewrite lookup_insert_eq, Hc. simpl. destruct (decide (object' = object)) as [->|Hno].
    + rewrite lookup_insert_eq, decide_True by done. done.
    + rewrite lookup_insert_ne, decide_False by naive_solver. done.
  - rewrite lookup_insert_ne, decide_False by naive_solver. done.
Qed.

Lemma stored_take st w ws c container object container' object' :
  st !! w = Some ws → ws !! container = Some c →
  stored (write_back st w (take_object ws c container object)) w container' object'
  = if decide (container' = container ∧ object' = object) then None
    else stored st w container' object'.
Proof.
  intros Hw Hc. unfold stored, workload_storage. rewrite (write_back_lookup _ _ _ _ Hw), Hw. simpl.
  unfold take_object. destruct (decide (container' = container)) as [->|Hne].
  - rewrite lookup_insert_eq, Hc. simpl. destruct (decide (object' = object)) as [->|Hno].
    + rewrite lookup_delete_eq, decide_True by done. done.
    + rewrite lookup_delete_ne, decide_False by naive_solver. done.
  - rewrite lookup_insert_ne, decide_False by naive_solver. done.
Qed.

(** C19: What is written is read back: a value given to a container, filled and finished
    (or dropped) is stored whole under its name, leaves every other object as it
    was, and reading the object from its start to its length gives its bytes. *)
Theorem finished_value_is_read_back st g ws container name c object value bytes now h :
  st !! workload_id g = Some ws → container_of g container = Some name → ws !! name = Some c →
  outgoing_of g value = Some h → value ≠ container →
  ∃ g1 g2 st' g3,
    write_data st g container object value = Some (Ok tt, g1)
    ∧ write_body g1 value bytes = Some g2
    ∧ finish st g2 value now = Some (Ok tt, st', g3)
    ∧ (∀ container' object', stored st' (workload_id g) container' object'
         = if decide (container' = name ∧ object' = object)
           then Some {| o_name := object; o_container := name; o_data := bytes; o_created_at := now |}
           else stored st (workload_id g) container' object')
    ∧ (∀ rep, get_data st' g3 container rep object 0 (Z.of_nat (length bytes))
         = Some (Ok tt, set_table g3 (<[rep := RIncoming bytes]> (table g3)))).
Proof.
  intros Hw Hcont Hc Hout Hne. unfold write_data. rewrite Hcont. cbn [mbind option_bind].
  unfold mine at 1, workload_storage. rewrite Hw. simpl. rewrite Hc, Hout. simpl.
  eexists _, _, _, _. split; [done|].
  split; [unfold write_body, outgoing_of; simpl; by rewrite lookup_insert_eq|].
  unfold finish, outgoing_of. simpl. rewrite lookup_insert_eq. simpl.
  unfold mine, workload_storage. simpl. rewrite Hw. simpl. rewrite Hc. split; [done|].
  split; [intros container' object'; by apply stored_put|]. intros rep.
  unfold get_data, looking, container_of. simpl.
  rewrite lookup_delete_ne, !lookup_insert_ne by done. unfold container_of in Hcont.
  destruct (table g !! container) as [[n| | |]|] eqn:Et; try done. injection Hcont as ->. simpl.
  unfold mine, workload_storage, keep. simpl. rewrite (write_back_lookup _ _ _ _ Hw). simpl.
  unfold put_object. rewrite lookup_insert_eq. simpl. rewrite lookup_insert_eq. simpl.
  rewrite Z.min_l, Z.min_id by lia. by rewrite slice_all.
Qed.

(** ** Moving *)

(** A move between two different places whose containers are there does what it
    says: the bytes are at the destination, which is overwritten, the source is
    gone, and no other object is touched. *)
Theorem move_relocates_object st g ws src dest o cd now :
  st !! workload_id g = Some ws → stored st (workload_id g) (id_container src) (id_object src) = Some o →
  ws !! id_container dest = Some cd → src ≠ dest →
  ∃ st', move_object st g src dest now = (Ok tt, st')
    ∧ ∀ c x, stored st' (workload_id g) c x
      = if decide (c = id_container src ∧ x = id_object src) then None
        else if decide (c = id_container dest ∧ x = id_object dest)
        then Some {| o_name := id_object dest; o_container := id_container dest; o_data := o_data o;
                     o_created_at := now |}
        else stored st (workload_id g) c x.
Proof.
  intros Hw Ho Hd Hne. unfold move_object, copy_object, mine, keep.
  assert (workload_storage st (workload_id g) = ws) as -> by (unfold workload_storage; by rewrite Hw).
  unfold stored, workload_storage in Ho. rewrite Hw in Ho. simpl in Ho.
  destruct (ws !! id_container src) as [cs|] eqn:Es; [|done]. simpl in Ho. rewrite Ho, Hd.
  set (o' := {| o_name := id_object dest |}).
  set (st1 := write_back st (workload_id g) (put_object ws cd (id_container dest) (id_object dest) o')).
  set (ws1 := put_object ws cd (id_container dest) (id_object dest) o').
  assert (st1 !! workload_id g = Some ws1) as Hw1 by (by eapply write_back_lookup).
  assert (workload_storage st1 (workload_id g) = ws1) as -> by (unfold workload_storage; by rewrite Hw1).
  assert (is_Some (ws1 !! id_container src)) as [cs1 Hs1].
  { unfold ws1, put_object. destruct (decide (id_container src = id_container dest)) as [->|];
      [rewrite lookup_insert_eq|rewrite lookup_insert_ne by done]; by eexists. }
  rewrite Hs1. eexists. split; [done|]. intros c x.
  rewrite (stored_take st1 (workload_id g) ws1 cs1) by done. case_decide; [done|].
  unfold st1. by rewrite (stored_put st (workload_id g) ws cd) by done.
Qed.

(** One workload with one object of three bytes, and its guest. *)
Definition one_object : BlobStorage :=
  {["w" := {["c" := {| c_name := "c"; c_created_at := 0;
     objects := {["x" := {| o_name := "x"; o_container := "c"; o_data := [1; 2; 3]; o_created_at := 0 |}]} |}]}]}.
Definition in_w : Guest := {| workload_id := "w"; table := {[0%nat := RContainer "c"]} |}.
Definition place (container object : string) : ObjectId := {| id_container := container; id_object := object |}.

(** A move can lose the object.  To a container that does not exist the copy fails
    and the source is deleted all the same, with success reported; and an object
    moved onto itself is deleted. *)
Theorem move_can_lose_the_object :
  (let '(r, st) := move_object one_object in_w (place "c" "x") (place "nowhere" "y") 1 in
   r = Ok tt ∧ stored st "w" "c" "x" = None ∧ stored st "w" "nowhere" "y" = None)
  ∧ (let '(r, st) := move_object one_object in_w (place "c" "x") (place "c" "x") 1 in
     r = Ok tt ∧ stored st "w" "c" "x" = None).
Proof. vm_compute. done. Qed.

(** ** Listing *)

Lemma to_read_range h len :
  0 ≤ position h ≤ Z.of_nat (length (names h)) → 0 ≤ len →
  0 ≤ to_read h len ≤ len ∧ position h + to_read h len ≤ Z.of_nat (length (names h)).
Proof. unfold to_read, sat_sub. lia. Qed.

Lemma omap_seq {A} (l : list A) p n : ∀ k,
  (p + k + n ≤ length l)%nat → omap (λ i, l !! (p + i)%nat) (seq k n) = take n (drop (p + k) l).
Proof.
  induction n as [|n IH]; intros k Hp; [done|]. cbn [seq omap list_omap].
  destruct (lookup_lt_is_Some_2 l (p + k)) as [x Hx]; [lia|]. rewrite Hx, (drop_S l x (p + k) Hx).
  rewrite IH by lia. simpl. do 3 f_equal. lia.
Qed.

(** A client reads page after page, of whatever positive lengths it likes. *)
Fixpoint read_on (h : StreamObjectNamesHandle) (lens : list Z) : list string * bool :=
  match lens with
  | [] => ([], is_end h)
  | len :: lens =>
      let '(page, e, h) := read_names h len in
      let '(rest, e) := read_on h lens in (page ++ rest, e)
  end.

Lemma read_on_from lens : ∀ h, Forall (λ n, 0 ≤ n) lens → 0 ≤ position h ≤ Z.of_nat (length (names h)) →
  let total := Z.min (foldr Z.add 0 lens) (Z.of_nat (length (names h)) - position h) in
  (read_on h lens).1 = take (Z.to_nat total) (drop (Z.to_nat (position h)) (names h))
  ∧ (read_on h lens).2 = (Z.of_nat (length (names h)) <=? position h + total).
Proof.
  induction lens as [|len lens IH]; intros h Hl Hp; cbn [read_on foldr].
  { rewrite Z.min_l by lia. simpl. split; [done|]. unfold is_end. by rewrite Z.add_0_r. }
  apply Forall_cons in Hl as [Hlen Hl]. pose proof (to_read_range h len Hp Hlen) as [Hr Hr'].
  assert (0 ≤ foldr Z.add 0 lens) as Hsum.
  { clear -Hl. induction Hl; simpl; lia. }
  unfold read_names. specialize (IH (advance h (to_read h len)) Hl). simpl in IH.
  destruct IH as [IH1 IH2]; [lia|].
  destruct (read_on (advance h (to_read h len)) lens) as [rest e]. simpl in *. subst. split.
  - rewrite omap_seq, Nat.add_0_r by lia.
    rewrite Z2Nat.inj_add, <-(drop_drop (names h)) by lia. rewrite take_take_drop. f_equal.
    unfold to_read, sat_sub in *. lia.
  - f_equal. unfold to_read, sat_sub in *. lia.
Qed.

Lemma listing_pages order lens :
  Forall (λ n, 0 ≤ n) lens →
  let h := {| names := order; position := 0 |} in
  let asked := foldr Z.add 0 lens in
  (read_on h lens).1 = take (Z.to_nat asked) order
  ∧ (read_on h lens).2 = (Z.of_nat (length order) <=? asked).
Proof.
  intros Hl h asked. destruct (read_on_from lens h Hl) as [H1 H2]; [simpl; lia|].
  rewrite H1, H2. unfold h. cbn [names position]. rewrite Z.sub_0_r, drop_0.
  assert (0 ≤ asked) by (unfold asked; clear -Hl; induction Hl; simpl; lia). fold asked. split.
  - destruct (Z.le_gt_cases asked (Z.of_nat (length order))); [by rewrite Z.min_l|].
    rewrite Z.min_r by lia. rewrite !take_ge by lia. done.
  - destruct (Z.leb_spec (Z.of_nat (length order)) asked),
      (Z.leb_spec (Z.of_nat (length order)) (0 + Z.min asked (Z.of_nat (length order)))); lia || done.
Qed.

(** A listing gives every object once: however the map is walked, and whatever
    lengths a client reads in, no name is given twice and none that is not an
    object's, and once the end is announced every object of the container at the
    time of the listing has been named. *)
Theorem listing_gives_every_object st g container rep name c order lens :
  container_of g container = Some name → mine st g !! name = Some c →
  order ≡ₚ elements (dom (objects c)) → Forall (λ n, 0 ≤ n) lens →
  ∃ g' h, list_objects st g container rep order = Some (Ok tt, g') ∧ names_of g' rep = Some h
    ∧ NoDup (read_on h lens).1
    ∧ (∀ x, x ∈ (read_on h lens).1 → x ∈ dom (objects c))
    ∧ ((read_on h lens).2 = true → ∀ x, x ∈ dom (objects c) → x ∈ (read_on h lens).1).
Proof.
  intros Hn Hc Hord Hl. unfold list_objects. rewrite Hn. simpl. rewrite Hc. eexists _, _.
  split; [done|]. split; [unfold names_of; simpl; by rewrite lookup_insert_eq|].
  destruct (listing_pages order lens Hl) as [-> ->].
  assert (∀ x, x ∈ order ↔ x ∈ dom (objects c)) as Hin.
  { intros x. rewrite Hord. apply elem_of_elements. }
  split_and!.
  - eapply sublist_NoDup; [|apply sublist_take]. rewrite Hord. apply NoDup_elements.
  - intros x Hx. apply Hin. rewrite <-(take_drop (Z.to_nat (foldr Z.add 0 lens)) order). set_solver.
  - intros He x Hx. apply Z.leb_le in He. rewrite take_ge by lia. by apply Hin.
Qed.

(** Reading up to the last offset leaves the last byte out: the end of a range is
    taken as exclusive where the interface has it inclusive. *)
Theorem range_end_is_exclusive :
  get_data one_object in_w 0 1 "x" 0 2
  = Some (Ok tt, set_table in_w (<[1%nat := RIncoming [1; 2]]> (table in_w))).
Proof. vm_compute. reflexivity. Qed.

(** ** Concrete inputs *)

Definition two_stores : Host ContainerData Guest :=
  {| storage := <["v" := {["d" := {| c_name := "d"; c_created_at := 0; objects := ∅ |}]}]> one_object;
     guests := {[0%nat := in_w; 1%nat := {| workload_id := "v"; table := {[0%nat := RContainer "d"]} |}]} |}.

Lemma blob_workloads_are_isolated_witness :
  let es := [Calls 1 (DeleteContainer "c"); Calls 1 (CreateContainer 4 "c" 3); Calls 1 (Clear 4);
             Calls 1 (MoveObject (place "c" "x") (place "d" "x") 3); Unbind "v"] in
  blob_foreign "w" two_stores es ∧ storage (blob_run two_stores es) !! "w" = storage two_stores !! "w".
Proof.
  intros es. assert (blob_foreign "w" two_stores es) as H by (vm_compute; repeat split; discriminate).
  split; [exact H|]. exact (blob_workloads_are_isolated "w" two_stores es H).
Defined.

Definition writing : Guest := new_outgoing_value in_w 5.
Definition c_of_w : ContainerData :=
  {| c_name := "c"; c_created_at := 0;
     objects := {["x" := {| o_name := "x"; o_container := "c"; o_data := [1; 2; 3]; o_created_at := 0 |}]} |}.

Lemma finished_value_is_read_back_witness :
  ∃ g1 g2 st' g3,
    write_data one_object writing 0 "y" 5 = Some (Ok tt, g1)
    ∧ write_body g1 5 [7; 8] = Some g2
    ∧ finish one_object g2 5 9 = Some (Ok tt, st', g3)
    ∧ (∀ container' object', stored st' "w" container' object'
         = if decide (container' = "c" ∧ object' = "y")
           then Some {| o_name := "y"; o_container := "c"; o_data := [7; 8]; o_created_at := 9 |}
           else stored one_object "w" container' object')
    ∧ (∀ rep, get_data st' g3 0 rep "y" 0 2
         = Some (Ok tt, set_table g3 (<[rep := RIncoming [7; 8]]> (table g3)))).
Proof.
  apply (finished_value_is_read_back one_object writing {["c" := c_of_w]} 0 "c" c_of_w "y" 5 [7; 8] 9
           {| pipe := []; out_container := None; out_object := None |}); [reflexivity..|discriminate].
Defined.

Lemma move_relocates_object_witness :
  ∃ st', move_object one_object in_w (place "c" "x") (place "c" "y") 9 = (Ok tt, st')
    ∧ ∀ c x, stored st' "w" c x
      = if decide (c = "c" ∧ x = "x") then None
        else if decide (c = "c" ∧ x = "y")
        then Some {| o_name := "y"; o_container := "c"; o_data := [1; 2; 3]; o_created_at := 9 |}
        else stored one_object "w" c x.
Proof.
  apply (move_relocates_object one_object in_w {["c" := c_of_w]} (place "c" "x") (place "c" "y")
           {| o_name := "x"; o_container := "c"; o_data := [1; 2; 3]; o_created_at := 0 |} c_of_w 9);
    [reflexivity..|discriminate].
Defined.

Lemma listing_gives_every_object_witness :
  ∃ g' h, list_objects one_object in_w 0 7 ["x"] = Some (Ok tt, g') ∧ names_of g' 7 = Some h
    ∧ NoDup (read_on h [0; 1]).1
    ∧ (∀ x, x ∈ (read_on h [0; 1]).1 → x ∈ dom (objects c_of_w))
    ∧ ((read_on h [0; 1]).2 = true → ∀ x, x ∈ dom (objects c_of_w) → x ∈ (read_on h [0; 1]).1).
Proof.
  apply (listing_gives_every_object one_object in_w 0 7 "c" c_of_w ["x"] [0; 1]);
    [reflexivity..|vm_compute; reflexivity|repeat constructor; vm_compute; discriminate].
Defined.
