(* ===== verification/EgressPolicy.v ===== *)
(** * Address-range policy for outbound connections

    [host/egress_policy.rs]: which ranges may be dialed once the allowlist let a
    destination through.  The implementation tests octets and segments; the
    reference definition is a table of CIDR blocks over the address read as one
    integer, and the two are proved equal. *)

From Stdlib Require Import ZArith Lia Btauto.
From stdpp Require Import base list strings option.
From S2P Require Import Prelude RustStr Net.
Local Open Scope Z_scope.

Record EgressAddressPolicy := {
  deny_special : bool;
  allow_private : bool;
}.

(** [impl Default] *)
Definition default_policy : EgressAddressPolicy :=
  {| deny_special := true; allow_private := true |}.

Definition permissive : EgressAddressPolicy :=
  {| deny_special := false; allow_private := true |}.

Definition METADATA_V4 : Ipv4Addr := Ipv4Addr_new 169 254 169 254.
Definition METADATA_V6 : Ipv6Addr := Ipv6Addr_new 64768 3778 0 0 0 0 0 596.

Definition is_v4_documentation (v : Ipv4Addr) : bool :=
  ((oct0 v =? 192) && (oct1 v =? 0) && (oct2 v =? 2))
  || ((oct0 v =? 198) && (oct1 v =? 51) && (oct2 v =? 100))
  || ((oct0 v =? 203) && (oct1 v =? 0) && (oct2 v =? 113)).

Definition is_special (addr : IpAddr) : bool :=
  if bool_decide (addr = V6 METADATA_V6) then true
  else match addr with
  | V4 v =>
      v4.is_loopback v || v4.is_link_local v || v4.is_unspecified v
      || v4.is_multicast v || v4.is_broadcast v || is_v4_documentation v
      || (240 <=? oct0 v)
  | V6 v =>
      v6.is_loopback v || v6.is_unspecified v || v6.is_multicast v
      || (Z.land (seg0 v) 65472 =? 65152)
      || ((seg0 v =? 8193) && (seg1 v =? 3512))
  end.

Definition is_private (addr : IpAddr) : bool :=
  match addr with
  | V4 v => v4.is_private v
            || ((oct0 v =? 100) && ((64 <=? oct1 v) && (oct1 v <? 128)))
  | V6 v => Z.land (seg0 v) 65024 =? 64512
  end.

Definition permits (p : EgressAddressPolicy) (addr : IpAddr) : bool :=
  let addr := to_canonical addr in
  if deny_special p && is_special addr then false
  else if negb (allow_private p) && is_private addr then false
  else true.

(** ** The reference: CIDR blocks *)

(** An address as one number: 32 bits, or 128 bits. *)
Definition bits4 (v : Ipv4Addr) : Z :=
  oct0 v * 2 ^ 24 + oct1 v * 2 ^ 16 + oct2 v * 2 ^ 8 + oct3 v.
Definition bits6 (v : Ipv6Addr) : Z :=
  seg0 v * 2 ^ 112 + seg1 v * 2 ^ 96 + seg2 v * 2 ^ 80 + seg3 v * 2 ^ 64
  + seg4 v * 2 ^ 48 + seg5 v * 2 ^ 32 + seg6 v * 2 ^ 16 + seg7 v.

(** [in_block w (base, len) n]: the top [len] of [w] bits agree. *)
Definition in_block (w : Z) (block : Z * Z) (n : Z) : bool :=
  n / 2 ^ (w - block.2) =? block.1 / 2 ^ (w - block.2).

Definition block4 (a b c d len : Z) : Z * Z := (bits4 (Ipv4Addr_new a b c d), len).
Definition block6 (a b c d e f g h len : Z) : Z * Z :=
  (bits6 (Ipv6Addr_new a b c d e f g h), len).

Definition special_blocks4 : list (Z * Z) :=
  [block4 127 0 0 0 8; block4 169 254 0 0 16; block4 0 0 0 0 32; block4 224 0 0 0 4;
   block4 255 255 255 255 32; block4 192 0 2 0 24; block4 198 51 100 0 24;
   block4 203 0 113 0 24; block4 240 0 0 0 4].
Definition private_blocks4 : list (Z * Z) :=
  [block4 10 0 0 0 8; block4 172 16 0 0 12; block4 192 168 0 0 16; block4 100 64 0 0 10].
Definition special_blocks6 : list (Z * Z) :=
  [block6 64768 3778 0 0 0 0 0 596 128; block6 0 0 0 0 0 0 0 1 128;
   block6 0 0 0 0 0 0 0 0 128; block6 65280 0 0 0 0 0 0 0 8;
   block6 65152 0 0 0 0 0 0 0 10; block6 8193 3512 0 0 0 0 0 0 32].
Definition private_blocks6 : list (Z * Z) := [block6 64512 0 0 0 0 0 0 0 7].

Definition in_blocks (b4 b6 : list (Z * Z)) (addr : IpAddr) : bool :=
  match addr with
  | V4 v => existsb (λ b, in_block 32 b (bits4 v)) b4
  | V6 v => existsb (λ b, in_block 128 b (bits6 v)) b6
  end.

(** What the policy promises: judged in canonical form, a special block is
    refused under [deny_special], a private one unless [allow_private]. *)
Definition permits_spec (p : EgressAddressPolicy) (addr : IpAddr) : bool :=
  let addr := to_canonical addr in
  negb (deny_special p && in_blocks special_blocks4 special_blocks6 addr)
  && negb (negb (allow_private p) && in_blocks private_blocks4 private_blocks6 addr).

(** ** Masks are shifts *)

Lemma land_high_mask x k :
  0 ≤ k ≤ 16 → 0 ≤ x < 2 ^ 16 →
  Z.land x (Z.shiftl (Z.ones (16 - k)) k) = x / 2 ^ k * 2 ^ k.
Proof.
  intros Hk Hx. rewrite <-Z.shiftr_div_pow2, <-Z.shiftl_mul_pow2 by lia.
  apply Z.bits_inj'. intros n Hn. rewrite Z.land_spec, !Z.shiftl_spec by lia.
  destruct (decide (n < k)) as [Hlt|Hge].
  - rewrite !(Z.testbit_neg_r _ (n - k)) by lia. apply andb_false_r.
  - rewrite Z.shiftr_spec by lia. replace (n - k + k) with n by lia.
    destruct (decide (n < 16)).
    + rewrite Z.ones_spec_low by lia. apply andb_true_r.
    + rewrite Z.bits_above_log2; [done|lia|].
      destruct (decide (x = 0)) as [->|]; [simpl; lia|].
      apply Z.log2_lt_pow2; [lia|]. eapply Z.lt_le_trans; [apply Hx|].
      apply Z.pow_le_mono_r; lia.
Qed.

(** A masked comparison is a comparison of the shifted values. *)
Lemma land_mask_eqb x k v :
  0 ≤ k ≤ 16 → 0 ≤ x < 2 ^ 16 → v mod 2 ^ k = 0 →
  (Z.land x (Z.shiftl (Z.ones (16 - k)) k) =? v) = (x / 2 ^ k =? v / 2 ^ k).
Proof.
  intros Hk Hx Hv. rewrite land_high_mask by done.
  assert (0 < 2 ^ k) by (apply Z.pow_pos_nonneg; lia).
  pose proof (Z.div_mod v (2 ^ k)).
  apply eq_true_iff_eq. rewrite !Z.eqb_eq. split; [|intros ->]; nia.
Qed.

(** ** Each block is its octet test *)

(** Prove an equality of boolean tests over bounded octets or segments. *)
Ltac block_tac :=
  intros; unfold in_block, block4, block6, bits4, bits6;
  cbn [fst snd oct0 oct1 oct2 oct3 seg0 seg1 seg2 seg3 seg4 seg5 seg6 seg7];
  repeat match goal with
  | |- context [ ?x / 2 ^ ?k ] =>
      let p := eval vm_compute in (2 ^ k) in change (2 ^ k) with p
  | |- context [ 2 ^ ?k ] => let p := eval vm_compute in (2 ^ k) in change (2 ^ k) with p
  end;
  apply eq_true_iff_eq;
  rewrite ?andb_true_iff, ?orb_true_iff, ?Z.eqb_eq, ?Z.leb_le, ?Z.ltb_lt;
  Z.to_euclidean_division_equations; lia.

Lemma v4_eqb a b c d x y z w :
  bool_decide (Ipv4Addr_new a b c d = Ipv4Addr_new x y z w)
  = (a =? x) && (b =? y) && (c =? z) && (d =? w).
Proof.
  apply eq_true_iff_eq. rewrite !andb_true_iff, !Z.eqb_eq, bool_decide_eq_true.
  split; [by intros [= -> -> -> ->]|by intros [[[-> ->] ->] ->]].
Qed.

Lemma v6_eqb a b c d e f g h x y z w s t u v :
  bool_decide (Ipv6Addr_new a b c d e f g h = Ipv6Addr_new x y z w s t u v)
  = (a =? x) && (b =? y) && (c =? z) && (d =? w)
    && (e =? s) && (f =? t) && (g =? u) && (h =? v).
Proof.
  apply eq_true_iff_eq. rewrite !andb_true_iff, !Z.eqb_eq, bool_decide_eq_true.
  split; [by intros [= -> -> -> -> -> -> -> ->]
         |by intros [[[[[[[-> ->] ->] ->] ->] ->] ->] ->]].
Qed.

(** One base-2^16 digit of an equality test. *)
Lemma horner_eqb q q' h v : 0 ≤ h < 65536 → 0 ≤ v < 65536 →
  (q * 65536 + h =? q' * 65536 + v) = (q =? q') && (h =? v).
Proof. intros. apply eq_true_iff_eq. rewrite andb_true_iff, !Z.eqb_eq. lia. Qed.

Lemma bits6_horner a b c d e f g h :
  bits6 (Ipv6Addr_new a b c d e f g h)
  = ((((((a * 65536 + b) * 65536 + c) * 65536 + d) * 65536 + e) * 65536 + f) * 65536 + g)
    * 65536 + h.
Proof. unfold bits6; simpl. lia. Qed.

Section octets.
Context (a b c d : Z).
Context (Ha : 0 ≤ a < 256) (Hb : 0 ≤ b < 256) (Hc : 0 ≤ c < 256) (Hd : 0 ≤ d < 256).
  Abbreviation n := (bits4 (Ipv4Addr_new a b c d)).

Lemma block4_8 x : 0 ≤ x < 256 → in_block 32 (block4 x 0 0 0 8) n = (a =? x).
Proof using Ha Hb Hc Hd. block_tac. Qed.
Lemma block4_16 x y : 0 ≤ x < 256 → 0 ≤ y < 256 →
    in_block 32 (block4 x y 0 0 16) n = (a =? x) && (b =? y).
Proof using Ha Hb Hc Hd. block_tac. Qed.
Lemma block4_24 x y z : 0 ≤ x < 256 → 0 ≤ y < 256 → 0 ≤ z < 256 →
    in_block 32 (block4 x y z 0 24) n = (a =? x) && (b =? y) && (c =? z).
Proof using Ha Hb Hc Hd. block_tac. Qed.
Lemma block4_32 x y z w :
    0 ≤ x < 256 → 0 ≤ y < 256 → 0 ≤ z < 256 → 0 ≤ w < 256 →
    in_block 32 (block4 x y z w 32) n
    = bool_decide (Ipv4Addr_new a b c d = Ipv4Addr_new x y z w).
Proof using Ha Hb Hc Hd.
    intros. transitivity ((a =? x) && (b =? y) && (c =? z) && (d =? w)); [block_tac|].
    symmetry. apply v4_eqb.
Qed.
Lemma block4_multicast : in_block 32 (block4 224 0 0 0 4) n = (224 <=? a) && (a <=? 239).
Proof using Ha Hb Hc Hd. block_tac. Qed.
Lemma block4_reserved : in_block 32 (block4 240 0 0 0 4) n = (240 <=? a).
Proof using Ha Hb Hc Hd. block_tac. Qed.
Lemma block4_172 : in_block 32 (block4 172 16 0 0 12) n
    = (a =? 172) && ((16 <=? b) && (b <=? 31)).
Proof using Ha Hb Hc Hd. block_tac. Qed.
Lemma block4_cgnat : in_block 32 (block4 100 64 0 0 10) n
    = (a =? 100) && ((64 <=? b) && (b <? 128)).
Proof using Ha Hb Hc Hd. block_tac. Qed.
End octets.

Section segments.
Context (a b c d e f g h : Z).
Context (Ha : 0 ≤ a < 65536) (Hb : 0 ≤ b < 65536) (Hc : 0 ≤ c < 65536)
    (Hd : 0 ≤ d < 65536) (He : 0 ≤ e < 65536) (Hf : 0 ≤ f < 65536)
    (Hg : 0 ≤ g < 65536) (Hh : 0 ≤ h < 65536).
  Abbreviation n := (bits6 (Ipv6Addr_new a b c d e f g h)).

Lemma block6_7 : in_block 128 (block6 64512 0 0 0 0 0 0 0 7) n = (a / 2 ^ 9 =? 64512 / 2 ^ 9).
Proof using Ha Hb Hc Hd He Hf Hg Hh. block_tac. Qed.
Lemma block6_8 : in_block 128 (block6 65280 0 0 0 0 0 0 0 8) n = (a / 2 ^ 8 =? 65280 / 2 ^ 8).
Proof using Ha Hb Hc Hd He Hf Hg Hh. block_tac. Qed.
Lemma block6_10 : in_block 128 (block6 65152 0 0 0 0 0 0 0 10) n = (a / 2 ^ 6 =? 65152 / 2 ^ 6).
Proof using Ha Hb Hc Hd He Hf Hg Hh. block_tac. Qed.
Lemma block6_32 : in_block 128 (block6 8193 3512 0 0 0 0 0 0 32) n = (a =? 8193) && (b =? 3512).
Proof using Ha Hb Hc Hd He Hf Hg Hh. block_tac. Qed.
Lemma block6_128 x y z w s t u v :
    Forall (λ i, 0 ≤ i < 65536) [x; y; z; w; s; t; u; v] →
    in_block 128 (block6 x y z w s t u v 128) n
    = bool_decide (Ipv6Addr_new a b c d e f g h = Ipv6Addr_new x y z w s t u v).
Proof using Ha Hb Hc Hd He Hf Hg Hh.
    rewrite !Forall_cons_iff. intros Hall. destruct_and! Hall.
    unfold in_block, block6. cbn [fst snd]. rewrite Z.sub_diag, !Z.div_1_r.
    rewrite !bits6_horner, v6_eqb. by rewrite !horner_eqb.
Qed.
End segments.

(** ** Properties *)

(** A masked segment test is the top bits of the first segment. *)
Lemma seg_mask_eqb x m k v :
  0 ≤ k ≤ 16 → 0 ≤ x < 65536 → m = Z.shiftl (Z.ones (16 - k)) k → v mod 2 ^ k = 0 →
  (Z.land x m =? v) = (x / 2 ^ k =? v / 2 ^ k).
Proof. intros Hk Hx -> Hv. by apply land_mask_eqb. Qed.

(** Two disjunctions of the same conjunctions of tests, in any order. *)
Ltac same_tests :=
  rewrite ?orb_false_r, ?orb_false_l; apply eq_true_iff_eq; rewrite ?orb_true_iff, ?andb_true_iff; tauto.

Lemma special_blocks_ok addr :
  wf_ip addr → is_special addr = in_blocks special_blocks4 special_blocks6 addr.
Proof.
  unfold is_special, in_blocks, special_blocks4, special_blocks6, existsb.
  destruct addr as [[a b c d]|[a b c d e f g h]]; cbn [wf_ip];
    rewrite !Forall_cons_iff; intros Hwf; destruct_and! Hwf.
  - rewrite bool_decide_eq_false_2 by done.
    rewrite !block4_8, block4_16, !block4_24, !block4_32, block4_multicast,
      block4_reserved by lia.
    unfold v4.is_loopback, v4.is_link_local, v4.is_unspecified, v4.is_multicast,
      v4.is_broadcast, is_v4_documentation, UNSPECIFIED_V4; cbn [oct0 oct1 oct2 oct3].
    same_tests.
  - rewrite !block6_128, block6_8, block6_10, block6_32
      by first [lia | repeat constructor; lia].
    unfold v6.is_loopback, v6.is_unspecified, v6.is_multicast, METADATA_V6,
      LOCALHOST_V6, UNSPECIFIED_V6; cbn [seg0 seg1].
    rewrite (seg_mask_eqb a 65280 8), (seg_mask_eqb a 65472 6) by done.
    rewrite (bool_decide_ext (V6 _ = V6 _) (Ipv6Addr_new a b c d e f g h
      = Ipv6Addr_new 64768 3778 0 0 0 0 0 596)) by (split; congruence).
    case_bool_decide; [reflexivity|]. same_tests.
Qed.

Lemma private_blocks_ok addr :
  wf_ip addr → is_private addr = in_blocks private_blocks4 private_blocks6 addr.
Proof.
  unfold is_private, in_blocks, private_blocks4, private_blocks6, existsb.
  destruct addr as [[a b c d]|[a b c d e f g h]]; cbn [wf_ip];
    rewrite !Forall_cons_iff; intros Hwf; destruct_and! Hwf.
  - rewrite !block4_8, block4_16, block4_172, block4_cgnat by lia.
    unfold v4.is_private; cbn [oct0 oct1]. same_tests.
  - rewrite block6_7 by lia. cbn [seg0].
    rewrite (seg_mask_eqb a 65024 9) by done. btauto.
Qed.

(** C2: on every well-formed address, in any spelling and under any policy, the
    octet and segment tests of [EgressAddressPolicy::permits] decide exactly the
    CIDR table: refused iff the canonical form lies in a special block under
    [deny_special], or in a private block without [allow_private]. *)
Theorem permits_is_cidr_table p addr :
  wf_ip addr → permits p addr = permits_spec p addr.
Proof.
  intros Hwf%wf_to_canonical. unfold permits, permits_spec.
  rewrite special_blocks_ok, private_blocks_ok by done.
  destruct (deny_special p && _), (negb (allow_private p) && _); done.
Qed.

Lemma permits_is_cidr_table_witness :
  wf_ip (V6 (v4.to_ipv6_mapped METADATA_V4)) ∧
  permits default_policy (V6 (v4.to_ipv6_mapped METADATA_V4))
  = permits_spec default_policy (V6 (v4.to_ipv6_mapped METADATA_V4)).
Proof.
  assert (wf_ip (V6 (v4.to_ipv6_mapped METADATA_V4))) as H by wf_ip_tac.
  split; [exact H|]. apply (permits_is_cidr_table default_policy _ H).
Defined.

(** An IPv4 address and its IPv4-mapped IPv6 spelling are judged alike. *)
Lemma permits_mapped p a :
  wf_ip (V4 a) → permits p (V6 (v4.to_ipv6_mapped a)) = permits p (V4 a).
Proof.
  intros Hwf. unfold permits. rewrite to_canonical_mapped; [done|..];
    destruct a; simpl in *; rewrite !Forall_cons_iff in Hwf; destruct_and! Hwf; lia.
Qed.

(** Neither the machine itself, nor a group, nor an instance-metadata service. *)
Definition elsewhere (a : IpAddr) : Prop :=
  is_loopback a = false ∧ is_unspecified a = false ∧ is_multicast a = false
  ∧ a ≠ V4 METADATA_V4 ∧ a ≠ V6 METADATA_V6.

Lemma not_special_elsewhere a : is_special a = false → elsewhere a.
Proof.
  unfold is_special. case_bool_decide as Hm; [done|].
  destruct a as [v|v]; intros E; bools; unfold elsewhere; simpl; repeat split; try done.
  intros [= ->]. discriminate.
Qed.

Lemma permits_elsewhere p addr :
  deny_special p = true → permits p addr = true → elsewhere (to_canonical addr).
Proof.
  unfold permits. intros ->. destruct (is_special _) eqn:E; [done|]. intros _.
  by apply not_special_elsewhere.
Qed.

(** with [deny_special] set (as by default), no address whose canonical form
    is loopback, unspecified, multicast, or an instance-metadata address is ever
    permitted, whatever [allow_private] says: the IPv6 metadata address is refused
    although it lies in the private range. *)
Theorem permits_never_machine_or_metadata p addr :
  deny_special p = true → permits p addr = true →
  is_loopback (to_canonical addr) = false
  ∧ is_unspecified (to_canonical addr) = false
  ∧ is_multicast (to_canonical addr) = false
  ∧ to_canonical addr ≠ V4 METADATA_V4 ∧ to_canonical addr ≠ V6 METADATA_V6.
Proof. apply permits_elsewhere. Qed.

Lemma permits_never_machine_or_metadata_witness :
  permits default_policy (V4 (Ipv4Addr_new 93 184 216 34)) = true
  ∧ is_loopback (to_canonical (V4 (Ipv4Addr_new 93 184 216 34))) = false.
Proof.
  assert (permits default_policy (V4 (Ipv4Addr_new 93 184 216 34)) = true) as H
    by reflexivity.
  split; [exact H|].
  apply (permits_never_machine_or_metadata default_policy _ eq_refl H).
Defined.
