(* ===== verification/InternalNames.v ===== *)
(** * The reserved [*.wasmcloud.internal] zone

    [sockets/internal_names.rs]: names resolved inside the host, the sentinel
    address standing for the machine's own loopback, and its rewrite at connect. *)

From Stdlib Require Import ZArith Lia Ascii.
From stdpp Require Import base list strings option.
From S2P Require Import Prelude RustStr Net.
Local Open Scope string_scope.

Definition HOST_SENTINEL : Ipv4Addr := Ipv4Addr_new 127 255 255 254.
Definition ZONE : string := "wasmcloud.internal".

Inductive InternalName := Service | Host.
Inductive UnknownInternalName := Unknown.

Definition address (n : InternalName) : IpAddr :=
  match n with
  | Service => V4 LOCALHOST_V4
  | Host => V4 HOST_SENTINEL
  end.

Definition resolve (name : string) : option (result InternalName UnknownInternalName) :=
  let name := strip_root_dot name in
  let name := to_ascii_lowercase name in
  (let?o label := strip_suffix ZONE name in
   if is_empty label then Some (Err Unknown)
   else
     let?o label := strip_suffix "." label in
     if String.eqb label "service" then Some (Ok Service)
     else if String.eqb label "host" then Some (Ok Host)
     else
       match strip_suffix ".svc" label with
       | Some service =>
           if negb (is_empty service) && negb (contains "." service)
           then Some (Ok Service)
           else Some (Err Unknown)
       | None => Some (Err Unknown)
       end)%rust.

Definition is_host_sentinel (addr : IpAddr) : bool :=
  match to_canonical addr with
  | V4 v => bool_decide (v = HOST_SENTINEL)
  | V6 _ => false
  end.

Definition rewrite_sentinel (addr : SocketAddr) : SocketAddr :=
  let ip := match addr with
            | SocketV4 _ _ => V4 LOCALHOST_V4
            | SocketV6 _ _ _ _ => V6 LOCALHOST_V6
            end in
  sock_new ip (sock_port addr).

(** A name lies in the zone: the zone itself or a label boundary before it, with
    case and one terminal root dot ignored. *)
Definition in_zone (name : string) : bool :=
  let name := to_ascii_lowercase (strip_root_dot name) in
  String.eqb name ZONE || ends_with ("." +:+ ZONE) name.

(** The normalised spelling the zone is matched on. *)
Definition norm (name : string) : string := to_ascii_lowercase (strip_root_dot name).

Lemma zone_label_boundary name label :
  strip_suffix ZONE name = Some label → label ≠ "" →
  ends_with ("." +:+ ZONE) name = is_some (strip_suffix "." label).
Proof.
  intros ->%strip_suffix_Some Hne. apply eq_true_iff_eq.
  rewrite ends_with_spec. split.
  - intros [r Hr]. rewrite <-str_app_assoc in Hr. apply str_app_inj_r in Hr as ->.
    by rewrite strip_suffix_app.
  - destruct (strip_suffix "." label) as [r|] eqn:E; [|done]. intros _.
    apply strip_suffix_Some in E as ->. exists r. by rewrite str_app_assoc.
Qed.

(** the reserved zone is closed.  A name is passed on to the ordinary resolver
    path ([None]) exactly when it is outside the zone, so no label inside
    [wasmcloud.internal] can ever be answered by real DNS. *)
Theorem resolve_None_iff_outside_zone name :
  resolve name = None ↔ in_zone name = false.
Proof.
  unfold resolve, in_zone. change (to_ascii_lowercase (strip_root_dot name)) with (norm name).
  destruct (strip_suffix ZONE (norm name)) as [label|] eqn:E.
  - destruct label as [|c label]; simpl.
    + apply strip_suffix_Some in E. rewrite str_app_nil in E. rewrite E.
      by rewrite String.eqb_refl.
    + rewrite (zone_label_boundary _ _ E) by done.
      apply strip_suffix_Some in E. destruct (String.eqb_spec (norm name) ZONE) as [Hz|Hz].
      { rewrite E in Hz. apply (f_equal String.length) in Hz.
        rewrite str_length_app in Hz. simpl in Hz. lia. }
      simpl. destruct (strip_suffix "." (String c label)); simpl; [|done].
      split; [|done]. repeat case_match; done.
  - split; [intros _|done]. apply orb_false_iff. split.
    + apply String.eqb_neq. intros Hz. rewrite Hz in E. discriminate.
    + apply not_true_iff_false. rewrite ends_with_spec. intros [r Hr].
      rewrite <-str_app_assoc in Hr. apply strip_suffix_Some in Hr. congruence.
Qed.

Lemma resolve_label label :
  label ≠ "" →
  ∀ name, norm name = label +:+ "." +:+ ZONE →
  resolve name =
    if String.eqb label "service" then Some (Ok Service)
    else if String.eqb label "host" then Some (Ok Host)
    else match strip_suffix ".svc" label with
         | Some service =>
             if negb (is_empty service) && negb (contains "." service)
             then Some (Ok Service) else Some (Err Unknown)
         | None => Some (Err Unknown)
         end.
Proof.
  intros Hne name Hn. unfold resolve.
  change (to_ascii_lowercase (strip_root_dot name)) with (norm name). rewrite Hn.
  rewrite <-str_app_assoc, strip_suffix_app.
  destruct (is_empty (label +:+ ".")) eqn:E.
  - apply is_empty_spec in E. destruct label; [done|discriminate].
  - by rewrite strip_suffix_app.
Qed.

(** a name answers with the machine's sentinel address exactly when it spells
    [host.wasmcloud.internal], ASCII case and one terminal root dot ignored; no
    other name, inside or outside the zone, resolves to the host door. *)
Theorem resolve_host_iff name :
  resolve name = Some (Ok Host) ↔
  to_ascii_lowercase (strip_root_dot name) = "host.wasmcloud.internal".
Proof.
  fold (norm name). split.
  - unfold resolve. fold (norm name). intros H.
    destruct (strip_suffix ZONE (norm name)) as [label|] eqn:E; [|done].
    destruct (is_empty label); [done|].
    destruct (strip_suffix "." label) as [l|] eqn:E2; [|done].
    apply strip_suffix_Some in E, E2. subst label.
    destruct (String.eqb_spec l "service"); [done|].
    destruct (String.eqb_spec l "host") as [->|]; [done|].
    repeat case_match; done.
  - intros Hn. by rewrite (resolve_label "host").
Qed.

(** Every answer of the zone is an IPv4 loopback address, so a connect that
    missed the sentinel rewrite stays on the guest's virtual network. *)
Lemma address_is_loopback n : is_loopback (address n) = true.
Proof. by destruct n. Qed.

Lemma host_address_is_sentinel n : is_host_sentinel (address n) = true ↔ n = Host.
Proof. by destruct n. Qed.

(** rewriting the sentinel yields the real loopback of the socket's own
    address family on the same port, and that target is no longer a sentinel, so
    a rewritten address is never rewritten again. *)
Theorem rewrite_sentinel_spec addr :
  let out := rewrite_sentinel addr in
  is_loopback (sock_ip out) = true
  ∧ sock_port out = sock_port addr
  ∧ (match addr, out with
     | SocketV4 _ _, SocketV4 _ _ | SocketV6 _ _ _ _, SocketV6 _ _ _ _ => True
     | _, _ => False
     end)
  ∧ is_host_sentinel (sock_ip out) = false.
Proof. by destruct addr. Qed.

Lemma is_host_sentinel_mapped :
  is_host_sentinel (V4 HOST_SENTINEL) = true
  ∧ is_host_sentinel (V6 (v4.to_ipv6_mapped HOST_SENTINEL)) = true.
Proof. done. Qed.
