(* ===== verification/DeclaredPort.v ===== *)
(** * Declared ports

    [host/declared_port.rs]: a port a guest listens on, declared in configuration,
    and the checks a list of declarations passes before it is used.  The serde
    derivations are not modelled; the checks are, error by error and in order. *)

From Stdlib Require Import ZArith Lia.
From stdpp Require Import base list gmap strings option.
From S2P Require Import Prelude RustStr Net.
Local Open Scope Z_scope.

Inductive Protocol := Tcp | Udp.
#[global] Instance Protocol_eq_dec : EqDecision Protocol.
Proof. solve_decision. Defined.
Definition is_udp (p : Protocol) : bool := match p with Udp => true | Tcp => false end.
#[global] Instance Protocol_countable : Countable Protocol.
Proof.
  apply (inj_countable' is_udp (λ b, if b then Udp else Tcp)). by intros [].
Defined.

(** [Display for Protocol] *)
Definition show_protocol (p : Protocol) : string :=
  match p with Tcp => "TCP" | Udp => "UDP" end.

Inductive PortMode :=
  | Declared
  | Splice (publish : Z)
  | Direct (bind : IpAddr).

Record DeclaredPort := {
  name : string;
  port : Z;
  protocol : Protocol;
  publish : option Z;
  bind : option IpAddr;
}.

(** One constructor per message. *)
Inductive PortError :=
  | EmptyName
  | ZeroPort
  | PublishAndBind
  | PublishZero
  | BindUnspecified
  | BindLoopback
  | BindMulticast
  | DuplicateName (n : string)
  | DuplicatePort (other this : string) (proto : Protocol) (published : Z)
  | WorkloadBind (n : string)
  | PluginPublish (n : string).

Definition mode (d : DeclaredPort) : PortMode :=
  match bind d, publish d with
  | Some b, _ => Direct b
  | None, Some p => Splice p
  | None, None => Declared
  end.

Definition published_port (d : DeclaredPort) : option Z :=
  match mode d with
  | Declared => None
  | Splice p => Some p
  | Direct _ => Some (port d)
  end.

Definition validate (d : DeclaredPort) : result unit PortError :=
  (ensure! negb (is_empty (trim (name d))) else EmptyName in
   ensure! negb (port d =? 0) else ZeroPort in
   ensure! negb (is_some (publish d) && is_some (bind d)) else PublishAndBind in
   match mode d with
   | Declared => Ok tt
   | Splice p => ensure! negb (p =? 0) else PublishZero in Ok tt
   | Direct b =>
       if is_unspecified b then Err BindUnspecified
       else if is_loopback b then Err BindLoopback
       else if is_multicast b then Err BindMulticast
       else Ok tt
   end)%rust.

(** The loop of [validate_ports], with the names and real ports seen so far. *)
Fixpoint validate_ports_loop (seen_names : gset string)
    (seen_published : gmap (Z * Protocol) string) (ports : list DeclaredPort) :
    result unit PortError :=
  match ports with
  | [] => Ok tt
  | d :: ports =>
      (let? _ := validate d in
       ensure! bool_decide (name d ∉ seen_names) else DuplicateName (name d) in
       let seen_names := {[name d]} ∪ seen_names in
       match published_port d with
       | Some p =>
           match seen_published !! (p, protocol d) with
           | Some other => Err (DuplicatePort other (name d) (protocol d) p)
           | None =>
               validate_ports_loop seen_names
                 (<[(p, protocol d) := name d]> seen_published) ports
           end
       | None => validate_ports_loop seen_names seen_published ports
       end)%rust
  end.

Definition validate_ports (ports : list DeclaredPort) : result unit PortError :=
  validate_ports_loop ∅ ∅ ports.

Fixpoint find_err {A E} (f : A → option E) (l : list A) : option E :=
  match l with
  | [] => None
  | x :: l => match f x with Some e => Some e | None => find_err f l end
  end.

Definition validate_workload_ports (ports : list DeclaredPort) : result unit PortError :=
  match find_err (λ d, if is_some (bind d) then Some (WorkloadBind (name d)) else None) ports with
  | Some e => Err e
  | None => validate_ports ports
  end.

Definition validate_plugin_ports (ports : list DeclaredPort) : result unit PortError :=
  match find_err (λ d, match mode d with
                       | Splice _ => Some (PluginPublish (name d))
                       | _ => None
                       end) ports with
  | Some e => Err e
  | None => validate_ports ports
  end.

(** ** What a list of declarations must satisfy *)

(** The real ports a list exposes, with their transport. *)
Definition exposed (ports : list DeclaredPort) : list (Z * Protocol) :=
  omap (λ d, (λ p, (p, protocol d)) <$> published_port d) ports.

Record ports_ok (ports : list DeclaredPort) : Prop := {
  ports_each : Forall (λ d, validate d = Ok tt) ports;
  ports_names : NoDup (name <$> ports);
  ports_exposed : NoDup (exposed ports);
}.

Lemma exposed_cons d ports :
  exposed (d :: ports) =
    match published_port d with
    | Some p => (p, protocol d) :: exposed ports
    | None => exposed ports
    end.
Proof. unfold exposed. simpl. by destruct (published_port d). Qed.

Lemma ports_ok_cons d ports :
  ports_ok (d :: ports) ↔
  validate d = Ok tt ∧ (name d ∉ (name <$> ports))
  ∧ (∀ p, published_port d = Some p → (p, protocol d) ∉ exposed ports)
  ∧ ports_ok ports.
Proof.
  split.
  - intros [Hv Hn He]. apply Forall_cons_1 in Hv as [Hv Hvs].
    rewrite fmap_cons, list.NoDup_cons in Hn. destruct Hn as [Hn Hns].
    rewrite exposed_cons in He. split; [done|]. split; [done|].
    destruct (published_port d) as [p|]; [|by repeat split].
    apply list.NoDup_cons in He as [He Hes].
    split; [by intros ? [= <-]|by repeat split].
  - intros (Hv & Hn & He & [Hvs Hns Hes]). split.
    + by constructor.
    + rewrite fmap_cons. by constructor.
    + rewrite exposed_cons. destruct (published_port d) as [p|]; [|done].
      constructor; [by apply He|done].
Qed.

Lemma validate_ports_loop_ok ports names pub :
  validate_ports_loop names pub ports = Ok tt ↔
  ports_ok ports
  ∧ (∀ n, n ∈ (name <$> ports) → n ∉ names)
  ∧ (∀ k, k ∈ exposed ports → pub !! k = None).
Proof.
  revert names pub. induction ports as [|d ports IH]; intros names pub.
  { split; [|done]. intros _. split; [split; constructor|].
    split; intros ? H; by apply not_elem_of_nil in H. }
  rewrite ports_ok_cons, exposed_cons, fmap_cons. simpl.
  destruct (validate d) as [[]|e]; [|by split; [|intros [[]]]].
  case_bool_decide as Hn; [|by split; [|intros (_ & Hf & _); destruct (Hf (name d)); [left|]]].
  destruct (published_port d) as [p|].
  - destruct (pub !! (p, protocol d)) as [other|] eqn:Hpub.
    { split; [done|]. intros (_ & _ & Hf). by rewrite Hf in Hpub by left. }
    rewrite IH. split.
    + intros (Hok & Hf & Hk). setoid_rewrite lookup_insert_None in Hk. set_solver.
    + intros ((_ & Hni & Hpi & Hok) & Hf & Hk). split; [done|]. split; [set_solver|].
      intros k Hin. apply lookup_insert_None. set_solver.
  - rewrite IH. split; [set_solver|].
    intros ((_ & Hni & _ & Hok) & Hf & Hk). set_solver.
Qed.

(** [validate_ports] accepts a list exactly when every entry is valid on its
    own, no two share a name, and no two claim the same real port on the same
    transport (the published port of a splice, the declared port of a direct
    bind). *)
Theorem validate_ports_iff ports : validate_ports ports = Ok tt ↔ ports_ok ports.
Proof.
  unfold validate_ports. rewrite validate_ports_loop_ok. split; [naive_solver|].
  intros Hok. split; [done|]. split; [set_solver|]. intros k _. apply lookup_empty.
Qed.

Lemma find_err_None {A E} (f : A → option E) l :
  find_err f l = None ↔ ∀ x, x ∈ l → f x = None.
Proof.
  induction l as [|x l IH]; simpl; [set_solver|].
  destruct (f x) eqn:Hf; [|rewrite IH; set_solver].
  split; [done|]. intros Hall. rewrite Hall in Hf; [done|by left].
Qed.

(** A direct bind that passed validation names a concrete, non-loopback unicast
    address in the spelling that was declared. *)
Lemma validate_direct d b :
  validate d = Ok tt → mode d = Direct b →
  is_unspecified b = false ∧ is_loopback b = false ∧ is_multicast b = false
  ∧ publish d = None ∧ port d ≠ 0.
Proof.
  unfold validate. intros Hv Hm. rewrite Hm in Hv.
  destruct (negb (is_empty _)); [|done]. destruct (port d =? 0) eqn:Hp; [done|]. simpl in Hv.
  unfold mode in Hm. destruct (bind d), (publish d); simpl in Hv; try done.
  injection Hm as ->. repeat case_match; bools; done.
Qed.

(** a tenant never gets a real listening socket.  A workload's accepted list
    holds no direct bind, so every port it exposes is one the host publishes; and
    a plugin's accepted list holds no splice, so every port it exposes is a
    concrete non-loopback address the operator named. *)
Theorem validated_exposure ports d :
  d ∈ ports →
  (validate_workload_ports ports = Ok tt →
     ports_ok ports ∧ bind d = None ∧ published_port d = publish d)
  ∧ (validate_plugin_ports ports = Ok tt →
     ports_ok ports
     ∧ match mode d with
       | Declared => published_port d = None
       | Splice _ => False
       | Direct b => published_port d = Some (port d) ∧ is_unspecified b = false
                     ∧ is_loopback b = false ∧ is_multicast b = false
       end).
Proof.
  intros Hd. split.
  - unfold validate_workload_ports. intros H. case_in H.
    rewrite find_err_None in E. specialize (E d Hd).
    destruct (bind d) eqn:Hb; [done|]. rewrite validate_ports_iff in H.
    unfold published_port, mode. rewrite Hb. by destruct (publish d).
  - unfold validate_plugin_ports. intros H. case_in H.
    rewrite find_err_None in E. specialize (E d Hd). rewrite validate_ports_iff in H.
    split; [done|]. unfold published_port. destruct (mode d) as [|p|b] eqn:Hm; try done.
    destruct H as [Hv _ _]. rewrite list.Forall_forall in Hv.
    destruct (validate_direct d b (Hv d Hd) Hm) as (? & ? & ? & ? & ?). auto.
Qed.

Definition sample_port : DeclaredPort :=
  {| name := "grpc"; port := 9090; protocol := Tcp; publish := None;
     bind := Some (V4 (Ipv4Addr_new 10 0 0 5)) |}.

Lemma validated_exposure_witness :
  sample_port ∈ [sample_port] ∧ validate_plugin_ports [sample_port] = Ok tt
  ∧ published_port sample_port = Some 9090.
Proof.
  assert (sample_port ∈ [sample_port]) as Hin by left.
  split; [exact Hin|]. split; [reflexivity|].
  exact (proj1 (proj2 (proj2 (validated_exposure [sample_port] sample_port Hin) eq_refl))).
Defined.
