(* ===== verification/Ports.v ===== *)
(** * The host's port table

    [host/ports.rs]: which real ports are spoken for, and the reservations that
    hold them.  The mutex is not modelled: each operation runs under it, so a
    history is a sequence of operations; a poisoned lock (a panic while it is
    held) does not arise in this code. *)

From Stdlib Require Import ZArith Lia.
From stdpp Require Import base list gmap strings option.
From S2P Require Import Prelude RustStr Net DeclaredPort.

Inductive PortOwner :=
  | OwnerHost (n : string)
  | OwnerWorkload (id : string)
  | OwnerPlugin (id : string).
#[global] Instance PortOwner_eq_dec : EqDecision PortOwner.
Proof. solve_decision. Defined.

(** [Display for PortOwner] *)
Definition show_owner (o : PortOwner) : string :=
  match o with
  | OwnerHost n => "host " +:+ n
  | OwnerWorkload id => "workload '" +:+ id +:+ "'"
  | OwnerPlugin id => "host plugin '" +:+ id +:+ "'"
  end.

Abbreviation PortKey := (Protocol * SocketAddr)%type.
Abbreviation PortTable := (gmap PortKey PortOwner).

(** The conflict error names the current holder. *)
Inductive ReserveError := AlreadyPublished (key : PortKey) (holder : PortOwner).

(** A live claim; dropping it releases the key. *)
Record PortReservation := { res_key : PortKey }.

Definition reserve (t : PortTable) (p : Protocol) (a : SocketAddr) (o : PortOwner) :
    result (PortTable * PortReservation) ReserveError :=
  let key := (p, a) in
  match t !! key with
  | Some holder => Err (AlreadyPublished key holder)
  | None => Ok (<[key := o]> t, {| res_key := key |})
  end.

Definition is_published (t : PortTable) (p : Protocol) (a : SocketAddr) : bool :=
  bool_decide (is_Some (t !! (p, a))).

Definition release (t : PortTable) (key : PortKey) : PortTable := delete key t.

(** [Drop for PortReservation] *)
Definition drop_reservation (t : PortTable) (r : PortReservation) : PortTable :=
  release t (res_key r).

Definition reservation_addr (r : PortReservation) : SocketAddr := (res_key r).2.

(** ** Histories: the table with the reservations alive *)

Record World := { table : PortTable; live : list PortReservation }.

Definition initial : World := {| table := ∅; live := [] |}.

Inductive step : World → World → Prop :=
  | step_reserve w p a o t r :
      reserve (table w) p a o = Ok (t, r) →
      step w {| table := t; live := r :: live w |}
  | step_refused w p a o e :
      reserve (table w) p a o = Err e →
      step w w
  | step_drop w r l1 l2 :
      live w = l1 ++ r :: l2 →
      step w {| table := drop_reservation (table w) r; live := l1 ++ l2 |}.

Definition reachable (w : World) : Prop := rtc step initial w.

(** The table is exactly the live reservations, each key held once. *)
Record table_inv (w : World) : Prop := {
  inv_nodup : NoDup (res_key <$> live w);
  inv_keys : ∀ k, is_Some (table w !! k) ↔ k ∈ (res_key <$> live w);
}.

Lemma step_preserves_inv w w' : step w w' → table_inv w → table_inv w'.
Proof.
  intros Hstep [Hnd Hk]. destruct Hstep as [w p a o t r Hr|w p a o e He|w r l1 l2 Hl]; simpl.
  - unfold reserve in Hr. destruct (table w !! (p, a)) eqn:E; [done|].
    injection Hr as <- <-. split; simpl.
    + constructor; [|done]. rewrite <-Hk, E. by intros [].
    + intros k. rewrite elem_of_cons, <-Hk, lookup_insert_is_Some.
      destruct (decide ((p, a) = k)); naive_solver.
  - done.
  - unfold drop_reservation, release. rewrite Hl, fmap_app in *. simpl in *.
    apply list.NoDup_app in Hnd as (Hnd1 & Hdis & [Hr Hnd2]%list.NoDup_cons).
    split; simpl.
    + rewrite fmap_app. apply list.NoDup_app. set_solver.
    + intros k. rewrite lookup_delete_is_Some, Hk, fmap_app. set_solver.
Qed.

Lemma reachable_inv w : reachable w → table_inv w.
Proof.
  apply rtc_invariant; [|exact step_preserves_inv].
  split; simpl; [constructor|]. intros k. rewrite lookup_empty.
  split; [by intros []|by intros ?%not_elem_of_nil].
Qed.

(** in every history of reservations and drops, the table answers
    "published" for exactly the keys some live reservation holds, and no key is
    held by two live reservations at once; in particular a dropped reservation
    frees its port and only its port. *)
Theorem table_is_live_reservations w p a :
  reachable w →
  NoDup (res_key <$> live w)
  ∧ (is_published (table w) p a = true ↔ ∃ r, r ∈ live w ∧ res_key r = (p, a)).
Proof.
  intros [Hnd Hk]%reachable_inv. split; [done|].
  unfold is_published. rewrite bool_decide_eq_true, Hk, list_elem_of_fmap. naive_solver.
Qed.

Lemma table_is_live_reservations_witness :
  let a := SocketV4 LOCALHOST_V4 8080 in
  let w := {| table := <[(Tcp, a) := OwnerHost "ingress"]> ∅;
              live := [{| res_key := (Tcp, a) |}] |} in
  reachable w ∧ is_published (table w) Tcp a = true.
Proof.
  intros a w.
  assert (reachable w) as Hw.
  { eapply rtc_once. eapply (step_reserve initial Tcp a (OwnerHost "ingress")). reflexivity. }
  split; [exact Hw|]. apply (proj2 (table_is_live_reservations w Tcp a Hw)).
  exists {| res_key := (Tcp, a) |}. split; [left|reflexivity].
Defined.

(** [reserve] succeeds exactly on a free port; the new holder is recorded and
    every other port keeps its answer; on a taken port the table is left alone
    and the error names the current holder. *)
Theorem reserve_spec t p a o :
  match reserve t p a o with
  | Ok (t', r) =>
      is_published t p a = false ∧ res_key r = (p, a) ∧ t' !! (p, a) = Some o
      ∧ (∀ p' a', (p', a') ≠ (p, a) → is_published t' p' a' = is_published t p' a')
      ∧ drop_reservation t' r = t
  | Err (AlreadyPublished k holder) =>
      k = (p, a) ∧ t !! (p, a) = Some holder
  end.
Proof.
  unfold reserve. destruct (t !! (p, a)) as [h|] eqn:E; [done|].
  unfold is_published. rewrite E, bool_decide_eq_false_2 by (by intros []).
  split; [done|]. split; [done|]. split; [apply lookup_insert_eq|]. split.
  - intros p' a' Hne. by rewrite lookup_insert_ne.
  - unfold drop_reservation, release. simpl. by apply delete_insert_id.
Qed.
