(* ===== verification/AllowedLoopback.v ===== *)
(** * Port allowlist for the machine's own loopback

    [host/allowed_loopback.rs]: entries [5432], [5432/tcp], [53/udp]; parsing,
    printing, and the check.  [from_u64] and [from_i64] are the serde visitor's
    numeric arms; [deserializer.deserialize_any] itself is serde's. *)

From Stdlib Require Import ZArith Lia Ascii.
From stdpp Require Import base list strings option.
From S2P Require Import Prelude RustStr Net DeclaredPort.
Local Open Scope string_scope.

Record AllowedLoopbackPort := { lp_port : Z; lp_protocol : Protocol }.
#[global] Instance AllowedLoopbackPort_eq_dec : EqDecision AllowedLoopbackPort.
Proof. solve_decision. Defined.

Definition tcp (port : Z) : AllowedLoopbackPort :=
  {| lp_port := port; lp_protocol := Tcp |}.
Definition udp (port : Z) : AllowedLoopbackPort :=
  {| lp_port := port; lp_protocol := Udp |}.

Definition permits (e : AllowedLoopbackPort) (addr : SocketAddr) (p : Protocol) : bool :=
  (lp_port e =? sock_port addr)%Z && bool_decide (lp_protocol e = p).

Definition check_allowed_loopback (policy : list AllowedLoopbackPort)
    (addr : SocketAddr) (p : Protocol) : bool :=
  existsb (λ e, permits e addr p) policy.

Inductive LoopbackError :=
  | Empty
  | LooksLikeRange
  | Wildcard
  | UnknownProtocol (other : string)
  | InvalidPort
  | PortZero
  | Negative (v : Z).

Definition from_str (s : string) : result AllowedLoopbackPort LoopbackError :=
  let trimmed := trim s in
  if is_empty trimmed then Err Empty
  else if contains "-" trimmed || contains ".." trimmed then Err LooksLikeRange
  else if contains "*" trimmed then Err Wildcard
  else
    (let? (port, protocol) :=
       match split_once "/" trimmed with
       | Some (port, proto) =>
           let proto := to_ascii_lowercase (trim proto) in
           if String.eqb proto "tcp" then Ok (trim port, Tcp)
           else if String.eqb proto "udp" then Ok (trim port, Udp)
           else Err (UnknownProtocol proto)
       | None => Ok (trimmed, Tcp)
       end in
     let? port := ok_or (parse_uint u16_MAX port) InvalidPort in
     if (port =? 0)%Z then Err PortZero
     else Ok {| lp_port := port; lp_protocol := protocol |})%rust.

(** [Display]: TCP is the default, so it prints as the bare port. *)
Definition to_string (e : AllowedLoopbackPort) : string :=
  match lp_protocol e with
  | Tcp => show_uint (lp_port e)
  | Udp => show_uint (lp_port e) +:+ "/udp"
  end.

(** [visit_u64] and [visit_i64] *)
Definition from_u64 (v : Z) : result AllowedLoopbackPort LoopbackError :=
  from_str (show_uint v).
Definition from_i64 (v : Z) : result AllowedLoopbackPort LoopbackError :=
  if (v <? 0)%Z then Err (Negative v) else from_str (show_uint v).

(** ** Strings made of digits and [/udp] *)

(** Neither trimming nor the refused characters touch these bytes. *)
Definition plain (c : ascii) : bool :=
  is_ascii_digit c || existsb (Ascii.eqb c) ["/"; "u"; "d"; "p"]%char.

Lemma strip_ws_plain c s : plain c = true → strip_ws (String c s) = None.
Proof. destruct c as [[] [] [] [] [] [] [] []]; intros H; try discriminate H; reflexivity. Qed.

Lemma trim_plain s : str_all plain s = true → trim s = s.
Proof. apply trim_id, strip_ws_plain. Qed.

Lemma digits_plain s : str_all is_ascii_digit s = true → str_all plain s = true.
Proof.
  induction s as [|c s IH]; [done|]. simpl. intros [H1 H2]%andb_true_iff.
  unfold plain at 1. by rewrite H1, IH.
Qed.

Lemma split_once_digits s t :
  str_all is_ascii_digit s = true → split_once "/" (s +:+ String "/" t) = Some (s, t).
Proof. intros Hs. apply (split_once_lacks "/" ""), (str_all_lacks is_ascii_digit); done. Qed.

Lemma split_once_digits_None s :
  str_all is_ascii_digit s = true → split_once "/" s = None.
Proof.
  intros Hs. by apply split_once_None_of_contains, (str_all_not_contains is_ascii_digit).
Qed.

Lemma to_string_plain e :
  (0 ≤ lp_port e)%Z → str_all plain (to_string e) = true.
Proof.
  intros Hp. unfold to_string.
  destruct (lp_protocol e); rewrite ?str_all_app;
    rewrite digits_plain by (by apply show_uint_digits); done.
Qed.

(** A plain string passes the three textual refusals. *)
Lemma from_str_plain s :
  str_all plain s = true → s ≠ "" →
  from_str s =
    (let? (port, protocol) :=
       match split_once "/" s with
       | Some (port, proto) =>
           let proto := to_ascii_lowercase (trim proto) in
           if String.eqb proto "tcp" then Ok (trim port, Tcp)
           else if String.eqb proto "udp" then Ok (trim port, Udp)
           else Err (UnknownProtocol proto)
       | None => Ok (s, Tcp)
       end in
     let? port := ok_or (parse_uint u16_MAX port) InvalidPort in
     if (port =? 0)%Z then Err PortZero
     else Ok {| lp_port := port; lp_protocol := protocol |})%rust.
Proof.
  intros Hs Hne. unfold from_str. rewrite trim_plain by done.
  rewrite !(str_all_not_contains plain) by done. by destruct s.
Qed.

(** printing a loopback entry and parsing it back gives the entry, for every
    non-zero 16-bit port and both transports. *)
Theorem loopback_display_parse e :
  (1 ≤ lp_port e ≤ u16_MAX)%Z → from_str (to_string e) = Ok e.
Proof.
  destruct e as [p proto]. simpl. intros Hp. rewrite from_str_plain.
  - pose proof (show_uint_digits p ltac:(lia)) as Hd.
    assert (parse_uint u16_MAX (show_uint p) = Some p) as Hparse.
    { apply parse_show_uint; unfold u16_MAX, u64_MAX in *; lia. }
    unfold to_string; simpl. destruct proto; simpl.
    + rewrite split_once_digits_None by done. rewrite Hparse. simpl.
      by rewrite (proj2 (Z.eqb_neq p 0)) by lia.
    + change "/udp" with (String "/" "udp"). rewrite split_once_digits by done.
      rewrite (trim_plain (show_uint p)) by (by apply digits_plain).
      change (String.eqb (to_ascii_lowercase (trim "udp")) "tcp") with false.
      change (String.eqb (to_ascii_lowercase (trim "udp")) "udp") with true. simpl.
      rewrite Hparse. simpl. by rewrite (proj2 (Z.eqb_neq p 0)) by lia.
  - apply to_string_plain. simpl. lia.
  - unfold to_string. simpl. pose proof (show_uint_nonempty p).
    destruct proto; [done|]. by destruct (show_uint p).
Qed.

Lemma loopback_display_parse_witness :
  to_string (udp 53) = "53/udp" ∧ from_str "53/udp" = Ok (udp 53).
Proof.
  split; [reflexivity|]. apply (loopback_display_parse (udp 53)).
  unfold u16_MAX; simpl; lia.
Defined.

(** an accepted entry always names one concrete port: non-zero, within 16
    bits, and it grants that port and transport and no other. *)
Theorem loopback_entry_grants_one_port s e :
  from_str s = Ok e →
  (1 ≤ lp_port e ≤ u16_MAX)%Z
  ∧ ∀ addr p, permits e addr p = true ↔ sock_port addr = lp_port e ∧ p = lp_protocol e.
Proof.
  unfold from_str. intros H.
  destruct (is_empty _); [done|]. destruct (_ || _); [done|].
  destruct (contains "*" _); [done|]. case_in H. destruct a as [port proto]. clear E.
  destruct (parse_uint u16_MAX port) as [n|] eqn:Hn; [|done]. simpl in H.
  apply parse_uint_bounds in Hn; [|done].
  destruct (n =? 0)%Z eqn:H0; [done|]. injection H as <-. bools. simpl.
  split; [lia|]. intros addr p. unfold permits. simpl.
  rewrite andb_true_iff, Z.eqb_eq, bool_decide_eq_true. naive_solver.
Qed.

Lemma loopback_entry_grants_one_port_witness :
  from_str " 53/UDP " = Ok (udp 53) ∧ permits (udp 53) (SocketV4 LOCALHOST_V4 53) Udp = true.
Proof.
  assert (from_str " 53/UDP " = Ok (udp 53)) as H by reflexivity.
  split; [exact H|]. by apply (proj2 (loopback_entry_grants_one_port _ _ H)).
Defined.

Example loopback_refusals :
  from_str "" = Err Empty ∧ from_str "80-90" = Err LooksLikeRange
  ∧ from_str "80..90" = Err LooksLikeRange ∧ from_str "*" = Err Wildcard
  ∧ from_str "53/sctp" = Err (UnknownProtocol "sctp") ∧ from_str "65536" = Err InvalidPort
  ∧ from_str "0" = Err PortZero ∧ from_i64 (-5)%Z = Err (Negative (-5)).
Proof. by vm_compute. Qed.
