(* ===== verification/AllowedIpName.v ===== *)
(** * Name allowlist for [wasi:sockets/ip-name-lookup]

    [host/allowed_ip_name.rs]: entries naming what a guest may resolve.  The
    combined check with [allowedHosts] ([check_allowed_lookup]) is in
    AllowedHosts.v, after both entry types. *)

From Stdlib Require Import ZArith Lia Ascii.
From stdpp Require Import base list strings option.
From S2P Require Import Prelude RustStr Net UriLib.
Local Open Scope string_scope.

Inductive AllowedIpName :=
  | Any
  | Exact (name : string)
  | SuffixWildcard (suffix : string)
  | Ip (a : IpAddr).
#[global] Instance AllowedIpName_eq_dec : EqDecision AllowedIpName.
Proof. solve_decision. Defined.

Definition matches (e : AllowedIpName) (host : UrlHost) : bool :=
  match e, host with
  | Any, _ => true
  | Ip allowed, HostIpv4 a => bool_decide (allowed = V4 a)
  | Ip allowed, HostIpv6 a => bool_decide (allowed = V6 a)
  | Ip _, Domain _ => false
  | Exact allowed, Domain d => eq_ignore_ascii_case (strip_root_dot d) allowed
  | SuffixWildcard suffix, Domain d =>
      let d := strip_root_dot d in
      (String.length suffix <? String.length d)%nat
      && eq_ignore_ascii_case (str_drop (String.length d - String.length suffix) d) suffix
  | Exact _, _ | SuffixWildcard _, _ => false
  end.

Definition check_allowed_ip_name (policy : list AllowedIpName) (host : UrlHost) : bool :=
  existsb (λ e, matches e host) policy.

Inductive NameError :=
  | Empty
  | HasScheme | HasPath | HasQuery | HasFragment
  | BadWildcard
  | HasPort
  | EmptyDomain
  | DomainTooLong
  | EmptyLabel
  | LabelTooLong
  | LabelChars
  | LabelHyphen.

Definition label_char (c : ascii) : bool := is_ascii_alphanumeric c || Ascii.eqb c "-".

(** One label, in the order the code tests it; [None] is a pass. *)
Definition label_error (label : string) : option NameError :=
  if is_empty label then Some EmptyLabel
  else if (63 <? String.length label)%nat then Some LabelTooLong
  else if negb (str_all label_char label) then Some LabelChars
  else if starts_with "-" label || ends_with "-" label then Some LabelHyphen
  else None.

Definition validate_domain (domain : string) : result unit NameError :=
  let domain := strip_root_dot domain in
  if is_empty domain then Err EmptyDomain
  else if (253 <? String.length domain)%nat then Err DomainTooLong
  else match find_map label_error (split "." domain) with
       | Some e => Err e
       | None => Ok tt
       end.

(** [for (pattern, what) in [...]]: the first pattern the entry contains. *)
Definition not_a_name (trimmed : string) : option NameError :=
  find_map (λ '(p, e), if contains p trimmed then Some e else None)
    [("://", HasScheme); ("/", HasPath); ("?", HasQuery); ("#", HasFragment)].

Definition from_str (s : string) : result AllowedIpName NameError :=
  let trimmed := trim s in
  if is_empty trimmed then Err Empty
  else if String.eqb trimmed "*" then Ok Any
  else match not_a_name trimmed with
  | Some e => Err e
  | None =>
      match strip_prefix "*." trimmed with
      | Some suffix =>
          (let? _ := validate_domain suffix in
           Ok (SuffixWildcard ("." +:+ to_ascii_lowercase suffix)))%rust
      | None =>
          if contains "*" trimmed then Err BadWildcard
          else match parse_ip trimmed with
          | Some a => Ok (Ip a)
          | None =>
              if contains ":" trimmed then Err HasPort
              else
                (let? _ := validate_domain trimmed in
                 Ok (Exact (to_ascii_lowercase trimmed)))%rust
          end
      end
  end.

(** [Display], except for the [Ip] arm, which is [core::net]'s formatter. *)
Definition to_string (show_ip : IpAddr → string) (e : AllowedIpName) : string :=
  match e with
  | Any => "*"
  | Exact name => name
  | SuffixWildcard suffix => "*" +:+ suffix
  | Ip a => show_ip a
  end.

(** ** Matching *)

Lemma drop_suffix_eq s t :
  (String.length t < String.length s)%nat →
  eq_ignore_ascii_case (str_drop (String.length s - String.length t) s) t = true ↔
  ∃ p u, s = p +:+ u ∧ p ≠ "" ∧ to_ascii_lowercase u = to_ascii_lowercase t.
Proof.
  intros Hlt. rewrite eq_ignore_ascii_case_eq. split.
  - intros Heq. eexists (str_take (String.length s - String.length t) s), _.
    split; [symmetry; apply str_take_drop|]. split; [|exact Heq].
    intros Hnil. pose proof (str_take_drop (String.length s - String.length t) s) as Hs.
    rewrite Hnil, str_app_nil in Hs. apply (f_equal String.length) in Hs.
    rewrite str_drop_length in Hs. lia.
  - intros (p & u & -> & _ & Hu).
    rewrite str_length_app, (lower_eq_length u t Hu).
    replace (String.length p + String.length t - String.length t)%nat
      with (String.length p) by lia.
    by rewrite str_drop_app.
Qed.

(** a suffix entry matches exactly the domains that, without one terminal
    root dot and ignoring ASCII case, are a non-empty prefix followed by the
    suffix: never the bare apex, never a literal address. *)
Theorem wildcard_matches_iff suffix host :
  matches (SuffixWildcard suffix) host = true ↔
  ∃ d p u, host = Domain d ∧ strip_root_dot d = p +:+ u ∧ p ≠ ""
           ∧ to_ascii_lowercase u = to_ascii_lowercase suffix.
Proof.
  destruct host as [d|a|a]; [|split; [done|naive_solver]..]. simpl.
  rewrite andb_true_iff, Nat.ltb_lt. split.
  - intros [Hlt Heq]. apply drop_suffix_eq in Heq as (p & u & ? & ? & ?); [|done].
    by exists d, p, u.
  - intros (d' & p & u & [= <-] & Hd & Hp & Hu).
    assert (String.length suffix < String.length (strip_root_dot d))%nat as Hlt.
    { rewrite Hd, str_length_app, (lower_eq_length u suffix Hu).
      destruct p; [done|]. simpl. lia. }
    split; [done|]. apply drop_suffix_eq; eauto.
Qed.

(** ** Parsing stores canonical entries *)

Lemma find_map_None {A B} (f : A → option B) l :
  find_map f l = None ↔ ∀ x, x ∈ l → f x = None.
Proof.
  induction l as [|x l IH]; simpl.
  - split; [by intros _ ? ?%not_elem_of_nil|done].
  - destruct (f x) eqn:E.
    + split; [done|]. intros Hall. rewrite Hall in E; [done|by left].
    + rewrite IH. split.
      * intros Hall y [->|Hy]%elem_of_cons; auto.
      * intros Hall y Hy. apply Hall. by right.
Qed.

Lemma find_map_fmap {A B C} (f : A → option B) (g : C → A) l :
  find_map f (g <$> l) = find_map (λ x, f (g x)) l.
Proof.
  induction l as [|x l IH]; [done|]. rewrite fmap_cons. cbn [find_map]. by rewrite IH.
Qed.

Lemma find_map_ext {A B} (f g : A → option B) l :
  (∀ x, f x = g x) → find_map f l = find_map g l.
Proof. intros Hfg. induction l as [|x l IH]; [done|]. simpl. by rewrite Hfg, IH. Qed.

Lemma label_char_lower c : label_char (lower c) = label_char c.
Proof. by destruct c as [[] [] [] [] [] [] [] []]. Qed.

Lemma hyphen_ends_lower l :
  starts_with "-" (to_ascii_lowercase l) = starts_with "-" l
  ∧ ends_with "-" (to_ascii_lowercase l) = ends_with "-" l.
Proof.
  assert (∀ c, lower c = "-"%char → c = "-"%char) as Hc.
  { intros c. by destruct c as [[] [] [] [] [] [] [] []]. }
  split; apply eq_true_iff_eq.
  - rewrite !starts_with_spec. split.
    + intros [r Hr]. destruct l as [|c l]; [done|].
      rewrite str_app_cons in Hr. injection Hr as Hl _. exists l. by rewrite (Hc c Hl).
    + intros [r ->]. by exists (to_ascii_lowercase r).
  - by rewrite (ends_with_char_lower "-").
Qed.

Lemma label_error_lower l : label_error (to_ascii_lowercase l) = label_error l.
Proof.
  unfold label_error. destruct (hyphen_ends_lower l) as [-> ->].
  unfold to_ascii_lowercase at 2 3. rewrite str_map_length, str_all_map by apply label_char_lower.
  by destruct l.
Qed.

Lemma validate_domain_lower d :
  validate_domain (to_ascii_lowercase d) = validate_domain d.
Proof.
  unfold validate_domain. rewrite strip_root_dot_lower.
  set (e := strip_root_dot d). rewrite split_lower
    by (intros c; by destruct c as [[] [] [] [] [] [] [] []]).
  rewrite find_map_fmap.
  rewrite (find_map_ext _ label_error) by apply label_error_lower.
  assert (is_empty (to_ascii_lowercase e) = is_empty e) as -> by (by destruct e).
  unfold to_ascii_lowercase. by rewrite str_map_length.
Qed.

(** The bytes of an accepted name: letters, digits, [-] and [.]. *)
Definition name_char (c : ascii) : bool := label_char c || Ascii.eqb c ".".

Lemma validate_domain_chars d : validate_domain d = Ok tt → str_all name_char d = true.
Proof.
  unfold validate_domain. intros H.
  destruct (is_empty _); [done|]. destruct (_ <? _)%nat; [done|].
  destruct (find_map _ _) eqn:E; [done|].
  assert (str_all name_char (strip_root_dot d) = true) as Hs.
  { apply split_str_all. intros l Hl. rewrite find_map_None in E. specialize (E l Hl).
    unfold label_error in E. repeat case_in E. by bools. }
  destruct (strip_root_dot_cases d) as [(r & -> & Hr)|[_ Hr]]; rewrite Hr in Hs; [|done].
  by rewrite str_all_app, Hs.
Qed.

Lemma name_char_ws c r : name_char c = true → strip_ws (String c r) = None.
Proof.
  destruct c as [[] [] [] [] [] [] [] []]; intros H; try discriminate H; reflexivity.
Qed.

Lemma name_not_url s : str_all name_char s = true → not_a_name s = None.
Proof. intros Hs. unfold not_a_name. simpl. by rewrite !(str_all_not_contains name_char). Qed.

Lemma validate_nonempty d : validate_domain d = Ok tt → d ≠ "".
Proof. intros H ->. discriminate H. Qed.

(** What parsing leaves in an entry. *)
Definition canonical (e : AllowedIpName) : Prop :=
  match e with
  | Exact n => to_ascii_lowercase n = n ∧ validate_domain n = Ok tt ∧ parse_ip n = None
  | SuffixWildcard w =>
      ∃ d, w = "." +:+ d ∧ to_ascii_lowercase d = d ∧ validate_domain d = Ok tt
  | Any | Ip _ => True
  end.

Lemma from_str_canonical s e : from_str s = Ok e → canonical e.
Proof.
  unfold from_str. intros H.
  destruct (is_empty _); [done|]. destruct (String.eqb _ _); [by injection H as <-|].
  destruct (not_a_name _); [done|].
  destruct (strip_prefix "*." (trim s)) as [suffix|].
  - destruct (validate_domain suffix) as [[]|] eqn:Hv; [|done]. injection H as <-.
    exists (to_ascii_lowercase suffix). split; [done|].
    by rewrite to_ascii_lowercase_idemp, validate_domain_lower.
  - destruct (contains "*" _); [done|]. destruct (parse_ip (trim s)) as [a|] eqn:Hip.
    { by injection H as <-. }
    destruct (contains ":" _); [done|].
    destruct (validate_domain (trim s)) as [[]|] eqn:Hv; [|done]. injection H as <-.
    simpl. by rewrite to_ascii_lowercase_idemp, validate_domain_lower, parse_ip_caseless.
Qed.

Lemma star_dot d : strip_prefix "*." ("*" +:+ "." +:+ d) = Some d.
Proof. apply (strip_prefix_app "*." d). Qed.

Lemma from_str_exact n : canonical (Exact n) → from_str n = Ok (Exact n).
Proof.
  intros (Hl & Hv & Hip). pose proof (validate_domain_chars n Hv) as Hc.
  unfold from_str. rewrite (trim_id name_char) by (done || apply name_char_ws).
  rewrite name_not_url by done.
  rewrite !(str_all_not_contains name_char) by done. rewrite Hip, Hv, Hl.
  pose proof (validate_nonempty n Hv) as Hne. destruct n as [|c n]; [done|].
  simpl. apply andb_true_iff in Hc as [Hc _].
  destruct (Ascii.eqb_spec c "*") as [->|Hne']; [done|].
  destruct (Ascii.eqb_spec "*" c) as [<-|_]; done.
Qed.

Lemma from_str_wildcard w : canonical (SuffixWildcard w) → from_str ("*" +:+ w) = Ok (SuffixWildcard w).
Proof.
  intros (d & -> & Hl & Hv). pose proof (validate_domain_chars d Hv) as Hc.
  pose proof (validate_nonempty d Hv) as Hne.
  set (p := λ c, name_char c || Ascii.eqb c "*").
  assert (str_all p ("*" +:+ "." +:+ d) = true) as Hp.
  { rewrite !str_all_app. simpl. apply (str_all_mono name_char); [|done].
    intros c Hc'. unfold p. by rewrite Hc'. }
  unfold from_str. rewrite (trim_id p) by
    (done || (intros c r; destruct c as [[] [] [] [] [] [] [] []]; intros H;
              try discriminate H; reflexivity)).
  assert (not_a_name ("*" +:+ "." +:+ d) = None) as ->.
  { unfold not_a_name. simpl. by rewrite !(str_all_not_contains p). }
  rewrite star_dot, Hv, Hl. by destruct d.
Qed.

(** parsing is a retraction of printing.  Whatever text an entry was parsed
    from, printing the entry and parsing that gives the same entry back (for
    [Ip] entries, provided the address formatter's output parses back). *)
Theorem name_parse_display_parse show_ip s e :
  (∀ a, e = Ip a → from_str (show_ip a) = Ok (Ip a)) →
  from_str s = Ok e → from_str (to_string show_ip e) = Ok e.
Proof.
  intros Hip He%from_str_canonical. destruct e as [|n|w|a]; simpl.
  - reflexivity.
  - by apply from_str_exact.
  - by apply from_str_wildcard.
  - by apply Hip.
Qed.

Lemma name_parse_display_parse_witness :
  from_str "*.Example.COM" = Ok (SuffixWildcard ".example.com")
  ∧ from_str "*.example.com" = Ok (SuffixWildcard ".example.com").
Proof.
  assert (from_str "*.Example.COM" = Ok (SuffixWildcard ".example.com")) as H by reflexivity.
  split; [exact H|].
  refine (name_parse_display_parse (λ _, "") "*.Example.COM" _ _ H). discriminate.
Defined.

(** an accepted name entry written with a terminal root dot grants nothing.
    It is stored with the dot, while the requested name is compared without one,
    so it matches no literal and no name but one ending in two dots. *)
Theorem root_dot_entry_matches_nothing s e host :
  ends_with "." (trim s) = true → parse_ip (trim s) = None →
  from_str s = Ok e → matches e host = true → ∃ r, host = Domain (r +:+ "..").
Proof.
  intros Hdot Hip He Hm. unfold from_str in He.
  destruct (is_empty _); [done|].
  destruct (String.eqb_spec (trim s) "*") as [Ha|_]; [by rewrite Ha in Hdot|].
  destruct (not_a_name _); [done|].
  destruct (strip_prefix "*." (trim s)) as [suffix|] eqn:Hs.
  - apply strip_prefix_Some in Hs. rewrite Hs in Hdot.
    destruct (validate_domain suffix) as [[]|] eqn:Hv; [|done]. injection He as <-.
    rewrite ends_with_char_app in Hdot by (by apply validate_nonempty).
    apply wildcard_matches_iff in Hm as (d & p & u & -> & Hd & _ & Hu).
    destruct (strip_root_dot_ends d) as [r ->]; [|eauto].
    rewrite Hd. apply ends_with_app_l. rewrite <-ends_with_dot_lower, Hu.
    rewrite ends_with_dot_lower. apply ends_with_app_l. by rewrite ends_with_dot_lower.
  - destruct (contains "*" _); [done|]. rewrite Hip in He.
    destruct (contains ":" _); [done|].
    destruct (validate_domain (trim s)) as [[]|]; [|done]. injection He as <-.
    destruct host as [d|a|a]; [|done..]. simpl in Hm.
    rewrite eq_ignore_ascii_case_lower_r in Hm. apply eq_ignore_ascii_case_eq in Hm.
    destruct (strip_root_dot_ends d) as [r ->]; [|eauto].
    by rewrite <-ends_with_dot_lower, Hm, ends_with_dot_lower.
Qed.

Lemma root_dot_entry_matches_nothing_witness :
  from_str "example.com." = Ok (Exact "example.com.")
  ∧ matches (Exact "example.com.") (Domain "example.com") = false
  ∧ matches (Exact "example.com.") (Domain "example.com.") = false
  ∧ ∃ r, Domain "example.com.." = Domain (r +:+ "..").
Proof.
  assert (from_str "example.com." = Ok (Exact "example.com.")) as H by reflexivity.
  split; [exact H|]. split; [reflexivity|]. split; [reflexivity|].
  by apply (root_dot_entry_matches_nothing "example.com." _ (Domain "example.com..")
              eq_refl eq_refl H).
Defined.

Example name_entry_forms :
  from_str "*" = Ok Any ∧ from_str "::1" = Ok (Ip (V6 LOCALHOST_V6))
  ∧ from_str "*com" = Err BadWildcard ∧ from_str "https://x" = Err HasScheme
  ∧ from_str "x/y" = Err HasPath ∧ from_str "a:80" = Err HasPort
  ∧ from_str "a..b" = Err EmptyLabel ∧ from_str "-a" = Err LabelHyphen.
Proof. by vm_compute. Qed.
