(* ===== verification/AllowedHosts.v ===== *)
(** * Outbound host allowlist

    [host/allowed_hosts.rs]: the [allowedHosts] entries, as [wasi:http] matches a
    request against them, as a raw socket or a native plugin's client reads them,
    and as a name lookup does; their parser and printer.  With them the two
    checks that combine entry lists: [check_allowed_hosts] of [host/http.rs] and
    [check_allowed_lookup] of [host/allowed_ip_name.rs].

    The [http] and [url] types are the class [UriLib]. *)

From Stdlib Require Import ZArith Lia Ascii.
From stdpp Require Import base list strings option.
From S2P Require Import Prelude RustStr Net UriLib AllowedIpName.
Local Open Scope string_scope.

(** Who reads a scheme's default port. *)
Inductive PortDefault := ForUrl | ForClient.
#[global] Instance PortDefault_eq_dec : EqDecision PortDefault.
Proof. solve_decision. Defined.

Definition DEFAULT_PORTS : list (string * Z * PortDefault) :=
  [ ("http", 80, ForUrl); ("https", 443, ForUrl); ("ws", 80, ForUrl);
    ("wss", 443, ForUrl); ("ftp", 21, ForUrl);
    ("redis", 6379, ForClient); ("rediss", 6379, ForClient);
    ("valkey", 6379, ForClient); ("valkeys", 6379, ForClient);
    ("postgres", 5432, ForClient); ("postgresql", 5432, ForClient);
    ("nats", 4222, ForClient); ("tls", 4222, ForClient) ]%Z.

Definition lookup_default_port (scheme : string) (read : PortDefault → bool) : option Z :=
  (λ '(_, port, _), port) <$>
    List.find (λ '(known, _, by_), read by_ && eq_ignore_ascii_case scheme known) DEFAULT_PORTS.

Definition default_port (scheme : string) : option Z :=
  lookup_default_port scheme (λ b, bool_decide (b = ForUrl)).

Definition client_default_port (scheme : string) : option Z :=
  lookup_default_port scheme (λ _, true).

Definition port_matches (permitted : option Z) (port : Z) : bool :=
  match permitted with
  | Some permitted => (permitted =? port)%Z
  | None => true
  end.

Definition same_name (policy_host name : string) : bool :=
  eq_ignore_ascii_case (strip_root_dot policy_host) name.

Definition host_is_addr (host : string) (addr : IpAddr) : bool :=
  let host := default host (strip_prefix "[" host) in
  let host := default host (strip_suffix "]" host) in
  is_some_and (parse_ip host) (λ policy, bool_decide (to_canonical policy = to_canonical addr)).

(** The parse errors, one per message. *)
Inductive HostError :=
  | EntryEmpty
  | InvalidScheme (scheme_part : string)
  | HasPathBeyondRoot (path : string)
  | InvalidWildcardHost (rest : string) (cause : HostError)
  | EmptyHostBeforeColon
  | EmptyHost
  | InvalidPortText (port : string)
  | NotAUrl
  | UrlNoHost
  | UrlQuery
  | UrlFragment
  | WildcardForm
  | InvalidAuthority
  | InvalidPort.

Definition reject_non_root_path (path : string) : result unit HostError :=
  if negb (is_empty path) then Err (HasPathBeyondRoot path) else Ok tt.

Definition split_host_port (s : string) : result (string * option Z) HostError :=
  match rsplit_once ":" s with
  | Some (host, port_s) =>
      if is_empty host then Err EmptyHostBeforeColon
      else (let? port := ok_or (parse_uint u16_MAX port_s) (InvalidPortText port_s) in
            Ok (host, Some port))%rust
  | None => if is_empty s then Err EmptyHost else Ok (s, None)
  end.

(** [str::find([':', '/']).unwrap_or(len)]. *)
Fixpoint find_colon_slash (s : string) : nat :=
  match s with
  | EmptyString => 0
  | String c s =>
      if Ascii.eqb c ":" || Ascii.eqb c "/" then 0 else S (find_colon_slash s)
  end.

Section allowed_hosts.
Context `{UriLib}.

Inductive AllowedHost :=
  | Any
  | EntryAuthority (authority : Authority)
  | EntryUrl (url : Url)
  | SuffixWildcard (suffix : string) (scheme : option Scheme) (port : option Z).

(** ** [wasi:http] *)

Definition matches (e : AllowedHost) (request : Uri) : bool :=
  match uri_host request with
  | None => false
  | Some request_host =>
      let request_scheme := uri_scheme_str request in
      let request_port := uri_port_u16 request in
      match e with
      | Any => true
      | EntryAuthority authority =>
          if negb (eq_ignore_ascii_case (authority_host authority) request_host) then false
          else match authority_port_u16 authority with
               | Some p => bool_decide (Some p = request_port)
               | None => true
               end
      | EntryUrl url =>
          match url_host_str url with
          | None => false
          | Some policy_host =>
              if negb (eq_ignore_ascii_case policy_host request_host) then false
              else if is_some_and request_scheme
                        (λ req_scheme, negb (eq_ignore_ascii_case (url_scheme url) req_scheme))
              then false
              else match url_port url with
                   | Some p => bool_decide (Some p = request_port)
                   | None => true
                   end
          end
      | SuffixWildcard suffix scheme port =>
          let host_lower := to_ascii_lowercase request_host in
          match strip_suffix suffix host_lower with
          | None => false
          | Some prefix =>
              if is_empty prefix then false
              else if match scheme, request_scheme with
                      | Some pol_scheme, Some req_scheme =>
                          negb (eq_ignore_ascii_case (scheme_as_str pol_scheme) req_scheme)
                      | _, _ => false
                      end
              then false
              else match port with
                   | Some p => bool_decide (Some p = request_port)
                   | None => true
                   end
          end
      end
  end.

(** ** Ports of a raw socket and of a native plugin's client *)

Definition socket_port (e : AllowedHost) : option Z :=
  match e with
  | Any => None
  | EntryAuthority authority => authority_port_u16 authority
  | EntryUrl url => url_port_or_known_default url
  | SuffixWildcard _ scheme port =>
      match port with
      | Some p => Some p
      | None => s ← scheme; default_port (scheme_as_str s)
      end
  end.

Definition client_port (e : AllowedHost) : option Z :=
  match e with
  | EntryUrl url =>
      match url_port_or_known_default url with
      | Some p => Some p
      | None => client_default_port (url_scheme url)
      end
  | SuffixWildcard _ scheme port =>
      match port with
      | Some p => Some p
      | None => s ← scheme; client_default_port (scheme_as_str s)
      end
  | Any | EntryAuthority _ => socket_port e
  end.

(** ** Addresses *)

Definition permits_addr_on (e : AllowedHost) (addr : SocketAddr) (permitted_port : option Z) :
    bool :=
  let by_host host := host_is_addr host (sock_ip addr)
                      && port_matches permitted_port (sock_port addr) in
  match e with
  | Any => true
  | EntryAuthority authority => by_host (authority_host authority)
  | EntryUrl url => match url_host_str url with
                    | Some host => by_host host
                    | None => false
                    end
  | SuffixWildcard _ _ _ => false
  end.

Definition permits_addr (e : AllowedHost) (addr : SocketAddr) : bool :=
  permits_addr_on e addr (socket_port e).

Definition permits_client_addr (e : AllowedHost) (addr : SocketAddr) : bool :=
  permits_addr_on e addr (client_port e).

Definition check_allowed_addr (policy : list AllowedHost) (addr : SocketAddr) : bool :=
  existsb (λ e, permits_addr e addr) policy.

(** ** Names *)

Definition names (e : AllowedHost) (name : string) : bool :=
  match e with
  | Any => false
  | EntryAuthority authority => same_name (authority_host authority) name
  | EntryUrl url => is_some_and (url_host_str url) (λ host, same_name host name)
  | SuffixWildcard suffix _ _ =>
      let suffix := strip_root_dot suffix in
      (String.length suffix <? String.length name)%nat
      && eq_ignore_ascii_case (str_drop (String.length name - String.length suffix) name) suffix
  end.

Definition permits_name (e : AllowedHost) (name : string) (port : Z) : bool :=
  names e name && port_matches (socket_port e) port.

Definition permits_client_name (e : AllowedHost) (name : string) (port : Z) : bool :=
  names e name && port_matches (client_port e) port.

Definition permits_lookup (e : AllowedHost) (host : UrlHost) : bool :=
  let by_host policy_host :=
    match host with
    | HostIpv4 addr => host_is_addr policy_host (V4 addr)
    | HostIpv6 addr => host_is_addr policy_host (V6 addr)
    | Domain domain =>
        permits_name e (strip_root_dot domain) (default 0%Z (socket_port e))
    end in
  match e with
  | Any => false
  | EntryAuthority authority => by_host (authority_host authority)
  | EntryUrl url => match url_host_str url with
                    | Some host => by_host host
                    | None => false
                    end
  | SuffixWildcard _ _ _ => by_host ""
  end.

Definition check_allowed_lookup (lookups : list AllowedIpName) (hosts : list AllowedHost)
    (host : UrlHost) : bool :=
  check_allowed_ip_name lookups host || existsb (λ e, permits_lookup e host) hosts.

(** Which of the two texts [lookup_denial] writes. *)
Inductive LookupDenial := AnyOpensNoLookup | NothingNamesIt.

Definition lookup_denial (hosts : list AllowedHost) : LookupDenial :=
  if existsb (λ e, match e with Any => true | _ => false end) hosts
  then AnyOpensNoLookup else NothingNamesIt.

(** ** The request check of [host/http.rs] *)
Inductive RequestDenied := NoHost | PolicyEmpty | NotAllowed.

Definition check_allowed_hosts (request : Uri) (allowed_hosts : list AllowedHost) :
    result unit RequestDenied :=
  (let? _ := ok_or (uri_host request) NoHost in
   match allowed_hosts with
   | [] => Err PolicyEmpty
   | _ :: _ =>
       if existsb (λ e, matches e request) allowed_hosts then Ok tt else Err NotAllowed
   end)%rust.

(** ** Parsing and printing *)

Definition idna_host (host : string) : string :=
  if is_ascii host then host
  else match host_parse host with
       | Some (Domain domain) => domain
       | _ => host
       end.

Definition idna_authority (text : string) : string :=
  if is_ascii text then text
  else
    let end_ := find_colon_slash text in
    idna_host (str_take end_ text) +:+ str_drop end_ text.

Definition wildcard_of (wildcard_rest host_port : string) (scheme : option Scheme) :
    result AllowedHost HostError :=
  match split_host_port host_port with
  | Ok (suffix_no_dot, port) =>
      Ok (SuffixWildcard ("." +:+ to_ascii_lowercase (idna_host suffix_no_dot)) scheme port)
  | Err e => Err (InvalidWildcardHost wildcard_rest e)
  end.

Definition url_entry (scheme_part rest : string) : result AllowedHost HostError :=
  (let? url := ok_or (url_parse (scheme_part +:+ "://" +:+ idna_authority rest)) NotAUrl in
   if negb (is_some (url_host_str url)) then Err UrlNoHost
   else if negb (String.eqb (url_path url) "") && negb (String.eqb (url_path url) "/")
   then Err (HasPathBeyondRoot (url_path url))
   else if is_some (url_query url) then Err UrlQuery
   else if is_some (url_fragment url) then Err UrlFragment
   else Ok (EntryUrl url))%rust.

Definition authority_entry (trimmed : string) : result AllowedHost HostError :=
  (let? authority := ok_or (authority_from_str (idna_authority trimmed)) InvalidAuthority in
   let s := authority_as_str authority in
   let has_port_suffix := if starts_with "[" s then contains "]:" s else contains ":" s in
   if has_port_suffix && negb (is_some (authority_port_u16 authority)) then Err InvalidPort
   else Ok (EntryAuthority authority))%rust.

Definition from_str (s : string) : result AllowedHost HostError :=
  let trimmed := trim s in
  if is_empty trimmed then Err EntryEmpty
  else if String.eqb trimmed "*" then Ok Any
  else match split_once "://" trimmed with
  | Some (scheme_part, rest) =>
      (let? scheme := ok_or (scheme_from_str scheme_part) (InvalidScheme scheme_part) in
       match strip_prefix "*." rest with
       | Some wildcard_rest =>
           let (host_port, path) := default (wildcard_rest, "") (split_once "/" wildcard_rest) in
           let? _ := reject_non_root_path path in
           wildcard_of wildcard_rest host_port (Some scheme)
       | None => url_entry scheme_part rest
       end)%rust
  | None =>
      match strip_prefix "*." trimmed with
      | Some wildcard_rest => wildcard_of wildcard_rest wildcard_rest None
      | None =>
          if starts_with "*" trimmed then Err WildcardForm
          else authority_entry trimmed
      end
  end.

Definition to_string (e : AllowedHost) : string :=
  match e with
  | Any => "*"
  | EntryAuthority authority => authority_as_str authority
  | EntryUrl url => url_as_str url
  | SuffixWildcard suffix scheme port =>
      match scheme with Some s => scheme_as_str s +:+ "://" | None => "" end
      +:+ "*" +:+ suffix
      +:+ match port with Some p => ":" +:+ show_uint p | None => "" end
  end.

End allowed_hosts.

(** ** What the ports mean *)

Lemma lookup_default_port_mono scheme (r : PortDefault → bool) p :
  lookup_default_port scheme r = Some p → client_default_port scheme = Some p.
Proof.
  unfold client_default_port, lookup_default_port, DEFAULT_PORTS. cbn [List.find].
  assert (∀ k k' : string, eq_ignore_ascii_case scheme k = true →
    eq_ignore_ascii_case scheme k' = true → to_ascii_lowercase k = to_ascii_lowercase k') as Hk.
  { intros k k'. rewrite !eq_ignore_ascii_case_eq. congruence. }
  repeat match goal with
  | |- context [eq_ignore_ascii_case scheme ?k] =>
      destruct (eq_ignore_ascii_case scheme k) eqn:?;
      [repeat match goal with
       | |- context [eq_ignore_ascii_case scheme ?k'] =>
           destruct (eq_ignore_ascii_case scheme k') eqn:?;
           [exfalso; assert (to_ascii_lowercase k = to_ascii_lowercase k') by auto; discriminate|]
       end; rewrite ?andb_true_r, ?andb_false_r; destruct (r ForUrl), (r ForClient);
       simpl; congruence|]
  end.
  rewrite !andb_false_r. done.
Qed.

Section allowed_hosts_props.
Context `{UriLib}.
Implicit Types (e : AllowedHost).

Lemma socket_port_client e p : socket_port e = Some p → client_port e = Some p.
Proof.
  destruct e as [|au|u|suf [s|] [q|]]; simpl; try done.
  - by destruct (url_port_or_known_default u).
  - apply lookup_default_port_mono.
Qed.

Lemma port_matches_client e port :
  port_matches (client_port e) port = true → port_matches (socket_port e) port = true.
Proof.
  destruct (socket_port e) as [p|] eqn:E; [|done].
  by rewrite (socket_port_client e p E).
Qed.

Lemma permits_client_addr_socket e addr :
  permits_client_addr e addr = true → permits_addr e addr = true.
Proof.
  unfold permits_client_addr, permits_addr. destruct e as [|au|u|]; simpl; [done|done| |done].
  destruct (url_host_str u); [|done]. rewrite !andb_true_iff.
  intros [? Hp]. split; [done|]. by apply (port_matches_client (EntryUrl u)).
Qed.

Lemma permits_client_name_socket e name port :
  permits_client_name e name port = true → permits_name e name port = true.
Proof.
  unfold permits_client_name, permits_name. rewrite !andb_true_iff. intros [? ?].
  split; [done|]. by apply port_matches_client.
Qed.

(** a native plugin's client never reads an [allowedHosts] entry more widely
    than a raw socket does: the same host, and never more ports. *)
Theorem client_rule_within_socket_rule e addr name port :
  (permits_client_addr e addr = true → permits_addr e addr = true)
  ∧ (permits_client_name e name port = true → permits_name e name port = true).
Proof.
  split; [apply permits_client_addr_socket|apply permits_client_name_socket].
Qed.

(** ** Addresses and names *)

Definition entry_host (e : AllowedHost) : option string :=
  match e with
  | EntryAuthority au => Some (authority_host au)
  | EntryUrl u => url_host_str u
  | Any | SuffixWildcard _ _ _ => None
  end.

Definition unbracket (host : string) : string :=
  let host := default host (strip_prefix "[" host) in
  default host (strip_suffix "]" host).

Lemma host_is_addr_iff host a :
  host_is_addr host a = true ↔
  ∃ policy, parse_ip (unbracket host) = Some policy ∧ to_canonical policy = to_canonical a.
Proof.
  unfold host_is_addr, unbracket. destruct (parse_ip _) as [q|]; simpl.
  - rewrite bool_decide_eq_true. naive_solver.
  - naive_solver.
Qed.

Lemma port_matches_iff o p : port_matches o p = true ↔ o = None ∨ o = Some p.
Proof.
  destruct o as [q|]; simpl; [|naive_solver].
  rewrite Z.eqb_eq. naive_solver.
Qed.

(** an entry permits a raw-socket destination exactly when it is [*], or its
    host text is an IP literal (brackets removed) naming the same canonical
    address and its port, explicit or the scheme's default, is absent or the
    destination's; so an address and its IPv4-mapped spelling are always
    answered alike, and a wildcard never permits an address. *)
Theorem permits_addr_iff e addr :
  permits_addr e addr = true ↔
  e = Any ∨ ∃ host policy,
    entry_host e = Some host ∧ parse_ip (unbracket host) = Some policy
    ∧ to_canonical policy = to_canonical (sock_ip addr)
    ∧ (socket_port e = None ∨ socket_port e = Some (sock_port addr)).
Proof.
  unfold permits_addr. destruct e as [|au|u|suf sch port]; simpl.
  - naive_solver.
  - rewrite andb_true_iff, host_is_addr_iff, port_matches_iff. naive_solver.
  - destruct (url_host_str u); [|naive_solver].
    rewrite andb_true_iff, host_is_addr_iff, port_matches_iff. naive_solver.
  - naive_solver.
Qed.

Lemma permits_name_own_port e name :
  permits_name e name (default 0%Z (socket_port e)) = names e name.
Proof.
  unfold permits_name. destruct (socket_port e); simpl; rewrite ?Z.eqb_refl;
    apply andb_true_r.
Qed.

Lemma permits_lookup_domain e d : permits_lookup e (Domain d) = names e (strip_root_dot d).
Proof.
  destruct e as [|au|u|]; cbn [permits_lookup]; [done| | |]; rewrite ?permits_name_own_port;
    [done| |done]. simpl. by destruct (url_host_str u).
Qed.

(** a guest may resolve a domain exactly when [allowedIpNameLookups] names it
    or some [allowedHosts] entry lets it connect to that name on some port: one
    host entry is the whole grant, two empty lists resolve nothing, and [*] in
    [allowedHosts] alone opens no lookup. *)
Theorem lookup_grant_iff lookups hosts d :
  check_allowed_lookup lookups hosts (Domain d) = true ↔
  (∃ entry, entry ∈ lookups ∧ AllowedIpName.matches entry (Domain d) = true)
  ∨ ∃ e port, e ∈ hosts ∧ e ≠ Any ∧ permits_name e (strip_root_dot d) port = true.
Proof.
  unfold check_allowed_lookup, check_allowed_ip_name.
  rewrite orb_true_iff, !existsb_elem.
  split; (intros [?|Hh]; [by left|right]).
  - destruct Hh as (e & He & Hl). rewrite permits_lookup_domain in Hl.
    exists e, (default 0%Z (socket_port e)). rewrite permits_name_own_port.
    by destruct e.
  - destruct Hh as (e & port & He & _ & Hp). exists e. split; [done|].
    rewrite permits_lookup_domain. by apply andb_true_iff in Hp as [Hp _].
Qed.

(** ** [wasi:http] matching *)

(** The request side of a wildcard entry's port and scheme. *)
Definition agrees {A} (eqv : A → A → Prop) (policy request : option A) : Prop :=
  match policy, request with
  | Some p, Some r => eqv p r
  | _, _ => True
  end.

(** a wildcard entry admits an HTTP request exactly when the request names a
    host that, lower-cased, is a non-empty prefix followed by the suffix, the
    scheme agrees wherever both sides name one, and a pinned port equals the
    request's explicit port. *)
Theorem wildcard_request_iff suffix scheme port request :
  matches (SuffixWildcard suffix scheme port) request = true ↔
  ∃ host prefix,
    uri_host request = Some host ∧ to_ascii_lowercase host = prefix +:+ suffix ∧ prefix ≠ ""
    ∧ agrees (λ p r, to_ascii_lowercase p = to_ascii_lowercase r)
        (scheme_as_str <$> scheme) (uri_scheme_str request)
    ∧ (port = None ∨ port = uri_port_u16 request).
Proof.
  unfold matches. destruct (uri_host request) as [host|]; [|naive_solver].
  destruct (strip_suffix suffix _) as [prefix|] eqn:Hs.
  2:{ split; [done|]. intros (h & p & [= <-] & Hh & _).
      apply strip_suffix_Some in Hh. congruence. }
  assert (∀ p, to_ascii_lowercase host = p +:+ suffix ↔ p = prefix) as Hp.
  { intros p. rewrite <-strip_suffix_Some, Hs. naive_solver. }
  destruct (is_empty prefix) eqn:He.
  { apply is_empty_spec in He as ->. split; [done|].
    intros (h & p & [= <-] & ->%Hp & Hne & _). done. }
  assert (prefix ≠ "") as Hne by (by intros ->).
  assert (match port with Some p => bool_decide (Some p = uri_port_u16 request) | None => true end
          = true ↔ port = None ∨ port = uri_port_u16 request) as Hport.
  { destruct port; [rewrite bool_decide_eq_true|]; naive_solver. }
  destruct scheme as [s|], (uri_scheme_str request) as [r|]; simpl;
    try (rewrite Hport; split;
         [intros ?; exists host, prefix; rewrite Hp; auto 10
         |intros (h & p & [= <-] & _ & _ & _ & ?); done]).
  destruct (eq_ignore_ascii_case (scheme_as_str s) r) eqn:Es; simpl.
  - apply eq_ignore_ascii_case_eq in Es. rewrite Hport. split.
    + intros ?. exists host, prefix. rewrite Hp. auto 10.
    + intros (h & p & [= <-] & _ & _ & _ & ?); done.
  - split; [done|]. intros (h & p & _ & _ & _ & Ha & _).
    by rewrite <-not_true_iff_false, eq_ignore_ascii_case_eq in Es.
Qed.

(** a URL entry without an explicit non-default port ([url.port()] is [None],
    which includes [https://x:443]) admits its host on every port, as long as the
    request's scheme, if any, is the entry's. *)
Theorem url_entry_without_port_any_port url host request :
  url_port url = None → url_host_str url = Some host → uri_host request = Some host →
  (∀ s, uri_scheme_str request = Some s → s = url_scheme url) →
  matches (EntryUrl url) request = true.
Proof.
  intros Hp Hh Hr Hs. unfold matches. rewrite Hr, Hh, Hp, eq_ignore_ascii_case_refl. simpl.
  destruct (uri_scheme_str request) as [s|]; simpl; [|done].
  by rewrite (Hs s eq_refl), eq_ignore_ascii_case_refl.
Qed.

Lemma check_allowed_hosts_iff request hosts :
  check_allowed_hosts request hosts = Ok tt ↔ ∃ e, e ∈ hosts ∧ matches e request = true.
Proof.
  unfold check_allowed_hosts. destruct (uri_host request) as [h|] eqn:Hh; simpl.
  - destruct hosts as [|e0 hosts].
    + split; [done|]. by intros (e & ?%not_elem_of_nil & _).
    + destruct (existsb _ _) eqn:E.
      * apply existsb_elem in E. naive_solver.
      * rewrite existsb_elem_false in E. split; [done|]. intros (e & He & Hm).
        by rewrite E in Hm.
  - split; [done|]. intros (e & _ & Hm). unfold matches in Hm. by rewrite Hh in Hm.
Qed.

End allowed_hosts_props.

(** ** Round trip of wildcard entries *)

(** The bytes of a printed wildcard entry. *)
Definition entry_char (c : ascii) : bool :=
  name_char c || existsb (Ascii.eqb c) ["+"; ":"; "*"; "/"]%char.

Lemma entry_char_ws c r : entry_char c = true → strip_ws (String c r) = None.
Proof.
  destruct c as [[] [] [] [] [] [] [] []]; intros H; try discriminate H; reflexivity.
Qed.

(** [host[:port]] as printed. *)
Definition show_host_port (d : string) (port : option Z) : string :=
  d +:+ match port with Some p => ":" +:+ show_uint p | None => "" end.

Definition port_ok (port : option Z) : Prop := ∀ p, port = Some p → (0 ≤ p ≤ u16_MAX)%Z.

Lemma show_host_port_chars p d port :
  (∀ c, is_ascii_digit c = true → p c = true) → p ":"%char = true →
  str_all p d = true → port_ok port → str_all p (show_host_port d port) = true.
Proof.
  intros Hdig Hcol Hd Hp. unfold show_host_port. rewrite str_all_app, Hd. simpl.
  destruct port as [n|]; [|done]. rewrite str_all_app. simpl. rewrite Hcol. simpl.
  apply (str_all_mono is_ascii_digit); [done|]. apply show_uint_digits.
  destruct (Hp n eq_refl); lia.
Qed.

Lemma split_host_port_show d port :
  d ≠ "" → lacks ":" d = true → port_ok port →
  split_host_port (show_host_port d port) = Ok (d, port).
Proof.
  intros Hd Hl Hp. unfold split_host_port, show_host_port.
  assert (is_empty d = false) as He by (by destruct d).
  destruct port as [n|].
  - rewrite (proj2 (rsplit_once_Some ":" _ d (show_uint n))).
    + rewrite He, parse_show_uint; [done|by apply Hp|].
      destruct (Hp n eq_refl). unfold u16_MAX, u64_MAX in *. lia.
    + split; [done|]. apply (str_all_lacks is_ascii_digit); [|done].
      apply show_uint_digits. destruct (Hp n eq_refl). lia.
  - rewrite str_app_nil_r. rewrite (proj2 (rsplit_once_None ":" d)) by done. by rewrite He.
Qed.

Lemma split_host_port_port s d port : split_host_port s = Ok (d, port) → port_ok port.
Proof.
  unfold split_host_port. intros H p ->. destruct (rsplit_once ":" s) as [[h t]|].
  - destruct (is_empty h); [done|]. destruct (parse_uint u16_MAX t) eqn:E; [|done].
    injection H as <- <-. by apply parse_uint_bounds in E.
  - by destruct (is_empty s).
Qed.

Section round_trip.
Context `{UriLaws}.

Lemma wildcard_of_show rest d scheme port :
  d ≠ "" → str_all name_char d = true → to_ascii_lowercase d = d → port_ok port →
  wildcard_of rest (show_host_port d port) scheme
  = Ok (SuffixWildcard ("." +:+ d) scheme port).
Proof.
  intros Hd Hc Hl Hp. unfold wildcard_of.
  rewrite split_host_port_show by (try apply (str_all_lacks name_char); done).
  unfold idna_host. assert (is_ascii d = true) as ->; [|by rewrite Hl].
  apply (str_all_mono name_char); [|done].
  intros c. destruct c as [[] [] [] [] [] [] [] []]; intros Hn; try discriminate Hn; reflexivity.
Qed.

Lemma entry_of_digit c : is_ascii_digit c = true → entry_char c = true.
Proof.
  destruct c as [[] [] [] [] [] [] [] []]; intros Hn; try discriminate Hn; reflexivity.
Qed.

(** The part after the scheme, as printed. *)
Definition show_wild (d : string) (port : option Z) : string :=
  "*." +:+ show_host_port d port.

Lemma no_slash_wild d port :
  str_all name_char d = true → port_ok port →
  str_all (λ c, entry_char c && negb (Ascii.eqb c "/")) (show_wild d port) = true.
Proof.
  intros Hc Hp. unfold show_wild. rewrite str_all_app. simpl.
  apply show_host_port_chars; [..|done]; [|done|].
  - intros c. destruct c as [[] [] [] [] [] [] [] []]; intros Hn; try discriminate Hn; reflexivity.
  - apply (str_all_mono name_char); [|done].
    intros c. destruct c as [[] [] [] [] [] [] [] []]; intros Hn; try discriminate Hn; reflexivity.
Qed.

Lemma from_str_bare_wildcard d port :
  d ≠ "" → str_all name_char d = true → to_ascii_lowercase d = d → port_ok port →
  from_str (show_wild d port) = Ok (SuffixWildcard ("." +:+ d) None port).
Proof.
  intros Hd Hc Hl Hp. pose proof (no_slash_wild d port Hc Hp) as Hns.
  assert (str_all entry_char (show_wild d port) = true) as He.
  { apply (str_all_mono _ entry_char) in Hns; [done|]. intros c. by intros [? _]%andb_true_iff. }
  unfold from_str. rewrite (trim_id entry_char) by (done || apply entry_char_ws).
  assert (split_once "://" (show_wild d port) = None) as ->.
  { apply split_once_None_of_contains. apply not_true_iff_false.
    intros (a & b & Hab)%contains_spec. rewrite Hab, !str_all_app in Hns.
    apply andb_true_iff in Hns as [_ Hns]. by apply andb_true_iff in Hns as [Hns _]. }
  unfold show_wild. rewrite strip_prefix_app, wildcard_of_show by done.
  destruct (String.eqb_spec ("*." +:+ show_host_port d port) "*") as [Heq|_]; [|done].
  by apply (f_equal String.length) in Heq.
Qed.

Lemma scheme_entry_char s : str_all entry_char (scheme_as_str s) = true.
Proof.
  apply (str_all_mono _ entry_char _) with (2 := scheme_char s).
  intros c. destruct c as [[] [] [] [] [] [] [] []]; intros Hn; try discriminate Hn; reflexivity.
Qed.

Lemma from_str_scheme_wildcard s d port :
  d ≠ "" → str_all name_char d = true → to_ascii_lowercase d = d → port_ok port →
  from_str (scheme_as_str s +:+ "://" +:+ show_wild d port)
  = Ok (SuffixWildcard ("." +:+ d) (Some s) port).
Proof.
  intros Hd Hc Hl Hp. pose proof (no_slash_wild d port Hc Hp) as Hns.
  assert (str_all entry_char (scheme_as_str s +:+ "://" +:+ show_wild d port) = true) as He.
  { rewrite !str_all_app, scheme_entry_char. simpl.
    apply (str_all_mono _ entry_char) in Hns; [done|]. intros c. by intros [? _]%andb_true_iff. }
  unfold from_str. rewrite (trim_id entry_char) by (done || apply entry_char_ws).
  rewrite split_once_lacks.
  2:{ eapply str_all_lacks; [apply scheme_char|done]. }
  rewrite scheme_as_str_parse. cbn [ok_or].
  unfold show_wild in *. rewrite strip_prefix_app.
  assert (split_once "/" (show_host_port d port) = None) as ->.
  { apply split_once_None_of_contains.
    apply (str_all_not_contains (λ c, entry_char c && negb (Ascii.eqb c "/"))); [|done].
    rewrite str_all_app in Hns. by apply andb_true_iff in Hns as [_ Hns]. }
  cbn -[wildcard_of]. rewrite wildcard_of_show by done.
  pose proof (scheme_nonempty s). destruct (scheme_as_str s) as [|c r] eqn:Es; [done|].
  rewrite str_app_cons. simpl. destruct (Ascii.eqb c "*"); [|done].
  by destruct r; rewrite ?str_app_nil, ?str_app_cons.
Qed.

Lemma wildcard_of_inv rest hp sch suffix scheme port :
  wildcard_of rest hp sch = Ok (SuffixWildcard suffix scheme port) →
  (∃ x, suffix = "." +:+ to_ascii_lowercase x) ∧ port_ok port.
Proof.
  unfold wildcard_of. destruct (split_host_port hp) as [[h p]|] eqn:E; [|done].
  intros [= <- <- <-]. split; [eauto|]. by apply split_host_port_port in E.
Qed.

Lemma from_str_wildcard_inv s suffix scheme port :
  from_str s = Ok (SuffixWildcard suffix scheme port) →
  (∃ x, suffix = "." +:+ to_ascii_lowercase x) ∧ port_ok port.
Proof.
  unfold from_str. intros Hs. do 2 case_in Hs.
  destruct (split_once "://" _) as [[sp rest]|].
  - destruct (scheme_from_str sp) as [sch|]; [|done]. cbn [ok_or] in Hs.
    destruct (strip_prefix "*." rest) as [w|].
    + destruct (default _ _) as [hp path]. destruct (reject_non_root_path path); [|done].
      by eapply wildcard_of_inv.
    + unfold url_entry in Hs. destruct (url_parse _); [|done]. simpl in Hs.
      repeat case_in Hs. 
  - destruct (strip_prefix "*." (trim s)) as [w|]; [by eapply wildcard_of_inv|].
    case_in Hs. unfold authority_entry in Hs.
    destruct (authority_from_str _); [|done]. simpl in Hs. by case_in Hs.
Qed.

(** printing a wildcard entry and parsing it back gives the same entry: for
    every entry obtained from any configured text whose suffix is a plain host
    name (letters, digits, [-] and [.]), with or without scheme and port. *)
Theorem wildcard_parse_display_parse s suffix scheme port :
  from_str s = Ok (SuffixWildcard suffix scheme port) →
  str_all name_char suffix = true → suffix ≠ "." →
  from_str (to_string (SuffixWildcard suffix scheme port))
  = Ok (SuffixWildcard suffix scheme port).
Proof.
  intros Hs Hc Hne. destruct (from_str_wildcard_inv _ _ _ _ Hs) as [[x ->] Hp].
  set (d := to_ascii_lowercase x) in *.
  assert (d ≠ "") by (intros Hd; by rewrite Hd in Hne).
  assert (to_ascii_lowercase d = d) by apply to_ascii_lowercase_idemp.
  destruct scheme as [sch|]; cbn [to_string].
  - rewrite <-from_str_scheme_wildcard with (d := d) by done. by rewrite !str_app_assoc.
  - rewrite <-from_str_bare_wildcard with (d := d) by done. done.
Qed.
End round_trip.

(** ** Runs on concrete entries *)

Lemma wildcard_parse_display_parse_witness :
  from_str "https://*.Example.com:8443/"
  = Ok (SuffixWildcard ".example.com" (simple_scheme_from_str "https") (Some 8443%Z))
  ∧ from_str "https://*.example.com:8443"
  = Ok (SuffixWildcard ".example.com" (simple_scheme_from_str "https") (Some 8443%Z)).
Proof.
  assert (from_str "https://*.Example.com:8443/"
    = Ok (SuffixWildcard ".example.com" (simple_scheme_from_str "https") (Some 8443%Z)))
    as H by reflexivity.
  split; [exact H|].
  refine (wildcard_parse_display_parse _ _ _ _ H eq_refl _). discriminate.
Defined.

Lemma url_entry_without_port_any_port_witness :
  from_str "https://x:443"
  = Ok (EntryUrl {| sp_scheme := "https"; sp_host := "x"; sp_port := Some 443%Z |})
  ∧ matches (EntryUrl {| sp_scheme := "https"; sp_host := "x"; sp_port := Some 443%Z |})
      {| sp_scheme := "https"; sp_host := "x"; sp_port := Some 8443%Z |} = true.
Proof.
  split; [reflexivity|].
  refine (url_entry_without_port_any_port (H := simple_uri)
    {| sp_scheme := "https"; sp_host := "x"; sp_port := Some 443%Z |} "x"
    {| sp_scheme := "https"; sp_host := "x"; sp_port := Some 8443%Z |}
    eq_refl eq_refl eq_refl _).
  intros s [= <-]. reflexivity.
Defined.

(** Scheme-less wildcard entries are not searched for a path: this one parses,
    and stores a suffix that no host ends with. *)
Example wildcard_path_accepted :
  from_str "*.example.com/v1" = Ok (SuffixWildcard ".example.com/v1" None None)
  ∧ from_str "https://*.example.com/v1"
    = Err (HasPathBeyondRoot "v1").
Proof. split; reflexivity. Qed.

Example socket_port_rules :
  default_port "HTTPS" = Some 443%Z ∧ default_port "redis" = None
  ∧ client_default_port "redis" = Some 6379%Z.
Proof. by vm_compute. Qed.
