(* ===== verification/Lifecycle.v ===== *)
(** * Workloads: starting, stopping, failing, cleaning up ([host/mod.rs], [host/cleanup.rs])

    The host keeps a map from workload ids to states.  Starts, stops, failures that
    plugins report and cleanups of cancelled commands all write it, and do most of
    their work outside its lock: while they do, a _reservation_ left in the map says
    whose the id is.  Plugins and the HTTP handler key what they keep by workload id,
    so an id must not be free while anything of it is still bound.

    The first part gives the functions that run under the lock and the journal of what
    a workload has acquired ([WorkloadResources] of [engine/workload.rs]).  The second
    is a transition system: any number of commands on any ids, each at its own place,
    every lock acquisition, call to a plugin and cancellation one step; the stop of the
    host and a plugin that evicts a workload on its own are steps too. *)

From Stdlib Require Import ZArith Lia.
From stdpp Require Import base list gmap strings option relations.
From S2P Require Import Prelude.

Open Scope Z_scope.

(** ** What a workload has acquired *)

Inductive PendingHttpUnbind := HttpWorkload | ServiceHttp | ServiceMessaging.
#[global] Instance pending_http_eq_dec : EqDecision PendingHttpUnbind.
Proof. solve_decision. Defined.
#[global] Instance pending_http_countable : Countable PendingHttpUnbind.
Proof.
  refine (inj_countable' (λ k, match k with HttpWorkload => 0 | ServiceHttp => 1 | ServiceMessaging => 2 end)%nat
    (λ n, match n with 0 => HttpWorkload | 1 => ServiceHttp | _ => ServiceMessaging end)%nat _).
  by intros [].
Defined.

(** What an unbind lets go of, for the workload id it is called with: a registration
    with the HTTP handler, or what a plugin keeps. *)
Abbreviation Resource := (PendingHttpUnbind + string)%type.

(** [bindings]: one entry per binding, in order, emptied when it is undone.
    [resolved]: the workload was resolved and the HTTP handler may know it. *)
Record WorkloadResources := {
  bindings : list (option string);
  resolved : bool;
  http_unbinds : list PendingHttpUnbind;
}.
Implicit Types j : WorkloadResources.

(** [run]: the reservation of the start that built it, which is what tells two
    workloads with one id apart. *)
Record ResolvedWorkload := { run : Z; teardown_bindings : list string; has_service : bool }.
Implicit Types rw : ResolvedWorkload.

Definition no_resources : WorkloadResources := {| bindings := []; resolved := false; http_unbinds := [] |}.

Definition binding j (plugin : string) : WorkloadResources :=
  {| bindings := bindings j ++ [Some plugin]; resolved := resolved j; http_unbinds := http_unbinds j |}.

Definition note_resolved j (service : bool) : WorkloadResources :=
  {| bindings := bindings j; resolved := true;
     http_unbinds := HttpWorkload :: if service then [ServiceHttp; ServiceMessaging] else [] |}.

Definition commit j : list string := omap id (bindings j).

Definition for_teardown rw : WorkloadResources :=
  note_resolved (foldl binding no_resources (teardown_bindings rw)) (has_service rw).

(** A call of [release]: to the HTTP handler, or to the plugin of an entry. *)
Inductive Call := CHttp (step : PendingHttpUnbind) | CPlugin (index : nat) (plugin : string).
#[global] Instance call_eq_dec : EqDecision Call.
Proof. solve_decision. Defined.

(** The calls [release] makes: the handler first, then the entries from the last. *)
Definition plugin_calls (bs : list (option string)) : list Call :=
  omap id (imap (λ i b, CPlugin i <$> b) bs).
Definition calls j : list Call :=
  (if resolved j then CHttp <$> http_unbinds j else []) ++ reverse (plugin_calls (bindings j)).

(** What a call that succeeded records. *)
Definition record j (c : Call) : WorkloadResources :=
  match c with
  | CHttp step =>
      let left := filter (λ k, k ≠ step) (http_unbinds j) in
      {| bindings := bindings j; resolved := resolved j; http_unbinds := left |}
  | CPlugin i _ =>
      {| bindings := <[i := None]> (bindings j); resolved := resolved j; http_unbinds := http_unbinds j |}
  end.

(** [release], every call answered; [handler]: there is an HTTP handler. *)
Definition after_http j : WorkloadResources :=
  match http_unbinds j with
  | [] => {| bindings := bindings j; resolved := false; http_unbinds := [] |}
  | _ => j
  end.

Definition attempt (answers : Call → bool) (cs : list Call) j : WorkloadResources :=
  foldl (λ j c, if answers c then record j c else j) j cs.

Definition release (handler : bool) (answers : Call → bool) j : bool * WorkloadResources :=
  let http := if resolved j then if handler then CHttp <$> http_unbinds j else [] else [] in
  let cs := reverse (plugin_calls (bindings j)) in
  let j1 := if resolved j then
              if handler then after_http (attempt answers http j)
              else {| bindings := bindings j; resolved := false; http_unbinds := [] |}
            else j in
  (forallb answers (http ++ cs), attempt answers cs j1).

(** ** The states of an id *)

Inductive HostWorkload :=
  | Starting (held : Z)
  | Running (rw : ResolvedWorkload)
  | Stopping (held : Z)
  | Failing (held : Z) (reason : string)
  | Error (reason : string).

Inductive WorkloadState := WsStarting | WsRunning | WsStopping | WsError | WsNotFound.

Definition state_of (hw : HostWorkload) : WorkloadState :=
  match hw with
  | Starting _ => WsStarting
  | Running _ => WsRunning
  | Stopping _ | Failing _ _ => WsStopping
  | Error _ => WsError
  end.

(** [releasing]: an attempt has the lock [serial].  [of_run]: whose bindings these are. *)
Record WorkloadRecovery := {
  reservation : Z; cleanup : WorkloadResources; retain_failure : bool; releasing : bool; of_run : Z;
}.
Implicit Types rv : WorkloadRecovery.

Record Host := {
  plugins : gset string;
  workloads : gmap string HostWorkload;
  workload_recoveries : gmap string WorkloadRecovery;
  reservations : Z;
  stopped : bool;
}.
Implicit Types h : Host.

Definition set_workloads h (ws : gmap string HostWorkload) : Host :=
  {| plugins := plugins h; workloads := ws; workload_recoveries := workload_recoveries h;
     reservations := reservations h; stopped := stopped h |}.
Definition set_recoveries h (rs : gmap string WorkloadRecovery) : Host :=
  {| plugins := plugins h; workloads := workloads h; workload_recoveries := rs;
     reservations := reservations h; stopped := stopped h |}.

Definition reserve h : Z * Host :=
  (reservations h,
   {| plugins := plugins h; workloads := workloads h; workload_recoveries := workload_recoveries h;
      reservations := reservations h + 1; stopped := stopped h |}).

Definition workload_status h (id : string) : WorkloadState * string :=
  match workloads h !! id with
  | Some hw => (state_of hw, match hw with Error reason => reason | _ => "" end%string)
  | None => (WsNotFound, "Workload not found: " +:+ id)
  end.

(** *** Starting *)

Inductive ReserveError := HostStopped | ReservedByPlugin | AlreadyExists | MemoryRefused (message : string).

(** [admission]: what the process memory guard answers, where there is one. *)
Definition workload_reserve h (id : string) (admission : result unit string) : result Z ReserveError * Host :=
  let '(r, h) := reserve h in
  if stopped h then (Err HostStopped, h)
  else if bool_decide (id ∈ plugins h) then (Err ReservedByPlugin, h)
  else if is_some (workloads h !! id) then (Err AlreadyExists, h)
  else match admission with
       | Err message => (Err (MemoryRefused message), h)
       | Ok _ => (Ok r, set_workloads h (<[id := Starting r]> (workloads h)))
       end.

Definition workload_release h (id : string) (r : Z) : Host :=
  match workloads h !! id with
  | Some (Starting held | Stopping held) =>
      if held =? r then set_workloads h (delete id (workloads h)) else h
  | Some (Failing held reason) =>
      if held =? r then set_workloads h (<[id := Error reason]> (workloads h)) else h
  | _ => h
  end.

(** The commit of [workload_start_reserved]: the answer, and whether what the start
    acquired is to be released. *)
Definition commit_start h (id : string) (r : Z) (started : result ResolvedWorkload string) :
    (WorkloadState * string * bool) * Host :=
  let slot := workloads h !! id in
  let mine := match slot with Some (Starting held) => held =? r | _ => false end in
  let failed_reason := match slot with
                       | Some (Failing held reason) => if held =? r then Some reason else None
                       | _ => None
                       end in
  match started with
  | Ok rw =>
      if mine then ((WsRunning, "Workload started successfully", false)%string,
                    set_workloads h (<[id := Running rw]> (workloads h)))
      else match failed_reason with
           | Some reason => ((WsError, reason, true), h)
           | None => ((WsStopping, "Workload was stopped while starting", true)%string, h)
           end
  | Err message =>
      ((WsError, message, true),
       if mine then set_workloads h (<[id := Failing r message]> (workloads h)) else h)
  end.

(** *** Ending *)

Definition finish_teardown h (id : string) (r : Z) (reason : option string) : Host :=
  let close (failure : option string) :=
    match (match reason with Some _ => reason | None => failure end) with
    | Some reason => set_workloads h (<[id := Error reason]> (workloads h))
    | None => set_workloads h (delete id (workloads h))
    end in
  match workloads h !! id with
  | Some (Stopping held) => if held =? r then close None else h
  | Some (Failing held failure) => if held =? r then close (Some failure) else h
  | _ => h
  end.

(** The marking in [fail_workload]; what it gives back is torn down. *)
Definition fail_workload h (id reason : string) : option ResolvedWorkload * (Z * Host) :=
  let '(r, h) := reserve h in
  match workloads h !! id with
  | Some (Running rw) => (Some rw, (r, set_workloads h (<[id := Stopping r]> (workloads h))))
  | Some (Starting held) => (None, (r, set_workloads h (<[id := Failing held reason]> (workloads h))))
  | _ => (None, (r, h))
  end.

Inductive StopAction := Mark (r : Z) | Leave | Drop.

Definition stop_action (slot : option HostWorkload) (r : Z) : StopAction :=
  match slot with
  | Some (Running _) => Mark r
  | Some (Starting held | Failing held _) => Mark held
  | Some (Stopping _) => Leave
  | Some (Error _) | None => Drop
  end.

(** The marking in [workload_stop]. *)
Definition workload_stop h (id : string) : option ResolvedWorkload * (Z * Host) :=
  let '(r, h) := reserve h in
  let slot := workloads h !! id in
  match stop_action slot r with
  | Mark held =>
      (match slot with Some (Running rw) => Some rw | _ => None end,
       (r, set_workloads h (<[id := Stopping held]> (workloads h))))
  | Leave => (None, (r, h))
  | Drop => (None, (r, set_workloads h (delete id (workloads h))))
  end.

(** After a stop that went through a recovery: an [Error] it left is collected. *)
Definition collect h (id : string) : Host :=
  match workloads h !! id with
  | Some (Error _) => set_workloads h (delete id (workloads h))
  | _ => h
  end.

(** *** Recovering *)

(** [WorkloadCleanupGuard::drop], armed. *)
Definition guard_drop h (id : string) rv : Host :=
  set_recoveries h (<[id := rv]> (workload_recoveries h)).

Definition forget h (id : string) (r : Z) : Host :=
  match workload_recoveries h !! id with
  | Some rv => if reservation rv =? r then set_recoveries h (delete id (workload_recoveries h)) else h
  | None => h
  end.

Definition pending_recoveries h : gset string := dom (workload_recoveries h).

Inductive RecoverStart := NotRecorded | Proceed | Gone | NoLongerOwned.

(** [recover] up to the release. *)
Definition recover_start h (id : string) rv : RecoverStart * Host :=
  match workload_recoveries h !! id with
  | Some entry =>
      if reservation entry =? reservation rv then
        let mark := set_workloads h (<[id := Stopping (reservation rv)]> (workloads h)) in
        match workloads h !! id with
        | Some (Failing held _) =>
            if held =? reservation rv
            then (Proceed, if retain_failure rv then h else mark)
            else (NoLongerOwned, forget h id (reservation rv))
        | Some (Starting held | Stopping held) =>
            if held =? reservation rv then (Proceed, mark)
            else (NoLongerOwned, forget h id (reservation rv))
        | None => (Gone, forget h id (reservation rv))
        | Some _ => (NoLongerOwned, forget h id (reservation rv))
        end
      else (NotRecorded, h)
  | None => (NotRecorded, h)
  end.

(** [recover] after a release that succeeded. *)
Definition recover_finish h (id : string) rv : Host :=
  let close (failure : option string) :=
    let h := forget h id (reservation rv) in
    match failure with
    | Some reason => set_workloads h (<[id := Error reason]> (workloads h))
    | None => set_workloads h (delete id (workloads h))
    end in
  match workloads h !! id with
  | Some (Stopping held) => if held =? reservation rv then close None else h
  | Some (Failing held reason) => if held =? reservation rv then close (Some reason) else h
  | _ => h
  end.

(** ** Commands, side by side *)

(** Where a command that holds an id is.  [Reserved]: the id is claimed and the start
    has not begun.  [Building]: the start binds plugins and starts the service.
    [asked]: the plugin that is in the journal and has not answered its bind yet.
    [Releasing]: a start or a stop undoes what is in its journal.  [Failed]: a failure
    a plugin reported is torn down, best effort. *)
Inductive Phase :=
  | Reserved
  | Building j (asked : option string)
  | Releasing j (origin : Z)
  | Failed rw (reason : string).

Record Task := { on : string; phase : Phase }.

(** [bound]: what plugins and the HTTP handler keep, with the start it was for;
    [given_up]: what a failure's teardown left behind; [dropped]: what plugins let go of
    unasked; [adrift]: the attempts under way of recoveries that the stop of the host
    cleared; [component_hosts]: the plugins that are host components. *)
Record World := {
  host : Host;
  tasks : gmap Z Task;
  bound : gset (string * Resource * Z);
  given_up : gset (string * Resource * Z);
  dropped : gset (string * Resource * Z);
  adrift : gmap string WorkloadRecovery;
  component_hosts : gset string;
}.
Implicit Types w : World.

Definition resource_of (c : Call) : Resource :=
  match c with CHttp step => inl step | CPlugin _ p => inr p end.

Definition claims j : list Resource := resource_of <$> calls j.

(** An unbind is keyed by the id: whoever's it is, it goes. *)
Definition unbind (id : string) (res : Resource) (b : gset (string * Resource * Z)) : gset (string * Resource * Z) :=
  filter (λ x, x.1 ≠ (id, res)) b.

Definition set_host w h : World :=
  {| host := h; tasks := tasks w; bound := bound w; given_up := given_up w; dropped := dropped w;
     adrift := adrift w; component_hosts := component_hosts w |}.
Definition set_tasks w (ts : gmap Z Task) : World :=
  {| host := host w; tasks := ts; bound := bound w; given_up := given_up w; dropped := dropped w;
     adrift := adrift w; component_hosts := component_hosts w |}.
Definition put_task w (r : Z) (t : Task) : World := set_tasks w (<[r := t]> (tasks w)).
Definition end_task w (r : Z) : World := set_tasks w (delete r (tasks w)).
Definition set_bound w (b : gset (string * Resource * Z)) : World :=
  {| host := host w; tasks := tasks w; bound := b; given_up := given_up w; dropped := dropped w;
     adrift := adrift w; component_hosts := component_hosts w |}.
Definition set_adrift w (rs : gmap string WorkloadRecovery) : World :=
  {| host := host w; tasks := tasks w; bound := bound w; given_up := given_up w; dropped := dropped w;
     adrift := rs; component_hosts := component_hosts w |}.

(** What the teardown of a failed workload leaves behind. *)
Definition leave_behind w (id : string) (r : Z) : World :=
  {| host := host w; tasks := tasks w; bound := bound w;
     given_up := given_up w ∪ filter (λ x, x.1.1 = id ∧ x.2 = r) (bound w); dropped := dropped w;
     adrift := adrift w; component_hosts := component_hosts w |}.

Definition recovery_of rv (active : bool) j : WorkloadRecovery :=
  {| reservation := reservation rv; cleanup := j; retain_failure := retain_failure rv;
     releasing := active; of_run := of_run rv |}.

Definition set_recovery w (id : string) rv : World := set_host w (guard_drop (host w) id rv).

(** The two writes of [Host::stop]: first the flag, and, once the cleanups have had
    their time and the plugins are stopped, the recoveries.  An attempt to recover that
    is under way goes on; one that fails afterwards finds itself not recorded and is
    not tried again. *)
Definition stop_accepting h : Host :=
  {| plugins := plugins h; workloads := workloads h; workload_recoveries := workload_recoveries h;
     reservations := reservations h; stopped := true |}.

Definition clear_recoveries w : World :=
  set_adrift (set_host w (set_recoveries (host w) ∅))
    (filter (λ x, releasing x.2 = true) (workload_recoveries (host w)) ∪ adrift w).

Inductive world_step : World → World → Prop :=
  | s_reserve w id admission r h :
      workload_reserve (host w) id admission = (Ok r, h) →
      world_step w (put_task (set_host w h) r {| on := id; phase := Reserved |})
  | s_refuse w id admission e h :
      workload_reserve (host w) id admission = (Err e, h) → world_step w (set_host w h)
  | s_release w r id :
      tasks w !! r = Some {| on := id; phase := Reserved |} →
      world_step w (end_task (set_host w (workload_release (host w) id r)) r)
  | s_begin w r id :
      tasks w !! r = Some {| on := id; phase := Reserved |} →
      world_step w (put_task w r {| on := id; phase := Building no_resources None |})
  | s_record w r id j p :
      tasks w !! r = Some {| on := id; phase := Building j None |} →
      world_step w (put_task w r {| on := id; phase := Building (binding j p) (Some p) |})
  | s_resolved w r id j service :
      (* noted twice, for the same workload *)
      tasks w !! r = Some {| on := id; phase := Building j None |} →
      (resolved j = true → http_unbinds j = http_unbinds (note_resolved j service)) →
      world_step w (put_task w r {| on := id; phase := Building (note_resolved j service) None |})
  | s_bind w r id j asked res :
      (* a registration, or a plugin that has not answered yet *)
      tasks w !! r = Some {| on := id; phase := Building j asked |} → res ∈ claims j →
      world_step w (set_bound w ({[(id, res, r)]} ∪ bound w))
  | s_bound w r id j p :
      (* the plugin answers that it has bound the workload; any other answer ends the start *)
      tasks w !! r = Some {| on := id; phase := Building j (Some p) |} →
      world_step w (put_task (set_bound w ({[(id, inr p, r)]} ∪ bound w)) r
                      {| on := id; phase := Building j None |})
  | s_started w r id j service answer h :
      tasks w !! r = Some {| on := id; phase := Building (note_resolved j service) None |} →
      commit_start (host w) id r
        (Ok {| run := r; teardown_bindings := commit j; has_service := service |}) = (answer, h) →
      world_step w (if answer.2 then put_task (set_host w h) r
                                       {| on := id; phase := Releasing (note_resolved j service) r |}
                    else end_task (set_host w h) r)
  | s_not_started w r id j asked message answer h :
      tasks w !! r = Some {| on := id; phase := Building j asked |} →
      commit_start (host w) id r (Err message) = (answer, h) →
      world_step w (put_task (set_host w h) r {| on := id; phase := Releasing j r |})
  | s_unbind w r id j origin c (noted : bool) :
      (* not noted: the call was cut short after the plugin had let go *)
      tasks w !! r = Some {| on := id; phase := Releasing j origin |} → c ∈ calls j →
      world_step w (put_task (set_bound w (unbind id (resource_of c) (bound w))) r
                      {| on := id; phase := Releasing (if noted then record j c else j) origin |})
  | s_finish w r id j origin :
      tasks w !! r = Some {| on := id; phase := Releasing j origin |} → calls j = [] →
      world_step w (end_task (set_host w (finish_teardown (host w) id r None)) r)
  | s_cancel_start w r id j asked :
      tasks w !! r = Some {| on := id; phase := Building j asked |} →
      world_step w (end_task (set_recovery w id {| reservation := r; cleanup := j; retain_failure := false;
                                                   releasing := false; of_run := r |}) r)
  | s_interrupt w r id j origin (retain : bool) :
      (* cancelled, or the release failed; a start that answers keeps its failure *)
      tasks w !! r = Some {| on := id; phase := Releasing j origin |} → (retain = true → origin = r) →
      world_step w (end_task (set_recovery w id {| reservation := r; cleanup := j; retain_failure := retain;
                                                   releasing := false; of_run := origin |}) r)
  | s_stop w id torn r h :
      workload_stop (host w) id = (torn, (r, h)) →
      world_step w (match torn with
                    | Some rw => put_task (set_host w h) r
                                   {| on := id; phase := Releasing (for_teardown rw) (run rw) |}
                    | None => set_host w h
                    end)
  | s_collect w id : world_step w (set_host w (collect (host w) id))
  | s_fail w id reason torn r h :
      fail_workload (host w) id reason = (torn, (r, h)) →
      world_step w (match torn with
                    | Some rw => put_task (set_host w h) r {| on := id; phase := Failed rw reason |}
                    | None => set_host w h
                    end)
  | s_fail_unbind w r id rw reason res :
      tasks w !! r = Some {| on := id; phase := Failed rw reason |} →
      world_step w (set_bound w (unbind id res (bound w)))
  | s_fail_finish w r id rw reason :
      (* errors and timeouts are logged, and the teardown goes on *)
      tasks w !! r = Some {| on := id; phase := Failed rw reason |} →
      world_step w (end_task (set_host (leave_behind w id (run rw))
                                (finish_teardown (host w) id r (Some reason))) r)
  | s_recover w id rv a h :
      workload_recoveries (host w) !! id = Some rv → releasing rv = false →
      recover_start (host w) id rv = (a, h) →
      world_step w (match a with
                    | Proceed => set_recovery (set_host w h) id (recovery_of rv true (cleanup rv))
                    | _ => set_host w h
                    end)
  | s_recover_unbind w id rv c (noted : bool) :
      workload_recoveries (host w) !! id = Some rv → releasing rv = true → c ∈ calls (cleanup rv) →
      world_step w (set_recovery (set_bound w (unbind id (resource_of c) (bound w))) id
                      (recovery_of rv true (if noted then record (cleanup rv) c else cleanup rv)))
  | s_recover_fails w id rv :
      workload_recoveries (host w) !! id = Some rv → releasing rv = true →
      world_step w (set_recovery w id (recovery_of rv false (cleanup rv)))
  | s_recover_finish w id rv :
      workload_recoveries (host w) !! id = Some rv → releasing rv = true → calls (cleanup rv) = [] →
      world_step w (set_host w (recover_finish (host w) id rv))
  | s_host_stops w : world_step w (set_host w (stop_accepting (host w)))
  | s_host_clears w : stopped (host w) = true → world_step w (clear_recoveries w)
  | s_adrift_unbind w id rv c (noted : bool) :
      adrift w !! id = Some rv → c ∈ calls (cleanup rv) →
      world_step w (set_adrift (set_bound w (unbind id (resource_of c) (bound w)))
                      (<[id := recovery_of rv true (if noted then record (cleanup rv) c else cleanup rv)]> (adrift w)))
  | s_adrift_fails w id rv :
      adrift w !! id = Some rv → world_step w (set_adrift w (delete id (adrift w)))
  | s_adrift_finish w id rv :
      adrift w !! id = Some rv → calls (cleanup rv) = [] →
      world_step w (set_adrift (set_host w (recover_finish (host w) id rv)) (delete id (adrift w))).

(** A host component plugin lets go of a workload of its own accord: it takes back a
    bind that failed, or evicts a workload, running or not, whose bind keeps trapping
    ([evict_workload] of [plugin/component_host/lifecycle.rs]; the failure it then
    reports is a step of its own). *)
Inductive plugin_step : World → World → Prop :=
  | s_evict w id p :
      p ∈ component_hosts w →
      plugin_step w
        {| host := host w; tasks := tasks w; bound := unbind id (inr p) (bound w); given_up := given_up w;
           dropped := dropped w ∪ filter (λ x, x.1 = (id, inr p)) (bound w);
           adrift := adrift w; component_hosts := component_hosts w |}.

(** What can happen: a step of the host, or of a plugin. *)
Definition system_step w w' : Prop := world_step w w' ∨ plugin_step w w'.

(** A host with the plugins [ps], of which [cs] are host components. *)
Definition new_world (ps cs : gset string) : World :=
  {| host := {| plugins := ps; workloads := ∅; workload_recoveries := ∅; reservations := 0; stopped := false |};
     tasks := ∅; bound := ∅; given_up := ∅; dropped := ∅; adrift := ∅; component_hosts := cs |}.

Definition reachable w : Prop := ∃ ps cs, rtc system_step (new_world ps cs) w.

(** Case analysis on a step, with the names of its constructors. *)
Tactic Notation "step_cases" hyp(Hst) ident(id) ident(res) :=
  destruct Hst as [w id admission r h E|w id admission e h E|w r id Ht|w r id Ht|w r id j p Ht|w r id j service Ht Hsv
    |w r id j asked res Ht Hres|w r id j p Ht|w r id j service answer h Ht E|w r id j asked message answer h Ht E
    |w r id j origin c noted Ht Hc|w r id j origin Ht Hc|w r id j asked Ht|w r id j origin retain Ht _
    |w id torn r h E|w id|w id reason torn r h E|w r id rw reason res Ht|w r id rw reason Ht
    |w id rv a h Hr Hrel E|w id rv c noted Hr Hrel Hc|w id rv Hr Hrel|w id rv Hr Hrel Hc|w|w Hstop
    |w id rv c noted Ha Hc|w id rv Ha|w id rv Ha Hc].

(** ** The journal *)

Lemma plugin_calls_elem bs c :
  c ∈ plugin_calls bs ↔ ∃ i p, c = CPlugin i p ∧ bs !! i = Some (Some p).
Proof.
  unfold plugin_calls. rewrite list_elem_of_omap. split.
  - intros (o & Ho & Hc). cbn in Hc. subst o. apply list_elem_of_lookup in Ho as [i Hi].
    rewrite list_lookup_imap in Hi. destruct (bs !! i) as [[p|]|] eqn:E; simplify_eq/=. eauto.
  - intros (i & p & -> & Hi). exists (Some (CPlugin i p)). split; [|done].
    apply list_elem_of_lookup. exists i. by rewrite list_lookup_imap, Hi.
Qed.

Lemma calls_elem j c :
  c ∈ calls j ↔ match c with
                | CHttp step => resolved j = true ∧ step ∈ http_unbinds j
                | CPlugin i p => bindings j !! i = Some (Some p)
                end.
Proof.
  unfold calls. rewrite elem_of_app, elem_of_reverse, plugin_calls_elem.
  destruct c as [k|i p].
  - split; [|intros [-> Hk]; left; apply list_elem_of_fmap; eauto].
    intros [Hk|(? & ? & [=] & _)]. destruct (resolved j); [|by apply elem_of_nil in Hk].
    apply list_elem_of_fmap in Hk as (? & [= ->] & ?). done.
  - split; [|eauto 10]. intros [Hk|(? & ? & [= <- <-] & ?)]; [|done].
    destruct (resolved j); [|by apply elem_of_nil in Hk].
    by apply list_elem_of_fmap in Hk as (? & ? & ?).
Qed.

Lemma claims_elem j res :
  res ∈ claims j ↔ match res with
                   | inl step => resolved j = true ∧ step ∈ http_unbinds j
                   | inr p => Some p ∈ bindings j
                   end.
Proof.
  unfold claims. rewrite list_elem_of_fmap. split.
  - intros ([k|i p] & -> & Hc); apply calls_elem in Hc; cbn; [done|].
    apply list_elem_of_lookup. eauto.
  - destruct res as [k|p]; intros Hr.
    + exists (CHttp k). split; [done|]. by apply calls_elem.
    + apply list_elem_of_lookup in Hr as [i Hi]. exists (CPlugin i p). split; [done|]. by apply calls_elem.
Qed.

Lemma no_calls_no_claims j res : calls j = [] → res ∉ claims j.
Proof. unfold claims. intros ->. apply not_elem_of_nil. Qed.

Lemma claims_binding j p res : res ∈ claims j → res ∈ claims (binding j p).
Proof. rewrite !claims_elem. destruct res; cbn; [done|]. rewrite elem_of_app. auto. Qed.

Lemma claims_note j service res :
  (resolved j = true → http_unbinds j = http_unbinds (note_resolved j service)) →
  res ∈ claims j → res ∈ claims (note_resolved j service).
Proof. rewrite !claims_elem. destruct res; cbn; [|done]. intros H [Hr ?]. by rewrite <-(H Hr). Qed.

(** What is recorded as undone is no longer claimed, and nothing else. *)
Lemma claims_record j c res :
  c ∈ calls j → res ∈ claims j → res = resource_of c ∨ res ∈ claims (record j c).
Proof.
  rewrite calls_elem, !claims_elem. destruct c as [k|i p], res as [k'|p']; cbn.
  - intros _ [? ?]. destruct (decide (k' = k)) as [->|]; [auto|right].
    split; [done|]. by apply list_elem_of_filter.
  - auto.
  - auto.
  - intros Hi Hp. destruct (decide (p' = p)) as [->|Hne]; [auto|right].
    apply list_elem_of_lookup in Hp as [i' Hi']. apply list_elem_of_lookup. exists i'.
    rewrite list_lookup_insert_ne; [done|]. intros ->. congruence.
Qed.

Lemma commit_elem j p : p ∈ commit j ↔ Some p ∈ bindings j.
Proof. unfold commit. rewrite list_elem_of_omap. split; [intros (? & ? & <-)|]; eauto. Qed.

Lemma foldl_binding ps j :
  foldl binding j ps =
  {| bindings := bindings j ++ (Some <$> ps); resolved := resolved j; http_unbinds := http_unbinds j |}.
Proof.
  revert j. induction ps as [|p ps IH]; intros j; cbn.
  - rewrite app_nil_r. by destruct j.
  - rewrite IH. cbn. by rewrite <-app_assoc.
Qed.

Lemma claims_teardown rw res :
  res ∈ claims (for_teardown rw) ↔
  match res with
  | inl step => step ∈ HttpWorkload :: if has_service rw then [ServiceHttp; ServiceMessaging] else []
  | inr p => p ∈ teardown_bindings rw
  end.
Proof.
  rewrite claims_elem. unfold for_teardown. rewrite foldl_binding. destruct res; cbn; [naive_solver|].
  rewrite list_elem_of_fmap. naive_solver.
Qed.

(** What a start built is what the teardown of the workload it became undoes. *)
Lemma claims_commit j r service res :
  res ∈ claims (note_resolved j service) ↔
  res ∈ claims (for_teardown {| run := r; teardown_bindings := commit j; has_service := service |}).
Proof.
  rewrite claims_teardown, claims_elem. destruct res; cbn; [naive_solver|]. by rewrite commit_elem.
Qed.

(** A recorded call is gone from the journal. *)
Lemma plugin_calls_length bs : length (plugin_calls bs) = length (omap id bs).
Proof.
  unfold plugin_calls.
  assert (∀ f : nat → string → Call,
    length (omap id (imap (λ i b, f i <$> b) bs)) = length (omap id bs)) as H; [|apply H].
  induction bs as [|b bs IH]; intros f; [done|]. cbn. specialize (IH (λ i, f (S i))).
  destruct b; cbn; rewrite <-IH; done.
Qed.

Lemma calls_length j :
  length (calls j) = ((if resolved j then length (http_unbinds j) else 0) + length (omap id (bindings j)))%nat.
Proof.
  unfold calls. rewrite length_app, length_reverse, plugin_calls_length.
  destruct (resolved j); [by rewrite length_fmap|done].
Qed.

Lemma omap_clear (bs : list (option string)) i p :
  bs !! i = Some (Some p) → (length (omap id (<[i := None]> bs)) < length (omap id bs))%nat.
Proof.
  revert i. induction bs as [|b bs IH]; intros [|i] Hi; simplify_eq/=.
  - lia.
  - specialize (IH _ Hi). destruct b; cbn; lia.
Qed.

Lemma filter_shorter (k : PendingHttpUnbind) l :
  k ∈ l → (length (filter (λ k', k' ≠ k) l) < length l)%nat.
Proof.
  intros Hk. induction l as [|x l IH]; [by apply not_elem_of_nil in Hk|].
  rewrite filter_cons. pose proof (length_filter (λ k', k' ≠ k) l). cbn.
  apply elem_of_cons in Hk as [->|Hk].
  - rewrite decide_False by auto. lia.
  - specialize (IH Hk). case_decide; cbn; lia.
Qed.

Lemma record_shrinks j c :
  c ∈ calls j → (length (calls (record j c)) < length (calls j))%nat.
Proof.
  rewrite calls_elem, !calls_length. destruct c as [k|i p]; cbn.
  - intros [-> Hk]. pose proof (filter_shorter _ _ Hk). lia.
  - intros Hi. pose proof (omap_clear _ _ _ Hi). lia.
Qed.

(** ** Releasing a journal *)

Lemma calls_record j c c' :
  (∀ i p, c = CPlugin i p → bindings j !! i = Some (Some p) ∨ bindings j !! i = Some None) →
  c' ∈ calls (record j c) ↔ c' ∈ calls j ∧ c' ≠ c.
Proof.
  intros Hc. rewrite !calls_elem. destruct c as [k|i p], c' as [k'|i' p']; cbn.
  - rewrite list_elem_of_filter. naive_solver.
  - naive_solver.
  - naive_solver.
  - destruct (decide (i' = i)) as [->|Hne].
    + rewrite list_lookup_insert_eq by (apply lookup_lt_is_Some; destruct (Hc i p eq_refl); eauto).
      destruct (Hc i p eq_refl) as [E|E]; rewrite E; naive_solver.
    + rewrite list_lookup_insert_ne by auto. naive_solver.
Qed.

Lemma attempt_calls answers cs j c :
  (∀ i p, CPlugin i p ∈ cs → bindings j !! i = Some (Some p) ∨ bindings j !! i = Some None) →
  c ∈ calls (attempt answers cs j) ↔ c ∈ calls j ∧ ¬ (c ∈ cs ∧ answers c = true).
Proof.
  unfold attempt. revert j. induction cs as [|c0 cs IH]; intros j Hcs; cbn.
  - split; [|tauto]. intros ?. split; [done|]. intros [[]%elem_of_nil _].
  - destruct (answers c0) eqn:Ha.
    + rewrite IH, calls_record.
      * rewrite elem_of_cons. destruct (decide (c = c0)) as [->|]; naive_solver.
      * intros i p ->. apply Hcs. constructor.
      * intros i p Hin. destruct c0 as [|i0 p0]; cbn; [apply Hcs; by constructor|].
        destruct (decide (i = i0)) as [->|Hne].
        -- right. apply list_lookup_insert_eq, lookup_lt_is_Some.
           destruct (Hcs i0 p0) as [-> | ->]; [constructor|eauto..].
        -- rewrite list_lookup_insert_ne by auto. apply Hcs. by constructor.
    + rewrite IH by (intros i p Hin; apply Hcs; by constructor). rewrite elem_of_cons.
      split; intros [? Hno]; (split; [done|]); [|tauto]. intros [[->|] ?]; [congruence|tauto].
Qed.

Lemma attempt_http answers steps j : bindings (attempt answers (CHttp <$> steps) j) = bindings j.
Proof.
  unfold attempt. revert j. induction steps as [|k steps IH]; intros j; cbn; [done|].
  by destruct (answers (CHttp k)); rewrite IH.
Qed.

Lemma calls_after_http j c : c ∈ calls (after_http j) ↔ c ∈ calls j.
Proof.
  unfold after_http. destruct (http_unbinds j) eqn:E; [|done]. rewrite !calls_elem. destruct c; cbn; [|done].
  rewrite E, elem_of_nil. naive_solver.
Qed.

(** A release leaves in the journal exactly the calls that failed, so that a retry
    repeats none that succeeded, and succeeds exactly if it leaves none.  (Without an
    HTTP handler there is nothing to unregister from.) *)
Theorem release_leaves_what_failed handler answers j :
  let r := release handler answers j in
  (∀ c, c ∈ calls r.2 ↔
     c ∈ calls j ∧ answers c = false ∧ (handler = true ∨ ∀ step, c ≠ CHttp step))
  ∧ (r.1 = true ↔ calls r.2 = []).
Proof.
  cbn. unfold release. set (cs := reverse (plugin_calls (bindings j))).
  assert (Hcs : ∀ c, c ∈ cs ↔ c ∈ calls j ∧ ∀ step, c ≠ CHttp step).
  { intros c. unfold cs. rewrite elem_of_reverse, plugin_calls_elem, calls_elem. destruct c; naive_solver. }
  set (http := if resolved j then if handler then CHttp <$> http_unbinds j else [] else []).
  assert (Hhttp : ∀ c, c ∈ http ↔ c ∈ calls j ∧ handler = true ∧ ∃ step, c = CHttp step).
  { intros c. unfold http. destruct (resolved j) eqn:Er, handler; rewrite ?elem_of_nil, ?list_elem_of_fmap;
      rewrite calls_elem, Er; destruct c; naive_solver. }
  set (j1 := if resolved j then _ else j).
  assert (Hj1 : bindings j1 = bindings j
    ∧ ∀ c, c ∈ calls j1 ↔ c ∈ calls j ∧ ((∃ step, c = CHttp step) → handler = true ∧ answers c = false)).
  { unfold j1. destruct (resolved j) eqn:Er; [destruct handler|].
    - unfold http. split; [unfold after_http; case_match; cbn; apply attempt_http|].
      intros c. rewrite calls_after_http, attempt_calls
        by (intros i p Hin; by apply list_elem_of_fmap in Hin as (? & ? & _)).
      fold http. rewrite Hhttp. destruct (answers c); naive_solver.
    - split; [done|]. intros c. rewrite !calls_elem. destruct c; cbn; naive_solver.
    - split; [done|]. intros c. rewrite calls_elem, Er. destruct c; naive_solver. }
  destruct Hj1 as [Hb Hj1].
  assert (Hleft : ∀ c, c ∈ calls (attempt answers cs j1) ↔
    c ∈ calls j ∧ answers c = false ∧ (handler = true ∨ ∀ step, c ≠ CHttp step)).
  { intros c. rewrite attempt_calls.
    - rewrite Hj1, Hcs. destruct (answers c), c; naive_solver.
    - intros i p Hin. apply Hcs in Hin as [Hin _]. apply calls_elem in Hin. rewrite Hb. by left. }
  split; [done|]. change (forallb answers (http ++ cs) = true ↔ calls (attempt answers cs j1) = []).
  rewrite forallb_forall. split.
  - intros Hall. destruct (calls (attempt answers cs j1)) as [|c l] eqn:E; [done|].
    assert (c ∈ c :: l) as Hc by constructor. apply Hleft in Hc as (Hc & Ha & Hk).
    rewrite Hall in Ha; [congruence|]. apply list_elem_of_In, elem_of_app. rewrite Hhttp, Hcs.
    destruct c; [left|right]; naive_solver.
  - intros E c Hin%list_elem_of_In%elem_of_app. destruct (answers c) eqn:Ha; [done|].
    assert (c ∈ calls (attempt answers cs j1)) as Hc; [|by rewrite E in Hc; apply elem_of_nil in Hc].
    apply Hleft. destruct Hin as [Hin%Hhttp|Hin%Hcs]; naive_solver.
Qed.
