(* ===== verification/LifecycleSafety.v ===== *)
(** * What holds of workloads and their ids ([host/mod.rs], [host/cleanup.rs])

    The invariant of the transition system of [Lifecycle]: an id is free, running, or
    held by exactly one command or recovery, which has in its journal everything that is
    bound under the id, until the stop of the host clears the recoveries.  From it: ids
    follow a fixed lifecycle, a start that was stopped never runs, teardowns undo their
    own start only, free ids are clean, a running workload stays bound to all plugins but
    those that evict it, and every held id that the stop of the host did not leave to
    nobody can be freed. *)

From Stdlib Require Import ZArith Lia.
From stdpp Require Import base list gmap strings option relations.
From S2P Require Import Prelude Lifecycle.

Open Scope Z_scope.

Implicit Types w : World.
Implicit Types h : Host.
Implicit Types j : WorkloadResources.
Implicit Types rw : ResolvedWorkload.
Implicit Types rv : WorkloadRecovery.

(** ** Whose an id is *)

(** The reservation an id is held under. *)
Definition held (slot : option HostWorkload) : option Z :=
  match slot with Some (Starting r | Stopping r | Failing r _) => Some r | _ => None end.

Abbreviation slot_of w id := (workloads (host w) !! id).
Abbreviation recovery_at w id := (workload_recoveries (host w) !! id).
Abbreviation adrift_at w id := (adrift w !! id).
Abbreviation task_at w r id ph := (tasks w !! r = Some {| on := id; phase := ph |}).

(** A teardown has the id marked. *)
Definition marked (slot : option HostWorkload) (r : Z) : Prop :=
  slot = Some (Stopping r) ∨ ∃ reason, slot = Some (Failing r reason).

(** The start whose bindings a command has, and what may be bound for it. *)
Definition phase_claims (r : Z) (ph : Phase) (rn : Z) (res : Resource) : Prop :=
  match ph with
  | Reserved => False
  | Building j _ => rn = r ∧ res ∈ claims j
  | Releasing j origin => rn = origin ∧ res ∈ claims j
  | Failed rw _ => rn = run rw
  end.

Definition phase_ok (n r : Z) (slot : option HostWorkload) (ph : Phase) : Prop :=
  match ph with
  | Reserved => True
  | Building j asked => ∀ p, asked = Some p → Some p ∈ bindings j
  | Releasing _ origin => origin < n ∧ marked slot r
  | Failed rw _ => run rw < n ∧ slot = Some (Stopping r)
  end.

(** The plugins a start has been through have bound the workload, but for those that
    dropped it again. *)
Definition bound_or_dropped w (id : string) (r : Z) (ps : list string) : Prop :=
  ∀ p, p ∈ ps → (id, inr p, r) ∈ bound w ∨ (id, inr p, r) ∈ dropped w.

Definition phase_bound w (id : string) (r : Z) (ph : Phase) : Prop :=
  match ph with
  | Building j asked => ∀ p, p ∈ commit j → asked = Some p ∨ (id, inr p, r) ∈ bound w ∨ (id, inr p, r) ∈ dropped w
  | _ => True
  end.

Definition no_tasks w (id : string) : Prop := ∀ r ph, ¬ task_at w r id ph.

(** Everything bound under [id] and not given up is of [claims]. *)
Definition bound_by w (id : string) (claims : Z → Resource → Prop) : Prop :=
  ∀ res rn, (id, res, rn) ∈ bound w → (id, res, rn) ∈ given_up w ∨ claims rn res.

Inductive id_ok w (id : string) : Prop :=
  | id_free :
      slot_of w id = None ∨ (∃ reason, slot_of w id = Some (Error reason)) →
      recovery_at w id = None → adrift_at w id = None → no_tasks w id → bound_by w id (λ _ _, False) → id_ok w id
  | id_running rw :
      slot_of w id = Some (Running rw) → recovery_at w id = None → adrift_at w id = None → no_tasks w id →
      run rw < reservations (host w) → bound_or_dropped w id (run rw) (teardown_bindings rw) →
      bound_by w id (λ rn res, rn = run rw ∧ res ∈ claims (for_teardown rw)) → id_ok w id
  | id_task r ph :
      held (slot_of w id) = Some r → r < reservations (host w) → task_at w r id ph →
      (∀ r' ph', task_at w r' id ph' → r' = r) → recovery_at w id = None → adrift_at w id = None →
      phase_ok (reservations (host w)) r (slot_of w id) ph → phase_bound w id r ph →
      bound_by w id (phase_claims r ph) → id_ok w id
  | id_recovery rv :
      held (slot_of w id) = Some (reservation rv) → reservation rv < reservations (host w) →
      recovery_at w id = Some rv → adrift_at w id = None → no_tasks w id → of_run rv < reservations (host w) →
      (releasing rv = true → marked (slot_of w id) (reservation rv)) →
      bound_by w id (λ rn res, rn = of_run rv ∧ res ∈ claims (cleanup rv)) → id_ok w id
  | id_adrift rv :
      marked (slot_of w id) (reservation rv) → reservation rv < reservations (host w) →
      recovery_at w id = None → adrift_at w id = Some rv → no_tasks w id → stopped (host w) = true →
      bound_by w id (λ rn res, rn = of_run rv ∧ res ∈ claims (cleanup rv)) → id_ok w id
  | id_abandoned r :
      held (slot_of w id) = Some r → r < reservations (host w) → recovery_at w id = None →
      adrift_at w id = None → no_tasks w id → stopped (host w) = true → id_ok w id.

Definition world_ok w : Prop := ∀ id, id_ok w id.

Lemma marked_held slot r : marked slot r → held slot = Some r.
Proof. by intros [-> |[? ->]]. Qed.

(** Reservations only go up, and a host that has stopped stays so. *)
Definition later h h' : Prop :=
  reservations h <= reservations h' ∧ (stopped h = true → stopped h' = true).

Lemma later_refl h : later h h.
Proof. by split. Qed.

Lemma later_mint h ws :
  later h {| plugins := plugins h; workloads := ws; workload_recoveries := workload_recoveries h;
             reservations := reservations h + 1; stopped := stopped h |}.
Proof. split; cbn; [lia|done]. Qed.

(** What a step leaves alone, but for what a plugin drops. *)
Record same_at w w' (id : string) : Prop := {
  same_slot : slot_of w' id = slot_of w id;
  same_recovery : recovery_at w' id = recovery_at w id;
  same_adrift : adrift_at w' id = adrift_at w id;
  same_tasks : ∀ r ph, task_at w' r id ph ↔ task_at w r id ph;
  same_bound : ∀ res rn, (id, res, rn) ∈ bound w' → (id, res, rn) ∈ bound w;
  same_kept : ∀ res rn, (id, res, rn) ∈ bound w → (id, res, rn) ∈ bound w' ∨ (id, res, rn) ∈ dropped w';
  same_given : ∀ res rn, (id, res, rn) ∈ given_up w → (id, res, rn) ∈ given_up w';
  same_dropped : dropped w ⊆ dropped w';
}.

Lemma id_ok_same w w' id : same_at w w' id → later (host w) (host w') → id_ok w id → id_ok w' id.
Proof.
  intros [Hs Hr Ha Ht Hb Hk Hg Hd] [Hn Hst] Hok.
  assert (∀ P, bound_by w id P → bound_by w' id P) as Hbb.
  { intros P H res rn Hin. apply Hb in Hin. destruct (H _ _ Hin); [left; by apply Hg|by right]. }
  assert (no_tasks w id → no_tasks w' id) as Hnt.
  { intros H r ph Hr'. by apply Ht, H in Hr'. }
  destruct Hok as [Hf|rw ? ? ? ? ? Hbo|r ph ? ? ? ? ? ? ? Hpb|rv|rv|r].
  - apply id_free; [by rewrite Hs|by rewrite Hr|by rewrite Ha|auto|auto].
  - apply (id_running _ _ rw); [by rewrite Hs|by rewrite Hr|by rewrite Ha|auto|lia| |auto].
    intros p Hp. destruct (Hbo p Hp); auto.
  - apply (id_task _ _ r ph); [by rewrite Hs|lia|by apply Ht| |by rewrite Hr|by rewrite Ha| | |auto].
    + intros r' ph' H'. apply Ht in H'. eauto.
    + rewrite Hs. destruct ph; cbn in *; intuition lia.
    + destruct ph as [|j asked| |]; [done| |done|done]. intros p Hp. destruct (Hpb p Hp) as [|[|]]; auto.
  - apply (id_recovery _ _ rv); [by rewrite Hs|lia|by rewrite Hr|by rewrite Ha|auto|lia|by rewrite Hs|auto].
  - apply (id_adrift _ _ rv); [by rewrite Hs|lia|by rewrite Hr|by rewrite Ha|auto|auto|auto].
  - apply (id_abandoned _ _ r); [by rewrite Hs|lia|by rewrite Hr|by rewrite Ha|auto|auto].
Qed.

(** Who a task or a recovery is responsible for. *)
Lemma task_owns w r id ph :
  world_ok w → task_at w r id ph →
  held (slot_of w id) = Some r ∧ r < reservations (host w)
  ∧ (∀ r' ph', task_at w r' id ph' → r' = r) ∧ recovery_at w id = None
  ∧ phase_ok (reservations (host w)) r (slot_of w id) ph ∧ bound_by w id (phase_claims r ph).
Proof.
  intros Hok Ht. destruct (Hok id) as [? ? ? Hn ?|rw ? ? ? Hn|r' ph' ? ? Ht' Hu ? ? ?|rv ? ? ? ? Hn|rv ? ? ? ? Hn|r' ? ? ? ? Hn];
    try by apply Hn in Ht.
  pose proof (Hu _ _ Ht) as ->. rewrite Ht in Ht'. simplify_eq. eauto 10.
Qed.

Lemma task_adrift w r id ph :
  world_ok w → task_at w r id ph → adrift_at w id = None ∧ phase_bound w id r ph.
Proof.
  intros Hok Ht. destruct (Hok id) as [? ? ? Hn ?|rw ? ? ? Hn|r' ph' ? ? Ht' Hu ? ? ?|rv ? ? ? ? Hn|rv ? ? ? ? Hn|r' ? ? ? ? Hn];
    try by apply Hn in Ht.
  pose proof (Hu _ _ Ht) as ->. rewrite Ht in Ht'. by simplify_eq.
Qed.

Lemma recovery_owns w id rv :
  world_ok w → recovery_at w id = Some rv →
  held (slot_of w id) = Some (reservation rv) ∧ reservation rv < reservations (host w)
  ∧ no_tasks w id ∧ of_run rv < reservations (host w)
  ∧ (releasing rv = true → marked (slot_of w id) (reservation rv))
  ∧ bound_by w id (λ rn res, rn = of_run rv ∧ res ∈ claims (cleanup rv)).
Proof. intros Hok Hr. destruct (Hok id); simplify_eq; eauto 10. Qed.

Lemma recovery_adrift w id rv : world_ok w → recovery_at w id = Some rv → adrift_at w id = None.
Proof. intros Hok Hr. destruct (Hok id); by simplify_eq. Qed.

Lemma adrift_owns w id rv :
  world_ok w → adrift_at w id = Some rv →
  marked (slot_of w id) (reservation rv) ∧ reservation rv < reservations (host w)
  ∧ recovery_at w id = None ∧ no_tasks w id ∧ stopped (host w) = true
  ∧ bound_by w id (λ rn res, rn = of_run rv ∧ res ∈ claims (cleanup rv)).
Proof. intros Hok Hr. destruct (Hok id); simplify_eq; eauto 10. Qed.

Lemma running_owns w id rw :
  world_ok w → slot_of w id = Some (Running rw) →
  run rw < reservations (host w) ∧ bound_or_dropped w id (run rw) (teardown_bindings rw)
  ∧ no_tasks w id ∧ recovery_at w id = None ∧ adrift_at w id = None
  ∧ bound_by w id (λ rn res, rn = run rw ∧ res ∈ claims (for_teardown rw)).
Proof.
  intros Hok Hs. destruct (Hok id) as [Hf|rw'|r ph Hh|rv Hh|rv Hm|r Hh];
    [|by simplify_eq| | |apply marked_held in Hm as Hh|]; try by rewrite Hs in Hh.
  destruct Hf as [|[]]; congruence.
Qed.

Lemma task_fresh w r id ph : world_ok w → task_at w r id ph → r < reservations (host w).
Proof. intros Hok Ht. apply (task_owns _ _ _ _ Hok Ht). Qed.

Lemma task_one_id w r id ph id' ph' : task_at w r id ph → task_at w r id' ph' → id' = id ∧ ph' = ph.
Proof. intros H H'. rewrite H in H'. by simplify_eq. Qed.

(** *** What the functions do to an id held by their caller *)

Definition frees h h' (id : string) : Prop :=
  (workloads h' = delete id (workloads h) ∨ ∃ reason, workloads h' = <[id := Error reason]> (workloads h))
  ∧ later h h'.

Lemma release_frees h id r :
  held (workloads h !! id) = Some r →
  frees h (workload_release h id r) id
  ∧ workload_recoveries (workload_release h id r) = workload_recoveries h.
Proof.
  unfold workload_release, held, frees. intros Hh.
  destruct (workloads h !! id) as [[]|]; simplify_eq; rewrite Z.eqb_refl; cbn;
    (split; [split; [eauto|by split]|done]).
Qed.

Lemma finish_frees h id r reason :
  marked (workloads h !! id) r →
  frees h (finish_teardown h id r reason) id
  ∧ workload_recoveries (finish_teardown h id r reason) = workload_recoveries h.
Proof.
  unfold finish_teardown, frees. intros [->|[reason' ->]]; rewrite Z.eqb_refl; destruct reason; cbn;
    (split; [split; [eauto|by split]|done]).
Qed.

(** The recovery that finishes is the one on record, or none is: the host stopped. *)
Lemma recover_frees h id rv :
  workload_recoveries h !! id = Some rv ∨ workload_recoveries h !! id = None →
  marked (workloads h !! id) (reservation rv) →
  frees h (recover_finish h id rv) id
  ∧ workload_recoveries (recover_finish h id rv) = delete id (workload_recoveries h).
Proof.
  unfold recover_finish, frees, forget. intros [Hr|Hr] [->|[reason' ->]]; rewrite Z.eqb_refl, Hr, ?Z.eqb_refl; cbn;
    rewrite ?(delete_id _ _ Hr); (split; [split; [eauto|by split]|done]).
Qed.

Lemma frees_slot h h' id :
  frees h h' id → workloads h' !! id = None ∨ ∃ reason, workloads h' !! id = Some (Error reason).
Proof.
  intros [[->|[reason ->]] _]; [left; apply lookup_delete_eq|right; exists reason; apply lookup_insert_eq].
Qed.

Lemma frees_other h h' id id' : frees h h' id → id' ≠ id → workloads h' !! id' = workloads h !! id'.
Proof. intros [[->|[reason ->]] _] Hne; [by apply lookup_delete_ne|by apply lookup_insert_ne]. Qed.

(** A commit that does not make the workload run leaves the id marked. *)
Lemma commit_cases h id r started answer h' :
  held (workloads h !! id) = Some r → commit_start h id r started = (answer, h') →
  workload_recoveries h' = workload_recoveries h ∧ (reservations h' = reservations h ∧ stopped h' = stopped h)
  ∧ ((∃ rw, started = Ok rw ∧ workloads h !! id = Some (Starting r) ∧ answer.2 = false
            ∧ workloads h' = <[id := Running rw]> (workloads h))
     ∨ (answer.2 = true ∧ marked (workloads h' !! id) r
        ∧ ∀ id', id' ≠ id → workloads h' !! id' = workloads h !! id')).
Proof.
  unfold commit_start, held, marked. intros Hh E.
  destruct (workloads h !! id) as [[]|] eqn:Hs; simplify_eq; rewrite ?Z.eqb_refl in E;
    destruct started; simplify_eq/=; split_and!; try done; try (left; by eauto);
    right; rewrite ?Hs; split_and!; try done; eauto.
  - right. eexists. apply lookup_insert_eq.
  - intros id' Hne. by apply lookup_insert_ne.
Qed.

(** *** Elsewhere *)

Lemma same_elsewhere w w' r id id' :
  id' ≠ id → slot_of w' id' = slot_of w id' → recovery_at w' id' = recovery_at w id' →
  (∀ ph, ¬ task_at w r id' ph) →
  tasks w' = tasks w ∨ (∃ ph, tasks w' = <[r := {| on := id; phase := ph |}]> (tasks w))
    ∨ tasks w' = delete r (tasks w) →
  (∀ res rn, (id', res, rn) ∈ bound w' ↔ (id', res, rn) ∈ bound w) → given_up w ⊆ given_up w' →
  adrift_at w' id' = adrift_at w id' → dropped w' = dropped w → same_at w w' id'.
Proof.
  intros Hne Hs Hr Hno Ht Hb Hg Ha Hd. split; [done|done|done| |by intros ? ? ?%Hb|intros; left; by apply Hb|by auto|by rewrite Hd].
  intros r' ph. destruct Ht as [->|[[ph' ->]| ->]]; [done| |]; destruct (decide (r' = r)) as [->|Hr'].
  - rewrite lookup_insert_eq. split; [intros [= <- ]; by destruct Hne|by intros H%Hno].
  - by rewrite lookup_insert_ne by auto.
  - rewrite lookup_delete_eq. split; [done|by intros H%Hno].
  - by rewrite lookup_delete_ne by auto.
Qed.

Lemma unbind_elem id res b id' res' rn :
  (id', res', rn) ∈ unbind id res b ↔ (id', res', rn) ∈ b ∧ (id', res') ≠ (id, res).
Proof. unfold unbind. rewrite elem_of_filter. cbn. tauto. Qed.

(** A step that concerns [id] alone, taken by its task [r] or by a new one. *)
Lemma step_at w w' r id :
  world_ok w → (∀ ph id', id' ≠ id → ¬ task_at w r id' ph) →
  (∀ id', id' ≠ id → slot_of w' id' = slot_of w id') →
  (∀ id', id' ≠ id → recovery_at w' id' = recovery_at w id') →
  tasks w' = tasks w ∨ (∃ ph, tasks w' = <[r := {| on := id; phase := ph |}]> (tasks w))
    ∨ tasks w' = delete r (tasks w) →
  (∀ id' res rn, id' ≠ id → (id', res, rn) ∈ bound w' ↔ (id', res, rn) ∈ bound w) →
  given_up w ⊆ given_up w' → later (host w) (host w') →
  (∀ id', id' ≠ id → adrift_at w' id' = adrift_at w id') → dropped w' = dropped w →
  id_ok w' id → world_ok w'.
Proof.
  intros Hok Hno Hs Hr Ht Hb Hg Hn Ha Hd Hid id'. destruct (decide (id' = id)) as [->|Hne]; [done|].
  apply (id_ok_same w); [|done|done]. apply (same_elsewhere _ _ r id); auto.
Qed.

Lemma own_task_elsewhere w r id ph0 : task_at w r id ph0 → ∀ ph id', id' ≠ id → ¬ task_at w r id' ph.
Proof. intros H ph id' Hne H'. by destruct (task_one_id _ _ _ _ _ _ H H'). Qed.

Lemma new_task_elsewhere w id : world_ok w → ∀ ph id', id' ≠ id → ¬ task_at w (reservations (host w)) id' ph.
Proof. intros Hok ph id' _ Ht. apply (task_fresh _ _ _ _ Hok) in Ht. lia. Qed.

(** The task of an id goes on in another phase, the id still marked as its. *)
Lemma task_goes_on w w' r id ph ph' :
  world_ok w → task_at w r id ph → tasks w' = <[r := {| on := id; phase := ph' |}]> (tasks w) →
  held (slot_of w' id) = Some r →
  (∀ id', id' ≠ id → slot_of w' id' = slot_of w id') →
  workload_recoveries (host w') = workload_recoveries (host w) →
  (reservations (host w') = reservations (host w) ∧ stopped (host w') = stopped (host w)) →
  given_up w' = given_up w ∧ adrift w' = adrift w ∧ dropped w' = dropped w →
  (∀ id' res rn, id' ≠ id → (id', res, rn) ∈ bound w' ↔ (id', res, rn) ∈ bound w) →
  phase_ok (reservations (host w)) r (slot_of w' id) ph' →
  (phase_bound w id r ph → phase_bound w' id r ph') →
  (bound_by w id (phase_claims r ph) → bound_by w' id (phase_claims r ph')) →
  world_ok w'.
Proof.
  intros Hok Ht Ht' Hh Hs Hr [Hn Hst] (Hg & Ha & Hd) Hb Hp Hpb Hbb.
  destruct (task_owns _ _ _ _ Hok Ht) as (_ & Hlt & Hu & Hrec & _ & Hbd).
  destruct (task_adrift _ _ _ _ Hok Ht) as [Hna Hbn].
  apply (step_at w w' r id Hok (own_task_elsewhere _ _ _ _ Ht) Hs); rewrite ?Hr, ?Hg, ?Ha; eauto;
    [split; [lia|congruence]|].
  apply (id_task _ _ r ph'); [done|lia| | |by rewrite Hr|by rewrite Ha|by rewrite Hn|auto|auto].
  - rewrite Ht'. apply lookup_insert_eq.
  - intros r' ph''. rewrite Ht'. destruct (decide (r' = r)) as [|Hne]; [done|].
    rewrite lookup_insert_ne by auto. apply Hu.
Qed.

Lemma no_tasks_left w w' r id ph :
  world_ok w → task_at w r id ph → tasks w' = delete r (tasks w) → no_tasks w' id.
Proof.
  intros Hok Ht Ht' r' ph'. rewrite Ht'. destruct (decide (r' = r)) as [->|Hne].
  - by rewrite lookup_delete_eq.
  - rewrite lookup_delete_ne by auto. intros H'. by apply (task_owns _ _ _ _ Hok Ht) in H'.
Qed.

(** The task of an id is over and the id free. *)
Lemma task_frees w w' r id ph :
  world_ok w → task_at w r id ph → tasks w' = delete r (tasks w) →
  frees (host w) (host w') id → workload_recoveries (host w') = workload_recoveries (host w) →
  bound w' = bound w ∧ adrift w' = adrift w ∧ dropped w' = dropped w → given_up w ⊆ given_up w' →
  bound_by w' id (λ _ _, False) → world_ok w'.
Proof.
  intros Hok Ht Ht' Hf Hr (Hb & Ha & Hd) Hg Hbb. destruct (task_owns _ _ _ _ Hok Ht) as (_ & _ & _ & Hrec & _).
  destruct (task_adrift _ _ _ _ Hok Ht) as [Hna _].
  apply (step_at w w' r id Hok (own_task_elsewhere _ _ _ _ Ht)); rewrite ?Hr, ?Hb, ?Ha; auto.
  - intros id' Hne. by apply (frees_other _ _ id).
  - apply Hf.
  - apply id_free; [by eapply frees_slot|by rewrite Hr|by rewrite Ha|by eapply no_tasks_left|done].
Qed.

(** The task of an id hands it over to a recovery. *)
Lemma task_interrupted w r id ph j retain rn :
  world_ok w → task_at w r id ph → rn < reservations (host w) →
  (∀ rn' res, phase_claims r ph rn' res → rn' = rn ∧ res ∈ claims j) →
  world_ok (end_task (set_recovery w id {| reservation := r; cleanup := j; retain_failure := retain;
                                           releasing := false; of_run := rn |}) r).
Proof.
  intros Hok Ht Hrn Hc. destruct (task_owns _ _ _ _ Hok Ht) as (Hh & Hlt & _ & _ & _ & Hbd).
  destruct (task_adrift _ _ _ _ Hok Ht) as [Hna _].
  eapply (step_at w _ r id Hok (own_task_elsewhere _ _ _ _ Ht)); cbn; auto; [|by split|].
  - intros id' Hne. by rewrite lookup_insert_ne by auto.
  - apply (id_recovery _ _ {| reservation := r; cleanup := j; retain_failure := retain;
                              releasing := false; of_run := rn |}); cbn; try done.
    + apply lookup_insert_eq.
    + by eapply (no_tasks_left w _ r id ph).
    + intros res rn' Hin. destruct (Hbd _ _ Hin) as [|Hcl]; [by left|right]. by apply Hc.
Qed.

(** An id is marked again under the reservation it is held by. *)
Lemma remark_ok w h id r x :
  world_ok w → held (slot_of w id) = Some r → workloads h = <[id := x]> (workloads (host w)) →
  workload_recoveries h = workload_recoveries (host w) → later (host w) h →
  x = Stopping r ∨ (slot_of w id = Some (Starting r) ∧ ∃ reason, x = Failing r reason) →
  world_ok (set_host w h).
Proof.
  intros Hok Hh Hw Hr Hn Hx.
  assert (held (workloads h !! id) = Some r) as Hh'.
  { rewrite Hw, lookup_insert_eq. destruct Hx as [->|(_ & ? & ->)]; done. }
  assert (∀ r', marked (slot_of w id) r' → marked (workloads h !! id) r') as Hm.
  { rewrite Hw, lookup_insert_eq. unfold marked. intros r' [E|[reason E]]; rewrite E in Hh, Hx;
      injection Hh as ->; destruct Hx as [->|[[=] _]]; by left. }
  apply (step_at w _ (reservations (host w)) id Hok (new_task_elsewhere _ _ Hok)); cbn; auto.
  - intros id' Hne. by rewrite Hw, lookup_insert_ne by auto.
  - by rewrite Hr.
  - destruct Hn as [Hn Hst]. destruct (Hok id) as [Hf|rw E|r' ph Hh0 ? ? ? ? ? Hp|rv Hh0|rv Hm0|r' Hh0].
    + destruct Hf as [E|[? E]]; by rewrite E in Hh.
    + by rewrite E in Hh.
    + apply (id_task _ _ r' ph); cbn; rewrite ?Hr; auto; [congruence|lia|].
      destruct ph as [| |j o|rw reason]; cbn in *; [done|done| |].
      * destruct Hp. split; [lia|auto].
      * destruct Hp as [? E]. rewrite E in Hh, Hx. injection Hh as ->.
        split; [lia|]. rewrite Hw, lookup_insert_eq. by destruct Hx as [->|[[=] _]].
    + apply (id_recovery _ _ rv); cbn; rewrite ?Hr; auto; [congruence|lia|lia].
    + apply (id_adrift _ _ rv); cbn; rewrite ?Hr; auto. lia.
    + apply (id_abandoned _ _ r'); cbn; rewrite ?Hr; auto; [congruence|lia].
Qed.

(** A running workload is taken out of the map, under a new reservation. *)
Lemma torn_ok w h id rw ph :
  world_ok w → slot_of w id = Some (Running rw) →
  workloads h = <[id := Stopping (reservations (host w))]> (workloads (host w)) →
  workload_recoveries h = workload_recoveries (host w) →
  (reservations h = reservations (host w) + 1 ∧ stopped h = stopped (host w)) →
  phase_ok (reservations h) (reservations (host w)) (Some (Stopping (reservations (host w)))) ph →
  (∀ j asked, ph ≠ Building j asked) →
  (∀ rn res, rn = run rw → res ∈ claims (for_teardown rw) → phase_claims (reservations (host w)) ph rn res) →
  world_ok (put_task (set_host w h) (reservations (host w)) {| on := id; phase := ph |}).
Proof.
  intros Hok Hs Hw Hr [Hn Hst] Hp Hpb Hc. set (r := reservations (host w)) in *.
  destruct (running_owns _ _ _ Hok Hs) as (Hlt & _ & Hno & Hrec & Hna & Hb).
  apply (step_at w _ r id Hok (new_task_elsewhere _ _ Hok)); cbn; eauto.
  - intros id' Hne. by rewrite Hw, lookup_insert_ne by auto.
  - by rewrite Hr.
  - split; [fold r; lia|congruence].
  - apply (id_task _ _ r ph); cbn.
    + by rewrite Hw, lookup_insert_eq.
    + lia.
    + apply lookup_insert_eq.
    + intros r' ph'. destruct (decide (r' = r)) as [|Hne]; [done|].
      rewrite lookup_insert_ne by auto. by intros ?%Hno.
    + by rewrite Hr.
    + done.
    + by rewrite Hw, lookup_insert_eq.
    + destruct ph as [|j asked| |]; [done|by destruct (Hpb j asked)|done..].
    + intros res rn Hin. destruct (Hb _ _ Hin) as [|[? ?]]; [by left|right; auto].
Qed.

(** A recovery goes on. *)
Lemma recovery_goes_on w w' id rv active j :
  world_ok w → recovery_at w id = Some rv →
  tasks w' = tasks w ∧ adrift w' = adrift w ∧ dropped w' = dropped w → given_up w' = given_up w →
  (reservations (host w') = reservations (host w) ∧ stopped (host w') = stopped (host w)) →
  workload_recoveries (host w') = <[id := recovery_of rv active j]> (workload_recoveries (host w)) →
  workloads (host w') = workloads (host w) ∨
    workloads (host w') = <[id := Stopping (reservation rv)]> (workloads (host w)) →
  (active = true → marked (slot_of w' id) (reservation rv)) →
  (∀ id' res rn, id' ≠ id → (id', res, rn) ∈ bound w' ↔ (id', res, rn) ∈ bound w) →
  (∀ res rn, (id, res, rn) ∈ bound w' → (id, res, rn) ∈ bound w ∧ (res ∈ claims (cleanup rv) → res ∈ claims j)) →
  world_ok w'.
Proof.
  intros Hok Hrec (Ht & Ha & Hd) Hg [Hn Hst] Hr Hw Hm Hb Hc.
  destruct (recovery_owns _ _ _ Hok Hrec) as (Hh & ? & Hno & ? & _ & Hbd).
  pose proof (recovery_adrift _ _ _ Hok Hrec) as Hna.
  apply (step_at w w' (reservations (host w)) id Hok (new_task_elsewhere _ _ Hok)); auto.
  - intros id' Hne. destruct Hw as [-> | ->]; [done|by rewrite lookup_insert_ne by auto].
  - intros id' Hne. by rewrite Hr, lookup_insert_ne by auto.
  - by rewrite Hg.
  - split; [lia|congruence].
  - intros id' _. by rewrite Ha.
  - apply (id_recovery _ _ (recovery_of rv active j)); cbn.
    + destruct Hw as [-> | ->]; [done|by rewrite lookup_insert_eq].
    + lia.
    + by rewrite Hr, lookup_insert_eq.
    + by rewrite Ha.
    + intros r ph. rewrite Ht. apply Hno.
    + lia.
    + done.
    + intros res rn Hin. apply Hc in Hin as [Hin Hj]. rewrite Hg.
      destruct (Hbd _ _ Hin) as [|[? ?]]; auto.
Qed.

Lemma mint_ok w h :
  world_ok w → workloads h = workloads (host w) → workload_recoveries h = workload_recoveries (host w) →
  later (host w) h → world_ok (set_host w h).
Proof.
  intros Hok Hw Hr Hn id. apply (id_ok_same w); [|done|done].
  split; cbn; rewrite ?Hw, ?Hr; auto.
Qed.

(** An id nothing is bound under goes. *)
Lemma drop_ok w h id :
  world_ok w → held (slot_of w id) = None → (∀ rw, slot_of w id ≠ Some (Running rw)) →
  workloads h = delete id (workloads (host w)) →
  workload_recoveries h = workload_recoveries (host w) → later (host w) h →
  world_ok (set_host w h).
Proof.
  intros Hok Hh Hrun Hw Hr Hn.
  apply (step_at w _ (reservations (host w)) id Hok (new_task_elsewhere _ _ Hok)); cbn; auto.
  - intros id' Hne. by rewrite Hw, lookup_delete_ne by auto.
  - by rewrite Hr.
  - destruct (Hok id) as [Hf|rw E|r' ph' Hh'|rv Hh'|rv Hh'%marked_held|r' Hh'];
      [|by apply Hrun in E|congruence..].
    apply id_free; cbn; rewrite ?Hr; auto. left. rewrite Hw. apply lookup_delete_eq.
Qed.

(** *** Every step keeps the order *)

Lemma reserve_ok w id r h admission :
  world_ok w → workload_reserve (host w) id admission = (Ok r, h) →
  world_ok (put_task (set_host w h) r {| on := id; phase := Reserved |}).
Proof.
  intros Hok E. unfold workload_reserve in E. cbn in E. destruct (stopped _) eqn:Hst; [done|].
  case_bool_decide; [done|]. destruct (slot_of w id) eqn:Hs; [done|]. destruct admission; simplify_eq/=.
  apply (step_at w _ (reservations (host w)) id Hok (new_task_elsewhere _ _ Hok)); cbn; eauto.
  - intros id' Hne. by rewrite lookup_insert_ne by auto.
  - split; cbn; [lia|congruence].
  - destruct (Hok id) as [_ Hr Hna Hno Hb|rw E|r' ph' Hh|rv Hh|rv Hh%marked_held|r' Hh];
      [|congruence|by rewrite Hs in Hh..].
    apply (id_task _ _ (reservations (host w)) Reserved); cbn; try done.
    + by rewrite lookup_insert_eq.
    + lia.
    + apply lookup_insert_eq.
    + intros r' ph'. destruct (decide (r' = reservations (host w))) as [|Hne]; [done|].
      rewrite lookup_insert_ne by auto. by intros ?%Hno.
Qed.

Lemma refuse_same h id admission e h' :
  workload_reserve h id admission = (Err e, h') →
  workloads h' = workloads h ∧ workload_recoveries h' = workload_recoveries h
  ∧ reservations h' = reservations h + 1 ∧ stopped h' = stopped h.
Proof.
  unfold workload_reserve. cbn. intros E. destruct (stopped _) eqn:Hst; [by simplify_eq/=|].
  case_bool_decide; [by simplify_eq/=|]. destruct (workloads h !! id); [by simplify_eq/=|].
  destruct admission; by simplify_eq/=.
Qed.

Lemma started_ok w r id j service answer h :
  world_ok w → task_at w r id (Building (note_resolved j service) None) →
  commit_start (host w) id r
    (Ok {| run := r; teardown_bindings := commit j; has_service := service |}) = (answer, h) →
  world_ok (if answer.2 then put_task (set_host w h) r
                               {| on := id; phase := Releasing (note_resolved j service) r |}
            else end_task (set_host w h) r).
Proof.
  intros Hok Ht E. destruct (task_owns _ _ _ _ Hok Ht) as (Hh & Hlt & Hu & Hrec & _ & Hbd).
  destruct (task_adrift _ _ _ _ Hok Ht) as [Hna Hb].
  destruct (commit_cases _ _ _ _ _ _ Hh E) as (Hr & [Hn Hst] & [(rw & [= <-] & Hs & -> & Hw)|(-> & Hm & Ho)]).
  - apply (step_at w _ r id Hok (own_task_elsewhere _ _ _ _ Ht)); cbn; auto;
      [|by rewrite Hr|split; [lia|congruence]|].
    + intros id' Hne. by rewrite Hw, lookup_insert_ne by auto.
    + eapply id_running; cbn; [by rewrite Hw, lookup_insert_eq|by rewrite Hr|done|eapply no_tasks_left; eauto|
        cbn; lia| |].
      { intros p Hp. destruct (Hb p Hp) as [[=]|?]. done. }
      intros res rn Hin. destruct (Hbd _ _ Hin) as [|[-> Hc]]; [by left|right].
      split; [done|]. by apply claims_commit.
  - eapply (task_goes_on w _ r id); eauto; cbn; try done. by apply marked_held.
Qed.

Lemma not_started_ok w r id j asked message answer h :
  world_ok w → task_at w r id (Building j asked) → commit_start (host w) id r (Err message) = (answer, h) →
  world_ok (put_task (set_host w h) r {| on := id; phase := Releasing j r |}).
Proof.
  intros Hok Ht E. destruct (task_owns _ _ _ _ Hok Ht) as (Hh & Hlt & _).
  destruct (commit_cases _ _ _ _ _ _ Hh E) as (Hr & Hn & [(rw & [=] & _)|(_ & Hm & Ho)]).
  eapply (task_goes_on w _ r id); eauto; cbn; try done. by apply marked_held.
Qed.

Lemma unbind_ok w r id j origin c (noted : bool) :
  world_ok w → task_at w r id (Releasing j origin) → c ∈ calls j →
  world_ok (put_task (set_bound w (unbind id (resource_of c) (bound w))) r
              {| on := id; phase := Releasing (if noted then record j c else j) origin |}).
Proof.
  intros Hok Ht Hc. destruct (task_owns _ _ _ _ Hok Ht) as (Hh & _ & _ & _ & Hp & _).
  eapply (task_goes_on w _ r id); eauto; cbn; try done.
  - intros id' res rn Hne. rewrite unbind_elem. naive_solver.
  - intros Hb res rn Hin. apply unbind_elem in Hin as [Hin Hne].
    destruct (Hb _ _ Hin) as [|[-> Hcl]]; [by left|right]. split; [done|].
    destruct noted; [|done]. destruct (claims_record _ _ _ Hc Hcl); [congruence|done].
Qed.

Lemma stop_ok w id torn r h :
  world_ok w → workload_stop (host w) id = (torn, (r, h)) →
  world_ok (match torn with
            | Some rw => put_task (set_host w h) r
                           {| on := id; phase := Releasing (for_teardown rw) (run rw) |}
            | None => set_host w h
            end).
Proof.
  unfold workload_stop. cbn. intros Hok E.
  pose proof (later_mint (host w)) as Hl.
  destruct (slot_of w id) as [[held|rw|held|held reason|reason]|] eqn:Hs; simplify_eq/=.
  - eapply (remark_ok w _ id held); eauto; cbn; by rewrite Hs.
  - destruct (running_owns _ _ _ Hok Hs). apply (torn_ok w _ id rw); cbn; auto.
    split; [lia|by left].
  - by apply mint_ok.
  - eapply (remark_ok w _ id held); eauto; cbn; by rewrite Hs.
  - apply (drop_ok w _ id); cbn; rewrite ?Hs; auto. apply Hl.
  - apply (drop_ok w _ id); cbn; rewrite ?Hs; auto. apply Hl.
Qed.

Lemma fail_ok w id reason torn r h :
  world_ok w → fail_workload (host w) id reason = (torn, (r, h)) →
  world_ok (match torn with
            | Some rw => put_task (set_host w h) r {| on := id; phase := Failed rw reason |}
            | None => set_host w h
            end).
Proof.
  unfold fail_workload. cbn. intros Hok E. pose proof (later_mint (host w)) as Hl.
  destruct (slot_of w id) as [[held|rw|held|held reason'|reason']|] eqn:Hs; simplify_eq/=;
    try by apply mint_ok.
  - eapply (remark_ok w _ id held); eauto; cbn; by rewrite Hs.
  - destruct (running_owns _ _ _ Hok Hs). apply (torn_ok w _ id rw); cbn; auto. split; [lia|done].
Qed.

(** Of the four ways [recover] can begin, only one is taken. *)
Lemma recover_proceeds w id rv a h :
  world_ok w → recovery_at w id = Some rv → recover_start (host w) id rv = (a, h) →
  a = Proceed ∧ workload_recoveries h = workload_recoveries (host w)
  ∧ (reservations h = reservations (host w) ∧ stopped h = stopped (host w))
  ∧ (workloads h = workloads (host w) ∨ workloads h = <[id := Stopping (reservation rv)]> (workloads (host w)))
  ∧ marked (workloads h !! id) (reservation rv).
Proof.
  intros Hok Hr E. destruct (recovery_owns _ _ _ Hok Hr) as (Hh & _).
  unfold recover_start in E. rewrite Hr, Z.eqb_refl in E. unfold held in Hh. unfold marked.
  destruct (slot_of w id) as [[]|] eqn:Hs; simplify_eq; rewrite Z.eqb_refl in E;
    try destruct (retain_failure rv); simplify_eq/=; rewrite ?lookup_insert_eq; eauto 10.
Qed.

Lemma finish_ok w r id j origin :
  world_ok w → task_at w r id (Releasing j origin) → calls j = [] →
  world_ok (end_task (set_host w (finish_teardown (host w) id r None)) r).
Proof.
  intros Hok Ht Hc. destruct (task_owns _ _ _ _ Hok Ht) as (Hh & _ & _ & _ & [_ Hm] & Hbd).
  destruct (finish_frees _ _ _ None Hm). eapply (task_frees w _ r id); eauto.
  intros res rn Hin. destruct (Hbd _ _ Hin) as [|[_ Hcl]]; [by left|]. by apply no_calls_no_claims in Hcl.
Qed.

Lemma fail_finish_ok w r id rw reason :
  world_ok w → task_at w r id (Failed rw reason) →
  world_ok (end_task (set_host (leave_behind w id (run rw)) (finish_teardown (host w) id r (Some reason))) r).
Proof.
  intros Hok Ht. destruct (task_owns _ _ _ _ Hok Ht) as (Hh & _ & _ & _ & [_ Hs] & Hbd).
  destruct (finish_frees (host w) id r (Some reason)); [by left|].
  eapply (task_frees w _ r id); eauto; cbn; [set_solver|].
  intros res rn Hin. left. cbn. apply elem_of_union. destruct (Hbd _ _ Hin) as [|Hcl]; [by left|right].
  by apply elem_of_filter.
Qed.

Lemma recover_unbind_ok w id rv c (noted : bool) :
  world_ok w → recovery_at w id = Some rv → releasing rv = true → c ∈ calls (cleanup rv) →
  world_ok (set_recovery (set_bound w (unbind id (resource_of c) (bound w))) id
              (recovery_of rv true (if noted then record (cleanup rv) c else cleanup rv))).
Proof.
  intros Hok Hr Hrel Hc. destruct (recovery_owns _ _ _ Hok Hr) as (_ & _ & _ & _ & Hm & _).
  eapply (recovery_goes_on w); [done|done|done|done|done|done|by left|by auto|..]; cbn.
  - intros id' res' rn Hne. rewrite unbind_elem. naive_solver.
  - intros res rn [Hin Hne]%unbind_elem. split; [done|]. intros Hcl. destruct noted; [|done].
    destruct (claims_record _ _ _ Hc Hcl); [congruence|done].
Qed.

Lemma recover_finish_ok w id rv :
  world_ok w → recovery_at w id = Some rv → releasing rv = true → calls (cleanup rv) = [] →
  world_ok (set_host w (recover_finish (host w) id rv)).
Proof.
  intros Hok Hr Hrel Hc. destruct (recovery_owns _ _ _ Hok Hr) as (Hh & _ & Hno & _ & Hm & Hbd).
  destruct (recover_frees _ _ _ (or_introl Hr) (Hm Hrel)) as [Hf Hr'].
  pose proof (recovery_adrift _ _ _ Hok Hr) as Hna.
  apply (step_at w _ (reservations (host w)) id Hok (new_task_elsewhere _ _ Hok)); cbn; auto.
  - intros id' Hne. by apply (frees_other _ _ id).
  - intros id' Hne. by rewrite Hr', lookup_delete_ne by auto.
  - apply Hf.
  - apply id_free; cbn; [by eapply frees_slot|by rewrite Hr', lookup_delete_eq|done|done|].
    intros res rn Hin. destruct (Hbd _ _ Hin) as [|[_ Hcl]]; [by left|]. by apply no_calls_no_claims in Hcl.
Qed.

(** The stop of the host clears the recoveries: an attempt under way goes on, any other
    id is left to nobody. *)
Lemma clear_ok w : world_ok w → stopped (host w) = true → world_ok (clear_recoveries w).
Proof.
  intros Hok Hst id. unfold clear_recoveries.
  set (m := filter (λ x, releasing x.2 = true) (workload_recoveries (host w))).
  assert (m !! id = match recovery_at w id with
                    | Some rv => if releasing rv then Some rv else None | None => None end) as Hm.
  { unfold m. destruct (recovery_at w id) as [rv|] eqn:E; [destruct (releasing rv) eqn:Hrel|].
    - by apply map_lookup_filter_Some.
    - apply map_lookup_filter_None. right. intros rv' E'. simplify_eq. cbn. congruence.
    - apply map_lookup_filter_None. by left. }
  destruct (Hok id) as [Hf|rw|r ph|rv|rv|r];
    repeat match goal with H : recovery_at w id = _ |- _ => rewrite H in Hm; revert H end; intros;
    try destruct (releasing rv) eqn:Hrel;
    [apply id_free|apply (id_running _ _ rw)|apply (id_task _ _ r ph)|apply (id_adrift _ _ rv)
    |apply (id_abandoned _ _ (reservation rv))|apply (id_adrift _ _ rv)..|apply (id_abandoned _ _ r)];
    cbn; rewrite ?lookup_union, ?Hm; auto; try done;
    try match goal with H : adrift_at w id = _ |- _ => by rewrite H end.
Qed.

(** An attempt adrift goes on. *)
Lemma adrift_unbind_ok w id rv c (noted : bool) :
  world_ok w → adrift_at w id = Some rv → c ∈ calls (cleanup rv) →
  world_ok (set_adrift (set_bound w (unbind id (resource_of c) (bound w)))
              (<[id := recovery_of rv true (if noted then record (cleanup rv) c else cleanup rv)]> (adrift w))).
Proof.
  intros Hok Ha Hc. destruct (adrift_owns _ _ _ Hok Ha) as (Hm & ? & ? & Hno & ? & Hb).
  apply (step_at w _ (reservations (host w)) id Hok (new_task_elsewhere _ _ Hok)); cbn; auto using later_refl.
  - intros id' res rn Hne. rewrite unbind_elem. naive_solver.
  - intros id' Hne. by rewrite lookup_insert_ne by auto.
  - apply (id_adrift _ _ (recovery_of rv true (if noted then record (cleanup rv) c else cleanup rv)));
      cbn; [done|done|done|by rewrite lookup_insert_eq|done|done|].
    intros res rn [Hin Hne]%unbind_elem. destruct (Hb _ _ Hin) as [|[-> Hcl]]; [by left|right]. split; [done|].
    cbn. destruct noted; [|done]. destruct (claims_record _ _ _ Hc Hcl); [congruence|done].
Qed.

Lemma adrift_fails_ok w id rv :
  world_ok w → adrift_at w id = Some rv → world_ok (set_adrift w (delete id (adrift w))).
Proof.
  intros Hok Ha. destruct (adrift_owns _ _ _ Hok Ha) as (Hm & ? & ? & Hno & ? & _).
  apply (step_at w _ (reservations (host w)) id Hok (new_task_elsewhere _ _ Hok)); cbn; auto using later_refl.
  - intros id' Hne. by rewrite lookup_delete_ne by auto.
  - apply (id_abandoned _ _ (reservation rv)); cbn; auto using marked_held. apply lookup_delete_eq.
Qed.

Lemma adrift_finish_ok w id rv :
  world_ok w → adrift_at w id = Some rv → calls (cleanup rv) = [] →
  world_ok (set_adrift (set_host w (recover_finish (host w) id rv)) (delete id (adrift w))).
Proof.
  intros Hok Ha Hc. destruct (adrift_owns _ _ _ Hok Ha) as (Hm & ? & Hr & Hno & ? & Hbd).
  destruct (recover_frees _ _ _ (or_intror Hr) Hm) as [Hf Hr'].
  apply (step_at w _ (reservations (host w)) id Hok (new_task_elsewhere _ _ Hok)); cbn; auto.
  - intros id' Hne. by apply (frees_other _ _ id).
  - intros id' Hne. by rewrite Hr', lookup_delete_ne by auto.
  - apply Hf.
  - intros id' Hne. by rewrite lookup_delete_ne by auto.
  - apply id_free; cbn; [by eapply frees_slot|by rewrite Hr', lookup_delete_eq|apply lookup_delete_eq|done|].
    intros res rn Hin. destruct (Hbd _ _ Hin) as [|[_ Hcl]]; [by left|]. by apply no_calls_no_claims in Hcl.
Qed.

(** A start binds: the journal stays ahead of what is bound. *)
Lemma plugin_bound_ok w r id j asked asked' res :
  world_ok w → task_at w r id (Building j asked) → res ∈ claims j →
  asked' = asked ∨ (asked' = None ∧ ∃ p, asked = Some p ∧ res = inr p) →
  world_ok (put_task (set_bound w ({[(id, res, r)]} ∪ bound w)) r {| on := id; phase := Building j asked' |}).
Proof.
  intros Hok Ht Hres Has. destruct (task_owns _ _ _ _ Hok Ht) as (Hh & _ & _ & _ & Hp & Hbd).
  eapply (task_goes_on w _ r id); [done|done| |..]; cbn; eauto.
  - intros id' res' rn Hne. rewrite elem_of_union, elem_of_singleton. naive_solver.
  - by destruct Has as [-> |[-> _]].
  - intros Hb p Hp'. cbn. rewrite elem_of_union, elem_of_singleton.
    destruct (Hb p Hp') as [->|[?|?]]; [|auto..]. destruct Has as [->|(_ & ? & [= <-] & ->)]; auto.
  - intros Hb res' rn [[= -> ->]%elem_of_singleton|Hin]%elem_of_union; [by right|].
    destruct (Hb _ _ Hin); auto.
Qed.

Lemma asked_claimed w r id j p : world_ok w → task_at w r id (Building j (Some p)) → inr p ∈ claims j.
Proof. intros Hok Ht. apply claims_elem. by apply (task_owns _ _ _ _ Hok Ht). Qed.

Lemma commit_binding j p p' : p' ∈ commit (binding j p) ↔ p' ∈ commit j ∨ p' = p.
Proof. rewrite !commit_elem. cbn. rewrite elem_of_app, list_elem_of_singleton. naive_solver. Qed.

Lemma step_keeps_order w w' : world_step w w' → world_ok w → world_ok w'.
Proof.
  intros Hst Hok.
  step_cases Hst id res.
  - by eapply reserve_ok.
  - apply refuse_same in E as (? & ? & ? & ?). apply mint_ok; auto. split; [lia|congruence].
  - destruct (task_owns _ _ _ _ Hok Ht) as (Hh & _ & _ & _ & _ & Hbd).
    destruct (release_frees _ _ _ Hh). by eapply (task_frees w _ r id).
  - destruct (task_owns _ _ _ _ Hok Ht) as (Hh & _ & _ & _ & _ & Hbd).
    eapply (task_goes_on w _ r id); eauto; cbn; [done| |].
    + intros _ p Hp. by apply elem_of_nil in Hp.
    + intros Hb res rn Hin. destruct (Hb _ _ Hin); [by left|done].
  - destruct (task_owns _ _ _ _ Hok Ht) as (Hh & _ & _ & _ & _ & Hbd).
    eapply (task_goes_on w _ r id); eauto; cbn.
    + intros ? [= <-]. apply elem_of_app. right. by apply list_elem_of_singleton.
    + intros Hb p' [Hp| ->]%commit_binding; [|by left]. destruct (Hb _ Hp) as [[=]|?]. by right.
    + intros Hb res rn Hin. destruct (Hb _ _ Hin) as [|[]]; [by left|right]. split; [done|]. by apply claims_binding.
  - destruct (task_owns _ _ _ _ Hok Ht) as (Hh & _ & _ & _ & _ & Hbd).
    eapply (task_goes_on w _ r id); eauto; cbn; [done|]. intros Hb res rn Hin.
    destruct (Hb _ _ Hin) as [|[]]; [by left|right]. split; [done|]. by apply claims_note.
  - pose proof (plugin_bound_ok w r id j asked asked res Hok Ht Hres (or_introl eq_refl)) as H.
    unfold put_task in H. cbn in H. by rewrite insert_id in H.
  - eapply plugin_bound_ok; eauto 10 using asked_claimed.
  - by eapply started_ok.
  - by eapply not_started_ok.
  - by eapply unbind_ok.
  - by eapply finish_ok.
  - eapply (task_interrupted w r id); eauto. by eapply task_fresh.
  - destruct (task_owns _ _ _ _ Hok Ht) as (_ & _ & _ & _ & [? _] & _).
    by eapply (task_interrupted w r id).
  - by eapply stop_ok.
  - unfold collect. destruct (slot_of w id) as [[]|] eqn:Hs; try (by apply mint_ok; auto using later_refl).
    apply (drop_ok w _ id); cbn; rewrite ?Hs; auto. by split.
  - by eapply fail_ok.
  - destruct (task_owns _ _ _ _ Hok Ht) as (Hh & _ & _ & _ & Hp & _).
    eapply (task_goes_on w _ r id); [done|done| |..]; cbn; eauto.
    + by rewrite insert_id.
    + intros id' res' rn Hne. rewrite unbind_elem. naive_solver.
    + intros Hb res' rn [Hin _]%unbind_elem. by apply Hb.
  - by eapply fail_finish_ok.
  - destruct (recover_proceeds _ _ _ _ _ Hok Hr E) as (-> & Hr' & Hn & Hw & Hm).
    eapply (recovery_goes_on w _ id rv true (cleanup rv)); eauto; cbn; by rewrite Hr'.
  - by eapply recover_unbind_ok.
  - eapply (recovery_goes_on w); [done|done|done|done|done|done|by left|done|done|done].
  - by eapply recover_finish_ok.
  - apply mint_ok; cbn; auto. by split.
  - by apply clear_ok.
  - by eapply adrift_unbind_ok.
  - by eapply adrift_fails_ok.
  - by eapply adrift_finish_ok.
Qed.

Lemma plugin_keeps_order w w' : plugin_step w w' → world_ok w → world_ok w'.
Proof.
  intros [w0 id p _] Hok id'. apply (id_ok_same w0); [|apply later_refl|done]. split; cbn; try done.
  - intros res rn [? _]%unbind_elem. done.
  - intros res rn Hin. destruct (decide ((id', res) = (id, inr p))) as [E|Hne]; [right|left; by apply unbind_elem].
    apply elem_of_union_r, elem_of_filter. done.
  - apply union_subseteq_l.
Qed.

Lemma system_keeps_order w w' : system_step w w' → world_ok w → world_ok w'.
Proof. intros [Hs|Hs]; [by apply step_keeps_order|by apply plugin_keeps_order]. Qed.

Lemma new_world_ok ps cs : world_ok (new_world ps cs).
Proof. intros id. apply id_free; cbn; [by left|done|done|by intros r ph|by intros res rn]. Qed.

Lemma reachable_ok w : reachable w → world_ok w.
Proof.
  intros (ps & cs & Hr). generalize (new_world_ok ps cs).
  induction Hr as [|w1 w2 w3 Hs _ IH]; [done|]. intros H. by eapply IH, system_keeps_order.
Qed.

(** ** The life of an id *)

(** What may follow what.  [n] is the next reservation. *)
Inductive lifecycle (n : Z) : option HostWorkload → option HostWorkload → Prop :=
  | lc_claim : lifecycle n None (Some (Starting n))
  | lc_run rw : lifecycle n (Some (Starting (run rw))) (Some (Running rw))
  | lc_stop_start r : lifecycle n (Some (Starting r)) (Some (Stopping r))
  | lc_fail_start r reason : lifecycle n (Some (Starting r)) (Some (Failing r reason))
  | lc_stop_failing r reason : lifecycle n (Some (Failing r reason)) (Some (Stopping r))
  | lc_end rw : lifecycle n (Some (Running rw)) (Some (Stopping n))
  | lc_release r : lifecycle n (Some (Starting r)) None
  | lc_freed r : lifecycle n (Some (Stopping r)) None
  | lc_torn_down r reason : lifecycle n (Some (Stopping r)) (Some (Error reason))
  | lc_failed r reason : lifecycle n (Some (Failing r reason)) (Some (Error reason))
  | lc_collected reason : lifecycle n (Some (Error reason)) None
  | lc_same slot : lifecycle n slot slot.

(** One id moves at a time. *)
Definition moves w w' (id : string) : Prop :=
  lifecycle (reservations (host w)) (slot_of w id) (slot_of w' id)
  ∧ ∀ id', id' ≠ id → slot_of w' id' = slot_of w id'.

Lemma moves_not w w' id : workloads (host w') = workloads (host w) → moves w w' id.
Proof. intros E. split; [rewrite E; constructor|by rewrite E]. Qed.

Lemma moves_to w w' id slot :
  workloads (host w') = partial_alter (λ _, slot) id (workloads (host w)) →
  lifecycle (reservations (host w)) (slot_of w id) slot → moves w w' id.
Proof.
  intros E Hl. split; rewrite E; [by rewrite lookup_partial_alter_eq|].
  intros id' Hne. by rewrite lookup_partial_alter_ne by auto.
Qed.

Ltac to_slot Hs := eapply moves_to; [reflexivity|rewrite Hs; constructor].

Lemma step_moves w w' : world_ok w → world_step w w' → ∃ id, moves w w' id.
Proof.
  intros Hok Hst.
  step_cases Hst id res;
    try (exists id; by apply moves_not); try (by exists ""%string; apply moves_not);
    try (destruct (task_owns _ _ _ _ Hok Ht) as (Hh & _ & _ & _ & Hp & _));
    try (destruct (recovery_owns _ _ _ Hok Hr) as (Hh & _)); exists id.
  - unfold workload_reserve in E. cbn in E. destruct (stopped _); [done|]. case_bool_decide; [done|].
    destruct (slot_of w id) eqn:Hs; [done|]. destruct admission; simplify_eq/=.
    to_slot Hs.
  - apply moves_not. by apply refuse_same in E as (? & _).
  - unfold workload_release. destruct (slot_of w id) as [[]|] eqn:Hs; simplify_eq/=; rewrite Z.eqb_refl;
      to_slot Hs.
  - unfold commit_start in E. cbn in E.
    destruct (slot_of w id) as [[]|] eqn:Hs; simplify_eq/=; try rewrite Z.eqb_refl in E; simplify_eq/=;
      try (by apply moves_not).
    eapply moves_to; [reflexivity|]. rewrite Hs.
    apply (lc_run _ {| run := r; teardown_bindings := _; has_service := _ |}).
  - unfold commit_start in E. cbn in E.
    destruct (slot_of w id) as [[]|] eqn:Hs; simplify_eq/=; rewrite ?Z.eqb_refl; simplify_eq/=;
      try (by apply moves_not).
    to_slot Hs.
  - destruct Hp as [_ [Hs|[reason Hs]]]; unfold finish_teardown; rewrite Hs, Z.eqb_refl;
      to_slot Hs.
  - unfold workload_stop in E. cbn in E. destruct (slot_of w id) as [[]|] eqn:Hs; simplify_eq/=;
      try (by apply moves_not); to_slot Hs.
  - unfold collect. destruct (slot_of w id) as [[]|] eqn:Hs; try (by apply moves_not).
    to_slot Hs.
  - unfold fail_workload in E. cbn in E. destruct (slot_of w id) as [[]|] eqn:Hs; simplify_eq/=;
      try (by apply moves_not); to_slot Hs.
  - destruct Hp as [_ Hs]. unfold finish_teardown. rewrite Hs, Z.eqb_refl.
    to_slot Hs.
  - unfold recover_start in E. rewrite Hr, Z.eqb_refl in E.
    destruct (slot_of w id) as [[]|] eqn:Hs; simplify_eq/=; try rewrite Z.eqb_refl in E;
      try destruct (retain_failure rv); simplify_eq/=; try (by apply moves_not);
      to_slot Hs.
  - destruct (recovery_owns _ _ _ Hok Hr) as (_ & _ & _ & _ & Hm & _).
    destruct (Hm Hrel) as [Hs|[reason Hs]]; unfold recover_finish, forget; rewrite Hs, Z.eqb_refl, Hr, Z.eqb_refl;
      to_slot Hs.
  - destruct (adrift_owns _ _ _ Hok Ha) as (Hm & _ & Hr & _).
    destruct Hm as [Hs|[reason Hs]]; unfold recover_finish, forget; rewrite Hs, Z.eqb_refl, Hr; to_slot Hs.
Qed.

(** No two ids are held under one reservation, and a workload that runs has left its. *)
Record apart w : Prop := {
  apart_held : ∀ id id' r, held (slot_of w id) = Some r → held (slot_of w id') = Some r → id = id';
  apart_run : ∀ id id' rw, slot_of w id = Some (Running rw) → held (slot_of w id') ≠ Some (run rw);
}.

Lemma held_fresh w id r : world_ok w → held (slot_of w id) = Some r → r < reservations (host w).
Proof.
  intros Hok Hh. destruct (Hok id) as [Hf|rw Hs|r' ph Hh'|rv Hh'|rv Hh'%marked_held|r' Hh'];
    [|by rewrite Hs in Hh|congruence..].
  destruct Hf as [Hs|[? Hs]]; by rewrite Hs in Hh.
Qed.

Lemma step_mints w w' : world_step w w' → reservations (host w) <= reservations (host w').
Proof.
  intros Hst. step_cases Hst id res; cbn; try lia.
  - unfold workload_reserve in E. cbn in E. repeat case_match; simplify_eq/=; lia.
  - apply refuse_same in E as (_ & _ & -> & _). lia.
  - unfold workload_release. repeat case_match; cbn; lia.
  - unfold commit_start in E. repeat case_match; simplify_eq/=; lia.
  - unfold commit_start in E. repeat case_match; simplify_eq/=; lia.
  - unfold finish_teardown. repeat case_match; cbn; lia.
  - unfold workload_stop in E. cbn in E. repeat case_match; simplify_eq/=; lia.
  - unfold collect. repeat case_match; cbn; lia.
  - unfold fail_workload in E. cbn in E. repeat case_match; simplify_eq/=; lia.
  - unfold finish_teardown. repeat case_match; cbn; lia.
  - unfold recover_start, forget in E. repeat case_match; simplify_eq/=; lia.
  - unfold recover_finish, forget. repeat case_match; cbn; lia.
  - unfold recover_finish, forget. repeat case_match; cbn; lia.
Qed.

(** Where a reservation seen after a step comes from. *)
Lemma moves_held w w' id0 id r :
  moves w w' id0 → held (slot_of w' id) = Some r →
  held (slot_of w id) = Some r
  ∨ (r = reservations (host w) ∧ id = id0).
Proof.
  intros [Hl Ho]. destruct (decide (id = id0)) as [->|Hne]; [|by rewrite (Ho _ Hne); left].
  inversion Hl; cbn; intros [= <-]; auto.
Qed.

Lemma moves_running w w' id0 id rw :
  moves w w' id0 → slot_of w' id = Some (Running rw) →
  slot_of w id = Some (Running rw) ∨ (slot_of w id = Some (Starting (run rw)) ∧ id = id0).
Proof.
  intros [Hl Ho]. destruct (decide (id = id0)) as [->|Hne]; [|by rewrite (Ho _ Hne); left].
  inversion Hl as [| rw' Hs | | | | | | | | | | slot Hs Hs']; intros [= <-]; auto.
Qed.

Lemma moves_apart w w' id0 : world_ok w → moves w w' id0 → apart w → apart w'.
Proof.
  intros Hok Hm [Hh Hr]. split.
  - intros id id' r H H'. destruct (moves_held _ _ _ _ _ Hm H) as [?|[-> ->]], (moves_held _ _ _ _ _ Hm H') as [?|[? ->]];
      eauto; exfalso; subst; match goal with H : held _ = Some _ |- _ => apply (held_fresh _ _ _ Hok) in H; lia end.
  - intros id id' rw H H'. destruct (moves_running _ _ _ _ _ Hm H) as [Hs|[Hs ->]];
      destruct (moves_held _ _ _ _ _ Hm H') as [H2|[E ->]].
    + by eapply Hr.
    + destruct (running_owns _ _ _ Hok Hs). lia.
    + assert (id' = id0) as -> by (eapply Hh; [done|by rewrite Hs]). by rewrite H in H'.
    + by rewrite H in H'.
Qed.

Lemma system_moves w w' :
  world_ok w → system_step w w' → (∃ id, moves w w' id) ∧ reservations (host w) <= reservations (host w').
Proof.
  intros Hok [Hs|Hs]; [split; [by apply step_moves|by apply step_mints]|].
  destruct Hs as [w0 id p _]. split; [exists id; by apply moves_not|done].
Qed.

Lemma reachable_apart w : reachable w → world_ok w ∧ apart w.
Proof.
  intros (ps & cs & Hr). assert (world_ok (new_world ps cs) ∧ apart (new_world ps cs)) as H0.
  { split; [apply new_world_ok|]. by split; cbn; intros *; rewrite lookup_empty. }
  revert H0. induction Hr as [|w1 w2 w3 Hs _ IH]; [done|]. intros [Hok Ha].
  destruct (system_moves _ _ Hok Hs) as [[id Hm] _]. apply IH.
  split; [by eapply system_keeps_order|by eapply moves_apart].
Qed.

(** C25: Every id goes through the life of a workload and no other: claimed, running, marked
    for teardown, free or in error; one id moves at a time; and it is taken out of a
    running state only under a reservation nobody had before. *)
Theorem ids_follow_the_lifecycle w w' :
  reachable w → world_step w w' →
  ∃ id, lifecycle (reservations (host w)) (slot_of w id) (slot_of w' id)
        ∧ ∀ id', id' ≠ id → slot_of w' id' = slot_of w id'.
Proof. intros Hr Hs. apply step_moves; [by apply reachable_ok|done]. Qed.

(** A start that was stopped, or that a plugin failed, before it finished does not come
    to run, whatever happens afterwards. *)
Theorem stopped_start_never_runs w w' id r :
  reachable w → marked (slot_of w id) r → rtc system_step w w' →
  ∀ id' rw, slot_of w' id' = Some (Running rw) → run rw ≠ r.
Proof.
  intros Hr Hm Hst. destruct (reachable_apart _ Hr) as [Hok Ha].
  assert (held (slot_of w id) = Some r) as Hh by (by destruct Hm as [-> |[? ->]]).
  assert (r < reservations (host w)
    ∧ (∀ id', slot_of w id' ≠ Some (Starting r))
    ∧ (∀ id' rw, slot_of w id' = Some (Running rw) → run rw ≠ r)) as Hdead.
  { split; [by eapply held_fresh|]. split.
    - intros id' Hs. assert (id = id') as <- by (eapply (apart_held _ Ha); [done|by rewrite Hs]).
      destruct Hm as [Hs'|[? Hs']]; congruence.
    - intros id' rw Hs <-. by eapply (apart_run _ Ha). }
  clear Hm Hh Ha. revert Hok Hdead. clear Hr.
  induction Hst as [w|w1 w2 w3 Hs _ IH]; intros Hok (Hlt & Hno & Hrun); [done|].
  destruct (system_moves _ _ Hok Hs) as [[id0 Hm] ?]. apply IH.
  - by eapply system_keeps_order.
  - split; [|split].
    + lia.
    + intros id' Hs'. assert (held (slot_of w2 id') = Some r) as Hh by (by rewrite Hs').
      destruct Hm as [Hl Ho]. destruct (decide (id' = id0)) as [->|Hne]; [|by eapply Hno; rewrite <-(Ho _ Hne)].
      rewrite Hs' in Hl. inversion Hl; subst; [lia|]. by eapply Hno.
    + intros id' rw Hs'. destruct (moves_running _ _ _ _ _ Hm Hs') as [?|[Hs2 ->]]; [by eapply Hrun|].
      intros <-. by eapply Hno.
Qed.

(** ** What a teardown undoes *)

(** Somebody is undoing what was bound under [id] for the start [rn]. *)
Definition tearing_down w (id : string) (rn : Z) : Prop :=
  (∃ r j, task_at w r id (Releasing j rn))
  ∨ (∃ r rw reason, task_at w r id (Failed rw reason) ∧ run rw = rn)
  ∨ (∃ rv, recovery_at w id = Some rv ∧ of_run rv = rn ∧ releasing rv = true)
  ∨ (∃ rv, adrift_at w id = Some rv ∧ of_run rv = rn).

Lemma unbound_by w w' id res rn :
  world_ok w → world_step w w' → (id, res, rn) ∈ bound w → (id, res, rn) ∉ bound w' →
  ((id, res, rn) ∈ given_up w ∨ tearing_down w id rn) ∧ ∃ r, marked (slot_of w id) r.
Proof.
  intros Hok Hst Hin. step_cases Hst id' res';
    cbn; try (by intros []); try (intros []; set_solver); try (repeat case_match; by intros []).
  - rewrite unbind_elem. intros Hout. destruct (decide ((id, res) = (id', resource_of c))) as [[= -> ->]|]; [|naive_solver].
    destruct (task_owns _ _ _ _ Hok Ht) as (_ & _ & _ & _ & [_ Hm] & Hb). split; [|eauto].
    destruct (Hb _ _ Hin) as [|[-> _]]; [by left|right; left; eauto].
  - rewrite unbind_elem. intros Hout. destruct (decide ((id, res) = (id', res'))) as [[= -> ->]|]; [|naive_solver].
    destruct (task_owns _ _ _ _ Hok Ht) as (_ & _ & _ & _ & [_ Hs] & Hb).
    split; [|exists r; by left]. destruct (Hb _ _ Hin) as [|Hcl]; [by left|right; right; left; eauto 10].
  - rewrite unbind_elem. intros Hout. destruct (decide ((id, res) = (id', resource_of c))) as [[= -> ->]|]; [|naive_solver].
    destruct (recovery_owns _ _ _ Hok Hr) as (_ & _ & _ & _ & Hm & Hb). split; [|eauto].
    destruct (Hb _ _ Hin) as [|[-> _]]; [by left|right; right; right; left; eauto].
  - rewrite unbind_elem. intros Hout. destruct (decide ((id, res) = (id', resource_of c))) as [[= -> ->]|]; [|naive_solver].
    destruct (adrift_owns _ _ _ Hok Ha) as (Hm & _ & _ & _ & _ & Hb). split; [|eauto].
    destruct (Hb _ _ Hin) as [|[-> _]]; [by left|right; right; right; right; eauto].
Qed.

(** C23: Plugins and the HTTP handler are told to let go by workload id alone, and still a
    teardown undoes only what was bound for the start it tears down, however stops,
    failures, cancellations and redeploys of the id interleave; the only other bindings
    it can hit are ones an earlier failure's teardown left behind. *)
Theorem teardown_undoes_its_own_start w w' id res rn :
  reachable w → world_step w w' → (id, res, rn) ∈ bound w → (id, res, rn) ∉ bound w' →
  (id, res, rn) ∈ given_up w ∨ tearing_down w id rn.
Proof. intros Hr Hs Hin Hout. by destruct (unbound_by w w' id res rn) as [? _]; [apply reachable_ok|..]. Qed.

(** What a plugin of the host lets go of unasked, it was host component to, and the
    world has it as dropped. *)
Lemma dropped_by w w' id res rn :
  plugin_step w w' → (id, res, rn) ∈ bound w → (id, res, rn) ∉ bound w' →
  ∃ p, res = inr p ∧ p ∈ component_hosts w ∧ (id, res, rn) ∈ dropped w'.
Proof.
  intros [w0 id' p Hp] Hin. cbn. rewrite unbind_elem. intros Hout.
  destruct (decide ((id, res) = (id', inr p))) as [[= -> ->]|]; [|naive_solver].
  exists p. split; [done|]. split; [done|]. by apply elem_of_union_r, elem_of_filter.
Qed.

(** What is dropped is a host component's. *)
Lemma step_drops w w' :
  system_step w w' →
  component_hosts w' = component_hosts w
  ∧ ∀ id res rn, (id, res, rn) ∈ dropped w' →
      (id, res, rn) ∈ dropped w ∨ ∃ p, res = inr p ∧ p ∈ component_hosts w.
Proof.
  intros [Hs|Hs].
  - step_cases Hs id res; cbn; repeat case_match; auto.
  - destruct Hs as [w0 id' p Hp]. cbn. split; [done|]. intros id res rn [?|Hf]%elem_of_union; [by left|right].
    apply elem_of_filter in Hf as [Hf _]. cbn in Hf. simplify_eq. eauto.
Qed.

Lemma dropped_is_component_hosts w id res rn :
  reachable w → (id, res, rn) ∈ dropped w → ∃ p, res = inr p ∧ p ∈ component_hosts w.
Proof.
  intros (ps & cs & Hr). revert id res rn.
  assert (∀ id res rn, (id, res, rn) ∈ dropped (new_world ps cs) → ∃ p, res = inr p ∧ p ∈ component_hosts (new_world ps cs))
    as H0 by (intros id res rn H; by apply elem_of_empty in H).
  revert H0. induction Hr as [|w1 w2 w3 Hs _ IH]; [done|]. intros H0. apply IH.
  destruct (step_drops _ _ Hs) as [-> Hd]. intros id res rn Hin. destruct (Hd _ _ _ Hin); eauto.
Qed.

(** C24: A workload that runs is bound to every plugin its start went through, but for host
    component plugins that evicted it; while it runs no step of the host, whatever its
    commands, failures and recoveries do, unbinds anything of it, and a plugin that
    evicts it takes its own binding and no other. *)
Theorem running_workload_keeps_its_bindings w id rw :
  reachable w → slot_of w id = Some (Running rw) →
  (∀ p, p ∈ teardown_bindings rw →
     (id, inr p, run rw) ∈ bound w ∨ ((id, inr p, run rw) ∈ dropped w ∧ p ∈ component_hosts w))
  ∧ (∀ w', world_step w w' → ∀ res rn, (id, res, rn) ∈ bound w → (id, res, rn) ∈ bound w')
  ∧ (∀ w', plugin_step w w' → ∀ res rn, (id, res, rn) ∈ bound w → (id, res, rn) ∉ bound w' →
       (id, res, rn) ∈ dropped w'
       ∧ ∃ p, res = inr p ∧ p ∈ component_hosts w ∧ ∀ res', res' ≠ inr p → (id, res', rn) ∈ bound w → (id, res', rn) ∈ bound w').
Proof.
  intros Hr Hs. pose proof (reachable_ok _ Hr) as Hok. split; [|split].
  - intros p Hp. destruct (running_owns _ _ _ Hok Hs) as (_ & Hb & _). destruct (Hb p Hp) as [|Hd]; [by left|right].
    split; [done|]. by destruct (dropped_is_component_hosts _ _ _ _ Hr Hd) as (? & [= <-] & ?).
  - intros w' Hst res rn Hin. destruct (decide ((id, res, rn) ∈ bound w')) as [|Hout]; [done|].
    destruct (unbound_by _ _ _ _ _ Hok Hst Hin Hout) as [_ [r [E|[? E]]]]; congruence.
  - intros w' Hst res rn Hin Hout. destruct (dropped_by _ _ _ _ _ Hst Hin Hout) as (p & -> & Hp & Hd).
    split; [done|]. exists p. split; [done|]. split; [done|]. intros res' Hne Hin'.
    destruct (decide ((id, res', rn) ∈ bound w')) as [|Hout']; [done|exfalso].
    destruct Hst as [w0 id' p' Hp']. cbn in Hout, Hout'. rewrite unbind_elem in Hout, Hout'. naive_solver.
Qed.

(** An id that is free, or in error and so freed by the next stop, has nothing bound
    under it but what the teardown of a failed workload left behind: a workload that
    claims the id starts clean. *)
Theorem free_id_is_clean w id res rn :
  reachable w → held (slot_of w id) = None → (∀ rw, slot_of w id ≠ Some (Running rw)) →
  (id, res, rn) ∈ bound w → (id, res, rn) ∈ given_up w.
Proof.
  intros Hr Hh Hno Hin.
  destruct (reachable_ok _ Hr id) as [_ _ _ _ Hb|rw Hs|r ph Hh'|rv Hh'|rv Hh'%marked_held|r Hh'];
    [|by apply Hno in Hs|congruence..]. by destruct (Hb _ _ Hin).
Qed.

(** As long as the host has not stopped, an id that is held has exactly one command or
    one recovery that answers for it. *)
Theorem held_id_has_one_owner w id r :
  reachable w → stopped (host w) = false → held (slot_of w id) = Some r →
  ((∃ ph, task_at w r id ph) ∧ (∀ r' ph', task_at w r' id ph' → r' = r) ∧ recovery_at w id = None)
  ∨ ((∃ rv, recovery_at w id = Some rv ∧ reservation rv = r) ∧ no_tasks w id).
Proof.
  intros Hr Hst Hh.
  destruct (reachable_ok _ Hr id) as [Hf|rw Hs|r' ph Hh' ? Ht Hu Hrec|rv Hh' ? Hrec ? Hno|rv|r']; [| | | |congruence..].
  - destruct Hf as [Hs|[? Hs]]; by rewrite Hs in Hh.
  - by rewrite Hs in Hh.
  - rewrite Hh' in Hh. simplify_eq. eauto 10.
  - rewrite Hh' in Hh. simplify_eq. eauto 10.
Qed.

(** A recovery always still owns its id: the arms of [recover] that give up on one that
    does not are never taken. *)
Theorem recovery_owns_its_id w id rv :
  reachable w → recovery_at w id = Some rv →
  (recover_start (host w) id rv).1 = Proceed
  ∧ (releasing rv = true → calls (cleanup rv) = [] →
     slot_of (set_host w (recover_finish (host w) id rv)) id = None
     ∨ ∃ reason, slot_of (set_host w (recover_finish (host w) id rv)) id = Some (Error reason)).
Proof.
  intros Hr Hrec. pose proof (reachable_ok _ Hr) as Hok. split.
  - destruct (recover_start (host w) id rv) as [a h] eqn:E. by destruct (recover_proceeds _ _ _ _ _ Hok Hrec E).
  - intros Hrel _. destruct (recovery_owns _ _ _ Hok Hrec) as (_ & _ & _ & _ & Hm & _).
    destruct (recover_frees _ _ _ (or_introl Hrec) (Hm Hrel)) as [Hf _]. by eapply frees_slot.
Qed.

(** ** Every id can be freed *)

(** The plugins let go, one call after the other. *)
Lemma release_drains n w r id j origin :
  (length (calls j) <= n)%nat → task_at w r id (Releasing j origin) →
  ∃ w' j', rtc world_step w w' ∧ host w' = host w ∧ task_at w' r id (Releasing j' origin) ∧ calls j' = [].
Proof.
  revert w j. induction n as [|n IH]; intros w j Hn Ht; destruct (calls j) as [|c cs] eqn:E;
    try (by exists w, j); try (cbn in Hn; lia).
  assert (c ∈ calls j) as Hc by (rewrite E; constructor).
  pose proof (s_unbind w r id j origin c true Ht Hc) as Hst. pose proof (record_shrinks _ _ Hc) as Hlt.
  match type of Hst with world_step _ ?x => destruct (IH x (record j c)) as (w' & j' & Hs & Hh & Ht' & Hd) end;
    [| |exists w', j'; split; [by eapply rtc_l|]].
  - rewrite E in Hlt. cbn in *. lia.
  - apply lookup_insert_eq.
  - done.
Qed.

Lemma recovery_drains n w id rv :
  (length (calls (cleanup rv)) <= n)%nat → recovery_at w id = Some rv → releasing rv = true →
  ∃ w' rv', rtc world_step w w' ∧ workloads (host w') = workloads (host w)
            ∧ recovery_at w' id = Some rv' ∧ releasing rv' = true ∧ calls (cleanup rv') = [].
Proof.
  revert w rv. induction n as [|n IH]; intros w rv Hn Hr Hrel; destruct (calls (cleanup rv)) as [|c cs] eqn:E;
    try (by exists w, rv); try (cbn in Hn; lia).
  assert (c ∈ calls (cleanup rv)) as Hc by (rewrite E; constructor).
  pose proof (s_recover_unbind w id rv c true Hr Hrel Hc) as Hst. pose proof (record_shrinks _ _ Hc) as Hlt.
  match type of Hst with world_step _ ?x =>
    destruct (IH x (recovery_of rv true (record (cleanup rv) c))) as (w' & rv' & Hs & Hh & Ht' & Hd) end;
    [| | |exists w', rv'; split; [by eapply rtc_l|]].
  - cbn. rewrite E in Hlt. cbn in *. lia.
  - apply lookup_insert_eq.
  - done.
  - done.
Qed.

Lemma adrift_drains n w id rv :
  (length (calls (cleanup rv)) <= n)%nat → adrift_at w id = Some rv →
  ∃ w' rv', rtc world_step w w' ∧ host w' = host w ∧ adrift_at w' id = Some rv'
            ∧ reservation rv' = reservation rv ∧ calls (cleanup rv') = [].
Proof.
  revert w rv. induction n as [|n IH]; intros w rv Hn Ha; destruct (calls (cleanup rv)) as [|c cs] eqn:E;
    try (by exists w, rv); try (cbn in Hn; lia).
  assert (c ∈ calls (cleanup rv)) as Hc by (rewrite E; constructor).
  pose proof (s_adrift_unbind w id rv c true Ha Hc) as Hst. pose proof (record_shrinks _ _ Hc) as Hlt.
  match type of Hst with world_step _ ?x =>
    destruct (IH x (recovery_of rv true (record (cleanup rv) c))) as (w' & rv' & Hs & Hh & Ht' & Hd) end;
    [| |exists w', rv'; split; [by eapply rtc_l|done]].
  - cbn. rewrite E in Hlt. cbn in *. lia.
  - apply lookup_insert_eq.
Qed.

Definition freed w w' (id : string) : Prop :=
  (slot_of w' id = None ∨ ∃ reason, slot_of w' id = Some (Error reason))
  ∧ ∀ id', id' ≠ id → slot_of w' id' = slot_of w id'.

Lemma freed_frees w w1 h id :
  workloads (host w1) = workloads (host w) → frees (host w1) h id → freed w (set_host w1 h) id.
Proof.
  intros Hw Hf. split; [by eapply frees_slot|]. intros id' Hne. cbn.
  by rewrite (frees_other _ _ _ _ Hf Hne), Hw.
Qed.

Lemma releasing_freed w r id j origin :
  world_ok w → task_at w r id (Releasing j origin) → ∃ w', rtc world_step w w' ∧ freed w w' id.
Proof.
  intros Hok Ht. destruct (task_owns _ _ _ _ Hok Ht) as (_ & _ & _ & _ & [_ Hm] & _).
  destruct (release_drains _ _ _ _ _ _ (le_n _) Ht) as (w1 & j1 & Hs & Hh & Ht1 & Hd).
  rewrite <-Hh in Hm. destruct (finish_frees _ _ _ None Hm) as [Hf _].
  eexists. split; [eapply rtc_r; [exact Hs|by eapply s_finish]|].
  assert (workloads (host w1) = workloads (host w)) as Hw by by rewrite Hh.
  exact (freed_frees _ _ _ _ Hw Hf).
Qed.

Lemma recovery_freed w id rv :
  world_ok w → recovery_at w id = Some rv → releasing rv = false → ∃ w', rtc world_step w w' ∧ freed w w' id.
Proof.
  intros Hok Hr Hrel. destruct (recover_start (host w) id rv) as [a h] eqn:E.
  destruct (recover_proceeds _ _ _ _ _ Hok Hr E) as (-> & Hr' & _ & Hw & Hm).
  pose proof (s_recover w id rv _ _ Hr Hrel E) as Hst. cbn in Hst.
  pose proof (step_keeps_order _ _ Hst Hok) as Hok1.
  match type of Hst with world_step _ ?x =>
    destruct (recovery_drains _ x id (recovery_of rv true (cleanup rv)) (le_n _))
      as (w2 & rv2 & Hs & Hw2 & Hr2 & Hrel2 & Hd) end;
    [apply lookup_insert_eq|done|].
  assert (world_ok w2) as Hok2.
  { clear -Hs Hok1. induction Hs as [|? ? ? Hs _ IH]; [done|]. by eapply IH, step_keeps_order. }
  destruct (recovery_owns _ _ _ Hok2 Hr2) as (_ & _ & _ & _ & Hm2 & _).
  destruct (recover_frees _ _ _ (or_introl Hr2) (Hm2 Hrel2)) as [Hf _].
  eexists. split.
  - eapply rtc_l; [exact Hst|]. eapply rtc_r; [exact Hs|by eapply s_recover_finish].
  - split; [by eapply frees_slot|]. intros id' Hne. cbn. rewrite (frees_other _ _ _ _ Hf Hne), Hw2. cbn.
    destruct Hw as [-> | ->]; [done|by rewrite lookup_insert_ne by auto].
Qed.

Lemma adrift_freed w id rv :
  world_ok w → adrift_at w id = Some rv → ∃ w', rtc world_step w w' ∧ freed w w' id.
Proof.
  intros Hok Ha. destruct (adrift_owns _ _ _ Hok Ha) as (Hm & _ & Hr & _).
  destruct (adrift_drains _ _ _ _ (le_n _) Ha) as (w1 & rv1 & Hs & Hh & Ha1 & Erv & Hd).
  rewrite <-Hh, <-Erv in Hm. rewrite <-Hh in Hr. destruct (recover_frees _ _ _ (or_intror Hr) Hm) as [Hf _].
  eexists. split; [eapply rtc_r; [exact Hs|by eapply s_adrift_finish]|].
  assert (workloads (host w1) = workloads (host w)) as Hw by by rewrite Hh.
  exact (freed_frees _ _ _ _ Hw Hf).
Qed.

(** The command an id is held by can always finish, if plugins let go. *)
Lemma task_freed w id r ph :
  world_ok w → task_at w r id ph → ∃ w', rtc world_step w w' ∧ freed w w' id.
Proof.
  intros Hok Ht. destruct (task_owns _ _ _ _ Hok Ht) as (Hh & _ & _ & _ & Hp & _).
  destruct ph as [|j asked|j origin|rw reason].
  - eexists. split; [apply rtc_once, s_release, Ht|].
    apply (freed_frees w w); [done|by apply release_frees].
  - destruct (commit_start (host w) id r (Err "cancelled"%string)) as [answer h] eqn:E.
    pose proof (s_not_started _ _ _ _ _ _ _ _ Ht E) as Hst.
    pose proof (step_keeps_order _ _ Hst Hok) as Hok1.
    destruct (releasing_freed _ r id j r Hok1) as (w' & Hs & Hf & Ho); [apply lookup_insert_eq|].
    exists w'. split; [by eapply rtc_l|]. split; [done|]. intros id' Hne. rewrite (Ho _ Hne). cbn.
    destruct (commit_cases _ _ _ _ _ _ Hh E) as (_ & _ & [(? & [=] & _)|(_ & _ & Ho')]). auto.
  - by eapply releasing_freed.
  - destruct Hp as [_ Hs]. eexists. split; [eapply rtc_once, s_fail_finish, Ht|].
    apply (freed_frees w (leave_behind w id (run rw))); [done|]. cbn. apply finish_frees. by left.
Qed.

(** Nobody answers for [id], and the host claims no more ids. *)
Record forsaken w (id : string) (r : Z) : Prop := {
  fs_held : held (slot_of w id) = Some r;
  fs_stopped : stopped (host w) = true;
  fs_tasks : no_tasks w id;
  fs_recovery : recovery_at w id = None;
  fs_adrift : adrift_at w id = None;
}.

(** What the functions do to ids other than the one they are called with. *)
Record spares (id : string) h h' : Prop := {
  sp_slots : ∀ id', id' ≠ id → workloads h' !! id' = workloads h !! id';
  sp_recoveries : ∀ id', id' ≠ id → workload_recoveries h' !! id' = workload_recoveries h !! id';
  sp_stopped : stopped h' = stopped h;
}.

Ltac spare :=
  repeat case_match; simplify_eq/=; split; cbn; intros; rewrite ?lookup_insert_ne, ?lookup_delete_ne by auto;
  (done || congruence).

Lemma release_spares h id r : spares id h (workload_release h id r).
Proof. unfold workload_release. spare. Qed.
Lemma finish_spares h id r reason : spares id h (finish_teardown h id r reason).
Proof. unfold finish_teardown. spare. Qed.
Lemma collect_spares h id : spares id h (collect h id).
Proof. unfold collect. spare. Qed.
Lemma guard_spares h id rv : spares id h (guard_drop h id rv).
Proof. unfold guard_drop. spare. Qed.
Lemma recovered_spares h id rv : spares id h (recover_finish h id rv).
Proof. unfold recover_finish, forget. spare. Qed.
Lemma reserve_spares h id admission a h' : workload_reserve h id admission = (a, h') → spares id h h'.
Proof. unfold workload_reserve. cbn. intros. spare. Qed.
Lemma commit_spares h id r started ans h' : commit_start h id r started = (ans, h') → spares id h h'.
Proof. unfold commit_start. intros. spare. Qed.
Lemma stop_spares h id torn n h' : workload_stop h id = (torn, (n, h')) → spares id h h'.
Proof. unfold workload_stop. cbn. intros. spare. Qed.
Lemma fail_spares h id reason torn n h' : fail_workload h id reason = (torn, (n, h')) → spares id h h'.
Proof. unfold fail_workload. cbn. intros. spare. Qed.
Lemma recover_spares h id rv a h' : recover_start h id rv = (a, h') → spares id h h'.
Proof. unfold recover_start, forget. intros. spare. Qed.
Lemma spares_refl h id : spares id h h.
Proof. by split. Qed.
Lemma spares_trans h h' h'' id : spares id h h' → spares id h' h'' → spares id h h''.
Proof. intros [A B C] [A' B' C']. split; intros; rewrite ?A', ?B', ?C' by auto; auto. Qed.

Create HintDb spare.
#[local] Hint Resolve release_spares finish_spares collect_spares guard_spares recovered_spares
  reserve_spares commit_spares recover_spares stop_spares fail_spares spares_refl : spare.

Lemma forsaken_spared w w' id id0 r r0 :
  forsaken w id r → id0 ≠ id → spares id0 (host w) (host w') →
  tasks w' = tasks w ∨ (∃ ph, tasks w' = <[r0 := {| on := id0; phase := ph |}]> (tasks w))
    ∨ tasks w' = delete r0 (tasks w) →
  adrift_at w' id = adrift_at w id → forsaken w' id r.
Proof.
  intros [Hh Hst Hno Hr Ha] Hne [Hs Hrs Hsp] Ht Ha'.
  split; [by rewrite Hs by auto|congruence| |by rewrite Hrs by auto|congruence].
  intros r' ph. destruct Ht as [->|[[ph' ->]| ->]]; [apply Hno| |]; destruct (decide (r' = r0)) as [->|].
  - rewrite lookup_insert_eq. by intros [= ? _].
  - rewrite lookup_insert_ne by auto. apply Hno.
  - by rewrite lookup_delete_eq.
  - rewrite lookup_delete_ne by auto. apply Hno.
Qed.

(** A command on a forsaken id finds it held, and leaves it so. *)
Lemma forsaken_marked w h id r :
  forsaken w id r → held (workloads h !! id) = Some r → stopped h = stopped (host w) →
  workload_recoveries h = workload_recoveries (host w) → forsaken (set_host w h) id r.
Proof. intros [] ? Hst Hr. split; cbn; rewrite ?Hst, ?Hr; auto. Qed.

Lemma forsaken_commands w id r :
  forsaken w id r →
  (∀ admission a h, workload_reserve (host w) id admission = (a, h) → (∃ e, a = Err e) ∧ forsaken (set_host w h) id r)
  ∧ (∀ torn n h, workload_stop (host w) id = (torn, (n, h)) → torn = None ∧ forsaken (set_host w h) id r)
  ∧ (∀ reason torn n h, fail_workload (host w) id reason = (torn, (n, h)) → torn = None ∧ forsaken (set_host w h) id r)
  ∧ forsaken (set_host w (collect (host w) id)) id r.
Proof.
  intros Hf. pose proof Hf as [Hh Hst _ _ _].
  unfold workload_reserve, workload_stop, fail_workload, collect. cbn. rewrite Hst.
  destruct (slot_of w id) as [[held|rw|held|held reason|reason]|] eqn:Hs; simplify_eq/=;
    split_and!; intros; simplify_eq/=; split_and?; eauto; apply forsaken_marked; cbn;
    rewrite ?lookup_insert_eq, ?Hs; auto.
Qed.

Lemma forsaken_step w w' id n : forsaken w id n → world_step w w' → forsaken w' id n.
Proof.
  intros Hf Hst. pose proof Hf as [Hh Hsd Hno Hrec Hadr].
  destruct (forsaken_commands _ _ _ Hf) as (Hclaim & Hsto & Hfai & Hcol).
  step_cases Hst id0 res;
    try (destruct (decide (id0 = id)) as [->|Hne];
         [first [by apply Hno in Ht|by rewrite Hrec in Hr|by rewrite Hadr in Ha|idtac]|
          repeat case_match; eapply (forsaken_spared w _ id id0 n); cbn;
            first [exact Hf|exact Hne|by eauto with spare|by rewrite ?lookup_insert_ne, ?lookup_delete_ne by auto
                  |idtac]]).
  - by destruct (Hclaim _ _ _ E) as [[? [=]] _].
  - by apply (Hclaim _ _ _ E).
  - by destruct (Hsto _ _ _ E) as [-> ?].
  - done.
  - by destruct (Hfai _ _ _ _ E) as [-> ?].
  - by eapply spares_trans; [eapply recover_spares|apply guard_spares].
  - by destruct Hf.
  - split; cbn; [done|done|done|done|]. apply lookup_union_None. split; [|done].
    apply map_lookup_filter_None. by left.
  Unshelve. all: exact 0.
Qed.

Lemma nobody_frees w w' id r : forsaken w id r → rtc system_step w w' → held (slot_of w' id) = Some r.
Proof.
  intros Hf Hst. induction Hst as [w|w1 w2 w3 [Hs|Hs] _ IH]; [apply Hf|apply IH; by eapply forsaken_step|].
  apply IH. destruct Hs, Hf. by split.
Qed.

(** C26: From every state, whatever was cancelled, failed or evicted on the way, an id that is
    held can be freed by the host alone, provided plugins let go when they are asked,
    and no other id is touched; but for the ids that the stop of the host left to
    nobody when it cleared its recoveries, which are held for good. *)
Theorem held_id_can_be_freed w id r :
  reachable w → held (slot_of w id) = Some r →
  (∃ w', rtc world_step w w' ∧ freed w w' id)
  ∨ (stopped (host w) = true ∧ no_tasks w id ∧ recovery_at w id = None ∧ adrift_at w id = None
     ∧ ∀ w', rtc system_step w w' → held (slot_of w' id) = Some r).
Proof.
  intros Hr Hh. pose proof (reachable_ok _ Hr) as Hok.
  destruct (Hok id) as [Hf|rw Hs|r' ph Hh' _ Ht|rv Hh' _ Hrec|rv Hm _ _ Ha|r' Hh' Hlt Hrec Ha Hno Hst].
  - destruct Hf as [Hs|[? Hs]]; by rewrite Hs in Hh.
  - by rewrite Hs in Hh.
  - left. by eapply task_freed.
  - left. destruct (releasing rv) eqn:Hrel; [|by eapply recovery_freed].
    pose proof (s_recover_fails w id rv Hrec Hrel) as Hst.
    destruct (recovery_freed _ id (recovery_of rv false (cleanup rv)) (step_keeps_order _ _ Hst Hok))
      as (w' & Hs & Hf & Ho); [apply lookup_insert_eq|done|].
    exists w'. split; [by eapply rtc_l|]. by split.
  - left. by eapply adrift_freed.
  - right. split_and!; try done. intros w'. by apply nobody_frees.
Qed.

(** ** Histories that can be run *)

Inductive Act :=
  | AReserve (id : string) | ABegin (r : Z) | ARecord (r : Z) (p : string)
  | AResolved (r : Z) (service : bool) | ABind (r : Z) (res : Resource) | ABound (r : Z)
  | AStarted (r : Z) (service : bool) | AUnbind (r : Z) (c : Call) | AFinish (r : Z) | ACancel (r : Z)
  | AStop (id : string) | AFail (id reason : string) | AFailFinish (r : Z)
  | ARelease (r : Z) | ARecover (id : string) | AHostStops | AHostClears.

(** The journal of a start before [cleanup.resolved] is called for the last time. *)
Definition unresolved j : WorkloadResources :=
  {| bindings := bindings j; resolved := false; http_unbinds := [] |}.

Definition task_phase w (r : Z) : option (string * Phase) := (λ t, (on t, phase t)) <$> tasks w !! r.

Definition act w (a : Act) : option World :=
  match a with
  | AReserve id =>
      match workload_reserve (host w) id (Ok tt) with
      | (Ok r, h) => Some (put_task (set_host w h) r {| on := id; phase := Reserved |})
      | (Err _, h) => Some (set_host w h)
      end
  | ABegin r =>
      match task_phase w r with
      | Some (id, Reserved) => Some (put_task w r {| on := id; phase := Building no_resources None |})
      | _ => None
      end
  | ARecord r p =>
      match task_phase w r with
      | Some (id, Building j None) =>
          Some (put_task w r {| on := id; phase := Building (binding j p) (Some p) |})
      | _ => None
      end
  | AResolved r service =>
      match task_phase w r with
      | Some (id, Building j None) =>
          if resolved j then None
          else Some (put_task w r {| on := id; phase := Building (note_resolved j service) None |})
      | _ => None
      end
  | ABind r res =>
      match task_phase w r with
      | Some (id, Building j _) =>
          if bool_decide (res ∈ claims j) then Some (set_bound w ({[(id, res, r)]} ∪ bound w)) else None
      | _ => None
      end
  | ABound r =>
      match task_phase w r with
      | Some (id, Building j (Some p)) =>
          Some (put_task (set_bound w ({[(id, inr p, r)]} ∪ bound w)) r {| on := id; phase := Building j None |})
      | _ => None
      end
  | AStarted r service =>
      match task_phase w r with
      | Some (id, Building j None) =>
          if bool_decide (resolved j = true ∧ http_unbinds j = http_unbinds (note_resolved j service)) then
            let '(answer, h) := commit_start (host w) id r
              (Ok {| run := r; teardown_bindings := commit j; has_service := service |}) in
            Some (if answer.2 then put_task (set_host w h) r {| on := id; phase := Releasing j r |}
                  else end_task (set_host w h) r)
          else None
      | _ => None
      end
  | AUnbind r c =>
      match task_phase w r with
      | Some (id, Releasing j origin) =>
          if bool_decide (c ∈ calls j)
          then Some (put_task (set_bound w (unbind id (resource_of c) (bound w))) r
                       {| on := id; phase := Releasing (record j c) origin |})
          else None
      | _ => None
      end
  | AFinish r =>
      match task_phase w r with
      | Some (id, Releasing j origin) =>
          if bool_decide (calls j = [])
          then Some (end_task (set_host w (finish_teardown (host w) id r None)) r) else None
      | _ => None
      end
  | ACancel r =>
      match task_phase w r with
      | Some (id, Building j _) =>
          Some (end_task (set_recovery w id {| reservation := r; cleanup := j; retain_failure := false;
                                               releasing := false; of_run := r |}) r)
      | _ => None
      end
  | AStop id =>
      let '(torn, (r, h)) := workload_stop (host w) id in
      Some (match torn with
            | Some rw => put_task (set_host w h) r
                           {| on := id; phase := Releasing (for_teardown rw) (run rw) |}
            | None => set_host w h
            end)
  | AFail id reason =>
      let '(torn, (r, h)) := fail_workload (host w) id reason in
      Some (match torn with
            | Some rw => put_task (set_host w h) r {| on := id; phase := Failed rw reason |}
            | None => set_host w h
            end)
  | AFailFinish r =>
      match task_phase w r with
      | Some (id, Failed rw reason) =>
          Some (end_task (set_host (leave_behind w id (run rw)) (finish_teardown (host w) id r (Some reason))) r)
      | _ => None
      end
  | ARelease r =>
      match task_phase w r with
      | Some (id, Reserved) => Some (end_task (set_host w (workload_release (host w) id r)) r)
      | _ => None
      end
  | ARecover id =>
      match recovery_at w id with
      | Some rv =>
          if releasing rv then None
          else match recover_start (host w) id rv with
               | (Proceed, h) => Some (set_recovery (set_host w h) id (recovery_of rv true (cleanup rv)))
               | (_, h) => Some (set_host w h)
               end
      | None => None
      end
  | AHostStops => Some (set_host w (stop_accepting (host w)))
  | AHostClears => if stopped (host w) then Some (clear_recoveries w) else None
  end.

Lemma task_phase_at w r id ph : task_phase w r = Some (id, ph) → task_at w r id ph.
Proof. unfold task_phase. destruct (tasks w !! r) as [[]|]; intros; by simplify_eq/=. Qed.

Lemma act_steps w a w' : act w a = Some w' → world_step w w'.
Proof.
  destruct a as [id|r|r p|r service|r res|r|r service|r c|r|r|id|id reason|r|r|id| |]; cbn [act];
    try (destruct (task_phase w r) as [[id ph]|] eqn:Ht; [|done]; apply task_phase_at in Ht;
         destruct ph as [|j [p0|]|j origin|rw reason]; try done).
  - destruct (workload_reserve (host w) id (Ok tt)) as [[r|e] h] eqn:E; intros; simplify_eq/=; by econstructor.
  - intros [= <-]. by constructor.
  - intros [= <-]. by constructor.
  - destruct (resolved j) eqn:Hr; [done|]. intros [= <-]. constructor; [done|congruence].
  - case_bool_decide; [|done]. intros [= <-]. by econstructor.
  - case_bool_decide; [|done]. intros [= <-]. by econstructor.
  - intros [= <-]. by constructor.
  - case_bool_decide as Hr; [|done]. destruct Hr as [Hr Hh].
    match goal with |- context [commit_start ?a ?b ?c ?d] => destruct (commit_start a b c d) as [answer h] eqn:E end.
    intros [= <-].
    assert (j = note_resolved (unresolved j) service) as Ej by (destruct j; cbn in *; by subst).
    rewrite Ej at 1. rewrite Ej in Ht. by eapply (s_started w r id (unresolved j) service answer h).
  - case_bool_decide; [|done]. intros [= <-]. by apply (s_unbind w r id j origin c true).
  - case_bool_decide; [|done]. intros [= <-]. by econstructor.
  - intros [= <-]. by econstructor.
  - intros [= <-]. by econstructor.
  - destruct (workload_stop (host w) id) as [torn [r h]] eqn:E. intros [= <-]. by constructor.
  - destruct (fail_workload (host w) id reason) as [torn [r h]] eqn:E. intros [= <-]. by constructor.
  - intros [= <-]. by econstructor.
  - intros [= <-]. by constructor.
  - destruct (recovery_at w id) as [rv|] eqn:Hr; [|done]. destruct (releasing rv) eqn:Hrel; [done|].
    destruct (recover_start (host w) id rv) as [a h] eqn:E. intros H.
    pose proof (s_recover w id rv a h Hr Hrel E) as Hst. destruct a; by simplify_eq.
  - intros [= <-]. constructor.
  - destruct (stopped (host w)) eqn:Hst; [|done]. intros [= <-]. by constructor.
Qed.

Definition acts w (l : list Act) : option World := foldl (λ o a, o ≫= λ w, act w a) (Some w) l.

Lemma acts_steps w l w' : acts w l = Some w' → rtc world_step w w'.
Proof.
  unfold acts. revert w. induction l as [|a l IH]; intros w; cbn; [by intros [= ->]|].
  destruct (act w a) as [w1|] eqn:E.
  - intros H. eapply rtc_l; [by apply (act_steps _ a)|auto].
  - intros H. exfalso. clear -H. by induction l.
Qed.

Lemma acts_system w w' : rtc world_step w w' → rtc system_step w w'.
Proof. apply rtc_subrel. by left. Qed.

(** The world after a history of a host without plugin names reserved. *)
Definition after (l : list Act) : World := default (new_world ∅ ∅) (acts (new_world ∅ ∅) l).

Lemma after_reachable l : is_some (acts (new_world ∅ ∅) l) = true → reachable (after l).
Proof.
  unfold after. intros H. exists ∅, ∅. destruct (acts (new_world ∅ ∅) l) as [w|] eqn:E; [|done]. by apply acts_system, (acts_steps _ l).
Qed.

(** A workload with one plugin is started. *)
Definition shop_runs : list Act :=
  [AReserve "shop"; ABegin 0; ARecord 0 "kv"; ABound 0; AResolved 0 false; AStarted 0 false].

(** A plugin fails the workload and the unbinding times out. *)
Definition shop_failed : list Act := shop_runs ++ [AFail "shop" "evicted"; AFailFinish 1].

(** [workload_stop] says of an id in error that nothing is bound, since every failure
    path releases before recording the error.  The teardown of a failure a plugin
    reports only logs that a plugin did not let go, and records the error all the same:
    the next stop then frees an id with bindings left, and a workload that claims it
    finds them. *)
Theorem failure_leaves_bindings :
  let w := after shop_failed in
  reachable w ∧ slot_of w "shop" = Some (Error "evicted") ∧ ("shop"%string, inr "kv"%string, 0) ∈ bound w
  ∧ ∃ w', acts w [AStop "shop"; AReserve "shop"] = Some w'
          ∧ slot_of w' "shop" = Some (Starting 3) ∧ ("shop"%string, inr "kv"%string, 0) ∈ bound w'.
Proof.
  split; [by apply after_reachable; vm_compute|]. split; [by vm_compute|].
  split; [by apply (bool_decide_unpack _); vm_compute|].
  eexists. split; [by vm_compute|]. split; [by vm_compute|]. by apply (bool_decide_unpack _); vm_compute.
Qed.

(** *** Witnesses *)

Lemma ids_follow_the_lifecycle_witness :
  let w := after [AReserve "shop"] in let w' := after [AReserve "shop"; ABegin 0] in
  reachable w ∧ world_step w w' ∧
  ∃ id, lifecycle (reservations (host w)) (slot_of w id) (slot_of w' id)
        ∧ ∀ id', id' ≠ id → slot_of w' id' = slot_of w id'.
Proof.
  assert (reachable (after [AReserve "shop"])) as Hr by (by apply after_reachable; vm_compute).
  assert (world_step (after [AReserve "shop"]) (after [AReserve "shop"; ABegin 0])) as Hs
    by (apply (act_steps _ (ABegin 0)); by vm_compute).
  split; [exact Hr|]. split; [exact Hs|]. exact (ids_follow_the_lifecycle _ _ Hr Hs).
Defined.

(** Stopped while starting; the id is used again. *)
Definition stopped_early : list Act := [AReserve "shop"; AStop "shop"].
Definition second_start : list Act :=
  [ARelease 0; AReserve "shop"; ABegin 2; AResolved 2 true; AStarted 2 true].

Lemma stopped_start_never_runs_witness :
  let w' := default (new_world ∅ ∅) (acts (after stopped_early) second_start) in
  ∃ rw, slot_of w' "shop" = Some (Running rw) ∧ run rw ≠ 0.
Proof.
  eexists. split; [by vm_compute|].
  apply (stopped_start_never_runs (after stopped_early)
           (default (new_world ∅ ∅) (acts (after stopped_early) second_start)) "shop" 0) with (id' := "shop"%string).
  - by apply after_reachable; vm_compute.
  - left. by vm_compute.
  - apply acts_system, (acts_steps _ second_start). by vm_compute.
  - by vm_compute.
Defined.

Definition shop_stopping : list Act := shop_runs ++ [AStop "shop"].

Lemma teardown_undoes_its_own_start_witness :
  let w := after shop_stopping in
  ("shop"%string, inr "kv"%string, 0) ∈ given_up w ∨ tearing_down w "shop" 0.
Proof.
  apply (teardown_undoes_its_own_start (after shop_stopping)
           (after (shop_stopping ++ [AUnbind 1 (CPlugin 0 "kv")])) "shop" (inr "kv"%string) 0).
  - by apply after_reachable; vm_compute.
  - apply (act_steps _ (AUnbind 1 (CPlugin 0 "kv"))). by vm_compute.
  - by apply (bool_decide_unpack _); vm_compute.
  - by apply (bool_decide_unpack _); vm_compute.
Defined.

(** A workload with two plugins, one of which is a host component, and has evicted it. *)
Definition shop_evicted : World :=
  let w := default (new_world ∅ {["auth"%string]}) (acts (new_world ∅ {["auth"%string]})
    [AReserve "shop"; ABegin 0; ARecord 0 "kv"; ABound 0; ARecord 0 "auth"; ABound 0; AResolved 0 false; AStarted 0 false]) in
  {| host := host w; tasks := tasks w; bound := unbind "shop" (inr "auth"%string) (bound w); given_up := given_up w;
     dropped := dropped w ∪ filter (λ x, x.1 = ("shop"%string, inr "auth"%string)) (bound w);
     adrift := adrift w; component_hosts := component_hosts w |}.

Lemma shop_evicted_reachable : reachable shop_evicted.
Proof.
  exists ∅, {["auth"%string]}. eapply rtc_r.
  - apply acts_system, (acts_steps _ [AReserve "shop"; ABegin 0; ARecord 0 "kv"; ABound 0; ARecord 0 "auth"; ABound 0;
                                      AResolved 0 false; AStarted 0 false]). by vm_compute.
  - right. apply (s_evict _ "shop" "auth"). by apply (bool_decide_unpack _); vm_compute.
Qed.

Lemma running_workload_keeps_its_bindings_witness :
  ∃ rw, slot_of shop_evicted "shop" = Some (Running rw)
  ∧ (∀ p, p ∈ teardown_bindings rw →
       ("shop"%string, inr p, run rw) ∈ bound shop_evicted
       ∨ (("shop"%string, inr p, run rw) ∈ dropped shop_evicted ∧ p ∈ component_hosts shop_evicted)).
Proof.
  assert (slot_of shop_evicted "shop"
          = Some (Running {| run := 0; teardown_bindings := ["kv"; "auth"]%string; has_service := false |})) as Hs
    by (by vm_compute).
  eexists. split; [exact Hs|]. exact (proj1 (running_workload_keeps_its_bindings _ _ _ shop_evicted_reachable Hs)).
Defined.

Lemma free_id_is_clean_witness :
  let w := after shop_failed in ("shop"%string, inr "kv"%string, 0) ∈ given_up w.
Proof.
  apply (free_id_is_clean (after shop_failed) "shop").
  - by apply after_reachable; vm_compute.
  - by vm_compute.
  - intros rw. by vm_compute.
  - by apply (bool_decide_unpack _); vm_compute.
Defined.

(** A start that was cancelled while it was binding; the host stops and forgets it. *)
Definition shop_cancelled : list Act :=
  [AReserve "shop"; ABegin 0; ARecord 0 "kv"; ABound 0; ACancel 0].

Lemma held_id_has_one_owner_witness :
  let w := after shop_cancelled in
  held (slot_of w "shop") = Some 0
  ∧ (((∃ ph, task_at w 0 "shop" ph) ∧ (∀ r' ph', task_at w r' "shop" ph' → r' = 0) ∧ recovery_at w "shop" = None)
     ∨ ((∃ rv, recovery_at w "shop" = Some rv ∧ reservation rv = 0) ∧ no_tasks w "shop")).
Proof.
  split; [by vm_compute|]. apply (held_id_has_one_owner (after shop_cancelled) "shop" 0).
  - by apply after_reachable; vm_compute.
  - by vm_compute.
  - by vm_compute.
Defined.

Lemma recovery_owns_its_id_witness :
  let w := after shop_cancelled in
  ∃ rv, recovery_at w "shop" = Some rv ∧ (recover_start (host w) "shop" rv).1 = Proceed.
Proof.
  assert (reachable (after shop_cancelled)) as Hr by (by apply after_reachable; vm_compute).
  destruct (recovery_at (after shop_cancelled) "shop") as [rv|] eqn:E; [|by vm_compute in E].
  exists rv. split; [done|]. exact (proj1 (recovery_owns_its_id _ _ _ Hr E)).
Defined.

Lemma held_id_can_be_freed_witness :
  (let w := after shop_cancelled in
   (∃ w', rtc world_step w w' ∧ freed w w' "shop")
   ∨ (stopped (host w) = true ∧ no_tasks w "shop" ∧ recovery_at w "shop" = None ∧ adrift_at w "shop" = None
      ∧ ∀ w', rtc system_step w w' → held (slot_of w' "shop") = Some 0))
  ∧ stopped (host (after shop_cancelled)) = false.
Proof.
  split; [|by vm_compute]. apply (held_id_can_be_freed (after shop_cancelled) "shop" 0).
  - by apply after_reachable; vm_compute.
  - by vm_compute.
Defined.

(** A host that stops with a cleanup owed leaves the id to nobody. *)
Example stopped_host_forgets :
  let w := after (shop_cancelled ++ [AHostStops; AHostClears]) in
  held (slot_of w "shop") = Some 0 ∧ recovery_at w "shop" = None ∧ ("shop"%string, inr "kv"%string, 0) ∈ bound w.
Proof. split; [by vm_compute|]. split; [by vm_compute|]. by apply (bool_decide_unpack _); vm_compute. Qed.
