(* ===== verification/HttpRouter.v ===== *)
(** * Routing HTTP requests to workloads

    [host/http.rs] up to the ingress itself: the routes a workload's configuration
    declares, the table that maps a hostname and a path to the workloads serving
    them, split into shards that are copied and published one by one, and the
    selection of a replica.  The same table serves requests from the network
    ([Ingress] routes) and the requests of workloads on the same host ([Local]
    routes).  The random number of a selection is the argument [start]. *)

From Stdlib Require Import ZArith Lia Ascii.
From stdpp Require Import base list gmap strings option sorting.
From S2P Require Import Prelude RustStr Net UriLib StoreLib Wit.
From S2P Require AllowedHosts.
Local Open Scope string_scope.

(** ** Names and paths *)

Definition valid_label (label : string) : bool :=
  negb (is_empty label) && (String.length label <=? 63)%nat
  && str_all (λ c, is_ascii_alphanumeric c || Ascii.eqb c "-") label
  && negb (starts_with "-" label) && negb (ends_with "-" label).

Definition is_valid_hostname (host : string) : bool :=
  negb (is_empty host) && (String.length host <=? 253)%nat && forallb valid_label (split "." host).

(** [NormalizedPathPrefix]: [new], and [matches] of the prefix it stores. *)
Definition normalize_path (path : string) : string :=
  let path := trim_end_char "/" (trim path) in
  if is_empty path then "" else if starts_with "/" path then path else "/" +:+ path.

Definition is_catch_all (prefix : string) : bool := is_empty prefix.

Definition prefix_matches (prefix path : string) : bool :=
  if is_catch_all prefix then true
  else match strip_prefix prefix path with
       | Some rest => is_empty rest || starts_with "/" rest
       | None => false
       end.

Definition split_host_port (host : string) : string * option Z :=
  match strip_prefix "[" host with
  | Some rest =>
      match split_once "]" rest with
      | Some (addr, after) => (addr, p ← strip_prefix ":" after; parse_uint u16_MAX p)
      | None => (host, None)
      end
  | None =>
      match rsplit_once ":" host with
      | Some (addr, port) => (addr, parse_uint u16_MAX port)
      | None => (host, None)
      end
  end.

(** ** Routes *)

Inductive RouteScope := Ingress | Local.
#[global] Instance RouteScope_eq_dec : EqDecision RouteScope.
Proof. solve_decision. Defined.

Record IngressRoute := { r_host : string; r_prefix : string; r_scope : RouteScope }.
#[global] Instance IngressRoute_eq_dec : EqDecision IngressRoute.
Proof. solve_decision. Defined.

Definition route_new (host path_prefix : string) (scope : RouteScope) : IngressRoute :=
  {| r_host := to_ascii_lowercase (split_host_port host).1;
     r_prefix := normalize_path path_prefix; r_scope := scope |}.
Definition ingress (host : string) : IngressRoute := route_new host "" Ingress.
Definition local (host path_prefix : string) : IngressRoute := route_new host path_prefix Local.

Section routes.
Context `{UriLib}.

Definition parse_local_route (entry : string) : option IngressRoute :=
  let entry := trim entry in
  if is_empty entry then None
  else if is_some (url_parse entry) then None
  else if starts_with "/" entry then None
  else
    url ← url_parse ("http://" +:+ entry);
    if is_some (url_port url) then None
    else if negb (is_empty (url_username url)) || is_some (url_password url)
            || is_some (url_query url) || is_some (url_fragment url) then None
    else
      host ← url_host_str url;
      if is_valid_hostname host then Some (local host (url_path url)) else None.

(** The entries of a comma-separated list. *)
Definition entries_of (text : string) : list string :=
  filter (λ e, is_empty e = false) (trim <$> split "," text).

Definition ingress_aliases (i : WitInterface) : list IngressRoute :=
  match config i !! "host-aliases" with
  | None => []
  | Some aliases => omap (λ e, if is_valid_hostname e then Some (ingress e) else None) (entries_of aliases)
  end.

(** [collect] into a [Result]: the first entry that does not parse is the error. *)
Fixpoint parse_local_routes (entries : list string) : result (list IngressRoute) string :=
  match entries with
  | [] => Ok []
  | e :: entries =>
      match parse_local_route e with
      | None => Err e
      | Some r => match parse_local_routes entries with Ok rs => Ok (r :: rs) | Err e => Err e end
      end
  end.

Definition local_routes (i : WitInterface) : result (list IngressRoute) string :=
  match config i !! "localRoute" with
  | None => Ok []
  | Some declared => parse_local_routes (entries_of declared)
  end.

Definition http_interface (interfaces : list WitInterface) : option WitInterface :=
  find_map (λ i, if is_incoming_http_handler i then Some i else None) interfaces.

Definition http_ingress_routes (interfaces : list WitInterface) : result (list IngressRoute) string :=
  match http_interface interfaces with
  | None => Ok []
  | Some i =>
      let primary := match config i !! "host" with
                     | Some primary => if is_valid_hostname primary then [ingress primary] else []
                     | None => []
                     end in
      match local_routes i with
      | Ok locals => Ok (primary ++ ingress_aliases i ++ locals)%list
      | Err e => Err e
      end
  end.
End routes.

Inductive RouteError :=
  | MissingHost
  | NoWorkloadForHost (host : string)
  | NoWorkloadForPath (host path : string)
  | Unavailable.

Definition status (e : RouteError) : Z :=
  match e with
  | MissingHost => 400
  | NoWorkloadForHost _ | NoWorkloadForPath _ _ => 404
  | Unavailable => 503
  end.

(** ** The table *)

Record PathBucket := { prefix : string; scope : RouteScope; workloads : gset string }.
Implicit Types b : PathBucket.

(** [Ord for PathBucket]: a longer prefix first, then the prefix, then the scope. *)
Definition scope_rank (s : RouteScope) : Z := match s with Ingress => 0 | Local => 1 end.
Definition bucket_key b : Z * (string * Z) :=
  (- Z.of_nat (String.length (prefix b)), (prefix b, scope_rank (scope b)))%Z.
Definition bucket_leb b c : bool := ord_leb (bucket_key b) (bucket_key c).

(** [sort], which is stable. *)
Fixpoint insert_bucket b (l : list PathBucket) : list PathBucket :=
  match l with
  | [] => [b]
  | c :: l => if bucket_leb b c then b :: c :: l else c :: insert_bucket b l
  end.
Definition sort_buckets (l : list PathBucket) : list PathBucket := foldr insert_bucket [] l.

Abbreviation HostBuckets := (gmap string (list PathBucket)).

Definition same_route (r : IngressRoute) b : bool :=
  bool_decide (prefix b = r_prefix r) && bool_decide (scope b = r_scope r).
Definition with_workloads b (ws : gset string) : PathBucket :=
  {| prefix := prefix b; scope := scope b; workloads := ws |}.

(** [iter_mut().find(..)] and what is done to the element found. *)
Fixpoint update_first (p : PathBucket → bool) (f : PathBucket → PathBucket) (l : list PathBucket) :
    option (list PathBucket) :=
  match l with
  | [] => None
  | b :: l => if p b then Some (f b :: l) else cons b <$> update_first p f l
  end.

(** What [register_routes] does to a table for one route. *)
Definition add_replica (w : string) (table : HostBuckets) (r : IngressRoute) : HostBuckets :=
  let buckets := default [] (table !! r_host r) in
  <[r_host r :=
      match update_first (same_route r) (λ b, with_workloads b (workloads b ∪ {[w]})) buckets with
      | Some buckets => buckets
      | None => sort_buckets (buckets ++ [{| prefix := r_prefix r; scope := r_scope r; workloads := {[w]} |}])%list
      end]> table.

(** What [unregister_routes] does to a table for one route. *)
Definition remove_replica (w : string) (table : HostBuckets) (r : IngressRoute) : HostBuckets :=
  match table !! r_host r with
  | None => table
  | Some buckets =>
      let buckets := default buckets
        (update_first (same_route r) (λ b, with_workloads b (workloads b ∖ {[w]})) buckets) in
      let buckets := filter (λ b, workloads b ≠ ∅) buckets in
      if bool_decide (buckets = []) then delete (r_host r) table
      else <[r_host r := buckets]> table
  end.

(** ** Shards *)

Definition ROUTE_SHARDS : nat := 256.

Fixpoint fnv (hash : Z) (host : string) : Z :=
  match host with
  | EmptyString => hash
  | String c host =>
      fnv (Z.lxor hash (Z.of_N (byte (lower c))) * 0x100000001b3 mod 2 ^ 64)%Z host
  end.

Definition shard_index (host : string) : nat :=
  Z.to_nat (fnv 0xcbf29ce484222325 host mod Z.of_nat ROUTE_SHARDS)%Z.

Record DynamicRouter := { hosts : list HostBuckets; workload_to_host : gmap string (list IngressRoute) }.
Implicit Types rt : DynamicRouter.

Definition default_router : DynamicRouter :=
  {| hosts := replicate ROUTE_SHARDS ∅; workload_to_host := ∅ |}.

Definition shard (hosts : list HostBuckets) (index : nat) : HostBuckets :=
  match hosts !! index with Some t => t | None => default ∅ (hosts !! 0%nat) end.

(** [sort_by_key] on the shard, which is stable, and [chunk_by]. *)
Fixpoint insert_route (x : nat * IngressRoute) (l : list (nat * IngressRoute)) : list (nat * IngressRoute) :=
  match l with
  | [] => [x]
  | y :: l => if (x.1 <=? y.1)%nat then x :: y :: l else y :: insert_route x l
  end.
Definition sort_routes (l : list (nat * IngressRoute)) : list (nat * IngressRoute) := foldr insert_route [] l.

Fixpoint chunks (l : list (nat * IngressRoute)) : list (nat * list IngressRoute) :=
  match l with
  | [] => []
  | (i, r) :: l =>
      match chunks l with
      | (j, rs) :: groups => if (i =? j)%nat then (i, r :: rs) :: groups else (i, [r]) :: (j, rs) :: groups
      | [] => [(i, [r])]
      end
  end.

(** The shards after each [store]: a group's shard is copied, edited and published. *)
Definition store_group (edit : HostBuckets → IngressRoute → HostBuckets) (hosts : list HostBuckets)
    (g : nat * list IngressRoute) : list HostBuckets :=
  <[g.1 := foldl edit (shard hosts g.1) g.2]> hosts.

Definition groups_of (routes : list IngressRoute) : list (nat * list IngressRoute) :=
  chunks (sort_routes ((λ r, (shard_index (r_host r), r)) <$> routes)).

Definition edit_shards (hosts : list HostBuckets) (routes : list IngressRoute)
    (edit : HostBuckets → IngressRoute → HostBuckets) : list HostBuckets :=
  foldl (store_group edit) hosts (groups_of routes).

Definition register_routes rt (w : string) (routes : list IngressRoute) : DynamicRouter :=
  {| hosts := edit_shards (hosts rt) routes (add_replica w);
     workload_to_host := <[w := routes]> (workload_to_host rt) |}.

Definition unregister_routes rt (w : string) : DynamicRouter :=
  match workload_to_host rt !! w with
  | None => rt
  | Some routes =>
      {| hosts := edit_shards (hosts rt) routes (remove_replica w);
         workload_to_host := delete w (workload_to_host rt) |}
  end.

(** ** Selection *)

(** The replicas in the order of the set, from [start] on and round. *)
Definition replicas (ws : gset string) : list string := merge_sort ord_le (elements ws).
Definition rotate (start : nat) (l : list string) : list string := (drop start l ++ take start l)%list.

(** The case of a hostname is folded only where there is an upper-case letter. *)
Definition fold_case (host : string) : string :=
  if str_all (λ c, negb (is_ascii_upper c)) host then host else to_ascii_lowercase host.

Definition select_serving_workload (hosts : list HostBuckets) (host path : string) (s : RouteScope)
    (can_serve : string → bool) (start : nat) : result string RouteError :=
  let host := fold_case (split_host_port host).1 in
  match shard hosts (shard_index host) !! host with
  | None => Err (NoWorkloadForHost host)
  | Some buckets =>
      let visible := filter (λ b, scope b = s ∧ workloads b ≠ ∅) buckets in
      match visible with
      | [] => Err (NoWorkloadForHost host)
      | _ =>
          match find_map (λ b, if prefix_matches (prefix b) path then Some b else None) visible with
          | None => Err (NoWorkloadForPath host path)
          | Some b =>
              ok_or (find_map (λ w, if can_serve w then Some w else None)
                       (rotate start (replicas (workloads b))))
                    (NoWorkloadForHost host)
          end
      end
  end.

Definition select_workload hosts host path s start : result string RouteError :=
  select_serving_workload hosts host path s (λ _, true) start.

(** ** [Router for DynamicRouter] *)

Inductive ResolveError := NoHandlerInterface | NoHostHeader | InvalidHost (host : string) | InvalidLocalRoute (entry : string).

Section router.
Context `{UriLib}.

Definition on_workload_resolved rt (w : string) (interfaces : list WitInterface) :
    result unit ResolveError * DynamicRouter :=
  match http_interface interfaces with
  | None => (Err NoHandlerInterface, rt)
  | Some i =>
      match config i !! "host" with
      | None => (Err NoHostHeader, rt)
      | Some primary =>
          if negb (is_valid_hostname primary) then (Err (InvalidHost primary), rt)
          else match local_routes i with
               | Err e => (Err (InvalidLocalRoute e), rt)
               | Ok locals =>
                   (Ok tt, register_routes rt w (ingress primary :: ingress_aliases i ++ locals)%list)
               end
      end
  end.

Definition on_service_http_resolved rt (w : string) (routes : list IngressRoute) : DynamicRouter :=
  match routes with [] => rt | _ => register_routes rt w routes end.

Definition on_workload_unbind rt (w : string) : DynamicRouter := unregister_routes rt w.

(** What routing reads of a request: its [Host] header where that is text, its
    target. *)
Record Request := { host_header : option string; target : Uri }.

Definition request_host (req : Request) : option string :=
  match host_header req with Some h => Some h | None => authority_as_str <$> uri_authority (target req) end.

Definition route_incoming_request rt (req : Request) (start : nat) : result string RouteError :=
  match request_host req with
  | None => Err MissingHost
  | Some host => select_workload (hosts rt) host (uri_path (target req)) Ingress start
  end.

Definition default_port_for_scheme (scheme : option string) : Z :=
  default 80%Z (scheme ≫= AllowedHosts.default_port).

Definition route_local_egress rt (uri : Uri) (can_serve : string → bool) (start : nat) : option string :=
  if negb (bool_decide (uri_scheme_str uri ∈ [None; Some "http"; Some "https"])) then None
  else if is_some_and (uri_port_u16 uri) (λ port, negb (port =? default_port_for_scheme (uri_scheme_str uri))%Z)
       then None
  else
    host ← uri_host uri;
    match select_serving_workload (hosts rt) host (uri_path uri) Local can_serve start with
    | Ok w => Some w
    | Err _ => None
    end.
End router.

(** ** [Router for DevRouter] *)

Definition DevRouter : Type := option string.
Definition dev_resolved (_ : DevRouter) (w : string) : DevRouter := Some w.
Definition dev_unbind (d : DevRouter) (w : string) : DevRouter :=
  match d with Some current => if bool_decide (current = w) then None else d | None => d end.
(** [locked]: another thread is writing. *)
Definition dev_route (d : DevRouter) (locked : bool) : result string RouteError :=
  if locked then Err Unavailable else ok_or d (NoWorkloadForHost "").

(** ** Buckets *)

Definition route_key b : string * RouteScope := (prefix b, scope b).

Lemma bucket_key_inj b c : bucket_key b = bucket_key c → route_key b = route_key c.
Proof.
  unfold bucket_key, route_key. intros [= _ -> Hs]. f_equal.
  by destruct (scope b), (scope c).
Qed.

Lemma same_route_spec r b : same_route r b = true ↔ route_key b = (r_prefix r, r_scope r).
Proof.
  unfold same_route, route_key. rewrite andb_true_iff, !bool_decide_eq_true. split; [by intros [-> ->]|by intros [= -> ->]].
Qed.

Lemma update_first_Some p f l l' :
  update_first p f l = Some l' →
  ∃ l1 b l2, l = (l1 ++ b :: l2)%list ∧ l' = (l1 ++ f b :: l2)%list ∧ p b = true.
Proof.
  revert l'. induction l as [|b l IH]; intros l'; simpl; [done|]. destruct (p b) eqn:Hp.
  - intros [= <-]. by exists [], b, l.
  - destruct (update_first p f l) as [k|]; [|done]. intros [= <-].
    destruct (IH k eq_refl) as (l1 & c & l2 & -> & -> & Hc). by exists (b :: l1), c, l2.
Qed.

Lemma update_first_None p f l : update_first p f l = None → Forall (λ b, p b = false) l.
Proof.
  induction l as [|b l IH]; simpl; [done|]. destruct (p b) eqn:Hp; [done|].
  destruct (update_first p f l); [done|]. auto.
Qed.

Lemma insert_bucket_perm b l : insert_bucket b l ≡ₚ b :: l.
Proof.
  induction l as [|c l IH]; [done|]. simpl. destruct (bucket_leb b c); [done|].
  rewrite IH. apply Permutation_swap.
Qed.

Lemma sort_buckets_perm l : sort_buckets l ≡ₚ l.
Proof. induction l as [|b l IH]; [done|]. simpl. by rewrite insert_bucket_perm, IH. Qed.

Definition in_order (l : list PathBucket) : Prop := StronglySorted ord_le (bucket_key <$> l).

Lemma insert_bucket_in_order b l : in_order l → in_order (insert_bucket b l).
Proof.
  unfold in_order. induction l as [|c l IH]; intros Hl; [by repeat constructor|].
  rewrite fmap_cons in Hl. inversion_clear Hl as [|? ? Hl' Hc]. simpl. destruct (bucket_leb b c) eqn:Hbc.
  - rewrite !fmap_cons. constructor; [by constructor|]. constructor; [done|].
    eapply Forall_impl; [exact Hc|]. intros k Hk. by transitivity (bucket_key c).
  - rewrite fmap_cons. constructor; [by apply IH|].
    rewrite (Permutation_map bucket_key (insert_bucket_perm b l)). constructor; [|done].
    unfold ord_le. apply ord_leb_total. exact Hbc.
Qed.

Lemma sort_buckets_in_order l : in_order (sort_buckets l).
Proof.
  induction l as [|b l IH]; [by constructor|]. by apply insert_bucket_in_order.
Qed.

(** What every hostname's list of buckets is: ordered, no route twice, none empty. *)
Record good_buckets (l : list PathBucket) : Prop := {
  gb_some : l ≠ [];
  gb_order : in_order l;
  gb_once : NoDup (route_key <$> l);
  gb_full : Forall (λ b, workloads b ≠ ∅) l;
}.

(** Workload [w] is in the bucket of a prefix and a scope. *)
Definition holds (l : list PathBucket) (w p : string) (s : RouteScope) : Prop :=
  ∃ b, b ∈ l ∧ route_key b = (p, s) ∧ w ∈ workloads b.

Lemma with_workloads_key b ws : bucket_key (with_workloads b ws) = bucket_key b.
Proof. done. Qed.

Lemma fmap_update_at {A B} (g : A → B) (l1 l2 : list A) (x y : A) :
  g y = g x → g <$> (l1 ++ y :: l2)%list = g <$> (l1 ++ x :: l2)%list.
Proof. intros Hg. by rewrite !fmap_app, !fmap_cons, Hg. Qed.

Lemma key_once l1 b l2 c :
  NoDup (route_key <$> (l1 ++ b :: l2)%list) → c ∈ (l1 ++ b :: l2)%list → route_key c = route_key b →
  c = b.
Proof.
  rewrite fmap_app, fmap_cons. intros (_ & Hx & Hb%NoDup_cons_1_1)%NoDup_app Hc Hk.
  apply elem_of_app in Hc as [Hc|Hc].
  - exfalso. apply (Hx (route_key c)); [by apply list_elem_of_fmap_2|]. rewrite Hk. left.
  - apply elem_of_cons in Hc as [->|Hc]; [done|]. exfalso. apply Hb. rewrite <-Hk.
    by apply list_elem_of_fmap_2.
Qed.

(** Replacing the members of one bucket. *)
Lemma holds_update l1 b l2 ws w p s :
  NoDup (route_key <$> (l1 ++ b :: l2)%list) →
  holds (l1 ++ with_workloads b ws :: l2)%list w p s
  ↔ if decide (route_key b = (p, s)) then w ∈ ws else holds (l1 ++ b :: l2)%list w p s.
Proof.
  intros Hn. unfold holds. split.
  - intros (c & Hc & Hk & Hw). apply elem_of_app in Hc as [Hc|[->|Hc]%elem_of_cons].
    + case_decide as Hb; [|exists c; set_solver].
      assert (c = b) as -> by (eapply key_once; [done|set_solver|congruence]).
      exfalso. rewrite fmap_app, fmap_cons in Hn. apply NoDup_app in Hn as (_ & Hx & _).
      apply (Hx (route_key b)); [by apply list_elem_of_fmap_2|left].
    + unfold route_key in *. simpl in *. rewrite decide_True by done. done.
    + case_decide as Hb; [|exists c; set_solver]. exfalso. rewrite fmap_app, fmap_cons in Hn.
      apply NoDup_app in Hn as (_ & _ & Hx%NoDup_cons_1_1). apply Hx. rewrite Hb, <-Hk.
      by apply list_elem_of_fmap_2.
  - case_decide as Hb.
    + intros Hw. exists (with_workloads b ws). split; [set_solver|done].
    + intros (c & Hc & Hk & Hw). exists c. split; [|done].
      apply elem_of_app in Hc as [Hc|[->|Hc]%elem_of_cons]; set_solver.
Qed.

(** The two edits as they act on the entry of the route's hostname. *)
Definition add_to (w : string) (o : option (list PathBucket)) (r : IngressRoute) : option (list PathBucket) :=
  let buckets := default [] o in
  Some (match update_first (same_route r) (λ b, with_workloads b (workloads b ∪ {[w]})) buckets with
        | Some buckets => buckets
        | None => sort_buckets (buckets ++ [{| prefix := r_prefix r; scope := r_scope r; workloads := {[w]} |}])%list
        end).

Definition remove_from (w : string) (o : option (list PathBucket)) (r : IngressRoute) : option (list PathBucket) :=
  buckets ← o;
  let buckets := default buckets
    (update_first (same_route r) (λ b, with_workloads b (workloads b ∖ {[w]})) buckets) in
  let buckets := filter (λ b, workloads b ≠ ∅) buckets in
  if bool_decide (buckets = []) then None else Some buckets.

(** An edit of a table that acts on one entry. *)
Definition acts (edit : HostBuckets → IngressRoute → HostBuckets)
    (e : option (list PathBucket) → IngressRoute → option (list PathBucket)) : Prop :=
  ∀ t r h, edit t r !! h = if decide (h = r_host r) then e (t !! h) r else t !! h.

Lemma add_replica_acts w : acts (add_replica w) (add_to w).
Proof.
  intros t r h. unfold add_replica. case_decide as Hh; [subst h|].
  - by rewrite lookup_insert_eq.
  - by rewrite lookup_insert_ne by done.
Qed.

Lemma remove_replica_acts w : acts (remove_replica w) (remove_from w).
Proof.
  intros t r h. unfold remove_replica, remove_from. case_decide as Hh; [subst h|].
  - destruct (t !! r_host r) as [bs|] eqn:E; [|done]. simpl. case_bool_decide.
    + by rewrite lookup_delete_eq.
    + by rewrite lookup_insert_eq.
  - destruct (t !! r_host r) as [bs|]; [|done]. case_bool_decide.
    + by rewrite lookup_delete_ne by done.
    + by rewrite lookup_insert_ne by done.
Qed.

Definition good_entry (o : option (list PathBucket)) : Prop := ∀ l, o = Some l → good_buckets l.
Definition holds_in (o : option (list PathBucket)) (w p : string) (s : RouteScope) : Prop :=
  ∃ l, o = Some l ∧ holds l w p s.

Lemma holds_default o w p s : holds (default [] o) w p s ↔ holds_in o w p s.
Proof.
  unfold holds_in. destruct o as [l|]; simpl.
  - split; [by exists l|]. by intros (? & [= <-] & ?).
  - split; [intros (b & Hb & _); set_solver|by intros (? & ? & _)].
Qed.

Lemma entry_once o : good_entry o → NoDup (route_key <$> default [] o).
Proof. intros Ho. destruct o as [l|]; [by apply Ho|constructor]. Qed.

Lemma in_order_keys l l' : bucket_key <$> l' = bucket_key <$> l → in_order l → in_order l'.
Proof. unfold in_order. by intros ->. Qed.

Lemma holds_perm l l' w p s : l ≡ₚ l' → holds l w p s ↔ holds l' w p s.
Proof. unfold holds. by intros Hp; setoid_rewrite Hp. Qed.

Lemma add_to_spec w o r :
  good_entry o →
  good_entry (add_to w o r)
  ∧ ∀ w' p s, holds_in (add_to w o r) w' p s
      ↔ holds_in o w' p s ∨ (w' = w ∧ (p, s) = (r_prefix r, r_scope r)).
Proof.
  intros Ho. pose proof (entry_once o Ho) as Hn. unfold add_to. setoid_rewrite <-holds_default.
  set (l := default [] o) in *. cbn [from_option id].
  destruct (update_first _ _ l) as [l'|] eqn:Hu.
  - destruct (update_first_Some _ _ _ _ Hu) as (l1 & b & l2 & Hl & -> & Hb%same_route_spec).
    assert (good_buckets l) as [G1 G2 G3 G4].
    { unfold l in *. destruct o; [by apply Ho|]. by destruct l1. }
    rewrite Hl in *. split.
    + intros ? [= <-]. split.
      * by destruct l1.
      * eapply in_order_keys; [|exact G2]. by apply fmap_update_at.
      * rewrite (fmap_update_at route_key l1 l2 b) by done. done.
      * apply Forall_app in G4 as [G4 [Gb G5]%Forall_cons]. apply Forall_app. split; [done|].
        constructor; [|done]. simpl. set_solver.
    + intros w' p s. rewrite holds_update by done. case_decide as Hk.
      * rewrite elem_of_union, elem_of_singleton. split; [|intros [(c & Hc & Hck & Hw)|[-> _]]].
        -- intros [Hw| ->]; [left|right]; [|by rewrite <-Hk]. exists b. split; [set_solver|done].
        -- left. rewrite <-Hk in Hck. by rewrite <-(key_once l1 b l2 c Hn Hc Hck).
        -- by right.
      * split; [by left|]. intros [?|[_ Hk']]; [done|]. exfalso. congruence.
  - apply update_first_None in Hu. set (nb := {| prefix := r_prefix r |}). split.
    + intros ? [= <-]. split.
      * intros Hs. pose proof (sort_buckets_perm (l ++ [nb])) as Hp. rewrite Hs in Hp.
        apply Permutation_length in Hp. rewrite length_app in Hp. simpl in Hp. lia.
      * apply sort_buckets_in_order.
      * rewrite (Permutation_map route_key (sort_buckets_perm _)). rewrite fmap_app.
        apply NoDup_app. split; [done|]. split; [|apply NoDup_singleton].
        intros k Hk ->%list_elem_of_singleton. apply list_elem_of_fmap in Hk as (b & Hb & Hin).
        rewrite Forall_forall in Hu. specialize (Hu b Hin).
        assert (same_route r b = true) by by apply same_route_spec. congruence.
      * rewrite (sort_buckets_perm _). apply Forall_app. split.
        -- unfold l. destruct o; [by apply Ho|constructor].
        -- constructor; [|constructor]. simpl. set_solver.
    + intros w' p s. rewrite (holds_perm _ _ _ _ _ (sort_buckets_perm _)). unfold holds. split.
      * intros (b & [Hb|Hb%list_elem_of_singleton]%elem_of_app & Hk & Hw); [left; by exists b|].
        subst b. right. simpl in Hw. split; [set_solver|]. by rewrite <-Hk.
      * intros [(b & Hb & Hk & Hw)|[-> [= -> ->]]]; [exists b; set_solver|].
        exists nb. split; [set_solver|]. split; [done|]. simpl. set_solver.
Qed.

Lemma update_or_same r w l :
  NoDup (route_key <$> l) →
  let l' := default l (update_first (same_route r) (λ b, with_workloads b (workloads b ∖ {[w]})) l) in
  bucket_key <$> l' = bucket_key <$> l ∧ route_key <$> l' = route_key <$> l
  ∧ ∀ w' p s, holds l' w' p s ↔ holds l w' p s ∧ ¬ (w' = w ∧ (p, s) = (r_prefix r, r_scope r)).
Proof.
  intros Hn l'. unfold l'. destruct (update_first _ _ l) as [k|] eqn:Hu; simpl.
  - destruct (update_first_Some _ _ _ _ Hu) as (l1 & b & l2 & -> & -> & Hb%same_route_spec).
    split_and!; [by apply fmap_update_at|by apply fmap_update_at|].
    intros w' p s. rewrite holds_update by done. case_decide as Hk.
    + rewrite elem_of_difference, elem_of_singleton. split.
      * intros [Hw Hne]. split; [exists b; set_solver|naive_solver].
      * intros [(c & Hc & Hck & Hw) Hno]. rewrite <-Hk in Hck.
        rewrite <-(key_once l1 b l2 c Hn Hc Hck). split; [done|]. intros ->. apply Hno. by rewrite <-Hk.
    + split; [|by intros []]. intros Hh. split; [done|]. intros [_ Hk']. congruence.
  - split_and!; [done|done|]. apply update_first_None in Hu. rewrite Forall_forall in Hu.
    intros w' p s. split; [|by intros []]. intros Hh. split; [done|]. intros [_ Hk].
    destruct Hh as (b & Hb & Hbk & _). specialize (Hu b Hb).
    assert (same_route r b = true) by (apply same_route_spec; congruence). congruence.
Qed.

Lemma holds_filter l w p s : holds (filter (λ b, workloads b ≠ ∅) l) w p s ↔ holds l w p s.
Proof.
  unfold holds. split; intros (b & Hb & Hk & Hw); exists b.
  - apply list_elem_of_filter in Hb as [_ Hb]. done.
  - split; [|done]. apply list_elem_of_filter. split; [set_solver|done].
Qed.

Lemma StronglySorted_sublist {A} (R : relation A) l k :
  sublist l k → StronglySorted R k → StronglySorted R l.
Proof.
  induction 1 as [|x l k Hs IH|x l k Hs IH]; intros Hk; [constructor|..]; inversion_clear Hk; [|auto].
  constructor; [auto|]. rewrite Forall_forall in *. intros y Hy. by eauto using elem_of_sublist.
Qed.

Lemma sublist_map {A B} (f : A → B) l k : sublist l k → sublist (f <$> l) (f <$> k).
Proof. induction 1; csimpl; by constructor. Qed.

Lemma remove_from_spec w o r :
  good_entry o →
  good_entry (remove_from w o r)
  ∧ ∀ w' p s, holds_in (remove_from w o r) w' p s
      ↔ holds_in o w' p s ∧ ¬ (w' = w ∧ (p, s) = (r_prefix r, r_scope r)).
Proof.
  intros Ho. unfold remove_from. destruct o as [l|]; simpl; cycle 1.
  { split; [done|]. intros w' p s. split; [by intros (? & ? & _)|by intros [(? & ? & _) _]]. }
  destruct (Ho l eq_refl) as [G1 G2 G3 G4]. destruct (update_or_same r w l G3) as (U1 & U2 & U3).
  set (l' := default l _) in *. set (k := filter (λ b, workloads b ≠ ∅) l').
  assert (∀ w' p s, holds_in (Some l) w' p s ↔ holds l w' p s) as Hin.
  { intros. split; [by intros (? & [= <-] & ?)|by exists l]. }
  assert (sublist k l') as Hsub by apply sublist_filter. split.
  - intros k' Hk'. case_bool_decide; [done|]. injection Hk' as <-. split.
    + done.
    + unfold in_order. eapply StronglySorted_sublist; [by apply sublist_map|]. rewrite U1. exact G2.
    + eapply sublist_NoDup; [|by apply sublist_map]. by rewrite U2.
    + apply Forall_forall. intros b [Hb _]%list_elem_of_filter. done.
  - intros w' p s. rewrite Hin, <-U3, <-holds_filter. fold k. case_bool_decide as Hk.
    + rewrite Hk. split; [by intros (? & ? & _)|]. intros (b & Hb & _). set_solver.
    + split; [by intros (? & [= <-] & ?)|by exists k].
Qed.

(** ** Shards hold one table *)

Definition table_of (hosts : list HostBuckets) (host : string) : option (list PathBucket) :=
  shard hosts (shard_index host) !! host.

Lemma shard_index_lt host : (shard_index host < ROUTE_SHARDS)%nat.
Proof.
  unfold shard_index. assert (0 < Z.of_nat ROUTE_SHARDS)%Z as Hs by (unfold ROUTE_SHARDS; lia).
  pose proof (Z.mod_pos_bound (fnv 14695981039346656037 host) _ Hs). lia.
Qed.

Abbreviation of_host h := (filter (λ r, r_host r = h)).

Lemma foldl_acts edit e rs h : acts edit e →
  ∀ t, foldl edit t rs !! h = foldl e (t !! h) (of_host h rs).
Proof.
  intros Ha. induction rs as [|r rs IH]; intros t; [done|]. simpl. rewrite IH, Ha.
  rewrite filter_cons. case_decide as Hd; [subst h|].
  - by rewrite decide_True by done.
  - by rewrite decide_False by done.
Qed.

(** A group is of one shard. *)
Definition of_shard (g : nat * list IngressRoute) : Prop :=
  (g.1 < ROUTE_SHARDS)%nat ∧ Forall (λ r, shard_index (r_host r) = g.1) g.2.

Lemma of_host_elsewhere g h : of_shard g → shard_index h ≠ g.1 → of_host h g.2 = [].
Proof.
  intros [_ Hg] Hh. induction Hg as [|r rs Hr Hrs IH]; [done|]. rewrite filter_cons, IH.
  case_decide as Hd; [subst h|]; done.
Qed.

Lemma store_group_table edit e hosts g h : acts edit e →
  length hosts = ROUTE_SHARDS → of_shard g →
  table_of (store_group edit hosts g) h = foldl e (table_of hosts h) (of_host h g.2).
Proof.
  intros Ha Hlen Hg. unfold table_of, store_group. destruct (decide (shard_index h = g.1)) as [Hi|Hi].
  - rewrite Hi. unfold shard at 1. rewrite list_lookup_insert_eq by (rewrite Hlen; apply Hg).
    by apply foldl_acts.
  - rewrite (of_host_elsewhere g h) by done. simpl. unfold shard.
    rewrite list_lookup_insert_ne by done. destruct (hosts !! shard_index h) eqn:E; [done|].
    apply lookup_ge_None in E. pose proof (shard_index_lt h). lia.
Qed.

Lemma store_groups_length edit gs : ∀ hosts, length (foldl (store_group edit) hosts gs) = length hosts.
Proof.
  induction gs as [|g gs IH]; intros hosts; [done|]. simpl. rewrite IH. apply length_insert.
Qed.

Definition routes_in (gs : list (nat * list IngressRoute)) : list IngressRoute := mjoin (snd <$> gs).

Lemma store_groups_table edit e gs h : acts edit e → Forall of_shard gs →
  ∀ hosts, length hosts = ROUTE_SHARDS →
  table_of (foldl (store_group edit) hosts gs) h = foldl e (table_of hosts h) (of_host h (routes_in gs)).
Proof.
  intros Ha. induction 1 as [|g gs Hg Hgs IH]; intros hosts Hlen; [done|].
  unfold routes_in. csimpl. rewrite IH, filter_app, foldl_app by (unfold store_group; by rewrite length_insert).
  by rewrite (store_group_table edit e).
Qed.

Lemma insert_route_perm x l : insert_route x l ≡ₚ x :: l.
Proof.
  induction l as [|y l IH]; [done|]. simpl. destruct (_ <=? _)%nat; [done|].
  rewrite IH. apply Permutation_swap.
Qed.

Lemma sort_routes_perm l : sort_routes l ≡ₚ l.
Proof. induction l as [|x l IH]; [done|]. simpl. by rewrite insert_route_perm, IH. Qed.

Definition indexed (x : nat * IngressRoute) : Prop := x.1 = shard_index (r_host x.2).

(** Stability, as far as one hostname is concerned. *)
Lemma insert_route_host x l h : indexed x → Forall indexed l →
  of_host h (snd <$> insert_route x l) = of_host h (x.2 :: (snd <$> l)).
Proof.
  intros Hx. induction 1 as [|y l Hy Hl IH]; [done|]. cbn [insert_route].
  destruct (Nat.leb_spec x.1 y.1) as [Hle|Hgt]; [done|]. csimpl. rewrite filter_cons, IH, !filter_cons.
  case_decide as Hyh; [|done]. case_decide as Hxh; [|done]. exfalso. unfold indexed in *.
  rewrite Hx, Hy, Hxh, Hyh in Hgt. lia.
Qed.

Lemma sort_routes_host l h : Forall indexed l → of_host h (snd <$> sort_routes l) = of_host h (snd <$> l).
Proof.
  induction 1 as [|x l Hx Hl IH]; [done|]. simpl.
  rewrite insert_route_host; [|done|by rewrite (sort_routes_perm l)]. csimpl.
  by rewrite !filter_cons, IH.
Qed.

Lemma chunks_routes l : routes_in (chunks l) = snd <$> l.
Proof.
  unfold routes_in. induction l as [|[i r] l IH]; [done|]. cbn [chunks]. csimpl. rewrite <-IH.
  destruct (chunks l) as [|[j rs] gs]; [done|]. by destruct (i =? j)%nat.
Qed.

Lemma chunks_of_shard l : Forall indexed l → Forall of_shard (chunks l).
Proof.
  induction 1 as [|[i r] l Hx Hl IH]; [constructor|]. cbn [chunks].
  assert (of_shard (i, [r])) as H1.
  { unfold indexed in Hx. simpl in Hx. subst i. split; [apply shard_index_lt|by repeat constructor]. }
  destruct (chunks l) as [|[j rs] gs]; [by apply Forall_singleton|].
  destruct (Nat.eqb_spec i j) as [->|]; [|by apply Forall_cons].
  apply Forall_cons in IH as [[Hj Hrs] Hgs].
  constructor; [|done]. split; [done|]. constructor; [|done]. by symmetry.
Qed.

Lemma indexed_routes rs : Forall indexed ((λ r, (shard_index (r_host r), r)) <$> rs).
Proof. apply Forall_fmap, Forall_forall. by intros. Qed.

Lemma groups_of_shard routes : Forall of_shard (groups_of routes).
Proof. apply chunks_of_shard. rewrite (sort_routes_perm _). apply indexed_routes. Qed.

Lemma groups_of_routes routes h : of_host h (routes_in (groups_of routes)) = of_host h routes.
Proof.
  unfold groups_of. rewrite chunks_routes, sort_routes_host by apply indexed_routes.
  f_equal. rewrite <-list_fmap_compose. apply list_fmap_id.
Qed.

(** Editing shard by shard is editing one table, in the order of the routes. *)
Lemma edit_shards_table edit e hosts routes h : acts edit e → length hosts = ROUTE_SHARDS →
  table_of (edit_shards hosts routes edit) h = foldl e (table_of hosts h) (of_host h routes).
Proof.
  intros Ha Hlen. unfold edit_shards.
  rewrite (store_groups_table edit e) by (done || apply groups_of_shard). by rewrite groups_of_routes.
Qed.

(** Every hostname is in its own shard. *)
Definition placed (hosts : list HostBuckets) : Prop :=
  ∀ i t h, hosts !! i = Some t → is_Some (t !! h) → shard_index h = i.

Lemma store_groups_placed edit e gs : acts edit e → Forall of_shard gs →
  ∀ hosts, length hosts = ROUTE_SHARDS → placed hosts → placed (foldl (store_group edit) hosts gs).
Proof.
  intros Ha. induction 1 as [|g gs Hg Hgs IH]; intros hosts Hlen Hp; [done|]. simpl.
  apply IH; [unfold store_group; by rewrite length_insert|]. intros i t h Ht Hs. unfold store_group in Ht.
  destruct (decide (i = g.1)) as [->|Hi]; [|rewrite list_lookup_insert_ne in Ht by done; eauto].
  rewrite list_lookup_insert_eq in Ht by (rewrite Hlen; apply Hg). injection Ht as <-.
  rewrite (foldl_acts edit e) in Hs by done.
  destruct (decide (shard_index h = g.1)) as [|Hne]; [done|].
  rewrite (of_host_elsewhere g h) in Hs by done. simpl in Hs. unfold shard in Hs.
  destruct (hosts !! g.1) as [t|] eqn:E; [by eapply Hp|]. apply lookup_ge_None in E.
  destruct Hg as [Hg _]. lia.
Qed.

(** ** What a router holds after any history *)

Inductive RouterEvent :=
  | Resolved (w : string) (interfaces : list WitInterface)
  | ServiceResolved (w : string) (routes : list IngressRoute)
  | Unbound (w : string).

Section histories.
Context `{UriLib}.

Definition router_step rt (e : RouterEvent) : DynamicRouter :=
  match e with
  | Resolved w interfaces => (on_workload_resolved rt w interfaces).2
  | ServiceResolved w routes => on_service_http_resolved rt w routes
  | Unbound w => on_workload_unbind rt w
  end.
Definition router_run (es : list RouterEvent) : DynamicRouter := foldl router_step default_router es.

(** The specification: pairs of a workload and a route it declared, and what each
    workload declared last. *)
Record Declared := { entries : list (string * IngressRoute); last_declared : gmap string (list IngressRoute) }.

(** The routes an event declares, if it is accepted. *)
Definition routes_of_event (e : RouterEvent) : option (string * list IngressRoute) :=
  match e with
  | Resolved w interfaces =>
      i ← http_interface interfaces; primary ← config i !! "host";
      if is_valid_hostname primary then
        match local_routes i with
        | Ok locals => Some (w, ingress primary :: ingress_aliases i ++ locals)%list
        | Err _ => None
        end
      else None
  | ServiceResolved w routes => match routes with [] => None | _ => Some (w, routes) end
  | Unbound _ => None
  end.

Definition declare (d : Declared) (w : string) (routes : list IngressRoute) : Declared :=
  {| entries := ((λ r, (w, r)) <$> routes) ++ entries d; last_declared := <[w := routes]> (last_declared d) |}.

Definition withdraw (d : Declared) (w : string) : Declared :=
  match last_declared d !! w with
  | None => d
  | Some routes => {| entries := filter (λ x, ¬ (x.1 = w ∧ x.2 ∈ routes)) (entries d);
                      last_declared := delete w (last_declared d) |}
  end.

Definition declared_step (d : Declared) (e : RouterEvent) : Declared :=
  match e with
  | Unbound w => withdraw d w
  | _ => match routes_of_event e with Some (w, routes) => declare d w routes | None => d end
  end.
Definition declared_run (es : list RouterEvent) : Declared :=
  foldl declared_step {| entries := []; last_declared := ∅ |} es.

Definition route_at (h p : string) (s : RouteScope) : IngressRoute := {| r_host := h; r_prefix := p; r_scope := s |}.

(** A router implements a specification. *)
Record implements rt (d : Declared) : Prop := {
  im_length : length (hosts rt) = ROUTE_SHARDS;
  im_placed : placed (hosts rt);
  im_good : ∀ h, good_entry (table_of (hosts rt) h);
  im_last : workload_to_host rt = last_declared d;
  im_entries : ∀ h w p s, holds_in (table_of (hosts rt) h) w p s ↔ (w, route_at h p s) ∈ entries d;
}.

Lemma route_eta r : r = route_at (r_host r) (r_prefix r) (r_scope r).
Proof. by destruct r. Qed.

Lemma of_host_elem h p s (rs : list IngressRoute) :
  (∃ r, r ∈ of_host h rs ∧ (p, s) = (r_prefix r, r_scope r)) ↔ route_at h p s ∈ rs.
Proof.
  split.
  - intros (r & [<- Hr]%list_elem_of_filter & [= -> ->]). by rewrite <-route_eta.
  - intros Hr. exists (route_at h p s). split; [by apply list_elem_of_filter|done].
Qed.

Lemma foldl_add w rs : ∀ o, good_entry o →
  good_entry (foldl (add_to w) o rs)
  ∧ ∀ w' p s, holds_in (foldl (add_to w) o rs) w' p s
      ↔ holds_in o w' p s ∨ (w' = w ∧ ∃ r, r ∈ rs ∧ (p, s) = (r_prefix r, r_scope r)).
Proof.
  induction rs as [|r rs IH]; intros o Ho; simpl; [split; [done|]; set_solver|].
  destruct (add_to_spec w o r Ho) as [A1 A2]. destruct (IH _ A1) as [B1 B2]. split; [done|].
  intros w' p s. rewrite B2, A2. setoid_rewrite elem_of_cons. naive_solver.
Qed.

Lemma foldl_remove w rs : ∀ o, good_entry o →
  good_entry (foldl (remove_from w) o rs)
  ∧ ∀ w' p s, holds_in (foldl (remove_from w) o rs) w' p s
      ↔ holds_in o w' p s ∧ ¬ (w' = w ∧ ∃ r, r ∈ rs ∧ (p, s) = (r_prefix r, r_scope r)).
Proof.
  induction rs as [|r rs IH]; intros o Ho; simpl.
  { split; [done|]. intros w' p s. split; [|by intros []]. intros Hh. split; [done|].
    intros (_ & r & Hr & _). set_solver. }
  destruct (remove_from_spec w o r Ho) as [A1 A2]. destruct (IH _ A1) as [B1 B2]. split; [done|].
  intros w' p s. rewrite B2, A2. setoid_rewrite elem_of_cons. naive_solver.
Qed.

Lemma default_implements : implements default_router {| entries := []; last_declared := ∅ |}.
Proof.
  assert (∀ h, table_of (hosts default_router) h = None) as Ht.
  { intros h. unfold table_of, shard.
    change (hosts default_router) with (replicate (A:=HostBuckets) ROUTE_SHARDS ∅). rewrite lookup_replicate_2 by apply shard_index_lt.
    apply lookup_empty. }
  split.
  - apply length_replicate.
  - intros i t h Ht'. apply lookup_replicate in Ht' as [-> _]. rewrite lookup_empty. by intros [].
  - intros h l. by rewrite Ht.
  - done.
  - intros h w p s. rewrite Ht. simpl. split; [by intros (? & ? & _)|set_solver].
Qed.

Lemma register_implements rt d w routes :
  implements rt d → implements (register_routes rt w routes) (declare d w routes).
Proof.
  intros [I1 I2 I3 I4 I5]. pose proof (add_replica_acts w) as Ha. split; simpl.
  - unfold edit_shards. by rewrite store_groups_length.
  - eapply store_groups_placed; [done|apply groups_of_shard|done|done].
  - intros h. rewrite (edit_shards_table _ _ _ _ _ Ha I1). by apply foldl_add.
  - by rewrite I4.
  - intros h w' p s. rewrite (edit_shards_table _ _ _ _ _ Ha I1).
    destruct (foldl_add w (of_host h routes) _ (I3 h)) as [_ ->].
    rewrite I5, of_host_elem, elem_of_app, list_elem_of_fmap. naive_solver.
Qed.

Lemma unregister_implements rt d w : implements rt d → implements (unregister_routes rt w) (withdraw d w).
Proof.
  intros HI. pose proof HI as [I1 I2 I3 I4 I5]. pose proof (remove_replica_acts w) as Ha.
  unfold unregister_routes, withdraw. rewrite <-I4.
  destruct (workload_to_host rt !! w) as [routes|]; [|done]. split; simpl.
  - unfold edit_shards. by rewrite store_groups_length.
  - eapply store_groups_placed; [done|apply groups_of_shard|done|done].
  - intros h. rewrite (edit_shards_table _ _ _ _ _ Ha I1). by apply foldl_remove.
  - by rewrite I4.
  - intros h w' p s. rewrite (edit_shards_table _ _ _ _ _ Ha I1).
    destruct (foldl_remove w (of_host h routes) _ (I3 h)) as [_ ->].
    rewrite I5, of_host_elem, list_elem_of_filter. simpl. naive_solver.
Qed.

Lemma router_step_implements rt d e : implements rt d → implements (router_step rt e) (declared_step d e).
Proof.
  intros HI. destruct e as [w ifs|w routes|w]; simpl.
  - unfold on_workload_resolved. destruct (http_interface ifs) as [i|]; [|done]. simpl.
    destruct (config i !! "host") as [primary|]; [|done]. simpl.
    destruct (is_valid_hostname primary); [|done]. simpl.
    destruct (local_routes i); [|done]. by apply register_implements.
  - destruct routes; [done|]. by apply register_implements.
  - by apply unregister_implements.
Qed.

Lemma router_run_implements es : implements (router_run es) (declared_run es).
Proof.
  unfold router_run, declared_run. generalize default_implements.
  generalize default_router as rt, {| entries := []; last_declared := ∅ |} as d.
  induction es as [|e es IH]; intros rt d HI; [done|]. simpl. apply IH. by apply router_step_implements.
Qed.

(** ** Selection *)

Lemma fold_case_lower h : fold_case h = to_ascii_lowercase h.
Proof.
  unfold fold_case. destruct (str_all _ h) eqn:Hu; [|done]. unfold to_ascii_lowercase.
  induction h as [|c h IH]; [done|]. simpl in *. bools. rewrite <-IH by done. f_equal.
  unfold lower. by destruct (is_ascii_upper c).
Qed.

Lemma find_if_Some {A} (p : A → bool) l x :
  find_map (λ y, if p y then Some y else None) l = Some x →
  p x = true ∧ ∃ l1 l2, l = (l1 ++ x :: l2)%list ∧ Forall (λ y, p y = false) l1.
Proof.
  induction l as [|y l IH]; simpl; [done|]. destruct (p y) eqn:Hp.
  - intros [= ->]. split; [done|]. by exists [], l.
  - intros Hf. destruct (IH Hf) as (Hx & l1 & l2 & -> & Hl). split; [done|].
    exists (y :: l1), l2. split; [done|]. by constructor.
Qed.

Lemma find_if_None {A} (p : A → bool) l :
  find_map (λ y, if p y then Some y else None) l = None ↔ Forall (λ y, p y = false) l.
Proof.
  induction l as [|y l IH]; simpl; [done|]. rewrite Forall_cons. destruct (p y); naive_solver.
Qed.

Lemma bucket_le_length b c : ord_le (bucket_key b) (bucket_key c) →
  (String.length (prefix c) ≤ String.length (prefix b))%nat.
Proof.
  unfold ord_le, ord_leb, bucket_key. simpl. unfold pair_cmp. simpl.
  destruct (Z.compare_spec (- Z.of_nat (String.length (prefix b))) (- Z.of_nat (String.length (prefix c)))); intros; lia || done.
Qed.

Lemma rotate_perm n (l : list string) : rotate n l ≡ₚ l.
Proof. unfold rotate. rewrite Permutation_app_comm. by rewrite take_drop. Qed.

Lemma replicas_elem ws w : w ∈ replicas ws ↔ w ∈ ws.
Proof. unfold replicas. rewrite (merge_sort_Permutation ord_le). apply elem_of_elements. Qed.

Lemma rotate_elem n ws w : w ∈ rotate n (replicas ws) ↔ w ∈ ws.
Proof. rewrite rotate_perm. apply replicas_elem. Qed.

(** What an answer should be, for the declared pairs [ds]: of the prefixes declared
    for the hostname at the scope that cover the path, the longest is served, by a
    workload that declared it and can serve. *)
Definition declares (ds : list (string * IngressRoute)) (h : string) (s : RouteScope) (w p : string) : Prop :=
  (w, route_at h p s) ∈ ds.

Definition best_prefix ds h s path p : Prop :=
  (∃ w, declares ds h s w p) ∧ prefix_matches p path = true
  ∧ ∀ w' p', declares ds h s w' p' → prefix_matches p' path = true →
      (String.length p' ≤ String.length p)%nat.

Definition answers ds (host path : string) (s : RouteScope) (can_serve : string → bool)
    (a : result string RouteError) : Prop :=
  let h := to_ascii_lowercase (split_host_port host).1 in
  match a with
  | Ok w => ∃ p, best_prefix ds h s path p ∧ declares ds h s w p ∧ can_serve w = true
  | Err (NoWorkloadForPath h' path') =>
      h' = h ∧ path' = path ∧ (∃ w p, declares ds h s w p)
      ∧ ∀ w p, declares ds h s w p → prefix_matches p path = false
  | Err (NoWorkloadForHost h') =>
      h' = h ∧ ((∀ w p, ¬ declares ds h s w p)
                ∨ ∃ p, best_prefix ds h s path p ∧ ∀ w, declares ds h s w p → can_serve w = false)
  | Err _ => False
  end.

(** The buckets a selection looks at. *)
Definition visible (s : RouteScope) (l : list PathBucket) : list PathBucket :=
  filter (λ b, scope b = s ∧ workloads b ≠ ∅) l.

Lemma visible_declares rt d h l s w p :
  implements rt d → table_of (hosts rt) h = Some l →
  declares (entries d) h s w p ↔ ∃ b, b ∈ visible s l ∧ prefix b = p ∧ w ∈ workloads b.
Proof.
  intros HI Hl. unfold declares. rewrite <-(im_entries _ _ HI), Hl. unfold visible. split.
  - intros (? & [= <-] & b & Hb & [= <- <-] & Hw). exists b. split; [|done].
    apply list_elem_of_filter. split; [set_solver|done].
  - intros (b & [[<- _] Hb]%list_elem_of_filter & <- & Hw). exists l. split; [done|]. by exists b.
Qed.

Lemma no_table_declares rt d h s w p :
  implements rt d → table_of (hosts rt) h = None → ¬ declares (entries d) h s w p.
Proof.
  intros HI Hl. unfold declares. rewrite <-(im_entries _ _ HI), Hl. by intros (? & ? & _).
Qed.

Lemma visible_full s l b : b ∈ visible s l → ∃ w, w ∈ workloads b.
Proof. intros [[_ Hb] _]%list_elem_of_filter. by apply set_choose_L in Hb. Qed.

Lemma first_match_is_best rt d h l s path b :
  implements rt d → table_of (hosts rt) h = Some l →
  find_map (λ b, if prefix_matches (prefix b) path then Some b else None) (visible s l) = Some b →
  b ∈ visible s l ∧ best_prefix (entries d) h s path (prefix b)
  ∧ ∀ w, declares (entries d) h s w (prefix b) ↔ w ∈ workloads b.
Proof.
  intros HI Hl Hf. destruct (find_if_Some (λ b, prefix_matches (prefix b) path) _ _ Hf) as (Hm & l1 & l2 & Hv & Hn).
  assert (b ∈ visible s l) as Hb by (rewrite Hv; set_solver).
  destruct (im_good _ _ HI h l Hl) as [_ Ho Hd _].
  assert (in_order (visible s l)) as Hov.
  { eapply StronglySorted_sublist; [apply sublist_map, sublist_filter|exact Ho]. }
  split; [done|]. split; [split; [|split; [done|]]|].
  - destruct (visible_full s l b Hb) as [w Hw]. exists w. rewrite (visible_declares rt) by done. by exists b.
  - intros w' p' Hp' Hm'. apply (visible_declares rt d h l s w' p' HI Hl) in Hp' as (c & Hc & <- & _).
    rewrite Hv in Hc. apply elem_of_app in Hc as [Hc|[->|Hc]%elem_of_cons]; [| done |].
    + rewrite Forall_forall in Hn. by rewrite (Hn c Hc) in Hm'.
    + unfold in_order in Hov. rewrite Hv, fmap_app in Hov.
      apply StronglySorted_app_1_r in Hov. csimpl in Hov. inversion_clear Hov as [|? ? _ Hall].
      rewrite Forall_forall in Hall. apply bucket_le_length, Hall. by apply list_elem_of_fmap_2.
  - intros w. rewrite (visible_declares rt) by done. split; [|by exists b].
    intros (c & Hc & Hp & Hw). replace b with c; [done|].
    apply list_elem_of_filter in Hb as [[Hbs _] Hb], Hc as [[Hcs _] Hc].
    apply list_elem_of_split in Hb as (k1 & k2 & ->).
    apply (key_once k1 b k2); [done|done|]. unfold route_key. congruence.
Qed.

Lemma select_answers rt d host path s can_serve start :
  implements rt d →
  answers (entries d) host path s can_serve (select_serving_workload (hosts rt) host path s can_serve start).
Proof.
  intros HI. unfold select_serving_workload. rewrite fold_case_lower.
  set (h := to_ascii_lowercase (split_host_port host).1). fold (table_of (hosts rt) h).
  destruct (table_of (hosts rt) h) as [l|] eqn:Hl; cycle 1.
  { split; [done|]. left. intros w p. by eapply no_table_declares. }
  fold (visible s l). destruct (visible s l) as [|b0 v] eqn:Hv.
  { split; [done|]. left. intros w p Hd. apply (visible_declares rt d h l s w p HI Hl) in Hd as (b & Hb & _).
    rewrite Hv in Hb. set_solver. }
  rewrite <-Hv. destruct (find_map _ (visible s l)) as [b|] eqn:Hf.
  - destruct (first_match_is_best rt d h l s path b HI Hl Hf) as (Hb & Hbest & Hws).
    destruct (find_map _ (rotate start (replicas (workloads b)))) as [w|] eqn:Hw; simpl.
    + apply (find_if_Some can_serve) in Hw as (Hs & l1 & l2 & Hr & _). exists (prefix b).
      split; [done|]. split; [|done]. apply Hws. rewrite <-(rotate_elem start), Hr. set_solver.
    + split; [done|]. right. exists (prefix b). split; [done|]. intros w Hw'.
      apply find_if_None in Hw. rewrite Forall_forall in Hw. apply Hw. apply rotate_elem. by apply Hws.
  - apply (find_if_None (λ b, prefix_matches (prefix b) path)) in Hf. rewrite Forall_forall in Hf.
    split_and!; [done|done|..].
    + destruct (visible_full s l b0) as [w Hw]; [rewrite Hv; left|]. exists w, (prefix b0).
      apply (visible_declares rt d h l s); [done|done|]. exists b0. rewrite Hv. split; [left|done].
    + intros w p Hd. apply (visible_declares rt d h l s w p HI Hl) in Hd as (b & Hb & <- & _). by apply Hf.
Qed.

(** C20: A request is routed as the workloads declared.  After any history of workloads
    resolved, services started and workloads unbound, the answer to a hostname (in
    any case, with or without a port), a path and a scope is a workload that
    declared the longest prefix covering the path and can serve; or the error that
    says which of these there was none of. *)
Theorem requests_are_routed_as_declared es host path s can_serve start :
  answers (entries (declared_run es)) host path s can_serve
    (select_serving_workload (hosts (router_run es)) host path s can_serve start).
Proof. apply select_answers, router_run_implements. Qed.

Lemma best_prefix_unique ds h s path p q :
  best_prefix ds h s path p → best_prefix ds h s path q → p = q.
Proof.
  intros ((w & Hw) & Hp & Hlp) ((w' & Hw') & Hq & Hlq).
  assert (String.length p = String.length q) as Hlen.
  { specialize (Hlp _ _ Hw' Hq). specialize (Hlq _ _ Hw Hp). lia. }
  unfold prefix_matches, is_catch_all in *.
  destruct (is_empty p) eqn:Ep; [apply is_empty_spec in Ep; subst p; by destruct q|].
  destruct (is_empty q) eqn:Eq; [apply is_empty_spec in Eq; subst q; by destruct p|].
  destruct (strip_prefix p path) as [r|] eqn:Sp; [|done].
  destruct (strip_prefix q path) as [r'|] eqn:Sq; [|done].
  apply strip_prefix_Some in Sp as ->. apply strip_prefix_Some in Sq.
  by eapply str_app_inj_length in Sq as [-> _].
Qed.

Lemma rotate_at (l : list string) i w : l !! i = Some w → ∃ k, rotate i l = w :: k.
Proof. intros Hi. unfold rotate. rewrite (drop_S l w i Hi). by eexists. Qed.

(** No ready replica is left out: each workload that declared the best prefix and
    can serve is the answer for some value of the random number, which ranges over
    as many values as there are replicas. *)
Theorem every_ready_replica_is_chosen es host path s can_serve p (ws : gset string) w :
  let ds := entries (declared_run es) in
  let h := to_ascii_lowercase (split_host_port host).1 in
  best_prefix ds h s path p → (∀ w', w' ∈ ws ↔ declares ds h s w' p) → w ∈ ws → can_serve w = true →
  ∃ start, (start < size ws)%nat
    ∧ select_serving_workload (hosts (router_run es)) host path s can_serve start = Ok w.
Proof.
  intros ds h Hbest Hws Hw Hs. pose proof (router_run_implements es) as HI.
  unfold select_serving_workload. rewrite fold_case_lower. fold h. fold (table_of (hosts (router_run es)) h).
  destruct (table_of (hosts (router_run es)) h) as [l|] eqn:Hl; cycle 1.
  { exfalso. eapply no_table_declares; [done|done|]. by apply Hws. }
  fold (visible s l). assert (declares ds h s w p) as Hd by by apply Hws.
  pose proof (visible_declares _ _ h l s w p HI Hl) as [(b & Hb & Hp & Hbw) _]; [done|].
  destruct (visible s l) as [|b0 v] eqn:Hv; [set_solver|]. rewrite <-Hv in *.
  destruct (find_map _ (visible s l)) as [b'|] eqn:Hf; cycle 1.
  { apply (find_if_None (λ b, prefix_matches (prefix b) path)) in Hf. rewrite Forall_forall in Hf.
    specialize (Hf b Hb). destruct Hbest as (_ & Hm & _). congruence. }
  destruct (first_match_is_best _ _ h l s path b' HI Hl Hf) as (_ & Hbest' & Hws').
  assert (prefix b' = p) as Hpb by (by eapply best_prefix_unique). rewrite Hpb in Hws'.
  assert (workloads b' = ws) as ->.
  { apply set_eq. intros w'. by rewrite <-Hws', Hws. }
  assert (w ∈ replicas ws) as [i Hi]%list_elem_of_lookup by by apply replicas_elem.
  exists i. split.
  - apply lookup_lt_Some in Hi. unfold replicas in Hi. by rewrite (merge_sort_Permutation ord_le) in Hi.
  - destruct (rotate_at _ _ _ Hi) as [k ->]. simpl. by rewrite Hs.
Qed.

(** ** Unbinding *)

(** Whenever a workload registers again, it registers what it had registered. *)
Fixpoint steady (d : Declared) (es : list RouterEvent) : Prop :=
  match es with
  | [] => True
  | e :: es =>
      match routes_of_event e with
      | Some (w, routes) => ∀ old, last_declared d !! w = Some old → old ⊆ routes
      | None => True
      end ∧ steady (declared_step d e) es
  end.

Definition accounted (d : Declared) : Prop :=
  ∀ w r, (w, r) ∈ entries d → ∃ routes, last_declared d !! w = Some routes ∧ r ∈ routes.

Lemma steady_accounted es : ∀ d, accounted d → steady d es → accounted (foldl declared_step d es).
Proof.
  induction es as [|e es IH]; intros d Hd Hs; [done|]. destruct Hs as [He Hs]. simpl. apply IH; [|done].
  assert (∀ w routes, (∀ old, last_declared d !! w = Some old → old ⊆ routes) →
            accounted (declare d w routes)) as Hdecl.
  { intros w routes Hold w' r [(r' & [= -> ->] & Hr)%list_elem_of_fmap|Hr]%elem_of_app; simpl.
    - exists routes. by rewrite lookup_insert_eq.
    - destruct (Hd w' r Hr) as (rs & Hrs & Hin). destruct (decide (w' = w)) as [->|Hne].
      + exists routes. rewrite lookup_insert_eq. split; [done|]. by apply (Hold rs).
      + exists rs. by rewrite lookup_insert_ne. }
  unfold declared_step. destruct e as [w ifs|w routes|w].
  1-2: destruct (routes_of_event _) as [[w' rs]|]; [by apply Hdecl|done].
  unfold withdraw. destruct (last_declared d !! w) as [rs|] eqn:E; [|done].
  intros w' r [Hn Hr]%list_elem_of_filter. destruct (Hd w' r Hr) as (rs' & Hrs & Hin). simpl in *.
  exists rs'. split; [|done]. rewrite lookup_delete_ne; [done|]. intros ->. apply Hn. naive_solver.
Qed.

(** Unbinding leaves nothing behind.  If workloads that register again register
    what they had before, then no request reaches a workload that is unbound, and
    when every workload is unbound the table is as it was at the start. *)
Theorem unbound_workloads_leave_nothing es :
  steady {| entries := []; last_declared := ∅ |} es →
  let rt := router_run es in
  (∀ w host path s can_serve start, workload_to_host rt !! w = None →
     select_serving_workload (hosts rt) host path s can_serve start ≠ Ok w)
  ∧ (workload_to_host rt = ∅ → rt = default_router).
Proof.
  intros Hs rt. pose proof (router_run_implements es) as HI. fold rt in HI.
  assert (accounted (declared_run es)) as Hacc.
  { apply steady_accounted; [|done]. intros w r Hr. simpl in Hr. set_solver. }
  split.
  - intros w host path s can_serve start Hw Hsel.
    pose proof (select_answers rt _ host path s can_serve start HI) as Ha. rewrite Hsel in Ha.
    destruct Ha as (p & _ & Hd & _). destruct (Hacc _ _ Hd) as (rs & Hrs & _).
    rewrite (im_last _ _ HI) in Hw. congruence.
  - intros Hempty. assert (hosts rt = hosts default_router) as Hh; cycle 1.
    { destruct rt as [hs ws]. simpl in *. by rewrite Hh, Hempty. }
    change (hosts default_router) with (replicate (A:=HostBuckets) ROUTE_SHARDS ∅).
    apply list_eq_same_length with (n := ROUTE_SHARDS); [apply length_replicate|apply HI|].
    intros i t t' Hi Ht Ht'. apply lookup_replicate in Ht' as [-> _]. apply map_eq. intros h.
    rewrite lookup_empty. destruct (t !! h) as [l|] eqn:El; [|done]. exfalso.
    assert (shard_index h = i) as Hsi by (eapply (im_placed _ _ HI); [done|by eexists]).
    assert (table_of (hosts rt) h = Some l) as Hl by (unfold table_of, shard; by rewrite Hsi, Ht).
    destruct (im_good _ _ HI h l Hl) as [G1 _ _ G4]. destruct l as [|b l]; [done|].
    apply Forall_cons in G4 as [Hb _]. apply set_choose_L in Hb as [w Hw].
    assert (holds_in (table_of (hosts rt) h) w (prefix b) (scope b)) as Hhold.
    { exists (b :: l). split; [done|]. exists b. split; [left|done]. }
    apply (im_entries _ _ HI) in Hhold. destruct (Hacc _ _ Hhold) as (rs & Hrs & _).
    rewrite <-(im_last _ _ HI), Hempty in Hrs. by rewrite lookup_empty in Hrs.
Qed.

(** ** Updates in progress *)

Lemma insert_route_sorted x l :
  StronglySorted le (fst <$> l) → StronglySorted le (fst <$> insert_route x l).
Proof.
  induction l as [|y l IH]; intros Hl; [by repeat constructor|]. csimpl in Hl.
  inversion_clear Hl as [|? ? Hl' Hy]. cbn [insert_route]. destruct (Nat.leb_spec x.1 y.1) as [Hle|Hgt]; csimpl.
  - constructor; [by constructor|]. constructor; [done|]. eapply Forall_impl; [exact Hy|]. simpl. lia.
  - constructor; [by apply IH|]. rewrite (Permutation_map fst (insert_route_perm x l)).
    constructor; [lia|done].
Qed.

Lemma sort_routes_sorted l : StronglySorted le (fst <$> sort_routes l).
Proof. induction l as [|x l IH]; [constructor|]. by apply insert_route_sorted. Qed.

Lemma chunks_indexes l i : i ∈ fst <$> chunks l → i ∈ fst <$> l.
Proof.
  revert i. induction l as [|[j r] l IH]; intros i; [done|]. cbn [chunks]. csimpl.
  destruct (chunks l) as [|[k rs] gs]; csimpl in *; [set_solver|].
  destruct (Nat.eqb_spec j k) as [->|]; csimpl; set_solver.
Qed.

Lemma chunks_once l : StronglySorted le (fst <$> l) → NoDup (fst <$> chunks l).
Proof.
  induction l as [|[i r] l IH]; intros Hl; [constructor|]. csimpl in Hl. inversion_clear Hl as [|? ? Hl' Hi].
  specialize (IH Hl'). cbn [chunks]. pose proof (chunks_indexes l) as Hc.
  destruct (chunks l) as [|[j rs] gs] eqn:Eg; csimpl in *; [apply NoDup_singleton|].
  destruct (Nat.eqb_spec i j) as [->|Hne]; csimpl; [done|]. constructor; [|done].
  intros [->|Hin]%elem_of_cons; [done|].
  (* [j] heads the rest, which is sorted, and [i] is below all of it *)
  destruct l as [|[j' r'] l]; [done|]. assert (j' = j) as ->.
  { cbn [chunks] in Eg. destruct (chunks l) as [|[k ks] ?]; [by injection Eg|].
    destruct (Nat.eqb_spec j' k) as [->|]; by injection Eg. }
  csimpl in Hi. apply Forall_cons in Hi as [Hij _]. assert (i ∈ fst <$> ((j, r') :: l)) as Hil by (apply Hc; by right).
  csimpl in Hil. apply elem_of_cons in Hil as [->|Hil]; [done|]. csimpl in Hl'.
  inversion_clear Hl' as [|? ? _ Hj]. rewrite Forall_forall in Hj. specialize (Hj i Hil). lia.
Qed.

Lemma of_host_no_group gs h :
  Forall of_shard gs → shard_index h ∉ fst <$> gs → of_host h (routes_in gs) = [].
Proof.
  induction 1 as [|g gs Hg Hgs IH]; intros Hn; [done|]. unfold routes_in. csimpl. csimpl in Hn.
  rewrite filter_app, (of_host_elsewhere g) by set_solver. apply IH. set_solver.
Qed.

Lemma select_reads_table hs hs' host path s can_serve start :
  let h := to_ascii_lowercase (split_host_port host).1 in
  table_of hs h = table_of hs' h →
  select_serving_workload hs host path s can_serve start
  = select_serving_workload hs' host path s can_serve start.
Proof.
  intros h Ht. unfold select_serving_workload. rewrite fold_case_lower. fold h.
  fold (table_of hs h). fold (table_of hs' h). by rewrite Ht.
Qed.

(** A request never sees a hostname half edited.  Registering or unregistering many
    routes publishes one shard after another; a request that comes in between is
    answered as it would have been before the update or as it will be after it. *)
Theorem request_sees_before_or_after es w routes (register : bool) n host path s can_serve start :
  let before := hosts (router_run es) in
  let edit := if register then add_replica w else remove_replica w in
  let during := foldl (store_group edit) before (take n (groups_of routes)) in
  let after := edit_shards before routes edit in
  let ask hs := select_serving_workload hs host path s can_serve start in
  ask during = ask before ∨ ask during = ask after.
Proof.
  intros before edit during after ask.
  assert (∃ e, acts edit e) as [e He].
  { unfold edit. destruct register; eexists; [apply add_replica_acts|apply remove_replica_acts]. }
  assert (length before = ROUTE_SHARDS) as Hlen by apply router_run_implements.
  set (h := to_ascii_lowercase (split_host_port host).1).
  pose proof (groups_of_shard routes) as Hgs. set (gs := groups_of routes) in *.
  assert (NoDup (fst <$> gs)) as Hn by (apply chunks_once, sort_routes_sorted).
  rewrite <-(take_drop n gs) in Hgs, Hn. apply Forall_app in Hgs as [Ht Hd].
  assert (table_of during h = foldl e (table_of before h) (of_host h (routes_in (take n gs)))) as Hdur
    by (by apply store_groups_table).
  assert (table_of after h = foldl e (table_of before h) (of_host h (routes_in gs))) as Haft.
  { unfold after, edit_shards. fold gs. apply store_groups_table; [done|apply groups_of_shard|done]. }
  rewrite fmap_app in Hn. apply NoDup_app in Hn as (_ & Hx & _).
  destruct (decide (shard_index h ∈ fst <$> take n gs)) as [Hin|Hout].
  - right. apply select_reads_table. fold h. rewrite Hdur, Haft.
    rewrite <-(take_drop n gs) at 2. unfold routes_in at 2. rewrite fmap_app, join_app, filter_app.
    fold (routes_in (take n gs)) (routes_in (drop n gs)).
    rewrite (of_host_no_group (drop n gs)), app_nil_r; [done|done|]. by apply Hx.
  - left. apply select_reads_table. fold h. by rewrite Hdur, (of_host_no_group (take n gs)).
Qed.

(** ** Who reaches what *)

Lemma declared_origin es w r :
  (w, r) ∈ entries (declared_run es) →
  ∃ e routes, e ∈ es ∧ routes_of_event e = Some (w, routes) ∧ r ∈ routes.
Proof.
  unfold declared_run. set (P := λ d : Declared, ∀ w r, (w, r) ∈ entries d →
    ∃ e routes, e ∈ es ∧ routes_of_event e = Some (w, routes) ∧ r ∈ routes).
  assert (∀ es' d, es' ⊆ es → P d → P (foldl declared_step d es')) as Hall; cycle 1.
  { intros Hin. refine (Hall es _ _ _ w r Hin); [done|]. intros ? ? Hr. simpl in Hr. set_solver. }
  induction es' as [|e es' IH]; intros d Hsub Hd; [done|]. simpl. apply IH; [set_solver|].
  assert (∀ w routes, routes_of_event e = Some (w, routes) → P (declare d w routes)) as Hdecl.
  { intros w' routes He w'' r' [(x & [= -> ->] & Hx)%list_elem_of_fmap|Hr]%elem_of_app; [|by apply Hd].
    exists e, routes. split; [set_solver|done]. }
  unfold declared_step. destruct e as [w' ifs|w' rs|w'].
  1-2: destruct (routes_of_event _) as [[w1 rs1]|] eqn:E; [by apply Hdecl|done].
  unfold withdraw. destruct (last_declared d !! w') as [rs|]; [|done].
  intros w'' r'' [_ Hr]%list_elem_of_filter. by apply Hd.
Qed.

Lemma valid_hostname_chars h : is_valid_hostname h = true →
  str_all (λ c, (is_ascii_alphanumeric c || Ascii.eqb c "-") || Ascii.eqb c ".") h = true.
Proof.
  unfold is_valid_hostname. intros Hh. bools. apply split_str_all. intros l Hl.
  match goal with H : forallb _ _ = true |- _ => rewrite forallb_elem in H; specialize (H l Hl) end.
  unfold valid_label in *. by bools.
Qed.

Lemma valid_hostname_split h : is_valid_hostname h = true → split_host_port h = (h, None).
Proof.
  intros Hh%valid_hostname_chars. unfold split_host_port.
  assert (lacks ":" h = true) as Hc by (by apply (str_all_lacks _ _ _ Hh)).
  assert (lacks "[" h = true) as Hb by (by apply (str_all_lacks _ _ _ Hh)).
  destruct (strip_prefix "[" h) as [r|] eqn:E.
  { apply strip_prefix_Some in E as ->. rewrite str_app_cons in Hb. unfold lacks in Hb. simpl in Hb. by bools. }
  apply rsplit_once_None in Hc. by rewrite Hc.
Qed.

(** The names an interface publishes to the network. *)
Definition published (i : WitInterface) : list string :=
  (match config i !! "host" with Some primary => [primary] | None => [] end
   ++ match config i !! "host-aliases" with Some aliases => entries_of aliases | None => [] end)%list.

Lemma alias_published i r : r ∈ ingress_aliases i →
  r_scope r = Ingress ∧ ∃ name, name ∈ published i ∧ is_valid_hostname name = true
    ∧ r = ingress name.
Proof.
  unfold ingress_aliases, published. destruct (config i !! "host-aliases") as [a|]; [|set_solver].
  intros (name & Hn & Hr)%list_elem_of_omap. destruct (is_valid_hostname name) eqn:Hv; [|done].
  injection Hr as <-. split; [done|]. exists name. set_solver.
Qed.

(** What a local route is: a valid hostname, in lower case, and a local scope. *)
Lemma parse_local_route_Some e r : parse_local_route e = Some r →
  r_scope r = Local ∧ ∃ host path, is_valid_hostname host = true ∧ r = local host path.
Proof.
  unfold parse_local_route. destruct (is_empty (trim e)); [done|].
  destruct (is_some (url_parse (trim e))); [done|]. destruct (starts_with "/" (trim e)); [done|].
  destruct (url_parse ("http://" +:+ trim e)) as [u|]; [|done]. simpl.
  destruct (is_some (url_port u)); [done|]. destruct (_ || _); [done|].
  destruct (url_host_str u) as [h|]; [|done]. simpl. destruct (is_valid_hostname h) eqn:Hv; [|done].
  intros [= <-]. split; [done|]. by exists h, (url_path u).
Qed.

Lemma local_routes_local i rs r : local_routes i = Ok rs → r ∈ rs →
  ∃ text e, config i !! "localRoute" = Some text ∧ e ∈ entries_of text
    ∧ parse_local_route e = Some r ∧ r_scope r = Local.
Proof.
  unfold local_routes. destruct (config i !! "localRoute") as [text|]; [|intros [= <-]; set_solver].
  intros Hrs Hr. exists text. enough (∃ e, e ∈ entries_of text ∧ parse_local_route e = Some r) as (e & He & Hp).
  { exists e. split_and!; [done..|]. by apply (parse_local_route_Some e). }
  revert rs Hrs Hr. generalize (entries_of text) as es. induction es as [|e es IH]; intros rs; simpl.
  { intros [= <-]. set_solver. }
  destruct (parse_local_route e) as [r'|] eqn:He; [|done]. destruct (parse_local_routes es) as [rs'|]; [|done].
  intros [= <-] [->|Hr]%elem_of_cons; [exists e; set_solver|]. destruct (IH rs' eq_refl Hr) as (e' & ? & ?).
  exists e'. set_solver.
Qed.

(** The route behind an answer to the network, and behind one to a guest. *)
Lemma incoming_route es req start w :
  route_incoming_request (router_run es) req start = Ok w →
  ∃ host r, request_host req = Some host ∧ r_scope r = Ingress
    ∧ r_host r = to_ascii_lowercase (split_host_port host).1
    ∧ prefix_matches (r_prefix r) (uri_path (target req)) = true
    ∧ ∃ e routes, e ∈ es ∧ routes_of_event e = Some (w, routes) ∧ r ∈ routes.
Proof.
  unfold route_incoming_request. destruct (request_host req) as [host|]; [|done]. intros Hsel.
  unfold select_workload in Hsel.
  pose proof (select_answers _ _ host (uri_path (target req)) Ingress (λ _, true) start
    (router_run_implements es)) as Ha.
  rewrite Hsel in Ha. destruct Ha as (p & (_ & Hm & _) & Hd & _).
  exists host, (route_at (to_ascii_lowercase (split_host_port host).1) p Ingress). split_and!; try done.
  by apply declared_origin.
Qed.

Lemma local_egress_route es uri can_serve start w :
  route_local_egress (router_run es) uri can_serve start = Some w →
  uri_scheme_str uri ∈ [None; Some "http"; Some "https"]
  ∧ (∀ port, uri_port_u16 uri = Some port → port = default_port_for_scheme (uri_scheme_str uri))
  ∧ can_serve w = true
  ∧ ∃ host r, uri_host uri = Some host ∧ r_scope r = Local
    ∧ r_host r = to_ascii_lowercase (split_host_port host).1
    ∧ prefix_matches (r_prefix r) (uri_path uri) = true
    ∧ ∃ e routes, e ∈ es ∧ routes_of_event e = Some (w, routes) ∧ r ∈ routes.
Proof.
  unfold route_local_egress. case_bool_decide as Hs; [|done]. simpl.
  destruct (is_some_and _ _) eqn:Hport; [done|]. destruct (uri_host uri) as [host|]; [|done]. simpl.
  destruct (select_serving_workload _ host _ _ _ _) as [w'|] eqn:Hsel; [|done]. intros [= ->].
  pose proof (select_answers _ _ host (uri_path uri) Local can_serve start (router_run_implements es)) as Ha.
  rewrite Hsel in Ha. destruct Ha as (p & (_ & Hm & _) & Hd & Hcs). split; [done|]. split.
  { intros port Hp. rewrite Hp in Hport. simpl in Hport. apply negb_false_iff in Hport. by apply Z.eqb_eq. }
  split; [done|].
  exists host, (route_at (to_ascii_lowercase (split_host_port host).1) p Local). split_and!; try done.
  by apply declared_origin.
Qed.

(** What a component declares of each scope. *)
Lemma resolved_route w ifs w' routes r :
  routes_of_event (Resolved w ifs) = Some (w', routes) → r ∈ routes →
  w' = w ∧ ∃ i, http_interface ifs = Some i
    ∧ match r_scope r with
      | Ingress => ∃ name, name ∈ published i ∧ is_valid_hostname name = true
                     ∧ r_host r = to_ascii_lowercase name
      | Local => ∃ text e, config i !! "localRoute" = Some text ∧ e ∈ entries_of text
                   ∧ parse_local_route e = Some r
      end.
Proof.
  simpl. destruct (http_interface ifs) as [i|]; [|done]. simpl.
  destruct (config i !! "host") as [primary|] eqn:Hp; [|done]. simpl.
  destruct (is_valid_hostname primary) eqn:Hv; [|done].
  destruct (local_routes i) as [locals|] eqn:Hl; [|done]. intros [= -> <-] Hin. split; [done|].
  exists i. split; [done|]. apply elem_of_cons in Hin as [->|[Hin|Hin]%elem_of_app].
  - exists primary. simpl. rewrite valid_hostname_split by done. split_and!; try done.
    unfold published. rewrite Hp. set_solver.
  - apply alias_published in Hin as (-> & name & Hn & Hvn & ->). exists name. simpl.
    by rewrite valid_hostname_split.
  - destruct (local_routes_local i locals _ Hl Hin) as (text & e & Ht & He & Hpe & ->). by exists text, e.
Qed.

(** The two scopes are apart.  What a component is given from the network it named
    in its [host] or [host-aliases]; what it is given from a guest on the same host,
    which is HTTP or HTTPS at the scheme's own port, it named in a [localRoute]; and
    in neither case is the other enough. *)
Theorem scopes_are_apart es w :
  (∀ routes, ServiceResolved w routes ∉ es) →
  (∀ req start, route_incoming_request (router_run es) req start = Ok w →
     ∃ host ifs i name, request_host req = Some host ∧ Resolved w ifs ∈ es ∧ http_interface ifs = Some i
       ∧ name ∈ published i ∧ is_valid_hostname name = true
       ∧ to_ascii_lowercase name = to_ascii_lowercase (split_host_port host).1)
  ∧ (∀ uri can_serve start, route_local_egress (router_run es) uri can_serve start = Some w →
       uri_scheme_str uri ∈ [None; Some "http"; Some "https"]
       ∧ (∀ port, uri_port_u16 uri = Some port → port = default_port_for_scheme (uri_scheme_str uri))
       ∧ ∃ host ifs i text e r, uri_host uri = Some host ∧ Resolved w ifs ∈ es ∧ http_interface ifs = Some i
         ∧ config i !! "localRoute" = Some text ∧ e ∈ entries_of text ∧ parse_local_route e = Some r
         ∧ r_host r = to_ascii_lowercase (split_host_port host).1
         ∧ prefix_matches (r_prefix r) (uri_path uri) = true).
Proof.
  intros Hno. assert (∀ e routes, e ∈ es → routes_of_event e = Some (w, routes) →
    ∃ ifs, e = Resolved w ifs) as Hres.
  { intros e routes He Hr. destruct e as [w' ifs|w' rs|w']; [|exfalso|done].
    - exists ifs. simpl in Hr. destruct (http_interface ifs) as [i|]; [|done]. simpl in Hr.
      destruct (config i !! "host"); [|done]. simpl in Hr. destruct (is_valid_hostname _); [|done].
      destruct (local_routes i); [|done]. by injection Hr as -> _.
    - destruct rs; [done|]. injection Hr as -> _. by eapply Hno. }
  split.
  - intros req start Hr. destruct (incoming_route _ _ _ _ Hr) as (host & r & Hh & Hs & Hrh & _ & e & routes & He & Hev & Hin).
    destruct (Hres e routes He Hev) as [ifs ->]. destruct (resolved_route w ifs w routes r Hev Hin) as (_ & i & Hi & Hm).
    rewrite Hs in Hm. destruct Hm as (name & Hn & Hv & Hl). exists host, ifs, i, name. split_and!; try done. congruence.
  - intros uri can_serve start Hr.
    destruct (local_egress_route _ _ _ _ _ Hr) as (H1 & H2 & _ & host & r & Hh & Hs & Hrh & Hm & e & routes & He & Hev & Hin).
    split; [done|]. split; [done|]. destruct (Hres e routes He Hev) as [ifs ->].
    destruct (resolved_route w ifs w routes r Hev Hin) as (_ & i & Hi & Hd). rewrite Hs in Hd.
    destruct Hd as (text & e & ? & ? & ?). by exists host, ifs, i, text, e, r.
Qed.
End histories.

(** ** Path prefixes are prefixes of segments *)

Lemma split_app_sep d s t : split d (s +:+ String d t) = (split d s ++ split d t)%list.
Proof.
  induction s as [|c s IH].
  - rewrite str_app_nil. simpl. by rewrite Ascii.eqb_refl.
  - rewrite str_app_cons. simpl. rewrite IH. destruct (Ascii.eqb c d); [done|].
    destruct (split d s) as [|x l] eqn:E; [|done]. by apply split_nonempty in E.
Qed.

(** A prefix covers a path segment by segment: [/fn] covers [/fn] and [/fn/x] and
    not [/fnord]; the empty prefix covers everything. *)
Theorem prefix_matches_segments p path :
  prefix_matches p path = true ↔ p = "" ∨ split "/" p `prefix_of` split "/" path.
Proof.
  unfold prefix_matches, is_catch_all. destruct (is_empty p) eqn:Ep.
  { apply is_empty_spec in Ep as ->. split; [by left|done]. }
  assert (p ≠ "") as Hp by (intros ->; done). split.
  - destruct (strip_prefix p path) as [rest|] eqn:Hs; [|done]. apply strip_prefix_Some in Hs as ->.
    intros [->%is_empty_spec|[r ->]%starts_with_spec]%orb_true_iff; right.
    + by rewrite str_app_nil_r.
    + rewrite str_app_cons, str_app_nil, split_app_sep. by apply prefix_app_r.
  - intros [->|[k Hk]]; [done|].
    assert (path = if decide (k = []) then p else p +:+ "/" +:+ join "/" k) as ->.
    { rewrite <-(join_split "/" path), Hk. case_decide as Hd.
      - subst k. by rewrite app_nil_r, join_split.
      - rewrite join_two by (done || apply split_nonempty). by rewrite join_split. }
    case_decide.
    + by rewrite <-(str_app_nil_r p) at 2; rewrite strip_prefix_app.
    + rewrite strip_prefix_app. apply orb_true_iff. right. apply starts_with_spec. by eexists.
Qed.

(** ** Concrete inputs *)

Definition handler (cfg : gmap string string) : WitInterface :=
  {| namespace := "wasi"; package := "http"; interfaces := {["handler"]}; version := None;
     config := cfg; name := None |}.
Definition two_replicas : list RouterEvent :=
  [Resolved "a" [handler {["host" := "Shop.example.com"]}]; Resolved "b" [handler {["host" := "shop.example.com"]}]].

Lemma two_replicas_declare w p :
  declares (entries (declared_run two_replicas)) "shop.example.com" Ingress w p ↔ (w = "a" ∨ w = "b") ∧ p = "".
Proof.
  assert (entries (declared_run two_replicas)
          = [("b", route_at "shop.example.com" "" Ingress); ("a", route_at "shop.example.com" "" Ingress)]) as E
    by (vm_compute; reflexivity).
  unfold declares. rewrite E, !elem_of_cons, elem_of_nil. split.
  - intros [[= -> ->]|[[= -> ->]|[]]]; auto.
  - intros [[-> | ->] ->]; auto.
Qed.

Lemma every_ready_replica_is_chosen_witness :
  ∃ start, (start < size ({["a"; "b"]} : gset string))%nat
    ∧ select_serving_workload (hosts (router_run two_replicas)) "SHOP.example.com:8080" "/x" Ingress
        (λ w, bool_decide (w = "b")) start = Ok "b".
Proof.
  apply (every_ready_replica_is_chosen two_replicas "SHOP.example.com:8080" "/x" Ingress
           (λ w, bool_decide (w = "b")) "" {["a"; "b"]} "b");
    change (to_ascii_lowercase (split_host_port "SHOP.example.com:8080").1) with "shop.example.com".
  - split_and!; [exists "a"; apply two_replicas_declare; auto|reflexivity|].
    intros w' p' [_ ->]%two_replicas_declare _. done.
  - intros w'. rewrite two_replicas_declare. set_solver.
  - set_solver.
  - reflexivity.
Defined.

(** Two workloads on one name, one of them replaced, and in the end none. *)
Definition come_and_go : list RouterEvent :=
  (two_replicas ++ [Resolved "a" [handler {["host" := "Shop.example.com"]}]; Unbound "a";
                    ServiceResolved "c" [local "cart.internal" "items/"]; Unbound "c"; Unbound "b"])%list.

Lemma unbound_workloads_leave_nothing_witness :
  steady {| entries := []; last_declared := ∅ |} come_and_go
  ∧ (∀ w host path s can_serve start, workload_to_host (router_run come_and_go) !! w = None →
       select_serving_workload (hosts (router_run come_and_go)) host path s can_serve start ≠ Ok w)
  ∧ (workload_to_host (router_run come_and_go) = ∅ → router_run come_and_go = default_router).
Proof.
  assert (steady {| entries := []; last_declared := ∅ |} come_and_go) as Hs.
  { vm_compute. repeat match goal with |- _ ∧ _ => split | |- True => exact I end;
      intros old Hold; first [discriminate Hold|injection Hold as <-; auto]. }
  split; [exact Hs|]. exact (unbound_workloads_leave_nothing come_and_go Hs).
Defined.

Lemma scopes_are_apart_witness :
  let es := [Resolved "shop" [handler {["host" := "shop.example.com"; "localRoute" := "cart.internal"]}]] in
  (∃ req, route_incoming_request (router_run es) req 0 = Ok "shop")
  ∧ (∃ uri, route_local_egress (router_run es) uri (λ _, true) 0 = Some "shop")
  ∧ (∀ req start, route_incoming_request (router_run es) req start = Ok "shop" →
       ∃ host ifs i name, request_host req = Some host ∧ Resolved "shop" ifs ∈ es ∧ http_interface ifs = Some i
         ∧ name ∈ published i ∧ is_valid_hostname name = true
         ∧ to_ascii_lowercase name = to_ascii_lowercase (split_host_port host).1).
Proof.
  intros es. assert (∀ routes, ServiceResolved "shop" routes ∉ es) as Hno.
  { intros routes [Hr|Hr%elem_of_nil]%elem_of_cons; [discriminate Hr|done]. }
  destruct (scopes_are_apart es "shop" Hno) as [H1 _]. split; [|split; [|exact H1]].
  - destruct (uri_parse "http://x") as [u|] eqn:E; [|discriminate E].
    exists {| host_header := Some "Shop.Example.com:80"; target := u |}. injection E as <-.
    vm_compute. reflexivity.
  - destruct (uri_parse "http://Cart.internal:80") as [u|] eqn:E; [|discriminate E].
    exists u. injection E as <-. vm_compute. reflexivity.
Defined.
