(* ===== verification/HttpIngress.v ===== *)
(** * The HTTP ingress

    The ingress of [host/http.rs]: the connections it holds and when it calls itself
    ready, the tables of what can serve a workload, requests from the network, and
    the outgoing requests of guests, some of which are dispatched to a workload on
    the same host.  Serving a request is wasmtime's and hyper's; what is modelled is
    whom a request is given to, and what a dispatched one holds for how long. *)

From Stdlib Require Import ZArith Lia Ascii.
From stdpp Require Import base list gmap strings option relations.
From S2P Require Import Prelude RustStr Net UriLib StoreLib Wit HttpRouter.
From S2P Require AllowedHosts.
Local Open Scope Z_scope.

(** ** The ceiling on connections *)

Definition READY_RECOVER_PERCENT : Z := 10.

(** [free]: the permits available; [offered] and [shed] count. *)
Record ConnectionLimit := {
  max : Z; free : Z; is_stopped : bool; has_headroom : bool; offered : Z; shed : Z;
}.
Implicit Types c : ConnectionLimit.

Definition new_limit (m : Z) : ConnectionLimit :=
  {| max := m; free := m; is_stopped := false; has_headroom := true; offered := 0; shed := 0 |}.

(** [max.clamp(1, MAX_PERMITS)] *)
Definition MAX_PERMITS : Z := 2305843009213693951.
Definition max_connections (m : Z) : Z := Z.max 1 (Z.min m MAX_PERMITS).

Definition accepting c : bool := negb (is_stopped c).

Definition take c : bool * ConnectionLimit :=
  if 0 <? free c then
    (true, {| max := max c; free := free c - 1; is_stopped := is_stopped c; has_headroom := has_headroom c;
              offered := offered c + 1; shed := shed c |})
  else
    (false, {| max := max c; free := free c; is_stopped := is_stopped c; has_headroom := has_headroom c;
               offered := offered c + 1; shed := shed c + 1 |}).

(** A connection's task ends and its permit goes back. *)
Definition give_back c : ConnectionLimit :=
  {| max := max c; free := free c + 1; is_stopped := is_stopped c; has_headroom := has_headroom c;
     offered := offered c; shed := shed c |}.

Definition stopped_accepting c : ConnectionLimit :=
  {| max := max c; free := free c; is_stopped := true; has_headroom := has_headroom c;
     offered := offered c; shed := shed c |}.

Definition recover c : Z := Z.min (Z.max (max c * READY_RECOVER_PERCENT / 100) 1) (max c).

Definition ready c : bool * ConnectionLimit :=
  if negb (accepting c) then (false, c)
  else
    let ready := if has_headroom c then 0 <? free c else recover c <=? free c in
    (ready, {| max := max c; free := free c; is_stopped := is_stopped c; has_headroom := ready;
               offered := offered c; shed := shed c |}).

Definition check_name c : string :=
  (if accepting c then "http_ingress_saturated" else "http_ingress_stopped")%string.
Definition unrecoverable c : bool := negb (accepting c).

(** [drained] returns: the loop has stopped and every permit can be had at once. *)
Definition drained c : bool := is_stopped c && (Z.min (max c) 4294967295 <=? free c).

(** ** A request dispatched on the host

    The upload of a locally dispatched request and its quota slot are shared by the
    sender's future, the guard that fails it, the body the callee reads, the task
    that drains a body the callee dropped, and the response. *)

Inductive LocalUpload := Open | Done | Closed.
Record LocalRequestInner := { slot : bool; upload : LocalUpload }.
Implicit Types q : LocalRequestInner.

(** What polling the guest's body gives: nothing yet, a frame, its end or an error. *)
Inductive Polled := Pending | Frame | End | Error | Terminated.

Definition new_local : LocalRequestInner := {| slot := true; upload := Open |}.

Definition fail q : LocalRequestInner :=
  {| slot := false; upload := match upload q with Open => Closed | u => u end |}.

Definition finish_upload q : LocalRequestInner := {| slot := slot q; upload := Done |}.

(** [at_end]: the guest's body says it has no more frames. *)
Definition needs_drain q (at_end : bool) : bool * LocalRequestInner :=
  match upload q with
  | Open => if at_end then (false, finish_upload q) else (true, q)
  | _ => (false, finish_upload q)
  end.

(** [polled]: what the guest's body gives if it is asked. *)
Definition poll_frame q (polled : Polled) : Polled * LocalRequestInner :=
  match upload q with
  | Done => (End, q)
  | Closed => (Terminated, finish_upload q)
  | Open => (polled, match polled with End | Error | Terminated => finish_upload q | _ => q end)
  end.

(** Who holds the request. *)
Record Holders := { sender : bool; settle : bool; callee : bool; drain : bool; response : bool }.
Record Dispatched := { request : LocalRequestInner; held_by : Holders; failed : bool }.
Implicit Types d : Dispatched.

Definition nobody (h : Holders) : bool :=
  negb (sender h || settle h || callee h || drain h || response h).

(** The quota slot is out while the request has it and somebody has the request. *)
Definition slot_out d : bool := slot (request d) && negb (nobody (held_by d)).

Definition dispatch : Dispatched :=
  {| request := new_local; failed := false;
     held_by := {| sender := true; settle := true; callee := true; drain := false; response := false |} |}.

Inductive DispatchStep :=
  | CalleeReads (p : Polled)
  | CalleeDrops (at_end has_runtime : bool)
  | DrainReads (p : Polled)
  | Answers
  | Fails
  | ResponseEnds.

Definition with_callee (h : Holders) (b : bool) (dr : bool) : Holders :=
  {| sender := sender h; settle := settle h; callee := b; drain := dr; response := response h |}.

(** A body that ended or failed is let go. *)
Definition over (p : Polled) : bool := match p with End | Error | Terminated => true | _ => false end.

Definition dispatch_step d (s : DispatchStep) : Dispatched :=
  let h := held_by d in
  match s with
  | CalleeReads p =>
      if callee h then
        let '(r, q) := poll_frame (request d) p in
        {| request := q; held_by := with_callee h (negb (over r)) (drain h); failed := failed d |}
      else d
  | CalleeDrops at_end has_runtime =>
      if callee h then
        let '(needs, q) := needs_drain (request d) at_end in
        if negb needs then {| request := q; held_by := with_callee h false (drain h); failed := failed d |}
        else if has_runtime then {| request := q; held_by := with_callee h false true; failed := failed d |}
        else {| request := finish_upload q; held_by := with_callee h false (drain h); failed := failed d |}
      else d
  | DrainReads p =>
      if drain h then
        let '(r, q) := poll_frame (request d) p in
        {| request := q; held_by := with_callee h (callee h) (negb (over r)); failed := failed d |}
      else d
  | Answers =>
      (* [settle.answered(true)], then the request moves into the response *)
      if settle h then
        {| request := request d; failed := failed d;
           held_by := {| sender := false; settle := false; callee := callee h; drain := drain h;
                         response := true |} |}
      else d
  | Fails =>
      (* an error, a timeout, or the future dropped: the guard fails the request *)
      if settle h then
        {| request := fail (request d); failed := true;
           held_by := {| sender := false; settle := false; callee := callee h; drain := drain h;
                         response := response h |} |}
      else d
  | ResponseEnds =>
      {| request := request d; failed := failed d;
         held_by := {| sender := sender h; settle := settle h; callee := callee h; drain := drain h;
                       response := false |} |}
  end.

(** ** The tables *)

(** A service's channel is open until its instance is gone. *)
Record Ingress := {
  router : DynamicRouter;
  workload_handles : gset string;
  service_handlers : gmap string bool;
  messaging_handlers : gset string;
  local_routing : bool;
}.
Implicit Types g : Ingress.

Definition with_router g (rt : DynamicRouter) : Ingress :=
  {| router := rt; workload_handles := workload_handles g; service_handlers := service_handlers g;
     messaging_handlers := messaging_handlers g; local_routing := local_routing g |}.
Definition with_tables g (ws : gset string) (ss : gmap string bool) (ms : gset string) : Ingress :=
  {| router := router g; workload_handles := ws; service_handlers := ss;
     messaging_handlers := ms; local_routing := local_routing g |}.

Section ingress.
Context `{UriLib}.

(** [instantiable]: [instantiate_pre] succeeds; [exports]: the component exports
    [wasi:http]. *)
Definition ingress_resolved g (w : string) (interfaces : list WitInterface) (instantiable exports : bool) :
    bool * Ingress :=
  match on_workload_resolved (router g) w interfaces with
  | (Err _, rt) => (false, with_router g rt)
  | (Ok _, rt) =>
      let g := with_router g rt in
      if negb instantiable then (false, g)
      else (true, if exports
                  then with_tables g (workload_handles g ∪ {[w]}) (service_handlers g) (messaging_handlers g)
                  else g)
  end.

Definition ingress_unbind g (w : string) : Ingress :=
  let g := with_router g (on_workload_unbind (router g) w) in
  with_tables g (workload_handles g ∖ {[w]}) (delete w (service_handlers g)) (messaging_handlers g ∖ {[w]}).

Definition service_http_resolved g (w : string) (routes : list IngressRoute) : Ingress :=
  let g := with_router g (on_service_http_resolved (router g) w routes) in
  with_tables g (workload_handles g) (<[w := true]> (service_handlers g)) (messaging_handlers g).

Definition service_http_unbind g (w : string) : Ingress :=
  let g := with_router g (on_workload_unbind (router g) w) in
  with_tables g (workload_handles g) (delete w (service_handlers g)) (messaging_handlers g).

(** A service's instance is gone before its supervisor says so. *)
Definition service_dies g (w : string) : Ingress :=
  match service_handlers g !! w with
  | Some _ => with_tables g (workload_handles g) (<[w := false]> (service_handlers g)) (messaging_handlers g)
  | None => g
  end.

Definition messaging_resolved g (w : string) : Ingress :=
  with_tables g (workload_handles g) (service_handlers g) (messaging_handlers g ∪ {[w]}).
Definition messaging_unbind g (w : string) : Ingress :=
  with_tables g (workload_handles g) (service_handlers g) (messaging_handlers g ∖ {[w]}).

(** [release_when_drained], when it comes to it. *)
Definition release_tables g : Ingress := with_tables g ∅ ∅ ∅.

Definition routed_workloads g : nat :=
  (size (workload_handles g) + size (service_handlers g) + size (messaging_handlers g))%nat.

(** ** Requests from the network *)

(** [header]: the [Host] header, where there is one, as text where it is. *)
Record Incoming := { header : option (option string); uri : Uri }.

Definition normalize_ingress_uri (scheme : Scheme) (r : Incoming) : option Uri :=
  header_authority ← (match header r with
                      | Some (Some host) => a ← authority_from_str host; Some (Some a)
                      | Some None => None
                      | None => Some None
                      end : option (option Authority));
  if (match header_authority, uri_authority (uri r) with
      | Some h, Some u => negb (eq_ignore_ascii_case (authority_as_str h) (authority_as_str u))
      | _, _ => false
      end) then None
  else if bool_decide (uri_path (uri r) = "*"%string) then Some (uri r)
  else match (match uri_authority (uri r) with Some a => Some a | None => header_authority end) with
       | None => Some (uri r)
       | Some authority => uri_from_parts (uri r) scheme authority
       end.

Inductive Handled := Status (code : Z) | ToService (w : string) | ToComponent (w : string).

Definition handle_http_request g (scheme : Scheme) (r : Incoming) (start : nat) : Handled :=
  match normalize_ingress_uri scheme r with
  | None => Status 400
  | Some u =>
      match route_incoming_request (router g) {| host_header := mjoin (header r); target := u |} start with
      | Err e => Status (status e)
      | Ok w =>
          match service_handlers g !! w with
          | Some true => ToService w
          | Some false => Status 503
          | None => if bool_decide (w ∈ workload_handles g) then ToComponent w else Status 404
          end
      end
  end.

(** ** Requests of guests *)

Inductive LocalTarget := Service | Component.

Definition resolve_local_target g (w : string) : option LocalTarget :=
  match service_handlers g !! w with
  | Some true => Some Service
  | Some false => None
  | None => if bool_decide (w ∈ workload_handles g) then Some Component else None
  end.

Definition local_destination g (u : Uri) (start : nat) : option (string * LocalTarget) :=
  if negb (local_routing g) then None
  else
    target ← route_local_egress (router g) u (λ w, is_some (resolve_local_target g w)) start;
    destination ← resolve_local_target g target;
    Some (target, destination).

(** [content_type]: that header, where it is text. *)
Definition is_grpc_request (content_type : option string) : bool :=
  is_some_and content_type (starts_with "application/grpc").

Inductive Egress := Denied | Grpc | Local_ (w : string) (t : LocalTarget) | Network.

Definition outgoing_request g (u : Uri) (content_type : option string)
    (allowed_hosts : list AllowedHosts.AllowedHost) (start : nat) : Egress :=
  match AllowedHosts.check_allowed_hosts u allowed_hosts with
  | Err _ => Denied
  | Ok _ =>
      if is_grpc_request content_type then Grpc
      else match local_destination g u start with
           | Some (w, t) => Local_ w t
           | None => Network
           end
  end.
End ingress.

(** ** Histories of the ceiling *)

Inductive LimitEvent := Offered | Finished | Probed.

(** The limit, the connections held, and what each probe found free. *)
Record LimitWorld := { lw_limit : ConnectionLimit; lw_held : Z; lw_seen : list Z }.

Definition limit_step (x : LimitWorld) (e : LimitEvent) : LimitWorld :=
  match e with
  | Offered =>
      let '(ok, c) := take (lw_limit x) in
      {| lw_limit := c; lw_held := if ok then lw_held x + 1 else lw_held x; lw_seen := lw_seen x |}
  | Finished =>
      if 0 <? lw_held x
      then {| lw_limit := give_back (lw_limit x); lw_held := lw_held x - 1; lw_seen := lw_seen x |}
      else x
  | Probed =>
      {| lw_limit := (ready (lw_limit x)).2; lw_held := lw_held x;
         lw_seen := lw_seen x ++ [free (lw_limit x)] |}
  end.
Definition limit_run (m : Z) (es : list LimitEvent) : LimitWorld :=
  foldl limit_step {| lw_limit := new_limit m; lw_held := 0; lw_seen := [] |} es.

(** Nothing was free at some probe, and since then none found the margin. *)
Definition exhausted (margin : Z) (seen : list Z) : Prop :=
  ∃ l1 l2, seen = l1 ++ 0 :: l2 ∧ Forall (λ f, f < margin) l2.

Lemma exhausted_snoc margin seen f :
  exhausted margin (seen ++ [f]) ↔ f = 0 ∨ (f < margin ∧ exhausted margin seen).
Proof.
  unfold exhausted. split.
  - intros (l1 & l2 & Heq & Hl). destruct l2 as [|y l2] using rev_ind.
    + apply app_inj_tail in Heq as [_ ->]. by left.
    + clear IHl2. rewrite app_comm_cons, app_assoc in Heq. apply app_inj_tail in Heq as [-> ->].
      apply Forall_app in Hl as [Hl Hy]. rewrite Forall_singleton in Hy. right. split; [done|]. by exists l1, l2.
  - intros [->|(Hf & l1 & l2 & -> & Hl)]; [by exists seen, []|].
    exists l1, (l2 ++ [f]). split; [by rewrite <-app_assoc|]. apply Forall_app. split; [done|]. by constructor.
Qed.

Record limit_ok (m : Z) (x : LimitWorld) : Prop := {
  lo_max : max (lw_limit x) = m;
  lo_running : is_stopped (lw_limit x) = false;
  lo_held : 0 ≤ lw_held x ∧ 0 ≤ free (lw_limit x) ∧ free (lw_limit x) + lw_held x = m;
  lo_ready : has_headroom (lw_limit x) = false ↔ exhausted (recover (new_limit m)) (lw_seen x);
}.

Lemma recover_range m : 1 ≤ m → 1 ≤ recover (new_limit m) ≤ m.
Proof.
  unfold recover. simpl. unfold READY_RECOVER_PERCENT. intros Hm.
  assert (0 ≤ m * 10 / 100) by (apply Z.div_pos; lia). lia.
Qed.

Lemma limit_step_ok m x e : 1 ≤ m → limit_ok m x → limit_ok m (limit_step x e).
Proof.
  intros Hm [L1 L2 L3 L4]. pose proof (recover_range m Hm) as Hr. destruct e; simpl.
  - unfold take. destruct (Z.ltb_spec 0 (free (lw_limit x))); split; simpl; try done; lia.
  - destruct (Z.ltb_spec 0 (lw_held x)); [|done]. split; simpl; try done; lia.
  - unfold ready, accepting. rewrite L2. simpl. split; simpl; try done.
    assert (recover (lw_limit x) = recover (new_limit m)) as Hrec by (unfold recover; by rewrite L1).
    rewrite exhausted_snoc, <-L4, Hrec. destruct (has_headroom (lw_limit x)).
    + rewrite Z.ltb_ge. split; [left; lia|]. intros [->|[_ ?]]; [lia|done].
    + rewrite Z.leb_gt. split; [right; by split|]. intros [->|[? _]]; lia.
Qed.

Lemma limit_run_ok m es : 1 ≤ m → limit_ok m (limit_run m es).
Proof.
  intros Hm. unfold limit_run. assert (limit_ok m {| lw_limit := new_limit m; lw_held := 0; lw_seen := [] |}) as H0.
  { split; simpl; try done; [lia|]. split; [done|]. intros (l1 & l2 & Heq & _). by destruct l1. }
  revert H0. generalize {| lw_limit := new_limit m; lw_held := 0; lw_seen := [] |} as x.
  induction es as [|e es IH]; intros x Hx; [done|]. simpl. by apply IH, limit_step_ok.
Qed.

(** The ceiling holds, and readiness says what it should.  Whatever connections are
    offered and end and whenever the host is probed, no more than the ceiling are
    held; and a probe is refused exactly if some probe, this one or one before it,
    found nothing free and none since has found the margin free. *)
Theorem ready_exactly_with_room m es :
  1 ≤ m →
  let x := limit_run m es in
  0 ≤ lw_held x ≤ m ∧ free (lw_limit x) = m - lw_held x
  ∧ ((ready (lw_limit x)).1 = false
     ↔ exhausted (recover (new_limit m)) (lw_seen x ++ [m - lw_held x])).
Proof.
  intros Hm x. destruct (limit_run_ok m es Hm) as [L1 L2 L3 L4]. fold x in L1, L2, L3, L4.
  split; [lia|]. split; [lia|]. destruct (limit_run_ok m (es ++ [Probed]) Hm) as [_ _ _ L4'].
  unfold limit_run in L4'. rewrite foldl_app in L4'. fold (limit_run m es) in L4'. fold x in L4'. simpl in L4'.
  replace (m - lw_held x) with (free (lw_limit x)) by lia. rewrite <-L4'.
  unfold ready, accepting. by rewrite L2.
Qed.

(** The end of a drain is the end of the last connection. *)
Lemma drained_iff m es c :
  1 ≤ m ≤ 4294967295 → c = stopped_accepting (lw_limit (limit_run m es)) →
  drained c = true ↔ lw_held (limit_run m es) = 0.
Proof.
  intros Hm ->. destruct (limit_run_ok m es) as [L1 L2 L3 L4]; [lia|]. unfold drained. simpl.
  rewrite L1, Z.leb_le. lia.
Qed.

(** ** Histories of a dispatched request *)

Definition dispatch_run (ss : list DispatchStep) : Dispatched := foldl dispatch_step dispatch ss.

Record dispatch_ok d : Prop := {
  do_slot : slot (request d) = negb (failed d);
  do_guard : settle (held_by d) = true → failed d = false;
  do_sender : sender (held_by d) = settle (held_by d);
  do_reader : callee (held_by d) && drain (held_by d) = false;
  do_upload : callee (held_by d) || drain (held_by d) = true →
    upload (request d) = if failed d then Closed else Open;
}.

Lemma dispatch_step_ok d s : dispatch_ok d → dispatch_ok (dispatch_step d s).
Proof.
  intros [D1 D2 D3 D4 D5]. destruct d as [[sl up] [se st ca dr re] fa]. simpl in *.
  destruct s as [p|e rt|p| | |]; simpl.
  - destruct ca; [|by split]. destruct dr; [done|]. specialize (D5 eq_refl). subst up.
    destruct fa, p; by split.
  - destruct ca; [|by split]. destruct dr; [done|]. specialize (D5 eq_refl). subst up.
    destruct fa, e, rt; by split.
  - destruct dr; [|by split]. destruct ca; [done|]. specialize (D5 eq_refl). subst up.
    destruct fa, p; by split.
  - destruct st; [|by split]. split; simpl; by auto.
  - destruct st; [|by split]. rewrite D2 in D5 by done. split; simpl; try done.
    intros Hr. by rewrite D5.
  - by split.
Qed.

Lemma dispatch_run_ok ss : dispatch_ok (dispatch_run ss).
Proof.
  unfold dispatch_run. assert (dispatch_ok dispatch) as H0 by by split.
  revert H0. generalize dispatch as d. induction ss as [|s ss IH]; intros d Hd; [done|].
  simpl. by apply IH, dispatch_step_ok.
Qed.

(** C21: A dispatched request returns its slot, and is not cut off silently.  Whatever
    the callee, the drain, the sender and the reader of the response do, the slot is
    out exactly while the dispatch has not failed and somebody still has the request,
    so a failure returns it at once; and whoever still reads the upload reads what
    the guest sends if the dispatch has not failed, and an error, not a clean end,
    if it has. *)
Theorem dispatched_request_settles ss p :
  let d := dispatch_run ss in
  (slot_out d = true ↔ failed d = false ∧ nobody (held_by d) = false)
  ∧ (callee (held_by d) || drain (held_by d) = true →
     (poll_frame (request d) p).1 = if failed d then Terminated else p).
Proof.
  intros d. destruct (dispatch_run_ok ss) as [D1 _ _ _ D5]. fold d in D1, D5. split.
  - unfold slot_out. rewrite D1, andb_true_iff, !negb_true_iff. done.
  - intros Hr. specialize (D5 Hr). unfold poll_frame. rewrite D5. by destruct (failed d).
Qed.

(** ** Histories of an ingress *)

Inductive IngressEvent :=
  | IResolved (w : string) (interfaces : list WitInterface) (instantiable exports : bool)
  | IUnbound (w : string)
  | IService (w : string) (routes : list IngressRoute)
  | IServiceUnbound (w : string)
  | IServiceDies (w : string)
  | IMessaging (w : string)
  | IMessagingUnbound (w : string)
  | IReleased.

Section histories.
Context `{UriLib}.

Definition ingress_step g (e : IngressEvent) : Ingress :=
  match e with
  | IResolved w ifs instantiable exports => (ingress_resolved g w ifs instantiable exports).2
  | IUnbound w => ingress_unbind g w
  | IService w routes => service_http_resolved g w routes
  | IServiceUnbound w => service_http_unbind g w
  | IServiceDies w => service_dies g w
  | IMessaging w => messaging_resolved g w
  | IMessagingUnbound w => messaging_unbind g w
  | IReleased => release_tables g
  end.

Definition new_ingress (local_routing : bool) : Ingress :=
  {| router := default_router; workload_handles := ∅; service_handlers := ∅; messaging_handlers := ∅;
     local_routing := local_routing |}.
Definition ingress_run (local_routing : bool) (es : list IngressEvent) : Ingress :=
  foldl ingress_step (new_ingress local_routing) es.

(** What the router sees of them. *)
Definition router_event (e : IngressEvent) : list RouterEvent :=
  match e with
  | IResolved w ifs _ _ => [Resolved w ifs]
  | IUnbound w | IServiceUnbound w => [Unbound w]
  | IService w routes => [ServiceResolved w routes]
  | _ => []
  end.
Definition router_events (es : list IngressEvent) : list RouterEvent := mjoin (router_event <$> es).

Lemma ingress_step_router g e :
  router (ingress_step g e) = foldl router_step (router g) (router_event e)
  ∧ local_routing (ingress_step g e) = local_routing g.
Proof.
  destruct e as [w ifs ins exp|w|w routes|w|w|w|w|]; try done.
  - simpl. unfold ingress_resolved. destruct (on_workload_resolved (router g) w ifs) as [[[]|e] rt]; [|done].
    by destruct ins, exp.
  - simpl. unfold service_dies. by destruct (service_handlers g !! w).
Qed.

Lemma ingress_run_router lr es :
  router (ingress_run lr es) = router_run (router_events es) ∧ local_routing (ingress_run lr es) = lr.
Proof.
  unfold ingress_run, router_run, router_events.
  assert (router (new_ingress lr) = default_router ∧ local_routing (new_ingress lr) = lr) as H0 by done.
  revert H0. generalize (new_ingress lr) as g, default_router as rt.
  induction es as [|e es IH]; intros g rt [Hr Hl]; [done|]. csimpl. rewrite foldl_app. apply IH.
  destruct (ingress_step_router g e) as [-> ->]. by rewrite Hr.
Qed.

(** C22: A guest's request is answered on the same host only if everyone agreed: the
    caller's own policy admits its target, the host has local routing on, the
    request is not gRPC, and the workload it is given to claimed the name in a local
    route and is there to serve it. *)
Theorem local_dispatch_is_opted_into lr es u content_type allowed start w t :
  let g := ingress_run lr es in
  outgoing_request g u content_type allowed start = Local_ w t →
  lr = true
  ∧ (∃ e, e ∈ allowed ∧ AllowedHosts.matches e u = true)
  ∧ is_grpc_request content_type = false
  ∧ resolve_local_target g w = Some t
  ∧ ∃ host r, uri_host u = Some host ∧ r_scope r = HttpRouter.Local
    ∧ r_host r = to_ascii_lowercase (split_host_port host).1
    ∧ prefix_matches (r_prefix r) (uri_path u) = true
    ∧ ∃ e routes, e ∈ router_events es ∧ routes_of_event e = Some (w, routes) ∧ r ∈ routes.
Proof.
  intros g. destruct (ingress_run_router lr es) as [Hrt Hlr]. fold g in Hrt, Hlr.
  unfold outgoing_request. destruct (AllowedHosts.check_allowed_hosts u allowed) as [[]|] eqn:Ha; [|done].
  destruct (is_grpc_request content_type) eqn:Hg; [done|].
  destruct (local_destination g u start) as [[w' t']|] eqn:Hd; [|done]. intros [= -> ->].
  unfold local_destination in Hd. rewrite Hlr in Hd. destruct lr; [|done]. simpl in Hd.
  destruct (route_local_egress (router g) u _ start) as [w'|] eqn:Hr; [|done]. simpl in Hd.
  destruct (resolve_local_target g w') as [t'|] eqn:Ht; [|done]. injection Hd as -> ->.
  rewrite Hrt in Hr. split_and!; [done|by apply AllowedHosts.check_allowed_hosts_iff|done|done|].
  by destruct (local_egress_route _ _ _ _ _ Hr) as (_ & _ & _ & Hroute).
Qed.

(** Nobody serves for an unbound workload: once a workload is unbound, no request
    from the network or from a guest is given to it until something registers it
    again. *)
Theorem unbound_workload_gets_no_request lr es w scheme r u content_type allowed start t :
  let g := ingress_run lr (es ++ [IUnbound w]) in
  handle_http_request g scheme r start ≠ ToService w
  ∧ handle_http_request g scheme r start ≠ ToComponent w
  ∧ outgoing_request g u content_type allowed start ≠ Local_ w t.
Proof.
  intros g. unfold g, ingress_run. rewrite foldl_app. simpl.
  set (g0 := foldl ingress_step (new_ingress lr) es).
  assert (service_handlers (ingress_unbind g0 w) !! w = None) as Hs by apply lookup_delete_eq.
  assert (w ∉ workload_handles (ingress_unbind g0 w)) as Hw by (simpl; set_solver).
  set (g1 := ingress_unbind g0 w) in *.
  assert (resolve_local_target g1 w = None) as Ht.
  { unfold resolve_local_target. rewrite Hs. by rewrite bool_decide_eq_false_2. }
  split_and!.
  1-2: unfold handle_http_request; destruct (normalize_ingress_uri scheme r); [|done];
    destruct (route_incoming_request _ _ _) as [w'|]; [|done];
    destruct (service_handlers g1 !! w') as [[]|] eqn:E; try (intros [= ->]; congruence);
    case_bool_decide; try done; intros [= ->]; done.
  unfold outgoing_request. destruct (AllowedHosts.check_allowed_hosts u allowed) as [[]|]; [|done].
  destruct (is_grpc_request content_type); [done|].
  destruct (local_destination g1 u start) as [[w' t']|] eqn:Hd; [|done]. intros [= -> ->].
  unfold local_destination in Hd. destruct (negb (local_routing g1)); [done|].
  destruct (route_local_egress (router g1) u _ start) as [w'|]; [|done]. simpl in Hd.
  destruct (resolve_local_target g1 w') as [t'|] eqn:Et; [|done]. injection Hd as -> ->. congruence.
Qed.

(** Only a workload that published the request's host is given it, and the host it
    was routed by is the one its guest is shown: where the request names a host both
    in its header and in its target, the two are the same name. *)
Theorem network_request_goes_to_its_host lr es scheme r start w :
  let g := ingress_run lr es in
  handle_http_request g scheme r start = ToService w ∨ handle_http_request g scheme r start = ToComponent w →
  ∃ u host route, normalize_ingress_uri scheme r = Some u
    ∧ (mjoin (header r) = Some host ∨ (header r = None ∧ authority_as_str <$> uri_authority u = Some host))
    ∧ (∀ a, header r ≠ None → uri_authority (uri r) = Some a →
         ∃ ha, authority_from_str host = Some ha
               ∧ eq_ignore_ascii_case (authority_as_str ha) (authority_as_str a) = true)
    ∧ r_scope route = HttpRouter.Ingress ∧ r_host route = to_ascii_lowercase (split_host_port host).1
    ∧ prefix_matches (r_prefix route) (uri_path u) = true
    ∧ ∃ e routes, e ∈ router_events es ∧ routes_of_event e = Some (w, routes) ∧ route ∈ routes.
Proof.
  intros g Hh. destruct (ingress_run_router lr es) as [Hrt _]. fold g in Hrt.
  unfold handle_http_request in Hh. destruct (normalize_ingress_uri scheme r) as [u|] eqn:Hn; [|naive_solver].
  set (req := {| host_header := mjoin (header r); target := u |}) in *.
  assert (route_incoming_request (router g) req start = Ok w) as Hr.
  { destruct (route_incoming_request (router g) req start) as [w'|]; [|naive_solver].
    destruct (service_handlers g !! w') as [[]|]; try case_bool_decide; naive_solver. }
  rewrite Hrt in Hr. destruct (incoming_route _ _ _ _ Hr) as (host & route & Hhost & Hroute).
  exists u, host, route. split; [done|]. unfold normalize_ingress_uri in Hn. unfold request_host in Hhost.
  simpl in Hhost. split; [|split; [|done]].
  - destruct (header r) as [[h|]|]; simpl in *; [by left|done|by right].
  - intros a Hhd Ha. destruct (header r) as [[h|]|]; [|done|done]. simpl in *. injection Hhost as ->.
    destruct (authority_from_str host) as [ha|]; [|done]. exists ha. split; [done|]. simpl in Hn.
    rewrite Ha in Hn. by destruct (eq_ignore_ascii_case _ _).
Qed.
End histories.

(** ** Concrete inputs *)

(** A ceiling of twenty is reached, one connection too many is shed, a probe, one ends. *)
Lemma ready_exactly_with_room_witness :
  let x := limit_run 20 (replicate 20 Offered ++ [Offered; Probed; Finished]) in
  (ready (lw_limit x)).1 = false ∧ shed (lw_limit x) = 1
  ∧ 0 ≤ lw_held x ≤ 20 ∧ free (lw_limit x) = 20 - lw_held x
  ∧ ((ready (lw_limit x)).1 = false
     ↔ exhausted (recover (new_limit 20)) (lw_seen x ++ [20 - lw_held x])).
Proof.
  intros x. split; [vm_compute; reflexivity|]. split; [vm_compute; reflexivity|].
  apply (ready_exactly_with_room 20 (replicate 20 Offered ++ [Offered; Probed; Finished])). lia.
Defined.

Definition cart_events : list IngressEvent :=
  [IResolved "shop" [handler {["host" := "shop.example.com"; "localRoute" := "cart.internal"]}] true true;
   IService "docs" [ingress "docs.example.com"]].

Lemma local_dispatch_is_opted_into_witness :
  ∃ u host r, outgoing_request (ingress_run true cart_events) u None [AllowedHosts.Any] 0 = Local_ "shop" Component
    ∧ uri_host u = Some host ∧ r_scope r = HttpRouter.Local
    ∧ r_host r = to_ascii_lowercase (split_host_port host).1.
Proof.
  destruct (uri_parse "http://Cart.internal") as [u|] eqn:E; [|discriminate E].
  assert (outgoing_request (ingress_run true cart_events) u None [AllowedHosts.Any] 0 = Local_ "shop" Component) as Ho
    by (injection E as <-; vm_compute; reflexivity).
  destruct (local_dispatch_is_opted_into true cart_events u None [AllowedHosts.Any] 0 "shop" Component Ho)
    as (_ & _ & _ & _ & host & r & Hh & Hs & Hr & _).
  exists u, host, r. split; [exact Ho|]. split; [exact Hh|]. split; [exact Hs|exact Hr].
Defined.

Lemma network_request_goes_to_its_host_witness :
  ∃ scheme r u host route,
    handle_http_request (ingress_run true cart_events) scheme r 0 = ToService "docs"
    ∧ normalize_ingress_uri scheme r = Some u
    ∧ (mjoin (header r) = Some host ∨ (header r = None ∧ authority_as_str <$> uri_authority u = Some host))
    ∧ r_host route = to_ascii_lowercase (split_host_port host).1.
Proof.
  destruct (scheme_from_str "http") as [s|] eqn:Es; [|discriminate Es].
  destruct (uri_parse "http://Docs.example.com") as [u0|] eqn:E; [|discriminate E].
  set (r := {| header := Some (Some "docs.example.com"%string); uri := u0 |}).
  assert (handle_http_request (ingress_run true cart_events) s r 0 = ToService "docs") as Hh
    by (unfold r; injection E as <-; injection Es as <-; vm_compute; reflexivity).
  destruct (network_request_goes_to_its_host true cart_events s r 0 "docs" (or_introl Hh))
    as (u & host & route & Hn & Hhost & _ & _ & Hr & _).
  exists s, r, u, host, route. split; [exact Hh|]. split; [exact Hn|]. split; [exact Hhost|exact Hr].
Defined.
