(* ===== verification/SocketUtil.v ===== *)
(** * Socket vocabulary and helpers

    [sockets/util.rs] and the small types of [sockets/mod.rs]: error codes and
    their mappings, address validation, and the socket-option wrappers.  The
    operating system is the argument [os] of each wrapper: what the system call
    answers for the value it is handed.  The target is 64-bit Linux, so [usize]
    is 64 bits wide and the [cfg(target_os = "linux")] arms are taken. *)

From Stdlib Require Import ZArith Lia Ascii.
From stdpp Require Import base list strings option.
From S2P Require Import Prelude RustStr Net UriLib.
Local Open Scope string_scope.
Local Open Scope Z_scope.

(** ** Error codes *)

Inductive ErrorCode :=
  | Unknown | AccessDenied | NotSupported | InvalidArgument | OutOfMemory | Timeout
  | InvalidState | AddressNotBindable | AddressInUse | RemoteUnreachable
  | ConnectionRefused | ConnectionReset | ConnectionAborted | DatagramTooLarge
  | NotInProgress | ConcurrencyConflict.
#[global] Instance ErrorCode_eq_dec : EqDecision ErrorCode.
Proof. solve_decision. Defined.

(** [rustix::io::Errno], the values the code names. *)
Inductive Errno :=
  | PERM | ACCESS | ADDRINUSE | ADDRNOTAVAIL | TIMEDOUT | CONNREFUSED | CONNRESET
  | CONNABORTED | INVAL | HOSTUNREACH | HOSTDOWN | NETDOWN | NETUNREACH | NONET
  | ISCONN | NOTCONN | DESTADDRREQ | MSGSIZE | NOMEM | NOBUFS | OPNOTSUPP
  | NOPROTOOPT | PFNOSUPPORT | PROTONOSUPPORT | PROTOTYPE | SOCKTNOSUPPORT
  | AFNOSUPPORT | OtherErrno (code : Z).
#[global] Instance Errno_eq_dec : EqDecision Errno.
Proof. solve_decision. Defined.

Inductive ErrorKind :=
  | AddrInUse | AddrNotAvailable | KConnectionAborted | KConnectionRefused
  | KConnectionReset | InvalidInput | NotConnected | KOutOfMemory | PermissionDenied
  | TimedOut | Unsupported | KWouldBlock | OtherKind.
#[global] Instance ErrorKind_eq_dec : EqDecision ErrorKind.
Proof. solve_decision. Defined.

(** [std::io::Error]: the OS error it wraps, if any, and its kind. *)
Record IoError := { raw_os_error : option Errno; kind : ErrorKind }.

Definition from_errno (e : Errno) : ErrorCode :=
  match e with
  | PERM | ACCESS => AccessDenied
  | ADDRINUSE => AddressInUse
  | ADDRNOTAVAIL => AddressNotBindable
  | TIMEDOUT => Timeout
  | CONNREFUSED => ConnectionRefused
  | CONNRESET => ConnectionReset
  | CONNABORTED => ConnectionAborted
  | INVAL => InvalidArgument
  | HOSTUNREACH | HOSTDOWN | NETDOWN | NETUNREACH | NONET => RemoteUnreachable
  | ISCONN | NOTCONN | DESTADDRREQ => InvalidState
  | MSGSIZE => DatagramTooLarge
  | NOMEM | NOBUFS => OutOfMemory
  | OPNOTSUPP | NOPROTOOPT | PFNOSUPPORT | PROTONOSUPPORT | PROTOTYPE
  | SOCKTNOSUPPORT | AFNOSUPPORT => NotSupported
  | OtherErrno _ => Unknown
  end.

Definition from_io_error (e : IoError) : ErrorCode :=
  match raw_os_error e with
  | Some errno => from_errno errno
  | None =>
      match kind e with
      | AddrInUse => AddressInUse
      | AddrNotAvailable => AddressNotBindable
      | KConnectionAborted => ConnectionAborted
      | KConnectionRefused => ConnectionRefused
      | KConnectionReset => ConnectionReset
      | InvalidInput => InvalidArgument
      | NotConnected => InvalidState
      | KOutOfMemory => OutOfMemory
      | PermissionDenied => AccessDenied
      | TimedOut => Timeout
      | Unsupported => NotSupported
      | KWouldBlock | OtherKind => Unknown
      end
  end.

(** [wasi:sockets] p3's [error-code]; [Other]'s message is always [None] here. *)
Inductive P3ErrorCode :=
  | P3Other | P3AccessDenied | P3NotSupported | P3InvalidArgument | P3OutOfMemory
  | P3Timeout | P3InvalidState | P3AddressNotBindable | P3AddressInUse
  | P3RemoteUnreachable | P3ConnectionRefused | P3ConnectionReset
  | P3ConnectionAborted | P3DatagramTooLarge.
#[global] Instance P3ErrorCode_eq_dec : EqDecision P3ErrorCode.
Proof. solve_decision. Defined.

Definition p3_error_code_from_util (e : ErrorCode) : P3ErrorCode :=
  match e with
  | Unknown => P3Other
  | AccessDenied => P3AccessDenied
  | NotSupported => P3NotSupported
  | InvalidArgument => P3InvalidArgument
  | OutOfMemory => P3OutOfMemory
  | Timeout => P3Timeout
  | InvalidState => P3InvalidState
  | AddressNotBindable => P3AddressNotBindable
  | AddressInUse => P3AddressInUse
  | RemoteUnreachable => P3RemoteUnreachable
  | ConnectionRefused => P3ConnectionRefused
  | ConnectionReset => P3ConnectionReset
  | ConnectionAborted => P3ConnectionAborted
  | DatagramTooLarge => P3DatagramTooLarge
  | NotInProgress => P3InvalidState
  | ConcurrencyConflict => P3InvalidState
  end.

(** ** The policy's vocabulary *)

Inductive Plane := Virtual | Host.
#[global] Instance Plane_eq_dec : EqDecision Plane.
Proof. solve_decision. Defined.

Inductive DenyReason :=
  | NotPermitted | BindNotPermitted | HostLoopbackNotPermitted | HostOwnedPort
  | BlockedRange | NoCapacity.
#[global] Instance DenyReason_eq_dec : EqDecision DenyReason.
Proof. solve_decision. Defined.

Definition reason_as_str (r : DenyReason) : string :=
  match r with
  | NotPermitted => "not_permitted"
  | BindNotPermitted => "bind_not_permitted"
  | HostLoopbackNotPermitted => "host_loopback_not_permitted"
  | HostOwnedPort => "host_owned_port"
  | BlockedRange => "blocked_range"
  | NoCapacity => "no_capacity"
  end.

Definition error_code (r : DenyReason) : ErrorCode :=
  match r with
  | NoCapacity => OutOfMemory
  | _ => AccessDenied
  end.

Inductive SocketAddrUse :=
  | TcpCreate | TcpBind | TcpListen | TcpAccept | TcpAcceptVirtual | TcpConnect
  | UdpCreate | UdpBind | UdpImplicitBind | UdpConnect | UdpOutgoingDatagram
  | UdpReceive.
#[global] Instance SocketAddrUse_eq_dec : EqDecision SocketAddrUse.
Proof. solve_decision. Defined.

Record AllowedNetworkUses := { allow_udp : bool; allow_tcp : bool }.

Definition default_network_uses : AllowedNetworkUses :=
  {| allow_udp := true; allow_tcp := true |}.

Definition permission_denied : IoError :=
  {| raw_os_error := None; kind := PermissionDenied |}.

Definition check_allowed_udp (u : AllowedNetworkUses) : result unit IoError :=
  if negb (allow_udp u) then Err permission_denied else Ok tt.

Definition check_allowed_tcp (u : AllowedNetworkUses) : result unit IoError :=
  if negb (allow_tcp u) then Err permission_denied else Ok tt.

(** ** Addresses *)

Inductive SocketAddressFamily := Ipv4 | Ipv6.
#[global] Instance SocketAddressFamily_eq_dec : EqDecision SocketAddressFamily.
Proof. solve_decision. Defined.

Definition is_deprecated_ipv4_compatible (a : Ipv6Addr) : bool :=
  match a with Ipv6Addr_new 0 0 0 0 0 0 _ _ => true | _ => false end
  && negb (bool_decide (a = UNSPECIFIED_V6))
  && negb (bool_decide (a = LOCALHOST_V6)).

Definition is_valid_address_family (addr : IpAddr) (family : SocketAddressFamily) : bool :=
  match family, addr with
  | Ipv4, V4 _ => true
  | Ipv6, V6 a =>
      negb (is_deprecated_ipv4_compatible a) && negb (is_some (v6.to_ipv4_mapped a))
  | _, _ => false
  end.

Definition is_valid_remote_address (addr : SocketAddr) : bool :=
  negb (is_unspecified (to_canonical (sock_ip addr))) && negb (sock_port addr =? 0).

Definition is_valid_unicast_address (addr : IpAddr) : bool :=
  match to_canonical addr with
  | V4 a => negb (v4.is_multicast a) && negb (v4.is_broadcast a)
  | V6 a => negb (v6.is_multicast a)
  end.

Definition implicit_bind_addr (family : SocketAddressFamily) : SocketAddr :=
  sock_new match family with
           | Ipv4 => V4 UNSPECIFIED_V4
           | Ipv6 => V6 UNSPECIFIED_V6
           end 0.

Definition parse_host `{UriLib} (name : string) : result UrlHost ErrorCode :=
  match host_parse name with
  | Some host => Ok host
  | None =>
      match parse_ipv6 name with
      | Some addr => Ok (HostIpv6 addr)
      | None => Err InvalidArgument
      end
  end.

(** ** Socket options *)

Definition usize_MAX : Z := u64_MAX.
Definition i32_MAX : Z := 2147483647.
Definition i16_MAX : Z := 32767.
Definition i8_MAX : Z := 127.
Definition NANOS_PER_SEC : Z := 1000000000.

(** [Ord::clamp]. *)
Definition clamp (v lo hi : Z) : Z := Z.max lo (Z.min v hi).

(** [u64::try_into::<usize>().unwrap_or(usize::MAX)]. *)
Definition to_usize (v : Z) : Z := if v <=? usize_MAX then v else usize_MAX.

Definition normalize_get_buffer_size (v : Z) : Z := v / 2.
Definition normalize_set_buffer_size (v : Z) : Z := clamp v 1 i32_MAX.

Definition get_ip_ttl (os : result Z Errno) : result Z ErrorCode :=
  match os with
  | Ok v => if v <=? 255 then Ok v else Err NotSupported
  | Err e => Err (from_errno e)
  end.

Definition get_ipv6_unicast_hops (os : result Z Errno) : result Z ErrorCode :=
  match os with Ok v => Ok v | Err e => Err (from_errno e) end.

Definition get_unicast_hop_limit (os : result Z Errno) (family : SocketAddressFamily) :
    result Z ErrorCode :=
  match family with
  | Ipv4 => get_ip_ttl os
  | Ipv6 => get_ipv6_unicast_hops os
  end.

Definition set_unicast_hop_limit (os : Z → result unit Errno) (value : Z) :
    result unit ErrorCode :=
  if value =? 0 then Err InvalidArgument
  else match os value with Ok _ => Ok tt | Err e => Err (from_errno e) end.

(** The body [set_receive_buffer_size] and [set_send_buffer_size] share. *)
Definition set_buffer_size (os : Z → result unit Errno) (value : Z) : result Z ErrorCode :=
  if value =? 0 then Err InvalidArgument
  else
    let value := normalize_set_buffer_size (to_usize value) in
    match os value with
    | Err NOBUFS => Ok value
    | Err e => Err (from_errno e)
    | Ok _ => Ok value
    end.

Definition set_receive_buffer_size := set_buffer_size.
Definition set_send_buffer_size := set_buffer_size.

Definition receive_buffer_size (os : result Z Errno) : result Z ErrorCode :=
  match os with
  | Ok v => Ok (normalize_get_buffer_size v)
  | Err e => Err (from_errno e)
  end.
Definition send_buffer_size := receive_buffer_size.

Definition set_keep_alive_idle_time (os : Z → result unit Errno) (value : Z) :
    result Z ErrorCode :=
  if value =? 0 then Err InvalidArgument
  else
    let value := clamp value NANOS_PER_SEC (i16_MAX * NANOS_PER_SEC) in
    match os value with Ok _ => Ok value | Err e => Err (from_errno e) end.

(** [Duration]s are counted in nanoseconds. *)
Definition set_keep_alive_interval (os : Z → result unit Errno) (value : Z) :
    result unit ErrorCode :=
  if value <=? 0 then Err InvalidArgument
  else match os (clamp value NANOS_PER_SEC (i16_MAX * NANOS_PER_SEC)) with
       | Ok _ => Ok tt
       | Err e => Err (from_errno e)
       end.

Definition set_keep_alive_count (os : Z → result unit Errno) (value : Z) :
    result unit ErrorCode :=
  if value =? 0 then Err InvalidArgument
  else match os (clamp value 1 i8_MAX) with
       | Ok _ => Ok tt
       | Err e => Err (from_errno e)
       end.

Definition tcp_bind_error (e : IoError) : ErrorCode :=
  match raw_os_error e with
  | Some AFNOSUPPORT => InvalidArgument
  | _ => from_io_error e
  end.

Definition udp_bind_error (e : Errno) : ErrorCode :=
  match e with
  | AFNOSUPPORT => InvalidArgument
  | _ => from_errno e
  end.

(** On Linux a connect refused with [EINVAL] is retried once, after dissolving
    the old association; [first] and [again] answer the two connects. *)
Definition udp_connect (first again : result unit Errno) : result unit Errno :=
  match first with
  | Err INVAL => again
  | r => r
  end.

(** ** Facts *)

Lemma from_errno_not_state e :
  from_errno e ≠ NotInProgress ∧ from_errno e ≠ ConcurrencyConflict.
Proof. by destruct e. Qed.

Lemma valid_family_canonical a f : is_valid_address_family a f = true → to_canonical a = a.
Proof.
  destruct f, a as [a|a]; simpl; try done. intros [_ H]%andb_true_iff.
  by destruct (v6.to_ipv4_mapped a).
Qed.

(** whatever 64-bit value a guest sets, the system call behind a socket option
    is made with a value inside the range the wrapper promises, a zero is refused
    before any call, and a full kernel buffer ([ENOBUFS]) counts as success; the
    size reported back is the one handed to the kernel. *)
Theorem socket_options_clamped os value :
  0 ≤ value ≤ u64_MAX →
  (value = 0 → set_buffer_size os value = Err InvalidArgument
               ∧ set_keep_alive_idle_time os value = Err InvalidArgument)
  ∧ (value ≠ 0 →
     (∃ v, 1 ≤ v ≤ i32_MAX ∧ v = Z.min value i32_MAX ∧
        set_buffer_size os value = match os v with
                                   | Ok _ | Err NOBUFS => Ok v
                                   | Err e => Err (from_errno e)
                                   end)
     ∧ ∃ v, NANOS_PER_SEC ≤ v ≤ i16_MAX * NANOS_PER_SEC ∧
        set_keep_alive_idle_time os value = match os v with
                                            | Ok _ => Ok v
                                            | Err e => Err (from_errno e)
                                            end).
Proof.
  intros Hv. split.
  - by intros ->.
  - intros Hne. unfold set_buffer_size, set_keep_alive_idle_time.
    rewrite (proj2 (Z.eqb_neq value 0)) by done.
    assert (to_usize value = value) as ->.
    { unfold to_usize, usize_MAX. by rewrite (proj2 (Z.leb_le _ _)) by lia. }
    split.
    + exists (normalize_set_buffer_size value).
      unfold normalize_set_buffer_size, clamp, i32_MAX. repeat split; try lia. 
    + exists (clamp value NANOS_PER_SEC (i16_MAX * NANOS_PER_SEC)). split; [|done].
      unfold clamp, NANOS_PER_SEC, i16_MAX. lia.
Qed.

Lemma socket_options_clamped_witness :
  set_buffer_size (λ _, Err NOBUFS) u64_MAX = Ok i32_MAX.
Proof.
  destruct (socket_options_clamped (λ _, Err NOBUFS) u64_MAX) as [_ H].
  - unfold u64_MAX. lia.
  - destruct H as [(v & _ & -> & H) _]; [discriminate|]. exact H.
Defined.

Example valid_families :
  is_valid_address_family (V6 (Ipv6Addr_new 0 0 0 0 0 65535 32512 1)) Ipv6 = false
  ∧ is_valid_address_family (V6 (Ipv6Addr_new 0 0 0 0 0 0 32512 1)) Ipv6 = false
  ∧ is_valid_address_family (V6 LOCALHOST_V6) Ipv6 = true
  ∧ is_valid_address_family (V4 LOCALHOST_V4) Ipv6 = false.
Proof. by vm_compute. Qed.
