(* ===== verification/Quota.v ===== *)
(** * Connection quotas and policy meters

    [host/quota.rs]: the descriptor arithmetic behind the default ceilings, the
    per-guest and host-wide connection permits, and the deny counters.

    A tokio [Semaphore] is its number of available permits; an [Arc] to one is a
    [SemId] into the [Heap], so every clone of a quota draws on the same cell.
    The registry's [moka] cache may forget an idle guest at any time
    ([step_expire]).  Atomics are plain cells: each operation is one step. *)

From Stdlib Require Import ZArith Lia.
From stdpp Require Import base list gmap strings option.
From S2P Require Import Prelude RustStr Net SocketUtil.
Local Open Scope Z_scope.

(** ** Ceilings from the descriptor limit *)

Definition ASSUMED_MAX_CONNECTIONS : Z := 512.
Definition FD_BUDGET_NUMERATOR : Z := 1.
Definition FD_BUDGET_DENOMINATOR : Z := 2.
Definition MIN_DERIVED_MAX_CONNECTIONS : Z := 64.
Definition MAX_DERIVED_MAX_CONNECTIONS : Z := 32768.
Definition INGRESS_BUDGET_NUMERATOR : Z := 1.
Definition INGRESS_BUDGET_DENOMINATOR : Z := 4.
Definition MIN_INGRESS_CONNECTIONS : Z := 256.
Definition MAX_RAISED_DESCRIPTORS : Z := 1048576.

Definition saturating_mul (a b : Z) : Z := Z.min (a * b) usize_MAX.

Definition share_of (soft : option Z) (numerator denominator : Z) : Z :=
  match soft with
  | None => ASSUMED_MAX_CONNECTIONS
  | Some soft =>
      clamp (saturating_mul soft numerator / denominator)
        MIN_DERIVED_MAX_CONNECTIONS MAX_DERIVED_MAX_CONNECTIONS
  end.

(** [usize::try_from] on a [u64] never fails on a 64-bit target. *)
Definition soft_limit_as_budget (reported : option Z) : option Z :=
  let v := default MAX_RAISED_DESCRIPTORS reported in
  if v <=? usize_MAX then Some v else None.

(** [reported] is what [getrlimit] answers for the soft limit. *)
Definition default_max_connections (reported : option Z) : Z :=
  share_of (soft_limit_as_budget reported) FD_BUDGET_NUMERATOR FD_BUDGET_DENOMINATOR.

Definition default_max_http_ingress_connections (reported : option Z) : Z :=
  Z.max (share_of (soft_limit_as_budget reported)
           INGRESS_BUDGET_NUMERATOR INGRESS_BUDGET_DENOMINATOR)
        MIN_INGRESS_CONNECTIONS.

(** The [while target > have] loop; 21 rounds exhaust any target up to 2^20. *)
Fixpoint raise_loop (fuel : nat) (have target : Z) : list Z :=
  match fuel with
  | O => []
  | S fuel => if have <? target then target :: raise_loop fuel have (target / 2) else []
  end.

Definition raise_plan (soft hard : option Z) : list Z :=
  let have := default u64_MAX soft in
  let target := Z.min (default MAX_RAISED_DESCRIPTORS hard) MAX_RAISED_DESCRIPTORS in
  raise_loop 21 have target.

(** [setrlimit] answers whether the kernel takes a soft limit; the first value it
    takes is then the limit in force. *)
Definition raise_descriptor_limit (setrlimit : Z → bool) (soft hard : option Z) : option Z :=
  match List.find setrlimit (raise_plan soft hard) with
  | Some target => soft_limit_as_budget (Some target)
  | None => soft_limit_as_budget soft
  end.

(** ** Permits *)

Record QuotaLimits := {
  limit_outbound_http : Z; limit_outbound_sockets : Z; limit_inbound_sockets : Z;
}.

Definition default_limits : QuotaLimits :=
  {| limit_outbound_http := 128; limit_outbound_sockets := 256;
     limit_inbound_sockets := 256 |}.

Inductive Surface := OutboundHttp | OutboundSockets | InboundSockets.
#[global] Instance Surface_eq_dec : EqDecision Surface.
Proof. solve_decision. Defined.

Definition limit (l : QuotaLimits) (s : Surface) : Z :=
  match s with
  | OutboundHttp => limit_outbound_http l
  | OutboundSockets => limit_outbound_sockets l
  | InboundSockets => limit_inbound_sockets l
  end.

Inductive SemId := SemGlobal | SemGuest (q : nat) (s : Surface).
#[global] Instance SemId_eq_dec : EqDecision SemId.
Proof. solve_decision. Defined.

Record Heap := {
  permits : SemId → Z;
  granted : nat * Surface → Z;
  refused : nat * Surface → Z;
}.

Definition upd {K} `{EqDecision K} (f : K → Z) (k : K) (v : Z) : K → Z :=
  λ k', if decide (k' = k) then v else f k'.

(** [AtomicU64::fetch_add(1)] wraps. *)
Definition fetch_add {K} `{EqDecision K} (f : K → Z) (k : K) : K → Z :=
  upd f k ((f k + 1) mod 2 ^ 64).

Definition set_permits (h : Heap) (f : SemId → Z) : Heap :=
  {| permits := f; granted := granted h; refused := refused h |}.
Definition bump_granted (h : Heap) (k : nat * Surface) : Heap :=
  {| permits := permits h; granted := fetch_add (granted h) k; refused := refused h |}.
Definition bump_refused (h : Heap) (k : nat * Surface) : Heap :=
  {| permits := permits h; granted := granted h; refused := fetch_add (refused h) k |}.

(** [Semaphore::try_acquire_owned] and the permit's drop. *)
Definition sem_try_acquire (h : Heap) (i : SemId) : option Heap :=
  if 0 <? permits h i then Some (set_permits h (upd (permits h) i (permits h i - 1)))
  else None.
Definition sem_release (h : Heap) (i : SemId) : Heap :=
  set_permits h (upd (permits h) i (permits h i + 1)).

(** One guest's allowance: which cells it draws on. *)
Record GuestConnectionQuota := { q_id : nat; q_global : option SemId }.

Record ConnectionSlot := { slot_guest : SemId; slot_global : option SemId }.

(** A slot's two permits are returned together. *)
Definition drop_slot (h : Heap) (c : ConnectionSlot) : Heap :=
  let h := sem_release h (slot_guest c) in
  match slot_global c with Some g => sem_release h g | None => h end.

(** The guest's own surface first; a host-wide refusal drops the guest's permit
    on the way out. *)
Definition try_acquire (q : GuestConnectionQuota) (s : Surface) (h : Heap) :
    option ConnectionSlot * Heap :=
  let surface := SemGuest (q_id q) s in
  match sem_try_acquire h surface with
  | None => (None, bump_refused h (q_id q, s))
  | Some h1 =>
      match q_global q with
      | Some g =>
          match sem_try_acquire h1 g with
          | Some h2 => (Some {| slot_guest := surface; slot_global := Some g |},
                        bump_granted h2 (q_id q, s))
          | None => (None, sem_release (bump_refused h1 (q_id q, s)) surface)
          end
      | None => (Some {| slot_guest := surface; slot_global := None |},
                 bump_granted h1 (q_id q, s))
      end
  end.

Definition try_acquire_outbound_socket q := try_acquire q OutboundSockets.
Definition try_acquire_outbound_http q := try_acquire q OutboundHttp.
Definition try_acquire_inbound_socket q := try_acquire q InboundSockets.

(** [GuestConnectionQuota::new] in fresh cells: a limit of zero still admits one. *)
Definition new_quota (l : QuotaLimits) (global : option SemId) (q : nat) (h : Heap) :
    GuestConnectionQuota * Heap :=
  ({| q_id := q; q_global := global |},
   {| permits := λ i, match i with
                      | SemGuest q' s => if decide (q' = q) then Z.max (limit l s) 1
                                         else permits h i
                      | SemGlobal => permits h i
                      end;
      granted := λ k, if decide (k.1 = q) then 0 else granted h k;
      refused := λ k, if decide (k.1 = q) then 0 else refused h k |}).

(** ** The registry *)

Record QuotaRegistry := {
  limits : QuotaLimits;
  global : option SemId;
  quotas : gmap string nat;
  next : nat;
}.

Definition new_registry (l : QuotaLimits) (host_wide : option Z) : QuotaRegistry * Heap :=
  ({| limits := l; global := (λ _, SemGlobal) <$> host_wide; quotas := ∅; next := 0 |},
   {| permits := λ i, match i with
                      | SemGlobal => default 0 ((λ t, Z.max t 1) <$> host_wide)
                      | SemGuest _ _ => 0
                      end;
      granted := λ _, 0; refused := λ _, 0 |}).

Definition for_guest (r : QuotaRegistry) (h : Heap) (guest_id : string) :
    GuestConnectionQuota * (QuotaRegistry * Heap) :=
  match quotas r !! guest_id with
  | Some q => ({| q_id := q; q_global := global r |}, (r, h))
  | None =>
      let (quota, h) := new_quota (limits r) (global r) (next r) h in
      (quota, ({| limits := limits r; global := global r;
                  quotas := <[guest_id := next r]> (quotas r); next := S (next r) |}, h))
  end.

(** ** Histories *)

(** [minted] remembers for whom each allowance was made. *)
Record World := {
  reg : QuotaRegistry; heap : Heap; live : list ConnectionSlot; minted : list (string * nat);
}.

Definition initial (l : QuotaLimits) (host_wide : option Z) : World :=
  let (r, h) := new_registry l host_wide in
  {| reg := r; heap := h; live := []; minted := [] |}.

Definition expire (r : QuotaRegistry) (guest_id : string) : QuotaRegistry :=
  {| limits := limits r; global := global r; quotas := delete guest_id (quotas r);
     next := next r |}.

Inductive step : World → World → Prop :=
  | step_for_guest w g quota r h :
      for_guest (reg w) (heap w) g = (quota, (r, h)) →
      step w {| reg := r; heap := h; live := live w;
                minted := (g, q_id quota) :: minted w |}
  | step_expire w g :
      step w {| reg := expire (reg w) g; heap := heap w; live := live w;
                minted := minted w |}
  | step_acquire w g q s slot h :
      (g, q) ∈ minted w →
      try_acquire {| q_id := q; q_global := global (reg w) |} s (heap w) = (Some slot, h) →
      step w {| reg := reg w; heap := h; live := slot :: live w; minted := minted w |}
  | step_refused w g q s h :
      (g, q) ∈ minted w →
      try_acquire {| q_id := q; q_global := global (reg w) |} s (heap w) = (None, h) →
      step w {| reg := reg w; heap := h; live := live w; minted := minted w |}
  | step_drop w slot l1 l2 :
      live w = l1 ++ slot :: l2 →
      step w {| reg := reg w; heap := drop_slot (heap w) slot; live := l1 ++ l2;
                minted := minted w |}.

Definition reachable l host_wide (w : World) : Prop := rtc step (initial l host_wide) w.

(** Live slots holding a permit of a cell. *)
Definition draws_on (i : SemId) (c : ConnectionSlot) : Prop :=
  slot_guest c = i ∨ slot_global c = Some i.
#[global] Instance draws_on_dec i c : Decision (draws_on i c) := _.
Definition slots_on (i : SemId) (l : list ConnectionSlot) : Z :=
  Z.of_nat (length (filter (draws_on i) l)).

(** ** Deny counters *)

Definition DENY_REASONS : nat := 6.

Record PolicyMeters := {
  denied_cells : list Z; would_deny_cells : list Z; host_path_denied : Z;
}.

Definition default_meters : PolicyMeters :=
  {| denied_cells := replicate DENY_REASONS 0; would_deny_cells := replicate DENY_REASONS 0;
     host_path_denied := 0 |}.

Definition reason_index (r : DenyReason) : nat :=
  match r with
  | NotPermitted => 0
  | BindNotPermitted => 1
  | HostLoopbackNotPermitted => 2
  | HostOwnedPort => 3
  | BlockedRange => 4
  | NoCapacity => 5
  end.

Definition wrap_succ (z : Z) : Z := (z + 1) mod 2 ^ 64.

Definition record_deny (m : PolicyMeters) (r : DenyReason) : PolicyMeters :=
  {| denied_cells := alter wrap_succ (reason_index r) (denied_cells m);
     would_deny_cells := would_deny_cells m; host_path_denied := host_path_denied m |}.

Definition record_would_deny (m : PolicyMeters) (r : DenyReason) : PolicyMeters :=
  {| denied_cells := denied_cells m;
     would_deny_cells := alter wrap_succ (reason_index r) (would_deny_cells m);
     host_path_denied := host_path_denied m |}.

Definition record_host_path_denied (m : PolicyMeters) : PolicyMeters :=
  {| denied_cells := denied_cells m; would_deny_cells := would_deny_cells m;
     host_path_denied := wrap_succ (host_path_denied m) |}.

Definition denied (m : PolicyMeters) (r : DenyReason) : Z :=
  default 0 (denied_cells m !! reason_index r).
Definition would_deny (m : PolicyMeters) (r : DenyReason) : Z :=
  default 0 (would_deny_cells m !! reason_index r).

Definition ALL_REASONS : list DenyReason :=
  [NotPermitted; BindNotPermitted; HostLoopbackNotPermitted; HostOwnedPort; BlockedRange;
   NoCapacity].

Definition nonzero (m : PolicyMeters) : list (DenyReason * Z * Z) :=
  List.filter (λ '(_, d, w), (0 <? d) || (0 <? w))
    ((λ r, (r, denied m r, would_deny m r)) <$> ALL_REASONS).

(** ** Permits are conserved *)

Lemma upd_eq {K} `{EqDecision K} (f : K → Z) k v : upd f k v k = v.
Proof. unfold upd. by rewrite decide_True. Qed.
Lemma upd_ne {K} `{EqDecision K} (f : K → Z) k k' v : k' ≠ k → upd f k v k' = f k'.
Proof. intros. unfold upd. by rewrite decide_False. Qed.

Lemma slots_on_cons i c l :
  slots_on i (c :: l) = (if decide (draws_on i c) then 1 else 0) + slots_on i l.
Proof.
  unfold slots_on. rewrite filter_cons. destruct (decide _); simpl; lia.
Qed.

Lemma slots_on_app i l k : slots_on i (l ++ k) = slots_on i l + slots_on i k.
Proof. unfold slots_on. rewrite list.filter_app, length_app. lia. Qed.

Lemma slots_on_none i l : (∀ c, c ∈ l → ¬ draws_on i c) → slots_on i l = 0.
Proof.
  induction l as [|c l IH]; intros H; [done|]. rewrite slots_on_cons, IH by set_solver.
  rewrite decide_False by set_solver. done.
Qed.

Lemma slots_on_all i l : (∀ c, c ∈ l → draws_on i c) → slots_on i l = Z.of_nat (length l).
Proof.
  induction l as [|c l IH]; intros H; [done|]. rewrite slots_on_cons, IH by set_solver.
  rewrite decide_True by set_solver. simpl. lia.
Qed.

(** The host-wide cell is never a guest's. *)
Definition global_ok (o : option SemId) : Prop := o = None ∨ o = Some SemGlobal.

Lemma try_acquire_Some q s h c h' :
  global_ok (q_global q) → try_acquire q s h = (Some c, h') →
  c = {| slot_guest := SemGuest (q_id q) s; slot_global := q_global q |}
  ∧ ∀ i, permits h' i = permits h i - (if decide (draws_on i c) then 1 else 0)
         ∧ (draws_on i c → 0 < permits h i).
Proof.
  intros Hg. unfold try_acquire, sem_try_acquire.
  destruct (0 <? permits h _) eqn:E1; [|done]. apply Z.ltb_lt in E1.
  destruct Hg as [-> | ->]; simpl.
  - intros [= <- <-]. split; [done|]. intros i. unfold draws_on, upd. simpl.
    destruct (decide (i = _)) as [->|], (decide _) as [Hd|Hd]; naive_solver lia.
  - rewrite upd_ne by done. destruct (0 <? permits h SemGlobal) eqn:E2; [|done].
    apply Z.ltb_lt in E2. simpl. intros [= <- <-]. split; [done|]. intros i.
    unfold draws_on, upd. simpl.
    destruct (decide (i = SemGlobal)) as [->|]; [|destruct (decide (i = _)) as [->|]];
      destruct (decide _) as [Hd|Hd]; naive_solver lia.
Qed.

Lemma try_acquire_None q s h h' :
  global_ok (q_global q) → try_acquire q s h = (None, h') →
  (∀ i, permits h' i = permits h i)
  ∧ (permits h (SemGuest (q_id q) s) ≤ 0 ∨ ∃ g, q_global q = Some g ∧ permits h g ≤ 0).
Proof.
  intros Hg. unfold try_acquire, sem_try_acquire.
  destruct (0 <? permits h _) eqn:E1.
  - apply Z.ltb_lt in E1. destruct Hg as [-> | ->]; simpl; [done|].
    rewrite upd_ne by done. destruct (0 <? permits h SemGlobal) eqn:E2; [done|].
    apply Z.ltb_ge in E2. intros [= <-]. split; [|eauto].
    intros i. simpl. unfold upd. repeat destruct (decide _); subst; try done; lia.
  - apply Z.ltb_ge in E1. intros [= <-]. split; [done|]. by left.
Qed.

Lemma drop_slot_permits h c i :
  slot_global c ≠ Some (slot_guest c) →
  permits (drop_slot h c) i = permits h i + (if decide (draws_on i c) then 1 else 0).
Proof.
  intros Hne. unfold drop_slot, draws_on. destruct c as [g [o|]]; simpl in *; unfold upd.
  - destruct (decide (i = o)) as [->|].
    + rewrite (decide_False (P := o = g)) by congruence.
      destruct (decide _); naive_solver lia.
    + destruct (decide (i = g)) as [->|]; destruct (decide _); naive_solver lia.
  - destruct (decide (i = g)) as [->|]; destruct (decide _); naive_solver lia.
Qed.

(** What a cell started with; [None] for a cell that does not exist. *)
Definition capacity (l : QuotaLimits) (host_wide : option Z) (n : nat) (i : SemId) : option Z :=
  match i with
  | SemGlobal => (λ t, Z.max t 1) <$> host_wide
  | SemGuest q s => if decide (q < n)%nat then Some (Z.max (limit l s) 1) else None
  end.

Record quota_inv (l : QuotaLimits) (host_wide : option Z) (w : World) : Prop := {
  qi_limits : limits (reg w) = l;
  qi_global : global (reg w) = (λ _, SemGlobal) <$> host_wide;
  qi_cells : ∀ i c, capacity l host_wide (next (reg w)) i = Some c →
    permits (heap w) i + slots_on i (live w) = c ∧ 0 ≤ permits (heap w) i;
  qi_live : ∀ c, c ∈ live w → ∃ q s, slot_guest c = SemGuest q s
    ∧ (q < next (reg w))%nat ∧ slot_global c = global (reg w);
  qi_minted : ∀ g q, (g, q) ∈ minted w → (q < next (reg w))%nat;
  qi_cache : ∀ g q, quotas (reg w) !! g = Some q → (g, q) ∈ minted w;
  qi_one : ∀ g g' q, (g, q) ∈ minted w → (g', q) ∈ minted w → g = g';
}.

Lemma qi_global_ok l hw w : quota_inv l hw w → global_ok (global (reg w)).
Proof. intros Hi. rewrite (qi_global _ _ _ Hi). unfold global_ok. destruct hw; simpl; auto. Qed.

Lemma initial_inv l hw : quota_inv l hw (initial l hw).
Proof.
  split; simpl; try done; try set_solver.
  intros [|q s] c; simpl; [|done].
  destruct hw as [t|]; simpl; [|done]. intros [= <-]. unfold slots_on. simpl. lia.
Qed.

Lemma for_guest_preserves l hw w g quota r h :
  for_guest (reg w) (heap w) g = (quota, (r, h)) → quota_inv l hw w →
  quota_inv l hw {| reg := r; heap := h; live := live w; minted := (g, q_id quota) :: minted w |}.
Proof.
  unfold for_guest. intros H Hi. destruct (quotas (reg w) !! g) as [q|] eqn:E.
  - injection H as <- <- <-. pose proof (qi_cache _ _ _ Hi g q E) as Hin.
    split; simpl; try apply Hi.
    + intros g' q' [[= -> ->]|Hm]%elem_of_cons; by eapply qi_minted.
    + intros g' q' Hq. right. by eapply qi_cache.
    + intros g1 g2 q' [H1|H1]%elem_of_cons [H2|H2]%elem_of_cons; simplify_eq/=; try done;
        by eapply (qi_one _ _ _ Hi).
  - simpl in H. injection H as <- <- <-. pose proof (qi_minted _ _ _ Hi) as Hm.
    split; simpl; try apply Hi.
    + intros [|q s] c Hc; simpl in *; [by apply (qi_cells _ _ _ Hi SemGlobal)|].
      destruct (decide (q < S (next (reg w)))%nat) as [Hq|]; [|done]. injection Hc as <-.
      destruct (decide (q = next (reg w))) as [->|Hne].
      * rewrite slots_on_none; [rewrite (qi_limits _ _ _ Hi); lia|].
        intros c Hc [Hd|Hd]; destruct (qi_live _ _ _ Hi c Hc) as (q & s' & Hs & Hlt & Hgl).
        -- rewrite Hs in Hd. injection Hd as -> _. lia.
        -- rewrite Hgl in Hd. destruct (qi_global_ok _ _ _ Hi); congruence.
      * apply (qi_cells _ _ _ Hi (SemGuest q s)). simpl. rewrite decide_True by lia. done.
    + intros c Hc. destruct (qi_live _ _ _ Hi c Hc) as (q & s & ? & ? & ?).
      exists q, s. split; [done|]. split; [lia|done].
    + intros g' q' [[= -> ->]|H']%elem_of_cons; [lia|]. specialize (Hm g' q' H'). lia.
    + intros g' q' Hq. apply lookup_insert_Some in Hq as [[<- <-]|[_ Hq]]; [by left|].
      right. by eapply qi_cache.
    + intros g1 g2 q' [H1|H1]%elem_of_cons [H2|H2]%elem_of_cons; simplify_eq/=; try done.
      * specialize (Hm _ _ H2). lia.
      * specialize (Hm _ _ H1). lia.
      * by eapply (qi_one _ _ _ Hi).
Qed.

Lemma acquire_preserves l hw w g q s c h :
  (g, q) ∈ minted w →
  try_acquire {| q_id := q; q_global := global (reg w) |} s (heap w) = (Some c, h) →
  quota_inv l hw w →
  quota_inv l hw {| reg := reg w; heap := h; live := c :: live w; minted := minted w |}.
Proof.
  intros Hm H Hi. apply try_acquire_Some in H as [Hc Hp]; [|by eapply qi_global_ok].
  split; simpl; try apply Hi.
  - intros i cap Hcap. destruct (qi_cells _ _ _ Hi i cap Hcap) as [He Hn].
    destruct (Hp i) as [-> Hpos]. rewrite slots_on_cons. destruct (decide _); [|lia].
    specialize (Hpos ltac:(done)). lia.
  - intros c' [->|Hc']%elem_of_cons; [|by eapply qi_live].
    exists q, s. subst c. simpl. split; [done|]. split; [by eapply qi_minted|done].
Qed.

Lemma drop_preserves l hw w c l1 l2 :
  live w = l1 ++ c :: l2 → quota_inv l hw w →
  quota_inv l hw {| reg := reg w; heap := drop_slot (heap w) c; live := l1 ++ l2;
                    minted := minted w |}.
Proof.
  intros Hl Hi. assert (∀ c', c' ∈ l1 ++ l2 → c' ∈ live w) as Hsub by (rewrite Hl; set_solver).
  split; simpl; try apply Hi.
  - intros i cap Hcap. destruct (qi_cells _ _ _ Hi i cap Hcap) as [He Hn].
    rewrite drop_slot_permits.
    + rewrite Hl, slots_on_app, slots_on_cons in He. rewrite slots_on_app.
      destruct (decide _); lia.
    + destruct (qi_live _ _ _ Hi c) as (q & s & Hq & _ & Hg); [rewrite Hl; set_solver|].
      rewrite Hq, Hg. destruct (qi_global_ok _ _ _ Hi); congruence.
  - intros c' Hc'. by eapply qi_live, Hsub.
Qed.

Lemma step_preserves_quota l hw w w' : step w w' → quota_inv l hw w → quota_inv l hw w'.
Proof.
  intros Hs Hi. destruct Hs as [w g quota r h H|w g|w g q s c h Hm H|w g q s h Hm H|w c l1 l2 H].
  - by eapply for_guest_preserves.
  - split; simpl; try apply Hi. intros g' q Hq. apply lookup_delete_Some in Hq as [_ Hq].
    by eapply qi_cache.
  - by eapply acquire_preserves.
  - apply try_acquire_None in H as [Hp _]; [|by eapply qi_global_ok].
    split; simpl; try apply Hi. intros i c Hc. rewrite Hp. by apply Hi.
  - by apply drop_preserves.
Qed.

Lemma quota_reachable_inv l hw w : reachable l hw w → quota_inv l hw w.
Proof. apply rtc_invariant; [apply initial_inv|]. intros; by eapply step_preserves_quota. Qed.

(** C4: in every history of lookups, cache expiries, acquisitions, refusals and
    drops, a permit is either available or held by exactly one live slot: each
    allowance's live connections per surface never exceed its ceiling, and all
    guests together never exceed the host-wide one (a configured ceiling of zero
    admits one). *)
Theorem quota_conserved l hw w :
  reachable l hw w →
  (∀ g q s, (g, q) ∈ minted w →
     permits (heap w) (SemGuest q s) + slots_on (SemGuest q s) (live w) = Z.max (limit l s) 1
     ∧ slots_on (SemGuest q s) (live w) ≤ Z.max (limit l s) 1)
  ∧ (∀ total, hw = Some total →
     permits (heap w) SemGlobal + Z.of_nat (length (live w)) = Z.max total 1
     ∧ Z.of_nat (length (live w)) ≤ Z.max total 1).
Proof.
  intros Hi%quota_reachable_inv. split.
  - intros g q s Hm. destruct (qi_cells _ _ _ Hi (SemGuest q s) (Z.max (limit l s) 1)).
    + simpl. rewrite decide_True by (by eapply qi_minted). done.
    + split; [done|lia].
  - intros total ->. destruct (qi_cells _ _ _ Hi SemGlobal (Z.max total 1) eq_refl) as [He Hn].
    assert (slots_on SemGlobal (live w) = Z.of_nat (length (live w))) as Heq.
    { apply slots_on_all. intros c Hc. right.
      destruct (qi_live _ _ _ Hi c Hc) as (q & s & _ & _ & ->). by rewrite (qi_global _ _ _ Hi). }
    rewrite Heq in He. split; [done|lia].
Qed.

(** Running the operations on a world, for concrete histories. *)
Definition run_for_guest (w : World) (g : string) : World :=
  let '(quota, (r, h)) := for_guest (reg w) (heap w) g in
  {| reg := r; heap := h; live := live w; minted := (g, q_id quota) :: minted w |}.

Definition run_acquire (w : World) (q : nat) (s : Surface) : World :=
  match try_acquire {| q_id := q; q_global := global (reg w) |} s (heap w) with
  | (Some slot, h) => {| reg := reg w; heap := h; live := slot :: live w; minted := minted w |}
  | (None, h) => {| reg := reg w; heap := h; live := live w; minted := minted w |}
  end.

Definition run_expire (w : World) (g : string) : World :=
  {| reg := expire (reg w) g; heap := heap w; live := live w; minted := minted w |}.

Lemma run_for_guest_step w g : step w (run_for_guest w g).
Proof.
  unfold run_for_guest. destruct (for_guest _ _ _) as [quota [r h]] eqn:E.
  by econstructor.
Qed.

Lemma run_acquire_step w g q s : (g, q) ∈ minted w → step w (run_acquire w q s).
Proof.
  intros Hm. unfold run_acquire. destruct (try_acquire _ _ _) as [[c|] h] eqn:E.
  - by econstructor.
  - by eapply step_refused.
Qed.

(** One socket per guest, eight on the host: a guest opens one and is refused the
    second. *)
Definition tiny : QuotaLimits :=
  {| limit_outbound_http := 1; limit_outbound_sockets := 1; limit_inbound_sockets := 1 |}.

Definition w_one : World := run_acquire (run_for_guest (initial tiny (Some 8)) "a") 0 OutboundSockets.

Lemma w_one_reachable : reachable tiny (Some 8) w_one.
Proof.
  eapply rtc_l; [apply run_for_guest_step|]. eapply rtc_once, (run_acquire_step _ "a").
  by left.
Qed.

Lemma quota_conserved_witness :
  ("a", 0%nat) ∈ minted w_one ∧ slots_on (SemGuest 0 OutboundSockets) (live w_one) = 1
  ∧ permits (heap w_one) (SemGuest 0 OutboundSockets) + 1 = 1
  ∧ permits (heap w_one) SemGlobal + 1 = 8.
Proof.
  assert (("a", 0%nat) ∈ minted w_one) as Hm by (by left).
  destruct (quota_conserved tiny (Some 8) w_one w_one_reachable) as [Hq Hg].
  split; [exact Hm|]. split; [reflexivity|]. split.
  - exact (proj1 (Hq "a" 0%nat OutboundSockets Hm)).
  - exact (proj1 (Hg 8 eq_refl)).
Defined.

(** taking a slot succeeds exactly when the guest's surface and, when the host
    is capped, the host both have a permit left; a refusal, whichever of the two
    ran out, leaves every permit where it was. *)
Theorem try_acquire_spec q s h :
  global_ok (q_global q) →
  match try_acquire q s h with
  | (Some slot, h') =>
      0 < permits h (SemGuest (q_id q) s)
      ∧ (∀ g, q_global q = Some g → 0 < permits h g)
      ∧ ∀ i, permits (drop_slot h' slot) i = permits h i
  | (None, h') =>
      (permits h (SemGuest (q_id q) s) ≤ 0 ∨ ∃ g, q_global q = Some g ∧ permits h g ≤ 0)
      ∧ ∀ i, permits h' i = permits h i
  end.
Proof.
  intros Hg. destruct (try_acquire q s h) as [[c|] h'] eqn:E.
  - apply try_acquire_Some in E as [-> Hp]; [|done].
    split; [apply Hp; by left|]. split; [intros g Hq; apply Hp; by right|].
    intros i. rewrite drop_slot_permits.
    + destruct (Hp i) as [-> _]. lia.
    + simpl. destruct Hg as [-> | ->]; congruence.
  - apply try_acquire_None in E as [? ?]; done.
Qed.

Lemma try_acquire_spec_witness :
  (try_acquire {| q_id := 0; q_global := Some SemGlobal |} OutboundSockets (heap w_one)).1 = None
  ∧ ∀ i, permits (try_acquire {| q_id := 0; q_global := Some SemGlobal |} OutboundSockets
                    (heap w_one)).2 i = permits (heap w_one) i.
Proof.
  pose proof (try_acquire_spec {| q_id := 0; q_global := Some SemGlobal |} OutboundSockets
                (heap w_one) (or_intror eq_refl)) as H.
  destruct (try_acquire _ _ _) as [[c|] h'] eqn:E.
  - vm_compute in E. discriminate E.
  - split; [reflexivity|]. exact (proj2 H).
Defined.

(** no two guests ever share an allowance, and while the registry remembers a
    guest, every lookup under its id hands back the same one. *)
Theorem guests_do_not_share l hw w g g' q q' w1 :
  reachable l hw w →
  ((g, q) ∈ minted w → (g', q') ∈ minted w → g ≠ g' → q ≠ q')
  ∧ (quotas (reg w) !! g = Some q → for_guest (reg w) (heap w) g = (w1, (reg w, heap w)) →
     q_id w1 = q ∧ q_global w1 = global (reg w)).
Proof.
  intros Hi%quota_reachable_inv. split.
  - intros H1 H2 Hne ->. by apply Hne, (qi_one _ _ _ Hi g g' q').
  - unfold for_guest. intros ->. by intros [= <-].
Qed.

Definition w_two_guests : World := run_for_guest w_one "b".

Lemma guests_do_not_share_witness :
  ("a", 0%nat) ∈ minted w_two_guests ∧ ("b", 1%nat) ∈ minted w_two_guests ∧ 0%nat ≠ 1%nat.
Proof.
  assert (reachable tiny (Some 8) w_two_guests) as Hr.
  { eapply rtc_r; [apply w_one_reachable|apply run_for_guest_step]. }
  assert (("a", 0%nat) ∈ minted w_two_guests) as Ha by (right; by left).
  assert (("b", 1%nat) ∈ minted w_two_guests) as Hb by (by left).
  split; [exact Ha|]. split; [exact Hb|].
  exact (proj1 (guests_do_not_share tiny (Some 8) w_two_guests "a" "b" 0%nat 1%nat
                  {| q_id := 0; q_global := None |} Hr) Ha Hb ltac:(discriminate)).
Defined.

(** the registry forgets an idle guest whether or not its connections are
    still open; the next lookup under the same id mints a second allowance, and
    the guest then holds more live sockets than its ceiling. *)
Theorem expired_guest_exceeds_ceiling :
  ∃ w q q', reachable tiny (Some 8) w ∧ q ≠ q'
    ∧ ("a", q) ∈ minted w ∧ ("a", q') ∈ minted w
    ∧ slots_on (SemGuest q OutboundSockets) (live w)
      + slots_on (SemGuest q' OutboundSockets) (live w)
      > Z.max (limit tiny OutboundSockets) 1.
Proof.
  exists (run_acquire (run_for_guest (run_expire w_one "a") "a") 1 OutboundSockets), 0%nat, 1%nat.
  split.
  - eapply rtc_r; [eapply rtc_r; [eapply rtc_r; [apply w_one_reachable|]|]|].
    + apply step_expire.
    + apply run_for_guest_step.
    + apply (run_acquire_step _ "a"). by left.
  - split; [done|]. split; [right; by left|]. split; [by left|]. reflexivity.
Qed.

(** ** Ceilings *)

Lemma raise_loop_spec fuel have target x :
  0 ≤ have → x ∈ raise_loop fuel have target → have < x ≤ target.
Proof.
  intros Hh. revert target. induction fuel as [|n IH]; intros target; simpl;
    [by intros ?%not_elem_of_nil|].
  destruct (have <? target) eqn:E; [|by intros ?%not_elem_of_nil]. apply Z.ltb_lt in E.
  intros [->|Hx]%elem_of_cons; [lia|]. apply IH in Hx.
  pose proof (Z.div_lt_upper_bound target 2 (target + 1)). lia.
Qed.

(** More rounds change nothing: the loop stopped by its own condition. *)
Lemma raise_loop_fuel n m have target :
  0 ≤ have → target < 2 ^ Z.of_nat n → (n ≤ m)%nat →
  raise_loop m have target = raise_loop n have target.
Proof.
  intros Hh. revert m target. induction n as [|n IH]; intros m target Ht Hm.
  - destruct m; [done|]. simpl. rewrite (proj2 (Z.ltb_ge have target)); [done|].
    change (2 ^ Z.of_nat 0) with 1 in Ht. lia.
  - destruct m as [|m]; [lia|]. simpl. destruct (have <? target); [|done]. f_equal.
    apply IH; [|lia]. rewrite Nat2Z.inj_succ, Z.pow_succ_r in Ht by lia.
    apply Z.div_lt_upper_bound; lia.
Qed.

(** the soft limits worth asking for all lie above what the process has and
    within both the hard limit and the cap of 2^20; the first is the largest one
    allowed; 21 rounds always finish the halving; and applying the plan never
    leaves a smaller budget than before. *)
Theorem raise_plan_spec setrlimit soft hard :
  (∀ s, soft = Some s → 0 ≤ s ≤ u64_MAX) → (∀ m, hard = Some m → 0 ≤ m ≤ u64_MAX) →
  let have := default u64_MAX soft in
  let top := Z.min (default MAX_RAISED_DESCRIPTORS hard) MAX_RAISED_DESCRIPTORS in
  (∀ x, x ∈ raise_plan soft hard → have < x ≤ top)
  ∧ (have < top → head (raise_plan soft hard) = Some top)
  ∧ (∀ m, (21 ≤ m)%nat → raise_loop m have top = raise_plan soft hard)
  ∧ ∃ before after, soft_limit_as_budget soft = Some before
      ∧ raise_descriptor_limit setrlimit soft hard = Some after ∧ before ≤ after.
Proof.
  intros Hs Hm have top.
  assert (0 ≤ have ≤ u64_MAX) as Hhave.
  { unfold have. destruct soft as [s|]; simpl; [by apply Hs|]. unfold u64_MAX. lia. }
  assert (0 ≤ top ≤ MAX_RAISED_DESCRIPTORS) as Htop.
  { unfold top, MAX_RAISED_DESCRIPTORS. destruct hard as [m|]; simpl; [|lia].
    specialize (Hm m eq_refl). lia. }
  assert (∀ x, x ∈ raise_plan soft hard → have < x ≤ top) as Hin.
  { intros x Hx. apply (raise_loop_spec 21); [lia|done]. }
  split; [done|]. split; [|split].
  - intros Hlt. unfold raise_plan. fold have top. simpl.
    by rewrite (proj2 (Z.ltb_lt have top)).
  - intros m Hge. apply raise_loop_fuel; [lia| |done]. unfold MAX_RAISED_DESCRIPTORS in Htop.
    change (2 ^ Z.of_nat 21) with 2097152. lia.
  - assert (∀ v, v ≤ u64_MAX → soft_limit_as_budget (Some v) = Some v) as Hb.
    { intros v Hv. unfold soft_limit_as_budget, usize_MAX. simpl.
      by rewrite (proj2 (Z.leb_le _ _)). }
    assert (∃ b, soft_limit_as_budget soft = Some b
                 ∧ (∀ s, soft = Some s → b = s)) as (b & Hbe & Hbs).
    { destruct soft as [s|]; [|by exists MAX_RAISED_DESCRIPTORS].
      exists s. rewrite Hb by (by apply Hs). naive_solver. }
    exists b. unfold raise_descriptor_limit.
    destruct (List.find _ _) as [t|] eqn:E; [|exists b; split; [done|]; split; [done|lia]].
    apply List.find_some in E as [E _]. apply list_elem_of_In, Hin in E.
    exists t. split; [done|]. rewrite Hb by (unfold MAX_RAISED_DESCRIPTORS, u64_MAX in *; lia). split; [done|].
    destruct soft as [s|]; [|unfold have in E; simpl in E; unfold top, MAX_RAISED_DESCRIPTORS,
      u64_MAX in *; lia]. rewrite (Hbs s eq_refl). unfold have in E. simpl in E. lia.
Qed.

Lemma raise_plan_spec_witness :
  raise_plan (Some 1024) (Some 4096) = [4096; 2048]
  ∧ ∃ before after, soft_limit_as_budget (Some 1024) = Some before
      ∧ raise_descriptor_limit (λ t, t <? 4000) (Some 1024) (Some 4096) = Some after
      ∧ before ≤ after.
Proof.
  split; [reflexivity|].
  apply (raise_plan_spec (λ t, t <? 4000) (Some 1024) (Some 4096));
    intros ? [= <-]; unfold u64_MAX; lia.
Defined.

Lemma share_of_bounds soft n d :
  MIN_DERIVED_MAX_CONNECTIONS ≤ share_of soft n d ≤ MAX_DERIVED_MAX_CONNECTIONS.
Proof.
  unfold share_of, clamp, ASSUMED_MAX_CONNECTIONS, MIN_DERIVED_MAX_CONNECTIONS,
    MAX_DERIVED_MAX_CONNECTIONS. destruct soft; lia.
Qed.

(** ** Meters *)

Definition meters_wf (m : PolicyMeters) : Prop :=
  length (denied_cells m) = DENY_REASONS ∧ length (would_deny_cells m) = DENY_REASONS.

Lemma reason_index_inj r r' : reason_index r = reason_index r' → r = r'.
Proof. by destruct r, r'. Qed.

Lemma reason_index_lt r : (reason_index r < DENY_REASONS)%nat.
Proof. destruct r; unfold DENY_REASONS; simpl; lia. Qed.

Lemma alter_cells (l : list Z) r r' :
  length l = DENY_REASONS →
  default 0 (alter wrap_succ (reason_index r) l !! reason_index r')
  = if decide (r = r') then wrap_succ (default 0 (l !! reason_index r'))
    else default 0 (l !! reason_index r').
Proof.
  intros Hl. destruct (decide (r = r')) as [->|Hne].
  - rewrite list_lookup_alter_eq.
    destruct (lookup_lt_is_Some_2 l (reason_index r')) as [z ->]; [|done].
    rewrite Hl. apply reason_index_lt.
  - rewrite list_lookup_alter_ne; [done|]. by intros ?%reason_index_inj.
Qed.

Lemma record_deny_spec m r r' :
  meters_wf m →
  denied (record_deny m r) r' = (if decide (r = r') then wrap_succ (denied m r') else denied m r')
  ∧ would_deny (record_deny m r) r' = would_deny m r' ∧ meters_wf (record_deny m r).
Proof.
  intros [Hd Hw]. unfold denied, would_deny, meters_wf. simpl.
  rewrite alter_cells by done. by rewrite length_alter.
Qed.

Lemma record_would_deny_spec m r r' :
  meters_wf m →
  would_deny (record_would_deny m r) r'
  = (if decide (r = r') then wrap_succ (would_deny m r') else would_deny m r')
  ∧ denied (record_would_deny m r) r' = denied m r' ∧ meters_wf (record_would_deny m r).
Proof.
  intros [Hd Hw]. unfold denied, would_deny, meters_wf. simpl.
  rewrite alter_cells by done. by rewrite length_alter.
Qed.

Lemma nonzero_elem m r d w :
  (r, d, w) ∈ nonzero m ↔ d = denied m r ∧ w = would_deny m r ∧ (0 < d ∨ 0 < w).
Proof.
  unfold nonzero. rewrite list_elem_of_In, filter_In, <-list_elem_of_In, list_elem_of_fmap.
  rewrite orb_true_iff, !Z.ltb_lt. split.
  - intros [(r' & Heq & _) Hpos]. by simplify_eq.
  - intros (-> & -> & H). split; [|done]. exists r. split; [done|].
    unfold ALL_REASONS. destruct r; set_solver.
Qed.
