(* ===== verification/ResolvedNames.v ===== *)
(** * Names a store has resolved

    [sockets/resolved_names.rs]: the table that lets an [allowedHosts] entry naming
    a host permit a raw socket to the address that name returned.

    [BTreeMap] and [BTreeSet] are [gmap] and [gset]; [first()] is [set_first], the
    least element of Rust's order.  An [Instant] is a number of nanoseconds of the
    monotonic clock, bounded by Linux's 64-bit timespec ([checked_add]); the clock
    and the system resolver are arguments.  The eviction and purge loops carry as
    fuel the size of the set they shrink, which [remove_shrinks] and
    [evict_shrinks] show to be enough: each round removes an element. *)

From Stdlib Require Import ZArith Lia.
From stdpp Require Import base list gmap sets strings option.
From S2P Require Import Prelude RustStr Net UriLib AllowedIpName AllowedHosts.
Local Open Scope Z_scope.

(** ** Time *)

Abbreviation Instant := Z.
Definition INSTANT_MAX : Z := (2 ^ 63 - 1) * 1000000000 + 999999999.

(** [Instant::checked_add]; durations are non-negative nanoseconds. *)
Definition checked_add (t d : Z) : option Instant :=
  if t + d <=? INSTANT_MAX then Some (t + d) else None.

(** ** The table *)

Record ResolvedNameLimits := {
  lifetime : option Z; max_names : nat; max_associations : nat;
}.

Definition default_name_limits : ResolvedNameLimits :=
  {| lifetime := None; max_names := 256; max_associations := 4096 |}.

Record NameEntry := { addrs : gset IpAddr; newest : Instant }.

Record Inner := {
  by_addr : gmap IpAddr (gmap string Instant);
  names : gmap string NameEntry;
  by_observed : gset (Instant * IpAddr * string);
  by_newest : gset (Instant * string);
}.

Definition empty_inner : Inner :=
  {| by_addr := ∅; names := ∅; by_observed := ∅; by_newest := ∅ |}.

Definition touch (i : Inner) (name : string) (observed : Instant) : Inner :=
  match names i !! name with
  | None => i
  | Some entry =>
      if newest entry <? observed then
        {| by_addr := by_addr i;
           names := <[name := {| addrs := addrs entry; newest := observed |}]> (names i);
           by_observed := by_observed i;
           by_newest := {[(observed, name)]} ∪ (by_newest i ∖ {[(newest entry, name)]}) |}
      else i
  end.

Definition remove (i : Inner) (addr : IpAddr) (name : string) : Inner :=
  match by_addr i !! addr with
  | None => i
  | Some grants =>
      match grants !! name with
      | None => i
      | Some observed =>
          let grants := delete name grants in
          let by_addr' := if decide (grants = ∅) then delete addr (by_addr i)
                          else <[addr := grants]> (by_addr i) in
          let by_observed' := by_observed i ∖ {[(observed, addr, name)]} in
          match names i !! name with
          | None => {| by_addr := by_addr'; names := names i; by_observed := by_observed';
                       by_newest := by_newest i |}
          | Some entry =>
              let addrs' := addrs entry ∖ {[addr]} in
              if decide (addrs' = ∅) then
                {| by_addr := by_addr'; names := delete name (names i);
                   by_observed := by_observed';
                   by_newest := by_newest i ∖ {[(newest entry, name)]} |}
              else
                {| by_addr := by_addr';
                   names := <[name := {| addrs := addrs'; newest := newest entry |}]> (names i);
                   by_observed := by_observed'; by_newest := by_newest i |}
          end
      end
  end.

(** [while let Some(..) = self.by_observed.first()]. *)
Fixpoint purge_loop (fuel : nat) (i : Inner) (now : Instant) (life : Z) : Inner :=
  match fuel with
  | O => i
  | S fuel =>
      match set_first (by_observed i) with
      | None => i
      | Some (observed, addr, name) =>
          if is_none_or (checked_add observed life) (λ deadline, now <? deadline) then i
          else purge_loop fuel (remove i addr name) now life
      end
  end.

Definition purge_expired (i : Inner) (now : Instant) (life : option Z) : Inner :=
  match life with
  | None => i
  | Some life => purge_loop (S (size (by_observed i))) i now life
  end.

(** The addresses are cloned first, then removed one by one. *)
Definition evict_stalest_name (i : Inner) : bool * Inner :=
  match set_first (by_newest i) with
  | None => (false, i)
  | Some (_, name) =>
      let addrs := default ∅ (addrs <$> names i !! name) in
      (true, foldl (λ i addr, remove i addr name) i (elements addrs))
  end.

(** A [while] loop whose body may [return] from the enclosing function. *)
Inductive flow := Continue (i : Inner) | Return (i : Inner).
Definition flow_state (f : flow) : Inner :=
  match f with Continue i | Return i => i end.

Fixpoint shrink_associations (fuel : nat) (i : Inner) (max : nat) : flow :=
  match fuel with
  | O => Continue i
  | S fuel =>
      if (max <=? size (by_observed i))%nat then
        match set_first (by_observed i) with
        | None => Return i
        | Some (_, addr, name) => shrink_associations fuel (remove i addr name) max
        end
      else Continue i
  end.

Fixpoint shrink_names (fuel : nat) (i : Inner) (name : string) (max : nat) : flow :=
  match fuel with
  | O => Continue i
  | S fuel =>
      if bool_decide (names i !! name = None) && (max <=? size (names i))%nat then
        match evict_stalest_name i with
        | (false, i) => Return i
        | (true, i) => shrink_names fuel i name max
        end
      else Continue i
  end.

(** The tail of [insert]: the association is new and there is room for it. *)
Definition add_name (i : Inner) (name : string) (observed : Instant) : Inner :=
  match names i !! name with
  | Some _ => i
  | None =>
      {| by_addr := by_addr i;
         names := <[name := {| addrs := ∅; newest := observed |}]> (names i);
         by_observed := by_observed i;
         by_newest := {[(observed, name)]} ∪ by_newest i |}
  end.

Definition add_entry_addr (i : Inner) (name : string) (addr : IpAddr) : Inner :=
  match names i !! name with
  | None => i
  | Some entry =>
      {| by_addr := by_addr i;
         names := <[name := {| addrs := {[addr]} ∪ addrs entry; newest := newest entry |}]>
                    (names i);
         by_observed := by_observed i; by_newest := by_newest i |}
  end.

Definition add_association (i : Inner) (name : string) (addr : IpAddr) (observed : Instant) :
    Inner :=
  let i := touch (add_entry_addr (add_name i name observed) name addr) name observed in
  {| by_addr := <[addr := <[name := observed]> (default ∅ (by_addr i !! addr))]> (by_addr i);
     names := names i;
     by_observed := {[(observed, addr, name)]} ∪ by_observed i;
     by_newest := by_newest i |}.

(** An address returned again is refreshed in place, and only ever forward. *)
Definition forward (i : Inner) (name : string) (addr : IpAddr) (grants : gmap string Instant)
    (recorded observed : Instant) : Inner :=
  if recorded <? observed then
    {| by_addr := <[addr := <[name := observed]> grants]> (by_addr i);
       names := names i;
       by_observed := {[(observed, addr, name)]} ∪ (by_observed i ∖ {[(recorded, addr, name)]});
       by_newest := by_newest i |}
  else i.

Definition refresh (i : Inner) (name : string) (addr : IpAddr) (grants : gmap string Instant)
    (recorded observed : Instant) : Inner :=
  touch (forward i name addr grants recorded observed) name observed.

Definition insert_new (i : Inner) (name : string) (addr : IpAddr) (observed now : Instant)
    (limits : ResolvedNameLimits) : Inner :=
  let is_new_name := bool_decide (names i !! name = None) in
  let i :=
    if (max_associations limits <=? size (by_observed i))%nat
       || (is_new_name && (max_names limits <=? size (names i))%nat)
    then purge_expired i now (lifetime limits) else i in
  match shrink_associations (S (size (by_observed i))) i (max_associations limits) with
  | Return i => i
  | Continue i =>
      match shrink_names (S (size (names i))) i name (max_names limits) with
      | Return i => i
      | Continue i => add_association i name addr observed
      end
  end.

Definition insert (i : Inner) (name : string) (addr : IpAddr) (observed now : Instant)
    (limits : ResolvedNameLimits) : Inner :=
  match names i !! name, by_addr i !! addr with
  | Some _, Some grants =>
      match grants !! name with
      | Some recorded => refresh i name addr grants recorded observed
      | None => insert_new i name addr observed now limits
      end
  | _, _ => insert_new i name addr observed now limits
  end.

(** ** [ResolvedNames] *)

Definition record_at (limits : ResolvedNameLimits) (i : Inner) (name : string)
    (addrs : list IpAddr) (observed now : Instant) : Inner :=
  let lapsed := is_some_and (lifetime limits) (λ life,
    is_some_and (checked_add observed life) (λ deadline, deadline <=? now)) in
  if lapsed || (max_names limits =? 0)%nat || (max_associations limits =? 0)%nat then i
  else foldl (λ i addr, insert i name (to_canonical addr) observed now limits) i addrs.

(** [one.zip(other).map(max)]: a deadline that never comes absorbs the others. *)
Definition later (one other : option Instant) : option Instant :=
  match one, other with
  | Some one, Some other => Some (Z.max one other)
  | _, _ => None
  end.

Definition reduce_later (l : list (option Instant)) : option (option Instant) :=
  match l with
  | [] => None
  | d :: l => Some (foldl later d l)
  end.

Section policy.
Context `{UriLib}.

(** [filter_map]'s closure: the deadline of a name that grants [port] now. *)
Definition grant_deadline (limits : ResolvedNameLimits) (policy : list AllowedHost) (port : Z)
    (now : Instant) (name : string) (observed : Instant) : option (option Instant) :=
  let deadline := life ← lifetime limits; checked_add observed life in
  if is_none_or deadline (λ deadline, now <? deadline)
     && existsb (λ e, permits_name e name port) policy
  then Some deadline else None.

Definition permitted_until_at (limits : ResolvedNameLimits) (i : Inner)
    (policy : list AllowedHost) (addr : SocketAddr) (now : Instant) :
    option (option Instant) :=
  match by_addr i !! to_canonical (sock_ip addr) with
  | None => None
  | Some grants =>
      reduce_later (omap (λ '(name, observed),
        grant_deadline limits policy (sock_port addr) now name observed) (map_to_list grants))
  end.
End policy.

(** ** Lookups *)

Definition normalize_name (host : UrlHost) : option string :=
  match host with
  | Domain domain =>
      let domain := strip_root_dot domain in
      if is_empty domain then None else Some (to_ascii_lowercase domain)
  | HostIpv4 _ | HostIpv6 _ => None
  end.

Record Observation := { obs_name : string; obs_observed : Instant }.
Record Lookup := { addresses : list IpAddr; observation : option Observation }.

Definition fixed (l : list IpAddr) : Lookup := {| addresses := l; observation := None |}.

(** [resolve] is the system resolver; [now] the clock once it has answered. *)
Definition lookup_blocking {E} (resolve : string → result (list SocketAddr) E) (now : Instant)
    (host : UrlHost) : result Lookup E :=
  match host with
  | HostIpv4 a => Ok (fixed [V4 a])
  | HostIpv6 a => Ok (fixed [V6 a])
  | Domain domain =>
      if ends_with ".localhost" domain && negb (String.eqb domain "localhost") then
        Ok (fixed [V4 LOCALHOST_V4; V6 LOCALHOST_V6])
      else
        (let? answers := resolve domain in
         Ok {| addresses := (λ a, to_canonical (sock_ip a)) <$> answers;
               observation := (λ name, {| obs_name := name; obs_observed := now |})
                                <$> normalize_name host |})%rust
  end.

(** ** The table as one map

    The three indexes are views of one finite map from (address, name) to the
    observation that is recorded; [assoc] reads it off [by_addr]. *)

Definition assoc (i : Inner) (a : IpAddr) (n : string) : option Instant :=
  g ← by_addr i !! a; g !! n.

Record inv (i : Inner) : Prop := {
  inv_observed : ∀ t a n, (t, a, n) ∈ by_observed i ↔ assoc i a n = Some t;
  inv_nonempty : ∀ a g, by_addr i !! a = Some g → g ≠ ∅;
  inv_addrs : ∀ n e, names i !! n = Some e →
    addrs e ≠ ∅ ∧ ∀ a, a ∈ addrs e ↔ is_Some (assoc i a n);
  inv_named : ∀ a n t, assoc i a n = Some t → ∃ e, names i !! n = Some e ∧ t ≤ newest e;
  inv_newest : ∀ t n, (t, n) ∈ by_newest i ↔ ∃ e, names i !! n = Some e ∧ newest e = t;
}.

Lemma empty_inv : inv empty_inner.
Proof.
  split; unfold assoc; simpl; setoid_rewrite lookup_empty; try done; simpl; set_solver.
Qed.

Lemma names_of_assoc i a n t :
  inv i → assoc i a n = Some t → ∃ e, names i !! n = Some e ∧ t ≤ newest e ∧ a ∈ addrs e.
Proof.
  intros Hi Ha. destruct (inv_named i Hi a n t Ha) as (e & He & Hle).
  exists e. split; [done|]. split; [done|]. apply (inv_addrs i Hi n e He). by rewrite Ha.
Qed.

(** *** [remove] *)

Definition remove_by_addr (m : gmap IpAddr (gmap string Instant)) (a : IpAddr)
    (g : gmap string Instant) (n : string) : gmap IpAddr (gmap string Instant) :=
  if decide (delete n g = ∅) then delete a m else <[a := delete n g]> m.

Lemma remove_by_addr_lookup m a g n a' n' :
  m !! a = Some g →
  (remove_by_addr m a g n !! a' ≫= (.!! n'))
  = if decide (a' = a ∧ n' = n) then None else m !! a' ≫= (.!! n').
Proof.
  intros Hg. unfold remove_by_addr.
  destruct (decide (delete n g = ∅)) as [He|He]; destruct (decide (a' = a)) as [->|Ha].
  - rewrite lookup_delete_eq, Hg. simpl. destruct (decide (n' = n)) as [->|Hn].
    + by rewrite decide_True.
    + rewrite decide_False by naive_solver. rewrite <-(lookup_delete_ne g n n') by done.
      by rewrite He, lookup_empty.
  - rewrite lookup_delete_ne by done. by rewrite decide_False by naive_solver.
  - rewrite lookup_insert_eq, Hg. simpl. destruct (decide (n' = n)) as [->|Hn].
    + rewrite decide_True by done. apply lookup_delete_eq.
    + rewrite decide_False by naive_solver. by apply lookup_delete_ne.
  - rewrite lookup_insert_ne by done. by rewrite decide_False by naive_solver.
Qed.

Lemma remove_absent i a n : assoc i a n = None → remove i a n = i.
Proof.
  unfold assoc, remove. destruct (by_addr i !! a) as [g|]; simpl; [|done]. by intros ->.
Qed.

(** What [remove] leaves, for an association that is there. *)
Lemma remove_present i a n t :
  inv i → assoc i a n = Some t → ∃ g e,
    by_addr i !! a = Some g ∧ names i !! n = Some e ∧
    remove i a n =
      {| by_addr := remove_by_addr (by_addr i) a g n;
         names := if decide (addrs e ∖ {[a]} = ∅) then delete n (names i)
                  else <[n := {| addrs := addrs e ∖ {[a]}; newest := newest e |}]> (names i);
         by_observed := by_observed i ∖ {[(t, a, n)]};
         by_newest := if decide (addrs e ∖ {[a]} = ∅) then by_newest i ∖ {[(newest e, n)]}
                      else by_newest i |}.
Proof.
  intros Hi Ha. destruct (names_of_assoc i a n t Hi Ha) as (e & He & _ & _).
  unfold assoc in Ha. destruct (by_addr i !! a) as [g|] eqn:Hg; [|done]. simpl in Ha.
  exists g, e. split; [done|]. split; [done|].
  unfold remove. rewrite Hg, Ha, He. by destruct (decide (addrs e ∖ {[a]} = ∅)).
Qed.

Lemma remove_assoc i a n a' n' :
  inv i →
  assoc (remove i a n) a' n' = if decide (a' = a ∧ n' = n) then None else assoc i a' n'.
Proof.
  intros Hi. destruct (assoc i a n) as [t|] eqn:Ha.
  - destruct (remove_present i a n t Hi Ha) as (g & e & Hg & He & ->).
    by apply remove_by_addr_lookup.
  - rewrite remove_absent by done. by destruct (decide _) as [[-> ->]|].
Qed.

Lemma remove_observed i a n :
  inv i → by_observed (remove i a n) = match assoc i a n with
                                       | Some t => by_observed i ∖ {[(t, a, n)]}
                                       | None => by_observed i
                                       end.
Proof.
  intros Hi. destruct (assoc i a n) as [t|] eqn:Ha.
  - by destruct (remove_present i a n t Hi Ha) as (g & e & _ & _ & ->).
  - by rewrite remove_absent.
Qed.

Lemma remove_names_sub i a n n' :
  inv i → names i !! n' = None → names (remove i a n) !! n' = None.
Proof.
  intros Hi Hn. destruct (assoc i a n) as [t|] eqn:Ha; [|by rewrite remove_absent].
  destruct (remove_present i a n t Hi Ha) as (g & e & _ & He & ->). simpl.
  assert (n ≠ n') by congruence.
  destruct (decide _); [by rewrite lookup_delete_ne|by rewrite lookup_insert_ne].
Qed.

Lemma remove_inv i a n : inv i → inv (remove i a n).
Proof.
  intros Hi. destruct (assoc i a n) as [t|] eqn:Ha; [|by rewrite remove_absent].
  pose proof (remove_assoc i a n) as Hassoc. specialize (λ a' n', Hassoc a' n' Hi).
  destruct (remove_present i a n t Hi Ha) as (g & e & Hg & He & Heq).
  rewrite Heq in Hassoc |- *. destruct (inv_addrs i Hi n e He) as [Hne Hadd].
  split; simpl.
  - intros t' a' n'. rewrite Hassoc, elem_of_difference, elem_of_singleton, (inv_observed i Hi).
    destruct (decide (a' = a ∧ n' = n)) as [[-> ->]|]; [|naive_solver]. rewrite Ha. naive_solver.
  - intros a' g'. unfold remove_by_addr. destruct (decide (delete n g = ∅)) as [|Hd].
    + intros [_ H]%lookup_delete_Some. by eapply inv_nonempty.
    + intros [[<- <-]|[_ H]]%lookup_insert_Some; [done|]. by eapply inv_nonempty.
  - intros n' e' Hn'. destruct (decide (addrs e ∖ {[a]} = ∅)) as [Hemp|Hemp].
    + apply lookup_delete_Some in Hn' as [Hnn Hn'].
      destruct (inv_addrs i Hi n' e' Hn') as [Hne' Hadd']. split; [done|].
      intros a'. rewrite Hadd', Hassoc. by rewrite decide_False by naive_solver.
    + apply lookup_insert_Some in Hn' as [[<- <-]|[Hnn Hn']]; simpl.
      * split; [done|]. intros a'. rewrite Hassoc, elem_of_difference, Hadd, elem_of_singleton.
        destruct (decide (a' = a ∧ n = n)) as [[-> _]|Hd]; [|naive_solver].
        split; [naive_solver|by intros []].
      * destruct (inv_addrs i Hi n' e' Hn') as [Hne' Hadd']. split; [done|].
        intros a'. rewrite Hadd', Hassoc. by rewrite decide_False by naive_solver.
  - intros a' n' t'. rewrite Hassoc. destruct (decide (a' = a ∧ n' = n)) as [|Hd]; [done|]. intros Hat.
    destruct (inv_named i Hi a' n' t' Hat) as (e' & He' & Hle).
    destruct (decide (addrs e ∖ {[a]} = ∅)) as [Hemp|Hemp].
    + exists e'. rewrite lookup_delete_ne; [done|]. intros <-. apply Hd. split; [|done].
      assert (a' ∈ addrs e) by (apply Hadd; by rewrite Hat). set_solver.
    + destruct (decide (n' = n)) as [->|Hnn].
      * eexists. rewrite lookup_insert_eq. split; [done|]. simpl. congruence.
      * exists e'. by rewrite lookup_insert_ne.
  - intros t' n'. destruct (decide (addrs e ∖ {[a]} = ∅)) as [Hemp|Hemp].
    + rewrite elem_of_difference, elem_of_singleton, (inv_newest i Hi).
      setoid_rewrite lookup_delete_Some. split.
      * intros [(e' & He' & <-) Hx]. exists e'. split; [|done]. split; [|done].
        intros <-. apply Hx. congruence.
      * intros (e' & [Hnn He'] & <-). split; [by eauto|]. congruence.
    + rewrite (inv_newest i Hi). destruct (decide (n' = n)) as [->|Hnn].
      * rewrite lookup_insert_eq, He. naive_solver.
      * by rewrite lookup_insert_ne.
Qed.

Lemma remove_shrinks i a n t :
  inv i → assoc i a n = Some t → size (by_observed i) = S (size (by_observed (remove i a n))).
Proof.
  intros Hi Ha. rewrite remove_observed, Ha by done.
  assert ((t, a, n) ∈ by_observed i) as Hin by (by apply inv_observed).
  rewrite size_difference, size_singleton by set_solver.
  assert (size (by_observed i) ≠ 0%nat); [|lia].
  rewrite size_non_empty_iff. set_solver.
Qed.

(** *** Sequences of removals *)

Definition prune_step (i i' : Inner) : Prop := ∃ a n, i' = remove i a n.
Abbreviation pruned := (rtc prune_step).

Record prunes_to (i i' : Inner) : Prop := {
  pr_inv : inv i';
  pr_assoc : ∀ a n t, assoc i' a n = Some t → assoc i a n = Some t;
  pr_names : ∀ n, names i !! n = None → names i' !! n = None;
  pr_size : (size (by_observed i') ≤ size (by_observed i))%nat;
}.

Lemma pruned_spec i i' : inv i → pruned i i' → prunes_to i i'.
Proof.
  intros Hi Hp. revert Hi. induction Hp as [i|i j k (a & n & ->) _ IH]; intros Hi.
  { by split. }
  destruct (IH (remove_inv i a n Hi)) as [Hk Has Hnm Hsz]. split; [done| | |].
  - intros a' n' t Ht%Has. rewrite remove_assoc in Ht by done. by destruct (decide _).
  - intros n' Hn'. by apply Hnm, remove_names_sub.
  - destruct (assoc i a n) as [t|] eqn:E.
    + rewrite (remove_shrinks i a n t) by done. lia.
    + by rewrite remove_absent in Hsz.
Qed.

Lemma pruned_remove i a n : pruned i (remove i a n).
Proof. apply rtc_once. by exists a, n. Qed.

Lemma observed_leb (t t' : Z) (a a' : IpAddr) (n n' : string) :
  ord_leb (t, a, n) (t', a', n') = true → t ≤ t'.
Proof.
  unfold ord_leb. cbn [cmp pair_ord]. unfold pair_cmp. cbn [fst snd cmp pair_ord].
  unfold pair_cmp. cbn [fst snd cmp Z_ord].
  destruct (Z.compare_spec t t'); intros Hc; [lia..|]. done.
Qed.

(** The first association: recorded, and observed no later than any other. *)
Lemma first_observed i t a n :
  inv i → set_first (by_observed i) = Some (t, a, n) →
  assoc i a n = Some t ∧ ∀ a' n' t', assoc i a' n' = Some t' → t ≤ t'.
Proof.
  intros Hi [Hin Hmin]%set_first_Some. split; [by apply inv_observed|].
  intros a' n' t' Ha'. apply (inv_observed i Hi) in Ha'.
  by apply Hmin, observed_leb in Ha'.
Qed.

(** *** Purging *)

Definition expired (life now t : Z) : Prop := ∃ d, checked_add t life = Some d ∧ d ≤ now.

Lemma expired_mono life now t t' : t ≤ t' → expired life now t' → expired life now t.
Proof.
  unfold expired, checked_add. intros Hle (d & Hd & Hn).
  destruct (t' + life <=? INSTANT_MAX) eqn:E; [|done]. bools. injection Hd as <-.
  exists (t + life). rewrite (proj2 (Z.leb_le _ _)) by lia. split; [done|lia].
Qed.

Lemma unexpired_test life now t :
  is_none_or (checked_add t life) (λ d, now <? d) = true ↔ ¬ expired life now t.
Proof.
  unfold expired. destruct (checked_add t life) as [d|]; simpl.
  - rewrite Z.ltb_lt. split; [intros ? (? & [= <-] & ?); lia|].
    intros Hn. destruct (Z.lt_ge_cases now d); [done|]. exfalso. naive_solver.
  - naive_solver.
Qed.

Lemma purge_loop_spec fuel i now life :
  inv i → (size (by_observed i) < fuel)%nat →
  let i' := purge_loop fuel i now life in
  pruned i i'
  ∧ (∀ a n t, assoc i' a n = Some t → ¬ expired life now t)
  ∧ (∀ a n t, assoc i a n = Some t → ¬ expired life now t → assoc i' a n = Some t).
Proof.
  revert i. induction fuel as [|fuel IH]; intros i Hi Hlt; [lia|]. cbn [purge_loop].
  destruct (set_first (by_observed i)) as [[[t a] n]|] eqn:E.
  - destruct (first_observed i t a n Hi E) as [Ha Hmin].
    destruct (is_none_or _ _) eqn:Hx.
    + apply unexpired_test in Hx. split; [done|]. split; [|done].
      intros a' n' t' Ha' He. apply Hx. eapply expired_mono; [|done]. eauto.
    + rewrite (remove_shrinks i a n t) in Hlt by done.
      destruct (IH (remove i a n) (remove_inv i a n Hi)) as (Hp & Hno & Hk); [lia|].
      split; [eapply rtc_l; [by exists a, n|done]|]. split; [done|].
      intros a' n' t' Ha' He. apply Hk; [|done]. rewrite remove_assoc by done.
      destruct (decide _) as [[-> ->]|]; [|done]. exfalso.
      rewrite Ha in Ha'. injection Ha' as ->. apply unexpired_test in He. congruence.
  - split; [done|]. split; [|done]. apply set_first_None in E.
    intros a n t Ha%(inv_observed i Hi). set_solver.
Qed.

Lemma purge_expired_pruned i now life : inv i → pruned i (purge_expired i now life).
Proof.
  intros Hi. destruct life as [life|]; [|done]. unfold purge_expired.
  apply purge_loop_spec; [done|lia].
Qed.

(** *** Evicting associations *)

Lemma shrink_associations_spec fuel i max :
  inv i → (0 < max)%nat → (size (by_observed i) < fuel)%nat →
  ∃ i', shrink_associations fuel i max = Continue i' ∧ pruned i i'
    ∧ (size (by_observed i') < max)%nat
    ∧ (∀ a n t a' n' t', assoc i a n = Some t → assoc i' a n = None →
         assoc i' a' n' = Some t' → t ≤ t').
Proof.
  intros Hi Hmax. revert i Hi. induction fuel as [|fuel IH]; intros i Hi Hlt; [lia|].
  cbn [shrink_associations]. destruct (Nat.leb_spec max (size (by_observed i))) as [Hge|Hlt'].
  2:{ exists i. split; [done|]. split; [done|]. split; [done|]. congruence. }
  destruct (set_first (by_observed i)) as [[[t a] n]|] eqn:E.
  2:{ apply set_first_None in E. rewrite E, size_empty in Hge. lia. }
  destruct (first_observed i t a n Hi E) as [Ha Hmin].
  rewrite (remove_shrinks i a n t) in Hlt by done.
  destruct (IH (remove i a n) (remove_inv i a n Hi)) as (i' & -> & Hp & Hsz & Hold); [lia|].
  exists i'. split; [done|]. split; [eapply rtc_l; [by exists a, n|done]|]. split; [done|].
  intros a1 n1 t1 a2 n2 t2 H1 Hnone H2. destruct (decide (a1 = a ∧ n1 = n)) as [[-> ->]|Hd].
  - apply (pr_assoc _ _ (pruned_spec _ _ (remove_inv i a n Hi) Hp)) in H2.
    rewrite remove_assoc in H2 by done. destruct (decide _); [done|].
    rewrite Ha in H1. injection H1 as <-. eauto.
  - apply (Hold a1 n1 t1 a2 n2 t2); [|done..]. rewrite remove_assoc by done.
    by rewrite decide_False.
Qed.

(** *** Evicting names *)

Lemma remove_all_spec n l i :
  inv i → let i' := foldl (λ i a, remove i a n) i l in
  pruned i i' ∧ ∀ a, a ∈ l → assoc i' a n = None.
Proof.
  revert i. induction l as [|a l IH]; intros i Hi; simpl.
  { split; [done|]. by intros a ?%not_elem_of_nil. }
  destruct (IH (remove i a n) (remove_inv i a n Hi)) as [Hp Hnone].
  split; [eapply rtc_l; [by exists a, n|done]|].
  intros a' [->|Ha']%elem_of_cons; [|by apply Hnone].
  destruct (assoc _ a n) as [t|] eqn:E; [|done].
  apply (pr_assoc _ _ (pruned_spec _ _ (remove_inv i a n Hi) Hp)) in E.
  rewrite remove_assoc in E by done. by rewrite decide_True in E.
Qed.

Lemma names_none_iff i n : inv i → names i !! n = None ↔ ∀ a, assoc i a n = None.
Proof.
  intros Hi. split.
  - intros Hn a. destruct (assoc i a n) as [t|] eqn:E; [|done].
    destruct (inv_named i Hi a n t E) as (e & He & _). congruence.
  - intros Hall. destruct (names i !! n) as [e|] eqn:E; [|done].
    destruct (inv_addrs i Hi n e E) as [Hne Hadd]. exfalso. apply Hne.
    apply set_eq. intros a. rewrite Hadd, Hall. split; [by intros []|set_solver].
Qed.

Lemma pruned_dom i i' : prunes_to i i' → dom (names i') ⊆ dom (names i).
Proof.
  intros Hp n. rewrite !elem_of_dom. intros Hn. destruct (names i !! n) eqn:E; [done|].
  apply (pr_names _ _ Hp) in E. rewrite E in Hn. by destruct Hn.
Qed.

Lemma evict_spec i :
  inv i → names i ≠ ∅ →
  ∃ i' stale e, evict_stalest_name i = (true, i') ∧ pruned i i'
    ∧ names i !! stale = Some e ∧ (∀ n e', names i !! n = Some e' → newest e ≤ newest e')
    ∧ names i' !! stale = None ∧ (size (names i') < size (names i))%nat.
Proof.
  intros Hi Hne. unfold evict_stalest_name.
  destruct (map_choose (names i) Hne) as (n0 & e0 & Hn0).
  destruct (set_first (by_newest i)) as [[t stale]|] eqn:E.
  2:{ exfalso. apply set_first_None in E. assert ((newest e0, n0) ∈ by_newest i); [|set_solver].
      apply (inv_newest i Hi). eauto. }
  apply set_first_Some in E as [Hin Hmin]. apply (inv_newest i Hi) in Hin as (e & He & <-).
  rewrite He. simpl. destruct (remove_all_spec stale (elements (addrs e)) i Hi) as [Hp Hnone].
  pose proof (pruned_spec _ _ Hi Hp) as Hps.
  assert (names (foldl (λ i a, remove i a stale) i (elements (addrs e))) !! stale = None) as Hgone.
  { apply names_none_iff; [apply Hps|]. intros a. destruct (assoc _ a stale) eqn:Ha; [|done].
    rewrite Hnone in Ha; [done|]. apply elem_of_elements.
    apply (inv_addrs i Hi stale e He). eexists. by apply (pr_assoc _ _ Hps). }
  eexists _, stale, e. split; [done|]. split; [done|]. split; [done|]. split; [|split; [done|]].
  - intros n e' Hn. assert ((newest e', n) ∈ by_newest i) as Hx by (apply inv_newest; eauto).
    apply Hmin in Hx. unfold ord_leb in Hx. cbn [cmp pair_ord] in Hx. unfold pair_cmp in Hx.
    cbn [fst snd cmp Z_ord] in Hx. destruct (Z.compare_spec (newest e) (newest e')); [lia..|done].
  - rewrite <-!size_dom. apply subset_size. split; [by apply pruned_dom|].
    intros Hsub. assert (stale ∈ dom (names i)) as Hd by (by apply elem_of_dom).
    apply Hsub, elem_of_dom in Hd. rewrite Hgone in Hd. by destruct Hd.
Qed.

Lemma shrink_names_spec fuel i name max :
  inv i → (0 < max)%nat → (size (names i) < fuel)%nat →
  ∃ i', shrink_names fuel i name max = Continue i' ∧ pruned i i'
    ∧ (names i' !! name ≠ None ∨ (size (names i') < max)%nat).
Proof.
  intros Hi Hmax. revert i Hi. induction fuel as [|fuel IH]; intros i Hi Hlt; [lia|].
  cbn [shrink_names]. destruct (bool_decide _ && _) eqn:E; bools.
  - apply Nat.leb_le in H0. destruct (evict_spec i Hi) as (j & st & e & -> & Hp & _ & _ & _ & Hsz).
    { intros Hemp. rewrite Hemp, map_size_empty in H0. lia. }
    pose proof (pruned_spec _ _ Hi Hp) as Hps.
    destruct (IH j (pr_inv _ _ Hps)) as (i' & -> & Hp' & Hor); [lia|].
    exists i'. split; [done|]. split; [by transitivity j|done].
  - exists i. split; [done|]. split; [done|].
    destruct E as [E|E]; bools; [by left|]. right. by apply Nat.leb_gt.
Qed.

(** *** Adding and refreshing *)

Lemma size_swap `{Countable K} (X : gset K) x y :
  x ∈ X → y ∉ X → size ({[y]} ∪ X ∖ {[x]}) = size X.
Proof.
  intros Hx Hy. rewrite size_union by set_solver.
  rewrite size_difference, !size_singleton by set_solver.
  assert (size X ≠ 0%nat); [|lia]. rewrite size_non_empty_iff. set_solver.
Qed.

Lemma touch_fields i n t :
  by_addr (touch i n t) = by_addr i ∧ by_observed (touch i n t) = by_observed i.
Proof. unfold touch. destruct (names i !! n); [|done]. by destruct (_ <? _). Qed.

Lemma touch_names i n t n' :
  names (touch i n t) !! n' =
    (λ e, if decide (n' = n) then {| addrs := addrs e; newest := Z.max (newest e) t |} else e)
      <$> names i !! n'.
Proof.
  unfold touch. destruct (names i !! n) as [e|] eqn:E.
  - destruct (Z.ltb_spec (newest e) t); simpl.
    + destruct (decide (n' = n)) as [->|].
      * rewrite lookup_insert_eq, E. simpl. rewrite Z.max_r by lia. done.
      * rewrite lookup_insert_ne by done. by destruct (names i !! n').
    + destruct (names i !! n') as [e'|] eqn:E'; [|done]. simpl. f_equal.
      destruct (decide (n' = n)) as [->|]; [|done]. rewrite E in E'. injection E' as <-.
      rewrite Z.max_l by lia. by destruct e.
  - destruct (names i !! n') as [e'|] eqn:E'; [|done]. simpl.
    by rewrite decide_False by congruence.
Qed.

(** The names' staleness index, on its own. *)
Definition newest_ok (i : Inner) : Prop :=
  ∀ t n, (t, n) ∈ by_newest i ↔ ∃ e, names i !! n = Some e ∧ newest e = t.

Lemma touch_newest i n t : newest_ok i → newest_ok (touch i n t).
Proof.
  intros Hok t' n'. unfold newest_ok in Hok. rewrite touch_names. unfold touch.
  destruct (names i !! n) as [e|] eqn:E.
  - destruct (Z.ltb_spec (newest e) t); simpl.
    + rewrite elem_of_union, elem_of_difference, !elem_of_singleton, Hok.
      destruct (decide (n' = n)) as [->|Hne].
      * rewrite E. simpl. split.
        -- intros [[= ->]|[(e' & [= <-] & <-) Hx]]; [|by destruct Hx].
           eexists. split; [done|]. simpl. lia.
        -- intros (e' & [= <-] & <-). left. simpl. f_equal. lia.
      * split.
        -- intros [[= _ ?]|[(e' & -> & <-) _]]; [done|]. by exists e'.
        -- intros (e' & He' & <-). right.
           destruct (names i !! n') as [e''|]; [|done]. injection He' as <-.
           split; [by eauto|]. congruence.
    + rewrite Hok. destruct (decide (n' = n)) as [->|Hne].
      * rewrite E. simpl. rewrite Z.max_l by lia. naive_solver.
      * by destruct (names i !! n').
  - rewrite Hok. destruct (names i !! n') as [e'|] eqn:E'; simpl; [|done].
    by rewrite decide_False by congruence.
Qed.

(** An index entry for [(a, n)] set to [t], everything else kept. *)
Definition assoc_set (i i' : Inner) (a : IpAddr) (n : string) (t : Instant) : Prop :=
  ∀ a' n', assoc i' a' n' = if decide (a' = a ∧ n' = n) then Some t else assoc i a' n'.

Lemma by_addr_set (m : gmap IpAddr (gmap string Instant)) (a a' : IpAddr)
    (g : gmap string Instant) (n n' : string) (t : Instant) :
  g = default ∅ (m !! a) →
  (<[a := <[n := t]> g]> m !! a' ≫= (.!! n') : option Instant)
  = if decide (a' = a ∧ n' = n) then Some t else m !! a' ≫= (.!! n').
Proof.
  intros ->. destruct (decide (a' = a)) as [->|Ha].
  - rewrite lookup_insert_eq. simpl. destruct (decide (n' = n)) as [->|Hn].
    + rewrite decide_True by done. apply lookup_insert_eq.
    + rewrite decide_False by naive_solver. rewrite lookup_insert_ne by done.
      destruct (m !! a); [done|]. simpl. by rewrite lookup_empty.
  - rewrite lookup_insert_ne by done. by rewrite decide_False by naive_solver.
Qed.

Lemma nonempty_set (m : gmap IpAddr (gmap string Instant)) a (g : gmap string Instant) n t :
  (∀ a g, m !! a = Some g → g ≠ ∅) →
  ∀ a' g', <[a := <[n := t]> g]> m !! a' = Some g' → g' ≠ ∅.
Proof.
  intros Hm a' g' [[_ <-]|[_ H]]%lookup_insert_Some; [apply insert_non_empty|by eapply Hm].
Qed.

Lemma refresh_spec i n a g r t :
  inv i → by_addr i !! a = Some g → g !! n = Some r → is_Some (names i !! n) →
  let i' := refresh i n a g r t in
  inv i' ∧ assoc_set i i' a n (Z.max r t) ∧ dom (names i') = dom (names i)
  ∧ size (by_observed i') = size (by_observed i).
Proof.
  intros Hi Hg Hr [e He].
  assert (assoc i a n = Some r) as Ha by (unfold assoc; by rewrite Hg).
  assert (r ≤ newest e) as Hre.
  { destruct (inv_named i Hi a n r Ha) as (e' & He' & ?). congruence. }
  set (j := forward i n a g r t).
  assert (names j = names i ∧ by_newest j = by_newest i) as [Hnj Hbj].
  { unfold j, forward. by destruct (r <? t). }
  assert (assoc_set i j a n (Z.max r t)) as Hset.
  { intros a' n'. unfold j, forward. destruct (Z.ltb_spec r t).
    - rewrite Z.max_r by lia. apply by_addr_set. by rewrite Hg.
    - rewrite Z.max_l by lia. by destruct (decide _) as [[-> ->]|]. }
  assert (∀ t' a' n', (t', a', n') ∈ by_observed j ↔ assoc j a' n' = Some t') as Hobs.
  { intros t' a' n'. rewrite Hset. unfold j, forward. destruct (Z.ltb_spec r t); simpl.
    - rewrite elem_of_union, elem_of_difference, !elem_of_singleton, (inv_observed i Hi).
      rewrite Z.max_r by lia. destruct (decide _) as [[-> ->]|]; [rewrite Ha|]; naive_solver.
    - rewrite (inv_observed i Hi), Z.max_l by lia.
      destruct (decide _) as [[-> ->]|]; [by rewrite Ha|done]. }
  change (refresh i n a g r t) with (touch j n t).
  destruct (touch_fields j n t) as [Hba Hbo].
  assert (assoc_set i (touch j n t) a n (Z.max r t)) as Hset'.
  { intros a' n'. unfold assoc at 1. rewrite Hba. apply Hset. }
  assert (∀ a' n', is_Some (assoc (touch j n t) a' n') ↔ is_Some (assoc i a' n')) as Hsome.
  { intros a' n'. rewrite Hset'. destruct (decide _) as [[-> ->]|]; [|done].
    rewrite Ha. split; eauto. }
  split; [|split; [done|split]].
  - split.
    + intros t' a' n'. rewrite Hbo, Hobs. unfold assoc. by rewrite Hba.
    + rewrite Hba. unfold j, forward. destruct (r <? t); [|apply Hi]. apply nonempty_set, Hi.
    + intros n' e' Hn'. rewrite touch_names, Hnj in Hn'. apply fmap_Some in Hn' as (e0 & He0 & ->).
      destruct (inv_addrs i Hi n' e0 He0) as [Hne Hadd].
      setoid_rewrite Hsome. by destruct (decide _).
    + intros a' n' t' Ht'. rewrite touch_names, Hnj. rewrite Hset' in Ht'.
      destruct (decide (a' = a ∧ n' = n)) as [[-> ->]|Hd].
      * rewrite He. simpl. rewrite decide_True by done. eexists. split; [done|].
        injection Ht' as <-. simpl. lia.
      * destruct (inv_named i Hi a' n' t' Ht') as (e' & -> & ?). simpl.
        eexists. split; [done|]. destruct (decide _); simpl; lia.
    + apply touch_newest. intros t' n'. rewrite Hbj, Hnj. apply (inv_newest i Hi).
  - apply set_eq. intros n'. by rewrite !elem_of_dom, touch_names, Hnj, fmap_is_Some.
  - rewrite Hbo. unfold j, forward. destruct (r <? t) eqn:Hrt; [|done]. simpl. bools.
    assert ((r, a, n) ∈ by_observed i) as Hin by (by apply inv_observed).
    apply size_swap; [done|]. intros Hx%(inv_observed i Hi). rewrite Ha in Hx.
    injection Hx as ->. lia.
Qed.

Lemma add_name_newest i n t : newest_ok i → newest_ok (add_name i n t).
Proof.
  intros Hok t' n'. unfold newest_ok in Hok. unfold add_name.
  destruct (names i !! n) as [e|] eqn:E; [apply Hok|]. simpl.
  rewrite elem_of_union, elem_of_singleton, Hok. destruct (decide (n' = n)) as [->|Hne].
  - rewrite lookup_insert_eq, E. naive_solver.
  - rewrite lookup_insert_ne by done. naive_solver.
Qed.

Lemma add_entry_addr_newest i n a : newest_ok i → newest_ok (add_entry_addr i n a).
Proof.
  intros Hok t' n'. unfold newest_ok in Hok. unfold add_entry_addr.
  destruct (names i !! n) as [e|] eqn:E; [|apply Hok]. simpl.
  rewrite Hok. destruct (decide (n' = n)) as [->|Hne].
  - rewrite lookup_insert_eq, E. naive_solver.
  - by rewrite lookup_insert_ne.
Qed.

(** The name's entry after the three steps that touch [names]. *)
Lemma add_names_lookup i n a t n' :
  names (touch (add_entry_addr (add_name i n t) n a) n t) !! n' =
    if decide (n' = n) then
      Some (match names i !! n with
            | Some e => {| addrs := {[a]} ∪ addrs e; newest := Z.max (newest e) t |}
            | None => {| addrs := {[a]} ∪ ∅; newest := t |}
            end)
    else names i !! n'.
Proof.
  rewrite touch_names. unfold add_entry_addr, add_name.
  destruct (names i !! n) as [e|] eqn:E; simpl.
  - rewrite E. simpl. destruct (decide (n' = n)) as [->|].
    + by rewrite lookup_insert_eq.
    + rewrite lookup_insert_ne by done. by destruct (names i !! n').
  - rewrite lookup_insert_eq. simpl. destruct (decide (n' = n)) as [->|].
    + rewrite lookup_insert_eq. simpl. do 2 f_equal. lia.
    + rewrite !lookup_insert_ne by done. by destruct (names i !! n').
Qed.

Lemma add_association_spec i n a t :
  inv i → assoc i a n = None →
  let i' := add_association i n a t in
  inv i' ∧ assoc_set i i' a n t
  ∧ by_observed i' = {[(t, a, n)]} ∪ by_observed i
  ∧ dom (names i') = {[n]} ∪ dom (names i).
Proof.
  intros Hi Ha i'.
  set (j := touch (add_entry_addr (add_name i n t) n a) n t).
  assert (by_addr j = by_addr i ∧ by_observed j = by_observed i) as [Hba Hbo].
  { unfold j. destruct (touch_fields (add_entry_addr (add_name i n t) n a) n t) as [-> ->].
    unfold add_entry_addr, add_name. by repeat case_match. }
  assert (newest_ok j) as Hnew.
  { apply touch_newest, add_entry_addr_newest, add_name_newest. intros t' n'. apply Hi. }
  assert (∀ n', names j !! n' = _) as Hnames by apply add_names_lookup.
  assert (i' = {| by_addr := <[a := <[n := t]> (default ∅ (by_addr j !! a))]> (by_addr j);
                  names := names j; by_observed := {[(t, a, n)]} ∪ by_observed j;
                  by_newest := by_newest j |}) as Hi' by done. clearbody i'.
  assert (assoc_set i i' a n t) as Hset.
  { intros a' n'. rewrite Hi'. unfold assoc. simpl. rewrite Hba. by apply by_addr_set. }
  split; [|split; [done|split]].
  - split.
    + intros t' a' n'. rewrite Hi' at 1. simpl.
      rewrite elem_of_union, elem_of_singleton, Hbo, (inv_observed i Hi), Hset.
      destruct (decide _) as [[-> ->]|Hd]; [rewrite Ha|]; naive_solver.
    + rewrite Hi'. simpl. rewrite Hba. apply nonempty_set, Hi.
    + intros n' e. rewrite Hi' at 1. simpl. rewrite Hnames. setoid_rewrite Hset.
      destruct (decide (n' = n)) as [->|Hne].
      * intros [= <-]. split; [destruct (names i !! n); simpl; set_solver|]. intros a'.
        assert (a' ∈ addrs (default {| addrs := ∅; newest := t |} (names i !! n))
                ↔ is_Some (assoc i a' n)) as Hold.
        { destruct (names i !! n) as [e|] eqn:E; simpl.
          - by apply (inv_addrs i Hi n e E).
          - rewrite (proj1 (names_none_iff i n Hi) E). split; [set_solver|by intros []]. }
        destruct (decide _) as [[-> _]|Hd].
        -- split; [by eauto|]. destruct (names i !! n); simpl; set_solver.
        -- rewrite <-Hold. assert (a' ≠ a) by naive_solver.
           destruct (names i !! n); simpl; set_solver.
      * intros He. destruct (inv_addrs i Hi n' e He) as [Hne' Hadd]. split; [done|].
        intros a'. rewrite Hadd. by rewrite decide_False by naive_solver.
    + intros a' n' t'. rewrite Hset. rewrite Hi'. simpl. rewrite Hnames.
      destruct (decide (a' = a ∧ n' = n)) as [[-> ->]|Hd].
      * intros [= <-]. rewrite decide_True by done. eexists. split; [done|].
        destruct (names i !! n); simpl; lia.
      * intros (e & He & Hle)%(inv_named i Hi).
        destruct (decide (n' = n)) as [->|]; [|by eauto].
        rewrite He. eexists. split; [done|]. simpl. lia.
    + rewrite Hi'. exact Hnew.
  - rewrite Hi'. simpl. by rewrite Hbo.
  - apply set_eq. intros n'. rewrite Hi'. simpl.
    rewrite elem_of_union, elem_of_singleton, !elem_of_dom, Hnames.
    destruct (decide (n' = n)); naive_solver.
Qed.

(** *** Inserting *)

(** Room for one more association, and for one more name unless it is known. *)
Definition room (limits : ResolvedNameLimits) (i : Inner) (n : string) : Prop :=
  (size (by_observed i) < max_associations limits)%nat
  ∧ (names i !! n ≠ None ∨ (size (names i) < max_names limits)%nat).

Definition positive (limits : ResolvedNameLimits) : Prop :=
  (0 < max_names limits)%nat ∧ (0 < max_associations limits)%nat.

Lemma insert_new_spec i n a t now limits :
  inv i → positive limits →
  ∃ j, pruned i j ∧ room limits j n
    ∧ insert_new i n a t now limits = add_association j n a t.
Proof.
  intros Hi [Hmn Hma]. unfold insert_new. cbn zeta.
  set (p := if (_ || _)%bool then purge_expired i now (lifetime limits) else i).
  assert (pruned i p) as Hip.
  { unfold p. destruct (_ || _); [by apply purge_expired_pruned|done]. }
  pose proof (pr_inv _ _ (pruned_spec _ _ Hi Hip)) as Hp.
  destruct (shrink_associations_spec (S (size (by_observed p))) p (max_associations limits) Hp Hma)
    as (q & -> & Hpq & Hsz & _); [lia|].
  pose proof (pr_inv _ _ (pruned_spec _ _ Hp Hpq)) as Hq.
  destruct (shrink_names_spec (S (size (names q))) q n (max_names limits) Hq Hmn)
    as (r & -> & Hqr & Hor); [lia|].
  exists r. split; [by transitivity p; [|transitivity q]|]. split; [|done].
  split; [|done]. pose proof (pr_size _ _ (pruned_spec _ _ Hq Hqr)). lia.
Qed.

(** Within the configured bounds. *)
Definition bounded (limits : ResolvedNameLimits) (i : Inner) : Prop :=
  (size (by_observed i) ≤ max_associations limits)%nat
  ∧ (size (names i) ≤ max_names limits)%nat.

(** What one insertion does, whichever path it took. *)
Record inserted (limits : ResolvedNameLimits) (i i' : Inner) (n : string) (a : IpAddr)
    (t : Instant) : Prop := {
  ins_inv : inv i';
  ins_bounded : bounded limits i → bounded limits i';
  ins_here : ∃ t', assoc i' a n = Some t' ∧ t ≤ t'
    ∧ (t' = t ∨ assoc i a n = Some t');
  ins_rest : ∀ a' n' t', (a', n') ≠ (a, n) → assoc i' a' n' = Some t' → assoc i a' n' = Some t';
}.

Lemma insert_spec i n a t now limits :
  inv i → positive limits → inserted limits i (insert i n a t now limits) n a t.
Proof.
  intros Hi Hpos. destruct (assoc i a n) as [r|] eqn:Ha.
  - destruct (names_of_assoc i a n r Hi Ha) as (e & He & _ & _). pose proof Ha as Ha'.
    unfold assoc in Ha'. destruct (by_addr i !! a) as [g|] eqn:Hg; [|done]. simpl in Ha'.
    unfold insert. rewrite He, Hg, Ha'.
    destruct (refresh_spec i n a g r t Hi Hg Ha') as (Hinv & Hset & Hdom & Hsz); [by eauto|].
    split; [done| | |].
    + intros [H1 H2]. split; [by rewrite Hsz|]. by rewrite <-size_dom, Hdom, size_dom.
    + exists (Z.max r t). rewrite Hset, decide_True by done. split; [done|]. split; [lia|].
      rewrite Ha. destruct (Z.max_spec r t) as [[_ ->]|[_ ->]]; auto.
    + intros a' n' t' Hne. rewrite Hset. by rewrite decide_False by naive_solver.
  - assert (insert i n a t now limits = insert_new i n a t now limits) as ->.
    { unfold insert. unfold assoc in Ha. destruct (names i !! n); [|done].
      destruct (by_addr i !! a) as [g|]; [|done]. simpl in Ha. by rewrite Ha. }
    destruct (insert_new_spec i n a t now limits Hi Hpos) as (j & Hp & [Hr1 Hr2] & ->).
    pose proof (pruned_spec _ _ Hi Hp) as Hps.
    assert (assoc j a n = None) as Haj.
    { destruct (assoc j a n) eqn:E; [|done]. apply (pr_assoc _ _ Hps) in E. congruence. }
    destruct (add_association_spec j n a t (pr_inv _ _ Hps) Haj) as (Hinv & Hset & Hobs & Hdom).
    split; [done| | |].
    + intros [H1 H2]. split.
      * rewrite Hobs. pose proof (size_union_alt {[(t, a, n)]} (by_observed j)) as ->.
        rewrite size_singleton. pose proof (subseteq_size (by_observed j ∖ {[(t, a, n)]})
          (by_observed j) ltac:(set_solver)). lia.
      * rewrite <-size_dom, Hdom. destruct Hr2 as [Hin|Hlt].
        -- assert (n ∈ dom (names j)) by (apply elem_of_dom; by apply not_eq_None_Some).
           replace ({[n]} ∪ dom (names j)) with (dom (names j)) by set_solver.
           pose proof (subseteq_size _ _ (pruned_dom _ _ Hps)) as Hle.
           rewrite !size_dom in Hle. rewrite size_dom. lia.
        -- rewrite size_union_alt, size_singleton.
           pose proof (subseteq_size (dom (names j) ∖ {[n]}) (dom (names j)) ltac:(set_solver))
             as Hle. rewrite size_dom in Hle. lia.
    + exists t. rewrite Hset, decide_True by done. split; [done|]. split; [lia|by left].
    + intros a' n' t' Hne. rewrite Hset, decide_False by naive_solver. apply Hps.
Qed.

(** ** Histories of lookups *)

Record LookupEvent := {
  ev_name : string; ev_addrs : list IpAddr; ev_observed : Instant; ev_now : Instant;
}.

Definition record_event (limits : ResolvedNameLimits) (i : Inner) (e : LookupEvent) : Inner :=
  record_at limits i (ev_name e) (ev_addrs e) (ev_observed e) (ev_now e).

(** The table after a store's lookups, in order. *)
Definition replay (limits : ResolvedNameLimits) (events : list LookupEvent) : Inner :=
  foldl (record_event limits) empty_inner events.

Definition handed (events : list LookupEvent) (a : IpAddr) (n : string) (t : Instant) : Prop :=
  ∃ e, e ∈ events ∧ ev_name e = n ∧ ev_observed e = t ∧ a ∈ (to_canonical <$> ev_addrs e).

Record table_ok (limits : ResolvedNameLimits) (events : list LookupEvent) (i : Inner) : Prop := {
  ok_inv : inv i;
  ok_bounded : bounded limits i;
  ok_handed : ∀ a n t, assoc i a n = Some t → handed events a n t;
}.

Lemma record_at_cases limits i n l t now :
  record_at limits i n l t now = i
  ∨ positive limits
    ∧ record_at limits i n l t now
      = foldl (λ i a, insert i n (to_canonical a) t now limits) i l.
Proof.
  unfold record_at. destruct (is_some_and _ _); [by left|].
  destruct (Nat.eqb_spec (max_names limits) 0); [by left|].
  destruct (Nat.eqb_spec (max_associations limits) 0); [by left|].
  right. split; [split; lia|done].
Qed.

Lemma record_loop_ok limits events n l0 l t now i :
  positive limits →
  table_ok limits (events ++ [{| ev_name := n; ev_addrs := l0; ev_observed := t; ev_now := now |}]) i →
  (∀ a, a ∈ l → a ∈ l0) →
  table_ok limits (events ++ [{| ev_name := n; ev_addrs := l0; ev_observed := t; ev_now := now |}])
    (foldl (λ i a, insert i n (to_canonical a) t now limits) i l).
Proof.
  intros Hpos. revert i. induction l as [|a l IH]; intros i Hok Hsub; simpl; [done|].
  apply IH; [|set_solver].
  pose proof (insert_spec i n (to_canonical a) t now limits (ok_inv _ _ _ Hok) Hpos) as Hins.
  split; [apply Hins|apply Hins, Hok|].
  intros a' n' t' Ht'. destruct (decide ((a', n') = (to_canonical a, n))) as [[= -> ->]|Hne].
  - destruct (ins_here _ _ _ _ _ _ Hins) as (t1 & Ht1 & _ & Hor).
    rewrite Ht1 in Ht'. injection Ht' as ->. destruct Hor as [->|Hold].
    + eexists. split; [apply elem_of_app; right; by left|]. simpl. split; [done|].
      split; [done|]. apply list_elem_of_fmap. exists a. split; [done|]. apply Hsub. by left.
    + by eapply (ok_handed _ _ _ Hok).
  - eapply (ok_handed _ _ _ Hok). by eapply ins_rest.
Qed.

Lemma record_event_ok limits events i e :
  table_ok limits events i → table_ok limits (events ++ [e]) (record_event limits i e).
Proof.
  intros Hok. assert (table_ok limits (events ++ [e]) i) as Hok'.
  { split; try apply Hok. intros a n t (e' & ? & ?)%(ok_handed _ _ _ Hok).
    exists e'. split; [apply elem_of_app; by left|done]. }
  unfold record_event. destruct (record_at_cases limits i (ev_name e) (ev_addrs e)
    (ev_observed e) (ev_now e)) as [->|[Hpos ->]]; [done|].
  destruct e as [n l t now]. by apply record_loop_ok.
Qed.

Lemma replay_snoc limits events e :
  replay limits (events ++ [e]) = record_event limits (replay limits events) e.
Proof. unfold replay. by rewrite foldl_app. Qed.

Lemma replay_ok limits events : table_ok limits events (replay limits events).
Proof.
  induction events as [|e events IH] using rev_ind.
  - split; [apply empty_inv|split; apply Nat.le_0_l|].
    intros a n t. unfold assoc. simpl. by rewrite lookup_empty.
  - rewrite replay_snoc. by apply record_event_ok.
Qed.

Lemma newest_size i : inv i → size (by_newest i) = size (names i).
Proof.
  intros Hi. set (f := λ p : string * NameEntry, (newest p.2, p.1)).
  assert (by_newest i = list_to_set (f <$> map_to_list (names i))) as ->.
  { apply set_eq. intros [t n]. rewrite elem_of_list_to_set, list_elem_of_fmap, (inv_newest i Hi).
    split.
    - intros (e & He & <-). exists (n, e). split; [done|]. by apply elem_of_map_to_list.
    - intros ([n' e] & [= -> ->] & He%elem_of_map_to_list). by exists e. }
  rewrite size_list_to_set, length_fmap; [by rewrite length_map_to_list|].
  apply NoDup_fmap_2_strong; [|apply NoDup_map_to_list].
  intros [n e] [n' e'] H1%elem_of_map_to_list H2%elem_of_map_to_list [= Ht ->]. congruence.
Qed.

(** after any sequence of lookups the table's three indexes agree: the
    associations oldest-first, the per-address view and the per-name view hold
    the same associations, no name or address is left without one, a name's
    staleness is at least as recent as each of its observations, and the table
    stays within its bounds on associations and on names. *)
Theorem indexes_agree_within_bounds limits events :
  let i := replay limits events in
  inv i ∧ size (by_newest i) = size (names i)
  ∧ (size (by_observed i) ≤ max_associations limits)%nat
  ∧ (size (names i) ≤ max_names limits)%nat.
Proof.
  destruct (replay_ok limits events) as [Hi [Ha Hn] _].
  split; [done|]. split; [by apply newest_size|]. done.
Qed.

(** *** Deadlines *)

(** [None] never comes. *)
Definition deadline_le (x d : option Instant) : Prop :=
  match x, d with
  | _, None => True
  | Some x, Some d => x ≤ d
  | None, Some _ => False
  end.

Lemma later_spec x y :
  (later x y = x ∨ later x y = y) ∧ deadline_le x (later x y) ∧ deadline_le y (later x y).
Proof.
  destruct x as [x|], y as [y|]; simpl; auto.
  split; [|lia]. destruct (Z.max_spec x y) as [[_ ->]|[_ ->]]; auto.
Qed.

Lemma deadline_le_trans x y z : deadline_le x y → deadline_le y z → deadline_le x z.
Proof. destruct x, y, z; simpl; try done. lia. Qed.

Lemma foldl_later_spec l d :
  foldl later d l ∈ d :: l ∧ ∀ x, x ∈ d :: l → deadline_le x (foldl later d l).
Proof.
  revert d. induction l as [|y l IH]; intros d; simpl.
  - split; [by left|]. intros x ->%list_elem_of_singleton. by destruct d; simpl.
  - destruct (IH (later d y)) as [Hin Hle]. destruct (later_spec d y) as (Hor & Hd & Hy).
    split.
    + apply elem_of_cons in Hin as [Hin|Hin]; [|set_solver].
      rewrite Hin. destruct Hor as [-> | ->]; set_solver.
    + intros x [->|[->|Hx]%elem_of_cons]%elem_of_cons.
      * eapply deadline_le_trans; [done|]. apply Hle. by left.
      * eapply deadline_le_trans; [done|]. apply Hle. by left.
      * apply Hle. by right.
Qed.

Lemma reduce_later_Some l d :
  reduce_later l = Some d → d ∈ l ∧ ∀ x, x ∈ l → deadline_le x d.
Proof. destruct l as [|x l]; [done|]. intros [= <-]. apply foldl_later_spec. Qed.

Lemma reduce_later_is_Some x l : x ∈ l → ∃ d, reduce_later l = Some d.
Proof. destruct l as [|y l]; [by intros ?%not_elem_of_nil|]. simpl. eauto. Qed.

Section grants.
Context `{UriLib}.
Implicit Types (policy : list AllowedHost).

(** When the grant an observation gives lapses, and whether it holds at [now]. *)
Definition deadline_of (limits : ResolvedNameLimits) (t : Instant) : option Instant :=
  life ← lifetime limits; checked_add t life.

Definition holds_at (d : option Instant) (now : Instant) : Prop :=
  ∀ d', d = Some d' → now < d'.

Lemma grant_deadline_Some limits policy port now n t d :
  grant_deadline limits policy port now n t = Some d ↔
  d = deadline_of limits t ∧ holds_at d now
  ∧ ∃ e, e ∈ policy ∧ permits_name e n port = true.
Proof.
  unfold grant_deadline. fold (deadline_of limits t). rewrite <-existsb_elem.
  assert (is_none_or (deadline_of limits t) (λ d, now <? d) = true
          ↔ holds_at (deadline_of limits t) now) as Hh.
  { unfold holds_at. destruct (deadline_of limits t); simpl; [rewrite Z.ltb_lt|]; naive_solver. }
  destruct (is_none_or _ _ && _) eqn:E.
  - apply andb_true_iff in E as [E1 E2]. rewrite Hh in E1. naive_solver.
  - split; [done|]. intros (-> & Hn%Hh & He). by rewrite Hn, He in E.
Qed.

Lemma permitted_elem limits i policy addr now g d :
  by_addr i !! to_canonical (sock_ip addr) = Some g →
  d ∈ omap (λ '(n, t), grant_deadline limits policy (sock_port addr) now n t) (map_to_list g)
  ↔ ∃ n t, assoc i (to_canonical (sock_ip addr)) n = Some t
      ∧ grant_deadline limits policy (sock_port addr) now n t = Some d.
Proof.
  intros Hg. rewrite list_elem_of_omap. unfold assoc. rewrite Hg. simpl. split.
  - intros ([n t] & Hin%elem_of_map_to_list & Hd). eauto.
  - intros (n & t & Hin & Hd). exists (n, t). split; [by apply elem_of_map_to_list|done].
Qed.

Lemma permitted_until_Some limits i policy addr now d :
  permitted_until_at limits i policy addr now = Some d →
  (∃ n t, assoc i (to_canonical (sock_ip addr)) n = Some t
     ∧ grant_deadline limits policy (sock_port addr) now n t = Some d)
  ∧ ∀ n t d', assoc i (to_canonical (sock_ip addr)) n = Some t →
      grant_deadline limits policy (sock_port addr) now n t = Some d' → deadline_le d' d.
Proof.
  unfold permitted_until_at. destruct (by_addr i !! _) as [g|] eqn:Hg; [|done].
  intros [Hin Hmax]%reduce_later_Some. split.
  - by apply (permitted_elem limits i policy addr now g d Hg).
  - intros n t d' Hn Hd'. apply Hmax. apply (permitted_elem limits i policy addr now g d' Hg).
    eauto.
Qed.

Lemma permitted_until_intro limits i policy addr now n t d' :
  assoc i (to_canonical (sock_ip addr)) n = Some t →
  grant_deadline limits policy (sock_port addr) now n t = Some d' →
  ∃ d, permitted_until_at limits i policy addr now = Some d ∧ deadline_le d' d.
Proof.
  intros Hn Hd'. unfold permitted_until_at.
  destruct (by_addr i !! _) as [g|] eqn:Hg; [|unfold assoc in Hn; by rewrite Hg in Hn].
  assert (d' ∈ omap (λ '(n, t), grant_deadline limits policy (sock_port addr) now n t)
                 (map_to_list g)) as Hin.
  { apply (permitted_elem limits i policy addr now g d' Hg). eauto. }
  destruct (reduce_later_is_Some _ _ Hin) as [d Hd]. exists d. split; [done|].
  apply reduce_later_Some in Hd as [_ Hmax]. by apply Hmax.
Qed.

Lemma permitted_by_lookup limits events policy addr now d :
  permitted_until_at limits (replay limits events) policy addr now = Some d →
  ∃ ev entry, ev ∈ events ∧ entry ∈ policy
    ∧ permits_name entry (ev_name ev) (sock_port addr) = true
    ∧ to_canonical (sock_ip addr) ∈ (to_canonical <$> ev_addrs ev)
    ∧ d = deadline_of limits (ev_observed ev) ∧ holds_at d now.
Proof.
  intros [(n & t & Ha & Hd) _]%permitted_until_Some.
  apply grant_deadline_Some in Hd as (Hd & Hnow & e & He & Hp).
  destruct (ok_handed _ _ _ (replay_ok limits events) _ _ _ Ha) as (ev & Hev & <- & <- & Hin).
  by exists ev, e.
Qed.

(** C3: a raw socket is only ever permitted by name to an address this store was
    handed: if the table grants [addr] at [now], some earlier lookup asked for a
    name that an [allowedHosts] entry grants on that port, its answer contained
    the address (up to the IPv4-mapped spelling), and the grant of that very
    lookup has not lapsed. *)
Theorem permitted_was_resolved limits events policy addr now d :
  permitted_until_at limits (replay limits events) policy addr now = Some d →
  ∃ ev entry, ev ∈ events ∧ entry ∈ policy
    ∧ permits_name entry (ev_name ev) (sock_port addr) = true
    ∧ to_canonical (sock_ip addr) ∈ (to_canonical <$> ev_addrs ev)
    ∧ d = deadline_of limits (ev_observed ev) ∧ holds_at d now.
Proof. apply permitted_by_lookup. Qed.

(** a lookup that grants is usable at once: after any history, recording an
    answer that has not lapsed makes its last address reachable on every port an
    [allowedHosts] entry grants that name, until that grant's own deadline at
    least. *)
Theorem resolved_then_permitted limits events n l a t now_r policy entry addr now :
  positive limits → lifetime limits = None ∨ (∃ d, deadline_of limits t = Some d ∧ now_r < d) →
  entry ∈ policy → permits_name entry n (sock_port addr) = true →
  to_canonical (sock_ip addr) = to_canonical a → holds_at (deadline_of limits t) now →
  let i := replay limits
    (events ++ [{| ev_name := n; ev_addrs := l ++ [a]; ev_observed := t; ev_now := now_r |}]) in
  ∃ d, permitted_until_at limits i policy addr now = Some d
    ∧ deadline_le (deadline_of limits t) d.
Proof.
  intros Hpos Hlive He Hp Hcan Hhold i.
  pose proof (replay_ok limits events) as [Hi _ _].
  assert (i = foldl (λ i a, insert i n (to_canonical a) t now_r limits)
                (replay limits events) (l ++ [a])) as Heq.
  { unfold i. rewrite replay_snoc. unfold record_event, record_at. simpl.
    assert (is_some_and (lifetime limits) (λ life, is_some_and (checked_add t life)
              (λ d, d <=? now_r)) = false) as ->.
    { unfold deadline_of in Hlive. destruct (lifetime limits) as [life|]; [|done]. simpl in *.
      destruct Hlive as [|(d & -> & Hd)]; [done|]. simpl. by apply Z.leb_gt. }
    destruct Hpos. rewrite !(proj2 (Nat.eqb_neq _ _)) by lia. done. }
  rewrite foldl_app in Heq. simpl in Heq.
  assert (∀ l j, inv j → inv (foldl (λ i a, insert i n (to_canonical a) t now_r limits) j l))
    as Hloop.
  { clear -Hpos. induction l as [|x l IH]; intros j Hj; [done|]. simpl.
    apply IH. by apply (insert_spec j n (to_canonical x) t now_r limits Hj Hpos). }
  destruct (insert_spec _ n (to_canonical a) t now_r limits (Hloop l _ Hi) Hpos)
    as [_ _ (t' & Ht' & Hle & _) _]. rewrite <-Heq, <-Hcan in Ht'.
  assert (deadline_le (deadline_of limits t) (deadline_of limits t')) as Hdd.
  { unfold deadline_of. destruct (lifetime limits) as [life|]; simpl; [|done].
    unfold checked_add. destruct (Z.leb_spec (t + life) INSTANT_MAX),
      (Z.leb_spec (t' + life) INSTANT_MAX); simpl; lia. }
  destruct (permitted_until_intro limits i policy addr now n t' (deadline_of limits t') Ht')
    as (d & Hd & Hdle).
  - apply grant_deadline_Some. split; [done|]. split; [|by eauto].
    intros d' Hd'. rewrite Hd' in Hdd. destruct (deadline_of limits t) as [d0|]; [|done].
    specialize (Hhold d0 eq_refl). simpl in Hdd. lia.
  - exists d. split; [done|]. by eapply deadline_le_trans.
Qed.

(** while a lifetime is configured, purging removes exactly the associations
    whose grant has lapsed and keeps every other one. *)
Theorem purge_removes_exactly_expired limits events now life :
  let i := replay limits events in
  let i' := purge_expired i now (Some life) in
  inv i' ∧ ∀ a n t, assoc i' a n = Some t ↔ assoc i a n = Some t ∧ ¬ expired life now t.
Proof.
  intros i i'. pose proof (ok_inv _ _ _ (replay_ok limits events)) as Hi. fold i in Hi.
  destruct (purge_loop_spec (S (size (by_observed i))) i now life Hi) as (Hp & Hno & Hk); [lia|].
  pose proof (pruned_spec _ _ Hi Hp) as Hps. split; [apply Hps|].
  intros a n t. split; [|by intros [? ?]; apply Hk]. intros Ha. split; [|by eapply Hno].
  by apply (pr_assoc _ _ Hps).
Qed.

(** when the table is full it makes room oldest-first: the loop always ends
    below the bound, and nothing it drops was observed later than anything it
    keeps. *)
Theorem eviction_oldest_first limits events max :
  (0 < max)%nat →
  let i := replay limits events in
  ∃ i', shrink_associations (S (size (by_observed i))) i max = Continue i'
    ∧ inv i' ∧ (size (by_observed i') < max)%nat
    ∧ ∀ a n t a' n' t', assoc i a n = Some t → assoc i' a n = None →
        assoc i' a' n' = Some t' → t ≤ t'.
Proof.
  intros Hmax i. pose proof (ok_inv _ _ _ (replay_ok limits events)) as Hi. fold i in Hi.
  destruct (shrink_associations_spec (S (size (by_observed i))) i max Hi Hmax)
    as (i' & -> & Hp & Hsz & Hold); [lia|].
  exists i'. split; [done|]. split; [by eapply pr_inv, pruned_spec|]. done.
Qed.
End grants.

(** ** Runs *)

Definition ev1 : LookupEvent :=
  {| ev_name := "db.internal"; ev_addrs := [V4 (Ipv4Addr_new 10 0 0 5)];
     ev_observed := 100; ev_now := 100 |}.
Definition db_addr : SocketAddr := SocketV4 (Ipv4Addr_new 10 0 0 5) 5432.
Definition db_policy : list AllowedHost :=
  [SuffixWildcard ".internal" None (Some 5432)].
Definition short : ResolvedNameLimits :=
  {| lifetime := Some 50; max_names := 2; max_associations := 2 |}.

Lemma permitted_was_resolved_witness :
  ∃ ev entry, ev ∈ [ev1] ∧ entry ∈ db_policy
    ∧ permits_name entry (ev_name ev) (sock_port db_addr) = true
    ∧ to_canonical (sock_ip db_addr) ∈ (to_canonical <$> ev_addrs ev)
    ∧ Some 150 = deadline_of short (ev_observed ev) ∧ holds_at (Some 150) 120.
Proof.
  apply (permitted_was_resolved short [ev1] db_policy db_addr 120 (Some 150)).
  vm_compute. reflexivity.
Defined.

Lemma resolved_then_permitted_witness :
  ∃ d, permitted_until_at short (replay short [ev1]) db_policy db_addr 120 = Some d
    ∧ deadline_le (Some 150) d.
Proof.
  refine (resolved_then_permitted short [] "db.internal" [] (V4 (Ipv4Addr_new 10 0 0 5)) 100 100
    db_policy (SuffixWildcard ".internal" None (Some 5432)) db_addr 120 _ _ _ _ _ _).
  - split; simpl; lia.
  - right. exists 150. split; [reflexivity|lia].
  - left.
  - reflexivity.
  - reflexivity.
  - intros d'. vm_compute. intros [= <-]. reflexivity.
Defined.

Lemma eviction_oldest_first_witness :
  ∃ i', shrink_associations (S (size (by_observed (replay short [ev1])))) (replay short [ev1]) 1
        = Continue i' ∧ inv i' ∧ (size (by_observed i') < 1)%nat.
Proof.
  destruct (eviction_oldest_first short [ev1] 1 ltac:(lia)) as (i' & H1 & H2 & H3 & _).
  exists i'. split; [exact H1|]. split; [exact H2|exact H3].
Defined.

(** The grant lapses at its deadline, and a wrong port never had one. *)
Example grant_lapses :
  permitted_until_at short (replay short [ev1]) db_policy db_addr 150 = None
  ∧ permitted_until_at short (replay short [ev1]) db_policy (sock_set_port db_addr 80) 120 = None
  ∧ permitted_until_at default_name_limits (replay default_name_limits [ev1]) db_policy db_addr
      INSTANT_MAX = Some None.
Proof. by vm_compute. Qed.
