(* ===== verification/SocketPolicy.v ===== *)
(** * The socket policy: one decision point per address use

    [sockets/policy.rs] and the decision types of [sockets/mod.rs]: which
    addresses a guest may bind and connect, and on which plane.

    A decision reads the guest's [SocketPolicy], the store's lookup history, the
    clock, and the host's port table, and updates the permits and the counters
    ([PolicyState]).  Logging is not modelled.  [unreachable!] in [decide_accept]
    is indeed unreachable: [allow_by_address] always allows. *)

From Stdlib Require Import ZArith Lia.
From stdpp Require Import base list gmap strings option.
From S2P Require Import Prelude RustStr Net UriLib EgressPolicy InternalNames DeclaredPort Ports.
From S2P Require Import AllowedLoopback AllowedIpName AllowedHosts SocketUtil Quota ResolvedNames.
Local Open Scope Z_scope.

Record DirectBind := { db_addr : SocketAddr; db_udp : bool }.

Definition direct_bind_permits (b : DirectBind) (reason : SocketAddrUse) (addr : SocketAddr) :
    bool :=
  match reason with
  | TcpBind | TcpListen => negb (db_udp b) && bool_decide (db_addr b = addr)
  | UdpBind => db_udp b && bool_decide (db_addr b = addr)
  | _ => false
  end.

Inductive GuestKind :=
  | Component
  | Service
  | Plugin (direct_binds : list DirectBind).

Inductive EgressMode := Count | Enforce.
#[global] Instance EgressMode_eq_dec : EqDecision EgressMode.
Proof. solve_decision. Defined.

Record Allowed := {
  al_addr : SocketAddr;
  al_plane : Plane;
  permit : option ConnectionSlot;
  valid_until : option Instant;
}.

Inductive AddrDecision :=
  | Deny (r : DenyReason)
  | Allow (a : Allowed).

Definition allow_on (addr : SocketAddr) (plane : Plane) : AddrDecision :=
  Allow {| al_addr := addr; al_plane := plane; permit := None; valid_until := None |}.

Definition plane_by_address (addr : SocketAddr) : Plane :=
  if is_loopback (to_canonical (sock_ip addr)) then Virtual else Host.

Definition allow_by_address (addr : SocketAddr) : AddrDecision :=
  Allow {| al_addr := addr; al_plane := plane_by_address addr; permit := None;
           valid_until := None |}.

Definition into_allowed (d : AddrDecision) : result Allowed ErrorCode :=
  match d with
  | Allow a => Ok a
  | Deny r => Err (error_code r)
  end.

(** What a decision updates: the permits behind every quota, and the host's
    counters when it keeps any. *)
Record PolicyState := { heap : Heap; meters : option PolicyMeters }.

Definition with_heap (st : PolicyState) (h : Heap) : PolicyState :=
  {| heap := h; meters := meters st |}.
Definition with_meters (st : PolicyState) (f : PolicyMeters → PolicyMeters) : PolicyState :=
  {| heap := heap st; meters := f <$> meters st |}.

(** Where an outbound address goes, and for how long that answer holds. *)
Record Route := { rt_addr : SocketAddr; rt_plane : Plane; rt_valid_until : option Instant }.

Definition standing (addr : SocketAddr) (plane : Plane) : Route :=
  {| rt_addr := addr; rt_plane := plane; rt_valid_until := None |}.

Section socket_policy.
Context `{UriLib}.

Record SocketPolicy := {
  guest_kind : GuestKind;
  allowed_hosts : list AllowedHost;
  host_loopback : list AllowedLoopbackPort;
  host_loopback_enabled : bool;
  egress_addrs : EgressAddressPolicy;
  host_owned_ports : option PortTable;
  egress_mode : EgressMode;
  quota : option GuestConnectionQuota;
  resolved_names : ResolvedNameLimits;
}.

(** [Default], its registry kept beside it (see [for_guest]). *)
Definition default_socket_policy : SocketPolicy :=
  {| guest_kind := Component; allowed_hosts := []; host_loopback := [];
     host_loopback_enabled := false; egress_addrs := default_policy;
     host_owned_ports := None; egress_mode := Enforce; quota := None;
     resolved_names := default_name_limits |}.

Definition for_kind (k : GuestKind) : SocketPolicy :=
  {| guest_kind := k; allowed_hosts := []; host_loopback := [];
     host_loopback_enabled := false; egress_addrs := default_policy;
     host_owned_ports := None; egress_mode := Enforce; quota := None;
     resolved_names := default_name_limits |}.

(** [quotas] is the host's registry, when it configured one. *)
Definition quota_for (quotas : option QuotaRegistry) (h : Heap) (guest_id : string) :
    option GuestConnectionQuota * (option QuotaRegistry * Heap) :=
  match quotas with
  | None => (None, (None, h))
  | Some r =>
      let '(q, (r, h)) := Quota.for_guest r h guest_id in
      (Some q, (Some r, h))
  end.

Definition for_guest (p : SocketPolicy) (quotas : option QuotaRegistry) (h : Heap)
    (kind : GuestKind) (guest_id : string) (hosts : list AllowedHost)
    (loopback : list AllowedLoopbackPort) : SocketPolicy * (option QuotaRegistry * Heap) :=
  let '(q, (quotas, h)) := quota_for quotas h guest_id in
  ({| guest_kind := kind; allowed_hosts := hosts; host_loopback := loopback;
      host_loopback_enabled := host_loopback_enabled p; egress_addrs := egress_addrs p;
      host_owned_ports := host_owned_ports p; egress_mode := egress_mode p; quota := q;
      resolved_names := resolved_names p |}, (quotas, h)).

Definition decide_bind (p : SocketPolicy) (reason : SocketAddrUse) (addr : SocketAddr) :
    AddrDecision :=
  let ip := sock_ip addr in
  let udp_egress_bind :=
    bool_decide (reason = UdpBind)
    && (is_loopback ip || (is_unspecified ip && (sock_port addr =? 0))) in
  let permitted :=
    udp_egress_bind
    || match guest_kind p with
       | Component => false
       | Service => is_loopback ip
       | Plugin direct_binds =>
           is_loopback ip || existsb (λ b, direct_bind_permits b reason addr) direct_binds
       end in
  if permitted then allow_by_address addr else Deny BindNotPermitted.

Definition resolve_host_loopback (p : SocketPolicy) (addr : SocketAddr) (protocol : Protocol) :
    result (SocketAddr * Plane) DenyReason :=
  if negb (host_loopback_enabled p) then Err HostLoopbackNotPermitted
  else if negb (check_allowed_loopback (host_loopback p) addr protocol)
  then Err HostLoopbackNotPermitted
  else
    let target := rewrite_sentinel addr in
    if is_some_and (host_owned_ports p) (λ table, is_published table protocol target)
    then Err HostOwnedPort
    else Ok (target, Host).

Definition gate (p : SocketPolicy) (reason : DenyReason) (st : PolicyState) :
    result Plane DenyReason * PolicyState :=
  match egress_mode p with
  | Enforce => (Err reason, st)
  | Count => (Ok Host, with_meters st (λ m, record_would_deny m reason))
  end.

(** The store's lookup history at the time of the decision. *)
Definition named_until (p : SocketPolicy) (names : option Inner) (addr : SocketAddr)
    (now : Instant) : option (option Instant) :=
  if check_allowed_addr (allowed_hosts p) addr then Some None
  else i ← names; permitted_until_at (resolved_names p) i (allowed_hosts p) addr now.

Definition resolve_connect (p : SocketPolicy) (addr : SocketAddr) (protocol : Protocol)
    (names : option Inner) (now : Instant) (st : PolicyState) :
    result Route DenyReason * PolicyState :=
  if is_host_sentinel (sock_ip addr) then
    (match resolve_host_loopback p addr protocol with
     | Ok (addr, plane) => Ok (standing addr plane)
     | Err r => Err r
     end, st)
  else
    let ip := to_canonical (sock_ip addr) in
    if is_loopback ip || is_unspecified ip then (Ok (standing addr Virtual), st)
    else
      let named := named_until p names addr now in
      let in_range := EgressPolicy.permits (egress_addrs p) (sock_ip addr) in
      let '(g, st) := if is_some named then (Ok Host, st) else gate p NotPermitted st in
      match g with
      | Err r => (Err r, st)
      | Ok _ =>
          let '(g, st) := if in_range then (Ok Host, st) else gate p BlockedRange st in
          match g with
          | Err r => (Err r, st)
          | Ok _ =>
              (Ok {| rt_addr := addr; rt_plane := Host;
                     rt_valid_until := if in_range then mjoin named else None |}, st)
          end
      end.

Definition decide_connect (p : SocketPolicy) (addr : SocketAddr) (protocol : Protocol)
    (names : option Inner) (now : Instant) (st : PolicyState) : AddrDecision * PolicyState :=
  let '(r, st) := resolve_connect p addr protocol names now st in
  (match r with
   | Ok route => Allow {| al_addr := rt_addr route; al_plane := rt_plane route;
                          permit := None; valid_until := rt_valid_until route |}
   | Err reason => Deny reason
   end, st).

Definition decide_accept (p : SocketPolicy) (addr : SocketAddr) (network : bool)
    (st : PolicyState) : AddrDecision * PolicyState :=
  match guest_kind p with
  | Component => (Deny NotPermitted, st)
  | Service | Plugin _ =>
      match quota p with
      | Some q =>
          if network then
            match try_acquire_inbound_socket q (heap st) with
            | (Some slot, h) =>
                (Allow {| al_addr := addr; al_plane := plane_by_address addr;
                          permit := Some slot; valid_until := None |}, with_heap st h)
            | (None, h) => (Deny NoCapacity, with_heap st h)
            end
          else (allow_by_address addr, st)
      | None => (allow_by_address addr, st)
      end
  end.

Definition decide_receive (addr : SocketAddr) : AddrDecision := allow_by_address addr.

Definition allow_with_slot (p : SocketPolicy) (addr : SocketAddr) (plane : Plane)
    (st : PolicyState) : AddrDecision * PolicyState :=
  match quota p with
  | None => (allow_on addr plane, st)
  | Some q =>
      match try_acquire_outbound_socket q (heap st) with
      | (Some slot, h) =>
          (Allow {| al_addr := addr; al_plane := plane; permit := Some slot;
                    valid_until := None |}, with_heap st h)
      | (None, h) => (Deny NoCapacity, with_heap st h)
      end
  end.

(** The [match] of [decide_inner], before the refusal is counted. *)
Definition decide_use (p : SocketPolicy) (reason : SocketAddrUse) (addr : SocketAddr)
    (names : option Inner) (now : Instant) (st : PolicyState) : AddrDecision * PolicyState :=
  match reason with
  | TcpCreate | UdpCreate => allow_with_slot p addr Host st
  | TcpBind | TcpListen | UdpBind => (decide_bind p reason addr, st)
  | TcpAccept => decide_accept p addr true st
  | TcpAcceptVirtual => decide_accept p addr false st
  | UdpImplicitBind => (allow_on addr Host, st)
  | TcpConnect => decide_connect p addr Tcp names now st
  | UdpConnect | UdpOutgoingDatagram => decide_connect p addr Udp names now st
  | UdpReceive => (decide_receive addr, st)
  end.

Definition decide_inner (p : SocketPolicy) (reason : SocketAddrUse) (addr : SocketAddr)
    (names : option Inner) (now : Instant) (st : PolicyState) : AddrDecision * PolicyState :=
  let '(decision, st) := decide_use p reason addr names now st in
  match decision with
  | Deny why => (decision, with_meters st (λ m, record_deny m why))
  | Allow _ => (decision, st)
  end.

Definition decide_for_store (p : SocketPolicy) (reason : SocketAddrUse) (addr : SocketAddr)
    (names : Inner) (now : Instant) (st : PolicyState) : AddrDecision * PolicyState :=
  decide_inner p reason addr (Some names) now st.

(** ** One store's context: [WasiSocketsCtx] and its check *)

Record WasiSocketsCtx := {
  ctx_policy : SocketPolicy;
  ctx_network_uses : AllowedNetworkUses;
  ctx_ip_name_lookups : list AllowedIpName;
  ctx_allowed_hosts : list AllowedHost;
  ctx_names : Inner;
}.

Definition for_store (p : SocketPolicy) (lookups : list AllowedIpName) : WasiSocketsCtx :=
  {| ctx_policy := p; ctx_network_uses := default_network_uses;
     ctx_ip_name_lookups := lookups; ctx_allowed_hosts := allowed_hosts p;
     ctx_names := empty_inner |}.

Definition check (c : WasiSocketsCtx) (addr : SocketAddr) (reason : SocketAddrUse)
    (now : Instant) (st : PolicyState) : result Allowed ErrorCode * PolicyState :=
  let '(d, st) := decide_for_store (ctx_policy c) reason addr (ctx_names c) now st in
  (into_allowed d, st).

(** Returns the deadline the socket keeps; on an error it keeps the old one. *)
Definition refresh_connected (c : WasiSocketsCtx) (peer : SocketAddr)
    (until : option Instant) (now : Instant) (st : PolicyState) :
    result (option Instant) ErrorCode * PolicyState :=
  match until with
  | Some deadline =>
      if deadline <=? now then
        let '(r, st) := check c peer UdpOutgoingDatagram now st in
        (match r with Ok a => Ok (valid_until a) | Err e => Err e end, st)
      else (Ok until, st)
  | None => (Ok until, st)
  end.

End socket_policy.

(** ** What a connect is granted

    The specification: three ways an outbound address is let through. *)

Definition connect_protocol (reason : SocketAddrUse) : option Protocol :=
  match reason with
  | TcpConnect => Some Tcp
  | UdpConnect | UdpOutgoingDatagram => Some Udp
  | _ => None
  end.

Section grants.
Context `{UriLib}.
Implicit Types (p : SocketPolicy) (names : option Inner).

(** The door to the machine's own loopback: switched on by the host, granted for
    this very port and transport, and not a port the host itself owns. *)
Definition door_open p (addr : SocketAddr) (protocol : Protocol) : Prop :=
  host_loopback_enabled p = true
  ∧ check_allowed_loopback (host_loopback p) addr protocol = true
  ∧ (∀ table, host_owned_ports p = Some table →
       is_published table protocol (rewrite_sentinel addr) = false).

(** An address naming this machine. *)
Definition this_machine (addr : SocketAddr) : bool :=
  is_loopback (to_canonical (sock_ip addr)) || is_unspecified (to_canonical (sock_ip addr)).

Inductive granted p names now protocol addr : Route → Prop :=
  | granted_door :
      is_host_sentinel (sock_ip addr) = true → door_open p addr protocol →
      granted p names now protocol addr (standing (rewrite_sentinel addr) Host)
  | granted_virtual :
      is_host_sentinel (sock_ip addr) = false → this_machine addr = true →
      granted p names now protocol addr (standing addr Virtual)
  | granted_egress d :
      is_host_sentinel (sock_ip addr) = false → this_machine addr = false →
      named_until p names addr now = Some d →
      EgressPolicy.permits (egress_addrs p) (sock_ip addr) = true →
      granted p names now protocol addr
        {| rt_addr := addr; rt_plane := Host; rt_valid_until := d |}.

Lemma resolve_host_loopback_iff p addr protocol out :
  resolve_host_loopback p addr protocol = Ok out ↔
  door_open p addr protocol ∧ out = (rewrite_sentinel addr, Host).
Proof.
  unfold resolve_host_loopback, door_open.
  destruct (host_loopback_enabled p); simpl; [|naive_solver].
  destruct (check_allowed_loopback _ _ _); simpl; [|naive_solver].
  destruct (host_owned_ports p) as [t|]; simpl; [|naive_solver].
  destruct (is_published t protocol (rewrite_sentinel addr)) eqn:E; [|naive_solver].
  split; [done|]. intros [(_ & _ & Ht) _]. specialize (Ht t eq_refl). congruence.
Qed.

Lemma resolve_connect_enforce p addr protocol names now st rt st' :
  egress_mode p = Enforce →
  resolve_connect p addr protocol names now st = (Ok rt, st') ↔
  granted p names now protocol addr rt ∧ st' = st.
Proof.
  intros Hm. unfold resolve_connect.
  destruct (is_host_sentinel (sock_ip addr)) eqn:Hs.
  - destruct (resolve_host_loopback p addr protocol) as [[a pl]|r] eqn:Hr.
    + apply resolve_host_loopback_iff in Hr as [Hd [= -> ->]]. split.
      * intros [= <- <-]. split; [|done]. by constructor.
      * intros [Hg ->]. inversion Hg; subst; congruence.
    + split; [done|]. intros [Hg _]. inversion Hg as [? Hd|?|]; subst; try congruence.
      assert (resolve_host_loopback p addr protocol = Ok (rewrite_sentinel addr, Host)) by
        (by apply resolve_host_loopback_iff). congruence.
  - fold (this_machine addr). destruct (this_machine addr) eqn:Ht.
    { split.
      - intros [= <- <-]. split; [|done]. by constructor.
      - intros [Hg ->]. inversion Hg; subst; congruence. }
    unfold gate. rewrite Hm.
    destruct (named_until p names addr now) as [d|] eqn:Hn; simpl;
      [destruct (EgressPolicy.permits _ _) eqn:Hp|]; simpl.
    + split.
      * intros [= <- <-]. split; [|done]. by constructor.
      * intros [Hg ->]. inversion Hg; subst; try congruence.
    + split; [done|]. intros [Hg _]. inversion Hg; congruence.
    + split; [done|]. intros [Hg _]. inversion Hg; congruence.
Qed.

Lemma decide_inner_connect p reason addr names now st protocol :
  connect_protocol reason = Some protocol →
  decide_inner p reason addr names now st =
    match resolve_connect p addr protocol names now st with
    | (Ok rt, st') => (Allow {| al_addr := rt_addr rt; al_plane := rt_plane rt; permit := None;
                                valid_until := rt_valid_until rt |}, st')
    | (Err r, st') => (Deny r, with_meters st' (λ m, record_deny m r))
    end.
Proof.
  intros Hc. destruct reason; try discriminate Hc; injection Hc as <-; simpl;
    unfold decide_inner, decide_use, decide_connect;
    by destruct (resolve_connect _ _ _ _ _ _) as [[rt|r] st'].
Qed.

(** C1: while the gate enforces, a connect or an outgoing datagram is allowed
    exactly when the specification grants it (the open door to the machine's
    loopback, the guest's own virtual network, or real egress that an
    [allowedHosts] entry or a resolved name covers and whose range is permitted);
    the answer is then the granted route, and no permit or counter moves. *)
Theorem enforced_connect_iff p reason protocol addr names now st a st' :
  egress_mode p = Enforce → connect_protocol reason = Some protocol →
  decide_inner p reason addr names now st = (Allow a, st') ↔
  st' = st ∧ permit a = None
  ∧ granted p names now protocol addr
      {| rt_addr := al_addr a; rt_plane := al_plane a; rt_valid_until := valid_until a |}.
Proof.
  intros Hm Hc. rewrite (decide_inner_connect _ _ _ _ _ _ _ Hc).
  destruct (resolve_connect p addr protocol names now st) as [[rt|r] st1] eqn:E.
  - apply (resolve_connect_enforce _ _ _ _ _ _ _ _ Hm) in E as [Hg ->]. split.
    + intros [= <- <-]. by destruct rt.
    + intros (-> & Hpm & Hg').
      assert (resolve_connect p addr protocol names now st
        = (Ok {| rt_addr := al_addr a; rt_plane := al_plane a; rt_valid_until := valid_until a |},
           st)) as E2 by (by apply resolve_connect_enforce).
      assert (resolve_connect p addr protocol names now st = (Ok rt, st)) as E3
        by (by apply resolve_connect_enforce).
      rewrite E2 in E3. injection E3 as <-. destruct a. simpl in *. by subst.
  - split; [done|]. intros (-> & _ & Hg).
    pose proof (proj2 (resolve_connect_enforce p addr protocol names now st _ st Hm)
                  (conj Hg eq_refl)) as E2.
    congruence.
Qed.

(** Whatever the mode, the host plane is reached by the door or by an address that
    does not name this machine. *)
Lemma resolve_connect_host p addr protocol names now st rt st' :
  resolve_connect p addr protocol names now st = (Ok rt, st') → rt_plane rt = Host →
  (is_host_sentinel (sock_ip addr) = true ∧ door_open p addr protocol
   ∧ rt = standing (rewrite_sentinel addr) Host)
  ∨ (is_host_sentinel (sock_ip addr) = false ∧ this_machine addr = false ∧ rt_addr rt = addr).
Proof.
  unfold resolve_connect. destruct (is_host_sentinel (sock_ip addr)) eqn:Hs.
  - destruct (resolve_host_loopback p addr protocol) as [[a pl]|r] eqn:Hr; [|done].
    apply resolve_host_loopback_iff in Hr as [Hd [= -> ->]]. intros [= <- <-]. by left.
  - fold (this_machine addr). destruct (this_machine addr); [by intros [= <- <-]|].
    intros Hr _. right. split; [done|]. split; [done|].
    destruct (if is_some _ then _ else gate _ _ _) as [[|] st1]; [|done].
    destruct (if EgressPolicy.permits _ _ then _ else gate _ _ _) as [[|] st2]; [|done].
    by injection Hr as <- _.
Qed.

(** C9: in either mode, the policy allows a connect or a datagram to the machine's own
    loopback (or the unspecified address, which names it too) on a real socket for
    one reason only: the guest addressed the sentinel, the host switched the door
    on, the guest was granted that port and transport, and the host does not own
    it; the destination it is given is then loopback on the same port.  (This is
    about what the policy decides; a socket that uses a decision for another
    destination is outside it.) *)
Theorem real_loopback_only_through_the_door p reason protocol addr names now st a st' :
  connect_protocol reason = Some protocol →
  decide_inner p reason addr names now st = (Allow a, st') →
  al_plane a = Host → this_machine (al_addr a) = true →
  is_host_sentinel (sock_ip addr) = true ∧ door_open p addr protocol
  ∧ al_addr a = rewrite_sentinel addr ∧ sock_port (al_addr a) = sock_port addr.
Proof.
  intros Hc. rewrite (decide_inner_connect _ _ _ _ _ _ _ Hc).
  destruct (resolve_connect _ _ _ _ _ _) as [[rt|r] st1] eqn:E; [|done].
  intros [= <- <-] Hpl Hm. simpl in *.
  apply resolve_connect_host in E as [(Hs & Hd & ->)|(_ & Hn & Heq)]; [|congruence..|done].
  simpl in *. split; [done|]. split; [done|]. split; [done|]. by destruct addr.
Qed.

(** while the gate enforces and special ranges are denied (the default), a
    real socket goes either through the open door or to an address that is not
    loopback, unspecified, multicast or an instance-metadata address, in any
    spelling. *)
Theorem enforced_egress_is_elsewhere p reason protocol addr names now st a st' :
  egress_mode p = Enforce → deny_special (egress_addrs p) = true →
  connect_protocol reason = Some protocol →
  decide_inner p reason addr names now st = (Allow a, st') → al_plane a = Host →
  (is_host_sentinel (sock_ip addr) = true ∧ door_open p addr protocol)
  ∨ (al_addr a = addr ∧ elsewhere (to_canonical (sock_ip addr))).
Proof.
  intros Hm Hsp Hc. rewrite (decide_inner_connect _ _ _ _ _ _ _ Hc).
  destruct (resolve_connect _ _ _ _ _ _) as [[rt|r] st1] eqn:E; [|done].
  apply (resolve_connect_enforce _ _ _ _ _ _ _ _ Hm) in E as [Hg ->].
  intros [= <- <-] Hpl. simpl in *.
  inversion Hg as [Hs Hd|Hs Ht|d Hs Ht Hn Hp]; subst; [by left|done|].
  right. split; [done|]. by eapply permits_elsewhere.
Qed.

(** an allowed decision that lapses is always real egress to the very address
    the guest named, never a rewritten sentinel; so when a connected UDP socket
    asks again with its peer's address, it asks about the same destination. *)
Theorem deadlines_only_on_real_egress p reason addr names now st a st' d :
  decide_inner p reason addr names now st = (Allow a, st') → valid_until a = Some d →
  al_addr a = addr ∧ al_plane a = Host ∧ is_host_sentinel (sock_ip addr) = false
  ∧ this_machine addr = false.
Proof.
  intros Hd Hv. destruct (connect_protocol reason) as [protocol|] eqn:Hc.
  - rewrite (decide_inner_connect _ _ _ _ _ _ _ Hc) in Hd.
    destruct (resolve_connect _ _ _ _ _ _) as [[rt|r] st1] eqn:E; [|done].
    injection Hd as <- <-. simpl in *.
    assert (rt_plane rt = Host) as Hpl.
    { unfold resolve_connect in E. destruct (is_host_sentinel _).
      - destruct (resolve_host_loopback _ _ _) as [[??]|]; [|done]. by injection E as <- _.
      - destruct (_ || _); [by injection E as <- _|].
        destruct (if is_some _ then _ else gate _ _ _) as [[|] s1]; [|done].
        destruct (if EgressPolicy.permits _ _ then _ else gate _ _ _) as [[|] s2]; [|done].
        by injection E as <- _. }
    destruct (resolve_connect_host _ _ _ _ _ _ _ _ E Hpl) as [(_ & _ & ->)|(? & ? & ?)]; done.
  - exfalso. unfold decide_inner in Hd.
    destruct reason; simpl in Hd; try discriminate Hc;
      unfold allow_with_slot, decide_accept, decide_bind, decide_receive, allow_by_address,
        allow_on in Hd;
      simplify_eq/=; repeat (case_match; simplify_eq/=).
Qed.

(** ** Counting and enforcing *)

Definition set_mode p (m : EgressMode) : SocketPolicy :=
  {| guest_kind := guest_kind p; allowed_hosts := allowed_hosts p;
     host_loopback := host_loopback p; host_loopback_enabled := host_loopback_enabled p;
     egress_addrs := egress_addrs p; host_owned_ports := host_owned_ports p;
     egress_mode := m; quota := quota p; resolved_names := resolved_names p |}.

Lemma wrap_succ_ne z : wrap_succ z ≠ z.
Proof.
  unfold wrap_succ. intros Hz.
  assert (0 ≤ z < 2 ^ 64) by (rewrite <-Hz; apply Z.mod_pos_bound; lia).
  destruct (Z.eq_dec z (2 ^ 64 - 1)) as [->|]; [discriminate Hz|].
  rewrite Z.mod_small in Hz by lia. lia.
Qed.

(** What counting records for a destination: one count per layer that refuses. *)
Definition counted (named : option (option Instant)) (in_range : bool) (m : PolicyMeters) :
    PolicyMeters :=
  let m := if is_some named then m else record_would_deny m NotPermitted in
  if in_range then m else record_would_deny m BlockedRange.

Lemma resolve_connect_count p addr protocol names now h m :
  is_host_sentinel (sock_ip addr) = false → this_machine addr = false →
  let named := named_until p names addr now in
  let in_range := EgressPolicy.permits (egress_addrs p) (sock_ip addr) in
  resolve_connect (set_mode p Count) addr protocol names now {| heap := h; meters := Some m |}
  = (Ok {| rt_addr := addr; rt_plane := Host;
           rt_valid_until := if in_range then mjoin named else None |},
     {| heap := h; meters := Some (counted named in_range m) |})
  ∧ resolve_connect (set_mode p Enforce) addr protocol names now {| heap := h; meters := Some m |}
  = (match named with
     | None => Err NotPermitted
     | Some d => if in_range
                 then Ok {| rt_addr := addr; rt_plane := Host; rt_valid_until := d |}
                 else Err BlockedRange
     end, {| heap := h; meters := Some m |}).
Proof.
  intros Hs Ht. unfold resolve_connect. rewrite Hs. fold (this_machine addr). rewrite Ht.
  change (named_until (set_mode p Count)) with (named_until p).
  change (named_until (set_mode p Enforce)) with (named_until p). simpl.
  unfold counted. destruct (named_until p names addr now) as [d|]; simpl;
    by destruct (EgressPolicy.permits _ _).
Qed.

Lemma counted_would_deny named in_range m r :
  meters_wf m →
  would_deny (counted named in_range m) r =
    if decide ((r = NotPermitted ∧ named = None) ∨ (r = BlockedRange ∧ in_range = false))
    then wrap_succ (would_deny m r) else would_deny m r.
Proof.
  intros Hw. unfold counted.
  destruct (record_would_deny_spec m NotPermitted r Hw) as (H1 & _ & Hw1).
  destruct named as [d|], in_range; simpl.
  - rewrite decide_False by naive_solver. done.
  - rewrite (proj1 (record_would_deny_spec m BlockedRange r Hw)).
    destruct (decide (BlockedRange = r)) as [<-|];
      [rewrite decide_True by auto|rewrite decide_False by naive_solver]; done.
  - rewrite H1. destruct (decide (NotPermitted = r)) as [<-|];
      [rewrite decide_True by auto|rewrite decide_False by naive_solver]; done.
  - rewrite (proj1 (record_would_deny_spec _ BlockedRange r Hw1)), H1.
    repeat case_decide; naive_solver.
Qed.

(** C13: count mode predicts enforcement.  For every destination outside the guest's
    own network and the sentinel, counting lets the connection through to the
    address as named and leaves every permit alone; it counts a refusal exactly
    when enforcing would refuse, and the reason enforcing would give is among
    those counted. *)
Theorem count_mode_predicts_enforcement p reason protocol addr names now h m :
  connect_protocol reason = Some protocol → meters_wf m →
  is_host_sentinel (sock_ip addr) = false → this_machine addr = false →
  let st := {| heap := h; meters := Some m |} in
  ∃ a m', decide_inner (set_mode p Count) reason addr names now st
          = (Allow a, {| heap := h; meters := Some m' |})
    ∧ al_addr a = addr ∧ al_plane a = Host
    ∧ (∀ r, denied m' r = denied m r)
    ∧ ((∃ r, (decide_inner (set_mode p Enforce) reason addr names now st).1 = Deny r)
       ↔ ∃ r, would_deny m' r ≠ would_deny m r)
    ∧ (∀ r, (decide_inner (set_mode p Enforce) reason addr names now st).1 = Deny r →
         would_deny m' r = wrap_succ (would_deny m r)).
Proof.
  intros Hc Hw Hs Ht st. subst st.
  rewrite !(decide_inner_connect _ _ _ _ _ _ _ Hc).
  destruct (resolve_connect_count p addr protocol names now h m Hs Ht) as [-> ->].
  set (named := named_until p names addr now).
  set (in_range := EgressPolicy.permits (egress_addrs p) (sock_ip addr)).
  eexists _, (counted named in_range m). split; [done|]. split; [done|]. split; [done|].
  split; [|split].
  - intros r. unfold counted.
    by destruct (is_some named), in_range.
  - split.
    + intros [r Hr]. destruct named as [d|] eqn:En; [destruct in_range eqn:Er|]; try done;
        injection Hr as <-; [exists BlockedRange|exists NotPermitted];
        rewrite counted_would_deny, decide_True by auto; apply wrap_succ_ne.
    + intros [r Hr]. rewrite counted_would_deny in Hr by done.
      destruct (decide _) as [Hd|]; [|done].
      destruct named as [d|]; [|by eexists]. destruct in_range; [|by eexists]. naive_solver.
  - intros r Hr. rewrite counted_would_deny by done. rewrite decide_True; [done|].
    destruct named as [d|]; [destruct in_range|]; try done; injection Hr as <-; auto.
Qed.

(** ** Binds *)

(** a workload component never listens: no TCP bind, listen or accept is ever
    allowed to it, and a UDP bind only as the first step of egress (a loopback
    address, or an ephemeral port on the unspecified one). *)
Theorem component_never_listens p reason addr names now st :
  guest_kind p = Component →
  reason ∈ [TcpBind; TcpListen; TcpAccept; TcpAcceptVirtual; UdpBind] →
  match (decide_inner p reason addr names now st).1 with
  | Deny _ => True
  | Allow a =>
      reason = UdpBind ∧ al_addr a = addr ∧ permit a = None
      ∧ (is_loopback (sock_ip addr) = true
         ∨ is_unspecified (sock_ip addr) = true ∧ sock_port addr = 0)
  end.
Proof.
  intros Hk Hr. rewrite !elem_of_cons, elem_of_nil in Hr.
  unfold decide_inner, decide_use, decide_bind, decide_accept. rewrite Hk.
  destruct Hr as [-> | [-> | [-> | [-> | [-> | []]]]]]; simpl; try done.
  destruct (is_loopback (sock_ip addr)); simpl; [by auto|].
  destruct (is_unspecified (sock_ip addr)); simpl; [|done].
  destruct (Z.eqb_spec (sock_port addr) 0); simpl; [by auto 6|done].
Qed.

(** whatever the guest, a bind that reaches the machine's real interfaces is
    either the ephemeral unspecified UDP bind egress needs, or an address the
    operator declared for that plugin, matched exactly in address and transport. *)
Theorem host_bind_is_declared p reason addr names now st a st' :
  reason ∈ [TcpBind; TcpListen; UdpBind] →
  decide_inner p reason addr names now st = (Allow a, st') → al_plane a = Host →
  al_addr a = addr ∧ st' = st
  ∧ ((reason = UdpBind ∧ is_unspecified (sock_ip addr) = true ∧ sock_port addr = 0)
     ∨ ∃ binds b, guest_kind p = Plugin binds ∧ b ∈ binds ∧ SocketPolicy.db_addr b = addr
                  ∧ db_udp b = bool_decide (reason = UdpBind)).
Proof.
  intros Hr. assert (decide_inner p reason addr names now st =
    match decide_bind p reason addr with
    | Deny why => (Deny why, with_meters st (λ m, record_deny m why))
    | Allow a => (Allow a, st)
    end) as ->.
  { rewrite !elem_of_cons, elem_of_nil in Hr. unfold decide_inner, decide_use.
    destruct Hr as [-> | [-> | [-> | []]]]; simpl; by destruct (decide_bind _ _ _). }
  unfold decide_bind, allow_by_address, plane_by_address.
  assert (is_loopback (sock_ip addr) = true → is_loopback (to_canonical (sock_ip addr)) = true)
    as Hlo.
  { destruct (sock_ip addr) as [v|v]; simpl; [done|]. unfold v6.is_loopback.
    by intros ->%bool_decide_eq_true. }
  destruct (is_loopback (sock_ip addr)); simpl.
  { rewrite Hlo by done. repeat case_match; simplify_eq/=; try done; by intros [= <- <-]. }
  clear Hlo.
  destruct (bool_decide (reason = UdpBind) && _) eqn:Hu; simpl.
  { intros [= <- <-] _. bools. split; [done|]. split; [done|]. by left. }
  destruct (guest_kind p) as [| |binds] eqn:Hk; [done..|].
  destruct (existsb _ binds) eqn:He; [|done]. intros [= <- <-] _.
  split; [done|]. split; [done|]. right. apply existsb_elem in He as (b & Hb & Hp).
  exists binds, b. split; [done|]. split; [done|].
  destruct reason; simpl in Hp; try discriminate Hp; by bools.
Qed.

(** ** Permits and counters *)

(** Every use but creating a socket and accepting a network connection. *)
Lemma decide_inner_no_spend p reason addr names now st d st' :
  reason ∉ [TcpCreate; UdpCreate; TcpAccept] →
  decide_inner p reason addr names now st = (d, st') →
  heap st' = heap st ∧ ∀ a, d = Allow a → permit a = None.
Proof.
  intros Hn. destruct (connect_protocol reason) as [proto|] eqn:Hc.
  - rewrite (decide_inner_connect _ _ _ _ _ _ _ Hc).
    assert (heap (resolve_connect p addr proto names now st).2 = heap st) as Hh.
    { unfold resolve_connect, gate. repeat case_match; simplify_eq/=; done. }
    destruct (resolve_connect _ _ _ _ _ _) as [[rt|r] st1]; simpl in *; intros [= <- <-];
      simpl; split; try done; by intros a [= <-].
  - unfold decide_inner, decide_use, decide_accept, decide_receive, decide_bind,
      allow_by_address, allow_on.
    destruct reason; try discriminate Hc; try (by destruct Hn; set_solver);
      repeat case_match; intros; simplify_eq/=; (split; [done|]); by intros ? [= <-].
Qed.

(** Only creating a socket and accepting a network connection spend a permit.
    Every other use leaves all permits alone and hands out none; the two that
    spend hand out one slot of the guest's outbound or inbound surface, or refuse
    with [NoCapacity] and leave every permit as it was. *)
Lemma only_create_and_accept_spend p reason addr names now st :
  (∀ q, quota p = Some q → global_ok (q_global q)) →
  let '(d, st') := decide_inner p reason addr names now st in
  (reason ∉ [TcpCreate; UdpCreate; TcpAccept] →
     heap st' = heap st ∧ ∀ a, d = Allow a → permit a = None)
  ∧ (∀ r, d = Deny r → ∀ i, permits (heap st') i = permits (heap st) i)
  ∧ (∀ a slot, d = Allow a → permit a = Some slot → ∃ q, quota p = Some q
       ∧ slot_guest slot = SemGuest (q_id q)
           (if decide (reason = TcpAccept) then InboundSockets else OutboundSockets)
       ∧ ∀ i, permits (drop_slot (heap st') slot) i = permits (heap st) i).
Proof.
  intros Hq.
  assert (∀ q s h slot h', quota p = Some q → try_acquire q s h = (Some slot, h') →
    slot_guest slot = SemGuest (q_id q) s
    ∧ ∀ i, permits (drop_slot h' slot) i = permits h i) as Hslot.
  { intros q s h slot h' Hs Ht. specialize (Hq q Hs).
    apply try_acquire_Some in Ht as [-> Hp]; [|done]. split; [done|]. intros i.
    rewrite drop_slot_permits; [destruct (Hp i) as [-> _]; lia|].
    simpl. destruct Hq as [-> | ->]; congruence. }
  assert (∀ q s h h', quota p = Some q → try_acquire q s h = (None, h') →
    ∀ i, permits h' i = permits h i) as Hnone.
  { intros q s h h' Hs Ht. by apply try_acquire_None in Ht as [? _]; [|by apply Hq]. }
  destruct (connect_protocol reason) as [proto|] eqn:Hc.
  - rewrite (decide_inner_connect _ _ _ _ _ _ _ Hc).
    assert (heap (resolve_connect p addr proto names now st).2 = heap st) as Hh.
    { unfold resolve_connect, gate. repeat case_match; simplify_eq/=; done. }
    destruct (resolve_connect _ _ _ _ _ _) as [[rt|r] st1]; simpl in *; rewrite ?Hh;
      repeat split; naive_solver.
  - unfold decide_inner, decide_use, allow_with_slot, decide_accept, decide_receive,
      decide_bind, allow_by_address, allow_on, try_acquire_outbound_socket,
      try_acquire_inbound_socket.
    destruct reason; try discriminate Hc; repeat case_match; simplify_eq/=;
      repeat split; intros; simplify_eq/=; try done; try set_solver; eauto;
      eexists; (split; [done|]); by eapply Hslot.
Qed.

Lemma gate_keeps_denied p r st m :
  meters st = Some m → meters_wf m →
  ∃ m1, meters (gate p r st).2 = Some m1 ∧ meters_wf m1 ∧ ∀ r', denied m1 r' = denied m r'.
Proof.
  intros Hm Hw. unfold gate. destruct (egress_mode p); simpl; [|by eauto]. rewrite Hm. simpl.
  eexists. split; [done|]. split; [by apply (record_would_deny_spec m r r)|done].
Qed.

Lemma connect_keeps_denied p addr protocol names now h m :
  meters_wf m →
  ∃ m1, meters (decide_connect p addr protocol names now {| heap := h; meters := Some m |}).2
        = Some m1 ∧ meters_wf m1 ∧ ∀ r, denied m1 r = denied m r.
Proof.
  intros Hw. unfold decide_connect, resolve_connect. set (st := {| heap := h |}).
  assert (∃ m1, meters st = Some m1 ∧ meters_wf m1 ∧ ∀ r, denied m1 r = denied m r) as H0
    by (by exists m).
  assert (∀ r s, (∃ m1, meters s = Some m1 ∧ meters_wf m1 ∧ ∀ r, denied m1 r = denied m r) →
    ∃ m1, meters (gate p r s).2 = Some m1 ∧ meters_wf m1 ∧ ∀ r, denied m1 r = denied m r) as Hg.
  { intros r s (m1 & Hs & Hw1 & Hd1). destruct (gate_keeps_denied p r s m1 Hs Hw1)
      as (m2 & ? & ? & Hd2). exists m2. split; [done|]. split; [done|]. intros r'.
    by rewrite Hd2. }
  destruct (is_host_sentinel _); [done|]. destruct (_ || _); [done|].
  pose proof (Hg NotPermitted st H0) as H1.
  destruct (is_some _); [|destruct (gate p NotPermitted st) as [[|] s1]; simpl in H1; [|done]];
    (destruct (EgressPolicy.permits _ _); [done|]).
  - pose proof (Hg BlockedRange st H0) as H2. by destruct (gate p BlockedRange st) as [[|] s2].
  - pose proof (Hg BlockedRange s1 H1) as H2. by destruct (gate p BlockedRange s1) as [[|] s2].
Qed.

(** every refusal is counted once, under the reason the guest is given, and
    nothing else is: an allowed use leaves the deny counters alone, whatever the
    mode. *)
Theorem every_refusal_counted p reason addr names now h m :
  meters_wf m →
  let '(d, st') := decide_inner p reason addr names now {| heap := h; meters := Some m |} in
  ∃ m', meters st' = Some m' ∧ meters_wf m'
    ∧ ∀ r, denied m' r = match d with
                         | Deny why => if decide (why = r) then wrap_succ (denied m r)
                                       else denied m r
                         | Allow _ => denied m r
                         end.
Proof.
  intros Hw. unfold decide_inner.
  assert (∃ m1, meters (decide_use p reason addr names now {| heap := h; meters := Some m |}).2
                = Some m1 ∧ meters_wf m1 ∧ ∀ r, denied m1 r = denied m r) as (m1 & Hm1 & Hw1 & Hd1).
  { unfold decide_use. destruct reason; simpl; try by eauto.
    all: try by apply connect_keeps_denied.
    all: unfold allow_with_slot, decide_accept; repeat case_match; simpl; by exists m. }
  destruct (decide_use _ _ _ _ _ _) as [[why|a] st1]; simpl in *.
  - rewrite Hm1. simpl. eexists. split; [done|]. split; [by apply record_deny_spec|].
    intros r. by rewrite (proj1 (record_deny_spec m1 why r Hw1)), Hd1.
  - exists m1. done.
Qed.

(** ** From a decision back to the configuration *)

(** What makes real egress legitimate: an [allowedHosts] entry that names the
    address, or one that names a host some lookup of this store resolved into the
    address, with that lookup's grant still holding. *)
Definition accounted_for p (events : list LookupEvent) (addr : SocketAddr) (now : Instant) :
    Prop :=
  (∃ e, e ∈ allowed_hosts p ∧ permits_addr e addr = true)
  ∨ ∃ ev e, ev ∈ events ∧ e ∈ allowed_hosts p
      ∧ permits_name e (ev_name ev) (sock_port addr) = true
      ∧ to_canonical (sock_ip addr) ∈ (to_canonical <$> ev_addrs ev)
      ∧ holds_at (deadline_of (resolved_names p) (ev_observed ev)) now.

Lemma named_until_accounted p events addr now d :
  named_until p (Some (replay (resolved_names p) events)) addr now = Some d →
  accounted_for p events addr now.
Proof.
  unfold named_until. destruct (check_allowed_addr _ _) eqn:E.
  - intros _. left. by apply existsb_elem.
  - simpl. intros (ev & e & ? & ? & ? & ? & -> & ?)%permitted_by_lookup. right. eauto 10.
Qed.

(** every real connection of an enforcing host is accounted for.  If a connect
    or datagram is allowed onto a real socket and did not go through the
    sentinel's door, then the destination is the address the guest named, its
    range is permitted, and an [allowedHosts] entry names that address or names a
    host that an earlier lookup of the same store resolved into it on that port,
    with that grant not lapsed. *)
Theorem real_egress_accounted_for p reason protocol addr events now st a st' :
  egress_mode p = Enforce → connect_protocol reason = Some protocol →
  decide_for_store p reason addr (replay (resolved_names p) events) now st = (Allow a, st') →
  al_plane a = Host → is_host_sentinel (sock_ip addr) = false →
  al_addr a = addr ∧ EgressPolicy.permits (egress_addrs p) (sock_ip addr) = true
  ∧ accounted_for p events addr now.
Proof.
  intros Hm Hc. unfold decide_for_store. rewrite (decide_inner_connect _ _ _ _ _ _ _ Hc).
  destruct (resolve_connect _ _ _ _ _ _) as [[rt|r] st1] eqn:E; [|done].
  apply (resolve_connect_enforce _ _ _ _ _ _ _ _ Hm) in E as [Hg ->].
  intros [= <- <-] Hpl Hs. simpl in *.
  inversion Hg as [Hs'|Hs' Ht|d Hs' Ht Hn Hp]; subst; [congruence|done|].
  split; [done|]. split; [done|]. by eapply named_until_accounted.
Qed.

(** a policy with no [allowedHosts] entry and the loopback door closed, as an
    embedder that configures nothing gets, confines the guest to its virtual
    network: no connect or datagram is ever allowed onto a real socket. *)
Theorem unconfigured_guest_is_confined p reason protocol addr names now st a st' :
  egress_mode p = Enforce → allowed_hosts p = [] → host_loopback_enabled p = false →
  connect_protocol reason = Some protocol →
  decide_inner p reason addr names now st = (Allow a, st') →
  al_plane a = Virtual ∧ al_addr a = addr.
Proof.
  intros Hm Hh Hl Hc. rewrite (decide_inner_connect _ _ _ _ _ _ _ Hc).
  destruct (resolve_connect _ _ _ _ _ _) as [[rt|r] st1] eqn:E; [|done].
  apply (resolve_connect_enforce _ _ _ _ _ _ _ _ Hm) in E as [Hg ->].
  intros [= <- <-]. simpl.
  inversion Hg as [Hs' Hd|Hs' Ht|d Hs' Ht Hn Hp]; subst; simpl; [|done|].
  - destruct Hd as [Hd _]. congruence.
  - unfold named_until in Hn. rewrite Hh in Hn. simpl in Hn.
    destruct names as [i|]; [|done]. simpl in Hn.
    apply permitted_until_Some in Hn as [(n & t & _ & Hd) _].
    apply grant_deadline_Some in Hd as (_ & _ & e & He%not_elem_of_nil & _). done.
Qed.

(** a connected UDP socket is asked about again only once its deadline has
    passed; it then keeps sending exactly if the policy grants the peer anew, with
    the new deadline, and is refused with [access-denied] otherwise. *)
Theorem refresh_connected_spec (c : WasiSocketsCtx) peer until now st :
  egress_mode (ctx_policy c) = Enforce →
  is_host_sentinel (sock_ip peer) = false → this_machine peer = false →
  (refresh_connected c peer until now st).1 =
    match until with
    | Some deadline =>
        if now <? deadline then Ok until
        else match named_until (ctx_policy c) (Some (ctx_names c)) peer now with
             | Some d => if EgressPolicy.permits (egress_addrs (ctx_policy c)) (sock_ip peer)
                         then Ok d else Err AccessDenied
             | None => Err AccessDenied
             end
    | None => Ok None
    end.
Proof.
  intros Hm Hs Ht. unfold refresh_connected. destruct until as [deadline|]; [|done].
  rewrite Z.leb_antisym. destruct (now <? deadline); simpl; [done|].
  unfold check, decide_for_store.
  rewrite (decide_inner_connect _ _ _ _ _ _ Udp) by done.
  unfold resolve_connect. rewrite Hs. fold (this_machine peer). rewrite Ht. unfold gate.
  rewrite Hm. destruct (named_until _ _ _ _) as [d|]; simpl; [|done].
  by destruct (EgressPolicy.permits _ _).
Qed.

End grants.

(** ** Runs

    A service that may resolve [*.internal] and use the database port there, and
    may reach port 5432 of the machine's loopback through the sentinel. *)

Definition demo : SocketPolicy :=
  {| guest_kind := Service; allowed_hosts := db_policy;
     host_loopback := [AllowedLoopback.tcp 5432]; host_loopback_enabled := true;
     egress_addrs := default_policy; host_owned_ports := Some ∅; egress_mode := Enforce;
     quota := Some {| q_id := 0; q_global := Some SemGlobal |}; resolved_names := short |}.

Definition demo_state : PolicyState :=
  {| heap := Quota.heap (run_for_guest (initial tiny (Some 8)) "a");
     meters := Some default_meters |}.

Definition sentinel_db : SocketAddr := SocketV4 HOST_SENTINEL 5432.
Definition db_dest : SocketAddr := ResolvedNames.db_addr.

Lemma enforced_connect_iff_witness :
  granted demo (Some (replay short [ev1])) 120 Tcp db_dest
    {| rt_addr := db_dest; rt_plane := Host; rt_valid_until := Some 150 |}.
Proof.
  apply (proj1 (enforced_connect_iff demo TcpConnect Tcp db_dest (Some (replay short [ev1])) 120
    demo_state {| al_addr := db_dest; al_plane := Host; permit := None;
                  valid_until := Some 150 |} demo_state eq_refl eq_refl)).
  vm_compute. reflexivity.
Defined.

Lemma real_loopback_only_through_the_door_witness :
  is_host_sentinel (sock_ip sentinel_db) = true ∧ door_open demo sentinel_db Tcp
  ∧ SocketV4 LOCALHOST_V4 5432 = rewrite_sentinel sentinel_db
  ∧ sock_port (SocketV4 LOCALHOST_V4 5432) = sock_port sentinel_db.
Proof.
  apply (real_loopback_only_through_the_door demo TcpConnect Tcp sentinel_db None 0 demo_state
    {| al_addr := SocketV4 LOCALHOST_V4 5432; al_plane := Host; permit := None;
       valid_until := None |} demo_state); vm_compute; reflexivity.
Defined.

Lemma enforced_egress_is_elsewhere_witness :
  (is_host_sentinel (sock_ip db_dest) = true ∧ door_open demo db_dest Tcp)
  ∨ (db_dest = db_dest ∧ elsewhere (to_canonical (sock_ip db_dest))).
Proof.
  apply (enforced_egress_is_elsewhere demo TcpConnect Tcp db_dest (Some (replay short [ev1])) 120
    demo_state {| al_addr := db_dest; al_plane := Host; permit := None;
                  valid_until := Some 150 |} demo_state); vm_compute; reflexivity.
Defined.

Lemma deadlines_only_on_real_egress_witness :
  db_dest = db_dest ∧ Host = Host ∧ is_host_sentinel (sock_ip db_dest) = false
  ∧ this_machine db_dest = false.
Proof.
  apply (deadlines_only_on_real_egress demo TcpConnect db_dest (Some (replay short [ev1])) 120
    demo_state {| al_addr := db_dest; al_plane := Host; permit := None;
                  valid_until := Some 150 |} demo_state 150); vm_compute; reflexivity.
Defined.

Lemma count_mode_predicts_enforcement_witness :
  ∃ m', (decide_inner (set_mode demo Count) TcpConnect db_dest None 0 demo_state).2
        = {| heap := heap demo_state; meters := Some m' |}
    ∧ would_deny m' NotPermitted = wrap_succ 0.
Proof.
  destruct (count_mode_predicts_enforcement demo TcpConnect Tcp db_dest None 0 (heap demo_state)
    default_meters eq_refl (conj eq_refl eq_refl) eq_refl eq_refl)
    as (a & m' & Hd & _ & _ & _ & _ & Hr).
  exists m'. split.
  - change {| heap := heap demo_state; meters := Some default_meters |} with demo_state in Hd.
    by rewrite Hd.
  - apply (Hr NotPermitted). vm_compute. reflexivity.
Defined.

Lemma component_never_listens_witness :
  (decide_inner default_socket_policy TcpBind db_dest None 0 demo_state).1 = Deny BindNotPermitted
  ∧ match (decide_inner default_socket_policy UdpBind (SocketV4 UNSPECIFIED_V4 0) None 0
             demo_state).1 with
    | Deny _ => True
    | Allow a => UdpBind = UdpBind ∧ al_addr a = SocketV4 UNSPECIFIED_V4 0 ∧ permit a = None
                 ∧ (is_loopback (V4 UNSPECIFIED_V4) = true
                    ∨ is_unspecified (V4 UNSPECIFIED_V4) = true ∧ 0 = 0)
    end.
Proof.
  split; [reflexivity|].
  apply (component_never_listens default_socket_policy UdpBind (SocketV4 UNSPECIFIED_V4 0) None 0
           demo_state eq_refl).
  do 4 right. left.
Defined.

Definition plugin_bind : DirectBind :=
  {| SocketPolicy.db_addr := SocketV4 (Ipv4Addr_new 10 0 0 1) 4222; db_udp := false |}.

Lemma host_bind_is_declared_witness :
  SocketV4 (Ipv4Addr_new 10 0 0 1) 4222 = SocketPolicy.db_addr plugin_bind
  ∧ ∃ binds b, guest_kind (for_kind (Plugin [plugin_bind])) = Plugin binds ∧ b ∈ binds
      ∧ SocketPolicy.db_addr b = SocketPolicy.db_addr plugin_bind.
Proof.
  destruct (host_bind_is_declared (for_kind (Plugin [plugin_bind])) TcpBind
    (SocketPolicy.db_addr plugin_bind) None 0 demo_state
    {| al_addr := SocketPolicy.db_addr plugin_bind; al_plane := Host; permit := None;
       valid_until := None |} demo_state) as (_ & _ & Hor).
  - left.
  - reflexivity.
  - reflexivity.
  - split; [reflexivity|]. destruct Hor as [(Hf & _)|(binds & b & Hk & Hb & Ha & _)].
    + discriminate Hf.
    + exists binds, b. split; [exact Hk|]. split; [exact Hb|exact Ha].
Defined.

Lemma every_refusal_counted_witness :
  ∃ m', meters (decide_inner demo TcpConnect db_dest None 0 demo_state).2 = Some m'
    ∧ denied m' NotPermitted = wrap_succ 0.
Proof.
  pose proof (every_refusal_counted demo TcpConnect db_dest None 0 (heap demo_state) default_meters
                (conj eq_refl eq_refl)) as Hc.
  change {| heap := heap demo_state; meters := Some default_meters |} with demo_state in Hc.
  destruct (decide_inner demo TcpConnect db_dest None 0 demo_state) as [d st'] eqn:E.
  destruct Hc as (m' & Hm & _ & Hd). exists m'. split; [exact Hm|].
  rewrite (Hd NotPermitted). injection E as <- _. reflexivity.
Defined.

Lemma real_egress_accounted_for_witness :
  db_dest = db_dest ∧ EgressPolicy.permits default_policy (sock_ip db_dest) = true
  ∧ accounted_for demo [ev1] db_dest 120.
Proof.
  apply (real_egress_accounted_for demo TcpConnect Tcp db_dest [ev1] 120 demo_state
    {| al_addr := db_dest; al_plane := Host; permit := None; valid_until := Some 150 |}
    demo_state); vm_compute; reflexivity.
Defined.

Lemma unconfigured_guest_is_confined_witness :
  (decide_inner default_socket_policy TcpConnect db_dest None 0 demo_state).1 = Deny NotPermitted
  ∧ Virtual = Virtual ∧ SocketV4 LOCALHOST_V4 80 = SocketV4 LOCALHOST_V4 80.
Proof.
  split; [reflexivity|].
  apply (unconfigured_guest_is_confined default_socket_policy TcpConnect Tcp
    (SocketV4 LOCALHOST_V4 80) None 0 demo_state
    {| al_addr := SocketV4 LOCALHOST_V4 80; al_plane := Virtual; permit := None;
       valid_until := None |} demo_state); reflexivity.
Defined.

Definition demo_ctx : WasiSocketsCtx :=
  {| ctx_policy := demo; ctx_network_uses := default_network_uses; ctx_ip_name_lookups := [];
     ctx_allowed_hosts := allowed_hosts demo; ctx_names := replay short [ev1] |}.

Lemma refresh_connected_spec_witness :
  (refresh_connected demo_ctx db_dest (Some 110) 120 demo_state).1 = Ok (Some 150)
  ∧ (refresh_connected demo_ctx db_dest (Some 150) 150 demo_state).1 = Err AccessDenied.
Proof.
  split.
  - rewrite (refresh_connected_spec demo_ctx db_dest (Some 110) 120 demo_state eq_refl eq_refl
               eq_refl). vm_compute. reflexivity.
  - rewrite (refresh_connected_spec demo_ctx db_dest (Some 150) 150 demo_state eq_refl eq_refl
               eq_refl). vm_compute. reflexivity.
Defined.
