(* ===== verification/Slots.v ===== *)
(** * Connection slots

    What a socket that holds a [ConnectionSlot] owes, and what the policy's
    decisions hand out.  Shared by the UDP and the TCP handlers. *)

From Stdlib Require Import ZArith Lia.
From stdpp Require Import base list gmap strings option.
From S2P Require Import Prelude RustStr Net UriLib EgressPolicy InternalNames DeclaredPort AllowedIpName.
From S2P Require Import AllowedHosts SocketUtil Quota ResolvedNames SocketPolicy.
Local Open Scope Z_scope.

(** Dropping an [Option<ConnectionSlot>]. *)
Definition release_slot (st : PolicyState) (slot : option ConnectionSlot) : PolicyState :=
  match slot with Some s => with_heap st (drop_slot (heap st) s) | None => st end.

(** The permits a slot holds of the semaphore [i]. *)
Definition weight (i : SemId) (s : ConnectionSlot) : Z :=
  (if decide (i = slot_guest s) then 1 else 0)
  + (if decide (slot_global s = Some i) then 1 else 0).
Definition held (i : SemId) (s : option ConnectionSlot) : Z :=
  match s with Some s => weight i s | None => 0 end.

Lemma release_slot_permits st s i :
  permits (heap (release_slot st s)) i = permits (heap st) i + held i s.
Proof.
  destruct s as [[g [o|]]|]; simpl; unfold drop_slot, weight, sem_release, upd; simpl; [| |lia].
  - destruct (decide (i = o)), (decide (o = g)), (decide (i = g)), (decide (Some o = Some i));
      subst; try congruence; try (rewrite decide_True by done); lia.
  - destruct (decide (i = g)); [subst|]; lia.
Qed.

(** An acquisition takes exactly the permits of the slot it hands out. *)
Lemma try_acquire_held q s h r h' :
  global_ok (q_global q) → try_acquire q s h = (r, h') →
  ∀ i, permits h' i + held i r = permits h i.
Proof.
  intros Hg E i. destruct r as [slot|].
  - pose proof (release_slot_permits {| heap := h'; meters := None |} (Some slot) i) as Hrel.
    simpl in Hrel. simpl. rewrite <-Hrel. apply try_acquire_Some in E as [-> Hp]; [|done].
    rewrite drop_slot_permits; [destruct (Hp i) as [-> _]; lia|].
    simpl. destruct Hg as [-> | ->]; congruence.
  - apply try_acquire_None in E as [-> _]; [simpl; lia|done].
Qed.

(** The slot a decision hands out. *)
Definition granted_slot (r : result Allowed ErrorCode) : option ConnectionSlot :=
  match r with Ok a => permit a | Err _ => None end.

Section spending.
Context `{UriLib}.
Implicit Types (c : WasiSocketsCtx).

(** The uses that take a slot. *)
Definition spends (reason : SocketAddrUse) : bool :=
  match reason with TcpCreate | UdpCreate | TcpAccept => true | _ => false end.

Lemma check_no_spend c addr reason now st r st' :
  check c addr reason now st = (r, st') → spends reason = false →
  heap st' = heap st ∧ ∀ a, r = Ok a → permit a = None.
Proof.
  intros Hc Hn. revert Hc. unfold check, decide_for_store.
  destruct (decide_inner _ _ _ _ _ _) as [d st1] eqn:E.
  apply decide_inner_no_spend in E as [Hh Hp]; [|by intros Hx; rewrite !elem_of_cons, elem_of_nil in Hx; naive_solver].
  intros [= <- <-]. split; [done|].
  destruct d; simpl; [done|]. intros b [= <-]. auto.
Qed.

(** The guest's allowance, if any, draws on the host's. *)
Definition quota_ok c : Prop :=
  ∀ q, quota (ctx_policy c) = Some q → global_ok (q_global q).

(** A check takes the permits of the slot it hands out and no others, and a guest
    with an allowance never gets a real socket, opened or accepted, without one. *)
Lemma check_spends c addr reason now st r st' :
  quota_ok c → check c addr reason now st = (r, st') →
  (∀ i, permits (heap st') i + held i (granted_slot r) = permits (heap st) i)
  ∧ (spends reason = true → is_Some (quota (ctx_policy c)) →
     ∀ a, r = Ok a → is_Some (permit a)).
Proof.
  intros Hq Hc. destruct (spends reason) eqn:Es.
  - revert Hc. unfold check, decide_for_store, decide_inner.
    destruct reason; try discriminate Es; simpl; unfold allow_with_slot, decide_accept,
      try_acquire_outbound_socket, try_acquire_inbound_socket;
      try (destruct (guest_kind _) as [| |];
           [intros [= <- <-]; simpl; (split; [intros; lia|done])| |]);
      (destruct (quota (ctx_policy c)) as [q|] eqn:Eq;
        [|intros [= <- <-]; split; [intros i; simpl; lia|by intros _ [? ?]]]);
      (destruct (try_acquire q _ (heap st)) as [[slot|] h] eqn:Et; intros [= <- <-];
        (split; [by apply (try_acquire_held _ _ _ _ _ (Hq q Eq) Et)|]);
        [by intros _ _ b [= <-]; simpl; eauto|done]).
  - destruct (check_no_spend _ _ _ _ _ _ _ Hc Es) as [-> Hn]. split; [|done].
    intros i. destruct r as [a|]; simpl; [rewrite (Hn a eq_refl); simpl|]; lia.
Qed.

End spending.
