(* ===== verification/PluginEgress.v ===== *)
(** * Egress policy for native host plugins

    [plugin/egress.rs]: a native plugin's client makes its own connections, so
    the plugin asks this policy about the endpoint it is about to dial.  The
    lists are the plugin's own, the rest is read from the host's [SocketPolicy].
    Each refusal is a constructor where the code formats a message.

    [async_nats::ServerAddr] is a parameter. *)

From Stdlib Require Import ZArith Lia Ascii.
From stdpp Require Import base list gmap strings option.
From S2P Require Import Prelude RustStr Net UriLib EgressPolicy InternalNames DeclaredPort Ports.
From S2P Require Import AllowedLoopback AllowedIpName AllowedHosts SocketUtil Quota ResolvedNames.
From S2P Require Import SocketPolicy.
Local Open Scope string_scope.

(** ** Schemes *)

Definition SCHEME_ALIASES : list (list string) :=
  [["postgres"; "postgresql"]; ["redis"; "valkey"]; ["rediss"; "valkeys"]].

Definition TLS_UPGRADES : list (string * string) := [("rediss", "redis"); ("tls", "nats")].

Definition aliases_of (scheme : string) : list string :=
  let group := List.find (λ group, existsb (λ s, eq_ignore_ascii_case s scheme) group)
                 SCHEME_ALIASES in
  scheme :: default [] group.

(** [sort_unstable_by_key] and [dedup_by], both on the lower-cased text. *)
Fixpoint insert_by_key (s : string) (l : list string) : list string :=
  match l with
  | [] => [s]
  | x :: l => if ord_leb (to_ascii_lowercase s) (to_ascii_lowercase x) then s :: x :: l
              else x :: insert_by_key s l
  end.
Definition sort_by_key (l : list string) : list string := foldr insert_by_key [] l.

Fixpoint dedup_from (last : string) (l : list string) : list string :=
  match l with
  | [] => []
  | x :: l => if eq_ignore_ascii_case x last then dedup_from last l else x :: dedup_from x l
  end.
Definition dedup (l : list string) : list string :=
  match l with [] => [] | x :: l => x :: dedup_from x l end.

Definition admitting_schemes (scheme : string) : list string :=
  let schemes := aliases_of scheme in
  let upgraded := List.find (λ '(tls, _), existsb (λ s, eq_ignore_ascii_case s tls) schemes)
                    TLS_UPGRADES in
  let schemes := (schemes ++ match upgraded with
                             | Some (_, plaintext) => aliases_of plaintext
                             | None => []
                             end)%list in
  dedup (sort_by_key schemes).

(** ** Redaction *)

Definition redact_userinfo (server : string) : string :=
  let '(prefix, rest) := match split_once "://" server with
                         | Some (a, b) => (a +:+ "://", b)
                         | None => ("", server)
                         end in
  match rsplit_once "@" rest with
  | Some (_, after) => prefix +:+ "***@" +:+ after
  | None => server
  end.

(** ** The policy *)

Section plugin_egress.
Context `{UriLib}.

Definition scheme_permits (allowed : AllowedHost) (admitting : list string) : bool :=
  match allowed with
  | EntryUrl url => existsb (λ s, eq_ignore_ascii_case s (url_scheme url)) admitting
  | _ => true
  end.

(** The meters are in [PolicyState]. *)
Record PluginEgressPolicy := {
  pe_allowed_hosts : list AllowedHost;
  pe_ip_name_lookups : list AllowedIpName;
  pe_loopback_ports : list AllowedLoopbackPort;
  pe_loopback_enabled : bool;
  pe_host_owned_ports : option PortTable;
  pe_egress_addrs : EgressAddressPolicy;
  pe_egress_mode : EgressMode;
}.

Definition new_plugin_policy (hosts : list AllowedHost) (lookups : list AllowedIpName)
    (loopback : list AllowedLoopbackPort) (p : SocketPolicy) : PluginEgressPolicy :=
  {| pe_allowed_hosts := hosts; pe_ip_name_lookups := lookups; pe_loopback_ports := loopback;
     pe_loopback_enabled := host_loopback_enabled p; pe_host_owned_ports := host_owned_ports p;
     pe_egress_addrs := egress_addrs p; pe_egress_mode := egress_mode p |}.

Definition disabled_loopback_grants (p : PluginEgressPolicy) : bool :=
  negb (pe_loopback_enabled p) && negb (bool_decide (length (pe_loopback_ports p) = 0)).

Inductive EndpointError :=
  | EndpointNotUrl
  | EndpointNoHost
  | EndpointBadHost
  | LoopbackDisabled
  | LoopbackPortNotPermitted
  | ReachesHostOwnedPort
  | NotPermittedByAllowedHosts
  | InDeniedRange
  | LookupNotPermitted (why : LookupDenial)
  | EndpointNotUri
  | NatsServerInvalid (redacted : string).

Definition plugin_gate (p : PluginEgressPolicy) (reason : DenyReason) (e : EndpointError)
    (st : PolicyState) : result unit EndpointError * PolicyState :=
  match pe_egress_mode p with
  | Enforce => (Err e, st)
  | Count => (Ok tt, with_meters st (λ m, record_would_deny m reason))
  end.

Definition literal_ip (host : UrlHost) : option IpAddr :=
  match host with
  | HostIpv4 a => Some (V4 a)
  | HostIpv6 a => Some (V6 a)
  | Domain _ => None
  end.

(** This machine: a loopback or unspecified literal in any spelling, or
    [localhost] with any number of root dots. *)
Definition endpoint_is_loopback (ip : option IpAddr) (host : string) : bool :=
  is_some_and ip (λ addr, is_loopback (to_canonical addr) || is_unspecified (to_canonical addr))
  || eq_ignore_ascii_case (trim_end_char "." host) "localhost".

Definition check_loopback (p : PluginEgressPolicy) (ip : option IpAddr) (port : Z)
    (protocol : Protocol) : result unit EndpointError :=
  let ipv4 := SocketV4 LOCALHOST_V4 port in
  let ipv6 := SocketV6 LOCALHOST_V6 port 0 0 in
  if negb (pe_loopback_enabled p) then Err LoopbackDisabled
  else if negb (check_allowed_loopback (pe_loopback_ports p) ipv4 protocol)
  then Err LoopbackPortNotPermitted
  else if is_some_and (pe_host_owned_ports p) (λ table,
            match to_canonical <$> ip with
            | Some (V4 _) => is_published table protocol ipv4
            | Some (V6 _) => is_published table protocol ipv6
            | None => is_published table protocol ipv4 || is_published table protocol ipv6
            end)
  then Err ReachesHostOwnedPort
  else Ok tt.

Definition check_address (p : PluginEgressPolicy) (admitting : list string) (ip : IpAddr)
    (port : Z) (st : PolicyState) : result unit EndpointError * PolicyState :=
  let addr := sock_new ip port in
  let permitted := existsb (λ allowed, permits_client_addr allowed addr
                                       && scheme_permits allowed admitting)
                     (pe_allowed_hosts p) in
  let '(r, st) := if permitted then (Ok tt, st)
                  else plugin_gate p NotPermitted NotPermittedByAllowedHosts st in
  match r with
  | Err e => (Err e, st)
  | Ok _ => if EgressPolicy.permits (pe_egress_addrs p) ip then (Ok tt, st)
            else plugin_gate p BlockedRange InDeniedRange st
  end.

(** [collect::<Result<Vec<_>, _>>]. *)
Fixpoint parse_all (l : list string) : option (list Uri) :=
  match l with
  | [] => Some []
  | s :: l => u ← uri_parse s; us ← parse_all l; Some (u :: us)
  end.

Definition name_permitted (uris : list Uri) (name : option string) (port : Z)
    (allowed : AllowedHost) : bool :=
  match allowed with
  | Any => true
  | _ => existsb (matches allowed) uris
         && is_some_and name (λ name, permits_client_name allowed name port)
  end.

Definition check_name (p : PluginEgressPolicy) (admitting : list string) (host : string)
    (parsed_host : UrlHost) (port : Z) (st : PolicyState) :
    result unit EndpointError * PolicyState :=
  if negb (check_allowed_lookup (pe_ip_name_lookups p) (pe_allowed_hosts p) parsed_host)
  then (Err (LookupNotPermitted (lookup_denial (pe_allowed_hosts p))), st)
  else match parse_all ((λ scheme, scheme +:+ "://" +:+ host +:+ ":" +:+ show_uint port)
                          <$> admitting) with
  | None => (Err EndpointNotUri, st)
  | Some uris =>
      if existsb (name_permitted uris (normalize_name parsed_host) port) (pe_allowed_hosts p)
      then (Ok tt, st)
      else plugin_gate p NotPermitted NotPermittedByAllowedHosts st
  end.

Definition check_url (p : PluginEgressPolicy) (target : string) (protocol : Protocol)
    (default_port : Z) (st : PolicyState) : result unit EndpointError * PolicyState :=
  match url_parse target with
  | None => (Err EndpointNotUrl, st)
  | Some url =>
      match url_host_str url with
      | None => (Err EndpointNoHost, st)
      | Some host =>
          let port := default default_port (url_port_or_known_default url) in
          match host_parse host with
          | None => (Err EndpointBadHost, st)
          | Some parsed_host =>
              let ip := literal_ip parsed_host in
              if endpoint_is_loopback ip host then (check_loopback p ip port protocol, st)
              else
                let admitting := admitting_schemes (url_scheme url) in
                match ip with
                | Some ip => check_address p admitting ip port st
                | None => check_name p admitting host parsed_host port st
                end
          end
      end
  end.

Definition check_host_port (p : PluginEgressPolicy) (scheme host : string) (port : Z)
    (st : PolicyState) : result unit EndpointError * PolicyState :=
  let target := if is_some (parse_ipv6 host)
                then scheme +:+ "://[" +:+ host +:+ "]:" +:+ show_uint port
                else scheme +:+ "://" +:+ host +:+ ":" +:+ show_uint port in
  check_url p target Tcp port st.

(** [server_addr]: [async_nats]'s parse of a server address into its scheme,
    host and port. *)
Definition check_nats_server (server_addr : string → option (string * string * Z))
    (p : PluginEgressPolicy) (server : string) (st : PolicyState) :
    result unit EndpointError * PolicyState :=
  match server_addr server with
  | None => (Err (NatsServerInvalid (redact_userinfo server)), st)
  | Some (scheme, host, port) => check_host_port p scheme host port st
  end.

End plugin_egress.

(** ** Which entries admit a scheme *)

Lemma sort_by_key_elem x l : x ∈ sort_by_key l ↔ x ∈ l.
Proof.
  assert (∀ s l, x ∈ insert_by_key s l ↔ x = s ∨ x ∈ l) as Hi.
  { intros s k. induction k as [|y k IH]; simpl; [set_solver|].
    destruct (ord_leb _ _); set_solver. }
  induction l as [|s l IH]; simpl; [done|]. rewrite Hi, IH. set_solver.
Qed.

(** Deduplication drops a spelling only when it keeps another of the same name. *)
Lemma dedup_existsb e l :
  existsb (λ s, eq_ignore_ascii_case s e) (dedup l) = existsb (λ s, eq_ignore_ascii_case s e) l.
Proof.
  assert (∀ l last, eq_ignore_ascii_case last e
            || existsb (λ s, eq_ignore_ascii_case s e) (dedup_from last l)
            = eq_ignore_ascii_case last e || existsb (λ s, eq_ignore_ascii_case s e) l) as Hd.
  { intros k. induction k as [|x k IH]; intros last; simpl; [done|].
    destruct (eq_ignore_ascii_case x last) eqn:E.
    - rewrite IH. apply eq_ignore_ascii_case_eq in E.
      assert (eq_ignore_ascii_case x e = eq_ignore_ascii_case last e) as ->
        by (unfold eq_ignore_ascii_case; by rewrite E).
      by destruct (eq_ignore_ascii_case last e).
    - simpl. by rewrite IH. }
  destruct l as [|x l]; [done|]. apply (Hd l x).
Qed.

(** The protocol a client reads a scheme as. *)
Definition protocol_of (scheme : string) : string :=
  let s := to_ascii_lowercase scheme in
  if String.eqb s "postgresql" then "postgres"
  else if String.eqb s "valkey" then "redis"
  else if String.eqb s "valkeys" then "rediss"
  else s.

Lemma eq_ignore_literal k s :
  to_ascii_lowercase k = k → eq_ignore_ascii_case k s = String.eqb (to_ascii_lowercase s) k.
Proof. intros Hk. unfold eq_ignore_ascii_case. by rewrite Hk, String.eqb_sym. Qed.

(** Case analysis on a lower-cased text against each literal tested in the goal. *)
Ltac literal_cases s :=
  repeat match goal with
  | |- context [String.eqb s ?k] =>
      destruct (String.eqb_spec s k); [subst s; simpl|]
  end.

Lemma aliases_of_iff s e :
  existsb (λ x, eq_ignore_ascii_case x e) (aliases_of s) = true ↔ protocol_of e = protocol_of s.
Proof.
  unfold aliases_of, SCHEME_ALIASES, protocol_of. simpl.
  rewrite !(eq_ignore_literal _ s) by done.
  assert (eq_ignore_ascii_case s e = String.eqb (to_ascii_lowercase e) (to_ascii_lowercase s)) as ->
    by (unfold eq_ignore_ascii_case; apply String.eqb_sym).
  generalize (to_ascii_lowercase s) as a. intros a.
  literal_cases a; simpl; rewrite ?(eq_ignore_literal _ e) by done;
    generalize (to_ascii_lowercase e) as b; intros b; literal_cases b; simpl;
    rewrite ?orb_true_iff, ?String.eqb_eq; try (split; naive_solver congruence).
  by rewrite !(proj2 (String.eqb_neq _ _)).
Qed.

Lemma existsb_sort e l :
  existsb (λ s, eq_ignore_ascii_case s e) (sort_by_key l)
  = existsb (λ s, eq_ignore_ascii_case s e) l.
Proof.
  apply eq_true_iff_eq. rewrite !existsb_elem. by setoid_rewrite sort_by_key_elem.
Qed.

Lemma tls_upgrade_iff s tls :
  existsb (λ x, eq_ignore_ascii_case x tls) (aliases_of s)
  = String.eqb (protocol_of tls) (protocol_of s).
Proof. apply eq_true_iff_eq. by rewrite aliases_of_iff, String.eqb_eq. Qed.

(** an entry's scheme admits an endpoint's exactly when both name the same
    protocol (aliases and letter case aside), or the endpoint is the TLS form of
    the entry's plaintext protocol ([rediss] under [redis], [tls] under [nats]).
    So a grant of plaintext covers TLS to the same endpoint, and a grant of TLS
    never covers plaintext. *)
Theorem scheme_admission_iff endpoint entry :
  existsb (λ s, eq_ignore_ascii_case s entry) (admitting_schemes endpoint) = true ↔
  protocol_of entry = protocol_of endpoint
  ∨ (protocol_of endpoint, protocol_of entry) ∈ [("rediss", "redis"); ("tls", "nats")].
Proof.
  unfold admitting_schemes. rewrite dedup_existsb, existsb_sort, existsb_app, orb_true_iff.
  rewrite aliases_of_iff. apply Morphisms_Prop.or_iff_morphism; [done|].
  unfold TLS_UPGRADES. cbn [List.find]. rewrite !tls_upgrade_iff.
  replace (protocol_of "rediss") with "rediss" by reflexivity.
  replace (protocol_of "tls") with "tls" by reflexivity.
  rewrite !elem_of_cons, elem_of_nil.
  destruct (String.eqb_spec "rediss" (protocol_of endpoint)) as [<-|H1];
    [|destruct (String.eqb_spec "tls" (protocol_of endpoint)) as [<-|H2]].
  - rewrite aliases_of_iff. replace (protocol_of "redis") with "redis" by reflexivity.
    split; [intros ->; by left|]. by intros [[= ?]|[[=]|[]]].
  - rewrite aliases_of_iff. replace (protocol_of "nats") with "nats" by reflexivity.
    split; [intros ->; by right; left|]. by intros [[=]|[[= ?]|[]]].
  - split; [done|]. by intros [[= ? _]|[[= ? _]|[]]].
Qed.

(** ** Redaction *)

(** what a redacted server address shows does not depend on the credentials:
    with a scheme, or without one and with no [://] in sight, everything between
    the scheme and the last [@] is replaced, whatever it holds. *)
Theorem redaction_hides_credentials scheme userinfo rest :
  lacks "@" rest = true →
  (lacks ":" scheme = true →
     redact_userinfo (scheme +:+ "://" +:+ userinfo +:+ "@" +:+ rest)
     = scheme +:+ "://***@" +:+ rest)
  ∧ (contains "://" (userinfo +:+ "@" +:+ rest) = false →
     redact_userinfo (userinfo +:+ "@" +:+ rest) = "***@" +:+ rest).
Proof.
  intros Hr. assert (rsplit_once "@" (userinfo +:+ "@" +:+ rest) = Some (userinfo, rest)) as Hs
    by (by apply rsplit_once_Some).
  unfold redact_userinfo. split; intros Hx.
  - rewrite (split_once_lacks ":" "//") by done. rewrite Hs.
    by rewrite str_app_assoc.
  - unfold contains in Hx. destruct (split_once "://" _); [done|]. by rewrite Hs.
Qed.

(** without a scheme, a password that holds [://] is shown up to there: the
    search for a scheme finds the password's own [://]. *)
Theorem redaction_leaks_schemeless_password :
  redact_userinfo "admin:hunter2://x@nats.internal" = "admin:hunter2://***@nats.internal".
Proof. reflexivity. Qed.

(** ** A native plugin never gets further than a workload *)

Section plugin_egress_props.
Context `{UriLib}.
Implicit Types (p : SocketPolicy) (pp : PluginEgressPolicy).

(** The machine's loopback, for an endpoint: switched on, granted on this port,
    and owned by no listener of the host on a family the client may dial. *)
Definition plugin_door pp (ip : option IpAddr) (port : Z) (protocol : Protocol) : Prop :=
  pe_loopback_enabled pp = true
  ∧ check_allowed_loopback (pe_loopback_ports pp) (SocketV4 LOCALHOST_V4 port) protocol = true
  ∧ ∀ table, pe_host_owned_ports pp = Some table →
      ((∀ v, to_canonical <$> ip ≠ Some (V6 v)) →
         is_published table protocol (SocketV4 LOCALHOST_V4 port) = false)
      ∧ ((∀ v, to_canonical <$> ip ≠ Some (V4 v)) →
         is_published table protocol (SocketV6 LOCALHOST_V6 port 0 0) = false).

Lemma check_loopback_iff pp ip port protocol :
  check_loopback pp ip port protocol = Ok tt ↔ plugin_door pp ip port protocol.
Proof.
  unfold check_loopback, plugin_door.
  destruct (pe_loopback_enabled pp); simpl; [|naive_solver].
  destruct (check_allowed_loopback _ _ _); simpl; [|naive_solver].
  destruct (pe_host_owned_ports pp) as [t|]; simpl; [|naive_solver].
  set (b4 := is_published t protocol (SocketV4 _ _)).
  set (b6 := is_published t protocol (SocketV6 _ _ _ _)).
  split.
  - intros Hok. split; [done|]. split; [done|]. intros table [= <-].
    destruct (to_canonical <$> ip) as [[v|v]|]; [destruct b4 eqn:?|destruct b6 eqn:?
      |destruct b4 eqn:?, b6 eqn:?]; try discriminate Hok; split; intros Hx; try done;
      by destruct (Hx v).
  - intros (_ & _ & Ht). destruct (Ht t eq_refl) as [H4 H6]. fold b4 in H4. fold b6 in H6.
    destruct (to_canonical <$> ip) as [[v|v]|]; [rewrite H4|rewrite H6|rewrite H4, H6]; done.
Qed.

Lemma literal_not_sentinel ip port :
  is_loopback (to_canonical ip) || is_unspecified (to_canonical ip) = false →
  is_host_sentinel (sock_ip (sock_new ip port)) = false
  ∧ this_machine (sock_new ip port) = false.
Proof.
  unfold this_machine. rewrite sock_ip_new. intros Hm. split; [|done].
  unfold is_host_sentinel. destruct (to_canonical ip) as [v|v]; [|done].
  case_bool_decide; [by subst|done].
Qed.

(** a native plugin's client never dials, by address, what a workload with
    the same lists could not.  If an enforcing host accepts a plugin's endpoint
    given as an address, then either it is this machine and the loopback door is
    open for that port and family, or the socket policy with the same lists
    allows a workload to connect to that very address on the real network; and
    nothing is counted or spent. *)
Theorem plugin_address_within_workload_policy p lookups target protocol dport st st' url host
    parsed ip names now :
  egress_mode p = Enforce →
  url_parse target = Some url → url_host_str url = Some host → host_parse host = Some parsed →
  literal_ip parsed = Some ip →
  let pp := new_plugin_policy (allowed_hosts p) lookups (host_loopback p) p in
  let port := default dport (url_port_or_known_default url) in
  check_url pp target protocol dport st = (Ok tt, st') →
  st' = st
  ∧ (endpoint_is_loopback (Some ip) host = true ∧ plugin_door pp (Some ip) port protocol
     ∨ decide_inner p TcpConnect (sock_new ip port) names now st
       = (Allow {| al_addr := sock_new ip port; al_plane := SocketUtil.Host; permit := None;
                   valid_until := None |}, st)).
Proof.
  intros Hm Hu Hh Hp Hip pp port. unfold check_url. rewrite Hu, Hh, Hp, Hip. fold port.
  destruct (endpoint_is_loopback (Some ip) host) eqn:El.
  { intros [= Hc <-]. split; [done|]. left. split; [done|]. by apply check_loopback_iff. }
  unfold check_address, plugin_gate, pp. cbn [new_plugin_policy pe_egress_mode pe_allowed_hosts
    pe_egress_addrs]. rewrite Hm.
  destruct (existsb _ _) eqn:Ee; [|done].
  destruct (EgressPolicy.permits _ ip) eqn:Er; [|done]. intros [= <-]. split; [done|]. right.
  unfold endpoint_is_loopback in El. simpl in El. apply orb_false_iff in El as [El _].
  destruct (literal_not_sentinel ip port El) as [Hs Ht].
  rewrite (decide_inner_connect _ TcpConnect _ _ _ _ Tcp eq_refl).
  assert (named_until p names (sock_new ip port) now = Some None) as Hn.
  { unfold named_until, check_allowed_addr.
    apply existsb_elem in Ee as (e & He & [Hc _]%andb_true_iff).
    assert (existsb (λ e, permits_addr e (sock_new ip port)) (allowed_hosts p) = true) as ->;
      [|done]. apply existsb_elem. exists e. split; [done|]. by apply permits_client_addr_socket. }
  assert (resolve_connect p (sock_new ip port) Tcp names now st
    = (Ok {| rt_addr := sock_new ip port; rt_plane := SocketUtil.Host; rt_valid_until := None |},
       st)) as ->; [|done].
  apply resolve_connect_enforce; [done|]. split; [|done]. apply granted_egress; try done.
  by rewrite sock_ip_new.
Qed.

(** in either mode, a plugin's endpoint that names this machine (a loopback
    or unspecified literal in any spelling, or [localhost]) is accepted exactly
    when the loopback door is open for it; [allowedHosts] plays no part, and
    counting does not open it. *)
Theorem plugin_loopback_needs_the_door pp target protocol dport st url host parsed :
  url_parse target = Some url → url_host_str url = Some host → host_parse host = Some parsed →
  endpoint_is_loopback (literal_ip parsed) host = true →
  (check_url pp target protocol dport st).1 = Ok tt ↔
  plugin_door pp (literal_ip parsed) (default dport (url_port_or_known_default url)) protocol.
Proof.
  intros Hu Hh Hp El. unfold check_url. rewrite Hu, Hh, Hp, El. apply check_loopback_iff.
Qed.

End plugin_egress_props.


(** ** Runs *)

Definition cache_entry : list AllowedHost :=
  match from_str "redis://8.8.8.8:6379" with Ok e => [e] | Err _ => [] end.

Definition plugin_host : SocketPolicy :=
  {| guest_kind := Component; allowed_hosts := cache_entry;
     host_loopback := [AllowedLoopback.tcp 4222];
     host_loopback_enabled := true; egress_addrs := default_policy;
     host_owned_ports := Some ∅; egress_mode := Enforce; quota := None;
     resolved_names := default_name_limits |}.
Definition cache_client : PluginEgressPolicy :=
  new_plugin_policy cache_entry [] [AllowedLoopback.tcp 4222] plugin_host.

(** TLS under a plaintext entry, and the reverse. *)
Example plugin_runs :
  (check_host_port cache_client "rediss" "8.8.8.8" 6379 demo_state).1 = Ok tt
  ∧ (check_host_port cache_client "valkey" "8.8.8.8" 6379 demo_state).1 = Ok tt
  ∧ (check_host_port cache_client "redis" "8.8.8.8" 6380 demo_state).1
    = Err NotPermittedByAllowedHosts
  ∧ (check_host_port cache_client "nats" "8.8.8.8" 6379 demo_state).1
    = Err NotPermittedByAllowedHosts
  ∧ (check_host_port cache_client "nats" "0.0.0.0" 4222 demo_state).1 = Ok tt
  ∧ (check_host_port cache_client "nats" "localhost.." 4223 demo_state).1
    = Err LoopbackPortNotPermitted.
Proof. vm_compute. repeat split. Qed.

Lemma redaction_hides_credentials_witness :
  redact_userinfo ("nats" +:+ "://" +:+ "user:p@ss/w:rd" +:+ "@" +:+ "nats.internal:4222")
  = "nats" +:+ "://***@" +:+ "nats.internal:4222".
Proof.
  apply (proj1 (redaction_hides_credentials "nats" "user:p@ss/w:rd" "nats.internal:4222" eq_refl)).
  reflexivity.
Defined.

Lemma plugin_address_within_workload_policy_witness :
  decide_inner plugin_host TcpConnect (SocketV4 (Ipv4Addr_new 8 8 8 8) 6379) None 0 demo_state
  = (Allow {| al_addr := SocketV4 (Ipv4Addr_new 8 8 8 8) 6379; al_plane := SocketUtil.Host;
              permit := None; valid_until := None |}, demo_state).
Proof.
  pose (url := {| sp_scheme := "redis"; sp_host := "8.8.8.8"; sp_port := Some 6379%Z |}).
  destruct (plugin_address_within_workload_policy plugin_host [] "redis://8.8.8.8:6379" Tcp 6379
    demo_state demo_state url "8.8.8.8" (HostIpv4 (Ipv4Addr_new 8 8 8 8))
    (V4 (Ipv4Addr_new 8 8 8 8)) None 0) as [_ [[Hl _]|Hd]].
  - reflexivity.
  - vm_compute. reflexivity.
  - reflexivity.
  - vm_compute. reflexivity.
  - reflexivity.
  - vm_compute. reflexivity.
  - vm_compute in Hl. discriminate Hl.
  - exact Hd.
Defined.

Lemma plugin_loopback_needs_the_door_witness :
  (check_url cache_client "nats://localhost:4222" Tcp 4222 demo_state).1 = Ok tt
  ∧ plugin_door cache_client None 4222 Tcp.
Proof.
  pose (url := {| sp_scheme := "nats"; sp_host := "localhost"; sp_port := Some 4222%Z |}).
  assert ((check_url cache_client "nats://localhost:4222" Tcp 4222 demo_state).1 = Ok tt) as Hc
    by (vm_compute; reflexivity).
  split; [exact Hc|].
  refine (proj1 (plugin_loopback_needs_the_door cache_client "nats://localhost:4222" Tcp 4222
    demo_state url "localhost" (Domain "localhost") _ _ _ _) Hc); vm_compute; reflexivity.
Defined.
