(* ===== verification/Bindings.v ===== *)
(** * The operator's bindings and a workload's configuration

    The second half of [plugin/bindings.rs]: what an operator declares for a
    plugin ([PluginBindingSet], [PluginBindings]), the folding of a workload's
    entries into one configuration per binding, and [resolve], where the two meet
    under a [WorkloadConfigPolicy].  What a refusal says is a constructor with the
    data of its message; what [warn!] logs is a list of them.

    A [HashMap] is a [gmap].  The order one is walked in is unspecified: it is the
    class [HashOrder], of which every theorem takes any instance.  The plugin's
    containment predicate is the argument [narrows]. *)

From Stdlib Require Import ZArith Lia Ascii.
From stdpp Require Import base list gmap strings option sorting.
From S2P Require Import Prelude RustStr Net UriLib AllowedLoopback AllowedIpName AllowedHosts.
From S2P Require Import SocketPolicy PluginEgress StoreLib Wit BindingKeys.
Local Open Scope string_scope.
Local Open Scope rust_scope.

Abbreviation Config := (gmap string string).

Class HashOrder := {
  walk : Config → list (string * string);
  walk_perm : ∀ m, walk m ≡ₚ map_to_list m;
}.

Definition UNNAMED_BINDING : string := "".

(** ** Declarations *)

Record DefaultBundle := { anchor : string; entries : list (string * string) }.

Record PluginBindingSet := {
  plugin_id : string;
  base : Config;
  bindings : gmap string Config;
  declared_host_owned : gset string;
  workload_config : WorkloadConfigPolicy;
  default_bundles : list DefaultBundle;
  set_allowed_hosts : list AllowedHost;
  set_ip_name_lookups : list AllowedIpName;
  set_loopback_ports : list AllowedLoopbackPort;
  egress_policy_declared : bool;
}.

Definition new_set (id : string) : PluginBindingSet :=
  {| plugin_id := id; base := ∅; bindings := ∅; declared_host_owned := ∅; workload_config := Deny;
     default_bundles := []; set_allowed_hosts := []; set_ip_name_lookups := []; set_loopback_ports := [];
     egress_policy_declared := false |}.

Section builders.
Implicit Types ps : PluginBindingSet.

(** The fields other than the one written. *)
Definition update ps (b : Config) (bs : gmap string Config) (d : gset string) (p : WorkloadConfigPolicy)
    (ds : list DefaultBundle) : PluginBindingSet :=
  {| plugin_id := plugin_id ps; base := b; bindings := bs; declared_host_owned := d; workload_config := p;
     default_bundles := ds; set_allowed_hosts := set_allowed_hosts ps;
     set_ip_name_lookups := set_ip_name_lookups ps; set_loopback_ports := set_loopback_ports ps;
     egress_policy_declared := egress_policy_declared ps |}.

Definition with_base ps (c : Config) : PluginBindingSet :=
  update ps c (bindings ps) (declared_host_owned ps) (workload_config ps) (default_bundles ps).
Definition with_binding ps (name : string) (c : Config) : PluginBindingSet :=
  update ps (base ps) (<[name := c]> (bindings ps)) (declared_host_owned ps) (workload_config ps)
    (default_bundles ps).
Definition with_host_owned ps (keys : list string) : PluginBindingSet :=
  update ps (base ps) (bindings ps) (list_to_set (canonical_key <$> keys) ∪ declared_host_owned ps)
    (workload_config ps) (default_bundles ps).
Definition with_workload_config ps (p : WorkloadConfigPolicy) : PluginBindingSet :=
  update ps (base ps) (bindings ps) (declared_host_owned ps) p (default_bundles ps).

(** [entry(key).or_insert_with(value)] *)
Definition with_default ps (key value : string) : PluginBindingSet :=
  let key := canonical_key key in
  update ps match base ps !! key with Some _ => base ps | None => <[key := value]> (base ps) end (bindings ps)
    (declared_host_owned ps) (workload_config ps) (default_bundles ps).

Definition with_default_bundle ps (a : string) (es : list (string * string)) : PluginBindingSet :=
  let es := (λ e, (canonical_key e.1, e.2)) <$> es in
  match es with
  | [] => ps
  | _ => update ps (base ps) (bindings ps) (declared_host_owned ps) (workload_config ps)
           (default_bundles ps ++ [{| anchor := canonical_key a; entries := es |}])
  end.

Definition with_egress_policy ps (hosts : list AllowedHost) (lookups : list AllowedIpName)
    (loopback : list AllowedLoopbackPort) : PluginBindingSet :=
  {| plugin_id := plugin_id ps; base := base ps; bindings := bindings ps;
     declared_host_owned := declared_host_owned ps; workload_config := workload_config ps;
     default_bundles := default_bundles ps; set_allowed_hosts := hosts; set_ip_name_lookups := lookups;
     set_loopback_ports := loopback; egress_policy_declared := true |}.

Definition egress_policy ps (p : SocketPolicy) : option PluginEgressPolicy :=
  if negb (egress_policy_declared ps) then None
  else Some (new_plugin_policy (set_allowed_hosts ps) (set_ip_name_lookups ps) (set_loopback_ports ps) p).

Definition binding_names ps : list string := sorted_keys (bindings ps).
End builders.

(** ** Errors *)

Inductive Finding :=
  | UndeclaredBinding (binding : string) (available : list string) (id : string)
  | UnknownKeys (unknown : list (string * option string))
  | HostOwnedKeys (keys : list string)
  | NoCeiling (key : string)
  | Widens (key value ceiling : string) (element : option string).

(** Where a layer or a list of keys was written. *)
Inductive Owner := InEntry (id : string) | InBinding (id name : string) | InHostOwnedKeys (id : string).

Inductive BindingError :=
  | ConflictingSpellings (owner : Owner) (existing key : string)
  | ConflictingEntries (key : string) (written : option (string * string)) (binding : string)
  | SetsUnknown (owner : Owner) (unknown : list (string * option string))
  | Refused (findings : list Finding)
  | Missing (binding : string) (keys : list string)
  | Unreachable (id : string)
  | UnknownPlugins (ids : list (string * option string)) (registered : list string).

(** ** Labels *)

Definition binding_of (id : string) (label : option string) : option string :=
  match label with Some name => if bool_decide (name ≠ id) then Some name else None | None => None end.

Definition binding_name (ps : PluginBindingSet) (i : WitInterface) : string :=
  default UNNAMED_BINDING (binding_of (plugin_id ps) (name i)).

Section layers.
Context `{HashOrder} (s : BindingSchema).

(** ** Layers *)

(** A hash map's entries sorted by key, which are distinct. *)
Definition sorted_pairs (c : Config) : list (string * string) :=
  omap (λ k, (λ v, (k, v)) <$> c !! k) (sorted_keys c).

(** Of what the map is walked through, the first entry that is the key. *)
Definition find_key (c : Config) (key : string) : option (string * string) :=
  head (filter (λ e, canonical s e.1 = canonical s key) (walk c)).

Definition lookup_key (c : Config) (key : string) : option string := snd <$> find_key c key.

Definition layer_insert (layer : Config) (e : string * string) : Config :=
  <[e.1 := e.2]>
    (if identifies s e.1 then filter (λ x, canonical s x.1 ≠ canonical s e.1) layer else layer).

Definition extend_layer (layer es : Config) : Config := foldl layer_insert layer (sorted_pairs es).

Fixpoint conflict_loop (owner : Owner) (seen : gmap string (string * string)) (l : list (string * string)) :
    result unit BindingError :=
  match l with
  | [] => Ok ()
  | (key, value) :: l =>
      if negb (identifies s key) then conflict_loop owner seen l
      else match seen !! canonical s key with
           | Some (existing_key, existing_value) =>
               if bool_decide (existing_value ≠ value) then Err (ConflictingSpellings owner existing_key key)
               else conflict_loop owner seen l
           | None => conflict_loop owner (<[canonical s key := (key, value)]> seen) l
           end
  end.
Definition reject_conflicting_spellings (c : Config) (owner : Owner) : result unit BindingError :=
  conflict_loop owner ∅ (sorted_pairs c).

Section set.
Context (ps : PluginBindingSet).

Definition host_layer_with (binding : string) : Config :=
  let layer := extend_layer ∅ (base ps) in
  match bindings ps !! binding with Some named => extend_layer layer named | None => layer end.

Definition effective_host_owned : gset string :=
  list_to_set (host_owned_keys s) ∪ set_map (canonical s) (declared_host_owned ps).

Definition ownership_of (key : string) : KeyOwnership :=
  let key := canonical s key in
  if existsb (λ declared, bool_decide (canonical s declared = key)) (elements (declared_host_owned ps))
  then Host else ownership s key.

Definition is_passthrough : bool :=
  bool_decide (base ps = ∅) && bool_decide (bindings ps = ∅) && schema_is_empty s
  && bool_decide (declared_host_owned ps = ∅) && bool_decide (default_bundles ps = []).

(** ** Folding a workload's entries *)

Definition match_entry (c : Config) (key : string) : option (string * string) :=
  if identifies s key then find_key c key else (λ v, (key, v)) <$> c !! key.

Definition fold_pair (binding : string) (c : Config) (e : string * string) : result Config BindingError :=
  let '(key, value) := e in
  match match_entry c key with
  | Some (spelling, existing) =>
      if bool_decide (existing ≠ value) then
        Err (ConflictingEntries (if knows s key then canonical s key else key)
               (if bool_decide (spelling = key) then None else Some (spelling, key)) binding)
      else Ok c
  | None => Ok (<[key := value]> c)
  end.

Fixpoint fold_pairs (binding : string) (c : Config) (l : list (string * string)) : result Config BindingError :=
  match l with
  | [] => Ok c
  | e :: l => let? c := fold_pair binding c e in fold_pairs binding c l
  end.

Fixpoint fold_entries (folded : gmap string Config) (l : list WitInterface) :
    result (gmap string Config) BindingError :=
  match l with
  | [] => Ok folded
  | i :: l =>
      let binding := binding_name ps i in
      let? c := fold_pairs binding (default ∅ (folded !! binding)) (sorted_pairs (config i)) in
      fold_entries (<[binding := c]> folded) l
  end.

(** [sort_by_cached_key]: stable. *)
Definition entry_key `{SemverLib} (i : WitInterface) : string * string :=
  (instance i, join "," (sorted_keys (config i))).
Fixpoint insert_by_entry_key `{SemverLib} (i : WitInterface) (l : list WitInterface) : list WitInterface :=
  match l with
  | [] => [i]
  | j :: l' => if ord_leb (entry_key i) (entry_key j) then i :: l else j :: insert_by_entry_key i l'
  end.
Definition sort_entries `{SemverLib} (l : list WitInterface) : list WitInterface := foldr insert_by_entry_key [] l.

Definition fold_workload_entries `{SemverLib} (interfaces : list WitInterface) :
    result (gmap string Config) BindingError :=
  fold_entries ∅ (sort_entries interfaces).

(** ** Resolving a binding *)

Context (narrows : string → string → string → bool).

Definition first_widening_element (key host workload : string) : option string :=
  let elements := filter (λ e, is_empty e = false) (trim <$> split "," workload) in
  if decide (List.length elements < 2)%nat then None
  else List.find (λ e, negb (narrows key host e)) elements.

Definition ceiling_finding (layer : Config) (e : string * string) : list Finding :=
  let '(key, value) := e in
  if bool_decide (ownership_of key ≠ HostCeiling) then []
  else match lookup_key layer key with
       | None => [NoCeiling key]
       | Some ceiling =>
           if negb (narrows (canonical s key) ceiling value) then
             [Widens key value ceiling (first_widening_element (canonical s key) ceiling value)]
           else []
       end.

Definition findings (binding : string) (workload layer : Config) : list Finding :=
  let undeclared :=
    if bool_decide (binding ≠ UNNAMED_BINDING) && bool_decide (bindings ps ≠ ∅)
       && bool_decide (bindings ps !! binding = None)
    then [UndeclaredBinding binding (binding_names ps) (plugin_id ps)] else [] in
  let unknown := match unknown_keys s workload with [] => [] | l => [UnknownKeys l] end in
  let refused := match filter (λ key, ownership_of key = Host) (sorted_keys workload) with
                 | [] => [] | l => [HostOwnedKeys l] end in
  (undeclared ++ unknown ++ refused ++ (sorted_pairs workload ≫= ceiling_finding layer))%list.

Definition bundle_entry (c : Config) (e : string * string) : Config :=
  match lookup_key c e.1 with None => <[e.1 := e.2]> c | Some _ => c end.
Definition apply_bundle (c : Config) (b : DefaultBundle) : Config :=
  match lookup_key c (anchor b) with Some _ => c | None => foldl bundle_entry c (entries b) end.
Definition apply_default_bundles (c : Config) : Config := foldl apply_bundle c (default_bundles ps).

Definition missing_keys (c : Config) : list string :=
  filter (λ key, lookup_key c key = None) (required_keys s).

(** The last step: the workload's entries over the host's layer, the bundles, and
    the keys that must be there. *)
Definition complete (binding : string) (workload layer : Config) : result Config BindingError :=
  let resolved := apply_default_bundles (foldl layer_insert layer (walk workload)) in
  match missing_keys resolved with [] => Ok resolved | l => Err (Missing binding l) end.

(** The first component is what was logged. *)
Definition resolve (binding : string) (workload : Config) : list Finding * result Config BindingError :=
  match reject_conflicting_spellings (base ps) (InEntry (plugin_id ps)) with
  | Err e => ([], Err e)
  | Ok _ =>
      match match bindings ps !! binding with
            | Some named => reject_conflicting_spellings named (InBinding (plugin_id ps) binding)
            | None => Ok () end with
      | Err e => ([], Err e)
      | Ok _ =>
          let layer := host_layer_with binding in
          let found := if reports (workload_config ps) then findings binding workload layer else [] in
          if bool_decide (found ≠ []) && enforces (workload_config ps) then ([], Err (Refused found))
          else (found, complete binding workload layer)
      end
  end.

Fixpoint resolve_each (l : list (string * Config)) (resolved : gmap string Config) :
    list Finding * result (gmap string Config) BindingError :=
  match l with
  | [] => ([], Ok resolved)
  | (binding, workload) :: l =>
      match resolve binding workload with
      | (log, Err e) => (log, Err e)
      | (log, Ok c) => let '(log', r) := resolve_each l (<[binding := c]> resolved) in ((log ++ log')%list, r)
      end
  end.

(** [folded] is a [BTreeMap]: in the order of the names. *)
Definition in_order (m : gmap string Config) : list (string * Config) :=
  omap (λ k, (λ c, (k, c)) <$> m !! k) (sorted_keys m).

Definition resolve_by_name `{SemverLib} (interfaces : list WitInterface) :
    list Finding * result (gmap string Config) BindingError :=
  match fold_workload_entries interfaces with
  | Err e => ([], Err e)
  | Ok folded => if is_passthrough then ([], Ok folded) else resolve_each (in_order folded) ∅
  end.

Definition stamp (resolved : gmap string Config) (i : WitInterface) : WitInterface :=
  match resolved !! binding_name ps i with
  | Some c => {| namespace := namespace i; package := package i; interfaces := interfaces i;
                 version := version i; config := c; name := name i |}
  | None => i
  end.
Definition apply_resolved (interfaces : list WitInterface) (resolved : gmap string Config) : list WitInterface :=
  stamp resolved <$> interfaces.

Definition host_layers : list (string * Config) :=
  (λ name, (name, apply_default_bundles (host_layer_with name))) <$> sorted_keys (bindings ps).

(** ** What is checked when the host starts *)

Definition validate_declaration : result unit BindingError :=
  match bindings ps !! plugin_id ps with Some _ => Err (Unreachable (plugin_id ps)) | None => Ok () end.

Definition reject_unknown (c : Config) (owner : Owner) : result unit BindingError :=
  match unknown_keys s c with [] => Ok () | l => Err (SetsUnknown owner l) end.

Fixpoint reject_each (l : list (string * Config)) : result unit BindingError :=
  match l with
  | [] => Ok ()
  | (name, c) :: l =>
      let? _ := reject_conflicting_spellings c (InBinding (plugin_id ps) name) in
      let? _ := reject_unknown c (InBinding (plugin_id ps) name) in
      reject_each l
  end.

Definition reject_unknown_keys : result unit BindingError :=
  let? _ := reject_conflicting_spellings (base ps) (InEntry (plugin_id ps)) in
  let? _ := reject_unknown (base ps) (InEntry (plugin_id ps)) in
  let? _ := reject_each (in_order (bindings ps)) in
  reject_unknown (gset_to_gmap "" (declared_host_owned ps)) (InHostOwnedKeys (plugin_id ps)).
End set.
End layers.

Definition host_layer (ps : PluginBindingSet) (binding : string) : Config :=
  host_layer_with empty_schema ps binding.

(** ** The catalog *)

Record PluginBindings := { plugins : gmap string PluginBindingSet; undeclared : WorkloadConfigPolicy }.

Definition no_bindings : PluginBindings := {| plugins := ∅; undeclared := Deny |}.
Definition with_plugin (pb : PluginBindings) (ps : PluginBindingSet) : PluginBindings :=
  {| plugins := <[plugin_id ps := ps]> (plugins pb); undeclared := undeclared pb |}.
Definition with_default_workload_config (pb : PluginBindings) (p : WorkloadConfigPolicy) : PluginBindings :=
  {| plugins := plugins pb; undeclared := p |}.
Definition for_plugin (pb : PluginBindings) (id : string) : PluginBindingSet :=
  default (with_workload_config (new_set id) (undeclared pb)) (plugins pb !! id).

Definition KNOWN_PLUGIN_IDS : list string :=
  ["wasi-blobstore"; "wasi-blobstore-multiplexed"; "wasi-config"; "wasi-keyvalue";
   "wasi-keyvalue-multiplexed"; "wasi-logging"; "wasi-otel"; "wasi-webgpu";
   "wasmcloud-blobstore-multiplexed"; "wasmcloud-keyvalue-multiplexed"; "wasmcloud-messaging";
   "wasmcloud-messaging-async-multiplexed"; "wasmcloud-messaging-memory";
   "wasmcloud-messaging-multiplexed"; "wasmcloud-nats"; "wasmcloud-postgres"; "wasmcloud-secrets"].

Definition unknown_plugin (registered : list string) (id : string) : option (string * option string) :=
  if bool_decide (id ∈ registered) || bool_decide (id ∈ KNOWN_PLUGIN_IDS) then None
  else Some (id, List.find (within_one_edit id) (registered ++ KNOWN_PLUGIN_IDS)%list).

Definition validate_against (pb : PluginBindings) (registered : list string) : result unit BindingError :=
  match omap (unknown_plugin registered) (sorted_keys (plugins pb)) with
  | [] => Ok ()
  | l => Err (UnknownPlugins l (merge_sort ord_le registered))
  end.

(** ** One key, several spellings *)

Section spellings.
Context `{HashOrder} (s : BindingSchema) (Hok : schema_ok s).
Implicit Types c layer workload : Config.

(** Two spellings the merge takes for one key. *)
Definition same (k k' : string) : Prop :=
  if identifies s k then canonical s k = canonical s k' else k = k'.
#[local] Instance same_dec k k' : Decision (same k k').
Proof. unfold same. destruct (identifies s k); apply _. Defined.

Lemma same_refl k : same k k.
Proof. unfold same. by destruct (identifies s k). Qed.
Lemma same_canonical k k' : same k k' → canonical s k = canonical s k'.
Proof. unfold same. destruct (identifies s k); congruence. Qed.
Lemma same_sym k k' : same k k' → same k' k.
Proof.
  intros Hs. pose proof (same_canonical _ _ Hs) as E. unfold same in *.
  rewrite <-(identifies_same s Hok _ _ E). by destruct (identifies s k).
Qed.
Lemma same_trans k1 k2 k3 : same k1 k2 → same k2 k3 → same k1 k3.
Proof.
  intros Hs. pose proof (same_canonical _ _ Hs) as E. unfold same in *.
  rewrite <-(identifies_same s Hok _ _ E). destruct (identifies s k1); congruence.
Qed.

(** No key is there in two spellings. *)
Definition one_spelling c : Prop :=
  ∀ k k', is_Some (c !! k) → is_Some (c !! k') → same k k' → k = k'.

Lemma walk_elem c k v : (k, v) ∈ walk c ↔ c !! k = Some v.
Proof. rewrite walk_perm. apply elem_of_map_to_list. Qed.

Lemma sorted_pairs_elem c k v : (k, v) ∈ sorted_pairs c ↔ c !! k = Some v.
Proof.
  unfold sorted_pairs. rewrite list_elem_of_omap. split.
  - intros (x & _ & Hx). destruct (c !! x) eqn:E; by simplify_eq/=.
  - intros E. exists k. rewrite sorted_keys_elem, E. eauto.
Qed.

Lemma sorted_pairs_perm c : sorted_pairs c ≡ₚ map_to_list c.
Proof.
  apply NoDup_Permutation; [|apply NoDup_map_to_list|].
  - unfold sorted_pairs. pose proof (sorted_keys_NoDup c) as Hn. induction Hn as [|k l Hk Hn IH]; simpl; [constructor|].
    destruct (c !! k) as [v|]; simpl; [|done]. constructor; [|done].
    rewrite list_elem_of_omap. intros (x & Hx & E). destruct (c !! x); by simplify_eq/=.
  - intros [k v]. by rewrite sorted_pairs_elem, elem_of_map_to_list.
Qed.

Lemma find_key_Some c key e : find_key s c key = Some e → c !! e.1 = Some e.2 ∧ canonical s e.1 = canonical s key.
Proof.
  unfold find_key. intros Hh. apply head_Some_elem_of in Hh. apply list_elem_of_filter in Hh as [E He].
  destruct e. by apply walk_elem in He.
Qed.

Lemma find_key_None c key :
  find_key s c key = None ↔ ∀ k, is_Some (c !! k) → canonical s k ≠ canonical s key.
Proof.
  unfold find_key. split.
  - intros Hh k [v Hv] E. apply head_None in Hh.
    assert ((k, v) ∈ filter (λ e, canonical s e.1 = canonical s key) (walk c)) as Hin.
    { apply list_elem_of_filter. by rewrite walk_elem. }
    rewrite Hh in Hin. by apply not_elem_of_nil in Hin.
  - intros Hn. destruct (head _) as [[k v]|] eqn:E; [|done]. exfalso.
    apply head_Some_elem_of, list_elem_of_filter in E as [E He]. apply walk_elem in He. eapply Hn; eauto.
Qed.

Lemma lookup_key_None c key :
  lookup_key s c key = None ↔ ∀ k, is_Some (c !! k) → canonical s k ≠ canonical s key.
Proof. unfold lookup_key. by rewrite fmap_None, find_key_None. Qed.

(** ** Layers *)

Lemma layer_insert_lookup layer e k :
  layer_insert s layer e !! k =
  if decide (k = e.1) then Some e.2 else if decide (same e.1 k) then None else layer !! k.
Proof.
  unfold layer_insert. case_decide as E; [subst; by rewrite lookup_insert_eq|].
  rewrite lookup_insert_ne by done.
  assert (same e.1 k ↔ identifies s e.1 = true ∧ canonical s e.1 = canonical s k) as Hs.
  { unfold same. destruct (identifies s e.1); naive_solver. }
  destruct (identifies s e.1); case_decide as Es; [|destruct (layer !! k) eqn:El| |done].
  - apply map_lookup_filter_None. right. intros x _. simpl. naive_solver.
  - apply map_lookup_filter_Some. naive_solver.
  - apply map_lookup_filter_None. by left.
  - naive_solver.
Qed.

(** The reference: a workload's entries replace every spelling of their keys. *)
Definition shadowed workload (k : string) : bool :=
  existsb (λ k', bool_decide (same k' k)) (sorted_keys workload).
Definition override layer workload : Config :=
  workload ∪ filter (λ x, shadowed workload x.1 = false) layer.

Lemma shadowed_true workload k : shadowed workload k = true ↔ ∃ k', is_Some (workload !! k') ∧ same k' k.
Proof.
  unfold shadowed. rewrite existsb_exists. setoid_rewrite bool_decide_eq_true.
  setoid_rewrite <-list_elem_of_In. by setoid_rewrite sorted_keys_elem.
Qed.

Lemma override_lookup layer workload k :
  override layer workload !! k =
  match workload !! k with Some v => Some v | None => if shadowed workload k then None else layer !! k end.
Proof.
  unfold override. rewrite lookup_union. destruct (workload !! k) as [v|]; simpl; [by destruct (filter _ _ !! k)|].
  assert (∀ o : option string, None ∪ o = o) as -> by (by intros []). destruct (shadowed workload k) eqn:E.
  - apply map_lookup_filter_None. right. intros x _. simpl. congruence.
  - destruct (layer !! k) eqn:El; [by apply map_lookup_filter_Some|]. apply map_lookup_filter_None. by left.
Qed.

Lemma layers_merge layer l :
  NoDup l.*1 → (∀ e e', e ∈ l → e' ∈ l → same e.1 e'.1 → e.1 = e'.1) →
  foldl (layer_insert s) layer l = override layer (list_to_map l).
Proof.
  induction l as [|e l IH] using rev_ind; intros Hn Hone; apply map_eq; intros k.
  { rewrite override_lookup. simpl. by rewrite lookup_empty. }
  rewrite fmap_app in Hn. apply NoDup_app in Hn as (Hn & Hd & _).
  rewrite foldl_app. simpl. rewrite layer_insert_lookup, IH; [|done|set_solver].
  rewrite !override_lookup.
  assert (∀ k v, (list_to_map (l ++ [e]) : Config) !! k = Some v ↔ (list_to_map l : Config) !! k = Some v ∨ e = (k, v)) as Hl.
  { intros k' v. rewrite <-!elem_of_list_to_map; [set_solver|done|].
    rewrite fmap_app. apply NoDup_app. split_and!; [done|done|apply NoDup_singleton]. }
  assert (∀ k, shadowed (list_to_map (l ++ [e])) k = true ↔ shadowed (list_to_map l) k = true ∨ same e.1 k) as Hsh.
  { intros k'. rewrite !shadowed_true. unfold is_Some. setoid_rewrite Hl.
    destruct e as [ke ve]. naive_solver. }
  case_decide as Ek.
  { subst k. assert ((list_to_map (l ++ [e]) : Config) !! e.1 = Some e.2) as -> by (apply Hl; right; by destruct e). done. }
  destruct ((list_to_map l : Config) !! k) as [v|] eqn:El.
  - assert ((list_to_map (l ++ [e]) : Config) !! k = Some v) as -> by (apply Hl; by left).
    rewrite decide_False; [done|]. intros Hs. apply elem_of_list_to_map_2 in El.
    apply Ek. symmetry. apply (Hone e (k, v)); [set_solver..|done].
  - assert ((list_to_map (l ++ [e]) : Config) !! k = None) as ->.
    { apply eq_None_not_Some. intros [v [Hv|Hv]%Hl]; [congruence|]. by subst e. }
    case_decide as Es.
    + assert (shadowed (list_to_map (l ++ [e])) k = true) as -> by (apply Hsh; by right). done.
    + assert (shadowed (list_to_map (l ++ [e])) k = shadowed (list_to_map l) k) as ->; [|done].
      apply eq_true_iff_eq. rewrite Hsh. tauto.
Qed.

(** The loop over a hash map: whatever its order, if no key is there twice. *)
Lemma merge_is_override layer workload l :
  one_spelling workload → l ≡ₚ map_to_list workload → foldl (layer_insert s) layer l = override layer workload.
Proof.
  intros Hone Hl. assert (NoDup l.*1) as Hn by (rewrite Hl; apply NoDup_fst_map_to_list).
  rewrite layers_merge; [|done|].
  - by rewrite (list_to_map_proper l (map_to_list workload) Hn Hl), list_to_map_to_list.
  - intros [k v] [k' v']. rewrite !Hl, !elem_of_map_to_list. simpl. eauto.
Qed.

Lemma layer_insert_one layer e : one_spelling layer → one_spelling (layer_insert s layer e).
Proof.
  assert (¬ is_Some (@None string)) as Hnone by (intros [? [=]]).
  intros Hone k k'. rewrite !layer_insert_lookup.
  destruct (decide (k = e.1)) as [->|E], (decide (k' = e.1)) as [->|E']; [done|..].
  - case_decide; [by intros _ ?%Hnone|done].
  - case_decide as Es; [by intros ?%Hnone|]. intros _ _ Hs%same_sym. done.
  - repeat case_decide; try (by intros ?%Hnone); [by intros _ ?%Hnone|]. apply Hone.
Qed.

Lemma layers_one layer l : one_spelling layer → one_spelling (foldl (layer_insert s) layer l).
Proof. revert layer. induction l as [|e l IH]; intros layer Hl; [done|]. simpl. apply IH. by apply layer_insert_one. Qed.

(** ** Bundles *)

Lemma lookup_key_mono c c' key : c ⊆ c' → lookup_key s c' key = None → lookup_key s c key = None.
Proof. rewrite !lookup_key_None. intros Hc Hn k [v Hv]. apply Hn. exists v. by eapply lookup_weaken. Qed.

Lemma bundle_entry_grows c e : c ⊆ bundle_entry s c e.
Proof.
  unfold bundle_entry. destruct (lookup_key s c e.1) eqn:E; [done|]. apply insert_subseteq.
  apply eq_None_not_Some. intros Hs. rewrite lookup_key_None in E. by apply (E e.1).
Qed.

Lemma bundle_entries_grow l c : c ⊆ foldl (bundle_entry s) c l.
Proof.
  revert c. induction l as [|e l IH]; intros c; [done|]. simpl. etrans; [apply bundle_entry_grows|apply IH].
Qed.

Lemma apply_bundle_grows c b : c ⊆ apply_bundle s c b.
Proof. unfold apply_bundle. destruct (lookup_key s c (anchor b)); [done|]. apply bundle_entries_grow. Qed.

Lemma bundle_entries_new l c k v :
  foldl (bundle_entry s) c l !! k = Some v → c !! k = Some v ∨ (k, v) ∈ l ∧ lookup_key s c k = None.
Proof.
  revert c. induction l as [|e l IH]; intros c; [by left|]. simpl. intros [Hc|[Hl Hn]]%IH.
  - unfold bundle_entry in Hc. destruct (lookup_key s c e.1) eqn:E; [by left|].
    apply lookup_insert_Some in Hc as [[<- <-]|[_ Hc]]; [right|by left]. split; [|done].
    destruct e. left.
  - right. split; [by right|]. eapply lookup_key_mono; [apply bundle_entry_grows|done].
Qed.

Lemma bundle_one c b : one_spelling c → one_spelling (apply_bundle s c b).
Proof.
  unfold apply_bundle. destruct (lookup_key s c (anchor b)); [done|]. revert c.
  induction (entries b) as [|e l IH]; intros c Hc; [done|]. simpl. apply IH.
  unfold bundle_entry. destruct (lookup_key s c e.1) eqn:E; [done|]. rewrite lookup_key_None in E.
  intros k k'. rewrite !lookup_insert_is_Some. intros [<-|[_ Hk]] [<-|[_ Hk']] Hs; auto; exfalso.
  - apply (E k'); [done|]. symmetry. by apply same_canonical.
  - apply (E k); [done|]. by apply same_canonical.
Qed.
End spellings.

(** ** Folding a workload's entries *)

Section folding.
Context `{HashOrder} (s : BindingSchema) (Hok : schema_ok s) (ps : PluginBindingSet).
Implicit Types (c : Config) (l : list (string * string)).

(** [c] is one configuration that says what the entries of [l] say: it spells each
    key once, has nothing else, and gives each entry its value. *)
Record folds l c : Prop := {
  folds_one : one_spelling s c;
  folds_from : ∀ k v, c !! k = Some v → (k, v) ∈ l;
  folds_all : ∀ k v, (k, v) ∈ l → ∃ k', same s k k' ∧ c !! k' = Some v;
}.

(** No two entries give one key different values. *)
Definition agree l : Prop := ∀ k v k' v', (k, v) ∈ l → (k', v') ∈ l → same s k k' → v = v'.

Lemma folds_agree l c : folds l c → agree l.
Proof.
  intros [Hone _ Hall] k v k' v' (k1 & Hs1 & H1)%Hall (k2 & Hs2 & H2)%Hall Hs.
  assert (k1 = k2) as ->; [|congruence].
  apply Hone; eauto. eapply same_trans; [done|by apply same_sym|]. by eapply same_trans.
Qed.

Lemma match_entry_Some c key e :
  match_entry s c key = Some e → c !! e.1 = Some e.2 ∧ same s key e.1.
Proof.
  unfold match_entry, same. destruct (identifies s key).
  - intros [Hc E]%find_key_Some. done.
  - destruct (c !! key) eqn:E; intros; by simplify_eq/=.
Qed.

Lemma match_entry_None c key k : match_entry s c key = None → same s key k → c !! k = None.
Proof.
  unfold match_entry, same. destruct (identifies s key); [|intros ?%fmap_None <-; done].
  rewrite find_key_None. intros Hn E. apply eq_None_not_Some. intros Hs. by apply (Hn _ Hs).
Qed.

Lemma fold_pair_spec binding l c e :
  folds l c →
  match fold_pair s binding c e with
  | Ok c' => folds (l ++ [e]) c'
  | Err _ => ¬ agree (l ++ [e])
  end.
Proof.
  intros Hf. destruct e as [key v]. unfold fold_pair.
  destruct (match_entry s c key) as [[k' v']|] eqn:Em.
  - apply match_entry_Some in Em as [Hc Hs]. simpl in *. case_bool_decide as Ev.
    + intros Ha. apply Ev. symmetry. apply (Ha key v k' v'); [set_solver| |done].
      apply (folds_from _ _ Hf) in Hc. set_solver.
    + assert (v' = v) as -> by (destruct (decide (v' = v)); tauto). destruct Hf as [Hone Hfrom Hall]. split; [done|set_solver|].
      intros k w [Hk|[= -> ->]%list_elem_of_singleton]%elem_of_app; [by apply Hall|by exists k'].
  - destruct Hf as [Hone Hfrom Hall]. split.
    + intros k1 k2. rewrite !lookup_insert_is_Some. intros [<-|[_ H1]] [<-|[_ H2]] Hs; auto; exfalso.
      * rewrite (match_entry_None _ _ _ Em Hs) in H2. by destruct H2.
      * apply same_sym in Hs; [|done]. rewrite (match_entry_None _ _ _ Em Hs) in H1. by destruct H1.
    + intros k w [[<- <-]|[_ Hc]]%lookup_insert_Some; set_solver.
    + intros k w [Hk|[= -> ->]%list_elem_of_singleton]%elem_of_app.
      * destruct (Hall _ _ Hk) as (k' & Hs & Hc). exists k'. split; [done|].
        rewrite lookup_insert_ne; [done|]. intros <-.
        rewrite (match_entry_None _ _ key Em) in Hc; [done|apply same_refl].
      * exists key. rewrite lookup_insert_eq. split; [apply same_refl|done].
Qed.

Lemma agree_app_l l l' : agree (l ++ l') → agree l.
Proof. intros Ha k v k' v' H1 H2. eapply Ha; set_solver. Qed.

Lemma fold_pairs_spec binding l c l' :
  folds l c →
  match fold_pairs s binding c l' with
  | Ok c' => folds (l ++ l') c'
  | Err _ => ¬ agree (l ++ l')
  end.
Proof.
  revert l c. induction l' as [|e l' IH]; intros l c Hf; simpl; [by rewrite (right_id_L [] (++))|].
  pose proof (fold_pair_spec binding l c e Hf) as He. rewrite cons_middle, (assoc_L (++)).
  destruct (fold_pair s binding c e) as [c'|err]; [by apply IH|].
  intros Ha. by apply He, (agree_app_l _ l').
Qed.

(** What the entries of a binding say. *)
Definition pairs_of (b : string) (ints : list WitInterface) : list (string * string) :=
  filter (λ i, binding_name ps i = b) ints ≫= λ i, sorted_pairs (config i).

Record folded_to (ints : list WitInterface) (m : gmap string Config) : Prop := {
  folded_names : ∀ b, is_Some (m !! b) ↔ ∃ i, i ∈ ints ∧ binding_name ps i = b;
  folded_configs : ∀ b c, m !! b = Some c → folds (pairs_of b ints) c;
}.

Lemma pairs_of_app b (l l' : list WitInterface) : pairs_of b (l ++ l') = (pairs_of b l ++ pairs_of b l')%list.
Proof. unfold pairs_of. by rewrite filter_app, bind_app. Qed.

Lemma pairs_of_snoc b ints i :
  pairs_of b (ints ++ [i]) = (pairs_of b ints ++ (if decide (binding_name ps i = b) then sorted_pairs (config i) else []))%list.
Proof.
  rewrite pairs_of_app. f_equal. unfold pairs_of. rewrite filter_cons, filter_nil.
  case_decide; simpl; by rewrite ?(right_id_L [] (++)).
Qed.

Lemma pairs_of_none b ints m : folded_to ints m → m !! b = None → pairs_of b ints = [].
Proof.
  intros [Hn _] Hb. unfold pairs_of. destruct (filter _ ints) as [|i l] eqn:E; [done|]. exfalso.
  assert (i ∈ filter (λ i, binding_name ps i = b) ints) as [Hi Hin]%list_elem_of_filter by (rewrite E; left).
  assert (is_Some (m !! b)) as Hs by (apply Hn; eauto). rewrite Hb in Hs. by destruct Hs.
Qed.

Lemma folds_nil : folds [] ∅.
Proof. split; [|by intros k v; rewrite lookup_empty|set_solver]. intros k k' []. by rewrite lookup_empty in *. Qed.

Lemma fold_entries_spec ints m (l : list WitInterface) :
  folded_to ints m →
  match fold_entries s ps m l with
  | Ok m' => folded_to (ints ++ l) m'
  | Err _ => ∃ b, ¬ agree (pairs_of b (ints ++ l))
  end.
Proof.
  revert ints m. induction l as [|i l IH]; intros ints m Hm; simpl; [by rewrite (right_id_L [] (++))|].
  set (b := binding_name ps i).
  assert (folds (pairs_of b ints) (default ∅ (m !! b))) as Hf.
  { destruct (m !! b) as [c|] eqn:E; simpl; [by apply (folded_configs _ _ Hm)|].
    rewrite (pairs_of_none _ _ _ Hm E). apply folds_nil. }
  pose proof (fold_pairs_spec b _ _ (sorted_pairs (config i)) Hf) as Hs.
  rewrite cons_middle, (assoc_L (++)).
  destruct (fold_pairs s b _ _) as [c|e].
  - apply IH. split.
    + intros b'. rewrite lookup_insert_is_Some', (folded_names _ _ Hm). setoid_rewrite elem_of_app.
      setoid_rewrite list_elem_of_singleton. unfold b. naive_solver.
    + intros b' c'. rewrite pairs_of_snoc, lookup_insert_Some. intros [[<- <-]|[Hn Hb]].
      * by rewrite decide_True.
      * rewrite decide_False, (right_id_L [] (++)) by done. by apply (folded_configs _ _ Hm).
  - exists b. intros Ha. apply Hs. eapply agree_app_l. revert Ha.
    by rewrite pairs_of_app, pairs_of_snoc, decide_True.
Qed.

Context `{SemverLib}.

Lemma sort_entries_perm (l : list WitInterface) : sort_entries l ≡ₚ l.
Proof.
  assert (∀ i (l : list WitInterface), insert_by_entry_key i l ≡ₚ i :: l) as Hi.
  { intros i k. induction k as [|j k IH]; simpl; [done|]. destruct (ord_leb _ _); [done|].
    rewrite IH. apply Permutation_swap. }
  induction l as [|i l IH]; simpl; [done|]. by rewrite Hi, IH.
Qed.

Lemma pairs_of_perm b (l l' : list WitInterface) : l ≡ₚ l' → pairs_of b l ≡ₚ pairs_of b l'.
Proof. intros Hl. unfold pairs_of. by rewrite Hl. Qed.

Lemma folds_perm l l' c : l ≡ₚ l' → folds l c → folds l' c.
Proof. intros Hl [Hone Hf Ha]. by split; [|setoid_rewrite <-Hl..]. Qed.

Lemma agree_perm l l' : l ≡ₚ l' → agree l → agree l'.
Proof. intros Hl Ha k v k' v'. rewrite <-!Hl. apply Ha. Qed.

Lemma fold_workload_spec ints :
  match fold_workload_entries s ps ints with
  | Ok m => folded_to ints m
  | Err _ => ∃ b, ¬ agree (pairs_of b ints)
  end.
Proof.
  pose proof (sort_entries_perm ints) as Hp. unfold fold_workload_entries.
  pose proof (fold_entries_spec [] ∅ (sort_entries ints)) as Hs. simpl in Hs.
  destruct (fold_entries _ _ _ _) as [m|e].
  - destruct Hs as [Hn Hc].
    { split; [|by intros ??; rewrite lookup_empty]. intros b. rewrite lookup_empty. split; [by intros []|set_solver]. }
    split; [by setoid_rewrite <-Hp|]. intros b c Hb. eapply folds_perm; [|by apply Hc]. by apply pairs_of_perm.
  - destruct Hs as [b Hb].
    { split; [|by intros ??; rewrite lookup_empty]. intros b. rewrite lookup_empty. split; [by intros []|set_solver]. }
    exists b. intros Ha. apply Hb. eapply agree_perm; [|done]. by apply pairs_of_perm.
Qed.
End folding.

(** C30: The entries of a workload fold exactly when no two entries of one binding,
    whatever spelling each chose, give a key different values; then each binding
    named by an entry gets one configuration that spells each key once and says
    what its entries say, whatever order the entries and their maps come in. *)
Theorem entries_fold_iff_they_agree `{HashOrder, SemverLib} ds ps ints :
  match fold_workload_entries (build ds) ps ints with
  | Ok m => folded_to (build ds) ps ints m ∧ ∀ b, agree (build ds) (pairs_of ps b ints)
  | Err _ => ∃ b, ¬ agree (build ds) (pairs_of ps b ints)
  end.
Proof.
  pose proof (fold_workload_spec _ (build_ok ds) ps ints) as Hs.
  destruct (fold_workload_entries _ _ _) as [m|e]; [|done]. split; [done|]. intros b.
  destruct (m !! b) as [c|] eqn:E.
  - apply (folds_agree _ (build_ok ds) _ c). by apply (folded_configs _ _ _ _ Hs).
  - rewrite (pairs_of_none _ _ b _ _ Hs E). by intros ???? ?%not_elem_of_nil.
Qed.

(** ** Resolving *)

Section resolving.
Context `{HashOrder} (s : BindingSchema) (Hok : schema_ok s) (ps : PluginBindingSet).
Context (narrows : string → string → string → bool).
Implicit Types c layer workload : Config.

Lemma ownership_of_same k k' : canonical s k = canonical s k' → ownership_of s ps k = ownership_of s ps k'.
Proof. intros E. unfold ownership_of. by rewrite E. Qed.

(** A key with a ceiling is one the schema classifies. *)
Lemma ceiling_identified k : ownership_of s ps k = HostCeiling → identifies s k = true.
Proof.
  unfold ownership_of. destruct (existsb _ _); [done|]. rewrite ownership_canonical by done.
  unfold ownership. intros E. apply identifies_iff; [done|]. right. apply elem_of_dom.
  by destruct (owners s !! canonical s k).
Qed.

(** What a bundle supplies. *)
Definition bundled c (k v : string) : Prop :=
  lookup_key s c k = None ∧
  ∃ b, b ∈ default_bundles ps ∧ (k, v) ∈ entries b ∧ lookup_key s c (anchor b) = None.

Lemma bundles_spec c :
  c ⊆ apply_default_bundles s ps c ∧
  (one_spelling s c → one_spelling s (apply_default_bundles s ps c)) ∧
  ∀ k v, apply_default_bundles s ps c !! k = Some v → c !! k = Some v ∨ bundled c k v.
Proof.
  unfold apply_default_bundles, bundled.
  induction (default_bundles ps) as [|b l IH] using rev_ind; [simpl; naive_solver|].
  rewrite foldl_app. simpl. set (d := foldl (apply_bundle s) c l) in *. destruct IH as (Hsub & Hone & Hnew).
  split_and!.
  - etrans; [done|apply apply_bundle_grows].
  - intros Hc. apply bundle_one; auto.
  - intros k v. unfold apply_bundle. destruct (lookup_key s d (anchor b)) eqn:Ea.
    { intros [?|(? & b' & ? & ?)]%Hnew; [by left|right]. split; [done|]. exists b'. set_solver. }
    intros [[?|(? & b' & ? & ?)]%Hnew|[Hin Hn]]%bundle_entries_new; [by left|right|right].
    + split; [done|]. exists b'. set_solver.
    + split; [by eapply lookup_key_mono|]. exists b. split_and!; [set_solver|done|by eapply lookup_key_mono].
Qed.

Lemma complete_Ok binding workload layer r :
  complete s ps binding workload layer = Ok r →
  r = apply_default_bundles s ps (foldl (layer_insert s) layer (walk workload)) ∧
  ∀ key, key ∈ required s → ∃ k, is_Some (r !! k) ∧ canonical s k = canonical s key.
Proof.
  unfold complete. set (r' := apply_default_bundles s ps _).
  destruct (missing_keys s r') as [|x l] eqn:E; [|done]. intros [= <-]. split; [done|]. intros key Hk.
  destruct (lookup_key s r' key) as [v|] eqn:El.
  - unfold lookup_key in El. destruct (find_key s r' key) as [[k w]|] eqn:Ef; [|done].
    apply find_key_Some in Ef as [Hr Hc]. exists k. eauto.
  - assert (key ∈ missing_keys s r') as Hin; [|rewrite E in Hin; by apply not_elem_of_nil in Hin].
    unfold missing_keys. apply list_elem_of_filter. split; [done|]. unfold required_keys, sorted_set.
    by rewrite (merge_sort_Permutation ord_le), elem_of_elements.
Qed.

Lemma filter_nil_not {A} (P : A → Prop) `{∀ x, Decision (P x)} (l : list A) x :
  filter P l = [] → x ∈ l → ¬ P x.
Proof.
  intros E Hx HP. assert (x ∈ filter P l) as Hin by (by apply list_elem_of_filter).
  rewrite E in Hin. by apply not_elem_of_nil in Hin.
Qed.

(** What it means that nothing is found. *)
Lemma findings_nil binding workload layer :
  findings s ps narrows binding workload layer = [] →
  (binding = UNNAMED_BINDING ∨ bindings ps = ∅ ∨ is_Some (bindings ps !! binding)) ∧
  (∀ k v, workload !! k = Some v → ownership_of s ps k ≠ Host) ∧
  (∀ k v, workload !! k = Some v → ownership_of s ps k = HostCeiling →
    ∃ grant : string, lookup_key s layer k = Some grant ∧ narrows (canonical s k) grant v = true) ∧
  (∀ k v, workload !! k = Some v → closed s = true → knows s k = true).
Proof.
  unfold findings. intros (Hd & (Hu & (Hr & Hc)%app_nil)%app_nil)%app_nil. split_and!.
  - destruct (bindings ps !! binding); [eauto|]. destruct (decide (binding = UNNAMED_BINDING)); [auto|].
    destruct (decide (bindings ps = ∅)); [auto|]. exfalso. revert Hd. by rewrite !bool_decide_true.
  - intros k v Hk Ho. destruct (filter _ (sorted_keys workload)) as [|x l] eqn:E; [|done].
    apply (filter_nil_not _ _ k E); [|done]. rewrite sorted_keys_elem. eauto.
  - intros k v Hk Ho. assert (ceiling_finding s ps narrows layer (k, v) = []) as He.
    { assert (∀ f, f ∉ ceiling_finding s ps narrows layer (k, v)) as Hno.
      { intros f Hf. assert (f ∈ sorted_pairs workload ≫= ceiling_finding s ps narrows layer) as Hin.
        { apply list_elem_of_bind. exists (k, v). by rewrite sorted_pairs_elem. }
        rewrite Hc in Hin. by apply not_elem_of_nil in Hin. }
      destruct (ceiling_finding _ _ _ _ _) as [|f l]; [done|]. destruct (Hno f). left. }
    unfold ceiling_finding in He. rewrite bool_decide_false in He by tauto.
    destruct (lookup_key s layer k) as [c|]; [|done]. exists c. split; [done|]. by destruct (narrows _ _ _).
  - intros k v Hk Hcl. destruct (knows s k) eqn:E; [done|]. exfalso. clear Hr. revert Hu. unfold unknown_keys. rewrite Hcl. simpl.
    destruct (filter _ (sorted_keys workload)) as [|x l] eqn:Ef; [|done].
    intros _. apply (filter_nil_not _ _ k Ef); [|done]. rewrite sorted_keys_elem. eauto.
Qed.

(** What is in the host's layer is still there, or a workload's entry in its place. *)
Lemma override_covers layer workload key :
  lookup_key s (override s layer workload) key = None → lookup_key s layer key = None.
Proof.
  rewrite !lookup_key_None. intros Hn k [v Hv] E.
  destruct (workload !! k) as [w|] eqn:Ew.
  { apply (Hn k); [|done]. rewrite override_lookup, Ew. eauto. }
  destruct (shadowed s workload k) eqn:Es.
  - apply shadowed_true in Es as (k' & [w Hw] & Hs). apply (Hn k').
    + rewrite override_lookup, Hw. eauto.
    + rewrite <-E. by apply same_canonical.
  - apply (Hn k); [|done]. rewrite override_lookup, Ew, Es. eauto.
Qed.

Lemma bundled_weaken layer workload k v : bundled (override s layer workload) k v → bundled layer k v.
Proof.
  intros (Hk & b & Hb & Hin & Ha). split; [by eapply override_covers|]. exists b.
  split_and!; [done..|]. by eapply override_covers.
Qed.

Lemma resolve_Ok binding workload log r :
  resolve s ps narrows binding workload = (log, Ok r) →
  complete s ps binding workload (host_layer_with s ps binding) = Ok r ∧
  (workload_config ps = Deny → findings s ps narrows binding workload (host_layer_with s ps binding) = []).
Proof.
  unfold resolve. destruct (reject_conflicting_spellings s (base ps) _); [|done].
  destruct (match bindings ps !! binding with Some _ => _ | None => _ end); [|done].
  set (f := findings _ _ _ _ _ _). unfold reports, enforces.
  destruct (workload_config ps); simpl; rewrite ?andb_false_r, ?andb_true_r; [by intros [= _ ->]| |by intros [= _ ->]].
  case_bool_decide as Ef; [done|]. intros [= _ ->]. split; [done|]. intros _. by destruct f; [|destruct Ef].
Qed.

Section granted.
Context (layer workload : Config) (Hone : one_spelling s workload).
Context (binding : string) (Hf : findings s ps narrows binding workload layer = []).
Context (r : Config) (Hr : complete s ps binding workload layer = Ok r).

Lemma complete_lookup k v :
  r !! k = Some v → override s layer workload !! k = Some v ∨ bundled layer k v.
Proof.
  destruct (complete_Ok _ _ _ _ Hr) as [Er _]. rewrite (merge_is_override s Hok layer workload (walk workload) Hone (walk_perm _)) in Er.
  rewrite Er. intros [?|?%bundled_weaken]%bundles_spec; auto.
Qed.

Lemma host_key_not_shadowed k : ownership_of s ps k = Host → shadowed s workload k = false.
Proof.
  intros Ho. destruct (shadowed s workload k) eqn:E; [|done].
  apply shadowed_true in E as (k' & [w Hw] & Hs). destruct (findings_nil _ _ _ Hf) as (_ & Hh & _).
  destruct (Hh _ _ Hw). by rewrite (ownership_of_same _ k) by (by apply same_canonical).
Qed.

Lemma host_key_kept k v : ownership_of s ps k = Host → layer !! k = Some v → r !! k = Some v.
Proof.
  intros Ho Hl. destruct (complete_Ok _ _ _ _ Hr) as [-> _]. rewrite (merge_is_override s Hok layer workload (walk workload) Hone (walk_perm _)).
  eapply lookup_weaken; [|apply bundles_spec]. rewrite override_lookup, (host_key_not_shadowed _ Ho).
  destruct (workload !! k) as [w|] eqn:E; [|done]. destruct (findings_nil _ _ _ Hf) as (_ & Hh & _). by destruct (Hh _ _ E).
Qed.

Lemma host_key_origin k v : ownership_of s ps k = Host → r !! k = Some v → layer !! k = Some v ∨ bundled layer k v.
Proof.
  intros Ho [Hk|?]%complete_lookup; [left|by right]. rewrite override_lookup, (host_key_not_shadowed _ Ho) in Hk.
  destruct (workload !! k) as [w|] eqn:E; [|done]. destruct (findings_nil _ _ _ Hf) as (_ & Hh & _). by destruct (Hh _ _ E).
Qed.

Lemma ceiling_key_origin k v :
  ownership_of s ps k = HostCeiling → r !! k = Some v →
  layer !! k = Some v ∨ bundled layer k v ∨
  ∃ grant : string, lookup_key s layer k = Some grant ∧ narrows (canonical s k) grant v = true.
Proof.
  intros Ho [Hk|?]%complete_lookup; [|by right; left]. rewrite override_lookup in Hk.
  destruct (workload !! k) as [w|] eqn:E.
  - injection Hk as ->. destruct (findings_nil _ _ _ Hf) as (_ & _ & Hc & _). right. right. eauto.
  - destruct (shadowed s workload k); [done|]. by left.
Qed.
End granted.

Lemma resolve_each_Ok l acc log m b r :
  resolve_each s ps narrows l acc = (log, Ok m) → m !! b = Some r →
  acc !! b = Some r ∨ ∃ w log', (b, w) ∈ l ∧ resolve s ps narrows b w = (log', Ok r).
Proof.
  revert acc log. induction l as [|[b' w] l IH]; intros acc log; simpl; [intros [= _ ->]; auto|].
  destruct (resolve s ps narrows b' w) as [log' [c|e]] eqn:Er; [|done].
  destruct (resolve_each s ps narrows l _) as [log'' res] eqn:El. intros [= _ ->] Hb.
  destruct (IH _ _ El Hb) as [Hi|(w' & lg & Hin & Hw)].
  - apply lookup_insert_Some in Hi as [[<- <-]|[_ ?]]; [|by left]. right. exists w, log'. split; [left|done].
  - right. exists w', lg. split; [by right|done].
Qed.

Lemma passthrough_owns_nothing k : is_passthrough s ps = true → ownership_of s ps k = Workload.
Proof.
  unfold is_passthrough, schema_is_empty. rewrite !andb_true_iff, !bool_decide_eq_true.
  intros (((_ & ((Ho & _) & _) & _) & Hd) & _). unfold ownership_of. rewrite Hd, elements_empty. simpl.
  unfold ownership. by rewrite Ho, lookup_empty.
Qed.

Lemma in_order_elem (m : gmap string Config) b c : (b, c) ∈ in_order m ↔ m !! b = Some c.
Proof.
  unfold in_order. rewrite list_elem_of_omap. split.
  - intros (x & _ & Hx). destruct (m !! x) eqn:E; by simplify_eq/=.
  - intros E. exists b. rewrite sorted_keys_elem, E. eauto.
Qed.

Context `{SemverLib}.

(** A binding that resolved did so from a folded configuration. *)
Lemma resolve_by_name_Ok ints log m b r :
  resolve_by_name s ps narrows ints = (log, Ok m) → m !! b = Some r →
  is_passthrough s ps = true ∧ folds s (pairs_of ps b ints) r ∨
  ∃ w log', folds s (pairs_of ps b ints) w ∧ resolve s ps narrows b w = (log', Ok r).
Proof.
  unfold resolve_by_name. pose proof (fold_workload_spec s Hok ps ints) as Hs.
  destruct (fold_workload_entries _ _ _) as [folded|e]; [|done]. destruct (is_passthrough s ps).
  - intros [= _ ->] Hb. left. split; [done|]. by apply (folded_configs _ _ _ _ Hs).
  - intros Hr Hb. destruct (resolve_each_Ok _ _ _ _ _ _ Hr Hb) as [He|(w & log' & Hin & Hw)]; [by rewrite lookup_empty in He|].
    right. exists w, log'. split; [|done]. apply in_order_elem in Hin. by apply (folded_configs _ _ _ _ Hs).
Qed.

Lemma host_layer_one b : one_spelling s (host_layer_with s ps b).
Proof.
  unfold host_layer_with, extend_layer.
  assert (one_spelling s ∅) as He by (by intros ?? [? ?%lookup_empty_Some]).
  destruct (bindings ps !! b); auto using layers_one.
Qed.

Lemma deny_origin ints log m b r k v :
  workload_config ps = Deny →
  resolve_by_name s ps narrows ints = (log, Ok m) → m !! b = Some r →
  (ownership_of s ps k = Host → host_layer_with s ps b !! k = Some v → r !! k = Some v) ∧
  (ownership_of s ps k = Host → r !! k = Some v →
    host_layer_with s ps b !! k = Some v ∨ bundled (host_layer_with s ps b) k v) ∧
  (ownership_of s ps k = HostCeiling → r !! k = Some v →
    host_layer_with s ps b !! k = Some v ∨ bundled (host_layer_with s ps b) k v ∨
    ∃ grant : string, lookup_key s (host_layer_with s ps b) k = Some grant ∧ narrows (canonical s k) grant v = true).
Proof.
  intros Hd Hr Hb. destruct (resolve_by_name_Ok _ _ _ _ _ Hr Hb) as [[Hp _]|(w & log' & Hw & Hres)].
  { by rewrite (passthrough_owns_nothing k Hp). }
  apply resolve_Ok in Hres as [Hc Hf]. specialize (Hf Hd). apply folds_one in Hw.
  split_and!; eauto using host_key_kept, host_key_origin, ceiling_key_origin.
Qed.
End resolving.

(** C29: Under [deny], a key the host owns has the operator's value in whatever
    spelling it is read: what the host's layer sets is there unchanged, and what is
    there is the host's layer's, or a default bundle's where no layer had the key
    or the bundle's anchor.  A key with a ceiling has besides only values within
    the ceiling. *)
Theorem deny_keeps_the_operators_keys `{HashOrder, SemverLib} ds ps narrows ints log m b r k v :
  workload_config ps = Deny →
  resolve_by_name (build ds) ps narrows ints = (log, Ok m) → m !! b = Some r →
  let s := build ds in
  let layer := host_layer_with s ps b in
  (ownership_of s ps k = Host → layer !! k = Some v → r !! k = Some v) ∧
  (ownership_of s ps k = Host → r !! k = Some v → layer !! k = Some v ∨ bundled s ps layer k v) ∧
  (ownership_of s ps k = HostCeiling → r !! k = Some v →
    layer !! k = Some v ∨ bundled s ps layer k v ∨
    ∃ grant : string, lookup_key s layer k = Some grant ∧ narrows (canonical s k) grant v = true).
Proof.
  intros Hd Hr Hb. by apply (deny_origin _ (build_ok ds) _ _ ints log m).
Qed.

(** Whatever the policy, a resolved binding spells each key once, and has every
    key the plugin requires. *)
Theorem resolved_binding_is_complete `{HashOrder, SemverLib} ds ps narrows ints log m b r :
  resolve_by_name (build ds) ps narrows ints = (log, Ok m) → m !! b = Some r →
  one_spelling (build ds) r ∧
  ∀ key, key ∈ required (build ds) → ∃ k, is_Some (r !! k) ∧ canonical (build ds) k = canonical (build ds) key.
Proof.
  intros Hr Hb. pose proof (build_ok ds) as Hok.
  destruct (resolve_by_name_Ok _ Hok _ _ _ _ _ _ _ Hr Hb) as [[Hp Hf]|(w & log' & Hw & [Hc _]%resolve_Ok)].
  - split; [by apply folds_one in Hf|]. revert Hp. unfold is_passthrough, schema_is_empty.
    rewrite !andb_true_iff, !bool_decide_eq_true. intros (((_ & (_ & ->) & _) & _) & _). set_solver.
  - destruct (complete_Ok _ _ _ _ _ _ Hc) as [-> Hreq]. split; [|done].
    eapply (proj1 (proj2 (bundles_spec _ Hok _ narrows _))). by apply layers_one, host_layer_one.
Qed.

(** ** Warning before refusing *)

Section policies.
Context `{HashOrder} (s : BindingSchema) (ps : PluginBindingSet).
Context (narrows : string → string → string → bool).
#[local] Abbreviation under p := (with_workload_config ps p).

Lemma resolve_policies b w :
  resolve s (under Allow) narrows b w = ([], (resolve s (under Warn) narrows b w).2) ∧
  resolve s (under Deny) narrows b w =
    (if decide ((resolve s (under Warn) narrows b w).1 = []) then resolve s (under Warn) narrows b w
     else ([], Err (Refused (resolve s (under Warn) narrows b w).1))).
Proof.
  unfold resolve. simpl. destruct (reject_conflicting_spellings s (base ps) _); [|done].
  destruct (match bindings ps !! b with Some _ => _ | None => _ end); [|done].
  unfold reports, enforces. rewrite !andb_false_r, !andb_true_r. simpl. split; [done|].
  change (findings s (under Deny)) with (findings s (under Warn)).
  change (host_layer_with s (under Deny)) with (host_layer_with s (under Warn)).
  by destruct (findings s (under Warn) narrows b w _).
Qed.

Lemma resolve_each_policies l acc :
  (resolve_each s (under Allow) narrows l acc).2 = (resolve_each s (under Warn) narrows l acc).2 ∧
  match (resolve_each s (under Warn) narrows l acc).1 with
  | [] => resolve_each s (under Deny) narrows l acc = resolve_each s (under Warn) narrows l acc
  | log => ∃ fs rest, fs ≠ [] ∧ log = (fs ++ rest)%list ∧
             resolve_each s (under Deny) narrows l acc = ([], Err (Refused fs))
  end.
Proof.
  revert acc. induction l as [|[b w] l IH]; intros acc; [done|]. simpl.
  destruct (resolve_policies b w) as [-> ->].
  destruct (resolve s (under Warn) narrows b w) as [[|f fs] [c|e]]; simpl; try done.
  - destruct (IH (<[b := c]> acc)) as [IH1 IH2].
    destruct (resolve_each s (under Warn) narrows l _) as [lw rw], (resolve_each s (under Allow) narrows l _) as [la ra].
    simpl in *. split; [done|]. destruct lw as [|f lw]; [by rewrite IH2|].
    destruct IH2 as (fs & rest & Hfs & Hl & ->). exists fs, rest. done.
  - destruct (IH (<[b := c]> acc)) as [IH1 _].
    destruct (resolve_each s (under Warn) narrows l _) as [lw rw], (resolve_each s (under Allow) narrows l _) as [la ra].
    simpl in *. split; [done|]. exists (f :: fs), lw. done.
  - split; [done|]. exists (f :: fs), []. by rewrite (right_id_L [] (++)).
Qed.
End policies.

(** [warn] hands a workload what [allow] would, and tells what [deny] would do: if
    it logs nothing, [deny] resolves every binding the same; if it logs something,
    [deny] refuses, with what was logged first. *)
Theorem warn_predicts_deny `{HashOrder, SemverLib} s ps narrows ints :
  let under p := resolve_by_name s (with_workload_config ps p) narrows ints in
  (under Warn).2 = (under Allow).2 ∧
  match (under Warn).1 with
  | [] => under Deny = under Warn
  | log => ∃ fs rest, fs ≠ [] ∧ log = (fs ++ rest)%list ∧ under Deny = ([], Err (Refused fs))
  end.
Proof.
  simpl. unfold resolve_by_name.
  change (fold_workload_entries s (with_workload_config ps Allow)) with (fold_workload_entries s (with_workload_config ps Warn)).
  change (fold_workload_entries s (with_workload_config ps Deny)) with (fold_workload_entries s (with_workload_config ps Warn)).
  destruct (fold_workload_entries _ _ _) as [folded|e]; [|done].
  change (is_passthrough s (with_workload_config ps Allow)) with (is_passthrough s (with_workload_config ps Warn)).
  change (is_passthrough s (with_workload_config ps Deny)) with (is_passthrough s (with_workload_config ps Warn)).
  destruct (is_passthrough _ _); [done|].
  destruct (resolve_each_policies s ps narrows (in_order folded) ∅) as [-> Hd]. done.
Qed.

(** ** What is checked when the host starts *)

(** A declaration is accepted exactly when every binding it declares is the binding
    of some label. *)
Theorem validated_bindings_can_be_named ps :
  validate_declaration ps = Ok () ↔
  ∀ b, is_Some (bindings ps !! b) → ∃ label, binding_of (plugin_id ps) (Some label) = Some b.
Proof.
  unfold validate_declaration, binding_of. split.
  - destruct (bindings ps !! plugin_id ps) as [c|] eqn:E; [done|]. intros _ b [c Hb]. exists b.
    rewrite bool_decide_true; [done|]. congruence.
  - intros Hall. destruct (bindings ps !! plugin_id ps) as [c|] eqn:E; [|done].
    destruct (Hall (plugin_id ps)) as [label Hl]; [eauto|]. case_bool_decide; congruence.
Qed.

(** The host starts with the catalog exactly when each declared plugin is
    registered or is one that another build of the host has. *)
Theorem startup_refuses_unknown_plugins pb registered :
  validate_against pb registered = Ok () ↔
  ∀ id, is_Some (plugins pb !! id) → id ∈ registered ∨ id ∈ KNOWN_PLUGIN_IDS.
Proof.
  unfold validate_against. assert (∀ id, unknown_plugin registered id = None ↔ id ∈ registered ∨ id ∈ KNOWN_PLUGIN_IDS) as Hu.
  { intros id. unfold unknown_plugin.
    destruct (bool_decide_reflect (id ∈ registered)), (bool_decide_reflect (id ∈ KNOWN_PLUGIN_IDS)); simpl; naive_solver. }
  setoid_rewrite <-Hu. setoid_rewrite <-sorted_keys_elem.
  induction (sorted_keys (plugins pb)) as [|id l IH]; [set_solver|]. simpl.
  destruct (unknown_plugin registered id) eqn:E.
  - split; [done|]. intros Hall. specialize (Hall id ltac:(left)). congruence.
  - rewrite IH. set_solver.
Qed.

(** ** Witnesses *)

Definition sorted_order : HashOrder := {| walk := sorted_pairs; walk_perm := sorted_pairs_perm |}.

Definition nats_keys : list Declaration :=
  [Classify Host "servers"; Classify HostCeiling "subject-allow"; Alias "servers" "url";
   Classify Workload "ack-mode"; Require "servers"; Close].
Definition nats_set : PluginBindingSet :=
  with_base (new_set "wasmcloud-nats") {["Servers" := "nats://host:4222"; "subject-allow" := "orders.>"]}.
Definition nats_entry (c : Config) : WitInterface :=
  {| namespace := "wasmcloud"; package := "nats"; interfaces := {["core"]}; version := None;
     config := c; name := None |}.
Definition prefix_narrows (key host workload : string) : bool :=
  is_some_and (strip_suffix ">" host) (λ p, starts_with p workload).

Lemma deny_keeps_the_operators_keys_witness :
  match resolve_by_name (H := sorted_order) (H0 := simple_semver) (build nats_keys) nats_set prefix_narrows
          [nats_entry {["subject_allow" := "orders.new"]}; nats_entry {["ack-mode" := "none"]}] with
  | (_, Ok m) => (m !! "") ≫= (λ r : Config, r !! "Servers")
  | _ => None
  end = Some "nats://host:4222".
Proof.
  destruct (resolve_by_name (H := sorted_order) (H0 := simple_semver) (build nats_keys) nats_set prefix_narrows
    [nats_entry {["subject_allow" := "orders.new"]}; nats_entry {["ack-mode" := "none"]}])
    as [log [m|e]] eqn:E; [|vm_compute in E; discriminate].
  destruct (m !! "") as [r|] eqn:Eb; [|vm_compute in E; injection E as <- <-; vm_compute in Eb; discriminate].
  simpl. eapply (deny_keeps_the_operators_keys nats_keys nats_set prefix_narrows _ log m "" r
    "Servers" "nats://host:4222" eq_refl E Eb); vm_compute; reflexivity.
Defined.

Lemma resolved_binding_is_complete_witness :
  match resolve_by_name (H := sorted_order) (H0 := simple_semver) (build nats_keys) nats_set prefix_narrows
          [nats_entry {["ack-mode" := "none"]}] with
  | (_, Ok m) => ∃ r, m !! "" = Some r ∧ one_spelling (build nats_keys) r
  | _ => False
  end.
Proof.
  destruct (resolve_by_name (H := sorted_order) (H0 := simple_semver) (build nats_keys) nats_set prefix_narrows
    [nats_entry {["ack-mode" := "none"]}]) as [log [m|e]] eqn:E; [|vm_compute in E; discriminate].
  destruct (m !! "") as [r|] eqn:Eb; [|vm_compute in E; injection E as <- <-; vm_compute in Eb; discriminate].
  exists r. split; [reflexivity|]. apply (resolved_binding_is_complete nats_keys nats_set prefix_narrows _ log m "" r E Eb).
Defined.
