(* ===== verification/NatsConfig.v ===== *)
(** * The configuration of the NATS plugin

    [plugin/wasmcloud_nats]: the table of its keys and how one is read ([keys.rs]),
    the schema made from it ([mod.rs]), the configuration read from a resolved
    binding and the subscriptions it declares ([config.rs]), when a workload's grant
    is within the operator's ([narrows], [plugin.rs]).  A refusal is a constructor
    with the data of its message. *)

From Stdlib Require Import ZArith Lia Ascii.
From stdpp Require Import base list gmap strings option sorting.
From S2P Require Import Prelude RustStr StoreLib Wit BindingKeys Bindings NatsPolicy.
Local Open Scope string_scope.
Local Open Scope rust_scope.

(** ** The table of keys *)

Record Key := { key_canonical : string; key_aliases : list string; key_ownership : KeyOwnership }.

Definition spellings (k : Key) : list string := key_canonical k :: key_aliases k.

Definition host (c : string) : Key := {| key_canonical := c; key_aliases := []; key_ownership := Host |}.
Definition host_aliased (c : string) (l : list string) : Key :=
  {| key_canonical := c; key_aliases := l; key_ownership := Host |}.
Definition ceiling (c : string) : Key :=
  {| key_canonical := c; key_aliases := []; key_ownership := HostCeiling |}.
Definition workload (c : string) : Key :=
  {| key_canonical := c; key_aliases := []; key_ownership := Workload |}.

Definition KEYS : list Key :=
  [host "servers"; host "name"; host "jetstream-domain"; host "inbox-prefix";
   host_aliased "creds" ["creds-file"]; host "jwt"; host_aliased "nkey-seed" ["nkey"];
   host_aliased "username" ["user"]; host "password"; host "token"; host "tls-ca"; host "tls-cert";
   host "tls-key"; host "tls-first"; ceiling "subject-allow"; ceiling "stream-allow";
   ceiling "bucket-allow"; workload "ack-mode"; workload "request-timeout-ms"; workload "max-in-flight";
   workload "subscription-capacity"; workload "subscription-capacity-bytes"; workload "max-ack-pending";
   workload "max-deliver"; workload "jetstream-subscriptions"; workload "core-subscriptions";
   workload "kv-watches"; workload "component"].

Definition find (key : string) : option Key :=
  List.find (λ row, existsb (String.eqb (canonical_key key)) (spellings row)) KEYS.

Definition owned_by (o : KeyOwnership) : list string :=
  filter (λ k, key_ownership k = o) KEYS ≫= spellings.
Definition host_owned : list string := owned_by Host.
Definition host_ceiling : list string := owned_by HostCeiling.
Definition workload_owned : list string := owned_by Workload.

Definition binding_schema : BindingSchema :=
  and_workload_owned_keys (and_host_ceiling_keys (with_host_owned_keys host_owned) host_ceiling) workload_owned.

(** ** Lists and containment *)

(** [split(',').map(trim).filter(!is_empty)] *)
Definition pieces (s : string) : list string :=
  filter (λ x, is_empty x = false) (trim <$> split "," s).

Definition narrows (key ceiling value : string) : bool :=
  if bool_decide (key = "subject-allow") then
    forallb (λ v, existsb (λ c, contains c v) (parse <$> pieces ceiling)) (parse <$> pieces value)
  else if bool_decide (key = "stream-allow") || bool_decide (key = "bucket-allow") then
    forallb (λ v, bool_decide (v ∈ pieces ceiling)) (pieces value)
  else false.

(** ** Limits *)

Definition DEFAULT_MAX_IN_FLIGHT : Z := 64.
Definition DEFAULT_SUBSCRIPTION_CAPACITY : Z := 1024.
Definition DEFAULT_SUBSCRIPTION_CAPACITY_BYTES : Z := 32 * 1024 * 1024.
Definition DEFAULT_MAX_DELIVER : Z := 32.
Definition MIN_DERIVED_MAX_ACK_PENDING : Z := 16.

Record Limits := {
  max_in_flight : Z;
  subscription_capacity : Z;
  subscription_capacity_bytes : Z;
  max_ack_pending : option Z;
  max_deliver : option Z;
}.

Definition default_limits : Limits :=
  {| max_in_flight := DEFAULT_MAX_IN_FLIGHT; subscription_capacity := DEFAULT_SUBSCRIPTION_CAPACITY;
     subscription_capacity_bytes := DEFAULT_SUBSCRIPTION_CAPACITY_BYTES; max_ack_pending := None;
     max_deliver := None |}.

(** [usize] is 64 bits wide: [i64::try_from(..).unwrap_or(i64::MAX)] and
    [saturating_mul]. *)
Definition to_i64 (z : Z) : Z := Z.min z i64_MAX.
Definition saturating_mul (a b : Z) : Z := Z.min (a * b) u64_MAX.

Definition max_ack_pending_by_bytes (l : Limits) (per_message_bytes : Z) : Z :=
  (subscription_capacity_bytes l / Z.max per_message_bytes 1)%Z.
Definition by_count (l : Limits) : Z := Z.min (saturating_mul (max_in_flight l) 2) (subscription_capacity l).

Definition effective_max_ack_pending (l : Limits) (per_message_bytes : Z) : Z :=
  match max_ack_pending l with
  | Some explicit => to_i64 explicit
  | None =>
      to_i64 (Z.max (Z.min (by_count l) (max_ack_pending_by_bytes l per_message_bytes))
                (Z.min MIN_DERIVED_MAX_ACK_PENDING (by_count l)))
  end.

(** The count by bytes, what is used instead, and the bytes that may hold up. *)
Definition ack_pending_advisory (l : Limits) (per_message_bytes : Z) : option (Z * Z * Z) :=
  match max_ack_pending l with
  | Some _ => None
  | None =>
      let by_bytes := max_ack_pending_by_bytes l per_message_bytes in
      if (Z.min MIN_DERIVED_MAX_ACK_PENDING (by_count l) <=? by_bytes)%Z then None
      else let applied := effective_max_ack_pending l per_message_bytes in
           Some (by_bytes, applied, saturating_mul applied per_message_bytes)
  end.

Definition effective_max_deliver (l : Limits) : Z :=
  let n := default DEFAULT_MAX_DELIVER (max_deliver l) in
  if (n =? 0)%Z then -1 else to_i64 n.

(** ** The configuration *)

Inductive NatsAuth :=
  | Anonymous
  | CredsFile (path : string)
  | JwtNkey (jwt seed : string)
  | NkeySeed (seed : string)
  | UserPassword (username password : string)
  | AuthToken (token : string).

Record TlsConfig := { ca : option string; cert : option string; tls_key : option string; first : bool }.

Inductive AckMode := Auto | Manual.

Record NatsConfig := {
  servers : list string;
  client_name : option string;
  jetstream_domain : option string;
  inbox_prefix : option string;
  auth : NatsAuth;
  tls : TlsConfig;
  policy : PolicySpec;
  limits : Limits;
  ack_mode : AckMode;
  request_timeout : option Z;
}.

Inductive NatsError :=
  | NoServers
  | CredentialsInServers
  | BadAckMode (value : string)
  | BadNumber (key value : string)
  | MustBePositive (key : string)
  | TooLarge (key : string) (value : Z)
  | BadBool (key value : string)
  | TlsPair
  | ConflictingCredentials (kinds : list string)
  | Requires (key needed : string).

(** [Semaphore::MAX_PERMITS]: [usize::MAX >> 3]. *)
Definition NATS_MAX_PERMITS : Z := Z.shiftr u64_MAX 3.

Section reader.
Context `{HashOrder}.
Implicit Types c : Config.

Definition get_spelling c (spelling : string) : option string :=
  match head (filter (λ e, canonical_key e.1 = spelling) (walk c)) with
  | Some e => let v := trim e.2 in if is_empty v then None else Some v
  | None => None
  end.
Definition get c (key : string) : option string :=
  find_map (get_spelling c) (match find key with Some row => spellings row | None => [key] end).

Definition get_list c (key : string) : list string :=
  match get c key with Some raw => pieces raw | None => [] end.

Definition parse_number c (key : string) : result (option Z) NatsError :=
  match get c key with
  | Some raw => match parse_uint u64_MAX raw with Some n => Ok (Some n) | None => Err (BadNumber key raw) end
  | None => Ok None
  end.
Definition parse_usize c (key : string) (dflt : Z) : result Z NatsError :=
  let? n := parse_number c key in Ok (default dflt n).

Definition parse_bool c (key : string) : result bool NatsError :=
  match get c key with
  | Some raw => if bool_decide (raw = "true") then Ok true
                else if bool_decide (raw = "false") then Ok false else Err (BadBool key raw)
  | None => Ok false
  end.

Definition selected c : list string :=
  ((if is_some (get c "creds") then ["creds"] else [])
   ++ (if is_some (get c "jwt") || is_some (get c "nkey-seed") then ["jwt/nkey-seed"] else [])
   ++ (if is_some (get c "username") || is_some (get c "password") then ["username/password"] else [])
   ++ (if is_some (get c "token") then ["token"] else []))%list.

Definition parse_auth c : result NatsAuth NatsError :=
  if bool_decide (1 < List.length (selected c))%nat then Err (ConflictingCredentials (selected c))
  else match get c "creds" with
       | Some path => Ok (CredsFile path)
       | None =>
           match get c "jwt", get c "nkey-seed" with
           | Some jwt, Some seed => Ok (JwtNkey jwt seed)
           | Some _, None => Err (Requires "jwt" "nkey-seed")
           | None, Some seed => Ok (NkeySeed seed)
           | None, None =>
               match get c "username", get c "password" with
               | Some u, Some p => Ok (UserPassword u p)
               | Some _, None => Err (Requires "username" "password")
               | None, Some _ => Err (Requires "password" "username")
               | None, None => match get c "token" with Some t => Ok (AuthToken t) | None => Ok Anonymous end
               end
           end
       end.

Definition parse_limits c : result Limits NatsError :=
  let? mif := parse_usize c "max-in-flight" DEFAULT_MAX_IN_FLIGHT in
  let? cap := parse_usize c "subscription-capacity" DEFAULT_SUBSCRIPTION_CAPACITY in
  let? bytes := parse_usize c "subscription-capacity-bytes" DEFAULT_SUBSCRIPTION_CAPACITY_BYTES in
  let? pending := parse_number c "max-ack-pending" in
  let? deliver := parse_number c "max-deliver" in
  ensure! negb (mif =? 0)%Z else MustBePositive "max-in-flight" in
  ensure! negb (cap =? 0)%Z else MustBePositive "subscription-capacity" in
  ensure! negb (bytes =? 0)%Z else MustBePositive "subscription-capacity-bytes" in
  ensure! (mif <=? NATS_MAX_PERMITS)%Z else TooLarge "max-in-flight" mif in
  ensure! (cap <=? NATS_MAX_PERMITS)%Z else TooLarge "subscription-capacity" cap in
  Ok {| max_in_flight := mif; subscription_capacity := cap; subscription_capacity_bytes := bytes;
        max_ack_pending := pending; max_deliver := deliver |}.

Definition policy_of c : PolicySpec :=
  {| spec_subjects := get_list c "subject-allow"; spec_streams := get_list c "stream-allow";
     spec_buckets := get_list c "bucket-allow" |}.

Definition from_map c : result NatsConfig NatsError :=
  let servers := get_list c "servers" in
  ensure! negb (bool_decide (servers = [])) else NoServers in
  ensure! negb (existsb (RustStr.contains "@") servers) else CredentialsInServers in
  let? mode := match get c "ack-mode" with
               | None => Ok Auto
               | Some v => if bool_decide (v = "auto") then Ok Auto
                           else if bool_decide (v = "manual") then Ok Manual else Err (BadAckMode v)
               end in
  let? timeout := parse_number c "request-timeout-ms" in
  let? limits := parse_limits c in
  let? tls_first := parse_bool c "tls-first" in
  let tls := {| ca := get c "tls-ca"; cert := get c "tls-cert"; tls_key := get c "tls-key"; first := tls_first |} in
  ensure! Bool.eqb (is_some (cert tls)) (is_some (tls_key tls)) else TlsPair in
  let? auth := parse_auth c in
  Ok {| servers := servers; client_name := get c "name"; jetstream_domain := get c "jetstream-domain";
        inbox_prefix := get c "inbox-prefix"; auth := auth; tls := tls; policy := policy_of c;
        limits := limits; ack_mode := mode; request_timeout := timeout |}.
End reader.

(** ** Subscriptions *)

Record JetStreamSubscriptionConfig := {
  js_binding : string; stream : string; filter_subject : string; deliver_policy : string;
  js_group : option string;
}.
Record CoreSubscriptionConfig := { core_binding : string; subject : string; core_group : option string }.
Record KvWatchConfig := { kv_binding : string; bucket : string; kv_filter : string }.

Inductive SubscriptionError :=
  | EmptyGroup | WhitespaceInGroup | GroupContains (bad : string)
  | WhitespaceInSubject | EmptyToken
  | NotASubscription | EmptyStreamOrFilter | UnknownDeliverPolicy (p : string)
  | TooManyColons | EmptySubject | EmptyBucketOrFilter
  | GroupDisagrees (s group : string).

(** [char::is_ascii_whitespace]. *)
Definition is_ascii_whitespace (c : ascii) : bool :=
  existsb (Ascii.eqb c) ["032"; "009"; "010"; "012"; "013"]%char.

Definition validate_queue_group (group : string) (jetstream : bool) : result unit SubscriptionError :=
  if is_empty group then Err EmptyGroup
  else if negb (str_all (λ c, negb (is_ascii_whitespace c)) group) then Err WhitespaceInGroup
  else if jetstream then
    match List.find (λ c, existsb (String.eqb c) ["."; "*"; ">"; "/"; "\"]) (chars group) with
    | Some bad => Err (GroupContains bad)
    | None => Ok ()
    end
  else Ok ().

Definition validate_subject (s : string) : result unit SubscriptionError :=
  if existsb (λ c, bool_decide (c ∈ whitespace)) (chars s) then Err WhitespaceInSubject
  else if existsb is_empty (split "." s) then Err EmptyToken
  else Ok ().

(** [splitn(n, ':')] of a string: at most [n] parts, the last with what is left. *)
Fixpoint splitn (n : nat) (s : string) : list string :=
  match n with
  | O => []
  | S O => [s]
  | S n => match split_once ":" s with Some (a, b) => a :: splitn n b | None => [s] end
  end.

Definition DELIVER_POLICIES : list string := ["all"; "last"; "last-per-subject"; "new"].

Definition parse_jetstream_entry (binding entry : string) : result JetStreamSubscriptionConfig SubscriptionError :=
  match splitn 4 entry with
  | s :: f :: rest =>
      ensure! negb (is_empty s || is_empty f) else EmptyStreamOrFilter in
      let? _ := validate_subject f in
      let p := match rest with [] => "new" | p :: _ => if is_empty p then "new" else p end in
      ensure! bool_decide (p ∈ DELIVER_POLICIES) else UnknownDeliverPolicy p in
      let group := rest !! 1%nat in
      let? _ := match group with Some g => validate_queue_group g true | None => Ok () end in
      Ok {| js_binding := binding; stream := s; filter_subject := f; deliver_policy := p; js_group := group |}
  | _ => Err NotASubscription
  end.

Fixpoint parse_each {A} (f : string → result A SubscriptionError) (entries : list string) :
    result (list A) SubscriptionError :=
  match entries with
  | [] => Ok []
  | e :: entries => let? x := f e in let? l := parse_each f entries in Ok (x :: l)
  end.

(** An earlier entry of the same consumer that asks for another delivery. *)
Definition disagrees (sub earlier : JetStreamSubscriptionConfig) : bool :=
  match js_group sub with
  | None => false
  | Some group =>
      bool_decide (stream earlier = stream sub) && bool_decide (js_group earlier = Some group)
      && (bool_decide (filter_subject earlier ≠ filter_subject sub)
          || bool_decide (deliver_policy earlier ≠ deliver_policy sub))
  end.
Fixpoint check_groups (earlier rest : list JetStreamSubscriptionConfig) : result unit SubscriptionError :=
  match rest with
  | [] => Ok ()
  | sub :: rest =>
      if existsb (disagrees sub) earlier then Err (GroupDisagrees (stream sub) (default "" (js_group sub)))
      else check_groups (earlier ++ [sub]) rest
  end.

Definition parse_jetstream_subscriptions (binding raw : string) :
    result (list JetStreamSubscriptionConfig) SubscriptionError :=
  let? subs := parse_each (parse_jetstream_entry binding) (pieces raw) in
  let? _ := check_groups [] subs in
  Ok subs.

Definition colons (s : string) : nat := (List.length (split ":" s) - 1)%nat.

Definition parse_core_entry (binding entry : string) : result CoreSubscriptionConfig SubscriptionError :=
  ensure! bool_decide (colons entry ≤ 1)%nat else TooManyColons in
  let parts := splitn 2 entry in
  let s := default "" (head parts) in
  ensure! negb (is_empty s) else EmptySubject in
  let? _ := validate_subject s in
  let group := parts !! 1%nat in
  let? _ := match group with Some g => validate_queue_group g false | None => Ok () end in
  Ok {| core_binding := binding; subject := s; core_group := group |}.
Definition parse_core_subscriptions (binding raw : string) :
    result (list CoreSubscriptionConfig) SubscriptionError :=
  parse_each (parse_core_entry binding) (pieces raw).

Definition parse_kv_entry (binding entry : string) : result KvWatchConfig SubscriptionError :=
  let '(b, f) := match split_once ":" entry with Some p => p | None => (entry, ">") end in
  ensure! negb (is_empty b || is_empty f) else EmptyBucketOrFilter in
  let? _ := validate_subject f in
  Ok {| kv_binding := binding; bucket := b; kv_filter := f |}.
Definition parse_kv_watches (binding raw : string) : result (list KvWatchConfig) SubscriptionError :=
  parse_each (parse_kv_entry binding) (pieces raw).

(** ** Trimming a list before or after it is split *)

(** No whitespace character goes on with the first byte of another. *)
Definition first_byte (s : string) : option ascii := match s with String c _ => Some c | "" => None end.
Definition starts_whitespace (s : string) : bool :=
  existsb (λ w, bool_decide (first_byte w = first_byte s)) whitespace.

Lemma whitespace_no_overlap x y : x ≠ "" → y ≠ "" → x +:+ y ∈ whitespace → starts_whitespace y = false.
Proof.
  intros Hx Hy Hw.
  assert (forallb (λ w, forallb (λ n, negb (starts_whitespace (str_drop n w)))
    (seq 1 (String.length w - 1))) whitespace = true) as HF by (vm_compute; done).
  rewrite forallb_elem in HF. specialize (HF _ Hw). rewrite forallb_elem in HF.
  specialize (HF (String.length x)). rewrite str_drop_app, negb_true_iff in HF. apply HF.
  rewrite str_length_app. apply elem_of_seq. destruct x, y; simpl; try done; lia.
Qed.

Lemma strip_ws_starts s r : strip_ws s = Some r → starts_whitespace s = true.
Proof.
  rewrite strip_ws_Some. intros (w & Hw & ->). unfold starts_whitespace. apply existsb_elem. exists w. split; [done|].
  apply bool_decide_eq_true. pose proof (whitespace_nonempty w Hw). by destruct w.
Qed.

(** A blank string is empty or begins with a whitespace character. *)
Lemma blank_starts t : trim_start t = "" → t = "" ∨ starts_whitespace t = true.
Proof.
  rewrite trim_start_unfold. destruct (strip_ws t) eqn:E; [|by left]. intros _. right. by eapply strip_ws_starts.
Qed.

Lemma strip_ws_app_blank x t :
  x ≠ "" → trim_start t = "" → strip_ws x = None → strip_ws (x +:+ t) = None.
Proof.
  intros Hx Ht Hn. destruct (strip_ws (x +:+ t)) as [r|] eqn:E; [|done]. exfalso.
  apply strip_ws_Some in E as (w & Hw & Heq).
  destruct (str_prefixes _ _ _ _ Heq) as [H|H]; apply starts_with_spec in H as [u Hu]; subst.
  - (* the character goes past [x] *)
    rewrite str_app_assoc in Heq. apply str_app_inj_l in Heq. subst t.
    destruct (decide (u = "")) as [->|Hu].
    { rewrite str_app_nil_r in Hw. assert (strip_ws x = Some "") as E; [|congruence].
      apply strip_ws_Some. exists x. by rewrite str_app_nil_r. }
    pose proof (whitespace_no_overlap x u Hx Hu Hw) as Hs.
    destruct u as [|a u]; [done|]. rewrite str_app_cons in Ht. apply blank_starts in Ht as [Ht|Ht]; [done|].
    unfold starts_whitespace in *. simpl first_byte in *. congruence.
  - assert (strip_ws (w +:+ u) = Some u) as E; [|congruence]. apply strip_ws_Some. eauto.
Qed.

Lemma trim_start_app_blank x t :
  trim_start t = "" → trim_start x ≠ "" → trim_start (x +:+ t) = trim_start x +:+ t.
Proof.
  intros Ht. induction x as [x E|x r E IH] using trim_start_ind; rewrite (trim_start_unfold x), E.
  - intros Hx. by rewrite trim_start_unfold, (strip_ws_app_blank x t).
  - intros Hr. rewrite trim_start_unfold, (strip_ws_app _ _ _ E). by apply IH.
Qed.

Lemma trim_end_app_blank x t : trim_start t = "" → trim_end (x +:+ t) = trim_end x.
Proof.
  intros Ht. induction x as [|c x IH].
  - rewrite str_app_nil. destruct t as [|c t]; [done|]. cbn [trim_end]. by rewrite Ht.
  - rewrite str_app_cons. cbn [trim_end]. rewrite <-str_app_cons, IH.
    destruct (decide (trim_start (String c x) = "")) as [E|E].
    + by rewrite trim_start_blank, Ht, E.
    + rewrite trim_start_app_blank by done. by destruct (trim_start (String c x)).
Qed.

Lemma trim_app_blank x t : trim_start t = "" → trim (x +:+ t) = trim x.
Proof.
  intros Ht. unfold trim. destruct (decide (trim_start x = "")) as [E|E].
  - by rewrite trim_start_blank, Ht, E.
  - by rewrite trim_start_app_blank, trim_end_app_blank.
Qed.

(** What [trim] drops has no comma. *)
Lemma trim_start_split s : ∃ u, s = u +:+ trim_start s ∧ lacks "," u = true ∧ trim_start u = "".
Proof.
  induction s as [s E|s r E (u & Hr & Hl & Hu)] using trim_start_ind; rewrite (trim_start_unfold s), E.
  - exists "". by rewrite str_app_nil.
  - apply strip_ws_Some in E as (w & Hw & ->). exists (w +:+ u). rewrite str_app_assoc, <-Hr. split; [done|].
    assert (lacks "," w = true) as Hlw.
    { assert (forallb (lacks ",") whitespace = true) as HF by (vm_compute; done). rewrite forallb_elem in HF. by apply HF. }
    split; [by rewrite lacks_app, Hlw, Hl|]. rewrite trim_start_unfold.
    assert (strip_ws (w +:+ u) = Some u) as -> by (apply strip_ws_Some; eauto). done.
Qed.

Lemma split_app_front d u s : lacks d u = true → ∃ h k, split d s = h :: k ∧ split d (u +:+ s) = (u +:+ h) :: k.
Proof.
  intros Hu. destruct (split d s) as [|h k] eqn:E; [by apply split_nonempty in E|].
  exists h, k. split; [done|]. revert Hu. induction u as [|c u IH]; [by rewrite !str_app_nil|].
  unfold lacks. simpl. intros [Hc Hu]%andb_true_iff. rewrite !str_app_cons. simpl.
  apply negb_true_iff in Hc. by rewrite Hc, IH.
Qed.

Lemma split_app_end d s t :
  lacks d t = true → ∃ i l, split d s = (i ++ [l])%list ∧ split d (s +:+ t) = (i ++ [l +:+ t])%list.
Proof.
  intros Ht. induction s as [|c s (i & l & E & E')].
  - exists [], "". split; [done|]. rewrite !str_app_nil. by apply split_lacks.
  - rewrite str_app_cons. simpl. destruct (Ascii.eqb c d).
    + exists ("" :: i), l. by rewrite E, E'.
    + rewrite E, E'. destruct i as [|h i]; simpl; [exists [], (String c l)|exists (String c h :: i), l]; done.
Qed.

Lemma trim_front u h : trim_start u = "" → trim (u +:+ h) = trim h.
Proof. intros Hu. unfold trim. by rewrite trim_start_blank. Qed.

(** A list reads the same with the whitespace around it dropped. *)
Lemma pieces_trim s : pieces (trim s) = pieces s.
Proof.
  unfold pieces. f_equal. unfold trim at 2.
  destruct (trim_start_split s) as (u & Hs & Hl & Hu). rewrite Hs at 2.
  destruct (split_app_front "," u (trim_start s) Hl) as (h & k & Eh & ->). 
  trans (trim <$> split "," (trim_start s)); [|rewrite Eh; simpl; by rewrite trim_front].
  destruct (trim_end_split (trim_start s)) as (t & Ht & Hb). set (x := trim_end (trim_start s)) in *.
  rewrite Ht. assert (lacks "," t = true) as Hlt.
  { destruct (trim_start_split t) as (u' & Et & Hl' & _). rewrite Hb, str_app_nil_r in Et. by rewrite Et. }
  destruct (split_app_end "," x t Hlt) as (i & l & -> & ->). rewrite !fmap_app. simpl. by rewrite trim_app_blank.
Qed.

(** ** The schema *)

Definition nats_declarations : list Declaration :=
  (((Classify Host <$> host_owned) ++ (Classify HostCeiling <$> host_ceiling))
   ++ (Classify Workload <$> workload_owned) ++ [Close])%list.

Lemma binding_schema_build : binding_schema = build nats_declarations.
Proof.
  unfold binding_schema, and_host_ceiling_keys, with_host_owned_keys.
  change empty_schema with (build []). destruct (builders_declare [] host_owned [] Host) as (-> & _ & _).
  rewrite app_nil_l. destruct (builders_declare (Classify Host <$> host_owned) host_ceiling [] HostCeiling) as (-> & _ & _).
  by destruct (builders_declare ((Classify Host <$> host_owned) ++ (Classify HostCeiling <$> host_ceiling))
    workload_owned [] Workload) as (_ & _ & ->).
Qed.

Lemma binding_schema_ok : schema_ok binding_schema.
Proof. rewrite binding_schema_build. apply build_ok. Qed.

Lemma schema_canonical k : canonical binding_schema k = canonical_key k.
Proof.
  unfold canonical. assert (aliases binding_schema = ∅) as -> by (vm_compute; reflexivity).
  by rewrite lookup_empty.
Qed.

(** Every row of the table is classified as it says, in each of its spellings, and
    nothing else is. *)
Lemma schema_rows row k : row ∈ KEYS → k ∈ spellings row → ownership binding_schema k = key_ownership row.
Proof.
  assert (forallb (λ row, forallb (λ k, bool_decide (ownership binding_schema k = key_ownership row)) (spellings row))
    KEYS = true) as HF by (vm_compute; reflexivity).
  rewrite forallb_elem in HF. intros Hr Hk. specialize (HF row Hr). rewrite forallb_elem in HF.
  exact (bool_decide_eq_true_1 _ (HF k Hk)).
Qed.

(** ** Grants *)

Definition GRANTS : list string := ["subject-allow"; "stream-allow"; "bucket-allow"].

Lemma grant_key key :
  key ∈ GRANTS → find key = Some (ceiling key) ∧ canonical_key key = key ∧ ownership binding_schema key = HostCeiling.
Proof.
  assert (Forall (λ key, find key = Some (ceiling key) ∧ canonical_key key = key ∧
    ownership binding_schema key = HostCeiling) GRANTS) as HF
    by (repeat (apply Forall_cons_2; [split_and!; vm_compute; reflexivity|]); apply Forall_nil_2).
  intros Hk. exact (Forall_member _ _ _ HF Hk).
Qed.

Section grants.
Context `{HashOrder}.
Implicit Types c : Config.

(** The reader and the schema find the same entry. *)
Lemma get_list_lookup c key :
  key ∈ GRANTS → get_list c key = default [] (pieces <$> lookup_key binding_schema c key).
Proof.
  intros (Hf & Hc & _)%grant_key. unfold get_list, get. rewrite Hf. simpl.
  unfold get_spelling, lookup_key, find_key.
  assert (filter (λ e, canonical_key e.1 = key) (walk c)
    = filter (λ e, canonical binding_schema e.1 = canonical binding_schema key) (walk c)) as ->.
  { apply list_filter_iff. intros e. by rewrite (schema_canonical e.1), (schema_canonical key), Hc. }
  destruct (head _) as [e|]; [|done]. simpl. destruct (is_empty (trim e.2)) eqn:E; simpl.
  - apply is_empty_spec in E. by rewrite <-pieces_trim, E.
  - by rewrite pieces_trim.
Qed.

Lemma lookup_key_Some c key v :
  lookup_key binding_schema c key = Some v → ∃ k, c !! k = Some v ∧ canonical binding_schema k = canonical binding_schema key.
Proof.
  unfold lookup_key. destruct (find_key binding_schema c key) as [[k w]|] eqn:E; [|done].
  intros [= <-]. apply find_key_Some in E as [Hc He]. eauto.
Qed.

(** In a layer that spells each key once, looking a key up gives its entry. *)
Lemma lookup_key_one c key k v :
  one_spelling binding_schema c → identifies binding_schema k = true → c !! k = Some v →
  canonical binding_schema k = canonical binding_schema key → lookup_key binding_schema c key = Some v.
Proof.
  intros Hone Hi Hk Hc. destruct (lookup_key binding_schema c key) as [w|] eqn:E.
  - apply lookup_key_Some in E as (k' & Hk' & Hc'). assert (k = k') as <-; [|congruence].
    apply Hone; [eauto..|]. unfold same. rewrite Hi. congruence.
  - rewrite lookup_key_None in E. by destruct (E k).
Qed.

Section deny.
Context `{SemverLib} (ps : PluginBindingSet) (ints : list WitInterface).
Context (log : list Finding) (m : gmap string Config) (b : string) (r : Config).
Context (Hdeny : workload_config ps = Deny).
Context (Hres : resolve_by_name binding_schema ps narrows ints = (log, Ok m)) (Hb : m !! b = Some r).
(** No default of the host is a grant. *)
Context (Hbundles : ∀ bu e, bu ∈ default_bundles ps → e ∈ entries bu → canonical_key e.1 ∉ GRANTS).
Let layer := host_layer_with binding_schema ps b.

(** A grant is the operator's, or narrowed from it. *)
Lemma grant_origin key :
  key ∈ GRANTS →
  get_list r key = [] ∨ get_list r key = get_list layer key ∨
  ∃ host value, narrows key host value = true ∧ get_list r key = pieces value ∧ get_list layer key = pieces host.
Proof.
  intros Hg. destruct (grant_key key Hg) as (_ & Hck & Ho). rewrite !get_list_lookup by done.
  destruct (lookup_key binding_schema r key) as [v|] eqn:Ev; [|by left]. right.
  apply lookup_key_Some in Ev as (k & Hk & Ec). pose proof binding_schema_ok as Hok.
  assert (ownership binding_schema (canonical binding_schema k) = HostCeiling) as Ho'.
  { rewrite ownership_canonical by done. revert Ho. unfold ownership. by rewrite <-Ec. }
  assert (identifies binding_schema k = true) as Hi.
  { apply identifies_iff; [done|]. right. apply elem_of_dom. revert Ho'. unfold ownership.
    rewrite canonical_idemp by done. by destruct (owners binding_schema !! _). }
  assert (layer !! k = Some v → default [] (pieces <$> Some v) = default [] (pieces <$> lookup_key binding_schema layer key)) as Hsame.
  { intros Hl. by rewrite (lookup_key_one layer key k v); [|apply host_layer_one|..]. }
  assert (¬ bundled binding_schema ps layer k v) as Hnb.
  { intros (_ & bu & Hbu & He & _). apply (Hbundles bu (k, v) Hbu He). simpl.
    by rewrite <-schema_canonical, Ec, schema_canonical, Hck. }
  destruct (deny_origin binding_schema Hok ps narrows ints log m b r k v Hdeny Hres Hb) as (_ & Hhost & Hceil).
  assert (ownership_of binding_schema ps k = Host ∨ ownership_of binding_schema ps k = HostCeiling) as [Hown|Hown].
  { unfold ownership_of. destruct (existsb _ _); [by left|right; done]. }
  - destruct (Hhost Hown Hk) as [?|?]; [left; auto|done].
  - destruct (Hceil Hown Hk) as [?|[?|(host & Hl & Hn)]]; [left; auto|done|right].
    exists host, v. rewrite Ec, schema_canonical, Hck in Hn. split; [done|].
    assert (lookup_key binding_schema layer key = Some host) as ->; [|done].
    rewrite <-Hl. unfold lookup_key, find_key. by rewrite Ec.
Qed.
End deny.
End grants.

(** Every pattern of one list is in the other, or contained by one there. *)
Definition within (theirs hosts : list NatsSubjectPattern) : Prop :=
  ∀ p, p ∈ theirs → p ∈ hosts ∨ well_formed p ∧ ∃ c, c ∈ hosts ∧ contains c p = true.

Lemma within_matches theirs hosts t :
  within theirs hosts → Forall concrete t →
  existsb (λ p, matches_parts p t) theirs = true → existsb (λ p, matches_parts p t) hosts = true.
Proof.
  intros Hw Ht (p & Hp & Hm)%existsb_elem. apply existsb_elem.
  destruct (Hw p Hp) as [?|(Hwf & c & Hc & Hcon)]; [eauto|]. exists c. split; [done|].
  apply contains_iff in Hcon as [_ Hi]; auto.
Qed.

Lemma within_contains theirs hosts q :
  within theirs hosts → well_formed q →
  existsb (λ g, contains g q) theirs = true → existsb (λ g, contains g q) hosts = true.
Proof.
  intros Hw Hq (p & Hp & Hm)%existsb_elem. apply existsb_elem.
  destruct (Hw p Hp) as [?|(Hwf & c & Hc & Hcon)]; [eauto|]. exists c. split; [done|].
  apply contains_iff in Hcon as [_ Hi]; [|done]. apply contains_iff in Hm as [Hv Hi']; [|done].
  apply contains_iff; auto.
Qed.

Lemma narrows_subjects host value :
  narrows "subject-allow" host value = true → within (parse <$> pieces value) (parse <$> pieces host).
Proof.
  unfold narrows. rewrite bool_decide_true, forallb_elem by done. intros Hn p Hp. right.
  split; [apply list_elem_of_fmap in Hp as (x & -> & _); apply parse_well_formed|].
  specialize (Hn p Hp). by apply existsb_elem in Hn.
Qed.

Lemma narrows_names key host value :
  key = "stream-allow" ∨ key = "bucket-allow" → narrows key host value = true → pieces value ⊆ pieces host.
Proof.
  intros Hk Hn x Hx. assert (forallb (λ v, bool_decide (v ∈ pieces host)) (pieces value) = true) as Hf.
  { by destruct Hk as [-> | ->]. }
  rewrite forallb_elem in Hf. exact (bool_decide_eq_true_1 _ (Hf x Hx)).
Qed.

Lemma granted_mono (l k : list string) x :
  l ⊆ k → granted (parse <$> l) x = Ok () → granted (parse <$> k) x = Ok ().
Proof.
  intros Hlk. unfold granted. destruct (existsb _ (parse <$> l)) eqn:E; [|done]. intros _.
  apply existsb_elem in E as (p & (y & -> & Hy)%list_elem_of_fmap & Hm).
  assert (existsb (λ p, matches p x) (parse <$> k) = true) as ->; [|done].
  apply existsb_elem. exists (parse y). split; [apply list_elem_of_fmap; eauto|done].
Qed.

(** What a publish is checked for, besides the grant. *)
Lemma check_subject_Ok e x :
  check_subject e x = Ok () ↔
  x ≠ "" ∧ Forall concrete (split "." x) ∧ is_reserved e x = false ∧ granted (subject_allow e) x = Ok ().
Proof.
  unfold check_subject.
  assert (Forall concrete (split "." x) ↔ existsb is_empty (split "." x) = false ∧
    existsb (λ t, bool_decide (t = "*") || bool_decide (t = ">")) (split "." x) = false) as Hc.
  { rewrite !existsb_elem_false. pose proof (split_lacks_all "." x) as Hl. split.
    - intros Hf. split; intros y Hy; destruct (Forall_member _ _ _ Hf Hy) as (? & ? & ? & _);
        [destruct (is_empty y) eqn:E; [by apply is_empty_spec in E|done]|by rewrite !bool_decide_false].
    - intros [He Hw]. apply List.Forall_forall. intros y Hy%list_elem_of_In. specialize (He y Hy). specialize (Hw y Hy).
      apply orb_false_iff in Hw as [?%bool_decide_eq_false ?%bool_decide_eq_false].
      split_and!; [by intros ->|done|done|exact (Forall_member _ _ _ Hl Hy)]. }
  rewrite Hc. destruct (is_empty x) eqn:Ee; simpl; [apply is_empty_spec in Ee; naive_solver|].
  assert (x ≠ "") as Hx by (by intros ->).
  destruct (existsb is_empty _), (existsb _ (split "." x)), (is_reserved e x); naive_solver.
Qed.

(** C34: Under [deny], whatever the workload wrote, the grant its calls are checked
    against is within the one the operator declared: a subject, a subscription, a
    stream or a bucket it is allowed is one the operator's own grant allows.  (Default
    bundles that carry no grants of their own, as those of the repository do not.) *)
Theorem grant_stays_within_the_operators `{HashOrder, SemverLib} ps ints log m b r lattice :
  workload_config ps = Deny →
  resolve_by_name binding_schema ps narrows ints = (log, Ok m) → m !! b = Some r →
  (∀ bu e, bu ∈ default_bundles ps → e ∈ entries bu → canonical_key e.1 ∉ GRANTS) →
  let theirs := new_engine (policy_of r) lattice in
  let hosts := new_engine (policy_of (host_layer_with binding_schema ps b)) lattice in
  ∀ x, (check_subject theirs x = Ok () → check_subject hosts x = Ok ()) ∧
       (check_subscription theirs x = Ok () → check_subscription hosts x = Ok ()) ∧
       (check_stream theirs x = Ok () → check_stream hosts x = Ok ()) ∧
       (check_bucket theirs x = Ok () → check_bucket hosts x = Ok ()).
Proof.
  intros Hd Hr Hb Hbu theirs hosts x.
  pose proof (grant_origin ps ints log m b r Hd Hr Hb Hbu) as Ho.
  assert (within (subject_allow theirs) (subject_allow hosts)) as Hsub.
  { destruct (Ho "subject-allow" ltac:(set_solver)) as [E|[E|(h & v & Hn & Er & El)]]; simpl.
    - rewrite E. intros p ?%not_elem_of_nil. done.
    - rewrite E. intros p Hp. by left.
    - rewrite Er, El. by apply narrows_subjects. }
  assert (∀ key, key = "stream-allow" ∨ key = "bucket-allow" →
    get_list r key ⊆ get_list (host_layer_with binding_schema ps b) key) as Hnames.
  { intros key Hk. destruct (Ho key ltac:(set_solver)) as [E|[E|(h & v & Hn & Er & El)]]; rewrite ?E; [set_solver..|].
    rewrite Er, El. by apply (narrows_names key). }
  split_and!.
  - rewrite !check_subject_Ok. intros (Hx & Ht & Hres & Hg). split_and!; [done..|]. revert Hg. unfold granted.
    destruct (existsb (λ p, matches p x) (subject_allow theirs)) eqn:E; [|done]. intros _.
    pose proof (within_matches _ _ _ Hsub Ht E) as E'. by change (existsb (λ p, matches p x) (subject_allow hosts) = true) in E';
      rewrite E'.
  - unfold check_subscription. change (is_reserved hosts x) with (is_reserved theirs x).
    change (lattice_prefixes hosts) with (lattice_prefixes theirs). destruct (_ || _); [done|].
    destruct (existsb _ (subject_allow theirs)) eqn:E; [|done]. intros _.
    by rewrite (within_contains _ _ _ Hsub (parse_well_formed x) E).
  - unfold check_stream. destruct (starts_with "$" x); [done|].
    destruct (find_map _ BUCKET_BACKING_STREAM_PREFIXES) as [bk|].
    + destruct (existsb (λ p, matches p bk) (bucket_allow theirs)) eqn:E; [|done]. intros _.
      assert (granted (bucket_allow hosts) bk = Ok ()) as Hg.
      { apply (granted_mono (get_list r "bucket-allow")); [by apply Hnames; right|]. unfold granted.
        change (parse <$> get_list r "bucket-allow") with (bucket_allow theirs). by rewrite E. }
      unfold granted in Hg. by destruct (existsb _ (bucket_allow hosts)).
    + apply (granted_mono (get_list r "stream-allow")). by apply Hnames; left.
  - apply (granted_mono (get_list r "bucket-allow")). by apply Hnames; right.
Qed.

(** ** Limits *)

Lemma NATS_MAX_PERMITS_value : NATS_MAX_PERMITS = 2305843009213693951%Z.
Proof. vm_compute. reflexivity. Qed.

Section limits.
Context `{HashOrder}.

Lemma parse_usize_bounds c key dflt n :
  (0 ≤ dflt ≤ u64_MAX)%Z → parse_usize c key dflt = Ok n → (0 ≤ n ≤ u64_MAX)%Z.
Proof.
  intros Hd. unfold parse_usize, parse_number. destruct (get c key) as [raw|]; [|intros [= <-]; done].
  destruct (parse_uint u64_MAX raw) as [z|] eqn:E; [|done]. intros [= <-]. simpl.
  apply parse_uint_bounds in E; unfold u64_MAX in *; lia.
Qed.

Lemma parse_limits_bounds c l :
  parse_limits c = Ok l →
  (1 ≤ max_in_flight l ≤ NATS_MAX_PERMITS)%Z ∧ (1 ≤ subscription_capacity l ≤ NATS_MAX_PERMITS)%Z ∧
  (1 ≤ subscription_capacity_bytes l ≤ u64_MAX)%Z.
Proof.
  unfold parse_limits.
  destruct (parse_usize c "max-in-flight" _) as [mif|] eqn:E1; [|done].
  destruct (parse_usize c "subscription-capacity" _) as [cap|] eqn:E2; [|done].
  destruct (parse_usize c "subscription-capacity-bytes" _) as [bytes|] eqn:E3; [|done].
  destruct (parse_number c "max-ack-pending"), (parse_number c "max-deliver"); try done.
  apply parse_usize_bounds in E1, E2, E3; [|unfold u64_MAX, DEFAULT_SUBSCRIPTION_CAPACITY_BYTES,
    DEFAULT_SUBSCRIPTION_CAPACITY, DEFAULT_MAX_IN_FLIGHT; lia..].
  destruct (Z.eqb_spec mif 0), (Z.eqb_spec cap 0), (Z.eqb_spec bytes 0); simpl; try done.
  destruct (Z.leb_spec mif NATS_MAX_PERMITS), (Z.leb_spec cap NATS_MAX_PERMITS); try done.
  intros [= <-]. simpl. lia.
Qed.

(** What is left to derive is at least one delivery, at most twice the calls in
    flight and the channel's capacity; and a warning is given exactly when the
    deliveries that may be held up take more than the bytes allowed for them. *)
Theorem derived_ack_pending_is_bounded c config size :
  from_map c = Ok config → max_ack_pending (limits config) = None →
  let l := limits config in
  let n := effective_max_ack_pending l size in
  (1 ≤ n ≤ 2 * max_in_flight l)%Z ∧ (n ≤ subscription_capacity l)%Z ∧
  (is_some (ack_pending_advisory l size) = true ↔ (subscription_capacity_bytes l < n * Z.max size 1)%Z).
Proof.
  unfold from_map. destruct (negb (bool_decide _)); [|done]. destruct (negb (existsb _ _)); [|done].
  destruct (match get c "ack-mode" with Some _ => _ | None => _ end); [|done].
  destruct (parse_number c "request-timeout-ms"); [|done].
  destruct (parse_limits c) as [l|] eqn:El; [|done]. destruct (parse_bool c "tls-first"); [|done].
  destruct (Bool.eqb _ _); [|done]. destruct (parse_auth c); [|done]. intros [= <-]. simpl. intros Hnone.
  apply parse_limits_bounds in El as (Hm & Hc & Hb). rewrite NATS_MAX_PERMITS_value in *.
  unfold effective_max_ack_pending, ack_pending_advisory, max_ack_pending_by_bytes. rewrite Hnone.
  set (per := Z.max size 1). assert (1 ≤ per)%Z as Hper by lia.
  assert (1 ≤ by_count l ≤ subscription_capacity l)%Z as Hbc by (unfold by_count, saturating_mul, u64_MAX; lia).
  assert (by_count l ≤ 2 * max_in_flight l)%Z as Hb2 by (unfold by_count, saturating_mul; lia).
  pose proof (Z.div_pos (subscription_capacity_bytes l) per ltac:(lia) ltac:(lia)) as Hq.
  set (q := (subscription_capacity_bytes l / per)%Z) in *.
  assert (∀ n, subscription_capacity_bytes l < n * per ↔ q < n)%Z as Hdiv.
  { intros n. rewrite (Z.mul_comm n). split; [apply Z.div_lt_upper_bound; lia|].
    intros Hn. apply Z.lt_nge. intros Hge%Z.div_le_lower_bound; [fold q in Hge; lia|lia]. }
  unfold MIN_DERIVED_MAX_ACK_PENDING, to_i64, i64_MAX in *. split_and!; [lia..|].
  rewrite Hdiv. destruct (Z.leb_spec (Z.min 16 (by_count l)) q); simpl;
    (split; [try done; intros _; lia|intros Hlt; try done; exfalso; lia]).
Qed.
End limits.

(** ** Subscriptions *)

(** Two entries that name one consumer ask it for one thing. *)
Definition one_consumer (a b : JetStreamSubscriptionConfig) : Prop :=
  ∀ g, js_group a = Some g → js_group b = Some g → stream a = stream b →
    filter_subject a = filter_subject b ∧ deliver_policy a = deliver_policy b.

Lemma disagrees_false a b : disagrees a b = false ↔ one_consumer a b.
Proof.
  unfold disagrees, one_consumer. destruct (js_group a) as [g|]; [|naive_solver].
  rewrite !andb_false_iff, orb_false_iff, !bool_decide_eq_false.
  destruct (decide (stream b = stream a)), (decide (js_group b = Some g)),
    (decide (filter_subject b = filter_subject a)), (decide (deliver_policy b = deliver_policy a)); naive_solver.
Qed.

Lemma one_consumer_sym a b : one_consumer a b → one_consumer b a.
Proof. unfold one_consumer. naive_solver. Qed.

Lemma check_groups_iff earlier rest :
  (∀ a b, a ∈ earlier → b ∈ earlier → one_consumer a b) →
  check_groups earlier rest = Ok () ↔
  ∀ a b, a ∈ (earlier ++ rest)%list → b ∈ (earlier ++ rest)%list → one_consumer a b.
Proof.
  revert earlier. induction rest as [|x rest IH]; intros earlier He; simpl; [by rewrite (right_id_L [] (++))|].
  replace (earlier ++ x :: rest)%list with ((earlier ++ [x]) ++ rest)%list by (by rewrite <-(assoc_L (++))).
  destruct (existsb (disagrees x) earlier) eqn:Ex.
  - split; [done|]. intros Hall. apply existsb_elem in Ex as (y & Hy & Hd). exfalso.
    assert (one_consumer x y) as Ho by (apply Hall; set_solver). apply disagrees_false in Ho. congruence.
  - apply IH. rewrite existsb_elem_false in Ex. intros a b.
    rewrite !elem_of_app, !list_elem_of_singleton. intros [Ha|Ha] [Hb|Hb]; subst; [by apply He|..|done].
    + apply one_consumer_sym, disagrees_false. auto.
    + apply disagrees_false. auto.
Qed.

Lemma parse_each_Ok {A} (f : string → result A SubscriptionError) entries xs :
  parse_each f entries = Ok xs ↔ Forall2 (λ e x, f e = Ok x) entries xs.
Proof.
  revert xs. induction entries as [|e entries IH]; intros xs; simpl.
  { split; [by intros [= <-]|by intros ->%Forall2_nil_inv_l]. }
  destruct (f e) as [x|] eqn:Ef.
  - destruct (parse_each f entries) as [ys|] eqn:Ep.
    + split; [intros [= <-]; constructor; [done|by apply IH]|].
      intros (y & zs & Hy & Hz & ->)%Forall2_cons_inv_l. apply IH in Hz. congruence.
    + split; [done|]. intros (y & zs & Hy & Hz & ->)%Forall2_cons_inv_l. apply IH in Hz. congruence.
  - split; [done|]. intros (y & zs & Hy & Hz & ->)%Forall2_cons_inv_l. congruence.
Qed.

(** A stream, a filter of whole tokens, a known policy, a group that can name a
    consumer. *)
Definition servable (s : JetStreamSubscriptionConfig) : Prop :=
  stream s ≠ "" ∧ Forall (λ t, t ≠ "") (split "." (filter_subject s)) ∧ deliver_policy s ∈ DELIVER_POLICIES ∧
  ∀ g, js_group s = Some g → g ≠ "" ∧ ∀ c, c ∈ chars g → c ∉ ["."; "*"; ">"; "/"; "\"].

Lemma parse_jetstream_entry_servable binding entry s :
  parse_jetstream_entry binding entry = Ok s → servable s ∧ js_binding s = binding.
Proof.
  unfold parse_jetstream_entry. destruct (splitn 4 entry) as [|st [|f rest]]; try done.
  destruct (is_empty st) eqn:Es, (is_empty f) eqn:Ef; simpl; try done.
  unfold validate_subject. destruct (existsb _ (chars f)); [done|].
  destruct (existsb is_empty (split "." f)) eqn:Et; [done|].
  set (p := match rest with [] => _ | _ => _ end). destruct (bool_decide_reflect (p ∈ DELIVER_POLICIES)) as [Hp|]; [|done].
  destruct (match rest !! 1%nat with Some _ => _ | None => _ end) as [[]|] eqn:Eg; [|done].
  intros [= <-]. split; [|done]. split_and!; simpl; [by intros ->| |done|].
  - rewrite existsb_elem_false in Et. apply List.Forall_forall. intros t Ht%list_elem_of_In ->. by specialize (Et _ Ht).
  - intros g Hg. rewrite Hg in Eg. unfold validate_queue_group in Eg. destruct (is_empty g) eqn:Ee; [done|].
    destruct (negb _); [done|]. destruct (List.find _ (chars g)) eqn:El; [done|]. split; [by intros ->|].
    intros c Hc%list_elem_of_In Hin. pose proof (List.find_none _ _ El c Hc) as Hn.
    rewrite <-not_true_iff_false in Hn. apply Hn.
    apply (existsb_elem (String.eqb c)). exists c. split; [done|apply String.eqb_refl].
Qed.

(** The subscriptions of a binding are accepted exactly when each is well formed and
    those that share a queue group of a stream, which is one consumer, ask it for the
    same deliveries; each that is accepted can be served. *)
Theorem accepted_subscriptions_can_be_served binding raw subs :
  parse_jetstream_subscriptions binding raw = Ok subs ↔
  Forall2 (λ e s, parse_jetstream_entry binding e = Ok s ∧ servable s) (pieces raw) subs ∧
  ∀ a b, a ∈ subs → b ∈ subs → one_consumer a b.
Proof.
  unfold parse_jetstream_subscriptions.
  assert (∀ es ss, Forall2 (λ e s, parse_jetstream_entry binding e = Ok s ∧ servable s) es ss ↔
    Forall2 (λ e s, parse_jetstream_entry binding e = Ok s) es ss) as Hserv.
  { intros es ss. split; induction 1 as [|e s es' ss' Hs Hf IH]; constructor; try done; [by destruct Hs|].
    split; [done|]. by apply parse_jetstream_entry_servable in Hs as [? _]. }
  rewrite Hserv, <-parse_each_Ok.
  assert (∀ ss, check_groups [] ss = Ok () ↔ ∀ a b, a ∈ ss → b ∈ ss → one_consumer a b) as Hg.
  { intros ss. apply (check_groups_iff []). intros a b ?%not_elem_of_nil. done. }
  destruct (parse_each (parse_jetstream_entry binding) (pieces raw)) as [ss|]; [|naive_solver].
  destruct (check_groups [] ss) as [[]|] eqn:Ec.
  - rewrite Hg in Ec. split; [intros [= <-]; done|]. by intros [[= <-] _].
  - split; [done|]. intros [[= <-] Hall%Hg]. congruence.
Qed.

(** ** Aliases *)

(** The reader takes [creds] and [creds-file] for one key; the schema, which declares
    no aliases, does not.  Under [allow] a workload's [creds-file] is laid beside the
    operator's [creds] instead of over it, and the reader takes the operator's. *)
Theorem alias_does_not_override :
  let ps := with_base (with_workload_config (new_set "wasmcloud-nats") Allow)
    {["creds" := "/host.creds"]} in
  let entry := {| namespace := "wasmcloud"; package := "nats"; interfaces := {["core"]}; version := None;
                  config := {["creds-file" := "/mine.creds"]}; name := None |} in
  canonical binding_schema "creds" ≠ canonical binding_schema "creds-file" ∧
  find "creds" = find "creds-file" ∧
  match (resolve_by_name (H := sorted_order) (H0 := simple_semver) binding_schema ps narrows [entry]).2 with
  | Ok m => (λ r, get (H := sorted_order) r "creds-file") <$> (m !! "") = Some (Some "/host.creds")
  | Err _ => False
  end.
Proof. split_and!; vm_compute; done. Qed.

(** ** Witnesses *)

Definition granting_set : PluginBindingSet :=
  with_base (new_set "wasmcloud-nats")
    {["servers" := "nats://host:4222"; "Subject_Allow" := "orders.>, billing.*"]}.
Definition asking_entry : WitInterface :=
  {| namespace := "wasmcloud"; package := "nats"; interfaces := {["core"]}; version := None;
     config := {["subject-allow" := "orders.eu.*"]}; name := None |}.

Lemma grant_stays_within_the_operators_witness :
  check_subject (new_engine (policy_of (H := sorted_order)
    (host_layer_with binding_schema granting_set "")) []) "orders.eu.new" = Ok ().
Proof.
  destruct (resolve_by_name (H := sorted_order) (H0 := simple_semver) binding_schema granting_set narrows
    [asking_entry]) as [log [m|e]] eqn:E; [|vm_compute in E; discriminate].
  destruct (m !! "") as [r|] eqn:Eb; [|vm_compute in E; injection E as <- <-; vm_compute in Eb; discriminate].
  eapply (grant_stays_within_the_operators (H := sorted_order) granting_set [asking_entry] log m "" r []
    eq_refl E Eb).
  - intros bu e []%not_elem_of_nil.
  - vm_compute in E. injection E as <- <-. vm_compute in Eb. injection Eb as <-. vm_compute. reflexivity.
Defined.

Lemma derived_ack_pending_is_bounded_witness :
  match from_map (H := sorted_order) {["servers" := "nats://host:4222"; "max-in-flight" := "8"]} with
  | Ok c => (1 ≤ effective_max_ack_pending (limits c) 1048576 ≤ 2 * max_in_flight (limits c))%Z
  | Err _ => False
  end.
Proof.
  destruct (from_map (H := sorted_order) {["servers" := "nats://host:4222"; "max-in-flight" := "8"]})
    as [c|e] eqn:E; [|vm_compute in E; discriminate].
  apply (derived_ack_pending_is_bounded (H := sorted_order) _ c 1048576 E).
  vm_compute in E. injection E as <-. reflexivity.
Defined.
