(* ===== verification/NameLookup.v ===== *)
(** * [wasi:sockets/ip-name-lookup], both generations

    [sockets/host_ip_name_lookup.rs] (p2: a stream of addresses the guest polls)
    and [sockets/host_ip_name_lookup_p3.rs] (p3: one batch).  The system resolver
    is an argument: its answer and the instant it completed.  The resource table
    is not modelled; a stream is its state.  p2's [subscribe] and [drop] only
    wait for, or forget, a stream. *)

From Stdlib Require Import ZArith Lia.
From stdpp Require Import base list gmap strings option.
From S2P Require Import Prelude RustStr Net UriLib InternalNames AllowedIpName AllowedHosts SocketUtil.
From S2P Require Import Quota ResolvedNames SocketPolicy.
Local Open Scope Z_scope.

Inductive LookupError :=
  | NameUnresolvable
  | PermanentResolverFailure
  | WouldBlock
  | LookupUtil (e : ErrorCode).

(** What the resolver said and when; [E] is its error. *)
Record ResolverAnswer (E : Type) := {
  answered : result (list SocketAddr) E; answered_at : Instant;
}.
Arguments answered {E} _.
Arguments answered_at {E} _.

(** The addresses not yet handed over, and what to record them under. *)
Record Answer := { left : list IpAddr; ans_observation : option Observation }.

Definition answer_of (l : Lookup) : Answer :=
  {| left := addresses l; ans_observation := observation l |}.

Inductive StreamState :=
  | Waiting (host : UrlHost)
  | Done (r : result Answer LookupError).

Section lookup.
Context `{UriLib} {E : Type}.
Implicit Types (c : WasiSocketsCtx) (ra : ResolverAnswer E).

(** [lookup_blocking] on the blocking pool, with its error mapped. *)
Definition run_lookup (host : UrlHost) ra : result Lookup LookupError :=
  match lookup_blocking (λ _, answered ra) (answered_at ra) host with
  | Ok l => Ok l
  | Err _ => Err NameUnresolvable
  end.

(** ** p2 *)

Definition resolve_addresses c (name : string) : result StreamState LookupError :=
  match InternalNames.resolve name with
  | Some (Ok internal) => Ok (Done (Ok (answer_of (fixed [address internal]))))
  | Some (Err _) => Err NameUnresolvable
  | None =>
      match parse_host name with
      | Err e => Err (LookupUtil e)
      | Ok host =>
          if negb (check_allowed_lookup (ctx_ip_name_lookups c) (ctx_allowed_hosts c) host)
          then Err PermanentResolverFailure
          else Ok (Waiting host)
      end
  end.

Definition limits_of c : ResolvedNameLimits := resolved_names (ctx_policy c).

(** The [State::Done(Ok(answer))] arm: hand over one address and record it. *)
Definition next_address (limits : ResolvedNameLimits) (a : Answer) (i : Inner) (now : Instant) :
    option IpAddr * Answer * Inner :=
  match left a with
  | [] => (None, a, i)
  | addr :: rest =>
      (Some addr, {| left := rest; ans_observation := ans_observation a |},
       match ans_observation a with
       | Some o => record_at limits i (obs_name o) [addr] (obs_observed o) now
       | None => i
       end)
  end.

(** [done]: the resolver's answer, once the blocking task has finished. *)
Definition resolve_next_address (limits : ResolvedNameLimits) (s : StreamState)
    (done : option (ResolverAnswer E)) (i : Inner) (now : Instant) :
    result (option IpAddr) LookupError * StreamState * Inner :=
  let finish r :=
    match r with
    | Err e => (Err e, Done (Ok (answer_of (fixed []))), i)
    | Ok a =>
        let '(next, a, i) := next_address limits a i now in
        (Ok next, Done (Ok a), i)
    end in
  match s with
  | Waiting host =>
      match done with
      | None => (Err WouldBlock, s, i)
      | Some ra => finish match run_lookup host ra with
                          | Ok l => Ok (answer_of l)
                          | Err e => Err e
                          end
      end
  | Done r => finish r
  end.

(** ** p3 *)

Definition resolve_addresses_p3 c (name : string) ra (now : Instant) :
    result (list IpAddr) LookupError * Inner :=
  let i := ctx_names c in
  match InternalNames.resolve name with
  | Some (Ok internal) => (Ok [address internal], i)
  | Some (Err _) => (Err NameUnresolvable, i)
  | None =>
      match parse_host name with
      | Err _ => (Err (LookupUtil InvalidArgument), i)
      | Ok host =>
          if negb (check_allowed_lookup (ctx_ip_name_lookups c) (ctx_allowed_hosts c) host)
          then (Err PermanentResolverFailure, i)
          else match run_lookup host ra with
               | Err _ => (Err NameUnresolvable, i)
               | Ok l =>
                   (Ok (addresses l),
                    match observation l with
                    | Some o => record_at (limits_of c) i (obs_name o) (addresses l)
                                  (obs_observed o) now
                    | None => i
                    end)
               end
      end
  end.

(** ** Properties *)

(** the resolver is consulted for a name exactly when the name lies outside
    the reserved zone, parses as a host, and a lookup or host entry permits it; a
    name of the zone is answered at once with a loopback address and grants
    nothing, or refused as unresolvable. *)
Theorem resolver_consulted_iff c name host :
  resolve_addresses c name = Ok (Waiting host) ↔
  InternalNames.resolve name = None ∧ parse_host name = Ok host
  ∧ check_allowed_lookup (ctx_ip_name_lookups c) (ctx_allowed_hosts c) host = true.
Proof.
  unfold resolve_addresses.
  destruct (InternalNames.resolve name) as [[internal|]|]; [split; [done|by intros [? _]]..|].
  destruct (parse_host name) as [h|e]; [|split; [done|by intros (_ & ? & _)]].
  destruct (check_allowed_lookup _ _ h) eqn:Ec; simpl; split.
  - by intros [= ->].
  - by intros (_ & [= ->] & _).
  - done.
  - intros (_ & [= ->] & ?). congruence.
Qed.

(** a p3 lookup changes the store's history only by recording, under the
    normalized form of a name the policy let the guest resolve, the very
    addresses it returns, dated when the resolver answered; in every other case,
    refusals, literals, [*.localhost] and the reserved zone included, the history
    is unchanged. *)
Theorem lookup_records_what_it_returns c name ra now r i' :
  resolve_addresses_p3 c name ra now = (r, i') →
  i' = ctx_names c
  ∨ ∃ host n addrs, parse_host name = Ok host ∧ InternalNames.resolve name = None
      ∧ check_allowed_lookup (ctx_ip_name_lookups c) (ctx_allowed_hosts c) host = true
      ∧ normalize_name host = Some n ∧ r = Ok addrs
      ∧ i' = record_event (limits_of c) (ctx_names c)
               {| ev_name := n; ev_addrs := addrs; ev_observed := answered_at ra; ev_now := now |}.
Proof.
  unfold resolve_addresses_p3, run_lookup. intros Hr.
  destruct (InternalNames.resolve name) as [[internal|]|]; simplify_eq/=; [by left..|].
  destruct (parse_host name) as [host|e]; simplify_eq/=; [|by left].
  destruct (check_allowed_lookup _ _ host) eqn:Ec; simplify_eq/=; [|by left].
  destruct host as [d|a|a]; simplify_eq/=; [|by left..].
  destruct (_ && _); simplify_eq/=; [by left|].
  destruct (answered ra) as [l|]; simplify_eq/=; [|by left].
  destruct (is_empty (strip_root_dot d)) eqn:En; simplify_eq/=; [by left|].
  right. eexists _, _, _. split; [done|]. split; [done|]. split; [done|].
  cbn [normalize_name]. rewrite En. done.
Qed.

(** Reading a finished p2 stream to its end, every read at the same instant. *)
Fixpoint drain (limits : ResolvedNameLimits) (a : Answer) (i : Inner) (now : Instant)
    (n : nat) : list IpAddr * Inner :=
  match n with
  | O => ([], i)
  | S n =>
      match next_address limits a i now with
      | (Some addr, a, i) => let '(l, i) := drain limits a i now n in (addr :: l, i)
      | (None, _, i) => ([], i)
      end
  end.

Lemma record_at_cons limits i n a l t now :
  record_at limits i n (a :: l) t now
  = record_at limits (record_at limits i n [a] t now) n l t now.
Proof. unfold record_at. by destruct (_ || _). Qed.

Lemma record_at_nil limits i n t now : record_at limits i n [] t now = i.
Proof. unfold record_at. by destruct (_ || _). Qed.

Lemma drain_all limits a i now n :
  (length (left a) ≤ n)%nat →
  drain limits a i now n =
    (left a, match ans_observation a with
             | Some o => record_at limits i (obs_name o) (left a) (obs_observed o) now
             | None => i
             end).
Proof.
  destruct a as [l o]. simpl. revert l i. induction n as [|n IH]; intros l i Hn.
  - destruct l; [|simpl in Hn; lia]. simpl. destruct o; by rewrite ?record_at_nil.
  - destruct l as [|x l]; simpl.
    + unfold next_address. simpl. destruct o; by rewrite ?record_at_nil.
    + unfold next_address. simpl. rewrite IH by (simpl in Hn; lia).
      destruct o; [by rewrite (record_at_cons _ _ _ x l)|done].
Qed.

(** the two generations agree.  For the same resolver answer, reading a p2
    stream to its end yields exactly the addresses p3 returns, and leaves the
    same lookup history as p3's single batch. *)
Theorem p2_and_p3_agree c name host ra now l i' :
  resolve_addresses c name = Ok (Waiting host) →
  resolve_addresses_p3 c name ra now = (Ok l, i') →
  ∃ a, run_lookup host ra = Ok a
    ∧ drain (limits_of c) (answer_of a) (ctx_names c) now (length l) = (l, i')
    ∧ (resolve_next_address (limits_of c) (Waiting host) (Some ra) (ctx_names c) now).1.1
      = Ok (head l).
Proof.
  unfold resolve_addresses, resolve_addresses_p3. intros H2 H3.
  destruct (InternalNames.resolve name) as [[internal|]|]; [done..|].
  destruct (parse_host name) as [h|e]; [|done].
  destruct (negb _); [done|]. injection H2 as ->.
  unfold resolve_next_address. destruct (run_lookup host ra) as [a|] eqn:Er; [|done].
  injection H3 as <- <-. exists a. split; [done|]. split.
  - rewrite drain_all; [done|]. simpl. lia.
  - unfold next_address. simpl. by destruct (addresses a).
Qed.

End lookup.

(** ** Runs *)

Definition lookup_ctx : WasiSocketsCtx := for_store demo [].

Definition db_answer : ResolverAnswer () :=
  {| answered := Ok [SocketV4 (Ipv4Addr_new 10 0 0 5) 0; SocketV4 (Ipv4Addr_new 10 0 0 6) 0];
     answered_at := 100 |}.

Lemma lookup_records_what_it_returns_witness :
  ∃ i', resolve_addresses_p3 lookup_ctx "db.internal" db_answer 100
        = (Ok [V4 (Ipv4Addr_new 10 0 0 5); V4 (Ipv4Addr_new 10 0 0 6)], i')
    ∧ (i' = ctx_names lookup_ctx
       ∨ ∃ host n addrs, parse_host "db.internal" = Ok host
         ∧ InternalNames.resolve "db.internal" = None
         ∧ check_allowed_lookup (ctx_ip_name_lookups lookup_ctx) (ctx_allowed_hosts lookup_ctx) host
           = true
         ∧ normalize_name host = Some n
         ∧ @Ok _ LookupError [V4 (Ipv4Addr_new 10 0 0 5); V4 (Ipv4Addr_new 10 0 0 6)] = Ok addrs
         ∧ i' = record_event (limits_of lookup_ctx) (ctx_names lookup_ctx)
                  {| ev_name := n; ev_addrs := addrs; ev_observed := answered_at db_answer;
                     ev_now := 100 |}).
Proof.
  eexists. split; [vm_compute; reflexivity|].
  apply (lookup_records_what_it_returns lookup_ctx "db.internal" db_answer 100).
  vm_compute. reflexivity.
Defined.

Lemma p2_and_p3_agree_witness :
  ∃ a, run_lookup (Domain "db.internal") db_answer = Ok a
    ∧ (resolve_next_address (limits_of lookup_ctx) (Waiting (Domain "db.internal"))
         (Some db_answer) (ctx_names lookup_ctx) 100).1.1
      = Ok (Some (V4 (Ipv4Addr_new 10 0 0 5))).
Proof.
  destruct (p2_and_p3_agree lookup_ctx "db.internal" (Domain "db.internal") db_answer 100
    [V4 (Ipv4Addr_new 10 0 0 5); V4 (Ipv4Addr_new 10 0 0 6)]
    (resolve_addresses_p3 lookup_ctx "db.internal" db_answer 100).2) as (a & Ha & _ & Hn).
  - vm_compute. reflexivity.
  - vm_compute. reflexivity.
  - exists a. split; [exact Ha|exact Hn].
Defined.

Example zone_answers :
  resolve_addresses lookup_ctx "host.wasmcloud.internal"
  = Ok (Done (Ok {| left := [V4 HOST_SENTINEL]; ans_observation := None |}))
  ∧ resolve_addresses lookup_ctx "x.wasmcloud.internal" = Err NameUnresolvable
  ∧ resolve_addresses lookup_ctx "example.com" = Err PermanentResolverFailure.
Proof. by vm_compute. Qed.
