(* ===== verification/LoopbackNet.v ===== *)
(** * The guest's virtual network

    [sockets/loopback/mod.rs]: one table of endpoints per transport and family,
    keyed by port.  A port key is a [NonZeroU16], here a [Z] in [1, 65535].  A
    channel's sending half is its identity, a number. *)

From Stdlib Require Import ZArith Lia.
From stdpp Require Import base list gmap strings option.
From S2P Require Import Prelude RustStr Net SocketUtil.
Local Open Scope Z_scope.

Abbreviation Channel := nat.

Inductive TcpEndpoint :=
  | EpBound
  | EpListening (tx : Channel).

Record UdpEndpoint := { ep_tx : Channel; ep_connected : option SocketAddr }.

Record Network := {
  tcp_ipv4 : gmap Z TcpEndpoint;
  tcp_ipv6 : gmap Z TcpEndpoint;
  udp_ipv4 : gmap Z UdpEndpoint;
  udp_ipv6 : gmap Z UdpEndpoint;
}.

Definition empty_network : Network :=
  {| tcp_ipv4 := ∅; tcp_ipv6 := ∅; udp_ipv4 := ∅; udp_ipv6 := ∅ |}.

(** [for port in (1..=u16::MAX).rev()]: the highest vacant port up to [n]. *)
Fixpoint highest_vacant {T} (net : gmap Z T) (n : nat) : option Z :=
  match n with
  | O => None
  | S m =>
      match net !! Z.of_nat n with
      | None => Some (Z.of_nat n)
      | Some _ => highest_vacant net m
      end
  end.

Arguments highest_vacant : simpl never.

Definition bind {T} (net : gmap Z T) (port : Z) (ep : T) : result (Z * gmap Z T) ErrorCode :=
  if negb (port =? 0) then
    match net !! port with
    | Some _ => Err AddressInUse
    | None => Ok (port, <[port := ep]> net)
    end
  else
    match highest_vacant net (Z.to_nat u16_MAX) with
    | Some port => Ok (port, <[port := ep]> net)
    | None => Err AddressInUse
    end.

Definition get_tcp_net (n : Network) (ip : IpAddr) : gmap Z TcpEndpoint :=
  match ip with V4 _ => tcp_ipv4 n | V6 _ => tcp_ipv6 n end.

Definition get_udp_net (n : Network) (ip : IpAddr) : gmap Z UdpEndpoint :=
  match ip with V4 _ => udp_ipv4 n | V6 _ => udp_ipv6 n end.

(** Writing through [get_tcp_net_mut] and [get_udp_net_mut]. *)
Definition set_tcp_net (n : Network) (ip : IpAddr) (m : gmap Z TcpEndpoint) : Network :=
  match ip with
  | V4 _ => {| tcp_ipv4 := m; tcp_ipv6 := tcp_ipv6 n; udp_ipv4 := udp_ipv4 n;
               udp_ipv6 := udp_ipv6 n |}
  | V6 _ => {| tcp_ipv4 := tcp_ipv4 n; tcp_ipv6 := m; udp_ipv4 := udp_ipv4 n;
               udp_ipv6 := udp_ipv6 n |}
  end.

Definition set_udp_net (n : Network) (ip : IpAddr) (m : gmap Z UdpEndpoint) : Network :=
  match ip with
  | V4 _ => {| tcp_ipv4 := tcp_ipv4 n; tcp_ipv6 := tcp_ipv6 n; udp_ipv4 := m;
               udp_ipv6 := udp_ipv6 n |}
  | V6 _ => {| tcp_ipv4 := tcp_ipv4 n; tcp_ipv6 := tcp_ipv6 n; udp_ipv4 := udp_ipv4 n;
               udp_ipv6 := m |}
  end.

Definition bind_tcp (n : Network) (addr : SocketAddr) : result (SocketAddr * Network) ErrorCode :=
  (let? (port, net) := bind (get_tcp_net n (sock_ip addr)) (sock_port addr) EpBound in
   Ok (sock_set_port addr port, set_tcp_net n (sock_ip addr) net))%rust.

(** [chan] is the fresh channel; the socket keeps its receiving half. *)
Definition bind_udp (n : Network) (addr : SocketAddr) (chan : Channel) :
    result (SocketAddr * Network) ErrorCode :=
  (let? (port, net) := bind (get_udp_net n (sock_ip addr)) (sock_port addr)
                         {| ep_tx := chan; ep_connected := None |} in
   Ok (sock_set_port addr port, set_udp_net n (sock_ip addr) net))%rust.

Definition connect_tcp (n : Network) (addr : SocketAddr) : result Channel ErrorCode :=
  if sock_port addr =? 0 then Err InvalidArgument
  else match get_tcp_net n (sock_ip addr) !! sock_port addr with
       | Some (EpListening tx) => Ok tx
       | _ => Err ConnectionRefused
       end.

Definition connect_udp (n : Network) (local remote : SocketAddr) :
    result (option Channel) ErrorCode :=
  if sock_port remote =? 0 then Err InvalidArgument
  else match get_udp_net n (sock_ip remote) !! sock_port remote with
       | None => Ok None
       | Some ep =>
           if is_some_and (ep_connected ep) (λ addr, negb (bool_decide (local = addr)))
           then Ok None
           else Ok (Some (ep_tx ep))
       end.

(** The loopback address of the same family, the port kept. *)
Definition set_loopback_ip (a : SocketAddr) : SocketAddr :=
  match a with
  | SocketV4 _ p => SocketV4 LOCALHOST_V4 p
  | SocketV6 _ p f s => SocketV6 LOCALHOST_V6 p f s
  end.

(** ** Ports *)

Lemma highest_vacant_S {T} (net : gmap Z T) m :
  highest_vacant net (S m) = match net !! Z.of_nat (S m) with
                             | None => Some (Z.of_nat (S m))
                             | Some _ => highest_vacant net m
                             end.
Proof. reflexivity. Qed.

Lemma highest_vacant_Some {T} (net : gmap Z T) n p :
  highest_vacant net n = Some p →
  1 ≤ p ≤ Z.of_nat n ∧ net !! p = None ∧ ∀ q, p < q ≤ Z.of_nat n → is_Some (net !! q).
Proof.
  induction n as [|n IH]; [done|]. rewrite highest_vacant_S.
  destruct (net !! Z.of_nat (S n)) eqn:E.
  - intros (H1 & H2 & H3)%IH. split; [lia|]. split; [done|]. intros q Hq.
    destruct (decide (q = Z.of_nat (S n))) as [->|]; [by eauto|]. apply H3. lia.
  - intros [= <-]. split; [lia|]. split; [done|]. lia.
Qed.

Lemma highest_vacant_None {T} (net : gmap Z T) n :
  highest_vacant net n = None ↔ ∀ q, 1 ≤ q ≤ Z.of_nat n → is_Some (net !! q).
Proof.
  induction n as [|n IH]; [|rewrite highest_vacant_S].
  - split; [|done]. intros _ q. lia.
  - destruct (net !! Z.of_nat (S n)) eqn:E.
    + rewrite IH. split.
      * intros Hall q Hq. destruct (decide (q = Z.of_nat (S n))) as [->|]; [by eauto|].
        apply Hall. lia.
      * intros Hall q Hq. apply Hall. lia.
    + split; [done|]. intros Hall. destruct (Hall (Z.of_nat (S n))) as [x Hx]; [lia|]. congruence.
Qed.

Lemma bind_Ok {T} (net : gmap Z T) port ep p net' :
  0 ≤ port ≤ u16_MAX → bind net port ep = Ok (p, net') →
  1 ≤ p ≤ u16_MAX ∧ net !! p = None ∧ net' = <[p := ep]> net ∧ (port ≠ 0 → p = port).
Proof.
  intros Hp. unfold bind. destruct (Z.eqb_spec port 0) as [->|Hne]; cbn [negb].
  - destruct (highest_vacant net (Z.to_nat u16_MAX)) as [q|] eqn:E; [|done]. intros [= <- <-].
    apply highest_vacant_Some in E as (H1 & H2 & _).
    rewrite Z2Nat.id in H1 by (unfold u16_MAX; lia). done.
  - destruct (net !! port) eqn:E; [done|]. intros [= <- <-]. split; [lia|]. done.
Qed.

(** binding a virtual port hands out a port nobody holds, in 1..65535, leaves
    every other endpoint alone, and takes the port asked for or, for port 0, the
    highest free one; it fails only if that port is taken, or all are. *)
Theorem virtual_bind_spec {T} (net : gmap Z T) port ep :
  0 ≤ port ≤ u16_MAX →
  match bind net port ep with
  | Ok (p, net') =>
      1 ≤ p ≤ u16_MAX ∧ net !! p = None ∧ net' !! p = Some ep
      ∧ (∀ q, q ≠ p → net' !! q = net !! q)
      ∧ (port ≠ 0 → p = port)
      ∧ (port = 0 → ∀ q, p < q ≤ u16_MAX → is_Some (net !! q))
  | Err e =>
      e = AddressInUse
      ∧ if port =? 0 then ∀ q, 1 ≤ q ≤ u16_MAX → is_Some (net !! q) else is_Some (net !! port)
  end.
Proof.
  intros Hp. assert (Z.of_nat (Z.to_nat u16_MAX) = u16_MAX) as Hm
    by (apply Z2Nat.id; unfold u16_MAX; lia).
  destruct (bind net port ep) as [[p net']|e] eqn:E.
  - destruct (bind_Ok net port ep p net' Hp E) as (H1 & H2 & -> & H3).
    split; [done|]. split; [done|]. split; [apply lookup_insert_eq|].
    split; [intros q Hq; by apply lookup_insert_ne|]. split; [done|].
    intros ->. unfold bind in E. cbn [negb Z.eqb] in E.
    destruct (highest_vacant net (Z.to_nat u16_MAX)) as [q|] eqn:Ev; [|done].
    injection E as -> _. apply highest_vacant_Some in Ev as (_ & _ & Hall). by rewrite Hm in Hall.
  - unfold bind in E. destruct (Z.eqb_spec port 0) as [->|Hne]; cbn [negb] in E.
    + destruct (highest_vacant net (Z.to_nat u16_MAX)) as [q|] eqn:Ev; [done|].
      injection E as <-. split; [done|]. rewrite <-Hm. by apply highest_vacant_None.
    + destruct (net !! port) eqn:Ev; [|done]. injection E as <-. split; [done|]. by eauto.
Qed.

Lemma virtual_bind_spec_witness :
  bind (∅ : gmap Z TcpEndpoint) 0 EpBound = Ok (65535, <[65535 := EpBound]> ∅)
  ∧ <[65535 := EpBound]> (∅ : gmap Z TcpEndpoint) !! 65535 = Some EpBound.
Proof.
  assert (bind (∅ : gmap Z TcpEndpoint) 0 EpBound = Ok (65535, <[65535 := EpBound]> ∅)) as E
    by (vm_compute; reflexivity).
  pose proof (virtual_bind_spec (∅ : gmap Z TcpEndpoint) 0 EpBound) as H.
  rewrite E in H. split; [exact E|].
  destruct H as (_ & _ & H & _); [unfold u16_MAX; lia|]. exact H.
Defined.

(** ** Address fields *)

Lemma sock_set_port_ip a p : sock_ip (sock_set_port a p) = sock_ip a.
Proof. by destruct a. Qed.
Lemma sock_set_port_port a p : sock_port (sock_set_port a p) = p.
Proof. by destruct a. Qed.

Lemma get_set_udp n ip m : get_udp_net (set_udp_net n ip m) ip = m.
Proof. by destruct ip. Qed.

Lemma bind_udp_Ok n addr chan a' n' :
  0 ≤ sock_port addr ≤ u16_MAX → bind_udp n addr chan = Ok (a', n') →
  sock_ip a' = sock_ip addr ∧ 1 ≤ sock_port a' ≤ u16_MAX
  ∧ get_udp_net n (sock_ip addr) !! sock_port a' = None
  ∧ n' = set_udp_net n (sock_ip addr)
           (<[sock_port a' := {| ep_tx := chan; ep_connected := None |}]>
              (get_udp_net n (sock_ip addr))).
Proof.
  intros Hp. unfold bind_udp. destruct (bind _ _ _) as [[p net]|] eqn:E; [|done].
  intros [= <- <-]. destruct (bind_Ok _ _ _ _ _ Hp E) as (H1 & H2 & -> & _).
  rewrite sock_set_port_ip, sock_set_port_port. done.
Qed.

(** a datagram sent to a bound virtual address is delivered to the socket that
    bound it: right after the bind, from any local address, the destination's
    channel is the one the bind created. *)
Theorem bound_udp_is_reachable n addr chan a' n' local :
  0 ≤ sock_port addr ≤ u16_MAX → bind_udp n addr chan = Ok (a', n') →
  connect_udp n' local a' = Ok (Some chan).
Proof.
  intros Hp H. destruct (bind_udp_Ok n addr chan a' n' Hp H) as (Hip & Hr & _ & ->).
  unfold connect_udp. rewrite (proj2 (Z.eqb_neq (sock_port a') 0)) by lia.
  by rewrite Hip, get_set_udp, lookup_insert_eq.
Qed.

Lemma bound_udp_is_reachable_witness :
  connect_udp
    {| tcp_ipv4 := ∅; tcp_ipv6 := ∅;
       udp_ipv4 := <[53 := {| ep_tx := 7; ep_connected := None |}]> ∅; udp_ipv6 := ∅ |}
    (SocketV4 LOCALHOST_V4 9) (SocketV4 LOCALHOST_V4 53) = Ok (Some 7%nat).
Proof.
  apply (bound_udp_is_reachable empty_network (SocketV4 LOCALHOST_V4 53) 7%nat).
  - unfold u16_MAX. simpl. lia.
  - reflexivity.
Defined.
