(* ===== verification/UdpSocket.v ===== *)
(** * UDP sockets: the real half and the virtual half

    [sockets/udp.rs] (a host socket with its bookkeeping, and the socket a guest
    holds: real, virtual, or both) and [sockets/loopback/udp.rs] (the virtual
    half).  The operating system is [Os]: what each call answers.  The peer
    filter and the quota slot are shared [Arc]s in the code with one socket as
    owner; they are fields here.  The handlers a guest calls are in
    [UdpHandlers]. *)

From Stdlib Require Import ZArith Lia.
From stdpp Require Import base list gmap strings option.
From S2P Require Import Prelude RustStr Net UriLib EgressPolicy InternalNames DeclaredPort AllowedIpName.
From S2P Require Import AllowedHosts SocketUtil Quota ResolvedNames SocketPolicy LoopbackNet.
Local Open Scope Z_scope.

(** What the operating system answers during one call. *)
Record Os := {
  os_bind : SocketAddr → result unit Errno;
  os_local_addr : result SocketAddr IoError;
  os_connect : SocketAddr → result unit Errno;
  os_connect_again : SocketAddr → result unit Errno;
  os_disconnect : result unit Errno;
  os_peer_addr : result SocketAddr IoError;
  os_hop_limit : result Z Errno;
  os_recv_buffer : result Z Errno;
  os_send_buffer : result Z Errno;
  os_set_hop_limit : Z → result unit Errno;
  os_set_recv_buffer : Z → result unit Errno;
  os_set_send_buffer : Z → result unit Errno;
  os_socket : result unit IoError;                        (** opening, and becoming writable *)
  os_send : option SocketAddr → result unit IoError;      (** [send_to]; [None]: [send] *)
}.

(** ** The real half *)

Inductive NetState :=
  | NDefault
  | NBindStarted
  | NBound
  | NConnected (peer : SocketAddr).

Record NetworkUdpSocket := {
  ns_state : NetState;
  ns_family : SocketAddressFamily;
  ns_slot : option ConnectionSlot;
  ns_plane : option Plane;
  ns_until : option Instant;
  ns_peers : option (gset SocketAddr);
}.

Definition new_net (family : SocketAddressFamily) : NetworkUdpSocket :=
  {| ns_state := NDefault; ns_family := family; ns_slot := None; ns_plane := None;
     ns_until := None; ns_peers := None |}.

Definition ns_new (os : Os) (uses : AllowedNetworkUses) (family : SocketAddressFamily) :
    result NetworkUdpSocket ErrorCode :=
  match check_allowed_udp uses with
  | Err e => Err (from_io_error e)
  | Ok _ => match os_socket os with
            | Err e => Err (from_io_error e)
            | Ok _ => Ok (new_net family)
            end
  end.

Definition ns_set_state (s : NetworkUdpSocket) (st : NetState) : NetworkUdpSocket :=
  {| ns_state := st; ns_family := ns_family s; ns_slot := ns_slot s; ns_plane := ns_plane s;
     ns_until := ns_until s; ns_peers := ns_peers s |}.
Definition ns_set_decision (s : NetworkUdpSocket) (p : option Plane) (u : option Instant) :
    NetworkUdpSocket :=
  {| ns_state := ns_state s; ns_family := ns_family s; ns_slot := ns_slot s; ns_plane := p;
     ns_until := u; ns_peers := ns_peers s |}.
Definition ns_set_peers (s : NetworkUdpSocket) (p : option (gset SocketAddr)) :
    NetworkUdpSocket :=
  {| ns_state := ns_state s; ns_family := ns_family s; ns_slot := ns_slot s;
     ns_plane := ns_plane s; ns_until := ns_until s; ns_peers := p |}.
Definition ns_set_slot (s : NetworkUdpSocket) (c : option ConnectionSlot) : NetworkUdpSocket :=
  {| ns_state := ns_state s; ns_family := ns_family s; ns_slot := c; ns_plane := ns_plane s;
     ns_until := ns_until s; ns_peers := ns_peers s |}.

Definition ns_bind (os : Os) (s : NetworkUdpSocket) (addr : SocketAddr) :
    result NetworkUdpSocket ErrorCode :=
  match os_bind os addr with
  | Ok _ => Ok (ns_set_state s NBindStarted)
  | Err e => Err (udp_bind_error e)
  end.

Definition ns_finish_bind (s : NetworkUdpSocket) : result NetworkUdpSocket ErrorCode :=
  match ns_state s with
  | NBindStarted => Ok (ns_set_state s NBound)
  | _ => Err NotInProgress
  end.

Definition ns_is_connected (s : NetworkUdpSocket) : bool :=
  match ns_state s with NConnected _ => true | _ => false end.
Definition ns_is_bound (s : NetworkUdpSocket) : bool :=
  match ns_state s with NConnected _ | NBound => true | _ => false end.
Definition ns_is_unbound (s : NetworkUdpSocket) : bool :=
  match ns_state s with NDefault => true | _ => false end.

Definition ns_disconnect (os : Os) (s : NetworkUdpSocket) : result NetworkUdpSocket ErrorCode :=
  if negb (ns_is_connected s) then Err InvalidState
  else match os_disconnect os with
       | Ok _ => Ok (ns_set_state s NBound)
       | Err e => Err (from_errno e)
       end.

Definition connect_error (e : Errno) : ErrorCode :=
  match e with
  | AFNOSUPPORT => InvalidArgument
  | _ => from_errno e
  end.

Definition ns_connect (os : Os) (s : NetworkUdpSocket) (addr : SocketAddr) :
    result unit ErrorCode * NetworkUdpSocket :=
  if negb (is_valid_address_family (sock_ip addr) (ns_family s))
     || negb (is_valid_remote_address addr)
  then (Err InvalidArgument, s)
  else match ns_state s with
  | NBound | NConnected _ =>
      match udp_connect (os_connect os addr) (os_connect_again os addr) with
      | Ok _ => (Ok tt, ns_set_state s (NConnected addr))
      | Err e => (Err (connect_error e), ns_set_state s NBound)
      end
  | _ => (Err InvalidState, s)
  end.

(** The policy's plane and deadline are taken only for a peer that is the peer. *)
Definition ns_connect_on (os : Os) (s : NetworkUdpSocket) (addr : SocketAddr) (plane : Plane)
    (valid_until : option Instant) : result unit ErrorCode * NetworkUdpSocket :=
  let '(connected, s) := ns_connect os s addr in
  (connected,
   match connected, ns_is_connected s with
   | Ok _, _ => ns_set_decision s (Some plane) valid_until
   | Err _, true => s
   | Err _, false => ns_set_decision s None None
   end).

Definition ns_remote_address (os : Os) (s : NetworkUdpSocket) : result SocketAddr ErrorCode :=
  if negb (ns_is_connected s) then Err InvalidState
  else match os_peer_addr os with Ok a => Ok a | Err e => Err (from_io_error e) end.

Definition ns_local_address (os : Os) (s : NetworkUdpSocket) : result SocketAddr ErrorCode :=
  match ns_state s with
  | NDefault | NBindStarted => Err InvalidState
  | _ => match os_local_addr os with Ok a => Ok a | Err e => Err (from_io_error e) end
  end.

(** The options of the real half live in the kernel. *)
Definition ns_unicast_hop_limit (os : Os) (s : NetworkUdpSocket) : result Z ErrorCode :=
  get_unicast_hop_limit (os_hop_limit os) (ns_family s).
Definition ns_set_unicast_hop_limit (os : Os) (value : Z) : result unit ErrorCode :=
  set_unicast_hop_limit (os_set_hop_limit os) value.
Definition ns_receive_buffer_size (os : Os) : result Z ErrorCode :=
  receive_buffer_size (os_recv_buffer os).
Definition ns_set_receive_buffer_size (os : Os) (value : Z) : result unit ErrorCode :=
  (let? _ := set_receive_buffer_size (os_set_recv_buffer os) value in Ok tt)%rust.
Definition ns_send_buffer_size (os : Os) : result Z ErrorCode :=
  send_buffer_size (os_send_buffer os).
Definition ns_set_send_buffer_size (os : Os) (value : Z) : result unit ErrorCode :=
  (let? _ := set_send_buffer_size (os_set_send_buffer os) value in Ok tt)%rust.

(** ** The virtual half *)

Definition MAX_SEND_BUFFER_SIZE : Z := 65536.

(** [permits] is the semaphore's available count. *)
Inductive LoState :=
  | LBindStarted (local : SocketAddr) (rx : Channel)
  | LBound (local : SocketAddr) (rx : Channel) (permits : Z)
  | LConnected (local remote : SocketAddr) (rx : Channel) (permits : Z)
  | LClosed.

Record LoUdpSocket := {
  lo_state : LoState;
  lo_hop_limit : Z;
  lo_receive_buffer_size : Z;
  lo_send_buffer_size : Z;
  lo_family : SocketAddressFamily;
}.

Definition lo_set_state (s : LoUdpSocket) (st : LoState) : LoUdpSocket :=
  {| lo_state := st; lo_hop_limit := lo_hop_limit s;
     lo_receive_buffer_size := lo_receive_buffer_size s;
     lo_send_buffer_size := lo_send_buffer_size s; lo_family := lo_family s |}.

(** [loopback::UdpSocket::new]: the options are read off the real socket; the
    send buffer falls back to the maximum when it does not fit in 32 bits. *)
Definition lo_new (os : Os) (family : SocketAddressFamily) (st : LoState) :
    result LoUdpSocket ErrorCode :=
  (let? hop := get_unicast_hop_limit (os_hop_limit os) family in
   let? recv := receive_buffer_size (os_recv_buffer os) in
   let? send := send_buffer_size (os_send_buffer os) in
   Ok {| lo_state := st; lo_hop_limit := hop; lo_receive_buffer_size := recv;
         lo_send_buffer_size := if send <=? 4294967295 then send else MAX_SEND_BUFFER_SIZE;
         lo_family := family |})%rust.

Definition lo_finish_bind (s : LoUdpSocket) : result LoUdpSocket ErrorCode :=
  match lo_state s with
  | LBindStarted local rx => Ok (lo_set_state s (LBound local rx (lo_send_buffer_size s)))
  | _ => Err NotInProgress
  end.

Definition lo_is_connected (s : LoUdpSocket) : bool :=
  match lo_state s with LConnected _ _ _ _ => true | _ => false end.
Definition lo_is_bound (s : LoUdpSocket) : bool :=
  match lo_state s with LConnected _ _ _ _ | LBound _ _ _ => true | _ => false end.

Definition set_connected (n : Network) (local : SocketAddr) (ep : UdpEndpoint)
    (c : option SocketAddr) : Network :=
  set_udp_net n (sock_ip local)
    (<[sock_port local := {| ep_tx := ep_tx ep; ep_connected := c |}]>
       (get_udp_net n (sock_ip local))).

(** [mem::replace] with [Closed]: the two [InvalidState] returns of the first arm
    leave the socket closed. *)
Definition lo_disconnect (s : LoUdpSocket) (n : Network) :
    result unit ErrorCode * LoUdpSocket * Network :=
  match lo_state s with
  | LConnected local _ rx permits =>
      if sock_port local =? 0 then (Err InvalidState, lo_set_state s LClosed, n)
      else match get_udp_net n (sock_ip local) !! sock_port local with
      | Some ep =>
          if is_some (ep_connected ep) then
            (Ok tt, lo_set_state s (LBound local rx permits), set_connected n local ep None)
          else (Err InvalidState, lo_set_state s LClosed, n)
      | None => (Err InvalidState, lo_set_state s LClosed, n)
      end
  | _ => (Err InvalidState, s, n)
  end.

Definition lo_connect (s : LoUdpSocket) (addr : SocketAddr) (n : Network) :
    result unit ErrorCode * LoUdpSocket * Network :=
  if negb (is_valid_address_family (sock_ip addr) (lo_family s))
     || negb (is_valid_remote_address addr)
  then (Err InvalidArgument, s, n)
  else match lo_state s with
  | LBound local rx permits | LConnected local _ rx permits =>
      if sock_port local =? 0 then (Err InvalidState, lo_set_state s LClosed, n)
      else match get_udp_net n (sock_ip local) !! sock_port local with
      | Some ep =>
          (Ok tt, lo_set_state s (LConnected local addr rx permits),
           set_connected n local ep (Some addr))
      | None => (Err InvalidState, lo_set_state s LClosed, n)
      end
  | _ => (Err InvalidState, s, n)
  end.

Definition lo_local_address (s : LoUdpSocket) : result SocketAddr ErrorCode :=
  match lo_state s with
  | LBound local _ _ | LConnected local _ _ _ => Ok local
  | _ => Err InvalidState
  end.
Definition lo_remote_address (s : LoUdpSocket) : result SocketAddr ErrorCode :=
  match lo_state s with
  | LConnected _ remote _ _ => Ok remote
  | _ => Err InvalidState
  end.

Definition lo_set_unicast_hop_limit (s : LoUdpSocket) (value : Z) :
    result LoUdpSocket ErrorCode :=
  if value =? 0 then Err InvalidArgument
  else Ok {| lo_state := lo_state s; lo_hop_limit := value;
             lo_receive_buffer_size := lo_receive_buffer_size s;
             lo_send_buffer_size := lo_send_buffer_size s; lo_family := lo_family s |}.

Definition lo_set_receive_buffer_size (s : LoUdpSocket) (value : Z) :
    result LoUdpSocket ErrorCode :=
  if value =? 0 then Err InvalidArgument
  else Ok {| lo_state := lo_state s; lo_hop_limit := lo_hop_limit s;
             lo_receive_buffer_size := value;
             lo_send_buffer_size := lo_send_buffer_size s; lo_family := lo_family s |}.

(** [u32] arithmetic; [forget_permits] removes up to [n] and says how many. *)
Definition lo_set_send_buffer_size (s : LoUdpSocket) (value : Z) :
    result LoUdpSocket ErrorCode :=
  if value =? 0 then Err InvalidArgument
  else
    let value := Z.min (if value <=? 4294967295 then value else MAX_SEND_BUFFER_SIZE)
                   MAX_SEND_BUFFER_SIZE in
    let with_size st v :=
      {| lo_state := st; lo_hop_limit := lo_hop_limit s;
         lo_receive_buffer_size := lo_receive_buffer_size s;
         lo_send_buffer_size := v; lo_family := lo_family s |} in
    let resize permits (st : Z → LoState) :=
      let surplus := Z.max 0 (lo_send_buffer_size s - value) in
      if 0 <? surplus then
        let reduced := Z.min surplus permits in
        let leaked := Z.max 0 (surplus - reduced) in
        if value + leaked <=? 4294967295
        then Ok (with_size (st (permits - reduced)) (value + leaked))
        else Err Unknown
      else
        Ok (with_size (st (permits + Z.max 0 (value - lo_send_buffer_size s))) value) in
    match lo_state s with
    | LBound local rx permits => resize permits (LBound local rx)
    | LConnected local remote rx permits => resize permits (LConnected local remote rx)
    | st => Ok (with_size st value)
    end.

(** [wasmtime::Result]: dropping a socket whose local port is zero traps. *)
Definition lo_drop (s : LoUdpSocket) (n : Network) : option Network :=
  match lo_state s with
  | LBindStarted local _ | LBound local _ _ | LConnected local _ _ _ =>
      if sock_port local =? 0 then None
      else Some (set_udp_net n (sock_ip local)
                   (delete (sock_port local) (get_udp_net n (sock_ip local))))
  | LClosed => Some n
  end.

(** ** The socket a guest holds *)

Inductive UdpSocket :=
  | UNetwork (net : NetworkUdpSocket)
  | ULoopback (lo : LoUdpSocket)
  | UUnspecified (net : NetworkUdpSocket) (lo : LoUdpSocket).

(** Registering the virtual endpoint, then reading the options. *)
Definition bind_virtual (os : Os) (s : NetworkUdpSocket) (addr : SocketAddr) (n : Network)
    (chan : Channel) : result LoUdpSocket ErrorCode * Network :=
  match bind_udp n addr chan with
  | Err e => (Err e, n)
  | Ok (addr, n) => (lo_new os (ns_family s) (LBindStarted addr chan), n)
  end.

Definition udp_bind (os : Os) (u : UdpSocket) (addr : SocketAddr) (n : Network)
    (chan : Channel) : result unit ErrorCode * UdpSocket * Network :=
  match u with
  | UNetwork s =>
      if negb (ns_is_unbound s) then (Err InvalidState, u, n)
      else if negb (is_valid_address_family (sock_ip addr) (ns_family s))
      then (Err InvalidArgument, u, n)
      else
        let ip := to_canonical (sock_ip addr) in
        if is_loopback ip then
          match bind_virtual os s addr n chan with
          | (Ok lo, n) => (Ok tt, ULoopback lo, n)
          | (Err e, n) => (Err e, u, n)
          end
        else match ns_bind os s addr with
        | Err e => (Err e, u, n)
        | Ok s =>
            if negb (is_unspecified ip) then (Ok tt, UNetwork s, n)
            else
              let s := ns_set_peers s (Some ∅) in
              match os_local_addr os with
              | Err e => (Err (from_io_error e), UNetwork s, n)
              | Ok local =>
                  match bind_virtual os s (set_loopback_ip local) n chan with
                  | (Ok lo, n) => (Ok tt, UUnspecified s lo, n)
                  | (Err e, n) => (Err e, UNetwork s, n)
                  end
              end
        end
  | _ => (Err InvalidState, u, n)
  end.

Definition udp_finish_bind (u : UdpSocket) : result unit ErrorCode * UdpSocket :=
  match u with
  | UNetwork s => match ns_finish_bind s with
                  | Ok s => (Ok tt, UNetwork s)
                  | Err e => (Err e, u)
                  end
  | ULoopback s => match lo_finish_bind s with
                   | Ok s => (Ok tt, ULoopback s)
                   | Err e => (Err e, u)
                   end
  | UUnspecified net lo =>
      match ns_finish_bind net with
      | Err e => (Err e, u)
      | Ok net => match lo_finish_bind lo with
                  | Ok lo => (Ok tt, UUnspecified net lo)
                  | Err e => (Err e, UUnspecified net lo)
                  end
      end
  end.

Definition needs_implicit_bind (u : UdpSocket) : bool :=
  match u with UNetwork s => ns_is_unbound s | _ => false end.

Definition udp_disconnect (os : Os) (u : UdpSocket) (n : Network) :
    result unit ErrorCode * UdpSocket * Network :=
  match u with
  | UNetwork s => match ns_disconnect os s with
                  | Ok s => (Ok tt, UNetwork s, n)
                  | Err e => (Err e, u, n)
                  end
  | ULoopback s => let '(r, s, n) := lo_disconnect s n in (r, ULoopback s, n)
  | UUnspecified net lo =>
      match ns_disconnect os net with
      | Err e => (Err e, u, n)
      | Ok net => let '(r, lo, n) := lo_disconnect lo n in (r, UUnspecified net lo, n)
      end
  end.

Definition udp_connect_on (os : Os) (u : UdpSocket) (addr : SocketAddr) (plane : Plane)
    (until : option Instant) (n : Network) : result unit ErrorCode * UdpSocket * Network :=
  match u with
  | UNetwork s => let '(r, s) := ns_connect_on os s addr plane until in (r, UNetwork s, n)
  | ULoopback s => let '(r, s, n) := lo_connect s addr n in (r, ULoopback s, n)
  | UUnspecified net lo =>
      match ns_connect_on os net addr plane until with
      | (Err e, net) => (Err e, UUnspecified net lo, n)
      | (Ok _, net) => let '(r, lo, n) := lo_connect lo addr n in (r, UUnspecified net lo, n)
      end
  end.

Definition connected_plane (u : UdpSocket) : option Plane :=
  match u with
  | UNetwork net | UUnspecified net _ => ns_plane net
  | ULoopback _ => Some Virtual
  end.

Definition udp_family (u : UdpSocket) : SocketAddressFamily :=
  match u with
  | UNetwork net | UUnspecified net _ => ns_family net
  | ULoopback lo => lo_family lo
  end.

Definition hold_quota_slot (u : UdpSocket) (slot : option ConnectionSlot) : UdpSocket :=
  match slot with
  | None => u
  | Some _ =>
      match u with
      | UNetwork s => UNetwork (ns_set_slot s slot)
      | UUnspecified net lo => UUnspecified (ns_set_slot net slot) lo
      | ULoopback _ => u
      end
  end.

Definition udp_drop (u : UdpSocket) (n : Network) : option Network :=
  match u with
  | UNetwork _ => Some n
  | ULoopback lo | UUnspecified _ lo => lo_drop lo n
  end.

(** ** Addresses and options of the socket a guest holds *)

Definition udp_is_connected (u : UdpSocket) : bool :=
  match u with
  | UNetwork s => ns_is_connected s
  | ULoopback lo => lo_is_connected lo
  | UUnspecified net lo => ns_is_connected net && lo_is_connected lo
  end.

Definition udp_is_bound (u : UdpSocket) : bool :=
  match u with
  | UNetwork s => ns_is_bound s
  | ULoopback lo => lo_is_bound lo
  | UUnspecified net lo => ns_is_bound net && lo_is_bound lo
  end.

Definition udp_local_address (os : Os) (u : UdpSocket) : result SocketAddr ErrorCode :=
  match u with
  | UNetwork s | UUnspecified s _ => ns_local_address os s
  | ULoopback lo => lo_local_address lo
  end.

Definition udp_remote_address (os : Os) (u : UdpSocket) : result SocketAddr ErrorCode :=
  match u with
  | UNetwork s | UUnspecified s _ => ns_remote_address os s
  | ULoopback lo => lo_remote_address lo
  end.

(** The real half answers for a socket that has one; both halves are set, the
    real one first. *)
Definition get_option {A} (real : NetworkUdpSocket → result A ErrorCode) (virt : LoUdpSocket → A)
    (u : UdpSocket) : result A ErrorCode :=
  match u with
  | UNetwork s | UUnspecified s _ => real s
  | ULoopback lo => Ok (virt lo)
  end.

Definition set_option (real : result unit ErrorCode)
    (virt : LoUdpSocket → result LoUdpSocket ErrorCode) (u : UdpSocket) :
    result unit ErrorCode * UdpSocket :=
  match u with
  | UNetwork _ => (real, u)
  | ULoopback lo => match virt lo with
                    | Ok lo => (Ok tt, ULoopback lo)
                    | Err e => (Err e, u)
                    end
  | UUnspecified net lo =>
      match real with
      | Err e => (Err e, u)
      | Ok _ => match virt lo with
                | Ok lo => (Ok tt, UUnspecified net lo)
                | Err e => (Err e, u)
                end
      end
  end.

Definition udp_unicast_hop_limit (os : Os) : UdpSocket → result Z ErrorCode :=
  get_option (ns_unicast_hop_limit os) lo_hop_limit.
Definition udp_set_unicast_hop_limit (os : Os) (value : Z) :
    UdpSocket → result unit ErrorCode * UdpSocket :=
  set_option (ns_set_unicast_hop_limit os value) (λ lo, lo_set_unicast_hop_limit lo value).
Definition udp_receive_buffer_size (os : Os) : UdpSocket → result Z ErrorCode :=
  get_option (λ _, ns_receive_buffer_size os) lo_receive_buffer_size.
Definition udp_set_receive_buffer_size (os : Os) (value : Z) :
    UdpSocket → result unit ErrorCode * UdpSocket :=
  set_option (ns_set_receive_buffer_size os value) (λ lo, lo_set_receive_buffer_size lo value).
Definition udp_send_buffer_size (os : Os) : UdpSocket → result Z ErrorCode :=
  get_option (λ _, ns_send_buffer_size os) lo_send_buffer_size.
Definition udp_set_send_buffer_size (os : Os) (value : Z) :
    UdpSocket → result unit ErrorCode * UdpSocket :=
  set_option (ns_set_send_buffer_size os value) (λ lo, lo_set_send_buffer_size lo value).

(** ** The virtual half stays registered *)

(** The virtual half's endpoint is in the network, under a real port, and knows
    the peer exactly when the socket does. *)
Definition lo_registered (n : Network) (s : LoUdpSocket) : Prop :=
  match lo_state s with
  | LBindStarted local rx | LBound local rx _ =>
      1 ≤ sock_port local ≤ u16_MAX
      ∧ get_udp_net n (sock_ip local) !! sock_port local
        = Some {| ep_tx := rx; ep_connected := None |}
  | LConnected local remote rx _ =>
      1 ≤ sock_port local ≤ u16_MAX
      ∧ get_udp_net n (sock_ip local) !! sock_port local
        = Some {| ep_tx := rx; ep_connected := Some remote |}
  | LClosed => False
  end.

Definition registered (n : Network) (u : UdpSocket) : Prop :=
  match u with
  | UNetwork _ => True
  | ULoopback lo | UUnspecified _ lo => lo_registered n lo
  end.

Lemma lo_connect_registered s addr n r s' n' :
  lo_registered n s → lo_connect s addr n = (r, s', n') →
  lo_registered n' s' ∧ (r = Err InvalidState → lo_is_bound s = false).
Proof.
  unfold lo_connect. intros Hr. destruct (_ || _).
  { intros [= <- <- <-]. by split. }
  unfold lo_registered, lo_is_bound in *. destruct (lo_state s) as [l x|l x p|l m x p|] eqn:Es.
  - intros [= <- <- <-]. rewrite Es. by split.
  - destruct Hr as [Hp He]. rewrite (proj2 (Z.eqb_neq _ 0)) by lia. rewrite He.
    intros [= <- <- <-]. simpl. unfold set_connected. rewrite get_set_udp, lookup_insert_eq.
    done.
  - destruct Hr as [Hp He]. rewrite (proj2 (Z.eqb_neq _ 0)) by lia. rewrite He.
    intros [= <- <- <-]. simpl. unfold set_connected. rewrite get_set_udp, lookup_insert_eq.
    done.
  - done.
Qed.

Lemma lo_disconnect_registered s n r s' n' :
  lo_registered n s → lo_disconnect s n = (r, s', n') →
  lo_registered n' s' ∧ (r = Ok tt ↔ lo_is_connected s = true).
Proof.
  unfold lo_disconnect. intros Hr.
  unfold lo_registered, lo_is_connected in *. destruct (lo_state s) as [l x|l x p|l m x p|] eqn:Es.
  - intros [= <- <- <-]. by rewrite Es.
  - intros [= <- <- <-]. by rewrite Es.
  - destruct Hr as [Hp He]. rewrite (proj2 (Z.eqb_neq _ 0)) by lia. rewrite He. simpl.
    intros [= <- <- <-]. simpl. unfold set_connected. by rewrite get_set_udp, lookup_insert_eq.
  - done.
Qed.

Lemma bind_virtual_registered os s addr n chan lo n' :
  0 ≤ sock_port addr ≤ u16_MAX → bind_virtual os s addr n chan = (Ok lo, n') →
  lo_registered n' lo.
Proof.
  intros Hp. unfold bind_virtual. destruct (bind_udp n addr chan) as [[a n1]|] eqn:E; [|done].
  destruct (bind_udp_Ok n addr chan a n1 Hp E) as (Hip & Hr & _ & ->).
  unfold lo_new. intros Hl. destruct (get_unicast_hop_limit _ _) as [hop|]; [|done].
  destruct (receive_buffer_size _) as [rb|]; [|done].
  destruct (send_buffer_size _) as [sb|]; [|done]. injection Hl as <- <-.
  unfold lo_registered. simpl. by rewrite Hip, get_set_udp, lookup_insert_eq.
Qed.

(** The addresses the operating system reports carry 16-bit ports. *)
Definition os_ok (os : Os) : Prop :=
  ∀ a, os_local_addr os = Ok a → 0 ≤ sock_port a ≤ u16_MAX.

Lemma udp_bind_registered os u addr n chan r u' n' :
  os_ok os → 0 ≤ sock_port addr ≤ u16_MAX → registered n u →
  udp_bind os u addr n chan = (r, u', n') → registered n' u'.
Proof.
  intros Hos Hp Hu. unfold udp_bind. destruct u as [s|lo|s lo].
  2,3: by intros [= <- <- <-].
  destruct (negb (ns_is_unbound s)); [by intros [= <- <- <-]|].
  destruct (negb _); [by intros [= <- <- <-]|]. cbn zeta.
  destruct (is_loopback _).
  { destruct (bind_virtual os s addr n chan) as [[lo|e] n1] eqn:Eb; intros [= <- <- <-]; [|done].
    by eapply bind_virtual_registered. }
  destruct (ns_bind os s addr) as [s1|e]; [|by intros [= <- <- <-]].
  destruct (negb _); [by intros [= <- <- <-]|].
  destruct (os_local_addr os) as [l|e] eqn:El; [|by intros [= <- <- <-]].
  destruct (bind_virtual _ _ _ _ _) as [[lo|e] n1] eqn:Eb; intros [= <- <- <-]; [|done].
  eapply bind_virtual_registered; [|done]. specialize (Hos l El). by destruct l.
Qed.

Lemma finish_bind_registered n u r u' :
  registered n u → udp_finish_bind u = (r, u') → registered n u'.
Proof.
  intros Hu. unfold udp_finish_bind.
  assert (∀ lo lo', lo_registered n lo → lo_finish_bind lo = Ok lo' → lo_registered n lo') as Hlo.
  { intros lo lo' Hr. unfold lo_finish_bind, lo_registered in *.
    destruct (lo_state lo); try done. by intros [= <-]. }
  destruct u as [s|lo|s lo]; simpl in *.
  - by destruct (ns_finish_bind s); intros [= <- <-].
  - destruct (lo_finish_bind lo) eqn:E; intros [= <- <-]; simpl; eauto.
  - destruct (ns_finish_bind s); [|by intros [= <- <-]].
    destruct (lo_finish_bind lo) eqn:E; intros [= <- <-]; simpl; eauto.
Qed.

Lemma hold_slot_registered n u c : registered n (hold_quota_slot u c) ↔ registered n u.
Proof. by destruct c, u. Qed.

Lemma connect_on_registered os n u addr plane until r u' n' :
  registered n u → udp_connect_on os u addr plane until n = (r, u', n') → registered n' u'.
Proof.
  intros Hu. unfold udp_connect_on. destruct u as [s|lo|s lo]; simpl in *.
  - destruct (ns_connect_on _ _ _ _ _) as [? ?]. by intros [= <- <- <-].
  - destruct (lo_connect lo addr n) as [[r1 lo1] n1] eqn:E. intros [= <- <- <-].
    by eapply lo_connect_registered.
  - destruct (ns_connect_on _ _ _ _ _) as [[?|?] s1]; [|by intros [= <- <- <-]].
    destruct (lo_connect lo addr n) as [[r1 lo1] n1] eqn:E. intros [= <- <- <-].
    by eapply lo_connect_registered.
Qed.

Lemma disconnect_registered os n u r u' n' :
  registered n u → udp_disconnect os u n = (r, u', n') → registered n' u'.
Proof.
  intros Hu. unfold udp_disconnect. destruct u as [s|lo|s lo]; simpl in *.
  - by destruct (ns_disconnect os s); intros [= <- <- <-].
  - destruct (lo_disconnect lo n) as [[r1 lo1] n1] eqn:E. intros [= <- <- <-].
    by eapply lo_disconnect_registered.
  - destruct (ns_disconnect os s); [|by intros [= <- <- <-]].
    destruct (lo_disconnect lo n) as [[r1 lo1] n1] eqn:E. intros [= <- <- <-].
    by eapply lo_disconnect_registered.
Qed.

(** ** The decision a peer was connected under *)

(** a connected socket holds the plane and deadline of the decision that
    connected it.  A successful connect records the new ones for the new peer; a
    connect refused before reaching the operating system leaves the old peer with
    the old ones; one the operating system refused leaves no peer and none. *)
Theorem connect_records_decision_of_its_peer os s addr plane until :
  let '(r, s') := ns_connect_on os s addr plane until in
  match r with
  | Ok _ => ns_state s' = NConnected addr ∧ ns_plane s' = Some plane ∧ ns_until s' = until
  | Err _ => (ns_is_connected s = true ∧ s' = s)
             ∨ (ns_is_connected s' = false ∧ ns_plane s' = None ∧ ns_until s' = None)
  end.
Proof.
  unfold ns_connect_on, ns_connect.
  destruct (_ || _).
  { destruct (ns_is_connected s) eqn:E; [by left|]. right. split; [|done]. exact E. }
  destruct (ns_state s) as [| | |peer] eqn:E; simpl.
  - right. unfold ns_is_connected. rewrite E. simpl. by rewrite E.
  - right. unfold ns_is_connected. rewrite E. simpl. by rewrite E.
  - destruct (SocketUtil.udp_connect _ _); [done|]. by right.
  - destruct (SocketUtil.udp_connect _ _); [done|]. by right.
Qed.

(** ** Send permits of the virtual half *)

(** The bytes in flight: the buffer less what is available. *)
Definition outstanding (s : LoUdpSocket) : option Z :=
  match lo_state s with
  | LBound _ _ permits | LConnected _ _ _ permits => Some (lo_send_buffer_size s - permits)
  | _ => None
  end.

(** resizing the send buffer never loses or invents a permit.  With the
    buffer's bytes in flight between none and the whole buffer, any resize keeps
    exactly those in flight accounted for, and the buffer ends at the size asked
    for (at most 64 KiB) or, when it shrinks below what is in flight, at what is
    in flight. *)
Theorem send_buffer_resize_conserves s value s' out :
  0 < value ≤ u64_MAX → 0 ≤ lo_send_buffer_size s ≤ 4294967295 →
  outstanding s = Some out → 0 ≤ out ≤ lo_send_buffer_size s →
  lo_set_send_buffer_size s value = Ok s' →
  outstanding s' = Some out
  ∧ lo_send_buffer_size s' = Z.max (Z.min value MAX_SEND_BUFFER_SIZE)
                               (if lo_send_buffer_size s <=? Z.min value MAX_SEND_BUFFER_SIZE
                                then 0 else out).
Proof.
  intros Hv Hs Ho Hout. unfold lo_set_send_buffer_size.
  rewrite (proj2 (Z.eqb_neq value 0)) by lia.
  assert (Z.min (if value <=? 4294967295 then value else MAX_SEND_BUFFER_SIZE) MAX_SEND_BUFFER_SIZE
          = Z.min value MAX_SEND_BUFFER_SIZE) as ->.
  { unfold MAX_SEND_BUFFER_SIZE. destruct (Z.leb_spec value 4294967295); lia. }
  set (v := Z.min value MAX_SEND_BUFFER_SIZE).
  assert (0 ≤ v) by (unfold v, MAX_SEND_BUFFER_SIZE; lia).
  unfold outstanding in *.
  destruct (lo_state s) as [l x|l x p|l m x p|]; try discriminate Ho; injection Ho as <-.
  all: destruct (Z.ltb_spec 0 (Z.max 0 (lo_send_buffer_size s - v)));
    [destruct (Z.leb_spec (v + Z.max 0 (Z.max 0 (lo_send_buffer_size s - v)
                 - Z.min (Z.max 0 (lo_send_buffer_size s - v)) p)) 4294967295)|];
    try discriminate; intros [= <-]; simpl;
    destruct (Z.leb_spec (lo_send_buffer_size s) v); (split; [f_equal|]); lia.
Qed.

Definition busy_socket : LoUdpSocket :=
  {| lo_state := LBound (SocketV4 LOCALHOST_V4 53) 0 40; lo_hop_limit := 64;
     lo_receive_buffer_size := 1; lo_send_buffer_size := 100; lo_family := Ipv4 |}.

Lemma send_buffer_resize_conserves_witness :
  outstanding busy_socket = Some 60
  ∧ ∃ s', lo_set_send_buffer_size busy_socket 10 = Ok s' ∧ outstanding s' = Some 60.
Proof.
  split; [reflexivity|]. eexists. split; [reflexivity|].
  refine (proj1 (send_buffer_resize_conserves busy_socket 10 _ 60 _ _ _ _ _));
    first [reflexivity | unfold u64_MAX; simpl; lia].
Defined.
