(* ===== verification/UdpHandlers.v ===== *)
(** * The p3 UDP handlers

    [sockets/host_udp_p3.rs]: create, bind, connect, disconnect, send, receive
    and drop, each with its policy checks.  The state is one socket, the virtual
    network its workload shares, the policy's permits and counters, and the
    process's datagram channels: a queue per live receiver, and the one
    semaphore ([UDP_PERMITS]) that every queued virtual datagram of every guest
    draws on. *)

From Stdlib Require Import ZArith Lia.
From stdpp Require Import base list gmap strings option.
From S2P Require Import Prelude RustStr Net UriLib EgressPolicy InternalNames DeclaredPort AllowedIpName.
From S2P Require Import AllowedHosts SocketUtil Quota ResolvedNames SocketPolicy Slots LoopbackNet UdpSocket.
Local Open Scope Z_scope.

(** ** Channels *)

Record Datagram := { dg_source : SocketAddr; dg_data : list Z }.

(** [data.len().max(1)] permits ride with a datagram until it is taken. *)
Definition dg_cost (d : Datagram) : Z := Z.max (Z.of_nat (length (dg_data d))) 1.

(** [queues] holds the channels whose receiver is alive. *)
Record Wire := { udp_permits : Z; queues : gmap Channel (list Datagram) }.

Definition idle_wire : Wire := {| udp_permits := u16_MAX; queues := ∅ |}.

(** [try_acquire_many_owned], then [tx.send], whose failure drops both. *)
Definition enqueue (w : Wire) (tx : Channel) (d : Datagram) : result Wire ErrorCode :=
  if udp_permits w <? dg_cost d then Err OutOfMemory
  else match queues w !! tx with
       | None => Ok w
       | Some q => Ok {| udp_permits := udp_permits w - dg_cost d;
                         queues := <[tx := q ++ [d]]> (queues w) |}
       end.

Definition total_cost (q : list Datagram) : Z := foldr (λ d z, dg_cost d + z) 0 q.

(** The receiver's end: what is still queued is dropped with it. *)
Definition close_rx (w : Wire) (rx : Channel) : Wire :=
  {| udp_permits := udp_permits w + total_cost (default [] (queues w !! rx));
     queues := delete rx (queues w) |}.

(** A socket keeps the receiver its virtual bind created. *)
Definition lo_rx (lo : LoUdpSocket) : option Channel :=
  match lo_state lo with
  | LBindStarted _ rx | LBound _ rx _ | LConnected _ _ rx _ => Some rx
  | LClosed => None
  end.
Definition udp_rx (u : UdpSocket) : option Channel :=
  match u with UNetwork _ => None | ULoopback lo | UUnspecified _ lo => lo_rx lo end.

Definition open_rx (w : Wire) (u : UdpSocket) : Wire :=
  match udp_rx u with
  | None => w
  | Some rx => match queues w !! rx with
               | Some _ => w
               | None => {| udp_permits := udp_permits w; queues := <[rx := []]> (queues w) |}
               end
  end.

(** ** Quota slots a socket lets go of *)

Definition slot_of (u : UdpSocket) : option ConnectionSlot :=
  match u with UNetwork s | UUnspecified s _ => ns_slot s | ULoopback _ => None end.

(** [hold_quota_slot] drops the slot it replaces, or the new one when the socket
    is virtual only. *)
Definition displaced_slot (u : UdpSocket) (slot : option ConnectionSlot) : option ConnectionSlot :=
  match slot with
  | None => None
  | Some _ => match u with ULoopback _ => slot | _ => slot_of u end
  end.

(** A loopback bind drops the real half, and its slot with it. *)
Definition lost_slot (u u' : UdpSocket) : option ConnectionSlot :=
  match u' with ULoopback _ => slot_of u | _ => None end.

(** ** The handlers *)

Record UdpWorld := { sk : UdpSocket; vnet : Network; pst : PolicyState; wire : Wire }.

Definition set_pst (w : UdpWorld) (st : PolicyState) : UdpWorld :=
  {| sk := sk w; vnet := vnet w; pst := st; wire := wire w |}.

(** The outcome of [bind]: a dropped real half gives its slot back, and a new
    virtual half its channel. *)
Definition rebind (w : UdpWorld) (u : UdpSocket) (n : Network) (st : PolicyState) : UdpWorld :=
  {| sk := u; vnet := n; pst := release_slot st (lost_slot (sk w) u);
     wire := open_rx (wire w) u |}.

Definition hold_slot (w : UdpWorld) (slot : option ConnectionSlot) : UdpWorld :=
  {| sk := hold_quota_slot (sk w) slot; vnet := vnet w;
     pst := release_slot (pst w) (displaced_slot (sk w) slot); wire := wire w |}.

Inductive SendTarget :=
  | ToNetwork (addr : option SocketAddr) (connected : bool)
  | ToLoopback (local addr : SocketAddr).

(** What a successful send did. *)
Inductive Sent :=
  | SentReal (to : option SocketAddr)      (** through the machine's network; [None]: to the peer *)
  | SentVirtual (to : option Channel).     (** into the virtual network; [None]: nobody there *)

Definition loopback_half (lo : LoUdpSocket) (remote : option SocketAddr) :
    result SendTarget ErrorCode :=
  (let? local := lo_local_address lo in
   match remote with
   | Some a => Ok (ToLoopback local a)
   | None =>
       if lo_is_connected lo then
         let? a := lo_remote_address lo in Ok (ToLoopback local a)
       else Err InvalidArgument
   end)%rust.

Definition send_target (u : UdpSocket) (remote : option SocketAddr) (plane : option Plane) :
    result SendTarget ErrorCode :=
  let plane := match plane with Some p => Some p | None => connected_plane u end in
  match u with
  | UUnspecified net lo =>
      if bool_decide (plane = Some Virtual) then loopback_half lo remote
      else Ok (ToNetwork remote (ns_is_connected net))
  | UNetwork net => Ok (ToNetwork remote (ns_is_connected net))
  | ULoopback lo =>
      if bool_decide (plane = Some Host) then Err InvalidArgument else loopback_half lo remote
  end.

(** Remember the peer before sending, when the socket filters its peers. *)
Definition remember_peer (u : UdpSocket) (a : SocketAddr) : UdpSocket :=
  match u with
  | UNetwork net => UNetwork (ns_set_peers net ((λ s, {[a]} ∪ s) <$> ns_peers net))
  | UUnspecified net lo => UUnspecified (ns_set_peers net ((λ s, {[a]} ∪ s) <$> ns_peers net)) lo
  | ULoopback _ => u
  end.

Definition sent_real (os : Os) (to : option SocketAddr) : result Sent ErrorCode :=
  match os_send os to with Ok _ => Ok (SentReal to) | Err e => Err (from_io_error e) end.

Definition deliver (os : Os) (t : SendTarget) (w : UdpWorld) (data : list Z) :
    result Sent ErrorCode * UdpWorld :=
  match t with
  | ToNetwork (Some a) _ =>
      (sent_real os (Some a),
       {| sk := remember_peer (sk w) a; vnet := vnet w; pst := pst w; wire := wire w |})
  | ToNetwork None true => (sent_real os None, w)
  | ToNetwork None false => (Err InvalidArgument, w)
  | ToLoopback local addr =>
      match connect_udp (vnet w) local addr with
      | Err e => (Err e, w)
      | Ok None => (Ok (SentVirtual None), w)
      | Ok (Some tx) =>
          match enqueue (wire w) tx {| dg_source := local; dg_data := data |} with
          | Err e => (Err e, w)
          | Ok wr => (Ok (SentVirtual (Some tx)),
                      {| sk := sk w; vnet := vnet w; pst := pst w; wire := wr |})
          end
      end
  end.

Section handlers.
Context `{UriLib}.
Implicit Types (c : WasiSocketsCtx) (w : UdpWorld).

Definition p3_create c (os : Os) (family : SocketAddressFamily) (now : Instant)
    (st : PolicyState) : result UdpSocket ErrorCode * PolicyState :=
  let '(r, st) := check c (implicit_bind_addr family) UdpCreate now st in
  match r with
  | Err e => (Err e, st)
  | Ok allowed =>
      match ns_new os (ctx_network_uses c) family with
      | Err e => (Err e, release_slot st (permit allowed))
      | Ok s => (Ok (hold_quota_slot (UNetwork s) (permit allowed)), st)
      end
  end.

Definition p3_bind c (os : Os) w (addr : SocketAddr) (chan : Channel) (now : Instant) :
    result unit ErrorCode * UdpWorld :=
  let '(r, st) := check c addr UdpBind now (pst w) in
  match r with
  | Err e => (Err e, set_pst w st)
  | Ok allowed =>
      let st := release_slot st (permit allowed) in
      let '(r, u, n) := udp_bind os (sk w) (al_addr allowed) (vnet w) chan in
      let w := rebind w u n st in
      match r with
      | Err e => (Err e, w)
      | Ok _ =>
          let '(r, u) := udp_finish_bind (sk w) in
          (r, {| sk := u; vnet := vnet w; pst := pst w; wire := wire w |})
      end
  end.

Definition p3_connect c (os : Os) w (addr : SocketAddr) (now : Instant) :
    result unit ErrorCode * UdpWorld :=
  let '(r, st) := check c addr UdpConnect now (pst w) in
  match r with
  | Err e => (Err e, set_pst w st)
  | Ok allowed =>
      let w := hold_slot (set_pst w st) (permit allowed) in
      let '(r, u, n) := udp_connect_on os (sk w) (al_addr allowed) (al_plane allowed)
                          (valid_until allowed) (vnet w) in
      (r, {| sk := u; vnet := n; pst := pst w; wire := wire w |})
  end.

Definition p3_disconnect (os : Os) w : result unit ErrorCode * UdpWorld :=
  let '(r, u, n) := udp_disconnect os (sk w) (vnet w) in
  (r, {| sk := u; vnet := n; pst := pst w; wire := wire w |}).

(** [refresh_connected] of [host_udp_p3.rs]: only a connected socket with a
    real half has a peer and a deadline. *)
Definition p3_refresh c (os : Os) w (now : Instant) : result unit ErrorCode * UdpWorld :=
  let refresh net (rebuild : NetworkUdpSocket → UdpSocket) :=
    match ns_remote_address os net with
    | Err _ => (Ok tt, w)
    | Ok peer =>
        let '(r, st) := refresh_connected c peer (ns_until net) now (pst w) in
        match r with
        | Ok until => (Ok tt, {| sk := rebuild (ns_set_decision net (ns_plane net) until);
                                 vnet := vnet w; pst := st; wire := wire w |})
        | Err e => (Err e, set_pst w st)
        end
    end in
  match sk w with
  | UNetwork net => refresh net UNetwork
  | UUnspecified net lo => refresh net (λ net, UUnspecified net lo)
  | ULoopback _ => (Ok tt, w)
  end.

(** The implicit bind of an unbound socket's first [send-to]. *)
Definition p3_implicit_bind c (os : Os) w (chan : Channel) (now : Instant) :
    result unit ErrorCode * UdpWorld :=
  if negb (needs_implicit_bind (sk w)) then (Ok tt, w)
  else
    let addr := implicit_bind_addr (udp_family (sk w)) in
    let '(r, st) := check c addr UdpImplicitBind now (pst w) in
    match r with
    | Err e => (Err e, set_pst w st)
    | Ok allowed =>
        let '(r, u, n) := udp_bind os (sk w) addr (vnet w) chan in
        let w := rebind w u n st in
        match r with
        | Err e => (Err e, set_pst w (release_slot (pst w) (permit allowed)))
        | Ok _ =>
            let '(r, u) := udp_finish_bind (sk w) in
            let w := {| sk := u; vnet := vnet w; pst := pst w; wire := wire w |} in
            match r with
            | Err e => (Err e, set_pst w (release_slot (pst w) (permit allowed)))
            | Ok _ => (Ok tt, hold_slot w (permit allowed))
            end
        end
    end.

(** The tail of [send]: choose the half, then hand the datagram over. *)
Definition p3_transmit (os : Os) w (remote : option SocketAddr) (plane : option Plane)
    (data : list Z) : result Sent ErrorCode * UdpWorld :=
  match send_target (sk w) remote plane with
  | Err e => (Err e, w)
  | Ok t => deliver os t w data
  end.

Definition MAX_UDP_DATAGRAM_SIZE : Z := u16_MAX.

Definition p3_send c (os : Os) w (data : list Z) (remote : option SocketAddr) (chan : Channel)
    (now : Instant) : result Sent ErrorCode * UdpWorld :=
  if MAX_UDP_DATAGRAM_SIZE <? Z.of_nat (length data) then (Err DatagramTooLarge, w)
  else match remote with
  | Some addr =>
      let '(r, st) := check c addr UdpOutgoingDatagram now (pst w) in
      match r with
      | Err e => (Err e, set_pst w st)
      | Ok allowed =>
          let w := set_pst w (release_slot st (permit allowed)) in
          let '(r, w) := p3_implicit_bind c os w chan now in
          match r with
          | Err e => (Err e, w)
          | Ok _ => p3_transmit os w (Some (al_addr allowed)) (Some (al_plane allowed)) data
          end
      end
  | None =>
      let '(r, w) := p3_refresh c os w now in
      match r with
      | Err e => (Err e, w)
      | Ok _ => p3_transmit os w None None data
      end
  end.

(** What [recv] or [recv_from] yields next, in order, until it would wait. *)
Abbreviation Inbox := (list (result (list Z * SocketAddr) IoError)).

Inductive Received :=
  | Got (data : list Z) (from : SocketAddr)
  | Pending.                                 (** still waiting *)

Definition MAX_REFUSED_DATAGRAMS_PER_RECEIVE : nat := 64.

(** A stranger to a socket that filters its peers; the kernel filters for a
    connected one. *)
Definition unsolicited (connected : option SocketAddr) (peers : option (gset SocketAddr))
    (from : SocketAddr) : bool :=
  match connected, peers with
  | None, Some peers => bool_decide (from ∉ peers)
  | _, _ => false
  end.

Fixpoint recv_net c (connected : option SocketAddr) (peers : option (gset SocketAddr))
    (inbox : Inbox) (refused : nat) (now : Instant) (st : PolicyState) :
    result Received ErrorCode * Inbox * PolicyState :=
  match inbox with
  | [] => (Ok Pending, [], st)
  | Err e :: inbox => (Err (from_io_error e), inbox, st)
  | Ok (data, from) :: inbox =>
      if unsolicited connected peers from
      then recv_net c connected peers inbox refused now st
      else
        let addr := default from connected in
        let '(r, st) := check c addr UdpReceive now st in
        match r with
        | Ok _ => (Ok (Got data addr), inbox, st)
        | Err _ =>
            if (MAX_REFUSED_DATAGRAMS_PER_RECEIVE <=? S refused)%nat
            then (Err AccessDenied, inbox, st)
            else recv_net c connected peers inbox (S refused) now st
        end
  end.

(** [q] is the channel's queue; [alive] says that a sender still exists. *)
Fixpoint recv_lo c (alive : bool) (rx : Channel) (q : list Datagram) (wr : Wire) (refused : nat)
    (now : Instant) (st : PolicyState) : result Received ErrorCode * Wire * PolicyState :=
  match q with
  | [] => (if alive then Ok Pending else Err ConnectionReset, wr, st)
  | d :: q =>
      let wr := {| udp_permits := udp_permits wr + dg_cost d;
                   queues := <[rx := q]> (queues wr) |} in
      let '(r, st) := check c (dg_source d) UdpReceive now st in
      match r with
      | Ok _ => (Ok (Got (dg_data d) (dg_source d)), wr, st)
      | Err _ =>
          if (MAX_REFUSED_DATAGRAMS_PER_RECEIVE <=? S refused)%nat
          then (Err AccessDenied, wr, st)
          else recv_lo c alive rx q wr (S refused) now st
      end
  end.

(** The one sender of a socket's channel is its endpoint in the network. *)
Definition sender_alive (n : Network) (local : SocketAddr) (rx : Channel) : bool :=
  match get_udp_net n (sock_ip local) !! sock_port local with
  | Some ep => bool_decide (ep_tx ep = rx)
  | None => false
  end.

(** A socket with both halves listens on the real one only. *)
Definition p3_receive c (os : Os) w (inbox : Inbox) (now : Instant) :
    result Received ErrorCode * Inbox * UdpWorld :=
  match sk w with
  | UNetwork net | UUnspecified net _ =>
      let listen connected :=
        let '(r, inbox, st) := recv_net c connected (ns_peers net) inbox 0 now (pst w) in
        (r, inbox, set_pst w st) in
      if ns_is_connected net then
        match ns_remote_address os net with
        | Err e => (Err e, inbox, w)
        | Ok addr => listen (Some addr)
        end
      else listen None
  | ULoopback lo =>
      match lo_state lo with
      | LBound local rx _ | LConnected local _ rx _ =>
          let q := default [] (queues (wire w) !! rx) in
          let '(r, wr, st) := recv_lo c (sender_alive (vnet w) local rx) rx q (wire w) 0 now
                                (pst w) in
          (r, inbox, {| sk := sk w; vnet := vnet w; pst := st; wire := wr |})
      | _ => (Err InvalidState, inbox, w)
      end
  end.

(** [None]: a trap.  The real half's slot and the queued datagrams go with it. *)
Definition p3_drop w : option (Network * PolicyState * Wire) :=
  n ← udp_drop (sk w) (vnet w);
  Some (n, release_slot (pst w) (slot_of (sk w)),
        match udp_rx (sk w) with Some rx => close_rx (wire w) rx | None => wire w end).

End handlers.

(** ** Every datagram in flight is paid for *)

Definition in_flight (m : gmap Channel (list Datagram)) : Z :=
  map_fold (λ _ q z, total_cost q + z) 0 m.

Definition wire_ok (w : Wire) : Prop :=
  udp_permits w + in_flight (queues w) = u16_MAX ∧ 0 ≤ udp_permits w.

Lemma dg_cost_pos d : 1 ≤ dg_cost d.
Proof. unfold dg_cost. lia. Qed.

Lemma total_cost_app q q' : total_cost (q ++ q') = total_cost q + total_cost q'.
Proof. induction q as [|d q IH]; simpl; [done|]. unfold total_cost in *. simpl. lia. Qed.

Lemma total_cost_nonneg q : 0 ≤ total_cost q.
Proof. induction q as [|d q IH]; simpl; [lia|]. pose proof (dg_cost_pos d). lia. Qed.

Lemma in_flight_insert m rx q :
  in_flight (<[rx := q]> m) = in_flight m - total_cost (default [] (m !! rx)) + total_cost q.
Proof.
  assert (∀ m rx q, m !! rx = None →
            in_flight (<[rx := q]> m) = total_cost q + in_flight m) as Hnew.
  { intros m' rx' q' Hm. unfold in_flight. rewrite map_fold_insert_L; [done| |done].
    intros. lia. }
  destruct (m !! rx) as [q0|] eqn:E; simpl.
  - rewrite <-insert_delete_eq, Hnew by apply lookup_delete_eq.
    rewrite <-(insert_delete_id m rx q0 E) at 2. rewrite Hnew by apply lookup_delete_eq. lia.
  - rewrite Hnew by done. simpl. lia.
Qed.

Lemma in_flight_delete m rx :
  in_flight (delete rx m) = in_flight m - total_cost (default [] (m !! rx)).
Proof.
  destruct (m !! rx) as [q0|] eqn:E; simpl.
  - rewrite <-(insert_delete_id m rx q0 E) at 2.
    rewrite in_flight_insert, lookup_delete_eq. simpl. lia.
  - rewrite delete_id by done. simpl. lia.
Qed.

Lemma enqueue_ok w tx d w' : enqueue w tx d = Ok w' → wire_ok w → wire_ok w'.
Proof.
  unfold enqueue, wire_ok. destruct (Z.ltb_spec (udp_permits w) (dg_cost d)); [done|].
  destruct (queues w !! tx) as [q|] eqn:E; intros [= <-] [He Hp]; [|done]. simpl.
  rewrite in_flight_insert, E. simpl. rewrite total_cost_app. simpl. split; lia.
Qed.

Lemma open_rx_ok w u : wire_ok w → wire_ok (open_rx w u).
Proof.
  unfold open_rx, wire_ok. destruct (udp_rx u) as [rx|]; [|done].
  destruct (queues w !! rx) eqn:E; [done|]. simpl. intros [He Hp].
  rewrite in_flight_insert, E. simpl. split; lia.
Qed.

Lemma close_rx_ok w rx : wire_ok w → wire_ok (close_rx w rx).
Proof.
  unfold close_rx, wire_ok. simpl. intros [He Hp]. rewrite in_flight_delete.
  pose proof (total_cost_nonneg (default [] (queues w !! rx))). split; lia.
Qed.

(** ** Slots a socket holds *)

Lemma hold_slot_held i u slot :
  held i (slot_of (hold_quota_slot u slot)) + held i (displaced_slot u slot)
  = held i (slot_of u) + held i slot.
Proof. destruct slot as [s|], u as [?|?|? ?]; simpl; lia. Qed.

Lemma bind_slot os u addr n chan r u' n' :
  udp_bind os u addr n chan = (r, u', n') →
  slot_of u' = slot_of u ∨ (∃ lo, u' = ULoopback lo) ∧ slot_of u' = None.
Proof.
  unfold udp_bind. destruct u as [s|lo|s lo]; [|intros [= _ <- _]; by left..].
  destruct (negb _); [intros [= _ <- _]; by left|].
  destruct (negb _); [intros [= _ <- _]; by left|]. destruct (is_loopback _).
  { destruct (bind_virtual _ _ _ _ _) as [[lo|e] n1]; intros [= _ <- _]; [right|by left]. eauto. }
  unfold ns_bind. destruct (os_bind os addr); [|intros [= _ <- _]; by left].
  destruct (negb _); [intros [= _ <- _]; by left|].
  destruct (os_local_addr os); [|intros [= _ <- _]; by left].
  destruct (bind_virtual _ _ _ _ _) as [[lo|e] n1]; intros [= _ <- _]; by left.
Qed.

Lemma bind_held os i u addr n chan r u' n' :
  udp_bind os u addr n chan = (r, u', n') →
  held i (slot_of u') + held i (lost_slot u u') = held i (slot_of u).
Proof.
  intros Hb. destruct (bind_slot _ _ _ _ _ _ _ _ Hb) as [Hs | [[lo ->] _]]; [|done].
  unfold lost_slot. destruct u' as [?|lo|? ?]; simpl in *; rewrite <-?Hs; simpl; lia.
Qed.

(** ** What the other operations leave alone *)

Definition peers_of (u : UdpSocket) : option (gset SocketAddr) :=
  match u with UNetwork s | UUnspecified s _ => ns_peers s | ULoopback _ => None end.
Definition has_both (u : UdpSocket) : bool :=
  match u with UUnspecified _ _ => true | _ => false end.

Record inherits (u u' : UdpSocket) : Prop := {
  inh_slot : slot_of u' = slot_of u;
  inh_peers : peers_of u' = peers_of u;
  inh_both : has_both u' = has_both u;
  inh_rx : ∀ rx, udp_rx u' = Some rx → udp_rx u = Some rx;
}.

Lemma inherits_refl u : inherits u u.
Proof. by split. Qed.

Lemma inherits_net s s' :
  ns_slot s' = ns_slot s → ns_peers s' = ns_peers s → inherits (UNetwork s) (UNetwork s').
Proof. by split. Qed.

Lemma inherits_lo lo lo' :
  (∀ rx, lo_rx lo' = Some rx → lo_rx lo = Some rx) → inherits (ULoopback lo) (ULoopback lo').
Proof. by split. Qed.

Lemma inherits_both s s' lo lo' :
  ns_slot s' = ns_slot s → ns_peers s' = ns_peers s →
  (∀ rx, lo_rx lo' = Some rx → lo_rx lo = Some rx) →
  inherits (UUnspecified s lo) (UUnspecified s' lo').
Proof. by split. Qed.

Create HintDb udp.
#[export] Hint Resolve inherits_refl inherits_net inherits_lo inherits_both : udp.

Lemma finish_bind_inherits u r u' : udp_finish_bind u = (r, u') → inherits u u'.
Proof.
  unfold udp_finish_bind, ns_finish_bind.
  assert (∀ lo lo', lo_finish_bind lo = Ok lo' → ∀ rx, lo_rx lo' = Some rx → lo_rx lo = Some rx)
    as Hlo.
  { intros lo lo'. unfold lo_finish_bind, lo_rx. destruct (lo_state lo); try done.
    by intros [= <-]. }
  destruct u as [s|lo|s lo]; [destruct (ns_state s)| |destruct (ns_state s)];
    try destruct (lo_finish_bind lo) eqn:E; intros [= _ <-]; eauto with udp.
Qed.

Lemma ns_connect_on_keeps os s addr plane until r s' :
  ns_connect_on os s addr plane until = (r, s') →
  ns_slot s' = ns_slot s ∧ ns_peers s' = ns_peers s.
Proof.
  unfold ns_connect_on, ns_connect. destruct (_ || _).
  - by destruct (ns_is_connected s); intros [= _ <-].
  - destruct (ns_state s); simpl; try (by destruct (ns_is_connected s); intros [= _ <-]);
      by destruct (SocketUtil.udp_connect _ _); simpl; intros [= _ <-].
Qed.

Lemma lo_connect_rx lo addr n r lo' n' :
  lo_connect lo addr n = (r, lo', n') → ∀ rx, lo_rx lo' = Some rx → lo_rx lo = Some rx.
Proof.
  unfold lo_connect, lo_rx. destruct (_ || _); [by intros [= _ <- _]|].
  destruct (lo_state lo) as [l x|l x p|l m x p|] eqn:Es; simpl;
    try (intros [= _ <- _]; by rewrite Es); destruct (_ =? 0); try (by intros [= _ <- _]);
    by destruct (get_udp_net _ _ !! _); intros [= _ <- _].
Qed.

Lemma lo_disconnect_rx lo n r lo' n' :
  lo_disconnect lo n = (r, lo', n') → ∀ rx, lo_rx lo' = Some rx → lo_rx lo = Some rx.
Proof.
  unfold lo_disconnect, lo_rx.
  destruct (lo_state lo) as [l x|l x p|l m x p|] eqn:Es; simpl;
    try (intros [= _ <- _]; by rewrite Es). destruct (_ =? 0); [by intros [= _ <- _]|].
  destruct (get_udp_net _ _ !! _) as [ep|]; [|by intros [= _ <- _]].
  by destruct (is_some _); intros [= _ <- _].
Qed.

Lemma connect_inherits os u addr plane until n r u' n' :
  udp_connect_on os u addr plane until n = (r, u', n') → inherits u u'.
Proof.
  unfold udp_connect_on. destruct u as [s|lo|s lo].
  - destruct (ns_connect_on _ _ _ _ _) as [r1 s1] eqn:E. intros [= _ <- _].
    apply ns_connect_on_keeps in E as [??]. by apply inherits_net.
  - destruct (lo_connect _ _ _) as [[r1 lo1] n1] eqn:E. intros [= _ <- _].
    eapply inherits_lo, lo_connect_rx, E.
  - destruct (ns_connect_on _ _ _ _ _) as [[?|?] s1] eqn:E; apply ns_connect_on_keeps in E as [??];
      [|intros [= _ <- _]; by apply inherits_both].
    destruct (lo_connect _ _ _) as [[r1 lo1] n1] eqn:E. intros [= _ <- _].
    apply inherits_both; [done..|]. eapply lo_connect_rx, E.
Qed.

Lemma disconnect_inherits os u n r u' n' :
  udp_disconnect os u n = (r, u', n') → inherits u u'.
Proof.
  unfold udp_disconnect, ns_disconnect. destruct u as [s|lo|s lo].
  - destruct (negb _); [intros [= _ <- _]; auto with udp|].
    destruct (os_disconnect os); intros [= _ <- _]; auto with udp.
  - destruct (lo_disconnect _ _) as [[r1 lo1] n1] eqn:E. intros [= _ <- _].
    eapply inherits_lo, lo_disconnect_rx, E.
  - destruct (negb _); [intros [= _ <- _]; auto with udp|].
    destruct (os_disconnect os); [|intros [= _ <- _]; auto with udp].
    destruct (lo_disconnect _ _) as [[r1 lo1] n1] eqn:E. intros [= _ <- _].
    apply inherits_both; [done..|]. eapply lo_disconnect_rx, E.
Qed.

Lemma bind_filters os u addr n chan r u' n' :
  udp_bind os u addr n chan = (r, u', n') →
  peers_of u' = peers_of u ∧ has_both u' = has_both u
  ∨ peers_of u' = Some ∅ ∨ has_both u' = false ∧ peers_of u' = None.
Proof.
  unfold udp_bind. destruct u as [s|lo|s lo]; [|intros [= _ <- _]; by left..].
  destruct (negb _); [intros [= _ <- _]; by left|].
  destruct (negb _); [intros [= _ <- _]; by left|]. destruct (is_loopback _).
  { destruct (bind_virtual _ _ _ _ _) as [[lo|e] n1]; intros [= _ <- _]; [|by left].
    by right; right. }
  unfold ns_bind. destruct (os_bind os addr); [|intros [= _ <- _]; by left].
  destruct (negb _); [intros [= _ <- _]; by left|].
  destruct (os_local_addr os); [|intros [= _ <- _]; by right; left].
  destruct (bind_virtual _ _ _ _ _) as [[lo|e] n1]; intros [= _ <- _]; by right; left.
Qed.

(** ** The invariant of a socket's life *)

Section socket_life.
Context `{UriLib}.
Implicit Types (c : WasiSocketsCtx) (w : UdpWorld) (D : gset SocketAddr).

(** [D] holds the destinations the policy has let this socket send to. *)
Record world_ok D w : Prop := {
  ok_registered : registered (vnet w) (sk w);
  ok_wire : wire_ok (wire w);
  ok_rx : ∀ rx, udp_rx (sk w) = Some rx → is_Some (queues (wire w) !! rx);
  ok_peers : ∀ p, peers_of (sk w) = Some p → p ⊆ D;
  ok_filter : has_both (sk w) = true → is_Some (peers_of (sk w));
}.

(** Permits available and permits this socket holds. *)
Definition balance (i : SemId) w : Z := permits (heap (pst w)) i + held i (slot_of (sk w)).

Definition sound D w w' : Prop :=
  (world_ok D w → world_ok D w') ∧ ∀ i, balance i w' = balance i w.

Lemma sound_refl D w : sound D w w.
Proof. by split. Qed.

Lemma sound_trans D w1 w2 w3 : sound D w1 w2 → sound D w2 w3 → sound D w1 w3.
Proof. intros [H1 B1] [H2 B2]. split; [auto|]. intros i. by rewrite B2. Qed.

Lemma check_bind_addr c addr reason now st a st' :
  reason ∈ [UdpBind; UdpImplicitBind] → check c addr reason now st = (Ok a, st') →
  al_addr a = addr.
Proof.
  intros Hr. unfold check, decide_for_store, decide_inner, decide_use.
  rewrite !elem_of_cons, elem_of_nil in Hr. destruct Hr as [-> | [-> | []]].
  - unfold decide_bind, allow_by_address. destruct (_ || _); simpl; [|done].
    by intros [= <- _].
  - simpl. by intros [= <- _].
Qed.

Lemma sound_pst D w st : heap st = heap (pst w) → sound D w (set_pst w st).
Proof.
  intros Hh. split; [by intros []; split|]. intros i. unfold balance. simpl. by rewrite Hh.
Qed.

Lemma sound_inherits D w u n :
  inherits (sk w) u → (registered (vnet w) (sk w) → registered n u) →
  sound D w {| sk := u; vnet := n; pst := pst w; wire := wire w |}.
Proof.
  intros [Hs Hp Hb Hx] Hr. split.
  - intros []. split; simpl; rewrite ?Hp, ?Hb; auto.
  - intros i. unfold balance. simpl. by rewrite Hs.
Qed.

Lemma open_rx_alive wr u rx : udp_rx u = Some rx → is_Some (queues (open_rx wr u) !! rx).
Proof.
  intros Hu. unfold open_rx. rewrite Hu. destruct (queues wr !! rx) eqn:E; [by rewrite E|].
  simpl. by rewrite lookup_insert_eq.
Qed.

Lemma sound_rebind D os w addr chan r u n st :
  os_ok os → 0 ≤ sock_port addr ≤ u16_MAX →
  udp_bind os (sk w) addr (vnet w) chan = (r, u, n) → heap st = heap (pst w) →
  sound D w (rebind w u n st).
Proof.
  intros Hos Hp Hb Hh. split.
  - intros [Hr Hw Hx Hd Hf]. split; simpl.
    + by eapply udp_bind_registered.
    + by apply open_rx_ok.
    + apply open_rx_alive.
    + intros p Hpp. destruct (bind_filters _ _ _ _ _ _ _ _ Hb) as [[He _] | [He | [_ He]]];
        rewrite He in Hpp; [auto| |done]. injection Hpp as <-. set_solver.
    + destruct (bind_filters _ _ _ _ _ _ _ _ Hb) as [[He ->] | [He | [-> _]]];
        [rewrite He; auto|rewrite He; eauto|done].
  - intros i. unfold balance, rebind. simpl. rewrite release_slot_permits, Hh.
    pose proof (bind_held _ i _ _ _ _ _ _ _ Hb). lia.
Qed.

Lemma sound_hold_None D w : sound D w (hold_slot w None).
Proof. split; [by intros []|done]. Qed.

Lemma p3_bind_sound D c os w addr chan now r w' :
  os_ok os → 0 ≤ sock_port addr ≤ u16_MAX → p3_bind c os w addr chan now = (r, w') →
  sound D w w'.
Proof.
  intros Hos Hp. unfold p3_bind.
  destruct (check c addr UdpBind now (pst w)) as [r0 st] eqn:Ec.
  destruct (check_no_spend _ _ _ _ _ _ _ Ec eq_refl) as [Hh Hn].
  destruct r0 as [a|e]; [|intros [= _ <-]; by apply sound_pst].
  apply check_bind_addr in Ec as ->; [|by left]. rewrite (Hn a eq_refl). simpl.
  destruct (udp_bind os (sk w) addr (vnet w) chan) as [[r1 u1] n1] eqn:Eb.
  pose proof (sound_rebind D _ _ _ _ _ _ _ st Hos Hp Eb Hh) as Hs.
  destruct r1; [|by intros [= _ <-]].
  destruct (udp_finish_bind u1) as [r2 u2] eqn:Ef. intros [= _ <-].
  eapply sound_trans; [exact Hs|]. apply sound_inherits; simpl.
  - by eapply finish_bind_inherits.
  - intros. by eapply finish_bind_registered.
Qed.

Lemma p3_connect_sound D c os w addr now r w' : p3_connect c os w addr now = (r, w') → sound D w w'.
Proof.
  unfold p3_connect. destruct (check c addr UdpConnect now (pst w)) as [r0 st] eqn:Ec.
  destruct (check_no_spend _ _ _ _ _ _ _ Ec eq_refl) as [Hh Hn].
  destruct r0 as [a|e]; [|intros [= _ <-]; by apply sound_pst]. rewrite (Hn a eq_refl).
  destruct (udp_connect_on _ _ _ _ _ _) as [[r1 u1] n1] eqn:E. intros [= _ <-].
  eapply sound_trans; [by apply (sound_pst D w st)|].
  eapply sound_trans; [apply sound_hold_None|].
  apply (sound_inherits D (hold_slot (set_pst w st) None) u1 n1).
  - by eapply connect_inherits.
  - intros. by eapply connect_on_registered.
Qed.

Lemma p3_disconnect_sound D os w r w' : p3_disconnect os w = (r, w') → sound D w w'.
Proof.
  unfold p3_disconnect. destruct (udp_disconnect _ _ _) as [[r1 u1] n1] eqn:E. intros [= _ <-].
  apply sound_inherits; [by eapply disconnect_inherits|]. intros. by eapply disconnect_registered.
Qed.

Lemma refresh_no_spend c peer until now st r st' :
  refresh_connected c peer until now st = (r, st') → heap st' = heap st.
Proof.
  unfold refresh_connected. destruct until as [d|]; [|by intros [= _ <-]].
  destruct (_ <=? _); [|by intros [= _ <-]].
  destruct (check c peer _ now st) as [r1 st1] eqn:Ec. intros [= _ <-].
  by apply check_no_spend in Ec as [? _].
Qed.

Lemma p3_refresh_sound D c os w now r w' : p3_refresh c os w now = (r, w') → sound D w w'.
Proof.
  unfold p3_refresh. destruct (sk w) as [s|lo|s lo] eqn:Es; [| by intros [= _ <-] |].
  all: destruct (ns_remote_address os s) as [peer|]; [|by intros [= _ <-]];
    destruct (refresh_connected _ _ _ _ _) as [[u|e] st] eqn:E; apply refresh_no_spend in E;
    intros [= _ <-]; (eapply sound_trans; [by apply (sound_pst D w st)|]); try apply sound_refl;
    eapply (sound_inherits D (set_pst w st) _ (vnet w)); simpl; rewrite Es; auto with udp.
Qed.

Lemma implicit_addr_port f : sock_port (implicit_bind_addr f) = 0.
Proof. by destruct f. Qed.

Lemma p3_implicit_bind_sound D c os w chan now r w' :
  os_ok os → p3_implicit_bind c os w chan now = (r, w') → sound D w w'.
Proof.
  intros Hos. unfold p3_implicit_bind. destruct (negb _); [by intros [= _ <-]|].
  destruct (check _ _ UdpImplicitBind _ _) as [r0 st] eqn:Ec.
  destruct (check_no_spend _ _ _ _ _ _ _ Ec eq_refl) as [Hh Hn].
  destruct r0 as [a|e]; [|intros [= _ <-]; by apply sound_pst]. rewrite (Hn a eq_refl).
  destruct (udp_bind os (sk w) _ (vnet w) chan) as [[r1 u1] n1] eqn:Eb.
  pose proof (sound_rebind D _ _ _ _ _ _ _ st Hos
                ltac:(rewrite implicit_addr_port; unfold u16_MAX; lia) Eb Hh) as Hs.
  destruct r1; [|intros [= _ <-]; eapply sound_trans; [exact Hs|by apply sound_pst]].
  destruct (udp_finish_bind (sk (rebind w u1 n1 st))) as [r2 u2] eqn:Ef.
  assert (sound D w {| sk := u2; vnet := vnet (rebind w u1 n1 st); pst := pst (rebind w u1 n1 st);
                       wire := wire (rebind w u1 n1 st) |}) as Hs2.
  { eapply sound_trans; [exact Hs|]. apply sound_inherits.
    - by eapply finish_bind_inherits.
    - intros. by eapply finish_bind_registered. }
  destruct r2; intros [= _ <-]; (eapply sound_trans; [exact Hs2|]).
  - apply sound_hold_None.
  - by apply sound_pst.
Qed.

Lemma remember_peer_ok D u a n wr :
  let w0 st := {| sk := u; vnet := n; pst := st; wire := wr |} in
  let w1 st := {| sk := remember_peer u a; vnet := n; pst := st; wire := wr |} in
  ∀ st, (a ∈ D → world_ok D (w0 st) → world_ok D (w1 st)) ∧ ∀ i, balance i (w1 st) = balance i (w0 st).
Proof.
  intros w0 w1 st. split; [|by destruct u].
  intros Ha [Hr Hw Hx Hp Hf]. simpl in *. destruct u as [s|lo|s lo]; [| by split |]; split;
    simpl in *; try done.
  all: first [ intros p [q [Hq ->]]%fmap_Some; specialize (Hp q Hq); set_solver
             | intros _; by apply fmap_is_Some, Hf ].
Qed.

Lemma deliver_sound D os t w data r w' :
  (∀ a b, t = ToNetwork (Some a) b → a ∈ D) → deliver os t w data = (r, w') → sound D w w'.
Proof.
  intros Ha. unfold deliver. destruct t as [[a|] [|]|l a].
  1,2: intros [= _ <-]; destruct w as [u n st wr];
    destruct (remember_peer_ok D u a n wr st) as [H1 H2]; split; eauto.
  1,2: by intros [= _ <-].
  destruct (connect_udp _ _ _) as [[tx|]|]; [|by intros [= _ <-]..].
  destruct (enqueue _ _ _) as [wr|] eqn:E; intros [= _ <-]; [|done]. split; [|done].
  intros [Hr Hw Hx Hp Hf]. split; simpl; try done.
  - by eapply enqueue_ok.
  - intros rx Hrx. specialize (Hx rx Hrx). unfold enqueue in E. destruct (_ <? _); [done|].
    destruct (queues (wire w) !! tx) eqn:Eq; injection E as <-; [|done]. simpl.
    apply lookup_insert_is_Some'. by right.
Qed.

Lemma send_target_addr u remote plane a b :
  send_target u remote plane = Ok (ToNetwork (Some a) b) → remote = Some a.
Proof.
  assert (∀ lo, loopback_half lo remote ≠ Ok (ToNetwork (Some a) b)) as Hl.
  { intros lo. unfold loopback_half. destruct (lo_local_address lo); [|done].
    destruct remote; [done|]. destruct (lo_is_connected lo); [|done].
    by destruct (lo_remote_address lo). }
  unfold send_target. destruct u as [s|lo|s lo].
  - by intros [= -> _].
  - case_bool_decide; [done|]. intros Hx. by destruct (Hl lo).
  - case_bool_decide; [|by intros [= -> _]]. intros Hx. by destruct (Hl lo).
Qed.

Lemma p3_transmit_sound D os w remote plane data r w' :
  (∀ a, remote = Some a → a ∈ D) → p3_transmit os w remote plane data = (r, w') → sound D w w'.
Proof.
  intros Ha. unfold p3_transmit. destruct (send_target _ _ _) as [t|] eqn:E; [|by intros [= _ <-]].
  apply deliver_sound. intros a b ->. apply Ha. by eapply send_target_addr.
Qed.

(** The destinations a send adds: the one the policy resolved. *)
Definition let_out c (remote : option SocketAddr) (now : Instant) (st : PolicyState) :
    gset SocketAddr :=
  match remote with
  | None => ∅
  | Some addr => match (check c addr UdpOutgoingDatagram now st).1 with
                 | Ok a => {[al_addr a]}
                 | Err _ => ∅
                 end
  end.

Lemma p3_send_sound D c os w data remote chan now r w' :
  os_ok os → let_out c remote now (pst w) ⊆ D →
  p3_send c os w data remote chan now = (r, w') → sound D w w'.
Proof.
  intros Hos. unfold p3_send, let_out. destruct (_ <? _); [by intros _ [= _ <-]|].
  destruct remote as [addr|].
  - destruct (check _ _ UdpOutgoingDatagram _ _) as [r0 st] eqn:Ec.
    destruct (check_no_spend _ _ _ _ _ _ _ Ec eq_refl) as [Hh Hn]. simpl.
    destruct r0 as [a|e]; [|intros _ [= _ <-]; by apply sound_pst]. rewrite (Hn a eq_refl).
    intros Hd. destruct (p3_implicit_bind _ _ _ _ _) as [ri wi] eqn:Ei.
    apply (p3_implicit_bind_sound D) in Ei; [|done].
    assert (sound D w wi) as Hs by (eapply sound_trans; [by apply (sound_pst D w st)|done]).
    destruct ri; [|by intros [= _ <-]]. intros Ht.
    eapply sound_trans; [exact Hs|]. eapply p3_transmit_sound; [|exact Ht].
    intros b [= <-]. set_solver.
  - intros _. destruct (p3_refresh c os w now) as [ri wi] eqn:Ei.
    apply (p3_refresh_sound D) in Ei. destruct ri; [|by intros [= _ <-]]. intros Ht.
    eapply sound_trans; [exact Ei|]. by eapply p3_transmit_sound; [|exact Ht].
Qed.

(** The policy admits every datagram that reaches it, so nothing is ever refused. *)
Lemma check_receive c addr now st :
  ∃ a, check c addr UdpReceive now st = (Ok a, st) ∧ al_addr a = addr.
Proof. eexists. by split. Qed.

Lemma recv_net_spec c connected peers inbox refused now st :
  (recv_net c connected peers inbox refused now st).2 = st
  ∧ ∀ data from inbox', (recv_net c connected peers inbox refused now st).1
      = (Ok (Got data from), inbox') →
      match connected with Some a => from = a | None => unsolicited None peers from = false end.
Proof.
  induction inbox as [|[[data from]|e] inbox IH]; simpl; [done| |done].
  destruct (unsolicited _ _ _) eqn:E; [done|]. split; [done|].
  intros d f i [= _ <- _]. by destruct connected.
Qed.

Lemma recv_lo_spec c alive rx d q wr refused now st :
  recv_lo c alive rx (d :: q) wr refused now st
  = (Ok (Got (dg_data d) (dg_source d)),
     {| udp_permits := udp_permits wr + dg_cost d; queues := <[rx := q]> (queues wr) |}, st).
Proof. done. Qed.

Lemma recv_lo_ok c alive rx q wr refused now st r wr' st' :
  recv_lo c alive rx q wr refused now st = (r, wr', st') →
  st' = st
  ∧ (queues wr !! rx = Some q → wire_ok wr →
       wire_ok wr' ∧ ∀ k, is_Some (queues wr !! k) → is_Some (queues wr' !! k)).
Proof.
  destruct q as [|d q]; [by intros [= _ <- <-]|]. rewrite recv_lo_spec. intros [= _ <- <-].
  split; [done|]. intros Hq [He Hp].
  split; [|intros k Hk; apply lookup_insert_is_Some'; by right].
  unfold wire_ok. simpl. rewrite in_flight_insert, Hq. simpl.
  pose proof (dg_cost_pos d). split; lia.
Qed.

Lemma p3_receive_sound D c os w inbox now r inbox' w' :
  p3_receive c os w inbox now = (r, inbox', w') → sound D w w'.
Proof.
  assert (∀ net connected r inbox' w',
    (let '(r, inbox, st) := recv_net c connected (ns_peers net) inbox 0 now (pst w) in
     (r, inbox, set_pst w st)) = (r, inbox', w') → sound D w w') as Hnet.
  { intros net cn r1 in1 w1. destruct (recv_net _ _ _ _ _ _ _) as [[r2 in2] st2] eqn:E.
    pose proof (recv_net_spec c cn (ns_peers net) inbox 0 now (pst w)) as [Hs _].
    rewrite E in Hs. simpl in Hs. subst. intros [= _ _ <-]. by apply sound_pst. }
  unfold p3_receive. destruct (sk w) as [s|lo|s lo] eqn:Es.
  1,3: destruct (ns_is_connected s); [destruct (ns_remote_address os s)|]; try apply Hnet;
    by intros [= _ _ <-].
  assert (∀ local rx r inbox' w', lo_rx lo = Some rx →
    (let '(r, wr, st) := recv_lo c (sender_alive (vnet w) local rx) rx
                           (default [] (queues (wire w) !! rx)) (wire w) 0 now (pst w) in
     (r, inbox, {| sk := ULoopback lo; vnet := vnet w; pst := st; wire := wr |}))
    = (r, inbox', w') → sound D w w') as Hlo.
  { intros local rx r1 in1 w1 Hrx. destruct (recv_lo _ _ _ _ _ _ _ _) as [[r2 wr2] st2] eqn:E.
    apply recv_lo_ok in E as [-> Hw]. intros [= _ _ <-]. split.
    - intros [Hr Hwr Hx Hp Hf]. rewrite Es in *. simpl in *.
      destruct (Hx rx Hrx) as [q Hq]. rewrite Hq in Hw. destruct (Hw eq_refl Hwr) as [H1 H2].
      split; simpl; eauto.
    - intros i. unfold balance. simpl. by rewrite Es. }
  destruct (lo_state lo) as [l x|l x p|l m x p|] eqn:El; try (by intros [= _ _ <-]);
    apply Hlo; unfold lo_rx; by rewrite El.
Qed.

(** ** One socket's history *)

(** The guest's calls on one socket, with the destinations the policy let out. *)
Inductive udp_call c : UdpWorld → gset SocketAddr → UdpWorld → Prop :=
  | call_bind os w addr chan now r w' :
      os_ok os → 0 ≤ sock_port addr ≤ u16_MAX → p3_bind c os w addr chan now = (r, w') →
      udp_call c w ∅ w'
  | call_connect os w addr now r w' : p3_connect c os w addr now = (r, w') → udp_call c w ∅ w'
  | call_disconnect os w r w' : p3_disconnect os w = (r, w') → udp_call c w ∅ w'
  | call_send os w data remote chan now r w' :
      os_ok os → p3_send c os w data remote chan now = (r, w') →
      udp_call c w (let_out c remote now (pst w)) w'
  | call_receive os w inbox now r inbox' w' :
      p3_receive c os w inbox now = (r, inbox', w') → udp_call c w ∅ w'.

Inductive history c w0 : gset SocketAddr → UdpWorld → Prop :=
  | history_start : history c w0 ∅ w0
  | history_call D D' w w' : history c w0 D w → udp_call c w D' w' → history c w0 (D ∪ D') w'.

(** Anything else the process does that leaves this socket's endpoint and channel alone. *)
Inductive shared_history c w0 : gset SocketAddr → UdpWorld → Prop :=
  | shared_start : shared_history c w0 ∅ w0
  | shared_call D D' w w' :
      shared_history c w0 D w → udp_call c w D' w' → shared_history c w0 (D ∪ D') w'
  | shared_others D w n st wr :
      shared_history c w0 D w → registered n (sk w) → wire_ok wr →
      (∀ rx, udp_rx (sk w) = Some rx → is_Some (queues wr !! rx)) →
      shared_history c w0 D {| sk := sk w; vnet := n; pst := st; wire := wr |}.

Lemma world_ok_mono D D' w : D ⊆ D' → world_ok D w → world_ok D' w.
Proof. intros Hd [Hr Hw Hx Hp Hf]. split; try done. intros p Hpp. specialize (Hp p Hpp). set_solver. Qed.

Lemma udp_call_sound c w D' w' D : udp_call c w D' w' → D' ⊆ D → sound D w w'.
Proof.
  intros Hc Hd. destruct Hc.
  - by eapply p3_bind_sound.
  - by eapply p3_connect_sound.
  - by eapply p3_disconnect_sound.
  - by eapply p3_send_sound.
  - by eapply p3_receive_sound.
Qed.

Lemma shared_history_ok c w0 D w : shared_history c w0 D w → world_ok ∅ w0 → world_ok D w.
Proof.
  intros Hh H0. induction Hh as [|D D' w w' Hh IH Hc|D w n st wr Hh IH Hn Hw Hx]; [done| |].
  - apply (udp_call_sound _ _ _ _ (D ∪ D') Hc); [set_solver|].
    eapply world_ok_mono; [|exact IH]. set_solver.
  - destruct IH. by split.
Qed.

Lemma fresh_world_ok family n st wr :
  wire_ok wr → world_ok ∅ {| sk := UNetwork (new_net family); vnet := n; pst := st; wire := wr |}.
Proof. by split. Qed.

(** whatever a guest calls, whatever the operating system answers and
    whatever the rest of the process does meanwhile, a socket's virtual half is
    never lost: its endpoint stays registered under its own port with its own
    channel, knows its peer exactly while the socket is connected, the internal
    closed state is never reached, and dropping the socket never traps. *)
Theorem virtual_half_never_lost c family n st wr D w :
  wire_ok wr →
  shared_history c {| sk := UNetwork (new_net family); vnet := n; pst := st; wire := wr |} D w →
  is_Some (p3_drop w)
  ∧ match sk w with
    | UNetwork _ => True
    | ULoopback lo | UUnspecified _ lo => lo_registered (vnet w) lo ∧ lo_state lo ≠ LClosed
    end.
Proof.
  intros Hwr Hh. destruct (shared_history_ok _ _ _ _ Hh) as [Hr _ _ _ _].
  { by apply fresh_world_ok. }
  assert (∀ lo, lo_registered (vnet w) lo → lo_state lo ≠ LClosed ∧ is_Some (lo_drop lo (vnet w)))
    as Hlo.
  { intros lo. unfold lo_registered, lo_drop. destruct (lo_state lo); try done;
      intros [Hp _]; (rewrite (proj2 (Z.eqb_neq _ 0)) by lia); eauto. }
  unfold p3_drop. destruct (sk w) as [s|lo|s lo]; simpl in *; [eauto| |];
    destruct (Hlo lo Hr) as [Hc [n' ->]]; simpl; eauto.
Qed.

(** every virtual datagram in flight anywhere in the process is paid for out
    of one fixed budget.  In any history the permits left and the bytes queued
    (an empty datagram counting one) add up to 65,535, dropping a socket with
    unread datagrams included. *)
Theorem datagrams_in_flight_are_paid_for c family n st wr D w n' st' wr' :
  wire_ok wr →
  shared_history c {| sk := UNetwork (new_net family); vnet := n; pst := st; wire := wr |} D w →
  p3_drop w = Some (n', st', wr') →
  udp_permits (wire w) + in_flight (queues (wire w)) = u16_MAX
  ∧ udp_permits wr' + in_flight (queues wr') = u16_MAX
  ∧ ∀ rx, udp_rx (sk w) = Some rx → queues wr' !! rx = None.
Proof.
  intros Hwr Hh Hd. destruct (shared_history_ok _ _ _ _ Hh) as [_ Hw _ _ _].
  { by apply fresh_world_ok. }
  split; [apply Hw|]. unfold p3_drop in Hd. destruct (udp_drop _ _); [|done]. injection Hd as _ _ <-.
  destruct (udp_rx (sk w)) as [rx|]; [|split; [apply Hw|done]].
  split; [by apply close_rx_ok|]. intros rx' [= <-]. apply lookup_delete_eq.
Qed.

Lemma history_balance c w0 D w i : history c w0 D w → balance i w = balance i w0.
Proof.
  induction 1 as [|D D' w w' Hh IH Hc]; [done|].
  rewrite <-IH. by apply (udp_call_sound _ _ _ _ D' Hc).
Qed.

(** a socket returns exactly the permits it took.  Creating one takes a slot
    of the guest's allowance or fails and takes nothing; and whatever is called
    on it in between, once it is dropped every permit is where it was before it
    was created. *)
Theorem socket_returns_its_permits c os family now st r st1 :
  quota_ok c → p3_create c os family now st = (r, st1) →
  match r with
  | Err _ => ∀ i, permits (heap st1) i = permits (heap st) i
  | Ok u => (quota (ctx_policy c) = None ∨ is_Some (slot_of u))
      ∧ ∀ n wr D w n' st' wr',
          history c {| sk := u; vnet := n; pst := st1; wire := wr |} D w →
          p3_drop w = Some (n', st', wr') → ∀ i, permits (heap st') i = permits (heap st) i
  end.
Proof.
  intros Hq. unfold p3_create.
  destruct (check c (implicit_bind_addr family) UdpCreate now st) as [r0 st0] eqn:Ec.
  destruct (check_spends c _ UdpCreate now st r0 st0 Hq Ec) as [Hb Hs].
  destruct r0 as [a|e]; [|intros [= <- <-] i; specialize (Hb i); simpl in Hb; lia].
  destruct (ns_new os _ family) as [s|e] eqn:En; intros [= <- <-].
  - assert (ns_slot s = None) as Hns.
    { unfold ns_new in En. destruct (check_allowed_udp _); [|done].
      destruct (os_socket os); [|done]. by injection En as <-. }
    split.
    + destruct (quota (ctx_policy c)) eqn:Eq; [right|by left].
      destruct (Hs eq_refl ltac:(eauto) a eq_refl) as [x Hx]. rewrite Hx. simpl. eauto.
    + intros n wr D w n' st' wr' Hh Hd i. apply (history_balance _ _ _ _ i) in Hh.
      unfold balance in Hh. simpl in Hh.
      pose proof (hold_slot_held i (UNetwork s) (permit a)) as Hheld.
      assert (held i (displaced_slot (UNetwork s) (permit a)) = 0) as H0.
      { unfold displaced_slot. destruct (permit a); simpl; [by rewrite Hns|done]. }
      simpl in Hheld. rewrite Hns in Hheld. simpl in Hheld.
      unfold p3_drop in Hd. destruct (udp_drop _ _); [|done]. injection Hd as _ <- _.
      rewrite release_slot_permits, Hh. specialize (Hb i). simpl in Hb. lia.
  - intros i. rewrite release_slot_permits. apply Hb.
Qed.

(** ** Which network carries a datagram *)

Lemma loopback_half_Ok lo remote t :
  loopback_half lo remote = Ok t →
  ∃ local a, t = ToLoopback local a ∧ lo_local_address lo = Ok local
             ∧ (remote = Some a ∨ remote = None).
Proof.
  unfold loopback_half. destruct (lo_local_address lo) as [l|]; [|done].
  destruct remote as [a|]; [intros [= <-]; eauto 6|]. destruct (lo_is_connected lo); [|done].
  destruct (lo_remote_address lo) as [a|]; [|done]. intros [= <-]. eauto 6.
Qed.

Lemma deliver_Ok os t w data s w' :
  deliver os t w data = (Ok s, w') →
  match t with
  | ToNetwork a _ => s = SentReal a ∧ wire w' = wire w
  | ToLoopback local a => sk w' = sk w ∧ vnet w' = vnet w ∧ pst w' = pst w
      ∧ match s with
        | SentReal _ => False
        | SentVirtual None => wire w' = wire w
        | SentVirtual (Some tx) => connect_udp (vnet w) local a = Ok (Some tx)
            ∧ enqueue (wire w) tx {| dg_source := local; dg_data := data |} = Ok (wire w')
        end
  end.
Proof.
  unfold deliver, sent_real. destruct t as [[a|] [|]|l a].
  1,2,3: by destruct (os_send os _); [|done]; intros [= <- <-].
  - done.
  - destruct (connect_udp _ _ _) as [[tx|]|] eqn:Ec; [|by intros [= <- <-]|done].
    destruct (enqueue _ _ _) as [wr|] eqn:Ee; [|done]. by intros [= <- <-].
Qed.

Lemma send_target_plane u remote plane t :
  (∀ s, u ≠ UNetwork s) → send_target u remote (Some plane) = Ok t →
  match t with ToNetwork a _ => plane = Host ∧ a = remote | ToLoopback _ _ => plane = Virtual end.
Proof.
  intros Hn. unfold send_target. destruct u as [s|lo|s lo]; [by destruct (Hn s)| |];
    case_bool_decide as Hp; try done.
  - intros (l & a & -> & _)%loopback_half_Ok. by destruct plane.
  - injection Hp as ->. by intros (l & a & -> & _)%loopback_half_Ok.
  - intros [= <-]. by destruct plane.
Qed.

Lemma implicit_bind_has_both c os w chan now w' :
  p3_implicit_bind c os w chan now = (Ok tt, w') →
  needs_implicit_bind (sk w) = true → ∃ net lo, sk w' = UUnspecified net lo.
Proof.
  unfold p3_implicit_bind. intros Hi Hn. rewrite Hn in Hi. simpl in Hi.
  destruct (sk w) as [s|lo|s lo] eqn:Es; [|done..]. simpl in *. rewrite Hn in Hi. simpl in Hi.
  assert (is_valid_address_family (sock_ip (implicit_bind_addr (ns_family s))) (ns_family s) = true
    ∧ is_loopback (to_canonical (sock_ip (implicit_bind_addr (ns_family s)))) = false
    ∧ is_unspecified (to_canonical (sock_ip (implicit_bind_addr (ns_family s)))) = true)
    as (Hv & Hl & Hu) by (by destruct (ns_family s)).
  rewrite Hv, Hl, Hu in Hi. simpl in Hi.
  destruct (ns_bind os s _) as [s1|]; [|done].
  destruct (os_local_addr os) as [l|]; [|done].
  destruct (bind_virtual _ _ _ _ _) as [[lo|] n1]; [|done]. simpl in Hi.
  destruct (ns_finish_bind _) as [s2|]; [|done].
  destruct (lo_finish_bind lo) as [lo2|]; [|done]. injection Hi as <-. simpl. eauto.
Qed.

Lemma implicit_bind_not_needed c os w chan now :
  needs_implicit_bind (sk w) = false → p3_implicit_bind c os w chan now = (Ok tt, w).
Proof. intros Hn. unfold p3_implicit_bind. by rewrite Hn. Qed.

(** a datagram with an explicit destination travels on the plane the policy
    chose, for every socket that has a virtual half or is not bound yet: it leaves
    the machine's network, for exactly the address the policy resolved, only if
    the decision was on the host plane, and enters the virtual network only if it
    was on the virtual one. *)
Theorem datagram_travels_on_decided_plane c os w data addr chan now t w' :
  (∀ s, sk w = UNetwork s → ns_is_unbound s = true) →
  p3_send c os w data (Some addr) chan now = (Ok t, w') →
  ∃ a st', check c addr UdpOutgoingDatagram now (pst w) = (Ok a, st')
    ∧ match t with
      | SentReal to => al_plane a = Host ∧ to = Some (al_addr a)
      | SentVirtual _ => al_plane a = Virtual
      end.
Proof.
  intros Hn. unfold p3_send. destruct (_ <? _); [done|].
  destruct (check c addr _ now (pst w)) as [[a|e] st] eqn:Ec; [|done].
  set (w1 := set_pst w _).
  destruct (p3_implicit_bind c os w1 chan now) as [[[]|?] w2] eqn:Ei; [|done].
  intros Ht. exists a, st. split; [done|].
  assert (∀ s, sk w2 ≠ UNetwork s) as Hw2.
  { intros s Hs. destruct (needs_implicit_bind (sk w1)) eqn:Hb.
    - destruct (implicit_bind_has_both c os w1 chan now w2 Ei Hb) as (net & lo & Hu). congruence.
    - rewrite (implicit_bind_not_needed c os w1 chan now Hb) in Ei. injection Ei as <-.
      unfold needs_implicit_bind in Hb. rewrite Hs in Hb. by rewrite (Hn s Hs) in Hb. }
  unfold p3_transmit in Ht. destruct (send_target _ _ _) as [x|] eqn:Ex; [|done].
  apply send_target_plane in Ex; [|done]. apply deliver_Ok in Ht.
  destruct x as [b ?|l b].
  - destruct Ht as [-> _]. by destruct Ex as [-> ->].
  - destruct Ht as (_ & _ & _ & Ht). by destruct t.
Qed.

(** a socket bound to the unspecified address is a client, never a server.
    Whatever the kernel hands it, a datagram that reaches the guest over the
    machine's network comes from the peer it is connected to or from an address
    the policy earlier let this very socket send to; strangers are dropped. *)
Theorem only_replies_are_received c family n st wr D w os inbox now data from inbox' w' net lo :
  wire_ok wr →
  shared_history c {| sk := UNetwork (new_net family); vnet := n; pst := st; wire := wr |} D w →
  sk w = UUnspecified net lo →
  p3_receive c os w inbox now = (Ok (Got data from), inbox', w') →
  from ∈ D ∨ (ns_is_connected net = true ∧ os_peer_addr os = Ok from).
Proof.
  intros Hwr Hh Hs. destruct (shared_history_ok _ _ _ _ Hh) as [_ _ _ Hp Hf].
  { by apply fresh_world_ok. }
  rewrite Hs in Hp, Hf. destruct (Hf eq_refl) as [peers Hpe]. specialize (Hp peers Hpe).
  simpl in Hpe. unfold p3_receive. rewrite Hs.
  destruct (ns_is_connected net) eqn:Ec.
  - unfold ns_remote_address. rewrite Ec. simpl.
    destruct (os_peer_addr os) as [a|]; [|done].
    destruct (recv_net_spec c (Some a) (ns_peers net) inbox 0 now (pst w)) as [_ Hr].
    destruct (recv_net _ _ _ _ _ _ _) as [[r i] s]. intros [= -> <- <-].
    right. by rewrite (Hr _ _ _ eq_refl).
  - destruct (recv_net_spec c None (ns_peers net) inbox 0 now (pst w)) as [_ Hr].
    destruct (recv_net _ _ _ _ _ _ _) as [[r i] s]. intros [= -> <- <-].
    left. specialize (Hr _ _ _ eq_refl). simpl in Hr. rewrite Hpe in Hr.
    apply bool_decide_eq_false in Hr. apply dec_stable in Hr. set_solver.
Qed.

(** ** Delivery on the virtual network *)

(** A guest's next [n] receives on a socket bound to loopback. *)
Fixpoint receive_n c os w (now : Instant) (n : nat) :
    list (result Received ErrorCode) * UdpWorld :=
  match n with
  | O => ([], w)
  | S n => let '(r, _, w) := p3_receive c os w [] now in
           let '(rs, w) := receive_n c os w now n in (r :: rs, w)
  end.

Definition got (d : Datagram) : result Received ErrorCode := Ok (Got (dg_data d) (dg_source d)).

Lemma receive_n_drains c os w now lo rx q :
  sk w = ULoopback lo → lo_is_bound lo = true → lo_rx lo = Some rx →
  queues (wire w) !! rx = Some q →
  (receive_n c os w now (length q)).1 = got <$> q
  ∧ udp_permits (wire (receive_n c os w now (length q)).2) = udp_permits (wire w) + total_cost q.
Proof.
  revert w. induction q as [|d q IH]; intros w Hs Hb Hrx Hq; [simpl; split; [done|lia]|].
  assert (p3_receive c os w [] now
    = (got d, [], {| sk := sk w; vnet := vnet w; pst := pst w;
                     wire := {| udp_permits := udp_permits (wire w) + dg_cost d;
                                queues := <[rx := q]> (queues (wire w)) |} |})) as Hr.
  { unfold p3_receive. rewrite Hs. unfold lo_is_bound, lo_rx in *.
    destruct (lo_state lo); try done; injection Hrx as ->; by rewrite Hq. }
  cbn [receive_n length]. rewrite Hr.
  specialize (IH {| sk := sk w; vnet := vnet w; pst := pst w;
                    wire := {| udp_permits := udp_permits (wire w) + dg_cost d;
                               queues := <[rx := q]> (queues (wire w)) |} |} Hs Hb Hrx).
  simpl in IH. rewrite lookup_insert_eq in IH. specialize (IH eq_refl).
  destruct (receive_n c os _ now (length q)) as [rs w2]. simpl in *. destruct IH as [-> ->].
  split; [done|]. lia.
Qed.

Lemma open_rx_keeps wr u rx q :
  queues wr !! rx = Some q →
  queues (open_rx wr u) !! rx = Some q ∧ udp_permits (open_rx wr u) = udp_permits wr.
Proof.
  intros Hq. unfold open_rx. destruct (udp_rx u) as [rx'|]; [|done].
  destruct (queues wr !! rx') eqn:E; [done|]. simpl.
  rewrite lookup_insert_ne by congruence. done.
Qed.

Lemma p3_implicit_bind_wire c os w chan now r w' rx q :
  p3_implicit_bind c os w chan now = (r, w') → queues (wire w) !! rx = Some q →
  queues (wire w') !! rx = Some q ∧ udp_permits (wire w') = udp_permits (wire w).
Proof.
  intros Hi Hq. unfold p3_implicit_bind in Hi. destruct (negb _); [by injection Hi as _ <-|].
  destruct (check _ _ _ _ _) as [[a|] st]; [|by injection Hi as _ <-].
  destruct (udp_bind _ _ _ _ _) as [[r1 u1] n1].
  destruct r1; [|injection Hi as _ <-; by apply open_rx_keeps].
  destruct (udp_finish_bind _) as [[?|] u2]; injection Hi as _ <-; by apply open_rx_keeps.
Qed.

Lemma p3_refresh_wire c os w now r w' : p3_refresh c os w now = (r, w') → wire w' = wire w.
Proof.
  unfold p3_refresh. destruct (sk w) as [s|lo|s lo]; [|by intros [= _ <-]|];
    (destruct (ns_remote_address os s); [|by intros [= _ <-]]);
    by destruct (refresh_connected _ _ _ _ _) as [[?|] st]; intros [= _ <-].
Qed.

(** the virtual network delivers.  A datagram sent to a socket bound to
    loopback is received there after whatever was queued before it, in order, with
    the very bytes that were sent and the sender's own virtual address as its
    source; and once all are received the permits they held are available again. *)
Theorem virtual_datagrams_arrive_in_order c os w data remote chan now w' rx q c' os' now' st' lo :
  p3_send c os w data remote chan now = (Ok (SentVirtual (Some rx)), w') →
  queues (wire w) !! rx = Some q →
  lo_is_bound lo = true → lo_rx lo = Some rx →
  ∃ local,
    match sk w' with
    | ULoopback me | UUnspecified _ me => lo_local_address me = Ok local
    | UNetwork _ => False
    end
    ∧ let receiver := {| sk := ULoopback lo; vnet := vnet w'; pst := st'; wire := wire w' |} in
      let '(rs, w2) := receive_n c' os' receiver now' (S (length q)) in
      rs = (got <$> q) ++ [Ok (Got data local)]
      ∧ udp_permits (wire w2) = udp_permits (wire w) + total_cost q.
Proof.
  intros Hsend Hq Hb Hrx.
  assert (∃ w1 remote' plane, queues (wire w1) !! rx = Some q
     ∧ udp_permits (wire w1) = udp_permits (wire w)
     ∧ p3_transmit os w1 remote' plane data = (Ok (SentVirtual (Some rx)), w'))
    as (w1 & remote' & plane & Hq1 & Hp1 & Ht).
  { revert Hsend. unfold p3_send. destruct (_ <? _); [done|]. destruct remote as [addr|].
    - destruct (check _ _ _ _ _) as [[a|] st]; [|done]. set (w0 := set_pst w _).
      destruct (p3_implicit_bind c os w0 chan now) as [[?|] w1] eqn:Ei; [|done]. intros Ht.
      destruct (p3_implicit_bind_wire c os w0 chan now _ _ rx q Ei Hq) as [H1 H2].
      by exists w1, (Some (al_addr a)), (Some (al_plane a)).
    - destruct (p3_refresh c os w now) as [[?|] w1] eqn:Ei; [|done]. intros Ht.
      pose proof (p3_refresh_wire _ _ _ _ _ _ Ei) as Hw.
      exists w1, None, None. by rewrite Hw. }
  unfold p3_transmit in Ht. destruct (send_target _ _ _) as [t|] eqn:Et; [|done].
  apply deliver_Ok in Ht. destruct t as [? ?|local a]; [by destruct Ht|].
  destruct Ht as (Hs & Hv & Hp & _ & He). exists local. split.
  { rewrite Hs. unfold send_target in Et. destruct (sk w1) as [s|me|s me]; [done| |];
      case_bool_decide; try done; by apply loopback_half_Ok in Et as (l & b & [= -> ->] & -> & _). }
  unfold enqueue in He. destruct (_ <? _); [done|]. rewrite Hq1 in He. injection He as He.
  set (d := {| dg_source := local; dg_data := data |}) in *.
  pose proof (receive_n_drains c' os' {| sk := ULoopback lo; vnet := vnet w'; pst := st';
    wire := wire w' |} now' lo rx (q ++ [d]) eq_refl Hb Hrx) as Hd.
  simpl in Hd. rewrite <-He in Hd at 1. simpl in Hd. rewrite lookup_insert_eq in Hd.
  specialize (Hd eq_refl). rewrite length_app, Nat.add_1_r in Hd.
  cbn zeta. destruct (receive_n c' os' _ now' (S (length q))) as [rs w2].
  simpl in Hd. destruct Hd as [-> ->]. split; [by rewrite fmap_app|].
  rewrite <-He. simpl. rewrite total_cost_app. simpl. lia.
Qed.

End socket_life.

(** ** Runs *)

(** A kernel that grants everything and hands out the ephemeral port 40000. *)
Definition os_yes : Os :=
  {| os_bind := λ _, Ok tt; os_local_addr := Ok (SocketV4 UNSPECIFIED_V4 40000);
     os_connect := λ _, Ok tt; os_connect_again := λ _, Ok tt; os_disconnect := Ok tt;
     os_peer_addr := Ok (SocketV4 UNSPECIFIED_V4 0); os_hop_limit := Ok 64;
     os_recv_buffer := Ok 212992; os_send_buffer := Ok 212992;
     os_set_hop_limit := λ _, Ok tt; os_set_recv_buffer := λ _, Ok tt;
     os_set_send_buffer := λ _, Ok tt; os_socket := Ok tt; os_send := λ _, Ok tt |}.

Lemma os_yes_ok : os_ok os_yes.
Proof. intros a [= <-]. unfold u16_MAX. simpl. lia. Qed.

Definition fresh_udp : UdpWorld :=
  {| sk := UNetwork (new_net Ipv4); vnet := empty_network; pst := demo_state;
     wire := idle_wire |}.

Lemma idle_wire_ok : wire_ok idle_wire.
Proof. by vm_compute. Qed.

(** A component's store that configures no egress at all. *)
Definition closed_ctx : WasiSocketsCtx := for_store default_socket_policy [].

Definition machine_db : SocketAddr := SocketV4 LOCALHOST_V4 5432.

(** The workload already holds virtual port 40000. *)
Definition port_taken : Network :=
  {| tcp_ipv4 := ∅; tcp_ipv6 := ∅;
     udp_ipv4 := <[40000 := {| ep_tx := 1%nat; ep_connected := None |}]> ∅; udp_ipv6 := ∅ |}.

Definition first_send : UdpWorld :=
  (p3_send closed_ctx os_yes
     {| sk := UNetwork (new_net Ipv4); vnet := port_taken; pst := demo_state;
        wire := idle_wire |} [0] (Some machine_db) 2 0).2.

(** a socket left real-only ignores the virtual plane.  Under a policy that
    grants no egress, a component sends to loopback port 5432, which the policy
    puts on the virtual network; the implicit bind gets a real port whose virtual
    twin is taken, so the first send fails and leaves the socket half bound; the
    second send to the same address then goes out on the machine's real loopback,
    although the only decision ever made for it was the virtual plane. *)
Theorem half_bound_socket_reaches_real_loopback :
  let policy_says := (check closed_ctx machine_db UdpOutgoingDatagram 0 demo_state).1 in
  let second := p3_send closed_ctx os_yes first_send [0] (Some machine_db) 3 0 in
  policy_says = Ok {| al_addr := machine_db; al_plane := Virtual; permit := None;
                      valid_until := None |}
  ∧ second.1 = Ok (SentReal (Some machine_db)).
Proof. split; vm_compute; reflexivity. Qed.

(** Guest A binds the unspecified address and fills its own virtual queue. *)
Definition a_bound : UdpWorld :=
  (p3_bind closed_ctx os_yes fresh_udp (SocketV4 UNSPECIFIED_V4 0) 1 0).2.
Definition a_filled : UdpWorld :=
  (p3_send closed_ctx os_yes a_bound (repeat 0 (Z.to_nat 65535)) (Some (SocketV4 LOCALHOST_V4 40000)) 1 0).2.

(** Guest B, of another workload: its own socket and network, the process's channels. *)
Definition b_bound (wr : Wire) : UdpWorld :=
  (p3_bind closed_ctx os_yes
     {| sk := UNetwork (new_net Ipv4); vnet := empty_network; pst := demo_state; wire := wr |}
     (SocketV4 LOCALHOST_V4 7000) 2 0).2.
Definition b_sends (wr : Wire) : result Sent ErrorCode :=
  (p3_send closed_ctx os_yes (b_bound wr) [0] (Some (SocketV4 LOCALHOST_V4 7000)) 3 0).1.

(** one guest's unread datagrams silence every other guest.  The permits of
    virtual datagrams come from one budget of the process.  A guest that binds
    the unspecified address and sends 64 KiB to its own virtual port leaves them
    there for good, since receiving on such a socket reads the real half only; a
    guest of an unrelated workload, whose one-byte send to itself worked before,
    then fails with [OutOfMemory]. *)
Theorem unread_datagrams_silence_other_guests :
  b_sends (wire a_bound) = Ok (SentVirtual (Some 2%nat))
  ∧ (p3_receive closed_ctx os_yes a_filled [] 0).1.1 = Ok Pending
  ∧ udp_permits (wire (p3_receive closed_ctx os_yes a_filled [] 0).2) = 0
  ∧ b_sends (wire a_filled) = Err OutOfMemory.
Proof. vm_compute. done. Qed.

Definition sent_once : UdpWorld :=
  (p3_send closed_ctx os_yes fresh_udp [7] (Some machine_db) 1 0).2.

Lemma sent_once_history :
  shared_history closed_ctx fresh_udp
    (∅ ∪ let_out closed_ctx (Some machine_db) 0 (pst fresh_udp)) sent_once.
Proof.
  eapply shared_call; [apply shared_start|].
  eapply (call_send closed_ctx os_yes fresh_udp [7] (Some machine_db) 1 0); [apply os_yes_ok|].
  apply surjective_pairing.
Defined.

Lemma virtual_half_never_lost_witness :
  is_Some (p3_drop sent_once)
  ∧ match sk sent_once with
    | UNetwork _ => True
    | ULoopback lo | UUnspecified _ lo => lo_registered (vnet sent_once) lo ∧ lo_state lo ≠ LClosed
    end.
Proof.
  exact (virtual_half_never_lost closed_ctx Ipv4 empty_network demo_state idle_wire _ sent_once
           idle_wire_ok sent_once_history).
Defined.

Lemma datagrams_in_flight_are_paid_for_witness :
  ∃ n st wr, p3_drop sent_once = Some (n, st, wr)
    ∧ udp_permits wr + in_flight (queues wr) = u16_MAX.
Proof.
  destruct (p3_drop sent_once) as [[[n st] wr]|] eqn:E; [|vm_compute in E; discriminate E].
  exists n, st, wr. split; [reflexivity|].
  exact (proj1 (proj2 (datagrams_in_flight_are_paid_for closed_ctx Ipv4 empty_network demo_state
    idle_wire _ sent_once n st wr idle_wire_ok sent_once_history E))).
Defined.

(** A context whose policy meters and bounds its guest. *)
Lemma socket_returns_its_permits_witness :
  ∃ u st1, p3_create demo_ctx os_yes Ipv4 0 demo_state = (Ok u, st1)
    ∧ is_Some (slot_of u)
    ∧ ∀ i, permits (heap (release_slot st1 (slot_of u))) i = permits (heap demo_state) i.
Proof.
  destruct (p3_create demo_ctx os_yes Ipv4 0 demo_state) as [[u|e] st1] eqn:E;
    [|vm_compute in E; discriminate E].
  exists u, st1. split; [reflexivity|].
  destruct (socket_returns_its_permits demo_ctx os_yes Ipv4 0 demo_state (Ok u) st1) as [Hs Hd];
    [intros q [= <-]; right; reflexivity|exact E|].
  assert (udp_drop u empty_network = Some empty_network) as Hdrop.
  { injection E as <- _. reflexivity. }
  split; [destruct Hs as [Hs|Hs]; [discriminate Hs|exact Hs]|].
  intros i. eapply (Hd empty_network idle_wire); [apply history_start|].
  unfold p3_drop. simpl. rewrite Hdrop. reflexivity.
Defined.

Lemma datagram_travels_on_decided_plane_witness :
  ∃ a st', check closed_ctx machine_db UdpOutgoingDatagram 0 (pst fresh_udp) = (Ok a, st')
    ∧ al_plane a = Virtual.
Proof.
  apply (datagram_travels_on_decided_plane closed_ctx os_yes fresh_udp [7] machine_db
    1 0 (SentVirtual None) sent_once).
  - intros s [= <-]. reflexivity.
  - vm_compute. reflexivity.
Defined.

(** A component that may reach any host, and the peer it writes to. *)
Definition open_ctx : WasiSocketsCtx :=
  for_store {| guest_kind := Component; allowed_hosts := [Any]; host_loopback := [];
               host_loopback_enabled := false; egress_addrs := default_policy;
               host_owned_ports := None; egress_mode := Enforce; quota := None;
               resolved_names := default_name_limits |} [].
Definition peer : SocketAddr := SocketV4 (Ipv4Addr_new 8 8 8 8) 53.
Definition stranger : SocketAddr := SocketV4 (Ipv4Addr_new 9 9 9 9) 53.

Definition asked_peer : UdpWorld :=
  (p3_send open_ctx os_yes fresh_udp [7] (Some peer) 1 0).2.

Lemma only_replies_are_received_witness :
  ∃ net lo, sk asked_peer = UUnspecified net lo
    ∧ (p3_receive open_ctx os_yes asked_peer [Ok ([66], stranger); Ok ([65], peer)] 0).1.1
      = Ok (Got [65] peer)
    ∧ (peer ∈ (∅ ∪ let_out open_ctx (Some peer) 0 (pst fresh_udp) : gset SocketAddr)
       ∨ (ns_is_connected net = true ∧ os_peer_addr os_yes = Ok peer)).
Proof.
  destruct (sk asked_peer) as [s|lo|net lo] eqn:Es; [vm_compute in Es; discriminate Es..|].
  exists net, lo. split; [reflexivity|]. split; [vm_compute; reflexivity|].
  apply (only_replies_are_received open_ctx Ipv4 empty_network demo_state idle_wire
    (∅ ∪ let_out open_ctx (Some peer) 0 (pst fresh_udp)) asked_peer os_yes
    [Ok ([66], stranger); Ok ([65], peer)] 0 [65] peer []
    (p3_receive open_ctx os_yes asked_peer [Ok ([66], stranger); Ok ([65], peer)] 0).2 net lo).
  - exact idle_wire_ok.
  - eapply shared_call; [apply shared_start|].
    eapply (call_send open_ctx os_yes fresh_udp [7] (Some peer) 1 0); [apply os_yes_ok|].
    apply surjective_pairing.
  - exact Es.
  - vm_compute. reflexivity.
Defined.

(** Two guests of one workload: B is bound to loopback port 7000, A writes to it. *)
Definition b_world : UdpWorld := b_bound idle_wire.
Definition a_to_b : UdpWorld :=
  (p3_send closed_ctx os_yes
     {| sk := UNetwork (new_net Ipv4); vnet := vnet b_world; pst := demo_state;
        wire := wire b_world |} [7; 8; 9] (Some (SocketV4 LOCALHOST_V4 7000)) 5 0).2.

Lemma virtual_datagrams_arrive_in_order_witness :
  ∃ lo, sk b_world = ULoopback lo
    ∧ (receive_n closed_ctx os_yes
         {| sk := ULoopback lo; vnet := vnet a_to_b; pst := demo_state; wire := wire a_to_b |}
         0 1).1 = [Ok (Got [7; 8; 9] (SocketV4 LOCALHOST_V4 40000))].
Proof.
  destruct (sk b_world) as [s|lo|net lo] eqn:Es; [vm_compute in Es; discriminate Es| |
    vm_compute in Es; discriminate Es].
  exists lo. split; [reflexivity|].
  destruct (virtual_datagrams_arrive_in_order closed_ctx os_yes
     {| sk := UNetwork (new_net Ipv4); vnet := vnet b_world; pst := demo_state;
        wire := wire b_world |} [7; 8; 9] (Some (SocketV4 LOCALHOST_V4 7000)) 5 0 a_to_b 2 []
     closed_ctx os_yes 0 demo_state lo) as (local & Hl & Hr).
  - vm_compute. reflexivity.
  - vm_compute. reflexivity.
  - vm_compute in Es. injection Es as <-. reflexivity.
  - vm_compute in Es. injection Es as <-. reflexivity.
  - assert (local = SocketV4 LOCALHOST_V4 40000) as ->.
    { vm_compute in Hl. injection Hl as <-. reflexivity. }
    cbn [length] in Hr. destruct (receive_n _ _ _ _ _) as [rs w2]. exact (proj1 Hr).
Defined.
