(* ===== verification/UdpP2.v ===== *)
(** * The p2 UDP handlers

    [sockets/host_udp.rs], [sockets/p2_udp.rs], [sockets/host_udp_create_socket.rs]
    and the error mapping of [sockets/network.rs].  A p2 socket is used through
    a pair of streams.  The state is one socket with its streams, the virtual
    network and the channels of its workload, the policy's permits and counters,
    and what the kernel was given.  A virtual datagram holds permits of its
    sender's own send buffer until it is read.  [try_lock] failures, which need
    two calls at once on one resource, are not modelled. *)

From Stdlib Require Import ZArith Lia.
From stdpp Require Import base list gmap strings option.
From S2P Require Import Prelude RustStr Net UriLib EgressPolicy InternalNames DeclaredPort AllowedIpName.
From S2P Require Import AllowedHosts SocketUtil Quota ResolvedNames SocketPolicy Slots LoopbackNet UdpSocket.
From S2P Require Import UdpHandlers.
Local Open Scope Z_scope.

(** ** p2's error codes *)

(** [error-code] has [would-block] besides the codes of [util.rs]; a trap ends
    the guest. *)
Inductive P2Error := P2Code (e : ErrorCode) | P2WouldBlock | P2Trap.
#[global] Instance P2Error_eq_dec : EqDecision P2Error.
Proof. solve_decision. Defined.

Definition socket_error_from_util (e : ErrorCode) : P2Error := P2Code e.

Definition error_code_from_io (k : ErrorKind) : P2Error :=
  match k with
  | AddrInUse => P2Code AddressInUse
  | AddrNotAvailable => P2Code AddressNotBindable
  | KConnectionAborted => P2Code ConnectionAborted
  | KConnectionRefused => P2Code ConnectionRefused
  | KConnectionReset => P2Code ConnectionReset
  | InvalidInput => P2Code InvalidArgument
  | KOutOfMemory => P2Code OutOfMemory
  | PermissionDenied => P2Code AccessDenied
  | TimedOut => P2Code Timeout
  | Unsupported => P2Code NotSupported
  | _ => P2Code Unknown
  end.
Definition socket_error_from_io (e : IoError) : P2Error := error_code_from_io (kind e).

Definition would_block : IoError := {| raw_os_error := None; kind := KWouldBlock |}.

(** ** Streams *)

(** A queued datagram with the permits it holds; [pd_mine] says that they are of
    the send buffer of the socket under study. *)
Record P2Dgram := { pd_dgram : Datagram; pd_permits : Z; pd_mine : bool }.

Record LoIncoming := {
  li_remote : option SocketAddr;
  li_rx : Channel;
  li_received : option P2Dgram;
}.
Inductive Incoming :=
  | InNetwork (remote : option SocketAddr)
  | InLoopback (lo : LoIncoming)
  | InUnspecified (remote : option SocketAddr) (lo : LoIncoming).

Record NetOutgoing := {
  no_remote : option SocketAddr;
  no_until : option Instant;
  no_family : SocketAddressFamily;
  no_count : nat;                  (** [check_send_permit_count] *)
}.
Record LoOutgoing := {
  oo_local : SocketAddr;
  oo_remote : option SocketAddr;
  oo_family : SocketAddressFamily;
  oo_permit : option Z;
}.
Inductive Outgoing :=
  | OutNetwork (net : NetOutgoing)
  | OutLoopback (lo : LoOutgoing)
  | OutUnspecified (net : NetOutgoing) (lo : LoOutgoing).

Record P2World := {
  pw_sk : UdpSocket;
  pw_checked : bool;               (** the socket has its [socket_addr_check] *)
  pw_net : Network;
  pw_st : PolicyState;
  pw_queues : gmap Channel (list P2Dgram);
  pw_in : option Incoming;
  pw_out : option Outgoing;
  pw_sent : list (option SocketAddr * list Z);  (** what the kernel took; [None]: to the peer *)
}.

Definition with_sk (w : P2World) (u : UdpSocket) : P2World :=
  {| pw_sk := u; pw_checked := pw_checked w; pw_net := pw_net w; pw_st := pw_st w;
     pw_queues := pw_queues w; pw_in := pw_in w; pw_out := pw_out w; pw_sent := pw_sent w |}.
Definition with_st (w : P2World) (st : PolicyState) : P2World :=
  {| pw_sk := pw_sk w; pw_checked := pw_checked w; pw_net := pw_net w; pw_st := st;
     pw_queues := pw_queues w; pw_in := pw_in w; pw_out := pw_out w; pw_sent := pw_sent w |}.
Definition with_in (w : P2World) (i : option Incoming) : P2World :=
  {| pw_sk := pw_sk w; pw_checked := pw_checked w; pw_net := pw_net w; pw_st := pw_st w;
     pw_queues := pw_queues w; pw_in := i; pw_out := pw_out w; pw_sent := pw_sent w |}.
Definition with_out (w : P2World) (o : option Outgoing) : P2World :=
  {| pw_sk := pw_sk w; pw_checked := pw_checked w; pw_net := pw_net w; pw_st := pw_st w;
     pw_queues := pw_queues w; pw_in := pw_in w; pw_out := o; pw_sent := pw_sent w |}.
Definition with_queues (w : P2World) (q : gmap Channel (list P2Dgram)) : P2World :=
  {| pw_sk := pw_sk w; pw_checked := pw_checked w; pw_net := pw_net w; pw_st := pw_st w;
     pw_queues := q; pw_in := pw_in w; pw_out := pw_out w; pw_sent := pw_sent w |}.
Definition with_sent (w : P2World) (to : option SocketAddr) (data : list Z) : P2World :=
  {| pw_sk := pw_sk w; pw_checked := pw_checked w; pw_net := pw_net w; pw_st := pw_st w;
     pw_queues := pw_queues w; pw_in := pw_in w; pw_out := pw_out w;
     pw_sent := pw_sent w ++ [(to, data)] |}.

(** ** The send buffer's semaphore, which lives in the virtual half *)

Definition add_permits_lo (lo : LoUdpSocket) (n : Z) : LoUdpSocket :=
  match lo_state lo with
  | LBound local rx p => lo_set_state lo (LBound local rx (p + n))
  | LConnected local remote rx p => lo_set_state lo (LConnected local remote rx (p + n))
  | _ => lo
  end.
Definition add_permits (u : UdpSocket) (n : Z) : UdpSocket :=
  match u with
  | UNetwork _ => u
  | ULoopback lo => ULoopback (add_permits_lo lo n)
  | UUnspecified net lo => UUnspecified net (add_permits_lo lo n)
  end.
Definition lo_permits (lo : LoUdpSocket) : Z :=
  match lo_state lo with LBound _ _ p | LConnected _ _ _ p => p | _ => 0 end.
Definition available_permits (u : UdpSocket) : Z :=
  match u with UNetwork _ => 0 | ULoopback lo | UUnspecified _ lo => lo_permits lo end.

(** Dropping a datagram gives its permits back. *)
Definition give_back (u : UdpSocket) (d : P2Dgram) : UdpSocket :=
  if pd_mine d then add_permits u (pd_permits d) else u.

(** [try_acquire_many_owned]. *)
Definition try_acquire_many (u : UdpSocket) (n : Z) : option UdpSocket :=
  if n <=? available_permits u then Some (add_permits u (- n)) else None.

(** A datagram received, the kernel's answers to [try_recv_from], and what a guest
    hands over: bytes, and perhaps an address. *)
Abbreviation Arrived := (list Z * SocketAddr)%type.
Abbreviation P2Inbox := (list (result (list Z * SocketAddr) IoError)).
Abbreviation Outbound := (list Z * option SocketAddr)%type.

Section p2_handlers.
Context `{UriLib}.
Implicit Types (c : WasiSocketsCtx) (w : P2World) (now : Instant).

(** ** Binding and opening the streams *)

Definition p2_udp_create := p3_create.

Definition open_queue (q : gmap Channel (list P2Dgram)) (u : UdpSocket) :
    gmap Channel (list P2Dgram) :=
  match udp_rx u with
  | Some rx => match q !! rx with Some _ => q | None => <[rx := []]> q end
  | None => q
  end.

Definition p2_udp_start_bind c (os : Os) w (addr : SocketAddr) (chan : Channel) now :
    result unit P2Error * P2World :=
  let '(r, st) := check c addr UdpBind now (pw_st w) in
  match r with
  | Err e => (Err (P2Code e), with_st w st)
  | Ok allowed =>
      let '(r, u, n) := udp_bind os (pw_sk w) (al_addr allowed) (pw_net w) chan in
      let st := release_slot (release_slot st (permit allowed)) (lost_slot (pw_sk w) u) in
      let w' := {| pw_sk := u;
                   pw_checked := match r with Ok _ => true | Err _ => pw_checked w end;
                   pw_net := n; pw_st := st; pw_queues := open_queue (pw_queues w) u;
                   pw_in := pw_in w; pw_out := pw_out w; pw_sent := pw_sent w |} in
      (match r with Ok _ => Ok tt | Err e => Err (P2Code e) end, w')
  end.

Definition p2_udp_finish_bind w : result unit P2Error * P2World :=
  let '(r, u) := udp_finish_bind (pw_sk w) in
  (match r with Ok _ => Ok tt | Err e => Err (P2Code e) end, with_sk w u).

Definition p2_udp_streams (lo : LoUdpSocket) (remote : option SocketAddr) :
    result (LoIncoming * LoOutgoing) ErrorCode :=
  match lo_state lo with
  | LBound local rx _ | LConnected local _ rx _ =>
      Ok ({| li_remote := remote; li_rx := rx; li_received := None |},
          {| oo_local := local; oo_remote := remote; oo_family := lo_family lo;
             oo_permit := None |})
  | _ => Err InvalidState
  end.

(** The part of [stream] that connects or disconnects: the address and the
    plane decided, and the deadline. *)
Definition stream_connect c (os : Os) w (remote : option SocketAddr) now :
    result (option (SocketAddr * Plane) * option Instant) ErrorCode * P2World :=
  let set_net u n st :=
    {| pw_sk := u; pw_checked := pw_checked w; pw_net := n; pw_st := st;
       pw_queues := pw_queues w; pw_in := pw_in w; pw_out := pw_out w; pw_sent := pw_sent w |} in
  match remote with
  | Some addr =>
      if negb (pw_checked w) then (Err InvalidState, w)
      else
        let '(r, st) := check c addr UdpConnect now (pw_st w) in
        match r with
        | Err e => (Err e, with_st w st)
        | Ok allowed =>
            let '(r, u, n) := udp_connect_on os (pw_sk w) (al_addr allowed) (al_plane allowed)
                                (valid_until allowed) (pw_net w) in
            match r with
            | Err e => (Err e, set_net u n (release_slot st (permit allowed)))
            | Ok _ =>
                (Ok (Some (al_addr allowed, al_plane allowed), valid_until allowed),
                 set_net (hold_quota_slot u (permit allowed)) n
                   (release_slot st (displaced_slot u (permit allowed))))
            end
        end
  | None =>
      if udp_is_connected (pw_sk w) then
        let '(r, u, n) := udp_disconnect os (pw_sk w) (pw_net w) in
        (match r with Ok _ => Ok (None, None) | Err e => Err e end, set_net u n (pw_st w))
      else (Ok (None, None), w)
  end.

(** The pair of streams of a socket: of its real half, of its virtual half, or of
    both when the socket has both and no peer. *)
Definition open_streams (u : UdpSocket) (peer : option (SocketAddr * Plane))
    (until : option Instant) : result (Incoming * Outgoing) ErrorCode :=
  let remote := fst <$> peer in
  let is_virtual := (λ p, bool_decide (p.2 = Virtual)) <$> peer in
  let net_out (s : NetworkUdpSocket) :=
    {| no_remote := remote; no_until := until; no_family := ns_family s; no_count := 0 |} in
  match u, is_virtual with
  | UNetwork s, _ | UUnspecified s _, Some false =>
      Ok (InNetwork remote, OutNetwork (net_out s))
  | ULoopback lo, _ | UUnspecified _ lo, Some true =>
      (let? (i, o) := p2_udp_streams lo remote in Ok (InLoopback i, OutLoopback o))%rust
  | UUnspecified s lo, None =>
      (let? (i, o) := p2_udp_streams lo remote in
       Ok (InUnspecified remote i, OutUnspecified (net_out s) o))%rust
  end.

Definition p2_udp_stream c (os : Os) w (remote : option SocketAddr) now :
    result unit P2Error * P2World :=
  match pw_in w, pw_out w with
  | None, None =>
      if negb (udp_is_bound (pw_sk w)) then (Err (P2Code InvalidState), w)
      else
        let '(r, w) := stream_connect c os w remote now in
        match r with
        | Err e => (Err (P2Code e), w)
        | Ok (peer, until) =>
            match open_streams (pw_sk w) peer until with
            | Err e => (Err (P2Code e), w)
            | Ok (i, o) => (Ok tt, with_out (with_in w (Some i)) (Some o))
            end
        end
  | _, _ => (Err P2Trap, w)
  end.

(** ** Receiving *)

(** [LoopbackIncomingDatagramStream::recv]: [room] datagrams at most. *)
Fixpoint lo_recv c (checked : bool) (remote : option SocketAddr) (q : list P2Dgram) (room : nat)
    now (u : UdpSocket) (st : PolicyState) :
    list Arrived * list P2Dgram * UdpSocket * PolicyState :=
  match room, q with
  | O, _ | _, [] => ([], q, u, st)
  | S room', d :: q =>
      let u := give_back u d in
      let from := dg_source (pd_dgram d) in
      if is_some_and remote (λ a, negb (bool_decide (a = from)))
      then lo_recv c checked remote q room now u st
      else
        let '(refused, st) :=
          if checked then
            let '(r, st) := check c from UdpReceive now st in (negb (is_ok r), st)
          else (false, st) in
        if refused then lo_recv c checked remote q room now u st
        else
          let '(got, q, u, st) := lo_recv c checked remote q room' now u st in
          ((dg_data (pd_dgram d), from) :: got, q, u, st)
  end.

Definition recv_lo_stream c w (lo : LoIncoming) (room : nat) now :
    list Arrived * LoIncoming * P2World :=
  let q := option_list (li_received lo) ++ default [] (pw_queues w !! li_rx lo) in
  let '(got, q, u, st) := lo_recv c (pw_checked w) (li_remote lo) q room now (pw_sk w) (pw_st w) in
  (got, {| li_remote := li_remote lo; li_rx := li_rx lo; li_received := None |},
   with_queues (with_st (with_sk w u) st) (<[li_rx lo := q]> (pw_queues w))).

(** [recv_one]: [None] is a datagram that is dropped. *)
Definition recv_one c (checked : bool) (remote : option SocketAddr)
    (peers : option (gset SocketAddr)) (d : Arrived) now (st : PolicyState) :
    option Arrived * PolicyState :=
  let '(data, from) := d in
  if is_some_and remote (λ a, negb (bool_decide (a = from))) then (None, st)
  else if is_some_and peers (λ p, bool_decide (from ∉ p)) then (None, st)
  else
    let '(refused, st) :=
      if checked then
        let '(r, st) := check c from UdpReceive now st in (negb (is_ok r), st)
      else (false, st) in
    (if refused then None else Some d, st).

(** The kernel's answers in order; when they are used up it would block.  [some]:
    there is a datagram to return already. *)
Fixpoint net_recv c (checked : bool) (remote : option SocketAddr)
    (peers : option (gset SocketAddr)) (inbox : P2Inbox) (room : nat) (some : bool) now
    (st : PolicyState) : result (list Arrived) P2Error * P2Inbox * PolicyState :=
  let failed e inbox st :=
    (if some then Ok []
     else match socket_error_from_io e with
          | P2WouldBlock => Ok []
          | e => Err e
          end, inbox, st) in
  match room, inbox with
  | O, _ => (Ok [], inbox, st)
  | S _, [] => failed would_block [] st
  | S _, Err e :: inbox => failed e inbox st
  | S room', Ok d :: inbox =>
      let '(got, st) := recv_one c checked remote peers d now st in
      match got with
      | None => net_recv c checked remote peers inbox room some now st
      | Some d =>
          let '(r, inbox, st) := net_recv c checked remote peers inbox room' true now st in
          (match r with Ok l => Ok (d :: l) | Err e => Err e end, inbox, st)
      end
  end.

Definition p2_udp_receive c w (inbox : P2Inbox) (max_results : nat) now :
    result (list Arrived) P2Error * P2Inbox * P2World :=
  let from_net remote w room some :=
    let '(r, inbox, st) := net_recv c (pw_checked w) remote (peers_of (pw_sk w)) inbox room some
                             now (pw_st w) in
    (r, inbox, with_st w st) in
  if (max_results =? 0)%nat then (Ok [], inbox, w)
  else match pw_in w with
  | None => (Err P2Trap, inbox, w)
  | Some (InNetwork remote) => from_net remote w max_results false
  | Some (InLoopback lo) =>
      let '(got, lo, w) := recv_lo_stream c w lo max_results now in
      (Ok got, inbox, with_in w (Some (InLoopback lo)))
  | Some (InUnspecified remote lo) =>
      let '(got, lo, w) := recv_lo_stream c w lo max_results now in
      let w := with_in w (Some (InUnspecified remote lo)) in
      let '(r, inbox, w) := from_net remote w (max_results - length got)%nat
                              (negb (bool_decide (got = []))) in
      (match r with Ok l => Ok (got ++ l) | Err e => Err e end, inbox, w)
  end.

(** [rx.recv()] of a readiness poll; [None]: pending.  What the stream had set
    aside is dropped. *)
Definition poll_lo (w : P2World) (lo : LoIncoming) (alive : bool) :
    option (LoIncoming * P2World) :=
  let set d := {| li_remote := li_remote lo; li_rx := li_rx lo; li_received := d |} in
  let u := match li_received lo with
           | Some d => give_back (pw_sk w) d
           | None => pw_sk w
           end in
  match default [] (pw_queues w !! li_rx lo) with
  | d :: q => Some (set (Some d), with_queues (with_sk w u) (<[li_rx lo := q]> (pw_queues w)))
  | [] => if alive then None else Some (set None, with_sk w u)
  end.

(** [IncomingDatagramStream::ready]; [readable]: the kernel has something. *)
Definition p2_in_ready w (alive readable : bool) : option P2World :=
  match pw_in w with
  | None => None
  | Some (InNetwork _) => if readable then Some w else None
  | Some (InLoopback lo) =>
      '(lo, w) ← poll_lo w lo alive; Some (with_in w (Some (InLoopback lo)))
  | Some (InUnspecified remote lo) =>
      match poll_lo w lo alive with
      | Some (lo, w) => Some (with_in w (Some (InUnspecified remote lo)))
      | None => if readable then Some w else None
      end
  end.

(** ** Sending *)

(** [LoopbackOutgoingDatagramStream::check_send]. *)
Definition lo_check_send w (o : LoOutgoing) : bool * LoOutgoing * P2World :=
  match oo_permit o with
  | Some _ => (true, o, w)
  | None =>
      let n := available_permits (pw_sk w) in
      match try_acquire_many (pw_sk w) n with
      | None => (false, o, w)
      | Some u => (true, {| oo_local := oo_local o; oo_remote := oo_remote o;
                            oo_family := oo_family o; oo_permit := Some n |}, with_sk w u)
      end
  end.

Definition set_count (o : NetOutgoing) (n : nat) : NetOutgoing :=
  {| no_remote := no_remote o; no_until := no_until o; no_family := no_family o; no_count := n |}.
Definition set_until (o : NetOutgoing) (t : option Instant) : NetOutgoing :=
  {| no_remote := no_remote o; no_until := t; no_family := no_family o; no_count := no_count o |}.
Definition set_permit (o : LoOutgoing) (p : option Z) : LoOutgoing :=
  {| oo_local := oo_local o; oo_remote := oo_remote o; oo_family := oo_family o; oo_permit := p |}.

(** [writable]: the kernel's answer to the readiness poll. *)
Definition p2_check_send w (writable : bool) : result nat P2Error * P2World :=
  let count := if writable then 16%nat else 0%nat in
  match pw_out w with
  | None => (Err P2Trap, w)
  | Some (OutNetwork net) =>
      (Ok count, with_out w (Some (OutNetwork (set_count net count))))
  | Some (OutLoopback lo) =>
      let '(b, lo, w) := lo_check_send w lo in
      (Ok (if b then 1%nat else 0%nat), with_out w (Some (OutLoopback lo)))
  | Some (OutUnspecified net lo) =>
      let '(b, lo, w) := lo_check_send w lo in
      if b then (Ok (Nat.min count 1), with_out w (Some (OutUnspecified (set_count net count) lo)))
      else (Ok 0%nat, with_out w (Some (OutUnspecified net lo)))
  end.

(** The address to use, the plane when the policy was asked, and the deadline as
    [refresh_connected] leaves it. *)
Definition prepare_one c (checked : bool) (remote : option SocketAddr) (until : option Instant)
    (family : SocketAddressFamily) (d : Outbound) now (st : PolicyState) :
    result (SocketAddr * option Plane) P2Error * option Instant * PolicyState :=
  let valid addr plane until st :=
    (if negb (is_valid_remote_address addr) || negb (is_valid_address_family (sock_ip addr) family)
     then Err (P2Code InvalidArgument) else Ok (addr, plane), until, st) in
  if MAX_UDP_DATAGRAM_SIZE <? Z.of_nat (length d.1) then (Err (P2Code DatagramTooLarge), until, st)
  else match remote, d.2 with
  | None, Some addr =>
      if negb checked then (Err (P2Code InvalidState), until, st)
      else
        let '(r, st) := check c addr UdpOutgoingDatagram now st in
        match r with
        | Err e => (Err (P2Code e), until, st)
        | Ok allowed => valid (al_addr allowed) (Some (al_plane allowed)) until
                          (release_slot st (permit allowed))
        end
  | Some peer, provided =>
      if is_none_or provided (λ a, bool_decide (a = peer)) then
        match until with
        | None => valid peer None until st
        | Some _ =>
            if negb checked then (Err (P2Code InvalidState), until, st)
            else
              let '(r, st) := refresh_connected c peer until now st in
              match r with
              | Err e => (Err (P2Code e), until, st)
              | Ok until => valid peer None until st
              end
        end
      else (Err (P2Code InvalidArgument), until, st)
  | None, None => (Err (P2Code InvalidArgument), until, st)
  end.

(** The permits a datagram of this length keeps; the rest of the permit goes
    back.  [None]: too large for the permit at hand. *)
Definition required_permits (held len : Z) : option Z :=
  if held <? len then None
  else let required := Z.max len 1 in if held <? required then None else Some required.

Definition send_one_lo c w (o : LoOutgoing) (d : Outbound) now :
    result unit P2Error * LoOutgoing * P2World :=
  let '(r, _, st) := prepare_one c (pw_checked w) (oo_remote o) None (oo_family o) d now (pw_st w) in
  let w := with_st w st in
  match r with
  | Err e => (Err e, o, w)
  | Ok (addr, _) =>
      match oo_permit o with
      | None => (Err P2Trap, o, w)
      | Some held =>
          let o := set_permit o None in
          let drop_all := with_sk w (add_permits (pw_sk w) held) in
          match required_permits held (Z.of_nat (length d.1)) with
          | None => (Err (P2Code DatagramTooLarge), o, drop_all)
          | Some required =>
              match connect_udp (pw_net w) (oo_local o) addr with
              | Err e => (Err (P2Code e), o, drop_all)
              | Ok None => (Ok tt, o, drop_all)
              | Ok (Some tx) =>
                  match pw_queues w !! tx with
                  | None => (Ok tt, o, drop_all)
                  | Some q =>
                      let d := {| pd_dgram := {| dg_source := oo_local o; dg_data := d.1 |};
                                  pd_permits := required; pd_mine := true |} in
                      (Ok tt, o,
                       with_queues (with_sk w (add_permits (pw_sk w) (held - required)))
                         (<[tx := q ++ [d]]> (pw_queues w)))
                  end
              end
          end
      end
  end.

(** [try_send] to the connected peer, or [try_send_to]; the peer is remembered
    before. *)
Definition send_one_net w (kernel : option SocketAddr → result unit IoError) (net : NetOutgoing)
    (d : Outbound) (addr : SocketAddr) : result unit P2Error * P2World :=
  let w := with_sk w (remember_peer (pw_sk w) addr) in
  let to := if bool_decide (no_remote net = Some addr) then None else Some addr in
  match kernel to with
  | Ok _ => (Ok tt, with_sent w to d.1)
  | Err e => (Err (socket_error_from_io e), w)
  end.

Definition rebuild_out (net : NetOutgoing) (lo : option LoOutgoing) : Outgoing :=
  match lo with Some lo => OutUnspecified net lo | None => OutNetwork net end.

(** [kernel n] answers the [n]th send of the call. *)
Fixpoint send_batch c w (kernel : nat → option SocketAddr → result unit IoError)
    (net : NetOutgoing) (lo : option LoOutgoing) (count : nat) (ds : list Outbound) now :
    result nat P2Error * P2World :=
  match ds with
  | [] => (Ok count, with_out w (Some (rebuild_out net lo)))
  | d :: ds =>
      let '(r, until, st) := prepare_one c (pw_checked w) (no_remote net) (no_until net)
                               (no_family net) d now (pw_st w) in
      let w := with_st w st in
      let net := set_until net until in
      let stop r w lo := (r, with_out w (Some (rebuild_out net lo))) in
      match r with
      | Err e => stop (if (0 <? count)%nat then Ok count else Err e) w lo
      | Ok (addr, plane) =>
          let virtual_plane := match plane with
                               | Some p => bool_decide (p = Virtual)
                               | None => is_loopback (to_canonical (sock_ip addr))
                               end in
          match (if virtual_plane then lo else None) with
          | Some o =>
              let '(r, o, w) := send_one_lo c w o d now in
              match r with
              | Err e => stop (Err e) w (Some o)
              | Ok _ => send_batch c w kernel net (Some o) (S count) ds now
              end
          | None =>
              let '(r, w) := send_one_net w (kernel count) net d addr in
              match r with
              | Ok _ => send_batch c w kernel net lo (S count) ds now
              | Err e =>
                  stop (if (0 <? count)%nat then Ok count
                        else match e with P2WouldBlock => Ok 0%nat | e => Err e end) w lo
              end
          end
      end
  end.

Definition p2_udp_send c w (kernel : nat → option SocketAddr → result unit IoError)
    (ds : list Outbound) now : result nat P2Error * P2World :=
  let run net lo :=
    match ds with
    | [] => (Ok 0%nat, w)
    | _ =>
        if (no_count net <? length ds)%nat then (Err P2Trap, w)
        else send_batch c w kernel (set_count net (no_count net - length ds)) lo 0 ds now
    end in
  match pw_out w with
  | None => (Err P2Trap, w)
  | Some (OutNetwork net) => run net None
  | Some (OutLoopback lo) =>
      match ds with
      | [] => (Ok 0%nat, w)
      | [d] => let '(r, lo, w) := send_one_lo c w lo d now in
               (match r with Ok _ => Ok 1%nat | Err e => Err e end,
                with_out w (Some (OutLoopback lo)))
      | _ => (Err P2Trap, w)
      end
  | Some (OutUnspecified net lo) =>
      if (1 <? length ds)%nat then (Err P2Trap, w) else run net (Some lo)
  end.

(** ** Dropping *)

Definition p2_drop_in w : P2World :=
  let u := match pw_in w with
           | Some (InLoopback lo) | Some (InUnspecified _ lo) =>
               match li_received lo with Some d => give_back (pw_sk w) d | None => pw_sk w end
           | _ => pw_sk w
           end in
  with_in (with_sk w u) None.

Definition p2_drop_out w : P2World :=
  let u := match pw_out w with
           | Some (OutLoopback lo) | Some (OutUnspecified _ lo) =>
               match oo_permit lo with Some n => add_permits (pw_sk w) n | None => pw_sk w end
           | _ => pw_sk w
           end in
  with_out (with_sk w u) None.

(** The streams are children of the socket in the table: they go first.  [None]:
    a trap. *)
Definition p2_udp_drop w : option (Network * PolicyState) :=
  match pw_in w, pw_out w with
  | None, None =>
      n ← udp_drop (pw_sk w) (pw_net w);
      Some (n, release_slot (pw_st w) (slot_of (pw_sk w)))
  | _, _ => None
  end.

End p2_handlers.

(** ** What a batch reports *)

Section p2_theorems.
Context `{UriLib}.
Implicit Types (c : WasiSocketsCtx) (w : P2World) (now : Instant).

Lemma send_batch_real c kernel now ds : ∀ w net count r w',
  send_batch c w kernel net None count ds now = (r, w') →
  pw_queues w' = pw_queues w
  ∧ ∃ new, pw_sent w' = pw_sent w ++ new
    ∧ match r with
      | Ok n => n = (count + length new)%nat ∧ snd <$> new = fst <$> take (length new) ds
      | Err _ => new = [] ∧ count = 0%nat
      end.
Proof.
  induction ds as [|d ds IH]; intros w net count r w'; cbn [send_batch].
  - intros [= <- <-]. split; [done|]. exists []. rewrite app_nil_r. simpl. split; [done|].
    split; [lia|done].
  - destruct (prepare_one _ _ _ _ _ _ _ _) as [[[[addr plane]|e] until] st].
    2:{ intros [= <- <-]. split; [done|]. exists []. rewrite app_nil_r. split; [done|].
        destruct count; simpl; split; lia || done. }
    assert (∀ b : bool, (if b then None else @None LoOutgoing) = None) as -> by (by intros []).
    unfold send_one_net. simpl. destruct (kernel count _) as [[]|e].
    + intros (Hq & new & Hs & Hr)%IH. split; [done|]. simpl in Hs.
      eexists. rewrite <-app_assoc in Hs. split; [exact Hs|].
      destruct r as [n|e]; [|by destruct Hr]. destruct Hr as [-> Hr]. split; [simpl; lia|].
      cbn [length take app]. by rewrite !fmap_cons, Hr.
    + intros [= <- <-]. split; [done|]. exists []. rewrite app_nil_r. split; [done|].
      destruct count; simpl; [|split; [lia|done]].
      destruct (socket_error_from_io e); simpl; split; done || lia.
Qed.

(** p2's batched send reports exactly what left.  Over a socket's real half,
    whatever the policy and the kernel do in the middle of a batch, a count of
    [n] means that the first [n] datagrams, and no others, were handed to the
    kernel in order; an error means that none was; and nothing enters the virtual
    network. *)
Theorem p2_batch_reports_what_was_sent c w kernel net ds now r w' :
  pw_out w = Some (OutNetwork net) → p2_udp_send c w kernel ds now = (r, w') →
  pw_queues w' = pw_queues w
  ∧ ∃ new, pw_sent w' = pw_sent w ++ new
    ∧ match r with
      | Ok n => n = length new ∧ snd <$> new = fst <$> take n ds
      | Err _ => new = []
      end.
Proof.
  intros Ho. unfold p2_udp_send. rewrite Ho.
  destruct ds as [|d ds].
  { intros [= <- <-]. split; [done|]. exists []. by rewrite app_nil_r. }
  destruct (_ <? _)%nat.
  { intros [= <- <-]. split; [done|]. exists []. by rewrite app_nil_r. }
  intros (Hq & new & Hs & Hr)%send_batch_real. split; [done|]. exists new. split; [done|].
  destruct r as [n|e]; [|by destruct Hr]. by destruct Hr as [-> Hr].
Qed.

(** ** The plane *)

(** through a socket with both halves, p2 sends a datagram on the plane the
    policy chose for its destination: to the kernel, for exactly the address the
    policy resolved, only when the decision was for the machine's network, and
    into the virtual network only when it was for that. *)
Theorem p2_datagram_travels_on_decided_plane c w kernel net lo data addr now w' :
  pw_out w = Some (OutUnspecified net lo) → no_remote net = None → oo_remote lo = None →
  p2_udp_send c w kernel [(data, Some addr)] now = (Ok 1%nat, w') →
  ∃ a st, check c addr UdpOutgoingDatagram now (pw_st w) = (Ok a, st)
    ∧ ((al_plane a = Host ∧ pw_sent w' = pw_sent w ++ [(Some (al_addr a), data)]
        ∧ pw_queues w' = pw_queues w)
       ∨ (al_plane a = Virtual ∧ pw_sent w' = pw_sent w)).
Proof.
  intros Ho Hn Hl. unfold p2_udp_send. rewrite Ho. change (1 <? length [(data, Some addr)])%nat with false.
  cbn iota. destruct (no_count net <? _)%nat; [done|]. cbn [send_batch]. unfold prepare_one. simpl. rewrite Hn.
  destruct (MAX_UDP_DATAGRAM_SIZE <? _); [done|]. destruct (pw_checked w) eqn:Ek; [|done]. simpl.
  destruct (check c addr _ now (pw_st w)) as [[a|e] st] eqn:Ec; [|done].
  destruct (_ || _); [done|].
  destruct (al_plane a) eqn:Ep; simpl.
  - unfold send_one_lo. simpl. rewrite Ek, Hl. intros Hs. exists a, st. split; [done|]. right.
    split; [done|]. revert Hs. destruct (prepare_one _ _ _ _ _ _ _ _) as [[[[b p]|e] u] st2]; [|done].
    destruct (oo_permit lo) as [held|]; [|done]. destruct (required_permits _ _); [|done].
    destruct (connect_udp _ _ _) as [[tx|]|]; [|by intros [= <-]|done].
    destruct (_ !! tx); by intros [= <-].
  - unfold send_one_net. simpl. rewrite Hn, bool_decide_false by done.
    destruct (kernel 0%nat _); [|by destruct (socket_error_from_io _)].
    intros [= <-]. exists a, st. split; [done|]. by left.
Qed.

(** ** The send buffer *)

Definition mine (q : list P2Dgram) : Z :=
  foldr (λ d z, (if pd_mine d then pd_permits d else 0) + z) 0 q.
Definition queued (m : gmap Channel (list P2Dgram)) : Z := map_fold (λ _ q z, mine q + z) 0 m.

(** The permits in a stream's hands. *)
Definition aside (i : option Incoming) : Z :=
  match i with
  | Some (InLoopback lo) | Some (InUnspecified _ lo) => mine (option_list (li_received lo))
  | _ => 0
  end.
Definition in_hand (o : option Outgoing) : Z :=
  match o with
  | Some (OutLoopback lo) | Some (OutUnspecified _ lo) => default 0 (oo_permit lo)
  | _ => 0
  end.

Definition budget w : Z :=
  available_permits (pw_sk w) + in_hand (pw_out w) + queued (pw_queues w) + aside (pw_in w).

(** The socket has a bound virtual half, which the semaphore belongs to. *)
Definition has_buffer (u : UdpSocket) : bool :=
  match u with UNetwork _ => false | ULoopback lo | UUnspecified _ lo => lo_is_bound lo end.

Lemma add_permits_available u n :
  has_buffer u = true → available_permits (add_permits u n) = available_permits u + n.
Proof.
  destruct u as [s|lo|s lo]; simpl; [done|..]; unfold lo_is_bound, add_permits_lo, lo_permits;
    by destruct (lo_state lo).
Qed.

Lemma add_permits_buffer u n : has_buffer (add_permits u n) = has_buffer u.
Proof.
  destruct u as [s|lo|s lo]; simpl; [done|..]; unfold lo_is_bound, add_permits_lo;
    by destruct (lo_state lo) eqn:E; rewrite ?E.
Qed.

Lemma give_back_available u d :
  has_buffer u = true → available_permits (give_back u d) = available_permits u + mine [d].
Proof.
  intros Hu. unfold give_back. simpl. destruct (pd_mine d); [rewrite add_permits_available by done|]; lia.
Qed.

Lemma give_back_buffer u d : has_buffer (give_back u d) = has_buffer u.
Proof. unfold give_back. destruct (pd_mine d); [apply add_permits_buffer|done]. Qed.

Lemma remember_peer_same u a :
  available_permits (remember_peer u a) = available_permits u
  ∧ has_buffer (remember_peer u a) = has_buffer u.
Proof. by destruct u. Qed.

Lemma mine_app q q' : mine (q ++ q') = mine q + mine q'.
Proof. induction q as [|d q IH]; simpl; [done|]. unfold mine in *. simpl. lia. Qed.

Lemma queued_insert m rx q :
  queued (<[rx := q]> m) = queued m - mine (default [] (m !! rx)) + mine q.
Proof.
  assert (∀ m rx q, m !! rx = None → queued (<[rx := q]> m) = mine q + queued m) as Hnew.
  { intros m' rx' q' Hm. unfold queued. rewrite map_fold_insert_L; [done| |done]. intros. lia. }
  destruct (m !! rx) as [q0|] eqn:E; simpl.
  - rewrite <-insert_delete_eq, Hnew by apply lookup_delete_eq.
    rewrite <-(insert_delete_id m rx q0 E) at 2. rewrite Hnew by apply lookup_delete_eq. lia.
  - rewrite Hnew by done. simpl. lia.
Qed.

(** A step that keeps the buffer and what it adds up to. *)
Definition fair w w' : Prop :=
  has_buffer (pw_sk w) = true → has_buffer (pw_sk w') = true ∧ budget w' = budget w.

Lemma fair_refl w : fair w w.
Proof. by intros. Qed.

Lemma fair_trans w1 w2 w3 : fair w1 w2 → fair w2 w3 → fair w1 w3.
Proof. intros H1 H2 Hb. destruct (H1 Hb) as [Hb2 E1]. destruct (H2 Hb2) as [? E2]. split; [done|lia]. Qed.

Lemma lo_recv_permits c checked remote now q : ∀ room u st got q' u' st',
  lo_recv c checked remote q room now u st = (got, q', u', st') → has_buffer u = true →
  has_buffer u' = true ∧ available_permits u' + mine q' = available_permits u + mine q.
Proof.
  induction q as [|d q IH]; intros room u st got q' u' st'.
  - destruct room; cbn [lo_recv]; by intros [= <- <- <- <-].
  - destruct room as [|room]; cbn [lo_recv]; [by intros [= <- <- <- <-]|]. intros E Hu.
    assert (has_buffer (give_back u d) = true ∧
      available_permits (give_back u d) + mine q = available_permits u + mine (d :: q)) as [Hg Ha].
    { rewrite give_back_buffer, give_back_available by done. split; [done|].
      change (d :: q) with ([d] ++ q). rewrite mine_app. lia. }
    destruct (is_some_and _ _).
    { apply IH in E as [? ?]; [|done]. split; [done|lia]. }
    destruct (if checked then _ else _) as [[] st1].
    { apply IH in E as [? ?]; [|done]. split; [done|lia]. }
    destruct (lo_recv _ _ _ q room _ _ _) as [[[got1 q1] u1] st2] eqn:E1. injection E as <- <- <- <-.
    apply IH in E1 as [? ?]; [|done]. split; [done|lia].
Qed.

Lemma recv_lo_stream_fair c w lo room now got lo' w' :
  recv_lo_stream c w lo room now = (got, lo', w') → has_buffer (pw_sk w) = true →
  has_buffer (pw_sk w') = true ∧ pw_out w' = pw_out w ∧ li_received lo' = None
  ∧ available_permits (pw_sk w') + queued (pw_queues w')
    = available_permits (pw_sk w) + queued (pw_queues w) + mine (option_list (li_received lo)).
Proof.
  unfold recv_lo_stream.
  destruct (lo_recv _ _ _ _ _ _ _ _) as [[[got1 q] u] st] eqn:E. intros [= <- <- <-] Hb.
  apply lo_recv_permits in E as [Hu Hp]; [|done]. simpl. split; [done|]. split; [done|].
  split; [done|]. rewrite queued_insert. rewrite mine_app in Hp. lia.
Qed.

Lemma p2_receive_fair c w inbox max now r inbox' w' :
  p2_udp_receive c w inbox max now = (r, inbox', w') → fair w w'.
Proof.
  unfold p2_udp_receive. destruct (max =? 0)%nat; [by intros [= _ _ <-]|].
  destruct (pw_in w) as [[remote|lo|remote lo]|] eqn:Ei; [..|by intros [= _ _ <-]].
  - destruct (net_recv _ _ _ _ _ _ _ _ _) as [[r1 i1] st]. by intros [= _ _ <-].
  - destruct (recv_lo_stream _ _ _ _ _) as [[got lo'] w1] eqn:E. intros [= _ _ <-] Hb.
    apply recv_lo_stream_fair in E as (H1 & H2 & H3 & H4); [|done]. split; [done|].
    unfold budget. simpl. rewrite H3, Ei, H2. simpl. lia.
  - destruct (recv_lo_stream _ _ _ _ _) as [[got lo'] w1] eqn:E. simpl.
    destruct (net_recv _ _ _ _ _ _ _ _ _) as [[r1 i1] st]. intros [= _ _ <-] Hb.
    apply recv_lo_stream_fair in E as (H1 & H2 & H3 & H4); [|done]. split; [done|].
    unfold budget. simpl. rewrite H3, Ei, H2. simpl. lia.
Qed.

Lemma poll_lo_fair w lo alive lo' w' :
  poll_lo w lo alive = Some (lo', w') → has_buffer (pw_sk w) = true →
  has_buffer (pw_sk w') = true ∧ pw_out w' = pw_out w
  ∧ available_permits (pw_sk w') + queued (pw_queues w') + mine (option_list (li_received lo'))
    = available_permits (pw_sk w) + queued (pw_queues w) + mine (option_list (li_received lo)).
Proof.
  unfold poll_lo. cbn zeta. set (u := match li_received lo with Some d => _ | None => _ end).
  intros E Hb.
  assert (has_buffer u = true ∧ available_permits u
    = available_permits (pw_sk w) + mine (option_list (li_received lo))) as [Hu Ha].
  { subst u. destruct (li_received lo) as [d|]; simpl; [|split; [done|lia]].
    rewrite give_back_buffer, give_back_available by done. simpl. split; [done|lia]. }
  destruct (default [] (pw_queues w !! li_rx lo)) as [|d q] eqn:Eq.
  - destruct alive; [done|]. injection E as <- <-. simpl. split; [done|]. split; [done|]. lia.
  - injection E as <- <-. simpl. split; [done|]. split; [done|].
    rewrite queued_insert, Eq. change (d :: q) with ([d] ++ q). rewrite mine_app. simpl. lia.
Qed.

Lemma p2_in_ready_fair w alive readable w' : p2_in_ready w alive readable = Some w' → fair w w'.
Proof.
  unfold p2_in_ready. destruct (pw_in w) as [[remote|lo|remote lo]|] eqn:Ei; [| | |done].
  - destruct readable; [|done]. by intros [= <-].
  - destruct (poll_lo w lo alive) as [[lo' w1]|] eqn:E; [|done]. intros [= <-] Hb.
    apply poll_lo_fair in E as (H1 & H2 & H3); [|done]. split; [done|]. unfold budget. simpl.
    rewrite Ei, H2. simpl. lia.
  - destruct (poll_lo w lo alive) as [[lo' w1]|] eqn:E.
    + intros [= <-] Hb. apply poll_lo_fair in E as (H1 & H2 & H3); [|done]. split; [done|].
      unfold budget. simpl. rewrite Ei, H2. simpl. lia.
    + destruct readable; [|done]. by intros [= <-].
Qed.

Lemma lo_check_send_fair w o b o' w' :
  lo_check_send w o = (b, o', w') → has_buffer (pw_sk w) = true →
  b = true ∧ has_buffer (pw_sk w') = true ∧ pw_queues w' = pw_queues w ∧ pw_in w' = pw_in w
  ∧ available_permits (pw_sk w') + default 0 (oo_permit o')
    = available_permits (pw_sk w) + default 0 (oo_permit o).
Proof.
  unfold lo_check_send, try_acquire_many. destruct (oo_permit o) as [n|] eqn:Eo.
  - intros [= <- <- <-] Hb. by rewrite Eo.
  - rewrite Z.leb_refl. intros [= <- <- <-] Hb. simpl.
    rewrite add_permits_buffer, add_permits_available by done. split_and!; try done. lia.
Qed.

Lemma p2_check_send_fair w writable r w' : p2_check_send w writable = (r, w') → fair w w'.
Proof.
  unfold p2_check_send. destruct (pw_out w) as [[net|lo|net lo]|] eqn:Eo; [..|by intros [= _ <-]].
  - intros [= _ <-] Hb. split; [done|]. unfold budget. simpl. by rewrite Eo.
  - destruct (lo_check_send w lo) as [[b lo'] w1] eqn:E. intros [= _ <-] Hb.
    apply lo_check_send_fair in E as (_ & H1 & H2 & H3 & H4); [|done]. split; [done|].
    unfold budget. simpl. rewrite Eo, H2, H3. simpl. lia.
  - destruct (lo_check_send w lo) as [[b lo'] w1] eqn:E.
    destruct b; intros [= _ <-] Hb;
      apply lo_check_send_fair in E as (_ & H1 & H2 & H3 & H4); try done; (split; [done|]);
      unfold budget; simpl; rewrite Eo, H2, H3; simpl; lia.
Qed.

Lemma send_one_lo_fair c w o d now r o' w' :
  send_one_lo c w o d now = (r, o', w') → has_buffer (pw_sk w) = true →
  has_buffer (pw_sk w') = true ∧ pw_in w' = pw_in w
  ∧ available_permits (pw_sk w') + default 0 (oo_permit o') + queued (pw_queues w')
    = available_permits (pw_sk w) + default 0 (oo_permit o) + queued (pw_queues w).
Proof.
  unfold send_one_lo. destruct (prepare_one _ _ _ _ _ _ _ _) as [[[[addr p]|e] u] st];
    [|by intros [= _ <- <-]].
  destruct (oo_permit o) as [n|] eqn:Eo; [|intros [= _ <- <-] Hb; simpl; by rewrite Eo].
  assert (∀ x, has_buffer (pw_sk w) = true →
    has_buffer (add_permits (pw_sk w) x) = true
    ∧ available_permits (add_permits (pw_sk w) x) = available_permits (pw_sk w) + x) as Hadd.
  { intros x Hb. by rewrite add_permits_buffer, add_permits_available. }
  destruct (required_permits n _) as [k|].
  - destruct (connect_udp _ _ _) as [[tx|]|]; simpl.
    + destruct (pw_queues w !! tx) as [q|] eqn:Eq; intros [= _ <- <-] Hb; simpl.
      * destruct (Hadd (n - k) Hb) as [-> ->]. split; [done|]. split; [done|].
        rewrite queued_insert, Eq. simpl. rewrite mine_app. simpl. lia.
      * destruct (Hadd n Hb) as [-> ->]. split_and!; try done. lia.
    + intros [= _ <- <-] Hb. simpl. destruct (Hadd n Hb) as [-> ->]. split_and!; try done. lia.
    + intros [= _ <- <-] Hb. simpl. destruct (Hadd n Hb) as [-> ->]. split_and!; try done. lia.
  - intros [= _ <- <-] Hb. simpl. destruct (Hadd n Hb) as [-> ->]. split_and!; try done. lia.
Qed.

(** The permits a stream passed around on its own holds. *)
Definition lo_hand (lo : option LoOutgoing) : Z :=
  match lo with Some o => default 0 (oo_permit o) | None => 0 end.

Lemma send_batch_fair c kernel now ds : ∀ w net lo count r w',
  send_batch c w kernel net lo count ds now = (r, w') → has_buffer (pw_sk w) = true →
  has_buffer (pw_sk w') = true
  ∧ budget w' = available_permits (pw_sk w) + lo_hand lo + queued (pw_queues w) + aside (pw_in w).
Proof.
  induction ds as [|d ds IH]; intros w net lo count r w'; cbn [send_batch].
  - intros [= _ <-] Hb. split; [done|]. unfold budget. simpl. by destruct lo.
  - destruct (prepare_one _ _ _ _ _ _ _ _) as [[[[addr plane]|e] until] st].
    2:{ intros [= _ <-] Hb. split; [done|]. unfold budget. simpl. by destruct lo. }
    set (vp := match plane with Some p => _ | None => _ end). clearbody vp.
    destruct (if vp then lo else None) as [o|] eqn:Elo.
    + assert (lo = Some o) as -> by (by destruct vp).
      destruct (send_one_lo _ _ o d now) as [[r1 o1] w1] eqn:E. intros Hs Hb.
      apply send_one_lo_fair in E as (H1 & H2 & H3); [|done]. simpl in *. destruct r1 as [[]|e].
      * apply IH in Hs as [? Hs]; [|done]. split; [done|]. rewrite Hs, H2. simpl. lia.
      * injection Hs as <- <-. split; [done|]. unfold budget. simpl. rewrite H2. lia.
    + clear Elo. unfold send_one_net. cbn [pw_sk with_sk with_st].
      destruct (remember_peer_same (pw_sk w) addr) as [Ha Hbf].
      destruct (kernel count _) as [[]|e].
      * intros Hs Hb. apply IH in Hs as [? Hs]; [|simpl; by rewrite Hbf]. split; [done|].
        rewrite Hs. simpl. by rewrite Ha.
      * intros [= _ <-] Hb. simpl. rewrite Hbf. split; [done|]. unfold budget. simpl.
        rewrite Ha. by destruct lo.
Qed.

Lemma p2_send_fair c w kernel ds now r w' : p2_udp_send c w kernel ds now = (r, w') → fair w w'.
Proof.
  unfold p2_udp_send.
  assert (∀ net lo, in_hand (pw_out w) = lo_hand lo →
    match ds with
    | [] => (Ok 0%nat, w)
    | _ => if (no_count net <? length ds)%nat then (Err P2Trap, w)
           else send_batch c w kernel (set_count net (no_count net - length ds)) lo 0 ds now
    end = (r, w') → fair w w') as Hrun.
  { intros net lo Ho. destruct ds as [|d ds]; [by intros [= _ <-]|].
    destruct (_ <? _)%nat; [by intros [= _ <-]|]. intros Hs Hb.
    apply send_batch_fair in Hs as [? ->]; [|done]. split; [done|]. unfold budget. by rewrite Ho. }
  destruct (pw_out w) as [[net|lo|net lo]|] eqn:Eo; [| | |by intros [= _ <-]].
  - by apply (Hrun net None).
  - destruct ds as [|d [|? ?]]; [by intros [= _ <-]| |by intros [= _ <-]].
    destruct (send_one_lo c w lo d now) as [[r1 lo1] w1] eqn:E. intros [= _ <-] Hb.
    apply send_one_lo_fair in E as (H1 & H2 & H3); [|done]. split; [done|]. unfold budget. simpl.
    rewrite Eo, H2. simpl. lia.
  - destruct (1 <? length ds)%nat; [by intros [= _ <-]|]. by apply (Hrun net (Some lo)).
Qed.

Lemma p2_drop_fair w : fair w (p2_drop_in w) ∧ fair w (p2_drop_out w).
Proof.
  split; intros Hb; unfold p2_drop_in, p2_drop_out, budget; simpl.
  - destruct (pw_in w) as [[remote|lo|remote lo]|]; simpl; try (split; [done|lia]);
      (destruct (li_received lo) as [d|]; simpl; [|split; [done|lia]];
       rewrite give_back_buffer, give_back_available by done; simpl; split; [done|lia]).
  - destruct (pw_out w) as [[net|lo|net lo]|]; simpl; try (split; [done|lia]);
      (destruct (oo_permit lo) as [n|]; simpl; [|split; [done|lia]];
       rewrite add_permits_buffer, add_permits_available by done; split; [done|lia]).
Qed.

Lemma connect_buffer os u addr plane until n u' n' :
  udp_connect_on os u addr plane until n = (Ok tt, u', n') → has_buffer u = true →
  has_buffer u' = true ∧ available_permits u' = available_permits u.
Proof.
  destruct u as [s|lo|s lo]; simpl; [done|..]; unfold lo_connect, lo_is_bound.
  - destruct (_ || _); [done|]. destruct (lo_state lo) as [|? ? ?|? ? ? ?|] eqn:El; try done;
      (destruct (_ =? _); [done|]); (destruct (_ !! _); [|done]); intros [= <- _] _; simpl;
      unfold lo_permits; by rewrite El.
  - destruct (ns_connect_on os s addr plane until) as [[|] s1]; [|done].
    destruct (_ || _); [done|]. destruct (lo_state lo) as [|? ? ?|? ? ? ?|] eqn:El; try done;
      (destruct (_ =? _); [done|]); (destruct (_ !! _); [|done]); intros [= <- _] _; simpl;
      unfold lo_permits; by rewrite El.
Qed.

Lemma disconnect_buffer os u n u' n' :
  udp_disconnect os u n = (Ok tt, u', n') → has_buffer u = true →
  has_buffer u' = true ∧ available_permits u' = available_permits u.
Proof.
  assert (∀ lo lo' n1, lo_disconnect lo n = (Ok tt, lo', n1) →
    lo_is_bound lo' = true ∧ lo_permits lo' = lo_permits lo) as Hlo.
  { intros lo lo' n1. unfold lo_disconnect, lo_is_bound, lo_permits.
    destruct (lo_state lo) as [|? ? ?|? ? ? ?|]; try done. destruct (_ =? _); [done|].
    destruct (_ !! _) as [ep|]; [|done]. destruct (is_some _); [|done]. by intros [= <- _]. }
  destruct u as [s|lo|s lo]; simpl; [done|..].
  - destruct (lo_disconnect lo n) as [[r1 lo1] n1] eqn:E. intros [= -> <- _] _. by eapply Hlo.
  - destruct (ns_disconnect os s) as [s1|]; [|done].
    destruct (lo_disconnect lo n) as [[r1 lo1] n1] eqn:E. intros [= -> <- _] _. by eapply Hlo.
Qed.

Lemma hold_slot_buffer u slot :
  has_buffer (hold_quota_slot u slot) = has_buffer u
  ∧ available_permits (hold_quota_slot u slot) = available_permits u.
Proof. by destruct slot, u. Qed.

Lemma p2_stream_fair c os w remote now w' : p2_udp_stream c os w remote now = (Ok tt, w') → fair w w'.
Proof.
  unfold p2_udp_stream. destruct (pw_in w) eqn:Ei; [done|]. destruct (pw_out w) eqn:Eo; [done|].
  destruct (negb _); [done|]. destruct (stream_connect c os w remote now) as [r w1] eqn:E.
  destruct r as [[peer until]|e]; [|done]. intros Hs Hb.
  assert (has_buffer (pw_sk w1) = true ∧ available_permits (pw_sk w1) = available_permits (pw_sk w)
    ∧ pw_queues w1 = pw_queues w) as (H1 & H2 & H3).
  { revert E. unfold stream_connect. destruct remote as [addr|].
    - destruct (negb _); [done|]. destruct (check _ _ _ _ _) as [[a|] st]; [|done].
      destruct (udp_connect_on _ _ _ _ _ _) as [[[[]|] u] n] eqn:Eu; [|done]. intros [= _ _ <-].
      simpl. destruct (hold_slot_buffer u (permit a)) as [-> ->].
      by destruct (connect_buffer _ _ _ _ _ _ _ _ Eu Hb) as [-> ->].
    - destruct (udp_is_connected _); [|by intros [= _ _ <-]].
      destruct (udp_disconnect _ _ _) as [[[[]|] u] n] eqn:Eu; [|done]. intros [= _ _ <-]. simpl.
      by destruct (disconnect_buffer _ _ _ _ _ Eu Hb) as [-> ->]. }
  destruct (open_streams (pw_sk w1) peer until) as [[i o]|] eqn:Eos; [|done]. injection Hs as <-.
  split; [done|]. unfold budget. simpl. rewrite Ei, Eo, H2, H3. simpl.
  assert (aside (Some i) = 0 ∧ in_hand (Some o) = 0) as [Ha Hh].
  { revert Eos. unfold open_streams, p2_udp_streams.
    destruct (pw_sk w1) as [s|lo|s lo]; destruct peer as [[a p]|]; simpl;
      try (destruct (bool_decide (p = Virtual))); simpl; try (destruct (lo_state lo)); simpl;
      intros; simplify_eq/=; done. }
  simpl in *. lia.
Qed.

(** What happens around one bound socket: its calls, and the other sockets of its
    workload reading a datagram or sending one of their own. *)
Inductive p2_event c : P2World → P2World → Prop :=
  | ev_stream os w remote now w' : p2_udp_stream c os w remote now = (Ok tt, w') → p2_event c w w'
  | ev_check w writable r w' : p2_check_send w writable = (r, w') → p2_event c w w'
  | ev_send w kernel ds now r w' : p2_udp_send c w kernel ds now = (r, w') → p2_event c w w'
  | ev_receive w inbox max now r inbox' w' :
      p2_udp_receive c w inbox max now = (r, inbox', w') → p2_event c w w'
  | ev_ready w alive readable w' : p2_in_ready w alive readable = Some w' → p2_event c w w'
  | ev_drop_in w : p2_event c w (p2_drop_in w)
  | ev_drop_out w : p2_event c w (p2_drop_out w)
  | ev_other_reads w ch d q :
      pw_queues w !! ch = Some (d :: q) →
      p2_event c w (with_queues (with_sk w (give_back (pw_sk w) d)) (<[ch := q]> (pw_queues w)))
  | ev_other_sends w ch d q :
      pw_queues w !! ch = Some q → pd_mine d = false →
      p2_event c w (with_queues w (<[ch := q ++ [d]]> (pw_queues w))).

Lemma p2_event_fair c w w' : p2_event c w w' → fair w w'.
Proof.
  destruct 1; eauto using p2_stream_fair, p2_check_send_fair, p2_send_fair, p2_receive_fair,
    p2_in_ready_fair.
  - apply p2_drop_fair.
  - apply p2_drop_fair.
  - intros Hb. simpl. rewrite give_back_buffer. split; [done|]. unfold budget. simpl.
    rewrite give_back_available, queued_insert by done. rewrite H0. simpl.
    unfold mine. simpl. lia.
  - intros Hb. split; [done|]. unfold budget. simpl. rewrite queued_insert, H0. simpl.
    rewrite mine_app. simpl. rewrite H1. lia.
Qed.

(** no permit of a p2 socket's send buffer is ever lost or made up.  Whatever is
    called on the bound socket and its streams, and whatever the other sockets of
    the workload read or send, the permits available, in the stream's hand, and
    held by datagrams not yet read add up to the same; so once its streams are
    dropped and its datagrams read, the whole buffer is available again. *)
Theorem p2_send_buffer_conserved c w0 w :
  has_buffer (pw_sk w0) = true → rtc (p2_event c) w0 w →
  budget w = budget w0
  ∧ (pw_in w = None → pw_out w = None → queued (pw_queues w) = 0 →
     available_permits (pw_sk w) = budget w0).
Proof.
  intros Hb Hh. assert (has_buffer (pw_sk w) = true ∧ budget w = budget w0) as [_ He].
  { revert Hb. induction Hh as [w|w1 w2 w3 Hs Hh IH]; intros Hb; [done|].
    destruct (p2_event_fair _ _ _ Hs Hb) as [Hb2 <-]. auto. }
  split; [done|]. intros Hi Ho Hq. rewrite <-He. unfold budget. rewrite Hi, Ho, Hq. simpl. lia.
Qed.

(** ** What a guest hears *)

Lemma recv_one_spec c checked remote peers d now st d' st' :
  recv_one c checked remote peers d now st = (Some d', st') →
  d' = d ∧ (∀ a, remote = Some a → d.2 = a) ∧ ∀ p, peers = Some p → d.2 ∈ p.
Proof.
  unfold recv_one. destruct d as [data from]. destruct (is_some_and remote _) eqn:Er; [done|].
  destruct (is_some_and peers _) eqn:Ep; [done|].
  destruct (if checked then _ else _) as [[] st1]; [done|]. intros [= <- _]. split; [done|]. simpl.
  split.
  - intros a ->. simpl in Er. by case_bool_decide.
  - intros p ->. simpl in Ep. case_bool_decide; [done|]. destruct (decide (from ∈ p)); done.
Qed.

Lemma net_recv_spec c checked remote peers now inbox : ∀ room some st l inbox' st',
  net_recv c checked remote peers inbox room some now st = (Ok l, inbox', st') →
  (length l ≤ room)%nat ∧ sublist (Ok <$> l) inbox
  ∧ ∀ d, d ∈ l → (∀ a, remote = Some a → d.2 = a) ∧ ∀ p, peers = Some p → d.2 ∈ p.
Proof.
  assert (∀ (room : nat) (inbox : P2Inbox), (length (@nil Arrived) ≤ room)%nat
    ∧ sublist (Ok <$> @nil Arrived) inbox
    ∧ ∀ d : Arrived, d ∈ @nil Arrived → (∀ a, remote = Some a → d.2 = a)
        ∧ ∀ p, peers = Some p → d.2 ∈ p) as Hnil.
  { intros room i. split; [simpl; lia|]. split; [apply sublist_nil_l|]. by intros d ?%elem_of_nil. }
  induction inbox as [|[d|e] inbox IH]; intros [|room] some st l inbox' st'; cbn [net_recv].
  - intros [= <- _ _]. apply Hnil.
  - destruct some; [intros [= <- _ _]; apply Hnil|done].
  - intros [= <- _ _]. apply Hnil.
  - destruct (recv_one c checked remote peers d now st) as [[d'|] st1] eqn:Er.
    + apply recv_one_spec in Er as (-> & Hd).
      destruct (net_recv _ _ _ _ inbox room true _ _) as [[[l1|] i1] st2] eqn:E; [|done].
      intros [= <- _ _]. apply IH in E as (H1 & H2 & H3). simpl. split; [lia|].
      split; [by constructor|]. intros x [->|Hx]%elem_of_cons; [done|auto].
    + intros (H1 & H2 & H3)%IH. split; [done|]. split; [by constructor|done].
  - intros [= <- _ _]. apply Hnil.
  - destruct some; [intros [= <- _ _]; apply Hnil|].
    unfold socket_error_from_io. destruct (error_code_from_io (kind e)); [done| |done].
    intros [= <- _ _]. apply Hnil.
Qed.

(** over the machine's network a p2 guest hears only whom it may.  What
    [receive] returns on a real stream is, in order, some of what the kernel
    delivered and at most as many as asked for; each comes from the peer the
    stream is connected to, if it is, and, for a socket that filters its peers,
    from an address it has sent to. *)
Theorem p2_only_replies_are_received c w inbox max now l inbox' w' remote :
  pw_in w = Some (InNetwork remote) →
  p2_udp_receive c w inbox max now = (Ok l, inbox', w') →
  (length l ≤ max)%nat ∧ sublist (Ok <$> l) inbox
  ∧ ∀ d, d ∈ l → (∀ a, remote = Some a → d.2 = a)
      ∧ ∀ p, peers_of (pw_sk w) = Some p → d.2 ∈ p.
Proof.
  intros Hi. unfold p2_udp_receive. rewrite Hi. destruct (max =? 0)%nat.
  - intros [= <- _ _]. split; [simpl; lia|]. split; [apply sublist_nil_l|]. by intros d ?%elem_of_nil.
  - destruct (net_recv _ _ _ _ _ _ _ _ _) as [[r i] st] eqn:E. intros [= -> _ _].
    by apply net_recv_spec in E.
Qed.

(** ** Where the code falls short *)

(** p2 never reports that the kernel would block.  The mapping of I/O errors
    has no case for it, so [receive] on a real stream with nothing to read fails
    with [unknown] instead of returning nothing, and so does a [send] the kernel
    has no room for, instead of reporting zero datagrams. *)
Theorem p2_would_block_is_unknown c w max now remote net data addr kernel a st :
  pw_in w = Some (InNetwork remote) → max ≠ 0%nat →
  pw_out w = Some (OutNetwork net) → no_remote net = None → (0 < no_count net)%nat →
  pw_checked w = true → Z.of_nat (length data) ≤ MAX_UDP_DATAGRAM_SIZE →
  check c addr UdpOutgoingDatagram now (pw_st w) = (Ok a, st) →
  is_valid_remote_address (al_addr a) = true →
  is_valid_address_family (sock_ip (al_addr a)) (no_family net) = true →
  (∀ n to, kernel n to = Err would_block) →
  (p2_udp_receive c w [] max now).1.1 = Err (P2Code Unknown)
  ∧ (p2_udp_send c w kernel [(data, Some addr)] now).1 = Err (P2Code Unknown).
Proof.
  intros Hi Hm Ho Hr Hn Hk Hd Hc Hv Hf Hw. split.
  - unfold p2_udp_receive. rewrite Hi. destruct max; [done|]. done.
  - unfold p2_udp_send. rewrite Ho. simpl.
    destruct (Nat.ltb_spec (no_count net) 1) as [?|_]; [lia|]. unfold prepare_one. simpl.
    rewrite Hr, Hk. destruct (Z.ltb_spec MAX_UDP_DATAGRAM_SIZE (Z.of_nat (length data))); [lia|].
    simpl. rewrite Hc, Hv, Hf. simpl. destruct (bool_decide (al_plane a = Virtual));
      unfold send_one_net; simpl; by rewrite Hw.
Qed.

(** polling a p2 stream of virtual datagrams for readiness loses datagrams.  A
    poll takes the next datagram off the channel and sets it aside, replacing
    the one an earlier poll had set aside, which nobody will ever read. *)
Theorem p2_readiness_poll_loses_a_datagram w lo d0 d1 q alive readable :
  pw_in w = Some (InLoopback lo) → li_received lo = Some d0 →
  pw_queues w !! li_rx lo = Some (d1 :: q) →
  ∃ w' lo', p2_in_ready w alive readable = Some w' ∧ pw_in w' = Some (InLoopback lo')
    ∧ li_received lo' = Some d1 ∧ pw_queues w' !! li_rx lo' = Some q ∧ pw_sent w' = pw_sent w.
Proof.
  intros Hi Hr Hq. unfold p2_in_ready, poll_lo. rewrite Hi, Hr, Hq. simpl.
  eexists _, _. split; [done|]. simpl. split; [done|]. simpl. by rewrite lookup_insert_eq.
Qed.

(** a p2 virtual stream says it can send when it cannot.  [check-send] takes
    whatever permits there are, none included, and answers one; when there are
    none, the send that follows fails, and if its destination is in order it
    fails with [datagram-too-large], whatever the datagram's size. *)
Theorem p2_full_buffer_looks_ready c w lo writable d kernel now :
  pw_out w = Some (OutLoopback lo) → oo_permit lo = None → available_permits (pw_sk w) = 0 →
  let '(answer, w1) := p2_check_send w writable in
  answer = Ok 1%nat
  ∧ ∀ r w2, p2_udp_send c w1 kernel [d] now = (r, w2) →
    r = Err (P2Code DatagramTooLarge)
    ∨ ∃ e until st, r = Err e
        ∧ prepare_one c (pw_checked w) (oo_remote lo) None (oo_family lo) d now (pw_st w)
          = (Err e, until, st).
Proof.
  intros Ho Hp Ha. unfold p2_check_send, lo_check_send, try_acquire_many. rewrite Ho, Hp, Ha.
  simpl. split; [done|]. intros r w2. unfold p2_udp_send, send_one_lo. simpl.
  destruct (prepare_one _ _ _ _ _ _ _ _) as [[[[addr p]|e] until] st].
  - assert (∀ n : nat, (if 0 <? Z.of_nat n then None
      else if 0 <? Z.max (Z.of_nat n) 1 then None else Some (Z.max (Z.of_nat n) 1)) = None) as Hn.
    { intros n. destruct (Z.ltb_spec 0 (Z.of_nat n)); [done|].
      destruct (Z.ltb_spec 0 (Z.max (Z.of_nat n) 1)); [done|lia]. }
    unfold required_permits. rewrite Hn. intros [= <- _]. by left.
  - intros [= <- _]. right. eauto 10.
Qed.

End p2_theorems.

(** ** Runs *)

Definition p2_fresh : P2World :=
  {| pw_sk := UNetwork (new_net Ipv4); pw_checked := false; pw_net := empty_network;
     pw_st := demo_state; pw_queues := ∅; pw_in := None; pw_out := None; pw_sent := [] |}.

(** Bound, with its streams open and a permission to send. *)
Definition p2_open (c : WasiSocketsCtx) (w : P2World) (addr : SocketAddr) (chan : Channel) : P2World :=
  let w := (p2_udp_start_bind c os_yes w addr chan 0).2 in
  let w := (p2_udp_finish_bind w).2 in
  let w := (p2_udp_stream c os_yes w None 0).2 in
  (p2_check_send w true).2.

Definition p2_client : P2World := p2_open demo_ctx p2_fresh (SocketV4 UNSPECIFIED_V4 0) 1.
Definition p2_local : P2World := p2_open demo_ctx p2_fresh (SocketV4 LOCALHOST_V4 7000) 1.
(** The kernel's end of a socket with both halves, on its own. *)
Definition p2_real (w : P2World) : P2World :=
  match pw_out w with
  | Some (OutUnspecified net _) =>
      with_in (with_out w (Some (OutNetwork net))) (Some (InNetwork None))
  | _ => w
  end.

Definition kernel_yes (n : nat) (to : option SocketAddr) : result unit IoError := Ok tt.

Lemma p2_batch_reports_what_was_sent_witness :
  ∃ net w', pw_out (p2_real p2_client) = Some (OutNetwork net)
    ∧ p2_udp_send demo_ctx (p2_real p2_client) kernel_yes
        [([1], Some db_dest); ([2], Some (SocketV4 (Ipv4Addr_new 1 1 1 1) 53))] 120 = (Ok 1%nat, w')
    ∧ pw_sent w' = [(Some db_dest, [1])].
Proof.
  destruct (pw_out (p2_real p2_client)) as [[net| |]|] eqn:Eo; try (vm_compute in Eo; discriminate Eo).
  destruct (p2_udp_send demo_ctx (p2_real p2_client) kernel_yes
    [([1], Some db_dest); ([2], Some (SocketV4 (Ipv4Addr_new 1 1 1 1) 53))] 120) as [r w'] eqn:E.
  destruct (p2_batch_reports_what_was_sent _ _ _ _ _ _ _ _ Eo E) as (_ & new & Hs & Hr).
  exists net, w'. split; [reflexivity|].
  assert (r = Ok 1%nat ∧ pw_sent w' = [(Some db_dest, [1])]) as [-> Hw]
    by (vm_compute in E; injection E as <- <-; by vm_compute).
  by split.
Defined.

Lemma p2_datagram_travels_on_decided_plane_witness :
  ∃ w' a st, p2_udp_send demo_ctx p2_client kernel_yes [([1; 2], Some db_dest)] 120 = (Ok 1%nat, w')
    ∧ check demo_ctx db_dest UdpOutgoingDatagram 120 (pw_st p2_client) = (Ok a, st)
    ∧ pw_sent w' = [(Some (al_addr a), [1; 2])].
Proof.
  destruct (pw_out p2_client) as [[| |net lo]|] eqn:Eo; try (vm_compute in Eo; discriminate Eo).
  destruct (p2_udp_send demo_ctx p2_client kernel_yes [([1; 2], Some db_dest)] 120) as [r w'] eqn:E.
  assert (r = Ok 1%nat ∧ pw_sent w' ≠ []) as [-> Hw]
    by (vm_compute in E; injection E as <- <-; by vm_compute).
  destruct (p2_datagram_travels_on_decided_plane demo_ctx p2_client kernel_yes net lo [1; 2] db_dest
    120 w' Eo) as (a & st & Hc & [(Hp & Hs & _)|(_ & Hs)]).
  - vm_compute in Eo. by injection Eo as <- _.
  - vm_compute in Eo. by injection Eo as _ <-.
  - exact E.
  - exists w', a, st. split; [reflexivity|]. split; [exact Hc|]. exact Hs.
  - by destruct Hw.
Defined.

(** A datagram to the socket itself, read, and the streams dropped. *)
Definition p2_sent_self : P2World :=
  (p2_udp_send demo_ctx p2_local kernel_yes [([1; 2; 3], Some (SocketV4 LOCALHOST_V4 7000))] 0).2.
Definition p2_read_self : P2World := (p2_udp_receive demo_ctx p2_sent_self [] 4 0).2.

Lemma p2_send_buffer_conserved_witness :
  available_permits (pw_sk p2_sent_self) = 106496 - 3
  ∧ available_permits (pw_sk (p2_drop_in (p2_drop_out p2_read_self))) = 106496.
Proof.
  split; [reflexivity|].
  set (w0 := (p2_udp_finish_bind (p2_udp_start_bind demo_ctx os_yes p2_fresh
                (SocketV4 LOCALHOST_V4 7000) 1 0).2).2).
  set (w1 := (p2_udp_stream demo_ctx os_yes w0 None 0).2).
  change 106496 with (budget w0).
  apply (p2_send_buffer_conserved demo_ctx w0 (p2_drop_in (p2_drop_out p2_read_self))).
  - reflexivity.
  - apply (rtc_l _ _ w1); [apply (ev_stream _ os_yes _ None 0); reflexivity|].
    apply (rtc_l _ _ p2_local); [by apply (ev_check _ _ true (Ok 1%nat))|].
    apply (rtc_l _ _ p2_sent_self).
    { apply (ev_send _ _ kernel_yes [([1; 2; 3], Some (SocketV4 LOCALHOST_V4 7000))] 0 (Ok 1%nat)).
      reflexivity. }
    apply (rtc_l _ _ p2_read_self).
    { apply (ev_receive _ _ [] 4 0 (Ok [([1; 2; 3], SocketV4 LOCALHOST_V4 7000)]) []). reflexivity. }
    apply (rtc_l _ _ _ _ (ev_drop_out _ _)), (rtc_l _ _ _ _ (ev_drop_in _ _)), rtc_refl.
  - reflexivity.
  - reflexivity.
  - vm_compute. reflexivity.
Defined.

Definition asked_p2 : P2World := (p2_udp_send demo_ctx p2_client kernel_yes [([1], Some db_dest)] 120).2.

Lemma p2_only_replies_are_received_witness :
  ∃ w', p2_udp_receive demo_ctx (p2_real asked_p2) [Ok ([9], stranger); Ok ([7], db_dest)] 4 120
        = (Ok [([7], db_dest)], [], w')
    ∧ ∀ p, peers_of (pw_sk (p2_real asked_p2)) = Some p → db_dest ∈ p.
Proof.
  destruct (p2_udp_receive demo_ctx (p2_real asked_p2) [Ok ([9], stranger); Ok ([7], db_dest)] 4 120)
    as [[r i] w'] eqn:E. exists w'.
  assert (r = Ok [([7], db_dest)] ∧ i = []) as [-> ->]
    by (vm_compute in E; by injection E as <- <- _).
  split; [reflexivity|].
  assert (pw_in (p2_real asked_p2) = Some (InNetwork None)) as Hin by (vm_compute; reflexivity).
  destruct (p2_only_replies_are_received demo_ctx (p2_real asked_p2)
    [Ok ([9], stranger); Ok ([7], db_dest)] 4 120 [([7], db_dest)] [] w' None Hin E)
    as (_ & _ & Hd).
  exact (proj2 (Hd ([7], db_dest) (list_elem_of_here _ _))).
Defined.

Lemma p2_would_block_is_unknown_witness :
  (p2_udp_receive demo_ctx (p2_real p2_client) [] 4 120).1.1 = Err (P2Code Unknown)
  ∧ (p2_udp_send demo_ctx (p2_real p2_client) (λ _ _, Err would_block) [([1], Some db_dest)] 120).1
    = Err (P2Code Unknown).
Proof.
  destruct (pw_out (p2_real p2_client)) as [[net| |]|] eqn:Eo; try (vm_compute in Eo; discriminate Eo).
  assert (no_remote net = None ∧ no_family net = Ipv4 ∧ no_count net = 16%nat) as (H1 & H2 & H3)
    by (vm_compute in Eo; injection Eo as <-; repeat split).
  destruct (check demo_ctx db_dest UdpOutgoingDatagram 120 (pw_st (p2_real p2_client))) as [r st] eqn:Ec.
  assert (∃ a, r = Ok a ∧ al_addr a = db_dest) as (a & -> & Ha).
  { clear Eo. vm_compute in Ec. injection Ec as <- _. eexists. split; reflexivity. }
  apply (p2_would_block_is_unknown demo_ctx (p2_real p2_client) 4 120 None net [1] db_dest
    (λ _ _, Err would_block) a st); [| |exact Eo|exact H1| | | |exact Ec| | |].
  - vm_compute. reflexivity.
  - discriminate.
  - rewrite H3. lia.
  - vm_compute. reflexivity.
  - vm_compute. discriminate.
  - rewrite Ha. reflexivity.
  - rewrite Ha, H2. reflexivity.
  - intros n to. reflexivity.
Defined.

Definition note (n : Z) : P2Dgram :=
  {| pd_dgram := {| dg_source := SocketV4 LOCALHOST_V4 9000; dg_data := [n] |}; pd_permits := 1;
     pd_mine := false |}.

(** Two datagrams, two polls: only the second is left to read. *)
Lemma p2_readiness_poll_loses_a_datagram_witness :
  ∃ w0 w1, p2_in_ready (with_queues p2_local {[ 1%nat := [note 1; note 2] ]}) true false = Some w0
    ∧ p2_in_ready w0 true false = Some w1
    ∧ (p2_udp_receive demo_ctx w1 [] 4 0).1.1 = Ok [([2], SocketV4 LOCALHOST_V4 9000)].
Proof.
  destruct (p2_in_ready (with_queues p2_local {[ 1%nat := [note 1; note 2] ]}) true false)
    as [w0|] eqn:E0; [|vm_compute in E0; discriminate E0].
  destruct (p2_readiness_poll_loses_a_datagram w0
    {| li_remote := None; li_rx := 1%nat; li_received := Some (note 1) |} (note 1) (note 2) [] true
    false) as (w1 & lo' & E1 & H1 & H2 & H3 & _).
  - vm_compute in E0. by injection E0 as <-.
  - reflexivity.
  - vm_compute in E0. by injection E0 as <-.
  - exists w0, w1. split; [reflexivity|]. split; [exact E1|].
    vm_compute in E0. injection E0 as <-. vm_compute in E1. injection E1 as <-.
    vm_compute. reflexivity.
Defined.

Definition exhausted : P2World :=
  with_out (with_sk p2_local (add_permits (pw_sk p2_local) (- available_permits (pw_sk p2_local))))
    (Some (OutLoopback {| oo_local := SocketV4 LOCALHOST_V4 7000; oo_remote := None;
                          oo_family := Ipv4; oo_permit := None |})).

Lemma p2_full_buffer_looks_ready_witness :
  let '(answer, w1) := p2_check_send exhausted true in
  answer = Ok 1%nat
  ∧ (p2_udp_send demo_ctx w1 kernel_yes [([], Some (SocketV4 LOCALHOST_V4 7000))] 0).1
    = Err (P2Code DatagramTooLarge).
Proof.
  pose proof (p2_full_buffer_looks_ready demo_ctx exhausted
    {| oo_local := SocketV4 LOCALHOST_V4 7000; oo_remote := None; oo_family := Ipv4;
       oo_permit := None |} true ([], Some (SocketV4 LOCALHOST_V4 7000)) kernel_yes 0
    eq_refl eq_refl eq_refl) as Hp.
  destruct (p2_check_send exhausted true) as [answer w1] eqn:E. destruct Hp as [Ha Hp].
  split; [exact Ha|].
  destruct (p2_udp_send demo_ctx w1 kernel_yes [([], Some (SocketV4 LOCALHOST_V4 7000))] 0)
    as [r w2] eqn:Es.
  destruct (Hp r w2 eq_refl) as [Hr|(e & u & st & _ & Hr)]; [exact Hr|].
  vm_compute in Hr. discriminate Hr.
Defined.

(** The machine's loopback port 5432 is granted for UDP through the sentinel. *)
Definition udp_door : SocketPolicy :=
  {| guest_kind := Service; allowed_hosts := []; host_loopback := [AllowedLoopback.udp 5432];
     host_loopback_enabled := true; egress_addrs := default_policy; host_owned_ports := Some ∅;
     egress_mode := Enforce; quota := None; resolved_names := short |}.
Definition door_ctx : WasiSocketsCtx := for_store udp_door [].

(** Another socket of the workload is bound to 127.0.0.1:5432. *)
Definition with_neighbour : P2World :=
  let w := p2_open door_ctx p2_fresh (SocketV4 LOCALHOST_V4 7000) 1 in
  {| pw_sk := pw_sk w; pw_checked := pw_checked w;
     pw_net := set_udp_net (pw_net w) (V4 LOCALHOST_V4)
                 (<[5432 := {| ep_tx := 9%nat; ep_connected := None |}]> (udp_ipv4 (pw_net w)));
     pw_st := pw_st w; pw_queues := <[9%nat := []]> (pw_queues w); pw_in := pw_in w;
     pw_out := pw_out w; pw_sent := pw_sent w |}.

(** from a socket bound to loopback, p2 ignores the plane the policy decided:
    a datagram to the sentinel, which the policy puts on the machine's network,
    is delivered to the workload's own socket at that port. *)
Theorem p2_loopback_socket_ignores_the_plane :
  (check door_ctx sentinel_db UdpOutgoingDatagram 0 (pw_st with_neighbour)).1
    = Ok {| al_addr := SocketV4 LOCALHOST_V4 5432; al_plane := Host; permit := None;
            valid_until := None |}
  ∧ let '(r, w') := p2_udp_send door_ctx with_neighbour kernel_yes [([1], Some sentinel_db)] 0 in
    r = Ok 1%nat ∧ pw_sent w' = []
    ∧ (map pd_dgram) <$> pw_queues w' !! 9%nat
      = Some [{| dg_source := SocketV4 LOCALHOST_V4 7000; dg_data := [1] |}].
Proof. split; vm_compute; done. Qed.
