(* ===== verification/TcpStreams.v ===== *)
(** * Byte streams of TCP connections

    The streams a guest reads and writes once a TCP socket is connected.
    [p2_tcp.rs]: the p2 streams, over a virtual connection ([LoopbackInputStream],
    [LoopbackOutputStream]) and over a kernel socket ([TcpReader], [TcpWriter]).
    [host_tcp_p3.rs]: p3's virtual streams ([LoopbackSendStreamConsumer],
    [LoopbackReceiveStreamProducer]).

    A [Pipe] is one direction of a virtual connection: an unbounded channel of
    chunks and the semaphore of the sending end, whose permits ride with each
    chunk until it is received or dropped.  The mutexes around the ends are
    uncontended: one store runs one call at a time. *)

From Stdlib Require Import ZArith Lia.
From stdpp Require Import base list option relations.
From S2P Require Import Prelude RustStr Net SocketUtil.
Local Open Scope Z_scope.

Inductive StreamError :=
  | StreamClosed
  | StreamTrap
  | LastOperationFailed (e : IoError).

(** ** Pipes *)

Record Chunk := { ck_data : list Z; ck_permits : Z }.

Record Pipe := {
  pp_queue : list Chunk;
  pp_permits : Z;            (** available in the sender's semaphore *)
  pp_tx : bool;              (** the sender is there *)
  pp_rx : bool;              (** the receiver is there *)
}.

Definition new_pipe (permits : Z) : Pipe :=
  {| pp_queue := []; pp_permits := permits; pp_tx := true; pp_rx := true |}.

Definition pipe_permits (p : Pipe) (n : Z) : Pipe :=
  {| pp_queue := pp_queue p; pp_permits := n; pp_tx := pp_tx p; pp_rx := pp_rx p |}.

(** [tx.send]: its failure drops the chunk, and the permits go back. *)
Definition pipe_send (p : Pipe) (data : list Z) (n : Z) : bool * Pipe :=
  if pp_rx p then
    (true, {| pp_queue := pp_queue p ++ [{| ck_data := data; ck_permits := n |}];
              pp_permits := pp_permits p - n; pp_tx := pp_tx p; pp_rx := true |})
  else (false, p).

Definition queued_permits (q : list Chunk) : Z := foldr (λ c z, ck_permits c + z) 0 q.
Definition queued_bytes (q : list Chunk) : list Z := q ≫= ck_data.

Inductive RecvOutcome := Received (data : list Z) | RecvEmpty | RecvDisconnected.

(** [try_recv], the permits dropped at once. *)
Definition pipe_recv (p : Pipe) : RecvOutcome * Pipe :=
  match pp_queue p with
  | c :: q => (Received (ck_data c),
               {| pp_queue := q; pp_permits := pp_permits p + ck_permits c;
                  pp_tx := pp_tx p; pp_rx := pp_rx p |})
  | [] => (if pp_tx p then RecvEmpty else RecvDisconnected, p)
  end.

Definition drop_tx (p : Pipe) : Pipe :=
  {| pp_queue := pp_queue p; pp_permits := pp_permits p; pp_tx := false; pp_rx := pp_rx p |}.

(** What is still queued is dropped with the receiver. *)
Definition drop_rx (p : Pipe) : Pipe :=
  {| pp_queue := []; pp_permits := pp_permits p + queued_permits (pp_queue p);
     pp_tx := pp_tx p; pp_rx := false |}.

(** ** p2 over a pipe *)

Definition out_is_closed (p : Pipe) : bool := negb (pp_tx p) || negb (pp_rx p).

Definition out_write (p : Pipe) (bytes : list Z) : result unit StreamError * Pipe :=
  if negb (pp_tx p) then (Err StreamClosed, p)
  else
    let n := Z.of_nat (length bytes) in
    if negb (n <=? 4294967295) || negb (n <=? pp_permits p) then (Err StreamTrap, p)
    else let '(sent, p) := pipe_send p bytes n in
         (if sent then Ok tt else Err StreamClosed, p).

Definition out_flush (p : Pipe) : result unit StreamError :=
  if out_is_closed p then Err StreamClosed else Ok tt.

Definition out_check_write (p : Pipe) : result Z StreamError :=
  if out_is_closed p then Err StreamClosed else Ok (pp_permits p).

(** [buffer] is what a chunk left over. *)
Definition in_read (p : Pipe) (buffer : list Z) (size : nat) :
    result (list Z) StreamError * Pipe * list Z :=
  if negb (pp_rx p) then (Err StreamClosed, p, buffer)
  else if negb (pp_tx p) && bool_decide (pp_queue p = []) && bool_decide (buffer = [])
  then (Err StreamClosed, p, buffer)
  else if (size =? 0)%nat then (Ok [], p, buffer)
  else if negb (bool_decide (buffer = [])) then (Ok (take size buffer), p, drop size buffer)
  else match pipe_recv p with
       | (Received data, p) => (Ok (take size data), p, drop size data)
       | (RecvEmpty, p) => (Ok [], p, buffer)
       | (RecvDisconnected, p) => (Err StreamClosed, p, buffer)
       end.

(** [ready] of the input stream; [None]: still waiting. *)
Definition in_ready (p : Pipe) (buffer : list Z) : option (Pipe * list Z) :=
  if negb (bool_decide (buffer = [])) then Some (p, buffer)
  else if negb (pp_rx p) then Some (p, buffer)
  else match pipe_recv p with
       | (Received data, p) => Some (p, data)
       | (RecvEmpty, _) => None
       | (RecvDisconnected, p) => Some (p, buffer)
       end.

(** ** p3 over a pipe *)

Inductive Polled := Completed | Dropped | Cancelled | StillPending.

(** [waiting]: a permit acquisition is in progress; [open]: the result has not
    been reported. *)
Record SendConsumer := { sc_waiting : bool; sc_open : bool }.

Definition new_consumer : SendConsumer := {| sc_waiting := false; sc_open := true |}.

(** A permit in hand: one per chunk, whatever its length. *)
Definition consume_chunk (p : Pipe) (data : list Z) (s : SendConsumer) :
    Polled * nat * Pipe * SendConsumer :=
  let '(sent, p) := pipe_send p data 1 in
  if sent then (Completed, length data, p, {| sc_waiting := false; sc_open := sc_open s |})
  else (Dropped, O, p, {| sc_waiting := false; sc_open := false |}).

(** The number is how many bytes of [data] were taken. *)
Definition poll_consume (p : Pipe) (s : SendConsumer) (data : list Z) (finish : bool) :
    Polled * nat * Pipe * SendConsumer :=
  let park := {| sc_waiting := true; sc_open := sc_open s |} in
  if bool_decide (data = []) then (Completed, O, p, s)
  else if 1 <=? pp_permits p then consume_chunk p data s
  else (if finish then Cancelled else StillPending, O, p, park).

Record ReceiveProducer := { rp_pending : option (list Z); rp_open : bool }.

Definition new_producer : ReceiveProducer := {| rp_pending := None; rp_open := true |}.

Definition deliver_to (p : Pipe) (r : ReceiveProducer) (data : list Z) (cap : nat) :
    Polled * list Z * Pipe * ReceiveProducer :=
  let n := Nat.min (length data) cap in
  (Completed, take n data, p,
   {| rp_pending := if (n <? length data)%nat then Some (drop n data) else None;
      rp_open := rp_open r |}).

(** [cap] is the room the reader offers: zero asks whether there is anything. *)
Definition poll_produce (p : Pipe) (r : ReceiveProducer) (cap : nat) (finish : bool) :
    Polled * list Z * Pipe * ReceiveProducer :=
  let parked := (if finish then Cancelled else StillPending, [], p, r) in
  let closed := (Dropped, [], p, {| rp_pending := rp_pending r; rp_open := false |}) in
  if (cap =? 0)%nat then
    match rp_pending r with
    | Some _ => (Completed, [], p, r)
    | None =>
        match pipe_recv p with
        | (Received data, p) =>
            (Completed, [], p, {| rp_pending := Some data; rp_open := rp_open r |})
        | (RecvEmpty, _) => parked
        | (RecvDisconnected, _) => closed
        end
    end
  else
    match rp_pending r with
    | Some data => deliver_to p r data cap
    | None =>
        match pipe_recv p with
        | (Received data, p) => deliver_to p r data cap
        | (RecvEmpty, _) => parked
        | (RecvDisconnected, _) => closed
        end
    end.

(** ** One direction of a connection, from both ends *)

Inductive Reader := ReadP2 (buffer : list Z) | ReadP3 (r : ReceiveProducer).

Definition buffered (r : Reader) : list Z :=
  match r with ReadP2 b => b | ReadP3 r => default [] (rp_pending r) end.

(** A pipe in use: the bytes its writer got rid of, and those its reader got. *)
Record Flow := {
  fl_pipe : Pipe;
  fl_reader : Reader;
  fl_accepted : list Z;
  fl_delivered : list Z;
}.

Definition read_bytes (r : result (list Z) StreamError) : list Z :=
  match r with Ok b => b | Err _ => [] end.
Definition written (r : result unit StreamError) (bytes : list Z) : list Z :=
  match r with Ok _ => bytes | Err _ => [] end.

(** Everything that happens to a pipe: either end may speak p2 or p3, close, and
    the semaphore may be resized. *)
Inductive flow_step : Flow → Flow → Prop :=
  | flow_write p r a d bytes res p' :
      out_write p bytes = (res, p') →
      flow_step {| fl_pipe := p; fl_reader := r; fl_accepted := a; fl_delivered := d |}
        {| fl_pipe := p'; fl_reader := r; fl_accepted := a ++ written res bytes;
           fl_delivered := d |}
  | flow_consume p r a d s data finish res n p' s' :
      poll_consume p s data finish = (res, n, p', s') →
      flow_step {| fl_pipe := p; fl_reader := r; fl_accepted := a; fl_delivered := d |}
        {| fl_pipe := p'; fl_reader := r; fl_accepted := a ++ take n data; fl_delivered := d |}
  | flow_read p b a d size res p' b' :
      in_read p b size = (res, p', b') →
      flow_step {| fl_pipe := p; fl_reader := ReadP2 b; fl_accepted := a; fl_delivered := d |}
        {| fl_pipe := p'; fl_reader := ReadP2 b'; fl_accepted := a;
           fl_delivered := d ++ read_bytes res |}
  | flow_ready p b a d p' b' :
      in_ready p b = Some (p', b') →
      flow_step {| fl_pipe := p; fl_reader := ReadP2 b; fl_accepted := a; fl_delivered := d |}
        {| fl_pipe := p'; fl_reader := ReadP2 b'; fl_accepted := a; fl_delivered := d |}
  | flow_produce p r a d cap finish res out p' r' :
      poll_produce p r cap finish = (res, out, p', r') →
      flow_step {| fl_pipe := p; fl_reader := ReadP3 r; fl_accepted := a; fl_delivered := d |}
        {| fl_pipe := p'; fl_reader := ReadP3 r'; fl_accepted := a; fl_delivered := d ++ out |}
  | flow_drop_tx p r a d :
      flow_step {| fl_pipe := p; fl_reader := r; fl_accepted := a; fl_delivered := d |}
        {| fl_pipe := drop_tx p; fl_reader := r; fl_accepted := a; fl_delivered := d |}
  | flow_drop_rx p r a d :
      flow_step {| fl_pipe := p; fl_reader := r; fl_accepted := a; fl_delivered := d |}
        {| fl_pipe := drop_rx p; fl_reader := r; fl_accepted := a; fl_delivered := d |}
  | flow_resize p r a d n :
      flow_step {| fl_pipe := p; fl_reader := r; fl_accepted := a; fl_delivered := d |}
        {| fl_pipe := pipe_permits p n; fl_reader := r; fl_accepted := a; fl_delivered := d |}.

Inductive flows : Flow → Flow → Prop :=
  | flows_start f : flows f f
  | flows_step f g h : flows f g → flow_step g h → flows f h.

Definition fresh_flow (permits : Z) (r : Reader) : Flow :=
  {| fl_pipe := new_pipe permits; fl_reader := r; fl_accepted := []; fl_delivered := [] |}.

(** The bytes accepted are those delivered, those the reader holds, those queued,
    and those a receiver took down with it. *)
Definition flow_ok (f : Flow) : Prop :=
  ∃ lost, fl_accepted f = fl_delivered f ++ buffered (fl_reader f)
                          ++ queued_bytes (pp_queue (fl_pipe f)) ++ lost
          ∧ (pp_rx (fl_pipe f) = true → lost = []).

Lemma queued_bytes_app q q' : queued_bytes (q ++ q') = queued_bytes q ++ queued_bytes q'.
Proof. apply bind_app. Qed.

(** The bytes left in a pipe, a reader's own included, once [out] is read. *)
Lemma pipe_recv_bytes p data p' :
  pipe_recv p = (Received data, p') →
  queued_bytes (pp_queue p) = data ++ queued_bytes (pp_queue p')
  ∧ pp_rx p' = pp_rx p ∧ pp_tx p' = pp_tx p.
Proof.
  unfold pipe_recv. destruct (pp_queue p) as [|c q]; [by destruct (pp_tx p)|].
  by intros [= <- <-].
Qed.

Lemma pipe_recv_none p out p' :
  pipe_recv p = (out, p') → (∀ data, out ≠ Received data) →
  p' = p ∧ pp_queue p = [] ∧ (out = RecvDisconnected ↔ pp_tx p = false).
Proof.
  unfold pipe_recv. destruct (pp_queue p); [|intros [= <- _] Hx; by destruct (Hx (ck_data c))].
  by destruct (pp_tx p); intros [= <- <-].
Qed.

Lemma in_read_bytes p b size res p' b' :
  in_read p b size = (res, p', b') →
  b ++ queued_bytes (pp_queue p) = read_bytes res ++ b' ++ queued_bytes (pp_queue p')
  ∧ pp_rx p' = pp_rx p ∧ pp_tx p' = pp_tx p.
Proof.
  unfold in_read. destruct (negb (pp_rx p)); [by intros [= <- <- <-]|].
  destruct (_ && _ && _); [by intros [= <- <- <-]|].
  destruct (size =? 0)%nat; [by intros [= <- <- <-]|].
  case_bool_decide as Hb; simpl.
  2:{ intros [= <- <- <-]. simpl. by rewrite app_assoc, take_drop. }
  subst b. destruct (pipe_recv p) as [[data| |] p1] eqn:E; intros [= <- <- <-]; simpl.
  - apply pipe_recv_bytes in E as (-> & Hr & Ht). by rewrite app_assoc, take_drop.
  - by apply pipe_recv_none in E as (-> & _ & _).
  - by apply pipe_recv_none in E as (-> & _ & _).
Qed.

Lemma in_ready_bytes p b p' b' :
  in_ready p b = Some (p', b') →
  b ++ queued_bytes (pp_queue p) = b' ++ queued_bytes (pp_queue p') ∧ pp_rx p' = pp_rx p.
Proof.
  unfold in_ready. case_bool_decide as Hb; simpl; [|by intros [= <- <-]].
  destruct (negb (pp_rx p)); [by intros [= <- <-]|]. subst b.
  destruct (pipe_recv p) as [[data| |] p1] eqn:E; intros [= <- <-].
  - by apply pipe_recv_bytes in E as (-> & Hr & _).
  - by apply pipe_recv_none in E as (-> & _ & _).
Qed.

Lemma deliver_to_bytes p r data cap res out p' r' :
  deliver_to p r data cap = (res, out, p', r') →
  data = out ++ default [] (rp_pending r') ∧ p' = p ∧ res = Completed
  ∧ ((0 < cap)%nat → out = [] → data = []).
Proof.
  unfold deliver_to. intros [= <- <- <- <-]. cbn [rp_pending].
  destruct (Nat.ltb_spec (length data `min` cap) (length data)) as [Hl|Hl]; simpl.
  - rewrite take_drop. split; [done|]. split; [done|]. split; [done|]. intros Hc Ht.
    apply (f_equal length) in Ht. rewrite length_take in Ht.
    apply nil_length_inv. change (length (@nil Z)) with 0%nat in Ht. lia.
  - rewrite take_ge, app_nil_r by lia. done.
Qed.

Lemma poll_produce_bytes p r cap finish res out p' r' :
  poll_produce p r cap finish = (res, out, p', r') →
  default [] (rp_pending r) ++ queued_bytes (pp_queue p)
  = out ++ default [] (rp_pending r') ++ queued_bytes (pp_queue p')
  ∧ pp_rx p' = pp_rx p ∧ pp_tx p' = pp_tx p.
Proof.
  unfold poll_produce. destruct (rp_pending r) as [b|] eqn:Er; destruct (cap =? 0)%nat.
  - intros [= _ <- <- <-]. by rewrite Er.
  - intros Hd. apply deliver_to_bytes in Hd as (Hb & -> & _). simpl.
    by rewrite Hb at 1; rewrite app_assoc.
  - destruct (pipe_recv p) as [[data| |] p1] eqn:E; intros [= _ <- <- <-]; simpl; rewrite ?Er.
    + by apply pipe_recv_bytes in E as (-> & Hr & Ht).
    + done.
    + done.
  - destruct (pipe_recv p) as [[data| |] p1] eqn:E.
    + intros Hd. apply deliver_to_bytes in Hd as (Hb & -> & _).
      apply pipe_recv_bytes in E as (-> & Hr & Ht). simpl. by rewrite Hb at 1; rewrite app_assoc.
    + intros [= _ <- <- <-]. by rewrite Er.
    + by intros [= _ <- <- <-].
Qed.

Lemma out_write_bytes p bytes res p' :
  out_write p bytes = (res, p') →
  pp_rx p' = pp_rx p ∧ (pp_rx p = false → written res bytes = [])
  ∧ queued_bytes (pp_queue p') = queued_bytes (pp_queue p) ++ written res bytes.
Proof.
  unfold out_write. destruct (negb (pp_tx p)).
  { intros [= <- <-]. by rewrite app_nil_r. }
  destruct (_ || _); [intros [= <- <-]; by rewrite app_nil_r|].
  unfold pipe_send. destruct (pp_rx p) eqn:Er; intros [= <- <-]; simpl.
  - rewrite queued_bytes_app. simpl. by rewrite app_nil_r.
  - by rewrite Er, app_nil_r.
Qed.

Lemma poll_consume_bytes p s data finish res n p' s' :
  poll_consume p s data finish = (res, n, p', s') →
  pp_rx p' = pp_rx p ∧ (pp_rx p = false → take n data = [])
  ∧ queued_bytes (pp_queue p') = queued_bytes (pp_queue p) ++ take n data.
Proof.
  unfold poll_consume, consume_chunk, pipe_send.
  destruct (bool_decide (data = [])); [intros [= _ <- <- _]; by rewrite app_nil_r|].
  destruct (1 <=? pp_permits p); [|intros [= _ <- <- _]; by rewrite app_nil_r].
  destruct (pp_rx p) eqn:Er; intros [= _ <- <- _]; simpl.
  - rewrite queued_bytes_app, take_ge by done. simpl. by rewrite app_nil_r.
  - by rewrite Er, app_nil_r.
Qed.

(** A write by either interface keeps the account; so does a read. *)
Lemma flow_ok_write p p' r a d extra :
  pp_rx p' = pp_rx p → (pp_rx p = false → extra = []) →
  queued_bytes (pp_queue p') = queued_bytes (pp_queue p) ++ extra →
  flow_ok {| fl_pipe := p; fl_reader := r; fl_accepted := a; fl_delivered := d |} →
  flow_ok {| fl_pipe := p'; fl_reader := r; fl_accepted := a ++ extra; fl_delivered := d |}.
Proof.
  intros Hr He Hq (lost & Ha & Hl). simpl in *. exists lost. simpl. rewrite Hr, Hq, Ha. split; [|done].
  destruct (pp_rx p).
  - rewrite (Hl eq_refl), !app_nil_r. by rewrite !app_assoc.
  - by rewrite (He eq_refl), !app_nil_r.
Qed.

Lemma flow_ok_read p p' r r' a d out :
  pp_rx p' = pp_rx p →
  buffered r ++ queued_bytes (pp_queue p) = out ++ buffered r' ++ queued_bytes (pp_queue p') →
  flow_ok {| fl_pipe := p; fl_reader := r; fl_accepted := a; fl_delivered := d |} →
  flow_ok {| fl_pipe := p'; fl_reader := r'; fl_accepted := a; fl_delivered := d ++ out |}.
Proof.
  intros Hr Hb (lost & Ha & Hl). exists lost. simpl in *. rewrite Hr. split; [|done].
  rewrite Ha, (app_assoc (buffered r)), Hb. by rewrite !app_assoc.
Qed.

Lemma flow_step_ok f g : flow_step f g → flow_ok f → flow_ok g.
Proof.
  intros Hs. destruct Hs as [p r a d bytes res p' E|p r a d s data finish res n p' s' E
    |p b a d size res p' b' E|p b a d p' b' E|p r a d cap finish res out p' r' E| | |].
  - apply out_write_bytes in E as (Hr & He & Hq). by apply flow_ok_write.
  - apply poll_consume_bytes in E as (Hr & He & Hq). by apply flow_ok_write.
  - apply in_read_bytes in E as (Hb & Hr & _). by apply flow_ok_read.
  - apply in_ready_bytes in E as (Hb & Hr). intros Hf.
    rewrite <-(app_nil_r d). by apply (flow_ok_read p p' (ReadP2 b)).
  - apply poll_produce_bytes in E as (Hb & Hr & _). by apply (flow_ok_read p p' (ReadP3 r)).
  - done.
  - intros (lost & Ha & Hl). simpl in *. exists (queued_bytes (pp_queue p) ++ lost). simpl.
    by split.
  - done.
Qed.

Lemma flows_ok f g : flows f g → flow_ok f → flow_ok g.
Proof. induction 1; eauto using flow_step_ok. Qed.

(** C10: a virtual connection delivers bytes in order, each once.  Whichever
    interface each end speaks, however the reads are sized and the writes cut,
    what the reader has been given is a prefix of what the writer was told was
    accepted; and while the reader is there, the rest is exactly what it holds
    followed by what is queued. *)
Theorem virtual_stream_in_order permits r f :
  buffered r = [] → flows (fresh_flow permits r) f →
  fl_delivered f `prefix_of` fl_accepted f
  ∧ (pp_rx (fl_pipe f) = true →
     fl_accepted f = fl_delivered f ++ buffered (fl_reader f)
                     ++ queued_bytes (pp_queue (fl_pipe f))).
Proof.
  intros Hb Hf. destruct (flows_ok _ _ Hf) as (lost & Ha & Hl).
  { exists []. simpl. by rewrite Hb. }
  split; [rewrite Ha; by apply prefix_app_r|]. intros Hr. by rewrite Ha, (Hl Hr), app_nil_r.
Qed.

(** ** Reading to the end *)

Fixpoint read_to_end (fuel : nat) (p : Pipe) (b : list Z) (size : nat) : option (list Z) :=
  match fuel with
  | O => None
  | S fuel =>
      match in_read p b size with
      | (Ok out, p, b) => (out ++.) <$> read_to_end fuel p b size
      | (Err _, _, _) => Some []
      end
  end.

Fixpoint produce_to_end (fuel : nat) (p : Pipe) (r : ReceiveProducer) (cap : nat) :
    option (list Z) :=
  match fuel with
  | O => None
  | S fuel =>
      match poll_produce p r cap false with
      | (Completed, out, p, r) => (out ++.) <$> produce_to_end fuel p r cap
      | (Dropped, out, _, _) => Some out
      | _ => None
      end
  end.

(** What is still to read, an empty chunk counting one. *)
Definition backlog (b : list Z) (p : Pipe) : nat :=
  length b + foldr (λ c n, S (length (ck_data c) + n))%nat O (pp_queue p).

Lemma pipe_recv_backlog p data p' :
  pipe_recv p = (Received data, p') → backlog [] p = S (backlog data p').
Proof.
  unfold pipe_recv, backlog. destruct (pp_queue p) as [|c q]; [by destruct (pp_tx p)|].
  by intros [= <- <-].
Qed.

Lemma backlog_drop k data p :
  (0 < k)%nat → (backlog (drop k data) p < S (backlog data p))%nat
  ∧ (data ≠ [] → backlog (drop k data) p < backlog data p)%nat.
Proof.
  intros Hk. unfold backlog. rewrite length_drop. split; [lia|].
  destruct data; [done|]. simpl. lia.
Qed.

(** One read of a closed pipe either ends the stream or shortens it. *)
Lemma in_read_progress p b size :
  pp_rx p = true → pp_tx p = false → (0 < size)%nat →
  (∃ out p' b', in_read p b size = (Ok out, p', b') ∧ pp_rx p' = true ∧ pp_tx p' = false
     ∧ b ++ queued_bytes (pp_queue p) = out ++ b' ++ queued_bytes (pp_queue p')
     ∧ (backlog b' p' < backlog b p)%nat)
  ∨ in_read p b size = (Err StreamClosed, p, b) ∧ b ++ queued_bytes (pp_queue p) = [].
Proof.
  intros Hr Ht Hs. destruct (in_read p b size) as [[res p'] b'] eqn:E.
  pose proof (in_read_bytes _ _ _ _ _ _ E) as (Hb & Hr' & Ht').
  revert E. unfold in_read. rewrite Hr, Ht. simpl.
  destruct (bool_decide (pp_queue p = [])) eqn:Eq; destruct (bool_decide (b = [])) eqn:Eb;
    simpl; rewrite ?(proj2 (Nat.eqb_neq size 0)) by lia.
  - apply bool_decide_eq_true in Eq, Eb. intros [= <- <- <-]. right. subst. by rewrite Eq.
  - intros [= <- <- <-]. left. eexists _, _, _. split; [done|].
    apply bool_decide_eq_false in Eb. do 3 (split; [done|]). by apply backlog_drop.
  - destruct (pipe_recv p) as [[data| |] p1] eqn:Ep.
    + intros [= <- <- <-]. left. eexists _, _, _. split; [done|]. do 2 (split; [congruence|]).
      split; [done|]. apply bool_decide_eq_true in Eb as ->.
      rewrite (pipe_recv_backlog _ _ _ Ep). apply (backlog_drop size data p1 Hs).
    + by apply pipe_recv_none in Ep as (_ & Hq & _); [apply bool_decide_eq_false in Eq|].
    + by apply pipe_recv_none in Ep as (_ & Hq & _); [apply bool_decide_eq_false in Eq|].
  - intros [= <- <- <-]. left. eexists _, _, _. split; [done|].
    apply bool_decide_eq_false in Eb. do 3 (split; [done|]). by apply backlog_drop.
Qed.

Lemma read_to_end_all size fuel : ∀ p b,
  pp_rx p = true → pp_tx p = false → (0 < size)%nat → (backlog b p < fuel)%nat →
  read_to_end fuel p b size = Some (b ++ queued_bytes (pp_queue p)).
Proof.
  induction fuel as [|fuel IH]; intros p b Hr Ht Hs Hf; [lia|]. simpl.
  destruct (in_read_progress p b size Hr Ht Hs) as [(out & p' & b' & -> & Hr' & Ht' & -> & Hl)
    |[-> ->]]; [|done].
  rewrite IH by (done || lia). done.
Qed.

Definition left_over (r : ReceiveProducer) (p : Pipe) : nat :=
  match rp_pending r with Some b => S (backlog b p) | None => backlog [] p end.

Lemma poll_produce_progress p r cap :
  pp_tx p = false → (0 < cap)%nat →
  (∃ out p' r', poll_produce p r cap false = (Completed, out, p', r') ∧ pp_tx p' = false
     ∧ default [] (rp_pending r) ++ queued_bytes (pp_queue p)
       = out ++ default [] (rp_pending r') ++ queued_bytes (pp_queue p')
     ∧ (left_over r' p' < left_over r p)%nat)
  ∨ ∃ r', poll_produce p r cap false = (Dropped, [], p, r')
     ∧ default [] (rp_pending r) ++ queued_bytes (pp_queue p) = [].
Proof.
  intros Ht Hc. destruct (poll_produce p r cap false) as [[[res out] p'] r'] eqn:E.
  pose proof (poll_produce_bytes _ _ _ _ _ _ _ _ E) as (Hb & _ & Ht').
  revert E. unfold poll_produce. rewrite (proj2 (Nat.eqb_neq cap 0)) by lia.
  assert (∀ data q, deliver_to q r data cap = (res, out, p', r') →
    q = p' ∧ res = Completed ∧ left_over r' p' < S (backlog data p'))%nat as Hd.
  { intros data q. unfold deliver_to, left_over. intros [= <- <- <- <-]. cbn [rp_pending].
    split; [done|]. split; [done|]. unfold backlog.
    destruct (Nat.ltb_spec (length data `min` cap) (length data)); simpl;
      rewrite ?length_drop; lia. }
  unfold left_over at 2. destruct (rp_pending r) as [b|] eqn:Er.
  - intros (-> & -> & Hl)%Hd. left. eexists _, _, _. split; [done|]. split; [congruence|].
    by split.
  - destruct (pipe_recv p) as [[data| |] p1] eqn:Ep.
    + intros (-> & -> & Hl)%Hd. left. eexists _, _, _. split; [done|]. split; [congruence|].
      by rewrite (pipe_recv_backlog _ _ _ Ep).
    + apply pipe_recv_none in Ep as (_ & _ & Hx); [|done]. intros _.
      by discriminate (proj2 Hx Ht).
    + apply pipe_recv_none in Ep as (_ & Hq & _); [|done]. intros [= <- <- <- <-]. right.
      eexists. split; [done|]. by rewrite Hq.
Qed.

Lemma produce_to_end_all cap fuel : ∀ p r,
  pp_tx p = false → (0 < cap)%nat →
  (left_over r p < fuel)%nat →
  produce_to_end fuel p r cap = Some (default [] (rp_pending r) ++ queued_bytes (pp_queue p)).
Proof.
  induction fuel as [|fuel IH]; intros p r Ht Hc Hf; [lia|]. simpl.
  destruct (poll_produce_progress p r cap Ht Hc) as [(out & p' & r' & -> & Ht' & -> & Hl)
    |(r' & -> & ->)]; [|done].
  rewrite IH by (done || lia). done.
Qed.

(** the end of a stream comes after its last byte, and it comes.  Once the
    writer is gone, a reader that keeps reading (with any non-empty buffer, over
    p2 or over p3) is told so after finitely many reads, at most one per byte and
    per chunk left, having been given everything that was queued and buffered. *)
Theorem closed_stream_is_read_to_its_end p b r size fuel :
  pp_rx p = true → pp_tx p = false → (0 < size)%nat →
  (S (backlog b p) ≤ fuel →
     read_to_end fuel p b size = Some (b ++ queued_bytes (pp_queue p)))%nat
  ∧ (rp_pending r = Some b → backlog b p + 2 ≤ fuel →
     produce_to_end fuel p r size = Some (b ++ queued_bytes (pp_queue p)))%nat.
Proof.
  intros Hr Ht Hs. split.
  - intros Hf. apply read_to_end_all; (done || lia).
  - intros Hb Hf. rewrite produce_to_end_all; unfold left_over; rewrite ?Hb; simpl; (done || lia).
Qed.

(** ** Permits *)

(** [cap] permits, in the semaphore or riding with a chunk. *)
Definition paid (cap : Z) (p : Pipe) : Prop :=
  pp_permits p + queued_permits (pp_queue p) = cap ∧ 0 ≤ pp_permits p
  ∧ Forall (λ c, 0 ≤ ck_permits c) (pp_queue p).

Lemma queued_permits_app q q' : queued_permits (q ++ q') = queued_permits q + queued_permits q'.
Proof. unfold queued_permits. induction q as [|c q IH]; simpl; lia. Qed.

Lemma queued_permits_nonneg q : Forall (λ c, 0 ≤ ck_permits c) q → 0 ≤ queued_permits q.
Proof. unfold queued_permits. induction 1; simpl; lia. Qed.

Lemma pipe_send_paid cap p data n :
  paid cap p → 0 ≤ n ≤ pp_permits p → paid cap (pipe_send p data n).2.
Proof.
  intros (Hc & Hp & Hf) Hn. unfold pipe_send. destruct (pp_rx p); [|done]. simpl.
  split; [|split]; simpl.
  - rewrite queued_permits_app. unfold queued_permits at 2. simpl. lia.
  - lia.
  - apply Forall_app. split; [done|]. constructor; [simpl; lia|constructor].
Qed.

Lemma pipe_recv_paid cap p : paid cap p → paid cap (pipe_recv p).2.
Proof.
  intros (Hc & Hp & Hf). unfold pipe_recv. destruct (pp_queue p) as [|c q] eqn:E; simpl.
  { by split; rewrite ?E. }
  inversion_clear Hf as [|? ? H1 H2]. unfold queued_permits in *. simpl in *.
  split; [|split]; simpl; [unfold queued_permits; lia|lia|done].
Qed.

(** The two ways of paying for a chunk: by the byte (p2) and by the piece (p3). *)
Definition by_the_byte (p : Pipe) : Prop :=
  Forall (λ c, ck_permits c = Z.of_nat (length (ck_data c))) (pp_queue p).

Lemma by_the_byte_total q :
  Forall (λ c, ck_permits c = Z.of_nat (length (ck_data c))) q →
  queued_permits q = Z.of_nat (length (queued_bytes q)).
Proof.
  induction 1 as [|c q Hc Hq IH]; [done|]. unfold queued_bytes in *. simpl.
  rewrite length_app, Nat2Z.inj_add, Hc. f_equal. exact IH.
Qed.

Inductive p2_step : Pipe → Pipe → Prop :=
  | p2_write p bytes : p2_step p (out_write p bytes).2
  | p2_read p b size : p2_step p (in_read p b size).1.2
  | p2_ready p b p' b' : in_ready p b = Some (p', b') → p2_step p p'
  | p2_produce p r cap finish : p2_step p (poll_produce p r cap finish).1.2
  | p2_shut_tx p : p2_step p (drop_tx p)
  | p2_shut_rx p : p2_step p (drop_rx p).

Definition p2_ok (cap : Z) (p : Pipe) : Prop := paid cap p ∧ by_the_byte p.

Lemma pipe_recv_ok cap p : p2_ok cap p → p2_ok cap (pipe_recv p).2.
Proof.
  intros [Hp Hb]. split; [by apply pipe_recv_paid|]. unfold by_the_byte, pipe_recv in *.
  destruct (pp_queue p) as [|c q] eqn:E; simpl; [by rewrite E|]. by inversion Hb.
Qed.

Lemma p2_step_ok cap p p' : p2_step p p' → p2_ok cap p → p2_ok cap p'.
Proof.
  intros Hs Hok. pose proof (pipe_recv_ok cap p Hok) as Hrecv.
  destruct Hs as [p bytes|p b size|p b p' b' E|p r c finish|p|p].
  - unfold out_write. destruct (negb (pp_tx p)); [done|].
    destruct (Z.leb_spec (Z.of_nat (length bytes)) (pp_permits p)); simpl;
      destruct (negb _); simpl; try done.
    pose proof (pipe_send_paid cap p bytes (Z.of_nat (length bytes)) (proj1 Hok)) as Hs.
    destruct (pipe_send p bytes _) as [sent p1] eqn:E. simpl in *. split; [apply Hs; lia|].
    destruct Hok as [_ Hb]. unfold by_the_byte, pipe_send in *.
    destruct (pp_rx p); injection E as _ <-; [|done]. simpl. apply Forall_app. split; [done|].
    by repeat constructor.
  - unfold in_read. destruct (pipe_recv p) as [[data| |] p1]; repeat case_match; by simplify_eq.
  - revert E. unfold in_ready. destruct (pipe_recv p) as [[data| |] p1];
      repeat case_match; intros; by simplify_eq.
  - unfold poll_produce, deliver_to. destruct (pipe_recv p) as [[data| |] p1];
      repeat case_match; by simplify_eq.
  - done.
  - destruct Hok as [(Hc & Hp & Hf) Hb]. pose proof (queued_permits_nonneg _ Hf).
    split; [|constructor]. unfold drop_rx, paid. simpl. change (queued_permits []) with 0.
    split; [lia|]. split; [lia|constructor].
Qed.

(** p2's flow control holds.  Over a virtual connection written through p2,
    whatever the two ends do, the bytes in flight and the bytes [check-write]
    still offers add up to the connection's capacity: no more than that is ever
    queued, and none of it is lost. *)
Theorem p2_bytes_in_flight_bounded cap p :
  0 ≤ cap → rtc p2_step (new_pipe cap) p →
  pp_permits p + Z.of_nat (length (queued_bytes (pp_queue p))) = cap ∧ 0 ≤ pp_permits p
  ∧ (out_is_closed p = false → ∀ bytes, Z.of_nat (length bytes) ≤ Z.min (pp_permits p) 4294967295 →
       (out_write p bytes).1 = Ok tt).
Proof.
  intros Hc Hs.
  assert (p2_ok cap p) as [(Hp & H0 & _) Hb].
  { assert (p2_ok cap (new_pipe cap)) as H0.
    { split; [|constructor]. unfold paid. simpl. change (queued_permits []) with 0.
      split; [lia|]. split; [done|constructor]. }
    revert H0. induction Hs; [done|]. intros H0. eauto using p2_step_ok. }
  rewrite <-(by_the_byte_total _ Hb). split; [done|]. split; [done|].
  unfold out_is_closed, out_write, pipe_send. intros [Ht Hr]%orb_false_iff bytes Hl.
  apply negb_false_iff in Ht, Hr. rewrite Ht, Hr. simpl.
  by rewrite !(proj2 (Z.leb_le _ _)) by lia.
Qed.

(** p3's flow control counts pieces, not bytes.  A send buffer of one byte
    takes a piece of any length whole. *)
Theorem p3_send_buffer_counts_pieces x data :
  let '(polled, n, p, _) := poll_consume (new_pipe 1) new_consumer (x :: data) false in
  polled = Completed ∧ n = length (x :: data) ∧ queued_bytes (pp_queue p) = x :: data
  ∧ pp_permits p = 0.
Proof. cbn. by rewrite app_nil_r. Qed.

(** ** p2 over a kernel socket *)

(** What the kernel was given, and whether its sending side was shut. *)
Record Kernel := { k_sent : list Z; k_shut : bool }.

(** The kernel's answer to one [try_write]. *)
Inductive TryWrite :=
  | Wrote (n : nat)
  | WriteWouldBlock
  | WriteBrokenPipe (e : IoError)
  | WriteFailed (e : IoError).

(** A background write: the bytes it has still to write, or why it stopped. *)
Record Task := { tk_rest : list Z; tk_error : option IoError }.

Definition finished (t : Task) : bool := bool_decide (tk_rest t = []) || is_some (tk_error t).

(** [shut]: the closing task has shut the kernel's side. *)
Inductive WriteState :=
  | WReady
  | WWriting (t : Task)
  | WClosing (t : Task) (shut : bool)
  | WClosed
  | WError (e : IoError).

Definition SOCKET_READY_SIZE : Z := 1024 * 1024 * 1024.

Definition k_take (k : Kernel) (bytes : list Z) : Kernel :=
  {| k_sent := k_sent k ++ bytes; k_shut := k_shut k |}.

(** [os] answers each [try_write], given the bytes offered.  The loop runs at
    most once per byte when the kernel takes some of what it is offered; [None]:
    out of fuel, for a kernel that took nothing. *)
Fixpoint write_loop (fuel : nat) (os : list Z → TryWrite) (bytes : list Z) (k : Kernel) :
    option (result unit StreamError * WriteState * Kernel) :=
  match bytes, fuel with
  | [], _ => Some (Ok tt, WReady, k)
  | _, O => None
  | _, S fuel =>
      match os bytes with
      | Wrote n => write_loop fuel os (drop n bytes) (k_take k (take n bytes))
      | WriteWouldBlock => Some (Ok tt, WWriting {| tk_rest := bytes; tk_error := None |}, k)
      | WriteBrokenPipe _ => Some (Err StreamClosed, WClosed, k)
      | WriteFailed e => Some (Err (LastOperationFailed e), WReady, k)
      end
  end.

Definition writer_write (os : list Z → TryWrite) (s : WriteState) (bytes : list Z) (k : Kernel) :
    option (result unit StreamError * WriteState * Kernel) :=
  match s with
  | WReady => write_loop (length bytes) os bytes k
  | WClosed => Some (Err StreamClosed, s, k)
  | WWriting _ | WClosing _ _ | WError _ => Some (Err StreamTrap, s, k)
  end.

Definition writer_flush (s : WriteState) : result unit StreamError :=
  match s with WClosed => Err StreamClosed | _ => Ok tt end.

Definition writer_check_write (writable : bool) (s : WriteState) :
    result Z StreamError * WriteState :=
  match s with
  | WWriting _ | WClosing _ _ => (Ok 0, s)
  | WReady => (Ok (if writable then SOCKET_READY_SIZE else 0), s)
  | WClosed => (Err StreamClosed, WClosed)
  | WError e => (Err (LastOperationFailed e), WClosed)
  end.

Definition native_shutdown (k : Kernel) : Kernel := {| k_sent := k_sent k; k_shut := true |}.

Definition writer_shutdown (s : WriteState) (k : Kernel) : WriteState * Kernel :=
  match s with
  | WReady => (WClosed, native_shutdown k)
  | WWriting t => (WClosing t false, k)
  | s => (s, k)
  end.

(** The background task is aborted where it stands. *)
Definition writer_cancel (s : WriteState) : WriteState := WClosed.

Definition task_step (os : list Z → TryWrite) (t : Task) (k : Kernel) : Task * Kernel :=
  if finished t then (t, k)
  else match os (tk_rest t) with
       | Wrote n => ({| tk_rest := drop n (tk_rest t); tk_error := None |},
                     k_take k (take n (tk_rest t)))
       | WriteWouldBlock => (t, k)
       | WriteBrokenPipe e | WriteFailed e => ({| tk_rest := tk_rest t; tk_error := Some e |}, k)
       end.

(** The background runs: one write, or the shutdown that waited for the last. *)
Definition background (os : list Z → TryWrite) (s : WriteState) (k : Kernel) :
    WriteState * Kernel :=
  match s with
  | WWriting t => let '(t, k) := task_step os t k in (WWriting t, k)
  | WClosing t false =>
      if finished t then (WClosing t true, native_shutdown k)
      else let '(t, k) := task_step os t k in (WClosing t false, k)
  | s => (s, k)
  end.

(** [ready] joins the task; [None]: still waiting. *)
Definition writer_ready (s : WriteState) : option WriteState :=
  let joined t next := match tk_error t with Some e => WError e | None => next end in
  match s with
  | WWriting t => if finished t then Some (joined t WReady) else None
  | WClosing t shut => if shut then Some (joined t WClosed) else None
  | s => Some s
  end.

(** The reader: [closed], and the kernel's answer to one [try_read_buf]. *)
Inductive TryRead := ReadBytes (b : list Z) | ReadWouldBlock | ReadFailed (e : IoError).

Definition reader_read (closed : bool) (os : TryRead) (size : nat) :
    result (list Z) StreamError * bool :=
  if closed then (Err StreamClosed, true)
  else if (size =? 0)%nat then (Ok [], false)
  else match os with
       | ReadBytes [] => (Err StreamClosed, true)
       | ReadBytes b => (Ok b, false)
       | ReadWouldBlock => (Ok [], false)
       | ReadFailed e => (Err (LastOperationFailed e), true)
       end.

(** ** What the kernel is given *)

(** A kernel that takes some of what it is offered, never more, or asks to wait. *)
Definition kernel_ok (os : list Z → TryWrite) : Prop :=
  ∀ bytes, os bytes = WriteWouldBlock
    ∨ ∃ n, os bytes = Wrote n ∧ (n ≤ length bytes)%nat ∧ (bytes ≠ [] → 0 < n)%nat.

Definition unsent (s : WriteState) : list Z :=
  match s with WWriting t | WClosing t _ => tk_rest t | _ => [] end.

(** A writer's history over such a kernel: [a] is what its writes accepted.
    Cancelling, which gives the rest up, is left out. *)
Inductive writing : list Z → WriteState → Kernel → Prop :=
  | writing_start : writing [] WReady {| k_sent := []; k_shut := false |}
  | writing_write os a s k bytes r s' k' :
      kernel_ok os → writing a s k → writer_write os s bytes k = Some (r, s', k') →
      writing (a ++ written r bytes) s' k'
  | writing_check a s k writable :
      writing a s k → writing a (writer_check_write writable s).2 k
  | writing_shutdown a s k :
      writing a s k → writing a (writer_shutdown s k).1 (writer_shutdown s k).2
  | writing_background os a s k :
      kernel_ok os → writing a s k → writing a (background os s k).1 (background os s k).2
  | writing_ready a s k s' :
      writing a s k → writer_ready s = Some s' → writing a s' k.

Definition writer_ok (a : list Z) (s : WriteState) (k : Kernel) : Prop :=
  k_sent k ++ unsent s = a
  ∧ match s with
    | WReady => k_shut k = false
    | WWriting t => k_shut k = false ∧ tk_error t = None
    | WClosing t shut => k_shut k = shut ∧ tk_error t = None ∧ (shut = true → tk_rest t = [])
    | WClosed => k_shut k = true
    | WError _ => False
    end.

Lemma write_loop_ok os fuel : ∀ bytes k,
  kernel_ok os → (length bytes ≤ fuel)%nat → k_shut k = false →
  ∃ s k', write_loop fuel os bytes k = Some (Ok tt, s, k') ∧ writer_ok (k_sent k ++ bytes) s k'.
Proof.
  induction fuel as [|fuel IH]; intros [|x bytes] k Hos Hf Hk; simpl in *.
  - eexists _, _. split; [done|]. by split.
  - lia.
  - eexists _, _. split; [done|]. by split.
  - destruct (Hos (x :: bytes)) as [-> | (n & -> & _ & Hn)].
    + eexists _, _. split; [done|]. by split.
    + destruct (IH (drop n (x :: bytes)) (k_take k (take n (x :: bytes))) Hos) as (s & k' & -> & Hw).
      * rewrite length_drop. specialize (Hn ltac:(done)). simpl in *. lia.
      * done.
      * eexists _, _. split; [done|]. simpl in Hw. by rewrite <-app_assoc, take_drop in Hw.
Qed.

Lemma finished_no_error t : tk_error t = None → finished t = bool_decide (tk_rest t = []).
Proof. intros He. unfold finished. rewrite He. by destruct (bool_decide _). Qed.

Lemma task_step_ok os t k t' k' :
  kernel_ok os → tk_error t = None → task_step os t k = (t', k') →
  tk_error t' = None ∧ k_sent k' ++ tk_rest t' = k_sent k ++ tk_rest t ∧ k_shut k' = k_shut k.
Proof.
  intros Hos He. unfold task_step. destruct (finished t); [by intros [= <- <-]|].
  destruct (Hos (tk_rest t)) as [-> | (n & -> & _)]; intros [= <- <-]; [done|]. simpl.
  by rewrite <-app_assoc, take_drop.
Qed.

Lemma background_ok os a s k :
  kernel_ok os → writer_ok a s k → writer_ok a (background os s k).1 (background os s k).2.
Proof.
  intros Hos [Hs IH]. destruct s as [|t|t [|]| |]; simpl in *; try done.
  - destruct (task_step os t k) as [t' k'] eqn:E.
    apply task_step_ok in E as (He & Hb & Hk); [|naive_solver..]. split; simpl; [by rewrite Hb|].
    split; [|done]. rewrite Hk. naive_solver.
  - destruct IH as (Hk & He & _). rewrite (finished_no_error t He).
    case_bool_decide as Hr; [done|].
    destruct (task_step os t k) as [t' k'] eqn:E.
    apply task_step_ok in E as (He' & Hb & Hk'); [|done..]. split; simpl; [by rewrite Hb|].
    by rewrite Hk'.
Qed.

Lemma writer_ready_ok a s k s' : writer_ready s = Some s' → writer_ok a s k → writer_ok a s' k.
Proof.
  intros E [Hs IH]. destruct s as [|t|t [|]| |]; simpl in E;
    try discriminate E; try (by injection E as <-).
  - destruct IH as [Hk He]. rewrite (finished_no_error t He), He in E.
    case_bool_decide as Hr; [|done]. injection E as <-. simpl in Hs. rewrite Hr in Hs. by split.
  - destruct IH as (Hk & He & Hr). rewrite He in E. injection E as <-. simpl in Hs.
    rewrite (Hr eq_refl) in Hs. by split.
Qed.

Lemma writing_ok a s k : writing a s k → writer_ok a s k.
Proof.
  induction 1 as [|os a s k bytes r s' k' Hos Hw [Hs IH] E|a s k writable Hw [Hs IH]
    |a s k Hw [Hs IH]|os a s k Hos Hw IH|a s k s' Hw IH E].
  - done.
  - destruct s as [|t|t b| |]; simpl in E; [|injection E as <- <- <-; simpl; by rewrite app_nil_r..
      |done].
    destruct (write_loop_ok os (length bytes) bytes k Hos (le_n _) IH) as (s1 & k1 & E1 & H1).
    rewrite E1 in E. injection E as <- <- <-. simpl in *. rewrite app_nil_r in Hs. by subst.
  - by destruct s.
  - destruct s as [|t|t b| |]; simpl; [by split|split; [done|naive_solver]|by split..|done].
  - by apply background_ok.
  - by eapply writer_ready_ok.
Qed.

(** over a kernel socket, p2 writes reach the kernel whole and in order, and
    before the end.  Whatever the writes, background progress, shutdowns and
    polls, the kernel has been given the bytes accepted except those the
    background task still holds; and once the sending side has been shut, the
    kernel has all of them, and further writes are refused. *)
Theorem written_bytes_reach_the_kernel a s k :
  writing a s k →
  k_sent k ++ unsent s = a
  ∧ (k_shut k = true → k_sent k = a
     ∧ ∀ os bytes, ∃ e, writer_write os s bytes k = Some (Err e, s, k)).
Proof.
  intros [Hs Hw]%writing_ok. split; [done|]. intros Hk. rewrite Hk in Hw.
  destruct s as [|t|t b| |]; simpl in *; [done|by destruct Hw| | |done].
  - destruct Hw as (<- & _ & Hr). rewrite (Hr eq_refl), app_nil_r in Hs. split; [done|]. eauto.
  - rewrite app_nil_r in Hs. split; [done|]. eauto.
Qed.

(** ** Runs *)

(** A kernel that takes three bytes and then asks to wait. *)
Definition takes_three (bytes : list Z) : TryWrite :=
  if (length bytes <=? 2)%nat then WriteWouldBlock else Wrote 3.

Lemma takes_three_ok : kernel_ok takes_three.
Proof.
  intros bytes. unfold takes_three. destruct (Nat.leb_spec (length bytes) 2); [by left|].
  right. exists 3%nat. split; [done|]. split; [lia|]. intros _. lia.
Qed.

Definition takes_all (bytes : list Z) : TryWrite := Wrote (length bytes).

Lemma takes_all_ok : kernel_ok takes_all.
Proof.
  intros bytes. right. eexists. split; [done|]. split; [done|]. destruct bytes; simpl; [done|lia].
Qed.

(** The shutdown waits for the two bytes the background still holds. *)
Lemma written_bytes_reach_the_kernel_witness :
  ∃ s k, writing [1; 2; 3; 4; 5] s k ∧ k_shut k = true ∧ k_sent k = [1; 2; 3; 4; 5].
Proof.
  set (sh := writer_shutdown (WWriting {| tk_rest := [4; 5]; tk_error := None |})
               {| k_sent := [1; 2; 3]; k_shut := false |}).
  set (b := background takes_all sh.1 sh.2).
  set (e := background takes_all b.1 b.2).
  assert (writing [1; 2; 3; 4; 5] e.1 e.2) as Hw.
  { apply writing_background; [apply takes_all_ok|].
    apply writing_background; [apply takes_all_ok|]. apply writing_shutdown.
    apply (writing_write takes_three [] WReady {| k_sent := []; k_shut := false |}
             [1; 2; 3; 4; 5] (Ok tt)); [apply takes_three_ok|constructor|reflexivity]. }
  exists e.1, e.2. split; [exact Hw|]. split; [reflexivity|].
  exact (proj1 (proj2 (written_bytes_reach_the_kernel _ _ _ Hw) eq_refl)).
Defined.

(** Two writes of p2, read by p3 two bytes at a time. *)
Definition two_writes : Pipe := (out_write (out_write (new_pipe 8) [1; 2; 3]).2 [4; 5]).2.

Lemma two_writes_flow :
  flows (fresh_flow 8 (ReadP3 new_producer))
    {| fl_pipe := two_writes; fl_reader := ReadP3 new_producer;
       fl_accepted := [1; 2; 3; 4; 5]; fl_delivered := [] |}.
Proof.
  eapply flows_step; [eapply flows_step; [apply flows_start|]|].
  - apply (flow_write (new_pipe 8) _ [] [] [1; 2; 3] (Ok tt)). reflexivity.
  - apply (flow_write _ _ [1; 2; 3] [] [4; 5] (Ok tt)). reflexivity.
Defined.

Lemma virtual_stream_in_order_witness :
  ∃ f, flows (fresh_flow 8 (ReadP3 new_producer)) f ∧ fl_delivered f = [1; 2]
       ∧ fl_delivered f `prefix_of` fl_accepted f.
Proof.
  set (q := poll_produce two_writes new_producer 2 false).
  exists {| fl_pipe := q.1.2; fl_reader := ReadP3 q.2; fl_accepted := [1; 2; 3; 4; 5];
            fl_delivered := [] ++ q.1.1.2 |}.
  assert (flows (fresh_flow 8 (ReadP3 new_producer))
    {| fl_pipe := q.1.2; fl_reader := ReadP3 q.2; fl_accepted := [1; 2; 3; 4; 5];
       fl_delivered := [] ++ q.1.1.2 |}) as Hf.
  { eapply flows_step; [apply two_writes_flow|].
    apply (flow_produce two_writes new_producer _ _ 2 false q.1.1.1). reflexivity. }
  split; [exact Hf|]. split; [reflexivity|].
  exact (proj1 (virtual_stream_in_order 8 (ReadP3 new_producer) _ eq_refl Hf)).
Defined.

Lemma closed_stream_is_read_to_its_end_witness :
  read_to_end 10 (drop_tx two_writes) [0] 2 = Some [0; 1; 2; 3; 4; 5].
Proof.
  refine (proj1 (closed_stream_is_read_to_its_end (drop_tx two_writes) [0] new_producer 2 10
    eq_refl eq_refl _) _); vm_compute; lia.
Defined.

Lemma p2_bytes_in_flight_bounded_witness :
  pp_permits two_writes + Z.of_nat (length (queued_bytes (pp_queue two_writes))) = 8
  ∧ (out_write two_writes [6; 7; 8]).1 = Ok tt
  ∧ (out_write two_writes [6; 7; 8; 9]).1 = Err StreamTrap.
Proof.
  assert (rtc p2_step (new_pipe 8) two_writes) as Hs.
  { eapply rtc_l; [apply (p2_write _ [1; 2; 3])|]. eapply rtc_l; [apply (p2_write _ [4; 5])|].
    apply rtc_refl. }
  destruct (p2_bytes_in_flight_bounded 8 two_writes ltac:(lia) Hs) as (Hp & _ & Hw).
  split; [exact Hp|]. split; [apply Hw; [reflexivity|vm_compute; discriminate]|reflexivity].
Defined.
