(* ===== verification/TcpP3Streams.v ===== *)
(** * p3 streams over a kernel socket

    [SendStreamConsumer] and [ReceiveStreamProducer] of
    [sockets/host_tcp_p3.rs].  Each loops over the kernel's non-blocking call and
    its readiness until one of them gives an answer; the kernel is a function of
    the round.  [None] is a loop that has not answered within its fuel. *)

From Stdlib Require Import ZArith Lia.
From stdpp Require Import base list option.
From S2P Require Import Prelude SocketUtil TcpStreams.
Local Open Scope Z_scope.

(** [poll_read_ready] and [poll_write_ready] in each round; [None]: pending. *)
Abbreviation Readiness := (nat → option (result unit IoError)).

(** How the body of [poll_consume] and [poll_produce] ends: with an answer, or by
    leaving the labelled block, which closes the stream. *)
Inductive Ended (A : Type) :=
  | Answered (p : Polled) (a : A)
  | Broke (res : result unit IoError).
Arguments Answered {A}.
Arguments Broke {A}.

Definition waiting (finish : bool) : Polled := if finish then Cancelled else StillPending.

(** Nothing to move: only readiness is asked for. *)
Definition probe {A} (ready : option (result unit IoError)) (finish : bool) (a : A) : Ended A :=
  match ready with
  | Some (Ok _) => Answered Completed a
  | Some (Err e) => Broke (Err e)
  | None => Answered (waiting finish) a
  end.

(** ** Sending *)

(** [result], the sender the guest's future waits on, and what it was told. *)
Record RealHalf := { rh_result : bool; rh_told : option (result unit IoError) }.

Definition new_half : RealHalf := {| rh_result := true; rh_told := None |}.

Fixpoint send_loop (fuel round : nat) (os : nat → list Z → TryWrite) (ready : Readiness)
    (data : list Z) (finish : bool) : option (Ended nat) :=
  match fuel with
  | O => None
  | S fuel =>
      match os round data with
      | Wrote n => Some (Answered Completed n)
      | WriteWouldBlock =>
          match ready round with
          | Some (Ok _) => send_loop fuel (S round) os ready data finish
          | Some (Err e) => Some (Broke (Err e))
          | None => Some (Answered (waiting finish) 0%nat)
          end
      | WriteBrokenPipe _ => Some (Broke (Ok tt))
      | WriteFailed e => Some (Broke (Err e))
      end
  end.

(** [close] acts once: it shuts the kernel's sending side and tells the guest. *)
Definition close_send (h : RealHalf) (k : Kernel) (res : result unit IoError) :
    RealHalf * Kernel :=
  if rh_result h then ({| rh_result := false; rh_told := Some res |}, native_shutdown k)
  else (h, k).

(** The bytes marked read come with the answer. *)
Definition poll_send (fuel : nat) (os : nat → list Z → TryWrite) (ready : Readiness)
    (h : RealHalf) (k : Kernel) (data : list Z) (finish : bool) :
    option (Polled * nat * RealHalf * Kernel) :=
  ended ← match data with
          | [] => Some (probe (ready 0%nat) finish 0%nat)
          | _ => send_loop fuel 0 os ready data finish
          end;
  Some match ended with
       | Answered p n => (p, n, h, k_take k (take n data))
       | Broke res => let '(h, k) := close_send h k res in (Dropped, 0%nat, h, k)
       end.

Definition drop_send (h : RealHalf) (k : Kernel) : RealHalf * Kernel := close_send h k (Ok tt).

(** ** Receiving *)

Definition DEFAULT_BUFFER_CAPACITY : Z := 8192.

Fixpoint receive_loop (fuel round : nat) (os : nat → TryRead) (ready : Readiness)
    (finish : bool) : option (Ended (list Z)) :=
  match fuel with
  | O => None
  | S fuel =>
      match os round with
      | ReadBytes [] => Some (Broke (Ok tt))
      | ReadBytes b => Some (Answered Completed b)
      | ReadWouldBlock =>
          match ready round with
          | Some (Ok _) => receive_loop fuel (S round) os ready finish
          | Some (Err e) => Some (Broke (Err e))
          | None => Some (Answered (waiting finish) [])
          end
      | ReadFailed e => Some (Broke (Err e))
      end
  end.

(** Shutting the receiving side is the kernel's business; the guest is told. *)
Definition close_receive (h : RealHalf) (res : result unit IoError) : RealHalf :=
  if rh_result h then {| rh_result := false; rh_told := Some res |} else h.

(** [room]: the destination has room ([false]: a zero-length read). *)
Definition poll_receive (fuel : nat) (os : nat → TryRead) (ready : Readiness) (h : RealHalf)
    (room finish : bool) : option (Polled * list Z * RealHalf) :=
  ended ← (if room then receive_loop fuel 0 os ready finish
           else Some (probe (ready 0%nat) finish []));
  Some match ended with
       | Answered p b => (p, b, h)
       | Broke res => (Dropped, [], close_receive h res)
       end.

Definition drop_receive (h : RealHalf) : RealHalf := close_receive h (Ok tt).

(** ** What the guest is told *)

(** The loop answers at the first round in which the kernel does something else
    than ask to wait while saying it is ready. *)
Definition settles {A} (os : nat → A) (blocked : A → bool) (ready : Readiness) (n : nat) : Prop :=
  blocked (os n) = false ∨ ∀ u, ready n ≠ Some (Ok u).

Definition write_blocked (w : TryWrite) : bool :=
  match w with WriteWouldBlock => true | _ => false end.
Definition read_blocked (r : TryRead) : bool :=
  match r with ReadWouldBlock => true | _ => false end.

Lemma send_loop_total os ready data finish n : ∀ fuel round,
  settles (λ k, os k data) write_blocked ready (round + n) → (n < fuel)%nat →
  is_Some (send_loop fuel round os ready data finish).
Proof.
  induction n as [|n IH]; intros [|fuel] round Hs Hf; try lia; cbn [send_loop].
  - rewrite Nat.add_0_r in Hs. destruct (os round data) eqn:E; eauto.
    destruct Hs as [Hs|Hs]; [simpl in Hs; by rewrite E in Hs|].
    destruct (ready round) as [[u|e]|]; [by destruct (Hs u)|eauto..].
  - destruct (os round data); eauto. destruct (ready round) as [[u|e]|]; eauto.
    apply IH; [|lia]. by replace (S round + n)%nat with (round + S n)%nat by lia.
Qed.

Lemma send_loop_answer os ready data finish p m : ∀ fuel round,
  send_loop fuel round os ready data finish = Some (Answered p m) → p ≠ Dropped.
Proof.
  induction fuel as [|fuel IH]; intros round; cbn [send_loop]; [done|].
  destruct (os round data), (ready round) as [[?|?]|]; intros; simplify_eq/=; eauto;
    by destruct finish.
Qed.

Lemma receive_loop_total os ready finish n : ∀ fuel round,
  settles os read_blocked ready (round + n) → (n < fuel)%nat →
  is_Some (receive_loop fuel round os ready finish).
Proof.
  induction n as [|n IH]; intros [|fuel] round Hs Hf; try lia; cbn [receive_loop].
  - rewrite Nat.add_0_r in Hs. destruct (os round) as [[|x b]| |] eqn:E; eauto.
    destruct Hs as [Hs|Hs]; [by rewrite E in Hs|].
    destruct (ready round) as [[u|e]|]; [by destruct (Hs u)|eauto..].
  - destruct (os round) as [[|x b]| |]; eauto. destruct (ready round) as [[u|e]|]; eauto.
    apply IH; [|lia]. by replace (S round + n)%nat with (round + S n)%nat by lia.
Qed.

(** A guest's sending stream over its life: [a] is what was marked read.  A poll
    that answers [Dropped] is the last. *)
Inductive sending : list Z → RealHalf → Kernel → Prop :=
  | sending_start : sending [] new_half {| k_sent := []; k_shut := false |}
  | sending_poll a h k fuel os ready data finish p n h' k' :
      sending a h k → rh_result h = true →
      poll_send fuel os ready h k data finish = Some (p, n, h', k') →
      sending (a ++ take n data) h' k'
  | sending_drop a h k :
      sending a h k → sending a (drop_send h k).1 (drop_send h k).2.

Lemma sending_ok a h k :
  sending a h k →
  k_sent k = a ∧ rh_result h = negb (k_shut k) ∧ (is_Some (rh_told h) ↔ k_shut k = true).
Proof.
  induction 1 as [|a h k fuel os ready data finish p n h' k' Hs (Hk & Hr & Ht) Ho Hp
    |a h k Hs (Hk & Hr & Ht)].
  - simpl. split; [done|]. split; [done|]. split; [intros [? [=]]|done].
  - unfold poll_send in Hp. revert Hp.
    destruct (match data with [] => _ | _ => _ end) as [[q m|res]|]; [| |done]; simpl.
    + intros [= _ <- <- <-]. simpl. by rewrite Hk.
    + unfold close_send. rewrite Ho. intros [= _ <- <- <-]. simpl. rewrite app_nil_r.
      split; [done|]. split; [done|]. by split; [|eauto].
  - unfold drop_send, close_send. destruct (rh_result h) eqn:E; simpl; [|by rewrite E].
    split; [done|]. split; [done|]. by split; [|eauto].
Qed.

(** p3's sending stream over a kernel socket takes from the guest exactly what
    the kernel takes, in order, and its result is there exactly when the kernel's
    sending side has been shut.  A poll answers as soon as the kernel does
    anything but ask to wait and report ready at once; a broken pipe ends the
    stream without an error, any other failure with that error, and dropping the
    stream after that neither shuts nor tells again. *)
Theorem p3_send_follows_the_kernel a h k :
  sending a h k →
  (k_sent k = a ∧ (is_Some (rh_told h) ↔ k_shut k = true))
  ∧ (k_shut k = true → drop_send h k = (h, k))
  ∧ ∀ os ready x data finish n fuel,
      settles (λ r, os r (x :: data)) write_blocked ready n → (n < fuel)%nat →
      k_shut k = false →
      ∃ p m h' k', poll_send fuel os ready h k (x :: data) finish = Some (p, m, h', k')
        ∧ (p = Dropped ↔ k_shut k' = true)
        ∧ (∀ e, os 0%nat (x :: data) = WriteBrokenPipe e → rh_told h' = Some (Ok tt))
        ∧ (∀ e, os 0%nat (x :: data) = WriteFailed e → rh_told h' = Some (Err e)).
Proof.
  intros (Hk & Hr & Ht)%sending_ok. split; [done|]. split.
  { intros Hs. unfold drop_send, close_send. by rewrite Hr, Hs. }
  intros os ready x data finish n fuel Hset Hf Hs. unfold poll_send.
  destruct (send_loop_total os ready (x :: data) finish n fuel 0 Hset Hf) as [e He]. rewrite He. simpl.
  destruct fuel as [|fuel]; [lia|]. rewrite Hs in Hr. unfold close_send. simpl in Hr. rewrite Hr.
  destruct e as [p m|res]; eexists _, _, _, _; (split; [reflexivity|]); simpl; rewrite ?Hs.
  - assert (p ≠ Dropped ∧ ∀ e, os 0%nat (x :: data) ≠ WriteBrokenPipe e
      ∧ os 0%nat (x :: data) ≠ WriteFailed e) as [Hp Hn].
    { split; [by eapply send_loop_answer|].
      intros e. simpl in He. by destruct (os 0%nat (x :: data)). }
    split; [naive_solver|]. split; intros e He'; by destruct (Hn e).
  - split; [done|]. simpl in He.
    split; intros e He'; rewrite He' in He; congruence.
Qed.

(** A broken pipe: the stream ends, without an error. *)
Lemma p3_send_follows_the_kernel_witness :
  let broken := {| raw_os_error := None; kind := OtherKind |} in
  ∃ p m h' k', poll_send 2 (λ _ _, WriteBrokenPipe broken) (λ _, None) new_half
      {| k_sent := []; k_shut := false |} [1; 2] false = Some (p, m, h', k')
    ∧ rh_told h' = Some (Ok tt).
Proof.
  intros broken.
  destruct (p3_send_follows_the_kernel [] new_half {| k_sent := []; k_shut := false |} sending_start)
    as (_ & _ & Hp).
  destruct (Hp (λ _ _, WriteBrokenPipe broken) (λ _, None) 1 [2] false 0%nat 2%nat)
    as (p & m & h' & k' & E & _ & Ht & _); [by left|lia|reflexivity|].
  exists p, m, h', k'. split; [exact E|]. exact (Ht broken eq_refl).
Defined.

(** What the guest reads is what the kernel handed over, and the end of the
    stream is the kernel's. *)
Lemma poll_receive_spec fuel os ready h room finish p b h' :
  poll_receive fuel os ready h room finish = Some (p, b, h') →
  (b ≠ [] → p = Completed ∧ ∃ n, os n = ReadBytes b)
  ∧ (p ≠ Dropped → h' = h) ∧ (rh_result h = true → p = Dropped → is_Some (rh_told h')).
Proof.
  unfold poll_receive. destruct room.
  - assert (∀ f r e, receive_loop f r os ready finish = Some e →
      match e with
      | Answered p b => p ≠ Dropped ∧ (b ≠ [] → p = Completed ∧ ∃ n, os n = ReadBytes b)
      | Broke _ => True
      end) as Hl.
    { induction f as [|f IH]; intros r e; cbn [receive_loop]; [done|].
      destruct (os r) as [[|x bs]| |] eqn:E; [by intros [= <-]| | |by intros [= <-]].
      - intros [= <-]. split; [done|]. eauto.
      - destruct (ready r) as [[u|e']|]; [apply IH|by intros [= <-]|].
        intros [= <-]. split; [by destruct finish|done]. }
    destruct (receive_loop fuel 0 os ready finish) as [e|] eqn:E; [|done]. apply Hl in E. simpl.
    destruct e as [q c|res]; intros [= <- <- <-]; [naive_solver|].
    unfold close_receive. destruct (rh_result h); simpl; naive_solver.
  - simpl. unfold probe, close_receive. destruct (ready 0%nat) as [[u|e]|];
      intros; simplify_eq/=; [naive_solver|destruct (rh_result h); naive_solver|].
    by destruct finish; naive_solver.
Qed.
