(* ===== verification/TcpSocket.v ===== *)
(** * TCP sockets: the real half and the virtual half

    [sockets/tcp.rs] (a kernel socket with its bookkeeping, and the socket a guest
    holds: real, virtual, or both) and [sockets/loopback/tcp.rs] (the virtual
    half).  [TcpOs] is what the operating system answers during one call; a
    kernel stream is a number.  [Fabric] is the guest's virtual network with the
    channels behind it: a bounded queue of connections per listener, and two
    pipes per connection ([TcpStreams]).  [NonInheritedOptions] is empty on the
    platforms modelled (it does something on macOS only). *)

From Stdlib Require Import ZArith Lia.
From stdpp Require Import base list gmap strings option.
From S2P Require Import Prelude RustStr Net SocketUtil Quota LoopbackNet TcpStreams.
Local Open Scope Z_scope.

Abbreviation RealStream := nat.

Record TcpOs := {
  to_open : result unit IoError;                              (** the new socket *)
  to_bind : SocketAddr → result unit IoError;
  to_local_addr : result SocketAddr IoError;
  to_peer_addr : RealStream → result SocketAddr IoError;
  to_listen : Z → result unit IoError;
  to_relisten : Z → result unit Errno;
  to_connect : SocketAddr → option (result RealStream IoError);  (** [None]: not yet *)
  to_accept : option (result RealStream IoError);                (** [None]: nobody yet *)
  to_turn : bool;              (** a listener's queue is fair: is it this waiter's turn *)
  to_keepalive : result bool Errno;
  to_keepidle : result Z Errno;
  to_keepintvl : result Z Errno;
  to_keepcnt : result Z Errno;
  to_hop_limit : result Z Errno;
  to_recv_buffer : result Z Errno;
  to_send_buffer : result Z Errno;
  to_set_keepalive : bool → result unit Errno;
  to_set_keepidle : Z → result unit Errno;
  to_set_keepintvl : Z → result unit Errno;
  to_set_keepcnt : Z → result unit Errno;
  to_set_hop_limit : Z → result unit Errno;
  to_set_recv_buffer : Z → result unit Errno;
  to_set_send_buffer : Z → result unit Errno;
}.

(** ** The virtual fabric *)

Record TcpConn := {
  cn_local : SocketAddr;
  cn_remote : SocketAddr;
  cn_rx : option Channel;
  cn_tx : option Channel;
}.

(** The channel of a listener: [bl_reserved] slots are promised to connecting
    sockets; [bl_open] says the receiver is there. *)
Record Backlog := { bl_cap : Z; bl_queue : list TcpConn; bl_reserved : Z; bl_open : bool }.

Record Fabric := {
  fb_net : Network;
  fb_backlogs : gmap Channel Backlog;
  fb_pipes : gmap Channel Pipe;
  fb_next : Channel;
}.

Definition set_net (v : Fabric) (n : Network) : Fabric :=
  {| fb_net := n; fb_backlogs := fb_backlogs v; fb_pipes := fb_pipes v; fb_next := fb_next v |}.
Definition set_backlog (v : Fabric) (ch : Channel) (b : Backlog) : Fabric :=
  {| fb_net := fb_net v; fb_backlogs := <[ch := b]> (fb_backlogs v); fb_pipes := fb_pipes v;
     fb_next := fb_next v |}.
Definition on_pipe (v : Fabric) (ch : Channel) (f : Pipe → Pipe) : Fabric :=
  {| fb_net := fb_net v; fb_backlogs := fb_backlogs v; fb_pipes := alter f ch (fb_pipes v);
     fb_next := fb_next v |}.

Definition drop_sender (v : Fabric) (ch : option Channel) : Fabric :=
  match ch with Some ch => on_pipe v ch drop_tx | None => v end.
Definition drop_receiver (v : Fabric) (ch : option Channel) : Fabric :=
  match ch with Some ch => on_pipe v ch drop_rx | None => v end.

Definition drop_conn (v : Fabric) (c : TcpConn) : Fabric :=
  drop_sender (drop_receiver v (cn_rx c)) (cn_tx c).

(** The receiver of a listener goes, and what was queued with it. *)
Definition drop_backlog (v : Fabric) (ch : Channel) : Fabric :=
  match fb_backlogs v !! ch with
  | None => v
  | Some b =>
      foldl drop_conn
        (set_backlog v ch {| bl_cap := bl_cap b; bl_queue := []; bl_reserved := bl_reserved b;
                             bl_open := false |}) (bl_queue b)
  end.

(** [mpsc::channel], which panics on a capacity of zero: [None]. *)
Definition new_backlog (v : Fabric) (cap : Z) : option (Channel * Fabric) :=
  if cap =? 0 then None
  else Some (fb_next v,
             {| fb_net := fb_net v;
                fb_backlogs := <[fb_next v := {| bl_cap := cap; bl_queue := []; bl_reserved := 0;
                                                 bl_open := true |}]> (fb_backlogs v);
                fb_pipes := fb_pipes v; fb_next := S (fb_next v) |}).

(** [TcpConn::pair]: the local end, and the remote end.  The semaphore of a
    sending end comes with its stream. *)
Definition pair_conn (v : Fabric) (local remote : SocketAddr) : TcpConn * TcpConn * Fabric :=
  let there := fb_next v in
  let back := S (fb_next v) in
  ({| cn_local := local; cn_remote := remote; cn_rx := Some back; cn_tx := Some there |},
   {| cn_local := remote; cn_remote := local; cn_rx := Some there; cn_tx := Some back |},
   {| fb_net := fb_net v; fb_backlogs := fb_backlogs v;
      fb_pipes := <[there := new_pipe 0]> (<[back := new_pipe 0]> (fb_pipes v));
      fb_next := S (S (fb_next v)) |}).

(** ** Connecting *)

(** [ConnectingTcpSocket] with the address it will be given: what [connect]
    awaits; and [ConnectingTcpStream], what it yields. *)
Inductive ConnFuture :=
  | FutReal (addr : SocketAddr)
  | FutVirtual (tx : Channel).
Inductive ConnectingTcpStream :=
  | CsReal (s : RealStream)
  | CsVirtual (permit : Channel).

Definition refused : IoError := {| raw_os_error := None; kind := KConnectionRefused |}.

(** One poll of [ConnectingTcpSocket::connect]; [None]: not ready. *)
Definition poll_connect (os : TcpOs) (v : Fabric) (f : ConnFuture) :
    option (result ConnectingTcpStream IoError) * Fabric :=
  match f with
  | FutReal addr =>
      (match to_connect os addr with
       | Some (Ok s) => Some (Ok (CsReal s))
       | Some (Err e) => Some (Err e)
       | None => None
       end, v)
  | FutVirtual tx =>
      match fb_backlogs v !! tx with
      | None => (Some (Err refused), v)
      | Some b =>
          if negb (bl_open b) then (Some (Err refused), v)
          else if (Z.of_nat (length (bl_queue b)) + bl_reserved b <? bl_cap b) && to_turn os
          then (Some (Ok (CsVirtual tx)),
                set_backlog v tx {| bl_cap := bl_cap b; bl_queue := bl_queue b;
                                    bl_reserved := bl_reserved b + 1; bl_open := bl_open b |})
          else (None, v)
      end
  end.

(** [OwnedPermit::send]: into the queue, or nowhere when the listener is gone. *)
Definition permit_send (v : Fabric) (tx : Channel) (c : TcpConn) : Fabric :=
  match fb_backlogs v !! tx with
  | None => drop_conn v c
  | Some b =>
      let v' q := set_backlog v tx {| bl_cap := bl_cap b; bl_queue := q;
                                      bl_reserved := bl_reserved b - 1; bl_open := bl_open b |} in
      if bl_open b then v' (bl_queue b ++ [c]) else drop_conn (v' (bl_queue b)) c
  end.

Definition drop_permit (v : Fabric) (tx : Channel) : Fabric :=
  match fb_backlogs v !! tx with
  | None => v
  | Some b => set_backlog v tx {| bl_cap := bl_cap b; bl_queue := bl_queue b;
                                  bl_reserved := bl_reserved b - 1; bl_open := bl_open b |}
  end.

Definition drop_connecting (v : Fabric) (r : result ConnectingTcpStream IoError) : Fabric :=
  match r with Ok (CsVirtual tx) => drop_permit v tx | _ => v end.

(** ** The real half *)

Inductive NetTcpState :=
  | TDefault
  | TBindStarted
  | TBound
  | TListenStarted
  | TListening (pending_accept : option (result RealStream IoError))
  | TConnecting (future : option ConnFuture)
  | TConnectReady (r : result ConnectingTcpStream IoError)
  | TConnected (s : RealStream)
  | TP2Streaming (s : RealStream)
  | TClosed.

Record NetworkTcpSocket := {
  nt_state : NetTcpState;
  nt_backlog : Z;
  nt_family : SocketAddressFamily;
  nt_send_taken : bool;
  nt_receive_taken : bool;
  nt_slot : option ConnectionSlot;
}.

Definition DEFAULT_TCP_BACKLOG : Z := 128.

Definition from_state (st : NetTcpState) (family : SocketAddressFamily) : NetworkTcpSocket :=
  {| nt_state := st; nt_backlog := DEFAULT_TCP_BACKLOG; nt_family := family;
     nt_send_taken := false; nt_receive_taken := false; nt_slot := None |}.

Definition nt_set_state (s : NetworkTcpSocket) (st : NetTcpState) : NetworkTcpSocket :=
  {| nt_state := st; nt_backlog := nt_backlog s; nt_family := nt_family s;
     nt_send_taken := nt_send_taken s; nt_receive_taken := nt_receive_taken s;
     nt_slot := nt_slot s |}.
Definition nt_set_slot (s : NetworkTcpSocket) (c : option ConnectionSlot) : NetworkTcpSocket :=
  {| nt_state := nt_state s; nt_backlog := nt_backlog s; nt_family := nt_family s;
     nt_send_taken := nt_send_taken s; nt_receive_taken := nt_receive_taken s; nt_slot := c |}.
Definition nt_set_backlog (s : NetworkTcpSocket) (n : Z) : NetworkTcpSocket :=
  {| nt_state := nt_state s; nt_backlog := n; nt_family := nt_family s;
     nt_send_taken := nt_send_taken s; nt_receive_taken := nt_receive_taken s;
     nt_slot := nt_slot s |}.

Definition nt_new (os : TcpOs) (uses : AllowedNetworkUses) (family : SocketAddressFamily) :
    result NetworkTcpSocket ErrorCode :=
  match check_allowed_tcp uses with
  | Err e => Err (from_io_error e)
  | Ok _ => match to_open os with
            | Err e => Err (from_io_error e)
            | Ok _ => Ok (from_state TDefault family)
            end
  end.

(** Linux reports the pending errors of the new socket from [accept].  [ENETRESET]
    and [EPROTO] are 102 and 71 there. *)
Definition accept_error (e : IoError) : IoError :=
  match raw_os_error e with
  | Some (CONNRESET | HOSTUNREACH | HOSTDOWN | NETDOWN | NETUNREACH | NOPROTOOPT | NONET
         | OPNOTSUPP | OtherErrno 102 | OtherErrno 71) =>
      {| raw_os_error := Some CONNABORTED; kind := KConnectionAborted |}
  | _ => e
  end.

Definition new_accept (r : result RealStream IoError) (family : SocketAddressFamily) :
    result NetworkTcpSocket IoError :=
  match r with
  | Err e => Err (accept_error e)
  | Ok s => Ok (from_state (TConnected s) family)
  end.

(** p3's deferred accept error: a closed socket. *)
Definition new_error (family : SocketAddressFamily) : NetworkTcpSocket := from_state TClosed family.

(** [as_std_view]: whether there is a kernel socket to ask. *)
Definition has_view (s : NetworkTcpSocket) : bool :=
  match nt_state s with
  | TConnecting _ | TConnectReady _ | TClosed => false
  | _ => true
  end.

Definition nt_start_bind (os : TcpOs) (s : NetworkTcpSocket) (addr : SocketAddr) :
    result NetworkTcpSocket ErrorCode :=
  match nt_state s with
  | TDefault => match to_bind os addr with
                | Ok _ => Ok (nt_set_state s TBindStarted)
                | Err e => Err (tcp_bind_error e)
                end
  | _ => Err InvalidState
  end.

Definition nt_finish_bind (s : NetworkTcpSocket) : result NetworkTcpSocket ErrorCode :=
  match nt_state s with
  | TBindStarted => Ok (nt_set_state s TBound)
  | _ => Err NotInProgress
  end.

Definition nt_set_pending_connect (s : NetworkTcpSocket) (f : ConnFuture) :
    result NetworkTcpSocket ErrorCode :=
  match nt_state s with
  | TConnecting None => Ok (nt_set_state s (TConnecting (Some f)))
  | _ => Err InvalidState
  end.

Definition nt_take_pending_connect (os : TcpOs) (s : NetworkTcpSocket) (v : Fabric) :
    result (option (result ConnectingTcpStream IoError)) ErrorCode * NetworkTcpSocket * Fabric :=
  match nt_state s with
  | TConnectReady r => (Ok (Some r), nt_set_state s (TConnecting None), v)
  | TConnecting (Some f) =>
      match poll_connect os v f with
      | (Some r, v) => (Ok (Some r), nt_set_state s (TConnecting None), v)
      | (None, v) => (Ok None, s, v)
      end
  | _ => (Err NotInProgress, s, v)
  end.

(** A result of the other kind is dropped, its reservation with it. *)
Definition nt_finish_connect (s : NetworkTcpSocket) (r : result ConnectingTcpStream IoError)
    (v : Fabric) : result unit ErrorCode * NetworkTcpSocket * Fabric :=
  match nt_state s with
  | TConnecting None =>
      match r with
      | Ok (CsReal st) => (Ok tt, nt_set_state s (TConnected st), v)
      | Ok (CsVirtual _) => (Err InvalidState, s, drop_connecting v r)
      | Err e => (Err (from_io_error e), nt_set_state s TClosed, v)
      end
  | _ => (Err InvalidState, s, drop_connecting v r)
  end.

(** The slot, too, is let go of. *)
Definition nt_cancel_connect (s : NetworkTcpSocket) : NetworkTcpSocket :=
  match nt_state s with
  | TConnecting _ => nt_set_slot (nt_set_state s TClosed) None
  | _ => s
  end.

Definition nt_start_listen (s : NetworkTcpSocket) : result NetworkTcpSocket ErrorCode :=
  match nt_state s with
  | TBound => Ok (nt_set_state s TListenStarted)
  | _ => Err InvalidState
  end.

Definition nt_finish_listen (os : TcpOs) (s : NetworkTcpSocket) :
    result unit ErrorCode * NetworkTcpSocket :=
  match nt_state s with
  | TListenStarted =>
      match to_listen os (nt_backlog s) with
      | Ok _ => (Ok tt, nt_set_state s (TListening None))
      | Err e => (Err (from_io_error e), nt_set_state s TClosed)
      end
  | _ => (Err NotInProgress, s)
  end.

Definition nt_accept (os : TcpOs) (s : NetworkTcpSocket) :
    result (option NetworkTcpSocket) ErrorCode * NetworkTcpSocket :=
  let accepted r := match new_accept r (nt_family s) with
                    | Ok n => Ok (Some n)
                    | Err e => Err (from_io_error e)
                    end in
  match nt_state s with
  | TListening (Some r) => (accepted r, nt_set_state s (TListening None))
  | TListening None =>
      match to_accept os with
      | Some r => (accepted r, s)
      | None => (Ok None, s)
      end
  | _ => (Err InvalidState, s)
  end.

Definition io_result {A} (r : result A IoError) : result A ErrorCode :=
  match r with Ok a => Ok a | Err e => Err (from_io_error e) end.
Definition errno_result {A} (r : result A Errno) : result A ErrorCode :=
  match r with Ok a => Ok a | Err e => Err (from_errno e) end.

Definition nt_local_address (os : TcpOs) (s : NetworkTcpSocket) : result SocketAddr ErrorCode :=
  match nt_state s with
  | TBound | TConnected _ | TP2Streaming _ | TListening _ => io_result (to_local_addr os)
  | _ => Err InvalidState
  end.

Definition tcp_stream_arc (s : NetworkTcpSocket) : result RealStream ErrorCode :=
  match nt_state s with
  | TConnected st | TP2Streaming st => Ok st
  | _ => Err InvalidState
  end.

Definition nt_remote_address (os : TcpOs) (s : NetworkTcpSocket) : result SocketAddr ErrorCode :=
  (let? st := tcp_stream_arc s in io_result (to_peer_addr os st))%rust.

Definition nt_is_listening (s : NetworkTcpSocket) : bool :=
  match nt_state s with TListening _ => true | _ => false end.

Definition MAX_BACKLOG : Z := i32_MAX.

Definition nt_set_listen_backlog_size (os : TcpOs) (s : NetworkTcpSocket) (value : Z) :
    result NetworkTcpSocket ErrorCode :=
  if value =? 0 then Err InvalidArgument
  else
    let value := clamp (if value <=? 4294967295 then value else MAX_BACKLOG) 1 MAX_BACKLOG in
    match nt_state s with
    | TDefault | TBound => Ok (nt_set_backlog s value)
    | TListening _ => match to_relisten os value with
                      | Ok _ => Ok (nt_set_backlog s value)
                      | Err _ => Err NotSupported
                      end
    | _ => Err InvalidState
    end.

(** Options read and written through the kernel socket, when there is one. *)
Definition viewed {A} (s : NetworkTcpSocket) (r : result A ErrorCode) : result A ErrorCode :=
  if has_view s then r else Err InvalidState.

(** [as_nanos().try_into().unwrap_or(u64::MAX)]. *)
Definition nanos_u64 (d : Z) : Z := if d <=? u64_MAX then d else u64_MAX.

Definition nt_keep_alive_enabled os s := viewed s (errno_result (to_keepalive os)).
Definition nt_set_keep_alive_enabled os s (value : bool) :=
  viewed s (errno_result (to_set_keepalive os value)).
Definition nt_keep_alive_idle_time os s : result Z ErrorCode :=
  viewed s (let? d := errno_result (to_keepidle os) in Ok (nanos_u64 d))%rust.
Definition nt_set_keep_alive_idle_time os s (value : Z) : result unit ErrorCode :=
  viewed s (let? _ := set_keep_alive_idle_time (to_set_keepidle os) value in Ok tt)%rust.
Definition nt_keep_alive_interval os s : result Z ErrorCode :=
  viewed s (let? d := errno_result (to_keepintvl os) in Ok (nanos_u64 d))%rust.
Definition nt_set_keep_alive_interval os s (value : Z) :=
  viewed s (set_keep_alive_interval (to_set_keepintvl os) value).
Definition nt_keep_alive_count os s := viewed s (errno_result (to_keepcnt os)).
Definition nt_set_keep_alive_count os s (value : Z) :=
  viewed s (set_keep_alive_count (to_set_keepcnt os) value).
Definition nt_hop_limit os s := viewed s (get_unicast_hop_limit (to_hop_limit os) (nt_family s)).
Definition nt_set_hop_limit os s (value : Z) :=
  viewed s (set_unicast_hop_limit (to_set_hop_limit os) value).
Definition nt_receive_buffer_size os s := viewed s (receive_buffer_size (to_recv_buffer os)).
Definition nt_set_receive_buffer_size os s (value : Z) : result unit ErrorCode :=
  viewed s (let? _ := set_receive_buffer_size (to_set_recv_buffer os) value in Ok tt)%rust.
Definition nt_send_buffer_size os s := viewed s (send_buffer_size (to_send_buffer os)).
Definition nt_set_send_buffer_size os s (value : Z) : result unit ErrorCode :=
  viewed s (let? _ := set_send_buffer_size (to_set_send_buffer os) value in Ok tt)%rust.

Definition nt_is_bound (s : NetworkTcpSocket) : bool :=
  match nt_state s with TBound => true | _ => false end.

Definition nt_is_unbound (s : NetworkTcpSocket) : bool :=
  match nt_state s with TDefault => true | _ => false end.

(** A failed implicit bind leaves the socket closed. *)
Definition nt_listen_p3 (os : TcpOs) (s : NetworkTcpSocket) :
    result unit ErrorCode * NetworkTcpSocket :=
  let listen :=
    match to_listen os (nt_backlog s) with
    | Ok _ => (Ok tt, nt_set_state s (TListening None))
    | Err e => (Err (from_io_error e), nt_set_state s TClosed)
    end in
  match nt_state s with
  | TBound => listen
  | TDefault => match to_bind os (implicit_bind_addr (nt_family s)) with
                | Ok _ => listen
                | Err e => (Err (tcp_bind_error e), nt_set_state s TClosed)
                end
  | _ => (Err InvalidState, s)
  end.

Definition tcp_listener_arc (s : NetworkTcpSocket) : result unit ErrorCode :=
  if nt_is_listening s then Ok tt else Err InvalidState.

Definition nt_take_send_stream (s : NetworkTcpSocket) :
    result (RealStream * NetworkTcpSocket) ErrorCode :=
  if nt_send_taken s then Err InvalidState
  else match nt_state s with
       | TConnected st =>
           Ok (st, {| nt_state := nt_state s; nt_backlog := nt_backlog s;
                      nt_family := nt_family s; nt_send_taken := true;
                      nt_receive_taken := nt_receive_taken s; nt_slot := nt_slot s |})
       | _ => Err InvalidState
       end.

Definition nt_take_receive_stream (s : NetworkTcpSocket) :
    result (RealStream * NetworkTcpSocket) ErrorCode :=
  if nt_receive_taken s then Err InvalidState
  else match nt_state s with
       | TConnected st =>
           Ok (st, {| nt_state := nt_state s; nt_backlog := nt_backlog s;
                      nt_family := nt_family s; nt_send_taken := nt_send_taken s;
                      nt_receive_taken := true; nt_slot := nt_slot s |})
       | _ => Err InvalidState
       end.

Definition set_p2_streaming_state (s : NetworkTcpSocket) : result NetworkTcpSocket ErrorCode :=
  match nt_state s with
  | TConnected st => Ok (nt_set_state s (TP2Streaming st))
  | _ => Err InvalidState
  end.

(** [ready]; [None]: still waiting. *)
Definition nt_ready (os : TcpOs) (s : NetworkTcpSocket) (v : Fabric) :
    option (NetworkTcpSocket * Fabric) :=
  match nt_state s with
  | TConnecting (Some f) =>
      match poll_connect os v f with
      | (Some r, v) => Some (nt_set_state s (TConnectReady r), v)
      | (None, _) => None
      end
  | TListening None =>
      match to_accept os with
      | Some r => Some (nt_set_state s (TListening (Some r)), v)
      | None => None
      end
  | _ => Some (s, v)
  end.

(** ** The virtual half *)

Inductive LoTcpState :=
  | LtBindStarted (local : SocketAddr)
  | LtBound (local : SocketAddr)
  | LtListenStarted (local : SocketAddr) (rx : option Channel)
  | LtListening (local : SocketAddr) (rx : option Channel) (pending : option TcpConn)
  | LtConnecting (local remote : SocketAddr) (future : option ConnFuture)
  | LtConnectReady (local remote : SocketAddr) (r : result ConnectingTcpStream IoError)
  | LtConnected (conn : TcpConn) (accepted : bool)
  | LtP2Streaming (local remote : SocketAddr) (accepted : bool) (rx tx : option Channel)
  | LtClosed.

(** [rx] of a listener is [None] once p3 has taken the channel and left one that
    nobody sends to. *)
Record LoTcpSocket := {
  lt_state : LoTcpState;
  lt_backlog : Z;
  lt_keep_alive_enabled : bool;
  lt_keep_alive_idle_time : Z;
  lt_keep_alive_interval : Z;
  lt_keep_alive_count : Z;
  lt_hop_limit : Z;
  lt_receive_buffer_size : Z;
  lt_send_buffer_size : Z;
  lt_family : SocketAddressFamily;
}.

Definition TCP_MAX_SEND_BUFFER_SIZE : Z := 1048576.
Definition MAX_LISTEN_BACKLOG_SIZE : Z := 4096.

Definition lt_set_state (s : LoTcpSocket) (st : LoTcpState) : LoTcpSocket :=
  {| lt_state := st; lt_backlog := lt_backlog s;
     lt_keep_alive_enabled := lt_keep_alive_enabled s;
     lt_keep_alive_idle_time := lt_keep_alive_idle_time s;
     lt_keep_alive_interval := lt_keep_alive_interval s;
     lt_keep_alive_count := lt_keep_alive_count s; lt_hop_limit := lt_hop_limit s;
     lt_receive_buffer_size := lt_receive_buffer_size s;
     lt_send_buffer_size := lt_send_buffer_size s; lt_family := lt_family s |}.

(** The options are read off the kernel socket. *)
Definition lt_new (os : TcpOs) (s : NetworkTcpSocket) (st : LoTcpState) :
    result LoTcpSocket ErrorCode :=
  viewed s
    (let? ka := errno_result (to_keepalive os) in
     let? idle := errno_result (to_keepidle os) in
     let? intvl := errno_result (to_keepintvl os) in
     let? cnt := errno_result (to_keepcnt os) in
     let? hop := get_unicast_hop_limit (to_hop_limit os) (nt_family s) in
     let? recv := receive_buffer_size (to_recv_buffer os) in
     let? send := send_buffer_size (to_send_buffer os) in
     Ok {| lt_state := st; lt_backlog := Z.min (nt_backlog s) MAX_LISTEN_BACKLOG_SIZE;
           lt_keep_alive_enabled := ka; lt_keep_alive_idle_time := nanos_u64 idle;
           lt_keep_alive_interval := nanos_u64 intvl; lt_keep_alive_count := cnt;
           lt_hop_limit := hop; lt_receive_buffer_size := recv;
           lt_send_buffer_size :=
             Z.min (if send <=? 4294967295 then send else TCP_MAX_SEND_BUFFER_SIZE)
               TCP_MAX_SEND_BUFFER_SIZE;
           lt_family := nt_family s |})%rust.

Definition lt_finish_bind (s : LoTcpSocket) : result LoTcpSocket ErrorCode :=
  match lt_state s with
  | LtBindStarted a => Ok (lt_set_state s (LtBound a))
  | _ => Err NotInProgress
  end.

Definition lt_start_connect (s : LoTcpSocket) (addr : SocketAddr) (n : Network) :
    result (Channel * LoTcpSocket) ErrorCode :=
  match lt_state s with
  | LtBound local =>
      (let? tx := connect_tcp n addr in Ok (tx, lt_set_state s (LtConnecting local addr None)))%rust
  | _ => Err InvalidState
  end.

Definition lt_set_pending_connect (s : LoTcpSocket) (f : ConnFuture) :
    result LoTcpSocket ErrorCode :=
  match lt_state s with
  | LtConnecting local remote None => Ok (lt_set_state s (LtConnecting local remote (Some f)))
  | _ => Err InvalidState
  end.

Definition lt_take_pending_connect (os : TcpOs) (s : LoTcpSocket) (v : Fabric) :
    result (option (result ConnectingTcpStream IoError)) ErrorCode * LoTcpSocket * Fabric :=
  match lt_state s with
  | LtConnectReady local remote r =>
      (Ok (Some r), lt_set_state s (LtConnecting local remote None), v)
  | LtConnecting local remote (Some f) =>
      match poll_connect os v f with
      | (Some r, v) => (Ok (Some r), lt_set_state s (LtConnecting local remote None), v)
      | (None, v) => (Ok None, s, v)
      end
  | _ => (Err NotInProgress, s, v)
  end.

Definition remove_tcp (n : Network) (local : SocketAddr) : Network :=
  set_tcp_net n (sock_ip local) (delete (sock_port local) (get_tcp_net n (sock_ip local))).

(** A failed connect gives the port up; [HashMap::remove] happens before what it
    removed is looked at. *)
Definition lt_finish_connect (s : LoTcpSocket) (r : result ConnectingTcpStream IoError)
    (v : Fabric) : result unit ErrorCode * LoTcpSocket * Fabric :=
  match lt_state s with
  | LtConnecting local remote None =>
      match r with
      | Ok (CsReal _) => (Err InvalidState, s, v)
      | Ok (CsVirtual tx) =>
          let '(clt, srv, v) := pair_conn v local remote in
          (Ok tt, lt_set_state s (LtConnected clt false), permit_send v tx srv)
      | Err e =>
          let s := lt_set_state s LtClosed in
          if sock_port local =? 0 then (Err InvalidState, s, v)
          else
            (match get_tcp_net (fb_net v) (sock_ip local) !! sock_port local with
             | Some EpBound => Err (from_io_error e)
             | _ => Err InvalidState
             end, s, set_net v (remove_tcp (fb_net v) local))
      end
  | _ => (Err InvalidState, s, drop_connecting v r)
  end.

(** What a state owns besides its port. *)
Definition drop_state (v : Fabric) (st : LoTcpState) : Fabric :=
  match st with
  | LtListenStarted _ (Some rx) => drop_backlog v rx
  | LtListening _ rx pending =>
      let v := match rx with Some rx => drop_backlog v rx | None => v end in
      match pending with Some c => drop_conn v c | None => v end
  | LtConnectReady _ _ r => drop_connecting v r
  | LtConnected c _ => drop_conn v c
  | LtP2Streaming _ _ _ rx tx => drop_sender (drop_receiver v rx) tx
  | _ => v
  end.

(** Whatever the state, the socket ends closed. *)
Definition lt_cancel_connect (s : LoTcpSocket) (v : Fabric) : LoTcpSocket * Fabric :=
  let v := drop_state v (lt_state s) in
  (lt_set_state s LtClosed,
   match lt_state s with
   | LtConnecting local _ _ =>
       if sock_port local =? 0 then v
       else match get_tcp_net (fb_net v) (sock_ip local) !! sock_port local with
            | Some EpBound => set_net v (remove_tcp (fb_net v) local)
            | _ => v
            end
   | _ => v
   end).

(** [None]: [mpsc::channel] panics. *)
Definition lt_start_listen (s : LoTcpSocket) (v : Fabric) :
    option (result unit ErrorCode * LoTcpSocket * Fabric) :=
  match lt_state s with
  | LtBound local =>
      if sock_port local =? 0 then Some (Err InvalidArgument, s, v)
      else match get_tcp_net (fb_net v) (sock_ip local) !! sock_port local with
      | Some EpBound =>
          '(ch, v) ← new_backlog v (Z.min (lt_backlog s) MAX_LISTEN_BACKLOG_SIZE);
          Some (Ok tt, lt_set_state s (LtListenStarted local (Some ch)),
                set_net v (set_tcp_net (fb_net v) (sock_ip local)
                  (<[sock_port local := EpListening ch]> (get_tcp_net (fb_net v) (sock_ip local)))))
      | _ => Some (Err InvalidState, s, v)
      end
  | _ => Some (Err InvalidState, s, v)
  end.

Definition lt_finish_listen (s : LoTcpSocket) : result LoTcpSocket ErrorCode :=
  match lt_state s with
  | LtListenStarted local (Some rx) => Ok (lt_set_state s (LtListening local (Some rx) None))
  | LtListenStarted _ None => Err InvalidState
  | _ => Err NotInProgress
  end.

(** The next queued connection; [None]: the channel is empty. *)
Definition pop_backlog (v : Fabric) (ch : Channel) : option TcpConn * Fabric :=
  match fb_backlogs v !! ch with
  | Some b =>
      match bl_queue b with
      | c :: q => (Some c, set_backlog v ch {| bl_cap := bl_cap b; bl_queue := q;
                                               bl_reserved := bl_reserved b;
                                               bl_open := bl_open b |})
      | [] => (None, v)
      end
  | None => (None, v)
  end.

(** Whether an endpoint still has the sending half. *)
Definition listener_registered (n : Network) (local : SocketAddr) (ch : Channel) : bool :=
  match get_tcp_net n (sock_ip local) !! sock_port local with
  | Some (EpListening tx) => bool_decide (tx = ch)
  | _ => false
  end.

Definition accepted_lo (s : LoTcpSocket) (c : TcpConn) : LoTcpSocket :=
  lt_set_state s (LtConnected c true).

(** A connection made to another address than the listener's is an error. *)
Definition judge_conn (s : LoTcpSocket) (local : SocketAddr) (c : TcpConn) (v : Fabric) :
    result (option LoTcpSocket) ErrorCode * LoTcpSocket * Fabric :=
  if bool_decide (cn_local c = local) then (Ok (Some (accepted_lo s c)), s, v)
  else (Err Unknown, s, drop_conn v c).

Definition lt_accept (s : LoTcpSocket) (v : Fabric) :
    result (option LoTcpSocket) ErrorCode * LoTcpSocket * Fabric :=
  match lt_state s with
  | LtListening local rx pending =>
      match pending with
      | Some c => judge_conn (lt_set_state s (LtListening local rx None)) local c v
      | None =>
          match rx with
          | None => (Err ConnectionReset, s, v)
          | Some rx =>
              match pop_backlog v rx with
              | (Some c, v) => judge_conn s local c v
              | (None, v) => (if listener_registered (fb_net v) local rx then Ok None
                              else Err ConnectionReset, s, v)
              end
          end
      end
  | _ => (Err InvalidState, s, v)
  end.

Definition lt_local_address (s : LoTcpSocket) : result SocketAddr ErrorCode :=
  match lt_state s with
  | LtBound local | LtListening local _ _ | LtP2Streaming local _ _ _ _ => Ok local
  | LtConnected c _ => Ok (cn_local c)
  | _ => Err InvalidState
  end.

Definition lt_remote_address (s : LoTcpSocket) : result SocketAddr ErrorCode :=
  match lt_state s with
  | LtConnected c _ => Ok (cn_remote c)
  | LtP2Streaming _ remote _ _ _ => Ok remote
  | _ => Err InvalidState
  end.

Definition lt_is_listening (s : LoTcpSocket) : bool :=
  match lt_state s with LtListening _ _ _ => true | _ => false end.

(** Zero is accepted here, unlike for the real half. *)
Definition lt_set_listen_backlog_size (s : LoTcpSocket) (value : Z) :
    result LoTcpSocket ErrorCode :=
  match lt_state s with
  | LtBound _ =>
      Ok {| lt_state := lt_state s;
            lt_backlog := if value <=? 4294967295 then value else 4294967295;
            lt_keep_alive_enabled := lt_keep_alive_enabled s;
            lt_keep_alive_idle_time := lt_keep_alive_idle_time s;
            lt_keep_alive_interval := lt_keep_alive_interval s;
            lt_keep_alive_count := lt_keep_alive_count s; lt_hop_limit := lt_hop_limit s;
            lt_receive_buffer_size := lt_receive_buffer_size s;
            lt_send_buffer_size := lt_send_buffer_size s; lt_family := lt_family s |}
  | LtListening _ _ _ => Err NotSupported
  | _ => Err InvalidState
  end.

(** The options besides the state, the backlog and the family. *)
Record LoOptions := {
  op_enabled : bool; op_idle : Z; op_interval : Z; op_count : Z; op_hop : Z; op_recv : Z;
  op_send : Z;
}.

Definition lt_options (s : LoTcpSocket) : LoOptions :=
  {| op_enabled := lt_keep_alive_enabled s; op_idle := lt_keep_alive_idle_time s;
     op_interval := lt_keep_alive_interval s; op_count := lt_keep_alive_count s;
     op_hop := lt_hop_limit s; op_recv := lt_receive_buffer_size s;
     op_send := lt_send_buffer_size s |}.
Definition lt_with_options (s : LoTcpSocket) (o : LoOptions) : LoTcpSocket :=
  {| lt_state := lt_state s; lt_backlog := lt_backlog s; lt_keep_alive_enabled := op_enabled o;
     lt_keep_alive_idle_time := op_idle o; lt_keep_alive_interval := op_interval o;
     lt_keep_alive_count := op_count o; lt_hop_limit := op_hop o;
     lt_receive_buffer_size := op_recv o; lt_send_buffer_size := op_send o;
     lt_family := lt_family s |}.

Definition lt_set_keep_alive_enabled (s : LoTcpSocket) (v : bool) : LoTcpSocket :=
  let o := lt_options s in
  lt_with_options s {| op_enabled := v; op_idle := op_idle o; op_interval := op_interval o;
    op_count := op_count o; op_hop := op_hop o; op_recv := op_recv o; op_send := op_send o |}.

Definition nonzero_option (value : Z) (s : LoTcpSocket) : result LoTcpSocket ErrorCode :=
  if value =? 0 then Err InvalidArgument else Ok s.

Definition lt_set_keep_alive_idle_time (s : LoTcpSocket) (v : Z) : result LoTcpSocket ErrorCode :=
  let o := lt_options s in
  nonzero_option v (lt_with_options s {| op_enabled := op_enabled o; op_idle := v;
    op_interval := op_interval o; op_count := op_count o; op_hop := op_hop o;
    op_recv := op_recv o; op_send := op_send o |}).
Definition lt_set_keep_alive_interval (s : LoTcpSocket) (v : Z) : result LoTcpSocket ErrorCode :=
  let o := lt_options s in
  nonzero_option v (lt_with_options s {| op_enabled := op_enabled o; op_idle := op_idle o;
    op_interval := v; op_count := op_count o; op_hop := op_hop o;
    op_recv := op_recv o; op_send := op_send o |}).
Definition lt_set_keep_alive_count (s : LoTcpSocket) (v : Z) : result LoTcpSocket ErrorCode :=
  let o := lt_options s in
  nonzero_option v (lt_with_options s {| op_enabled := op_enabled o; op_idle := op_idle o;
    op_interval := op_interval o; op_count := v; op_hop := op_hop o;
    op_recv := op_recv o; op_send := op_send o |}).
Definition lt_set_hop_limit (s : LoTcpSocket) (v : Z) : result LoTcpSocket ErrorCode :=
  let o := lt_options s in
  nonzero_option v (lt_with_options s {| op_enabled := op_enabled o; op_idle := op_idle o;
    op_interval := op_interval o; op_count := op_count o; op_hop := v;
    op_recv := op_recv o; op_send := op_send o |}).
Definition lt_set_receive_buffer_size (s : LoTcpSocket) (v : Z) : result LoTcpSocket ErrorCode :=
  let o := lt_options s in
  nonzero_option v (lt_with_options s {| op_enabled := op_enabled o; op_idle := op_idle o;
    op_interval := op_interval o; op_count := op_count o; op_hop := op_hop o;
    op_recv := v; op_send := op_send o |}).

Definition lt_with_send (s : LoTcpSocket) (v : Z) : LoTcpSocket :=
  let o := lt_options s in
  lt_with_options s {| op_enabled := op_enabled o; op_idle := op_idle o;
    op_interval := op_interval o; op_count := op_count o; op_hop := op_hop o;
    op_recv := op_recv o; op_send := v |}.

(** [u32] arithmetic; [forget_permits] removes up to [n] permits and says how many.
    The semaphore is the one of the sending pipe. *)
Definition lt_set_send_buffer_size (s : LoTcpSocket) (v : Z) (fb : Fabric) :
    result unit ErrorCode * LoTcpSocket * Fabric :=
  if v =? 0 then (Err InvalidArgument, s, fb)
  else
    let v := Z.min (if v <=? 4294967295 then v else TCP_MAX_SEND_BUFFER_SIZE)
               TCP_MAX_SEND_BUFFER_SIZE in
    match lt_state s with
    | LtP2Streaming _ _ _ _ (Some tx) =>
        let available := match fb_pipes fb !! tx with Some p => pp_permits p | None => 0 end in
        let surplus := Z.max 0 (lt_send_buffer_size s - v) in
        if 0 <? surplus then
          let reduced := Z.min surplus available in
          let fb := on_pipe fb tx (λ p, pipe_permits p (available - reduced)) in
          let leaked := Z.max 0 (surplus - reduced) in
          if v + leaked <=? 4294967295 then (Ok tt, lt_with_send s (v + leaked), fb)
          else (Err Unknown, s, fb)
        else (Ok tt, lt_with_send s v,
              on_pipe fb tx (λ p, pipe_permits p (available
                                    + Z.max 0 (v - lt_send_buffer_size s))))
    | _ => (Ok tt, lt_with_send s v, fb)
    end.

Definition lt_ready (os : TcpOs) (s : LoTcpSocket) (v : Fabric) :
    option (LoTcpSocket * Fabric) :=
  match lt_state s with
  | LtConnecting local remote (Some f) =>
      match poll_connect os v f with
      | (Some r, v) => Some (lt_set_state s (LtConnectReady local remote r), v)
      | (None, _) => None
      end
  | LtListening local (Some rx) None =>
      match pop_backlog v rx with
      | (Some c, v) => Some (lt_set_state s (LtListening local (Some rx) (Some c)), v)
      | (None, v) => if listener_registered (fb_net v) local rx then None else Some (s, v)
      end
  | _ => Some (s, v)
  end.

(** The port a socket holds in the network; an accepted connection holds its
    listener's. *)
Definition owned (s : LoTcpSocket) : option SocketAddr :=
  match lt_state s with
  | LtBindStarted local | LtBound local | LtListenStarted local _ | LtListening local _ _
  | LtConnecting local _ _ | LtConnectReady local _ _ | LtP2Streaming local _ false _ _ =>
      Some local
  | LtConnected c false => Some (cn_local c)
  | LtConnected _ true | LtP2Streaming _ _ true _ _ | LtClosed => None
  end.

(** [None]: a socket whose local port is zero traps. *)
Definition lt_drop (s : LoTcpSocket) (v : Fabric) : option Fabric :=
  let v := drop_state v (lt_state s) in
  match owned s with
  | None => Some v
  | Some local => if sock_port local =? 0 then None
                  else Some (set_net v (remove_tcp (fb_net v) local))
  end.

(** p3: the listener's channel leaves the socket. *)
Definition take_listen_info (s : LoTcpSocket) :
    result (option Channel * LoTcpSocket) ErrorCode :=
  match lt_state s with
  | LtListening local rx pending => Ok (rx, lt_set_state s (LtListening local None pending))
  | _ => Err InvalidState
  end.

(** ** The socket a guest holds *)

Inductive TcpSocket :=
  | TNetwork (net : NetworkTcpSocket)
  | TLoopback (lo : LoTcpSocket)
  | TUnspecified (net : NetworkTcpSocket) (lo : LoTcpSocket).

(** Registering the virtual endpoint, then reading the options. *)
Definition bind_virtual_tcp (os : TcpOs) (s : NetworkTcpSocket) (addr : SocketAddr) (n : Network) :
    result LoTcpSocket ErrorCode * Network :=
  match bind_tcp n addr with
  | Err e => (Err e, n)
  | Ok (addr, n) => (lt_new os s (LtBindStarted addr), n)
  end.

(** An unspecified address becomes loopback for the kernel as well.  On the
    loopback path the state of the real half is not looked at. *)
Definition tcp_start_bind (os : TcpOs) (t : TcpSocket) (addr : SocketAddr) (n : Network) :
    result unit ErrorCode * TcpSocket * Network :=
  match t with
  | TNetwork s =>
      if negb (is_valid_unicast_address (sock_ip addr))
         || negb (is_valid_address_family (sock_ip addr) (nt_family s))
      then (Err InvalidArgument, t, n)
      else
        let ip := to_canonical (sock_ip addr) in
        if is_loopback ip then
          match bind_virtual_tcp os s addr n with
          | (Ok lo, n) => (Ok tt, TLoopback lo, n)
          | (Err e, n) => (Err e, t, n)
          end
        else
          let addr := if is_unspecified ip then set_loopback_ip addr else addr in
          match nt_start_bind os s addr with
          | Err e => (Err e, t, n)
          | Ok s =>
              if negb (is_unspecified ip) then (Ok tt, TNetwork s, n)
              else match to_local_addr os with
              | Err e => (Err (from_io_error e), TNetwork s, n)
              | Ok local =>
                  match bind_virtual_tcp os s (set_loopback_ip local) n with
                  | (Err e, n) => (Err e, TNetwork s, n)
                  | (Ok lo, n) =>
                      (Ok tt,
                       TUnspecified {| nt_state := nt_state s; nt_backlog := nt_backlog s;
                                       nt_family := nt_family s; nt_send_taken := false;
                                       nt_receive_taken := false; nt_slot := nt_slot s |} lo, n)
                  end
              end
          end
  | _ => (Err InvalidState, t, n)
  end.

Definition tcp_finish_bind (t : TcpSocket) : result unit ErrorCode * TcpSocket :=
  match t with
  | TNetwork s => match nt_finish_bind s with
                  | Ok s => (Ok tt, TNetwork s)
                  | Err e => (Err e, t)
                  end
  | TLoopback s => match lt_finish_bind s with
                   | Ok s => (Ok tt, TLoopback s)
                   | Err e => (Err e, t)
                   end
  | TUnspecified net lo =>
      match nt_finish_bind net with
      | Err e => (Err e, t)
      | Ok net => match lt_finish_bind lo with
                  | Ok lo => (Ok tt, TUnspecified net lo)
                  | Err e => (Err e, TUnspecified net lo)
                  end
      end
  end.

Definition valid_destination (addr : SocketAddr) (family : SocketAddressFamily) : bool :=
  is_valid_unicast_address (sock_ip addr) && is_valid_remote_address addr
  && is_valid_address_family (sock_ip addr) family.

(** The checks [start_connect] makes of each half before it moves anything. *)
Definition net_connectable (s : NetworkTcpSocket) (addr : SocketAddr) : result unit ErrorCode :=
  match nt_state s with
  | TDefault | TBound =>
      if valid_destination addr (nt_family s) then Ok tt else Err InvalidArgument
  | TConnecting _ => Err ConcurrencyConflict
  | _ => Err InvalidState
  end.
Definition lo_connectable (s : LoTcpSocket) (addr : SocketAddr) : result unit ErrorCode :=
  match lt_state s with
  | LtBound _ => if valid_destination addr (lt_family s) then Ok tt else Err InvalidArgument
  | LtConnecting _ _ _ => Err ConcurrencyConflict
  | _ => Err InvalidState
  end.
Definition connectable (t : TcpSocket) (addr : SocketAddr) : result unit ErrorCode :=
  match t with
  | TNetwork s => net_connectable s addr
  | TLoopback s => lo_connectable s addr
  | TUnspecified net lo => (let? _ := net_connectable net addr in lo_connectable lo addr)%rust
  end.

(** An unbound real socket takes an ephemeral virtual port before it looks for the
    listener; when either later step fails the port is not given back. *)
Definition connect_unbound_virtual (os : TcpOs) (s : NetworkTcpSocket) (addr : SocketAddr)
    (n : Network) : result ConnFuture ErrorCode * TcpSocket * Network :=
  if nt_is_bound s then (Err InvalidState, TNetwork s, n)
  else match bind_tcp n (sock_set_port addr 0) with
  | Err e => (Err e, TNetwork s, n)
  | Ok (local, n) =>
      match connect_tcp n addr with
      | Err e => (Err e, TNetwork s, n)
      | Ok tx =>
          match lt_new os s (LtConnecting local addr None) with
          | Ok lo => (Ok (FutVirtual tx), TLoopback lo, n)
          | Err e => (Err e, TNetwork s, n)
          end
      end
  end.

(** A socket with both halves keeps one; the other is dropped. *)
Definition tcp_start_connect (os : TcpOs) (t : TcpSocket) (addr : SocketAddr) (plane : Plane)
    (n : Network) : result ConnFuture ErrorCode * TcpSocket * Network :=
  match connectable t addr with
  | Err e => (Err e, t, n)
  | Ok _ =>
      match t, bool_decide (plane = Virtual) with
      | (TNetwork s | TUnspecified s _), false =>
          (Ok (FutReal addr), TNetwork (nt_set_state s (TConnecting None)), n)
      | TNetwork s, true => connect_unbound_virtual os s addr n
      | TLoopback s, _ =>
          match lt_start_connect s addr n with
          | Ok (tx, s) => (Ok (FutVirtual tx), TLoopback s, n)
          | Err e => (Err e, t, n)
          end
      | TUnspecified net lo, true =>
          match lt_start_connect lo addr n with
          | Ok (tx, lo) => (Ok (FutVirtual tx), TLoopback lo, n)
          | Err e => (Err e, t, n)
          end
      end
  end.

Definition tcp_hold_quota_slot (t : TcpSocket) (slot : option ConnectionSlot) : TcpSocket :=
  match t, slot with
  | TNetwork s, Some _ => TNetwork (nt_set_slot s slot)
  | _, _ => t
  end.

Definition tcp_set_pending_connect (t : TcpSocket) (f : ConnFuture) :
    result TcpSocket ErrorCode :=
  match t with
  | TNetwork s => (let? s := nt_set_pending_connect s f in Ok (TNetwork s))%rust
  | TLoopback s => (let? s := lt_set_pending_connect s f in Ok (TLoopback s))%rust
  | TUnspecified _ _ => Err InvalidState
  end.

Definition tcp_take_pending_connect (os : TcpOs) (t : TcpSocket) (v : Fabric) :
    result (option (result ConnectingTcpStream IoError)) ErrorCode * TcpSocket * Fabric :=
  match t with
  | TNetwork s => let '(r, s, v) := nt_take_pending_connect os s v in (r, TNetwork s, v)
  | TLoopback s => let '(r, s, v) := lt_take_pending_connect os s v in (r, TLoopback s, v)
  | TUnspecified _ _ => (Err InvalidState, t, v)
  end.

Definition tcp_finish_connect (t : TcpSocket) (r : result ConnectingTcpStream IoError)
    (v : Fabric) : result unit ErrorCode * TcpSocket * Fabric :=
  match t with
  | TNetwork s => let '(r, s, v) := nt_finish_connect s r v in (r, TNetwork s, v)
  | TLoopback s => let '(r, s, v) := lt_finish_connect s r v in (r, TLoopback s, v)
  | TUnspecified _ _ => (Err InvalidState, t, drop_connecting v r)
  end.

Definition tcp_cancel_connect (t : TcpSocket) (v : Fabric) : TcpSocket * Fabric :=
  match t with
  | TNetwork s => (TNetwork (nt_cancel_connect s), v)
  | TLoopback s => let '(s, v) := lt_cancel_connect s v in (TLoopback s, v)
  | TUnspecified _ _ => (t, v)
  end.

Definition tcp_start_listen (t : TcpSocket) (v : Fabric) :
    option (result unit ErrorCode * TcpSocket * Fabric) :=
  match t with
  | TNetwork s => Some (match nt_start_listen s with
                        | Ok s => (Ok tt, TNetwork s, v)
                        | Err e => (Err e, t, v)
                        end)
  | TLoopback s => '(r, s, v) ← lt_start_listen s v; Some (r, TLoopback s, v)
  | TUnspecified net lo =>
      match nt_start_listen net with
      | Err e => Some (Err e, t, v)
      | Ok net => '(r, lo, v) ← lt_start_listen lo v; Some (r, TUnspecified net lo, v)
      end
  end.

Definition tcp_finish_listen (os : TcpOs) (t : TcpSocket) : result unit ErrorCode * TcpSocket :=
  let finish_lo lo rebuild := match lt_finish_listen lo with
                              | Ok lo => (Ok tt, rebuild lo)
                              | Err e => (Err e, rebuild lo)
                              end in
  match t with
  | TNetwork s => let '(r, s) := nt_finish_listen os s in (r, TNetwork s)
  | TLoopback s => finish_lo s TLoopback
  | TUnspecified net lo =>
      match nt_finish_listen os net with
      | (Err e, net) => (Err e, TUnspecified net lo)
      | (Ok _, net) => finish_lo lo (TUnspecified net)
      end
  end.

(** The real half first. *)
Definition tcp_accept (os : TcpOs) (t : TcpSocket) (v : Fabric) :
    result (option TcpSocket) ErrorCode * TcpSocket * Fabric :=
  let real r := match r with Ok (Some s) => Ok (Some (TNetwork s)) | Ok None => Ok None
                | Err e => Err e end in
  let virt r := match r with Ok (Some s) => Ok (Some (TLoopback s)) | Ok None => Ok None
                | Err e => Err e end in
  match t with
  | TNetwork s => let '(r, s) := nt_accept os s in (real r, TNetwork s, v)
  | TLoopback s => let '(r, s, v) := lt_accept s v in (virt r, TLoopback s, v)
  | TUnspecified net lo =>
      match nt_accept os net with
      | (Ok None, net) =>
          let '(r, lo, v) := lt_accept lo v in (virt r, TUnspecified net lo, v)
      | (r, net) => (real r, TUnspecified net lo, v)
      end
  end.

Definition tcp_local_address (os : TcpOs) (t : TcpSocket) : result SocketAddr ErrorCode :=
  match t with
  | TNetwork s | TUnspecified s _ => nt_local_address os s
  | TLoopback s => lt_local_address s
  end.
Definition tcp_remote_address (os : TcpOs) (t : TcpSocket) : result SocketAddr ErrorCode :=
  match t with
  | TNetwork s | TUnspecified s _ => nt_remote_address os s
  | TLoopback s => lt_remote_address s
  end.
Definition tcp_is_listening (t : TcpSocket) : bool :=
  match t with
  | TNetwork s => nt_is_listening s
  | TLoopback s => lt_is_listening s
  | TUnspecified net lo => nt_is_listening net && lt_is_listening lo
  end.
Definition tcp_family (t : TcpSocket) : SocketAddressFamily :=
  match t with
  | TNetwork s | TUnspecified s _ => nt_family s
  | TLoopback s => lt_family s
  end.

Definition tcp_set_listen_backlog_size (os : TcpOs) (t : TcpSocket) (value : Z) :
    result unit ErrorCode * TcpSocket :=
  let set_lo lo rebuild := match lt_set_listen_backlog_size lo value with
                           | Ok lo => (Ok tt, rebuild lo)
                           | Err e => (Err e, rebuild lo)
                           end in
  match t with
  | TNetwork s => match nt_set_listen_backlog_size os s value with
                  | Ok s => (Ok tt, TNetwork s)
                  | Err e => (Err e, t)
                  end
  | TLoopback s => set_lo s TLoopback
  | TUnspecified net lo => match nt_set_listen_backlog_size os net value with
                           | Ok net => set_lo lo (TUnspecified net)
                           | Err e => (Err e, t)
                           end
  end.

(** The real half answers for a socket that has one; both halves are set, the
    real one first. *)
Definition tcp_get {A} (real : NetworkTcpSocket → result A ErrorCode) (virt : LoTcpSocket → A)
    (t : TcpSocket) : result A ErrorCode :=
  match t with
  | TNetwork s | TUnspecified s _ => real s
  | TLoopback lo => Ok (virt lo)
  end.
Definition tcp_set (real : NetworkTcpSocket → result unit ErrorCode)
    (virt : LoTcpSocket → result LoTcpSocket ErrorCode) (t : TcpSocket) :
    result unit ErrorCode * TcpSocket :=
  match t with
  | TNetwork s => (real s, t)
  | TLoopback lo => match virt lo with
                    | Ok lo => (Ok tt, TLoopback lo)
                    | Err e => (Err e, t)
                    end
  | TUnspecified net lo =>
      match real net with
      | Err e => (Err e, t)
      | Ok _ => match virt lo with
                | Ok lo => (Ok tt, TUnspecified net lo)
                | Err e => (Err e, t)
                end
      end
  end.

Definition tcp_keep_alive_enabled os := tcp_get (nt_keep_alive_enabled os) lt_keep_alive_enabled.
Definition tcp_set_keep_alive_enabled os value :=
  tcp_set (λ s, nt_set_keep_alive_enabled os s value)
    (λ lo, Ok (lt_set_keep_alive_enabled lo value)).
Definition tcp_keep_alive_idle_time os :=
  tcp_get (nt_keep_alive_idle_time os) lt_keep_alive_idle_time.
Definition tcp_set_keep_alive_idle_time os value :=
  tcp_set (λ s, nt_set_keep_alive_idle_time os s value)
    (λ lo, lt_set_keep_alive_idle_time lo value).
Definition tcp_keep_alive_interval os :=
  tcp_get (nt_keep_alive_interval os) lt_keep_alive_interval.
Definition tcp_set_keep_alive_interval os value :=
  tcp_set (λ s, nt_set_keep_alive_interval os s value)
    (λ lo, lt_set_keep_alive_interval lo value).
Definition tcp_keep_alive_count os := tcp_get (nt_keep_alive_count os) lt_keep_alive_count.
Definition tcp_set_keep_alive_count os value :=
  tcp_set (λ s, nt_set_keep_alive_count os s value) (λ lo, lt_set_keep_alive_count lo value).
Definition tcp_hop_limit os := tcp_get (nt_hop_limit os) lt_hop_limit.
Definition tcp_set_hop_limit os value :=
  tcp_set (λ s, nt_set_hop_limit os s value) (λ lo, lt_set_hop_limit lo value).
Definition tcp_receive_buffer_size os :=
  tcp_get (nt_receive_buffer_size os) lt_receive_buffer_size.
Definition tcp_set_receive_buffer_size os value :=
  tcp_set (λ s, nt_set_receive_buffer_size os s value)
    (λ lo, lt_set_receive_buffer_size lo value).
Definition tcp_send_buffer_size os := tcp_get (nt_send_buffer_size os) lt_send_buffer_size.
Definition tcp_set_send_buffer_size (os : TcpOs) (value : Z) (t : TcpSocket) (v : Fabric) :
    result unit ErrorCode * TcpSocket * Fabric :=
  match t with
  | TNetwork s => (nt_set_send_buffer_size os s value, t, v)
  | TLoopback lo => let '(r, lo, v) := lt_set_send_buffer_size lo value v in (r, TLoopback lo, v)
  | TUnspecified net lo =>
      match nt_set_send_buffer_size os net value with
      | Err e => (Err e, t, v)
      | Ok _ => let '(r, lo, v) := lt_set_send_buffer_size lo value v in
                (r, TUnspecified net lo, v)
      end
  end.

(** ** p3 streams and listening *)

Definition tcp_needs_implicit_bind (t : TcpSocket) : bool :=
  match t with TNetwork s => nt_is_unbound s | _ => false end.

Definition lt_listen_p3 (lo : LoTcpSocket) (v : Fabric) :
    option (result unit ErrorCode * LoTcpSocket * Fabric) :=
  '(r, lo, v) ← lt_start_listen lo v;
  Some (match r with
        | Err e => (Err e, lo, v)
        | Ok _ => match lt_finish_listen lo with
                  | Ok lo => (Ok tt, lo, v)
                  | Err e => (Err e, lo, v)
                  end
        end).

Definition tcp_listen_p3 (os : TcpOs) (t : TcpSocket) (v : Fabric) :
    option (result unit ErrorCode * TcpSocket * Fabric) :=
  match t with
  | TNetwork s => let '(r, s) := nt_listen_p3 os s in Some (r, TNetwork s, v)
  | TLoopback lo => '(r, lo, v) ← lt_listen_p3 lo v; Some (r, TLoopback lo, v)
  | TUnspecified net lo =>
      match nt_listen_p3 os net with
      | (Err e, net) => Some (Err e, TUnspecified net lo, v)
      | (Ok _, net) => '(r, lo, v) ← lt_listen_p3 lo v; Some (r, TUnspecified net lo, v)
      end
  end.

Definition take_loopback_listen_rx (t : TcpSocket) :
    result (option Channel * TcpSocket) ErrorCode :=
  match t with
  | TNetwork _ => Err InvalidState
  | TLoopback lo => (let? (rx, lo) := take_listen_info lo in Ok (rx, TLoopback lo))%rust
  | TUnspecified net lo =>
      (let? (rx, lo) := take_listen_info lo in Ok (rx, TUnspecified net lo))%rust
  end.

(** The kernel stream, or the pipe. *)
Inductive StreamEnd := RealEnd (s : RealStream) | VirtualEnd (ch : Channel).

(** The semaphore of the sending pipe is made here, the size of the buffer. *)
Definition take_send_stream (t : TcpSocket) (v : Fabric) :
    result StreamEnd ErrorCode * TcpSocket * Fabric :=
  match t with
  | TNetwork s => match nt_take_send_stream s with
                  | Ok (st, s) => (Ok (RealEnd st), TNetwork s, v)
                  | Err e => (Err e, t, v)
                  end
  | TLoopback lo =>
      match lt_state lo with
      | LtConnected c acc =>
          match cn_tx c with
          | Some tx =>
              (Ok (VirtualEnd tx),
               TLoopback (lt_set_state lo (LtConnected
                 {| cn_local := cn_local c; cn_remote := cn_remote c; cn_rx := cn_rx c;
                    cn_tx := None |} acc)),
               on_pipe v tx (λ p, pipe_permits p (lt_send_buffer_size lo)))
          | None => (Err InvalidState, t, v)
          end
      | _ => (Err InvalidState, t, v)
      end
  | TUnspecified _ _ => (Err InvalidState, t, v)
  end.

Definition take_receive_stream (t : TcpSocket) : result (StreamEnd * TcpSocket) ErrorCode :=
  match t with
  | TNetwork s => (let? (st, s) := nt_take_receive_stream s in Ok (RealEnd st, TNetwork s))%rust
  | TLoopback lo =>
      match lt_state lo with
      | LtConnected c acc =>
          match cn_rx c with
          | Some rx =>
              Ok (VirtualEnd rx,
                  TLoopback (lt_set_state lo (LtConnected
                    {| cn_local := cn_local c; cn_remote := cn_remote c; cn_rx := None;
                       cn_tx := cn_tx c |} acc)))
          | None => Err InvalidState
          end
      | _ => Err InvalidState
      end
  | TUnspecified _ _ => Err InvalidState
  end.

(** ** p2 streams *)

(** One more than the buffer, up to the maximum, so that [check-write] offers more
    than the buffer holds. *)
Definition p2_permits (lo : LoTcpSocket) : Z :=
  Z.min (Z.min (lt_send_buffer_size lo + 1) 4294967295) TCP_MAX_SEND_BUFFER_SIZE.

Definition p2_streams (t : TcpSocket) (v : Fabric) : result TcpSocket ErrorCode * Fabric :=
  match t with
  | TNetwork s =>
      ((let? _ := tcp_stream_arc s in
        let? s := set_p2_streaming_state s in Ok (TNetwork s))%rust, v)
  | TLoopback lo =>
      match lt_state lo with
      | LtConnected c acc =>
          (Ok (TLoopback (lt_set_state lo
                 (LtP2Streaming (cn_local c) (cn_remote c) acc (cn_rx c) (cn_tx c)))),
           match cn_tx c with
           | Some tx => on_pipe v tx (λ p, pipe_permits p (p2_permits lo))
           | None => v
           end)
      | _ => (Err InvalidState, v)
      end
  | TUnspecified _ _ => (Err InvalidState, v)
  end.

Inductive ShutdownType := ShutReceive | ShutSend | ShutBoth.

(** [shutdown] of a virtual connection; a real one shuts the reader and the writer
    of [TcpStreams]. *)
Definition lt_shutdown (lo : LoTcpSocket) (how : ShutdownType) (v : Fabric) :
    result unit ErrorCode * Fabric :=
  match lt_state lo with
  | LtP2Streaming _ _ _ rx tx =>
      (Ok tt, match how with
              | ShutReceive => drop_receiver v rx
              | ShutSend => drop_sender v tx
              | ShutBoth => drop_receiver (drop_sender v tx) rx
              end)
  | _ => (Err InvalidState, v)
  end.

(** ** Waiting and dropping *)

(** The virtual half is asked only when the real one is not ready. *)
Definition tcp_ready (os : TcpOs) (t : TcpSocket) (v : Fabric) : option (TcpSocket * Fabric) :=
  match t with
  | TNetwork s => '(s, v) ← nt_ready os s v; Some (TNetwork s, v)
  | TLoopback lo => '(lo, v) ← lt_ready os lo v; Some (TLoopback lo, v)
  | TUnspecified net lo =>
      match nt_ready os net v with
      | Some (net, v) => Some (TUnspecified net lo, v)
      | None => '(lo, v) ← lt_ready os lo v; Some (TUnspecified net lo, v)
      end
  end.

Definition drop_net_state (v : Fabric) (s : NetworkTcpSocket) : Fabric :=
  match nt_state s with TConnectReady r => drop_connecting v r | _ => v end.

Definition tcp_drop (t : TcpSocket) (v : Fabric) : option Fabric :=
  match t with
  | TNetwork s => Some (drop_net_state v s)
  | TLoopback lo => lt_drop lo v
  | TUnspecified net lo => lt_drop lo (drop_net_state v net)
  end.

(** [refuse] drops a connection without telling the network. *)
Definition tcp_refuse (t : TcpSocket) (v : Fabric) : Fabric :=
  match t with
  | TNetwork s => drop_net_state v s
  | TLoopback lo => drop_state v (lt_state lo)
  | TUnspecified net lo => drop_state (drop_net_state v net) (lt_state lo)
  end.
