(* ===== verification/TcpPorts.v ===== *)
(** * The virtual ports of TCP sockets

    Lemmas on [TcpSocket]: which port a virtual half holds, that the network
    knows it through every operation, that dropping the socket gives it back,
    and that no operation touches a port another socket holds. *)

From Stdlib Require Import ZArith Lia.
From stdpp Require Import base list gmap strings option.
From S2P Require Import Prelude RustStr Net SocketUtil Quota LoopbackNet TcpStreams TcpSocket.
Local Open Scope Z_scope.

(** ** The network behind the fabric *)

Lemma fb_net_drop_conn v c : fb_net (drop_conn v c) = fb_net v.
Proof. by destruct c as [? ? [rx|] [tx|]]. Qed.

Lemma fb_net_drop_backlog v ch : fb_net (drop_backlog v ch) = fb_net v.
Proof.
  unfold drop_backlog. destruct (fb_backlogs v !! ch) as [b|]; [|done].
  assert (∀ l u, fb_net (foldl drop_conn u l) = fb_net u) as Hf.
  { induction l as [|c l IH]; intros u; simpl; [done|]. by rewrite IH, fb_net_drop_conn. }
  by rewrite Hf.
Qed.

Lemma fb_net_drop_permit v tx : fb_net (drop_permit v tx) = fb_net v.
Proof. unfold drop_permit. by destruct (fb_backlogs v !! tx). Qed.

Lemma fb_net_drop_connecting v r : fb_net (drop_connecting v r) = fb_net v.
Proof. destruct r as [[s|tx]|]; simpl; [done|apply fb_net_drop_permit|done]. Qed.

Lemma fb_net_poll os v f r v' : poll_connect os v f = (r, v') → fb_net v' = fb_net v.
Proof.
  unfold poll_connect. destruct f as [a|tx]; [by intros [= _ <-]|].
  destruct (fb_backlogs v !! tx); [|by intros [= _ <-]].
  destruct (negb _); [by intros [= _ <-]|]. by destruct (_ && _); intros [= _ <-].
Qed.

Lemma fb_net_permit_send v tx c : fb_net (permit_send v tx c) = fb_net v.
Proof.
  unfold permit_send. destruct (fb_backlogs v !! tx) as [b|]; [|apply fb_net_drop_conn].
  destruct (bl_open b); [done|]. by rewrite fb_net_drop_conn.
Qed.

Lemma fb_net_pop v rx c v' : pop_backlog v rx = (c, v') → fb_net v' = fb_net v.
Proof.
  unfold pop_backlog. destruct (fb_backlogs v !! rx) as [b|]; [|by intros [= _ <-]].
  by destruct (bl_queue b); intros [= _ <-].
Qed.

Lemma fb_net_drop_state v st : fb_net (drop_state v st) = fb_net v.
Proof.
  destruct st as [| |? [rx|]|? [rx|] [c|]| |? ? r|c ?|? ? ? [rx|] [tx|]|]; simpl;
    rewrite ?fb_net_drop_conn, ?fb_net_drop_backlog, ?fb_net_drop_connecting; done.
Qed.

Lemma fb_net_drop_net v s : fb_net (drop_net_state v s) = fb_net v.
Proof. unfold drop_net_state. destruct (nt_state s); try done. apply fb_net_drop_connecting. Qed.

Create Rewrite HintDb fabric.
#[global] Hint Rewrite fb_net_drop_conn fb_net_drop_backlog fb_net_drop_permit
  fb_net_drop_connecting fb_net_permit_send fb_net_drop_state fb_net_drop_net : fabric.

(** ** The port a socket holds *)

Definition endpoint (n : Network) (local : SocketAddr) : option TcpEndpoint :=
  get_tcp_net n (sock_ip local) !! sock_port local.

Definition listens (s : LoTcpSocket) : bool :=
  match lt_state s with LtListenStarted _ _ | LtListening _ _ _ => true | _ => false end.

(** The network knows the port, as a listener's exactly when the socket listens. *)
Definition lt_registered (n : Network) (s : LoTcpSocket) : Prop :=
  match owned s with
  | None => True
  | Some local =>
      1 ≤ sock_port local ≤ u16_MAX
      ∧ if listens s then ∃ ch, endpoint n local = Some (EpListening ch)
        else endpoint n local = Some EpBound
  end.

Definition tcp_registered (n : Network) (t : TcpSocket) : Prop :=
  match t with
  | TNetwork _ => True
  | TLoopback lo | TUnspecified _ lo => lt_registered n lo
  end.

(** A step that keeps the port and what it is for. *)
Lemma registered_same n n' s s' :
  owned s' = owned s → listens s' = listens s →
  (∀ l, owned s = Some l → endpoint n' l = endpoint n l) →
  lt_registered n s → lt_registered n' s'.
Proof.
  unfold lt_registered. intros -> -> He. destruct (owned s) as [l|]; [|done].
  by rewrite (He l eq_refl).
Qed.

Lemma registered_none n s : owned s = None → lt_registered n s.
Proof. unfold lt_registered. by intros ->. Qed.

Lemma get_set_tcp n ip m : get_tcp_net (set_tcp_net n ip m) ip = m.
Proof. by destruct ip. Qed.

Lemma bind_tcp_Ok n addr a' n' :
  0 ≤ sock_port addr ≤ u16_MAX → bind_tcp n addr = Ok (a', n') →
  sock_ip a' = sock_ip addr ∧ 1 ≤ sock_port a' ≤ u16_MAX
  ∧ endpoint n a' = None
  ∧ n' = set_tcp_net n (sock_ip addr)
           (<[sock_port a' := EpBound]> (get_tcp_net n (sock_ip addr))).
Proof.
  intros Hp. unfold bind_tcp, endpoint. destruct (bind _ _ _) as [[p net]|] eqn:E; [|done].
  intros [= <- <-]. destruct (bind_Ok _ _ _ _ _ Hp E) as (H1 & H2 & -> & _).
  by rewrite sock_set_port_ip, sock_set_port_port.
Qed.

Lemma bind_tcp_endpoint n addr a' n' :
  0 ≤ sock_port addr ≤ u16_MAX → bind_tcp n addr = Ok (a', n') →
  1 ≤ sock_port a' ≤ u16_MAX ∧ endpoint n' a' = Some EpBound.
Proof.
  intros Hp H. destruct (bind_tcp_Ok n addr a' n' Hp H) as (Hip & Hr & _ & ->).
  split; [done|]. unfold endpoint. by rewrite Hip, get_set_tcp, lookup_insert_eq.
Qed.

(** The state a real half may lend a virtual one. *)
Lemma lt_new_state os s st lo : lt_new os s st = Ok lo → lt_state lo = st.
Proof.
  unfold lt_new, viewed. destruct (has_view s); [|done].
  destruct (errno_result (to_keepalive os)); [|done].
  destruct (errno_result (to_keepidle os)); [|done].
  destruct (errno_result (to_keepintvl os)); [|done].
  destruct (errno_result (to_keepcnt os)); [|done].
  destruct (get_unicast_hop_limit _ _); [|done].
  destruct (receive_buffer_size _); [|done]. destruct (send_buffer_size _); [|done].
  by intros [= <-].
Qed.

(** The addresses the operating system reports carry 16-bit ports. *)
Definition tcp_os_ok (os : TcpOs) : Prop :=
  ∀ a, to_local_addr os = Ok a → 0 ≤ sock_port a ≤ u16_MAX.

Lemma bind_virtual_tcp_registered os s addr n lo n' :
  0 ≤ sock_port addr ≤ u16_MAX → bind_virtual_tcp os s addr n = (Ok lo, n') →
  lt_registered n' lo.
Proof.
  intros Hp. unfold bind_virtual_tcp. destruct (bind_tcp n addr) as [[a n1]|] eqn:E; [|done].
  intros [= Hl <-]. apply lt_new_state in Hl. unfold lt_registered, owned, listens. rewrite Hl.
  by apply (bind_tcp_endpoint n addr).
Qed.

Lemma start_bind_registered os t addr n r t' n' :
  tcp_os_ok os → 0 ≤ sock_port addr ≤ u16_MAX → tcp_registered n t →
  tcp_start_bind os t addr n = (r, t', n') → tcp_registered n' t'.
Proof.
  intros Hos Hp Ht. unfold tcp_start_bind. destruct t as [s|lo|s lo].
  2,3: by intros [= <- <- <-].
  destruct (_ || _); [by intros [= <- <- <-]|]. cbn zeta.
  destruct (is_loopback _).
  { destruct (bind_virtual_tcp os s addr n) as [[lo|e] n1] eqn:Eb; intros [= <- <- <-]; [|done].
    by eapply bind_virtual_tcp_registered. }
  destruct (nt_start_bind _ _ _) as [s1|e]; [|by intros [= <- <- <-]].
  destruct (negb _); [by intros [= <- <- <-]|].
  destruct (to_local_addr os) as [l|e] eqn:El; [|by intros [= <- <- <-]].
  destruct (bind_virtual_tcp _ _ _ _) as [[lo|e] n1] eqn:Eb; intros [= <- <- <-]; [|done].
  eapply bind_virtual_tcp_registered; [|done]. specialize (Hos l El). by destruct l.
Qed.

(** Case analysis on the state of a virtual half, with its equation pushed into
    the port it owns. *)
Ltac lo_cases s :=
  let E := fresh "Est" in
  unfold lt_registered, owned, listens in *; destruct (lt_state s) eqn:E; simpl in *.

Lemma finish_bind_tcp_registered n t r t' :
  tcp_registered n t → tcp_finish_bind t = (r, t') → tcp_registered n t'.
Proof.
  assert (∀ lo lo', lt_registered n lo → lt_finish_bind lo = Ok lo' → lt_registered n lo') as Hlo.
  { intros lo lo' Hr. unfold lt_finish_bind. lo_cases lo; try done. by intros [= <-]. }
  unfold tcp_finish_bind. destruct t as [s|lo|s lo]; simpl in *; intros Hr.
  - by destruct (nt_finish_bind s); intros [= <- <-].
  - destruct (lt_finish_bind lo) eqn:E; intros [= <- <-]; simpl; eauto.
  - destruct (nt_finish_bind s); [|by intros [= <- <-]].
    destruct (lt_finish_bind lo) eqn:E; intros [= <- <-]; simpl; eauto.
Qed.

Lemma lt_start_connect_Ok lo addr n tx lo' :
  lt_start_connect lo addr n = Ok (tx, lo') →
  ∃ local, lt_state lo = LtBound local ∧ lo' = lt_set_state lo (LtConnecting local addr None)
           ∧ connect_tcp n addr = Ok tx.
Proof.
  unfold lt_start_connect. destruct (lt_state lo); try done.
  destruct (connect_tcp n addr); [|done]. intros [= <- <-]. eauto.
Qed.

(** Taking one more port disturbs no other. *)
Lemma bind_tcp_other n addr a' n' l :
  0 ≤ sock_port addr ≤ u16_MAX → bind_tcp n addr = Ok (a', n') →
  endpoint n l ≠ None → endpoint n' l = endpoint n l.
Proof.
  intros Hp Hb Hl. destruct (bind_tcp_Ok n addr a' n' Hp Hb) as (Hip & _ & Hn & ->).
  unfold endpoint in *. rewrite <-Hip in *.
  destruct (sock_ip a') as [x|x], (sock_ip l) as [y|y]; simpl in *; try done;
    (destruct (decide (sock_port a' = sock_port l)) as [He|He];
      [congruence|by rewrite lookup_insert_ne]).
Qed.

Lemma start_connect_registered os t addr plane n r t' n' :
  tcp_registered n t → tcp_start_connect os t addr plane n = (r, t', n') → tcp_registered n' t'.
Proof.
  intros Ht. unfold tcp_start_connect. destruct (connectable t addr); [|by intros [= <- <- <-]].
  assert (∀ lo tx lo', lt_registered n lo → lt_start_connect lo addr n = Ok (tx, lo') →
            lt_registered n lo') as Hlo.
  { intros lo tx lo' Hr (local & El & -> & _)%lt_start_connect_Ok. revert Hr.
    unfold lt_registered, owned, listens. by rewrite El. }
  destruct t as [s|lo|s lo], (bool_decide (plane = Virtual)); simpl in *.
  - unfold connect_unbound_virtual. destruct (nt_is_bound s); [by intros [= <- <- <-]|].
    destruct (bind_tcp n _) as [[local n1]|] eqn:Eb; [|by intros [= <- <- <-]].
    destruct (connect_tcp n1 addr) as [tx|]; [|by intros [= <- <- <-]].
    destruct (lt_new _ _ _) as [lo|] eqn:El; [|by intros [= <- <- <-]]. intros [= <- <- <-].
    apply lt_new_state in El. simpl. unfold lt_registered, owned, listens. rewrite El.
    eapply bind_tcp_endpoint; [|exact Eb]. rewrite sock_set_port_port. unfold u16_MAX. lia.
  - by intros [= <- <- <-].
  - destruct (lt_start_connect lo addr n) as [[tx lo']|] eqn:E; intros [= <- <- <-]; simpl; eauto.
  - destruct (lt_start_connect lo addr n) as [[tx lo']|] eqn:E; intros [= <- <- <-]; simpl; eauto.
  - destruct (lt_start_connect lo addr n) as [[tx lo']|] eqn:E; intros [= <- <- <-]; simpl; eauto.
  - by intros [= <- <- <-].
Qed.

Lemma set_pending_registered n t f t' :
  tcp_registered n t → tcp_set_pending_connect t f = Ok t' → tcp_registered n t'.
Proof.
  intros Ht. unfold tcp_set_pending_connect. destruct t as [s|lo|s lo]; simpl in *; [| |done].
  - destruct (nt_set_pending_connect s f); [|done]. by intros [= <-].
  - unfold lt_set_pending_connect. lo_cases lo; try done. destruct future; [done|].
    by intros [= <-].
Qed.

Lemma take_pending_registered os t v r t' v' :
  tcp_registered (fb_net v) t → tcp_take_pending_connect os t v = (r, t', v') →
  tcp_registered (fb_net v') t'.
Proof.
  intros Ht. unfold tcp_take_pending_connect. destruct t as [s|lo|s lo]; simpl in *.
  - destruct (nt_take_pending_connect os s v) as [[r1 s1] v1]. by intros [= <- <- <-].
  - unfold lt_take_pending_connect. destruct (lt_state lo) eqn:E; try (by intros [= <- <- <-]).
    + destruct future as [f|]; [|by intros [= <- <- <-]].
      destruct (poll_connect os v f) as [[r1|] v1] eqn:Ep; apply fb_net_poll in Ep;
        intros [= <- <- <-]; simpl; rewrite Ep.
      * revert Ht. by apply registered_same; unfold owned, listens; rewrite ?E.
      * done.
    + intros [= <- <- <-]. simpl. revert Ht. by apply registered_same; unfold owned, listens; rewrite ?E.
  - by intros [= <- <- <-].
Qed.

(** A failed connect reports its own error, and its port is free again. *)
Lemma lt_finish_connect_spec lo res v r lo' v' :
  lt_registered (fb_net v) lo → lt_finish_connect lo res v = (r, lo', v') →
  lt_registered (fb_net v') lo'
  ∧ match lt_state lo, res with
    | LtConnecting local remote None, Err e =>
        r = Err (from_io_error e) ∧ lt_state lo' = LtClosed
        ∧ fb_net v' = remove_tcp (fb_net v) local
    | LtConnecting local remote None, Ok (CsVirtual tx) =>
        ∃ clt srv v1, pair_conn v local remote = (clt, srv, v1) ∧ r = Ok tt
          ∧ lt_state lo' = LtConnected clt false ∧ v' = permit_send v1 tx srv
    | _, _ => r = Err InvalidState ∧ lo' = lo
    end.
Proof.
  intros Hr. unfold lt_finish_connect.
  destruct (lt_state lo) as [| | | |local remote [f|]| | | |] eqn:E;
    try (intros [= <- <- <-]; rewrite fb_net_drop_connecting; by destruct res).
  destruct res as [[s|tx]|e].
  - by intros [= <- <- <-].
  - simpl. intros [= <- <- <-]. autorewrite with fabric. split; [|by eauto 10].
    revert Hr. by apply registered_same; unfold owned, listens; rewrite ?E.
  - unfold lt_registered, owned, listens in Hr. rewrite E in Hr. destruct Hr as [Hp He].
    rewrite (proj2 (Z.eqb_neq _ 0)) by lia. unfold endpoint in He. rewrite He.
    intros [= <- <- <-]. split; [by apply registered_none|done].
Qed.

Lemma finish_connect_registered t res v r t' v' :
  tcp_registered (fb_net v) t → tcp_finish_connect t res v = (r, t', v') →
  tcp_registered (fb_net v') t'.
Proof.
  intros Ht. unfold tcp_finish_connect. destruct t as [s|lo|s lo]; simpl in *.
  - destruct (nt_finish_connect s res v) as [[r1 s1] v1]. by intros [= <- <- <-].
  - destruct (lt_finish_connect lo res v) as [[r1 lo1] v1] eqn:E. intros [= <- <- <-]. simpl.
    by eapply lt_finish_connect_spec.
  - intros [= <- <- <-]. by rewrite fb_net_drop_connecting.
Qed.

Lemma cancel_connect_registered t v t' v' :
  tcp_registered (fb_net v) t → tcp_cancel_connect t v = (t', v') → tcp_registered (fb_net v') t'.
Proof.
  intros Ht. unfold tcp_cancel_connect. destruct t as [s|lo|s lo]; simpl in *.
  - by intros [= <- <-].
  - intros [= <- <-]. by apply registered_none.
  - by intros [= <- <-].
Qed.

(** Listening keeps the port and turns it into a listener's. *)
Lemma lt_start_listen_registered lo v r lo' v' :
  lt_registered (fb_net v) lo → lt_start_listen lo v = Some (r, lo', v') →
  lt_registered (fb_net v') lo'.
Proof.
  intros Hr. unfold lt_start_listen. destruct (lt_state lo) as [|local| | | | | | |] eqn:E;
    try (by intros [= <- <- <-]).
  destruct (sock_port local =? 0); [by intros [= <- <- <-]|].
  destruct (get_tcp_net _ _ !! _) as [[|tx]|]; try (by intros [= <- <- <-]).
  unfold new_backlog. destruct (_ =? 0); [done|]. simpl. intros [= <- <- <-]. simpl.
  revert Hr. unfold lt_registered, owned, listens. rewrite E. simpl. intros [Hp _].
  split; [done|]. eexists. unfold endpoint. by rewrite get_set_tcp, lookup_insert_eq.
Qed.

Lemma start_listen_registered t v r t' v' :
  tcp_registered (fb_net v) t → tcp_start_listen t v = Some (r, t', v') →
  tcp_registered (fb_net v') t'.
Proof.
  intros Ht. unfold tcp_start_listen. destruct t as [s|lo|s lo]; simpl in *.
  - by destruct (nt_start_listen s); intros [= <- <- <-].
  - destruct (lt_start_listen lo v) as [[[r1 lo1] v1]|] eqn:E; [|done]. intros [= <- <- <-].
    by eapply lt_start_listen_registered.
  - destruct (nt_start_listen s); [|by intros [= <- <- <-]].
    destruct (lt_start_listen lo v) as [[[r1 lo1] v1]|] eqn:E; [|done]. intros [= <- <- <-].
    by eapply lt_start_listen_registered.
Qed.

Lemma lt_finish_listen_registered n lo lo' :
  lt_registered n lo → lt_finish_listen lo = Ok lo' → lt_registered n lo'.
Proof.
  intros Hr. unfold lt_finish_listen. destruct (lt_state lo) as [| |l [rx|]| | | | | |] eqn:E;
    try done. intros [= <-]. revert Hr. by apply registered_same; unfold owned, listens; rewrite ?E.
Qed.

Lemma finish_listen_registered n os t r t' :
  tcp_registered n t → tcp_finish_listen os t = (r, t') → tcp_registered n t'.
Proof.
  intros Ht. unfold tcp_finish_listen. destruct t as [s|lo|s lo]; simpl in *.
  - destruct (nt_finish_listen os s). by intros [= <- <-].
  - destruct (lt_finish_listen lo) eqn:E; intros [= <- <-]; simpl;
      eauto using lt_finish_listen_registered.
  - destruct (nt_finish_listen os s) as [[?|?] s1]; [|by intros [= <- <-]].
    destruct (lt_finish_listen lo) eqn:E; intros [= <- <-]; simpl;
      eauto using lt_finish_listen_registered.
Qed.

Lemma listen_p3_registered os t v r t' v' :
  tcp_registered (fb_net v) t → tcp_listen_p3 os t v = Some (r, t', v') →
  tcp_registered (fb_net v') t'.
Proof.
  intros Ht. unfold tcp_listen_p3.
  assert (∀ lo lo', lt_registered (fb_net v) lo → lt_listen_p3 lo v = Some (r, lo', v') →
            lt_registered (fb_net v') lo') as Hlo.
  { intros lo lo' Hr. unfold lt_listen_p3.
    destruct (lt_start_listen lo v) as [[[r1 lo1] v1]|] eqn:E; [|done]. simpl.
    pose proof (lt_start_listen_registered _ _ _ _ _ Hr E) as Hs.
    destruct r1; [|by intros [= <- <- <-]].
    destruct (lt_finish_listen lo1) eqn:Ef; intros [= <- <- <-]; [|done].
    by eapply lt_finish_listen_registered. }
  destruct t as [s|lo|s lo]; simpl in *.
  - destruct (nt_listen_p3 os s). by intros [= <- <- <-].
  - destruct (lt_listen_p3 lo v) as [[[r1 lo1] v1]|] eqn:E; [|done]. intros [= <- <- <-]. simpl. eauto.
  - destruct (nt_listen_p3 os s) as [[?|?] s1]; [|by intros [= <- <- <-]].
    destruct (lt_listen_p3 lo v) as [[[r1 lo1] v1]|] eqn:E; [|done]. intros [= <- <- <-]. simpl. eauto.
Qed.

Lemma lt_accept_registered lo v r lo' v' :
  lt_registered (fb_net v) lo → lt_accept lo v = (r, lo', v') →
  fb_net v' = fb_net v ∧ lt_registered (fb_net v') lo'
  ∧ ∀ a, r = Ok (Some a) → ∃ c, a = accepted_lo lo' c
      ∧ lt_local_address lo' = Ok (cn_local c).
Proof.
  intros Hr. unfold lt_accept, judge_conn.
  destruct (lt_state lo) as [| | |local rx pending| | | | |] eqn:E; try (by intros [= <- <- <-]).
  assert (∀ l, lt_registered (fb_net v) (lt_set_state lo (LtListening local rx l))) as Hl.
  { intros l. revert Hr. by apply registered_same; unfold owned, listens; rewrite ?E. }
  destruct pending as [c|].
  - case_bool_decide; intros [= <- <- <-]; autorewrite with fabric;
      [|split; [done|]; split; [apply Hl|done]].
    split; [done|]. split; [apply Hl|]. intros a [= <-]. exists c. split; [done|].
    unfold lt_local_address. simpl. by subst.
  - destruct rx as [rx|]; [|by intros [= <- <- <-]].
    destruct (pop_backlog v rx) as [[c|] v1] eqn:Ep; apply fb_net_pop in Ep.
    + case_bool_decide; intros [= <- <- <-]; autorewrite with fabric; rewrite Ep;
        [|split; [done|]; by split].
      split; [done|]. split; [done|]. intros a [= <-]. exists c. split; [done|].
      unfold lt_local_address. rewrite E. by subst.
    + intros [= <- <- <-]. rewrite Ep. split; [done|]. split; [done|].
      by destruct (listener_registered _ _ _).
Qed.

(** Accepting changes no port, and hands out no socket that holds one. *)
Lemma accept_registered os t v r t' v' :
  tcp_registered (fb_net v) t → tcp_accept os t v = (r, t', v') →
  fb_net v' = fb_net v ∧ tcp_registered (fb_net v') t'
  ∧ ∀ a, r = Ok (Some a) → tcp_registered (fb_net v') a.
Proof.
  intros Ht. unfold tcp_accept. destruct t as [s|lo|s lo]; simpl in *.
  - destruct (nt_accept os s) as [[[a|]|e] s1]; intros [= <- <- <-]; try done.
    split; [done|]. split; [done|]. by intros b [= <-].
  - destruct (lt_accept lo v) as [[r1 lo1] v1] eqn:E.
    destruct (lt_accept_registered _ _ _ _ _ Ht E) as (Hn & Hr & Ha).
    intros [= <- <- <-]. split; [done|]. split; [done|]. intros a.
    destruct r1 as [[lo2|]|]; try done. intros [= <-].
    destruct (Ha lo2 eq_refl) as (c & -> & _). by apply registered_none.
  - destruct (nt_accept os s) as [[[a|]|e] s1].
    + intros [= <- <- <-]. split; [done|]. split; [done|]. by intros b [= <-].
    + destruct (lt_accept lo v) as [[r1 lo1] v1] eqn:E.
      destruct (lt_accept_registered _ _ _ _ _ Ht E) as (Hn & Hr & Ha).
      intros [= <- <- <-]. split; [done|]. split; [done|]. intros a.
      destruct r1 as [[lo2|]|]; try done. intros [= <-].
      destruct (Ha lo2 eq_refl) as (c & -> & _). by apply registered_none.
    + by intros [= <- <- <-].
Qed.

Lemma refuse_net t v : fb_net (tcp_refuse t v) = fb_net v.
Proof. destruct t; simpl; by autorewrite with fabric. Qed.

Lemma take_rx_registered n t rx t' :
  tcp_registered n t → take_loopback_listen_rx t = Ok (rx, t') → tcp_registered n t'.
Proof.
  assert (∀ lo rx lo', lt_registered n lo → take_listen_info lo = Ok (rx, lo') →
            lt_registered n lo') as Hlo.
  { intros lo rx' lo' Hr. unfold take_listen_info. destruct (lt_state lo) eqn:E; try done.
    intros [= <- <-]. revert Hr. by apply registered_same; unfold owned, listens; rewrite ?E. }
  intros Ht. unfold take_loopback_listen_rx. destruct t as [s|lo|s lo]; simpl in *; [done| |].
  all: destruct (take_listen_info lo) as [[rx' lo']|] eqn:E; [|done]; intros [= <- <-]; simpl; eauto.
Qed.

Lemma take_streams_registered t v r t' v' r2 t2 :
  tcp_registered (fb_net v) t →
  (take_send_stream t v = (r, t', v') → tcp_registered (fb_net v') t')
  ∧ (take_receive_stream t = Ok (r2, t2) → tcp_registered (fb_net v) t2).
Proof.
  intros Ht. unfold take_send_stream, take_receive_stream.
  destruct t as [s|lo|s lo]; simpl in *; [| |by split; [intros [= <- <- <-]|]].
  - split; [by destruct (nt_take_send_stream s) as [[? ?]|]; intros [= <- <- <-]|].
    destruct (nt_take_receive_stream s) as [[? ?]|]; [|done]. by intros [= <- <-].
  - destruct (lt_state lo) eqn:E; try (by split; [intros [= <- <- <-]|]).
    split.
    + destruct (cn_tx conn); intros [= <- <- <-]; [|done]. simpl.
      revert Ht. by apply registered_same; unfold owned, listens; rewrite ?E.
    + destruct (cn_rx conn); [|done]. intros [= <- <-]. simpl.
      revert Ht. by apply registered_same; unfold owned, listens; rewrite ?E.
Qed.

Lemma p2_streams_registered t v t' v' :
  tcp_registered (fb_net v) t → p2_streams t v = (Ok t', v') → tcp_registered (fb_net v') t'.
Proof.
  intros Ht. unfold p2_streams. destruct t as [s|lo|s lo]; simpl in *; [| |done].
  - destruct (tcp_stream_arc s); [|done]. destruct (set_p2_streaming_state s); [|done].
    by intros [= <- <-].
  - destruct (lt_state lo) eqn:E; try done. intros [= <- <-]. simpl.
    revert Ht. apply registered_same; unfold owned, listens; rewrite ?E; simpl.
    + by destruct accepted.
    + done.
    + by destruct (cn_tx conn).
Qed.

Lemma p2_streams_net t v r v' : p2_streams t v = (r, v') → fb_net v' = fb_net v.
Proof.
  unfold p2_streams. destruct t as [s|lo|s lo]; try (by intros [= _ <-]).
  destruct (lt_state lo); try (by intros [= _ <-]). intros [= _ <-]. by destruct (cn_tx conn).
Qed.

Lemma ready_registered os t v t' v' :
  tcp_registered (fb_net v) t → tcp_ready os t v = Some (t', v') → tcp_registered (fb_net v') t'.
Proof.
  intros Ht. unfold tcp_ready.
  assert (∀ s s1 v1, nt_ready os s v = Some (s1, v1) → fb_net v1 = fb_net v) as Hnet.
  { intros s s1 v1. unfold nt_ready. destruct (nt_state s) as [| | | |[|]|[f|]| | | |];
      try (by intros [= _ <-]).
    - by destruct (to_accept os); intros [= _ <-].
    - destruct (poll_connect os v f) as [[|] v2] eqn:E; [|done]. intros [= _ <-].
      by eapply fb_net_poll. }
  assert (∀ lo lo1 v1, lt_registered (fb_net v) lo → lt_ready os lo v = Some (lo1, v1) →
            lt_registered (fb_net v1) lo1) as Hlo.
  { intros lo lo1 v1 Hr. unfold lt_ready.
    destruct (lt_state lo) as [| | |l [rx|] [|]|l m [f|]| | | |] eqn:E; try (by intros [= <- <-]).
    - destruct (pop_backlog v rx) as [[c|] v2] eqn:Ep; apply fb_net_pop in Ep.
      + intros [= <- <-]. rewrite Ep.
        revert Hr. by apply registered_same; unfold owned, listens; rewrite ?E.
      + destruct (listener_registered _ _ _); [done|]. intros [= <- <-]. by rewrite Ep.
    - destruct (poll_connect os v f) as [[|] v2] eqn:Ep; [|done]. apply fb_net_poll in Ep.
      intros [= <- <-]. rewrite Ep.
      revert Hr. by apply registered_same; unfold owned, listens; rewrite ?E. }
  destruct t as [s|lo|s lo]; simpl in *.
  - destruct (nt_ready os s v) as [[s1 v1]|]; [|done]. by intros [= <- <-].
  - destruct (lt_ready os lo v) as [[lo1 v1]|] eqn:E; [|done]. intros [= <- <-]. simpl. eauto.
  - destruct (nt_ready os s v) as [[s1 v1]|] eqn:En.
    + intros [= <- <-]. simpl. by rewrite (Hnet _ _ _ En).
    + destruct (lt_ready os lo v) as [[lo1 v1]|] eqn:E; [|done]. intros [= <- <-]. simpl. eauto.
Qed.

(** Dropping a socket never traps, gives its virtual port back, and touches no
    other. *)
Lemma drop_registered t v :
  tcp_registered (fb_net v) t →
  ∃ v', tcp_drop t v = Some v'
  ∧ match t with
    | TNetwork _ => fb_net v' = fb_net v
    | TLoopback lo | TUnspecified _ lo =>
        fb_net v' = match owned lo with Some l => remove_tcp (fb_net v) l | None => fb_net v end
    end.
Proof.
  assert (∀ lo v, lt_registered (fb_net v) lo → ∃ v', lt_drop lo v = Some v'
    ∧ fb_net v' = match owned lo with Some l => remove_tcp (fb_net v) l | None => fb_net v end)
    as Hlo.
  { intros lo u Hr. unfold lt_drop, lt_registered in *. destruct (owned lo) as [l|].
    - rewrite (proj2 (Z.eqb_neq _ 0)) by lia. eexists. split; [done|]. simpl.
      by rewrite fb_net_drop_state.
    - eexists. split; [done|]. apply fb_net_drop_state. }
  intros Ht. destruct t as [s|lo|s lo]; simpl in *.
  - eexists. split; [done|]. by autorewrite with fabric.
  - by apply Hlo.
  - destruct (Hlo lo (drop_net_state v s)) as (v' & -> & Hn); [by autorewrite with fabric|].
    eexists. split; [done|]. revert Hn. by autorewrite with fabric.
Qed.

(** Options are no concern of the port's. *)
Lemma set_backlog_registered n os t value r t' :
  tcp_registered n t → tcp_set_listen_backlog_size os t value = (r, t') → tcp_registered n t'.
Proof.
  assert (∀ lo lo', lt_registered n lo → lt_set_listen_backlog_size lo value = Ok lo' →
            lt_registered n lo') as Hlo.
  { intros lo lo' Hr. unfold lt_set_listen_backlog_size. destruct (lt_state lo) eqn:E; try done.
    intros [= <-]. revert Hr. by apply registered_same; unfold owned, listens; rewrite ?E. }
  intros Ht. unfold tcp_set_listen_backlog_size. destruct t as [s|lo|s lo]; simpl in *.
  - by destruct (nt_set_listen_backlog_size os s value); intros [= <- <-].
  - destruct (lt_set_listen_backlog_size lo value) eqn:E; intros [= <- <-]; simpl; eauto.
  - destruct (nt_set_listen_backlog_size os s value); [|by intros [= <- <-]].
    destruct (lt_set_listen_backlog_size lo value) eqn:E; intros [= <- <-]; simpl; eauto.
Qed.

Lemma tcp_set_registered n real virt t r t' :
  (∀ lo lo', virt lo = Ok lo' → lt_state lo' = lt_state lo) →
  tcp_registered n t → tcp_set real virt t = (r, t') → tcp_registered n t'.
Proof.
  intros Hv.
  assert (∀ lo lo', lt_registered n lo → virt lo = Ok lo' → lt_registered n lo') as Hlo.
  { intros lo lo' Hr E. apply Hv in E. revert Hr.
    apply registered_same; unfold owned, listens; by rewrite ?E. }
  intros Ht. unfold tcp_set. destruct t as [s|lo|s lo]; simpl in *.
  - by intros [= <- <-].
  - destruct (virt lo) eqn:E; intros [= <- <-]; simpl; eauto.
  - destruct (real s); [|by intros [= <- <-]].
    destruct (virt lo) eqn:E; intros [= <- <-]; simpl; eauto.
Qed.

Lemma nonzero_option_state value s lo lo' :
  lt_state s = lt_state lo → nonzero_option value s = Ok lo' → lt_state lo' = lt_state lo.
Proof. unfold nonzero_option. destruct (value =? 0); [done|]. by intros <- [= <-]. Qed.

Lemma set_send_buffer_registered os value t v r t' v' :
  tcp_registered (fb_net v) t → tcp_set_send_buffer_size os value t v = (r, t', v') →
  tcp_registered (fb_net v') t'.
Proof.
  assert (∀ lo lo' v', lt_registered (fb_net v) lo →
            (lt_set_send_buffer_size lo value v).1.2 = lo' →
            (lt_set_send_buffer_size lo value v).2 = v' → lt_registered (fb_net v') lo') as Hlo.
  { intros lo lo' u Hr <- <-. unfold lt_set_send_buffer_size.
    destruct (value =? 0); [done|].
    destruct (lt_state lo) as [| | | | | | |l m b rx [tx|]|] eqn:E; simpl;
      [..|destruct (0 <? _); [destruct (_ <=? 4294967295)|]| |]; simpl;
      revert Hr; by apply registered_same; unfold owned, listens; simpl; rewrite ?E. }
  intros Ht. unfold tcp_set_send_buffer_size. destruct t as [s|lo|s lo]; simpl in *.
  - by intros [= <- <- <-].
  - destruct (lt_set_send_buffer_size lo value v) as [[r1 lo1] v1] eqn:E. intros [= <- <- <-].
    simpl. by apply (Hlo lo); rewrite ?E.
  - destruct (nt_set_send_buffer_size os s value); [|by intros [= <- <- <-]].
    destruct (lt_set_send_buffer_size lo value v) as [[r1 lo1] v1] eqn:E. intros [= <- <- <-].
    simpl. by apply (Hlo lo); rewrite ?E.
Qed.

(** ** The ports of other sockets *)

Definition tcp_owned (t : TcpSocket) : option SocketAddr :=
  match t with TNetwork _ => None | TLoopback lo | TUnspecified _ lo => owned lo end.

(** Two addresses under one key of the virtual network. *)
Definition same_port (a b : SocketAddr) : bool :=
  match sock_ip a, sock_ip b with
  | V4 _, V4 _ | V6 _, V6 _ => sock_port a =? sock_port b
  | _, _ => false
  end.

Lemma same_port_endpoint n a b : same_port a b = true → endpoint n a = endpoint n b.
Proof.
  unfold same_port, endpoint. destruct (sock_ip a), (sock_ip b); try done; simpl;
    by intros ->%Z.eqb_eq.
Qed.

Lemma same_port_refl a : same_port a a = true.
Proof. unfold same_port. destruct (sock_ip a); apply Z.eqb_refl. Qed.

Lemma same_port_sym a b : same_port a b = same_port b a.
Proof. unfold same_port. destruct (sock_ip a), (sock_ip b); try done; apply Z.eqb_sym. Qed.

Lemma same_port_trans a b d : same_port a b = true → same_port b d = true → same_port a d = true.
Proof.
  unfold same_port. destruct (sock_ip a), (sock_ip b), (sock_ip d); try done;
    rewrite !Z.eqb_eq; congruence.
Qed.

Lemma remove_tcp_endpoint n l a :
  endpoint (remove_tcp n l) a = if same_port l a then None else endpoint n a.
Proof.
  unfold endpoint, remove_tcp, same_port.
  destruct (sock_ip l) as [x|x], (sock_ip a) as [y|y]; simpl; try done;
    (destruct (Z.eqb_spec (sock_port l) (sock_port a)) as [->|];
      [apply lookup_delete_eq|by apply lookup_delete_ne]).
Qed.

Lemma set_tcp_endpoint n l e a :
  endpoint (set_tcp_net n (sock_ip l) (<[sock_port l := e]> (get_tcp_net n (sock_ip l)))) a
  = if same_port l a then Some e else endpoint n a.
Proof.
  unfold endpoint, same_port.
  destruct (sock_ip l) as [x|x], (sock_ip a) as [y|y]; simpl; try done;
    (destruct (Z.eqb_spec (sock_port l) (sock_port a)) as [->|];
      [apply lookup_insert_eq|by apply lookup_insert_ne]).
Qed.

(** What a step of one socket does to the network: an endpoint that is in it and
    not under this socket's port stays, and the port the socket has afterwards is
    the one it had, or was free. *)
Definition framed (n : Network) (t : TcpSocket) (n' : Network) (t' : TcpSocket) : Prop :=
  (∀ a, is_Some (endpoint n a) → (∀ l, tcp_owned t = Some l → same_port l a = false) →
        endpoint n' a = endpoint n a)
  ∧ ∀ l', tcp_owned t' = Some l' →
      endpoint n l' = None ∨ ∃ l, tcp_owned t = Some l ∧ same_port l l' = true.

Lemma framed_keep n t t' :
  tcp_owned t' = tcp_owned t ∨ tcp_owned t' = None → framed n t n t'.
Proof.
  intros Ht. split; [done|]. intros l' Hl. right. destruct Ht as [Ht|Ht]; [|congruence].
  exists l'. split; [congruence|apply same_port_refl].
Qed.

Lemma framed_refl n t : framed n t n t.
Proof. apply framed_keep. by left. Qed.

Lemma framed_trans n t n1 t1 n2 t2 : framed n t n1 t1 → framed n1 t1 n2 t2 → framed n t n2 t2.
Proof.
  intros [K1 O1] [K2 O2]. split.
  - intros a Ha Hfree. rewrite <-(K1 a Ha Hfree). apply K2; [by rewrite (K1 a Ha Hfree)|].
    intros l1 Hl1. apply not_true_is_false. intros Hs.
    destruct (O1 l1 Hl1) as [Hn|(l & Hl & Hll)].
    + rewrite <-(same_port_endpoint n _ _ Hs), Hn in Ha. by destruct Ha.
    + pose proof (same_port_trans _ _ _ Hll Hs). by rewrite (Hfree l Hl) in *.
  - intros l2 Hl2. destruct (O2 l2 Hl2) as [Hn1|(l1 & Hl1 & Hs)].
    + destruct (endpoint n l2) as [e|] eqn:Ee; [|by left]. right.
      destruct (tcp_owned t) as [l|] eqn:El.
      * destruct (same_port l l2) eqn:Es; [by eauto|].
        rewrite K1 in Hn1; [congruence|by eauto|]. by intros ? [= <-].
      * rewrite K1 in Hn1; [congruence|by eauto|done].
    + destruct (O1 l1 Hl1) as [Hn|(l & Hl & Hll)].
      * left. by rewrite <-(same_port_endpoint n _ _ Hs).
      * right. exists l. split; [done|]. by eapply same_port_trans.
Qed.

(** A port taken, a port turned into a listener's, a port given up. *)
Lemma framed_bind n t addr a' n' t' :
  0 ≤ sock_port addr ≤ u16_MAX → bind_tcp n addr = Ok (a', n') →
  (tcp_owned t' = Some a' ∨ tcp_owned t' = tcp_owned t ∨ tcp_owned t' = None) → framed n t n' t'.
Proof.
  intros Hp Hb Ht. split.
  - intros a [e He] _. eapply bind_tcp_other; [exact Hp|exact Hb|]. by rewrite He.
  - destruct (bind_tcp_Ok n addr a' n' Hp Hb) as (_ & _ & Hn & _). intros l' Hl.
    destruct Ht as [Ht|Ht]; [left; congruence|by apply (framed_keep n t t' Ht)].
Qed.

Lemma framed_set n t l e t' :
  tcp_owned t = Some l → (tcp_owned t' = tcp_owned t ∨ tcp_owned t' = None) →
  framed n t (set_tcp_net n (sock_ip l) (<[sock_port l := e]> (get_tcp_net n (sock_ip l)))) t'.
Proof.
  intros Hl Ht. split; [|by apply (framed_keep n t t')].
  intros a _ Ha. by rewrite set_tcp_endpoint, (Ha l Hl).
Qed.

Lemma framed_remove n t l t' :
  tcp_owned t = Some l → (tcp_owned t' = tcp_owned t ∨ tcp_owned t' = None) →
  framed n t (remove_tcp n l) t'.
Proof.
  intros Hl Ht. split; [|by apply (framed_keep n t t')].
  intros a _ Ha. by rewrite remove_tcp_endpoint, (Ha l Hl).
Qed.

(** Case analysis on everything an operation looks at, when it leaves the network
    alone and the socket with the port it had, or with none. *)
Ltac kept_port :=
  repeat case_match; simplify_eq/=; try done; autorewrite with fabric; apply framed_keep;
  unfold tcp_owned, owned; simpl;
  repeat match goal with H : lt_state _ = _ |- _ => rewrite H; simpl end;
  solve [by left | by right].

Lemma bind_virtual_tcp_framed os s addr n r n' t t' :
  0 ≤ sock_port addr ≤ u16_MAX → bind_virtual_tcp os s addr n = (r, n') →
  (tcp_owned t' = tcp_owned t ∨ ∃ lo, r = Ok lo ∧ tcp_owned t' = owned lo) → framed n t n' t'.
Proof.
  intros Hp. unfold bind_virtual_tcp. destruct (bind_tcp n addr) as [[a n1]|] eqn:E.
  - intros [= Hl <-] Ht. eapply framed_bind; [exact Hp|exact E|].
    destruct Ht as [Ht|(lo & -> & ->)]; [auto|]. left. apply lt_new_state in Hl.
    unfold owned. by rewrite Hl.
  - intros [= <- <-] [Ht|(lo & ? & _)]; [|done]. apply framed_keep. by left.
Qed.

Lemma start_bind_framed os t addr n r t' n' :
  tcp_os_ok os → 0 ≤ sock_port addr ≤ u16_MAX →
  tcp_start_bind os t addr n = (r, t', n') → framed n t n' t'.
Proof.
  intros Hos Hp. unfold tcp_start_bind. destruct t as [s|lo|s lo].
  2,3: intros [= _ <- <-]; apply framed_refl.
  destruct (_ || _); [intros [= _ <- <-]; apply framed_refl|]. cbn zeta.
  destruct (is_loopback _).
  { destruct (bind_virtual_tcp os s addr n) as [[lo|e] n1] eqn:Eb; intros [= _ <- <-];
      (eapply bind_virtual_tcp_framed; [exact Hp|exact Eb|]); eauto. }
  destruct (nt_start_bind _ _ _) as [s1|e]; [|intros [= _ <- <-]; apply framed_refl].
  destruct (negb _); [intros [= _ <- <-]; apply framed_keep; by left|].
  destruct (to_local_addr os) as [l|e] eqn:El; [|intros [= _ <- <-]; apply framed_keep; by left].
  specialize (Hos l El).
  destruct (bind_virtual_tcp _ _ _ _) as [[lo|e] n1] eqn:Eb; intros [= _ <- <-];
    (eapply bind_virtual_tcp_framed; [|exact Eb|]); eauto; by destruct l.
Qed.

Lemma finish_bind_framed n t r t' : tcp_finish_bind t = (r, t') → framed n t n t'.
Proof. unfold tcp_finish_bind, lt_finish_bind. intros E. kept_port. Qed.

Lemma start_connect_framed os t addr plane n r t' n' :
  tcp_start_connect os t addr plane n = (r, t', n') → framed n t n' t'.
Proof.
  unfold tcp_start_connect. destruct (connectable t addr); [|intros [= _ <- <-]; apply framed_refl].
  assert (∀ lo tx lo', lt_start_connect lo addr n = Ok (tx, lo') → owned lo' = owned lo) as Hlo.
  { intros lo tx lo' (local & El & -> & _)%lt_start_connect_Ok. unfold owned. by rewrite El. }
  destruct t as [s|lo|s lo], (bool_decide (plane = Virtual)); simpl in *.
  - unfold connect_unbound_virtual.
    destruct (nt_is_bound s); [intros [= _ <- <-]; apply framed_refl|].
    destruct (bind_tcp n _) as [[local n1]|] eqn:Eb; [|intros [= _ <- <-]; apply framed_refl].
    assert (∀ t', tcp_owned t' = Some local ∨ tcp_owned t' = None → framed n (TNetwork s) n1 t') as Hb.
    { intros t1 Ht. eapply framed_bind; [|exact Eb|tauto]. rewrite sock_set_port_port. unfold u16_MAX. lia. }
    destruct (connect_tcp n1 addr) as [tx|]; [|intros [= _ <- <-]; apply Hb; by right].
    destruct (lt_new _ _ _) as [lo|] eqn:El; intros [= _ <- <-]; apply Hb; [left|by right].
    apply lt_new_state in El. simpl. unfold owned. by rewrite El.
  - intros [= _ <- <-]. apply framed_keep. by left.
  - destruct (lt_start_connect lo addr n) as [[tx lo']|] eqn:E; intros [= _ <- <-];
      apply framed_keep; left; simpl; eauto.
  - destruct (lt_start_connect lo addr n) as [[tx lo']|] eqn:E; intros [= _ <- <-];
      apply framed_keep; left; simpl; eauto.
  - destruct (lt_start_connect lo addr n) as [[tx lo']|] eqn:E; intros [= _ <- <-];
      apply framed_keep; left; simpl; eauto.
  - intros [= _ <- <-]. apply framed_keep. by right.
Qed.

Lemma set_pending_framed n t f t' : tcp_set_pending_connect t f = Ok t' → framed n t n t'.
Proof. unfold tcp_set_pending_connect, lt_set_pending_connect. intros E. kept_port. Qed.

Lemma take_pending_framed os t v r t' v' :
  tcp_take_pending_connect os t v = (r, t', v') → framed (fb_net v) t (fb_net v') t'.
Proof.
  unfold tcp_take_pending_connect. destruct t as [s|lo|s lo]; [| |intros [= _ <- <-]; apply framed_refl].
  - destruct (nt_take_pending_connect os s v) as [[r1 s1] v1] eqn:E. intros [= _ <- <-].
    revert E. unfold nt_take_pending_connect.
    destruct (nt_state s) as [| | | | |[f|]| | | |]; try (intros [= _ <- <-]; apply framed_keep; by left).
    destruct (poll_connect os v f) as [[q|] v2] eqn:Ep; apply fb_net_poll in Ep;
      intros [= _ <- <-]; rewrite Ep; apply framed_keep; by left.
  - unfold lt_take_pending_connect. destruct (lt_state lo) as [| | | |l m [f|]| | | |] eqn:E;
      try (intros [= _ <- <-]; apply framed_keep; unfold tcp_owned, owned; rewrite ?E; by left).
    destruct (poll_connect os v f) as [[q|] v2] eqn:Ep; apply fb_net_poll in Ep;
      intros [= _ <- <-]; rewrite Ep; apply framed_keep; unfold tcp_owned, owned; rewrite ?E; by left.
Qed.

Lemma finish_connect_framed t res v r t' v' :
  tcp_finish_connect t res v = (r, t', v') → framed (fb_net v) t (fb_net v') t'.
Proof.
  unfold tcp_finish_connect. destruct t as [s|lo|s lo].
  - unfold nt_finish_connect. intros E. kept_port.
  - unfold lt_finish_connect.
    destruct (lt_state lo) as [| | | |local remote [f|]| | | |] eqn:E;
      try (intros [= _ <- <-]; rewrite fb_net_drop_connecting; apply framed_refl).
    destruct res as [[s|tx]|e]; simpl.
    + intros [= _ <- <-]. apply framed_refl.
    + intros [= _ <- <-]. autorewrite with fabric. apply framed_keep. left. simpl. unfold owned. by rewrite E.
    + destruct (sock_port local =? 0); intros [= _ <- <-]; [apply framed_keep; by right|].
      apply framed_remove; [simpl; unfold owned; by rewrite E|by right].
  - intros [= _ <- <-]. rewrite fb_net_drop_connecting. apply framed_refl.
Qed.

Lemma cancel_connect_framed t v t' v' :
  tcp_cancel_connect t v = (t', v') → framed (fb_net v) t (fb_net v') t'.
Proof.
  unfold tcp_cancel_connect. destruct t as [s|lo|s lo]; intros [= <- <-];
    [apply framed_keep; by left| |apply framed_refl].
  rewrite !fb_net_drop_state.
  assert (framed (fb_net v) (TLoopback lo) (fb_net v) (TLoopback (lt_set_state lo LtClosed))) as Hk.
  { apply framed_keep. by right. }
  destruct (lt_state lo) as [| | | |local remote f| | | |] eqn:E; rewrite ?fb_net_drop_state; try done.
  destruct (sock_port local =? 0); [done|]. destruct (get_tcp_net _ _ !! _) as [[|]|]; try done.
  apply framed_remove; [simpl; unfold owned; by rewrite E|by right].
Qed.

Lemma lt_start_listen_framed lo v r lo' v' t t' :
  lt_start_listen lo v = Some (r, lo', v') → tcp_owned t = owned lo → tcp_owned t' = owned lo' →
  framed (fb_net v) t (fb_net v') t'.
Proof.
  unfold lt_start_listen. intros E Ht Ht'. destruct (lt_state lo) as [|local| | | | | | |] eqn:El;
    try (injection E as _ <- <-; apply framed_keep; left; congruence).
  destruct (sock_port local =? 0); [injection E as _ <- <-; apply framed_keep; left; congruence|].
  destruct (get_tcp_net _ _ !! _) as [[|tx]|];
    try (injection E as _ <- <-; apply framed_keep; left; congruence).
  revert E. unfold new_backlog. destruct (_ =? 0); [done|]. simpl. intros [= _ <- <-]. simpl.
  assert (tcp_owned t = Some local) as Ho by (rewrite Ht; unfold owned; by rewrite El).
  apply framed_set; [done|]. left. by rewrite Ht', Ho.
Qed.

Lemma lt_finish_listen_owned lo lo' : lt_finish_listen lo = Ok lo' → owned lo' = owned lo.
Proof.
  unfold lt_finish_listen. destruct (lt_state lo) as [| |l [rx|]| | | | | |] eqn:E; try done.
  intros [= <-]. unfold owned. by rewrite E.
Qed.

Lemma start_listen_framed t v r t' v' :
  tcp_start_listen t v = Some (r, t', v') → framed (fb_net v) t (fb_net v') t'.
Proof.
  unfold tcp_start_listen. destruct t as [s|lo|s lo]; simpl.
  - destruct (nt_start_listen s); intros [= _ <- <-]; apply framed_keep; by left.
  - destruct (lt_start_listen lo v) as [[[r1 lo1] v1]|] eqn:E; [|done]. intros [= _ <- <-].
    by eapply lt_start_listen_framed.
  - destruct (nt_start_listen s); [|intros [= _ <- <-]; apply framed_refl].
    destruct (lt_start_listen lo v) as [[[r1 lo1] v1]|] eqn:E; [|done]. intros [= _ <- <-].
    by eapply lt_start_listen_framed.
Qed.

Lemma finish_listen_framed n os t r t' : tcp_finish_listen os t = (r, t') → framed n t n t'.
Proof.
  unfold tcp_finish_listen, nt_finish_listen. intros E. apply framed_keep. left.
  repeat case_match; simplify_eq/=; eauto using lt_finish_listen_owned.
Qed.

Lemma listen_p3_framed os t v r t' v' :
  tcp_listen_p3 os t v = Some (r, t', v') → framed (fb_net v) t (fb_net v') t'.
Proof.
  unfold tcp_listen_p3.
  assert (∀ lo lo' v' r t t', lt_listen_p3 lo v = Some (r, lo', v') → tcp_owned t = owned lo →
    tcp_owned t' = owned lo' → framed (fb_net v) t (fb_net v') t') as Hlo.
  { intros lo lo' u q t1 t1'. unfold lt_listen_p3.
    destruct (lt_start_listen lo v) as [[[r1 lo1] v1]|] eqn:E; [|done]. simpl.
    destruct r1; [|intros [= _ <- <-]; by eapply lt_start_listen_framed].
    destruct (lt_finish_listen lo1) as [lo2|] eqn:Ef; intros [= _ <- <-] Ht Ht';
      (eapply lt_start_listen_framed; [exact E|done|]); [|done].
    apply lt_finish_listen_owned in Ef. congruence. }
  destruct t as [s|lo|s lo]; simpl.
  - destruct (nt_listen_p3 os s) as [q s1]. intros [= _ <- <-]. apply framed_keep. by left.
  - destruct (lt_listen_p3 lo v) as [[[r1 lo1] v1]|] eqn:E; [|done]. intros [= _ <- <-]. eauto.
  - destruct (nt_listen_p3 os s) as [[?|?] s1];
      [|intros [= _ <- <-]; apply framed_keep; by left].
    destruct (lt_listen_p3 lo v) as [[[r1 lo1] v1]|] eqn:E; [|done]. intros [= _ <- <-]. eauto.
Qed.

Lemma take_rx_framed n t rx t' : take_loopback_listen_rx t = Ok (rx, t') → framed n t n t'.
Proof. unfold take_loopback_listen_rx, take_listen_info. intros E. kept_port. Qed.

Lemma lt_accept_owned lo v r lo' v' :
  lt_accept lo v = (r, lo', v') →
  fb_net v' = fb_net v ∧ owned lo' = owned lo ∧ ∀ a, r = Ok (Some a) → owned a = None.
Proof.
  unfold lt_accept, judge_conn.
  destruct (lt_state lo) as [| | |local rx pending| | | | |] eqn:E; try (by intros [= <- <- <-]).
  destruct pending as [c|].
  - case_bool_decide; intros [= <- <- <-]; autorewrite with fabric; unfold owned; rewrite E;
      split_and!; try done; by intros a [= <-].
  - destruct rx as [rx|]; [|by intros [= <- <- <-]].
    destruct (pop_backlog v rx) as [[c|] v1] eqn:Ep; apply fb_net_pop in Ep.
    + case_bool_decide; intros [= <- <- <-]; autorewrite with fabric; split_and!; try done;
        by intros a [= <-].
    + intros [= <- <- <-]. split_and!; try done. by destruct (listener_registered _ _ _).
Qed.

(** Accepting hands out no socket that holds a port. *)
Lemma accept_framed os t v r t' v' :
  tcp_accept os t v = (r, t', v') →
  framed (fb_net v) t (fb_net v') t' ∧ ∀ a, r = Ok (Some a) → tcp_owned a = None.
Proof.
  unfold tcp_accept. destruct t as [s|lo|s lo]; simpl.
  - destruct (nt_accept os s) as [[[a|]|e] s1]; intros [= <- <- <-];
      (split; [apply framed_keep; by left|by intros ? [= <-]]).
  - destruct (lt_accept lo v) as [[r1 lo1] v1] eqn:E.
    apply lt_accept_owned in E as (Hn & Ho & Ha). intros [= <- <- <-]. rewrite Hn.
    split; [apply framed_keep; by left|]. intros a. destruct r1 as [[lo2|]|]; try done.
    intros [= <-]. simpl. eauto.
  - destruct (nt_accept os s) as [[[a|]|e] s1].
    + intros [= <- <- <-]. split; [apply framed_keep; by left|by intros ? [= <-]].
    + destruct (lt_accept lo v) as [[r1 lo1] v1] eqn:E.
      apply lt_accept_owned in E as (Hn & Ho & Ha). intros [= <- <- <-]. rewrite Hn.
      split; [apply framed_keep; by left|]. intros a. destruct r1 as [[lo2|]|]; try done.
      intros [= <-]. simpl. eauto.
    + intros [= <- <- <-]. split; [apply framed_keep; by left|done].
Qed.

Lemma take_streams_framed t v r t' v' n r2 t2 :
  (take_send_stream t v = (r, t', v') → framed (fb_net v) t (fb_net v') t')
  ∧ (take_receive_stream t = Ok (r2, t2) → framed n t n t2).
Proof. unfold take_send_stream, take_receive_stream. split; intros E; kept_port. Qed.

Lemma p2_streams_owned t v t' v' :
  p2_streams t v = (Ok t', v') → tcp_owned t' = tcp_owned t.
Proof.
  unfold p2_streams. destruct t as [s|lo|s lo]; simpl; [| |done].
  - destruct (tcp_stream_arc s); [|done]. destruct (set_p2_streaming_state s); [|done].
    by intros [= <- _].
  - destruct (lt_state lo) eqn:E; try done. intros [= <- _]. simpl. unfold owned. rewrite E.
    by destruct accepted.
Qed.

Lemma ready_framed os t v t' v' :
  tcp_ready os t v = Some (t', v') → framed (fb_net v) t (fb_net v') t'.
Proof.
  assert (∀ s s1 v1, nt_ready os s v = Some (s1, v1) → fb_net v1 = fb_net v) as Hnt.
  { intros s s1 v1. unfold nt_ready. destruct (nt_state s) as [| | | |[|]|[f|]| | | |];
      try (by intros [= _ <-]); [by destruct (to_accept os); intros [= _ <-]|].
    destruct (poll_connect os v f) as [[|] v2] eqn:E; [|done]. intros [= _ <-].
    by eapply fb_net_poll. }
  assert (∀ lo lo1 v1, lt_ready os lo v = Some (lo1, v1) →
            fb_net v1 = fb_net v ∧ owned lo1 = owned lo) as Hlo.
  { intros lo lo1 v1. unfold lt_ready.
    destruct (lt_state lo) as [| | |l [rx|] [|]|l m [f|]| | | |] eqn:E; try (by intros [= <- <-]).
    - destruct (pop_backlog v rx) as [[c|] v2] eqn:Ep; apply fb_net_pop in Ep.
      + intros [= <- <-]. split; [done|]. unfold owned. by rewrite E.
      + destruct (listener_registered _ _ _); [done|]. by intros [= <- <-].
    - destruct (poll_connect os v f) as [[|] v2] eqn:Ep; [|done]. apply fb_net_poll in Ep.
      intros [= <- <-]. split; [done|]. unfold owned. by rewrite E. }
  unfold tcp_ready. destruct t as [s|lo|s lo]; simpl.
  - destruct (nt_ready os s v) as [[s1 v1]|] eqn:E; [|done]. intros [= <- <-].
    rewrite (Hnt _ _ _ E). apply framed_keep. by left.
  - destruct (lt_ready os lo v) as [[lo1 v1]|] eqn:E; [|done]. intros [= <- <-].
    apply Hlo in E as [-> E]. apply framed_keep. by left.
  - destruct (nt_ready os s v) as [[s1 v1]|] eqn:E.
    + intros [= <- <-]. rewrite (Hnt _ _ _ E). apply framed_keep. by left.
    + destruct (lt_ready os lo v) as [[lo1 v1]|] eqn:El; [|done]. intros [= <- <-].
      apply Hlo in El as [-> El]. apply framed_keep. by left.
Qed.

Lemma set_backlog_framed n os t value r t' :
  tcp_set_listen_backlog_size os t value = (r, t') → framed n t n t'.
Proof.
  unfold tcp_set_listen_backlog_size, lt_set_listen_backlog_size, nt_set_listen_backlog_size.
  intros E. kept_port.
Qed.

Lemma tcp_set_framed n real virt t r t' :
  (∀ lo lo', virt lo = Ok lo' → lt_state lo' = lt_state lo) →
  tcp_set real virt t = (r, t') → framed n t n t'.
Proof.
  intros Hv. unfold tcp_set. intros E. apply framed_keep. left.
  repeat case_match; simplify_eq/=; unfold owned; erewrite ?Hv by done; done.
Qed.

Lemma set_send_buffer_framed os value t v r t' v' :
  tcp_set_send_buffer_size os value t v = (r, t', v') → framed (fb_net v) t (fb_net v') t'.
Proof.
  assert (∀ lo, fb_net (lt_set_send_buffer_size lo value v).2 = fb_net v
                ∧ owned (lt_set_send_buffer_size lo value v).1.2 = owned lo) as Hlo.
  { intros lo. unfold lt_set_send_buffer_size. destruct (value =? 0); [done|].
    destruct (lt_state lo) as [| | | | | | |l m b rx [tx|]|] eqn:E; simpl;
      [..|destruct (0 <? _); [destruct (_ <=? 4294967295)|]| |]; simpl;
      (split; [done|]); unfold owned; simpl; by rewrite ?E. }
  unfold tcp_set_send_buffer_size. destruct t as [s|lo|s lo]; simpl.
  - intros [= _ <- <-]. apply framed_keep. by left.
  - specialize (Hlo lo). destruct (lt_set_send_buffer_size lo value v) as [[r1 lo1] v1].
    intros [= _ <- <-]. destruct Hlo as [Hn Ho]. simpl in *. rewrite Hn. apply framed_keep. by left.
  - destruct (nt_set_send_buffer_size os s value); [|intros [= _ <- <-]; apply framed_refl].
    specialize (Hlo lo). destruct (lt_set_send_buffer_size lo value v) as [[r1 lo1] v1].
    intros [= _ <- <-]. destruct Hlo as [Hn Ho]. simpl in *. rewrite Hn. apply framed_keep. by left.
Qed.
