(* ===== verification/TcpHandlers.v ===== *)
(** * The TCP handlers, p2 and p3

    [sockets/host_tcp.rs], [sockets/host_tcp_create_socket.rs] and
    [sockets/host_tcp_p3.rs]: what a guest calls, each with its policy checks.
    The state is one socket, the virtual fabric its workload shares, the policy's
    permits and counters, and the streams the guest still holds of it.  The
    option getters and setters forward to [TcpSocket]. *)

From Stdlib Require Import ZArith Lia.
From stdpp Require Import base list gmap strings option.
From S2P Require Import Prelude RustStr Net UriLib EgressPolicy InternalNames DeclaredPort AllowedIpName.
From S2P Require Import AllowedHosts SocketUtil Quota ResolvedNames SocketPolicy Slots LoopbackNet.
From S2P Require Import TcpStreams TcpSocket TcpPorts.
Local Open Scope Z_scope.

Record TcpWorld := {
  tk : TcpSocket;
  fabric : Fabric;
  tst : PolicyState;
  tstreams : list StreamEnd;        (** stream ends the guest holds *)
}.

(** p2's [error-code] has [would-block] besides. *)
Inductive TcpError := TcpCode (e : ErrorCode) | WouldBlock.

Definition tcp_slot (t : TcpSocket) : option ConnectionSlot :=
  match t with TNetwork s | TUnspecified s _ => nt_slot s | TLoopback _ => None end.

(** A real half that is dropped, or that lets go of its slot, gives it back. *)
Definition let_go (t t' : TcpSocket) : option ConnectionSlot :=
  match tcp_slot t' with None => tcp_slot t | Some _ => None end.

Definition with_socket (w : TcpWorld) (t : TcpSocket) (v : Fabric) : TcpWorld :=
  {| tk := t; fabric := v; tst := release_slot (tst w) (let_go (tk w) t);
     tstreams := tstreams w |}.
Definition with_network (w : TcpWorld) (t : TcpSocket) (n : Network) : TcpWorld :=
  with_socket w t (set_net (fabric w) n).
Definition with_policy (w : TcpWorld) (st : PolicyState) : TcpWorld :=
  {| tk := tk w; fabric := fabric w; tst := st; tstreams := tstreams w |}.
Definition with_streams (w : TcpWorld) (l : list StreamEnd) : TcpWorld :=
  {| tk := tk w; fabric := fabric w; tst := tst w; tstreams := l |}.

(** [hold_quota_slot] drops the slot it replaces, or the new one when the socket
    has no real half alone. *)
Definition displaced (t : TcpSocket) (slot : option ConnectionSlot) : option ConnectionSlot :=
  match slot with
  | None => None
  | Some _ => match t with TNetwork s => nt_slot s | _ => slot end
  end.
Definition hold (w : TcpWorld) (slot : option ConnectionSlot) : TcpWorld :=
  {| tk := tcp_hold_quota_slot (tk w) slot; fabric := fabric w;
     tst := release_slot (tst w) (displaced (tk w) slot); tstreams := tstreams w |}.

Section handlers.
Context `{UriLib}.
Implicit Types (c : WasiSocketsCtx) (w : TcpWorld) (os : TcpOs) (now : Instant).

(** p2 and p3 create alike. *)
Definition tcp_create c os (family : SocketAddressFamily) now (st : PolicyState) :
    result TcpSocket ErrorCode * PolicyState :=
  let '(r, st) := check c (implicit_bind_addr family) TcpCreate now st in
  match r with
  | Err e => (Err e, st)
  | Ok allowed =>
      match nt_new os (ctx_network_uses c) family with
      | Err e => (Err e, release_slot st (permit allowed))
      | Ok s => (Ok (tcp_hold_quota_slot (TNetwork s) (permit allowed)), st)
      end
  end.

(** ** Binding *)

Definition start_bind_checked c os w (addr : SocketAddr) now : result unit ErrorCode * TcpWorld :=
  let '(r, st) := check c addr TcpBind now (tst w) in
  match r with
  | Err e => (Err e, with_policy w st)
  | Ok allowed =>
      let w := with_policy w (release_slot st (permit allowed)) in
      let '(r, t, n) := tcp_start_bind os (tk w) (al_addr allowed) (fb_net (fabric w)) in
      (r, with_network w t n)
  end.

(** p2 turns an unspecified address into loopback before the policy sees it. *)
Definition p2_start_bind c os w (addr : SocketAddr) now : result unit ErrorCode * TcpWorld :=
  start_bind_checked c os w
    (if is_unspecified (sock_ip addr) then set_loopback_ip addr else addr) now.

Definition p2_finish_bind w : result unit ErrorCode * TcpWorld :=
  let '(r, t) := tcp_finish_bind (tk w) in (r, with_socket w t (fabric w)).

Definition p3_tcp_bind c os w (addr : SocketAddr) now : result unit ErrorCode * TcpWorld :=
  let '(r, w) := start_bind_checked c os w addr now in
  match r with
  | Err e => (Err e, w)
  | Ok _ => p2_finish_bind w
  end.

(** ** Connecting *)

Definition start_connect_checked c os w (addr : SocketAddr) now :
    result (ConnFuture * option ConnectionSlot) ErrorCode * TcpWorld :=
  let '(r, st) := check c addr TcpConnect now (tst w) in
  match r with
  | Err e => (Err e, with_policy w st)
  | Ok allowed =>
      let w := with_policy w st in
      let '(r, t, n) := tcp_start_connect os (tk w) (al_addr allowed) (al_plane allowed)
                          (fb_net (fabric w)) in
      let w := with_network w t n in
      match r with
      | Err e => (Err e, with_policy w (release_slot (tst w) (permit allowed)))
      | Ok f => (Ok (f, permit allowed), w)
      end
  end.

Definition p2_start_connect c os w (addr : SocketAddr) now : result unit ErrorCode * TcpWorld :=
  let '(r, w) := start_connect_checked c os w addr now in
  match r with
  | Err e => (Err e, w)
  | Ok (f, slot) =>
      match tcp_set_pending_connect (tk w) f with
      | Err e => (Err e, with_policy w (release_slot (tst w) slot))
      | Ok t => (Ok tt, hold (with_socket w t (fabric w)) slot)
      end
  end.

(** The ends [p2_streams] hands out. *)
Definition p2_ends (t : TcpSocket) : list StreamEnd :=
  match t with
  | TNetwork s => match tcp_stream_arc s with Ok st => [RealEnd st] | Err _ => [] end
  | TLoopback lo => match lt_state lo with
                    | LtP2Streaming _ _ _ rx tx => VirtualEnd <$> (option_list rx ++ option_list tx)
                    | _ => []
                    end
  | TUnspecified _ _ => []
  end.

Definition p2_finish_connect os w : result unit TcpError * TcpWorld :=
  let '(r, t, v) := tcp_take_pending_connect os (tk w) (fabric w) in
  let w := with_socket w t v in
  match r with
  | Err e => (Err (TcpCode e), w)
  | Ok None => (Err WouldBlock, w)
  | Ok (Some result) =>
      let '(r, t, v) := tcp_finish_connect (tk w) result (fabric w) in
      let w := with_socket w t v in
      match r with
      | Err e => (Err (TcpCode e), w)
      | Ok _ =>
          match p2_streams (tk w) (fabric w) with
          | (Err e, v) => (Err (TcpCode e), with_socket w (tk w) v)
          | (Ok t, v) => (Ok tt, with_streams (with_socket w t v) (p2_ends t ++ tstreams w))
          end
      end
  end.

(** p3 connects in one call: this is its part before the await ... *)
Definition p3_connect_start c os w (addr : SocketAddr) now :
    result ConnFuture ErrorCode * TcpWorld :=
  let '(r, w) := start_connect_checked c os w addr now in
  match r with
  | Err e => (Err e, w)
  | Ok (f, slot) => (Ok f, hold w slot)
  end.

(** ... one poll of it and, when that is ready, the rest; [None]: not ready ... *)
Definition p3_connect_poll os w (f : ConnFuture) : option (result unit ErrorCode) * TcpWorld :=
  match poll_connect os (fabric w) f with
  | (None, v) => (None, with_socket w (tk w) v)
  | (Some result, v) =>
      let '(r, t, v) := tcp_finish_connect (tk w) result v in
      (Some r, with_socket w t v)
  end.

(** ... or, when the call is cancelled, the guard. *)
Definition p3_connect_cancel w : TcpWorld :=
  let '(t, v) := tcp_cancel_connect (tk w) (fabric w) in with_socket w t v.

(** ** Listening *)

(** [None]: the host panics. *)
Definition p2_start_listen c os w now : option (result unit ErrorCode * TcpWorld) :=
  match tcp_local_address os (tk w) with
  | Err e => Some (Err e, w)
  | Ok local =>
      let '(r, st) := check c local TcpListen now (tst w) in
      match r with
      | Err e => Some (Err e, with_policy w st)
      | Ok allowed =>
          let w := with_policy w (release_slot st (permit allowed)) in
          '(r, t, v) ← tcp_start_listen (tk w) (fabric w);
          Some (r, with_socket w t v)
      end
  end.

Definition p2_finish_listen os w : result unit ErrorCode * TcpWorld :=
  let '(r, t) := tcp_finish_listen os (tk w) in (r, with_socket w t (fabric w)).

Inductive ListenKind :=
  | LkNetwork
  | LkLoopback (rx : option Channel)
  | LkMerged (rx : option Channel).

(** What [listen] extracts for the stream of connections. *)
Definition listen_kind w : result (ListenKind * TcpWorld) ErrorCode :=
  match tk w with
  | TNetwork s => (let? _ := tcp_listener_arc s in Ok (LkNetwork, w))%rust
  | TUnspecified net _ =>
      (let? _ := tcp_listener_arc net in
       let? (rx, t) := take_loopback_listen_rx (tk w) in
       Ok (LkMerged rx, with_socket w t (fabric w)))%rust
  | TLoopback _ =>
      (let? (rx, t) := take_loopback_listen_rx (tk w) in
       Ok (LkLoopback rx, with_socket w t (fabric w)))%rust
  end.

Definition p3_listen c os w now : option (result ListenKind ErrorCode * TcpWorld) :=
  let implicit := if tcp_needs_implicit_bind (tk w)
                  then Some (implicit_bind_addr (tcp_family (tk w))) else None in
  match (match implicit with Some a => Ok a | None => tcp_local_address os (tk w) end) with
  | Err e => Some (Err e, w)
  | Ok listen_addr =>
      let '(bound, st) :=
        match implicit with
        | None => (Ok tt, tst w)
        | Some a => let '(r, st) := check c a TcpBind now (tst w) in
                    (match r with Ok _ => Ok tt | Err e => Err e end, st)
        end in
      match bound with
      | Err e => Some (Err e, with_policy w st)
      | Ok _ =>
          let '(r, st) := check c listen_addr TcpListen now st in
          let w := with_policy w st in
          match r with
          | Err e => Some (Err e, w)
          | Ok _ =>
              '(r, t, v) ← tcp_listen_p3 os (tk w) (fabric w);
              let w := with_socket w t v in
              Some match r with
                   | Err e => (Err e, w)
                   | Ok _ => match listen_kind w with
                             | Ok (k, w) => (Ok k, w)
                             | Err e => (Err e, w)
                             end
                   end
          end
      end
  end.

(** ** Accepting, p2 *)

Definition MAX_REFUSED_ACCEPTS_PER_CALL : nat := 32.

Definition accept_use (t : TcpSocket) : SocketAddrUse :=
  match t with TNetwork _ => TcpAccept | _ => TcpAcceptVirtual end.

(** A peer that is already gone has no address, and is refused. *)
Definition judge_accepted c os (t : TcpSocket) now (st : PolicyState) :
    option Allowed * PolicyState :=
  match tcp_remote_address os t with
  | Err _ => (None, st)
  | Ok addr =>
      let '(r, st) := check c addr (accept_use t) now st in
      (match r with Ok a => Some a | Err _ => None end, st)
  end.

(** The accepted socket with its slot; a virtual one has nowhere to keep it. *)
Definition keep_accepted (t : TcpSocket) (slot : option ConnectionSlot) (st : PolicyState) :
    TcpSocket * PolicyState :=
  (tcp_hold_quota_slot t slot, release_slot st (displaced t slot)).

(** [oss n] is the operating system during the [n]th round.  [None]: out of fuel. *)
Fixpoint accept_loop c (oss : nat → TcpOs) (fuel refused : nat) now w :
    option (result TcpSocket TcpError * TcpWorld) :=
  match fuel with
  | O => None
  | S fuel =>
      let '(r, t, v) := tcp_accept (oss refused) (tk w) (fabric w) in
      let w := with_socket w t v in
      match r with
      | Err e => Some (Err (TcpCode e), w)
      | Ok None => Some (Err WouldBlock, w)
      | Ok (Some accepted) =>
          let '(allowed, st) := judge_accepted c (oss refused) accepted now (tst w) in
          match allowed with
          | Some a => let '(accepted, st) := keep_accepted accepted (permit a) st in
                      Some (Ok accepted, with_policy w st)
          | None =>
              let w := with_policy (with_socket w (tk w) (tcp_refuse accepted (fabric w))) st in
              if (MAX_REFUSED_ACCEPTS_PER_CALL <=? S refused)%nat
              then Some (Err WouldBlock, w)
              else accept_loop c oss fuel (S refused) now w
          end
      end
  end.

(** The accepted socket comes with its streams. *)
Definition p2_accept c (oss : nat → TcpOs) now w : option (result TcpSocket TcpError * TcpWorld) :=
  '(r, w) ← accept_loop c oss MAX_REFUSED_ACCEPTS_PER_CALL 0 now w;
  Some match r with
       | Err e => (Err e, w)
       | Ok accepted =>
           match p2_streams accepted (fabric w) with
           | (Ok accepted, v) => (Ok accepted, with_socket w (tk w) v)
           | (Err e, v) =>
               (Err (TcpCode e),
                with_policy (with_socket w (tk w) (tcp_refuse accepted v))
                  (release_slot (tst w) (tcp_slot accepted)))
           end
       end.

(** ** Accepting, p3 *)

Definition MAX_REFUSED_ACCEPTS_PER_POLL : nat := 32.

Definition refusal_limit_result (finish : bool) : Polled :=
  if finish then Cancelled else StillPending.

(** [poll_accept]: the kernel's next connection and its peer. *)
Abbreviation Arrivals := (nat → option (result (RealStream * SocketAddr) IoError)).

Inductive Accepted :=
  | AcNetwork (r : result RealStream IoError) (slot : option ConnectionSlot)
  | AcLoopback (conn : TcpConn).

(** The loops end with a connection to hand over, or with an answer.  [None]: out
    of fuel. *)
Fixpoint listen_loop c (arrivals : Arrivals) (fuel refused : nat) (finish : bool) now
    (st : PolicyState) : option ((Accepted + Polled) * PolicyState) :=
  match fuel with
  | O => None
  | S fuel =>
      match arrivals refused with
      | Some (Ok (s, addr)) =>
          let '(r, st) := check c addr TcpAccept now st in
          match r with
          | Ok a => Some (inl (AcNetwork (Ok s) (permit a)), st)
          | Err _ =>
              if (MAX_REFUSED_ACCEPTS_PER_POLL <=? S refused)%nat
              then Some (inr (refusal_limit_result finish), st)
              else listen_loop c arrivals fuel (S refused) finish now st
          end
      | Some (Err e) => Some (inl (AcNetwork (Err e) None), st)
      | None => Some (inr (if finish then Cancelled else StillPending), st)
      end
  end.

(** [poll_recv] on a listener's channel, and whether it can still be sent to. *)
Definition recv_conn (v : Fabric) (rx : option Channel) (alive : bool) :
    option (option TcpConn) * Fabric :=
  match rx with
  | None => (Some None, v)
  | Some rx => match pop_backlog v rx with
               | (Some c, v) => (Some (Some c), v)
               | (None, v) => (if alive then None else Some None, v)
               end
  end.

Fixpoint loopback_listen_loop c (rx : option Channel) (alive : bool) (fuel refused : nat)
    (finish : bool) now (v : Fabric) (st : PolicyState) :
    option ((Accepted + Polled) * Fabric * PolicyState) :=
  match fuel with
  | O => None
  | S fuel =>
      match recv_conn v rx alive with
      | (Some (Some conn), v) =>
          let '(r, st) := check c (cn_remote conn) TcpAcceptVirtual now st in
          match r with
          | Ok _ => Some (inl (AcLoopback conn), v, st)
          | Err _ =>
              let v := drop_conn v conn in
              if (MAX_REFUSED_ACCEPTS_PER_POLL <=? S refused)%nat
              then Some (inr (refusal_limit_result finish), v, st)
              else loopback_listen_loop c rx alive fuel (S refused) finish now v st
          end
      | (Some None, v) => Some (inr Dropped, v, st)
      | (None, v) => Some (inr (if finish then Cancelled else StillPending), v, st)
      end
  end.

(** One round of the merged stream asks the kernel's listener, then, unless that
    answered, the virtual one. *)
Definition merged_network c (arrival : option (result (RealStream * SocketAddr) IoError))
    (refused : nat) now (st : PolicyState) : option Accepted * bool * nat * PolicyState :=
  match arrival with
  | Some (Ok (s, addr)) =>
      let '(r, st) := check c addr TcpAccept now st in
      match r with
      | Ok a => (Some (AcNetwork (Ok s) (permit a)), true, refused, st)
      | Err _ => (None, true, S refused, st)
      end
  | Some (Err e) => (Some (AcNetwork (Err e) None), true, refused, st)
  | None => (None, false, refused, st)
  end.

Definition merged_loopback c (rx : option Channel) (alive ready closed : bool) (refused : nat) now
    (v : Fabric) (st : PolicyState) :
    option Accepted * bool * bool * nat * Fabric * PolicyState :=
  if closed then (None, ready, closed, refused, v, st)
  else match recv_conn v rx alive with
  | (Some (Some conn), v) =>
      let '(r, st) := check c (cn_remote conn) TcpAcceptVirtual now st in
      match r with
      | Ok _ => (Some (AcLoopback conn), true, closed, refused, v, st)
      | Err _ => (None, true, closed, S refused, drop_conn v conn, st)
      end
  | (Some None, v) => (None, ready, true, refused, v, st)
  | (None, v) => (None, ready, closed, refused, v, st)
  end.

Fixpoint merged_loop c (arrivals : Arrivals) (rx : option Channel) (alive : bool)
    (fuel round refused : nat) (closed finish : bool) now (v : Fabric) (st : PolicyState) :
    option ((Accepted + Polled) * bool * Fabric * PolicyState) :=
  match fuel with
  | O => None
  | S fuel =>
      let '(got, ready, refused, st) := merged_network c (arrivals round) refused now st in
      match got with
      | Some a => Some (inl a, closed, v, st)
      | None =>
          let '(got, ready, closed, refused, v, st) :=
            merged_loopback c rx alive ready closed refused now v st in
          match got with
          | Some a => Some (inl a, closed, v, st)
          | None =>
              if (MAX_REFUSED_ACCEPTS_PER_POLL <=? refused)%nat
              then Some (inr (refusal_limit_result finish), closed, v, st)
              else if negb ready
              then Some (inr (if finish then Cancelled else StillPending), closed, v, st)
              else merged_loop c arrivals rx alive fuel (S round) refused closed finish now v st
          end
      end
  end.

(** The stream of connections: [lp_props] is the listener when it was taken,
    [lp_pending] a connection accepted and not yet handed over. *)
Record ListenProducer := {
  lp_kind : ListenKind;
  lp_family : SocketAddressFamily;
  lp_props : option LoTcpSocket;
  lp_pending : option Accepted;
  lp_closed : bool;
}.

Definition set_pending (p : ListenProducer) (a : option Accepted) (closed : bool) :
    ListenProducer :=
  {| lp_kind := lp_kind p; lp_family := lp_family p; lp_props := lp_props p; lp_pending := a;
     lp_closed := closed |}.

(** The loop of each producer, when nothing is pending. *)
Definition next_connection c (p : ListenProducer) (arrivals : Arrivals) (alive finish : bool) now
    (v : Fabric) (st : PolicyState) :
    option ((Accepted + Polled) * bool * Fabric * PolicyState) :=
  match lp_pending p with
  | Some a => Some (inl a, lp_closed p, v, st)
  | None =>
      match lp_kind p with
      | LkNetwork =>
          '(out, st) ← listen_loop c arrivals MAX_REFUSED_ACCEPTS_PER_POLL 0 finish now st;
          Some (out, lp_closed p, v, st)
      | LkLoopback rx =>
          '(out, v, st) ← loopback_listen_loop c rx alive MAX_REFUSED_ACCEPTS_PER_POLL 0 finish
                            now v st;
          Some (out, lp_closed p, v, st)
      | LkMerged rx =>
          merged_loop c arrivals rx alive MAX_REFUSED_ACCEPTS_PER_POLL 0 0 (lp_closed p) finish
            now v st
      end
  end.

Definition accepted_socket (p : ListenProducer) (a : Accepted) : option TcpSocket :=
  match a with
  | AcNetwork r slot =>
      Some match new_accept r (lp_family p) with
           | Ok s => tcp_hold_quota_slot (TNetwork s) slot
           | Err _ => TNetwork (new_error (lp_family p))
           end
  | AcLoopback conn => (λ lo, TLoopback (accepted_lo lo conn)) <$> lp_props p
  end.

(** [room]: the guest's buffer has a place for a socket. *)
Definition poll_listen c (p : ListenProducer) (arrivals : Arrivals) (alive room finish : bool) now
    (v : Fabric) (st : PolicyState) :
    option (Polled * option TcpSocket * ListenProducer * Fabric * PolicyState) :=
  '(out, closed, v, st) ← next_connection c p arrivals alive finish now v st;
  Some match out with
       | inr answer => (answer, None, set_pending p None closed, v, st)
       | inl a =>
           if room then (Completed, accepted_socket p a, set_pending p None closed, v, st)
           else (Completed, None, set_pending p (Some a) closed, v, st)
       end.

(** ** Streams, shutdown, drop *)

Definition p3_send_stream w : result StreamEnd ErrorCode * TcpWorld :=
  let '(r, t, v) := take_send_stream (tk w) (fabric w) in
  let w := with_socket w t v in
  match r with
  | Ok e => (Ok e, with_streams w (e :: tstreams w))
  | Err _ => (Err InvalidState, w)
  end.

Definition p3_receive_stream w : result StreamEnd ErrorCode * TcpWorld :=
  match take_receive_stream (tk w) with
  | Ok (e, t) => (Ok e, with_streams (with_socket w t (fabric w)) (e :: tstreams w))
  | Err _ => (Err InvalidState, w)
  end.

(** A real connection's shutdown acts on its reader and writer ([TcpStreams]). *)
Definition p2_shutdown w (how : ShutdownType) : result unit ErrorCode * TcpWorld :=
  match tk w with
  | TNetwork s => (match nt_state s with TP2Streaming _ => Ok tt | _ => Err InvalidState end, w)
  | TLoopback lo => let '(r, v) := lt_shutdown lo how (fabric w) in (r, with_socket w (tk w) v)
  | TUnspecified _ _ => (Err InvalidState, w)
  end.

(** [Pollable::ready]; [None]: still waiting. *)
Definition p2_ready os w : option TcpWorld :=
  '(t, v) ← tcp_ready os (tk w) (fabric w); Some (with_socket w t v).

(** The setters, which forward to the socket. *)
Inductive TcpOption :=
  | SetBacklog (v : Z)
  | SetKeepAlive (v : bool)
  | SetKeepAliveIdle (v : Z)
  | SetKeepAliveInterval (v : Z)
  | SetKeepAliveCount (v : Z)
  | SetHopLimit (v : Z)
  | SetReceiveBuffer (v : Z)
  | SetSendBuffer (v : Z).

Definition set_tcp_option os w (o : TcpOption) : result unit ErrorCode * TcpWorld :=
  let plain '(r, t) := (r, with_socket w t (fabric w)) in
  match o with
  | SetBacklog v => plain (tcp_set_listen_backlog_size os (tk w) v)
  | SetKeepAlive v => plain (tcp_set_keep_alive_enabled os v (tk w))
  | SetKeepAliveIdle v => plain (tcp_set_keep_alive_idle_time os v (tk w))
  | SetKeepAliveInterval v => plain (tcp_set_keep_alive_interval os v (tk w))
  | SetKeepAliveCount v => plain (tcp_set_keep_alive_count os v (tk w))
  | SetHopLimit v => plain (tcp_set_hop_limit os v (tk w))
  | SetReceiveBuffer v => plain (tcp_set_receive_buffer_size os v (tk w))
  | SetSendBuffer v => let '(r, t, f) := tcp_set_send_buffer_size os v (tk w) (fabric w) in
                       (r, with_socket w t f)
  end.

(** p2's streams are children of the socket's table entry: dropping it before
    them traps, as does a virtual half with port zero ([None]). *)
Definition p3_tcp_drop w : option (Fabric * PolicyState) :=
  v ← tcp_drop (tk w) (fabric w); Some (v, release_slot (tst w) (tcp_slot (tk w))).
Definition p2_tcp_drop w : option (Fabric * PolicyState) :=
  match tstreams w with [] => p3_tcp_drop w | _ => None end.

End handlers.

(** ** What each operation does to the socket's slot *)

(** The slot stays with the socket, or the socket is left with none. *)
Definition keeps (t t' : TcpSocket) : Prop := tcp_slot t' = tcp_slot t ∨ tcp_slot t' = None.

Lemma keeps_refl t : keeps t t.
Proof. by left. Qed.
#[local] Hint Resolve keeps_refl : core.

(** Case analysis on everything an operation looks at. *)
Ltac keep_slot :=
  repeat case_match; simplify_eq/=; try done; (by left) || (by right).

Lemma start_bind_keeps os t addr n r t' n' :
  tcp_start_bind os t addr n = (r, t', n') → keeps t t'.
Proof.
  unfold tcp_start_bind, nt_start_bind. intros E. destruct t as [s|lo|s lo]; [|by simplify_eq..].
  keep_slot.
Qed.

Lemma finish_bind_keeps t r t' : tcp_finish_bind t = (r, t') → keeps t t'.
Proof. unfold tcp_finish_bind, nt_finish_bind. intros E. keep_slot. Qed.

Lemma start_connect_keeps os t addr plane n r t' n' :
  tcp_start_connect os t addr plane n = (r, t', n') → keeps t t'.
Proof. unfold tcp_start_connect, connect_unbound_virtual. intros E. keep_slot. Qed.

Lemma set_pending_keeps t f t' : tcp_set_pending_connect t f = Ok t' → keeps t t'.
Proof. unfold tcp_set_pending_connect, nt_set_pending_connect. intros E. keep_slot. Qed.

Lemma take_pending_keeps os t v r t' v' :
  tcp_take_pending_connect os t v = (r, t', v') → keeps t t'.
Proof. unfold tcp_take_pending_connect, nt_take_pending_connect. intros E. keep_slot. Qed.

Lemma finish_connect_keeps t res v r t' v' :
  tcp_finish_connect t res v = (r, t', v') → keeps t t'.
Proof. unfold tcp_finish_connect, nt_finish_connect. intros E. keep_slot. Qed.

Lemma cancel_keeps t v t' v' : tcp_cancel_connect t v = (t', v') → keeps t t'.
Proof. unfold tcp_cancel_connect, nt_cancel_connect. intros E. keep_slot. Qed.

Lemma start_listen_keeps t v r t' v' : tcp_start_listen t v = Some (r, t', v') → keeps t t'.
Proof.
  unfold tcp_start_listen, nt_start_listen. intros E. destruct t as [s|lo|s lo].
  - keep_slot.
  - destruct (lt_start_listen lo v) as [[[? ?] ?]|]; [|done]. by simplify_eq/=; right.
  - destruct (nt_state s); try (by simplify_eq).
    destruct (lt_start_listen lo v) as [[[? ?] ?]|]; [|done]. by simplify_eq/=; left.
Qed.

Lemma finish_listen_keeps os t r t' : tcp_finish_listen os t = (r, t') → keeps t t'.
Proof. unfold tcp_finish_listen, nt_finish_listen. intros E. keep_slot. Qed.

Lemma listen_p3_keeps os t v r t' v' : tcp_listen_p3 os t v = Some (r, t', v') → keeps t t'.
Proof.
  unfold tcp_listen_p3, nt_listen_p3. intros E. destruct t as [s|lo|s lo].
  - keep_slot.
  - destruct (lt_listen_p3 lo v) as [[[? ?] ?]|]; [|done]. by simplify_eq/=; right.
  - destruct (lt_listen_p3 lo v) as [[[? ?] ?]|]; keep_slot.
Qed.

Lemma take_rx_keeps t rx t' : take_loopback_listen_rx t = Ok (rx, t') → keeps t t'.
Proof. unfold take_loopback_listen_rx. intros E. keep_slot. Qed.

Lemma accept_keeps os t v r t' v' : tcp_accept os t v = (r, t', v') → keeps t t'.
Proof. unfold tcp_accept, nt_accept. intros E. keep_slot. Qed.

(** A connection just accepted holds no slot. *)
Lemma accept_bare os t v a t' v' : tcp_accept os t v = (Ok (Some a), t', v') → tcp_slot a = None.
Proof. unfold tcp_accept, nt_accept, new_accept. intros E. keep_slot. Qed.

Lemma take_streams_keep t v r t' v' e t2 :
  (take_send_stream t v = (r, t', v') → keeps t t')
  ∧ (take_receive_stream t = Ok (e, t2) → keeps t t2).
Proof.
  unfold take_send_stream, take_receive_stream, nt_take_send_stream, nt_take_receive_stream.
  split; intros E; keep_slot.
Qed.

Lemma p2_streams_keep t v t' v' : p2_streams t v = (Ok t', v') → tcp_slot t' = tcp_slot t.
Proof.
  unfold p2_streams, set_p2_streaming_state. intros E. repeat case_match; simplify_eq/=; try done.
Qed.

Lemma ready_keeps os t v t' v' : tcp_ready os t v = Some (t', v') → keeps t t'.
Proof.
  unfold tcp_ready, nt_ready. intros E. destruct t as [s|lo|s lo].
  - repeat case_match; simplify_eq/=; try done; by left.
  - destruct (lt_ready os lo v) as [[? ?]|]; [|done]. by simplify_eq/=; right.
  - destruct (lt_ready os lo v) as [[? ?]|]; repeat case_match; simplify_eq/=; try done; by left.
Qed.

(** ** The life of a socket *)

Section tcp_life.
Context `{UriLib}.
Context (c : WasiSocketsCtx) (Hquota : quota_ok c).
Implicit Types (w : TcpWorld) (os : TcpOs) (now : Instant) (A : list TcpSocket).

Definition world_registered w : Prop := tcp_registered (fb_net (fabric w)) (tk w).

(** Permits available, held by the socket, and held by the connections it has
    accepted. *)
Definition slots_of (i : SemId) A : Z := foldr (λ t z, held i (tcp_slot t) + z) 0 A.
Definition tcp_balance (i : SemId) A w : Z :=
  permits (heap (tst w)) i + held i (tcp_slot (tk w)) + slots_of i A.

(** The ports other sockets hold are left alone. *)
Definition world_framed w w' : Prop :=
  framed (fb_net (fabric w)) (tk w) (fb_net (fabric w')) (tk w').

Definition tcp_sound A w A' w' : Prop :=
  (world_registered w → world_registered w') ∧ world_framed w w'
  ∧ ∀ i, tcp_balance i A' w' = tcp_balance i A w.

Lemma tcp_sound_refl A w : tcp_sound A w A w.
Proof. split; [done|]. split; [apply framed_refl|done]. Qed.

Lemma tcp_sound_trans A1 w1 A2 w2 A3 w3 : tcp_sound A1 w1 A2 w2 → tcp_sound A2 w2 A3 w3 → tcp_sound A1 w1 A3 w3.
Proof.
  intros (H1 & F1 & B1) (H2 & F2 & B2). split; [auto|].
  split; [by eapply framed_trans|]. intros i. by rewrite B2.
Qed.

Lemma sound_socket A w t v :
  keeps (tk w) t → (world_registered w → tcp_registered (fb_net v) t) →
  framed (fb_net (fabric w)) (tk w) (fb_net v) t →
  tcp_sound A w A (with_socket w t v).
Proof.
  intros Hk Hr Hf. split; [done|]. split; [done|]. intros i. unfold tcp_balance, with_socket, let_go. simpl.
  rewrite release_slot_permits. destruct Hk as [-> | ->]; simpl; [|lia].
  destruct (tcp_slot (tk w)); simpl; lia.
Qed.

(** A decision that hands out no slot moves no permit. *)
Lemma sound_policy A w addr reason now r st slot :
  check c addr reason now (tst w) = (r, st) → spends reason = false →
  slot = None ∨ (∃ a, r = Ok a ∧ slot = permit a) →
  tcp_sound A w A (with_policy w (release_slot st slot)).
Proof.
  intros Hc Hs Hslot. destruct (check_no_spend c _ _ _ _ _ _ Hc Hs) as [Hh Hn].
  assert (slot = None) as -> by (destruct Hslot as [-> | (a & -> & ->)]; auto).
  split; [done|]. split; [apply framed_refl|]. intros i. unfold tcp_balance. simpl. by rewrite Hh.
Qed.

Lemma sound_policy_plain A w addr reason now r st :
  check c addr reason now (tst w) = (r, st) → spends reason = false →
  tcp_sound A w A (with_policy w st).
Proof. intros Hc Hs. apply (sound_policy A w addr reason now r st None Hc Hs). by left. Qed.

Lemma hold_None w : hold w None = w.
Proof. destruct w as [[s|lo|s lo] v st l]; done. Qed.

Lemma check_bind_allowed addr now st a st' :
  check c addr TcpBind now st = (Ok a, st') → al_addr a = addr ∧ permit a = None.
Proof.
  unfold check, decide_for_store, decide_inner, decide_use, decide_bind, allow_by_address.
  destruct (_ || _); simpl; [|done]. by intros [= <- _].
Qed.

Lemma start_bind_sound A os w addr now r w' :
  tcp_os_ok os → 0 ≤ sock_port addr ≤ u16_MAX →
  start_bind_checked c os w addr now = (r, w') → tcp_sound A w A w'.
Proof.
  intros Hos Hp. unfold start_bind_checked.
  destruct (check c addr TcpBind now (tst w)) as [r0 st] eqn:Ec.
  destruct r0 as [a|e]; [|intros [= _ <-]; by eapply sound_policy_plain].
  destruct (check_bind_allowed _ _ _ _ _ Ec) as [-> Hn].
  pose proof (sound_policy A w addr TcpBind now (Ok a) st (permit a) Ec eq_refl) as Hs.
  set (w1 := with_policy w (release_slot st (permit a))) in *.
  destruct (tcp_start_bind os (tk w1) addr (fb_net (fabric w1))) as [[r1 t1] n1] eqn:Eb.
  intros [= _ <-]. eapply tcp_sound_trans; [apply Hs; right; eauto|].
  apply sound_socket; [by eapply start_bind_keeps| |by eapply start_bind_framed].
  intros Hr. by eapply start_bind_registered.
Qed.

Lemma finish_bind_sound A w r w' : p2_finish_bind w = (r, w') → tcp_sound A w A w'.
Proof.
  unfold p2_finish_bind. destruct (tcp_finish_bind (tk w)) as [r1 t1] eqn:E. intros [= _ <-].
  apply sound_socket; [by eapply finish_bind_keeps| |by eapply finish_bind_framed].
  intros. by eapply finish_bind_tcp_registered.
Qed.

Lemma tcp_p3_bind_sound A os w addr now r w' :
  tcp_os_ok os → 0 ≤ sock_port addr ≤ u16_MAX →
  p3_tcp_bind c os w addr now = (r, w') → tcp_sound A w A w'.
Proof.
  intros Hos Hp. unfold p3_tcp_bind. destruct (start_bind_checked _ _ _ _ _) as [r1 w1] eqn:E.
  apply (start_bind_sound A) in E; [|done..]. destruct r1; [|by intros [= _ <-]].
  intros Ef. eapply tcp_sound_trans; [exact E|]. by eapply finish_bind_sound.
Qed.

(** A connect is decided without a slot. *)
Lemma start_connect_sound A os w addr now r w' :
  start_connect_checked c os w addr now = (r, w') →
  tcp_sound A w A w' ∧ ∀ f slot, r = Ok (f, slot) → slot = None.
Proof.
  unfold start_connect_checked.
  destruct (check c addr TcpConnect now (tst w)) as [r0 st] eqn:Ec.
  destruct (check_no_spend c _ _ _ _ _ _ Ec eq_refl) as [_ Hn].
  pose proof (sound_policy_plain A w addr TcpConnect now r0 st Ec eq_refl) as Hs.
  destruct r0 as [a|e]; [|by intros [= <- <-]].
  set (w1 := with_policy w st) in *. rewrite (Hn a eq_refl).
  destruct (tcp_start_connect _ _ _ _ _) as [[r1 t1] n1] eqn:E.
  assert (tcp_sound A w A (with_network w1 t1 n1)) as Hw.
  { eapply tcp_sound_trans; [exact Hs|]. apply sound_socket;
      [by eapply start_connect_keeps| |by eapply start_connect_framed].
    intros Hr. by eapply start_connect_registered. }
  destruct r1 as [f|e]; intros [= <- <-]; [|by split].
  split; [done|]. by intros f' slot [= <- <-].
Qed.

Lemma p2_start_connect_sound A os w addr now r w' :
  p2_start_connect c os w addr now = (r, w') → tcp_sound A w A w'.
Proof.
  unfold p2_start_connect. destruct (start_connect_checked _ _ _ _ _) as [r1 w1] eqn:E.
  apply (start_connect_sound A) in E as [Hs Hn].
  destruct r1 as [[f slot]|e]; [|by intros [= _ <-]]. rewrite (Hn f slot eq_refl).
  destruct (tcp_set_pending_connect (tk w1) f) as [t|e] eqn:Ep; intros [= _ <-]; [|done].
  rewrite hold_None. eapply tcp_sound_trans; [exact Hs|].
  apply sound_socket; [by eapply set_pending_keeps| |by eapply set_pending_framed].
  intros Hr. by eapply set_pending_registered.
Qed.

Lemma p3_connect_start_sound A os w addr now r w' :
  p3_connect_start c os w addr now = (r, w') → tcp_sound A w A w'.
Proof.
  unfold p3_connect_start. destruct (start_connect_checked _ _ _ _ _) as [r1 w1] eqn:E.
  apply (start_connect_sound A) in E as [Hs Hn].
  destruct r1 as [[f slot]|e]; intros [= _ <-]; [|done]. by rewrite (Hn f slot eq_refl), hold_None.
Qed.

Lemma finish_step A w res r t v :
  tcp_finish_connect (tk w) res (fabric w) = (r, t, v) → tcp_sound A w A (with_socket w t v).
Proof.
  intros E. apply sound_socket; [by eapply finish_connect_keeps| |by eapply finish_connect_framed].
  intros Hr. by eapply finish_connect_registered.
Qed.

Lemma p2_finish_connect_sound A os w r w' : p2_finish_connect os w = (r, w') → tcp_sound A w A w'.
Proof.
  unfold p2_finish_connect.
  destruct (tcp_take_pending_connect _ _ _) as [[r1 t1] v1] eqn:E1.
  assert (tcp_sound A w A (with_socket w t1 v1)) as H1.
  { apply sound_socket; [by eapply take_pending_keeps| |by eapply take_pending_framed].
    intros Hr. by eapply take_pending_registered. }
  destruct r1 as [[res|]|e]; [|by intros [= _ <-]..].
  set (w1 := with_socket w t1 v1) in *.
  destruct (tcp_finish_connect _ _ _) as [[r2 t2] v2] eqn:E2.
  pose proof (finish_step A w1 res r2 t2 v2 E2) as H2.
  destruct r2 as [u|e]; [|intros [= _ <-]; by eapply tcp_sound_trans].
  set (w2 := with_socket w1 t2 v2) in *.
  destruct (p2_streams (tk w2) (fabric w2)) as [[t3|e] v3] eqn:E3; intros [= _ <-];
    (eapply tcp_sound_trans; [exact H1|]; eapply tcp_sound_trans; [exact H2|]).
  - apply (sound_socket A w2 t3 v3); [left; by eapply p2_streams_keep| |].
    + intros Hr. by eapply p2_streams_registered.
    + rewrite (p2_streams_net _ _ _ _ E3). apply framed_keep. left. by eapply p2_streams_owned.
  - apply sound_socket; [done| |]; rewrite (p2_streams_net _ _ _ _ E3); [done|apply framed_refl].
Qed.

Lemma p3_connect_poll_sound A os w f r w' : p3_connect_poll os w f = (r, w') → tcp_sound A w A w'.
Proof.
  unfold p3_connect_poll. destruct (poll_connect os (fabric w) f) as [[res|] v1] eqn:E1;
    pose proof (fb_net_poll _ _ _ _ _ E1) as Hn.
  - destruct (tcp_finish_connect (tk w) res v1) as [[r2 t2] v2] eqn:E2. intros [= _ <-].
    apply sound_socket; [by eapply finish_connect_keeps| |].
    + intros Hr. eapply finish_connect_registered; [|exact E2]. by rewrite Hn.
    + rewrite <-Hn. by eapply finish_connect_framed.
  - intros [= _ <-]. apply sound_socket; [done| |]; rewrite Hn; [done|apply framed_refl].
Qed.

Lemma p3_connect_cancel_sound A w : tcp_sound A w A (p3_connect_cancel w).
Proof.
  unfold p3_connect_cancel. destruct (tcp_cancel_connect _ _) as [t v] eqn:E.
  apply sound_socket; [by eapply cancel_keeps| |by eapply cancel_connect_framed].
  intros Hr. by eapply cancel_connect_registered.
Qed.

Lemma p2_start_listen_sound A os w now r w' :
  p2_start_listen c os w now = Some (r, w') → tcp_sound A w A w'.
Proof.
  unfold p2_start_listen. destruct (tcp_local_address os (tk w)) as [l|e];
    [|intros [= _ <-]; apply tcp_sound_refl].
  destruct (check c l TcpListen now (tst w)) as [r0 st] eqn:Ec.
  destruct r0 as [a|e]; [|intros [= _ <-]; by eapply sound_policy_plain].
  pose proof (sound_policy A w l TcpListen now (Ok a) st (permit a) Ec eq_refl) as Hs.
  set (w1 := with_policy w (release_slot st (permit a))) in *.
  destruct (tcp_start_listen (tk w1) (fabric w1)) as [[[r1 t1] v1]|] eqn:E; [|done].
  intros [= _ <-]. eapply tcp_sound_trans; [apply Hs; right; eauto|].
  apply sound_socket; [by eapply start_listen_keeps| |by eapply start_listen_framed].
  intros Hr. by eapply start_listen_registered.
Qed.

Lemma p2_finish_listen_sound A os w r w' : p2_finish_listen os w = (r, w') → tcp_sound A w A w'.
Proof.
  unfold p2_finish_listen. destruct (tcp_finish_listen os (tk w)) as [r1 t1] eqn:E.
  intros [= _ <-]. apply sound_socket; [by eapply finish_listen_keeps| |by eapply finish_listen_framed].
  intros Hr. by eapply finish_listen_registered.
Qed.

Lemma listen_kind_sound A w k w' : listen_kind w = Ok (k, w') → tcp_sound A w A w'.
Proof.
  unfold listen_kind. destruct (tk w) as [s|lo|s lo] eqn:Et.
  - destruct (tcp_listener_arc s); [|done]. intros [= _ <-]. apply tcp_sound_refl.
  - destruct (take_loopback_listen_rx (TLoopback lo)) as [[rx t]|] eqn:E; [|done]. intros [= _ <-].
    apply sound_socket; rewrite ?Et; [by eapply take_rx_keeps| |by eapply take_rx_framed].
    unfold world_registered. rewrite Et. intros Hr. by eapply take_rx_registered.
  - destruct (tcp_listener_arc s); [|done].
    destruct (take_loopback_listen_rx (TUnspecified s lo)) as [[rx t]|] eqn:E; [|done].
    intros [= _ <-]. apply sound_socket; rewrite ?Et; [by eapply take_rx_keeps| |by eapply take_rx_framed].
    unfold world_registered. rewrite Et. intros Hr. by eapply take_rx_registered.
Qed.

Lemma p3_listen_sound A os w now r w' : p3_listen c os w now = Some (r, w') → tcp_sound A w A w'.
Proof.
  unfold p3_listen. cbn zeta.
  set (implicit := if tcp_needs_implicit_bind (tk w) then _ else _).
  destruct (match implicit with Some a => _ | None => _ end) as [l|e];
    [|intros [= _ <-]; apply tcp_sound_refl].
  assert (∀ bound st,
    match implicit with
    | None => (Ok tt, tst w)
    | Some a => let '(r, st) := check c a TcpBind now (tst w) in
                (match r with Ok _ => Ok tt | Err e => Err e end, st)
    end = (bound, st) → tcp_sound A w A (with_policy w st)) as Hbound.
  { intros bound st. destruct implicit as [a|].
    - destruct (check c a TcpBind now (tst w)) as [r0 st0] eqn:Ec. intros [= _ <-].
      by eapply sound_policy_plain.
    - intros [= _ <-]. split; [done|]. split; [apply framed_refl|done]. }
  destruct (match implicit with Some a => _ | None => (Ok tt, tst w) end) as [bound st0].
  specialize (Hbound bound st0 eq_refl).
  destruct bound as [u|e]; [|by intros [= _ <-]].
  destruct (check c l TcpListen now st0) as [r1 st1] eqn:Ec.
  assert (tcp_sound A w A (with_policy w st1)) as Hs.
  { eapply tcp_sound_trans; [exact Hbound|].
    exact (sound_policy_plain A (with_policy w st0) l TcpListen now r1 st1 Ec eq_refl). }
  destruct r1 as [a|e]; [|by intros [= _ <-]]. simpl.
  destruct (tcp_listen_p3 os (tk w) (fabric w)) as [[[r2 t2] v2]|] eqn:E; [|done].
  assert (tcp_sound A w A (with_socket (with_policy w st1) t2 v2)) as Hw.
  { eapply tcp_sound_trans; [exact Hs|]. apply sound_socket;
      [by eapply listen_p3_keeps| |by eapply listen_p3_framed].
    intros Hr. by eapply listen_p3_registered. }
  destruct r2 as [u2|e]; [|by intros [= _ <-]]. simpl.
  destruct (listen_kind _) as [[k w3]|e] eqn:Ek; intros [= _ <-]; [|done].
  eapply tcp_sound_trans; [exact Hw|]. by eapply listen_kind_sound.
Qed.

(** An accepted connection takes its slot with it. *)
Lemma judge_keep os t now st a st' :
  tcp_slot t = None → judge_accepted c os t now st = (Some a, st') →
  ∀ i, permits (heap (keep_accepted t (permit a) st').2) i
       + held i (tcp_slot (keep_accepted t (permit a) st').1) = permits (heap st) i.
Proof.
  intros Ht. unfold judge_accepted. destruct (tcp_remote_address os t) as [addr|]; [|done].
  destruct (check c addr (accept_use t) now st) as [[b|e] st1] eqn:Ec; [|done].
  intros [= <- <-] i. destruct (check_spends c _ _ _ _ _ _ Hquota Ec) as [Hp _].
  specialize (Hp i). simpl in Hp. unfold keep_accepted. cbn [fst snd].
  rewrite release_slot_permits. destruct (permit b) as [x|]; destruct t as [s|lo|s lo];
    simpl in *; rewrite ?Ht; simpl; lia.
Qed.

Lemma judge_refuse os t now st st' :
  judge_accepted c os t now st = (None, st') → ∀ i, permits (heap st') i = permits (heap st) i.
Proof.
  unfold judge_accepted. destruct (tcp_remote_address os t) as [addr|]; [|by intros [= <-]].
  destruct (check c addr (accept_use t) now st) as [[b|e] st1] eqn:Ec; [done|].
  intros [= <-] i. destruct (check_spends c _ _ _ _ _ _ Hquota Ec) as [Hp _].
  specialize (Hp i). simpl in Hp. lia.
Qed.

Definition joined A (r : result TcpSocket TcpError) : list TcpSocket :=
  match r with Ok t => t :: A | Err _ => A end.

Lemma accept_loop_sound A oss fuel : ∀ refused now w r w',
  accept_loop c oss fuel refused now w = Some (r, w') → tcp_sound A w (joined A r) w'.
Proof.
  induction fuel as [|fuel IH]; intros refused now w r w'; cbn [accept_loop]; [done|].
  destruct (tcp_accept _ (tk w) (fabric w)) as [[r1 t1] v1] eqn:E.
  assert (tcp_sound A w A (with_socket w t1 v1)) as Hs.
  { apply sound_socket; [by eapply accept_keeps| |by eapply accept_framed].
    intros Hr. by destruct (accept_registered _ _ _ _ _ _ Hr E) as (_ & ? & _). }
  destruct r1 as [[a|]|e]; [|by intros [= <- <-]..].
  pose proof (accept_bare _ _ _ _ _ _ E) as Ha.
  set (w1 := with_socket w t1 v1) in *.
  destruct (judge_accepted c (oss refused) a now (tst w1)) as [[al|] st] eqn:Ej.
  - pose proof (judge_keep _ _ _ _ _ _ Ha Ej) as Hp.
    destruct (keep_accepted a (permit al) st) as [t2 st2]. intros [= <- <-].
    eapply tcp_sound_trans; [exact Hs|]. split; [done|].
    split; [apply framed_refl|]. intros i. specialize (Hp i). unfold tcp_balance. simpl in *. lia.
  - pose proof (judge_refuse _ _ _ _ _ Ej) as Hp.
    assert (tcp_sound A w A (with_policy (with_socket w1 (tk w1) (tcp_refuse a (fabric w1))) st)) as H2.
    { eapply tcp_sound_trans; [exact Hs|]. split; [|split].
      - unfold world_registered. simpl. by rewrite refuse_net.
      - unfold world_framed. simpl. rewrite refuse_net. apply framed_refl.
      - intros i. unfold tcp_balance. simpl in *. by rewrite Hp. }
    destruct (MAX_REFUSED_ACCEPTS_PER_CALL <=? S refused)%nat; [by intros [= <- <-]|].
    intros Hl. eapply tcp_sound_trans; [exact H2|]. by eapply IH.
Qed.

Lemma p2_accept_sound A oss w now r w' :
  p2_accept c oss now w = Some (r, w') → tcp_sound A w (joined A r) w'.
Proof.
  unfold p2_accept. destruct (accept_loop _ _ _ _ _ _) as [[r1 w1]|] eqn:E; [|done]. simpl.
  apply (accept_loop_sound A) in E. destruct r1 as [a|e]; [|by intros [= <- <-]].
  destruct (p2_streams a (fabric w1)) as [[t|e] v] eqn:Ep; intros [= <- <-];
    pose proof (p2_streams_net _ _ _ _ Ep) as Hn.
  - destruct E as (Hr & Hf & Hb). split; [|split].
    + unfold world_registered in *. simpl. rewrite Hn. done.
    + unfold world_framed in *. simpl. by rewrite Hn.
    + intros i. rewrite <-Hb. unfold tcp_balance, with_socket, let_go. simpl.
      rewrite (p2_streams_keep _ _ _ _ Ep). destruct (tcp_slot (tk w1)); simpl; lia.
  - destruct E as (Hr & Hf & Hb). split; [|split].
    + unfold world_registered in *. simpl. rewrite refuse_net, Hn. done.
    + unfold world_framed in *. simpl. by rewrite refuse_net, Hn.
    + intros i. rewrite <-Hb. unfold tcp_balance. simpl. rewrite release_slot_permits. lia.
Qed.

Lemma streams_sound A w r r2 w' :
  (p3_send_stream w = (r, w') → tcp_sound A w A w')
  ∧ (p3_receive_stream w = (r2, w') → tcp_sound A w A w').
Proof.
  unfold p3_send_stream, p3_receive_stream. split.
  - destruct (take_send_stream (tk w) (fabric w)) as [[r1 t1] v1] eqn:E.
    assert (tcp_sound A w A (with_socket w t1 v1)) as Hs.
    { apply sound_socket; [exact (proj1 (take_streams_keep _ _ _ _ _ (RealEnd 0) t1) E)| |].
      - intros Hr. exact (proj1 (take_streams_registered _ _ _ _ _ (RealEnd 0) t1 Hr) E).
      - exact (proj1 (take_streams_framed _ _ _ _ _ (fb_net v1) (RealEnd 0) t1) E). }
    by destruct r1; intros [= _ <-].
  - destruct (take_receive_stream (tk w)) as [[e t1]|] eqn:E; intros [= _ <-]; [|apply tcp_sound_refl].
    assert (tcp_sound A w A (with_socket w t1 (fabric w))) as Hs; [|exact Hs].
    apply sound_socket; [exact (proj2 (take_streams_keep _ (fabric w) (Ok e) (tk w) (fabric w) _ _) E)| |].
    + intros Hr. exact (proj2 (take_streams_registered _ _ (Ok e) (tk w) (fabric w) _ _ Hr) E).
    + exact (proj2 (take_streams_framed _ (fabric w) (Ok e) (tk w) (fabric w) _ _ _) E).
Qed.

Lemma shutdown_sound A w how r w' : p2_shutdown w how = (r, w') → tcp_sound A w A w'.
Proof.
  unfold p2_shutdown. destruct (tk w) as [s|lo|s lo] eqn:Et; try (intros [= _ <-]; apply tcp_sound_refl).
  assert (∀ r v, lt_shutdown lo how (fabric w) = (r, v) → fb_net v = fb_net (fabric w)) as Hn.
  { unfold lt_shutdown. intros q v. destruct (lt_state lo) as [| | | | | | |? ? ? rx tx|];
      intros [= _ <-]; try done. by destruct how, rx, tx. }
  destruct (lt_shutdown lo how (fabric w)) as [q v] eqn:E. intros [= _ <-]. rewrite <-Et.
  apply sound_socket; rewrite ?(Hn _ _ eq_refl); [done..|apply framed_refl].
Qed.

Lemma ready_sound A os w w' : p2_ready os w = Some w' → tcp_sound A w A w'.
Proof.
  unfold p2_ready. destruct (tcp_ready os (tk w) (fabric w)) as [[t v]|] eqn:E; [|done].
  intros [= <-]. apply sound_socket; [by eapply ready_keeps| |by eapply ready_framed].
  intros Hr. by eapply ready_registered.
Qed.

Lemma set_option_sound A os w o r w' : set_tcp_option os w o = (r, w') → tcp_sound A w A w'.
Proof.
  assert (∀ real virt r t, (∀ lo lo', virt lo = Ok lo' → lt_state lo' = lt_state lo) →
    tcp_set real virt (tk w) = (r, t) → tcp_sound A w A (with_socket w t (fabric w))) as Hset.
  { intros real virt r' t Hv E.
    apply sound_socket; [|intros Hr; by eapply tcp_set_registered|by eapply tcp_set_framed].
    unfold tcp_set in E. keep_slot. }
  unfold set_tcp_option.
  destruct o as [v|v|v|v|v|v|v|v].
  1:{ destruct (tcp_set_listen_backlog_size os (tk w) v) as [r1 t1] eqn:E. intros [= _ <-].
      apply sound_socket; [|intros Hr; by eapply set_backlog_registered|by eapply set_backlog_framed].
      unfold tcp_set_listen_backlog_size, nt_set_listen_backlog_size in E. keep_slot. }
  7:{ destruct (tcp_set_send_buffer_size os v (tk w) (fabric w)) as [[r1 t1] v1] eqn:E.
      intros [= _ <-].
      apply sound_socket; [|intros Hr; by eapply set_send_buffer_registered|by eapply set_send_buffer_framed].
      unfold tcp_set_send_buffer_size in E. keep_slot. }
  all: unfold tcp_set_keep_alive_enabled, tcp_set_keep_alive_idle_time, tcp_set_keep_alive_interval,
         tcp_set_keep_alive_count, tcp_set_hop_limit, tcp_set_receive_buffer_size;
    destruct (tcp_set _ _ (tk w)) as [r1 t1] eqn:E; intros [= _ <-]; (eapply Hset; [|exact E]);
    intros lo lo'; first [by intros [= <-] | by apply nonzero_option_state].
Qed.

(** *** Histories *)

(** One call on the socket, with the connections it accepted.  Addresses carry
    16-bit ports, as the guest's and the operating system's do. *)
Inductive tcp_call : TcpWorld → list TcpSocket → TcpWorld → Prop :=
  | tc_p2_bind os w addr now r w' :
      tcp_os_ok os → 0 ≤ sock_port addr ≤ u16_MAX →
      p2_start_bind c os w addr now = (r, w') → tcp_call w [] w'
  | tc_finish_bind w r w' : p2_finish_bind w = (r, w') → tcp_call w [] w'
  | tc_p3_bind os w addr now r w' :
      tcp_os_ok os → 0 ≤ sock_port addr ≤ u16_MAX →
      p3_tcp_bind c os w addr now = (r, w') → tcp_call w [] w'
  | tc_p2_connect os w addr now r w' :
      p2_start_connect c os w addr now = (r, w') → tcp_call w [] w'
  | tc_p2_finish os w r w' : p2_finish_connect os w = (r, w') → tcp_call w [] w'
  | tc_p3_connect os w addr now r w' :
      p3_connect_start c os w addr now = (r, w') → tcp_call w [] w'
  | tc_p3_poll os w f r w' : p3_connect_poll os w f = (r, w') → tcp_call w [] w'
  | tc_p3_cancel w : tcp_call w [] (p3_connect_cancel w)
  | tc_start_listen os w now r w' : p2_start_listen c os w now = Some (r, w') → tcp_call w [] w'
  | tc_finish_listen os w r w' : p2_finish_listen os w = (r, w') → tcp_call w [] w'
  | tc_p3_listen os w now r w' : p3_listen c os w now = Some (r, w') → tcp_call w [] w'
  | tc_accept oss w now r w' :
      p2_accept c oss now w = Some (r, w') → tcp_call w (joined [] r) w'
  | tc_send w r w' : p3_send_stream w = (r, w') → tcp_call w [] w'
  | tc_receive w r w' : p3_receive_stream w = (r, w') → tcp_call w [] w'
  | tc_shutdown w how r w' : p2_shutdown w how = (r, w') → tcp_call w [] w'
  | tc_ready os w w' : p2_ready os w = Some w' → tcp_call w [] w'
  | tc_option os w o r w' : set_tcp_option os w o = (r, w') → tcp_call w [] w'
  | tc_close_streams w l : tcp_call w [] (with_streams w l).

(** Calls on one socket; in between, the rest of the workload may do anything to
    the fabric. *)
Inductive tcp_history (w0 : TcpWorld) : list TcpSocket → TcpWorld → Prop :=
  | th_start : tcp_history w0 [] w0
  | th_call A w B w' : tcp_history w0 A w → tcp_call w B w' → tcp_history w0 (B ++ A) w'
  | th_others A w v :
      tcp_history w0 A w →
      tcp_history w0 A {| tk := tk w; fabric := v; tst := tst w; tstreams := tstreams w |}.

Lemma set_loopback_ip_port a : sock_port (set_loopback_ip a) = sock_port a.
Proof. by destruct a. Qed.

Lemma tcp_call_sound A w B w' : tcp_call w B w' → tcp_sound A w (B ++ A) w'.
Proof.
  destruct 1 as [os w addr now r w' Hos Hp E| | | | | | | | | | |oss w now r w' E| | | | | |w l];
    simpl; eauto using finish_bind_sound, tcp_p3_bind_sound, p2_start_connect_sound,
      p2_finish_connect_sound, p3_connect_start_sound, p3_connect_poll_sound,
      p3_connect_cancel_sound, p2_start_listen_sound, p2_finish_listen_sound, p3_listen_sound,
      shutdown_sound, ready_sound, set_option_sound.
  - eapply start_bind_sound; [done| |exact E].
    destruct (is_unspecified _); by rewrite ?set_loopback_ip_port.
  - apply (p2_accept_sound A) in E. by destruct r.
  - by eapply (proj1 (streams_sound A w r r w')).
  - by eapply (proj2 (streams_sound A w r r w')).
  - split; [done|]. split; [apply framed_refl|done].
Qed.

Lemma tcp_history_balance w0 A w :
  tcp_history w0 A w → ∀ i, tcp_balance i A w = tcp_balance i [] w0.
Proof.
  induction 1 as [|A w B w' Hh IH Hc|A w v Hh IH]; intros i; [done| |by rewrite <-IH].
  destruct (tcp_call_sound A _ _ _ Hc) as (_ & _ & Hb). by rewrite Hb.
Qed.

End tcp_life.
