(* ===== verification/TcpSafety.v ===== *)
(** * What the TCP handlers guarantee

    Theorems over [TcpHandlers]: permits and virtual ports over the life of a
    socket, where a connection goes, which connections are accepted and that
    accepting ends; and the runs that show where the code falls short. *)

From Stdlib Require Import ZArith Lia.
From stdpp Require Import base list gmap strings option.
From S2P Require Import Prelude RustStr Net UriLib EgressPolicy InternalNames DeclaredPort AllowedIpName.
From S2P Require Import AllowedHosts AllowedLoopback SocketUtil Quota ResolvedNames SocketPolicy Slots.
From S2P Require Import LoopbackNet TcpStreams TcpSocket TcpPorts TcpHandlers.
Local Open Scope Z_scope.

Section tcp_safety.
Context `{UriLib}.
Implicit Types (c : WasiSocketsCtx) (w : TcpWorld) (os : TcpOs) (now : Instant).

(** ** Permits and ports over a socket's life *)

Lemma nt_new_bare os uses family s : nt_new os uses family = Ok s → nt_slot s = None.
Proof.
  unfold nt_new. destruct (check_allowed_tcp _); [|done]. destruct (to_open os); [|done].
  by intros [= <-].
Qed.

(** C7: a TCP socket returns exactly the permits it took.  Creating one takes a
    slot of the guest's allowance or fails and takes nothing; whatever is then
    called on it, in p2 or p3, once it is dropped every permit is back except
    those of the connections it accepted, which hold their own. *)
Theorem tcp_socket_returns_its_permits c os family now st r st1 :
  quota_ok c → tcp_create c os family now st = (r, st1) →
  match r with
  | Err _ => ∀ i, permits (heap st1) i = permits (heap st) i
  | Ok t => (quota (ctx_policy c) = None ∨ is_Some (tcp_slot t))
      ∧ ∀ v A w v' st',
          tcp_history c {| tk := t; fabric := v; tst := st1; tstreams := [] |} A w →
          p3_tcp_drop w = Some (v', st') →
          ∀ i, permits (heap st') i + slots_of i A = permits (heap st) i
  end.
Proof.
  intros Hq. unfold tcp_create.
  destruct (check c (implicit_bind_addr family) TcpCreate now st) as [r0 st0] eqn:Ec.
  destruct (check_spends c _ TcpCreate now st r0 st0 Hq Ec) as [Hb Hs].
  destruct r0 as [a|e]; [|intros [= <- <-] i; specialize (Hb i); simpl in Hb; lia].
  simpl in Hb. destruct (nt_new os _ family) as [s|e] eqn:En; intros [= <- <-].
  - apply nt_new_bare in En. split.
    + destruct (quota (ctx_policy c)) eqn:Eq; [right|by left].
      destruct (Hs eq_refl ltac:(eauto) a eq_refl) as [x Hx]. rewrite Hx. simpl. eauto.
    + intros v A w v' st' Hh Hd i. pose proof (tcp_history_balance c Hq _ _ _ Hh i) as Hbal. unfold tcp_balance in Hbal. simpl in Hbal.
      unfold p3_tcp_drop in Hd. destruct (tcp_drop _ _); [|done]. injection Hd as _ <-.
      rewrite release_slot_permits. specialize (Hb i).
      destruct (permit a) as [x|]; simpl in *; rewrite ?En in *; simpl in *; lia.
  - intros i. rewrite release_slot_permits. apply Hb.
Qed.

(** ** Where a connection goes *)

Lemma tcp_start_connect_target os t addr plane n f t' n' :
  tcp_start_connect os t addr plane n = (Ok f, t', n') →
  match f with
  | FutReal a => a = addr ∧ plane = Host ∧ ∀ lo, t ≠ TLoopback lo
  | FutVirtual tx => connect_tcp n' addr = Ok tx ∧ ((∀ lo, t ≠ TLoopback lo) → plane = Virtual)
  end.
Proof.
  unfold tcp_start_connect, connect_unbound_virtual, lt_start_connect.
  destruct (connectable t addr); [|done].
  destruct t as [s|lo|s lo], plane; simpl; repeat case_match; intros; simplify_eq/=;
    split_and?; try done; intros Hx; by destruct (Hx lo).
Qed.

(** C5: no TCP connection leaves the guest's virtual network without a grant.  In
    enforcing mode, when a connect call (p2's or p3's, from a socket in any
    state) gets as far as dialling, the policy granted the address; if the
    kernel is the one that dials, it dials exactly the granted address, and the
    grant is for the machine's network; otherwise the connection goes to the
    listener that the guest's own virtual network has at that port, and, unless
    the socket had been bound to loopback, the grant was for that network. *)
Theorem tcp_connect_goes_where_granted c os w addr now f slot w' :
  egress_mode (ctx_policy c) = Enforce →
  start_connect_checked c os w addr now = (Ok (f, slot), w') →
  ∃ route, granted (ctx_policy c) (Some (ctx_names c)) now Tcp addr route
    ∧ match f with
      | FutReal a => a = rt_addr route ∧ rt_plane route = Host
      | FutVirtual tx =>
          connect_tcp (fb_net (fabric w')) (rt_addr route) = Ok tx
          ∧ ((∀ lo, tk w ≠ TLoopback lo) → rt_plane route = Virtual)
      end.
Proof.
  intros Hm. unfold start_connect_checked, check, decide_for_store.
  rewrite (decide_inner_connect _ TcpConnect _ _ _ _ Tcp eq_refl).
  destruct (resolve_connect _ _ _ _ _ _) as [[rt|e] st] eqn:Er; [|done]. simpl.
  apply resolve_connect_enforce in Er as [Hg _]; [|done].
  destruct (tcp_start_connect _ _ _ _ _) as [[r1 t1] n1] eqn:E.
  destruct r1 as [f1|e]; [|done]. intros [= <- _ <-]. exists rt. split; [done|].
  apply tcp_start_connect_target in E. destruct f1 as [a|tx]; simpl; [|done].
  by destruct E as (-> & -> & _).
Qed.

(** ** Accepting *)

Ltac at_limit :=
  match goal with |- context [(?a <=? ?b)%nat] => destruct (Nat.leb_spec a b) end.

(** Each round that goes on has refused one more; the loops' fuel is their limit. *)
Lemma accept_loop_total c oss now : ∀ fuel refused w,
  (MAX_REFUSED_ACCEPTS_PER_CALL ≤ fuel + refused)%nat → (refused < MAX_REFUSED_ACCEPTS_PER_CALL)%nat →
  is_Some (accept_loop c oss fuel refused now w).
Proof.
  induction fuel as [|fuel IH]; intros refused w Hf Hr; [lia|]. cbn [accept_loop].
  destruct (tcp_accept _ _ _) as [[[[a|]|e] t] v]; [|by eauto..].
  destruct (judge_accepted _ _ _ _ _) as [[al|] st].
  - destruct (keep_accepted _ _ _). eauto.
  - at_limit; [by eauto|]. apply IH; lia.
Qed.

Lemma listen_loop_total c arrivals finish now : ∀ fuel refused st,
  (MAX_REFUSED_ACCEPTS_PER_POLL ≤ fuel + refused)%nat → (refused < MAX_REFUSED_ACCEPTS_PER_POLL)%nat →
  is_Some (listen_loop c arrivals fuel refused finish now st).
Proof.
  induction fuel as [|fuel IH]; intros refused st Hf Hr; [lia|]. cbn [listen_loop].
  destruct (arrivals refused) as [[[s addr]|e]|]; [|by eauto..].
  destruct (check _ _ _ _ _) as [[a|e] st1]; [by eauto|].
  at_limit; [by eauto|]. apply IH; lia.
Qed.

Lemma loopback_listen_loop_total c rx alive finish now : ∀ fuel refused v st,
  (MAX_REFUSED_ACCEPTS_PER_POLL ≤ fuel + refused)%nat → (refused < MAX_REFUSED_ACCEPTS_PER_POLL)%nat →
  is_Some (loopback_listen_loop c rx alive fuel refused finish now v st).
Proof.
  induction fuel as [|fuel IH]; intros refused v st Hf Hr; [lia|]. cbn [loopback_listen_loop].
  destruct (recv_conn v rx alive) as [[[conn|]|] v1]; [|by eauto..].
  destruct (check _ _ _ _ _) as [[a|e] st1]; [by eauto|].
  at_limit; [by eauto|]. apply IH; lia.
Qed.

(** A round that is not the last refused somebody. *)
Lemma merged_loop_total c arrivals rx alive finish now : ∀ fuel round refused closed v st,
  (MAX_REFUSED_ACCEPTS_PER_POLL ≤ fuel + refused)%nat → (refused < MAX_REFUSED_ACCEPTS_PER_POLL)%nat →
  is_Some (merged_loop c arrivals rx alive fuel round refused closed finish now v st).
Proof.
  induction fuel as [|fuel IH]; intros round refused closed v st Hf Hr; [lia|]. cbn [merged_loop].
  unfold merged_network, merged_loopback.
  destruct (arrivals round) as [[[s addr]|e]|]; [|by eauto|].
  - destruct (check _ addr _ _ _) as [[a|e] st1]; [by eauto|].
    destruct closed; [|destruct (recv_conn v rx alive) as [[[conn|]|] v1];
      [destruct (check _ _ _ _ _) as [[b|e2] st2]; [by eauto|]| |]];
      cbn [negb]; at_limit; eauto; apply IH; lia.
  - destruct closed; [|destruct (recv_conn v rx alive) as [[[conn|]|] v1];
      [destruct (check _ _ _ _ _) as [[b|e2] st2]; [by eauto|]| |]];
      cbn [negb]; at_limit; eauto; apply IH; lia.
Qed.

(** Two sequences of answers that agree in the first rounds. *)
Definition agree {A} (f g : nat → A) (n : nat) : Prop := ∀ k, (k < n)%nat → f k = g k.

Lemma accept_loop_agree c oss oss' now :
  agree oss oss' MAX_REFUSED_ACCEPTS_PER_CALL → ∀ fuel refused w,
  (refused < MAX_REFUSED_ACCEPTS_PER_CALL)%nat →
  accept_loop c oss fuel refused now w = accept_loop c oss' fuel refused now w.
Proof.
  intros Ha. induction fuel as [|fuel IH]; intros refused w Hr; [done|]. cbn [accept_loop].
  rewrite (Ha _ Hr). destruct (tcp_accept _ _ _) as [[[[a|]|e] t] v]; [|done..].
  destruct (judge_accepted _ _ _ _ _) as [[al|] st]; [done|]. at_limit; [done|]. apply IH; lia.
Qed.

Lemma listen_loop_agree c f g finish now :
  agree f g MAX_REFUSED_ACCEPTS_PER_POLL → ∀ fuel refused st,
  (refused < MAX_REFUSED_ACCEPTS_PER_POLL)%nat →
  listen_loop c f fuel refused finish now st = listen_loop c g fuel refused finish now st.
Proof.
  intros Ha. induction fuel as [|fuel IH]; intros refused st Hr; [done|]. cbn [listen_loop].
  rewrite (Ha _ Hr). destruct (g refused) as [[[s addr]|e]|]; [|done..].
  destruct (check _ _ _ _ _) as [[a|e] st1]; [done|]. at_limit; [done|]. apply IH; lia.
Qed.

Lemma merged_loop_agree c f g rx alive finish now :
  agree f g MAX_REFUSED_ACCEPTS_PER_POLL → ∀ fuel round refused closed v st,
  (round ≤ refused < MAX_REFUSED_ACCEPTS_PER_POLL)%nat →
  merged_loop c f rx alive fuel round refused closed finish now v st
  = merged_loop c g rx alive fuel round refused closed finish now v st.
Proof.
  intros Ha. induction fuel as [|fuel IH]; intros round refused closed v st Hr; [done|].
  cbn [merged_loop]. rewrite (Ha round) by lia. unfold merged_network, merged_loopback.
  destruct (g round) as [[[s addr]|e]|]; [destruct (check _ addr _ _ _) as [[a|e] st1]; [done|]
    |done|]; (destruct closed; [|destruct (recv_conn v rx alive) as [[[conn|]|] v1];
      [destruct (check _ _ _ _ _) as [[b|e2] st2]; [done|]| |]]);
      cbn [negb]; at_limit; try done; apply IH; lia.
Qed.

Lemma backlogs_drop_conn v x : fb_backlogs (drop_conn v x) = fb_backlogs v.
Proof. by destruct x as [? ? [rx|] [tx|]]. Qed.

(** The connections waiting at a virtual listener, and that at most [k] of them
    were taken off, from the front. *)
Definition waiting (v : Fabric) (ch : Channel) : list TcpConn :=
  match fb_backlogs v !! ch with Some b => bl_queue b | None => [] end.
Definition taken (k : nat) (v v' : Fabric) : Prop :=
  ∀ ch, ∃ j, (j ≤ k)%nat ∧ waiting v' ch = drop j (waiting v ch).

Lemma taken_same k v v' : (∀ ch, waiting v' ch = waiting v ch) → taken k v v'.
Proof. intros Hw ch. exists 0%nat. split; [lia|]. by rewrite Hw. Qed.

Lemma taken_refl k v : taken k v v.
Proof. by apply taken_same. Qed.

Lemma taken_trans k1 k2 v1 v2 v3 : taken k1 v1 v2 → taken k2 v2 v3 → taken (k1 + k2) v1 v3.
Proof.
  intros H1 H2 ch. destruct (H1 ch) as (j1 & Hj1 & E1), (H2 ch) as (j2 & Hj2 & E2).
  exists (j1 + j2)%nat. split; [lia|]. by rewrite E2, E1, drop_drop.
Qed.

Lemma waiting_drop_conn v x ch : waiting (drop_conn v x) ch = waiting v ch.
Proof. unfold waiting. by rewrite backlogs_drop_conn. Qed.

Lemma waiting_set v ch b b' ch' :
  fb_backlogs v !! ch = Some b → bl_queue b' = bl_queue b → waiting (set_backlog v ch b') ch' = waiting v ch'.
Proof.
  intros Hb Hq. unfold waiting. simpl. destruct (decide (ch = ch')) as [<-|Hne].
  - by rewrite lookup_insert_eq, Hb.
  - by rewrite lookup_insert_ne.
Qed.

Lemma pop_taken v rx r v' : pop_backlog v rx = (r, v') → taken 1 v v'.
Proof.
  unfold pop_backlog. destruct (fb_backlogs v !! rx) as [b|] eqn:Eb;
    [|intros [= _ <-]; apply taken_refl].
  destruct (bl_queue b) as [|x q] eqn:Eq; intros [= _ <-]; [apply taken_refl|]. intros ch.
  unfold waiting. simpl. destruct (decide (rx = ch)) as [<-|Hne].
  - exists 1%nat. split; [lia|]. by rewrite lookup_insert_eq, Eb, Eq.
  - exists 0%nat. split; [lia|]. by rewrite lookup_insert_ne.
Qed.

(** What accept hands out. *)
Definition is_connection (t : TcpSocket) : Prop :=
  match t with
  | TNetwork _ => True
  | TLoopback lo => ∃ x b, lt_state lo = LtConnected x b
  | TUnspecified _ _ => False
  end.

Lemma waiting_refuse t v ch : is_connection t → waiting (tcp_refuse t v) ch = waiting v ch.
Proof.
  destruct t as [s|lo|s lo]; simpl; [|intros (x & b & ->); apply waiting_drop_conn|done].
  intros _. unfold drop_net_state. destruct (nt_state s) as [| | | | | |[[r|tx]|e]| | |]; try done. simpl.
  unfold drop_permit. destruct (fb_backlogs v !! tx) eqn:E; [|done]. by apply waiting_set with b.
Qed.

Lemma lt_accept_taken lo v r lo' v' :
  lt_accept lo v = (r, lo', v') → taken 1 v v' ∧ ∀ a, r = Ok (Some a) → is_connection (TLoopback a).
Proof.
  unfold lt_accept, judge_conn.
  destruct (lt_state lo) as [| | |local rx pending| | | | |]; try (intros [= <- _ <-]; split; [apply taken_refl|done]).
  destruct pending as [x|].
  - case_bool_decide; intros [= <- _ <-]; (split; [apply taken_same; intros; by rewrite ?waiting_drop_conn|]); [|done].
    intros a [= <-]. simpl. eauto.
  - destruct rx as [rx|]; [|intros [= <- _ <-]; split; [apply taken_refl|done]].
    destruct (pop_backlog v rx) as [[x|] v1] eqn:Ep; apply pop_taken in Ep.
    + case_bool_decide; intros [= <- _ <-]; split.
      * done.
      * intros a [= <-]. simpl. eauto.
      * intros ch. rewrite waiting_drop_conn. apply Ep.
      * done.
    + intros [= <- _ <-]. split; [done|]. by destruct (listener_registered _ _ _).
Qed.

Lemma tcp_accept_taken os t v r t' v' :
  tcp_accept os t v = (r, t', v') → taken 1 v v' ∧ ∀ a, r = Ok (Some a) → is_connection a.
Proof.
  unfold tcp_accept. destruct t as [s|lo|s lo].
  - destruct (nt_accept os s) as [[[a|]|e] s1]; intros [= <- _ <-]; (split; [apply taken_refl|]);
      by intros b [= <-].
  - destruct (lt_accept lo v) as [[r1 lo1] v1] eqn:E. apply lt_accept_taken in E as [Ht Ha].
    intros [= <- _ <-]. split; [done|]. intros a. destruct r1 as [[b|]|e]; intros [= <-]. by apply Ha.
  - destruct (nt_accept os s) as [[[a|]|e] s1].
    + intros [= <- _ <-]. split; [apply taken_refl|]. by intros b [= <-].
    + destruct (lt_accept lo v) as [[r1 lo1] v1] eqn:E. apply lt_accept_taken in E as [Ht Ha].
      intros [= <- _ <-]. split; [done|]. intros a. destruct r1 as [[b|]|e]; intros [= <-]. by apply Ha.
    + intros [= <- _ <-]. split; [apply taken_refl|done].
Qed.

Lemma accept_loop_taken c oss now fuel : ∀ refused w r w',
  accept_loop c oss fuel refused now w = Some (r, w') →
  taken fuel (fabric w) (fabric w') ∧ ∀ a, r = Ok a → is_connection a.
Proof.
  induction fuel as [|fuel IH]; intros refused w r w'; cbn [accept_loop]; [done|].
  destruct (tcp_accept _ _ _) as [[r1 t1] v1] eqn:E. apply tcp_accept_taken in E as [Ht Ha].
  assert (taken (S fuel) (fabric w) v1) as Ht1.
  { exact (taken_trans 1 fuel _ _ _ Ht (taken_refl fuel v1)). }
  destruct r1 as [[a|]|e]; [|by intros [= <- <-]..]. specialize (Ha a eq_refl).
  destruct (judge_accepted _ _ _ _ _) as [[al|] st].
  - unfold keep_accepted. intros [= <- <-]. split; [done|]. intros b [= <-].
    by destruct a, (permit al).
  - assert (∀ k v', taken k (tcp_refuse a v1) v' → taken (1 + k) (fabric w) v') as Hgo.
    { intros k v' Hk. eapply taken_trans; [exact Ht|]. intros ch. destruct (Hk ch) as (j & Hj & Ej).
      exists j. split; [done|]. by rewrite Ej, waiting_refuse. }
    destruct (_ <=? _)%nat.
    + intros [= <- <-]. split; [|done]. apply Hgo. apply taken_refl.
    + intros [Hk Hr]%IH. split; [by apply Hgo|done].
Qed.

Lemma p2_accept_taken c oss now w r w' :
  p2_accept c oss now w = Some (r, w') → taken MAX_REFUSED_ACCEPTS_PER_CALL (fabric w) (fabric w').
Proof.
  unfold p2_accept. destruct (accept_loop _ _ _ _ _ _) as [[r1 w1]|] eqn:E; [|done]. simpl.
  apply accept_loop_taken in E as [Ht Ha]. destruct r1 as [a|e]; [|by intros [= _ <-]].
  specialize (Ha a eq_refl).
  assert (∀ q v, p2_streams a (fabric w1) = (q, v) → ∀ ch, waiting v ch = waiting (fabric w1) ch) as Hp.
  { intros q v. unfold p2_streams. destruct a as [s|lo|s lo]; try (by intros [= _ <-]).
    destruct (lt_state lo); intros [= _ <-]; try done. by destruct (cn_tx conn). }
  destruct (p2_streams a (fabric w1)) as [[t|e] v]; specialize (Hp _ _ eq_refl); intros [= _ <-];
    intros ch; destruct (Ht ch) as (j & Hj & Ej); exists j; (split; [done|]); simpl.
  - by rewrite Hp.
  - by rewrite waiting_refuse, Hp.
Qed.

Lemma recv_taken v rx alive r v' : recv_conn v rx alive = (r, v') → taken 1 v v'.
Proof.
  unfold recv_conn. destruct rx as [rx|]; [|intros [= _ <-]; apply taken_refl].
  destruct (pop_backlog v rx) as [[x|] v1] eqn:E; apply pop_taken in E; by intros [= _ <-].
Qed.

Lemma taken_more k v v1 v' : taken 1 v v1 → taken k v1 v' → taken (S k) v v'.
Proof. exact (taken_trans 1 k v v1 v'). Qed.

Lemma taken_drop_conn k v v' x : taken k (drop_conn v x) v' → taken k v v'.
Proof. intros Hk ch. destruct (Hk ch) as (j & Hj & Ej). exists j. by rewrite Ej, waiting_drop_conn. Qed.

Lemma loopback_listen_loop_taken c rx alive finish now fuel : ∀ refused v st o v' st',
  loopback_listen_loop c rx alive fuel refused finish now v st = Some (o, v', st') → taken fuel v v'.
Proof.
  induction fuel as [|fuel IH]; intros refused v st o v' st'; cbn [loopback_listen_loop]; [done|].
  destruct (recv_conn v rx alive) as [[[conn|]|] v1] eqn:E; apply recv_taken in E;
    [|intros [= _ <- _]; eapply taken_more; [done|apply taken_refl]..].
  destruct (check _ _ _ _ _) as [[a|e] st1];
    [intros [= _ <- _]; eapply taken_more; [done|apply taken_refl]|].
  destruct (_ <=? _)%nat.
  - intros [= _ <- _]. eapply taken_more; [done|]. eapply taken_drop_conn, taken_refl.
  - intros Hl%IH. eapply taken_more; [done|]. by eapply taken_drop_conn.
Qed.

Lemma merged_loop_taken c arrivals rx alive finish now fuel : ∀ round refused closed v st o b v' st',
  merged_loop c arrivals rx alive fuel round refused closed finish now v st = Some (o, b, v', st') →
  taken fuel v v'.
Proof.
  induction fuel as [|fuel IH]; intros round refused closed v st o b v' st'; cbn [merged_loop]; [done|].
  destruct (merged_network _ _ _ _ _) as [[[[a|] ready] n1] st1];
    [intros [= _ _ <- _]; apply taken_refl|].
  destruct (merged_loopback _ _ _ _ _ _ _ _ _) as [[[[[got ready2] closed2] n2] v2] st2] eqn:E.
  assert (taken 1 v v2) as Hv.
  { revert E. unfold merged_loopback. destruct closed; [intros [= _ _ _ _ <- _]; apply taken_refl|].
    destruct (recv_conn v rx alive) as [[[conn|]|] v1] eqn:Er; apply recv_taken in Er;
      [|by intros [= _ _ _ _ <- _]..].
    destruct (check _ _ _ _ _) as [[a|e] st3]; intros [= _ _ _ _ <- _]; [done|].
    intros ch. rewrite waiting_drop_conn. apply Er. }
  destruct got; [intros [= _ _ <- _]; eapply taken_more; [done|apply taken_refl]|].
  destruct (_ <=? _)%nat; [intros [= _ _ <- _]; eapply taken_more; [done|apply taken_refl]|].
  destruct (negb ready2); [intros [= _ _ <- _]; eapply taken_more; [done|apply taken_refl]|].
  intros Hl%IH. by eapply taken_more.
Qed.

Lemma next_connection_total c p arrivals alive finish now v st :
  ∃ o closed v1 st1, next_connection c p arrivals alive finish now v st = Some (o, closed, v1, st1)
    ∧ (∀ arrivals', agree arrivals arrivals' 32 →
         next_connection c p arrivals' alive finish now v st = Some (o, closed, v1, st1))
    ∧ taken 32 v v1.
Proof.
  unfold next_connection.
  assert (0 < MAX_REFUSED_ACCEPTS_PER_POLL)%nat as H0 by (unfold MAX_REFUSED_ACCEPTS_PER_POLL; lia).
  destruct (lp_pending p) as [a|]; [do 4 eexists; split; [done|]; split; [done|apply taken_refl]|].
  destruct (lp_kind p) as [|rx|rx].
  - destruct (listen_loop_total c arrivals finish now MAX_REFUSED_ACCEPTS_PER_POLL 0 st
      ltac:(lia) H0) as [[o s] E].
    exists o, (lp_closed p), v, s. rewrite E. split; [done|]. split; [|apply taken_refl].
    intros arrivals' Ha. by rewrite <-(listen_loop_agree c arrivals arrivals' finish now Ha), E.
  - destruct (loopback_listen_loop_total c rx alive finish now MAX_REFUSED_ACCEPTS_PER_POLL 0 v st
      ltac:(lia) H0) as [[[o v1] s] E].
    exists o, (lp_closed p), v1, s. rewrite E. split; [done|]. split; [done|].
    by eapply loopback_listen_loop_taken.
  - destruct (merged_loop_total c arrivals rx alive finish now MAX_REFUSED_ACCEPTS_PER_POLL 0 0
      (lp_closed p) v st ltac:(lia) H0) as [[[[o b] v1] s] E].
    exists o, b, v1, s. split; [done|]. split; [|by eapply merged_loop_taken].
    intros arrivals' Ha.
    by rewrite <-(merged_loop_agree c arrivals arrivals' rx alive finish now Ha) by lia.
Qed.

(** C12: accepting always ends, and soon.  However many connections a guest may
    not have are waiting, and whatever the operating system answers, p2's
    [accept] and a poll of any of p3's three streams of connections return.  What
    they return depends on the kernel's first 32 answers only, and at most 32
    connections, from the front, are taken off the backlog of a virtual listener.
    The two bounds are separate: a listener with a real and a virtual half has
    both queues to look at in one call. *)
Theorem accepting_terminates c now :
  (∀ oss w, ∃ r w',
    p2_accept c oss now w = Some (r, w')
    ∧ (∀ oss', agree oss oss' 32 → p2_accept c oss' now w = Some (r, w'))
    ∧ taken 32 (fabric w) (fabric w'))
  ∧ ∀ p arrivals alive room finish v st, ∃ answer out p' v' st',
    poll_listen c p arrivals alive room finish now v st = Some (answer, out, p', v', st')
    ∧ (∀ arrivals', agree arrivals arrivals' 32 →
         poll_listen c p arrivals' alive room finish now v st = Some (answer, out, p', v', st'))
    ∧ taken 32 v v'.
Proof.
  split.
  - intros oss w. assert (is_Some (p2_accept c oss now w)) as [[r w'] E].
    { unfold p2_accept. destruct (accept_loop_total c oss now MAX_REFUSED_ACCEPTS_PER_CALL 0 w ltac:(lia)
        ltac:(unfold MAX_REFUSED_ACCEPTS_PER_CALL; lia)) as [[r w1] ->]. simpl. eauto. }
    exists r, w'. split; [done|]. split; [|by eapply p2_accept_taken].
    intros oss' Ha. rewrite <-E. unfold p2_accept. rewrite (accept_loop_agree c oss oss' now Ha); [done|].
    unfold MAX_REFUSED_ACCEPTS_PER_CALL; lia.
  - intros p arrivals alive room finish v st.
    destruct (next_connection_total c p arrivals alive finish now v st)
      as (o & closed & v1 & st1 & E & Ha & Ht).
    unfold poll_listen. rewrite E. simpl.
    assert (∀ arrivals', agree arrivals arrivals' 32 →
      next_connection c p arrivals' alive finish now v st = Some (o, closed, v1, st1)) as Hn by done.
    destruct o as [a|q]; [destruct room|]; do 5 eexists; (split; [done|]); (split; [|done]);
      intros arrivals' Ha'; by rewrite (Hn arrivals' Ha').
Qed.

(** A connection a guest may have: the guest is not a component, and if it has an
    allowance, a real connection came out of it. *)
Definition authorised c (t : TcpSocket) : Prop :=
  guest_kind (ctx_policy c) ≠ Component
  ∧ match t with
    | TNetwork s => quota (ctx_policy c) = None ∨ is_Some (nt_slot s)
    | _ => True
    end.

Definition accept_authorised c (a : Accepted) : Prop :=
  match a with
  | AcNetwork (Err _) _ => True
  | AcNetwork (Ok _) slot =>
      guest_kind (ctx_policy c) ≠ Component ∧ (quota (ctx_policy c) = None ∨ is_Some slot)
  | AcLoopback _ => guest_kind (ctx_policy c) ≠ Component
  end.

Lemma check_accept c addr use now st a st' :
  quota_ok c → use ∈ [TcpAccept; TcpAcceptVirtual] → check c addr use now st = (Ok a, st') →
  guest_kind (ctx_policy c) ≠ Component
  ∧ (use = TcpAccept → quota (ctx_policy c) = None ∨ is_Some (permit a)).
Proof.
  intros Hq Hu Hc. destruct (check_spends c addr use now st _ _ Hq Hc) as [_ Hs]. split.
  - intros Hk. revert Hc. unfold check, decide_for_store, decide_inner, decide_use, decide_accept.
    rewrite !elem_of_cons, elem_of_nil in Hu. rewrite Hk. by destruct Hu as [-> | [-> | []]].
  - intros ->. destruct (quota (ctx_policy c)); [right|by left]. by apply Hs; eauto.
Qed.

Lemma accept_loop_authorised c oss now fuel : quota_ok c → ∀ refused w t w',
  accept_loop c oss fuel refused now w = Some (Ok t, w') → authorised c t.
Proof.
  intros Hq. induction fuel as [|fuel IH]; intros refused w t w'; cbn [accept_loop]; [done|].
  destruct (tcp_accept _ _ _) as [[[[a|]|e] t1] v]; [|done..].
  destruct (judge_accepted _ _ _ _ _) as [[al|] st] eqn:Ej;
    [|at_limit; [done|by apply IH]].
  intros [= <- _]. revert Ej. unfold judge_accepted.
  destruct (tcp_remote_address _ a) as [addr|]; [|done].
  destruct (check _ _ _ _ _) as [[b|] st1] eqn:Ec; [|done]. intros [= <- _].
  apply check_accept in Ec as [Hk Hp]; [|done|rewrite !elem_of_cons; destruct a; auto].
  split; [done|]. destruct a as [s|lo|s lo]; simpl in *; [|done..].
  destruct (Hp eq_refl) as [?|[x ->]]; [|simpl; eauto]. destruct (permit b); auto.
Qed.

Lemma listen_loop_authorised c arrivals finish now fuel : quota_ok c → ∀ refused st a st',
  listen_loop c arrivals fuel refused finish now st = Some (inl a, st') → accept_authorised c a.
Proof.
  intros Hq. induction fuel as [|fuel IH]; intros refused st a st'; cbn [listen_loop]; [done|].
  destruct (arrivals refused) as [[[s addr]|e]|]; [|by intros [= <- _]|done].
  destruct (check _ _ _ _ _) as [[b|] st1] eqn:Ec; [|at_limit; [done|by apply IH]].
  intros [= <- _]. apply check_accept in Ec as [? Hp]; [|done|rewrite !elem_of_cons; auto]. by split; auto.
Qed.

Lemma loopback_listen_loop_authorised c rx alive finish now fuel : quota_ok c → ∀ refused v st a v' st',
  loopback_listen_loop c rx alive fuel refused finish now v st = Some (inl a, v', st') →
  accept_authorised c a.
Proof.
  intros Hq. induction fuel as [|fuel IH]; intros refused v st a v' st';
    cbn [loopback_listen_loop]; [done|].
  destruct (recv_conn v rx alive) as [[[conn|]|] v1]; [|done..].
  destruct (check _ _ _ _ _) as [[b|] st1] eqn:Ec; [|at_limit; [done|by apply IH]].
  intros [= <- _ _]. by apply check_accept in Ec as [? _]; [|done|rewrite !elem_of_cons; auto].
Qed.

Lemma merged_loop_authorised c arrivals rx alive finish now fuel : quota_ok c →
  ∀ round refused closed v st a closed' v' st',
  merged_loop c arrivals rx alive fuel round refused closed finish now v st
    = Some (inl a, closed', v', st') → accept_authorised c a.
Proof.
  intros Hq. induction fuel as [|fuel IH]; intros round refused closed v st a closed' v' st';
    cbn [merged_loop]; [done|]. unfold merged_network, merged_loopback.
  destruct (arrivals round) as [[[s addr]|e]|]; [|by intros [= <- _ _ _]|].
  1: destruct (check _ addr _ _ _) as [[b|] st1] eqn:Ec;
    [intros [= <- _ _ _]; apply check_accept in Ec as [? Hp]; [|done|rewrite !elem_of_cons; auto]; by split; auto|].
  all: destruct closed; [|destruct (recv_conn v rx alive) as [[[conn|]|] v1];
      [destruct (check _ (cn_remote conn) _ _ _) as [[b|] st2] eqn:Ec2;
        [intros [= <- _ _ _]; by apply check_accept in Ec2 as [? _]; [|done|rewrite !elem_of_cons; auto]|]| |]];
      cbn [negb]; at_limit; try done; by apply IH.
Qed.

(** C6: a guest is handed only connections it may have.  A workload component is
    handed none at all, whatever its sockets' state; a service or plugin with an
    allowance gets no real connection that does not hold a slot of it.  This is
    so of p2's [accept] and of every poll of p3's streams, also for a connection
    that was accepted in one poll and handed over in a later one; the only other
    thing p3 hands over is a closed socket standing for a failed accept. *)
Theorem accepted_connections_are_authorised c now :
  quota_ok c →
  (∀ oss w t w', p2_accept c oss now w = Some (Ok t, w') → authorised c t)
  ∧ ∀ p arrivals alive room finish v st answer out p' v' st',
      (∀ a, lp_pending p = Some a → accept_authorised c a) →
      poll_listen c p arrivals alive room finish now v st = Some (answer, out, p', v', st') →
      (∀ a, lp_pending p' = Some a → accept_authorised c a)
      ∧ ∀ t, out = Some t → authorised c t ∨ t = TNetwork (new_error (lp_family p)).
Proof.
  intros Hq. split.
  - intros oss w t w'. unfold p2_accept.
    destruct (accept_loop _ _ _ _ _ _) as [[[a|e] w1]|] eqn:E; [|done..]. simpl.
    apply accept_loop_authorised in E as [Hk Ha]; [|done].
    destruct (p2_streams a (fabric w1)) as [[t1|e] v] eqn:Ep; [|done]. intros [= <- _].
    pose proof (p2_streams_keep _ _ _ _ Ep) as Hs. split; [done|].
    destruct t1 as [s1| |]; [|done..]. simpl in Hs. rewrite Hs.
    destruct a as [s|lo|s lo]; [done|simpl in Ep; by destruct (lt_state lo)|done].
  - intros p arrivals alive room finish v st answer out p' v' st' Hp. unfold poll_listen.
    destruct (next_connection _ _ _ _ _ _ _ _) as [[[[o closed] v1] st1]|] eqn:En; [|done]. simpl.
    destruct o as [a|answer1]; [|by intros [= _ <- <- _ _]].
    assert (accept_authorised c a) as Ha.
    { revert En. unfold next_connection. destruct (lp_pending p) as [b|];
        [intros [= <- _ _ _]; by apply Hp|].
      destruct (lp_kind p) as [|rx|rx].
      - destruct (listen_loop _ _ _ _ _ _ _) as [[o s]|] eqn:E; [|done]. intros [= -> _ _ _].
        by eapply listen_loop_authorised.
      - destruct (loopback_listen_loop _ _ _ _ _ _ _ _ _) as [[[o v2] s]|] eqn:E; [|done].
        intros [= -> _ _ _]. by eapply loopback_listen_loop_authorised.
      - by apply merged_loop_authorised. }
    destruct room; intros [= _ <- <- _ _]; simpl; [split; [done|]|split; [by intros ? [= <-]|done]].
    intros t. destruct a as [[s|e] slot|conn]; simpl in *; unfold authorised.
    + intros [= <-]. left. destruct slot as [x|]; simpl; [by eauto|].
      split; [by apply Ha|]. by destruct Ha as [_ [?|[? ?]]]; [left|].
    + intros [= <-]. by right.
    + destruct (lp_props p); intros [= <-]. by left.
Qed.

(** ** Two sockets of one guest *)

(** The listener and the fabric after [n] calls of accept. *)
Fixpoint after_accepts (n : nat) (srv : LoTcpSocket) (v : Fabric) : LoTcpSocket * Fabric :=
  match n with
  | O => (srv, v)
  | S n => let '(_, srv, v) := lt_accept srv v in after_accepts n srv v
  end.

(** Every accept takes one connection off, the one found earlier first. *)
Lemma accept_takes_one L ch pending srv v b x q :
  lt_state srv = LtListening L (Some ch) pending → fb_backlogs v !! ch = Some b →
  option_list pending ++ bl_queue b = x :: q →
  ∃ v' b', lt_accept srv v = (if bool_decide (cn_local x = L) then Ok (Some (accepted_lo srv x))
                              else Err Unknown, lt_set_state srv (LtListening L (Some ch) None), v')
    ∧ fb_backlogs v' !! ch = Some b' ∧ bl_queue b' = q.
Proof.
  intros Hs Hb Hq. unfold lt_accept, judge_conn, pop_backlog. rewrite Hs.
  destruct pending as [y|]; simpl in Hq.
  - injection Hq as -> <-. case_bool_decide; eexists _, b; (split; [done|]); by rewrite ?backlogs_drop_conn.
  - rewrite Hb, Hq. assert (lt_set_state srv (LtListening L (Some ch) None) = srv) as ->.
    { destruct srv; unfold lt_set_state; simpl in *. by subst. }
    case_bool_decide; eexists _, _; (split; [done|]); rewrite ?backlogs_drop_conn; simpl;
      by rewrite lookup_insert_eq.
Qed.

Lemma after_accepts_drains L ch x : ∀ ahead pending srv v b q,
  lt_state srv = LtListening L (Some ch) pending → fb_backlogs v !! ch = Some b →
  option_list pending ++ bl_queue b = ahead ++ x :: q →
  ∃ srv' v' b' pending', after_accepts (length ahead) srv v = (srv', v')
    ∧ (∀ y, accepted_lo srv' y = accepted_lo srv y) ∧ lt_state srv' = LtListening L (Some ch) pending'
    ∧ fb_backlogs v' !! ch = Some b' ∧ option_list pending' ++ bl_queue b' = x :: q.
Proof.
  induction ahead as [|y ahead IH]; intros pending srv v b q Hs Hb Hq.
  - by exists srv, v, b, pending.
  - destruct (accept_takes_one L ch pending srv v b y (ahead ++ x :: q) Hs Hb Hq)
      as (v1 & b1 & Ha & Hb1 & Hq1).
    destruct (IH None (lt_set_state srv (LtListening L (Some ch) None)) v1 b1 q eq_refl Hb1 Hq1)
      as (srv' & v' & b' & pending' & H1 & H2 & H3).
    exists srv', v', b', pending'. simpl. rewrite Ha. split; [done|]. split; [|done].
    intros z. by rewrite H2.
Qed.

(** C11: a virtual connect and the listener's accept meet.  A bound socket that
    connects to a listening one whose backlog has room gets through as soon as
    its turn comes, through two fresh pipes, and waits behind the connections
    that were there first: once the listener has accepted as many times as there
    were connections waiting (none, if the backlog was empty), the next accept
    yields the other end, in which each side has the other's address as its
    remote one and receives from the pipe the other sends to; nothing is left
    waiting. *)
Theorem virtual_connect_meets_accept os v lo srv C L ch b pending :
  lt_state lo = LtBound C → lt_state srv = LtListening L (Some ch) pending →
  connect_tcp (fb_net v) L = Ok ch → fb_backlogs v !! ch = Some b → bl_open b = true →
  Z.of_nat (length (bl_queue b)) + bl_reserved b < bl_cap b → to_turn os = true →
  ∃ lo1 v1 lo2 v2 there back,
    lt_start_connect lo L (fb_net v) = Ok (ch, lo1)
    ∧ poll_connect os v (FutVirtual ch) = (Some (Ok (CsVirtual ch)), v1)
    ∧ lt_finish_connect lo1 (Ok (CsVirtual ch)) v1 = (Ok tt, lo2, v2)
    ∧ lt_state lo2 = LtConnected {| cn_local := C; cn_remote := L; cn_rx := Some back;
                                    cn_tx := Some there |} false
    ∧ there ≠ back ∧ (fb_next v ≤ there)%nat ∧ (fb_next v ≤ back)%nat
    ∧ fb_pipes v2 !! there = Some (new_pipe 0) ∧ fb_pipes v2 !! back = Some (new_pipe 0)
    ∧ fb_net v2 = fb_net v
    ∧ ∃ srv3 v3 srv4 v4 b4,
        after_accepts (length (option_list pending ++ bl_queue b)) srv v2 = (srv3, v3)
        ∧ lt_accept srv3 v3
          = (Ok (Some (accepted_lo srv {| cn_local := L; cn_remote := C; cn_rx := Some there;
                                          cn_tx := Some back |})), srv4, v4)
        ∧ lt_state srv4 = LtListening L (Some ch) None
        ∧ fb_backlogs v4 !! ch = Some b4 ∧ bl_queue b4 = [].
Proof.
  intros Hlo Hsrv Hch Hb Ho Hr Ht.
  set (b1 := {| bl_cap := bl_cap b; bl_queue := bl_queue b; bl_reserved := bl_reserved b + 1;
                bl_open := bl_open b |}).
  set (conn := {| cn_local := L; cn_remote := C; cn_rx := Some (fb_next v);
                  cn_tx := Some (S (fb_next v)) |}).
  eexists _, (set_backlog v ch b1), _, _, (fb_next v), (S (fb_next v)).
  split; [unfold lt_start_connect; by rewrite Hlo, Hch|].
  split; [simpl; rewrite Hb, Ho, Ht; apply Z.ltb_lt in Hr; rewrite Hr; unfold b1; by rewrite Ho|].
  split; [done|]. split; [done|]. split; [lia|]. split; [lia|]. split; [lia|].
  unfold permit_send. simpl. rewrite lookup_insert_eq. simpl. rewrite Ho. simpl.
  split; [by rewrite lookup_insert_eq|].
  split; [rewrite lookup_insert_ne by lia; by rewrite lookup_insert_eq|]. split; [done|].
  match goal with |- context [after_accepts _ srv ?u] => set (v2 := u) end.
  destruct (after_accepts_drains L ch conn (option_list pending ++ bl_queue b) pending srv v2
    {| bl_cap := bl_cap b; bl_queue := bl_queue b ++ [conn]; bl_reserved := bl_reserved b + 1 - 1;
       bl_open := true |} [] Hsrv) as (srv3 & v3 & b3 & pending3 & H1 & H2 & H3 & H4 & H5).
  { unfold v2. simpl. by rewrite lookup_insert_eq. }
  { simpl. by rewrite app_assoc. }
  destruct (accept_takes_one L ch pending3 srv3 v3 b3 conn [] H3 H4 H5) as (v4 & b4 & Ha & Hb4 & Hq4).
  exists srv3, v3. eexists _, v4, b4. split; [done|].
  rewrite bool_decide_true in Ha by done. rewrite H2 in Ha. split; [exact Ha|]. done.
Qed.

(** ** Where the code falls short *)

(** a connect can lose a virtual port for good.  An unbound socket that dials
    a virtual port where nobody listens is told so, but the ephemeral port taken
    for it stays bound in the guest's network with no socket to own it; and a
    socket with both halves that dials through the kernel forgets the virtual
    half without giving its port back. *)
Theorem connect_leaks_virtual_ports os s lo addr n local n1 :
  net_connectable s addr = Ok tt → nt_is_bound s = false →
  bind_tcp n (sock_set_port addr 0) = Ok (local, n1) →
  sock_port addr ≠ 0 → (∀ tx, connect_tcp n addr ≠ Ok tx) →
  (tcp_start_connect os (TNetwork s) addr Virtual n = (Err ConnectionRefused, TNetwork s, n1)
   ∧ endpoint n local = None ∧ endpoint n1 local = Some EpBound
   ∧ tcp_drop (TNetwork s) = λ v, Some (drop_net_state v s))
  ∧ (lo_connectable lo addr = Ok tt → lt_registered n lo → listens lo = false →
     ∃ l t, tcp_start_connect os (TUnspecified s lo) addr Host n = (Ok (FutReal addr), t, n)
       ∧ owned lo = Some l ∧ endpoint n l = Some EpBound ∧ tcp_owned t = None).
Proof.
  intros Hs Hb Hbind Hp Hc. assert (0 ≤ sock_port (sock_set_port addr 0) ≤ u16_MAX) as H0.
  { rewrite sock_set_port_port. unfold u16_MAX. lia. }
  pose proof (bind_tcp_Ok _ _ _ _ H0 Hbind) as (Hip & _ & Hn & Hn1).
  destruct (bind_tcp_endpoint _ _ _ _ H0 Hbind) as [_ He]. split.
  - unfold tcp_start_connect, connect_unbound_virtual. simpl. rewrite Hs, Hb, Hbind.
    assert (connect_tcp n1 addr = Err ConnectionRefused) as ->; [|done].
    specialize (Hc). unfold connect_tcp in *. apply Z.eqb_neq in Hp. rewrite Hp in *.
    rewrite sock_set_port_ip in *. rewrite Hn1, get_set_tcp.
    destruct (decide (sock_port local = sock_port addr)) as [->|Hne];
      [by rewrite lookup_insert_eq|]. rewrite lookup_insert_ne by done.
    destruct (get_tcp_net n (sock_ip addr) !! sock_port addr) as [[|tx]|]; [done| |done].
    by destruct (Hc tx).
  - intros Hl Hr Hls. unfold lo_connectable in Hl. unfold tcp_start_connect. simpl.
    unfold lt_registered, owned, listens in *.
    destruct (lt_state lo) as [|l| | | | | | |] eqn:El; try done.
    unfold lo_connectable. rewrite Hs, El. simpl. rewrite Hl.
    exists l. eexists. split; [done|]. by destruct Hr.
Qed.

(** a quota slot can be given back while the connection it was for is open.
    Binding a real socket to loopback replaces it without looking at its state,
    and p3 drops a socket without regard to the streams taken from it: either way
    the permits return while the guest keeps the streams, and through them the
    kernel connection. *)
Theorem live_streams_outlive_their_slot c os w s x addr now w' v' st' :
  tk w = TNetwork s → nt_slot s = Some x →
  is_loopback (to_canonical (sock_ip addr)) = true →
  start_bind_checked c os w addr now = (Ok tt, w') →
  p3_tcp_drop w = Some (v', st') →
  (tstreams w' = tstreams w
   ∧ ∀ i, permits (heap (tst w')) i = permits (heap (tst w)) i + weight i x)
  ∧ ∀ i, permits (heap st') i = permits (heap (tst w)) i + weight i x.
Proof.
  intros Hw Hx Hlo Hb Hd. split.
  - revert Hb. unfold start_bind_checked.
    destruct (check c addr TcpBind now (tst w)) as [r st] eqn:Ec.
    destruct (check_no_spend _ _ _ _ _ _ _ Ec eq_refl) as [Hh Hp].
    destruct r as [a|]; [|done]. rewrite (Hp a eq_refl). simpl. rewrite Hw.
    assert (al_addr a = addr) as ->.
    { revert Ec. unfold check, decide_for_store, decide_inner, decide_use, decide_bind.
      destruct (_ || _); [|done]. by intros [= <- _]. }
    simpl. destruct (_ || _); [done|]. rewrite Hlo.
    destruct (bind_virtual_tcp os s addr (fb_net (fabric w))) as [[lo|e] n]; [|done].
    intros [= <-]. split; [done|]. intros i. unfold with_network, with_socket, let_go. simpl.
    rewrite Hw. rewrite release_slot_permits. simpl. by rewrite Hx, Hh.
  - intros i. unfold p3_tcp_drop in Hd. rewrite Hw in Hd. simpl in Hd. injection Hd as _ <-.
    rewrite release_slot_permits. simpl. by rewrite Hx.
Qed.

(** a virtual listener can be made to panic the host.  A bound virtual socket
    accepts a backlog of zero (its real counterpart refuses it), and the listen
    that follows asks for a channel of that capacity, which panics. *)
Theorem zero_backlog_panics lo l v :
  lt_state lo = LtBound l → sock_port l ≠ 0 → endpoint (fb_net v) l = Some EpBound →
  ∃ lo', lt_set_listen_backlog_size lo 0 = Ok lo' ∧ lt_start_listen lo' v = None.
Proof.
  intros Hlo Hp He. unfold lt_set_listen_backlog_size. rewrite Hlo. eexists. split; [done|].
  unfold lt_start_listen. simpl. rewrite ?Hlo. apply Z.eqb_neq in Hp. rewrite Hp.
  unfold endpoint in He. by rewrite He.
Qed.

(** on the virtual network only the family and the port of an address count
    for finding a listener, but accept compares the whole address.  Dialling
    another loopback address at a listener's port (127.0.0.2 for 127.0.0.1)
    connects; the accept that finds the connection fails with [unknown] and
    drops it.  And a socket bound to loopback dials the virtual network even
    when the policy granted the machine's. *)
Theorem virtual_listeners_are_found_by_port_only os n lo L L' srv ch v b conn q :
  same_port L L' = true → L' ≠ L →
  lt_state srv = LtListening L (Some ch) None → fb_backlogs v !! ch = Some b →
  bl_queue b = conn :: q → cn_local conn = L' →
  connect_tcp n L' = connect_tcp n L
  ∧ (∃ v', lt_accept srv v = (Err Unknown, srv, drop_conn v' conn)
      ∧ bl_queue <$> fb_backlogs v' !! ch = Some q)
  ∧ tcp_start_connect os (TLoopback lo) L' Host n = tcp_start_connect os (TLoopback lo) L' Virtual n.
Proof.
  intros Hs Hne Hl Hb Hq Hc. split; [|split; [|done]].
  - revert Hs. unfold same_port, connect_tcp, get_tcp_net.
    destruct (sock_ip L), (sock_ip L'); try done; intros ->%Z.eqb_eq; done.
  - unfold lt_accept, pop_backlog, judge_conn. rewrite Hl, Hb, Hq.
    rewrite bool_decide_false by congruence. eexists. split; [done|].
    simpl. by rewrite lookup_insert_eq.
Qed.

End tcp_safety.

(** ** Runs *)

(** A kernel that grants everything, with somebody at the door or not. *)
Definition tcp_os_with (arrival : option (result RealStream IoError)) : TcpOs :=
  {| to_open := Ok tt; to_bind := λ _, Ok tt; to_local_addr := Ok (SocketV4 LOCALHOST_V4 40000);
     to_peer_addr := λ _, Ok (SocketV4 (Ipv4Addr_new 10 0 0 9) 5555); to_listen := λ _, Ok tt;
     to_relisten := λ _, Ok tt; to_connect := λ _, Some (Ok 7%nat); to_accept := arrival;
     to_turn := true; to_keepalive := Ok false; to_keepidle := Ok 7200; to_keepintvl := Ok 75;
     to_keepcnt := Ok 9; to_hop_limit := Ok 64; to_recv_buffer := Ok 131072;
     to_send_buffer := Ok 16384; to_set_keepalive := λ _, Ok tt; to_set_keepidle := λ _, Ok tt;
     to_set_keepintvl := λ _, Ok tt; to_set_keepcnt := λ _, Ok tt; to_set_hop_limit := λ _, Ok tt;
     to_set_recv_buffer := λ _, Ok tt; to_set_send_buffer := λ _, Ok tt |}.

Definition tcp_os_yes : TcpOs := tcp_os_with (Some (Ok 8%nat)).

Lemma tcp_os_yes_ok : tcp_os_ok tcp_os_yes.
Proof. intros a [= <-]. unfold u16_MAX. simpl. lia. Qed.

Definition idle_fabric : Fabric :=
  {| fb_net := empty_network; fb_backlogs := ∅; fb_pipes := ∅; fb_next := 0 |}.
Definition virtual_web : SocketAddr := SocketV4 LOCALHOST_V4 8080.

Definition tcp_world (t : TcpSocket) (st : PolicyState) : TcpWorld :=
  {| tk := t; fabric := idle_fabric; tst := st; tstreams := [] |}.

Lemma demo_quota_ok : quota_ok demo_ctx.
Proof. intros q [= <-]. by right. Qed.

(** Bound to loopback, a socket holds its port and no slot. *)
Definition after_bind (t : TcpSocket) (st : PolicyState) : TcpWorld :=
  (p3_tcp_bind demo_ctx tcp_os_yes (tcp_world t st) virtual_web 0).2.

Lemma bound_history t st : tcp_history demo_ctx (tcp_world t st) [] (after_bind t st).
Proof.
  apply (th_call _ _ [] _ [] _ (th_start _ _)).
  apply (tc_p3_bind _ tcp_os_yes _ virtual_web 0
    (p3_tcp_bind demo_ctx tcp_os_yes (tcp_world t st) virtual_web 0).1); [apply tcp_os_yes_ok| |].
  - unfold u16_MAX. simpl. lia.
  - apply surjective_pairing.
Qed.

Lemma tcp_socket_returns_its_permits_witness :
  ∃ t st1 v' st', tcp_create demo_ctx tcp_os_yes Ipv4 0 demo_state = (Ok t, st1)
    ∧ is_Some (tcp_slot t) ∧ tcp_slot (tk (after_bind t st1)) = None
    ∧ p3_tcp_drop (after_bind t st1) = Some (v', st')
    ∧ ∀ i, permits (heap st') i + 0 = permits (heap demo_state) i.
Proof.
  destruct (tcp_create demo_ctx tcp_os_yes Ipv4 0 demo_state) as [r st1] eqn:E.
  pose proof (tcp_socket_returns_its_permits demo_ctx tcp_os_yes Ipv4 0 demo_state r st1
    demo_quota_ok E) as Hr.
  destruct r as [t|e]; [|vm_compute in E; discriminate E]. destruct Hr as [[Hq|Hs] Hr]; [done|].
  assert (tcp_slot (tk (after_bind t st1)) = None ∧ is_Some (p3_tcp_drop (after_bind t st1)))
    as [Hn [[v' st'] Hd]].
  { vm_compute in E. injection E as <- <-. vm_compute. eauto. }
  exists t, st1, v', st'. split; [done|]. split; [done|]. split; [done|]. split; [done|].
  exact (Hr idle_fabric [] (after_bind t st1) v' st' (bound_history t st1) Hd).
Defined.

(** The database of [demo], dialled through the kernel. *)
Lemma tcp_connect_goes_where_granted_witness :
  ∃ route, granted demo (Some (ctx_names demo_ctx)) 120 Tcp db_dest route
    ∧ (db_dest = rt_addr route ∧ rt_plane route = Host).
Proof.
  refine (tcp_connect_goes_where_granted demo_ctx tcp_os_yes
    (tcp_world (TNetwork (from_state TDefault Ipv4)) demo_state) db_dest 120 (FutReal db_dest) None
    _ eq_refl _).
  vm_compute. reflexivity.
Defined.

Lemma accepting_terminates_witness :
  p2_accept demo_ctx (λ n, if (n <? 32)%nat then tcp_os_yes else tcp_os_with None) 0
    (tcp_world (TNetwork (from_state (TListening None) Ipv4)) demo_state)
  = p2_accept demo_ctx (λ _, tcp_os_yes) 0
    (tcp_world (TNetwork (from_state (TListening None) Ipv4)) demo_state).
Proof.
  destruct (proj1 (accepting_terminates demo_ctx 0) (λ _, tcp_os_yes)
    (tcp_world (TNetwork (from_state (TListening None) Ipv4)) demo_state)) as (r & w' & -> & Ha & _).
  apply Ha. intros k Hk. by rewrite (proj2 (Nat.ltb_lt k 32) Hk).
Defined.

(** A service accepts a real connection and pays for it. *)
Lemma accepted_connections_are_authorised_witness :
  ∃ s w', p2_accept demo_ctx (λ _, tcp_os_yes) 0
            (tcp_world (TNetwork (from_state (TListening None) Ipv4)) demo_state)
          = Some (Ok (TNetwork s), w')
    ∧ nt_state s = TP2Streaming 8 ∧ authorised demo_ctx (TNetwork s).
Proof.
  destruct (p2_accept demo_ctx (λ _, tcp_os_yes) 0
    (tcp_world (TNetwork (from_state (TListening None) Ipv4)) demo_state)) as [[r w']|] eqn:E;
    [|vm_compute in E; discriminate E].
  destruct r as [[s|lo|s lo]|e]; try (vm_compute in E; discriminate E).
  exists s, w'. split; [done|]. split; [vm_compute in E; by injection E as <- _|].
  exact (proj1 (accepted_connections_are_authorised demo_ctx 0 demo_quota_ok) _ _ _ _ E).
Defined.

Definition lo_socket (st : LoTcpState) : LoTcpSocket :=
  {| lt_state := st; lt_backlog := 128; lt_keep_alive_enabled := false;
     lt_keep_alive_idle_time := 7200; lt_keep_alive_interval := 75; lt_keep_alive_count := 9;
     lt_hop_limit := 64; lt_receive_buffer_size := 131072; lt_send_buffer_size := 16384;
     lt_family := Ipv4 |}.

Definition one_listener (queue : list TcpConn) : Fabric :=
  {| fb_net := set_tcp_net empty_network (V4 LOCALHOST_V4) {[ 8080 := EpListening 0 ]};
     fb_backlogs := {[ 0%nat := {| bl_cap := 128; bl_queue := queue; bl_reserved := 0;
                                   bl_open := true |} ]};
     fb_pipes := ∅; fb_next := 1 |}.

Definition client : SocketAddr := SocketV4 LOCALHOST_V4 65535.

(** One connection is ahead: the second accept yields the new one. *)
Definition earlier : TcpConn :=
  {| cn_local := virtual_web; cn_remote := SocketV4 LOCALHOST_V4 65534; cn_rx := None;
     cn_tx := None |}.

Lemma virtual_connect_meets_accept_witness :
  ∃ v2 srv3 v3 srv4 v4,
    after_accepts 1 (lo_socket (LtListening virtual_web (Some 0%nat) None)) v2 = (srv3, v3)
    ∧ lt_accept srv3 v3
      = (Ok (Some (accepted_lo (lo_socket (LtListening virtual_web (Some 0%nat) None))
           {| cn_local := virtual_web; cn_remote := client; cn_rx := Some 1%nat;
              cn_tx := Some 2%nat |})), srv4, v4)
    ∧ fb_pipes v2 !! 1%nat = Some (new_pipe 0).
Proof.
  destruct (virtual_connect_meets_accept tcp_os_yes (one_listener [earlier])
    (lo_socket (LtBound client)) (lo_socket (LtListening virtual_web (Some 0%nat) None)) client
    virtual_web 0%nat {| bl_cap := 128; bl_queue := [earlier]; bl_reserved := 0; bl_open := true |}
    None eq_refl eq_refl eq_refl eq_refl eq_refl eq_refl eq_refl)
    as (lo1 & v1 & lo2 & v2 & there & back & H1 & H2 & H3 & H4 & _ & _ & _ & H5 & _ & _ &
        srv3 & v3 & srv4 & v4 & b4 & H6 & H7 & _).
  vm_compute in H1. injection H1 as <-. vm_compute in H2. injection H2 as <-.
  vm_compute in H3. injection H3 as <- <-. vm_compute in H4. injection H4 as <- <-.
  eexists _, srv3, v3, srv4, v4. split; [exact H6|]. split; [exact H7|exact H5].
Defined.

Lemma connect_leaks_virtual_ports_witness :
  ∃ n1, tcp_start_connect tcp_os_yes (TNetwork (from_state TDefault Ipv4)) virtual_web Virtual
          empty_network = (Err ConnectionRefused, TNetwork (from_state TDefault Ipv4), n1)
    ∧ endpoint n1 client = Some EpBound.
Proof.
  destruct (bind_tcp empty_network (sock_set_port virtual_web 0)) as [[l n1]|] eqn:E;
    [|vm_compute in E; discriminate E].
  assert (l = client) as -> by (vm_compute in E; by injection E as <- _).
  destruct (connect_leaks_virtual_ports tcp_os_yes (from_state TDefault Ipv4)
    (lo_socket (LtBound client)) virtual_web empty_network client n1 eq_refl eq_refl E)
    as [(H1 & _ & H2 & _) _]; [discriminate|by intros ? [=]|].
  exists n1. exact (conj H1 H2).
Defined.

(** A service's connection, its two streams in the guest's hands. *)
Definition streaming : TcpWorld :=
  {| tk := TNetwork (nt_set_slot (from_state (TP2Streaming 7) Ipv4)
             (Some {| slot_guest := SemGuest 0 OutboundSockets; slot_global := Some SemGlobal |}));
     fabric := idle_fabric; tst := demo_state; tstreams := [RealEnd 7] |}.

Lemma live_streams_outlive_their_slot_witness :
  tstreams (start_bind_checked demo_ctx tcp_os_yes streaming virtual_web 0).2 = [RealEnd 7]
  ∧ permits (heap (tst (start_bind_checked demo_ctx tcp_os_yes streaming virtual_web 0).2)) SemGlobal
    = permits (heap demo_state) SemGlobal + 1.
Proof.
  destruct (start_bind_checked demo_ctx tcp_os_yes streaming virtual_web 0) as [r w'] eqn:E.
  destruct r as [[]|e]; [|vm_compute in E; discriminate E].
  destruct (live_streams_outlive_their_slot demo_ctx tcp_os_yes streaming
    (nt_set_slot (from_state (TP2Streaming 7) Ipv4)
       (Some {| slot_guest := SemGuest 0 OutboundSockets; slot_global := Some SemGlobal |}))
    {| slot_guest := SemGuest 0 OutboundSockets; slot_global := Some SemGlobal |} virtual_web 0 w'
    _ _ eq_refl eq_refl eq_refl E eq_refl) as [[Hs Hp] _].
  split; [exact Hs|]. exact (Hp SemGlobal).
Defined.

Lemma zero_backlog_panics_witness :
  ∃ lo', lt_set_listen_backlog_size (lo_socket (LtBound virtual_web)) 0 = Ok lo'
    ∧ lt_start_listen lo'
        (set_net idle_fabric (set_tcp_net empty_network (V4 LOCALHOST_V4) {[ 8080 := EpBound ]})) = None.
Proof. apply (zero_backlog_panics _ virtual_web); [reflexivity|discriminate|reflexivity]. Defined.

Definition other_loopback : SocketAddr := SocketV4 (Ipv4Addr_new 127 0 0 2) 8080.

Lemma virtual_listeners_are_found_by_port_only_witness :
  connect_tcp (fb_net (one_listener [])) other_loopback = connect_tcp (fb_net (one_listener [])) virtual_web
  ∧ (lt_accept (lo_socket (LtListening virtual_web (Some 0%nat) None))
       (one_listener [{| cn_local := other_loopback; cn_remote := client; cn_rx := None; cn_tx := None |}])).1.1
    = Err Unknown.
Proof.
  destruct (virtual_listeners_are_found_by_port_only tcp_os_yes (fb_net (one_listener []))
    (lo_socket (LtBound client)) virtual_web other_loopback
    (lo_socket (LtListening virtual_web (Some 0%nat) None)) 0%nat
    (one_listener [{| cn_local := other_loopback; cn_remote := client; cn_rx := None; cn_tx := None |}])
    {| bl_cap := 128;
       bl_queue := [{| cn_local := other_loopback; cn_remote := client; cn_rx := None; cn_tx := None |}];
       bl_reserved := 0; bl_open := true |}
    {| cn_local := other_loopback; cn_remote := client; cn_rx := None; cn_tx := None |} [])
    as (H1 & (v' & H2 & _) & _); [reflexivity|discriminate|reflexivity..|].
  split; [exact H1|]. by rewrite H2.
Defined.
