(* ===== verification/TcpShared.v ===== *)
(** * The TCP sockets of one workload

    The components and the service of a workload have their own sockets and their
    own policies, but one virtual network ([engine/mod.rs] makes one per workload
    and hands it to every store).  A step is one socket's operation
    ([TcpHandlers]), a poll of a stream of connections, the end of a store, or
    what streams and UDP sockets do, none of which reaches the TCP tables. *)

From Stdlib Require Import ZArith Lia.
From stdpp Require Import base list gmap strings option.
From S2P Require Import Prelude RustStr Net UriLib EgressPolicy InternalNames DeclaredPort AllowedIpName.
From S2P Require Import AllowedHosts AllowedLoopback SocketUtil Quota ResolvedNames SocketPolicy Slots.
From S2P Require Import LoopbackNet TcpStreams TcpSocket TcpPorts TcpHandlers TcpSafety.
Local Open Scope Z_scope.

Record Shared := {
  sockets : gmap nat TcpSocket;
  shared : Fabric;
}.

Section shared.
Context `{UriLib}.
Implicit Types (c : WasiSocketsCtx) (g : Shared) (w : TcpWorld) (t : TcpSocket) (v : Fabric).

(** The socket [i] as the handlers see it: its component's permits and streams
    are its own business. *)
Definition world_of g t (st : PolicyState) (l : list StreamEnd) : TcpWorld :=
  {| tk := t; fabric := shared g; tst := st; tstreams := l |}.

(** The first argument is the socket whose step it is. *)
Inductive shared_step : option nat → Shared → Shared → Prop :=
  | sh_create g i c os family now st t st' :
      sockets g !! i = None → tcp_create c os family now st = (Ok t, st') →
      shared_step (Some i) g {| sockets := <[i := t]> (sockets g); shared := shared g |}
  | sh_call g i t c st l w' :
      quota_ok c → sockets g !! i = Some t → tcp_call c (world_of g t st l) [] w' →
      shared_step (Some i) g
        {| sockets := <[i := tk w']> (sockets g); shared := fabric w' |}
  | sh_accept g i t c oss now st l j a w' :
      quota_ok c → sockets g !! i = Some t → sockets g !! j = None →
      p2_accept c oss now (world_of g t st l) = Some (Ok a, w') →
      shared_step (Some i) g
        {| sockets := <[j := a]> (<[i := tk w']> (sockets g)); shared := fabric w' |}
  | sh_poll g c p arrivals alive room finish now st answer out p' v' st' j :
      sockets g !! j = None →
      poll_listen c p arrivals alive room finish now (shared g) st
        = Some (answer, out, p', v', st') →
      shared_step None g
        {| sockets := match out with Some a => <[j := a]> (sockets g) | None => sockets g end;
           shared := v' |}
  | sh_drop g i t st l v' st' :
      sockets g !! i = Some t → p3_tcp_drop (world_of g t st l) = Some (v', st') →
      shared_step (Some i) g {| sockets := delete i (sockets g); shared := v' |}
  | sh_store_ends g i t v' :
      (** the socket's memory is freed, [drop] is not called *)
      sockets g !! i = Some t → fb_net v' = fb_net (shared g) →
      shared_step (Some i) g {| sockets := delete i (sockets g); shared := v' |}
  | sh_streams g v' :
      fb_net v' = fb_net (shared g) →
      shared_step None g {| sockets := sockets g; shared := v' |}
  | sh_udp g ip m :
      shared_step None g
        {| sockets := sockets g; shared := set_net (shared g) (set_udp_net (fb_net (shared g)) ip m) |}.

Inductive shared_reachable (v0 : Fabric) : Shared → Prop :=
  | sr_start : shared_reachable v0 {| sockets := ∅; shared := v0 |}
  | sr_step g who g' : shared_reachable v0 g → shared_step who g g' → shared_reachable v0 g'.

(** ** What a step does to the table of ports *)

Definition table g : Network := fb_net (shared g).

(** An address under no socket's port. *)
Definition unowned g (a : SocketAddr) : Prop :=
  ∀ i t l, sockets g !! i = Some t → tcp_owned t = Some l → same_port l a = false.

(** Every socket's port is in the table, and no two sockets have one port. *)
Definition ports_apart g : Prop :=
  (∀ i t, sockets g !! i = Some t → tcp_registered (table g) t)
  ∧ ∀ i j t u l, sockets g !! i = Some t → sockets g !! j = Some u → i ≠ j →
      tcp_owned t = Some l → ∀ m, tcp_owned u = Some m → same_port l m = false.

Lemma set_udp_endpoint n ip m a : endpoint (set_udp_net n ip m) a = endpoint n a.
Proof. unfold endpoint. by destruct ip, (sock_ip a). Qed.

Lemma registered_kept n n' t :
  (∀ l, tcp_owned t = Some l → endpoint n' l = endpoint n l) →
  tcp_registered n t → tcp_registered n' t.
Proof. destruct t as [s|lo|s lo]; simpl; [done| |]; intros He; by apply registered_same. Qed.

Lemma registered_present n t l : tcp_registered n t → tcp_owned t = Some l → is_Some (endpoint n l).
Proof.
  destruct t as [s|lo|s lo]; simpl; [done| |]; unfold lt_registered; intros Hr Ho; rewrite Ho in Hr;
    destruct Hr as [_ Hr], (listens lo); [destruct Hr as [ch ->]| |destruct Hr as [ch ->]|]; eauto.
Qed.

Lemma recv_conn_net v rx alive r v' : recv_conn v rx alive = (r, v') → fb_net v' = fb_net v.
Proof.
  unfold recv_conn. destruct rx as [rx|]; [|by intros [= _ <-]].
  destruct (pop_backlog v rx) as [[x|] v1] eqn:E; apply fb_net_pop in E; by intros [= _ <-].
Qed.

Lemma loopback_listen_loop_net c rx alive finish now fuel : ∀ refused v st o v' st',
  loopback_listen_loop c rx alive fuel refused finish now v st = Some (o, v', st') →
  fb_net v' = fb_net v.
Proof.
  induction fuel as [|fuel IH]; intros refused v st o v' st'; cbn [loopback_listen_loop]; [done|].
  destruct (recv_conn v rx alive) as [[[conn|]|] v1] eqn:E; apply recv_conn_net in E;
    [|by intros [= _ <- _]..].
  destruct (check _ _ _ _ _) as [[a|e] st1]; [by intros [= _ <- _]|].
  destruct (_ <=? _)%nat; [intros [= _ <- _]; by rewrite fb_net_drop_conn|].
  intros ->%IH. by rewrite fb_net_drop_conn.
Qed.

Lemma merged_loop_net c arrivals rx alive finish now fuel : ∀ round refused closed v st o b v' st',
  merged_loop c arrivals rx alive fuel round refused closed finish now v st = Some (o, b, v', st') →
  fb_net v' = fb_net v.
Proof.
  induction fuel as [|fuel IH]; intros round refused closed v st o b v' st'; cbn [merged_loop]; [done|].
  destruct (merged_network _ _ _ _ _) as [[[[a|] ready] n1] st1]; [by intros [= _ _ <- _]|].
  destruct (merged_loopback _ _ _ _ _ _ _ _ _) as [[[[[got ready2] closed2] n2] v2] st2] eqn:E.
  assert (fb_net v2 = fb_net v) as Hv.
  { revert E. unfold merged_loopback. destruct closed; [by intros [= _ _ _ _ <- _]|].
    destruct (recv_conn v rx alive) as [[[conn|]|] v1] eqn:Er; apply recv_conn_net in Er;
      [|by intros [= _ _ _ _ <- _]..].
    destruct (check _ _ _ _ _) as [[a|e] st3]; intros [= _ _ _ _ <- _]; by rewrite ?fb_net_drop_conn. }
  destruct got; [by intros [= _ _ <- _]|]. destruct (_ <=? _)%nat; [by intros [= _ _ <- _]|].
  destruct (negb ready2); [by intros [= _ _ <- _]|]. by intros ->%IH.
Qed.

(** A poll of a listening stream moves no port, and what it hands out has none. *)
Lemma poll_listen_net c p arrivals alive room finish now v st answer out p' v' st' :
  poll_listen c p arrivals alive room finish now v st = Some (answer, out, p', v', st') →
  fb_net v' = fb_net v ∧ ∀ a, out = Some a → tcp_owned a = None.
Proof.
  unfold poll_listen.
  destruct (next_connection _ _ _ _ _ _ _ _) as [[[[o closed] v1] st1]|] eqn:En; [|done]. simpl.
  assert (fb_net v1 = fb_net v) as Hv.
  { revert En. unfold next_connection. destruct (lp_pending p); [by intros [= _ _ <- _]|].
    destruct (lp_kind p) as [|rx|rx].
    - destruct (listen_loop _ _ _ _ _ _ _) as [[? ?]|]; [|done]. by intros [= _ _ <- _].
    - destruct (loopback_listen_loop _ _ _ _ _ _ _ _ _) as [[[? v2] ?]|] eqn:E; [|done].
      intros [= _ _ <- _]. by eapply loopback_listen_loop_net.
    - by apply merged_loop_net. }
  destruct o as [a|q]; [|by intros [= _ <- _ <- _]].
  destruct room; intros [= _ <- _ <- _]; (split; [done|]); [|done].
  intros t. destruct a as [[s|e] slot|conn]; simpl.
  - by destruct slot; intros [= <-].
  - by intros [= <-].
  - by destruct (lp_props p); intros [= <-].
Qed.

Lemma accept_loop_owned c oss now fuel : ∀ refused w a w',
  accept_loop c oss fuel refused now w = Some (Ok a, w') → tcp_owned a = None.
Proof.
  induction fuel as [|fuel IH]; intros refused w a w'; cbn [accept_loop]; [done|].
  destruct (tcp_accept _ _ _) as [[[[b|]|e] t1] v1] eqn:E; [|done..].
  destruct (judge_accepted _ _ _ _ _) as [[al|] st].
  - unfold keep_accepted. intros [= <- _]. apply accept_framed in E as [_ Hb].
    specialize (Hb b eq_refl). by destruct b, (permit al).
  - destruct (_ <=? _)%nat; [done|apply IH].
Qed.

Lemma p2_accept_owned c oss now w a w' : p2_accept c oss now w = Some (Ok a, w') → tcp_owned a = None.
Proof.
  unfold p2_accept. destruct (accept_loop _ _ _ _ _ _) as [[[b|e] w1]|] eqn:E; [|done..]. simpl.
  apply accept_loop_owned in E.
  destruct (p2_streams b (fabric w1)) as [[t|] v] eqn:Ep; [|done]. intros [= <- _].
  by rewrite (p2_streams_owned _ _ _ _ Ep).
Qed.

Lemma create_owned c os family now st t st' : tcp_create c os family now st = (Ok t, st') → tcp_owned t = None.
Proof.
  unfold tcp_create. destruct (check _ _ _ _ _) as [[a|] st0]; [|done].
  destruct (nt_new _ _ _); [|done]. intros [= <- _]. by destruct (permit a).
Qed.

(** A step moves no port but that of the socket whose step it is, and what a
    socket has afterwards it had, or it was free. *)
Definition steps_apart (who : option nat) g g' : Prop :=
  (∀ a, is_Some (endpoint (table g) a) →
     (∀ i t l, who = Some i → sockets g !! i = Some t → tcp_owned t = Some l →
               same_port l a = false) →
     endpoint (table g') a = endpoint (table g) a)
  ∧ ∀ j t', sockets g' !! j = Some t' →
      (who ≠ Some j ∧ sockets g !! j = Some t')
      ∨ tcp_owned t' = None
      ∨ (who = Some j ∧ tcp_registered (table g') t'
         ∧ ∃ t, sockets g !! j = Some t ∧ framed (table g) t (table g') t').

Lemma call_apart g i t c st l B w' :
  quota_ok c → sockets g !! i = Some t → tcp_registered (table g) t →
  tcp_call c (world_of g t st l) B w' →
  tcp_registered (fb_net (fabric w')) (tk w') ∧ framed (table g) t (fb_net (fabric w')) (tk w').
Proof.
  intros Hq Hi Hr Hc. destruct (tcp_call_sound c Hq [] _ _ _ Hc) as (Hr' & Hf & _).
  split; [by apply Hr'|exact Hf].
Qed.

Lemma shared_step_apart who g g' :
  (∀ i t, sockets g !! i = Some t → tcp_registered (table g) t) →
  shared_step who g g' → steps_apart who g g'.
Proof.
  intros Hr Hs. destruct Hs as [g i c os family now st t st' Hi Hc|g i t c st l w' Hq Hi Hc
    |g i t c oss now st l j a w' Hq Hi Hj Ha
    |g c p arrivals alive room finish now st answer out p' v' st' j Hj Hp
    |g i t st l v' st' Hi Hd|g i t v' Hi Hv|g v' Hv|g ip m]; unfold steps_apart, table in *; simpl in *.
  - split; [done|]. intros k u. destruct (decide (k = i)) as [->|Hk].
    + rewrite lookup_insert_eq. intros [= <-]. right; left. by eapply create_owned.
    + rewrite lookup_insert_ne by done. left. split; [congruence|done].
  - destruct (call_apart g i t c st l [] w' Hq Hi (Hr i t Hi) Hc) as [Hw Hf]. split.
    + intros b Hb Hn. apply Hf; [done|]. intros m Hm. by apply (Hn i t).
    + intros k u. destruct (decide (k = i)) as [->|Hk].
      * rewrite lookup_insert_eq. intros [= <-]. right; right. eauto 10.
      * rewrite lookup_insert_ne by done. left. split; [congruence|done].
  - pose proof (p2_accept_owned _ _ _ _ _ _ Ha) as Ho.
    apply (tc_accept c oss _ now) in Ha.
    destruct (call_apart g i t c st l _ w' Hq Hi (Hr i t Hi) Ha) as [Hw Hf]. split.
    + intros b Hb Hn. apply Hf; [done|]. intros m Hm. by apply (Hn i t).
    + intros k u. destruct (decide (k = j)) as [->|Hkj].
      { rewrite lookup_insert_eq. intros [= <-]. by right; left. }
      rewrite lookup_insert_ne by done. destruct (decide (k = i)) as [->|Hk].
      * rewrite lookup_insert_eq. intros [= <-]. right; right. eauto 10.
      * rewrite lookup_insert_ne by done. left. split; [congruence|done].
  - apply poll_listen_net in Hp as [Hv Ho]. rewrite Hv. split; [done|]. intros k u.
    destruct out as [a|]; [|by left]. destruct (decide (k = j)) as [->|Hk].
    + rewrite lookup_insert_eq. intros [= <-]. right; left. by apply Ho.
    + rewrite lookup_insert_ne by done. by left.
  - destruct (drop_registered t (shared g) (Hr i t Hi)) as (v1 & Hd1 & Hn1).
    unfold p3_tcp_drop in Hd. simpl in Hd. rewrite Hd1 in Hd. injection Hd as <- _. split.
    + intros b Hb Hn. assert (∀ m, tcp_owned t = Some m → same_port m b = false) as Hm
        by (intros m; by apply (Hn i t)).
      destruct t as [s|lo|s lo]; simpl in *; rewrite Hn1; [done| |];
        (destruct (owned lo) as [m|]; [|done]); by rewrite remove_tcp_endpoint, Hm.
    + intros k u. rewrite lookup_delete_Some. intros [Hk Hu]. left. split; [congruence|done].
  - rewrite Hv. split; [done|]. intros k u. rewrite lookup_delete_Some. intros [Hk Hu].
    left. split; [congruence|done].
  - rewrite Hv. split; [done|]. by left.
  - split; [intros; apply set_udp_endpoint|]. by left.
Qed.

Lemma steps_keep_ports who g g' : ports_apart g → steps_apart who g g' → ports_apart g'.
Proof.
  intros [Hr Ha] [Hk Ho].
  assert (∀ i t, who ≠ Some i → sockets g !! i = Some t → ∀ l, tcp_owned t = Some l →
            endpoint (table g') l = endpoint (table g) l) as Hkeep.
  { intros i t Hw Hi l Hl. apply Hk; [by eapply registered_present; eauto|].
    intros j u m Hj Hu Hm. subst who. eapply (Ha j i u t); eauto; congruence. }
  assert (∀ i j t' u l m t, i ≠ j → sockets g !! i = Some t → framed (table g) t (table g') t' →
    tcp_owned t' = Some l → sockets g !! j = Some u → tcp_owned u = Some m →
    same_port l m = false) as Hnew.
  { intros i j t' u l m t Hij Hi [_ Hf] Hl Hj Hm. apply not_true_is_false. intros Hs.
    destruct (Hf l Hl) as [Hn|(l0 & Hl0 & Hs0)].
    - destruct (registered_present _ _ m (Hr j u Hj) Hm) as [e He].
      by rewrite (same_port_endpoint _ _ _ Hs), He in Hn.
    - pose proof (same_port_trans _ _ _ Hs0 Hs) as Hs1.
      by rewrite (Ha i j t u l0 Hi Hj Hij Hl0 m Hm) in Hs1. }
  split.
  - intros i t Hi. destruct (Ho i t Hi) as [[Hw Hg]|[Hn|(_ & Hreg & _)]]; [| |done].
    + eapply registered_kept; [|by apply (Hr i)]. eauto.
    + destruct t as [s|lo|s lo]; simpl in *; [done|by apply registered_none..].
  - intros i j t u l Hi Hj Hij Hl m Hm.
    destruct (Ho i t Hi) as [[Hwi Hgi]|[Hni|(-> & _ & t0 & Hgi & Hfi)]],
      (Ho j u Hj) as [[Hwj Hgj]|[Hnj|(Hwj & _ & u0 & Hgj & Hfj)]]; try congruence.
    + by eapply (Ha i j).
    + rewrite same_port_sym. by eapply (Hnew j i).
    + by eapply (Hnew i j).
Qed.

Lemma shared_ports_apart v0 g : shared_reachable v0 g → ports_apart g.
Proof.
  induction 1 as [|g who g' _ IH Hs].
  - split; intros i; [intros t|intros j t u l]; simpl; by rewrite lookup_empty.
  - eapply steps_keep_ports; [exact IH|]. apply shared_step_apart; [apply IH|done].
Qed.

Lemma others_stay who g g' i t :
  shared_step who g g' → who ≠ Some i → sockets g !! i = Some t → sockets g' !! i = Some t.
Proof.
  intros Hs Hw Hi. destruct Hs; simpl; try done;
    repeat match goal with
    | |- context [match ?o with Some _ => _ | None => _ end] => destruct o
    | |- <[?k := _]> _ !! _ = _ => destruct (decide (k = i)) as [->|]; [congruence|rewrite lookup_insert_ne by done]
    | |- delete ?k _ !! _ = _ => rewrite lookup_delete_ne by congruence
    end; done.
Qed.

(** C8: the virtual port a TCP socket holds is its own.  Whatever the sockets of
    the workload have done, in any order, through p2 and p3 and each under its
    policy (whose allowance, if any, draws on the host's): the port a socket holds
    is in the network's table, as a listener's exactly when the socket listens; no
    other socket holds it; and its entry is changed by no step of another socket,
    be it the end of that socket's store, nor by streams or UDP sockets.  Dropping
    a socket (in p2, one whose streams are gone, as the resource table demands)
    cannot trap, frees the port it holds at that time, and touches no other entry.
    (Ports that no socket holds any more are not given back by anything: see
    [connect_leaks_virtual_ports] and [lost_port_stays_taken].) *)
Theorem tcp_virtual_port_is_returned v0 g :
  shared_reachable v0 g →
  (∀ i t l, sockets g !! i = Some t → tcp_owned t = Some l →
     tcp_registered (table g) t
     ∧ (∀ j u m, sockets g !! j = Some u → tcp_owned u = Some m → same_port l m = true → j = i)
     ∧ ∀ who g', shared_step who g g' → who ≠ Some i →
         sockets g' !! i = Some t ∧ endpoint (table g') l = endpoint (table g) l)
  ∧ ∀ i t st ss, sockets g !! i = Some t →
      ∃ v' st', p3_tcp_drop (world_of g t st ss) = Some (v', st')
      ∧ ∀ a, endpoint (fb_net v') a
             = if is_some_and (tcp_owned t) (λ l, same_port l a) then None
               else endpoint (table g) a.
Proof.
  intros Hg. apply shared_ports_apart in Hg as [Hr Ha]. split.
  - intros i t l Hi Hl. split; [by apply (Hr i)|]. split.
    + intros j u m Hj Hm Hs. destruct (decide (j = i)); [done|].
      by rewrite (Ha i j t u l Hi Hj ltac:(done) Hl m Hm) in Hs.
    + intros who g' Hs Hw. split; [by eapply others_stay|].
      apply (shared_step_apart _ _ _ Hr Hs); [by eapply registered_present; eauto|].
      intros j u m Hj Hu Hm. subst who. eapply (Ha j i u t); eauto; congruence.
  - intros i t st ss Hi. destruct (drop_registered t (shared g) (Hr i t Hi)) as (v' & Hd & Hn).
    unfold p3_tcp_drop. simpl. rewrite Hd. simpl. eexists _, _. split; [done|]. intros a.
    destruct t as [s|lo|s lo]; simpl in *; rewrite Hn; [done| |];
      (destruct (owned lo) as [l|]; simpl; [apply remove_tcp_endpoint|done]).
Qed.

(** ** Ports nobody holds *)

Definition any_step g g' : Prop := ∃ who, shared_step who g g'.

Lemma steps_keep_unowned who g g' a :
  ports_apart g → shared_step who g g' → is_Some (endpoint (table g) a) → unowned g a →
  endpoint (table g') a = endpoint (table g) a ∧ unowned g' a.
Proof.
  intros Hp Hs Ha Hu. destruct (shared_step_apart _ _ _ (proj1 Hp) Hs) as [Hk Ho].
  split; [apply Hk; [done|]; intros i t l _; apply Hu|].
  intros i t l Hi Hl. destruct (Ho i t Hi) as [[_ Hg]|[Hn|(_ & _ & t0 & Hg & _ & Hf)]];
    [by eapply Hu|congruence|].
  apply not_true_is_false. intros Hsp. destruct (Hf l Hl) as [Hn|(l0 & Hl0 & Hs0)].
  - rewrite (same_port_endpoint _ _ _ Hsp) in Hn. rewrite Hn in Ha. by destruct Ha.
  - pose proof (same_port_trans _ _ _ Hs0 Hsp) as Hx. by rewrite (Hu i t0 l0 Hg Hl0) in Hx.
Qed.

(** a store that ends with a socket in it loses the socket's virtual port for
    good.  The port is given back by [drop], which nobody calls for a socket that
    is still in the table when its store goes; the network outlives the store, so
    the entry stays whatever the workload does afterwards, and binding to that
    port fails from then on. *)
Theorem lost_port_stays_taken v0 g i t l v' g' :
  shared_reachable v0 g → sockets g !! i = Some t → tcp_owned t = Some l →
  fb_net v' = table g → rtc any_step {| sockets := delete i (sockets g); shared := v' |} g' →
  endpoint (table g') l = endpoint (table g) l ∧ bind_tcp (table g') l = Err AddressInUse.
Proof.
  intros Hg Hi Hl Hv Hs. pose proof (shared_ports_apart _ _ Hg) as [Hr Ha].
  pose proof (registered_present _ _ _ (Hr i t Hi) Hl) as Hp.
  assert (sock_port l ≠ 0) as H0.
  { specialize (Hr i t Hi). destruct t as [s|lo|s lo]; simpl in *; [done| |]; unfold lt_registered in Hr;
      rewrite Hl in Hr; lia. }
  assert (endpoint (table g') l = endpoint (table g) l) as He.
  { assert (∀ g1, rtc any_step g1 g' → ports_apart g1 → unowned g1 l →
      endpoint (table g1) l = endpoint (table g) l → endpoint (table g') l = endpoint (table g) l) as Hind.
    { clear Hs. intros g1 Hrtc. induction Hrtc as [g1|g1 g2 g3 [who H12] _ IH]; intros Hp1 Hu1 He1; [done|].
      destruct (steps_keep_unowned who g1 g2 l Hp1 H12) as [He2 Hu2]; [by rewrite He1|done|].
      apply IH; [|done|congruence]. eapply steps_keep_ports; [done|].
      apply shared_step_apart; [apply Hp1|done]. }
    apply (Hind _ Hs); [| |unfold table; simpl; by rewrite Hv].
    - apply (shared_ports_apart v0). eapply sr_step; [exact Hg|]. by eapply sh_store_ends.
    - intros j u m. simpl. rewrite lookup_delete_Some. intros [Hj Hu] Hm.
      rewrite same_port_sym. eapply (Ha i j t u l); eauto. }
  split; [done|]. unfold bind_tcp, LoopbackNet.bind. apply Z.eqb_neq in H0. rewrite H0. simpl.
  rewrite <-He in Hp. destruct Hp as [e Hp]. unfold endpoint in Hp. by rewrite Hp.
Qed.

End shared.

(** ** Runs *)

(** A socket is created and binds 127.0.0.1:8080. *)
Definition one_socket (t : TcpSocket) : Shared := {| sockets := {[ 0%nat := t ]}; shared := idle_fabric |}.

Definition bound_socket (t : TcpSocket) (st : PolicyState) : Shared :=
  {| sockets := <[0%nat := tk (after_bind t st)]> {[ 0%nat := t ]};
     shared := fabric (after_bind t st) |}.

Lemma bound_socket_reachable t st :
  tcp_create demo_ctx tcp_os_yes Ipv4 0 demo_state = (Ok t, st) →
  shared_reachable idle_fabric (bound_socket t st).
Proof.
  intros E. eapply sr_step; [eapply sr_step; [apply sr_start|]|].
  - apply (sh_create _ 0 demo_ctx tcp_os_yes Ipv4 0 demo_state t st); [done|exact E].
  - apply (sh_call (one_socket t) 0 t demo_ctx st [] (after_bind t st));
      [apply demo_quota_ok|apply lookup_singleton_eq|].
    apply (tc_p3_bind _ tcp_os_yes _ virtual_web 0
      (p3_tcp_bind demo_ctx tcp_os_yes (tcp_world t st) virtual_web 0).1); [apply tcp_os_yes_ok| |].
    + unfold u16_MAX. simpl. lia.
    + apply surjective_pairing.
Qed.

Lemma tcp_virtual_port_is_returned_witness :
  ∃ t st v' st', tcp_create demo_ctx tcp_os_yes Ipv4 0 demo_state = (Ok t, st)
    ∧ endpoint (table (bound_socket t st)) virtual_web = Some EpBound
    ∧ p3_tcp_drop (world_of (bound_socket t st) (tk (after_bind t st)) st []) = Some (v', st')
    ∧ endpoint (fb_net v') virtual_web = None.
Proof.
  destruct (tcp_create demo_ctx tcp_os_yes Ipv4 0 demo_state) as [r st] eqn:E.
  destruct r as [t|e]; [|vm_compute in E; discriminate E].
  destruct (tcp_virtual_port_is_returned idle_fabric (bound_socket t st)
    (bound_socket_reachable t st E)) as [_ Hd].
  destruct (Hd 0%nat (tk (after_bind t st)) st [] (lookup_insert_eq _ _ _)) as (v' & st' & Hdrop & He).
  exists t, st, v', st'. split; [done|].
  assert (endpoint (table (bound_socket t st)) virtual_web = Some EpBound
    ∧ tcp_owned (tk (after_bind t st)) = Some virtual_web) as [Hb Ho].
  { vm_compute in E. injection E as <- <-. by vm_compute. }
  split; [done|]. split; [done|]. by rewrite He, Ho.
Defined.
